(* ===== verification/_CoqProject ===== *)
-Q . S2P
Prelude.v
Float32.v
Float64.v
VarInt.v
Positions.v
ChunkPyramid.v
ChunkTickets.v
ChunkScheduler.v
TimedTickets.v
BitPack.v
Palette.v
RegionFormat.v
RegionManager.v
TickList.v
TickScheduler.v
FullNeighborhood.v
TickOwnership.v
ChunkHolder.v
ChunkMap.v
ChunkMapInv.v
ChunkMapCommit.v
ChunkMapEpoch.v
ChunkMapReconcile.v
ChunkMapSafety.v
ChunkMapSystem.v
ChunkSaves.v
ChunkGeneration.v
PlayerView.v
ChunkSender.v
PlayerTracking.v
ChunkBroadcast.v
ClientMirror.v
Items.v
Containers.v
Menus.v
MenuItems.v
MenuBuilder.v
EntityManager.v
EntityIndexes.v
EntityInvariant.v
EntityLifecycle.v
EntityMoves.v
EntityQueries.v
EntitySystem.v
EntityTicking.v
Texts.v
Permissions.v
PermissionRules.v
PermissionExpressions.v
PermissionSubjects.v
PermissionGroups.v
PermissionInheritance.v
PermissionEffective.v
CommandReader.v
CommandTree.v
CommandRegistration.v
CommandArena.v
CommandDispatch.v
CommandParse.v
CommandParsing.v
CommandChain.v
CommandSuggestions.v
CommandCompletion.v
