(* ===== verification/Prelude.v ===== *)
(** * A verification library for the Steel server core

    Steel is a Minecraft server written in Rust.  This library models the part of it that
    keeps a world together while chunks come and go: which chunks must be loaded and how
    far generated, how that decision reaches the world from many threads, how blocks are
    stored in memory and on disk, which block and fluid updates run in a tick, what the
    players' clients are told of it, which entities live where, how items move through
    inventories and menus, who may do what, and the wire and packed encodings these parts
    rely on.

    ** The program and its models

    - Chunk tickets ([src/steel-core/src/chunk/status.rs], [chunk_pyramid.rs],
      [chunk_ticket_manager.rs]).  A ticket at a position asks for a load level and
      possibly a simulation level; levels spread with the Chebyshev distance, and a level
      stands for the generation status a chunk may reach.  [ChunkPyramid] models the
      statuses, [ChunkDependencies], the pyramid builder and the two pyramids, which the
      source computes in constant expressions and the model computes with the same
      functions.  [ChunkTickets] models the levels, the tickets and
      [ChunkTicketManager], with hash maps as [gmap]s: [run_all_updates] is the two
      nested loops over every source, the comparison with the old levels and the
      simulation-only changes.  [TimedTickets] models [TimedChunkTickets]: portal and
      ender pearl tickets with a countdown and their persistent form, and the queued
      ticket operations of [ChunkMap].
    - The scheduling epoch ([chunk_scheduler.rs], [chunk_map/mod.rs]).
      [ChunkScheduler] models [ChunkSchedulingCoordinator] and the threads around it:
      gameplay threads queue ticket operations, the driving thread takes boundary steps
      and commits, a background worker applies what was queued and propagates.  Each
      critical section of the source is one step of [system_step]; interleavings are
      sequences of steps.
    - The chunk map ([chunk_holder.rs], [full_chunk_readiness.rs],
      [chunk_map/generation_readiness.rs], [chunk_map/persistence.rs]).  [ChunkHolder]
      models one holder with its atomic fields as the integers the source stores, and the
      producer tasks that own a claim on it, one atomic action per step.
      [FullNeighborhood] models the incremental counters of Full neighbours.  [ChunkMap]
      models the commit of an epoch and the unload pass as programs over the shared map
      that give way to the other threads ([interfere]) between their steps;
      [TickOwnership] is the interface of the tick scheduler that the map relies on, with
      [WorldTickScheduler] as its instance.  The proofs are layered: [ChunkMapInv] (the
      invariant and what the other threads preserve), [ChunkMapCommit] (readiness and
      pending entries), [ChunkMapEpoch] (one level change), [ChunkMapReconcile] (all of
      them, and the reconciliation), [ChunkMapSafety] (a whole commit), [ChunkMapSystem]
      (unloading, histories, and the theorems about them).  [ChunkSaves] follows one holder
      through its save tasks and the unload pass, action by action.
    - Generation tasks ([chunk_generation_task.rs] and the queue of
      [generation_readiness.rs]).  [ChunkGeneration] models the square cache of holders,
      the queue with its limit and priorities, the task loop that schedules one layer per
      round, and the scheduling from an epoch.
    - Chunk contents ([paletted_container.rs], [chunk_saver/bit_pack.rs]).  [Palette]
      models [PalettedContainer] in its three modes, with the palette's reference counts
      as [u16], and its network form; [BitPack] the index words of the storage format.
    - Region files ([chunk_saver/format.rs], [region_manager.rs]).  [RegionFormat]
      models the chunk table, its byte form, the sector allocator and the validation;
      [RegionManager] the manager over a file system of byte lists: open, create,
      back up a foreign version, save, load, discard a corrupt payload, acquire,
      release, flush and close.
    - Scheduled ticks ([world/tick_scheduler]).  [TickList] models one queue of a chunk
      (pending saved ticks, binary heap of live ones, the set of keys) and the batch
      being executed; [TickScheduler] the containers shared between chunks and the world
      index, and the index itself: registration, unpacking, scheduling, reconciliation
      of the active chunks, and the collection of a batch.
    - Players ([chunk/player_chunk_view.rs], [world/player_index/area.rs],
      [chunk_map/player_tracking.rs], [player/chunk_sender.rs]).  [PlayerView] models the
      circular views, their difference and the spatial index of the players; [ChunkSender]
      the batches of chunks with their quota, in [Float32] arithmetic; [PlayerTracking] the
      players who join, move and leave while batches are prepared and committed.
      [ChunkBroadcast] adds the blocks: the changes a holder collects, the encoding of
      chunks with its cache, and the broadcast, as threads that interleave; [ClientMirror]
      proves what a client ends up with.
    - Entities ([src/steel-core/src/entity/manager/mod.rs], [entity/ticking.rs]).
      [EntityManager] models [WorldEntityManager]: the live entities, their indexes by UUID,
      section, chunk and spatial cell (in [Float64] arithmetic), the lists of accessible and
      ticking entities, chunk unloading with recovery, and saving.  Entity objects change on
      their own, so the operations take a view of them ([entities]).  [EntityIndexes],
      [EntityInvariant], [EntityLifecycle], [EntityMoves] and [EntityQueries] hold the
      invariant and the lemma of each operation, [EntitySystem] the operations in any order
      and the theorems, and [EntityTicking] the tick pass with its passengers.
    - Inventories ([src/steel-registry/src/item_stack.rs],
      [src/steel-core/src/inventory], [player/player_inventory]).  [Items] models stacks
      and their comparison by effective components, [Containers] the [Container] trait with
      the player's inventory and barrels, [Menus] the slots, the clicks and their handlers,
      [MenuItems] proves that clicks conserve items, and [MenuBuilder] models the builder
      of menus and the chest menu.
    - Permissions ([src/steel-core/src/permission],
      [player/player_data_storage/permissions.rs]).  [Texts] holds the operations of [str]
      that this code uses; [Permissions] models keys, contexts, sets of rules with their
      resolution and expressions; [PermissionRules] proves what a set decides;
      [PermissionExpressions] models the text of rules, with the printer; [PermissionSubjects]
      metadata, the subjects and their file form; [PermissionGroups] the configured groups,
      their validation, the effective rules and the manager that replaces them, about which
      [PermissionInheritance] and [PermissionEffective] prove the theorems.
    - Commands ([src/steel-core/src/command/brigadier]).  [CommandReader] models the reader of
      input, with its cursors in UTF-8 and UTF-16, and the built-in arguments; [CommandTree]
      the nodes, trees and the arena of a dispatcher with its registration, which
      [CommandRegistration], [CommandArena] and [CommandDispatch] relate to the merging of
      trees; [CommandParse] the parser and its contexts, with the lemmas in
      [CommandParsing]; [CommandChain] the stages that run a command; [CommandSuggestions]
      the completions, with the lemmas in [CommandCompletion].
    - Encodings ([src/steel-utils/src/codec/variable_integer.rs], [front_vec.rs],
      [types/position.rs], [types/packed_position.rs]).  [VarInt] models the
      variable-length integers and the buffer with reserved front space; [Positions] the
      positions and their packed forms.

    The parts use one another as in the source: the ticket manager reads the generation
    pyramid, the coordinator carries the ticket manager, timed tickets queue operations
    into the coordinator, the chunk map commits the level changes of an epoch, reads the
    neighbourhood index and drives the tick scheduler through [TickOwnership], generation
    tasks take their holders from the chunk map and their layers from the pyramid, the
    palette writes variable integers, the region table refers
    to statuses and chunk positions, the tick index to packed chunk positions.

    ** Conventions

    Machine integers are [Z] with the wrap-around written at the place where the source
    can wrap ([wrapu], [wraps] and their instances below); [in_u] and [in_s] are the
    ranges.  Array accesses and arithmetic that the source cannot get out of range are
    not wrapped.  A panic (index out of range, failed assertion, [unreachable!]) is
    [None]; an error result is a value of [result].  A loop is a structural recursion, or
    takes fuel; the fuel is chosen from the data (the number of cells, ticks, deadlines,
    groups, or the byte limit of an encoding) and the theorems state that a result is produced,
    so that running out of it is excluded by proof.  The generation counter in the readiness
    word has 62 bits and panics when it is exhausted; theorems on histories ask for at most
    [MAX_GENERATION / 3] commits, three transitions of one holder being the most a commit
    makes.  Debug assertions are not modelled.

    ** What the theorems show

    - Tickets: propagation computes for every position the least level any ticket
      reaches, reports exactly the positions whose levels changed, and the levels permit
      every dependency that generating a chunk needs; the pyramids' accumulated tables
      are the transitive closure of the direct ones.
    - Scheduling: operations are applied in submission order, the committed revision and
      the delivered changes always describe the same levels, at most one worker runs at
      a time, the assertion at the hand-off never fails, and the hand-over never gets stuck:
      whatever was queued can be committed from any reachable state, as long as the
      generation and unload steps of the epochs return.
    - Chunk map: no history of commits, unload passes and actions of generation and save
      tasks panics; the levels of the map are those the commits assign; a chunk ticks only
      when its level and the Full square around it permit it, and the published ticking
      snapshot lists exactly the ticking chunks; a commit hands on exactly the holders it
      changed; a holder that is dropped has its last change on disk, whatever its save
      tasks met; the neighbourhood counters equal a recount.
    - Generation tasks: a task ends, never panics once created, and schedules a layer only
      when everything its stages read is published; the queue respects its limit and
      priorities; creating a task needs every holder of its square, which a revival
      deferred by a running save can break.
    - Timed tickets: list and manager agree, every tick treats each ticket once, tickets
      live for their timeout, and the persistent form round-trips.
    - Palettes: [set] and [get] behave like an array of cells in every mode, counts stay
      exact, mode changes keep all cells, queries are exact, and the network form
      decodes to the cells.
    - Regions: the manager refines a map from chunk positions to payloads
      ([implements]): saving inserts, loading looks up, opening, closing and restarting
      change nothing; the allocator returns free sectors, validation accepts exactly the
      consistent tables, and tables round-trip.
    - Ticks: one tick per position and type, draining returns exactly the ready ticks in
      order, saving and loading keep order and remaining delays, the index agrees with
      the queues and its assertions hold in every reachable state, and a batch takes
      ready prefixes of active queues and leaves none behind while there is room.
    - Players: the difference of two views is exact, clients have and are promised exactly
      the chunks of their view, the index and the tickets follow the views, batches take the
      nearest chunks; once all changes are reported and broadcast, a client has the blocks of
      the server in every chunk sent to it, up to blocks last reported without the flag for
      clients or in a packet that could not be encoded; one broadcast is enough.
    - Entities: in every reachable state the indexes equal a recount of the live entities, and
      operations on fresh ids, without cycles of vehicles and with room in the section order
      do not panic; box queries return what a search of all entities
      returns, in order; saving meets every entity once; a chunk that unloads and loads again
      has its entities back; in a tick pass each entity ticks at most once, passengers after
      their vehicle.  Coordinates are finite, boxes are ordered and chunk coordinates have
      22 bits, as the packed sections need.
    - Inventories: in menus whose slots have no limit of their own (armor slots have one) no
      click panics or loops for ever, and clicks of a player without
      infinite materials, also through slots that view the same position, neither lose nor
      make items; parsed clicks are valid; built menus have their slots, routes and drains in
      place, and two slots share a position only through a section of the player's inventory;
      adding to and clearing a container do what they say.
    - Permissions: keys match segment by segment; the strongest matching rules decide a
      request, whatever their order, and a deny wins among equals; validation of groups ends
      and accepts exactly what has no dangling and no cyclic inheritance; each group that a
      subject reaches contributes once, after the groups it inherits; subjects survive saving
      with every decision unchanged; the manager never holds groups the store has not saved.
    - Commands: registering a command does to the arena of nodes what merging trees by name
      does, or reports an error and changes nothing; parsing returns on every input, and
      what it returns is a path along nodes that the source may use; only executors the
      source may run are run, in the order of the stages; the built-in arguments read exactly
      the text of their values; suggestions come from allowed nodes and replace the same text
      after they are brought to one range.  The sort of suggestions that mix integers and
      texts has no order to go by and counts as a panic.
    - Encodings: round trips, sizes, and the outcome of reading on every input.

    ** What is not modelled

    The serializer and compressor of chunk payloads are third-party code and enter
    through the class [ChunkCodec] with the laws the theorems need; the conversion of a
    persistent chunk to a runtime chunk is a field of the same class, since it needs the
    registries and the world.  File system calls succeed (except reads past the end);
    input and output errors in the middle of a write are outside the model.  Of the chunk
    map, block entities, the contents of a save and the shutdown save are left
    out; of packets, their bytes and the light data, and chunks keep their holders while
    their changes are broadcast; of menus, result slots, the hooks of
    menu kinds and the synchronization of slots with the client; of permissions, the TOML
    text of the files; of commands, the texts of errors, the scoped requirements of builders
    and the asynchronous runtime of the server's own commands.  What a generation stage does
    to a chunk is not modelled, nor are wake-ups: waiting futures are represented by their results.  World generation, light, the
    behaviour of entities, blocks and items, networking and the generated registries are not
    modelled; the components of items come in through the class [ItemRegistry], the argument
    parsers of commands through [ArgumentParser] and their suggestions through
    [SuggestionSource].  Timings, logging and tracing have no counterpart.

    This file holds what the components share: machine integers, results, loops, the
    hint databases and tactics, and lemmas on lists, bits and loops. *)

From stdpp Require Export base numbers option sorting gmap list_numbers list.

#[global] Set Default Goal Selector "!".
Open Scope Z_scope.

(** ** Notation: machine integers as [Z] with explicit width *)

Declare Scope steel_scope.
Delimit Scope steel_scope with steel.

(** [wrapu w z] is the cast of [z] to an unsigned integer of [w] bits. *)
Definition wrapu (w z : Z) : Z := z mod 2 ^ w.

(** [wraps w z] is the cast of [z] to a two's complement integer of [w] bits. *)
Definition wraps (w z : Z) : Z := (z + 2 ^ (w - 1)) mod 2 ^ w - 2 ^ (w - 1).

Definition u8 (z : Z) : Z := wrapu 8 z.
Definition u16 (z : Z) : Z := wrapu 16 z.
Definition u32 (z : Z) : Z := wrapu 32 z.
Definition u64 (z : Z) : Z := wrapu 64 z.
Definition i32 (z : Z) : Z := wraps 32 z.
Definition i64 (z : Z) : Z := wraps 64 z.

(** Range predicates of the widths the code uses. *)
Definition in_u (w z : Z) : Prop := 0 <= z < 2 ^ w.
Definition in_s (w z : Z) : Prop := - 2 ^ (w - 1) <= z < 2 ^ (w - 1).

(** [a.saturating_sub(b)] and [a.saturating_add(b)] on a [w]-bit unsigned integer. *)
Definition saturating_sub (a b : Z) : Z := Z.max 0 (a - b).
Definition saturating_add (w a b : Z) : Z := Z.min (2 ^ w - 1) (a + b).

(** [a.checked_add(b)] on a [w]-bit unsigned integer. *)
Definition checked_addu (w a b : Z) : option Z :=
  if decide (a + b < 2 ^ w) then Some (a + b) else None.

#[global] Instance in_u_dec w z : Decision (in_u w z).
Proof. unfold in_u. apply _. Defined.

#[global] Instance in_s_dec w z : Decision (in_s w z).
Proof. unfold in_s. apply _. Defined.

Notation "a ⊖ b" := (saturating_sub a b) (at level 50, left associativity) : steel_scope.

(** ** Vectors and arrays: a write out of range panics ([None]) *)

Definition vec_set {A} (l : list A) (i : nat) (x : A) : option (list A) :=
  if decide (i < length l)%nat then Some (<[i := x]> l) else None.

(** [Vec::swap_remove]: the last element takes the place of the removed one.
    Out of range the call panics; the callers below index within range. *)
Definition swap_remove {A} (i : nat) (l : list A) : list A :=
  match last l with
  | Some x => take (length l - 1) (<[i := x]> l)
  | None => []
  end.

(** ** Loops that may panic ([None]) *)

(** [for j in lo..lo+n]. *)
Fixpoint for_range {S} (lo n : nat) (f : nat -> S -> option S) (s : S) : option S :=
  match n with
  | O => Some s
  | Datatypes.S n' => s' ← f lo s; for_range (Datatypes.S lo) n' f s'
  end.

(** [for x in l]. *)
Fixpoint for_each {A S} (l : list A) (f : A -> S -> option S) (s : S) : option S :=
  match l with
  | [] => Some s
  | x :: l' => s' ← f x s; for_each l' f s'
  end.

(** ** Results: [Ok] or an error value, as Rust's [Result] *)

Inductive result (A E : Type) : Type :=
| Ok (a : A)
| Err (e : E).
Arguments Ok {A E} a.
Arguments Err {A E} e.

Definition result_bind {A B E} (r : result A E) (k : A -> result B E) : result B E :=
  match r with
  | Ok a => k a
  | Err e => Err e
  end.

Notation "'let?' x := r 'in' k" := (result_bind r (fun x => k))
  (at level 10, x pattern, k at level 200) : steel_scope.

(** The kinds of [std::io::Error] the modelled code creates or passes on. *)
Inductive io_error :=
| UnexpectedEof
| InvalidData
| InvalidInput
| OtherError.

#[global] Instance io_error_eq_dec : EqDecision io_error.
Proof. solve_decision. Defined.

(** ** Hint databases and tactics of the development *)

Create HintDb steel.
Create HintDb steel_bits.

(** Case analysis on the first decidable test or match of the goal. *)
Ltac case_step :=
  match goal with
  | |- context [decide ?P] => destruct (decide P)
  | |- context [if ?b then _ else _] => destruct b eqn:?
  | |- context [match ?x with _ => _ end] => destruct x eqn:?
  end.

(** ** Generic lemmas: arithmetic of the casts *)

Lemma wrapu_small w z : in_u w z -> wrapu w z = z.
Proof. intros H. apply Z.mod_small. exact H. Qed.

Lemma wrapu_range w z : 0 <= w -> in_u w (wrapu w z).
Proof. intros Hw. apply Z.mod_pos_bound. lia. Qed.

Lemma wraps_small w z : 0 < w -> in_s w z -> wraps w z = z.
Proof.
  intros Hw [H1 H2]. unfold wraps.
  assert (2 ^ w = 2 * 2 ^ (w - 1)) as E.
  { rewrite <- Z.pow_succ_r by lia. f_equal. lia. }
  rewrite Z.mod_small; lia.
Qed.

Lemma wraps_range w z : 0 < w -> in_s w (wraps w z).
Proof.
  intros Hw. unfold in_s, wraps.
  assert (2 ^ w = 2 * 2 ^ (w - 1)) as E.
  { rewrite <- Z.pow_succ_r by lia. f_equal. lia. }
  pose proof (Z.mod_pos_bound (z + 2 ^ (w - 1)) (2 ^ w) ltac:(lia)). lia.
Qed.

Lemma wraps_wrapu w z : 0 < w -> in_s w z -> wraps w (wrapu w z) = z.
Proof.
  intros Hw Hz. unfold wraps, wrapu.
  rewrite Zplus_mod_idemp_l. exact (wraps_small w z Hw Hz).
Qed.

Lemma u8_small z : 0 <= z < 256 -> u8 z = z.
Proof. exact (wrapu_small 8 z). Qed.

Lemma i32_small z : - 2 ^ 31 <= z < 2 ^ 31 -> i32 z = z.
Proof. exact (wraps_small 32 z eq_refl). Qed.

Lemma i64_small z : - 2 ^ 63 <= z < 2 ^ 63 -> i64 z = z.
Proof. exact (wraps_small 64 z eq_refl). Qed.

#[export] Hint Resolve wrapu_range wraps_range : steel.

(** ** Generic lemmas: lists *)

Lemma elem_of_range lo hi x : x ∈ seqZ lo (hi - lo + 1) <-> lo <= x <= hi.
Proof. rewrite elem_of_seqZ. lia. Qed.

Lemma swap_remove_perm {A} (l : list A) (i : nat) (x : A) :
  l !! i = Some x -> x :: swap_remove i l ≡ₚ l.
Proof.
  intros Hi. unfold swap_remove.
  destruct (last l) as [y|] eqn:Hl; last first.
  { apply last_None in Hl. by subst. }
  apply last_Some in Hl as [l' ->].
  rewrite length_app. simpl. replace (length l' + 1 - 1)%nat with (length l') by lia.
  destruct (decide (i < length l')%nat) as [Hlt|Hge].
  - rewrite insert_app_l by done. rewrite take_app_le by (rewrite length_insert; lia).
    rewrite take_ge by (rewrite length_insert; lia).
    rewrite lookup_app_l in Hi by done.
    rewrite <- (take_drop_middle _ _ _ Hi) at 2.
    rewrite insert_take_drop by done. solve_Permutation.
  - apply lookup_app_Some in Hi as [Hi|[Hge2 Hi]].
    { apply lookup_lt_Some in Hi. lia. }
    assert (i - length l' = 0)%nat as E.
    { apply lookup_lt_Some in Hi. simpl in Hi. lia. }
    rewrite E in Hi. simpl in Hi. inv Hi.
    rewrite insert_app_r_alt by lia. rewrite E. simpl.
    rewrite take_app_le by lia. rewrite take_ge by lia. solve_Permutation.
Qed.

Lemma swap_remove_length {A} (l : list A) (i : nat) :
  (i < length l)%nat -> S (length (swap_remove i l)) = length l.
Proof.
  intros Hi. destruct (lookup_lt_is_Some_2 l i Hi) as [x Hx].
  apply swap_remove_perm in Hx. apply Permutation_length in Hx. exact Hx.
Qed.

(** A result that is known to exist, named. *)
Lemma run_default {A} (o : option A) (d : A) : bool_decide (is_Some o) = true -> o = Some (default d o).
Proof. by intros [x ->]%bool_decide_eq_true. Qed.

Lemma NoDup_omap_inj {A B} (f : A -> option B) (l : list A) :
  (forall x y z, f x = Some z -> f y = Some z -> x = y) -> NoDup l -> NoDup (omap f l).
Proof.
  intros Hf. induction 1 as [|x l Hx _ IH]; [constructor|]. simpl.
  destruct (f x) as [z|] eqn:E; [|done]. constructor; [|done].
  intros (y & Hy & Ey)%list_elem_of_omap. by rewrite (Hf x y z E Ey) in Hx.
Qed.

(** ** Generic lemmas: bit patterns *)

Lemma testbit_wrapu w z i : 0 <= w -> 0 <= i ->
  Z.testbit (wrapu w z) i = (i <? w) && Z.testbit z i.
Proof.
  intros Hw Hi. unfold wrapu. rewrite Z.testbit_mod_pow2 by done. done.
Qed.

(** Reading bit [i] of a [w]-bit two's complement value: bits past the sign
    bit repeat it. *)
Lemma testbit_wraps w z i : 0 < w -> 0 <= i ->
  Z.testbit (wraps w z) i = Z.testbit z (Z.min i (w - 1)).
Proof.
  intros Hw Hi.
  assert (2 ^ w = 2 * 2 ^ (w - 1)) as E.
  { rewrite <- Z.pow_succ_r by lia. f_equal. lia. }
  assert (0 < 2 ^ (w - 1)) as Hp by lia.
  set (s := wraps w z). pose proof (wraps_range w z Hw) as Hr. fold s in Hr.
  assert (s mod 2 ^ w = z mod 2 ^ w) as Hmod.
  { unfold s, wraps. rewrite Zminus_mod_idemp_l. f_equal. lia. }
  destruct (Z.lt_ge_cases i w) as [Hlt|Hge].
  - rewrite <- (Z.mod_pow2_bits_low s w i) by done.
    rewrite Hmod, Z.mod_pow2_bits_low by done.
    destruct (Z.lt_ge_cases i (w - 1)); f_equal; lia.
  - rewrite Z.min_r by lia.
    assert (Z.testbit z (w - 1) = Z.testbit s (w - 1)) as ->.
    { rewrite <- (Z.mod_pow2_bits_low s w), <- (Z.mod_pow2_bits_low z w) by lia.
      by rewrite Hmod. }
    destruct Hr as [Hr1 Hr2].
    destruct (Z.lt_ge_cases s 0) as [Hneg|Hpos].
    + assert (forall k, w - 1 <= k -> Z.testbit s k = true) as Hk.
      { intros k Hk. destruct (Z.eq_dec s (-1)) as [->|]; [apply Z.bits_m1; lia|].
        apply Z.bits_above_log2_neg; [done|].
        apply Z.log2_lt_pow2; [lia|].
        pose proof (Z.pow_le_mono_r 2 (w - 1) k). lia. }
      by rewrite !Hk by lia.
    + assert (forall k, w - 1 <= k -> Z.testbit s k = false) as Hk.
      { intros k Hk. destruct (Z.eq_dec s 0) as [->|]; [apply Z.bits_0|].
        apply Z.bits_above_log2; [done|]. apply Z.log2_lt_pow2; [lia|].
        pose proof (Z.pow_le_mono_r 2 (w - 1) k). lia. }
      by rewrite !Hk by lia.
Qed.

(** The casts to a machine integer commute with bitwise or. *)
Class BitCast (cast : Z -> Z) : Prop := {
  cast_0 : cast 0 = 0;
  cast_lor a b : cast (Z.lor a b) = Z.lor (cast a) (cast b);
}.

#[global] Instance BitCast_wrapu w (Hw : TCEq (0 <=? w) true) : BitCast (wrapu w).
Proof.
  assert (0 <= w) as Hw' by (inversion Hw; lia). split; [done|]. intros a b.
  apply Z.bits_inj'. intros n Hn.
  rewrite Z.lor_spec, !testbit_wrapu, Z.lor_spec by done.
  by destruct (n <? w).
Qed.

#[global] Instance BitCast_wraps w (Hw : TCEq (0 <? w) true) : BitCast (wraps w).
Proof.
  assert (0 < w) as Hw' by (inversion Hw; lia). split.
  - apply wraps_small; [done|]. unfold in_s. lia.
  - intros a b. apply Z.bits_inj'. intros n Hn.
    by rewrite Z.lor_spec, !testbit_wraps, Z.lor_spec by done.
Qed.

#[global] Instance BitCast_u32 : BitCast u32.
Proof. exact (BitCast_wrapu 32 (TCEq_refl _)). Qed.

#[global] Instance BitCast_i32 : BitCast i32.
Proof. exact (BitCast_wraps 32 (TCEq_refl _)). Qed.

#[global] Instance BitCast_i64 : BitCast i64.
Proof. exact (BitCast_wraps 64 (TCEq_refl _)). Qed.

(** Or of a low part and a shifted high part is a sum. *)
Lemma lor_shiftl_add lo hi k :
  0 <= k -> 0 <= lo < 2 ^ k -> Z.lor lo (Z.shiftl hi k) = lo + hi * 2 ^ k.
Proof.
  intros Hk Hlo. rewrite <- Z.shiftl_mul_pow2 by done.
  symmetry. rewrite <- Z.lxor_lor.
  - apply Z.add_nocarry_lxor.
    apply Z.bits_inj'. intros n Hn. rewrite Z.land_spec, Z.bits_0.
    destruct (Z.lt_ge_cases n k).
    + by rewrite Z.shiftl_spec_low, andb_false_r by done.
    + rewrite <- (Z.mod_small lo (2 ^ k)) by done.
      by rewrite Z.mod_pow2_bits_high by lia.
  - apply Z.bits_inj'. intros n Hn. rewrite Z.land_spec, Z.bits_0.
    destruct (Z.lt_ge_cases n k).
    + by rewrite Z.shiftl_spec_low, andb_false_r by done.
    + rewrite <- (Z.mod_small lo (2 ^ k)) by done.
      by rewrite Z.mod_pow2_bits_high by lia.
Qed.

Lemma land_ones_mod z k : 0 <= k -> Z.land z (2 ^ k - 1) = z mod 2 ^ k.
Proof. intros Hk. rewrite <- Z.land_ones by done. f_equal. rewrite Z.ones_equiv. lia. Qed.

(** ** Generic lemmas: loops *)

Lemma for_range_ind {S} (P : nat -> S -> Prop) lo n f (s : S) :
  P lo s ->
  (forall j s, (lo <= j < lo + n)%nat -> P j s ->
     exists s', f j s = Some s' /\ P (Datatypes.S j) s') ->
  exists s', for_range lo n f s = Some s' /\ P (lo + n)%nat s'.
Proof.
  revert lo s. induction n as [|n IH]; intros lo s Hs Hstep; simpl.
  - exists s. by rewrite Nat.add_0_r.
  - destruct (Hstep lo s ltac:(lia) Hs) as (s1 & -> & H1). simpl.
    destruct (IH (Datatypes.S lo) s1 H1) as (s2 & -> & H2).
    + intros j s' Hj. apply Hstep. lia.
    + exists s2. split; [done|]. by rewrite Nat.add_succ_r.
Qed.

Lemma for_each_ind {A S} (P : list A -> S -> Prop) (l : list A) f (s : S) :
  P [] s ->
  (forall pre x todo s, l = pre ++ x :: todo -> P pre s ->
     exists s', f x s = Some s' /\ P (pre ++ [x]) s') ->
  exists s', for_each l f s = Some s' /\ P l s'.
Proof.
  intros H0 Hstep.
  assert (forall todo pre s, l = pre ++ todo -> P pre s ->
    exists s', for_each todo f s = Some s' /\ P l s') as H.
  { clear s H0. induction todo as [|x todo IH]; intros pre s Hl Hs; simpl.
    - rewrite app_nil_r in Hl. subst. eauto.
    - destruct (Hstep pre x todo s Hl Hs) as (s1 & -> & H1). simpl.
      apply (IH (pre ++ [x])); [|done]. by rewrite <- app_assoc. }
  exact (H l [] s eq_refl H0).
Qed.

Lemma vec_set_Some {A} (l : list A) i x :
  (i < length l)%nat -> vec_set l i x = Some (<[i := x]> l).
Proof. intros H. unfold vec_set. by rewrite decide_True. Qed.

Lemma lookup_insert_list {A} (l : list A) i j x :
  (i < length l)%nat -> <[i := x]> l !! j = if decide (j = i) then Some x else l !! j.
Proof.
  intros Hi. destruct (decide (j = i)) as [->|].
  - by apply list_lookup_insert_eq.
  - by apply list_lookup_insert_ne.
Qed.

(** Indexing the concatenation of pieces of equal length. *)
Lemma bind_lookup {A B} (f : A -> list B) n (l : list A) i j :
  (forall x, x ∈ l -> length (f x) = n) -> (j < n)%nat ->
  (l ≫= f) !! (i * n + j)%nat = l !! i ≫= fun x => f x !! j.
Proof.
  revert i. induction l as [|x l IH]; intros i Hlen Hj; [done|].
  assert (length (f x) = n) as Hx by (apply Hlen; left).
  change ((x :: l) ≫= f) with (f x ++ (l ≫= f)). destruct i as [|i].
  - simpl. by rewrite lookup_app_l by lia.
  - rewrite lookup_app_r by lia. replace (S i * n + j - length (f x))%nat with (i * n + j)%nat by lia.
    rewrite IH; [done| |done]. intros y Hy. apply Hlen. by right.
Qed.
