(* ===== verification/Float32.v ===== *)
(** * 32-bit floats

    The operations of [f32] that the components use, on the specification floats of the
    standard library: 24 bits of precision, exponents up to 128. *)

From Stdlib Require Import Floats.SpecFloat.
From S2P Require Import Prelude.

Definition f32 : Type := spec_float.
Definition f32_of_Z (n : Z) : f32 := binary_normalize 24 128 n 0 false.
Definition f32_add : f32 -> f32 -> f32 := SFadd 24 128.
Definition f32_sub : f32 -> f32 -> f32 := SFsub 24 128.
Definition f32_div : f32 -> f32 -> f32 := SFdiv 24 128.

Definition f32_is_nan (x : f32) : bool := match x with S754_nan => true | _ => false end.

(** [f32::max] and [f32::min] prefer the argument that is a number. *)
Definition f32_max (x y : f32) : f32 :=
  if f32_is_nan x then y else if f32_is_nan y then x else if SFltb x y then y else x.
Definition f32_min (x y : f32) : f32 :=
  if f32_is_nan x then y else if f32_is_nan y then x else if SFltb y x then y else x.

Definition f32_clamp (x lo hi : f32) : f32 :=
  let x := if SFltb x lo then lo else x in
  if SFltb hi x then hi else x.

(** [x.floor() as usize], which saturates; only non-negative values have a positive
    result. *)
Definition f32_floor_usize (x : f32) : Z :=
  match x with
  | S754_finite false m e => Z.min (2 ^ 64 - 1) (if 0 <=? e then Z.pos m * 2 ^ e else Z.pos m / 2 ^ (- e))
  | S754_infinity false => 2 ^ 64 - 1
  | _ => 0
  end.

(** [x.floor() as i32], which saturates and takes what is no number to 0. *)
Definition f32_floor_i32 (x : f32) : Z :=
  match x with
  | S754_finite sign m e =>
      let n := if sign then Z.neg m else Z.pos m in
      Z.max (- 2 ^ 31) (Z.min (2 ^ 31 - 1) (if 0 <=? e then n * 2 ^ e else n / 2 ^ (- e)))
  | S754_infinity sign => if sign then - 2 ^ 31 else 2 ^ 31 - 1
  | _ => 0
  end.

Lemma floor_usize_nonneg x : 0 <= f32_floor_usize x.
Proof.
  destruct x as [[]|[]| |[] m e]; simpl; try lia. destruct (Z.leb_spec 0 e); [|].
  - apply Z.min_glb; [lia|]. apply Z.mul_nonneg_nonneg; [lia|]. by apply Z.pow_nonneg.
  - apply Z.min_glb; [lia|]. apply Z.div_pos; [lia|]. apply Z.pow_pos_nonneg; lia.
Qed.

(** Dividing small counts: the quotient of the floats rounds down to that of the integers. *)
Definition floor_div_ok (a b : Z) : bool := f32_floor_i32 (f32_div (f32_of_Z a) (f32_of_Z b)) =? a / b.

Lemma floor_div_small_all :
  forallb (fun a => forallb (fun b => floor_div_ok a b) (seqZ 1 99)) (seqZ 0 100) = true.
Proof. vm_compute. reflexivity. Qed.

Lemma floor_div_small a b : 0 <= a <= 99 -> 1 <= b <= 99 -> f32_floor_i32 (f32_div (f32_of_Z a) (f32_of_Z b)) = a / b.
Proof.
  intros Ha Hb. apply Z.eqb_eq. pose proof floor_div_small_all as H. rewrite forallb_forall in H.
  specialize (H a). rewrite forallb_forall in H. apply H; apply list_elem_of_In, elem_of_seqZ; lia.
Qed.
