(* ===== verification/Float64.v ===== *)
(** * 64-bit floats of moderate size

    The operations of [f64] that the components use on coordinates.  Every finite [f64] is
    an integer multiple of [2 ^ -1074]; a value is the integer.  Operations round to 53
    significant bits, to the nearest and to even when there are two, which for values that
    do not overflow is what the hardware does. *)

From S2P Require Import Prelude.

Definition f64 : Type := Z.
Definition F64_UNIT : Z := 2 ^ 1074.
Definition f64_of_Z (n : Z) : f64 := n * F64_UNIT.

(** The integer nearest to [n / d], or the even one of two. *)
Definition round_half_even (n d : Z) : Z :=
  let q := n / d in
  let r := n mod d in
  if 2 * r <? d then q else if d <? 2 * r then q + 1 else if Z.even q then q else q + 1.

(** The exponent of the last of 53 significant bits. *)
Definition last_bit (n : Z) : Z := Z.max 0 (Z.log2 (Z.abs n) - 52).

Definition f64_round (n : Z) : f64 := round_half_even n (2 ^ last_bit n) * 2 ^ last_bit n.

Definition f64_add (x y : f64) : f64 := f64_round (x + y).

(** Division by a power of two; only values near zero are rounded. *)
Definition f64_div_pow2 (x : f64) (k : Z) : f64 := round_half_even x (2 ^ k).

(** [x.floor() as i32]. *)
Definition f64_floor_i32 (x : f64) : Z := Z.max (- 2 ^ 31) (Z.min (2 ^ 31 - 1) (x / F64_UNIT)).

(** ** Rounding is monotone *)

Lemma round_half_even_bounds n d : 0 < d -> n / d <= round_half_even n d <= n / d + 1.
Proof. intros Hd. unfold round_half_even. repeat case_match; lia. Qed.

Lemma round_half_even_le n m d : 0 < d -> n <= m -> round_half_even n d <= round_half_even m d.
Proof.
  intros Hd Hle. pose proof (Z.div_le_mono n m d Hd Hle) as Hq.
  destruct (decide (n / d = m / d)) as [E|E].
  - unfold round_half_even. rewrite E. pose proof (Z.div_mod n d). pose proof (Z.div_mod m d).
    assert (n mod d <= m mod d) as Hr by (rewrite E in *; lia).
    repeat case_match; rewrite ?Z.ltb_lt, ?Z.ltb_ge in *; try lia; congruence.
  - pose proof (round_half_even_bounds n d Hd). pose proof (round_half_even_bounds m d Hd). lia.
Qed.

Lemma round_half_even_exact q d : 0 < d -> round_half_even (q * d) d = q.
Proof.
  intros Hd. unfold round_half_even. rewrite Z.div_mul, Z.mod_mul by lia. rewrite (proj2 (Z.ltb_lt _ _)) by lia. done.
Qed.

Lemma last_bit_nonneg n : 0 <= last_bit n.
Proof. unfold last_bit. lia. Qed.

(** Integers of 53 bits at the scale of [n] bound the rounded value as they bound [n]. *)
Lemma f64_round_upper n q : n <= q * 2 ^ last_bit n -> f64_round n <= q * 2 ^ last_bit n.
Proof.
  intros Hn. pose proof (Z.pow_pos_nonneg 2 (last_bit n) ltac:(lia) (last_bit_nonneg n)) as Hd. unfold f64_round.
  apply Z.mul_le_mono_nonneg_r; [lia|]. rewrite <- (round_half_even_exact q (2 ^ last_bit n)) by done. by apply round_half_even_le.
Qed.

Lemma f64_round_lower n q : q * 2 ^ last_bit n <= n -> q * 2 ^ last_bit n <= f64_round n.
Proof.
  intros Hn. pose proof (Z.pow_pos_nonneg 2 (last_bit n) ltac:(lia) (last_bit_nonneg n)) as Hd. unfold f64_round.
  apply Z.mul_le_mono_nonneg_r; [lia|]. rewrite <- (round_half_even_exact q (2 ^ last_bit n)) by done. by apply round_half_even_le.
Qed.

Lemma last_bit_size n : Z.abs n < 2 ^ 53 * 2 ^ last_bit n.
Proof.
  rewrite <- Z.pow_add_r by (lia || apply last_bit_nonneg). destruct (decide (n = 0)) as [->|Hn]; [done|].
  pose proof (Z.log2_spec (Z.abs n) ltac:(lia)) as [_ Hlt]. eapply Z.lt_le_trans; [exact Hlt|]. apply Z.pow_le_mono_r; [lia|].
  unfold last_bit. lia.
Qed.

Lemma last_bit_large n : 0 < last_bit n -> 2 ^ 52 * 2 ^ last_bit n <= Z.abs n.
Proof.
  intros Hk. rewrite <- Z.pow_add_r by lia. assert (n <> 0) as Hn by (intros ->; vm_compute in Hk; discriminate).
  pose proof (Z.log2_spec (Z.abs n) ltac:(lia)) as [Hge _]. eapply Z.le_trans; [|exact Hge]. apply Z.pow_le_mono_r; [lia|].
  unfold last_bit in *. lia.
Qed.

Lemma scale_step j k : 0 <= j < k -> 2 ^ 53 * 2 ^ j <= 2 ^ 52 * 2 ^ k.
Proof.
  intros Hjk. replace (2 ^ 53) with (2 ^ 52 * 2 ^ 1) by done. rewrite <- Z.mul_assoc, <- Z.pow_add_r by lia.
  apply Z.mul_le_mono_nonneg_l; [lia|]. apply Z.pow_le_mono_r; lia.
Qed.

Lemma last_bit_mono n m : Z.abs n <= Z.abs m -> last_bit n <= last_bit m.
Proof. intros Hle. unfold last_bit. pose proof (Z.log2_le_mono _ _ Hle). lia. Qed.

Lemma f64_round_le n m : n <= m -> f64_round n <= f64_round m.
Proof.
  intros Hle. pose proof (last_bit_nonneg n). pose proof (last_bit_nonneg m). pose proof (last_bit_size n). pose proof (last_bit_size m).
  destruct (decide (last_bit n = last_bit m)) as [E|E].
  { unfold f64_round. rewrite E. pose proof (Z.pow_pos_nonneg 2 (last_bit m) ltac:(lia) ltac:(lia)).
    apply Z.mul_le_mono_nonneg_r; [lia|]. by apply round_half_even_le. }
  destruct (decide (0 <= n)) as [Hn|Hn]; [|destruct (decide (m <= 0)) as [Hm|Hm]].
  - pose proof (last_bit_mono n m ltac:(lia)). pose proof (last_bit_large m ltac:(lia)). pose proof (scale_step (last_bit n) (last_bit m) ltac:(lia)).
    pose proof (f64_round_upper n (2 ^ 53) ltac:(lia)). pose proof (f64_round_lower m (2 ^ 52) ltac:(lia)). lia.
  - pose proof (last_bit_mono m n ltac:(lia)). pose proof (last_bit_large n ltac:(lia)). pose proof (scale_step (last_bit m) (last_bit n) ltac:(lia)).
    pose proof (f64_round_upper n (- 2 ^ 52) ltac:(lia)). pose proof (f64_round_lower m (- 2 ^ 53) ltac:(lia)). lia.
  - pose proof (f64_round_upper n 0 ltac:(lia)). pose proof (f64_round_lower m 0 ltac:(lia)). lia.
Qed.

Lemma f64_floor_le x y : x <= y -> f64_floor_i32 x <= f64_floor_i32 y.
Proof.
  intros Hle. unfold f64_floor_i32. assert (0 < F64_UNIT) as Hu by done. pose proof (Z.div_le_mono x y F64_UNIT Hu Hle). lia.
Qed.

(** What the representation stands for, on examples: a sum that rounds to even,
    and floors. *)
Example f64_examples : f64_add (f64_of_Z (2 ^ 53)) (f64_of_Z 1) = f64_of_Z (2 ^ 53) /\
  f64_add (f64_of_Z (2 ^ 53)) (f64_of_Z 3) = f64_of_Z (2 ^ 53 + 4) /\ f64_floor_i32 (- F64_UNIT / 4) = -1 /\
  f64_floor_i32 (f64_of_Z (2 ^ 40)) = 2 ^ 31 - 1 /\ f64_div_pow2 (-1) 2 = 0.
Proof. vm_compute. done. Qed.
