(* ===== verification/VarInt.v ===== *)
(** * Variable-length integers and packet framing

    Models [steel-utils/src/codec/variable_integer.rs] ([VarInt], [VarLong],
    [VarUint]) and the growable buffer with reserved front space of
    [steel-utils/src/front_vec.rs] ([FrontVec]).  A byte is a [Z] in [0, 256);
    a [Cursor<&[u8]>] is the list of bytes not read yet; a writer that accepts
    every byte is the list of bytes written. *)

From S2P Require Import Prelude.
Open Scope steel_scope.

Definition byte_ok (b : Z) : Prop := 0 <= b < 256.

(** ** Reading *)

(** [u8::read]: one byte, or the end of the input. *)
Definition u8_read (bs : list Z) : result (Z * list Z) io_error :=
  match bs with
  | b :: rest => Ok (b, rest)
  | [] => Err UnexpectedEof
  end.

Section ReadLoop.
Context (cast : Z -> Z).

(** The body shared by the three [read] loops: iteration [i] of the [n] that are
    left, with the value assembled so far. [cast] is the integer type of [val]. *)
Fixpoint varint_read_loop (n : nat) (i val : Z) (bs : list Z)
  : result (Z * list Z) io_error :=
  match n with
  | O => Err OtherError
  | S n' =>
      let? (byte, rest) := u8_read bs in
      let val := Z.lor val (cast (Z.shiftl (Z.land byte 127) (i * 7))) in
      if Z.land byte 128 =? 0 then Ok (val, rest)
      else varint_read_loop n' (i + 1) val rest
  end.
End ReadLoop.

Definition VarInt_MAX_SIZE : nat := 5.
Definition VarLong_MAX_SIZE : nat := 10.
Definition VarUint_MAX_SIZE : nat := 5.

Definition VarInt_read (bs : list Z) := varint_read_loop i32 VarInt_MAX_SIZE 0 0 bs.
Definition VarLong_read (bs : list Z) := varint_read_loop i64 VarLong_MAX_SIZE 0 0 bs.
Definition VarUint_read (bs : list Z) := varint_read_loop u32 VarUint_MAX_SIZE 0 0 bs.

(** ** Writing *)

(** The write loop on an unsigned value; [None] when the fuel runs out before
    the value reaches zero. *)
Fixpoint varint_write_loop (fuel : nat) (val : Z) : option (list Z) :=
  match fuel with
  | O => None
  | S fuel' =>
      let b := Z.land (u8 val) 127 in
      let val := Z.shiftr val 7 in
      if val =? 0 then Some [b]
      else bs ← varint_write_loop fuel' val; Some (Z.lor b 128 :: bs)
  end.

(** [VarUint::write] sets the continuation bit before its single write. *)
Fixpoint varuint_write_loop (fuel : nat) (val : Z) : option (list Z) :=
  match fuel with
  | O => None
  | S fuel' =>
      let byte := u8 (Z.land val 127) in
      let val := Z.shiftr val 7 in
      let byte := if val =? 0 then byte else Z.lor byte 128 in
      if val =? 0 then Some [byte]
      else bs ← varuint_write_loop fuel' val; Some (byte :: bs)
  end.

Definition VarInt_write (v : Z) : option (list Z) := varint_write_loop 5 (u32 v).
Definition VarLong_write (v : Z) : option (list Z) := varint_write_loop 10 (u64 v).
Definition VarUint_write (v : Z) : option (list Z) := varuint_write_loop 5 v.

(** [leading_zeros] of a 32-bit pattern. *)
Definition leading_zeros32 (v : Z) : Z :=
  let u := u32 v in if u =? 0 then 32 else 31 - Z.log2 u.

Definition VarInt_written_size (val : Z) : Z :=
  if val =? 0 then 1 else (31 - leading_zeros32 val) / 7 + 1.

Definition div_ceil (a b : Z) : Z := (a + (b - 1)) / b.

Definition VarUint_written_size (v : Z) : Z :=
  div_ceil (Z.max (32 - leading_zeros32 v) 1) 7.

(** ** FrontVec *)

Record FrontVec := mkFrontVec { fv_buf : list Z; fv_front_space : nat }.

Definition FrontVec_new (reserve : nat) : FrontVec :=
  mkFrontVec (replicate reserve 0) reserve.

Definition FrontVec_len (v : FrontVec) : nat := length (fv_buf v) - fv_front_space v.

Definition FrontVec_is_empty (v : FrontVec) : bool :=
  (length (fv_buf v) - fv_front_space v =? 0)%nat.

Definition FrontVec_push (v : FrontVec) (value : Z) : FrontVec :=
  mkFrontVec (fv_buf v ++ [value]) (fv_front_space v).

Definition FrontVec_extend_from_slice (v : FrontVec) (other : list Z) : FrontVec :=
  mkFrontVec (fv_buf v ++ other) (fv_front_space v).

(** Panics ([None]) when the reserved space is too small. *)
Definition FrontVec_set_in_front (v : FrontVec) (other : list Z) : option FrontVec :=
  if decide (length other <= fv_front_space v)%nat then
    let new_start := (fv_front_space v - length other)%nat in
    Some (mkFrontVec
            (take new_start (fv_buf v) ++ other ++ drop (fv_front_space v) (fv_buf v))
            new_start)
  else None.

Definition FrontVec_as_slice (v : FrontVec) : list Z := drop (fv_front_space v) (fv_buf v).

(** The front space lies inside the buffer. *)
Definition FrontVec_wf (v : FrontVec) : Prop := (fv_front_space v <= length (fv_buf v))%nat.

(** [VarInt::set_in_front]: the encoding goes to a zeroed five-byte array, whose
    first [varint_size] bytes are moved to the front; both the write past the
    array and the slice past its end panic. *)
Definition VarInt_set_in_front (self : Z) (v : FrontVec) (varint_size : nat)
  : option FrontVec :=
  bs ← VarInt_write self;
  if decide (length bs <= VarInt_MAX_SIZE /\ varint_size <= VarInt_MAX_SIZE)%nat then
    let buf := bs ++ replicate (VarInt_MAX_SIZE - length bs) 0 in
    FrontVec_set_in_front v (take varint_size buf)
  else None.

(** ** The two write loops agree *)

Lemma land_u8_127 v : Z.land (u8 v) 127 = v mod 128.
Proof.
  change 127 with (2 ^ 7 - 1). rewrite land_ones_mod by done.
  change (2 ^ 7) with 128. unfold u8, wrapu.
  change (2 ^ 8) with (128 * 2). rewrite Z.rem_mul_r by lia.
  rewrite (Z.mul_comm 128), Z.mod_add by lia. by apply Z.mod_mod.
Qed.

Lemma u8_land_127 v : u8 (Z.land v 127) = v mod 128.
Proof.
  change 127 with (2 ^ 7 - 1). rewrite land_ones_mod by done. apply u8_small.
  pose proof (Z.mod_pos_bound v 128). change (2 ^ 7) with 128. lia.
Qed.

Lemma varuint_write_loop_eq n v : varuint_write_loop n v = varint_write_loop n v.
Proof.
  revert v. induction n as [|n IH]; intros v; [done|]. simpl.
  rewrite IH, land_u8_127, u8_land_127. by destruct (Z.shiftr v 7 =? 0).
Qed.

(** ** Totality of the write loop *)

Lemma varint_write_loop_total n v :
  0 <= v < 2 ^ (7 * Z.of_nat n) -> (0 < n)%nat ->
  exists bs, varint_write_loop n v = Some bs.
Proof.
  revert v. induction n as [|n IH]; intros v Hv Hn; [lia|]. simpl.
  destruct (Z.eqb_spec (Z.shiftr v 7) 0) as [|Hnz]; [eauto|].
  rewrite Z.shiftr_div_pow2 in Hnz |- * by lia. change (2 ^ 7) with 128 in *.
  rewrite Nat2Z.inj_succ, Z.mul_succ_r, Z.pow_add_r in Hv by lia.
  change (2 ^ 7) with 128 in Hv.
  destruct (IH (v / 128)) as [bs ->].
  - split; [apply Z.div_pos; lia|]. apply Z.div_lt_upper_bound; lia.
  - destruct n; [|lia]. exfalso. apply Hnz. apply Z.div_small. simpl in Hv. lia.
  - simpl. eauto.
Qed.

Lemma lor_128 b : 0 <= b < 128 -> Z.lor b 128 = b + 128.
Proof. intros Hb. exact (lor_shiftl_add b 1 7 ltac:(done) Hb). Qed.

(** Every byte of an encoding is a byte. *)
Lemma varint_write_loop_bytes n v bs :
  varint_write_loop n v = Some bs -> Forall byte_ok bs.
Proof.
  revert v bs. induction n as [|n IH]; intros v bs; [done|]. simpl.
  rewrite land_u8_127. pose proof (Z.mod_pos_bound v 128).
  destruct (Z.shiftr v 7 =? 0).
  - intros [= <-]. apply Forall_singleton. unfold byte_ok. lia.
  - destruct (varint_write_loop n (Z.shiftr v 7)) as [bs'|] eqn:E; [|done].
    intros [= <-]. constructor; [|eauto].
    rewrite lor_128 by lia. unfold byte_ok. lia.
Qed.

(** ** The length of an encoding *)

Lemma varint_write_loop_length n v bs :
  0 <= v -> varint_write_loop n v = Some bs ->
  Z.of_nat (length bs) = Z.log2 v / 7 + 1.
Proof.
  revert v bs. induction n as [|n IH]; intros v bs Hv; [done|]. simpl.
  destruct (Z.eqb_spec (Z.shiftr v 7) 0) as [E|E].
  - intros [= <-]. simpl.
    rewrite Z.shiftr_div_pow2 in E by done. change (2 ^ 7) with 128 in E.
    assert (v < 128) by (pose proof (Z.div_mod v 128); pose proof (Z.mod_pos_bound v 128); lia).
    rewrite Z.div_small; [done|]. split; [apply Z.log2_nonneg|].
    destruct (Z.eq_dec v 0) as [->|]; [done|]. apply Z.log2_lt_pow2; lia.
  - destruct (varint_write_loop n (Z.shiftr v 7)) as [bs'|] eqn:E'; [|done].
    intros [= <-]. simpl length. rewrite Nat2Z.inj_succ.
    erewrite IH; [|by apply Z.shiftr_nonneg|done].
    assert (128 <= v) as Hge.
    { destruct (Z.lt_ge_cases v 128); [|done]. exfalso. apply E.
      rewrite Z.shiftr_div_pow2 by done. apply Z.div_small. change (2 ^ 7) with 128. lia. }
    assert (7 <= Z.log2 v) by (apply Z.log2_le_pow2; change (2 ^ 7) with 128; lia).
    rewrite Z.log2_shiftr by lia. rewrite Z.max_r by lia.
    replace (Z.log2 v) with ((Z.log2 v - 7) + 1 * 7) at 2 by lia.
    rewrite Z.div_add by done. lia.
Qed.

(** ** Reading back an encoding *)

(** One step of the read loop on a byte below 128, and on one at or above it. *)
Lemma read_byte_last b : 0 <= b < 128 -> Z.land b 127 = b /\ Z.land b 128 = 0.
Proof.
  intros Hb. change 127 with (2 ^ 7 - 1). rewrite land_ones_mod by done. split.
  - apply Z.mod_small. change (2 ^ 7) with 128. lia.
  - apply Z.bits_inj'. intros n Hn. rewrite Z.land_spec, Z.bits_0.
    change 128 with (2 ^ 7). rewrite Z.pow2_bits_eqb by done.
    destruct (Z.eqb_spec 7 n) as [<-|]; [|by rewrite andb_false_r].
    rewrite <- (Z.mod_small b (2 ^ 7)) by (change (2 ^ 7) with 128; lia).
    by rewrite Z.mod_pow2_bits_high by lia.
Qed.

Lemma read_byte_cont b : 0 <= b < 128 ->
  Z.land (Z.lor b 128) 127 = b /\ Z.land (Z.lor b 128) 128 = 128.
Proof.
  intros Hb. destruct (read_byte_last b Hb) as [E1 E2].
  rewrite !Z.land_lor_distr_l, E1, E2. split; [|done]. apply Z.lor_0_r.
Qed.

Lemma varint_read_write_loop cast `{!BitCast cast} n m v bs rest i acc :
  (n <= m)%nat -> 0 <= v -> 0 <= i -> 0 <= acc < 2 ^ (i * 7) ->
  varint_write_loop n v = Some bs ->
  varint_read_loop cast m i (cast acc) (bs ++ rest) =
    Ok (cast (acc + v * 2 ^ (i * 7)), rest).
Proof.
  revert m v bs i acc. induction n as [|n IH]; intros m v bs i acc Hm Hv Hi Hacc; [done|].
  destruct m as [|m]; [lia|]. simpl. rewrite land_u8_127.
  pose proof (Z.mod_pos_bound v 128 eq_refl) as Hmod.
  pose proof (Z.div_mod v 128 ltac:(done)) as Hdm.
  rewrite Z.shiftr_div_pow2 by done. change (2 ^ 7) with 128.
  destruct (Z.eqb_spec (v / 128) 0) as [E|E].
  - intros [= <-]. simpl. destruct (read_byte_last (v mod 128) Hmod) as [-> ->]. simpl.
    rewrite <- cast_lor, lor_shiftl_add by lia. do 3 f_equal. f_equal. lia.
  - destruct (varint_write_loop n (v / 128)) as [bs'|] eqn:E'; [|done].
    intros [= <-]. simpl. destruct (read_byte_cont (v mod 128) Hmod) as [-> ->]. simpl.
    rewrite <- cast_lor, lor_shiftl_add by lia.
    assert (2 ^ ((i + 1) * 7) = 128 * 2 ^ (i * 7)) as Hpow.
    { replace ((i + 1) * 7) with (7 + i * 7) by lia. rewrite Z.pow_add_r by lia. done. }
    erewrite IH; [..|exact E']; [|lia|apply Z.div_pos; lia|lia|nia].
    do 3 f_equal. rewrite Hpow.
    transitivity (acc + (128 * (v / 128) + v mod 128) * 2 ^ (i * 7)); [ring|].
    by rewrite <- Hdm.
Qed.

Lemma VarInt_write_total v : exists bs, VarInt_write v = Some bs.
Proof.
  apply varint_write_loop_total; [|lia].
  pose proof (wrapu_range 32 v ltac:(done)) as [? ?]. unfold u32. split; [done|].
  eapply Z.lt_trans; [done|]. done.
Qed.

Lemma VarLong_write_total v : exists bs, VarLong_write v = Some bs.
Proof.
  apply varint_write_loop_total; [|lia].
  pose proof (wrapu_range 64 v ltac:(done)) as [? ?]. unfold u64. split; [done|].
  eapply Z.lt_trans; [done|]. done.
Qed.

(** The number of leading bytes that carry the continuation bit. *)
Fixpoint cont_prefix (bs : list Z) : nat :=
  match bs with
  | b :: rest => if Z.land b 128 =? 0 then O else S (cont_prefix rest)
  | [] => O
  end.

Lemma varint_read_loop_cases cast `{!BitCast cast} n i acc bs :
  let k := cont_prefix bs in
  ((n <= k)%nat -> varint_read_loop cast n i (cast acc) bs = Err OtherError) /\
  ((k < n)%nat -> k = length bs ->
     varint_read_loop cast n i (cast acc) bs = Err UnexpectedEof) /\
  ((k < n)%nat -> (k < length bs)%nat ->
     exists v, varint_read_loop cast n i (cast acc) bs = Ok (cast v, drop (S k) bs)).
Proof.
  revert n i acc. induction bs as [|b bs IH]; intros n i acc; simpl.
  - destruct n; simpl; split_and!; intros; by (lia || done).
  - destruct n as [|n]; simpl; [by split_and!; intros; (lia || done)|].
    rewrite <- cast_lor.
    destruct (Z.land b 128 =? 0).
    + split_and!; intros; [lia|lia|eauto].
    + edestruct (IH n) as (H1 & H2 & H3).
      split_and!; intros; [apply H1|apply H2|apply H3]; lia.
Qed.

(** ** FrontVec lemmas *)

Lemma FrontVec_set_in_front_slice v other :
  FrontVec_wf v -> (length other <= fv_front_space v)%nat ->
  exists v', FrontVec_set_in_front v other = Some v' /\ FrontVec_wf v' /\
    FrontVec_as_slice v' = other ++ FrontVec_as_slice v.
Proof.
  unfold FrontVec_set_in_front, FrontVec_wf, FrontVec_as_slice. intros Hwf Hlen.
  rewrite decide_True by done. eexists. split; [done|]. simpl. split.
  - rewrite length_app, length_take. lia.
  - rewrite drop_app_ge; rewrite length_take, Nat.min_l by lia; [|done].
    by rewrite Nat.sub_diag.
Qed.

Lemma FrontVec_set_in_front_panics v other :
  (fv_front_space v < length other)%nat -> FrontVec_set_in_front v other = None.
Proof. intros H. unfold FrontVec_set_in_front. rewrite decide_False by lia. done. Qed.

Lemma FrontVec_extend_slice v other :
  FrontVec_wf v ->
  FrontVec_wf (FrontVec_extend_from_slice v other) /\
  FrontVec_as_slice (FrontVec_extend_from_slice v other) = FrontVec_as_slice v ++ other.
Proof.
  unfold FrontVec_wf, FrontVec_as_slice. simpl. intros Hwf. split.
  - rewrite length_app. lia.
  - by rewrite drop_app_le by done.
Qed.

Lemma VarInt_written_size_length v bs :
  in_s 32 v -> VarInt_write v = Some bs -> Z.of_nat (length bs) = VarInt_written_size v.
Proof.
  intros Hv Hw. unfold VarInt_write in Hw.
  pose proof (wrapu_range 32 v ltac:(done)) as [Hu0 Hu1].
  apply varint_write_loop_length in Hw; [|exact Hu0]. rewrite Hw.
  unfold VarInt_written_size, leading_zeros32.
  assert (u32 v = 0 <-> v = 0) as Hz.
  { split; [|by intros ->]. intros E. rewrite <- (wraps_wrapu 32 v) by done.
    unfold u32 in E. by rewrite E. }
  destruct (Z.eqb_spec v 0) as [->|Hnz]; [done|].
  destruct (Z.eqb_spec (u32 v) 0); [tauto|]. do 2 f_equal. lia.
Qed.

Lemma VarUint_written_size_length v bs :
  in_u 32 v -> VarUint_write v = Some bs -> Z.of_nat (length bs) = VarUint_written_size v.
Proof.
  intros Hv Hw. unfold VarUint_write in Hw. rewrite varuint_write_loop_eq in Hw.
  apply varint_write_loop_length in Hw; [|apply Hv]. rewrite Hw.
  unfold VarUint_written_size, leading_zeros32, div_ceil, u32.
  rewrite wrapu_small by done.
  destruct (Z.eqb_spec v 0) as [->|Hnz]; [done|].
  pose proof (Z.log2_nonneg v).
  rewrite Z.max_l by lia.
  replace (32 - (31 - Z.log2 v) + (7 - 1)) with (Z.log2 v + 1 * 7) by lia.
  by rewrite Z.div_add.
Qed.

Lemma VarInt_write_spec v :
  in_s 32 v ->
  exists bs, VarInt_write v = Some bs /\ Forall byte_ok bs /\
    Z.of_nat (length bs) = VarInt_written_size v /\ (length bs <= 5)%nat.
Proof.
  intros Hv. destruct (VarInt_write_total v) as [bs Hbs]. exists bs.
  split_and!; [done|by eapply varint_write_loop_bytes|by apply VarInt_written_size_length|].
  apply VarInt_written_size_length in Hbs; [|done]. apply Nat2Z.inj_le. rewrite Hbs.
  unfold VarInt_written_size, leading_zeros32. destruct (v =? 0); [done|].
  destruct (Z.eqb_spec (u32 v) 0) as [|Hnz]; [done|].
  pose proof (wrapu_range 32 v ltac:(done)) as [Hu0 Hu1].
  assert (Z.log2 (u32 v) < 32) by (apply Z.log2_lt_pow2; unfold u32 in *; lia).
  assert ((31 - (31 - Z.log2 (u32 v))) / 7 <= 4); [|lia].
  apply Z.lt_succ_r. apply Z.div_lt_upper_bound; lia.
Qed.

Lemma VarInt_read_write v bs rest :
  in_s 32 v -> VarInt_write v = Some bs -> VarInt_read (bs ++ rest) = Ok (v, rest).
Proof.
  intros Hv Hbs. pose proof (wrapu_range 32 v ltac:(done)) as [Hu0 Hu1].
  rewrite <- (wraps_wrapu 32 v) at 1 by done.
  unfold VarInt_read. change 0 with (i32 0) at 2.
  rewrite (varint_read_write_loop i32 5 _ (u32 v) bs) by (done || lia).
  do 3 f_equal. change (2 ^ (0 * 7)) with 1. unfold u32. lia.
Qed.

(** ** Properties *)

(** A 32-bit [VarInt] survives the wire: [write] terminates on every value,
    emits exactly [written_size] bytes (each one a byte, at most five), and [read]
    on those bytes followed by anything returns the value and leaves the rest. *)
Theorem VarInt_roundtrip v rest :
  in_s 32 v ->
  exists bs, VarInt_write v = Some bs /\ Forall byte_ok bs /\
    Z.of_nat (length bs) = VarInt_written_size v /\ (length bs <= 5)%nat /\
    VarInt_read (bs ++ rest) = Ok (v, rest).
Proof.
  intros Hv. destruct (VarInt_write_spec v Hv) as (bs & Hbs & Hby & Hlen & H5).
  exists bs. split_and!; [done..|]. by apply VarInt_read_write.
Qed.

Lemma VarInt_roundtrip_witness :
  in_s 32 (-1) /\ exists bs, VarInt_write (-1) = Some bs /\ Forall byte_ok bs /\
    Z.of_nat (length bs) = VarInt_written_size (-1) /\ (length bs <= 5)%nat /\
    VarInt_read (bs ++ [7]) = Ok (-1, [7]).
Proof. split; [unfold in_s; lia|]. apply (VarInt_roundtrip (-1) [7]). unfold in_s; lia. Defined.

(** [VarLong] and [VarUint] survive the wire on their whole ranges, and
    [VarUint::written_size] is the number of bytes written. *)
Theorem VarLong_VarUint_roundtrip v u rest :
  in_s 64 v -> in_u 32 u ->
  (exists bs, VarLong_write v = Some bs /\ VarLong_read (bs ++ rest) = Ok (v, rest)) /\
  (exists bs, VarUint_write u = Some bs /\ VarUint_read (bs ++ rest) = Ok (u, rest) /\
     Z.of_nat (length bs) = VarUint_written_size u).
Proof.
  intros Hv Hu. split.
  - destruct (VarLong_write_total v) as [bs Hbs]. exists bs. split; [done|].
    pose proof (wrapu_range 64 v ltac:(done)) as [Hu0 Hu1].
    rewrite <- (wraps_wrapu 64 v) at 1 by done.
    unfold VarLong_read. change 0 with (i64 0) at 2.
    rewrite (varint_read_write_loop i64 10 _ (u64 v) bs) by (done || lia).
    do 3 f_equal. change (2 ^ (0 * 7)) with 1. unfold u64. lia.
  - destruct (varint_write_loop_total 5 u) as [bs Hbs];
      [unfold in_u in Hu; simpl; lia|lia|].
    assert (VarUint_write u = Some bs) as Hbs'
      by (unfold VarUint_write; by rewrite varuint_write_loop_eq).
    exists bs. split_and!; [done| |by apply VarUint_written_size_length].
    unfold VarUint_read. change 0 with (u32 0) at 2.
    rewrite (varint_read_write_loop u32 5 _ u bs) by (done || lia || apply Hu).
    change (2 ^ (0 * 7)) with 1. do 2 f_equal. rewrite Z.mul_1_r. by apply wrapu_small.
Qed.

Lemma VarLong_VarUint_roundtrip_witness :
  (exists bs, VarLong_write (-5) = Some bs /\ VarLong_read (bs ++ []) = Ok (-5, [])) /\
  (exists bs, VarUint_write 300 = Some bs /\ VarUint_read (bs ++ []) = Ok (300, []) /\
     Z.of_nat (length bs) = VarUint_written_size 300).
Proof. apply (VarLong_VarUint_roundtrip (-5) 300 []); [unfold in_s|unfold in_u]; lia. Defined.

(** [VarInt::read] on arbitrary bytes: with [k] leading continuation bytes it
    fails with "too long" exactly from five on, fails with end-of-input when the
    input stops inside such a run, and otherwise consumes [k + 1] bytes and returns
    a 32-bit value.  No input makes it read a sixth byte. *)
Theorem VarInt_read_cases bs :
  let k := cont_prefix bs in
  ((5 <= k)%nat -> VarInt_read bs = Err OtherError) /\
  ((k < 5)%nat -> k = length bs -> VarInt_read bs = Err UnexpectedEof) /\
  ((k < 5)%nat -> (k < length bs)%nat ->
     exists v, in_s 32 v /\ VarInt_read bs = Ok (v, drop (S k) bs)).
Proof.
  intros k. destruct (varint_read_loop_cases i32 5 0 0 bs) as (H1 & H2 & H3).
  split_and!; [exact H1|exact H2|]. intros Hk Hl. destruct (H3 Hk Hl) as [v Hv].
  exists (i32 v). split; [by apply wraps_range|exact Hv].
Qed.

(** Length-prefix framing: moving the [VarInt] of [written_size] bytes in front
    of a buffer with enough reserved space yields exactly the encoding followed by
    the old contents, keeps the buffer well formed, and panics when the reserved
    space is too small. *)
Theorem VarInt_set_in_front_frames n v :
  in_s 32 n -> FrontVec_wf v ->
  let size := Z.to_nat (VarInt_written_size n) in
  ((size <= fv_front_space v)%nat ->
     exists bs v', VarInt_write n = Some bs /\ VarInt_set_in_front n v size = Some v' /\
       FrontVec_wf v' /\ FrontVec_as_slice v' = bs ++ FrontVec_as_slice v) /\
  ((fv_front_space v < size)%nat -> VarInt_set_in_front n v size = None).
Proof.
  intros Hn Hwf size. destruct (VarInt_write_spec n Hn) as (bs & Hw & _ & Hlen & H5).
  assert (length bs = size) as Hsz by (unfold size; lia).
  unfold VarInt_set_in_front, VarInt_MAX_SIZE. rewrite Hw. simpl.
  rewrite decide_True by lia. rewrite <- Hsz, take_app_length. split.
  - intros Hsp. destruct (FrontVec_set_in_front_slice v bs Hwf Hsp) as (v' & ? & ? & ?).
    eauto 10.
  - intros Hsp. by apply FrontVec_set_in_front_panics.
Qed.

Lemma VarInt_set_in_front_witness :
  exists bs v', VarInt_write 300 = Some bs /\
    VarInt_set_in_front 300 (FrontVec_extend_from_slice (FrontVec_new 6) [1; 2]) 2 = Some v' /\
    FrontVec_wf v' /\ FrontVec_as_slice v' = bs ++ [1; 2].
Proof.
  apply (VarInt_set_in_front_frames 300 (FrontVec_extend_from_slice (FrontVec_new 6) [1; 2])).
  - unfold in_s; lia.
  - unfold FrontVec_wf. simpl. lia.
  - vm_compute. lia.
Defined.
