(* ===== verification/Positions.v ===== *)
(** * Positions and their packed forms

    Models [ChunkPos], [BlockPos], [SectionPos] of
    [steel-utils/src/types/position.rs] and the packed layouts of
    [steel-utils/src/types/packed_position.rs].  Coordinates are [Z]; a shift left
    in the source drops the bits past its integer type, written here with the cast
    [i64]; a shift right of a signed value is arithmetic, as [Z.shiftr] is. *)

From S2P Require Import Prelude.

(** ** Data *)

Record ChunkPos := mkChunkPos { cp_x : Z; cp_y : Z }.
Record BlockPos := mkBlockPos { bp_x : Z; bp_y : Z; bp_z : Z }.
Record SectionPos := mkSectionPos { sp_x : Z; sp_y : Z; sp_z : Z }.

#[global] Instance ChunkPos_eq_dec : EqDecision ChunkPos.
Proof. solve_decision. Defined.
#[global] Instance BlockPos_eq_dec : EqDecision BlockPos.
Proof. solve_decision. Defined.
#[global] Instance SectionPos_eq_dec : EqDecision SectionPos.
Proof. solve_decision. Defined.
#[global] Instance SectionPos_countable : Countable SectionPos.
Proof.
  apply (inj_countable' (fun p => (sp_x p, sp_y p, sp_z p))
           (fun '(x, y, z) => mkSectionPos x y z)).
  by intros [].
Defined.
#[global] Instance ChunkPos_countable : Countable ChunkPos.
Proof.
  apply (inj_countable' (fun p => (cp_x p, cp_y p)) (fun '(x, y) => mkChunkPos x y)).
  by intros [].
Defined.
#[global] Instance BlockPos_countable : Countable BlockPos.
Proof.
  apply (inj_countable' (fun p => (bp_x p, bp_y p, bp_z p))
           (fun '(x, y, z) => mkBlockPos x y z)).
  by intros [].
Defined.

Definition SECTION_BITS : Z := 4.
Definition SECTION_SIZE : Z := Z.shiftl 1 SECTION_BITS.
Definition SECTION_MASK : Z := SECTION_SIZE - 1.

Definition block_to_section_coord (block_coord : Z) : Z := Z.shiftr block_coord SECTION_BITS.

Definition SectionPos_from_block_pos (pos : BlockPos) : SectionPos :=
  mkSectionPos (block_to_section_coord (bp_x pos)) (block_to_section_coord (bp_y pos))
    (block_to_section_coord (bp_z pos)).

Definition ChunkPos_from_block_pos (pos : BlockPos) : ChunkPos :=
  mkChunkPos (block_to_section_coord (bp_x pos)) (block_to_section_coord (bp_z pos)).

Definition MAX_HORIZONTAL_COORDINATE : Z := Z.shiftl 1 26 / 2 - 1.
Definition SAFETY_MARGIN_CHUNKS : Z := (32 + 12 + 1) * 2.
Definition MAX_COORDINATE_VALUE : Z :=
  block_to_section_coord MAX_HORIZONTAL_COORDINATE - SAFETY_MARGIN_CHUNKS.

Definition ChunkPos_is_valid (x z : Z) : bool :=
  Z.max (i32 (Z.abs x)) (i32 (Z.abs z)) <=? MAX_COORDINATE_VALUE.

(** ** PackedChunkPos *)

Definition PackedChunkPos_from (pos : ChunkPos) : Z :=
  Z.lor (Z.land (cp_x pos) 0xFFFFFFFF) (i64 (Z.shiftl (Z.land (cp_y pos) 0xFFFFFFFF) 32)).

Definition PackedChunkPos_to_chunk_pos (raw : Z) : ChunkPos :=
  mkChunkPos (i32 (Z.land raw 0xFFFFFFFF)) (i32 (Z.shiftr raw 32)).

(** ** PackedBlockPos *)

Definition HORIZONTAL_BITS : Z := 26.
Definition BLOCK_Y_BITS : Z := 12.
Definition BLOCK_X_OFFSET : Z := HORIZONTAL_BITS + BLOCK_Y_BITS.
Definition BLOCK_Z_OFFSET : Z := BLOCK_Y_BITS.
Definition BLOCK_XZ_MASK : Z := Z.shiftl 1 HORIZONTAL_BITS - 1.
Definition BLOCK_Y_MASK : Z := Z.shiftl 1 BLOCK_Y_BITS - 1.

Definition PackedBlockPos_from (pos : BlockPos) : Z :=
  Z.lor (Z.lor (i64 (Z.shiftl (Z.land (bp_x pos) BLOCK_XZ_MASK) BLOCK_X_OFFSET))
               (i64 (Z.shiftl (Z.land (bp_z pos) BLOCK_XZ_MASK) BLOCK_Z_OFFSET)))
        (Z.land (bp_y pos) BLOCK_Y_MASK).

(** [(v << (64 - bits)) >> (64 - bits)] on an [i64]. *)
Definition sign_extend (bits v : Z) : Z :=
  Z.shiftr (i64 (Z.shiftl v (64 - bits))) (64 - bits).

Definition PackedBlockPos_to_block_pos (raw : Z) : BlockPos :=
  let x := Z.shiftr raw BLOCK_X_OFFSET in
  let y := Z.land raw BLOCK_Y_MASK in
  let z := Z.land (Z.shiftr raw BLOCK_Z_OFFSET) BLOCK_XZ_MASK in
  let x := sign_extend HORIZONTAL_BITS x in
  let y := sign_extend BLOCK_Y_BITS y in
  let z := sign_extend HORIZONTAL_BITS z in
  mkBlockPos (i32 x) (i32 y) (i32 z).

(** ** PackedSectionPos *)

Definition SECTION_XZ_BITS : Z := 22.
Definition SECTION_Y_BITS : Z := 20.
Definition SECTION_X_OFFSET : Z := SECTION_XZ_BITS + SECTION_Y_BITS.
Definition SECTION_Z_OFFSET : Z := SECTION_Y_BITS.
Definition SECTION_XZ_MASK : Z := Z.shiftl 1 SECTION_XZ_BITS - 1.
Definition SECTION_Y_MASK : Z := Z.shiftl 1 SECTION_Y_BITS - 1.

Definition PackedSectionPos_from (pos : SectionPos) : Z :=
  Z.lor (Z.lor (i64 (Z.shiftl (Z.land (sp_x pos) SECTION_XZ_MASK) SECTION_X_OFFSET))
               (i64 (Z.shiftl (Z.land (sp_z pos) SECTION_XZ_MASK) SECTION_Z_OFFSET)))
        (Z.land (sp_y pos) SECTION_Y_MASK).

Definition PackedSectionPos_to_section_pos (raw : Z) : SectionPos :=
  let x := Z.shiftr raw SECTION_X_OFFSET in
  let z := Z.land (Z.shiftr raw SECTION_Z_OFFSET) SECTION_XZ_MASK in
  let y := Z.land raw SECTION_Y_MASK in
  let x := sign_extend SECTION_XZ_BITS x in
  let y := sign_extend SECTION_Y_BITS y in
  let z := sign_extend SECTION_XZ_BITS z in
  mkSectionPos (i32 x) (i32 y) (i32 z).

(** ** PackedChunkLocalXZ and PackedSectionBlockPos *)

Definition PackedChunkLocalXZ_from_local_unchecked (x z : Z) : Z := Z.lor (u8 (Z.shiftl x 4)) z.

Definition PackedChunkLocalXZ_from_block_pos (pos : BlockPos) : Z :=
  PackedChunkLocalXZ_from_local_unchecked (u8 (Z.land (bp_x pos) SECTION_MASK))
    (u8 (Z.land (bp_z pos) SECTION_MASK)).

Definition PackedChunkLocalXZ_from_local_xz (x z : Z) : option Z :=
  if (x <? 16) && (z <? 16) then Some (PackedChunkLocalXZ_from_local_unchecked x z) else None.

Definition PackedChunkLocalXZ_x (raw : Z) : Z := Z.land (Z.shiftr raw 4) 0x0f.
Definition PackedChunkLocalXZ_z (raw : Z) : Z := Z.land raw 0x0f.

Definition PackedSectionBlockPos_from_local_unchecked (x y z : Z) : Z :=
  Z.lor (Z.lor (u16 (Z.shiftl x 8)) (u16 (Z.shiftl z 4))) y.

Definition PackedSectionBlockPos_from_block_pos (pos : BlockPos) : Z :=
  PackedSectionBlockPos_from_local_unchecked (u8 (Z.land (bp_x pos) SECTION_MASK))
    (u8 (Z.land (bp_y pos) SECTION_MASK)) (u8 (Z.land (bp_z pos) SECTION_MASK)).

Definition PackedSectionBlockPos_from_local_xyz (x y z : Z) : option Z :=
  if (x <? 16) && (y <? 16) && (z <? 16)
  then Some (PackedSectionBlockPos_from_local_unchecked x y z) else None.

(** [raw & !RAW_MASK == 0] on a [u16]. *)
Definition PackedSectionBlockPos_from_raw (raw : Z) : option Z :=
  if Z.land raw (Z.lxor 0xFFFF 0x0fff) =? 0 then Some raw else None.

Definition PackedSectionBlockPos_x (raw : Z) : Z := u8 (Z.land (Z.shiftr raw 8) 0x0f).
Definition PackedSectionBlockPos_y (raw : Z) : Z := u8 (Z.land raw 0x0f).
Definition PackedSectionBlockPos_z (raw : Z) : Z := u8 (Z.land (Z.shiftr raw 4) 0x0f).

Definition SectionPos_relative_to_block_pos (self : SectionPos) (relative : Z) : BlockPos :=
  mkBlockPos (i32 (i32 (Z.shiftl (sp_x self) SECTION_BITS) + PackedSectionBlockPos_x relative))
    (i32 (i32 (Z.shiftl (sp_y self) SECTION_BITS) + PackedSectionBlockPos_y relative))
    (i32 (i32 (Z.shiftl (sp_z self) SECTION_BITS) + PackedSectionBlockPos_z relative)).

(** ** Bit lemmas *)

Lemma testbit_land_mask z k i : 0 <= k -> 0 <= i ->
  Z.testbit (Z.land z (Z.shiftl 1 k - 1)) i = (i <? k) && Z.testbit z i.
Proof.
  intros Hk Hi. rewrite Z.shiftl_1_l, land_ones_mod by done.
  by rewrite Z.testbit_mod_pow2.
Qed.

(** A two's complement value depends only on its low bits. *)
Lemma wraps_ext b x y : 0 < b ->
  (forall i, 0 <= i < b -> Z.testbit x i = Z.testbit y i) -> wraps b x = wraps b y.
Proof.
  intros Hb H. apply Z.bits_inj'. intros n Hn. rewrite !testbit_wraps by done.
  apply H. lia.
Qed.

Lemma sign_extend_wraps b v : 0 < b <= 64 -> sign_extend b v = wraps b v.
Proof.
  intros Hb. apply Z.bits_inj'. intros n Hn. unfold sign_extend, i64.
  rewrite Z.shiftr_spec, !testbit_wraps, Z.shiftl_spec by lia. f_equal. lia.
Qed.

Lemma i32_wraps b v : 0 < b <= 32 -> i32 (wraps b v) = wraps b v.
Proof.
  intros Hb. apply i32_small. pose proof (wraps_range b v ltac:(lia)) as [H1 H2].
  pose proof (Z.pow_le_mono_r 2 (b - 1) 31). lia.
Qed.

Section Fields.
(** Three fields of [hb], [hb] and [yb] bits filling 64 bits: x on top, then z, then y. *)
Context (hb yb : Z) (Hh : 0 < hb <= 32) (Hy : 0 < yb <= 32) (Hsum : hb + hb + yb = 64).

Definition pack3 (x y z : Z) : Z :=
  Z.lor (Z.lor (i64 (Z.shiftl (Z.land x (Z.shiftl 1 hb - 1)) (hb + yb)))
               (i64 (Z.shiftl (Z.land z (Z.shiftl 1 hb - 1)) yb)))
        (Z.land y (Z.shiftl 1 yb - 1)).

Lemma pack3_testbit x y z n : 0 <= n < 64 ->
  Z.testbit (pack3 x y z) n =
    if n <? yb then Z.testbit y n
    else if n <? hb + yb then Z.testbit z (n - yb)
    else Z.testbit x (n - (hb + yb)).
Proof.
  intros Hn. unfold pack3, i64.
  rewrite !Z.lor_spec, !testbit_wraps by lia.
  replace (Z.min n (64 - 1)) with n by lia.
  rewrite !Z.shiftl_spec by lia. rewrite (testbit_land_mask y) by lia.
  assert (forall v k, k < 0 -> Z.testbit v k = false) as Hneg by (intros; by apply Z.testbit_neg_r).
  destruct (Z.ltb_spec n yb) as [H1|H1].
  - rewrite (Hneg _ (n - (hb + yb))), (Hneg _ (n - yb)) by lia. done.
  - rewrite (testbit_land_mask z) by lia.
    destruct (Z.ltb_spec n (hb + yb)) as [H2|H2].
    + rewrite (Hneg _ (n - (hb + yb))) by lia.
      rewrite (proj2 (Z.ltb_lt (n - yb) hb)) by lia. simpl. by rewrite orb_false_r.
    + rewrite (testbit_land_mask x) by lia.
      rewrite (proj2 (Z.ltb_ge (n - yb) hb)), (proj2 (Z.ltb_lt (n - (hb + yb)) hb)) by lia.
      simpl. by rewrite !orb_false_r.
Qed.

Definition unpack3 (raw : Z) : Z * Z * Z :=
  (i32 (sign_extend hb (Z.shiftr raw (hb + yb))),
   i32 (sign_extend yb (Z.land raw (Z.shiftl 1 yb - 1))),
   i32 (sign_extend hb (Z.land (Z.shiftr raw yb) (Z.shiftl 1 hb - 1)))).

Lemma unpack3_eq raw :
  unpack3 raw = (wraps hb (Z.shiftr raw (hb + yb)), wraps yb raw, wraps hb (Z.shiftr raw yb)).
Proof.
  unfold unpack3. rewrite !sign_extend_wraps, !i32_wraps by lia.
  f_equal; [f_equal|]; apply wraps_ext; try lia; intros i Hi; rewrite testbit_land_mask by lia;
    rewrite (proj2 (Z.ltb_lt _ _)) by lia; done.
Qed.

Lemma unpack3_pack3 x y z : unpack3 (pack3 x y z) = (wraps hb x, wraps yb y, wraps hb z).
Proof.
  rewrite unpack3_eq. f_equal; [f_equal|]; apply wraps_ext; try lia; intros i Hi;
    rewrite ?Z.shiftr_spec by lia; rewrite pack3_testbit by lia.
  - rewrite (proj2 (Z.ltb_ge _ _)), (proj2 (Z.ltb_ge _ _)) by lia. f_equal. lia.
  - by rewrite (proj2 (Z.ltb_lt _ _)) by lia.
  - rewrite (proj2 (Z.ltb_ge _ _)), (proj2 (Z.ltb_lt _ _)) by lia. f_equal. lia.
Qed.

Lemma pack3_range x y z : in_s 64 (pack3 x y z).
Proof.
  unfold pack3. set (lo := Z.land y _).
  assert (lo = i64 lo) as ->.
  { symmetry. apply i64_small. unfold lo. rewrite Z.shiftl_1_l, land_ones_mod by lia.
    pose proof (Z.mod_pos_bound y (2 ^ yb) ltac:(lia)).
    pose proof (Z.pow_le_mono_r 2 yb 32). lia. }
  rewrite <- !cast_lor. by apply wraps_range.
Qed.

Lemma pack3_unpack3 raw : in_s 64 raw ->
  (let '(x, y, z) := unpack3 raw in pack3 x y z) = raw.
Proof.
  intros Hr. rewrite unpack3_eq.
  rewrite <- (wraps_small 64 raw) at 4 by done.
  rewrite <- (wraps_small 64 (pack3 _ _ _)) by (done || apply pack3_range).
  apply wraps_ext; [done|]. intros i Hi. rewrite pack3_testbit by done.
  rewrite !testbit_wraps by lia.
  destruct (Z.ltb_spec i yb); [f_equal; lia|].
  destruct (Z.ltb_spec i (hb + yb)); rewrite testbit_wraps, Z.shiftr_spec by lia; f_equal; lia.
Qed.
End Fields.

(** The two source layouts are instances of the three-field layout. *)
Lemma PackedBlockPos_pack3 p :
  PackedBlockPos_from p = pack3 26 12 (bp_x p) (bp_y p) (bp_z p).
Proof. done. Qed.

Lemma PackedBlockPos_unpack3 raw :
  PackedBlockPos_to_block_pos raw =
  (let '(x, y, z) := unpack3 26 12 raw in mkBlockPos x y z).
Proof. done. Qed.

Lemma PackedSectionPos_pack3 p :
  PackedSectionPos_from p = pack3 22 20 (sp_x p) (sp_y p) (sp_z p).
Proof. done. Qed.

Lemma PackedSectionPos_unpack3 raw :
  PackedSectionPos_to_section_pos raw =
  (let '(x, y, z) := unpack3 22 20 raw in mkSectionPos x y z).
Proof. done. Qed.

(** ** Lemmas: chunk positions *)

(** The positions of [min_x..=max_x] by [min_z..=max_z], in loop order. *)
Definition rectangle (min_x max_x min_z max_z : Z) : list ChunkPos :=
  seqZ min_x (max_x - min_x + 1) ≫= fun x => mkChunkPos x <$> seqZ min_z (max_z - min_z + 1).

Lemma elem_of_rectangle p min_x max_x min_z max_z :
  p ∈ rectangle min_x max_x min_z max_z <-> min_x <= cp_x p <= max_x /\ min_z <= cp_y p <= max_z.
Proof.
  unfold rectangle. rewrite list_elem_of_bind. split.
  - intros (x & Hp & Hx). apply list_elem_of_fmap in Hp as (z & -> & Hz). apply elem_of_range in Hx, Hz. done.
  - destruct p as [x z]. simpl. intros [Hx Hz]. exists x. split; [|by apply elem_of_range].
    apply list_elem_of_fmap. exists z. split; [done|]. by apply elem_of_range.
Qed.

Lemma NoDup_rectangle min_x max_x min_z max_z : NoDup (rectangle min_x max_x min_z max_z).
Proof.
  apply NoDup_bind.
  - intros x x' p _ _ (z & -> & _)%list_elem_of_fmap (z' & [= -> _] & _)%list_elem_of_fmap. done.
  - intros x _. apply NoDup_fmap_2; [by intros z z' [= ->]|apply NoDup_seqZ].
  - apply NoDup_seqZ.
Qed.

Definition ChunkPos_ok (p : ChunkPos) : Prop := in_s 32 (cp_x p) /\ in_s 32 (cp_y p).

#[global] Instance ChunkPos_ok_dec p : Decision (ChunkPos_ok p).
Proof. unfold ChunkPos_ok. apply _. Defined.

Lemma PackedChunkPos_testbit p n : 0 <= n < 64 ->
  Z.testbit (PackedChunkPos_from p) n =
    if n <? 32 then Z.testbit (cp_x p) n else Z.testbit (cp_y p) (n - 32).
Proof.
  intros Hn. unfold PackedChunkPos_from, i64. change 0xFFFFFFFF with (Z.shiftl 1 32 - 1).
  rewrite Z.lor_spec, testbit_land_mask, testbit_wraps by lia.
  rewrite Z.shiftl_spec by lia. replace (Z.min n (64 - 1)) with n by lia.
  destruct (Z.ltb_spec n 32).
  - rewrite (Z.testbit_neg_r _ (n - 32)) by lia. by rewrite orb_false_r.
  - rewrite testbit_land_mask by lia. by rewrite (proj2 (Z.ltb_lt (n - 32) 32)) by lia.
Qed.

Lemma PackedChunkPos_range p : in_s 64 (PackedChunkPos_from p).
Proof.
  unfold PackedChunkPos_from. set (lo := Z.land _ _).
  assert (lo = i64 lo) as ->.
  { symmetry. apply i64_small. unfold lo. change 0xFFFFFFFF with (2 ^ 32 - 1).
    rewrite land_ones_mod by lia. pose proof (Z.mod_pos_bound (cp_x p) (2 ^ 32)). lia. }
  rewrite <- cast_lor. by apply wraps_range.
Qed.

Lemma PackedChunkPos_roundtrip p : ChunkPos_ok p ->
  PackedChunkPos_to_chunk_pos (PackedChunkPos_from p) = p.
Proof.
  intros [Hx Hy]. destruct p as [x y]. unfold PackedChunkPos_to_chunk_pos. simpl in *.
  change 0xFFFFFFFF with (Z.shiftl 1 32 - 1). f_equal.
  - rewrite <- (wraps_small 32 x) at 2 by done. apply wraps_ext; [done|]. intros i Hi.
    rewrite testbit_land_mask, PackedChunkPos_testbit by lia.
    by rewrite (proj2 (Z.ltb_lt i 32)) by lia.
  - rewrite <- (wraps_small 32 y) at 2 by done. apply wraps_ext; [done|]. intros i Hi.
    rewrite Z.shiftr_spec, PackedChunkPos_testbit by lia.
    rewrite (proj2 (Z.ltb_ge (i + 32) 32)) by lia. simpl. f_equal. lia.
Qed.

Lemma PackedChunkPos_inj p q : ChunkPos_ok p -> ChunkPos_ok q ->
  PackedChunkPos_from p = PackedChunkPos_from q -> p = q.
Proof.
  intros Hp Hq E. rewrite <- (PackedChunkPos_roundtrip p), <- (PackedChunkPos_roundtrip q) by done.
  by rewrite E.
Qed.

#[export] Hint Resolve PackedChunkPos_range : steel.

(** ** Properties *)

Lemma PackedBlockPos_lossless :
  (forall p, PackedBlockPos_to_block_pos (PackedBlockPos_from p) =
     mkBlockPos (wraps 26 (bp_x p)) (wraps 12 (bp_y p)) (wraps 26 (bp_z p))) /\
  (forall p, in_s 26 (bp_x p) -> in_s 12 (bp_y p) -> in_s 26 (bp_z p) ->
     PackedBlockPos_to_block_pos (PackedBlockPos_from p) = p) /\
  (forall raw, in_s 64 raw -> PackedBlockPos_from (PackedBlockPos_to_block_pos raw) = raw).
Proof.
  assert (forall p, PackedBlockPos_to_block_pos (PackedBlockPos_from p) =
     mkBlockPos (wraps 26 (bp_x p)) (wraps 12 (bp_y p)) (wraps 26 (bp_z p))) as H.
  { intros p. rewrite PackedBlockPos_unpack3, PackedBlockPos_pack3.
    by rewrite unpack3_pack3 by lia. }
  split_and!; [done| |].
  - intros [x y z] Hx Hy Hz. rewrite H. simpl in *. by rewrite !wraps_small by done.
  - intros raw Hr. rewrite PackedBlockPos_unpack3, PackedBlockPos_pack3.
    pose proof (pack3_unpack3 26 12 ltac:(lia) ltac:(lia) ltac:(lia) raw Hr) as E.
    by destruct (unpack3 26 12 raw) as [[x y] z].
Qed.

Lemma PackedSection_and_ChunkPos_lossless :
  (forall p, PackedSectionPos_to_section_pos (PackedSectionPos_from p) =
     mkSectionPos (wraps 22 (sp_x p)) (wraps 20 (sp_y p)) (wraps 22 (sp_z p))) /\
  (forall raw, in_s 64 raw -> PackedSectionPos_from (PackedSectionPos_to_section_pos raw) = raw) /\
  (forall p, ChunkPos_ok p -> PackedChunkPos_to_chunk_pos (PackedChunkPos_from p) = p) /\
  (forall raw, in_s 64 raw -> PackedChunkPos_from (PackedChunkPos_to_chunk_pos raw) = raw).
Proof.
  split_and!; [| |by apply PackedChunkPos_roundtrip|].
  - intros p. rewrite PackedSectionPos_unpack3, PackedSectionPos_pack3.
    by rewrite unpack3_pack3 by lia.
  - intros raw Hr. rewrite PackedSectionPos_unpack3, PackedSectionPos_pack3.
    pose proof (pack3_unpack3 22 20 ltac:(lia) ltac:(lia) ltac:(lia) raw Hr) as E.
    by destruct (unpack3 22 20 raw) as [[x y] z].
  - intros raw Hr. rewrite <- (wraps_small 64 raw) at 2 by done.
    rewrite <- (wraps_small 64 (PackedChunkPos_from _)) by (done || apply PackedChunkPos_range).
    apply wraps_ext; [done|]. intros i Hi. rewrite PackedChunkPos_testbit by done. simpl.
    unfold i32. destruct (Z.ltb_spec i 32); rewrite testbit_wraps by lia.
    + change 0xFFFFFFFF with (Z.shiftl 1 32 - 1). rewrite testbit_land_mask by lia.
      rewrite (proj2 (Z.ltb_lt _ 32)) by lia. simpl. f_equal. lia.
    + rewrite Z.shiftr_spec by lia. f_equal. lia.
Qed.

(** The packed 64-bit forms of positions are lossless: unpacking a packed block
    position returns each coordinate wrapped to its field (26, 12 and 26 bits), hence
    the position itself when the coordinates fit; the same holds of section positions
    (22, 20 and 22 bits); chunk positions with 32-bit coordinates come back unchanged;
    and packing the unpacking of any [i64] returns that [i64] in all three forms, so no
    two raw values denote the same position. *)
Theorem packed_positions_codec :
  (forall p, PackedBlockPos_to_block_pos (PackedBlockPos_from p) =
     mkBlockPos (wraps 26 (bp_x p)) (wraps 12 (bp_y p)) (wraps 26 (bp_z p))) /\
  (forall p, in_s 26 (bp_x p) -> in_s 12 (bp_y p) -> in_s 26 (bp_z p) ->
     PackedBlockPos_to_block_pos (PackedBlockPos_from p) = p) /\
  (forall raw, in_s 64 raw -> PackedBlockPos_from (PackedBlockPos_to_block_pos raw) = raw) /\
  (forall p, PackedSectionPos_to_section_pos (PackedSectionPos_from p) =
     mkSectionPos (wraps 22 (sp_x p)) (wraps 20 (sp_y p)) (wraps 22 (sp_z p))) /\
  (forall raw, in_s 64 raw -> PackedSectionPos_from (PackedSectionPos_to_section_pos raw) = raw) /\
  (forall p, ChunkPos_ok p -> PackedChunkPos_to_chunk_pos (PackedChunkPos_from p) = p) /\
  (forall raw, in_s 64 raw -> PackedChunkPos_from (PackedChunkPos_to_chunk_pos raw) = raw).
Proof.
  destruct PackedBlockPos_lossless as (H1 & H2 & H3).
  split_and!; [exact H1|exact H2|exact H3|apply PackedSection_and_ChunkPos_lossless..].
Qed.

Lemma u8_mod_16 c : u8 (c mod 2 ^ 4) = c mod 2 ^ 4.
Proof. apply u8_small. pose proof (Z.mod_pos_bound c (2 ^ 4)). lia. Qed.

(** The three fields of a section-relative position. *)
Lemma PackedSectionBlockPos_fields x y z :
  0 <= x < 16 -> 0 <= y < 16 -> 0 <= z < 16 ->
  let raw := PackedSectionBlockPos_from_local_unchecked x y z in
  PackedSectionBlockPos_x raw = x /\ PackedSectionBlockPos_y raw = y /\
  PackedSectionBlockPos_z raw = z /\ PackedSectionBlockPos_from_raw raw = Some raw.
Proof.
  intros Hx Hy Hz raw.
  assert (raw = x * 256 + z * 16 + y) as E.
  { unfold raw, PackedSectionBlockPos_from_local_unchecked, u16.
    rewrite !Z.shiftl_mul_pow2 by lia. rewrite !wrapu_small by (unfold in_u; lia).
    rewrite <- !Z.shiftl_mul_pow2 by lia. rewrite (Z.lor_comm _ y), (Z.lor_comm (Z.shiftl x 8)).
    rewrite Z.lor_assoc, (lor_shiftl_add y z 4), lor_shiftl_add by lia. lia. }
  unfold PackedSectionBlockPos_x, PackedSectionBlockPos_y, PackedSectionBlockPos_z,
    PackedSectionBlockPos_from_raw.
  change 0x0f with (2 ^ 4 - 1). rewrite !land_ones_mod, !Z.shiftr_div_pow2 by done.
  rewrite !u8_mod_16. rewrite E. change (2 ^ 8) with 256. change (2 ^ 4) with 16.
  split_and!; [Z.div_mod_to_equations; lia..|].
  rewrite <- E. rewrite (proj2 (Z.eqb_eq _ 0)); [done|].
  apply Z.bits_inj'. intros n Hn. change (Z.lxor 0xFFFF (2 ^ 12 - 1)) with (Z.shiftl 15 12).
  change (Z.lxor 65535 4095) with (Z.shiftl 15 12).
  rewrite Z.land_spec, Z.bits_0. destruct (Z.lt_ge_cases n 12).
  - by rewrite Z.shiftl_spec_low, andb_false_r by done.
  - rewrite <- (Z.mod_small raw (2 ^ 12)) by (rewrite E; lia).
    by rewrite Z.mod_pow2_bits_high by lia.
Qed.

(** Splitting a block position into its section and its packed section-relative
    offset loses nothing: recombining the two returns the block position, for every
    32-bit position, and the packed offset passes its own validation. *)
Theorem section_relative_roundtrip p :
  in_s 32 (bp_x p) -> in_s 32 (bp_y p) -> in_s 32 (bp_z p) ->
  SectionPos_relative_to_block_pos (SectionPos_from_block_pos p)
    (PackedSectionBlockPos_from_block_pos p) = p /\
  PackedSectionBlockPos_from_raw (PackedSectionBlockPos_from_block_pos p) =
    Some (PackedSectionBlockPos_from_block_pos p).
Proof.
  intros Hx Hy Hz.
  assert (forall c, u8 (Z.land c SECTION_MASK) = c mod 16) as Hm.
  { intros c. change SECTION_MASK with (2 ^ 4 - 1). rewrite land_ones_mod by done.
    apply u8_mod_16. }
  unfold PackedSectionBlockPos_from_block_pos. rewrite !Hm.
  pose proof (Z.mod_pos_bound (bp_x p) 16 ltac:(done)).
  pose proof (Z.mod_pos_bound (bp_y p) 16 ltac:(done)).
  pose proof (Z.mod_pos_bound (bp_z p) 16 ltac:(done)).
  destruct (PackedSectionBlockPos_fields (bp_x p mod 16) (bp_y p mod 16) (bp_z p mod 16))
    as (Ex & Ey & Ez & Er); [done..|].
  split; [|exact Er].
  assert (forall c, in_s 32 c -> i32 (i32 (Z.shiftl (block_to_section_coord c) SECTION_BITS)
    + c mod 16) = c) as Hc.
  { intros c [Hc1 Hc2]. unfold block_to_section_coord, SECTION_BITS.
    rewrite Z.shiftr_div_pow2, Z.shiftl_mul_pow2 by done. change (2 ^ 4) with 16.
    rewrite (i32_small (c / 16 * 16)), i32_small by (Z.div_mod_to_equations; lia).
    Z.div_mod_to_equations; lia. }
  unfold SectionPos_relative_to_block_pos, SectionPos_from_block_pos. simpl.
  rewrite Ex, Ey, Ez, !Hc by done. by destruct p.
Qed.

Lemma section_relative_roundtrip_witness :
  let p := mkBlockPos (-1) (-64) 31 in
  SectionPos_relative_to_block_pos (SectionPos_from_block_pos p)
    (PackedSectionBlockPos_from_block_pos p) = p /\
  PackedSectionBlockPos_from_raw (PackedSectionBlockPos_from_block_pos p) =
    Some (PackedSectionBlockPos_from_block_pos p).
Proof. apply (section_relative_roundtrip (mkBlockPos (-1) (-64) 31)); unfold in_s; simpl; lia. Defined.
