(* ===== verification/ChunkPyramid.v ===== *)
(** * Chunk generation statuses and the dependency pyramid

    Models [steel-core/src/chunk/status.rs] ([ChunkStatus]) and
    [steel-core/src/chunk/chunk_pyramid.rs] ([ChunkDependencies], [ChunkStep],
    [ConstPyramidBuilder], [GENERATION_PYRAMID], [LOADING_PYRAMID]).  The source
    evaluates the builders at compile time, where a panic is a compile error; here
    they run in [option], [None] being that panic. *)

From S2P Require Import Prelude.

(** ** Statuses *)

Inductive ChunkStatus :=
| Empty
| StructureStarts
| StructureReferences
| Biomes
| Noise
| Surface
| Carvers
| Features
| InitializeLight
| Light
| Spawn
| Full.

#[global] Instance ChunkStatus_eq_dec : EqDecision ChunkStatus.
Proof. solve_decision. Defined.

#[global] Instance ChunkStatus_inhabited : Inhabited ChunkStatus := populate Empty.

Definition ChunkStatus_get_index (s : ChunkStatus) : nat :=
  match s with
  | Empty => 0
  | StructureStarts => 1
  | StructureReferences => 2
  | Biomes => 3
  | Noise => 4
  | Surface => 5
  | Carvers => 6
  | Features => 7
  | InitializeLight => 8
  | Light => 9
  | Spawn => 10
  | Full => 11
  end.

Definition ChunkStatus_from_index (index : nat) : option ChunkStatus :=
  match index with
  | 0 => Some Empty
  | 1 => Some StructureStarts
  | 2 => Some StructureReferences
  | 3 => Some Biomes
  | 4 => Some Noise
  | 5 => Some Surface
  | 6 => Some Carvers
  | 7 => Some Features
  | 8 => Some InitializeLight
  | 9 => Some Light
  | 10 => Some Spawn
  | 11 => Some Full
  | _ => None
  end%nat.

Definition ChunkStatus_next (s : ChunkStatus) : option ChunkStatus :=
  match s with
  | Empty => Some StructureStarts
  | StructureStarts => Some StructureReferences
  | StructureReferences => Some Biomes
  | Biomes => Some Noise
  | Noise => Some Surface
  | Surface => Some Carvers
  | Carvers => Some Features
  | Features => Some InitializeLight
  | InitializeLight => Some Light
  | Light => Some Spawn
  | Spawn => Some Full
  | Full => None
  end.

Definition ChunkStatus_parent (s : ChunkStatus) : option ChunkStatus :=
  match s with
  | Empty => None
  | StructureStarts => Some Empty
  | StructureReferences => Some StructureStarts
  | Biomes => Some StructureReferences
  | Noise => Some Biomes
  | Surface => Some Noise
  | Carvers => Some Surface
  | Features => Some Carvers
  | InitializeLight => Some Features
  | Light => Some InitializeLight
  | Spawn => Some Light
  | Full => Some Spawn
  end.

(** ** Dependencies *)

Definition STATUS_COUNT : nat := 12.
Definition MAX_RADIUS : nat := 16.

Record ChunkDependencies := mkDeps {
  dependency_by_radius : list (option ChunkStatus);
  deps_len : nat;
  radius_by_dependency : list nat;
}.

Definition ChunkDependencies_EMPTY : ChunkDependencies :=
  mkDeps (replicate MAX_RADIUS None) 0 (replicate STATUS_COUNT 0%nat).

Definition const_max (a b : nat) : nat := if (b <? a)%nat then a else b.
Definition const_min (a b : nat) : nat := if (a <? b)%nat then a else b.

Definition const_max_status (a b : option ChunkStatus) : option ChunkStatus :=
  match a, b with
  | Some sa, Some sb =>
      if (ChunkStatus_get_index sb <? ChunkStatus_get_index sa)%nat then Some sa else Some sb
  | Some s, None | None, Some s => Some s
  | None, None => None
  end.

(** Extends the filled part of the array to [new_len] with [status]. *)
Definition fill_radius (status : ChunkStatus) (len new_len : nat)
  (deps : list (option ChunkStatus)) : option (list (option ChunkStatus)) :=
  for_range len (new_len - len) (fun j d => vec_set d j (Some status)) deps.

(** Raises the first [limit] entries that are below [status]. *)
Definition raise_radius (status : ChunkStatus) (limit : nat)
  (deps : list (option ChunkStatus)) : option (list (option ChunkStatus)) :=
  for_range 0 limit (fun j d =>
    cell ← d !! j;
    match cell with
    | Some existing =>
        if (ChunkStatus_get_index existing <? ChunkStatus_get_index status)%nat
        then vec_set d j (Some status) else Some d
    | None => Some d
    end) deps.

Definition requirement_step (req : ChunkStatus * nat)
  (st : list (option ChunkStatus) * nat) : option (list (option ChunkStatus) * nat) :=
  let '(status, radius) := req in
  let '(deps, len) := st in
  let new_len := (radius + 1)%nat in
  '(deps, len) ← (if (len <? new_len)%nat
                  then d ← fill_radius status len new_len deps; Some (d, new_len)
                  else Some (deps, len));
  deps ← raise_radius status (const_min len new_len) deps;
  Some (deps, len).

Definition build_radius_lookup (deps : list (option ChunkStatus)) (len : nat)
  : option (list nat) :=
  for_range 0 len (fun radius tbl =>
    cell ← deps !! radius;
    match cell with
    | Some dep =>
        let index := ChunkStatus_get_index dep in
        for_range 0 (const_min (index + 1) STATUS_COUNT) (fun j t => vec_set t j radius) tbl
    | None => Some tbl
    end) (replicate STATUS_COUNT 0%nat).

Definition ChunkDependencies_from_requirements
  (reqs : list (ChunkStatus * nat)) (parent_status : option ChunkStatus)
  : option ChunkDependencies :=
  let deps := replicate MAX_RADIUS None in
  st ← match parent_status with
       | Some parent => d ← vec_set deps 0 (Some parent); Some (d, 1%nat)
       | None => Some (deps, 0%nat)
       end;
  '(deps, len) ← for_each reqs requirement_step st;
  lookup ← build_radius_lookup deps len;
  Some (mkDeps deps len lookup).

(** The last radius that refers to the parent status or a later one. *)
Definition radius_of_parent (self : ChunkDependencies) (parent_status : ChunkStatus)
  : option nat :=
  for_range 0 (deps_len self) (fun i acc =>
    cell ← dependency_by_radius self !! i;
    match cell with
    | Some s => if (ChunkStatus_get_index parent_status <=? ChunkStatus_get_index s)%nat
                then Some i else Some acc
    | None => Some acc
    end) 0%nat.

Definition ChunkDependencies_accumulate (self parent_accumulated : ChunkDependencies)
  (parent_status : ChunkStatus) : option ChunkDependencies :=
  rp ← radius_of_parent self parent_status;
  let new_len := const_max (rp + deps_len parent_accumulated) (deps_len self) in
  let capped_len := const_min new_len MAX_RADIUS in
  accumulated ← for_range 0 capped_len (fun dist acc =>
    let dist_in_parent := (dist - rp)%nat in
    parent_dep ← (if (dist_in_parent <? deps_len parent_accumulated)%nat
                  then dependency_by_radius parent_accumulated !! dist_in_parent
                  else Some None);
    direct_dep ← (if (dist <? deps_len self)%nat
                  then dependency_by_radius self !! dist
                  else Some None);
    vec_set acc dist (const_max_status direct_dep parent_dep)) (replicate MAX_RADIUS None);
  lookup ← build_radius_lookup accumulated capped_len;
  Some (mkDeps accumulated capped_len lookup).

(** The table has one entry per status, so the lookup of a status never misses. *)
Definition ChunkDependencies_get_radius_of (self : ChunkDependencies) (s : ChunkStatus) : nat :=
  radius_by_dependency self !!! ChunkStatus_get_index s.

Definition ChunkDependencies_get_radius (self : ChunkDependencies) : nat :=
  (deps_len self - 1)%nat.

Definition ChunkDependencies_get (self : ChunkDependencies) (distance : nat)
  : option ChunkStatus :=
  if (distance <? deps_len self)%nat
  then dependency_by_radius self !!! distance else None.

(** ** Steps and pyramids *)

(** The generation and loading tasks the two pyramids refer to. *)
Inductive ChunkStatusTask :=
| noop_task
| task_empty
| generate_structure_starts
| generate_structure_references
| generate_biomes
| generate_noise
| generate_surface
| generate_carvers
| generate_features
| task_initialize_light
| task_light
| generate_spawn
| task_full
| load_structure_starts
| load_light.

Record ChunkStep := mkStep {
  target_status : ChunkStatus;
  direct_dependencies : ChunkDependencies;
  accumulated_dependencies : ChunkDependencies;
  block_state_write_radius : Z;
  step_task : ChunkStatusTask;
}.

Definition ChunkStep_PLACEHOLDER : ChunkStep :=
  mkStep Empty ChunkDependencies_EMPTY ChunkDependencies_EMPTY (-1) noop_task.

#[global] Instance ChunkStep_inhabited : Inhabited ChunkStep :=
  populate ChunkStep_PLACEHOLDER.

Definition ChunkStep_get_accumulated_radius_of (self : ChunkStep) (status : ChunkStatus) : nat :=
  if (ChunkStatus_get_index status =? ChunkStatus_get_index (target_status self))%nat
  then 0%nat
  else ChunkDependencies_get_radius_of (accumulated_dependencies self) status.

Record ChunkPyramid := mkPyramid { pyramid_steps : list ChunkStep }.

Definition ChunkPyramid_get_step_to (self : ChunkPyramid) (status : ChunkStatus) : ChunkStep :=
  pyramid_steps self !!! ChunkStatus_get_index status.

Record ConstPyramidBuilder := mkBuilder { builder_steps : list ChunkStep; builder_count : nat }.

Definition ConstPyramidBuilder_new : ConstPyramidBuilder :=
  mkBuilder (replicate STATUS_COUNT ChunkStep_PLACEHOLDER) 0.

Definition ConstPyramidBuilder_step (self : ConstPyramidBuilder) (status : ChunkStatus)
  (requirements : list (ChunkStatus * nat)) (bswr : Z) (task : ChunkStatusTask)
  : option ConstPyramidBuilder :=
  parent ← (if (0 <? builder_count self)%nat
            then p ← builder_steps self !! (builder_count self - 1)%nat;
                 Some (Some (target_status p, accumulated_dependencies p))
            else Some None);
  direct ← ChunkDependencies_from_requirements requirements (fst <$> parent);
  accumulated ← match parent with
                | Some (ps, pa) => ChunkDependencies_accumulate direct pa ps
                | None => Some direct
                end;
  steps ← vec_set (builder_steps self) (builder_count self)
            (mkStep status direct accumulated bswr task);
  Some (mkBuilder steps (builder_count self + 1)).

(** One line of the [define_pyramid!] macro. *)
Definition pyramid_line : Type := ChunkStatus * list (ChunkStatus * nat) * Z * ChunkStatusTask.

Definition define_pyramid (lines : list pyramid_line) : option ChunkPyramid :=
  b ← for_each lines
        (fun '(status, reqs, bswr, task) b => ConstPyramidBuilder_step b status reqs bswr task)
        ConstPyramidBuilder_new;
  Some (mkPyramid (builder_steps b)).

Definition GENERATION_LINES : list pyramid_line :=
  [ (Empty, [], -1, task_empty);
    (StructureStarts, [], -1, generate_structure_starts);
    (StructureReferences, [(StructureStarts, 8%nat)], -1, generate_structure_references);
    (Biomes, [(StructureStarts, 8%nat)], -1, generate_biomes);
    (Noise, [(StructureStarts, 8%nat); (Biomes, 1%nat)], 0, generate_noise);
    (Surface, [(StructureStarts, 8%nat); (Biomes, 1%nat)], 0, generate_surface);
    (Carvers, [(StructureStarts, 8%nat)], 0, generate_carvers);
    (Features, [(StructureStarts, 8%nat); (Carvers, 1%nat)], 1, generate_features);
    (InitializeLight, [], -1, task_initialize_light);
    (Light, [(InitializeLight, 1%nat)], 0, task_light);
    (Spawn, [(Biomes, 1%nat)], -1, generate_spawn);
    (Full, [], -1, task_full) ].

Definition LOADING_LINES : list pyramid_line :=
  [ (Empty, [], -1, noop_task);
    (StructureStarts, [], -1, load_structure_starts);
    (StructureReferences, [], -1, noop_task);
    (Biomes, [], -1, noop_task);
    (Noise, [], -1, noop_task);
    (Surface, [], -1, noop_task);
    (Carvers, [], -1, noop_task);
    (Features, [], -1, noop_task);
    (InitializeLight, [], -1, task_initialize_light);
    (Light, [(InitializeLight, 1%nat)], -1, load_light);
    (Spawn, [], -1, noop_task);
    (Full, [], -1, task_full) ].

(** The compile-time constants: the values the builders evaluate to. *)
Definition GENERATION_PYRAMID : ChunkPyramid :=
  Eval vm_compute in default (mkPyramid []) (define_pyramid GENERATION_LINES).

Definition LOADING_PYRAMID : ChunkPyramid :=
  Eval vm_compute in default (mkPyramid []) (define_pyramid LOADING_LINES).

(** ** Lemmas: statuses *)

Lemma ChunkStatus_index_inj s t : ChunkStatus_get_index s = ChunkStatus_get_index t -> s = t.
Proof. by destruct s, t. Qed.

Lemma ChunkStatus_index_bound s : (ChunkStatus_get_index s < STATUS_COUNT)%nat.
Proof. unfold STATUS_COUNT. destruct s; simpl; lia. Qed.

Lemma ChunkStatus_from_get_index s :
  ChunkStatus_from_index (ChunkStatus_get_index s) = Some s.
Proof. by destruct s. Qed.

Lemma ChunkStatus_from_index_Some i s :
  ChunkStatus_from_index i = Some s -> ChunkStatus_get_index s = i.
Proof. do 12 (destruct i as [|i]; [by intros [= <-]|]). done. Qed.

#[export] Hint Resolve ChunkStatus_index_bound : steel.

(** [status_le a b]: a chunk at [b] has reached [a]; [None] asks for nothing. *)
Definition status_le (a b : option ChunkStatus) : Prop :=
  match a, b with
  | None, _ => True
  | Some s, Some t => (ChunkStatus_get_index s <= ChunkStatus_get_index t)%nat
  | Some _, None => False
  end.

#[global] Instance status_le_dec a b : Decision (status_le a b).
Proof. destruct a, b; simpl; apply _. Defined.

#[global] Instance status_le_po : PreOrder status_le.
Proof.
  split.
  - intros [s|]; simpl; lia.
  - intros [a|] [b|] [c|]; simpl; (lia || done).
Qed.

Lemma status_le_antisym a b : status_le a b -> status_le b a -> a = b.
Proof.
  destruct a, b; simpl; try done. intros. f_equal. apply ChunkStatus_index_inj. lia.
Qed.

Lemma const_min_eq a b : const_min a b = Nat.min a b.
Proof. unfold const_min. destruct (Nat.ltb_spec a b); lia. Qed.

Lemma const_max_eq a b : const_max a b = Nat.max a b.
Proof. unfold const_max. destruct (Nat.ltb_spec b a); lia. Qed.

(** ** Lemmas: the radius lookup table *)

(** The largest radius below [len] whose dependency reaches status index [j]; 0 if none. *)
Fixpoint last_radius (deps : list (option ChunkStatus)) (len j : nat) : nat :=
  match len with
  | O => O
  | S n =>
      match deps !! n with
      | Some (Some d) =>
          if (j <=? ChunkStatus_get_index d)%nat then n else last_radius deps n j
      | _ => last_radius deps n j
      end
  end.

Lemma fill_range_spec (tbl : list nat) n x :
  (n <= length tbl)%nat ->
  exists t', for_range 0 n (fun j t => vec_set t j x) tbl = Some t' /\
    length t' = length tbl /\
    forall j, t' !! j = if decide (j < n)%nat then Some x else tbl !! j.
Proof.
  intros Hn.
  destruct (for_range_ind (fun k t => length t = length tbl /\
      forall j, t !! j = if decide (j < k)%nat then Some x else tbl !! j)
    0 n (fun j t => vec_set t j x) tbl) as (t' & -> & Hlen & Ht).
  - split; [done|]. intros j. by rewrite decide_False by lia.
  - intros k t Hk [Hl Ht]. exists (<[k := x]> t).
    rewrite vec_set_Some by lia. split; [done|]. split; [by rewrite length_insert|].
    intros j. rewrite lookup_insert_list by lia. rewrite Ht.
    repeat case_decide; try done; lia.
  - eauto.
Qed.

Lemma build_radius_lookup_spec deps len :
  (len <= length deps)%nat ->
  exists tbl, build_radius_lookup deps len = Some tbl /\ length tbl = STATUS_COUNT /\
    forall j, (j < STATUS_COUNT)%nat -> tbl !! j = Some (last_radius deps len j).
Proof.
  intros Hlen. unfold build_radius_lookup.
  match goal with |- context [for_range 0 len ?f ?s] =>
    destruct (for_range_ind (fun k t => length t = STATUS_COUNT /\
      forall j, (j < STATUS_COUNT)%nat -> t !! j = Some (last_radius deps k j))
      0 len f s) as (t' & -> & Hl & Ht) end.
  - split; [by rewrite length_replicate|]. intros j Hj. by apply lookup_replicate_2.
  - intros k t Hk [Hl Ht]. simpl.
    destruct (lookup_lt_is_Some_2 deps k) as [[d|] ->]; [lia| |]; simpl.
    + pose proof (ChunkStatus_index_bound d). rewrite const_min_eq, Nat.min_l by lia.
      destruct (fill_range_spec t (ChunkStatus_get_index d + 1) k) as (t' & Hf & Hl' & Ht').
      { rewrite Hl. lia. }
      exists t'. split; [done|]. split; [lia|]. intros j Hj. rewrite Ht'.
      destruct (Nat.leb_spec j (ChunkStatus_get_index d)).
      * by rewrite decide_True by lia.
      * rewrite decide_False by lia. by apply Ht.
    + exists t. split; [done|]. split; [done|]. exact Ht.
  - eauto.
Qed.

(** ** Lemmas: dependencies from requirements *)

(** Reference meaning of a requirement list: the highest status asked of a chunk
    at distance [r], the parent status counting at distance 0. *)
Definition required_status (reqs : list (ChunkStatus * nat)) (parent : option ChunkStatus)
  (r : nat) : option ChunkStatus :=
  foldl (fun acc '(s, radius) => if (r <=? radius)%nat then const_max_status acc (Some s) else acc)
    (if (r =? 0)%nat then parent else None) reqs.

Lemma required_status_snoc reqs s radius parent r :
  required_status (reqs ++ [(s, radius)]) parent r =
  if (r <=? radius)%nat then const_max_status (required_status reqs parent r) (Some s)
  else required_status reqs parent r.
Proof. unfold required_status. by rewrite foldl_app. Qed.

Definition deps_match (deps : list (option ChunkStatus)) (len : nat)
  (f : nat -> option ChunkStatus) : Prop :=
  length deps = MAX_RADIUS /\ (len <= MAX_RADIUS)%nat /\
  forall r, (r < MAX_RADIUS)%nat -> deps !! r = Some (f r) /\ (f r = None <-> (len <= r)%nat).

Lemma fill_radius_spec status len new_len deps f :
  deps_match deps len f -> (len <= new_len <= MAX_RADIUS)%nat ->
  exists d, fill_radius status len new_len deps = Some d /\
    deps_match d new_len (fun r => if (len <=? r)%nat && (r <? new_len)%nat
                                   then Some status else f r).
Proof.
  intros (Hl & Hlen & Hf) Hnew. unfold fill_radius.
  destruct (for_range_ind (fun k d => length d = MAX_RADIUS /\
      forall r, (r < MAX_RADIUS)%nat -> d !! r =
        Some (if (len <=? r)%nat && (r <? k)%nat then Some status else f r))
    len (new_len - len) (fun j d => vec_set d j (Some status)) deps)
    as (d & -> & Hd1 & Hd2).
  - split; [done|]. intros r Hr. rewrite (proj1 (Hf r Hr)).
    destruct (Nat.leb_spec len r), (Nat.ltb_spec r len); simpl; (lia || done).
  - intros k d Hk [Hd1 Hd2]. rewrite vec_set_Some by lia. eexists. split; [done|].
    split; [by rewrite length_insert|]. intros r Hr. rewrite lookup_insert_list by lia.
    rewrite Hd2 by done. case_decide.
    + subst. destruct (Nat.leb_spec len k), (Nat.ltb_spec k (S k)); simpl; (lia || done).
    + destruct (Nat.leb_spec len r), (Nat.ltb_spec r k), (Nat.ltb_spec r (S k)); simpl;
        (lia || done).
  - replace (len + (new_len - len))%nat with new_len in Hd2 by lia.
    exists d. split; [done|]. split_and!; [done|lia|]. intros r Hr.
    split; [by apply Hd2|]. destruct (Hf r Hr) as [_ Hn].
    destruct (Nat.leb_spec len r), (Nat.ltb_spec r new_len); simpl; try rewrite Hn;
      split; intros; (lia || done).
Qed.

Lemma raise_radius_spec status limit len deps f :
  deps_match deps len f -> (limit <= len)%nat ->
  exists d, raise_radius status limit deps = Some d /\
    deps_match d len (fun r => if (r <? limit)%nat
                               then const_max_status (f r) (Some status) else f r).
Proof.
  intros (Hl & Hlen & Hf) Hlim. unfold raise_radius.
  match goal with |- context [for_range 0 limit ?g deps] =>
  destruct (for_range_ind (fun k d => length d = MAX_RADIUS /\
      forall r, (r < MAX_RADIUS)%nat -> d !! r =
        Some (if (r <? k)%nat then const_max_status (f r) (Some status) else f r))
    0 limit g deps) as (d & -> & Hd1 & Hd2) end.
  - split; [done|]. intros r Hr. by rewrite (proj1 (Hf r Hr)).
  - intros k d Hk [Hd1 Hd2].
    rewrite (Hd2 k) by lia. simpl. rewrite (proj2 (Nat.ltb_ge k k)) by lia.
    destruct (f k) as [e|] eqn:Ek; last first.
    { apply Hf in Ek; lia. }
    assert (forall d', length d' = MAX_RADIUS ->
      (forall r, (r < MAX_RADIUS)%nat -> d' !! r = if decide (r = k)
         then Some (const_max_status (Some e) (Some status)) else d !! r) ->
      length d' = MAX_RADIUS /\ forall r, (r < MAX_RADIUS)%nat -> d' !! r =
        Some (if (r <? S k)%nat then const_max_status (f r) (Some status) else f r)) as Hgo.
    { intros d' Hd1' Hd'. split; [done|]. intros r Hr. rewrite Hd' by done.
      case_decide as Er; [subst; by rewrite Ek, (proj2 (Nat.ltb_lt k (S k))) by lia|].
      rewrite Hd2 by done.
      destruct (Nat.ltb_spec r k), (Nat.ltb_spec r (S k)); (lia || done). }
    destruct (Nat.ltb_spec (ChunkStatus_get_index e) (ChunkStatus_get_index status)) as [Hlt|Hge].
    + rewrite vec_set_Some by lia. eexists. split; [done|]. apply Hgo.
      { by rewrite length_insert. }
      intros r Hr. rewrite lookup_insert_list by lia. case_decide; [|done].
      unfold const_max_status. destruct (Nat.ltb_spec (ChunkStatus_get_index status) (ChunkStatus_get_index e)); [lia|done].
    + exists d. split; [done|]. apply Hgo; [done|]. intros r Hr. case_decide; [|done].
      subst. rewrite Hd2 by done. rewrite (proj2 (Nat.ltb_ge k k)) by lia. rewrite Ek.
      unfold const_max_status.
      destruct (Nat.ltb_spec (ChunkStatus_get_index status) (ChunkStatus_get_index e)); [done|].
      do 2 f_equal. apply ChunkStatus_index_inj. lia.
  - exists d. split; [done|]. split_and!; [done|lia|]. intros r Hr.
    split; [by apply Hd2|]. destruct (Hf r Hr) as [_ Hn].
    destruct (Nat.ltb_spec r limit); [|done].
    destruct (f r) eqn:Er; [|by pose proof (proj1 Hn eq_refl); lia].
    simpl. case_match; split; try done; intros; exfalso; lia.
Qed.

Lemma const_max_status_le a b : status_le a (const_max_status a b) /\ status_le b (const_max_status a b).
Proof.
  destruct a as [a|], b as [b|]; simpl; split; try (done || lia).
  all: destruct (Nat.ltb_spec (ChunkStatus_get_index b) (ChunkStatus_get_index a)); simpl; lia.
Qed.

Lemma const_max_status_None_l a : const_max_status None a = a.
Proof. by destruct a. Qed.

Lemma deps_match_ext deps len f g :
  (forall r, (r < MAX_RADIUS)%nat -> f r = g r) -> deps_match deps len f -> deps_match deps len g.
Proof.
  intros E (H1 & H2 & H3). split_and!; [done|done|]. intros r Hr. rewrite <- E by done. by apply H3.
Qed.

Lemma requirement_step_spec status radius pre parent deps len :
  (radius < MAX_RADIUS)%nat -> deps_match deps len (required_status pre parent) ->
  exists d len', requirement_step (status, radius) (deps, len) = Some (d, len') /\
    deps_match d len' (required_status (pre ++ [(status, radius)]) parent).
Proof.
  intros Hr Hm. unfold requirement_step.
  assert (exists d, (if (len <? radius + 1)%nat
      then d ← fill_radius status len (radius + 1) deps; Some (d, (radius + 1)%nat)
      else Some (deps, len)) = Some (d, Nat.max len (radius + 1)) /\
    deps_match d (Nat.max len (radius + 1)) (fun r => if (len <=? r)%nat && (r <? radius + 1)%nat
      then Some status else required_status pre parent r)) as (d & -> & Hd).
  { destruct (Nat.ltb_spec len (radius + 1)) as [Hlt|Hge].
    - destruct (fill_radius_spec status len (radius + 1) deps _ Hm) as (d & -> & Hd); [lia|].
      exists d. simpl. rewrite Nat.max_r by lia. done.
    - exists deps. rewrite Nat.max_l by lia. split; [done|].
      eapply deps_match_ext; [|done]. intros r _.
      destruct (Nat.leb_spec len r), (Nat.ltb_spec r (radius + 1)); simpl; (lia || done). }
  simpl. rewrite const_min_eq.
  destruct (raise_radius_spec status (Nat.min (Nat.max len (radius + 1)) (radius + 1)) _ _ _ Hd)
    as (d' & -> & Hd'); [lia|].
  exists d', (Nat.max len (radius + 1)). split; [done|].
  eapply deps_match_ext; [|done]. intros r Hr'. simpl.
  rewrite required_status_snoc. rewrite Nat.min_r by lia.
  destruct (Hm) as (_ & _ & Hf). destruct (Hf r Hr') as [_ Hn].
  destruct (Nat.ltb_spec r (radius + 1)), (Nat.leb_spec r radius); try lia;
    rewrite ?andb_false_r, ?andb_true_r; try done.
  destruct (Nat.leb_spec len r); [|done].
  rewrite (proj2 Hn) by lia. simpl. by case_match.
Qed.

Lemma from_requirements_spec reqs parent :
  Forall (fun q => (snd q < MAX_RADIUS)%nat) reqs ->
  exists d, ChunkDependencies_from_requirements reqs parent = Some d /\
    deps_match (dependency_by_radius d) (deps_len d) (required_status reqs parent) /\
    length (radius_by_dependency d) = STATUS_COUNT /\
    forall j, (j < STATUS_COUNT)%nat ->
      radius_by_dependency d !! j = Some (last_radius (dependency_by_radius d) (deps_len d) j).
Proof.
  intros Hreqs. unfold ChunkDependencies_from_requirements.
  set (st0 := match parent with
              | Some parent => d ← vec_set (replicate MAX_RADIUS None) 0 (Some parent); Some (d, 1%nat)
              | None => Some (replicate MAX_RADIUS None, 0%nat) end).
  assert (exists d0 l0, st0 = Some (d0, l0) /\ deps_match d0 l0 (required_status [] parent))
    as (d0 & l0 & -> & H0).
  { unfold st0, required_status, MAX_RADIUS. simpl. destruct parent as [p|]; simpl.
    - do 2 eexists. split; [done|]. split_and!; [done|unfold MAX_RADIUS; lia|].
      intros r Hr. unfold MAX_RADIUS in Hr. do 16 (destruct r as [|r]; [split; [done|split; intros; (done || lia)]|]). lia.
    - do 2 eexists. split; [done|]. split_and!; [done|unfold MAX_RADIUS; lia|].
      intros r Hr. unfold MAX_RADIUS in Hr. do 16 (destruct r as [|r]; [split; [done|split; intros; (done || lia)]|]). lia. }
  simpl.
  destruct (for_each_ind (fun pre '(d, l) => deps_match d l (required_status pre parent))
    reqs requirement_step (d0, l0)) as ([d l] & -> & Hd); [done| |].
  { intros pre [s radius] todo [d l] Hsplit Hm.
    rewrite Hsplit in Hreqs. apply Forall_app in Hreqs as [_ Hreqs]. inv Hreqs.
    destruct (requirement_step_spec s radius pre parent d l) as (d' & l' & E & H'); [done|done|].
    exists (d', l'). done. }
  simpl. destruct (build_radius_lookup_spec d l) as (tbl & -> & Htl & Ht).
  { destruct Hd as (E & ? & _). lia. }
  eexists. split; [done|]. done.
Qed.

(** The table entry of status index [j] is the greatest radius that reaches it. *)
Lemma last_radius_spec deps len j :
  (forall r d, (r < len)%nat -> deps !! r = Some (Some d) ->
     (j <= ChunkStatus_get_index d)%nat -> (r <= last_radius deps len j)%nat) /\
  (last_radius deps len j = 0%nat \/
   exists d, deps !! last_radius deps len j = Some (Some d) /\
     (last_radius deps len j < len)%nat /\ (j <= ChunkStatus_get_index d)%nat).
Proof.
  induction len as [|n [IH1 IH2]]; simpl; [split; [lia|by left]|].
  assert ((forall r d, (r < S n)%nat -> deps !! r = Some (Some d) ->
       (j <= ChunkStatus_get_index d)%nat -> r <> n -> (r <= last_radius deps n j)%nat)) as H1.
  { intros r d Hr Hd Hj Hne. eapply IH1; eauto. lia. }
  destruct (deps !! n) as [[d|]|] eqn:En.
  1: destruct (Nat.leb_spec j (ChunkStatus_get_index d)) as [Hle|Hgt].
  1: { split; [intros; lia|]. right. exists d. split_and!; [done|lia|done]. }
  all: split.
  2, 4, 6: destruct IH2 as [|(? & ? & ? & ?)]; [by left|right; eauto with lia].
  all: intros r d' Hr Hd' Hj; eapply H1; eauto; intros ->; rewrite En in Hd'.
  all: simplify_eq; lia.
Qed.

(** ** The pyramids are the transitive closure of their direct dependencies *)

(** Chebyshev distance of a chunk offset. *)
Definition chebyshev (v : Z * Z) : Z := Z.max (Z.abs (fst v)) (Z.abs (snd v)).

Section Closure.
Context (p : ChunkPyramid).

Definition acc_get (T : ChunkStatus) (r : nat) : option ChunkStatus :=
  ChunkDependencies_get (accumulated_dependencies (ChunkPyramid_get_step_to p T)) r.

Definition dir_get (T : ChunkStatus) (r : nat) : option ChunkStatus :=
  ChunkDependencies_get (direct_dependencies (ChunkPyramid_get_step_to p T)) r.

Definition direct_at (T : ChunkStatus) (v : Z * Z) : option ChunkStatus :=
  dir_get T (Z.to_nat (chebyshev v)).

Definition accumulated_at (T : ChunkStatus) (v : Z * Z) : option ChunkStatus :=
  acc_get T (Z.to_nat (chebyshev v)).

(** [needs T v q]: bringing a chunk to [T] asks, directly or through the chunks it
    depends on, that the chunk at offset [v] be at [q]. *)
Inductive needs : ChunkStatus -> Z * Z -> ChunkStatus -> Prop :=
| needs_direct T v q : direct_at T v = Some q -> needs T v q
| needs_trans T v s w q :
    direct_at T v = Some s -> needs s w q ->
    needs T (fst v + fst w, snd v + snd w) q.

Definition all_statuses : list ChunkStatus :=
  [Empty; StructureStarts; StructureReferences; Biomes; Noise; Surface; Carvers;
   Features; InitializeLight; Light; Spawn; Full].

(** Executable side conditions, decided for the two concrete pyramids. *)
Definition closed_ok : bool :=
  forallb (fun T => forallb (fun d =>
    bool_decide (status_le (dir_get T d) (acc_get T d)) &&
    bool_decide (status_le (acc_get T (S d)) (acc_get T d)) &&
    match dir_get T d with
    | Some s =>
        (ChunkStatus_get_index s <? ChunkStatus_get_index T)%nat &&
        forallb (fun r => bool_decide (status_le (acc_get s r) (acc_get T (d + r)))) (seq 0 16)
    | None => true
    end) (seq 0 16)) all_statuses.

(** Every accumulated entry is a direct one or comes from a direct dependency. *)
Definition exact_ok : bool :=
  forallb (fun T => forallb (fun n =>
    match acc_get T n with
    | Some q =>
        bool_decide (dir_get T n = Some q) ||
        existsb (fun d => match dir_get T d with
                          | Some s => (d <=? n)%nat && bool_decide (acc_get s (n - d) = Some q)
                          | None => false
                          end) (seq 0 16)
    | None => true
    end) (seq 0 16)) all_statuses.

(** No table is longer than [MAX_RADIUS]. *)
Definition short_ok : bool :=
  forallb (fun T =>
    (deps_len (accumulated_dependencies (ChunkPyramid_get_step_to p T)) <=? 16)%nat &&
    (deps_len (direct_dependencies (ChunkPyramid_get_step_to p T)) <=? 16)%nat) all_statuses.

Context (Hclosed : closed_ok = true) (Hexact : exact_ok = true) (Hshort : short_ok = true).

Lemma all_statuses_elem T : In T all_statuses.
Proof. unfold all_statuses. destruct T; simpl; tauto. Qed.

Lemma get_short T r :
  (acc_get T r <> None -> (r < 16)%nat) /\ (dir_get T r <> None -> (r < 16)%nat).
Proof.
  pose proof Hshort as Hs. unfold short_ok in Hs. rewrite forallb_forall in Hs.
  specialize (Hs T (all_statuses_elem T)). apply andb_true_iff in Hs as [H1 H2].
  apply Nat.leb_le in H1, H2. unfold acc_get, dir_get, ChunkDependencies_get.
  split; case_match eqn:E; try done; apply Nat.ltb_lt in E; lia.
Qed.

Lemma closed_at T d : (d < 16)%nat ->
  status_le (dir_get T d) (acc_get T d) /\ status_le (acc_get T (S d)) (acc_get T d) /\
  forall s, dir_get T d = Some s ->
    (ChunkStatus_get_index s < ChunkStatus_get_index T)%nat /\
    forall r, (r < 16)%nat -> status_le (acc_get s r) (acc_get T (d + r)).
Proof.
  intros Hd. pose proof Hclosed as Hc. unfold closed_ok in Hc. rewrite forallb_forall in Hc.
  specialize (Hc T (all_statuses_elem T)). rewrite forallb_forall in Hc.
  specialize (Hc d ltac:(apply in_seq; lia)).
  apply andb_true_iff in Hc as [[H1 H2]%andb_true_iff H3].
  apply bool_decide_eq_true in H1, H2. split_and!; [done|done|].
  intros s Es. rewrite Es in H3. apply andb_true_iff in H3 as [H3 H4].
  apply Nat.ltb_lt in H3. split; [done|]. intros r Hr.
  rewrite forallb_forall in H4. specialize (H4 r ltac:(apply in_seq; lia)).
  by apply bool_decide_eq_true in H4.
Qed.

Lemma acc_get_mono T r r' : (r <= r')%nat -> status_le (acc_get T r') (acc_get T r).
Proof.
  induction 1 as [|r' Hle IH]; [reflexivity|]. etransitivity; [|exact IH].
  destruct (decide (r' < 16)%nat) as [Hlt|Hge]; [by apply (closed_at T r' Hlt)|].
  destruct (acc_get T (S r')) as [q|] eqn:E; [|done].
  pose proof (proj1 (get_short T (S r'))) as Hs. rewrite E in Hs.
  specialize (Hs ltac:(done)). lia.
Qed.

Lemma chebyshev_triangle v w :
  chebyshev (fst v + fst w, snd v + snd w) <= chebyshev v + chebyshev w.
Proof. unfold chebyshev. simpl. lia. Qed.

Lemma needs_covered T v q : needs T v q -> status_le (Some q) (accumulated_at T v).
Proof.
  unfold accumulated_at. induction 1 as [T v q Hd|T v s w q Hd Hn IH]; unfold direct_at in Hd.
  - rewrite <- Hd. apply closed_at. apply (get_short T). by rewrite Hd.
  - assert (Z.to_nat (chebyshev v) < 16)%nat as Hv by (apply (get_short T); by rewrite Hd).
    assert (Z.to_nat (chebyshev w) < 16)%nat as Hw.
    { apply (proj1 (get_short s _)). intros E. by rewrite E in IH. }
    etransitivity; [exact IH|].
    destruct (closed_at T _ Hv) as (_ & _ & H). destruct (H s Hd) as [_ Hr].
    etransitivity; [exact (Hr _ Hw)|]. apply acc_get_mono.
    pose proof (chebyshev_triangle v w). unfold chebyshev in *. lia.
Qed.

Lemma needs_exact T n q : acc_get T n = Some q -> needs T (Z.of_nat n, 0) q.
Proof.
  assert (forall m, Z.to_nat (chebyshev (Z.of_nat m, 0)) = m) as Hch.
  { intros m. unfold chebyshev. simpl. lia. }
  remember (ChunkStatus_get_index T) as k eqn:Hk. revert T n q Hk.
  induction k as [k IH] using lt_wf_ind. intros T n q -> Ha.
  assert (n < 16)%nat as Hn by (apply (proj1 (get_short T n)); by rewrite Ha).
  pose proof Hexact as Hex. unfold exact_ok in Hex. rewrite forallb_forall in Hex.
  specialize (Hex T (all_statuses_elem T)). rewrite forallb_forall in Hex.
  specialize (Hex n ltac:(apply in_seq; lia)). rewrite Ha in Hex.
  apply orb_true_iff in Hex as [Hd|Hd].
  - apply bool_decide_eq_true in Hd. apply needs_direct. unfold direct_at. by rewrite Hch.
  - apply existsb_exists in Hd as (d & Hdin & Hd). destruct (dir_get T d) as [s|] eqn:Es; [|done].
    apply andb_true_iff in Hd as [Hle Hq]. apply Nat.leb_le in Hle.
    apply bool_decide_eq_true in Hq. apply in_seq in Hdin.
    destruct (closed_at T d ltac:(lia)) as (_ & _ & H). destruct (H s Es) as [Hlt _].
    replace (Z.of_nat n, 0) with
      (fst (Z.of_nat d, 0) + fst (Z.of_nat (n - d), 0), snd (Z.of_nat d, 0) + snd (Z.of_nat (n - d), 0))
      by (simpl; f_equal; lia).
    eapply (needs_trans T _ s); [|by eapply IH].
    unfold direct_at. by rewrite Hch.
Qed.
End Closure.

(** ** Properties *)

(** [ChunkDependencies::from_requirements] on any requirement list whose radii fit
    the array: it does not panic, [get] at each distance is the highest status any
    covering requirement (or the parent, at distance 0) asks for, and
    [get_radius_of] is the greatest distance at which a status is still asked for. *)
Theorem from_requirements_correct reqs parent :
  Forall (fun q => (snd q < MAX_RADIUS)%nat) reqs ->
  exists d, ChunkDependencies_from_requirements reqs parent = Some d /\
    (forall r, (r < MAX_RADIUS)%nat -> ChunkDependencies_get d r = required_status reqs parent r) /\
    (forall s r, status_le (Some s) (ChunkDependencies_get d r) ->
       (r <= ChunkDependencies_get_radius_of d s)%nat) /\
    (forall s, ChunkDependencies_get_radius_of d s = 0%nat \/
       status_le (Some s) (ChunkDependencies_get d (ChunkDependencies_get_radius_of d s))).
Proof.
  intros Hreqs. destruct (from_requirements_spec reqs parent Hreqs)
    as (d & Hd & (Hl & Hlen & Hf) & Htl & Ht).
  exists d. split; [done|].
  assert (forall s, ChunkDependencies_get_radius_of d s =
    last_radius (dependency_by_radius d) (deps_len d) (ChunkStatus_get_index s)) as Hrad.
  { intros s. unfold ChunkDependencies_get_radius_of.
    apply list_lookup_total_correct, Ht, ChunkStatus_index_bound. }
  assert (forall r, (r < deps_len d)%nat ->
    dependency_by_radius d !! r = Some (ChunkDependencies_get d r)) as Hget.
  { intros r Hr. unfold ChunkDependencies_get. rewrite (proj2 (Nat.ltb_lt _ _)) by done.
    apply list_lookup_lookup_total_lt. lia. }
  split_and!.
  - intros r Hr. destruct (Hf r Hr) as [E Hn]. unfold ChunkDependencies_get.
    destruct (Nat.ltb_spec r (deps_len d)) as [Hlt|Hge].
    + by apply list_lookup_total_correct.
    + symmetry. by apply Hn.
  - intros s r Hs. rewrite Hrad.
    destruct (ChunkDependencies_get d r) as [q|] eqn:Eq; [|done].
    assert (r < deps_len d)%nat as Hr.
    { unfold ChunkDependencies_get in Eq. case_match eqn:E; [|done]. by apply Nat.ltb_lt. }
    eapply (proj1 (last_radius_spec _ _ _)); [done| |exact Hs]. by rewrite Hget, Eq.
  - intros s. rewrite Hrad.
    destruct (proj2 (last_radius_spec (dependency_by_radius d) (deps_len d)
      (ChunkStatus_get_index s))) as [|(q & Eq & Hlt & Hq)]; [by left|right].
    rewrite Hget in Eq by done. injection Eq as ->. exact Hq.
Qed.

Lemma from_requirements_correct_witness :
  exists d, ChunkDependencies_from_requirements
      [(StructureStarts, 8%nat); (Carvers, 1%nat)] (Some Carvers) = Some d /\
    (forall r, (r < MAX_RADIUS)%nat -> ChunkDependencies_get d r =
       required_status [(StructureStarts, 8%nat); (Carvers, 1%nat)] (Some Carvers) r) /\
    (forall s r, status_le (Some s) (ChunkDependencies_get d r) ->
       (r <= ChunkDependencies_get_radius_of d s)%nat) /\
    (forall s, ChunkDependencies_get_radius_of d s = 0%nat \/
       status_le (Some s) (ChunkDependencies_get d (ChunkDependencies_get_radius_of d s))).
Proof.
  apply (from_requirements_correct [(StructureStarts, 8%nat); (Carvers, 1%nat)] (Some Carvers)).
  repeat constructor; unfold MAX_RADIUS; simpl; lia.
Defined.

(** C35. The generation and the loading pyramid build without a panic, and the accumulated
    tables of each are exactly the transitive closure of its direct dependencies:
    whatever bringing a chunk to [T] needs of the chunk at offset [v], through any chain
    of dependencies, is covered by the accumulated entry at the Chebyshev distance of
    [v], and every accumulated entry is really needed by some chain. *)
Theorem pyramids_are_closures :
  Forall (fun '(lines, pyramid) =>
    define_pyramid lines = Some pyramid /\
    (forall T v q, needs pyramid T v q -> status_le (Some q) (accumulated_at pyramid T v)) /\
    (forall T n q, acc_get pyramid T n = Some q -> needs pyramid T (Z.of_nat n, 0) q))
    [(GENERATION_LINES, GENERATION_PYRAMID); (LOADING_LINES, LOADING_PYRAMID)].
Proof.
  constructor; [|constructor; [|done]]; (split; [vm_compute; reflexivity|]); split;
    (apply needs_covered || apply needs_exact); vm_compute; reflexivity.
Qed.
