(* ===== verification/ChunkTickets.v ===== *)
(** * Chunk tickets and level propagation

    Models [steel-core/src/chunk/chunk_ticket_manager.rs]: [ChunkTicketLevel],
    [ChunkTicket], [ChunkTicketManager] with its propagation pass and change list,
    and the generation status a level permits.  A level is the [Z] of its [u8].
    Hash maps are [gmap]s; a loop over a hash map runs over [map_to_list], one of
    the orders the source's iteration may take (the properties below do not depend
    on it). *)

From S2P Require Import Prelude Positions ChunkPyramid.
Open Scope steel_scope.

(** ** Levels *)

Abbreviation ChunkTicketLevel := Z.

Definition MAX_SUPPORTED_VIEW_DISTANCE : Z := 128.
Definition FULL_CHUNK_LEVEL_RAW : Z := MAX_SUPPORTED_VIEW_DISTANCE + 2.
Definition RADIUS_AROUND_FULL_CHUNK : Z :=
  u8 (Z.of_nat (ChunkDependencies_get_radius_of
    (accumulated_dependencies (ChunkPyramid_get_step_to GENERATION_PYRAMID Full)) Empty)).
Definition MAX_LEVEL_RAW : Z := FULL_CHUNK_LEVEL_RAW + RADIUS_AROUND_FULL_CHUNK.
Definition PORTAL_TICKET_RADIUS : Z := 3.
Definition PORTAL_TICKET_TIMEOUT_TICKS : Z := 300.
Definition ENDER_PEARL_TICKET_TIMEOUT_TICKS : Z := 40.
Definition ENDER_PEARL_TICKET_RADIUS : Z := 2.

Definition LEVEL_STRONGEST : ChunkTicketLevel := 0.
Definition LEVEL_ENTITY_TICKING_CHUNK : ChunkTicketLevel := MAX_SUPPORTED_VIEW_DISTANCE.
Definition LEVEL_BLOCK_TICKING_CHUNK : ChunkTicketLevel := MAX_SUPPORTED_VIEW_DISTANCE + 1.
Definition LEVEL_FULL_CHUNK : ChunkTicketLevel := FULL_CHUNK_LEVEL_RAW.
Definition LEVEL_MAX : ChunkTicketLevel := MAX_LEVEL_RAW.

Definition ChunkTicketLevel_new (raw : Z) : option ChunkTicketLevel :=
  if raw <=? MAX_LEVEL_RAW then Some raw else None.

Definition ChunkTicketLevel_for_full_chunk_radius (radius : Z) : ChunkTicketLevel :=
  FULL_CHUNK_LEVEL_RAW ⊖ radius.

Definition ChunkTicketLevel_for_entity_ticking_radius (radius : Z) : ChunkTicketLevel :=
  LEVEL_ENTITY_TICKING_CHUNK ⊖ radius.

Inductive FullChunkStatus :=
| FCS_Inaccessible
| FCS_Full
| FCS_BlockTicking
| FCS_EntityTicking.

Definition FullChunkStatus_rank (s : FullChunkStatus) : Z :=
  match s with
  | FCS_Inaccessible => 0
  | FCS_Full => 1
  | FCS_BlockTicking => 2
  | FCS_EntityTicking => 3
  end.

Definition FullChunkStatus_is_or_after (self status : FullChunkStatus) : bool :=
  FullChunkStatus_rank status <=? FullChunkStatus_rank self.

Definition ChunkTicketLevel_full_status (level : ChunkTicketLevel) : FullChunkStatus :=
  if level <=? LEVEL_ENTITY_TICKING_CHUNK then FCS_EntityTicking
  else if level <=? LEVEL_BLOCK_TICKING_CHUNK then FCS_BlockTicking
  else if level <=? LEVEL_FULL_CHUNK then FCS_Full
  else FCS_Inaccessible.

Definition ChunkTicketLevel_is_full (level : ChunkTicketLevel) : bool :=
  level <=? LEVEL_FULL_CHUNK.

Definition ChunkTicketLevel_is_block_ticking (level : ChunkTicketLevel) : bool :=
  level <=? LEVEL_BLOCK_TICKING_CHUNK.

Definition ChunkTicketLevel_is_entity_ticking (level : ChunkTicketLevel) : bool :=
  level <=? LEVEL_ENTITY_TICKING_CHUNK.

Definition ChunkTicketLevel_with_distance (level : ChunkTicketLevel) (distance : Z)
  : option ChunkTicketLevel :=
  ChunkTicketLevel_new (saturating_add 8 level distance).

Definition ChunkTicketLevel_distance_to_max (level : ChunkTicketLevel) : Z :=
  u8 (MAX_LEVEL_RAW - level).

Definition ChunkTicketLevel_distance_to_block_ticking (level : ChunkTicketLevel) : Z :=
  LEVEL_BLOCK_TICKING_CHUNK ⊖ level.

Definition full_status (level : option ChunkTicketLevel) : FullChunkStatus :=
  match level with
  | Some level => ChunkTicketLevel_full_status level
  | None => FCS_Inaccessible
  end.

Definition is_block_ticking (level : option ChunkTicketLevel) : bool :=
  match level with
  | Some level => ChunkTicketLevel_is_block_ticking level
  | None => false
  end.

Definition is_entity_ticking (level : option ChunkTicketLevel) : bool :=
  match level with
  | Some level => ChunkTicketLevel_is_entity_ticking level
  | None => false
  end.

Definition generation_status (level : option ChunkTicketLevel) : option ChunkStatus :=
  match level with
  | None => None
  | Some level =>
      if ChunkTicketLevel_is_full level then Some Full
      else
        let distance := Z.to_nat (u8 (level - FULL_CHUNK_LEVEL_RAW)) in
        ChunkDependencies_get
          (accumulated_dependencies (ChunkPyramid_get_step_to GENERATION_PYRAMID Full)) distance
  end.

Definition ticket_level_for_status (status : ChunkStatus) : ChunkTicketLevel :=
  match status with
  | Full => LEVEL_FULL_CHUNK
  | _ => u8 (FULL_CHUNK_LEVEL_RAW +
             u8 (Z.of_nat (ChunkDependencies_get_radius_of
               (accumulated_dependencies (ChunkPyramid_get_step_to GENERATION_PYRAMID Full))
               status)))
  end.

(** ** Tickets *)

Record ChunkTicket := mkTicket {
  load_level : ChunkTicketLevel;
  simulation_level : option ChunkTicketLevel;
}.

#[global] Instance ChunkTicket_eq_dec : EqDecision ChunkTicket.
Proof. solve_decision. Defined.

Definition ChunkTicket_loading (level : ChunkTicketLevel) : ChunkTicket := mkTicket level None.

Definition ChunkTicket_full_chunks (radius : Z) : ChunkTicket :=
  ChunkTicket_loading (ChunkTicketLevel_for_full_chunk_radius radius).

Definition ChunkTicket_simulated_full_chunks (radius : Z) : ChunkTicket :=
  let level := ChunkTicketLevel_for_full_chunk_radius radius in
  mkTicket level (Some level).

Definition ChunkTicket_full_chunks_with_entity_ticking
  (load_radius entity_ticking_radius : Z) : ChunkTicket :=
  let entity_ticking_radius :=
    if load_radius <? entity_ticking_radius then load_radius else entity_ticking_radius in
  mkTicket (ChunkTicketLevel_for_full_chunk_radius load_radius)
    (Some (ChunkTicketLevel_for_entity_ticking_radius entity_ticking_radius)).

Definition ChunkTicket_player (view_distance simulation_radius : Z) : ChunkTicket :=
  let simulation_radius :=
    if view_distance <? simulation_radius then view_distance else simulation_radius in
  mkTicket (ChunkTicketLevel_for_entity_ticking_radius view_distance)
    (Some (ChunkTicketLevel_for_entity_ticking_radius simulation_radius)).

(** ** The ticket manager *)

Record LevelChange := mkChange {
  ch_pos : ChunkPos;
  ch_new_level : option ChunkTicketLevel;
  ch_new_simulation_level : option ChunkTicketLevel;
}.

Record ChunkTicketManager := mkManager {
  tickets : gmap ChunkPos (list ChunkTicket);
  levels : gmap ChunkPos ChunkTicketLevel;
  simulation_levels : gmap ChunkPos ChunkTicketLevel;
  dirty : bool;
  changes : list LevelChange;
}.

Definition ChunkTicketManager_new : ChunkTicketManager := mkManager ∅ ∅ ∅ false [].

Definition add_ticket (m : ChunkTicketManager) (pos : ChunkPos) (ticket : ChunkTicket)
  : ChunkTicketManager :=
  mkManager (<[pos := default [] (tickets m !! pos) ++ [ticket]]> (tickets m))
    (levels m) (simulation_levels m) true (changes m).

(** [iter().position(|stored| *stored == ticket)] *)
Definition ticket_position (ticket : ChunkTicket) (ts : list ChunkTicket) : option nat :=
  fst <$> list_find (eq ticket) ts.

Definition remove_ticket (m : ChunkTicketManager) (pos : ChunkPos) (ticket : ChunkTicket)
  : ChunkTicketManager * bool :=
  match tickets m !! pos with
  | Some ts =>
      match ticket_position ticket ts with
      | Some idx =>
          let ts' := swap_remove idx ts in
          let tickets' := match ts' with
                          | [] => delete pos (tickets m)
                          | _ => <[pos := ts']> (tickets m)
                          end in
          (mkManager tickets' (levels m) (simulation_levels m) true (changes m), true)
      | None => (m, false)
      end
  | None => (m, false)
  end.

Definition remove_all_tickets_at (m : ChunkTicketManager) (pos : ChunkPos)
  : ChunkTicketManager * bool :=
  let removed := bool_decide (is_Some (tickets m !! pos)) in
  (mkManager (delete pos (tickets m)) (levels m) (simulation_levels m)
     (if removed then true else dirty m) (changes m), removed).

(** [iter().min()]: the least element, [None] for an empty iterator. *)
Fixpoint list_min (l : list Z) : option Z :=
  match l with
  | [] => None
  | x :: l' => match list_min l' with
               | Some y => Some (Z.min x y)
               | None => Some x
               end
  end.

Definition get_ticket (m : ChunkTicketManager) (pos : ChunkPos) : option ChunkTicketLevel :=
  ts ← tickets m !! pos; list_min (load_level <$> ts).

Definition tickets_at (m : ChunkTicketManager) (pos : ChunkPos) : list ChunkTicket :=
  default [] (tickets m !! pos).

Definition ticket_count (m : ChunkTicketManager) : nat :=
  sum_list ((fun e => length (snd e)) <$> map_to_list (tickets m)).

Definition ticket_position_count (m : ChunkTicketManager) : nat := size (tickets m).

(** [self.levels.entry(pos)]: an existing level is lowered to the minimum, a missing one
    is inserted. *)
Definition entry_min (pos : ChunkPos) (level : ChunkTicketLevel)
  (m : gmap ChunkPos ChunkTicketLevel) : gmap ChunkPos ChunkTicketLevel :=
  match m !! pos with
  | Some e => <[pos := Z.min e level]> m
  | None => <[pos := level]> m
  end.

(** [-radius..=radius] *)
Definition radius_range (radius : Z) : list Z := seqZ (- radius) (2 * radius + 1).

(** The two nested loops that lower the levels of the square around a source. *)
Definition spread_column (source : ChunkPos) (level : ChunkTicketLevel) (dy dx : Z)
  (m : gmap ChunkPos ChunkTicketLevel) : gmap ChunkPos ChunkTicketLevel :=
  let distance := u8 (Z.max (Z.abs dx) (Z.abs dy)) in
  match ChunkTicketLevel_with_distance level distance with
  | None => m
  | Some l => entry_min (mkChunkPos (i32 (cp_x source + dx)) (i32 (cp_y source + dy))) l m
  end.

Definition spread (source : ChunkPos) (level radius : Z)
  (m : gmap ChunkPos ChunkTicketLevel) : gmap ChunkPos ChunkTicketLevel :=
  foldl (fun m dy => foldl (fun m dx => spread_column source level dy dx m) m (radius_range radius))
    m (radius_range radius).

(** The body of the loop over the ticket sources. *)
Definition propagate_source (entry : ChunkPos * list ChunkTicket)
  (lv : gmap ChunkPos ChunkTicketLevel * gmap ChunkPos ChunkTicketLevel)
  : gmap ChunkPos ChunkTicketLevel * gmap ChunkPos ChunkTicketLevel :=
  let '(source, ts) := entry in
  let '(lvls, sims) := lv in
  match list_min (load_level <$> ts) with
  | None => (lvls, sims)
  | Some source_level =>
      let lvls := spread source source_level (ChunkTicketLevel_distance_to_max source_level) lvls in
      match list_min (omap simulation_level ts) with
      | None => (lvls, sims)
      | Some sim =>
          (lvls, spread source sim (ChunkTicketLevel_distance_to_block_ticking sim) sims)
      end
  end.

Definition propagate_all (entries : list (ChunkPos * list ChunkTicket))
  : gmap ChunkPos ChunkTicketLevel * gmap ChunkPos ChunkTicketLevel :=
  foldl (fun lv e => propagate_source e lv) (∅, ∅) entries.

(** Changed and added levels, then removed levels. *)
Definition load_changes (old_levels new_levels new_sims : gmap ChunkPos ChunkTicketLevel)
  : list LevelChange :=
  omap (fun '(pos, new_level) =>
          match old_levels !! pos with
          | Some old_level =>
              if old_level =? new_level then None
              else Some (mkChange pos (Some new_level) (new_sims !! pos))
          | None => Some (mkChange pos (Some new_level) (new_sims !! pos))
          end) (map_to_list new_levels) ++
  omap (fun '(pos, _) =>
          match new_levels !! pos with
          | Some _ => None
          | None => Some (mkChange pos None None)
          end) (map_to_list old_levels).

Definition record_simulation_only_changes
  (old_levels new_levels old_sims new_sims : gmap ChunkPos ChunkTicketLevel)
  : list LevelChange :=
  omap (fun '(pos, new_level) =>
          if bool_decide (old_levels !! pos <> new_levels !! pos) then None
          else match old_sims !! pos with
               | Some old_level =>
                   if old_level =? new_level then None
                   else Some (mkChange pos (new_levels !! pos) (Some new_level))
               | None => Some (mkChange pos (new_levels !! pos) (Some new_level))
               end) (map_to_list new_sims) ++
  omap (fun '(pos, _) =>
          if bool_decide (old_levels !! pos <> new_levels !! pos) ||
             bool_decide (is_Some (new_sims !! pos)) then None
          else Some (mkChange pos (new_levels !! pos) None)) (map_to_list old_sims).

Definition run_all_updates (m : ChunkTicketManager) : ChunkTicketManager :=
  if dirty m then
    let '(new_levels, new_sims) := propagate_all (map_to_list (tickets m)) in
    mkManager (tickets m) new_levels new_sims false
      (load_changes (levels m) new_levels new_sims ++
       record_simulation_only_changes (levels m) new_levels (simulation_levels m) new_sims)
  else mkManager (tickets m) (levels m) (simulation_levels m) false [].

Definition take_changes (m : ChunkTicketManager) : ChunkTicketManager * list LevelChange :=
  (mkManager (tickets m) (levels m) (simulation_levels m) (dirty m) [], changes m).

Definition recycle_changes (m : ChunkTicketManager) (buffer : list LevelChange)
  : ChunkTicketManager :=
  mkManager (tickets m) (levels m) (simulation_levels m) (dirty m) [].

Definition get_level (m : ChunkTicketManager) (pos : ChunkPos) : option ChunkTicketLevel :=
  levels m !! pos.

Definition get_simulation_level (m : ChunkTicketManager) (pos : ChunkPos)
  : option ChunkTicketLevel := simulation_levels m !! pos.

Definition ChunkTicketManager_clear (m : ChunkTicketManager) : ChunkTicketManager :=
  mkManager ∅ ∅ ∅ false [].

(** ** Lemmas: minima *)

Definition opt_min (a b : option Z) : option Z :=
  match a, b with
  | Some x, Some y => Some (Z.min x y)
  | Some x, None => Some x
  | None, _ => b
  end.

Definition big_min (l : list (option Z)) : option Z := foldr opt_min None l.

Lemma opt_min_None_r a : opt_min a None = a.
Proof. by destruct a. Qed.

Lemma opt_min_assoc a b c : opt_min (opt_min a b) c = opt_min a (opt_min b c).
Proof. destruct a, b, c; simpl; try done. f_equal. lia. Qed.

Lemma opt_min_idemp a : opt_min a a = a.
Proof. destruct a; simpl; try done. f_equal. lia. Qed.

Lemma big_min_Some l v :
  big_min l = Some v <-> Some v ∈ l /\ forall w, Some w ∈ l -> v <= w.
Proof.
  revert v. induction l as [|x l IH]; intros v; simpl.
  { split; [done|]. by intros [?%elem_of_nil _]. }
  destruct (big_min l) as [y|] eqn:E.
  - destruct (proj1 (IH y) eq_refl) as [Hy Hmin].
    destruct x as [x|]; simpl.
    + split.
      * intros [= <-]. split.
        { destruct (Z.min_spec x y) as [[_ ->]|[_ ->]]; [left|by right]. }
        intros w [[= ->]|Hw]%elem_of_cons; [lia|]. specialize (Hmin w Hw). lia.
      * intros [[[= ->]|Hv]%elem_of_cons Hall]; f_equal.
        { specialize (Hall y ltac:(by right)). lia. }
        pose proof (Hall x ltac:(left)). pose proof (Hmin v Hv).
        pose proof (Hall y ltac:(by right)). lia.
    + split.
      * intros [= <-]. split; [by right|]. intros w [?|?]%elem_of_cons; [done|auto].
      * intros [[?|Hv]%elem_of_cons Hall]; [done|]. f_equal.
        pose proof (Hmin v Hv). pose proof (Hall y ltac:(by right)). lia.
  - assert (forall w, Some w ∈ l -> False) as Hno.
    { intros w Hw. clear -E Hw. induction l as [|a l IHl]; [by apply elem_of_nil in Hw|].
      simpl in E. destruct a as [a|]; simpl in E; [by destruct (big_min l)|].
      apply elem_of_cons in Hw as [?|?]; [done|]. by apply IHl. }
    rewrite opt_min_None_r. split.
    + intros ->. split; [left|]. intros w [[= ->]|Hw]%elem_of_cons; [lia|]. by apply Hno in Hw.
    + intros [[->|Hv]%elem_of_cons _]; [done|]. by apply Hno in Hv.
Qed.

Lemma list_min_big_min l : list_min l = big_min (Some <$> l).
Proof.
  induction l as [|x l IH]; [done|]. simpl. rewrite IH. by destruct (big_min _).
Qed.

Lemma list_min_Some l v : list_min l = Some v <-> v ∈ l /\ forall w, w ∈ l -> v <= w.
Proof.
  rewrite list_min_big_min, big_min_Some. setoid_rewrite (list_elem_of_fmap Some).
  split; intros [H1 H2]; split; naive_solver.
Qed.

Lemma list_min_None l : list_min l = None <-> l = [].
Proof. destruct l; simpl; [done|]. split; [|done]. by destruct (list_min l). Qed.

(** A loop that lowers entry [p] by [g x] at step [x] lowers it by the minimum of all. *)
Lemma foldl_opt_min {A M} (get : M -> option Z) (step : M -> A -> M) (g : A -> option Z) L m :
  (forall m x, x ∈ L -> get (step m x) = opt_min (get m) (g x)) ->
  get (foldl step m L) = opt_min (get m) (big_min (g <$> L)).
Proof.
  revert m. induction L as [|x L IH]; intros m Hs; simpl; [by rewrite opt_min_None_r|].
  rewrite IH by (intros; apply Hs; by right). rewrite Hs by left. by rewrite opt_min_assoc.
Qed.

Lemma big_min_single {A} `{EqDecision A} (g : A -> option Z) L x0 :
  (forall x, x ∈ L -> x <> x0 -> g x = None) ->
  big_min (g <$> L) = if bool_decide (x0 ∈ L) then g x0 else None.
Proof.
  induction L as [|x L IH]; intros H; [done|].
  change (big_min (g <$> x :: L)) with (opt_min (g x) (big_min (g <$> L))).
  rewrite IH by (intros; apply H; [by right|done]).
  destruct (decide (x = x0)) as [->|Hne].
  - rewrite (bool_decide_true (x0 ∈ x0 :: L)) by left.
    case_bool_decide; [apply opt_min_idemp|apply opt_min_None_r].
  - rewrite (H x) by (done || left). simpl.
    by rewrite (bool_decide_ext (x0 ∈ x :: L) (x0 ∈ L)) by (rewrite elem_of_cons; naive_solver).
Qed.

(** ** Lemmas: one source *)

Definition chunk_distance (p q : ChunkPos) : Z :=
  chebyshev (cp_x q - cp_x p, cp_y q - cp_y p).

(** The level a source of level [l] gives at distance [d] when it spreads to [limit]. *)
Definition level_at (limit l d : Z) : option Z :=
  if decide (d = 0 \/ l + d <= limit) then Some (l + d) else None.

(** Coordinates at which the square of a source does not leave [i32]. *)
Definition source_ok (p : ChunkPos) : Prop :=
  Z.abs (cp_x p) < 2 ^ 31 - 256 /\ Z.abs (cp_y p) < 2 ^ 31 - 256.

#[global] Instance source_ok_dec p : Decision (source_ok p).
Proof. unfold source_ok. apply _. Defined.

Definition level_ok (l : Z) : Prop := 0 <= l <= MAX_LEVEL_RAW.

Lemma entry_min_lookup pos l m p :
  entry_min pos l m !! p = opt_min (m !! p) (if decide (p = pos) then Some l else None).
Proof.
  unfold entry_min. destruct (m !! pos) as [e|] eqn:E; case_decide; subst.
  - by rewrite lookup_insert_eq, E.
  - by rewrite lookup_insert_ne, opt_min_None_r by done.
  - by rewrite lookup_insert_eq, E.
  - by rewrite lookup_insert_ne, opt_min_None_r by done.
Qed.

Lemma with_distance_spec l d : level_ok l -> 0 <= d ->
  ChunkTicketLevel_with_distance l d = if decide (l + d <= MAX_LEVEL_RAW) then Some (l + d) else None.
Proof.
  unfold ChunkTicketLevel_with_distance, ChunkTicketLevel_new, saturating_add, level_ok.
  change MAX_LEVEL_RAW with 141. change (2 ^ 8 - 1) with 255. intros Hl Hd.
  destruct (Z.leb_spec (Z.min 255 (l + d)) 141); case_decide; try lia; [|done].
  f_equal. lia.
Qed.

Lemma spread_column_lookup source l dy dx m p :
  source_ok source -> level_ok l -> Z.abs dx <= 255 -> Z.abs dy <= 255 ->
  spread_column source l dy dx m !! p =
    opt_min (m !! p)
      (if decide (cp_x p - cp_x source = dx /\ cp_y p - cp_y source = dy)
       then if decide (l + chunk_distance source p <= MAX_LEVEL_RAW)
            then Some (l + chunk_distance source p) else None
       else None).
Proof.
  intros [Hx Hy] Hl Hdx Hdy. unfold spread_column.
  rewrite u8_small by lia. rewrite with_distance_spec by (done || lia).
  rewrite !i32_small by lia.
  destruct (decide (cp_x p - cp_x source = dx /\ cp_y p - cp_y source = dy)) as [[<- <-]|Hne].
  - change (Z.max (Z.abs (cp_x p - cp_x source)) (Z.abs (cp_y p - cp_y source)))
      with (chunk_distance source p).
    rewrite !Z.add_sub_assoc, !Z.add_simpl_l. case_decide; [|by rewrite opt_min_None_r].
    rewrite entry_min_lookup, decide_True; [done|]. by destruct p.
  - rewrite opt_min_None_r. case_decide; [|done]. rewrite entry_min_lookup, decide_False.
    + by rewrite opt_min_None_r.
    + intros ->. apply Hne. simpl. lia.
Qed.

Lemma elem_of_radius_range r x : 0 <= r -> x ∈ radius_range r <-> Z.abs x <= r.
Proof. intros Hr. unfold radius_range. rewrite elem_of_seqZ. lia. Qed.

Lemma spread_lookup source l r m p :
  source_ok source -> level_ok l -> 0 <= r <= 255 ->
  spread source l r m !! p =
    opt_min (m !! p)
      (if decide (chunk_distance source p <= r /\ l + chunk_distance source p <= MAX_LEVEL_RAW)
       then Some (l + chunk_distance source p) else None).
Proof.
  intros Hs Hl Hr. unfold spread.
  set (dx0 := cp_x p - cp_x source). set (dy0 := cp_y p - cp_y source).
  set (v := if decide (l + chunk_distance source p <= MAX_LEVEL_RAW)
            then Some (l + chunk_distance source p) else None).
  pose (row dy := if bool_decide (dx0 ∈ radius_range r)
                  then if decide (dy0 = dy) then v else None else None).
  rewrite (foldl_opt_min (fun m => m !! p) _ row).
  2: { intros m' dy Hdy%elem_of_radius_range; [|lia].
       rewrite (foldl_opt_min (fun m => m !! p) _
         (fun dx => if decide (dx0 = dx /\ dy0 = dy) then v else None)).
       - f_equal. rewrite (big_min_single _ _ dx0).
         + unfold row. case_bool_decide; [|done]. repeat case_decide; naive_solver.
         + intros dx _ Hne. rewrite decide_False; naive_solver.
       - intros m'' dx Hdx%elem_of_radius_range; [|lia].
         by apply spread_column_lookup; [done|done|lia|lia]. }
  f_equal. rewrite (big_min_single _ _ dy0).
  2: { intros dy _ Hne. unfold row. case_bool_decide; [|done]. by rewrite decide_False. }
  unfold row, v. rewrite (decide_True (P := dy0 = dy0)) by done.
  unfold chunk_distance, chebyshev, fst, snd. fold dx0 dy0.
  repeat case_bool_decide; rewrite ?elem_of_radius_range in * by lia; repeat case_decide; try done; lia.
Qed.

(** ** Lemmas: all sources *)

(** [o] is the least value that satisfies [R], [None] when there is none. *)
Definition is_least (R : Z -> Prop) (o : option Z) : Prop :=
  match o with
  | Some l => R l /\ forall l', R l' -> l <= l'
  | None => forall l, ~ R l
  end.

Lemma is_least_unique R o o' : is_least R o -> is_least R o' -> o = o'.
Proof.
  destruct o as [a|], o' as [b|]; simpl; intros H H'; try naive_solver.
  f_equal. destruct H as [Ha Hla], H' as [Hb Hlb]. specialize (Hla b Hb). specialize (Hlb a Ha). lia.
Qed.

Lemma is_least_iff R R' o : (forall l, R l <-> R' l) -> is_least R o -> is_least R' o.
Proof. intros H. destruct o; simpl; naive_solver. Qed.

Lemma big_min_least l : is_least (fun v => Some v ∈ l) (big_min l).
Proof.
  destruct (big_min l) as [v|] eqn:E; simpl; [by apply big_min_Some|].
  intros v Hv. induction l as [|a l IHl]; [by apply elem_of_nil in Hv|].
  simpl in E. destruct a as [a|]; simpl in E; [by destruct (big_min l)|].
  apply elem_of_cons in Hv as [?|?]; [done|]. by apply IHl.
Qed.

Lemma level_at_mono limit s s' d l :
  s' <= s -> level_at limit s d = Some l ->
  exists l', level_at limit s' d = Some l' /\ l' <= l.
Proof.
  unfold level_at. intros Hs. case_decide; [|done]. intros [= <-].
  exists (s' + d). rewrite decide_True by lia. split; [done|lia].
Qed.

Section Sources.
Context (limit : Z) (f : ChunkTicket -> option Z) (p : ChunkPos).

(** The level the tickets [ts] at one source give to [p]. *)
Definition entry_level (e : ChunkPos * list ChunkTicket) : option Z :=
  s ← list_min (omap f (snd e)); level_at limit s (chunk_distance (fst e) p).

Definition entry_reach (entries : list (ChunkPos * list ChunkTicket)) (l : Z) : Prop :=
  exists e t s, e ∈ entries /\ t ∈ snd e /\ f t = Some s /\
    level_at limit s (chunk_distance (fst e) p) = Some l.

Lemma entry_level_least e : is_least (entry_reach [e]) (entry_level e).
Proof.
  assert (forall s, s ∈ omap f (snd e) <-> exists t, t ∈ snd e /\ f t = Some s) as Hin.
  { intros s. apply list_elem_of_omap. }
  unfold entry_level, entry_reach.
  destruct (list_min (omap f (snd e))) as [s|] eqn:E; simpl.
  - apply list_min_Some in E as [[t [Ht Hs]]%Hin Hmin].
    destruct (level_at limit s _) as [l|] eqn:El; simpl.
    + split; [exists e, t, s; split; [left|done]|].
      intros l' (e' & t' & s' & ->%list_elem_of_singleton & Ht' & Hs' & Hl').
      destruct (level_at_mono limit s' s _ l' (Hmin s' (proj2 (Hin s') (ex_intro _ t' (conj Ht' Hs')))) Hl')
        as (l'' & El'' & ?). simplify_eq. done.
    + intros l' (e' & t' & s' & ->%list_elem_of_singleton & Ht' & Hs' & Hl').
      destruct (level_at_mono limit s' s _ l' (Hmin s' (proj2 (Hin s') (ex_intro _ t' (conj Ht' Hs')))) Hl')
        as (l'' & El'' & ?). simplify_eq.
  - apply list_min_None in E. intros l (e' & t' & s' & ->%list_elem_of_singleton & Ht' & Hs' & _).
    assert (s' ∈ omap f (snd e)) as Hs by (apply Hin; eauto). rewrite E in Hs. by apply elem_of_nil in Hs.
Qed.

Lemma entries_level_least entries :
  is_least (entry_reach entries) (big_min (entry_level <$> entries)).
Proof.
  assert (forall l, entry_reach entries l <-> exists e, e ∈ entries /\ entry_reach [e] l) as Hr.
  { intros l. unfold entry_reach. split.
    - intros (e & t & s & He & H). exists e. split; [done|]. exists e, t, s. split; [left|done].
    - intros (e & He & e' & t & s & ->%list_elem_of_singleton & H). by exists e, t, s. }
  pose proof (big_min_least (entry_level <$> entries)) as H.
  destruct (big_min (entry_level <$> entries)) as [v|]; simpl in *.
  - destruct H as [(e & He & Hin)%list_elem_of_fmap Hmin]. split.
    + apply Hr. exists e. split; [done|].
      pose proof (entry_level_least e) as Hl. rewrite <- He in Hl. apply Hl.
    + intros l (e' & He' & Hre)%Hr. pose proof (entry_level_least e') as Hl.
      destruct (entry_level e') as [w|] eqn:Ew; [|by destruct (Hl l)].
      destruct Hl as [_ Hl]. specialize (Hl l Hre).
      specialize (Hmin w ltac:(apply list_elem_of_fmap; eauto)). lia.
  - intros l (e' & He' & Hre)%Hr. pose proof (entry_level_least e') as Hl.
    destruct (entry_level e') as [w|] eqn:Ew; [|by destruct (Hl l)].
    apply (H w). apply list_elem_of_fmap. eauto.
Qed.
End Sources.

(** A ticket whose levels are in range and whose simulation stays inside its loading. *)
Definition ticket_ok (t : ChunkTicket) : Prop :=
  level_ok (load_level t) /\
  match simulation_level t with
  | Some s => level_ok s /\ load_level t <= s + (LEVEL_MAX - LEVEL_BLOCK_TICKING_CHUNK)
  | None => True
  end.

Definition entry_ok (e : ChunkPos * list ChunkTicket) : Prop :=
  source_ok (fst e) /\ Forall ticket_ok (snd e).

Definition load_of (t : ChunkTicket) : option Z := Some (load_level t).

Lemma omap_load_of (ts : list ChunkTicket) : omap load_of ts = load_level <$> ts.
Proof. induction ts as [|t ts IH]; simpl; [done|]. by f_equal. Qed.

Lemma propagate_source_lookup e lv p :
  entry_ok e ->
  fst (propagate_source e lv) !! p =
    opt_min (fst lv !! p) (entry_level LEVEL_MAX load_of p e) /\
  snd (propagate_source e lv) !! p =
    opt_min (snd lv !! p) (entry_level LEVEL_BLOCK_TICKING_CHUNK simulation_level p e).
Proof.
  destruct e as [source ts], lv as [lvls sims]. intros [Hs Hts].
  unfold entry_level, propagate_source, fst, snd in *. rewrite omap_load_of.
  assert (0 <= chunk_distance source p) as Hd by (unfold chunk_distance, chebyshev; lia).
  rewrite Forall_forall in Hts.
  destruct (list_min (load_level <$> ts)) as [l|] eqn:El; last first.
  { apply list_min_None, fmap_nil_inv in El. subst. by rewrite !opt_min_None_r. }
  apply list_min_Some in El as [(t & -> & Ht)%list_elem_of_fmap _].
  destruct (Hts t Ht) as [Hl _]. cbn [mbind option_bind].
  assert (forall s limit r m, level_ok s ->
    (r = limit - s \/ (limit < s /\ r = 0)) -> 0 <= r <= 255 -> limit <= MAX_LEVEL_RAW ->
    spread source s r m !! p =
      opt_min (m !! p) (level_at limit s (chunk_distance source p))) as Hspread.
  { intros s limit r m Hsl Hr Hr' Hlim. rewrite spread_lookup by done. f_equal.
    unfold level_at, level_ok in *. repeat case_decide; try done; lia. }
  unfold level_ok in Hl. change MAX_LEVEL_RAW with 141 in *. change LEVEL_MAX with 141.
  assert (forall m, spread source (load_level t) (ChunkTicketLevel_distance_to_max (load_level t)) m !! p
    = opt_min (m !! p) (level_at 141 (load_level t) (chunk_distance source p))) as Hload.
  { intros m. apply Hspread; try done; unfold ChunkTicketLevel_distance_to_max;
      change MAX_LEVEL_RAW with 141; rewrite u8_small; lia. }
  destruct (list_min (omap simulation_level ts)) as [s|] eqn:Es; cbn [mbind option_bind].
  - split; [apply Hload|].
    apply list_min_Some in Es as [(t' & Ht' & Et')%list_elem_of_omap _].
    destruct (Hts t' Ht') as [_ H']. rewrite Et' in H'. destruct H' as [Hsl _].
    unfold level_ok in Hsl. change MAX_LEVEL_RAW with 141 in *.
    change LEVEL_BLOCK_TICKING_CHUNK with 129.
    apply Hspread; try done; unfold ChunkTicketLevel_distance_to_block_ticking, saturating_sub;
      change LEVEL_BLOCK_TICKING_CHUNK with 129; lia.
  - split; [apply Hload|by rewrite opt_min_None_r].
Qed.

Lemma propagate_all_least entries p :
  Forall entry_ok entries ->
  is_least (entry_reach LEVEL_MAX load_of p entries) (fst (propagate_all entries) !! p) /\
  is_least (entry_reach LEVEL_BLOCK_TICKING_CHUNK simulation_level p entries)
    (snd (propagate_all entries) !! p).
Proof.
  rewrite Forall_forall. intros Hok. unfold propagate_all. split.
  - rewrite (foldl_opt_min (fun lv => fst lv !! p) _ (entry_level LEVEL_MAX load_of p)).
    + simpl. rewrite lookup_empty. apply entries_level_least.
    + intros lv e He. by apply propagate_source_lookup, Hok.
  - rewrite (foldl_opt_min (fun lv => snd lv !! p) _
      (entry_level LEVEL_BLOCK_TICKING_CHUNK simulation_level p)).
    + simpl. rewrite lookup_empty. apply entries_level_least.
    + intros lv e He. by apply propagate_source_lookup, Hok.
Qed.

(** ** The manager as a state machine *)

(** A ticket at [q] gives [p] the load level [l]. *)
Definition load_reach (m : ChunkTicketManager) (p : ChunkPos) (l : Z) : Prop :=
  exists q t, t ∈ tickets_at m q /\
    level_at LEVEL_MAX (load_level t) (chunk_distance q p) = Some l.

(** A ticket at [q] gives [p] the simulation level [l]. *)
Definition simulation_reach (m : ChunkTicketManager) (p : ChunkPos) (l : Z) : Prop :=
  exists q t s, t ∈ tickets_at m q /\ simulation_level t = Some s /\
    level_at LEVEL_BLOCK_TICKING_CHUNK s (chunk_distance q p) = Some l.

Inductive manager_step : ChunkTicketManager -> ChunkTicketManager -> Prop :=
| step_add m p t : source_ok p -> ticket_ok t -> manager_step m (add_ticket m p t)
| step_remove m p t : manager_step m (fst (remove_ticket m p t))
| step_remove_all m p : manager_step m (fst (remove_all_tickets_at m p))
| step_run m : manager_step m (run_all_updates m)
| step_take m : manager_step m (fst (take_changes m))
| step_recycle m b : manager_step m (recycle_changes m b)
| step_clear m : manager_step m (ChunkTicketManager_clear m).

(** The managers the public operations lead to. *)
Definition reachable (m : ChunkTicketManager) : Prop :=
  rtc manager_step ChunkTicketManager_new m.

Record manager_inv (m : ChunkTicketManager) : Prop := {
  inv_entries p ts : tickets m !! p = Some ts -> ts <> [] /\ entry_ok (p, ts);
  inv_levels : dirty m = false -> forall p,
    is_least (load_reach m p) (levels m !! p) /\
    is_least (simulation_reach m p) (simulation_levels m !! p);
  inv_nested p : levels m !! p = None -> simulation_levels m !! p = None;
}.

Lemma tickets_at_elem m q t :
  t ∈ tickets_at m q <-> exists ts, tickets m !! q = Some ts /\ t ∈ ts.
Proof.
  unfold tickets_at. destruct (tickets m !! q) as [ts|]; simpl; [naive_solver|].
  split; [by intros ?%elem_of_nil|naive_solver].
Qed.

Lemma load_reach_entries m p l :
  load_reach m p l <-> entry_reach LEVEL_MAX load_of p (map_to_list (tickets m)) l.
Proof.
  unfold load_reach, entry_reach. split.
  - intros (q & t & (ts & Hts & Ht)%tickets_at_elem & Hl). exists (q, ts), t, (load_level t).
    split_and!; [by apply elem_of_map_to_list|done|done|done].
  - intros ([q ts] & t & s & Hq%elem_of_map_to_list & Ht & [= <-] & Hl). exists q, t.
    split; [apply tickets_at_elem; eauto|done].
Qed.

Lemma simulation_reach_entries m p l :
  simulation_reach m p l <->
  entry_reach LEVEL_BLOCK_TICKING_CHUNK simulation_level p (map_to_list (tickets m)) l.
Proof.
  unfold simulation_reach, entry_reach. split.
  - intros (q & t & s & (ts & Hts & Ht)%tickets_at_elem & Hs & Hl). exists (q, ts), t, s.
    split_and!; [by apply elem_of_map_to_list|done|done|done].
  - intros ([q ts] & t & s & Hq%elem_of_map_to_list & Ht & Hs & Hl). exists q, t, s.
    split; [apply tickets_at_elem; eauto|done].
Qed.

Lemma simulation_inside_loading m p l :
  (forall q ts, tickets m !! q = Some ts -> entry_ok (q, ts)) ->
  simulation_reach m p l -> exists l', load_reach m p l'.
Proof.
  intros Hok (q & t & s & (ts & Hts & Ht)%tickets_at_elem & Hs & Hl).
  destruct (Hok q ts Hts) as [_ Ht']. rewrite Forall_forall in Ht'.
  destruct (Ht' t Ht) as [Hload Hsim]. rewrite Hs in Hsim.
  exists (load_level t + chunk_distance q p), q, t. split; [apply tickets_at_elem; eauto|].
  unfold level_at, level_ok in *. revert Hl. change LEVEL_BLOCK_TICKING_CHUNK with 129 in *.
  change LEVEL_MAX with 141 in *. case_decide; [|done]. intros _. rewrite decide_True; [done|lia].
Qed.

Lemma is_least_nested m p o o' :
  (forall q ts, tickets m !! q = Some ts -> entry_ok (q, ts)) ->
  is_least (load_reach m p) o -> is_least (simulation_reach m p) o' -> o = None -> o' = None.
Proof.
  intros Hok Ho Ho' ->. destruct o' as [l|]; [|done]. destruct Ho' as [Hl _].
  destruct (simulation_inside_loading m p l Hok Hl) as [l' Hl']. by destruct (Ho l').
Qed.

Lemma propagate_all_spec m :
  (forall p ts, tickets m !! p = Some ts -> ts <> [] /\ entry_ok (p, ts)) ->
  forall p,
    is_least (load_reach m p) (fst (propagate_all (map_to_list (tickets m))) !! p) /\
    is_least (simulation_reach m p) (snd (propagate_all (map_to_list (tickets m))) !! p).
Proof.
  intros Hok p. destruct (propagate_all_least (map_to_list (tickets m)) p) as [H1 H2].
  { apply Forall_forall. intros [q ts] Hq%elem_of_map_to_list. by apply Hok. }
  split; (eapply is_least_iff; [|eassumption]); intros l; symmetry;
    [apply load_reach_entries|apply simulation_reach_entries].
Qed.

Lemma run_all_updates_levels_least m :
  manager_inv m -> forall p,
    is_least (load_reach m p) (levels (run_all_updates m) !! p) /\
    is_least (simulation_reach m p) (simulation_levels (run_all_updates m) !! p).
Proof.
  intros Hinv p. unfold run_all_updates. destruct (dirty m) eqn:Hd.
  - pose proof (propagate_all_spec m (inv_entries m Hinv) p) as H.
    destruct (propagate_all (map_to_list (tickets m))). exact H.
  - by apply (inv_levels m Hinv).
Qed.

Lemma run_all_updates_tickets m :
  tickets (run_all_updates m) = tickets m /\ dirty (run_all_updates m) = false.
Proof. unfold run_all_updates. destruct (dirty m); [|done]. by destruct (propagate_all _). Qed.

(** ** Lemmas: adding and removing tickets *)

Lemma tickets_at_add m p t q :
  tickets_at (add_ticket m p t) q =
    if decide (q = p) then tickets_at m p ++ [t] else tickets_at m q.
Proof.
  unfold tickets_at, add_ticket. simpl. case_decide; subst.
  - by rewrite lookup_insert_eq.
  - by rewrite lookup_insert_ne.
Qed.

Lemma ticket_position_Some t ts i : ticket_position t ts = Some i -> ts !! i = Some t.
Proof.
  unfold ticket_position. intros ([j x] & (? & -> & _)%list_find_Some & ->)%fmap_Some. done.
Qed.

Lemma ticket_position_None t ts : ticket_position t ts = None -> t ∉ ts.
Proof.
  unfold ticket_position. intros H%fmap_None%list_find_None Ht.
  rewrite Forall_forall in H. by apply (H t Ht).
Qed.

Lemma tickets_at_remove m p t m' b :
  remove_ticket m p t = (m', b) ->
  (forall q, q <> p -> tickets_at m' q = tickets_at m q) /\
  (if b then t :: tickets_at m' p ≡ₚ tickets_at m p else m' = m /\ t ∉ tickets_at m p).
Proof.
  unfold remove_ticket, tickets_at. destruct (tickets m !! p) as [ts|] eqn:Hp.
  2: { intros [= <- <-]. split; [done|]. split; [done|]. apply not_elem_of_nil. }
  destruct (ticket_position t ts) as [i|] eqn:Hi.
  2: { intros [= <- <-]. split; [done|]. split; [done|].
       by apply ticket_position_None. }
  apply ticket_position_Some in Hi. pose proof (swap_remove_perm ts i t Hi) as Hperm.
  intros [= <- <-]. simpl. split.
  - intros q Hq. destruct (swap_remove i ts);
      [by rewrite lookup_delete_ne|by rewrite lookup_insert_ne].
  - destruct (swap_remove i ts) as [|x l] eqn:E; [rewrite lookup_delete_eq|rewrite lookup_insert_eq];
      simpl; exact Hperm.
Qed.

Lemma remove_ticket_entries m p t q ts :
  tickets (fst (remove_ticket m p t)) !! q = Some ts ->
  exists ts', tickets m !! q = Some ts' /\ (forall x, x ∈ ts -> x ∈ ts') /\ (ts' <> [] -> ts <> []).
Proof.
  unfold remove_ticket. destruct (tickets m !! p) as [us|] eqn:Hp; [|naive_solver].
  destruct (ticket_position t us) as [i|] eqn:Hi; [|naive_solver].
  apply ticket_position_Some in Hi. pose proof (swap_remove_perm us i t Hi) as Hperm. simpl.
  destruct (swap_remove i us) as [|x l] eqn:E.
  - intros [? ?]%lookup_delete_Some. naive_solver.
  - intros [[<- <-]|[? ?]]%lookup_insert_Some; [|naive_solver].
    exists us. split_and!; [done| |done]. intros y Hy. rewrite <- Hperm. by right.
Qed.

(** A manager whose tickets are among those of [m] and which is marked dirty, or
    which is [m] with other bookkeeping, keeps the invariant. *)
Lemma manager_inv_shrink m m' :
  manager_inv m -> dirty m' = true -> levels m' = levels m ->
  simulation_levels m' = simulation_levels m ->
  (forall q ts, tickets m' !! q = Some ts ->
     exists ts', tickets m !! q = Some ts' /\ (forall x, x ∈ ts -> x ∈ ts') /\ (ts' <> [] -> ts <> [])) ->
  manager_inv m'.
Proof.
  intros [He Hl Hn] Hd Elv Esm Ht. split.
  - intros q ts Hq. destruct (Ht q ts Hq) as (ts' & Hq' & Hsub & Hne).
    destruct (He q ts' Hq') as [H1 [H2 H3]]. split; [auto|]. split; [done|].
    rewrite Forall_forall in H3 |- *. auto.
  - by rewrite Hd.
  - by rewrite Elv, Esm.
Qed.

Lemma manager_inv_add m p t :
  source_ok p -> ticket_ok t -> manager_inv m -> manager_inv (add_ticket m p t).
Proof.
  intros Hp Ht [He Hl Hn]. split; [|done|done].
  simpl. intros q ts [[<- <-]|[? ?]]%lookup_insert_Some; [|auto].
  split; [by destruct (default [] (tickets m !! p))|]. split; [done|]. simpl.
  apply Forall_app. split; [|by constructor].
  destruct (tickets m !! p) as [us|] eqn:E; simpl; [|constructor]. by apply (He p us).
Qed.

Lemma manager_inv_run m : manager_inv m -> manager_inv (run_all_updates m).
Proof.
  intros Hinv. pose proof (run_all_updates_levels_least m Hinv) as H.
  destruct (run_all_updates_tickets m) as [Ht Hd]. split.
  - rewrite Ht. apply Hinv.
  - intros _ p. unfold load_reach, simulation_reach, tickets_at. rewrite Ht. apply H.
  - intros p. apply (is_least_nested m p _ _ (fun q ts Hq => proj2 (inv_entries m Hinv q ts Hq)));
      apply H.
Qed.

Lemma manager_inv_new : manager_inv ChunkTicketManager_new.
Proof.
  split; simpl; [intros ? ?; by rewrite lookup_empty| |by intros; rewrite lookup_empty].
  intros _ p. rewrite !lookup_empty. split; intros l.
  - intros (q & t & (ts & Hts & _)%tickets_at_elem & _). simpl in Hts. by rewrite lookup_empty in Hts.
  - intros (q & t & s & (ts & Hts & _)%tickets_at_elem & _). simpl in Hts.
    by rewrite lookup_empty in Hts.
Qed.

Lemma manager_step_inv m m' : manager_step m m' -> manager_inv m -> manager_inv m'.
Proof.
  intros Hstep Hinv. destruct Hstep as [m p t Hp Ht|m p t|m p|m|m|m b|m].
  - by apply manager_inv_add.
  - destruct (remove_ticket m p t) as [m' []] eqn:E.
    + apply (manager_inv_shrink m); try done;
        [..|intros q ts Hq; apply (remove_ticket_entries m p t); by rewrite E];
        unfold remove_ticket in E; repeat case_match; by simplify_eq.
    + apply tickets_at_remove in E as [_ [-> _]]. done.
  - unfold remove_all_tickets_at. case_bool_decide as Hsome; simpl.
    + apply (manager_inv_shrink m); try done. simpl.
      intros q ts [? ?]%lookup_delete_Some. naive_solver.
    + rewrite delete_id by (by apply eq_None_not_Some). by destruct m, Hinv.
  - by apply manager_inv_run.
  - destruct Hinv. by split.
  - destruct Hinv. by split.
  - exact manager_inv_new.
Qed.

Lemma reachable_inv m : reachable m -> manager_inv m.
Proof.
  apply (rtc_ind_r manager_inv ChunkTicketManager_new); [exact manager_inv_new|].
  intros m1 m2 _ Hs. by apply manager_step_inv.
Qed.

(** ** Lemmas: the change list *)

Lemma change_positions_NoDup {A} (f : ChunkPos * A -> option LevelChange) (m : gmap ChunkPos A) :
  (forall p x c, f (p, x) = Some c -> ch_pos c = p) ->
  NoDup (ch_pos <$> omap f (map_to_list m)).
Proof.
  intros Hf. pose proof (NoDup_fst_map_to_list m) as Hnd.
  assert (forall l, (ch_pos <$> omap f l) `sublist_of` (fst <$> l)) as Hsub.
  { induction l as [|[p x] l IH]; simpl; [constructor|].
    destruct (f (p, x)) as [c|] eqn:E; simpl; [|by constructor].
    rewrite (Hf p x c E). by constructor. }
  eapply sublist_NoDup; [exact Hnd|apply Hsub].
Qed.

Section Changes.
Context (old new osim nsim : gmap ChunkPos ChunkTicketLevel).
Context (Hnested : forall p, new !! p = None -> nsim !! p = None).

(** The change that carries the new levels of [p]. *)
Definition change_at (p : ChunkPos) : LevelChange := mkChange p (new !! p) (nsim !! p).

Lemma load_changes_elem c :
  c ∈ load_changes old new nsim <-> exists p, c = change_at p /\ old !! p <> new !! p.
Proof.
  unfold load_changes, change_at. rewrite elem_of_app, !list_elem_of_omap. split.
  - intros [([p x] & Hp%elem_of_map_to_list & E)|([p x] & Hp%elem_of_map_to_list & E)]; exists p.
    + rewrite Hp. destruct (old !! p) as [o|] eqn:Eo; [|by simplify_eq].
      destruct (Z.eqb_spec o x); simplify_eq. split; [done|naive_solver].
    + destruct (new !! p) eqn:En; simplify_eq. rewrite (Hnested p En), Hp. done.
  - intros (p & -> & Hne). destruct (new !! p) as [x|] eqn:En.
    + left. exists (p, x). split; [by apply elem_of_map_to_list|].
      destruct (old !! p) as [o|]; [|done]. destruct (Z.eqb_spec o x); [naive_solver|done].
    + right. destruct (old !! p) as [o|] eqn:Eo; [|done]. exists (p, o).
      split; [by apply elem_of_map_to_list|]. by rewrite En, (Hnested p En).
Qed.

Lemma simulation_changes_elem c :
  c ∈ record_simulation_only_changes old new osim nsim <->
  exists p, c = change_at p /\ old !! p = new !! p /\ osim !! p <> nsim !! p.
Proof.
  unfold record_simulation_only_changes, change_at. rewrite elem_of_app, !list_elem_of_omap. split.
  - intros [([p x] & Hp%elem_of_map_to_list & E)|([p x] & Hp%elem_of_map_to_list & E)]; exists p.
    + rewrite Hp. case_bool_decide as Hl; [done|].
      destruct (osim !! p) as [o|] eqn:Eo; [|by simplify_eq].
      destruct (Z.eqb_spec o x); simplify_eq. split_and!; [done|done|naive_solver].
    + case_bool_decide as Hl; [done|]. simpl in E.
      case_bool_decide as Hs; simplify_eq. apply eq_None_not_Some in Hs. rewrite Hs, Hp. done.
  - intros (p & -> & Hl & Hne). destruct (nsim !! p) as [x|] eqn:En.
    + left. exists (p, x). split; [by apply elem_of_map_to_list|].
      rewrite bool_decide_false by (intros H; by apply H).
      destruct (osim !! p) as [o|]; [|done]. destruct (Z.eqb_spec o x); [naive_solver|done].
    + right. destruct (osim !! p) as [o|] eqn:Eo; [|done]. exists (p, o).
      split; [by apply elem_of_map_to_list|].
      rewrite bool_decide_false by (intros H; by apply H).
      rewrite bool_decide_false by (rewrite En; by intros [? ?]). done.
Qed.

Lemma changes_NoDup :
  NoDup (ch_pos <$> load_changes old new nsim ++
                    record_simulation_only_changes old new osim nsim).
Proof.
  rewrite fmap_app, NoDup_app. split_and!.
  - unfold load_changes. rewrite fmap_app, NoDup_app. split_and!.
    + apply change_positions_NoDup. intros p x c E. repeat case_match; by simplify_eq.
    + intros p (c & -> & Hc)%list_elem_of_fmap (c' & E & Hc')%list_elem_of_fmap.
      apply list_elem_of_omap in Hc as ([q x] & Hq%elem_of_map_to_list & Hc).
      apply list_elem_of_omap in Hc' as ([q' x'] & Hq'%elem_of_map_to_list & Hc').
      repeat case_match; simplify_eq; simpl in *; congruence.
    + apply change_positions_NoDup. intros p x c E. repeat case_match; by simplify_eq.
  - intros p (c & -> & (q & -> & Hq)%load_changes_elem)%list_elem_of_fmap.
    intros (c' & E & (q' & -> & Hq' & _)%simulation_changes_elem)%list_elem_of_fmap.
    simpl in E. by subst.
  - unfold record_simulation_only_changes. rewrite fmap_app, NoDup_app. split_and!.
    + apply change_positions_NoDup. intros p x c E. repeat case_match; by simplify_eq.
    + intros p (c & -> & Hc)%list_elem_of_fmap (c' & E & Hc')%list_elem_of_fmap.
      apply list_elem_of_omap in Hc as ([q x] & Hq%elem_of_map_to_list & Hc).
      apply list_elem_of_omap in Hc' as ([q' x'] & Hq'%elem_of_map_to_list & Hc').
      case_match eqn:Eb; [done|]. apply orb_false_iff in Eb as [_ Eb].
      apply bool_decide_eq_false in Eb.
      repeat case_match; simplify_eq; simpl in *; subst; by destruct Eb.
    + apply change_positions_NoDup. intros p x c E. repeat case_match; by simplify_eq.
Qed.
End Changes.

(** The change list of a pass over a manager that satisfies the invariant. *)
Lemma run_all_updates_diff m :
  manager_inv m ->
  let m' := run_all_updates m in
  NoDup (ch_pos <$> changes m') /\
  forall c, c ∈ changes m' <->
    exists p, c = mkChange p (get_level m' p) (get_simulation_level m' p) /\
      (get_level m p <> get_level m' p \/
       get_simulation_level m p <> get_simulation_level m' p).
Proof.
  intros Hr m'.
  pose proof (inv_nested _ (manager_inv_run m Hr)) as Hn. fold m' in Hn.
  subst m'. unfold run_all_updates, get_level, get_simulation_level in *.
  destruct (dirty m); simpl in *; last first.
  { split; [constructor|]. intros c. rewrite elem_of_nil. naive_solver. }
  destruct (propagate_all (map_to_list (tickets m))) as [new nsim]. simpl in *.
  split; [by apply changes_NoDup|]. intros c.
  rewrite elem_of_app, load_changes_elem, simulation_changes_elem by done.
  unfold change_at. split.
  - naive_solver.
  - intros (p & -> & Hne). destruct (decide (levels m !! p = new !! p)); naive_solver.
Qed.

(** ** Lemmas: tickets the constructors build *)

Lemma ChunkTicket_constructors_ok r r' :
  0 <= r < 256 -> 0 <= r' < 256 ->
  ticket_ok (ChunkTicket_full_chunks r) /\ ticket_ok (ChunkTicket_simulated_full_chunks r) /\
  ticket_ok (ChunkTicket_full_chunks_with_entity_ticking r r') /\ ticket_ok (ChunkTicket_player r r').
Proof.
  intros Hr Hr'.
  assert (forall t, 0 <= load_level t <= 141 ->
    (forall s, simulation_level t = Some s -> 0 <= s <= 141 /\ load_level t <= s + 12) ->
    ticket_ok t) as Hok.
  { intros [l [s|]] Hl Hs; split; [exact Hl| |exact Hl|done]. exact (Hs s eq_refl). }
  unfold ChunkTicket_full_chunks, ChunkTicket_loading, ChunkTicket_simulated_full_chunks,
    ChunkTicket_full_chunks_with_entity_ticking, ChunkTicket_player,
    ChunkTicketLevel_for_full_chunk_radius, ChunkTicketLevel_for_entity_ticking_radius,
    saturating_sub.
  change FULL_CHUNK_LEVEL_RAW with 130. change LEVEL_ENTITY_TICKING_CHUNK with 128.
  destruct (Z.ltb_spec r r'); split_and!; apply Hok; simpl; try lia;
    intros s Es; simplify_eq; lia.
Qed.

(** ** Lemmas: the generation status a level permits *)

Definition full_acc (d : nat) : option ChunkStatus := acc_get GENERATION_PYRAMID Full d.

Lemma generation_status_eq l :
  level_ok l -> generation_status (Some l) =
    if decide (l <= 130) then Some Full else full_acc (Z.to_nat (l - 130)).
Proof.
  unfold level_ok, generation_status, ChunkTicketLevel_is_full. change MAX_LEVEL_RAW with 141.
  change LEVEL_FULL_CHUNK with 130. change FULL_CHUNK_LEVEL_RAW with 130. intros Hl.
  destruct (Z.leb_spec l 130); case_decide; try lia; [done|]. by rewrite u8_small by lia.
Qed.

Lemma full_acc_mono d d' : (d <= d')%nat -> status_le (full_acc d') (full_acc d).
Proof. apply acc_get_mono; vm_compute; reflexivity. Qed.

Lemma full_acc_le_Full d : status_le (full_acc d) (Some Full).
Proof. destruct (full_acc d) as [[]|]; simpl; lia. Qed.

Lemma full_acc_short d : (12 <= d)%nat -> full_acc d = None.
Proof.
  intros Hd. pose proof (full_acc_mono 12 d Hd) as H. change (full_acc 12) with (@None ChunkStatus) in H.
  by destruct (full_acc d).
Qed.

Lemma generation_status_mono l l' :
  level_ok l -> level_ok l' -> l <= l' ->
  status_le (generation_status (Some l')) (generation_status (Some l)).
Proof.
  intros Hl Hl' Hle. rewrite !generation_status_eq by done. repeat case_decide; try lia.
  - reflexivity.
  - apply full_acc_le_Full.
  - apply full_acc_mono. lia.
Qed.

(** The dependencies of a status that is itself a dependency of [Full] at distance [k]. *)
Lemma full_acc_trans k T d :
  full_acc k = Some T -> status_le (acc_get GENERATION_PYRAMID T d) (full_acc (k + d)).
Proof.
  intros HT.
  assert (k < 12)%nat as Hk.
  { destruct (decide (k < 12)%nat); [done|]. rewrite full_acc_short in HT by lia. done. }
  destruct (acc_get GENERATION_PYRAMID T d) as [q|] eqn:Eq; [|done].
  assert (d < 16)%nat as Hd.
  { apply (proj1 (get_short GENERATION_PYRAMID ltac:(vm_compute; reflexivity) T d)). by rewrite Eq. }
  assert (forallb (fun k => match full_acc k with
    | Some T => forallb (fun d => bool_decide
        (status_le (acc_get GENERATION_PYRAMID T d) (full_acc (k + d)))) (seq 0 16)
    | None => true end) (seq 0 12) = true) as H by (vm_compute; reflexivity).
  rewrite forallb_forall in H. specialize (H k ltac:(apply in_seq; lia)). rewrite HT in H.
  rewrite forallb_forall in H. specialize (H d ltac:(apply in_seq; lia)).
  apply bool_decide_eq_true in H. by rewrite Eq in H.
Qed.

Lemma chunk_distance_triangle p q r :
  chunk_distance p r <= chunk_distance p q + chunk_distance q r.
Proof. unfold chunk_distance, chebyshev. simpl. lia. Qed.

(** Neighbouring levels: a chunk within reach of [p]'s level has at most that level plus
    the distance. *)
Lemma levels_lipschitz m p q l :
  manager_inv m -> is_least (load_reach m p) (Some l) ->
  forall o, is_least (load_reach m q) o -> l + chunk_distance p q <= LEVEL_MAX ->
  exists l', o = Some l' /\ l' <= l + chunk_distance p q.
Proof.
  intros Hinv [(s & t & Ht & Hl) _] o Ho Hmax.
  assert (l = load_level t + chunk_distance s p) as ->.
  { revert Hl. unfold level_at. case_decide; naive_solver. }
  pose proof (chunk_distance_triangle s p q) as Htri.
  assert (load_reach m q (load_level t + chunk_distance s q)) as Hr.
  { exists s, t. split; [done|]. unfold level_at. rewrite decide_True by lia. done. }
  destruct o as [l'|]; [|by destruct (Ho _ Hr)].
  exists l'. split; [done|]. destruct Ho as [_ Ho]. specialize (Ho _ Hr). lia.
Qed.

Lemma load_reach_level_ok m p l : manager_inv m -> load_reach m p l -> level_ok l.
Proof.
  intros Hinv (q & t & (ts & Hts & Ht)%tickets_at_elem & Hl).
  destruct (inv_entries m Hinv q ts Hts) as [_ [_ Hall]]. rewrite Forall_forall in Hall.
  destruct (Hall t Ht) as [Hok _]. unfold level_ok in *. revert Hl. unfold level_at.
  change LEVEL_MAX with MAX_LEVEL_RAW.
  assert (0 <= chunk_distance q p) by (unfold chunk_distance, chebyshev; lia).
  case_decide; [|done]. intros [= <-]. lia.
Qed.

(** ** Properties *)

(** A concrete reachable manager: a loading and a simulating ticket, propagated once, then a
    third ticket added. *)
Definition example_manager : ChunkTicketManager :=
  add_ticket
    (run_all_updates
       (add_ticket (add_ticket ChunkTicketManager_new (mkChunkPos 0 0) (ChunkTicket_loading 139))
          (mkChunkPos 3 1) (mkTicket 139 (Some 128))))
    (mkChunkPos (-2) 0) (ChunkTicket_loading 140).

Lemma example_manager_reachable : reachable example_manager.
Proof.
  assert (forall l, 0 <= l <= 141 -> ticket_ok (ChunkTicket_loading l)) as Hl.
  { intros l H. split; [exact H|done]. }
  unfold reachable, example_manager.
  eapply rtc_l; [apply (step_add _ (mkChunkPos 0 0) (ChunkTicket_loading 139)); [split; simpl; lia|apply Hl; lia]|].
  eapply rtc_l; [apply (step_add _ (mkChunkPos 3 1) (mkTicket 139 (Some 128))); [split; simpl; lia|]|].
  { split; [split; vm_compute; discriminate|]. simpl. repeat split; vm_compute; discriminate. }
  eapply rtc_l; [apply step_run|].
  eapply rtc_l; [apply (step_add _ (mkChunkPos (-2) 0) (ChunkTicket_loading 140)); [split; simpl; lia|apply Hl; lia]|].
  apply rtc_refl.
Qed.

(** C1. After [run_all_updates] on any manager the public operations lead to, the load
    level of every chunk is the least [ticket level + Chebyshev distance] over all
    tickets held, as long as it does not pass [MAX], and [None] when no ticket reaches the
    chunk; the simulation level is the same minimum over simulating tickets, which
    spread up to the block-ticking level.  Whether the pass ran or was skipped because
    nothing was dirty makes no difference. *)
Theorem run_all_updates_computes_least_levels m :
  reachable m -> forall p,
    is_least (load_reach m p) (get_level (run_all_updates m) p) /\
    is_least (simulation_reach m p) (get_simulation_level (run_all_updates m) p).
Proof. intros H. exact (run_all_updates_levels_least m (reachable_inv m H)). Qed.

Lemma run_all_updates_computes_least_levels_witness :
  reachable example_manager /\
  get_level (run_all_updates example_manager) (mkChunkPos (-1) 1) = Some 140 /\
  is_least (load_reach example_manager (mkChunkPos (-1) 1))
    (get_level (run_all_updates example_manager) (mkChunkPos (-1) 1)).
Proof.
  split; [exact example_manager_reachable|]. split; [vm_compute; reflexivity|].
  exact (proj1 (run_all_updates_computes_least_levels example_manager
    example_manager_reachable (mkChunkPos (-1) 1))).
Defined.

(** The change list of [run_all_updates] is the exact difference between the levels
    before and after: no position occurs twice, a position occurs if and only if its
    load or its simulation level changed, and its entry carries both new levels. *)
Theorem run_all_updates_reports_exact_changes m :
  reachable m ->
  let m' := run_all_updates m in
  NoDup (ch_pos <$> changes m') /\
  forall c, c ∈ changes m' <->
    exists p, c = mkChange p (get_level m' p) (get_simulation_level m' p) /\
      (get_level m p <> get_level m' p \/
       get_simulation_level m p <> get_simulation_level m' p).
Proof. intros Hr. exact (run_all_updates_diff m (reachable_inv m Hr)). Qed.

Lemma run_all_updates_reports_exact_changes_witness :
  reachable example_manager /\ changes (run_all_updates example_manager) <> [] /\
  NoDup (ch_pos <$> changes (run_all_updates example_manager)).
Proof.
  split; [exact example_manager_reachable|]. split; [vm_compute; discriminate|].
  exact (proj1 (run_all_updates_reports_exact_changes example_manager example_manager_reachable)).
Defined.

(** Generation never outruns its neighbours' tickets: once levels are propagated, if
    a chunk's level permits it to generate up to [T], every chunk around it that the
    generation pyramid makes [T] depend on has a level that permits at least the status
    the dependency asks for. *)
Theorem generation_dependencies_permitted m :
  reachable m -> forall p q T,
  let m' := run_all_updates m in
  generation_status (get_level m' p) = Some T ->
  status_le (accumulated_at GENERATION_PYRAMID T (cp_x q - cp_x p, cp_y q - cp_y p))
    (generation_status (get_level m' q)).
Proof.
  intros Hr%reachable_inv p q T m' HT. unfold accumulated_at.
  change (chebyshev _) with (chunk_distance p q).
  pose proof (run_all_updates_levels_least m Hr) as Hleast. fold m' in Hleast.
  unfold get_level in *. destruct (Hleast p) as [Hp _], (Hleast q) as [Hq _].
  destruct (levels m' !! p) as [l|]; [|done].
  assert (level_ok l) as Hl by (eapply load_reach_level_ok; [done|apply Hp]).
  rewrite generation_status_eq in HT by done.
  assert (0 <= chunk_distance p q) as Hd by (unfold chunk_distance, chebyshev; lia).
  set (k := Z.to_nat (l - 130)). set (d := Z.to_nat (chunk_distance p q)).
  assert (status_le (acc_get GENERATION_PYRAMID T d) (full_acc (k + d))) as Hacc.
  { case_decide; [|by apply full_acc_trans]. injection HT as <-.
    replace k with O by lia. reflexivity. }
  destruct (full_acc (k + d)) as [s|] eqn:Es; [|by destruct (acc_get _ T d)].
  assert (k + d < 12)%nat as Hkd.
  { destruct (decide (k + d < 12)%nat); [done|]. by rewrite full_acc_short in Es by lia. }
  destruct (levels_lipschitz m p q l Hr Hp _ Hq) as (l' & El & Hl').
  { unfold level_ok in Hl. change LEVEL_MAX with 141. change MAX_LEVEL_RAW with 141 in Hl. lia. }
  rewrite El in Hq |- *. assert (level_ok l') as Hok by (eapply load_reach_level_ok; [done|apply Hq]).
  etransitivity; [exact Hacc|]. rewrite generation_status_eq by done.
  rewrite <- Es. destruct (decide (l' <= 130)); [apply full_acc_le_Full|].
  apply full_acc_mono. lia.
Qed.

Lemma generation_dependencies_permitted_witness :
  reachable example_manager /\
  status_le
    (accumulated_at GENERATION_PYRAMID StructureStarts (1, 0))
    (generation_status (get_level (run_all_updates example_manager) (mkChunkPos 1 0))).
Proof.
  split; [exact example_manager_reachable|].
  exact (generation_dependencies_permitted example_manager example_manager_reachable
    (mkChunkPos 0 0) (mkChunkPos 1 0) StructureStarts ltac:(vm_compute; reflexivity)).
Defined.

(** [ticket_level_for_status] is the weakest level that lets a chunk reach a status:
    the level permits at least [status], and any level that permits it is no weaker. *)
Theorem ticket_level_for_status_weakest status :
  level_ok (ticket_level_for_status status) /\
  forall l, level_ok l ->
    (status_le (Some status) (generation_status (Some l)) <-> l <= ticket_level_for_status status).
Proof.
  assert (level_ok (ticket_level_for_status status)) as Hok.
  { unfold level_ok. destruct status; vm_compute; split; discriminate. }
  assert (status_le (Some status) (generation_status (Some (ticket_level_for_status status)))) as Hs.
  { destruct status; vm_compute; repeat constructor. }
  assert (ticket_level_for_status status = LEVEL_MAX \/
    ~ status_le (Some status) (generation_status (Some (ticket_level_for_status status + 1)))) as Hn.
  { destruct status; vm_compute; intuition lia. }
  split; [done|]. intros l Hl. split.
  - intros Hst. destruct Hn as [->|Hn]; [apply Hl|].
    destruct (Z.le_gt_cases l (ticket_level_for_status status)); [done|]. exfalso. apply Hn.
    etransitivity; [exact Hst|]. unfold level_ok in *. apply generation_status_mono; unfold level_ok; lia.
  - intros Hle. etransitivity; [exact Hs|]. by apply generation_status_mono.
Qed.

(** Tickets are a multiset per position: [add_ticket] adds one occurrence,
    [remove_ticket] removes exactly one when the ticket is present and reports it, and
    changes nothing otherwise; other positions keep their tickets. *)
Theorem tickets_are_a_multiset m p t :
  (forall q, tickets_at (add_ticket m p t) q ≡ₚ
     if decide (q = p) then t :: tickets_at m p else tickets_at m q) /\
  (forall m' found, remove_ticket m p t = (m', found) ->
     (found = true <-> t ∈ tickets_at m p) /\
     (if found then t :: tickets_at m' p ≡ₚ tickets_at m p else m' = m) /\
     forall q, q <> p -> tickets_at m' q = tickets_at m q).
Proof.
  split.
  - intros q. rewrite tickets_at_add. case_decide; [|done]. by rewrite Permutation_app_comm.
  - intros m' found [Hq Hp]%tickets_at_remove. destruct found.
    + split_and!; [|done|done]. split; [|done]. intros _. rewrite <- Hp. left.
    + destruct Hp as [-> Ht]. split_and!; done.
Qed.

Lemma tickets_are_a_multiset_witness :
  tickets_at (fst (remove_ticket example_manager (mkChunkPos 3 1) (mkTicket 139 (Some 128))))
    (mkChunkPos 0 0) = tickets_at example_manager (mkChunkPos 0 0).
Proof.
  exact (proj2 (proj2 (proj2 (tickets_are_a_multiset example_manager (mkChunkPos 3 1)
    (mkTicket 139 (Some 128))) _ _ eq_refl)) (mkChunkPos 0 0) ltac:(discriminate)).
Defined.
