(* ===== verification/ChunkScheduler.v ===== *)
(** * Chunk scheduling coordinator

    Models [steel-core/src/chunk/chunk_scheduler.rs] (revisions, queued ticket
    operations, [ChunkSchedulingCoordinator]) and the part of
    [steel-core/src/chunk/chunk_map/mod.rs] that drives it ([advance_scheduling],
    [commit_scheduling_epoch], [spawn_scheduling_epoch], [prepare_scheduling_epoch]).
    Every section of the source that runs under one lock, and every atomic access,
    is one step; gameplay threads, the thread that drives the world and the
    background workers interleave freely.  Timings, holder lifecycle and generation
    work do not touch the coordinator and are left out. *)

From S2P Require Import Prelude Positions ChunkPyramid ChunkTickets.

(** ** Revisions and queued operations *)

Abbreviation ChunkTicketRevision := Z.
Definition REVISION_INITIAL : ChunkTicketRevision := 0.

(** [None] is the panic of the assertion on an exhausted counter. *)
Definition ChunkTicketRevision_next (r : ChunkTicketRevision) : option ChunkTicketRevision :=
  if r =? 2 ^ 64 - 1 then None else Some (r + 1).

Inductive ChunkTicketOperation :=
| OpAdd (pos : ChunkPos) (ticket : ChunkTicket)
| OpRemove (pos : ChunkPos) (ticket : ChunkTicket).

Definition ChunkTicketOperation_apply (op : ChunkTicketOperation) (m : ChunkTicketManager)
  : ChunkTicketManager :=
  match op with
  | OpAdd pos ticket => add_ticket m pos ticket
  | OpRemove pos ticket => fst (remove_ticket m pos ticket)
  end.

Record QueuedChunkTicketOperation := mkQueued {
  q_revision : ChunkTicketRevision;
  q_operation : ChunkTicketOperation;
}.

Record PendingChunkTicketOperations := mkPending {
  next_revision : ChunkTicketRevision;
  operations : list QueuedChunkTicketOperation;
  recycled_operations : list QueuedChunkTicketOperation;
}.

Definition Pending_default : PendingChunkTicketOperations := mkPending REVISION_INITIAL [] [].

Definition Pending_push (p : PendingChunkTicketOperations) (op : ChunkTicketOperation)
  : option (PendingChunkTicketOperations * ChunkTicketRevision) :=
  revision ← ChunkTicketRevision_next (next_revision p);
  Some (mkPending revision (operations p ++ [mkQueued revision op]) (recycled_operations p), revision).

Definition Pending_push_batch (p : PendingChunkTicketOperations) (ops : list ChunkTicketOperation)
  : option (PendingChunkTicketOperations * option ChunkTicketRevision) :=
  match ops with
  | [] => Some (p, None)
  | first :: rest =>
      revision ← ChunkTicketRevision_next (next_revision p);
      Some (mkPending revision
              ((operations p ++ [mkQueued revision first]) ++ (mkQueued revision <$> rest))
              (recycled_operations p), Some revision)
  end.

Definition Pending_take (p : PendingChunkTicketOperations)
  : PendingChunkTicketOperations * list QueuedChunkTicketOperation :=
  (mkPending (next_revision p) (recycled_operations p) [], operations p).

Definition Pending_recycle (p : PendingChunkTicketOperations)
  (ops : list QueuedChunkTicketOperation) : PendingChunkTicketOperations :=
  mkPending (next_revision p) (operations p) [].

(** ** The coordinator *)

Record PreparedChunkSchedulingEpoch := mkEpoch {
  ep_ticket_manager : ChunkTicketManager;
  ep_applied_revision : ChunkTicketRevision;
  ep_changes : list LevelChange;
}.

Inductive ChunkSchedulingState :=
| StateIdle (m : ChunkTicketManager) (r : ChunkTicketRevision)
| StateRunning
| StateReady (e : PreparedChunkSchedulingEpoch).

Inductive ChunkSchedulingBoundaryStep :=
| BoundaryRunning
| BoundaryStart (m : ChunkTicketManager) (r : ChunkTicketRevision)
| BoundaryCommit (e : PreparedChunkSchedulingEpoch).

Record ChunkSchedulingCoordinator := mkCoordinator {
  pending_ticket_operations : PendingChunkTicketOperations;
  co_state : ChunkSchedulingState;
  committed_revision : ChunkTicketRevision;
}.

Definition Coordinator_new (m : ChunkTicketManager) : ChunkSchedulingCoordinator :=
  mkCoordinator Pending_default (StateIdle m REVISION_INITIAL) REVISION_INITIAL.

Definition set_pending (c : ChunkSchedulingCoordinator) (p : PendingChunkTicketOperations)
  : ChunkSchedulingCoordinator := mkCoordinator p (co_state c) (committed_revision c).

Definition queue_ticket_operation (c : ChunkSchedulingCoordinator) (op : ChunkTicketOperation)
  : option (ChunkSchedulingCoordinator * ChunkTicketRevision) :=
  '(p, r) ← Pending_push (pending_ticket_operations c) op; Some (set_pending c p, r).

Definition queue_ticket_operations (c : ChunkSchedulingCoordinator)
  (ops : list ChunkTicketOperation)
  : option (ChunkSchedulingCoordinator * option ChunkTicketRevision) :=
  '(p, r) ← Pending_push_batch (pending_ticket_operations c) ops; Some (set_pending c p, r).

(** The loop body of [apply_pending_ticket_operations]. *)
Definition apply_queued (mr : ChunkTicketManager * ChunkTicketRevision)
  (q : QueuedChunkTicketOperation) : ChunkTicketManager * ChunkTicketRevision :=
  (ChunkTicketOperation_apply (q_operation q) (fst mr), q_revision q).

Definition apply_pending_ticket_operations (c : ChunkSchedulingCoordinator)
  (m : ChunkTicketManager) (applied : ChunkTicketRevision)
  : ChunkSchedulingCoordinator * ChunkTicketManager * ChunkTicketRevision :=
  let '(p, ops) := Pending_take (pending_ticket_operations c) in
  let '(m, latest) := foldl apply_queued (m, applied) ops in
  (set_pending c (Pending_recycle p []), m, latest).

Definition take_boundary_step (c : ChunkSchedulingCoordinator)
  : ChunkSchedulingCoordinator * ChunkSchedulingBoundaryStep :=
  (mkCoordinator (pending_ticket_operations c) StateRunning (committed_revision c),
   match co_state c with
   | StateIdle m r => BoundaryStart m r
   | StateRunning => BoundaryRunning
   | StateReady e => BoundaryCommit e
   end).

(** [None] is the panic of the assertion on the state. *)
Definition finish_epoch (c : ChunkSchedulingCoordinator) (e : PreparedChunkSchedulingEpoch)
  : option ChunkSchedulingCoordinator :=
  match co_state c with
  | StateRunning =>
      Some (mkCoordinator (pending_ticket_operations c) (StateReady e) (committed_revision c))
  | _ => None
  end.

Definition publish_committed_revision (c : ChunkSchedulingCoordinator) (r : ChunkTicketRevision)
  : ChunkSchedulingCoordinator := mkCoordinator (pending_ticket_operations c) (co_state c) r.

Definition is_revision_committed (c : ChunkSchedulingCoordinator) (r : ChunkTicketRevision) : bool :=
  r <=? committed_revision c.

(** ** The threads *)

(** The ticket part of [prepare_scheduling_epoch] after the queued operations. *)
Definition propagate_epoch (m : ChunkTicketManager) (r : ChunkTicketRevision)
  : PreparedChunkSchedulingEpoch :=
  let '(m, changes) := take_changes (run_all_updates m) in mkEpoch m r changes.

(** Program points of a background worker. *)
Inductive worker :=
| WorkerStart (m : ChunkTicketManager) (r : ChunkTicketRevision)
| WorkerApply (m : ChunkTicketManager) (r : ChunkTicketRevision)
    (todo : list QueuedChunkTicketOperation)
| WorkerPropagate (m : ChunkTicketManager) (r : ChunkTicketRevision)
| WorkerFinish (e : PreparedChunkSchedulingEpoch).

(** Program points of the thread that drives the world. *)
Inductive driver :=
| DriverIdle
| DriverCommit (e : PreparedChunkSchedulingEpoch)
| DriverSpawn (m : ChunkTicketManager) (r : ChunkTicketRevision).

(** [sys_log] lists everything that was ever queued and [sys_delivered] the level changes
    handed to committed epochs; no step reads either. *)
Record system := mkSystem {
  sys_coordinator : ChunkSchedulingCoordinator;
  sys_driver : driver;
  sys_workers : list worker;
  sys_log : list QueuedChunkTicketOperation;
  sys_delivered : list LevelChange;
}.

(** One step of a worker; [None] for a panic, no worker left when it ended.  Between
    propagating and finishing, [prepare_scheduling_epoch] also schedules generation and runs
    the unload pass; these touch neither the coordinator nor the ticket manager, are modelled
    in [ChunkGeneration] and [ChunkMap], and when they return change nothing here. *)
Definition worker_run (c : ChunkSchedulingCoordinator) (w : worker)
  : option (ChunkSchedulingCoordinator * list worker) :=
  match w with
  | WorkerStart m r =>
      let '(p, ops) := Pending_take (pending_ticket_operations c) in
      Some (set_pending c p, [WorkerApply m r ops])
  | WorkerApply m r (q :: todo) =>
      let '(m, r) := apply_queued (m, r) q in Some (c, [WorkerApply m r todo])
  | WorkerApply m r [] =>
      Some (set_pending c (Pending_recycle (pending_ticket_operations c) []), [WorkerPropagate m r])
  | WorkerPropagate m r => Some (c, [WorkerFinish (propagate_epoch m r)])
  | WorkerFinish e => c' ← finish_epoch c e; Some (c', [])
  end.

(** [advance_scheduling] up to its first action after the boundary step. *)
Definition driver_of_boundary (b : ChunkSchedulingBoundaryStep) : driver :=
  match b with
  | BoundaryRunning => DriverIdle
  | BoundaryStart m r => DriverSpawn m r
  | BoundaryCommit e => DriverCommit e
  end.

Definition op_ok (op : ChunkTicketOperation) : Prop :=
  match op with
  | OpAdd p t => source_ok p /\ ticket_ok t
  | OpRemove _ _ => True
  end.

Inductive system_step : system -> system -> Prop :=
| sys_queue c d ws log del op c' r :
    op_ok op -> queue_ticket_operation c op = Some (c', r) ->
    system_step (mkSystem c d ws log del) (mkSystem c' d ws (log ++ [mkQueued r op]) del)
| sys_queue_batch c d ws log del ops c' r :
    Forall op_ok ops -> queue_ticket_operations c ops = Some (c', Some r) ->
    system_step (mkSystem c d ws log del) (mkSystem c' d ws (log ++ (mkQueued r <$> ops)) del)
| sys_queue_empty c d ws log del c' :
    queue_ticket_operations c [] = Some (c', None) ->
    system_step (mkSystem c d ws log del) (mkSystem c' d ws log del)
| sys_boundary c ws log del c' b :
    take_boundary_step c = (c', b) ->
    system_step (mkSystem c DriverIdle ws log del) (mkSystem c' (driver_of_boundary b) ws log del)
| sys_commit c ws log del e :
    system_step (mkSystem c (DriverCommit e) ws log del)
      (mkSystem (publish_committed_revision c (ep_applied_revision e))
         (DriverSpawn (recycle_changes (ep_ticket_manager e) []) (ep_applied_revision e))
         ws log (del ++ ep_changes e))
| sys_spawn c ws log del m r :
    system_step (mkSystem c (DriverSpawn m r) ws log del)
      (mkSystem c DriverIdle (WorkerStart m r :: ws) log del)
| sys_worker c d ws1 w ws2 log del c' ws' :
    worker_run c w = Some (c', ws') ->
    system_step (mkSystem c d (ws1 ++ w :: ws2) log del) (mkSystem c' d (ws1 ++ ws' ++ ws2) log del).

(** ** Replaying level changes *)

Abbreviation level_maps :=
  (gmap ChunkPos ChunkTicketLevel * gmap ChunkPos ChunkTicketLevel)%type.

Definition set_level (p : ChunkPos) (o : option ChunkTicketLevel)
  (m : gmap ChunkPos ChunkTicketLevel) : gmap ChunkPos ChunkTicketLevel :=
  match o with
  | Some l => <[p := l]> m
  | None => delete p m
  end.

(** What a consumer that applies every change knows of the levels. *)
Definition replay_change (lv : level_maps) (c : LevelChange) : level_maps :=
  (set_level (ch_pos c) (ch_new_level c) (fst lv),
   set_level (ch_pos c) (ch_new_simulation_level c) (snd lv)).

Definition replay (cs : list LevelChange) : level_maps := foldl replay_change (∅, ∅) cs.

Lemma set_level_lookup p o m q : set_level p o m !! q = if decide (q = p) then o else m !! q.
Proof.
  unfold set_level. case_decide as E; [subst; destruct o; by simplify_map_eq|].
  destruct o; by simplify_map_eq.
Qed.

Lemma replay_change_untouched cs lv p :
  p ∉ (ch_pos <$> cs) ->
  fst (foldl replay_change lv cs) !! p = fst lv !! p /\
  snd (foldl replay_change lv cs) !! p = snd lv !! p.
Proof.
  revert lv. induction cs as [|c cs IH]; intros lv; [done|]. simpl.
  rewrite not_elem_of_cons. intros [Hne Hn]. destruct (IH (replay_change lv c) Hn) as [-> ->].
  simpl. by rewrite !set_level_lookup, !decide_False by done.
Qed.

Lemma replay_change_touched cs lv c :
  NoDup (ch_pos <$> cs) -> c ∈ cs ->
  fst (foldl replay_change lv cs) !! ch_pos c = ch_new_level c /\
  snd (foldl replay_change lv cs) !! ch_pos c = ch_new_simulation_level c.
Proof.
  revert lv. induction cs as [|x cs IH]; intros lv Hnd Hc; [by apply elem_of_nil in Hc|].
  simpl in *. apply NoDup_cons in Hnd as [Hx Hnd].
  apply elem_of_cons in Hc as [->|Hc]; [|by apply IH].
  destruct (replay_change_untouched cs (replay_change lv x) (ch_pos x) Hx) as [-> ->].
  simpl. by rewrite !set_level_lookup, !decide_True by done.
Qed.

(** Replaying the changes of a pass turns the old levels into the new ones. *)
Lemma replay_run m :
  manager_inv m ->
  foldl replay_change (levels m, simulation_levels m) (changes (run_all_updates m)) =
    (levels (run_all_updates m), simulation_levels (run_all_updates m)).
Proof.
  intros Hinv. destruct (run_all_updates_diff m Hinv) as [Hnd Hc].
  unfold get_level, get_simulation_level in Hc.
  set (m' := run_all_updates m) in *. set (lv := (levels m, simulation_levels m)).
  assert (forall p, fst (foldl replay_change lv (changes m')) !! p = levels m' !! p /\
                    snd (foldl replay_change lv (changes m')) !! p = simulation_levels m' !! p) as H.
  { intros p. destruct (decide (p ∈ (ch_pos <$> changes m'))) as [Hin|Hout].
    - apply list_elem_of_fmap in Hin as (c & -> & Hin).
      destruct (replay_change_touched _ lv c Hnd Hin) as [-> ->].
      apply Hc in Hin as (p & -> & _). done.
    - destruct (replay_change_untouched _ lv p Hout) as [-> ->]. simpl.
      assert (~ (levels m !! p <> levels m' !! p \/
                 simulation_levels m !! p <> simulation_levels m' !! p)) as Hn.
      { intros Hd. apply Hout, list_elem_of_fmap. eexists. split; [|apply Hc; eexists; by split].
        done. }
      destruct (decide (levels m !! p = levels m' !! p)),
        (decide (simulation_levels m !! p = simulation_levels m' !! p)); naive_solver. }
  destruct (foldl replay_change lv (changes m')) as [a b]. simpl in H.
  f_equal; apply map_eq; intros p; apply H.
Qed.

(** ** Revisions of a log *)

Definition last_revision (l : list QueuedChunkTicketOperation) : ChunkTicketRevision :=
  foldl (fun _ q => q_revision q) REVISION_INITIAL l.

Definition revisions_sorted (l : list QueuedChunkTicketOperation) : Prop :=
  StronglySorted Z.le (q_revision <$> l).

Lemma last_revision_snoc l q : last_revision (l ++ [q]) = q_revision q.
Proof. unfold last_revision. by rewrite foldl_app. Qed.

Lemma last_revision_cases l :
  (l = [] /\ last_revision l = REVISION_INITIAL) \/ exists q, q ∈ l /\ last_revision l = q_revision q.
Proof.
  destruct l as [|x l] using rev_ind; [by left|right]. exists x. rewrite last_revision_snoc.
  split; [|done]. apply elem_of_app. right. left.
Qed.

Lemma last_revision_max l q : revisions_sorted l -> q ∈ l -> q_revision q <= last_revision l.
Proof.
  unfold revisions_sorted. destruct l as [|x l _] using rev_ind; [by intros _ ?%elem_of_nil|].
  rewrite last_revision_snoc, fmap_app. intros Hs [Hq|Hq]%elem_of_app.
  - apply StronglySorted_app in Hs as (H & _ & _). apply H; [by apply list_elem_of_fmap_2|left].
  - apply list_elem_of_singleton in Hq as ->. done.
Qed.

Lemma filter_split (P : QueuedChunkTicketOperation -> Prop) `{!forall q, Decision (P q)} l1 l2 :
  (forall q, q ∈ l1 -> P q) -> (forall q, q ∈ l2 -> ~ P q) -> filter P (l1 ++ l2) = l1.
Proof.
  intros H1 H2. rewrite filter_app.
  assert (filter P l2 = []) as ->.
  { induction l2 as [|q l2 IH]; [done|]. rewrite filter_cons_False by (apply H2; left).
    apply IH. intros x Hx. apply H2. by right. }
  rewrite app_nil_r. induction l1 as [|q l1 IH]; [done|].
  rewrite filter_cons_True by (apply H1; left). f_equal. apply IH. intros x Hx. apply H1. by right.
Qed.

(** ** Invariant of the threads *)

Section System.
(** The manager the coordinator is created with: tickets may be there, no level is
    propagated yet. *)
Context (M0 : ChunkTicketManager).

Definition initial_manager : Prop :=
  manager_inv M0 /\ levels M0 = ∅ /\ simulation_levels M0 = ∅.

Definition system_init : system := mkSystem (Coordinator_new M0) DriverIdle [] [] [].

Definition system_reachable (s : system) : Prop := rtc system_step system_init s.

(** The manager after the operations [l], in order. *)
Definition apply_log (l : list QueuedChunkTicketOperation) : ChunkTicketManager :=
  foldl (fun m q => ChunkTicketOperation_apply (q_operation q) m) M0 l.

(** [m] at revision [r] holds the effect of [done_] and the levels delivered so far. *)
Record manager_holds (m : ChunkTicketManager) (r : ChunkTicketRevision)
  (done_ : list QueuedChunkTicketOperation) (lv : level_maps) : Prop := {
  holds_inv : manager_inv m;
  holds_tickets : tickets m = tickets (apply_log done_);
  holds_revision : r = last_revision done_;
  holds_levels : (levels m, simulation_levels m) = lv;
}.

Definition epoch_holds (e : PreparedChunkSchedulingEpoch)
  (done_ : list QueuedChunkTicketOperation) (lv : level_maps) : Prop :=
  manager_holds (ep_ticket_manager e) (ep_applied_revision e) done_
    (foldl replay_change lv (ep_changes e)) /\
  dirty (ep_ticket_manager e) = false.

(** Exactly one place owns the ticket manager: the coordinator, the driver or the one
    worker; [inflight] is what the worker took and did not apply yet. *)
Definition owner (c : ChunkSchedulingCoordinator) (d : driver) (ws : list worker)
  (done_ inflight : list QueuedChunkTicketOperation) (lv : level_maps) : Prop :=
  match co_state c, d, ws with
  | StateIdle m r, DriverIdle, [] | StateRunning, DriverSpawn m r, []
  | StateRunning, DriverIdle, [WorkerStart m r]
  | StateRunning, DriverIdle, [WorkerPropagate m r] => manager_holds m r done_ lv /\ inflight = []
  | StateReady e, DriverIdle, [] | StateRunning, DriverCommit e, []
  | StateRunning, DriverIdle, [WorkerFinish e] => epoch_holds e done_ lv /\ inflight = []
  | StateRunning, DriverIdle, [WorkerApply m r todo] => manager_holds m r done_ lv /\ inflight = todo
  | _, _, _ => False
  end.

(** The committed part [cp] of the log: its revisions are those up to the published one,
    and once something was committed the delivered levels are its least levels. *)
Definition committed_part (c : ChunkSchedulingCoordinator)
  (cp rest : list QueuedChunkTicketOperation) (lv : level_maps) : Prop :=
  (forall q, q ∈ cp -> q_revision q <= committed_revision c) /\
  (forall q, q ∈ rest -> committed_revision c < q_revision q) /\
  0 <= committed_revision c <= next_revision (pending_ticket_operations c) /\
  committed_revision c = last_revision cp /\
  (0 < committed_revision c -> forall p,
     is_least (load_reach (apply_log cp) p) (fst lv !! p) /\
     is_least (simulation_reach (apply_log cp) p) (snd lv !! p)).

Record system_inv (s : system) : Prop := {
  si_recycled : recycled_operations (pending_ticket_operations (sys_coordinator s)) = [];
  si_sorted : revisions_sorted (sys_log s);
  si_bounds q : q ∈ sys_log s ->
    0 < q_revision q <= next_revision (pending_ticket_operations (sys_coordinator s));
  si_ops : Forall (fun q => op_ok (q_operation q)) (sys_log s);
  si_next : 0 <= next_revision (pending_ticket_operations (sys_coordinator s));
  si_parts : exists cp newer inflight,
    let pend := operations (pending_ticket_operations (sys_coordinator s)) in
    sys_log s = cp ++ newer ++ inflight ++ pend /\
    (forall q q', q ∈ cp ++ newer ++ inflight -> q' ∈ pend -> q_revision q < q_revision q') /\
    owner (sys_coordinator s) (sys_driver s) (sys_workers s) (cp ++ newer) inflight
      (replay (sys_delivered s)) /\
    committed_part (sys_coordinator s) cp (newer ++ inflight ++ pend) (replay (sys_delivered s));
}.

Lemma apply_tickets op m m' :
  tickets m = tickets m' ->
  tickets (ChunkTicketOperation_apply op m) = tickets (ChunkTicketOperation_apply op m').
Proof.
  intros E. destruct op as [p t|p t]; simpl; [by rewrite E|].
  unfold remove_ticket. rewrite E. by repeat case_match.
Qed.

Lemma apply_inv op m : op_ok op -> manager_inv m -> manager_inv (ChunkTicketOperation_apply op m).
Proof.
  intros Hok Hm. destruct op as [p t|p t]; simpl in *.
  - destruct Hok. by apply (manager_step_inv m _ (step_add m p t ltac:(done) ltac:(done))).
  - by apply (manager_step_inv m _ (step_remove m p t)).
Qed.

Lemma apply_levels op m :
  levels (ChunkTicketOperation_apply op m) = levels m /\
  simulation_levels (ChunkTicketOperation_apply op m) = simulation_levels m.
Proof. destruct op as [p t|p t]; simpl; [done|]. unfold remove_ticket. by repeat case_match. Qed.

Lemma apply_log_snoc l q :
  apply_log (l ++ [q]) = ChunkTicketOperation_apply (q_operation q) (apply_log l).
Proof. unfold apply_log. by rewrite foldl_app. Qed.

Lemma manager_holds_apply m r q done_ lv :
  op_ok (q_operation q) -> manager_holds m r done_ lv ->
  manager_holds (fst (apply_queued (m, r) q)) (snd (apply_queued (m, r) q)) (done_ ++ [q]) lv.
Proof.
  intros Hok [Hi Ht Hr Hl]. simpl. split.
  - by apply apply_inv.
  - rewrite apply_log_snoc. by apply apply_tickets.
  - by rewrite last_revision_snoc.
  - destruct (apply_levels (q_operation q) m) as [-> ->]. done.
Qed.

Lemma manager_holds_propagate m r done_ lv :
  manager_holds m r done_ lv -> epoch_holds (propagate_epoch m r) done_ lv.
Proof.
  intros [Hi Ht Hr Hl]. destruct (run_all_updates_tickets m) as [Et Ed].
  unfold propagate_epoch, epoch_holds. simpl. split; [|done]. split; simpl.
  - apply (manager_step_inv (run_all_updates m) _ (step_take _)). by apply manager_inv_run.
  - by rewrite Et.
  - done.
  - rewrite <- Hl. by rewrite replay_run.
Qed.

Lemma manager_holds_recycle m r done_ lv b :
  manager_holds m r done_ lv -> manager_holds (recycle_changes m b) r done_ lv.
Proof.
  intros [Hi Ht Hr Hl]. split; [|done..]. by apply (manager_step_inv m _ (step_recycle m b)).
Qed.

(** The levels of a clean manager are least for the operations it holds. *)
Lemma clean_levels_least m r done_ lv :
  manager_holds m r done_ lv -> dirty m = false -> forall p,
    is_least (load_reach (apply_log done_) p) (fst lv !! p) /\
    is_least (simulation_reach (apply_log done_) p) (snd lv !! p).
Proof.
  intros [Hi Ht Hr <-] Hd p. pose proof (inv_levels m Hi Hd p) as H.
  unfold load_reach, simulation_reach, tickets_at in *. by rewrite Ht in H.
Qed.

(** Queueing a batch under a fresh revision. *)
Lemma system_inv_enqueue c d ws log del ops p' :
  let p := pending_ticket_operations c in
  let new := mkQueued (next_revision p + 1) <$> ops in
  p' = mkPending (next_revision p + 1) (operations p ++ new) (recycled_operations p) ->
  Forall op_ok ops ->
  system_inv (mkSystem c d ws log del) ->
  system_inv (mkSystem (set_pending c p') d ws (log ++ new) del).
Proof.
  intros p new -> Hok [Hrec Hsort Hb Hops Hn (cp & newer & inflight & Hlog & Hlt & Hown & Hcp)].
  simpl in *. fold p in Hrec, Hb, Hn, Hlog, Hlt, Hcp.
  assert (forall q, q ∈ new -> q_revision q = next_revision p + 1) as Hnew.
  { intros q (op & -> & _)%list_elem_of_fmap. done. }
  split; simpl.
  - done.
  - unfold revisions_sorted. rewrite fmap_app, StronglySorted_app. split_and!; [|done|].
    + intros x y (q & -> & Hq)%list_elem_of_fmap (q' & -> & Hq')%list_elem_of_fmap.
      rewrite (Hnew q' Hq'). specialize (Hb q Hq). lia.
    + clear. subst new. induction ops as [|op ops IH]; simpl; constructor; [done|].
      apply Forall_forall. intros x (q & -> & (op' & -> & _)%list_elem_of_fmap)%list_elem_of_fmap. done.
  - intros q [Hq|Hq]%elem_of_app; [specialize (Hb q Hq); lia|]. rewrite (Hnew q Hq). lia.
  - apply Forall_app. split; [done|]. subst new. by apply Forall_fmap.
  - lia.
  - exists cp, newer, inflight. split_and!.
    + rewrite Hlog. by rewrite <- !app_assoc.
    + intros q q' Hq [Hq'|Hq']%elem_of_app; [by apply Hlt|]. rewrite (Hnew q' Hq').
      assert (q ∈ log) as Hin by (rewrite Hlog, !app_assoc; apply elem_of_app; left;
                                  by rewrite <- app_assoc). specialize (Hb q Hin). lia.
    + exact Hown.
    + destruct Hcp as (H1 & H2 & H3 & H4 & H5). fold p in H3.
      split_and!; [done| |simpl; lia|simpl; lia|done|done].
      intros q. rewrite !app_assoc. intros [Hq|Hq]%elem_of_app.
      * apply H2. by rewrite !app_assoc.
      * rewrite (Hnew q Hq). simpl. lia.
Qed.

Lemma system_inv_boundary c ws log del c' b :
  take_boundary_step c = (c', b) ->
  system_inv (mkSystem c DriverIdle ws log del) ->
  system_inv (mkSystem c' (driver_of_boundary b) ws log del).
Proof.
  intros [= <- <-] [Hrec Hsort Hb Hops Hn (cp & newer & inflight & Hlog & Hlt & Hown & Hcp)].
  split; simpl in *; try done. exists cp, newer, inflight. split_and!; [done|done| |exact Hcp].
  unfold owner in *. simpl in *. destruct (co_state c); simpl; [|done|].
  all: by destruct ws.
Qed.

Lemma system_inv_commit c ws log del e :
  system_inv (mkSystem c (DriverCommit e) ws log del) ->
  system_inv (mkSystem (publish_committed_revision c (ep_applied_revision e))
    (DriverSpawn (recycle_changes (ep_ticket_manager e) []) (ep_applied_revision e))
    ws log (del ++ ep_changes e)).
Proof.
  intros [Hrec Hsort Hb Hops Hn (cp & newer & inflight & Hlog & Hlt & Hown & Hcp)].
  simpl in *. unfold owner in Hown. simpl in Hown.
  destruct (co_state c) eqn:Hst; try done. destruct ws; [|done].
  destruct Hown as [[Hholds Hdirty] ->]. rewrite app_nil_l in Hlog. rewrite app_nil_r in Hlt.
  assert (replay (del ++ ep_changes e) = foldl replay_change (replay del) (ep_changes e)) as Hrep.
  { unfold replay. by rewrite foldl_app. }
  assert (forall q, q ∈ cp ++ newer -> q ∈ log) as Hin.
  { intros q Hq. rewrite Hlog, app_assoc. apply elem_of_app. by left. }
  assert (revisions_sorted (cp ++ newer)) as Hs.
  { unfold revisions_sorted in *. rewrite Hlog, app_assoc, fmap_app in Hsort.
    apply StronglySorted_app in Hsort. apply Hsort. }
  pose proof (holds_revision _ _ _ _ Hholds) as Hr.
  split; simpl; try done. exists (cp ++ newer), [], []. split_and!.
  - by rewrite Hlog, <- app_assoc.
  - rewrite !app_nil_r. exact Hlt.
  - unfold owner. simpl. rewrite Hst, app_nil_r, Hrep. split; [|done]. by apply manager_holds_recycle.
  - rewrite Hrep. simpl. split_and!.
    + intros q Hq. simpl. rewrite Hr. by apply last_revision_max.
    + intros q Hq. simpl. rewrite Hr.
      destruct (last_revision_cases (cp ++ newer)) as [[_ ->]|(q' & Hq' & ->)].
      * assert (q ∈ log) as Hq' by (rewrite Hlog; apply elem_of_app; right; apply elem_of_app; by right).
        unfold REVISION_INITIAL. specialize (Hb q Hq'). lia.
      * by apply Hlt.
    + simpl. rewrite Hr. destruct (last_revision_cases (cp ++ newer)) as [[_ ->]|(q' & Hq' & ->)].
      * unfold REVISION_INITIAL. lia.
      * specialize (Hb q' (Hin q' Hq')). lia.
    + simpl. rewrite Hr. destruct (last_revision_cases (cp ++ newer)) as [[_ ->]|(q' & Hq' & ->)].
      * unfold REVISION_INITIAL. lia.
      * specialize (Hb q' (Hin q' Hq')). lia.
    + done.
    + intros _. by eapply clean_levels_least.
Qed.

Lemma owner_worker c d ws1 w ws2 done_ inflight lv :
  owner c d (ws1 ++ w :: ws2) done_ inflight lv ->
  co_state c = StateRunning /\ d = DriverIdle /\ ws1 = [] /\ ws2 = [].
Proof.
  unfold owner. intros H. destruct ws1 as [|w1 ws1]; simpl in H.
  - destruct (co_state c); try done; destruct d; try done; destruct w, ws2; done.
  - destruct (co_state c); try done; destruct d; try done; destruct w1; try done;
      destruct ws1; done.
Qed.

Lemma system_inv_worker c d ws1 w ws2 log del c' ws' :
  worker_run c w = Some (c', ws') ->
  system_inv (mkSystem c d (ws1 ++ w :: ws2) log del) ->
  system_inv (mkSystem c' d (ws1 ++ ws' ++ ws2) log del).
Proof.
  intros Hrun [Hrec Hsort Hb Hops Hn (cp & newer & inflight & Hlog & Hlt & Hown & Hcp)].
  simpl in *. destruct (owner_worker _ _ _ _ _ _ _ _ Hown) as (Hst & -> & -> & ->). simpl in *.
  unfold owner in Hown. rewrite Hst in Hown. destruct w as [m r|m r todo|m r|e]; simpl in Hrun.
  - destruct Hown as [Hh ->]. injection Hrun as <- <-. rewrite app_nil_l in Hlog, Hcp. rewrite app_nil_r in Hlt.
    split; simpl; try done. rewrite Hrec.
    exists cp, newer, (operations (pending_ticket_operations c)). rewrite !app_nil_r. split_and!.
    + done.
    + intros q q' _ Hq'. by apply elem_of_nil in Hq'.
    + unfold owner. simpl. by rewrite Hst.
    + exact Hcp.
  - destruct Hown as [Hh ->]. destruct todo as [|q todo]; injection Hrun as <- <-.
    + split; simpl; try done. exists cp, newer, []. split_and!; [done|done| |exact Hcp].
      unfold owner. simpl. by rewrite Hst.
    + assert (op_ok (q_operation q)) as Hq.
      { rewrite Hlog, !Forall_app, Forall_cons in Hops. apply Hops. }
      split; simpl; try done. exists cp, (newer ++ [q]), todo.
      assert (forall l, cp ++ (newer ++ [q]) ++ l = cp ++ newer ++ q :: l) as Hassoc.
      { intros l. by rewrite <- app_assoc. }
      rewrite !Hassoc. split_and!; [done|done| |].
      * unfold owner. rewrite Hst. split; [|done]. rewrite app_assoc.
        exact (manager_holds_apply m r q _ _ Hq Hh).
      * rewrite <- app_assoc. exact Hcp.
  - destruct Hown as [Hh ->]. injection Hrun as <- <-. split; simpl; try done.
    exists cp, newer, []. split_and!; [done|done| |exact Hcp].
    unfold owner. rewrite Hst. split; [|done]. by apply manager_holds_propagate.
  - unfold finish_epoch in Hrun. rewrite Hst in Hrun. injection Hrun as <- <-. split; simpl; try done.
    exists cp, newer, inflight. split_and!; done.
Qed.

Lemma system_step_inv s s' : system_step s s' -> system_inv s -> system_inv s'.
Proof.
  intros Hstep Hinv. destruct Hstep as [c d ws log del op c' r Hok E|c d ws log del ops c' r Hok E
    |c d ws log del c' E|c ws log del c' b E|c ws log del e|c ws log del m r|c d ws1 w ws2 log del c' ws' E].
  - unfold queue_ticket_operation, Pending_push, ChunkTicketRevision_next in E.
    destruct (_ =? _) in E; simplify_eq/=.
    apply (system_inv_enqueue c d ws log del [op] _ eq_refl); [by constructor|done].
  - unfold queue_ticket_operations, Pending_push_batch, ChunkTicketRevision_next in E.
    destruct ops as [|op ops]; simplify_eq/=. destruct (_ =? _) in E; simplify_eq/=.
    refine (system_inv_enqueue c d ws log del (op :: ops) _ _ Hok Hinv). by rewrite <- app_assoc.
  - destruct c. injection E as <-. exact Hinv.
  - by eapply system_inv_boundary.
  - by apply system_inv_commit.
  - destruct Hinv as [Hrec Hsort Hb Hops Hn (cp & newer & inflight & Hlog & Hlt & Hown & Hcp)].
    split; simpl in *; try done. exists cp, newer, inflight. split_and!; [done|done| |done].
    unfold owner in *. destruct (co_state c); by try destruct ws.
  - by eapply system_inv_worker.
Qed.

Lemma system_reachable_inv s : initial_manager -> system_reachable s -> system_inv s.
Proof.
  intros (Hm & Hl & Hs). apply (rtc_ind_r system_inv system_init).
  - split; simpl; try done.
    + constructor.
    + intros q Hq. by apply elem_of_nil in Hq.
    + assert (forall q : QueuedChunkTicketOperation, q ∈ [] -> False) as Hnil.
      { intros q Hq. by apply elem_of_nil in Hq. }
      exists [], [], []. split; [done|]. split; [|split].
      * intros q q' Hq. by destruct (Hnil q).
      * unfold owner. simpl. split; [|done]. split; [done|done|done|]. by rewrite Hl, Hs.
      * split; [intros q Hq; by destruct (Hnil q)|]. split; [intros q Hq; by destruct (Hnil q)|].
        split; [done|]. split; [done|]. by intros H.
  - intros s1 s2 _ H. by apply system_step_inv.
Qed.

(** ** Progress *)

(** A step that queues nothing. *)
Definition quiet_step (s s' : system) : Prop := system_step s s' /\ sys_log s' = sys_log s.

Lemma quiet_once c d ws log del c' d' ws' del' :
  system_step (mkSystem c d ws log del) (mkSystem c' d' ws' log del') ->
  rtc quiet_step (mkSystem c d ws log del) (mkSystem c' d' ws' log del').
Proof. intros H. apply rtc_once. by split. Qed.

(** A single worker takes one step. *)
Lemma quiet_worker c w log del c' ws' :
  worker_run c w = Some (c', ws') ->
  rtc quiet_step (mkSystem c DriverIdle [w] log del) (mkSystem c' DriverIdle ws' log del).
Proof.
  intros H. apply quiet_once. pose proof (sys_worker c DriverIdle [] w [] log del c' ws' H) as Hs.
  simpl in Hs. by rewrite app_nil_r in Hs.
Qed.

Lemma quiet_apply c m r todo log del :
  rtc quiet_step (mkSystem c DriverIdle [WorkerApply m r todo] log del)
    (mkSystem c DriverIdle [WorkerApply (fst (foldl apply_queued (m, r) todo))
       (snd (foldl apply_queued (m, r) todo)) []] log del).
Proof.
  revert m r. induction todo as [|q todo IH]; intros m r; [constructor|].
  etransitivity; [by apply quiet_worker|]. apply IH.
Qed.

(** A prepared epoch is finished, committed and the next one is about to be spawned. *)
Lemma quiet_commit c e log del :
  co_state c = StateReady e ->
  exists c' m' del', rtc quiet_step (mkSystem c DriverIdle [] log del)
    (mkSystem c' (DriverSpawn m' (ep_applied_revision e)) [] log del') /\
    co_state c' = StateRunning /\ committed_revision c' = ep_applied_revision e /\
    pending_ticket_operations c' = pending_ticket_operations c.
Proof.
  intros Hst. eexists _, _, _. split.
  - etransitivity; [apply quiet_once, sys_boundary; reflexivity|]. rewrite Hst. simpl.
    apply quiet_once, sys_commit.
  - done.
Qed.

Lemma quiet_finish c m r log del :
  co_state c = StateRunning ->
  exists c' m' del', rtc quiet_step (mkSystem c DriverIdle [WorkerPropagate m r] log del)
    (mkSystem c' (DriverSpawn m' r) [] log del') /\
    co_state c' = StateRunning /\ committed_revision c' = r /\
    pending_ticket_operations c' = pending_ticket_operations c.
Proof.
  intros Hst.
  pose (c1 := mkCoordinator (pending_ticket_operations c) (StateReady (propagate_epoch m r))
                (committed_revision c)).
  destruct (quiet_commit c1 (propagate_epoch m r) log del eq_refl) as (c' & m' & del' & H & Hc).
  exists c', m', del'. split; [|exact Hc].
  etransitivity; [by apply quiet_worker|]. etransitivity; [|exact H].
  apply quiet_worker. simpl. unfold finish_epoch. by rewrite Hst.
Qed.

(** From a spawn, one whole epoch runs and commits everything that was pending. *)
Lemma quiet_cycle c m r log del :
  co_state c = StateRunning ->
  exists c' m' del', rtc quiet_step (mkSystem c (DriverSpawn m r) [] log del)
    (mkSystem c' (DriverSpawn m'
       (snd (foldl apply_queued (m, r) (operations (pending_ticket_operations c))))) [] log del') /\
    committed_revision c' =
      snd (foldl apply_queued (m, r) (operations (pending_ticket_operations c))).
Proof.
  intros Hst. set (ops := operations (pending_ticket_operations c)).
  set (p1 := fst (Pending_take (pending_ticket_operations c))).
  set (c2 := set_pending (set_pending c p1) (Pending_recycle p1 [])).
  destruct (quiet_finish c2 (fst (foldl apply_queued (m, r) ops))
    (snd (foldl apply_queued (m, r) ops)) log del Hst) as (c' & m' & del' & H & _ & Hc & _).
  exists c', m', del'. split; [|exact Hc].
  etransitivity; [apply quiet_once, sys_spawn|].
  etransitivity; [by apply quiet_worker|]. etransitivity; [apply quiet_apply|].
  etransitivity; [|exact H]. by apply quiet_worker.
Qed.

(** Every state that satisfies the invariant can reach a spawn. *)
Lemma quiet_to_spawn s :
  system_inv s ->
  exists c m r del, rtc quiet_step s (mkSystem c (DriverSpawn m r) [] (sys_log s) del) /\
    co_state c = StateRunning.
Proof.
  intros Hinv. destruct Hinv as [_ _ _ _ _ (cp & newer & inflight & _ & _ & Hown & _)].
  destruct s as [c d ws log del]. simpl in *. unfold owner in Hown.
  assert (forall e, co_state c = StateReady e ->
    exists c' m r del', rtc quiet_step (mkSystem c DriverIdle [] log del)
      (mkSystem c' (DriverSpawn m r) [] log del') /\ co_state c' = StateRunning) as Hready.
  { intros e He. destruct (quiet_commit c e log del He) as (c' & m' & del' & H & Hr & _). eauto 10. }
  assert (forall c m r, co_state c = StateRunning ->
    exists c' m' r' del', rtc quiet_step (mkSystem c DriverIdle [WorkerPropagate m r] log del)
      (mkSystem c' (DriverSpawn m' r') [] log del') /\ co_state c' = StateRunning) as Hprop.
  { intros c1 m r H1. destruct (quiet_finish c1 m r log del H1) as (c' & m' & del' & H & Hr & _).
    eauto 10. }
  destruct (co_state c) as [m r| |e] eqn:Hst.
  - destruct d, ws; try done. exists (fst (take_boundary_step c)), m, r, del. split; [|done].
    pose proof (sys_boundary c [] log del _ _ eq_refl) as H. rewrite Hst in H. by apply quiet_once.
  - destruct d as [|e|m r].
    + destruct ws as [|[m r|m r todo|m r|e] []]; try done.
      * set (p1 := fst (Pending_take (pending_ticket_operations c))).
        destruct (Hprop (set_pending (set_pending c p1) (Pending_recycle p1 []))
          (fst (foldl apply_queued (m, r) (operations (pending_ticket_operations c))))
          (snd (foldl apply_queued (m, r) (operations (pending_ticket_operations c)))) Hst)
          as (c' & m' & r' & del' & H & Hr).
        exists c', m', r', del'. split; [|done]. etransitivity; [by apply quiet_worker|].
        etransitivity; [apply quiet_apply|]. etransitivity; [by apply quiet_worker|]. exact H.
      * destruct (Hprop (set_pending c (Pending_recycle (pending_ticket_operations c) []))
          (fst (foldl apply_queued (m, r) todo)) (snd (foldl apply_queued (m, r) todo)) Hst)
          as (c' & m' & r' & del' & H & Hr).
        exists c', m', r', del'. split; [|done]. etransitivity; [apply quiet_apply|].
        etransitivity; [by apply quiet_worker|]. exact H.
      * by apply Hprop.
      * destruct (quiet_commit (mkCoordinator (pending_ticket_operations c) (StateReady e)
          (committed_revision c)) e log del eq_refl) as (c' & m' & del' & H & Hr & _).
        eexists c', m', _, del'. split; [|done]. etransitivity; [|exact H].
        apply quiet_worker. simpl. unfold finish_epoch. by rewrite Hst.
    + destruct ws; [|done]. eexists _, _, _, _. split; [apply quiet_once, sys_commit|done].
    + destruct ws; [|done]. exists c, m, r, del. split; [constructor|done].
  - destruct d, ws; try done. eauto.
Qed.

Lemma foldl_apply_queued_revision m r ops done_ :
  r = last_revision done_ -> snd (foldl apply_queued (m, r) ops) = last_revision (done_ ++ ops).
Proof.
  revert m r done_. induction ops as [|q ops IH]; intros m r done_ Hr; simpl.
  - by rewrite app_nil_r.
  - change (apply_queued (m, r) q)
      with (ChunkTicketOperation_apply (q_operation q) m, q_revision q).
    rewrite (IH _ _ (done_ ++ [q])); [by rewrite <- app_assoc|]. by rewrite last_revision_snoc.
Qed.

Lemma system_inv_quiet s s' : rtc quiet_step s s' -> system_inv s -> system_inv s'.
Proof.
  induction 1 as [|s1 s2 s3 [H _] _ IH]; [done|]. intros Hi. by eapply IH, system_step_inv.
Qed.

Lemma eventually_committed s :
  system_inv s ->
  exists s', rtc quiet_step s s' /\ sys_log s' = sys_log s /\
    committed_revision (sys_coordinator s') = last_revision (sys_log s).
Proof.
  intros Hinv. destruct (quiet_to_spawn s Hinv) as (c & m & r & del & Hq & Hst).
  destruct (quiet_cycle c m r (sys_log s) del Hst) as (c' & m' & del' & Hq' & Hc).
  pose proof (system_inv_quiet _ _ Hq Hinv)
    as [_ _ _ _ _ (cp & newer & inflight & Hlog & _ & Hown & _)].
  simpl in *. unfold owner in Hown. rewrite Hst in Hown. simpl in Hown. destruct Hown as [Hh ->].
  eexists. split; [etransitivity; [exact Hq|exact Hq']|]. split; [done|]. simpl. rewrite Hc.
  rewrite (foldl_apply_queued_revision m r _ (cp ++ newer)) by apply Hh.
  by rewrite Hlog, <- app_assoc.
Qed.
End System.

(** ** Properties *)

(** A run used by the witnesses: one add and one batch of two are queued, the first epoch
    starts while a fourth operation arrives, and that epoch is finished and committed. *)
Definition example_op (x : Z) : ChunkTicketOperation :=
  OpAdd (mkChunkPos x 0) (ChunkTicket_loading 140).

Lemma example_op_ok x : -100 <= x <= 100 -> op_ok (example_op x).
Proof.
  intros H. split; [split; simpl; lia|]. split; [split; vm_compute; discriminate|done].
Qed.

(** The coordinator, the worker's manager and its epoch along that run. *)
Definition example_queued : list QueuedChunkTicketOperation :=
  [mkQueued 1 (example_op 0); mkQueued 2 (example_op 4);
   mkQueued 2 (OpRemove (mkChunkPos 0 0) (ChunkTicket_loading 140))].

Definition example_epoch : PreparedChunkSchedulingEpoch :=
  let mr := foldl apply_queued (ChunkTicketManager_new, 0) example_queued in
  propagate_epoch (fst mr) (snd mr).

Definition example_system_ready : system :=
  mkSystem (mkCoordinator (mkPending 3 [mkQueued 3 (example_op 9)] []) (StateReady example_epoch) 0)
    DriverIdle [] (example_queued ++ [mkQueued 3 (example_op 9)]) [].

Definition example_system_committed : system :=
  mkSystem (mkCoordinator (mkPending 3 [mkQueued 3 (example_op 9)] []) StateRunning 2)
    (DriverSpawn (recycle_changes (ep_ticket_manager example_epoch) []) 2)
    [] (example_queued ++ [mkQueued 3 (example_op 9)]) (ep_changes example_epoch).

Lemma example_initial : initial_manager ChunkTicketManager_new.
Proof. split; [exact manager_inv_new|done]. Qed.

Ltac sys_next tac := eapply rtc_l; [tac|]; simpl.

Lemma example_ready_reachable : system_reachable ChunkTicketManager_new example_system_ready.
Proof.
  unfold system_reachable, system_init.
  sys_next ltac:(apply (sys_queue _ _ _ _ _ (example_op 0)); [by apply example_op_ok|reflexivity]).
  sys_next ltac:(apply (sys_queue_batch _ _ _ _ _
    [example_op 4; OpRemove (mkChunkPos 0 0) (ChunkTicket_loading 140)]);
    [constructor; [by apply example_op_ok|by constructor]|reflexivity]).
  sys_next ltac:(apply sys_boundary; reflexivity).
  sys_next ltac:(apply sys_spawn).
  sys_next ltac:(apply (sys_worker _ _ [] _ []); reflexivity).
  sys_next ltac:(apply (sys_queue _ _ _ _ _ (example_op 9)); [by apply example_op_ok|reflexivity]).
  do 6 sys_next ltac:(apply (sys_worker _ _ [] _ []); reflexivity).
  apply rtc_refl.
Qed.

Lemma example_committed_reachable : system_reachable ChunkTicketManager_new example_system_committed.
Proof.
  unfold system_reachable. etransitivity; [exact example_ready_reachable|].
  sys_next ltac:(apply sys_boundary; reflexivity).
  eapply rtc_l; [apply sys_commit|]. apply rtc_refl.
Qed.

(** Ticket operations take effect exactly once and in submission order, whatever the
    interleaving of gameplay threads, the driver and background workers: the manager of
    a prepared epoch holds the tickets left by applying, in order, exactly the queued
    operations whose revision is at most the epoch's, so a batch is never split. *)
Theorem epochs_apply_submission_order M0 s e :
  initial_manager M0 -> system_reachable M0 s ->
  co_state (sys_coordinator s) = StateReady e \/ sys_driver s = DriverCommit e ->
  tickets (ep_ticket_manager e) =
    tickets (apply_log M0 (filter (fun q => q_revision q <= ep_applied_revision e) (sys_log s))).
Proof.
  intros H0 Hr He.
  destruct (system_reachable_inv M0 s H0 Hr)
    as [_ Hsort Hb _ _ (cp & newer & inflight & Hlog & Hlt & Hown & _)].
  assert (epoch_holds M0 e (cp ++ newer) (replay (sys_delivered s)) /\ inflight = []) as [[Hh _] ->].
  { unfold owner in Hown. destruct He as [He|He]; rewrite He in Hown.
    - by destruct (sys_driver s), (sys_workers s).
    - by destruct (co_state (sys_coordinator s)), (sys_workers s). }
  rewrite (holds_tickets _ _ _ _ _ Hh). f_equal. f_equal. symmetry.
  rewrite (holds_revision _ _ _ _ _ Hh). rewrite app_nil_l, app_assoc in Hlog.
  rewrite app_nil_r in Hlt. rewrite Hlog. apply filter_split.
  - intros q Hq. apply last_revision_max; [|done]. unfold revisions_sorted in *.
    rewrite Hlog, fmap_app in Hsort. apply StronglySorted_app in Hsort. apply Hsort.
  - intros q Hq. destruct (last_revision_cases (cp ++ newer)) as [[_ ->]|(q' & Hq' & ->)].
    + assert (q ∈ sys_log s) as Hin by (rewrite Hlog; apply elem_of_app; by right).
      specialize (Hb q Hin). unfold REVISION_INITIAL. lia.
    + specialize (Hlt q' q Hq' Hq). lia.
Qed.

Lemma epochs_apply_submission_order_witness :
  initial_manager ChunkTicketManager_new /\
  system_reachable ChunkTicketManager_new example_system_ready /\
  tickets (ep_ticket_manager example_epoch) = tickets (apply_log ChunkTicketManager_new example_queued).
Proof.
  split; [exact example_initial|]. split; [exact example_ready_reachable|].
  exact (epochs_apply_submission_order ChunkTicketManager_new example_system_ready example_epoch
    example_initial example_ready_reachable (or_introl eq_refl)).
Defined.

(** C9. A published revision is visible: once some revision is committed, the levels
    delivered to committed epochs are the least levels of exactly the operations whose
    revision [is_revision_committed] reports, operations still queued or in flight
    having no effect yet. *)
Theorem committed_levels_reflect_revision M0 s :
  initial_manager M0 -> system_reachable M0 s ->
  0 < committed_revision (sys_coordinator s) -> forall p,
  let m := apply_log M0 (filter (fun q =>
             is_revision_committed (sys_coordinator s) (q_revision q) = true) (sys_log s)) in
  is_least (load_reach m p) (fst (replay (sys_delivered s)) !! p) /\
  is_least (simulation_reach m p) (snd (replay (sys_delivered s)) !! p).
Proof.
  intros H0 Hr Hpos p. destruct (system_reachable_inv M0 s H0 Hr)
    as [_ _ _ _ _ (cp & newer & inflight & Hlog & _ & _ & (Hle & Hgt & _ & _ & Hleast))].
  rewrite Hlog, filter_split; [by apply Hleast| |].
  - intros q Hq. apply Z.leb_le, Hle, Hq.
  - intros q Hq Hc%Z.leb_le. specialize (Hgt q Hq). lia.
Qed.

Lemma committed_levels_reflect_revision_witness :
  initial_manager ChunkTicketManager_new /\
  system_reachable ChunkTicketManager_new example_system_committed /\
  is_least (load_reach (apply_log ChunkTicketManager_new example_queued) (mkChunkPos 5 0))
    (fst (replay (ep_changes example_epoch)) !! mkChunkPos 5 0).
Proof.
  split; [exact example_initial|]. split; [exact example_committed_reachable|].
  exact (proj1 (committed_levels_reflect_revision ChunkTicketManager_new example_system_committed
    example_initial example_committed_reachable ltac:(reflexivity) (mkChunkPos 5 0))).
Defined.

(** The hand-off of the ticket manager is safe: there is never more than one
    background worker, the assertion of [finish_epoch] never fires, and no step lowers
    the committed revision. *)
Theorem scheduling_handoff_safe M0 s :
  initial_manager M0 -> system_reachable M0 s ->
  (length (sys_workers s) <= 1)%nat /\
  (forall e, WorkerFinish e ∈ sys_workers s -> is_Some (finish_epoch (sys_coordinator s) e)) /\
  (forall s', system_step s s' ->
     committed_revision (sys_coordinator s) <= committed_revision (sys_coordinator s')).
Proof.
  intros H0 Hr. pose proof (system_reachable_inv M0 s H0 Hr) as Hinv.
  split_and!.
  - destruct Hinv as [_ _ _ _ _ (cp & newer & inflight & _ & _ & Hown & _)].
    destruct (sys_workers s) as [|w [|w' ws]]; simpl; try lia.
    apply (owner_worker M0 _ _ [] w (w' :: ws)) in Hown as (_ & _ & _ & ?). done.
  - intros e (ws1 & ws2 & Hw)%list_elem_of_split.
    destruct Hinv as [_ _ _ _ _ (cp & newer & inflight & _ & _ & Hown & _)].
    rewrite Hw in Hown. apply owner_worker in Hown as (Hst & _). unfold finish_epoch. by rewrite Hst.
  - intros s' Hstep. destruct Hstep as [c d ws log del op c' r Hok E|c d ws log del ops c' r Hok E
      |c d ws log del c' E|c ws log del c' b E|c ws log del e|c ws log del m r
      |c d ws1 w ws2 log del c' ws' E]; simpl.
    + unfold queue_ticket_operation, mbind, option_bind in E. repeat case_match; by simplify_eq/=.
    + unfold queue_ticket_operations, mbind, option_bind in E. repeat case_match; by simplify_eq/=.
    + injection E as <-. done.
    + injection E as <- <-. done.
    + destruct Hinv as [_ _ _ _ _ (cp & newer & inflight & _ & _ & Hown & (_ & Hgt & _ & Hlast & _))].
      simpl in *. unfold owner in Hown. destruct (co_state c), ws; try done.
      destruct Hown as [[Hh _] ->]. rewrite (holds_revision _ _ _ _ _ Hh).
      destruct newer as [|q newer _] using rev_ind; [rewrite app_nil_r; lia|].
      rewrite app_assoc, last_revision_snoc. apply Z.lt_le_incl, Hgt.
      apply elem_of_app. left. apply elem_of_app. right. left.
    + done.
    + destruct w as [| ? ? []| |e]; simplify_eq/=; try done.
      unfold finish_epoch in E. by destruct (co_state c); simplify_eq/=.
Qed.

Lemma scheduling_handoff_safe_witness :
  initial_manager ChunkTicketManager_new /\
  system_reachable ChunkTicketManager_new example_system_ready /\
  (length (sys_workers example_system_ready) <= 1)%nat.
Proof.
  split; [exact example_initial|]. split; [exact example_ready_reachable|].
  exact (proj1 (scheduling_handoff_safe ChunkTicketManager_new example_system_ready
    example_initial example_ready_reachable)).
Defined.

(** C36. The hand-over between gameplay, driver and worker cannot get stuck: from every reachable
    state the system can, without anything new being queued, reach a state whose committed
    revision is that of the last queued operation.  This is about the coordinator: the
    generation tasks and the unload pass of an epoch, which leave it alone, are taken to
    return. *)
Theorem queued_operations_can_commit M0 s :
  initial_manager M0 -> system_reachable M0 s ->
  exists s', rtc quiet_step s s' /\
    committed_revision (sys_coordinator s') = last_revision (sys_log s) /\
    forall q, q ∈ sys_log s -> is_revision_committed (sys_coordinator s') (q_revision q) = true.
Proof.
  intros H0 Hr. pose proof (system_reachable_inv M0 s H0 Hr) as Hinv.
  destruct (eventually_committed M0 s Hinv) as (s' & Hq & _ & Hc). exists s'.
  split_and!; [done|done|]. intros q Hin. apply Z.leb_le. rewrite Hc.
  apply last_revision_max; [apply Hinv|done].
Qed.

Lemma queued_operations_can_commit_witness :
  system_reachable ChunkTicketManager_new example_system_ready /\
  exists s', rtc quiet_step example_system_ready s' /\
    committed_revision (sys_coordinator s') = 3 /\
    forall q, q ∈ sys_log example_system_ready ->
      is_revision_committed (sys_coordinator s') (q_revision q) = true.
Proof.
  split; [exact example_ready_reachable|].
  exact (queued_operations_can_commit ChunkTicketManager_new example_system_ready
    example_initial example_ready_reachable).
Defined.
