(* ===== verification/TimedTickets.v ===== *)
(** * Timed chunk tickets

    Models [TimedChunkTickets] of [steel-core/src/chunk/chunk_ticket_manager.rs]: the
    portal and ender pearl tickets with a countdown, their persistent form, and the
    ticket operations that the chunk map queues for them
    ([steel-core/src/chunk/chunk_map/mod.rs]).  The [can_expire] callback is a
    predicate on positions. *)

From S2P Require Import Prelude Positions ChunkPyramid ChunkTickets ChunkScheduler.
Open Scope steel_scope.

(** ** Data *)

Inductive TimedChunkTicketKind := Portal | EnderPearl.

#[global] Instance TimedChunkTicketKind_eq_dec : EqDecision TimedChunkTicketKind.
Proof. solve_decision. Defined.

Inductive PersistentChunkTicketKind := PersistentPortal.

Record PersistentChunkTicket := mkPersistent {
  pt_kind : PersistentChunkTicketKind;
  pt_chunk_x : Z;
  pt_chunk_z : Z;
  pt_ticks_left : Z;
}.

Record TimedChunkTicket := mkTimed {
  tt_kind : TimedChunkTicketKind;
  tt_pos : ChunkPos;
  tt_ticket : ChunkTicket;
  ticks_left : Z;
}.

#[global] Instance TimedChunkTicket_eq_dec : EqDecision TimedChunkTicket.
Proof. solve_decision. Defined.

Definition portal_ticket : ChunkTicket := ChunkTicket_simulated_full_chunks PORTAL_TICKET_RADIUS.
Definition ender_pearl_ticket : ChunkTicket :=
  ChunkTicket_simulated_full_chunks ENDER_PEARL_TICKET_RADIUS.

Definition TimedChunkTicket_portal (pos : ChunkPos) (ticks : Z) : TimedChunkTicket :=
  mkTimed Portal pos portal_ticket ticks.

Definition TimedChunkTicket_to_persistent (t : TimedChunkTicket) : option PersistentChunkTicket :=
  match tt_kind t with
  | Portal => Some (mkPersistent PersistentPortal (cp_x (tt_pos t)) (cp_y (tt_pos t)) (ticks_left t))
  | EnderPearl => None
  end.

(** ** Operations *)

Abbreviation TimedChunkTickets := (list TimedChunkTicket).

Definition set_ticks (n : Z) (t : TimedChunkTicket) : TimedChunkTicket :=
  mkTimed (tt_kind t) (tt_pos t) (tt_ticket t) n.

Definition same_key (kind : TimedChunkTicketKind) (pos : ChunkPos) (ticket : ChunkTicket)
  (t : TimedChunkTicket) : bool :=
  bool_decide (tt_kind t = kind) && bool_decide (tt_pos t = pos) && bool_decide (tt_ticket t = ticket).

(** [iter_mut().find(..)] followed by a write of the countdown of the entry found. *)
Fixpoint reset_first (f : TimedChunkTicket -> bool) (ticks : Z) (ts : TimedChunkTickets)
  : option TimedChunkTickets :=
  match ts with
  | [] => None
  | t :: ts' => if f t then Some (set_ticks ticks t :: ts')
                else cons t <$> reset_first f ticks ts'
  end.

Definition add_or_reset (ts : TimedChunkTickets) (kind : TimedChunkTicketKind) (pos : ChunkPos)
  (ticket : ChunkTicket) (ticks : Z) : TimedChunkTickets * option ChunkTicket :=
  match reset_first (same_key kind pos ticket) ticks ts with
  | Some ts' => (ts', None)
  | None => (ts ++ [mkTimed kind pos ticket ticks], Some ticket)
  end.

Definition add_portal_ticket (ts : TimedChunkTickets) (pos : ChunkPos)
  : TimedChunkTickets * option ChunkTicket :=
  add_or_reset ts Portal pos portal_ticket PORTAL_TICKET_TIMEOUT_TICKS.

Definition add_ender_pearl_ticket (ts : TimedChunkTickets) (pos : ChunkPos)
  : TimedChunkTickets * option ChunkTicket :=
  add_or_reset ts EnderPearl pos ender_pearl_ticket ENDER_PEARL_TICKET_TIMEOUT_TICKS.

Definition add_loaded_portal_ticket (ts : TimedChunkTickets) (pos : ChunkPos) (ticks : Z)
  : TimedChunkTickets :=
  match reset_first (same_key Portal pos portal_ticket) PORTAL_TICKET_TIMEOUT_TICKS ts with
  | Some ts' => ts'
  | None => ts ++ [TimedChunkTicket_portal pos ticks]
  end.

Definition add_loaded_persistent_ticket (ts : TimedChunkTickets) (p : PersistentChunkTicket)
  : TimedChunkTickets :=
  match pt_kind p with
  | PersistentPortal =>
      add_loaded_portal_ticket ts (mkChunkPos (pt_chunk_x p) (pt_chunk_z p)) (pt_ticks_left p)
  end.

Definition from_persistent (persistent : list PersistentChunkTicket) : TimedChunkTickets :=
  foldl add_loaded_persistent_ticket [] persistent.

Definition to_persistent (ts : TimedChunkTickets) : list PersistentChunkTicket :=
  omap TimedChunkTicket_to_persistent ts.

Definition activate_all (ts : TimedChunkTickets) (m : ChunkTicketManager) : ChunkTicketManager :=
  foldl (fun m t => add_ticket m (tt_pos t) (tt_ticket t)) m ts.

(** The [while] loop of [tick]: [index] runs over the vector, which [swap_remove] shortens
    in place.  Each round raises the index or shortens the vector, so the length of the
    vector is enough fuel. *)
Fixpoint tick_loop (fuel : nat) (can_expire : ChunkPos -> bool) (index : nat)
  (ts : TimedChunkTickets) (expired : list (ChunkPos * ChunkTicket))
  : option (TimedChunkTickets * list (ChunkPos * ChunkTicket)) :=
  match ts !! index with
  | None => Some (ts, expired)
  | Some t =>
      match fuel with
      | O => None
      | S fuel' =>
          if negb (can_expire (tt_pos t)) then tick_loop fuel' can_expire (S index) ts expired
          else
            let ticks := i64 (ticks_left t - 1) in
            let ts := <[index := set_ticks ticks t]> ts in
            if 0 <=? ticks then tick_loop fuel' can_expire (S index) ts expired
            else tick_loop fuel' can_expire index (swap_remove index ts)
                   (expired ++ [(tt_pos t, tt_ticket t)])
      end
  end.

Definition tick (can_expire : ChunkPos -> bool) (ts : TimedChunkTickets)
  : option (TimedChunkTickets * list (ChunkPos * ChunkTicket)) :=
  tick_loop (length ts) can_expire 0 ts [].

(** ** The chunk map's timed tickets: the vector and the coordinator change together, under
    the lock of the vector *)

Definition place_portal_ticket (ticket_position : BlockPos) (ts : TimedChunkTickets)
  (c : ChunkSchedulingCoordinator) : option (TimedChunkTickets * ChunkSchedulingCoordinator) :=
  let center := ChunkPos_from_block_pos ticket_position in
  match add_portal_ticket ts center with
  | (ts, Some ticket) => '(c, _) ← queue_ticket_operation c (OpAdd center ticket); Some (ts, c)
  | (ts, None) => Some (ts, c)
  end.

Definition place_ender_pearl_ticket (chunk : ChunkPos) (ts : TimedChunkTickets)
  (c : ChunkSchedulingCoordinator) : option (TimedChunkTickets * ChunkSchedulingCoordinator) :=
  match add_ender_pearl_ticket ts chunk with
  | (ts, Some ticket) => '(c, _) ← queue_ticket_operation c (OpAdd chunk ticket); Some (ts, c)
  | (ts, None) => Some (ts, c)
  end.

Definition tick_timed_tickets (can_expire : ChunkPos -> bool) (ts : TimedChunkTickets)
  (c : ChunkSchedulingCoordinator) : option (TimedChunkTickets * ChunkSchedulingCoordinator) :=
  '(ts, expired) ← tick can_expire ts;
  '(c, _) ← queue_ticket_operations c ((fun '(pos, ticket) => OpRemove pos ticket) <$> expired);
  Some (ts, c).

(** ** Lemmas: keys and countdowns *)

Definition key (t : TimedChunkTicket) : TimedChunkTicketKind * ChunkPos * ChunkTicket :=
  (tt_kind t, tt_pos t, tt_ticket t).

(** No two entries have the same kind, position and ticket. *)
Definition unique_keys (ts : TimedChunkTickets) : Prop := NoDup (key <$> ts).

Lemma same_key_spec kind pos ticket t :
  same_key kind pos ticket t = true <-> key t = (kind, pos, ticket).
Proof.
  unfold same_key, key. rewrite !andb_true_iff, !bool_decide_eq_true. naive_solver.
Qed.

Lemma reset_first_None f n ts : reset_first f n ts = None <-> forall t, t ∈ ts -> f t = false.
Proof.
  induction ts as [|t ts IH]; simpl; [split; [|done]; by intros _ t ?%elem_of_nil|].
  destruct (f t) eqn:E.
  - split; [done|]. intros H. specialize (H t ltac:(left)). congruence.
  - rewrite fmap_None, IH. split.
    + intros H x [->|Hx]%elem_of_cons; auto.
    + intros H x Hx. apply H. by right.
Qed.

Lemma reset_first_Some f n ts ts' :
  reset_first f n ts = Some ts' ->
  exists pre t post, ts = pre ++ t :: post /\ f t = true /\ ts' = pre ++ set_ticks n t :: post.
Proof.
  revert ts'. induction ts as [|t ts IH]; intros ts'; simpl; [done|]. destruct (f t) eqn:E.
  - intros [= <-]. by exists [], t, ts.
  - intros (us & Hus & ->)%fmap_Some. destruct (IH us Hus) as (pre & x & post & -> & Hx & ->).
    by exists (t :: pre), x, post.
Qed.

Lemma reset_first_keys f n ts ts' :
  reset_first f n ts = Some ts' -> key <$> ts' = key <$> ts.
Proof.
  intros (pre & t & post & -> & _ & ->)%reset_first_Some. by rewrite !fmap_app.
Qed.

(** [add_or_reset] either finds the key and keeps the set of keys, or appends it. *)
Lemma add_or_reset_cases ts kind pos ticket n :
  (exists pre t post, ts = pre ++ t :: post /\ key t = (kind, pos, ticket) /\
     add_or_reset ts kind pos ticket n = (pre ++ set_ticks n t :: post, None)) \/
  (~ ((kind, pos, ticket) ∈ (key <$> ts)) /\
   add_or_reset ts kind pos ticket n = (ts ++ [mkTimed kind pos ticket n], Some ticket)).
Proof.
  unfold add_or_reset. destruct (reset_first _ n ts) as [ts'|] eqn:E.
  - left. apply reset_first_Some in E as (pre & t & post & -> & Ht & ->).
    exists pre, t, post. split_and!; [done|by apply same_key_spec|done].
  - right. split; [|done]. rewrite reset_first_None in E.
    intros (t & Ht & Hin)%list_elem_of_fmap.
    specialize (E t Hin). assert (same_key kind pos ticket t = true) by (by apply same_key_spec).
    congruence.
Qed.

Lemma add_or_reset_unique ts kind pos ticket n :
  unique_keys ts -> unique_keys (fst (add_or_reset ts kind pos ticket n)).
Proof.
  unfold unique_keys. intros H.
  destruct (add_or_reset_cases ts kind pos ticket n)
    as [(pre & t & post & -> & Ht & ->)|[Hn ->]]; simpl.
  - rewrite fmap_app in H |- *. exact H.
  - rewrite fmap_app, NoDup_app. split_and!; [done| |apply NoDup_singleton].
    intros k Hk Hk'. apply list_elem_of_singleton in Hk' as ->. done.
Qed.

(** One tick of one entry: [None] when it expires. *)
Definition tick_one (can_expire : ChunkPos -> bool) (t : TimedChunkTicket)
  : option TimedChunkTicket :=
  if can_expire (tt_pos t)
  then if 0 <=? ticks_left t - 1 then Some (set_ticks (ticks_left t - 1) t) else None
  else Some t.

Definition expires (can_expire : ChunkPos -> bool) (t : TimedChunkTicket) : bool :=
  can_expire (tt_pos t) && (ticks_left t - 1 <? 0).

(** The source of a ticket: what the ticket manager is told of it. *)
Definition source_of (t : TimedChunkTicket) : ChunkPos * ChunkTicket := (tt_pos t, tt_ticket t).

(** Countdowns that do not underflow when decremented. *)
Definition ticks_ok (t : TimedChunkTicket) : Prop := - 2 ^ 63 < ticks_left t < 2 ^ 63.

(** ** Lemmas: the tick loop *)

(** [swap_remove] at the head of the unvisited part leaves the visited part alone. *)
Lemma swap_remove_app {A} (done_ todo : list A) (t : A) :
  exists todo', swap_remove (length done_) (done_ ++ t :: todo) = done_ ++ todo' /\ todo' ≡ₚ todo.
Proof.
  exists (swap_remove 0 (t :: todo)). split.
  - unfold swap_remove.
    assert (exists y, last (t :: todo) = Some y) as [y Hy].
    { destruct (last (t :: todo)) eqn:E; [eauto|]. by apply last_None in E. }
    rewrite last_app, Hy. rewrite insert_app_r_alt, Nat.sub_diag by lia. simpl.
    rewrite length_app. simpl. rewrite take_app_ge by lia. f_equal. f_equal. lia.
  - assert ((t :: todo) !! 0%nat = Some t) as H by done.
    apply swap_remove_perm in H. by apply Permutation_cons_inv in H.
Qed.

Lemma tick_loop_spec can_expire fuel done_ todo ex :
  (length todo <= fuel)%nat -> Forall ticks_ok todo ->
  exists live dead,
    tick_loop fuel can_expire (length done_) (done_ ++ todo) ex = Some (done_ ++ live, ex ++ dead) /\
    live ≡ₚ omap (tick_one can_expire) todo /\
    dead ≡ₚ source_of <$> filter (fun t => expires can_expire t = true) todo.
Proof.
  revert done_ todo ex. induction fuel as [|fuel IH]; intros done_ todo ex Hf Hok.
  - destruct todo; simpl in Hf; [|lia]. exists [], []. simpl.
    rewrite lookup_ge_None_2 by (rewrite length_app; simpl; lia). by rewrite !app_nil_r.
  - destruct todo as [|t todo].
    { exists [], []. simpl. rewrite lookup_ge_None_2 by (rewrite length_app; simpl; lia).
      by rewrite !app_nil_r. }
    simpl in Hf. apply Forall_cons in Hok as [Ht Hok]. cbn [tick_loop].
    rewrite list_lookup_middle by done.
    assert (forall u, <[length done_ := u]> (done_ ++ t :: todo) = done_ ++ u :: todo) as Hins.
    { intros u. rewrite insert_app_r_alt, Nat.sub_diag by lia. done. }
    assert (forall u, exists live dead,
      tick_loop fuel can_expire (S (length done_)) (done_ ++ u :: todo) ex =
        Some (done_ ++ u :: live, ex ++ dead) /\
      live ≡ₚ omap (tick_one can_expire) todo /\
      dead ≡ₚ source_of <$> filter (fun t => expires can_expire t = true) todo) as Hkeep.
    { intros u. destruct (IH (done_ ++ [u]) todo ex ltac:(lia) Hok) as (live & dead & E & Hl & Hd).
      exists live, dead. split_and!; [|done|done]. rewrite length_app, <- !app_assoc in E.
      simpl in E. by rewrite Nat.add_1_r in E. }
    unfold ticks_ok in Ht. cbn [omap list_omap]. rewrite filter_cons.
    assert (expires can_expire t = can_expire (tt_pos t) && (ticks_left t - 1 <? 0)) as Hexp by done.
    unfold tick_one at 1. destruct (can_expire (tt_pos t)) eqn:Hce; simpl in *.
    + rewrite Hins, i64_small by lia. destruct (Z.leb_spec 0 (ticks_left t - 1)).
      * destruct (Hkeep (set_ticks (ticks_left t - 1) t)) as (live & dead & E & Hl & Hd).
        exists (set_ticks (ticks_left t - 1) t :: live), dead.
        rewrite decide_False by (rewrite Hexp; lia).
        split_and!; [done|by f_equiv|done].
      * destruct (swap_remove_app done_ todo (set_ticks (ticks_left t - 1) t)) as (todo' & -> & Hp).
        destruct (IH done_ todo' (ex ++ [source_of t])) as (live & dead & E & Hl & Hd).
        { rewrite Hp. lia. }
        { by rewrite Hp. }
        exists live, (source_of t :: dead).
        rewrite decide_True by (rewrite Hexp; lia).
        split_and!; [by rewrite <- app_assoc in E| |].
        -- by rewrite Hl, Hp.
        -- simpl. f_equiv. by rewrite Hd, Hp.
    + destruct (Hkeep t) as (live & dead & E & Hl & Hd). exists (t :: live), dead.
      rewrite decide_False by (by rewrite Hexp). split_and!; [done|by f_equiv|done].
Qed.

(** A tick splits the sources into those that stay and those that expire. *)
Lemma tick_sources can_expire ts :
  source_of <$> ts ≡ₚ (source_of <$> omap (tick_one can_expire) ts) ++
    (source_of <$> filter (fun t => expires can_expire t = true) ts).
Proof.
  induction ts as [|t ts IH]; [done|]. cbn [omap list_omap]. rewrite filter_cons.
  unfold tick_one at 1.
  assert (expires can_expire t = can_expire (tt_pos t) && (ticks_left t - 1 <? 0)) as Hexp by done.
  destruct (can_expire (tt_pos t)); simpl in *.
  - destruct (Z.leb_spec 0 (ticks_left t - 1)).
    + rewrite decide_False by (rewrite Hexp; lia). simpl. by f_equiv.
    + rewrite decide_True by (rewrite Hexp; lia). simpl. rewrite <- Permutation_middle. by f_equiv.
  - rewrite decide_False by (by rewrite Hexp). simpl. by f_equiv.
Qed.

Lemma tick_one_keys can_expire ts : (key <$> omap (tick_one can_expire) ts) `sublist_of` (key <$> ts).
Proof.
  induction ts as [|t ts IH]; simpl; [constructor|]. unfold tick_one at 1.
  destruct (can_expire (tt_pos t)); [|by constructor].
  destruct (0 <=? ticks_left t - 1); [|by constructor].
  change (key t) with (key (set_ticks (ticks_left t - 1) t)). by constructor.
Qed.

Lemma tick_spec can_expire ts :
  Forall ticks_ok ts ->
  exists live dead, tick can_expire ts = Some (live, dead) /\
    live ≡ₚ omap (tick_one can_expire) ts /\
    dead ≡ₚ source_of <$> filter (fun t => expires can_expire t = true) ts.
Proof. intros Hok. exact (tick_loop_spec can_expire (length ts) [] ts [] (le_n _) Hok). Qed.

Lemma tick_one_ticks_ok can_expire ts :
  Forall ticks_ok ts -> Forall ticks_ok (omap (tick_one can_expire) ts).
Proof.
  rewrite !Forall_forall. intros H t (u & Hu & E)%list_elem_of_omap. specialize (H u Hu).
  unfold tick_one, ticks_ok in *. destruct (can_expire (tt_pos u)); [|by simplify_eq].
  destruct (Z.leb_spec 0 (ticks_left u - 1)); simplify_eq/=. lia.
Qed.

(** ** Lemmas: timed tickets and the manager *)

Definition tickets_of (p : ChunkPos) (l : list (ChunkPos * ChunkTicket)) : list ChunkTicket :=
  snd <$> filter (fun x => fst x = p) l.

#[global] Instance tickets_of_proper p : Proper (Permutation ==> Permutation) (tickets_of p).
Proof. intros l l' H. unfold tickets_of. by rewrite H. Qed.

(** The manager holds exactly the tickets of [l]. *)
Definition manager_has (m : ChunkTicketManager) (l : list (ChunkPos * ChunkTicket)) : Prop :=
  forall p, tickets_at m p ≡ₚ tickets_of p l.

#[global] Instance manager_has_proper m : Proper (Permutation ==> iff) (manager_has m).
Proof.
  intros l l' H. split; intros Hm p; [rewrite <- H|rewrite H]; apply Hm.
Qed.

Lemma tickets_of_cons p q t l :
  tickets_of p ((q, t) :: l) = if decide (q = p) then t :: tickets_of p l else tickets_of p l.
Proof.
  unfold tickets_of. case_decide; [by rewrite filter_cons_True|by rewrite filter_cons_False].
Qed.

Lemma manager_has_add m p t l : manager_has m l -> manager_has (add_ticket m p t) ((p, t) :: l).
Proof.
  intros H q. rewrite tickets_at_add, tickets_of_cons. destruct (decide (q = p)) as [->|Hne].
  - rewrite decide_True by done. rewrite (H p). by rewrite <- Permutation_cons_append.
  - by rewrite decide_False.
Qed.

Lemma manager_has_remove m p t l :
  manager_has m ((p, t) :: l) -> manager_has (fst (remove_ticket m p t)) l.
Proof.
  intros H. destruct (remove_ticket m p t) as [m' b] eqn:E.
  apply tickets_at_remove in E as [Hq Hp]. pose proof (H p) as Hpt.
  rewrite tickets_of_cons, decide_True in Hpt by done. intros q. simpl. destruct b.
  - destruct (decide (q = p)) as [->|Hne].
    + rewrite Hpt in Hp. by apply Permutation_cons_inv in Hp.
    + rewrite Hq by done. rewrite (H q), tickets_of_cons, decide_False by done. done.
  - destruct Hp as [_ Hnot]. destruct Hnot. rewrite Hpt. left.
Qed.

Definition apply_ops (m : ChunkTicketManager) (ops : list ChunkTicketOperation) : ChunkTicketManager :=
  foldl (fun m op => ChunkTicketOperation_apply op m) m ops.

Lemma manager_has_remove_all m dead l :
  manager_has m (dead ++ l) ->
  manager_has (apply_ops m ((fun '(pos, ticket) => OpRemove pos ticket) <$> dead)) l.
Proof.
  revert m. induction dead as [|[p t] dead IH]; intros m H; [done|].
  simpl. apply IH. by apply manager_has_remove.
Qed.

Lemma activate_all_has ts m l :
  manager_has m l -> manager_has (activate_all ts m) ((source_of <$> ts) ++ l).
Proof.
  revert m l. induction ts as [|t ts IH]; intros m l H; [done|].
  unfold activate_all. simpl. rewrite Permutation_middle.
  apply IH. by apply manager_has_add.
Qed.

(** ** Runs of the timed operations *)

Inductive timed_step :
  TimedChunkTickets * ChunkSchedulingCoordinator ->
  TimedChunkTickets * ChunkSchedulingCoordinator -> Prop :=
| timed_portal pos ts c ts' c' :
    place_portal_ticket pos ts c = Some (ts', c') -> timed_step (ts, c) (ts', c')
| timed_pearl pos ts c ts' c' :
    place_ender_pearl_ticket pos ts c = Some (ts', c') -> timed_step (ts, c) (ts', c')
| timed_tick can_expire ts c ts' c' :
    tick_timed_tickets can_expire ts c = Some (ts', c') -> timed_step (ts, c) (ts', c').

Definition pending_ops (c : ChunkSchedulingCoordinator) : list ChunkTicketOperation :=
  q_operation <$> operations (pending_ticket_operations c).

Record timed_inv (M0 : ChunkTicketManager)
  (s : TimedChunkTickets * ChunkSchedulingCoordinator) : Prop := {
  ti_ticks : Forall ticks_ok (fst s);
  ti_keys : unique_keys (fst s);
  ti_portal t : t ∈ fst s -> tt_kind t = Portal -> tt_ticket t = portal_ticket;
  ti_sync : manager_has (apply_ops M0 (pending_ops (snd s))) (source_of <$> fst s);
}.

Lemma queue_one_pending c op c' r :
  queue_ticket_operation c op = Some (c', r) -> pending_ops c' = pending_ops c ++ [op].
Proof.
  unfold queue_ticket_operation, Pending_push. destruct (ChunkTicketRevision_next _); [|done].
  intros [= <- _]. unfold pending_ops. simpl. by rewrite fmap_app.
Qed.

Lemma queue_batch_pending c ops c' r :
  queue_ticket_operations c ops = Some (c', r) -> pending_ops c' = pending_ops c ++ ops.
Proof.
  unfold queue_ticket_operations, Pending_push_batch. destruct ops as [|op ops].
  - intros [= <- _]. by rewrite app_nil_r.
  - destruct (ChunkTicketRevision_next _); [|done]. intros [= <- _]. unfold pending_ops. simpl.
    rewrite !fmap_app. simpl. rewrite <- app_assoc. simpl. do 2 f_equal.
    rewrite <- list_fmap_compose. apply list_fmap_id.
Qed.

Lemma apply_pending_ops c m r :
  snd (fst (apply_pending_ticket_operations c m r)) = apply_ops m (pending_ops c).
Proof.
  unfold apply_pending_ticket_operations, Pending_take, pending_ops, apply_ops.
  set (ops := operations (pending_ticket_operations c)). clearbody ops.
  assert (forall m r, fst (foldl apply_queued (m, r) ops) =
    foldl (fun m op => ChunkTicketOperation_apply op m) m (q_operation <$> ops)) as H.
  { induction ops as [|q ops IH]; intros m' r'; [done|]. simpl. apply IH. }
  specialize (H m r). by destruct (foldl apply_queued (m, r) ops).
Qed.

(** Adding or refreshing one timed ticket, and the operation queued for it. *)
Lemma timed_inv_add M0 ts c kind pos ticket n ts' o c' :
  ticks_ok (mkTimed kind pos ticket n) -> (kind = Portal -> ticket = portal_ticket) ->
  add_or_reset ts kind pos ticket n = (ts', o) ->
  match o with
  | Some t => exists r, queue_ticket_operation c (OpAdd pos t) = Some (c', r)
  | None => c' = c
  end ->
  timed_inv M0 (ts, c) -> timed_inv M0 (ts', c').
Proof.
  intros Hn Hk Hadd Hq [Ht Hu Hp Hs]. simpl in *.
  pose proof (add_or_reset_unique ts kind pos ticket n Hu) as Hu'. rewrite Hadd in Hu'.
  destruct (add_or_reset_cases ts kind pos ticket n)
    as [(pre & t & post & -> & Hkt & E)|[_ E]]; rewrite Hadd in E; simplify_eq.
  - split; simpl; [|done| |].
    + rewrite Forall_app, Forall_cons in Ht |- *. destruct Ht as (? & _ & ?). done.
    + intros u Hu1. apply elem_of_app in Hu1 as [Hu1|[->|Hu1]%elem_of_cons].
      * apply Hp. apply elem_of_app. by left.
      * apply (Hp t). apply elem_of_app. right. left.
      * apply Hp. apply elem_of_app. right. by right.
    + rewrite fmap_app in Hs |- *. exact Hs.
  - destruct Hq as [r Hq%queue_one_pending]. split; simpl; [|done| |].
    + apply Forall_app. split; [done|by constructor].
    + intros u [Hu1|Hu1]%elem_of_app; [auto|]. apply list_elem_of_singleton in Hu1 as ->. auto.
    + rewrite Hq. unfold apply_ops. rewrite foldl_app. simpl. rewrite fmap_app. simpl.
      rewrite <- Permutation_cons_append. by apply manager_has_add.
Qed.

Lemma timed_inv_tick M0 can_expire ts c ts' c' :
  tick_timed_tickets can_expire ts c = Some (ts', c') ->
  timed_inv M0 (ts, c) -> timed_inv M0 (ts', c').
Proof.
  intros E [Ht Hu Hp Hs]. simpl in *. unfold tick_timed_tickets in E.
  destruct (tick_spec can_expire ts Ht) as (live & dead & Etick & Hlive & Hdead).
  rewrite Etick in E. simpl in E.
  destruct (queue_ticket_operations c _) as [[c1 r]|] eqn:Eq; [|done]. simplify_eq/=.
  apply queue_batch_pending in Eq. split; simpl.
  - rewrite Hlive. by apply tick_one_ticks_ok.
  - unfold unique_keys in *. rewrite Hlive. eapply sublist_NoDup; [exact Hu|apply tick_one_keys].
  - intros t Hin. rewrite Hlive in Hin. apply list_elem_of_omap in Hin as (u & Hin & Eu).
    specialize (Hp u Hin). unfold tick_one in Eu. repeat case_match; by simplify_eq/=.
  - rewrite Eq. unfold apply_ops. rewrite foldl_app. apply manager_has_remove_all.
    rewrite Hdead, Hlive, Permutation_app_comm, <- tick_sources. exact Hs.
Qed.

Lemma timed_step_inv M0 s s' : timed_step s s' -> timed_inv M0 s -> timed_inv M0 s'.
Proof.
  intros [pos ts c ts' c' E|pos ts c ts' c' E|ce ts c ts' c' E] Hinv.
  - unfold place_portal_ticket in E. destruct (add_portal_ticket ts _) as [us o] eqn:Ea.
    destruct o as [t|]; simpl in E;
      [destruct (queue_ticket_operation c _) as [[c1 r]|] eqn:Eq|]; simplify_eq/=;
      (refine (timed_inv_add M0 ts _ _ _ _ _ _ _ _ _ _ Ea _ Hinv); [by split|done|by eauto]).
  - unfold place_ender_pearl_ticket in E. destruct (add_ender_pearl_ticket ts _) as [us o] eqn:Ea.
    destruct o as [t|]; simpl in E;
      [destruct (queue_ticket_operation c _) as [[c1 r]|] eqn:Eq|]; simplify_eq/=;
      (refine (timed_inv_add M0 ts _ _ _ _ _ _ _ _ _ _ Ea _ Hinv); [by split|done|by eauto]).
  - by eapply timed_inv_tick.
Qed.

Lemma timed_run_inv M0 s s' : rtc timed_step s s' -> timed_inv M0 s -> timed_inv M0 s'.
Proof. induction 1 as [|x y z H _ IH]; [done|]. intros Hi. by eapply IH, timed_step_inv. Qed.

(** ** Lemmas: [n] ticks and persistence *)

Fixpoint tick_n (n : nat) (can_expire : ChunkPos -> bool) (ts : TimedChunkTickets)
  : option TimedChunkTickets :=
  match n with
  | O => Some ts
  | S n => '(ts, _) ← tick can_expire ts; tick_n n can_expire ts
  end.

(** What [n] ticks leave of an entry. *)
Definition after_ticks (n : nat) (t : TimedChunkTicket) : option TimedChunkTicket :=
  if decide (n = 0%nat \/ Z.of_nat n <= ticks_left t)
  then Some (set_ticks (ticks_left t - Z.of_nat n) t) else None.

Lemma omap_omap {A B C} (f : A -> option B) (g : B -> option C) (l : list A) :
  omap g (omap f l) = omap (fun x => f x ≫= g) l.
Proof.
  induction l as [|x l IH]; [done|]. cbn [omap list_omap]. destruct (f x) as [y|]; simpl; [|done].
  cbn [omap list_omap]. by destruct (g y); [f_equal|].
Qed.

Lemma tick_n_spec can_expire n ts :
  (forall p, can_expire p = true) -> Forall ticks_ok ts ->
  exists ts', tick_n n can_expire ts = Some ts' /\ ts' ≡ₚ omap (after_ticks n) ts.
Proof.
  intros Hce. revert ts. induction n as [|n IH]; intros ts Hok; simpl.
  - exists ts. split; [done|].
    assert (omap (after_ticks 0) ts = ts) as ->; [|done].
    clear Hok. induction ts as [|[k p t z] ts IH]; [done|]. cbn [omap list_omap].
    unfold after_ticks at 1. rewrite decide_True by (by left). simpl. rewrite Z.sub_0_r.
    unfold set_ticks. simpl. by f_equal.
  - destruct (tick_spec can_expire ts Hok) as (live & dead & -> & Hlive & _). simpl.
    destruct (IH live) as (ts' & -> & Hts').
    { rewrite Hlive. by apply tick_one_ticks_ok. }
    exists ts'. split; [done|]. rewrite Hts', Hlive, omap_omap.
    assert (forall t, tick_one can_expire t ≫= after_ticks n = after_ticks (S n) t) as Ht.
    { intros t. unfold tick_one, after_ticks. rewrite Hce.
      destruct (Z.leb_spec 0 (ticks_left t - 1)); simpl; [|by rewrite decide_False by lia].
      repeat case_decide; try lia; [|done]. unfold set_ticks. simpl. do 2 f_equal. lia. }
    clear -Ht. induction ts as [|t ts IH]; [done|]. cbn [omap list_omap]. rewrite Ht.
    destruct (after_ticks (S n) t); [by f_equiv|exact IH].
Qed.

Lemma from_persistent_app acc ts :
  unique_keys (acc ++ ts) ->
  (forall t, t ∈ ts -> tt_kind t = Portal -> tt_ticket t = portal_ticket) ->
  foldl add_loaded_persistent_ticket acc (to_persistent ts) =
    acc ++ filter (fun t => tt_kind t = Portal) ts.
Proof.
  revert acc. induction ts as [|t ts IH]; intros acc Hu Hp; simpl; [by rewrite app_nil_r|].
  assert (forall t', t' ∈ ts -> tt_kind t' = Portal -> tt_ticket t' = portal_ticket) as Hp'.
  { intros t' Hin. apply Hp. by right. }
  assert (unique_keys (acc ++ ts)) as Hu1.
  { unfold unique_keys in *. eapply sublist_NoDup; [exact Hu|]. rewrite !fmap_app.
    apply sublist_app; [done|]. by constructor. }
  rewrite filter_cons. unfold TimedChunkTicket_to_persistent. destruct (tt_kind t) eqn:Hk.
  - rewrite decide_True by done. simpl. unfold add_loaded_persistent_ticket at 2. simpl.
    assert (t = TimedChunkTicket_portal (tt_pos t) (ticks_left t)) as Et.
    { destruct t as [k p tk z]. simpl in *. subst. unfold TimedChunkTicket_portal. f_equal.
      by apply (Hp (mkTimed Portal p tk z)); [left|]. }
    replace (mkChunkPos (cp_x (tt_pos t)) (cp_y (tt_pos t))) with (tt_pos t) by (by destruct (tt_pos t)).
    assert (add_loaded_portal_ticket acc (tt_pos t) (ticks_left t) = acc ++ [t]) as ->.
    { unfold add_loaded_portal_ticket. destruct (reset_first _ _ acc) as [us|] eqn:E; [|by rewrite <- Et].
      apply reset_first_Some in E as (pre & u & post & -> & Hu2%same_key_spec & _). exfalso.
      unfold unique_keys in Hu. rewrite fmap_app, NoDup_app in Hu. destruct Hu as (_ & Hd & _).
      apply (Hd (key t)).
      - rewrite fmap_app, fmap_cons, Hu2. apply elem_of_app. right. rewrite Et. left.
      - left. }
    rewrite (IH (acc ++ [t])); [by rewrite <- app_assoc|by rewrite <- app_assoc|done].
  - rewrite decide_False by done. by apply IH.
Qed.

(** ** Properties *)

(** Timed tickets and the ticket manager stay in step: whatever portals and pearls are
    placed, refreshed and ticked after a restart that restored [ts0], applying the
    queued operations to the restored manager leaves exactly one manager ticket per
    timed ticket, so no ticket leaks and none is dropped early; at most one timed
    ticket exists per kind, position and ticket. *)
Theorem timed_tickets_match_manager ts0 ts c :
  let M0 := activate_all ts0 ChunkTicketManager_new in
  Forall ticks_ok ts0 -> unique_keys ts0 ->
  (forall t, t ∈ ts0 -> tt_kind t = Portal -> tt_ticket t = portal_ticket) ->
  rtc timed_step (ts0, Coordinator_new M0) (ts, c) ->
  unique_keys ts /\
  manager_has (snd (fst (apply_pending_ticket_operations c M0 REVISION_INITIAL))) (source_of <$> ts).
Proof.
  intros M0 Ht Hu Hp Hr.
  assert (timed_inv M0 (ts0, Coordinator_new M0)) as H0.
  { split; [done|done|done|]. simpl. rewrite <- (app_nil_r (source_of <$> ts0)).
    apply activate_all_has. intros p. unfold tickets_at. simpl. by rewrite lookup_empty. }
  destruct (timed_run_inv M0 _ _ Hr H0) as [_ Hk _ Hs]. split; [done|].
  by rewrite apply_pending_ops.
Qed.

Lemma timed_tickets_match_manager_witness :
  let M0 := activate_all [] ChunkTicketManager_new in
  manager_has
    (snd (fst (apply_pending_ticket_operations
       (mkCoordinator (mkPending 1 [mkQueued 1 (OpAdd (mkChunkPos 1 2) ender_pearl_ticket)] [])
          (StateIdle M0 0) 0) M0 REVISION_INITIAL)))
    [(mkChunkPos 1 2, ender_pearl_ticket)].
Proof.
  apply (timed_tickets_match_manager [] [mkTimed EnderPearl (mkChunkPos 1 2) ender_pearl_ticket 39]).
  - constructor.
  - constructor.
  - intros t Ht. by apply elem_of_nil in Ht.
  - eapply rtc_l; [apply (timed_pearl (mkChunkPos 1 2)); vm_compute; reflexivity|].
    eapply rtc_l; [apply (timed_tick (fun _ => true)); vm_compute; reflexivity|]. apply rtc_refl.
Defined.

(** [TimedChunkTickets::tick] terminates within the length of the vector and treats
    each ticket on its own, although it removes by [swap_remove] while it iterates: a
    ticket whose chunk cannot expire is unchanged, any other is decremented or, below
    zero, removed and reported exactly once. *)
Theorem tick_treats_each_ticket can_expire ts :
  Forall ticks_ok ts ->
  exists live dead, tick can_expire ts = Some (live, dead) /\
    live ≡ₚ omap (tick_one can_expire) ts /\
    dead ≡ₚ source_of <$> filter (fun t => expires can_expire t = true) ts.
Proof. exact (tick_spec can_expire ts). Qed.

Lemma tick_treats_each_ticket_witness :
  let ts := [TimedChunkTicket_portal (mkChunkPos 0 0) 0; TimedChunkTicket_portal (mkChunkPos 1 0) 5;
             TimedChunkTicket_portal (mkChunkPos 2 0) 0] in
  exists live dead, tick (fun p => cp_x p <? 2) ts = Some (live, dead) /\
    live ≡ₚ omap (tick_one (fun p => cp_x p <? 2)) ts /\
    dead ≡ₚ source_of <$> filter (fun t => expires (fun p => cp_x p <? 2) t = true) ts.
Proof.
  apply (tick_treats_each_ticket (fun p => cp_x p <? 2)).
  repeat constructor; vm_compute; reflexivity.
Defined.

(** The lifetime of a timed ticket is exact: after [n] ticks with no chunk holding the
    countdown back, a ticket is still there if and only if its countdown was at least
    [n] (or [n] is 0), with [n] subtracted.  A portal ticket of 300 ticks survives 300
    ticks and is gone after 301. *)
Theorem timed_ticket_lifetime can_expire n ts :
  (forall p, can_expire p = true) -> Forall ticks_ok ts ->
  exists ts', tick_n n can_expire ts = Some ts' /\ ts' ≡ₚ omap (after_ticks n) ts.
Proof. exact (tick_n_spec can_expire n ts). Qed.

Lemma timed_ticket_lifetime_witness :
  exists ts', tick_n 301 (fun _ => true)
      (fst (add_portal_ticket [] (mkChunkPos 7 7)) ++ [TimedChunkTicket_portal (mkChunkPos 8 7) 400])
      = Some ts' /\ ts' ≡ₚ [TimedChunkTicket_portal (mkChunkPos 8 7) 99].
Proof.
  apply (timed_ticket_lifetime (fun _ => true) 301
    (fst (add_portal_ticket [] (mkChunkPos 7 7)) ++ [TimedChunkTicket_portal (mkChunkPos 8 7) 400])).
  - reflexivity.
  - repeat constructor; vm_compute; reflexivity.
Defined.

(** Saving and restoring timed tickets keeps the portal tickets, in order and with
    their countdowns, and forgets the ender pearl tickets. *)
Theorem persistent_tickets_roundtrip ts :
  unique_keys ts ->
  (forall t, t ∈ ts -> tt_kind t = Portal -> tt_ticket t = portal_ticket) ->
  from_persistent (to_persistent ts) = filter (fun t => tt_kind t = Portal) ts.
Proof. exact (from_persistent_app [] ts). Qed.

Lemma persistent_tickets_roundtrip_witness :
  from_persistent (to_persistent
    [TimedChunkTicket_portal (mkChunkPos 0 0) 17; mkTimed EnderPearl (mkChunkPos 0 0) ender_pearl_ticket 3;
     TimedChunkTicket_portal (mkChunkPos (-1) 0) 300]) =
    [TimedChunkTicket_portal (mkChunkPos 0 0) 17; TimedChunkTicket_portal (mkChunkPos (-1) 0) 300].
Proof.
  apply (persistent_tickets_roundtrip
    [TimedChunkTicket_portal (mkChunkPos 0 0) 17; mkTimed EnderPearl (mkChunkPos 0 0) ender_pearl_ticket 3;
     TimedChunkTicket_portal (mkChunkPos (-1) 0) 300]).
  - apply (bool_decide_unpack _). vm_compute. exact I.
  - apply (Forall_forall (fun t => tt_kind t = Portal -> tt_ticket t = portal_ticket)).
    repeat constructor; discriminate.
Defined.
