(* ===== verification/BitPack.v ===== *)
(** * Bit packing of chunk palettes

    Models [steel-core/src/chunk_saver/bit_pack.rs].  A [u64] word is its [Z]; shifts
    left drop the bits past 64.  Shared lemmas on words that hold values in equal
    bit fields follow the definitions. *)

From S2P Require Import Prelude.

(** ** Operations *)

Definition bits_for_palette_len (palette_len : Z) : option Z :=
  if palette_len <=? 1 then None
  else if palette_len <=? 2 then Some 1
  else if palette_len <=? 4 then Some 2
  else if palette_len <=? 16 then Some 4
  else if palette_len <=? 256 then Some 8
  else Some 16.

(** [slice.chunks(n)]; the length of the slice is enough fuel. *)
Fixpoint chunks_loop {A} (fuel n : nat) (l : list A) : list (list A) :=
  match fuel, l with
  | S fuel', _ :: _ => take n l :: chunks_loop fuel' n (drop n l)
  | _, _ => []
  end.

Definition chunks {A} (n : nat) (l : list A) : list (list A) := chunks_loop (length l) n l.

(** [a.div_ceil(b)] on [usize]. *)
Definition div_ceil_nat (a b : nat) : nat := if (a mod b =? 0)%nat then a / b else S (a / b).

(** The inner loop: one word from the values of one chunk. *)
Definition pack_word (bits : Z) (chunk : list Z) : Z :=
  foldl (fun word '(j, index) => Z.lor word (u64 (Z.shiftl index (Z.of_nat j * bits)))) 0
    (imap pair chunk).

Definition values_per_u64 (bits : Z) : nat := Z.to_nat (64 / bits).

Definition pack_indices (indices : list Z) (bits : Z) : option (list Z) :=
  match indices with
  | [] => Some []
  | _ =>
      let n := values_per_u64 bits in
      let num_u64s := div_ceil_nat (length indices) n in
      for_each (imap pair (chunks n indices))
        (fun '(i, chunk) data => vec_set data i (pack_word bits chunk)) (replicate num_u64s 0)
  end.

Definition unpack_indices (data : list Z) (bits : Z) : list Z :=
  let mask := 2 ^ bits - 1 in
  data ≫= fun word =>
    (fun j => u32 (Z.land (Z.shiftr word (Z.of_nat j * bits)) mask)) <$> seq 0 (values_per_u64 bits).

(** ** Lemmas: words of equal fields *)

(** The word whose field [j] is the [j]-th value. *)
Fixpoint le_word (bits : Z) (vs : list Z) : Z :=
  match vs with
  | [] => 0
  | v :: vs' => v + 2 ^ bits * le_word bits vs'
  end.

Definition fits (bits : Z) (v : Z) : Prop := 0 <= v < 2 ^ bits.

Section Words.
Context (bits : Z) (Hbits : 1 <= bits).

Lemma le_word_range vs :
  Forall (fits bits) vs -> 0 <= le_word bits vs < 2 ^ (Z.of_nat (length vs) * bits).
Proof using Hbits.
  induction 1 as [|v vs [Hv1 Hv2] _ IH]; simpl; [lia|].
  replace (Z.of_nat (S (length vs)) * bits) with (bits + Z.of_nat (length vs) * bits) by lia.
  rewrite Z.pow_add_r by lia.
  assert (0 < 2 ^ bits) as Hp by (apply Z.pow_pos_nonneg; lia).
  set (P := 2 ^ bits) in *. set (Q := 2 ^ (Z.of_nat (length vs) * bits)) in *. clearbody P Q.
  pose proof (Z.mul_le_mono_nonneg_l (le_word bits vs) (Q - 1) P). nia.
Qed.

Lemma le_word_app vs ws :
  le_word bits (vs ++ ws) = le_word bits vs + 2 ^ (Z.of_nat (length vs) * bits) * le_word bits ws.
Proof using Hbits.
  induction vs as [|v vs IH].
  { cbn [app le_word length]. change (2 ^ (Z.of_nat 0 * bits)) with 1. lia. }
  cbn [app le_word length]. rewrite IH.
  replace (Z.of_nat (S (length vs)) * bits) with (bits + Z.of_nat (length vs) * bits) by lia.
  rewrite Z.pow_add_r by lia. lia.
Qed.

(** Reading a field back. *)
Lemma le_word_field vs j :
  Forall (fits bits) vs ->
  Z.land (Z.shiftr (le_word bits vs) (Z.of_nat j * bits)) (2 ^ bits - 1) = default 0 (vs !! j).
Proof using Hbits.
  rewrite land_ones_mod by lia. revert j.
  induction vs as [|v vs IH]; intros j Hall; simpl.
  { by rewrite Z.shiftr_0_l. }
  apply Forall_cons in Hall as [[Hv1 Hv2] Hall]. destruct j as [|j].
  - rewrite Z.shiftr_0_r, Z.mul_comm, Z.mod_add by lia. by apply Z.mod_small.
  - simpl. rewrite <- IH by done.
    replace (Z.of_nat (S j) * bits) with (bits + Z.of_nat j * bits) by lia.
    rewrite <- Z.shiftr_shiftr by lia. do 2 f_equal.
    rewrite Z.shiftr_div_pow2 by lia. rewrite Z.mul_comm, Z.div_add by lia.
    rewrite (Z.div_small v) by lia. lia.
Qed.

(** Writing a field with a bitwise or, within 64 bits. *)
Lemma le_word_snoc vs v :
  Forall (fits bits) vs -> fits bits v -> Z.of_nat (S (length vs)) * bits <= 64 ->
  Z.lor (le_word bits vs) (u64 (Z.shiftl v (Z.of_nat (length vs) * bits))) = le_word bits (vs ++ [v]).
Proof using Hbits.
  intros Hvs [Hv1 Hv2] H64. pose proof (le_word_range vs Hvs) as Hr.
  assert (Z.shiftl v (Z.of_nat (length vs) * bits) < 2 ^ 64) as Hs.
  { rewrite Z.shiftl_mul_pow2 by lia.
    apply Z.lt_le_trans with (2 ^ bits * 2 ^ (Z.of_nat (length vs) * bits)).
    - apply Z.mul_lt_mono_pos_r; lia.
    - rewrite <- Z.pow_add_r by lia. apply Z.pow_le_mono_r; lia. }
  assert (u64 (Z.shiftl v (Z.of_nat (length vs) * bits)) = Z.shiftl v (Z.of_nat (length vs) * bits)) as ->.
  { apply (wrapu_small 64). split; [|done]. by apply Z.shiftl_nonneg. }
  rewrite lor_shiftl_add by lia. rewrite le_word_app. simpl. lia.
Qed.

Lemma pack_word_eq vs :
  Forall (fits bits) vs -> Z.of_nat (length vs) * bits <= 64 -> pack_word bits vs = le_word bits vs.
Proof using Hbits.
  unfold pack_word. induction vs as [|v vs IH] using rev_ind; [done|].
  rewrite Forall_app, length_app, imap_app, foldl_app. intros [Hvs Hv] H64.
  apply Forall_cons in Hv as [Hv _]. cbn [length] in H64. rewrite IH by (done || lia). simpl.
  rewrite Nat.add_0_r. apply le_word_snoc; [done|done|lia].
Qed.
End Words.

(** ** Lemmas: the word vector *)

Lemma div_ceil_nat_lt a b w : (0 < b)%nat -> (w < div_ceil_nat a b <-> w * b < a)%nat.
Proof.
  intros Hb. unfold div_ceil_nat. pose proof (Nat.div_mod_eq a b) as E.
  pose proof (Nat.mod_upper_bound a b ltac:(lia)) as Hm.
  destruct (Nat.eqb_spec (a mod b) 0); split; intros H; nia.
Qed.

Lemma chunks_lookup {A} n (l : list A) w :
  (0 < n)%nat ->
  chunks n l !! w = if decide (w * n < length l)%nat then Some (take n (drop (w * n) l)) else None.
Proof.
  intros Hn. unfold chunks. assert (length l <= length l)%nat as Hf by lia.
  revert Hf. generalize (length l) at 2 3 as fuel. intros fuel. revert l w.
  induction fuel as [|fuel IH]; intros l w Hf.
  { destruct l; simpl in Hf; [|lia]. by rewrite decide_False by (simpl; lia). }
  destruct l as [|x l]; simpl in Hf.
  { by rewrite decide_False by (simpl; lia). }
  cbn [chunks_loop]. destruct w as [|w].
  - rewrite decide_True by (simpl; lia). done.
  - cbn [lookup list_lookup]. rewrite IH by (rewrite length_drop; simpl; lia).
    rewrite length_drop, drop_drop. cbn [length].
    replace (S w * n)%nat with (n + w * n)%nat by lia.
    repeat case_decide; try lia; done.
Qed.

(** The words that hold the values of [l], [n] to a word. *)
Definition packed_words (bits : Z) (n : nat) (l : list Z) : list Z :=
  (fun w => le_word bits (take n (drop (w * n) l))) <$> seq 0 (div_ceil_nat (length l) n).

Lemma packed_words_lookup bits n l w :
  packed_words bits n l !! w =
    if decide (w < div_ceil_nat (length l) n)%nat
    then Some (le_word bits (take n (drop (w * n) l))) else None.
Proof.
  unfold packed_words. rewrite list_lookup_fmap. case_decide.
  - by rewrite lookup_seq_lt by done.
  - by rewrite lookup_seq_ge by lia.
Qed.

Lemma values_per_u64_spec bits :
  1 <= bits <= 64 ->
  (0 < values_per_u64 bits)%nat /\ Z.of_nat (values_per_u64 bits) * bits <= 64.
Proof.
  intros Hb. unfold values_per_u64.
  pose proof (Z.div_le_lower_bound 64 bits 1 ltac:(lia) ltac:(lia)).
  pose proof (Z.mul_div_le 64 bits ltac:(lia)). lia.
Qed.

Lemma fits_window bits n k (l : list Z) :
  Forall (fits bits) l -> Forall (fits bits) (take n (drop k l)).
Proof. intros H. by apply Forall_take, Forall_drop. Qed.

Lemma pack_indices_eq l bits :
  1 <= bits <= 64 -> Forall (fits bits) l ->
  pack_indices l bits = Some (packed_words bits (values_per_u64 bits) l).
Proof.
  intros Hb Hl. destruct (values_per_u64_spec bits Hb) as [Hn H64].
  unfold pack_indices. destruct l as [|v l].
  { unfold packed_words, div_ceil_nat. cbn [length].
    by rewrite Nat.Div0.mod_0_l, Nat.Div0.div_0_l. } remember (v :: l) as vs eqn:Evs. clear Evs.
  set (n := values_per_u64 bits) in *. set (num := div_ceil_nat (length vs) n).
  match goal with |- for_each ?L ?f ?s = _ =>
    destruct (for_each_ind (fun pre d => length d = num /\
      forall w, d !! w = if decide (w < length pre)%nat
        then packed_words bits n vs !! w else if decide (w < num)%nat then Some 0 else None)
      L f s) as (d & -> & Hlen & Hd) end.
  - split; [apply length_replicate|]. intros w. rewrite decide_False by (simpl; lia). case_decide.
    + by apply lookup_replicate_2.
    + apply lookup_replicate_None. lia.
  - intros pre [i chunk] todo d El [Hlen Hd].
    assert (imap pair (chunks n vs) !! length pre = Some (i, chunk)) as Hc.
    { rewrite El. by apply list_lookup_middle. }
    rewrite list_lookup_imap, chunks_lookup in Hc by done. case_decide as Hlt; [|done].
    simpl in Hc. injection Hc as <- <-.
    assert (length pre < num)%nat as Hi by (by apply div_ceil_nat_lt).
    rewrite vec_set_Some by lia. eexists. split; [reflexivity|].
    split; [by rewrite length_insert|]. intros w. rewrite lookup_insert_list by lia.
    rewrite Hd, length_app. simpl. destruct (decide (w = length pre)) as [->|Hne].
    + rewrite decide_True by lia. rewrite packed_words_lookup, decide_True by done.
      f_equal. apply pack_word_eq; [lia|by apply fits_window|].
      rewrite length_take. nia.
    + repeat case_decide; try done; lia.
  - f_equal. apply list_eq. intros w. rewrite Hd, length_imap.
    assert (length (chunks n vs) = num) as ->; [|].
    { apply Nat.le_antisymm; apply Nat.le_ngt; intros Hlt.
      - assert (is_Some (chunks n vs !! num)) as [? E] by (by apply lookup_lt_is_Some_2).
        rewrite chunks_lookup in E by done. case_decide as H; [|done].
        apply div_ceil_nat_lt in H; [|done]. fold num in H. lia.
      - assert (chunks n vs !! length (chunks n vs) = None) as E by (by apply lookup_ge_None_2).
        rewrite chunks_lookup in E by done. case_decide as H; [done|].
        rewrite <- (div_ceil_nat_lt _ _ _ Hn) in H. fold num in H. lia. }
    case_decide; [done|]. rewrite packed_words_lookup.
    by rewrite decide_False.
Qed.

Lemma unpack_packed_words l bits i :
  1 <= bits <= 32 -> Forall (fits bits) l -> (i < length l)%nat ->
  unpack_indices (packed_words bits (values_per_u64 bits) l) bits !! i = l !! i.
Proof.
  intros Hb Hl Hi. destruct (values_per_u64_spec bits ltac:(lia)) as [Hn H64].
  unfold unpack_indices. set (n := values_per_u64 bits) in *.
  rewrite (Nat.div_mod_eq i n) at 1. rewrite (Nat.mul_comm n).
  assert (i mod n < n)%nat as Hj by (apply Nat.mod_upper_bound; lia).
  assert (i / n * n + i mod n = i)%nat as Ei by (pose proof (Nat.div_mod_eq i n); lia).
  rewrite (bind_lookup _ n) by (intros; rewrite ?length_fmap, ?length_seq; done).
  rewrite packed_words_lookup, decide_True by (apply div_ceil_nat_lt; lia). simpl.
  rewrite list_lookup_fmap, lookup_seq_lt by done. simpl.
  rewrite le_word_field by (lia || by apply fits_window).
  rewrite lookup_take_lt, lookup_drop, Ei by done.
  destruct (lookup_lt_is_Some_2 l i Hi) as [v Hv]. rewrite Hv. simpl. f_equal.
  apply (wrapu_small 32). rewrite Forall_forall in Hl.
  destruct (Hl v ltac:(by eapply list_elem_of_lookup_2)) as [? ?].
  pose proof (Z.pow_le_mono_r 2 bits 32). unfold in_u. lia.
Qed.

(** ** Properties *)

(** For every width of the storage format, unpacking inverts packing. *)
Lemma pack_unpack_indices indices bits :
  bits ∈ [1; 2; 4; 8; 16] -> Forall (fits bits) indices ->
  exists data, pack_indices indices bits = Some data /\
    length data = div_ceil_nat (length indices) (values_per_u64 bits) /\
    take (length indices) (unpack_indices data bits) = indices.
Proof.
  intros Hb Hl. assert (1 <= bits <= 32) as Hb'.
  { repeat (apply elem_of_cons in Hb as [->|Hb]; [lia|]). by apply elem_of_nil in Hb. }
  eexists. split; [apply pack_indices_eq; [lia|done]|]. split.
  - unfold packed_words. by rewrite length_fmap, length_seq.
  - apply list_eq. intros i. destruct (decide (i < length indices)%nat) as [Hi|Hi].
    + rewrite lookup_take_lt by done. by apply unpack_packed_words.
    + rewrite lookup_take_ge by lia. symmetry. apply lookup_ge_None_2. lia.
Qed.

(** The chosen width is sufficient and least. *)
Lemma bits_for_palette_len_least n :
  0 <= n <= 65536 ->
  match bits_for_palette_len n with
  | None => n <= 1
  | Some b => b ∈ [1; 2; 4; 8; 16] /\ (forall i, 0 <= i < n -> fits b i) /\
      forall b', b' ∈ [1; 2; 4; 8; 16] -> b' < b -> 2 ^ b' < n
  end.
Proof.
  intros Hn. unfold bits_for_palette_len, fits.
  assert (forall b b', b' ∈ [1; 2; 4; 8; 16] -> b' < b ->
    b ∈ [1; 2; 4; 8; 16] -> b' <= b / 2) as Hprev.
  { intros b b' Hb' Hlt Hb. apply Z.div_le_lower_bound; [lia|].
    repeat (apply elem_of_cons in Hb as [->|Hb]; [
      repeat (apply elem_of_cons in Hb' as [->|Hb']; [lia|]); by apply elem_of_nil in Hb' |]).
    by apply elem_of_nil in Hb. }
  destruct (Z.leb_spec n 1); [lia|].
  destruct (Z.leb_spec n 2); [|destruct (Z.leb_spec n 4); [|destruct (Z.leb_spec n 16);
    [|destruct (Z.leb_spec n 256)]]].
  all: split; [set_solver|]; split; [intros i Hi; simpl; lia|].
  all: intros b' Hb' Hlt; specialize (Hprev _ b' Hb' Hlt ltac:(set_solver)).
  all: match type of Hprev with _ <= ?k =>
         let v := eval vm_compute in (2 ^ k) in
         pose proof (Z.pow_le_mono_r 2 b' k ltac:(lia) Hprev) as Hp; change (2 ^ k) with v in Hp end.
  all: lia.
Qed.

(** The storage form of palette indices is lossless: for a palette of at most 65536
    entries [bits_for_palette_len] picks the least width of the format into which every
    index fits (none for a single entry); packing indices into 64-bit words with that
    width never writes out of bounds, uses as many words as are needed, and the first
    [indices.len()] unpacked values are the indices. *)
Theorem palette_indices_roundtrip n indices :
  0 <= n <= 65536 -> Forall (fun i => 0 <= i < n) indices ->
  match bits_for_palette_len n with
  | None => n <= 1
  | Some bits =>
      (forall b', b' ∈ [1; 2; 4; 8; 16] -> b' < bits -> 2 ^ b' < n) /\
      exists data, pack_indices indices bits = Some data /\
        length data = div_ceil_nat (length indices) (values_per_u64 bits) /\
        take (length indices) (unpack_indices data bits) = indices
  end.
Proof.
  intros Hn Hi. pose proof (bits_for_palette_len_least n Hn) as Hb.
  destruct (bits_for_palette_len n) as [bits|]; [|done]. destruct Hb as (Hin & Hfit & Hleast).
  split; [done|]. apply pack_unpack_indices; [done|]. eapply Forall_impl; [exact Hi|]. auto.
Qed.

Lemma palette_indices_roundtrip_witness :
  let indices := (fun i => Z.of_nat i mod 4) <$> seq 0 70 in
  exists data, pack_indices indices 2 = Some data /\
    length data = div_ceil_nat (length indices) (values_per_u64 2) /\
    take (length indices) (unpack_indices data 2) = indices.
Proof.
  apply (palette_indices_roundtrip 4 ((fun i => Z.of_nat i mod 4) <$> seq 0 70)); [lia|].
  apply Forall_fmap, Forall_forall. intros i _. apply Z.mod_pos_bound. lia.
Defined.
