(* ===== verification/Palette.v ===== *)
(** * Paletted containers

    Models [steel-core/src/chunk/paletted_container.rs]: [HeterogeneousPalette],
    [PalettedContainer] in its three modes, the network form written by [write], and
    the block counters.  A cube is the nested array [[y][z][x]] of the source; an index
    out of range is a panic ([None]).  Entry counts are [u16]. *)

From S2P Require Import Prelude VarInt BitPack.
Open Scope steel_scope.

(** ** Cubes *)

Abbreviation Cube V := (list (list (list V))).

Definition cube_get {V} (cube : Cube V) (x y z : nat) : option V :=
  slab ← cube !! y; row ← slab !! z; row !! x.

Definition cube_set {V} (cube : Cube V) (x y z : nat) (v : V) : option (Cube V) :=
  slab ← cube !! y;
  row ← slab !! z;
  row ← vec_set row x v;
  slab ← vec_set slab z row;
  vec_set cube y slab.

(** [cube.iter().flatten().flatten()], also the memory order of the nested array. *)
Definition flat {V} (cube : Cube V) : list V := (cube ≫= id) ≫= id.

Definition cube_fill {V} (dim : nat) (v : V) : Cube V :=
  replicate dim (replicate dim (replicate dim v)).

Record HeterogeneousPalette (V : Type) := mkHetero {
  het_cube : Cube V;
  het_palette : list (V * Z);
}.
Arguments mkHetero {V} _ _.
Arguments het_cube {V} _.
Arguments het_palette {V} _.

Inductive PalettedContainer (V : Type) :=
| Homogeneous (value : V)
| Heterogeneous (data : HeterogeneousPalette V)
| Building (cube : Cube V).
Arguments Homogeneous {V} _.
Arguments Heterogeneous {V} _.
Arguments Building {V} _.

Inductive PaletteMode := PaletteLinear | PaletteHash | PaletteGlobal.

#[global] Instance PaletteMode_eq_dec : EqDecision PaletteMode.
Proof. solve_decision. Defined.

Section Container.
Context {V : Type} `{EqDecision V} (DIM : nat).

Definition VOLUME : nat := DIM * DIM * DIM.

(** ** Palette entries *)

Definition find_entry (v : V) (palette : list (V * Z)) : option (nat * (V * Z)) :=
  list_find (fun e => fst e = v) palette.

(** The entry of [v] grows by [n], or [(v, n)] is pushed. *)
Definition palette_add (palette : list (V * Z)) (v : V) (n : Z) : list (V * Z) :=
  match find_entry v palette with
  | Some (i, (w, c)) => <[i := (w, u16 (c + n))]> palette
  | None => palette ++ [(v, n)]
  end.

Definition palette_remove (palette : list (V * Z)) (v : V) : list (V * Z) :=
  match find_entry v palette with
  | Some (i, (w, c)) =>
      let c := u16 (c - 1) in
      let palette := <[i := (w, c)]> palette in
      if c =? 0 then swap_remove i palette else palette
  | None => palette
  end.

(** ** Heterogeneous containers *)

Definition het_get_at_index (h : HeterogeneousPalette V) (index : nat) : option V :=
  let y := (index / (DIM * DIM))%nat in
  let z := ((index / DIM) mod DIM)%nat in
  let x := (index mod DIM)%nat in
  cube_get (het_cube h) x y z.

Definition het_set (h : HeterogeneousPalette V) (x y z : nat) (value : V)
  : option (HeterogeneousPalette V * V) :=
  old_value ← cube_get (het_cube h) x y z;
  let palette := palette_add (het_palette h) value 1 in
  let palette := palette_remove palette old_value in
  cube ← cube_set (het_cube h) x y z value;
  Some (mkHetero cube palette, old_value).

(** ** Containers *)

(** The inner [while]: length of the run of [v] at the head of the rest of the slice. *)
Fixpoint run_length (v : V) (rest : list V) : nat :=
  match rest with
  | w :: rest' => if decide (w = v) then S (run_length v rest') else 0
  | [] => 0
  end.

(** The outer [while] of [from_cube]; [rest] is [flat[i..]].  A round consumes at least
    one cell, so the number of cells is enough fuel. *)
Fixpoint count_runs (fuel : nat) (rest : list V) (palette : list (V * Z)) : list (V * Z) :=
  match fuel, rest with
  | S fuel', v :: rest' =>
      let n := S (run_length v rest') in
      count_runs fuel' (drop n rest) (palette_add palette v (u16 (Z.of_nat n)))
  | _, _ => palette
  end.

Definition from_cube (cube : Cube V) : PalettedContainer V :=
  match count_runs VOLUME (flat cube) [] with
  | [(v, _)] => Homogeneous v
  | palette => Heterogeneous (mkHetero cube palette)
  end.

Definition container_get (c : PalettedContainer V) (x y z : nat) : option V :=
  match c with
  | Homogeneous value => Some value
  | Heterogeneous data => cube_get (het_cube data) x y z
  | Building cube => cube_get cube x y z
  end.

Definition get_at_index (c : PalettedContainer V) (index : nat) : option V :=
  match c with
  | Homogeneous value => Some value
  | Heterogeneous data => het_get_at_index data index
  | Building cube =>
      let y := (index / (DIM * DIM))%nat in
      let z := ((index / DIM) mod DIM)%nat in
      let x := (index mod DIM)%nat in
      cube_get cube x y z
  end.

(** The first [DIM] slots of [out] are overwritten; a shorter [out] panics. *)
Definition copy_column_into (c : PalettedContainer V) (x z : nat) (out : list V)
  : option (list V) :=
  if (length out <? DIM)%nat then None
  else
    column ← mapM (fun y => container_get c x y z) (seq 0 DIM);
    Some (column ++ drop DIM out).

Definition maybe_has (c : PalettedContainer V) (predicate : V -> bool) : bool :=
  match c with
  | Homogeneous value => predicate value
  | Heterogeneous data => existsb (fun e => predicate (fst e)) (het_palette data)
  | Building cube => existsb predicate (flat cube)
  end.

Definition collect_values (c : PalettedContainer V) : list V :=
  match c with
  | Homogeneous value => replicate VOLUME value
  | Heterogeneous data => flat (het_cube data)
  | Building cube => flat cube
  end.

Definition enter_building_mode (c : PalettedContainer V) : PalettedContainer V :=
  match c with
  | Building cube => Building cube
  | Homogeneous value => Building (cube_fill DIM value)
  | Heterogeneous data => Building (het_cube data)
  end.

Definition finalize_building (c : PalettedContainer V) : PalettedContainer V :=
  match c with
  | Building cube => from_cube cube
  | c => c
  end.

Definition container_set (c : PalettedContainer V) (x y z : nat) (value : V)
  : option (PalettedContainer V * V) :=
  match c with
  | Homogeneous original =>
      if decide (value = original) then Some (c, original)
      else
        cube ← cube_set (cube_fill DIM original) x y z value;
        Some (from_cube cube, original)
  | Heterogeneous data =>
      '(data, original) ← het_set data x y z value;
      match het_palette data with
      | [(v, _)] => Some (Homogeneous v, original)
      | _ => Some (Heterogeneous data, original)
      end
  | Building cube =>
      old ← cube_get cube x y z;
      cube ← cube_set cube x y z value;
      Some (Building cube, old)
  end.

(** ** Network form *)

(** [None] is the [unreachable!()] for a palette of at most one entry. *)
Definition calculate_strategy (count : Z) : option (Z * PaletteMode) :=
  if (DIM =? 16)%nat then
    if count <=? 1 then None
    else if count <=? 16 then Some (4, PaletteLinear)
    else if count <=? 32 then Some (5, PaletteHash)
    else if count <=? 64 then Some (6, PaletteHash)
    else if count <=? 128 then Some (7, PaletteHash)
    else if count <=? 256 then Some (8, PaletteHash)
    else Some (15, PaletteGlobal)
  else
    if count <=? 1 then None
    else if count <=? 2 then Some (1, PaletteLinear)
    else if count <=? 4 then Some (2, PaletteLinear)
    else if count <=? 8 then Some (3, PaletteHash)
    else Some (6, PaletteGlobal).

(** [long.write(writer)]: eight bytes, the highest first. *)
Definition write_u64 (v : Z) : list Z :=
  (fun k => u8 (Z.shiftr v (8 * k))) <$> [7; 6; 5; 4; 3; 2; 1; 0].

Definition pack_bits (indices : list Z) (bits : Z) : option (list Z) :=
  let values_per_long := Z.to_nat (64 / bits) in
  let len := div_ceil_nat (length indices) values_per_long in
  for_each (imap pair indices) (fun '(i, index) data =>
    let array_index := (i / values_per_long)%nat in
    let offset := Z.of_nat (i mod values_per_long)%nat * bits in
    word ← data !! array_index;
    vec_set data array_index (Z.lor word (u64 (Z.shiftl index offset)))) (replicate len 0).

Context (to_global_id : V -> Z).

Definition write_ids (ids : list V) : option (list Z) :=
  mjoin <$> mapM (fun v => VarInt_write (i32 (to_global_id v))) ids.

(** [None] is a panic: a container still in building mode, or the [unwrap] of a cell
    whose value has no palette entry. *)
Definition container_write (c : PalettedContainer V) : option (list Z) :=
  match c with
  | Homogeneous value =>
      id ← VarInt_write (i32 (to_global_id value)); Some (0 :: id)
  | Heterogeneous data =>
      let palette := het_palette data in
      '(bits, mode) ← calculate_strategy (Z.of_nat (length palette));
      head ← match mode with
             | PaletteLinear | PaletteHash =>
                 len ← VarInt_write (i32 (Z.of_nat (length palette)));
                 ids ← write_ids (fst <$> palette);
                 Some (len ++ ids)
             | PaletteGlobal => Some []
             end;
      indices ← mapM (fun v =>
        match mode with
        | PaletteGlobal => Some (to_global_id v)
        | _ => (fun e => Z.of_nat (fst e)) <$> find_entry v palette
        end) (flat (het_cube data));
      packed ← pack_bits indices bits;
      Some (bits :: head ++ (packed ≫= write_u64))
  | Building _ => None
  end.
End Container.

(** ** Block palettes *)

Definition non_empty_block_count (c : PalettedContainer Z) : Z :=
  match c with
  | Homogeneous v => if v =? 0 then 0 else u16 (Z.of_nat (VOLUME 16))
  | Heterogeneous data =>
      foldl (fun count '(v, c) => if v =? 0 then count else u16 (count + c)) 0 (het_palette data)
  | Building cube =>
      foldl (fun count v => if v =? 0 then count else u16 (count + 1)) 0 (flat cube)
  end.

(** [is_air] is the registry's lookup of the block state's air flag. *)
Definition has_only_air (is_air : Z -> bool) (c : PalettedContainer Z) : bool :=
  match c with
  | Homogeneous v => is_air v
  | Heterogeneous _ => false
  | Building cube => forallb is_air (flat cube)
  end.

(** ** Lemmas: cubes *)

Definition cube_ok {V} (dim : nat) (cube : Cube V) : Prop :=
  length cube = dim /\
  Forall (fun slab => length slab = dim /\ Forall (fun row : list V => length row = dim) slab) cube.

Definition cell_index (dim x y z : nat) : nat := (y * dim + z) * dim + x.

Lemma bind_id_insert {A} n (l : list (list A)) i j row v :
  (forall r, r ∈ l -> length r = n) -> l !! i = Some row -> (j < n)%nat ->
  (<[i := <[j := v]> row]> l) ≫= id = <[(i * n + j)%nat := v]> (l ≫= id).
Proof.
  revert i. induction l as [|r l IH]; intros i Hlen Hi Hj; [done|].
  assert (length r = n) as Hr by (apply Hlen; left).
  change ((r :: l) ≫= id) with (r ++ (l ≫= id)). destruct i as [|i]; simpl in Hi.
  - injection Hi as ->. simpl. change (<[j := v]> row ++ (l ≫= id) = <[j := v]> (row ++ (l ≫= id))).
    by rewrite insert_app_l by lia.
  - change (<[S i := <[j := v]> row]> (r :: l) ≫= id)
      with (r ++ (<[i := <[j := v]> row]> l ≫= id)).
    rewrite IH; [|intros; apply Hlen; by right|done|done].
    rewrite insert_app_r_alt by lia. f_equal. f_equal. lia.
Qed.

Lemma cube_ok_slab {V} dim (cube : Cube V) y slab :
  cube_ok dim cube -> cube !! y = Some slab ->
  length slab = dim /\ forall z row, slab !! z = Some row -> length row = dim.
Proof.
  intros [_ Hc] Hy. rewrite Forall_forall in Hc.
  destruct (Hc slab ltac:(by eapply list_elem_of_lookup_2)) as [Hs Hr]. split; [done|].
  intros z row Hz. rewrite Forall_forall in Hr. apply Hr. by eapply list_elem_of_lookup_2.
Qed.

Lemma cube_rows_length {V} dim (cube : Cube V) r :
  cube_ok dim cube -> r ∈ (cube ≫= id) -> length r = dim.
Proof.
  intros [_ Hc] (slab & Hr & Hs)%list_elem_of_bind. rewrite Forall_forall in Hc.
  destruct (Hc slab Hs) as [_ H]. rewrite Forall_forall in H. by apply H.
Qed.

Lemma cube_get_flat {V} dim (cube : Cube V) x y z :
  cube_ok dim cube -> (x < dim)%nat -> (z < dim)%nat ->
  cube_get cube x y z = flat cube !! cell_index dim x y z.
Proof.
  intros Hok Hx Hz. unfold flat, cell_index, cube_get.
  rewrite (bind_lookup _ dim) by (try done; intros; by eapply cube_rows_length).
  rewrite (bind_lookup _ dim); [|intros slab Hs; destruct Hok as [_ Hc];
    rewrite Forall_forall in Hc; by apply Hc|done].
  by destruct (cube !! y) as [slab|]; simpl; [destruct (slab !! z)|].
Qed.

Lemma flat_length {V} dim (cube : Cube V) : cube_ok dim cube -> length (flat cube) = VOLUME dim.
Proof.
  assert (forall A (l : list (list A)) n, (forall r, r ∈ l -> length r = n) ->
    length (l ≫= id) = (length l * n)%nat) as Hlen.
  { intros A l n. induction l as [|r l IH]; intros H; [done|].
    change ((r :: l) ≫= id) with (r ++ (l ≫= id)). rewrite length_app, IH.
    - rewrite (H r) by left. simpl. lia.
    - intros r' Hr'. apply H. by right. }
  intros Hok. unfold flat, VOLUME. rewrite (Hlen _ _ dim) by (intros; by eapply cube_rows_length).
  destruct Hok as [Hl Hc]. rewrite (Hlen _ _ dim); [lia|].
  intros slab Hs. rewrite Forall_forall in Hc. by apply Hc.
Qed.

Lemma cell_index_bound dim x y z :
  (x < dim)%nat -> (y < dim)%nat -> (z < dim)%nat -> (cell_index dim x y z < VOLUME dim)%nat.
Proof. unfold cell_index, VOLUME. nia. Qed.

Lemma cube_set_spec {V} dim (cube : Cube V) x y z v :
  cube_ok dim cube -> (x < dim)%nat -> (y < dim)%nat -> (z < dim)%nat ->
  exists cube', cube_set cube x y z v = Some cube' /\ cube_ok dim cube' /\
    flat cube' = <[cell_index dim x y z := v]> (flat cube).
Proof.
  intros Hok Hx Hy Hz. pose proof Hok as [Hl Hc].
  destruct (lookup_lt_is_Some_2 cube y ltac:(lia)) as [slab Hslab].
  destruct (cube_ok_slab dim cube y slab Hok Hslab) as [Hsl Hrows].
  destruct (lookup_lt_is_Some_2 slab z ltac:(lia)) as [row Hrow].
  pose proof (Hrows z row Hrow) as Hrl.
  exists (<[y := <[z := <[x := v]> row]> slab]> cube). unfold cube_set. rewrite Hslab. simpl.
  rewrite Hrow. simpl. rewrite (vec_set_Some row) by lia. simpl.
  rewrite (vec_set_Some slab) by lia. simpl. rewrite (vec_set_Some cube) by lia.
  split; [done|]. split.
  - split; [by rewrite length_insert|]. apply Forall_insert; [done|].
    split; [by rewrite length_insert|]. apply Forall_insert; [|by rewrite length_insert].
    rewrite Forall_forall in Hc. by apply (Hc slab), list_elem_of_lookup_2 with y.
  - unfold flat, cell_index. rewrite Forall_forall in Hc.
    rewrite (bind_id_insert dim cube y z slab) by (try done; intros s Hs; by apply Hc).
    apply bind_id_insert; [intros; by eapply cube_rows_length| |done].
    rewrite (bind_lookup _ dim) by (try done; intros s Hs; by apply Hc). by rewrite Hslab.
Qed.

Lemma cube_fill_ok {V} dim (v : V) : cube_ok dim (cube_fill dim v).
Proof.
  split; [apply length_replicate|]. apply Forall_replicate. split; [apply length_replicate|].
  apply Forall_replicate, length_replicate.
Qed.

Lemma flat_fill {V} dim (v : V) : flat (cube_fill dim v) = replicate (VOLUME dim) v.
Proof.
  assert (forall A n m (x : A), replicate n (replicate m x) ≫= id = replicate (n * m) x) as H.
  { intros A n m x. induction n as [|n IH]; [done|]. simpl. rewrite replicate_add. f_equal.
    exact IH. }
  unfold flat, cube_fill, VOLUME. by rewrite !H.
Qed.

(** ** Lemmas: palettes as counters *)

Section Counters.
Context {V : Type} `{EqDecision V}.

(** Occurrences of [v] in a list of cells, and the count a palette records for it. *)
Fixpoint occ (v : V) (l : list V) : Z :=
  match l with
  | [] => 0
  | w :: l' => (if decide (w = v) then 1 else 0) + occ v l'
  end.

Fixpoint pal_count (p : list (V * Z)) (v : V) : Z :=
  match p with
  | [] => 0
  | (w, c) :: p' => (if decide (w = v) then c else 0) + pal_count p' v
  end.

(** Distinct values, no entry of count zero. *)
Definition palette_wf (p : list (V * Z)) : Prop :=
  NoDup (fst <$> p) /\ Forall (fun e => 0 < snd e) p.

(** The palette records exactly the occurrences of every value. *)
Definition palette_counts (p : list (V * Z)) (cells : list V) : Prop :=
  palette_wf p /\ forall v, pal_count p v = occ v cells.

Lemma occ_nonneg v l : 0 <= occ v l <= Z.of_nat (length l).
Proof. induction l as [|w l IH]; simpl; [lia|]. case_decide; lia. Qed.

Lemma occ_pos v l : 0 < occ v l <-> v ∈ l.
Proof.
  induction l as [|w l IH]; simpl; [split; [lia|by intros ?%elem_of_nil]|].
  rewrite elem_of_cons, <- IH. pose proof (occ_nonneg v l).
  destruct (decide (w = v)) as [->|Hne]; [split; [by left|lia]|].
  rewrite Z.add_0_l. split; [by right|]. by intros [->|?].
Qed.

Lemma occ_app v l1 l2 : occ v (l1 ++ l2) = occ v l1 + occ v l2.
Proof. induction l1 as [|w l1 IH]; simpl; [lia|]. rewrite IH. case_decide; lia. Qed.

Lemma occ_replicate v w n : occ v (replicate n w) = if decide (w = v) then Z.of_nat n else 0.
Proof. induction n as [|n IH]; simpl; [by case_decide|]. rewrite IH. case_decide; lia. Qed.

Lemma occ_insert v l i x old :
  l !! i = Some old ->
  occ v (<[i := x]> l) =
    occ v l + (if decide (x = v) then 1 else 0) - (if decide (old = v) then 1 else 0).
Proof.
  revert i. induction l as [|w l IH]; intros i Hi; [done|]. destruct i as [|i]; simpl in *.
  - injection Hi as ->. lia.
  - rewrite (IH i Hi). lia.
Qed.

Lemma pal_count_app p q v : pal_count (p ++ q) v = pal_count p v + pal_count q v.
Proof. induction p as [|[w c] p IH]; simpl; [lia|]. rewrite IH. case_decide; lia. Qed.

Lemma pal_count_perm p q v : p ≡ₚ q -> pal_count p v = pal_count q v.
Proof.
  induction 1 as [|[w c] p q _ IH|[w c] [w' c'] p|p q r _ IH1 _ IH2]; simpl; [done|..]; lia.
Qed.

Lemma pal_count_notin p v : v ∉ (fst <$> p) -> pal_count p v = 0.
Proof.
  induction p as [|[w c] p IH]; simpl; [done|]. rewrite not_elem_of_cons. intros [Hne Hn].
  rewrite decide_False, IH by done. done.
Qed.

Lemma find_entry_Some v (p : list (V * Z)) i e :
  find_entry v p = Some (i, e) ->
  exists pre c post, e = (v, c) /\ p = pre ++ (v, c) :: post /\ i = length pre.
Proof.
  unfold find_entry. intros (Hi & He & _)%list_find_Some. destruct e as [w c]. simpl in He. subst.
  exists (take i p), c, (drop (S i) p). split; [done|]. split; [by rewrite take_drop_middle|].
  rewrite length_take_le; [done|]. apply lookup_lt_Some in Hi. lia.
Qed.

Lemma find_entry_None v (p : list (V * Z)) : find_entry v p = None -> v ∉ (fst <$> p).
Proof.
  unfold find_entry. intros H%list_find_None (e & -> & He)%list_elem_of_fmap.
  rewrite Forall_forall in H. by apply (H e He).
Qed.

Lemma palette_wf_mid pre v c post :
  palette_wf (pre ++ (v, c) :: post) ->
  pal_count (pre ++ (v, c) :: post) v = c /\ 0 < c /\
  (forall c', 0 < c' -> palette_wf (pre ++ (v, c') :: post)) /\ palette_wf (pre ++ post).
Proof.
  intros [Hnd Hpos]. rewrite Forall_app, Forall_cons in Hpos. destruct Hpos as (Hp1 & Hc & Hp2).
  rewrite fmap_app in Hnd. simpl in Hnd. pose proof Hnd as Hnd'.
  rewrite NoDup_app, NoDup_cons in Hnd. destruct Hnd as (H1 & H2 & H3 & H4). split_and!.
  - rewrite pal_count_app. simpl. rewrite decide_True by done.
    rewrite (pal_count_notin post) by done. rewrite pal_count_notin; [lia|].
    intros Hin. apply (H2 v Hin). left.
  - done.
  - intros c' Hc'. split; [by rewrite fmap_app|]. rewrite Forall_app, Forall_cons. done.
  - split; [|by apply Forall_app]. rewrite fmap_app, NoDup_app. split_and!; [done| |done].
    intros w Hw Hw'. apply (H2 w Hw). by right.
Qed.

Lemma palette_add_spec p v n :
  palette_wf p -> 0 < n -> pal_count p v + n < 65536 ->
  palette_wf (palette_add p v n) /\
  forall w, pal_count (palette_add p v n) w = pal_count p w + (if decide (v = w) then n else 0).
Proof.
  intros Hwf Hn Hb. unfold palette_add. destruct (find_entry v p) as [[i e]|] eqn:E.
  - apply find_entry_Some in E as (pre & c & post & -> & -> & ->).
    destruct (palette_wf_mid pre v c post Hwf) as (Hc & Hpos & Hset & _). rewrite Hc in Hb.
    assert (u16 (c + n) = c + n) as -> by (apply (wrapu_small 16); unfold in_u; lia).
    rewrite insert_app_r_alt, Nat.sub_diag by lia. simpl. split; [apply Hset; lia|].
    intros w. rewrite !pal_count_app. simpl. case_decide; lia.
  - apply find_entry_None in E. destruct Hwf as [Hnd Hpos]. split; [split|].
    + rewrite fmap_app, NoDup_app. split_and!; [done| |apply NoDup_singleton].
      intros w Hw Hw'. simpl in Hw'. apply list_elem_of_singleton in Hw' as ->. done.
    + apply Forall_app. split; [done|by constructor].
    + intros w. rewrite pal_count_app. simpl. case_decide; lia.
Qed.

Lemma palette_remove_spec p v :
  palette_wf p -> 0 < pal_count p v < 65536 ->
  palette_wf (palette_remove p v) /\
  forall w, pal_count (palette_remove p v) w = pal_count p w - (if decide (v = w) then 1 else 0).
Proof.
  intros Hwf Hb. unfold palette_remove. destruct (find_entry v p) as [[i e]|] eqn:E; last first.
  { apply find_entry_None in E. rewrite (pal_count_notin p v E) in Hb. lia. }
  apply find_entry_Some in E as (pre & c & post & -> & -> & ->).
  destruct (palette_wf_mid pre v c post Hwf) as (Hc & Hpos & Hset & Hdel). rewrite Hc in Hb.
  assert (u16 (c - 1) = c - 1) as -> by (apply (wrapu_small 16); unfold in_u; lia).
  rewrite insert_app_r_alt, Nat.sub_diag by lia. simpl. destruct (Z.eqb_spec (c - 1) 0) as [Hz|Hz].
  - assert (swap_remove (length pre) (pre ++ (v, c - 1) :: post) ≡ₚ pre ++ post) as Hperm.
    { eapply Permutation_cons_inv. rewrite (swap_remove_perm _ _ (v, c - 1)).
      - by rewrite <- Permutation_middle.
      - by apply list_lookup_middle. }
    split.
    + unfold palette_wf in *. rewrite Hperm. exact Hdel.
    + intros w. rewrite (pal_count_perm _ _ _ Hperm), !pal_count_app. simpl. case_decide; lia.
  - split; [apply Hset; lia|]. intros w. rewrite !pal_count_app. simpl. case_decide; lia.
Qed.

Lemma run_length_spec (v : V) l : l = replicate (run_length v l) v ++ drop (run_length v l) l.
Proof.
  induction l as [|w l IH]; simpl; [done|]. case_decide as H; simpl; [|done].
  subst. by f_equal.
Qed.

Lemma count_runs_spec fuel (rest : list V) p :
  (length rest <= fuel)%nat -> palette_wf p ->
  (forall v, pal_count p v + occ v rest < 65536) ->
  palette_wf (count_runs fuel rest p) /\
  forall v, pal_count (count_runs fuel rest p) v = pal_count p v + occ v rest.
Proof.
  revert rest p. induction fuel as [|fuel IH]; intros rest p Hf Hwf Hb.
  { destruct rest; simpl in *; [|lia]. split; [done|]. intros v. lia. }
  destruct rest as [|v rest]; simpl in Hf.
  { simpl. split; [done|]. intros v. lia. }
  cbn [count_runs]. set (n := run_length v rest).
  assert (v :: rest = replicate (S n) v ++ drop (S n) (v :: rest)) as Hsplit.
  { simpl. f_equal. apply run_length_spec. }
  assert (forall w, occ w (v :: rest) =
    (if decide (v = w) then Z.of_nat (S n) else 0) + occ w (drop (S n) (v :: rest))) as Hocc.
  { intros w. rewrite Hsplit at 1. by rewrite occ_app, occ_replicate. }
  set (l := drop (S n) (v :: rest)) in *. pose proof (Hb v) as Hbv. rewrite Hocc in Hbv.
  rewrite decide_True in Hbv by done. pose proof (occ_nonneg v l) as Hl0.
  assert (0 <= pal_count p v) as Hp0.
  { destruct Hwf as [_ Hpos]. clear -Hpos. induction Hpos as [|[w c] p Hc _ IHp]; simpl in *; [lia|].
    case_decide; lia. }
  assert (u16 (Z.of_nat (S n)) = Z.of_nat (S n)) as -> by (apply (wrapu_small 16); unfold in_u; lia).
  destruct (palette_add_spec p v (Z.of_nat (S n)) Hwf ltac:(lia) ltac:(lia)) as [Hwf' Hc'].
  destruct (IH l (palette_add p v (Z.of_nat (S n)))) as [H1 H2].
  - unfold l. simpl. rewrite length_drop. lia.
  - done.
  - intros w. rewrite Hc'. specialize (Hb w). rewrite Hocc in Hb. lia.
  - split; [done|]. intros w. rewrite H2, Hc', Hocc. lia.
Qed.

Lemma palette_single v c cells :
  palette_counts [(v, c)] cells -> cells = replicate (length cells) v.
Proof.
  intros [_ Hc]. symmetry. apply replicate_as_elem_of. split; [done|]. intros w Hw.
  destruct (decide (v = w)) as [->|Hne]; [done|]. apply occ_pos in Hw. rewrite <- Hc in Hw.
  simpl in Hw. rewrite decide_False in Hw by done. lia.
Qed.

Lemma palette_counts_elem p cells v : palette_counts p cells -> v ∈ cells <-> v ∈ (fst <$> p).
Proof.
  intros [[_ Hpos] Hc]. rewrite <- occ_pos, <- Hc. split.
  - intros H. destruct (decide (v ∈ (fst <$> p))) as [|Hn]; [done|].
    rewrite pal_count_notin in H by done. lia.
  - clear Hc. induction Hpos as [|[w c] p Hw Hpos IH]; simpl in *; [by intros ?%elem_of_nil|].
    assert (0 <= pal_count p v) as H0.
    { clear -Hpos. induction Hpos as [|[w c] p Hc _ IHp]; simpl in *; [lia|]. case_decide; lia. }
    intros [->|H]%elem_of_cons; [rewrite decide_True by done; lia|].
    specialize (IH H). case_decide; lia.
Qed.
End Counters.

(** ** Lemmas: containers *)

Section ContainerLemmas.
Context {V : Type} `{EqDecision V} (DIM : nat).
Context (HDIM : (0 < DIM)%nat) (Hvol : Z.of_nat (VOLUME DIM) < 65535).

(** Cubes have the declared size; a heterogeneous container's palette records the cells and
    has at least two entries. *)
Definition container_ok (c : PalettedContainer V) : Prop :=
  match c with
  | Homogeneous _ => True
  | Heterogeneous h =>
      cube_ok DIM (het_cube h) /\ palette_counts (het_palette h) (flat (het_cube h)) /\
      (2 <= length (het_palette h))%nat
  | Building cube => cube_ok DIM cube
  end.

Lemma collect_values_length c : container_ok c -> length (collect_values DIM c) = VOLUME DIM.
Proof.
  destruct c as [v|h|cube]; simpl.
  - intros _. apply length_replicate.
  - intros [H _]. by apply flat_length.
  - apply flat_length.
Qed.

(** A palette that records a cube is either a single entry or a heterogeneous container. *)
Lemma palette_counts_nonempty (p : list (V * Z)) cube :
  cube_ok DIM cube -> palette_counts p (flat cube) -> p <> [].
Proof using HDIM.
  intros Hok [_ Hc] ->. pose proof (flat_length DIM cube Hok) as Hl.
  destruct (flat cube) as [|v l]; simpl in Hl; [unfold VOLUME in Hl; nia|].
  specialize (Hc v). simpl in Hc. rewrite decide_True in Hc by done.
  pose proof (occ_nonneg v l). lia.
Qed.

Lemma from_cube_spec (cube : Cube V) :
  cube_ok DIM cube ->
  container_ok (from_cube DIM cube) /\ collect_values DIM (from_cube DIM cube) = flat cube.
Proof using HDIM Hvol.
  intros Hok. pose proof (flat_length DIM cube Hok) as Hlen. unfold from_cube.
  destruct (count_runs_spec (VOLUME DIM) (flat cube) []) as [Hwf Hc].
  { lia. }
  { split; constructor. }
  { intros v. pose proof (occ_nonneg v (flat cube)). simpl. lia. }
  assert (palette_counts (count_runs (VOLUME DIM) (flat cube) []) (flat cube)) as Hp by done.
  pose proof (palette_counts_nonempty _ _ Hok Hp) as Hne.
  destruct (count_runs (VOLUME DIM) (flat cube) []) as [|[v c] [|e p]]; [done| |].
  - split; [done|]. simpl. rewrite <- Hlen. symmetry. by eapply palette_single.
  - split; [|done]. split; [done|]. split; [done|]. simpl. lia.
Qed.

Lemma container_get_spec c x y z :
  container_ok c -> (x < DIM)%nat -> (y < DIM)%nat -> (z < DIM)%nat ->
  container_get c x y z = collect_values DIM c !! cell_index DIM x y z.
Proof.
  intros Hok Hx Hy Hz. destruct c as [v|h|cube]; simpl in *.
  - symmetry. apply lookup_replicate_2. by apply cell_index_bound.
  - destruct Hok as [Hok _]. by apply cube_get_flat.
  - by apply cube_get_flat.
Qed.

Lemma het_set_spec (h : HeterogeneousPalette V) x y z v :
  container_ok (Heterogeneous h) -> (x < DIM)%nat -> (y < DIM)%nat -> (z < DIM)%nat ->
  exists h' old, het_set h x y z v = Some (h', old) /\
    flat (het_cube h) !! cell_index DIM x y z = Some old /\
    cube_ok DIM (het_cube h') /\
    flat (het_cube h') = <[cell_index DIM x y z := v]> (flat (het_cube h)) /\
    palette_counts (het_palette h') (flat (het_cube h')).
Proof using HDIM Hvol.
  intros (Hok & [Hwf Hc] & _) Hx Hy Hz.
  pose proof (flat_length DIM _ Hok) as Hlen.
  destruct (lookup_lt_is_Some_2 (flat (het_cube h)) (cell_index DIM x y z)) as [old Hold].
  { rewrite Hlen. by apply cell_index_bound. }
  destruct (cube_set_spec DIM (het_cube h) x y z v Hok Hx Hy Hz) as (cube' & Hset & Hok' & Hflat).
  pose proof (occ_nonneg v (flat (het_cube h))) as Hv.
  destruct (palette_add_spec (het_palette h) v 1 Hwf ltac:(lia)) as [Hwf1 Hc1].
  { rewrite Hc. lia. }
  assert (old ∈ flat (het_cube h)) as Hin%occ_pos by (by eapply list_elem_of_lookup_2).
  pose proof (occ_nonneg old (flat (het_cube h))) as Ho.
  destruct (palette_remove_spec (palette_add (het_palette h) v 1) old Hwf1) as [Hwf2 Hc2].
  { rewrite Hc1, Hc. case_decide; lia. }
  exists (mkHetero cube' (palette_remove (palette_add (het_palette h) v 1) old)), old.
  unfold het_set. rewrite (cube_get_flat DIM), Hold by done. simpl. rewrite Hset. simpl.
  do 4 (split; [done|]). split; [exact Hwf2|].
  intros w. rewrite Hflat, (occ_insert w _ _ v old Hold), Hc2, Hc1, Hc. lia.
Qed.

Lemma container_set_spec c x y z v :
  container_ok c -> (x < DIM)%nat -> (y < DIM)%nat -> (z < DIM)%nat ->
  exists c' old, container_set DIM c x y z v = Some (c', old) /\ container_ok c' /\
    collect_values DIM c !! cell_index DIM x y z = Some old /\
    collect_values DIM c' = <[cell_index DIM x y z := v]> (collect_values DIM c).
Proof using HDIM Hvol.
  intros Hok Hx Hy Hz. pose proof (cell_index_bound DIM x y z Hx Hy Hz) as Hidx.
  destruct c as [w|h|cube].
  - assert (collect_values DIM (Homogeneous w) !! cell_index DIM x y z = Some w) as Hw.
    { by apply lookup_replicate_2. }
    unfold container_set. destruct (decide (v = w)) as [->|Hne].
    + exists (Homogeneous w), w. split_and!; [done|done|done|]. by rewrite list_insert_id.
    + destruct (cube_set_spec DIM (cube_fill DIM w) x y z v (cube_fill_ok DIM w) Hx Hy Hz)
        as (cube' & -> & Hok' & Hflat). simpl.
      destruct (from_cube_spec cube' Hok') as [Hok2 Hv2]. eexists _, w.
      split_and!; [done|done|done|]. by rewrite Hv2, Hflat, flat_fill.
  - destruct (het_set_spec h x y z v Hok Hx Hy Hz) as (h' & old & Hs & Hold & Hok' & Hflat & Hp).
    pose proof (palette_counts_nonempty _ _ Hok' Hp) as Hne.
    unfold container_set. rewrite Hs. simpl. destruct h' as [cube' [|[w c] [|e p]]]; simpl in *; [done| |].
    + eexists _, old. split_and!; [done|done|done|]. simpl.
      rewrite <- Hflat, <- (flat_length DIM cube' Hok'). symmetry. by eapply palette_single.
    + eexists _, old. split_and!; [done| |done|done]. split; [done|]. split; [done|]. simpl. lia.
  - destruct (cube_set_spec DIM cube x y z v Hok Hx Hy Hz) as (cube' & Hs & Hok' & Hflat).
    destruct (lookup_lt_is_Some_2 (flat cube) (cell_index DIM x y z)) as [old Hold].
    { by rewrite (flat_length DIM cube Hok). }
    exists (Building cube'), old. unfold container_set. rewrite (cube_get_flat DIM), Hold by done.
    simpl. rewrite Hs. by split_and!.
Qed.
End ContainerLemmas.

(** ** Lemmas: the packed longs *)

(** The values of word [w] among the first [k]. *)
Definition window (n w k : nat) (l : list Z) : list Z := take n (drop (w * n) (take k l)).

Lemma window_step n w k l v :
  (0 < n)%nat -> l !! k = Some v ->
  window n w (S k) l = if decide (w = k / n)%nat then window n w k l ++ [v] else window n w k l.
Proof.
  intros Hn Hk. unfold window. assert (k < length l)%nat as Hlt by (by eapply lookup_lt_Some).
  rewrite (take_S_r l k v Hk).
  pose proof (Nat.div_mod_eq k n) as E. pose proof (Nat.mod_upper_bound k n ltac:(lia)) as Hm.
  assert (length (take k l) = k) as Hl by (rewrite length_take; lia).
  destruct (decide (w * n <= k)%nat) as [Hle|Hgt].
  - rewrite drop_app_le by lia. case_decide as Hw.
    + rewrite (take_ge (drop _ _ ++ [v])) by (rewrite length_app, length_drop, Hl; simpl; subst; nia).
      rewrite (take_ge (drop _ _)) by (rewrite length_drop, Hl; subst; nia). done.
    + rewrite take_app_le by (rewrite length_drop, Hl; nia). done.
  - rewrite decide_False by nia. rewrite !drop_ge; [done| |]; rewrite ?length_app, Hl; simpl; lia.
Qed.

Lemma window_length n k l :
  (0 < n)%nat -> (k <= length l)%nat -> length (window n (k / n) k l) = (k mod n)%nat.
Proof.
  intros Hn Hk. unfold window. rewrite length_take, length_drop, length_take.
  pose proof (Nat.div_mod_eq k n). pose proof (Nat.mod_upper_bound k n ltac:(lia)). nia.
Qed.

Lemma window_fits bits n w k l : Forall (fits bits) l -> Forall (fits bits) (window n w k l).
Proof. intros H. unfold window. by apply fits_window, Forall_take. Qed.

Lemma pack_bits_eq l bits :
  1 <= bits <= 64 -> Forall (fits bits) l ->
  pack_bits l bits = Some (packed_words bits (values_per_u64 bits) l).
Proof.
  intros Hb Hl. destruct (values_per_u64_spec bits Hb) as [Hn H64].
  unfold pack_bits. change (Z.to_nat (64 / bits)) with (values_per_u64 bits).
  set (n := values_per_u64 bits) in *. set (num := div_ceil_nat (length l) n).
  match goal with |- for_each ?L ?f ?s = _ =>
    destruct (for_each_ind (fun pre d => length d = num /\
      forall w, (w < num)%nat -> d !! w = Some (le_word bits (window n w (length pre) l)))
      L f s) as (d & -> & Hlen & Hd) end.
  - split; [apply length_replicate|]. intros w Hw. rewrite lookup_replicate_2 by done.
    unfold window. by rewrite take_0, drop_nil, take_nil.
  - intros pre [i v] todo d El [Hlen Hd].
    assert (imap pair l !! length pre = Some (i, v)) as Hc.
    { rewrite El. by apply list_lookup_middle. }
    rewrite list_lookup_imap in Hc. apply fmap_Some in Hc as (v' & Hv & [= -> ->]).
    set (k := length pre) in *. assert (k < length l)%nat as Hk by (by eapply lookup_lt_Some).
    pose proof (Nat.div_mod_eq k n) as Ek.
    assert (k / n < num)%nat as Hw by (apply div_ceil_nat_lt; [done|lia]).
    rewrite Hd by done. simpl. rewrite vec_set_Some by lia. eexists. split; [reflexivity|].
    split; [by rewrite length_insert|]. intros w Hw'.
    rewrite lookup_insert_list by lia. rewrite length_app, Nat.add_1_r. fold k.
    rewrite (window_step n w k l v' Hn Hv). destruct (decide (w = k / n)%nat) as [->|Hne].
    + f_equal. rewrite <- (window_length n k l Hn ltac:(lia)) at 1.
      apply le_word_snoc; [lia|by apply window_fits| |].
      * rewrite Forall_forall in Hl. by apply Hl, list_elem_of_lookup_2 with k.
      * rewrite window_length by lia. pose proof (Nat.mod_upper_bound k n ltac:(lia)). nia.
    + by apply Hd.
  - f_equal. apply list_eq. intros w. rewrite packed_words_lookup. case_decide as Hw.
    + rewrite Hd by done. rewrite length_imap. unfold window. by rewrite (take_ge l) by lia.
    + apply lookup_ge_None_2. fold num in Hw. lia.
Qed.

Lemma packed_words_range bits l :
  1 <= bits <= 64 -> Forall (fits bits) l ->
  Forall (fun w => 0 <= w < 2 ^ 64) (packed_words bits (values_per_u64 bits) l).
Proof.
  intros Hb Hl. destruct (values_per_u64_spec bits Hb) as [Hn H64].
  apply Forall_fmap, Forall_forall. intros w _. simpl.
  pose proof (le_word_range bits ltac:(lia) _ (fits_window bits (values_per_u64 bits)
    (w * values_per_u64 bits) l Hl)) as Hr.
  rewrite length_take in Hr. split; [lia|]. eapply Z.lt_le_trans; [apply Hr|].
  apply Z.pow_le_mono_r; [lia|]. nia.
Qed.

(** ** A reader of the network form *)

(** Eight bytes, the highest first. *)
Definition read_u64 (bs : list Z) : option (Z * list Z) :=
  if decide (8 <= length bs)%nat
  then Some (foldl (fun acc b => acc * 256 + b) 0 (take 8 bs), drop 8 bs) else None.

Fixpoint read_longs (n : nat) (bs : list Z) : option (list Z * list Z) :=
  match n with
  | O => Some ([], bs)
  | S n => '(v, bs) ← read_u64 bs; '(vs, bs) ← read_longs n bs; Some (v :: vs, bs)
  end.

Fixpoint read_varints (n : nat) (bs : list Z) : option (list Z * list Z) :=
  match n with
  | O => Some ([], bs)
  | S n =>
      match VarInt_read bs with
      | Ok (v, bs) => '(vs, bs) ← read_varints n bs; Some (v :: vs, bs)
      | Err _ => None
      end
  end.

(** Reads the values of [count] cells in fields of [bits] bits. *)
Definition read_cells (bits : Z) (count : nat) (bs : list Z) : option (list Z * list Z) :=
  '(data, bs) ← read_longs (div_ceil_nat count (values_per_u64 bits)) bs;
  Some (take count (unpack_indices data bits), bs).

(** The container format of the protocol: a width byte; width 0 is a single id; a width up
    to [indirect] is followed by a palette of ids that the cells index; a larger width is
    followed by cells that are ids themselves. *)
Definition read_container (indirect : Z) (volume : nat) (bs : list Z)
  : option (list Z * list Z) :=
  match bs with
  | [] => None
  | bits :: bs =>
      if bits =? 0 then '(ids, bs) ← read_varints 1 bs; Some (ids ≫= replicate volume, bs)
      else if bits <=? indirect then
        '(len, bs) ← read_varints 1 bs;
        '(palette, bs) ← read_varints (Z.to_nat (hd 0 len)) bs;
        '(cells, bs) ← read_cells bits volume bs;
        ids ← mapM (fun i => palette !! Z.to_nat i) cells;
        Some (ids, bs)
      else read_cells bits volume bs
  end.

Lemma read_write_u64 v rest : 0 <= v < 2 ^ 64 -> read_u64 (write_u64 v ++ rest) = Some (v, rest).
Proof.
  intros Hv. unfold read_u64. rewrite decide_True by (rewrite length_app; simpl; lia).
  rewrite take_app_length' by done. rewrite drop_app_length' by done. do 2 f_equal.
  assert (forall k, 0 <= k -> u8 (Z.shiftr v k) = v / 2 ^ k mod 256) as Hbyte.
  { intros k Hk. unfold u8, wrapu. by rewrite Z.shiftr_div_pow2 by done. }
  assert (forall k, 0 <= k ->
    v / 2 ^ (8 * (k + 1)) * 256 + v / 2 ^ (8 * k) mod 256 = v / 2 ^ (8 * k)) as Hstep.
  { intros k Hk. assert (0 < 2 ^ (8 * k)) as Hp by (apply Z.pow_pos_nonneg; lia).
    replace (2 ^ (8 * (k + 1))) with (2 ^ (8 * k) * 256)
      by (replace (8 * (k + 1)) with (8 * k + 8) by lia; rewrite Z.pow_add_r by lia; lia).
    rewrite <- Z.div_div by lia. pose proof (Z.div_mod (v / 2 ^ (8 * k)) 256). lia. }
  unfold write_u64. simpl foldl. rewrite !Hbyte by lia.
  assert (v / 2 ^ (8 * 7) mod 256 = v / 2 ^ (8 * (6 + 1))) as ->.
  { change (8 * 7) with 56. apply Z.mod_small. split; [apply Z.div_pos; lia|].
    apply Z.div_lt_upper_bound; lia. }
  rewrite ?Z.mul_0_l, ?Z.add_0_l, (Hstep 6) by lia. change (8 * 6) with (8 * (5 + 1)). rewrite (Hstep 5) by lia.
  change (8 * 5) with (8 * (4 + 1)). rewrite (Hstep 4) by lia.
  change (8 * 4) with (8 * (3 + 1)). rewrite (Hstep 3) by lia.
  change (8 * 3) with (8 * (2 + 1)). rewrite (Hstep 2) by lia.
  change (8 * 2) with (8 * (1 + 1)). rewrite (Hstep 1) by lia.
  change (8 * 1) with (8 * (0 + 1)). rewrite (Hstep 0) by lia.
  apply Z.div_1_r.
Qed.

Lemma read_write_longs vs rest :
  Forall (fun w => 0 <= w < 2 ^ 64) vs ->
  read_longs (length vs) ((vs ≫= write_u64) ++ rest) = Some (vs, rest).
Proof.
  induction 1 as [|v vs Hv _ IH]; [done|].
  change ((v :: vs) ≫= write_u64) with (write_u64 v ++ (vs ≫= write_u64)).
  cbn [read_longs length]. rewrite <- app_assoc, read_write_u64 by done. simpl. by rewrite IH.
Qed.

Lemma read_write_cells bits l rest :
  1 <= bits <= 32 -> Forall (fits bits) l ->
  read_cells bits (length l)
    ((packed_words bits (values_per_u64 bits) l ≫= write_u64) ++ rest) = Some (l, rest).
Proof.
  intros Hb Hl. unfold read_cells.
  assert (div_ceil_nat (length l) (values_per_u64 bits) =
          length (packed_words bits (values_per_u64 bits) l)) as ->.
  { unfold packed_words. by rewrite length_fmap, length_seq. }
  rewrite read_write_longs by (apply packed_words_range; [lia|done]). simpl. do 2 f_equal.
  apply list_eq. intros i. destruct (decide (i < length l)%nat) as [Hi|Hi].
  - rewrite lookup_take_lt by done. by apply unpack_packed_words.
  - rewrite lookup_take_ge by lia. symmetry. apply lookup_ge_None_2. lia.
Qed.

Lemma read_write_varints (ids : list Z) rest :
  Forall (fun i => 0 <= i < 2 ^ 31) ids ->
  exists bs, mjoin <$> mapM (fun i => VarInt_write (i32 i)) ids = Some bs /\
    read_varints (length ids) (bs ++ rest) = Some (ids, rest).
Proof.
  induction 1 as [|i ids Hi _ (bs & Hbs & IH)]; [by exists []|].
  assert (in_s 32 i) as Hin by (unfold in_s; simpl; lia).
  destruct (VarInt_write_spec i Hin) as (b & Hb & _).
  exists (b ++ bs). apply fmap_Some in Hbs as (l & Hl & ->).
  cbn [mapM]. rewrite i32_small by lia. rewrite Hb. simpl. rewrite Hl. split; [done|].
  cbn [read_varints length]. rewrite <- app_assoc, (VarInt_read_write i b) by done. by rewrite IH.
Qed.

Section WriteRead.
Context {V : Type} `{EqDecision V} (DIM : nat) (to_global_id : V -> Z).
Context (HDIM : DIM = 16%nat \/ DIM = 4%nat).

(** The widths of the protocol for block states and biomes: the widest indirect palette and
    the width of direct ids. *)
Definition indirect_bits : Z := if (DIM =? 16)%nat then 8 else 3.
Definition global_bits : Z := if (DIM =? 16)%nat then 15 else 6.

Definition ids_fit (c : PalettedContainer V) : Prop :=
  Forall (fun v => 0 <= to_global_id v < 2 ^ global_bits) (collect_values DIM c).

Lemma calculate_strategy_spec n :
  2 <= n ->
  exists bits mode, calculate_strategy DIM n = Some (bits, mode) /\ 1 <= bits <= 32 /\
    match mode with
    | PaletteGlobal => indirect_bits < bits /\ bits = global_bits
    | _ => bits <= indirect_bits /\ n <= 2 ^ bits
    end.
Proof using HDIM.
  intros Hn. unfold calculate_strategy, indirect_bits, global_bits.
  destruct HDIM as [->| ->]; simpl; destruct (Z.leb_spec n 1); try lia;
  repeat match goal with |- context [?a <=? ?b] => destruct (Z.leb_spec a b) end;
  eexists _, _; (split; [reflexivity|]); simpl; lia.
Qed.

Lemma write_ids_eq (vs : list V) :
  write_ids to_global_id vs = mjoin <$> mapM (fun i => VarInt_write (i32 i)) (to_global_id <$> vs).
Proof.
  unfold write_ids. f_equal. induction vs as [|v vs IH]; [done|]. simpl. by rewrite IH.
Qed.

(** The cells as indices into the palette, and back. *)
Lemma palette_indices_spec (p : list (V * Z)) (cells : list V) :
  palette_counts p cells ->
  exists js, mapM (fun v => (fun e => Z.of_nat (fst e)) <$> find_entry v p) cells = Some js /\
    length js = length cells /\ Forall (fun i => 0 <= i < Z.of_nat (length p)) js /\
    mapM (fun i => (to_global_id <$> (fst <$> p)) !! Z.to_nat i) js = Some (to_global_id <$> cells).
Proof.
  intros Hp. assert (forall v, v ∈ cells -> v ∈ (fst <$> p)) as Hin.
  { intros v. apply (palette_counts_elem p cells v Hp). }
  clear Hp. induction cells as [|v cells IH]; [by exists []|].
  destruct IH as (js & Hm & Hlen & Hr & Hb); [intros; apply Hin; by right|].
  destruct (find_entry v p) as [[i e]|] eqn:E.
  2: { apply find_entry_None in E. destruct E. apply Hin. left. }
  exists (Z.of_nat i :: js). pose proof E as (Hi & He & _)%list_find_Some.
  assert (i < length p)%nat as Hlt by (by eapply lookup_lt_Some).
  cbn [mapM]. rewrite E. simpl. rewrite Hm. simpl.
  split_and!; [done|by f_equal|constructor; [lia|done]|].
  rewrite Nat2Z.id, !list_lookup_fmap, Hi. simpl. rewrite Hb. simpl. by rewrite He.
Qed.

Lemma global_indices (cells : list V) :
  mapM (fun v => Some (to_global_id v)) cells = Some (to_global_id <$> cells).
Proof. induction cells as [|v cells IH]; [done|]. simpl. by rewrite IH. Qed.

(** A container with an indirect palette: the width, the palette and the cells read back. *)
Lemma read_write_indirect (h : HeterogeneousPalette V) bits mode js rest :
  calculate_strategy DIM (Z.of_nat (length (het_palette h))) = Some (bits, mode) ->
  mode <> PaletteGlobal -> 1 <= bits <= indirect_bits -> bits <= 32 ->
  Z.of_nat (length (het_palette h)) < 2 ^ 31 ->
  Forall (fun v => 0 <= to_global_id v < 2 ^ 31) (fst <$> het_palette h) ->
  length (flat (het_cube h)) = VOLUME DIM ->
  mapM (fun v => (fun e => Z.of_nat (fst e)) <$> find_entry v (het_palette h)) (flat (het_cube h))
    = Some js ->
  length js = length (flat (het_cube h)) -> Forall (fits bits) js ->
  mapM (fun i => (to_global_id <$> (fst <$> het_palette h)) !! Z.to_nat i) js =
    Some (to_global_id <$> flat (het_cube h)) ->
  exists bs, container_write DIM to_global_id (Heterogeneous h) = Some bs /\
    read_container indirect_bits (VOLUME DIM) (bs ++ rest) =
      Some (to_global_id <$> flat (het_cube h), rest).
Proof.
  intros Hs Hmode Hbits Hb32 Hn Hids Hlen Hjs Hjl Hfit Hback.
  set (ids := to_global_id <$> (fst <$> het_palette h)) in *.
  set (tail := (packed_words bits (values_per_u64 bits) js ≫= write_u64) ++ rest).
  destruct (read_write_varints ids tail) as (ib & Hib & Hir); [by apply Forall_fmap|].
  destruct (read_write_varints [Z.of_nat (length (het_palette h))] (ib ++ tail)) as (lb & Hlb & Hlr).
  { constructor; [lia|constructor]. }
  exists (bits :: (lb ++ ib) ++ (packed_words bits (values_per_u64 bits) js ≫= write_u64)).
  simpl in Hlb. destruct (VarInt_write (i32 (Z.of_nat (length (het_palette h))))) as [b|] eqn:Eb;
    [|done]. simpl in Hlb. injection Hlb as <-. rewrite app_nil_r in *.
  pose proof (write_ids_eq (fst <$> het_palette h)) as Hw. fold ids in Hw. rewrite Hib in Hw. split.
  - unfold container_write. rewrite Hs. cbn [mbind option_bind].
    assert (forall o : option (list Z), (match mode with
      | PaletteLinear | PaletteHash => o | PaletteGlobal => Some [] end) = o) as -> by (by destruct mode).
    rewrite Eb. cbn [mbind option_bind]. rewrite Hw. cbn [mbind option_bind].
    destruct mode; [..|done]; rewrite Hjs; cbn [mbind option_bind];
      rewrite pack_bits_eq by (done || lia); done.
  - cbn [app read_container]. rewrite (proj2 (Z.eqb_neq _ 0)), (proj2 (Z.leb_le _ _)) by lia.
    rewrite <- !app_assoc. fold tail. simpl length in Hlr. rewrite Hlr. cbn [mbind option_bind hd].
    rewrite Nat2Z.id.
    replace (length (het_palette h)) with (length ids) by (unfold ids; by rewrite !length_fmap).
    rewrite Hir. cbn [mbind option_bind]. unfold tail. rewrite <- Hlen, <- Hjl.
    rewrite read_write_cells by (done || lia). cbn [mbind option_bind]. by rewrite Hback.
Qed.

Lemma read_write_heterogeneous h rest :
  container_ok DIM (Heterogeneous h) -> ids_fit (Heterogeneous h) ->
  exists bs, container_write DIM to_global_id (Heterogeneous h) = Some bs /\
    read_container indirect_bits (VOLUME DIM) (bs ++ rest) =
      Some (to_global_id <$> flat (het_cube h), rest).
Proof using HDIM.
  intros (Hok & Hp & H2) Hids. unfold ids_fit in Hids. simpl in Hids.
  pose proof (flat_length DIM _ Hok) as Hlen.
  destruct (calculate_strategy_spec (Z.of_nat (length (het_palette h))) ltac:(lia))
    as (bits & mode & Hs & Hbits & Hmode).
  assert (0 < indirect_bits /\ indirect_bits <= 8 /\ global_bits <= 15) as (Hi0 & Hi8 & Hg15).
  { unfold indirect_bits, global_bits. destruct HDIM as [->| ->]; simpl; lia. }
  assert (forall v, v ∈ flat (het_cube h) -> 0 <= to_global_id v < 2 ^ 31) as Hid.
  { intros v Hv. rewrite Forall_forall in Hids. specialize (Hids v Hv).
    pose proof (Z.pow_le_mono_r 2 global_bits 31 ltac:(lia) ltac:(lia)). lia. }
  destruct (decide (mode = PaletteGlobal)) as [->|Hnot].
  - destruct Hmode as [Hgt ->]. unfold container_write. rewrite Hs. cbn [mbind option_bind].
    rewrite global_indices. cbn [mbind option_bind].
    assert (Forall (fits global_bits) (to_global_id <$> flat (het_cube h))) as Hfit.
    { by apply Forall_fmap. }
    rewrite pack_bits_eq by (done || lia). eexists. split; [reflexivity|]. cbn [app read_container].
    rewrite (proj2 (Z.eqb_neq _ 0)), (proj2 (Z.leb_gt _ _)) by lia.
    rewrite <- Hlen, <- (length_fmap to_global_id). by apply read_write_cells.
  - destruct (palette_indices_spec (het_palette h) (flat (het_cube h)) Hp)
      as (js & His & Hislen & Hisr & Hback).
    assert (bits <= indirect_bits /\ Z.of_nat (length (het_palette h)) <= 2 ^ bits) as [Hle Hcap]
      by (by destruct mode).
    assert (Forall (fits bits) js) as Hfit.
    { eapply Forall_impl; [exact Hisr|]. simpl. unfold fits. lia. }
    assert (2 ^ bits <= 256) as H256.
    { change 256 with (2 ^ 8). apply Z.pow_le_mono_r; lia. }
    apply (read_write_indirect h bits mode js); try done; try lia.
    apply Forall_forall. intros v Hv. apply Hid. by apply (palette_counts_elem _ _ v Hp).
Qed.

Lemma read_write_homogeneous v rest :
  ids_fit (Homogeneous v) ->
  exists bs, container_write DIM to_global_id (Homogeneous v) = Some bs /\
    read_container indirect_bits (VOLUME DIM) (bs ++ rest) =
      Some (to_global_id <$> replicate (VOLUME DIM) v, rest).
Proof using HDIM.
  intros Hids. destruct (read_write_varints [to_global_id v] rest) as (bs & Hbs & Hr).
  { unfold ids_fit in Hids. simpl in Hids. constructor; [|constructor].
    assert (global_bits <= 15) by (unfold global_bits; destruct HDIM as [->| ->]; simpl; lia).
    assert (0 <= to_global_id v < 2 ^ global_bits) as Hv.
    { rewrite Forall_forall in Hids. apply Hids. apply elem_of_replicate. split; [done|].
      unfold VOLUME. destruct HDIM as [->| ->]; lia. }
    pose proof (Z.pow_le_mono_r 2 global_bits 31 ltac:(lia) ltac:(lia)). lia. }
  simpl in Hbs. unfold container_write.
  destruct (VarInt_write (i32 (to_global_id v))) as [b|]; [|done]. simpl in Hbs.
  injection Hbs as <-. exists (0 :: b). split; [done|]. cbn [app read_container Z.eqb].
  rewrite app_nil_r in Hr. simpl length in Hr. rewrite Hr. simpl.
  by rewrite app_nil_r, fmap_replicate.
Qed.
End WriteRead.

(** ** Lemmas: reading by index, queries *)

Lemma index_coords dim i :
  (0 < dim)%nat -> (i < VOLUME dim)%nat ->
  let y := (i / (dim * dim))%nat in
  let z := ((i / dim) mod dim)%nat in
  let x := (i mod dim)%nat in
  (x < dim)%nat /\ (y < dim)%nat /\ (z < dim)%nat /\ cell_index dim x y z = i.
Proof.
  intros Hd Hi. unfold VOLUME, cell_index in *.
  pose proof (Nat.div_mod_eq i dim) as E1. pose proof (Nat.div_mod_eq (i / dim) dim) as E2.
  rewrite Nat.Div0.div_div in E2.
  pose proof (Nat.mod_upper_bound i dim ltac:(lia)).
  pose proof (Nat.mod_upper_bound (i / dim) dim ltac:(lia)).
  split_and!; [done| |done|].
  - apply Nat.Div0.div_lt_upper_bound. lia.
  - rewrite (Nat.mul_comm (i / (dim * dim))). rewrite <- E2. lia.
Qed.

Lemma existsb_elem {A} (f : A -> bool) (l : list A) :
  existsb f l = true <-> exists x, x ∈ l /\ f x = true.
Proof. rewrite existsb_exists. by setoid_rewrite <- list_elem_of_In. Qed.

Fixpoint count_if {A} (f : A -> bool) (l : list A) : Z :=
  match l with
  | [] => 0
  | x :: l' => (if f x then 1 else 0) + count_if f l'
  end.

Fixpoint pal_sum {A} (f : A -> bool) (p : list (A * Z)) : Z :=
  match p with
  | [] => 0
  | (v, c) :: p' => (if f v then c else 0) + pal_sum f p'
  end.

Lemma count_if_bound {A} (f : A -> bool) l : 0 <= count_if f l <= Z.of_nat (length l).
Proof. induction l as [|x l IH]; simpl; [lia|]. destruct (f x); lia. Qed.

Section Sums.
Context {V : Type} `{EqDecision V} (f : V -> bool).

Definition without (v : V) (l : list V) : list V := filter (fun w => w <> v) l.

Lemma occ_without v w l : occ w (without v l) = if decide (w = v) then 0 else occ w l.
Proof.
  unfold without. induction l as [|x l IH]; simpl; [by case_decide|]. rewrite filter_cons.
  revert IH. destruct (decide (w = v)) as [->|Hwv]; intros IH.
  - destruct (decide (x <> v)) as [Hx|Hx]; simpl; [|exact IH]. rewrite decide_False by done. lia.
  - destruct (decide (x <> v)) as [Hx|Hx]; simpl; [by rewrite IH|]. apply dec_stable in Hx as ->.
    rewrite decide_False by done. lia.
Qed.

Lemma count_if_without v l :
  count_if f l = (if f v then occ v l else 0) + count_if f (without v l).
Proof.
  unfold without. induction l as [|x l IH]; simpl; [by destruct (f v)|]. rewrite filter_cons.
  destruct (decide (x <> v)) as [Hx|Hx]; simpl.
  - rewrite (decide_False (P := x = v)) by done. rewrite IH. destruct (f v), (f x); lia.
  - apply dec_stable in Hx as ->. rewrite decide_True by done. rewrite IH. destruct (f v); lia.
Qed.

Lemma palette_counts_without v c p cells :
  palette_counts ((v, c) :: p) cells -> c = occ v cells /\ palette_counts p (without v cells).
Proof.
  intros [Hwf Hc]. destruct (palette_wf_mid [] v c p Hwf) as (Hv & _ & _ & Hp). simpl in Hv.
  rewrite decide_True in Hv by done.
  split; [rewrite <- Hc; simpl; rewrite decide_True by done; lia|]. split; [exact Hp|]. intros w. rewrite occ_without.
  case_decide as E; [subst; lia|]. rewrite <- Hc. simpl. by rewrite decide_False.
Qed.

(** Summing palette counts counts the cells. *)
Lemma pal_sum_cells p cells : palette_counts p cells -> pal_sum f p = count_if f cells.
Proof.
  revert cells. induction p as [|[v c] p IH]; intros cells H; simpl.
  - destruct cells as [|w l]; [done|]. destruct H as [_ H]. specialize (H w). simpl in H.
    rewrite decide_True in H by done. pose proof (occ_nonneg w l). lia.
  - apply palette_counts_without in H as [-> Hp]. rewrite (IH _ Hp). symmetry. apply count_if_without.
Qed.
End Sums.

(** Counting with a wrapping [u16] is exact below its range. *)
Lemma count_palette_u16 (p : list (Z * Z)) acc :
  Forall (fun e => 0 < snd e) p -> 0 <= acc -> acc + pal_sum (fun v => negb (v =? 0)) p < 65536 ->
  foldl (fun count '(v, c) => if v =? 0 then count else u16 (count + c)) acc p =
    acc + pal_sum (fun v => negb (v =? 0)) p.
Proof.
  intros Hp. revert acc. induction Hp as [|[v c] p Hc Hp IH]; intros acc H0 Hb; simpl in *; [lia|].
  assert (0 <= pal_sum (fun v => negb (v =? 0)) p) as Hn.
  { clear -Hp. induction Hp as [|[v c] p Hc _ IHp]; simpl in *; [lia|]. destruct (negb _); lia. }
  destruct (v =? 0); simpl in *; [rewrite IH by lia; lia|].
  assert (u16 (acc + c) = acc + c) as -> by (apply (wrapu_small 16); unfold in_u; lia).
  rewrite IH by lia. lia.
Qed.

Lemma count_cells_u16 (l : list Z) acc :
  0 <= acc -> acc + count_if (fun v => negb (v =? 0)) l < 65536 ->
  foldl (fun count v => if v =? 0 then count else u16 (count + 1)) acc l =
    acc + count_if (fun v => negb (v =? 0)) l.
Proof.
  revert acc. induction l as [|v l IH]; intros acc H0 Hb; simpl in *; [lia|].
  pose proof (count_if_bound (fun v => negb (v =? 0)) l).
  destruct (v =? 0); simpl in *; [rewrite IH by lia; lia|].
  assert (u16 (acc + 1) = acc + 1) as -> by (apply (wrapu_small 16); unfold in_u; lia).
  rewrite IH by lia. lia.
Qed.

Lemma count_if_replicate {A} (f : A -> bool) n x :
  count_if f (replicate n x) = if f x then Z.of_nat n else 0.
Proof. induction n as [|n IH]; simpl; [by destruct (f x)|]. rewrite IH. destruct (f x); lia. Qed.

Lemma column_lookup {V} `{EqDecision V} dim (c : PalettedContainer V) x z ys :
  container_ok dim c -> (x < dim)%nat -> (z < dim)%nat -> Forall (fun y => (y < dim)%nat) ys ->
  exists col, mapM (fun y => container_get c x y z) ys = Some col /\ length col = length ys /\
    forall i y, ys !! i = Some y -> col !! i = container_get c x y z.
Proof.
  intros Hok Hx Hz. induction 1 as [|y ys Hy _ (col & Hm & Hl & Hcol)]; [by exists []|].
  assert (is_Some (container_get c x y z)) as [v Hv].
  { rewrite (container_get_spec dim) by done. apply lookup_lt_is_Some_2.
    rewrite collect_values_length by done. by apply cell_index_bound. }
  exists (v :: col). simpl. rewrite Hv. simpl. rewrite Hm. simpl. split_and!; [done|by f_equal|].
  intros [|i] y' Hy'; simpl in *; [by simplify_eq|auto].
Qed.

(** ** Properties *)

(** C39. [set] and [get] behave as a cube of cells in every mode: a write in range never
    panics, returns the previous value of the cell, makes the cell read back as written
    and leaves every other cell alone, and the container stays well formed, so palette
    counts equal occurrences, no entry of count zero remains, and a container with one
    value left is homogeneous. *)
Theorem palette_set_get {V} `{EqDecision V} dim (c : PalettedContainer V) x y z v :
  (0 < dim)%nat -> Z.of_nat (VOLUME dim) < 65535 -> container_ok dim c ->
  (x < dim)%nat -> (y < dim)%nat -> (z < dim)%nat ->
  exists c' old, container_set dim c x y z v = Some (c', old) /\ container_ok dim c' /\
    container_get c x y z = Some old /\ container_get c' x y z = Some v /\
    forall x' y' z', (x' < dim)%nat -> (y' < dim)%nat -> (z' < dim)%nat ->
      (x', y', z') <> (x, y, z) -> container_get c' x' y' z' = container_get c x' y' z'.
Proof.
  intros Hd Hv Hok Hx Hy Hz.
  destruct (container_set_spec dim Hd Hv c x y z v Hok Hx Hy Hz) as (c' & old & Hs & Hok' & Hold & Hc').
  exists c', old. split; [done|]. split; [done|].
  rewrite !(container_get_spec dim) by done. rewrite Hc'. split; [done|].
  split; [apply list_lookup_insert_eq; by eapply lookup_lt_Some|].
  intros x' y' z' Hx' Hy' Hz' Hne. rewrite !(container_get_spec dim) by done. rewrite Hc'.
  apply list_lookup_insert_ne. unfold cell_index. rewrite !(Nat.mul_comm _ dim). intros E.
  apply Nat.div_mod_unique in E as [E ->]; [|done..].
  apply Nat.div_mod_unique in E as [-> ->]; done.
Qed.

Lemma palette_set_get_witness :
  exists c' old, container_set 4 (Homogeneous 7) 1 2 3 9 = Some (c', old) /\ container_ok 4 c' /\
    container_get (Homogeneous 7) 1 2 3 = Some old /\ container_get c' 1 2 3 = Some 9 /\
    forall x' y' z', (x' < 4)%nat -> (y' < 4)%nat -> (z' < 4)%nat ->
      (x', y', z') <> (1, 2, 3)%nat -> container_get c' x' y' z' = container_get (Homogeneous 7) x' y' z'.
Proof. apply (palette_set_get 4 (Homogeneous 7) 1 2 3 9); (lia || done). Defined.

(** Changing the representation never changes the contents: building a container
    from a cube, entering building mode and finalizing keep all cells and give a well
    formed container; [get_at_index] reads the cells in y, z, x order; and
    [copy_column_into] writes exactly the cells of the column. *)
Theorem palette_modes_keep_cells {V} `{EqDecision V} dim (c : PalettedContainer V) (cube : Cube V) :
  (0 < dim)%nat -> Z.of_nat (VOLUME dim) < 65535 -> container_ok dim c -> cube_ok dim cube ->
  (container_ok dim (from_cube dim cube) /\ collect_values dim (from_cube dim cube) = flat cube) /\
  (container_ok dim (enter_building_mode dim c) /\
     collect_values dim (enter_building_mode dim c) = collect_values dim c) /\
  (container_ok dim (finalize_building dim c) /\
     collect_values dim (finalize_building dim c) = collect_values dim c) /\
  (forall i, (i < VOLUME dim)%nat -> get_at_index dim c i = collect_values dim c !! i) /\
  (forall x z out, (x < dim)%nat -> (z < dim)%nat -> (dim <= length out)%nat ->
     exists out', copy_column_into dim c x z out = Some out' /\ length out' = length out /\
       (forall y, (y < dim)%nat -> out' !! y = container_get c x y z) /\
       forall i, (dim <= i)%nat -> out' !! i = out !! i).
Proof.
  intros Hd Hv Hok Hcube. split_and!.
  - by apply from_cube_spec.
  - by apply from_cube_spec.
  - destruct c as [v|h|b]; [apply cube_fill_ok|apply Hok|done].
  - destruct c as [v|h|b]; [apply flat_fill|done|done].
  - destruct c as [v|h|b]; [done|done|]. by apply from_cube_spec.
  - destruct c as [v|h|b]; [done|done|]. by apply from_cube_spec.
  - intros i Hi. destruct (index_coords dim i Hd Hi) as (Hx & Hy & Hz & E).
    rewrite <- E at 2. rewrite <- (container_get_spec dim c) by done. by destruct c.
  - intros x z out Hx Hz Hout. unfold copy_column_into.
    rewrite (proj2 (Nat.ltb_ge _ _)) by done.
    destruct (column_lookup dim c x z (seq 0 dim) Hok Hx Hz) as (col & -> & Hl & Hcol).
    { apply Forall_seq. intros y Hy. lia. }
    rewrite length_seq in Hl. simpl. eexists. split; [done|]. split_and!.
    + rewrite length_app, length_drop. lia.
    + intros y Hy. rewrite lookup_app_l by lia. apply Hcol. by apply lookup_seq_lt.
    + intros i Hi. rewrite lookup_app_r by lia. rewrite lookup_drop. f_equal. lia.
Qed.

Lemma palette_modes_keep_cells_witness :
  let c := default (Homogeneous 0) (fst <$> container_set 4 (Homogeneous 0) 1 1 1 5) in
  container_ok 4 (finalize_building 4 (enter_building_mode 4 c)) /\
  collect_values 4 (finalize_building 4 (enter_building_mode 4 c)) =
    collect_values 4 (enter_building_mode 4 c).
Proof.
  assert (cube_ok 4 (het_cube (mkHetero (cube_fill 4 0) []))) as Hf by apply cube_fill_ok.
  apply (palette_modes_keep_cells 4 (enter_building_mode 4
    (default (Homogeneous 0) (fst <$> container_set 4 (Homogeneous 0) 1 1 1 5))) (cube_fill 4 0)).
  - lia.
  - reflexivity.
  - vm_compute. split; [reflexivity|]. repeat constructor.
  - exact Hf.
Defined.

(** The palette shortcuts are exact: [maybe_has] is true if and only if some cell
    satisfies the predicate, so a removed value never lingers in the palette, and
    [non_empty_block_count] is the number of cells whose block state is not 0. *)
Theorem palette_queries_exact (c : PalettedContainer Z) predicate :
  container_ok 16 c ->
  (maybe_has c predicate = true <-> exists v, v ∈ collect_values 16 c /\ predicate v = true) /\
  non_empty_block_count c = count_if (fun v => negb (v =? 0)) (collect_values 16 c).
Proof.
  intros Hok. pose proof (collect_values_length 16 c Hok) as Hlen.
  pose proof (count_if_bound (fun v => negb (v =? 0)) (collect_values 16 c)) as Hcb.
  assert (Z.of_nat (VOLUME 16) = 4096) as Hvol by done. rewrite Hlen, Hvol in Hcb.
  assert (u16 (Z.of_nat (VOLUME 16)) = Z.of_nat (VOLUME 16)) as Hu by (by rewrite Hvol).
  assert (VOLUME 16 <> 0%nat) as Hv0 by lia.
  unfold non_empty_block_count, collect_values in *. rewrite Hu. clear Hlen Hu.
  set (n := VOLUME 16) in *. clearbody n. split.
  - destruct c as [v|h|b]; cbn [maybe_has].
    + split; [|by intros (w & [-> _]%elem_of_replicate & H)]. intros H. exists v.
      split; [|done]. by apply elem_of_replicate.
    + destruct Hok as (_ & Hp & _). rewrite existsb_elem. split.
      * intros ([v m] & He & H). exists v. split; [|done].
        apply (palette_counts_elem _ _ v Hp). apply list_elem_of_fmap. by exists (v, m).
      * intros (v & Hv & H). apply (palette_counts_elem _ _ v Hp), list_elem_of_fmap in Hv.
        destruct Hv as (e & -> & He). by exists e.
    + apply existsb_elem.
  - destruct c as [v|h|b].
    + rewrite count_if_replicate. by destruct (v =? 0).
    + destruct Hok as (_ & Hp & _). pose proof Hp as [[_ Hpos] _].
      rewrite (count_palette_u16 _ 0 Hpos); [|lia|]; rewrite (pal_sum_cells _ _ _ Hp); lia.
    + rewrite (count_cells_u16 _ 0); lia.
Qed.

Lemma palette_queries_exact_witness :
  non_empty_block_count (Homogeneous 5) = count_if (fun v => negb (v =? 0)) (collect_values 16 (Homogeneous 5)).
Proof. exact (proj2 (palette_queries_exact (Homogeneous 5) (fun v => v =? 5) I)). Defined.

(** C40. The network form round-trips: a well formed container that is not being built is
    written without a panic, and a reader of the protocol's container format gets the
    global id of every cell back, in order, and stops where the container ends.  Ids
    must fit the width of direct cells, 15 bits for block states and 6 for biomes. *)
Theorem container_write_roundtrip {V} `{EqDecision V} dim to_global_id (c : PalettedContainer V) rest :
  dim = 16%nat \/ dim = 4%nat -> container_ok dim c -> ids_fit dim to_global_id c ->
  (forall cube, c <> Building cube) ->
  exists bs, container_write dim to_global_id c = Some bs /\
    read_container (indirect_bits dim) (VOLUME dim) (bs ++ rest) =
      Some (to_global_id <$> collect_values dim c, rest).
Proof.
  intros Hdim Hok Hids Hb. destruct c as [v|h|cube].
  - by apply read_write_homogeneous.
  - by apply read_write_heterogeneous.
  - by destruct (Hb cube).
Qed.

Lemma container_write_roundtrip_witness :
  let c := default (Homogeneous 0) (fst <$> container_set 4 (Homogeneous 3) 2 1 0 60) in
  exists bs, container_write 4 (fun v : Z => v) c = Some bs /\
    read_container (indirect_bits 4) (VOLUME 4) (bs ++ [1; 2]) =
      Some ((fun v : Z => v) <$> collect_values 4 c, [1; 2]).
Proof.
  destruct (container_set_spec (V := Z) 4 ltac:(lia) eq_refl (Homogeneous 3) 2 1 0 60 I
    ltac:(lia) ltac:(lia) ltac:(lia)) as (c' & old & E & Hok & _ & Hc). rewrite E.
  apply (container_write_roundtrip 4 (fun v : Z => v) c' [1; 2]).
  - by right.
  - exact Hok.
  - unfold ids_fit. rewrite Hc. apply Forall_insert; [|split; reflexivity || discriminate].
    apply Forall_replicate. split; reflexivity || discriminate.
  - intros cube ->. vm_compute in E. discriminate.
Defined.

(** The index-arithmetic packing of the network writer and the chunk-wise packing of
    the region storage are the same function, for every width they are used with. *)
Theorem pack_bits_is_pack_indices indices bits :
  1 <= bits <= 64 -> Forall (fits bits) indices -> pack_bits indices bits = pack_indices indices bits.
Proof. intros Hb Hl. by rewrite pack_bits_eq, pack_indices_eq by done. Qed.

Lemma pack_bits_is_pack_indices_witness :
  pack_bits [3; 1; 4; 1; 5; 9; 2; 6; 5; 3; 5; 8; 9; 7] 5 =
  pack_indices [3; 1; 4; 1; 5; 9; 2; 6; 5; 3; 5; 8; 9; 7] 5.
Proof.
  apply (pack_bits_is_pack_indices [3; 1; 4; 1; 5; 9; 2; 6; 5; 3; 5; 8; 9; 7] 5); [lia|].
  repeat constructor; vm_compute; (reflexivity || discriminate).
Defined.
