(* ===== verification/RegionFormat.v ===== *)
(** * Region file format

    Models the chunk location table of
    [steel-core/src/chunk_saver/format.rs]: [ChunkEntry], [RegionHeader] with its sector
    allocator, and [RegionPos]; and the validation of a table read from disk of
    [steel-core/src/chunk_saver/region_manager.rs].  Sizes and sector numbers are [Z];
    the sums the source computes in [u32] are written with the cast. *)

From S2P Require Import Prelude Positions ChunkPyramid BitPack.
Open Scope steel_scope.

(** ** Constants *)

Definition FORMAT_VERSION : Z := 22.
Definition REGION_SIZE : Z := 32.
Definition CHUNKS_PER_REGION : Z := REGION_SIZE * REGION_SIZE.
Definition SECTOR_SIZE : Z := 4096.
Definition FILE_HEADER_SIZE : Z := 8.
Definition CHUNK_TABLE_SIZE : Z := CHUNKS_PER_REGION * 8.
Definition FIRST_DATA_SECTOR : Z := 3.
Definition MAX_CHUNK_SIZE : Z := 16 * 1024 * 1024.

(** [a.div_ceil(b)]. *)
Definition div_ceilZ (a b : Z) : Z := (a + (b - 1)) / b.

(** ** Entries *)

Record ChunkEntry := mkEntry {
  sector_offset : Z;
  size_bytes : Z;
  entry_status : ChunkStatus;
}.

#[global] Instance ChunkEntry_eq_dec : EqDecision ChunkEntry.
Proof. solve_decision. Defined.

Definition ChunkEntry_exists (e : ChunkEntry) : bool := negb (sector_offset e =? 0).

Definition ChunkEntry_empty : ChunkEntry := mkEntry 0 0 Empty.

#[global] Instance ChunkEntry_inhabited : Inhabited ChunkEntry := populate ChunkEntry_empty.

Definition sector_count (e : ChunkEntry) : Z :=
  if size_bytes e =? 0 then 0 else u32 (div_ceilZ (size_bytes e) SECTOR_SIZE).

(** Byte [k] of [v.to_le_bytes()]. *)
Definition le_byte (v k : Z) : Z := u8 (Z.shiftr v (8 * k)).

Definition ChunkEntry_to_bytes (e : ChunkEntry) : list Z :=
  [le_byte (sector_offset e) 0; le_byte (sector_offset e) 1;
   le_byte (sector_offset e) 2; le_byte (sector_offset e) 3;
   le_byte (size_bytes e) 0; le_byte (size_bytes e) 1; le_byte (size_bytes e) 2;
   u8 (Z.of_nat (ChunkStatus_get_index (entry_status e)))].

(** [u32::from_le_bytes]. *)
Definition from_le_bytes (b0 b1 b2 b3 : Z) : Z := le_word 8 [b0; b1; b2; b3].

(** The argument is an array of eight bytes. *)
Definition ChunkEntry_from_bytes (bytes : list Z) : option ChunkEntry :=
  match bytes with
  | [b0; b1; b2; b3; b4; b5; b6; b7] =>
      let offset := from_le_bytes b0 b1 b2 b3 in
      let size := from_le_bytes b4 b5 b6 0 in
      status ← (if offset =? 0 then Some Empty else ChunkStatus_from_index (Z.to_nat b7));
      Some (mkEntry offset size status)
  | _ => None
  end.

(** ** The table *)

Record RegionHeader := mkHeader { entries : list ChunkEntry }.

Definition RegionHeader_new : RegionHeader :=
  mkHeader (replicate (Z.to_nat CHUNKS_PER_REGION) ChunkEntry_empty).

Definition chunk_index (local_x local_z : Z) : Z := local_z * REGION_SIZE + local_x.

Definition index_to_local (index : Z) : Z * Z := (index mod REGION_SIZE, index / REGION_SIZE).

Definition RegionHeader_to_bytes (h : RegionHeader) : list Z := entries h ≫= ChunkEntry_to_bytes.

(** The loop over the eight-byte chunks; [Err i] is the index of a bad entry. *)
Fixpoint parse_entries (i : nat) (chunks : list (list Z)) : result (list ChunkEntry) nat :=
  match chunks with
  | [] => Ok []
  | chunk :: rest =>
      match ChunkEntry_from_bytes chunk with
      | None => Err i
      | Some e => let? es := parse_entries (S i) rest in Ok (e :: es)
      end
  end.

(** [None] is the panic of the assertion on the length of the table. *)
Definition RegionHeader_from_bytes (bytes : list Z) : option (result RegionHeader nat) :=
  if decide (Z.of_nat (length bytes) = CHUNK_TABLE_SIZE)
  then Some (let? es := parse_entries 0 (chunks 8 bytes) in Ok (mkHeader es)) else None.

(** ** Sector allocation *)

(** [used_ranges.sort_by_key(|r| r.0)]: a stable sort on the first component. *)
Fixpoint insert_by_key (r : Z * Z) (l : list (Z * Z)) : list (Z * Z) :=
  match l with
  | [] => [r]
  | s :: l' => if fst r <=? fst s then r :: s :: l' else s :: insert_by_key r l'
  end.

Definition sort_by_key (l : list (Z * Z)) : list (Z * Z) := foldr insert_by_key [] l.

Definition used_ranges (h : RegionHeader) : list (Z * Z) :=
  (fun e => (sector_offset e, u32 (sector_offset e + sector_count e))) <$>
    filter (fun e => ChunkEntry_exists e = true) (entries h).

(** The loop over the sorted ranges, with its early return. *)
Fixpoint find_gap (sectors_needed file_sectors current_sector : Z) (ranges : list (Z * Z)) : Z :=
  match ranges with
  | [] => Z.max current_sector file_sectors
  | (start, end_) :: rest =>
      if u32 (current_sector + sectors_needed) <=? start then current_sector
      else find_gap sectors_needed file_sectors (Z.max current_sector end_) rest
  end.

Definition find_free_sectors (h : RegionHeader) (sectors_needed file_sectors : Z) : Z :=
  if sectors_needed =? 0 then FIRST_DATA_SECTOR
  else find_gap sectors_needed file_sectors FIRST_DATA_SECTOR (sort_by_key (used_ranges h)).

(** ** Validation of a table *)

Definition validate_chunk_entry (e : ChunkEntry) (file_sectors : Z) : result unit io_error :=
  if sector_offset e <? FIRST_DATA_SECTOR then Err InvalidData
  else if (size_bytes e =? 0) || (MAX_CHUNK_SIZE <? size_bytes e) then Err InvalidData
  else match checked_addu 32 (sector_offset e) (sector_count e) with
       | None => Err InvalidData
       | Some end_sector => if file_sectors <? end_sector then Err InvalidData else Ok tt
       end.

(** [occupied[start..end]]. *)
Definition sector_range (start end_ : Z) (l : list bool) : list bool :=
  take (Z.to_nat (end_ - start)) (drop (Z.to_nat start) l).

(** [occupied[start..end].fill(true)]. *)
Definition fill_true (start end_ : Z) (l : list bool) : list bool :=
  imap (fun i b => b || ((start <=? Z.of_nat i) && (Z.of_nat i <? end_))) l.

Fixpoint validate_loop (es : list ChunkEntry) (file_sectors : Z) (occupied : list bool)
  : result unit io_error :=
  match es with
  | [] => Ok tt
  | e :: rest =>
      if ChunkEntry_exists e then
        let? _ := validate_chunk_entry e file_sectors in
        let start := sector_offset e in
        let end_ := start + sector_count e in
        if existsb id (sector_range start end_ occupied) then Err InvalidData
        else validate_loop rest file_sectors (fill_true start end_ occupied)
      else validate_loop rest file_sectors occupied
  end.

Definition validate_region_entries (h : RegionHeader) (file_sectors : Z) : result unit io_error :=
  validate_loop (entries h) file_sectors
    (fill_true 0 FIRST_DATA_SECTOR (replicate (Z.to_nat file_sectors) false)).

(** ** Region positions *)

Record RegionPos := mkRegionPos { rp_x : Z; rp_z : Z }.

#[global] Instance RegionPos_eq_dec : EqDecision RegionPos.
Proof. solve_decision. Defined.
#[global] Instance RegionPos_countable : Countable RegionPos.
Proof.
  apply (inj_countable' (fun p => (rp_x p, rp_z p)) (fun '(x, z) => mkRegionPos x z)).
  by intros [].
Defined.

(** [div_euclid] and [rem_euclid] by a positive constant are [Z.div] and [Z.modulo]. *)
Definition RegionPos_from_chunk (chunk_x chunk_z : Z) : RegionPos :=
  mkRegionPos (chunk_x / REGION_SIZE) (chunk_z / REGION_SIZE).

Definition local_chunk_pos (chunk_x chunk_z : Z) : Z * Z :=
  (chunk_x mod REGION_SIZE, chunk_z mod REGION_SIZE).

(** ** Lemmas: entries *)

(** Entries the format can represent. *)
Definition entry_wf (e : ChunkEntry) : Prop :=
  0 <= sector_offset e < 2 ^ 32 /\ 0 <= size_bytes e < 2 ^ 24 /\
  (sector_offset e = 0 -> entry_status e = Empty).

Lemma le_byte_eq v k : 0 <= k -> le_byte v k = v / 2 ^ (8 * k) mod 256.
Proof. intros Hk. unfold le_byte, u8, wrapu. rewrite Z.shiftr_div_pow2 by lia. done. Qed.

Lemma le_bytes_step v k : 0 <= k ->
  v / 2 ^ (8 * k) mod 256 + 256 * (v / 2 ^ (8 * (k + 1))) = v / 2 ^ (8 * k).
Proof.
  intros Hk. assert (0 < 2 ^ (8 * k)) by (apply Z.pow_pos_nonneg; lia).
  replace (8 * (k + 1)) with (8 * k + 8) by lia. rewrite Z.pow_add_r by lia.
  change (2 ^ 8) with 256. rewrite <- Z.div_div by lia.
  pose proof (Z.div_mod (v / 2 ^ (8 * k)) 256). lia.
Qed.

Lemma from_le_bytes_eq v b :
  0 <= v < 2 ^ 32 -> (b = le_byte v 3 \/ (v < 2 ^ 24 /\ b = 0)) ->
  from_le_bytes (le_byte v 0) (le_byte v 1) (le_byte v 2) b = v.
Proof.
  intros Hv Hb. unfold from_le_bytes. cbn [le_word]. change (2 ^ 8) with 256.
  assert (b = v / 2 ^ (8 * 3)) as ->.
  { destruct Hb as [->|[Hlt ->]].
    - rewrite le_byte_eq by lia. apply Z.mod_small. split; [apply Z.div_pos; lia|].
      apply Z.div_lt_upper_bound; lia.
    - symmetry. apply Z.div_small. simpl. lia. }
  rewrite !le_byte_eq by lia. rewrite Z.mul_0_r, Z.add_0_r.
  pose proof (le_bytes_step v 2 ltac:(lia)) as H2. pose proof (le_bytes_step v 1 ltac:(lia)) as H1.
  pose proof (le_bytes_step v 0 ltac:(lia)) as H0.
  change (2 + 1) with 3 in H2. change (1 + 1) with 2 in H1. change (0 + 1) with 1 in H0.
  change (2 ^ (8 * 0)) with 1 in *. rewrite Z.div_1_r in *. lia.
Qed.

Lemma ChunkEntry_from_to_bytes e :
  entry_wf e -> ChunkEntry_from_bytes (ChunkEntry_to_bytes e) = Some e.
Proof.
  destruct e as [off size st]. intros (Hoff & Hsize & Hst). simpl in *.
  rewrite !from_le_bytes_eq by (try lia; by left || (right; split; [lia|done])).
  assert (u8 (Z.of_nat (ChunkStatus_get_index st)) = Z.of_nat (ChunkStatus_get_index st)) as ->.
  { apply u8_small. pose proof (ChunkStatus_index_bound st). unfold STATUS_COUNT in *. lia. }
  rewrite Nat2Z.id, ChunkStatus_from_get_index.
  destruct (Z.eqb_spec off 0); simpl; [|done]. by rewrite Hst.
Qed.

Lemma ChunkEntry_to_bytes_length e : length (ChunkEntry_to_bytes e) = 8%nat.
Proof. done. Qed.

Lemma chunks_bind {A B} (f : A -> list B) n (l : list A) :
  (0 < n)%nat -> (forall x, length (f x) = n) -> chunks n (l ≫= f) = f <$> l.
Proof.
  intros Hn Hf. unfold chunks.
  assert (forall l fuel, (length (l ≫= f) <= fuel)%nat -> chunks_loop fuel n (l ≫= f) = f <$> l) as H.
  { clear l. induction l as [|x l IH]; intros fuel Hfuel; [by destruct fuel|].
    change ((x :: l) ≫= f) with (f x ++ (l ≫= f)) in *. rewrite length_app, Hf in Hfuel.
    destruct fuel as [|fuel]; [lia|].
    destruct (f x ++ (l ≫= f)) as [|y ys] eqn:E.
    { apply app_nil in E as [E _]. specialize (Hf x). rewrite E in Hf. simpl in Hf. lia. }
    cbn [chunks_loop]. rewrite <- E. rewrite take_app_length' by done.
    rewrite drop_app_length' by done. rewrite IH by lia. done. }
  by apply H.
Qed.

Lemma parse_entries_ok i es :
  Forall entry_wf es -> parse_entries i (ChunkEntry_to_bytes <$> es) = Ok es.
Proof.
  intros H. revert i. induction H as [|e es He _ IH]; intros i; [done|].
  rewrite fmap_cons. cbn [parse_entries]. rewrite ChunkEntry_from_to_bytes by done. by rewrite IH.
Qed.

Lemma RegionHeader_to_bytes_length h :
  length (RegionHeader_to_bytes h) = (length (entries h) * 8)%nat.
Proof.
  unfold RegionHeader_to_bytes. destruct h as [es]. simpl.
  induction es as [|e es IH]; [done|].
  change ((e :: es) ≫= ChunkEntry_to_bytes) with (ChunkEntry_to_bytes e ++ (es ≫= ChunkEntry_to_bytes)).
  rewrite length_app, IH, ChunkEntry_to_bytes_length. simpl. lia.
Qed.

Lemma RegionHeader_from_to_bytes h :
  Forall entry_wf (entries h) -> length (entries h) = Z.to_nat CHUNKS_PER_REGION ->
  RegionHeader_from_bytes (RegionHeader_to_bytes h) = Some (Ok h).
Proof.
  intros H Hlen. unfold RegionHeader_from_bytes. rewrite decide_True.
  - unfold RegionHeader_to_bytes. rewrite chunks_bind by (done || lia).
    rewrite parse_entries_ok by done. by destruct h.
  - rewrite RegionHeader_to_bytes_length, Hlen.
    unfold CHUNK_TABLE_SIZE, CHUNKS_PER_REGION, REGION_SIZE. lia.
Qed.
(** ** Lemmas: sectors *)

Lemma div_ceilZ_bounds a b : 0 < b -> 0 <= a ->
  a <= b * div_ceilZ a b < a + b.
Proof.
  intros Hb Ha. unfold div_ceilZ. pose proof (Z.div_mod (a + (b - 1)) b).
  pose proof (Z.mod_pos_bound (a + (b - 1)) b Hb). lia.
Qed.

Lemma sector_count_eq e :
  0 < size_bytes e <= MAX_CHUNK_SIZE ->
  sector_count e = div_ceilZ (size_bytes e) SECTOR_SIZE /\ 1 <= sector_count e <= 4096.
Proof.
  unfold MAX_CHUNK_SIZE. intros H. unfold sector_count.
  pose proof (div_ceilZ_bounds (size_bytes e) SECTOR_SIZE ltac:(done) ltac:(lia)) as Hd.
  unfold SECTOR_SIZE in *. rewrite (proj2 (Z.eqb_neq _ _)) by lia.
  assert (u32 (div_ceilZ (size_bytes e) 4096) = div_ceilZ (size_bytes e) 4096) as ->.
  { apply (wrapu_small 32). unfold in_u. lia. }
  split; [done|lia].
Qed.

(** No sector belongs to both. *)
Definition disjoint_entries (e1 e2 : ChunkEntry) : Prop :=
  sector_offset e1 + sector_count e1 <= sector_offset e2 \/
  sector_offset e2 + sector_count e2 <= sector_offset e1.

Definition valid_entry (e : ChunkEntry) (file_sectors : Z) : Prop :=
  FIRST_DATA_SECTOR <= sector_offset e /\ 0 < size_bytes e <= MAX_CHUNK_SIZE /\
  sector_offset e + sector_count e <= file_sectors.

(** Existing entries lie in the data sectors of the file and do not overlap. *)
Definition table_ok (es : list ChunkEntry) (file_sectors : Z) : Prop :=
  (forall i e, es !! i = Some e -> ChunkEntry_exists e = true -> valid_entry e file_sectors) /\
  (forall i j e1 e2, i <> j -> es !! i = Some e1 -> es !! j = Some e2 ->
     ChunkEntry_exists e1 = true -> ChunkEntry_exists e2 = true -> disjoint_entries e1 e2).

Lemma insert_by_key_perm r l : insert_by_key r l ≡ₚ r :: l.
Proof.
  induction l as [|s l IH]; simpl; [done|]. case_match; [done|]. rewrite IH. constructor.
Qed.

Lemma sort_by_key_perm l : sort_by_key l ≡ₚ l.
Proof. induction l as [|r l IH]; simpl; [done|]. by rewrite insert_by_key_perm, IH. Qed.

Lemma insert_by_key_sorted r l :
  StronglySorted (fun a b => fst a <= fst b) l ->
  StronglySorted (fun a b => fst a <= fst b) (insert_by_key r l).
Proof.
  induction 1 as [|s l Hs IH Hall]; simpl; [repeat constructor|].
  destruct (Z.leb_spec (fst r) (fst s)).
  - constructor; [by constructor|]. constructor; [done|]. eapply Forall_impl; [exact Hall|].
    simpl. lia.
  - constructor; [done|]. rewrite insert_by_key_perm. constructor; [lia|done].
Qed.

Lemma sort_by_key_sorted l : StronglySorted (fun a b => fst a <= fst b) (sort_by_key l).
Proof. induction l; simpl; [constructor|]. by apply insert_by_key_sorted. Qed.

(** The gap search returns sectors that no range of the list touches. *)
Lemma find_gap_spec needed fs cur ranges :
  StronglySorted (fun a b => fst a <= fst b) ranges ->
  Forall (fun r => 0 <= snd r <= fs) ranges -> 0 <= cur -> 0 < needed ->
  cur + needed < 2 ^ 32 -> fs + needed < 2 ^ 32 ->
  let r := find_gap needed fs cur ranges in
  cur <= r <= Z.max cur fs /\
  Forall (fun x => snd x <= r \/ r + needed <= fst x) ranges.
Proof.
  intros Hs. revert cur. induction Hs as [|[s e] ranges Hs IH Hall]; intros cur Hr Hc Hn Hb Hf.
  { simpl. split; [lia|constructor]. }
  apply Forall_cons in Hr as [He Hr]. simpl in He. cbn [find_gap].
  assert (u32 (cur + needed) = cur + needed) as -> by (apply (wrapu_small 32); unfold in_u; lia).
  destruct (Z.leb_spec (cur + needed) s) as [Hgap|Hno].
  - split; [lia|]. constructor; [simpl; lia|]. eapply Forall_impl; [exact Hall|].
    intros x Hx. simpl in Hx. right. lia.
  - destruct (IH (Z.max cur e) Hr ltac:(lia) Hn ltac:(lia) Hf) as [H1 H2].
    split; [lia|]. constructor; [simpl; lia|exact H2].
Qed.

Lemma used_ranges_bounds es fs :
  table_ok es fs -> fs < 2 ^ 31 ->
  forall e, e ∈ es -> ChunkEntry_exists e = true ->
    (sector_offset e, sector_offset e + sector_count e) ∈ used_ranges (mkHeader es) /\
    u32 (sector_offset e + sector_count e) = sector_offset e + sector_count e.
Proof.
  intros [Hv _] Hfs e He Hex. apply list_elem_of_lookup in He as [i Hi].
  destruct (Hv i e Hi Hex) as (H1 & H2 & H3). unfold FIRST_DATA_SECTOR in H1.
  pose proof (sector_count_eq e H2) as [_ Hc].
  assert (u32 (sector_offset e + sector_count e) = sector_offset e + sector_count e) as E.
  { apply (wrapu_small 32). unfold in_u. lia. }
  split; [|done]. unfold used_ranges. apply list_elem_of_fmap. exists e. rewrite E.
  split; [done|]. apply list_elem_of_filter. split; [done|]. by eapply list_elem_of_lookup_2.
Qed.

Lemma find_free_sectors_spec h needed fs :
  table_ok (entries h) fs -> FIRST_DATA_SECTOR <= fs < 2 ^ 31 -> 0 < needed <= 4096 ->
  let r := find_free_sectors h needed fs in
  FIRST_DATA_SECTOR <= r <= fs /\
  forall i e, entries h !! i = Some e -> ChunkEntry_exists e = true ->
    sector_offset e + sector_count e <= r \/ r + needed <= sector_offset e.
Proof.
  destruct h as [es]. intros Hok Hfs Hn. unfold find_free_sectors, FIRST_DATA_SECTOR in *.
  rewrite (proj2 (Z.eqb_neq _ _)) by lia. cbn [entries] in *.
  destruct (find_gap_spec needed fs 3 (sort_by_key (used_ranges (mkHeader es)))) as [H1 H2];
    [apply sort_by_key_sorted| |lia|lia|lia|lia|].
  - rewrite sort_by_key_perm. apply Forall_forall.
    intros x (e & -> & [Hex He]%list_elem_of_filter)%list_elem_of_fmap. simpl.
    destruct (used_ranges_bounds es fs Hok ltac:(lia) e He Hex) as [_ ->].
    apply list_elem_of_lookup in He as [i Hi].
    destruct (proj1 Hok i e Hi Hex) as (Ho & Hsz & Hend).
    pose proof (sector_count_eq e Hsz) as [_ Hc]. unfold FIRST_DATA_SECTOR in Ho. lia.
  - split; [lia|]. intros i e Hi Hex. rewrite sort_by_key_perm in H2. rewrite Forall_forall in H2.
    apply (H2 (sector_offset e, sector_offset e + sector_count e)).
    apply (used_ranges_bounds es fs Hok ltac:(lia)); [|done]. by eapply list_elem_of_lookup_2.
Qed.

(** ** Lemmas: validation *)

Lemma validate_chunk_entry_ok e fs :
  fs < 2 ^ 32 -> 0 <= size_bytes e -> validate_chunk_entry e fs = Ok tt <-> valid_entry e fs.
Proof.
  intros Hfs Hsz. unfold validate_chunk_entry, valid_entry, checked_addu.
  destruct (Z.ltb_spec (sector_offset e) FIRST_DATA_SECTOR); [split; [done|lia]|].
  destruct (Z.eqb_spec (size_bytes e) 0), (Z.ltb_spec MAX_CHUNK_SIZE (size_bytes e)); simpl;
    try (split; [done|lia]).
  case_decide; [|split; [done|lia]].
  destruct (Z.ltb_spec fs (sector_offset e + sector_count e)); [split; [done|lia]|].
  split; [|done]. intros _. lia.
Qed.

(** Sector [s] is marked. *)
Definition marked (occ : list bool) (s : Z) : Prop := 0 <= s /\ occ !! Z.to_nat s = Some true.

Lemma fill_true_marked start end_ occ s :
  marked (fill_true start end_ occ) s <->
  marked occ s \/ (0 <= s < Z.of_nat (length occ) /\ start <= s < end_).
Proof.
  unfold marked, fill_true. rewrite list_lookup_imap. split.
  - intros [Hs (b & Hb & E)%fmap_Some]. simpl in E.
    assert (Z.to_nat s < length occ)%nat as Hl by (by eapply lookup_lt_Some).
    symmetry in E. apply orb_true_iff in E as [->|E]; [by left|right].
    apply andb_true_iff in E as [E1%Z.leb_le E2%Z.ltb_lt]. rewrite Z2Nat.id in * by done. lia.
  - intros [[Hs Hb]|[Hs Hr]].
    + split; [done|]. rewrite Hb. done.
    + split; [lia|]. destruct (lookup_lt_is_Some_2 occ (Z.to_nat s) ltac:(lia)) as [b Hb].
      rewrite Hb. simpl. rewrite Z2Nat.id by lia.
      rewrite (proj2 (Z.leb_le _ _)), (proj2 (Z.ltb_lt _ _)) by lia. by rewrite orb_true_r.
Qed.

Lemma fill_true_length start end_ occ : length (fill_true start end_ occ) = length occ.
Proof. apply length_imap. Qed.

Lemma sector_range_free start end_ occ :
  0 <= start ->
  existsb id (sector_range start end_ occ) = false <->
  forall s, start <= s < end_ -> ~ marked occ s.
Proof.
  intros Hs. unfold sector_range, marked. rewrite <- not_true_iff_false, existsb_exists. split.
  - intros H s Hr [_ Hm]. apply H. exists true. split; [|done].
    apply list_elem_of_In, list_elem_of_lookup. exists (Z.to_nat (s - start)).
    rewrite lookup_take_lt by lia. rewrite lookup_drop. rewrite <- Hm. f_equal. lia.
  - intros H (b & Hb%list_elem_of_In & Hid). simpl in Hid. destruct b; [|done].
    apply list_elem_of_lookup in Hb as [i Hi]. apply lookup_take_Some in Hi as [Hi Hlt].
    rewrite lookup_drop in Hi. apply (H (start + Z.of_nat i)); [lia|]. split; [lia|].
    rewrite <- Hi. f_equal. lia.
Qed.

(** The entries a validation accepts on top of the marked sectors. *)
Fixpoint accepted (es : list ChunkEntry) (fs : Z) (occ : Z -> Prop) : Prop :=
  match es with
  | [] => True
  | e :: rest =>
      if ChunkEntry_exists e then
        valid_entry e fs /\
        (forall s, sector_offset e <= s < sector_offset e + sector_count e -> ~ occ s) /\
        accepted rest fs (fun s => occ s \/ sector_offset e <= s < sector_offset e + sector_count e)
      else accepted rest fs occ
  end.

Lemma validate_loop_accepted es fs occ (P : Z -> Prop) :
  0 <= fs < 2 ^ 32 -> Forall (fun e => 0 <= size_bytes e) es ->
  Z.of_nat (length occ) = fs -> (forall s, 0 <= s < fs -> marked occ s <-> P s) ->
  validate_loop es fs occ = Ok tt <-> accepted es fs P.
Proof.
  intros Hfs Hsz. revert occ P. induction Hsz as [|e es He _ IH]; intros occ P Hlen HP; [done|].
  cbn [validate_loop accepted]. destruct (ChunkEntry_exists e); [|by apply IH].
  destruct (validate_chunk_entry e fs) as [[]|er] eqn:Ev; simpl; last first.
  { split; [done|]. intros [Hv%validate_chunk_entry_ok _]; [congruence|lia|done]. }
  apply validate_chunk_entry_ok in Ev; [|lia|done]. pose proof Ev as (H1 & H2 & H3).
  unfold FIRST_DATA_SECTOR in H1. pose proof (sector_count_eq e H2) as [_ Hc].
  set (start := sector_offset e) in *. set (end_ := start + sector_count e) in *.
  assert ((forall s, start <= s < end_ -> ~ marked occ s) <-> (forall s, start <= s < end_ -> ~ P s)) as Hfree.
  { split; intros H s Hs Hm; apply (H s Hs); apply (HP s); try lia; done. }
  destruct (existsb id (sector_range start end_ occ)) eqn:Eo.
  - split; [done|]. intros (_ & Hno & _). rewrite <- Hfree in Hno.
    rewrite <- sector_range_free in Hno by lia. congruence.
  - rewrite sector_range_free in Eo by lia. rewrite (IH _ (fun s => P s \/ start <= s < end_)).
    + split; [|by intros (_ & _ & ?)]. intros Ha. split; [done|]. split; [by apply Hfree|done].
    + by rewrite fill_true_length.
    + intros s Hs. rewrite fill_true_marked, HP by done. rewrite Hlen. naive_solver.
Qed.

Lemma accepted_table es fs (P : Z -> Prop) :
  accepted es fs P <->
  table_ok es fs /\
  (forall i e s, es !! i = Some e -> ChunkEntry_exists e = true ->
     sector_offset e <= s < sector_offset e + sector_count e -> ~ P s).
Proof.
  revert P. induction es as [|e es IH]; intros P; cbn [accepted].
  { split; [|done]. intros _. split; [split|]; intros; by simplify_list_eq. }
  destruct (ChunkEntry_exists e) eqn:Ex; rewrite IH; clear IH; unfold table_ok; split.
  - intros (Hv & Hno & (Hall & Hdis) & Hsep). split; [split|].
    + intros [|i] e' Hi Hex; simpl in Hi; [by simplify_eq|by eapply Hall].
    + assert (forall j e', es !! j = Some e' -> ChunkEntry_exists e' = true ->
        disjoint_entries e e') as Hhead.
      { intros j e' Hj Hex. destruct (Hall j e' Hj Hex) as (_ & Hsz & _).
        pose proof (sector_count_eq e' Hsz) as [_ Hc']. destruct Hv as (_ & Hsz0 & _).
        pose proof (sector_count_eq e Hsz0) as [_ Hc0]. unfold disjoint_entries.
        pose proof (Hsep j e' (Z.max (sector_offset e) (sector_offset e')) Hj Hex). lia. }
      intros [|i] [|j] e1 e2 Hij H1 H2 Hx1 Hx2; simpl in *; simplify_eq; [by eapply Hhead| |].
      * apply or_comm. by eapply (Hhead i).
      * by apply (Hdis i j); auto.
    + intros [|i] e' s Hi Hex Hs; simpl in Hi; [simplify_eq; by apply Hno|].
      intros Hp. by apply (Hsep i e' s Hi Hex Hs); left.
  - intros ((Hall & Hdis) & Hsep). split_and!.
    + by apply (Hall 0%nat).
    + intros s. by apply (Hsep 0%nat).
    + intros i e' Hi. by apply (Hall (S i)).
    + intros i j e1 e2 Hij. apply (Hdis (S i) (S j)). lia.
    + intros i e' s Hi Hex Hs [Hp|Hp]; [by apply (Hsep (S i) e' s)|].
      pose proof (Hdis 0%nat (S i) e e' ltac:(lia) eq_refl Hi Ex Hex) as Hd.
      unfold disjoint_entries in Hd. lia.
  - intros ((Hall & Hdis) & Hsep). split; [split|].
    + intros [|i] e' Hi Hex; simpl in Hi; [simplify_eq; congruence|by eapply Hall].
    + intros [|i] [|j] e1 e2 Hij H1 H2 Hx1 Hx2; simpl in *; simplify_eq; try congruence.
      by apply (Hdis i j); auto.
    + intros [|i] e' s Hi Hex; simpl in Hi; [simplify_eq; congruence|by eapply Hsep].
  - intros ((Hall & Hdis) & Hsep). split; [split|].
    + intros i e' Hi. by apply (Hall (S i)).
    + intros i j e1 e2 Hij. apply (Hdis (S i) (S j)). lia.
    + intros i e' s Hi. by apply (Hsep (S i)).
Qed.

Lemma validate_region_entries_table h fs :
  0 <= fs < 2 ^ 32 -> Forall (fun e => 0 <= size_bytes e) (entries h) ->
  validate_region_entries h fs = Ok tt <-> table_ok (entries h) fs.
Proof.
  intros Hfs Hsz. unfold validate_region_entries.
  rewrite (validate_loop_accepted _ _ _ (fun s => s < FIRST_DATA_SECTOR)); [|done|done| |].
  - rewrite accepted_table. split; [by intros [? _]|]. intros Hok. split; [done|].
    intros i e s Hi Hex Hs. destruct (proj1 Hok i e Hi Hex) as (H1 & _). lia.
  - rewrite fill_true_length, length_replicate. lia.
  - intros s Hs. rewrite fill_true_marked, length_replicate. unfold marked.
    split; [|intros; right; lia]. intros [[_ H%lookup_replicate_1]|H]; [by destruct H|lia].
Qed.

(** ** Lemmas: region positions *)

Lemma chunk_index_bound x z : 0 <= chunk_index (x mod REGION_SIZE) (z mod REGION_SIZE) < CHUNKS_PER_REGION.
Proof.
  unfold chunk_index, CHUNKS_PER_REGION, REGION_SIZE.
  pose proof (Z.mod_pos_bound x 32 ltac:(lia)). pose proof (Z.mod_pos_bound z 32 ltac:(lia)). lia.
Qed.

(** A chunk is determined by its region and its index in the region. *)
Lemma region_index_inj p q :
  RegionPos_from_chunk (cp_x p) (cp_y p) = RegionPos_from_chunk (cp_x q) (cp_y q) ->
  chunk_index (cp_x p mod REGION_SIZE) (cp_y p mod REGION_SIZE) =
    chunk_index (cp_x q mod REGION_SIZE) (cp_y q mod REGION_SIZE) -> p = q.
Proof.
  destruct p as [px py], q as [qx qy]. unfold RegionPos_from_chunk, chunk_index, REGION_SIZE. simpl.
  intros [= E1 E2] E3.
  pose proof (Z.mod_pos_bound px 32 ltac:(lia)). pose proof (Z.mod_pos_bound qx 32 ltac:(lia)).
  pose proof (Z.div_mod px 32 ltac:(lia)). pose proof (Z.div_mod qx 32 ltac:(lia)).
  pose proof (Z.div_mod py 32 ltac:(lia)). pose proof (Z.div_mod qy 32 ltac:(lia)). f_equal; lia.
Qed.

(** ** Properties *)

(** The chunk location table round-trips through its bytes: a table whose entries the
    format can represent (sector below 2^32, size below 2^24, missing chunks empty) is
    written as [CHUNK_TABLE_SIZE] bytes, which [from_bytes] asserts, and read back
    unchanged. *)
Theorem region_table_roundtrip h :
  Forall entry_wf (entries h) -> length (entries h) = Z.to_nat CHUNKS_PER_REGION ->
  Z.of_nat (length (RegionHeader_to_bytes h)) = CHUNK_TABLE_SIZE /\
  RegionHeader_from_bytes (RegionHeader_to_bytes h) = Some (Ok h).
Proof.
  intros H Hlen. split; [|by apply RegionHeader_from_to_bytes].
  rewrite RegionHeader_to_bytes_length, Hlen.
  unfold CHUNK_TABLE_SIZE, CHUNKS_PER_REGION, REGION_SIZE. lia.
Qed.

Lemma region_table_roundtrip_witness :
  let h := mkHeader (mkEntry 70000 123456 Full :: replicate 1023 ChunkEntry_empty) in
  Z.of_nat (length (RegionHeader_to_bytes h)) = 8192 /\
  RegionHeader_from_bytes (RegionHeader_to_bytes h) = Some (Ok h).
Proof.
  apply (region_table_roundtrip
           (mkHeader (mkEntry 70000 123456 Full :: replicate 1023 ChunkEntry_empty))).
  - constructor; [repeat split; simpl; lia || done|]. apply Forall_replicate.
    repeat split; simpl; lia || done.
  - vm_compute. reflexivity.
Defined.

(** The sector allocator is sound: for a valid table, the range [find_free_sectors]
    returns starts in the data area, at or before the end of the file, and shares no
    sector with any stored chunk. *)
Theorem find_free_sectors_disjoint h sectors_needed file_sectors :
  table_ok (entries h) file_sectors ->
  FIRST_DATA_SECTOR <= file_sectors < 2 ^ 31 -> 0 < sectors_needed <= 4096 ->
  let r := find_free_sectors h sectors_needed file_sectors in
  FIRST_DATA_SECTOR <= r <= file_sectors /\
  forall i e, entries h !! i = Some e -> ChunkEntry_exists e = true ->
    sector_offset e + sector_count e <= r \/ r + sectors_needed <= sector_offset e.
Proof. exact (find_free_sectors_spec h sectors_needed file_sectors). Qed.

Lemma find_free_sectors_disjoint_witness :
  let h := mkHeader [mkEntry 3 5000 Full; ChunkEntry_empty; mkEntry 9 4096 Noise] in
  find_free_sectors h 4 20 = 5 /\
  FIRST_DATA_SECTOR <= find_free_sectors h 4 20 <= 20.
Proof.
  split; [vm_compute; reflexivity|].
  apply (find_free_sectors_disjoint (mkHeader [mkEntry 3 5000 Full; ChunkEntry_empty; mkEntry 9 4096 Noise]) 4 20).
  - apply validate_region_entries_table; [lia| |vm_compute; reflexivity].
    repeat constructor; simpl; lia.
  - unfold FIRST_DATA_SECTOR. lia.
  - lia.
Defined.

(** The validation of a table read from disk is exact: it succeeds if and only if
    every stored chunk lies within the data sectors of the file and no two of them
    overlap. *)
Theorem validate_region_entries_exact h file_sectors :
  0 <= file_sectors < 2 ^ 32 -> Forall (fun e => 0 <= size_bytes e) (entries h) ->
  validate_region_entries h file_sectors = Ok tt <-> table_ok (entries h) file_sectors.
Proof. exact (validate_region_entries_table h file_sectors). Qed.

Lemma validate_region_entries_exact_witness :
  table_ok [mkEntry 3 5000 Full; ChunkEntry_empty; mkEntry 9 4096 Noise] 10.
Proof.
  apply (validate_region_entries_exact
    (mkHeader [mkEntry 3 5000 Full; ChunkEntry_empty; mkEntry 9 4096 Noise]) 10).
  - lia.
  - repeat constructor; simpl; lia.
  - vm_compute. reflexivity.
Defined.

(** A payload of exactly [MAX_CHUNK_SIZE] bytes passes the size check of the encoder and is
    valid in memory, but its size does not fit the three bytes of the table: read back, the
    entry has size 0 and the table is rejected. *)
Lemma chunk_of_maximum_size_is_rejected :
  let e := mkEntry 3 MAX_CHUNK_SIZE Full in
  validate_chunk_entry e 5000 = Ok tt /\
  ChunkEntry_from_bytes (ChunkEntry_to_bytes e) = Some (mkEntry 3 0 Full) /\
  validate_chunk_entry (mkEntry 3 0 Full) 5000 = Err InvalidData.
Proof. vm_compute. done. Qed.
