(* ===== verification/RegionManager.v ===== *)
(** * Region file manager

    Models [steel-core/src/chunk_saver/region_manager.rs]: opening, creating and closing
    region files, saving, loading and discarding chunks.  The directory is a map from
    paths to file contents, a file is its list of bytes, and an open handle's file is the
    content at its region's path.  Reads and writes of the operating system succeed
    except for a read past the end of the file.  Every method runs under the write lock
    of [regions]; [load_chunk] releases it between reading and decoding, so it is split
    into two steps.  Serialization and compression (wincode, zstd) and the
    materialization of a chunk are parameters. *)

From S2P Require Import Prelude Positions ChunkPyramid BitPack RegionFormat.
Open Scope steel_scope.

(** ** Files *)

Inductive path :=
| RegionFile (pos : RegionPos)
| BackupFile (pos : RegionPos) (version : Z).

#[global] Instance path_eq_dec : EqDecision path.
Proof. solve_decision. Defined.
#[global] Instance path_countable : Countable path.
Proof.
  apply (inj_countable'
    (fun p => match p with RegionFile r => inl r | BackupFile r v => inr (r, v) end)
    (fun s => match s with inl r => RegionFile r | inr (r, v) => BackupFile r v end)).
  by intros [].
Defined.

Abbreviation file := (list Z).

(** [seek(Start(off))] then [write_all(data)]; a gap is filled with zeros. *)
Definition file_write (off : Z) (data : list Z) (f : file) : file :=
  let n := Z.to_nat off in
  take n (f ++ replicate (n - length f) 0) ++ data ++ drop (n + length data) f.

(** [read_exact] of [n] bytes at [off]. *)
Definition file_read (off n : Z) (f : file) : result (list Z) io_error :=
  if off + n <=? Z.of_nat (length f)
  then Ok (take (Z.to_nat n) (drop (Z.to_nat off) f)) else Err UnexpectedEof.

(** ** Handles *)

Record RegionHandle := mkHandle {
  rh_header : RegionHeader;
  loaded_chunk_count : Z;
  header_dirty : bool;
  file_sectors : Z;
}.

Record RegionManager := mkRM {
  files : gmap path file;
  regions : gmap RegionPos RegionHandle;
}.

Definition REGION_MAGIC : list Z := [83; 84; 76; 82].

Definition file_header : list Z := REGION_MAGIC ++ [le_byte FORMAT_VERSION 0; le_byte FORMAT_VERSION 1; 0; 0].

Definition create_region (fs : gmap path file) (pos : RegionPos) : gmap path file * RegionHandle :=
  (<[RegionFile pos := file_header ++ RegionHeader_to_bytes RegionHeader_new]> fs,
   mkHandle RegionHeader_new 0 false FIRST_DATA_SECTOR).

(** [file_size.div_ceil(SECTOR_SIZE) as u32]. *)
Definition sectors_of (f : file) : Z := u32 (div_ceilZ (Z.of_nat (length f)) SECTOR_SIZE).

(** The header of an existing file of the current version.  The table read has the length
    that [from_bytes] asserts ([read_table_asserted]), so its panic cannot occur here. *)
Definition read_region (f : file) : result RegionHandle io_error :=
  let? table := file_read FILE_HEADER_SIZE CHUNK_TABLE_SIZE f in
  match RegionHeader_from_bytes table with
  | None | Some (Err _) => Err InvalidData
  | Some (Ok header) =>
      let? _ := validate_region_entries header (sectors_of f) in
      Ok (mkHandle header 0 false (sectors_of f))
  end.

Definition open_region (fs : gmap path file) (pos : RegionPos)
  : result (gmap path file * RegionHandle) io_error :=
  match fs !! RegionFile pos with
  | None => Ok (create_region fs pos)
  | Some f =>
      let? header_bytes := file_read 0 FILE_HEADER_SIZE f in
      if decide (take 4 header_bytes = REGION_MAGIC) then
        let version := le_word 8 (take 2 (drop 4 header_bytes)) in
        if version =? FORMAT_VERSION then
          let? handle := read_region f in Ok (fs, handle)
        else
          Ok (create_region (<[BackupFile pos version := f]> (delete (RegionFile pos) fs)) pos)
      else Err InvalidData
  end.

(** The handle of an open region, or one opened now. *)
Definition get_or_open (m : RegionManager) (pos : RegionPos)
  : result (RegionManager * RegionHandle) io_error :=
  match regions m !! pos with
  | Some handle => Ok (m, handle)
  | None =>
      let? (fs, handle) := open_region (files m) pos in
      Ok (mkRM fs (<[pos := handle]> (regions m)), handle)
  end.

(** Writes to the file of an open region. *)
Definition with_file (fs : gmap path file) (pos : RegionPos) (k : file -> file) : gmap path file :=
  alter k (RegionFile pos) fs.

Definition write_header (h : RegionHeader) (f : file) : file :=
  file_write FILE_HEADER_SIZE (RegionHeader_to_bytes h) f.

Definition write_chunk_data (off : Z) (data : list Z) (f : file) : file :=
  let byte_offset := off * SECTOR_SIZE in
  let len := Z.of_nat (length data) in
  let padding_needed := (SECTOR_SIZE - len mod SECTOR_SIZE) mod SECTOR_SIZE in
  let f := file_write byte_offset data f in
  if 0 <? padding_needed
  then file_write (byte_offset + len) (replicate (Z.to_nat padding_needed) 0) f else f.

(** The new number of sectors after [write_chunk_data]. *)
Definition grown_sectors (off : Z) (data : list Z) (sectors : Z) : Z :=
  let end_sector := u32 (off + u32 (div_ceilZ (Z.of_nat (length data)) SECTOR_SIZE)) in
  if sectors <? end_sector then end_sector else sectors.

Definition region_of (pos : ChunkPos) : RegionPos := RegionPos_from_chunk (cp_x pos) (cp_y pos).

Definition index_of (pos : ChunkPos) : nat :=
  let '(lx, lz) := local_chunk_pos (cp_x pos) (cp_y pos) in Z.to_nat (chunk_index lx lz).

(** ** Operations *)

(** [save_chunk_data] once the payload is encoded. *)
Definition save_compressed (m : RegionManager) (pos : ChunkPos) (status : ChunkStatus)
  (compressed : list Z) : result (RegionManager * bool) io_error :=
  let region_pos := region_of pos in
  let we_opened_region := bool_decide (regions m !! region_pos = None) in
  let? (m, handle) := get_or_open m region_pos in
  let len := Z.of_nat (length compressed) in
  let sectors_needed := u32 (div_ceilZ len SECTOR_SIZE) in
  let old_entry := entries (rh_header handle) !!! index_of pos in
  let off :=
    if ChunkEntry_exists old_entry && (sectors_needed <=? sector_count old_entry)
    then sector_offset old_entry
    else find_free_sectors (rh_header handle) sectors_needed (file_sectors handle) in
  let fs := with_file (files m) region_pos (write_chunk_data off compressed) in
  let sectors := grown_sectors off compressed (file_sectors handle) in
  let header := mkHeader (<[index_of pos := mkEntry off (u32 len) status]>
                            (entries (rh_header handle))) in
  if we_opened_region && (loaded_chunk_count handle =? 0)
  then Ok (mkRM (with_file fs region_pos (write_header header)) (delete region_pos (regions m)), true)
  else Ok (mkRM fs (<[region_pos := mkHandle header (loaded_chunk_count handle) true sectors]>
                      (regions m)), true).

(** The part of [load_chunk] under the first lock: the payload and its entry. *)
Definition load_read (m : RegionManager) (pos : ChunkPos) (min_y height : Z)
  : result (option (list Z * ChunkEntry)) io_error :=
  if (height <=? 0) || negb (Z.rem height 16 =? 0) || negb (Z.rem min_y 16 =? 0)
  then Err InvalidInput
  else
    match regions m !! region_of pos with
    | None => Ok None
    | Some handle =>
        let entry := entries (rh_header handle) !!! index_of pos in
        if ChunkEntry_exists entry then
          let? _ := validate_chunk_entry entry (file_sectors handle) in
          let? compressed :=
            file_read (sector_offset entry * SECTOR_SIZE) (size_bytes entry)
              (default [] (files m !! RegionFile (region_of pos))) in
          Ok (Some (compressed, entry))
        else Ok None
    end.

Definition clear_corrupt_chunk_if_unchanged (m : RegionManager) (region_pos : RegionPos)
  (index : nat) (expected_entry : ChunkEntry) : result (RegionManager * bool) io_error :=
  match regions m !! region_pos with
  | None => Err OtherError
  | Some handle =>
      if decide (entries (rh_header handle) !!! index = expected_entry) then
        let header := mkHeader (<[index := ChunkEntry_empty]> (entries (rh_header handle))) in
        Ok (mkRM (with_file (files m) region_pos (write_header header))
              (<[region_pos := mkHandle header (loaded_chunk_count handle) false
                                 (file_sectors handle)]> (regions m)), true)
      else Ok (m, false)
  end.

(** The libraries the payload goes through (wincode, zstd) and the conversion of a
    persistent chunk to a runtime chunk, which needs the registries and the world. *)
Class ChunkCodec (Persistent Loaded : Type) := {
  wincode_serialize : Persistent -> option (list Z);
  wincode_deserialize : list Z -> option Persistent;
  zstd_encode_all : list Z -> result (list Z) io_error;
  zstd_decode_all : list Z -> option (list Z);
  try_persistent_to_chunk : Persistent -> ChunkPos -> ChunkStatus -> Z -> Z -> option Loaded;
}.

(** What the libraries promise: each decoder inverts its encoder. *)
Class ChunkCodecLaws (Persistent Loaded : Type) `{ChunkCodec Persistent Loaded} : Prop := {
  wincode_inverse p bytes : wincode_serialize p = Some bytes -> wincode_deserialize bytes = Some p;
  zstd_inverse data compressed :
    zstd_encode_all data = Ok compressed -> zstd_decode_all compressed = Some data;
}.

Section Codec.
Context {Persistent Loaded : Type} `{ChunkCodec Persistent Loaded}.

Definition encode_chunk (persistent : Persistent) : result (list Z) io_error :=
  match wincode_serialize persistent with
  | None => Err InvalidData
  | Some data =>
      let? compressed := zstd_encode_all data in
      if MAX_CHUNK_SIZE <? Z.of_nat (length compressed) then Err InvalidData else Ok compressed
  end.

(** [None] is [CorruptChunkData]. *)
Definition decode_chunk (compressed : list Z) (pos : ChunkPos) (status : ChunkStatus)
  (min_y height : Z) : option Loaded :=
  data ← zstd_decode_all compressed;
  persistent ← wincode_deserialize data;
  try_persistent_to_chunk persistent pos status min_y height.

Definition save_chunk_data (m : RegionManager) (pos : ChunkPos) (status : ChunkStatus)
  (persistent : Persistent) : result (RegionManager * bool) io_error :=
  let? compressed := encode_chunk persistent in save_compressed m pos status compressed.

(** The part of [load_chunk] after the payload was read and decoded. *)
Definition load_finish (m : RegionManager) (pos : ChunkPos) (min_y height : Z)
  (payload : list Z * ChunkEntry) : result (RegionManager * option Loaded) io_error :=
  let '(compressed, entry) := payload in
  match decode_chunk compressed pos (entry_status entry) min_y height with
  | Some loaded => Ok (m, Some loaded)
  | None =>
      let? (m, cleared) := clear_corrupt_chunk_if_unchanged m (region_of pos) (index_of pos) entry in
      if cleared then Ok (m, None) else Err InvalidData
  end.

(** [load_chunk] with nothing in between. *)
Definition load_chunk (m : RegionManager) (pos : ChunkPos) (min_y height : Z)
  : result (RegionManager * option Loaded) io_error :=
  let? payload := load_read m pos min_y height in
  match payload with
  | None => Ok (m, None)
  | Some payload => load_finish m pos min_y height payload
  end.
End Codec.

Definition acquire_chunk (m : RegionManager) (pos : ChunkPos)
  : result (RegionManager * bool) io_error :=
  let? (m, handle) := get_or_open m (region_of pos) in
  let exists_ := ChunkEntry_exists (entries (rh_header handle) !!! index_of pos) in
  Ok (mkRM (files m)
        (<[region_of pos := mkHandle (rh_header handle) (loaded_chunk_count handle + 1)
                              (header_dirty handle) (file_sectors handle)]> (regions m)), exists_).

Definition release_chunk (m : RegionManager) (pos : ChunkPos) : result RegionManager io_error :=
  let region_pos := region_of pos in
  match regions m !! region_pos with
  | None => Ok m
  | Some handle =>
      let count := loaded_chunk_count handle ⊖ 1 in
      if count =? 0 then
        Ok (mkRM (if header_dirty handle
                  then with_file (files m) region_pos (write_header (rh_header handle)) else files m)
              (delete region_pos (regions m)))
      else
        Ok (mkRM (files m) (<[region_pos := mkHandle (rh_header handle) count
                                (header_dirty handle) (file_sectors handle)]> (regions m)))
  end.

Definition chunk_exists (m : RegionManager) (pos : ChunkPos) : result bool io_error :=
  match regions m !! region_of pos with
  | Some handle => Ok (ChunkEntry_exists (entries (rh_header handle) !!! index_of pos))
  | None =>
      match files m !! RegionFile (region_of pos) with
      | None => Ok false
      | Some f =>
          let? bytes := file_read (FILE_HEADER_SIZE + Z.of_nat (index_of pos) * 8) 8 f in
          match ChunkEntry_from_bytes bytes with
          | None => Err InvalidData
          | Some entry => Ok (ChunkEntry_exists entry)
          end
      end
  end.

(** The loop of [flush_all] and [close_all] over the open handles. *)
Definition flush_files (hs : list (RegionPos * RegionHandle)) (fs : gmap path file) : gmap path file :=
  foldl (fun fs '(pos, handle) =>
    if header_dirty handle then with_file fs pos (write_header (rh_header handle)) else fs) fs hs.

Definition clean_handle (h : RegionHandle) : RegionHandle :=
  mkHandle (rh_header h) (loaded_chunk_count h) false (file_sectors h).

Definition flush_all (m : RegionManager) : RegionManager :=
  mkRM (flush_files (map_to_list (regions m)) (files m)) (clean_handle <$> regions m).

Definition close_all (m : RegionManager) : RegionManager :=
  mkRM (flush_files (map_to_list (regions m)) (files m)) ∅.

(** ** Lemmas: files *)

Lemma file_write_lookup off data f i :
  0 <= off ->
  file_write off data f !! i =
    if decide (Z.of_nat i < off) then (if decide (i < length f)%nat then f !! i else Some 0)
    else if decide (Z.of_nat i < off + Z.of_nat (length data))
         then data !! (i - Z.to_nat off)%nat else f !! i.
Proof.
  intros Hoff. unfold file_write. set (n := Z.to_nat off).
  assert (length (take n (f ++ replicate (n - length f) 0)) = n) as Hl.
  { rewrite length_take, length_app, length_replicate. lia. }
  destruct (decide (Z.of_nat i < off)) as [Hi|Hi].
  - rewrite lookup_app_l by lia. rewrite lookup_take_lt by lia. case_decide.
    + by rewrite lookup_app_l.
    + rewrite lookup_app_r by lia. apply lookup_replicate_2. lia.
  - rewrite lookup_app_r by lia. rewrite Hl. case_decide.
    + by rewrite lookup_app_l by lia.
    + rewrite lookup_app_r by lia. rewrite lookup_drop. f_equal. lia.
Qed.

Lemma file_write_length off data f :
  0 <= off ->
  Z.of_nat (length (file_write off data f)) =
    Z.max (Z.of_nat (length f)) (off + Z.of_nat (length data)).
Proof.
  intros Hoff. unfold file_write.
  rewrite !length_app, length_take, length_app, length_replicate, length_drop. lia.
Qed.

(** The bytes of a range, and when two files agree on it. *)
Definition bytes_at (off n : Z) (f : file) : list Z := take (Z.to_nat n) (drop (Z.to_nat off) f).

Lemma bytes_at_eq off n f g :
  0 <= off -> (forall i, off <= Z.of_nat i < off + n -> f !! i = g !! i) ->
  bytes_at off n f = bytes_at off n g.
Proof.
  intros Hoff H. unfold bytes_at. apply list_eq. intros i.
  destruct (decide (i < Z.to_nat n)%nat) as [Hi|Hi].
  - rewrite !lookup_take_lt by done. rewrite !lookup_drop. apply H. lia.
  - by rewrite !lookup_take_ge by lia.
Qed.

Lemma bytes_at_write_same off data f :
  0 <= off -> bytes_at off (Z.of_nat (length data)) (file_write off data f) = data.
Proof.
  intros Hoff. unfold bytes_at. apply list_eq. intros i. rewrite Nat2Z.id.
  destruct (decide (i < length data)%nat) as [Hi|Hi].
  - rewrite lookup_take_lt by done. rewrite lookup_drop, file_write_lookup by done.
    rewrite decide_False by lia. rewrite decide_True by lia. f_equal. lia.
  - rewrite lookup_take_ge by lia. symmetry. apply lookup_ge_None_2. lia.
Qed.

Lemma file_write_outside off data f i :
  0 <= off -> (i < length f)%nat ->
  Z.of_nat i < off \/ off + Z.of_nat (length data) <= Z.of_nat i ->
  file_write off data f !! i = f !! i.
Proof.
  intros Hoff Hi Hout. rewrite file_write_lookup by done. repeat case_decide; try done; lia.
Qed.

Lemma file_read_ok off n f :
  0 <= off -> 0 <= n -> off + n <= Z.of_nat (length f) -> file_read off n f = Ok (bytes_at off n f).
Proof. intros Hoff Hn Hl. unfold file_read. by rewrite (proj2 (Z.leb_le _ _)). Qed.

(** ** Region contents *)

Definition region_entries : nat := Z.to_nat CHUNKS_PER_REGION.

(** A file whose data matches a table: the format header, the bounds, and every stored
    payload inside the file. *)
Record file_ok (f : file) (h : RegionHeader) (sectors : Z) : Prop := {
  fo_magic : bytes_at 0 FILE_HEADER_SIZE f = file_header;
  fo_count : length (entries h) = region_entries;
  fo_wf : Forall entry_wf (entries h);
  fo_table : table_ok (entries h) sectors;
  fo_sectors : sectors = div_ceilZ (Z.of_nat (length f)) SECTOR_SIZE;
  fo_length : FILE_HEADER_SIZE + CHUNK_TABLE_SIZE <= Z.of_nat (length f) < 2 ^ 43;
  fo_data i e : entries h !! i = Some e -> ChunkEntry_exists e = true ->
    sector_offset e * SECTOR_SIZE + size_bytes e <= Z.of_nat (length f);
}.

(** The table on disk is the header. *)
Definition table_on_disk (f : file) (h : RegionHeader) : Prop :=
  bytes_at FILE_HEADER_SIZE CHUNK_TABLE_SIZE f = RegionHeader_to_bytes h.

Definition closed_ok (f : file) : Prop :=
  exists h, file_ok f h (sectors_of f) /\ table_on_disk f h.

Definition handle_ok (f : file) (h : RegionHandle) : Prop :=
  file_ok f (rh_header h) (file_sectors h) /\
  (header_dirty h = false -> table_on_disk f (rh_header h)) /\ 0 <= loaded_chunk_count h.

Record rm_ok (m : RegionManager) : Prop := {
  ok_open r h : regions m !! r = Some h ->
    exists f, files m !! RegionFile r = Some f /\ handle_ok f h;
  ok_closed r f : regions m !! r = None -> files m !! RegionFile r = Some f -> closed_ok f;
}.

(** The payload and status stored at an index. *)
Definition stored_at (h : RegionHeader) (f : file) (i : nat) : option (list Z * ChunkStatus) :=
  let e := entries h !!! i in
  if ChunkEntry_exists e
  then Some (bytes_at (sector_offset e * SECTOR_SIZE) (size_bytes e) f, entry_status e) else None.

Definition region_view (m : RegionManager) (r : RegionPos) (i : nat)
  : option (list Z * ChunkStatus) :=
  match files m !! RegionFile r with
  | None => None
  | Some f =>
      match regions m !! r with
      | Some h => stored_at (rh_header h) f i
      | None => match read_region f with
                | Ok h => stored_at (rh_header h) f i
                | Err _ => None
                end
      end
  end.

(** The abstract store: payload and status of every chunk. *)
Definition stored (m : RegionManager) (pos : ChunkPos) : option (list Z * ChunkStatus) :=
  region_view m (region_of pos) (index_of pos).

Lemma sectors_of_eq f : Z.of_nat (length f) < 2 ^ 43 ->
  sectors_of f = div_ceilZ (Z.of_nat (length f)) SECTOR_SIZE /\ 0 <= sectors_of f <= 2 ^ 31.
Proof.
  intros Hf. unfold sectors_of.
  pose proof (div_ceilZ_bounds (Z.of_nat (length f)) SECTOR_SIZE ltac:(done) ltac:(lia)) as Hd.
  unfold SECTOR_SIZE in *.
  assert (u32 (div_ceilZ (Z.of_nat (length f)) 4096) = div_ceilZ (Z.of_nat (length f)) 4096) as ->.
  { apply (wrapu_small 32). unfold in_u. lia. }
  split; [done|lia].
Qed.

(** The assertion of [from_bytes] holds of every table that [read_region] reads. *)
Lemma read_table_asserted f table :
  file_read FILE_HEADER_SIZE CHUNK_TABLE_SIZE f = Ok table ->
  RegionHeader_from_bytes table <> None.
Proof.
  unfold file_read. case_match eqn:E; [|done]. apply Z.leb_le in E. intros [= <-].
  unfold RegionHeader_from_bytes. rewrite decide_True; [done|].
  rewrite length_take, length_drop.
  unfold FILE_HEADER_SIZE, CHUNK_TABLE_SIZE, CHUNKS_PER_REGION, REGION_SIZE in *. lia.
Qed.

Lemma read_region_closed f h :
  file_ok f h (sectors_of f) -> table_on_disk f h ->
  read_region f = Ok (mkHandle h 0 false (sectors_of f)).
Proof.
  intros Hok Ht. pose proof (fo_length _ _ _ Hok) as Hlen. unfold read_region.
  rewrite file_read_ok by (unfold FILE_HEADER_SIZE, CHUNK_TABLE_SIZE, CHUNKS_PER_REGION, REGION_SIZE in *; lia).
  simpl. rewrite Ht, RegionHeader_from_to_bytes by apply Hok.
  destruct (sectors_of_eq f ltac:(lia)) as [_ Hs].
  assert (validate_region_entries h (sectors_of f) = Ok tt) as ->; [|done].
  apply validate_region_entries_table; [lia| |apply Hok].
  eapply Forall_impl; [apply Hok|]. intros e (_ & ? & _). lia.
Qed.

(** A file that is ok is at its sector count also for the [u32] cast. *)
Lemma file_ok_sectors f h s : file_ok f h s -> s = sectors_of f.
Proof.
  intros Hok. rewrite (fo_sectors _ _ _ Hok). pose proof (fo_length _ _ _ Hok).
  symmetry. apply sectors_of_eq. lia.
Qed.

Lemma region_view_closed m r f h i :
  regions m !! r = None -> files m !! RegionFile r = Some f ->
  file_ok f h (sectors_of f) -> table_on_disk f h -> region_view m r i = stored_at h f i.
Proof.
  intros Hr Hf Hok Ht. unfold region_view. rewrite Hf, Hr, (read_region_closed f h Hok Ht). done.
Qed.

Lemma region_view_open m r f h i :
  regions m !! r = Some h -> files m !! RegionFile r = Some f ->
  region_view m r i = stored_at (rh_header h) f i.
Proof. intros Hr Hf. unfold region_view. by rewrite Hf, Hr. Qed.

(** ** Lemmas: the header of a file *)

(** The constants of the layout, for linear arithmetic. *)
Ltac layout := unfold FILE_HEADER_SIZE, CHUNK_TABLE_SIZE, CHUNKS_PER_REGION, REGION_SIZE,
  SECTOR_SIZE, FIRST_DATA_SECTOR in *.

Lemma stored_entry h f s i e :
  file_ok f h s -> entries h !! i = Some e -> ChunkEntry_exists e = true ->
  3 <= sector_offset e /\ 0 < size_bytes e /\
  sector_offset e * 4096 + size_bytes e <= Z.of_nat (length f) /\
  sector_offset e + sector_count e <= s /\
  size_bytes e <= 4096 * sector_count e /\ 1 <= sector_count e <= 4096.
Proof.
  intros Hok Hi Hex. destruct (proj1 (fo_table _ _ _ Hok) i e Hi Hex) as (H1 & H2 & H3).
  pose proof (fo_data _ _ _ Hok i e Hi Hex) as H4.
  destruct (sector_count_eq e H2) as [E Hc].
  pose proof (div_ceilZ_bounds (size_bytes e) SECTOR_SIZE ltac:(done) ltac:(lia)) as Hd.
  rewrite <- E in Hd. layout. lia.
Qed.

Lemma stored_at_agree h f f' s i :
  file_ok f h s -> (i < region_entries)%nat ->
  (forall e j, entries h !! i = Some e -> ChunkEntry_exists e = true ->
     sector_offset e * 4096 <= Z.of_nat j < sector_offset e * 4096 + size_bytes e -> f' !! j = f !! j) ->
  stored_at h f' i = stored_at h f i.
Proof.
  intros Hok Hi H. unfold stored_at. rewrite <- (fo_count _ _ _ Hok) in Hi.
  destruct (lookup_lt_is_Some_2 (entries h) i Hi) as [e He].
  rewrite (list_lookup_total_correct _ _ _ He). destruct (ChunkEntry_exists e) eqn:Hex; [|done].
  destruct (stored_entry h f s i e Hok He Hex) as (H1 & H2 & H3 & _).
  do 2 f_equal. apply bytes_at_eq; layout; [lia|]. intros j Hj. by apply (H e).
Qed.

Lemma header_bytes_length h :
  length (entries h) = region_entries -> Z.of_nat (length (RegionHeader_to_bytes h)) = CHUNK_TABLE_SIZE.
Proof.
  intros H. rewrite RegionHeader_to_bytes_length, H. unfold region_entries. layout. lia.
Qed.

Lemma write_header_spec f h s :
  file_ok f h s ->
  file_ok (write_header h f) h s /\ table_on_disk (write_header h f) h /\
  forall i, (i < region_entries)%nat -> stored_at h (write_header h f) i = stored_at h f i.
Proof.
  intros Hok. pose proof (header_bytes_length h (fo_count _ _ _ Hok)) as Hh.
  pose proof (fo_length _ _ _ Hok) as Hlen. unfold write_header.
  assert (Z.of_nat (length (file_write FILE_HEADER_SIZE (RegionHeader_to_bytes h) f))
          = Z.of_nat (length f)) as Hl.
  { rewrite file_write_length, Hh by done. layout. lia. }
  assert (forall i, (i < length f)%nat -> Z.of_nat i < 8 \/ 8200 <= Z.of_nat i ->
    file_write FILE_HEADER_SIZE (RegionHeader_to_bytes h) f !! i = f !! i) as Hout.
  { intros i Hi Ho. apply file_write_outside; [done|done|]. rewrite Hh. layout. lia. }
  split_and!.
  - destruct Hok as [Hm Hc Hw Ht Hs Hb Hd]. split; try done.
    + rewrite <- Hm. apply bytes_at_eq; [done|]. intros i Hi. apply Hout; layout; lia.
    + by rewrite Hl.
    + by rewrite Hl.
    + intros i e Hi Hex. rewrite Hl. by apply (Hd i).
  - unfold table_on_disk. rewrite <- Hh. by apply bytes_at_write_same.
  - intros i Hi. apply (stored_at_agree h f _ s); [done|done|]. intros e j He Hex Hj.
    destruct (stored_entry h f s i e Hok He Hex) as (H1 & H2 & H3 & _). apply Hout; lia.
Qed.

Lemma new_file_ok :
  file_ok (file_header ++ RegionHeader_to_bytes RegionHeader_new) RegionHeader_new FIRST_DATA_SECTOR /\
  table_on_disk (file_header ++ RegionHeader_to_bytes RegionHeader_new) RegionHeader_new.
Proof.
  assert (length (entries RegionHeader_new) = region_entries) as Hc by apply length_replicate.
  pose proof (header_bytes_length RegionHeader_new Hc) as Hh.
  assert (forall i e, entries RegionHeader_new !! i = Some e -> e = ChunkEntry_empty) as He.
  { intros i e Hi. by apply lookup_replicate in Hi as [-> _]. }
  assert (Z.of_nat (length (file_header ++ RegionHeader_to_bytes RegionHeader_new)) = 8200) as Hl.
  { rewrite length_app, Nat2Z.inj_add, Hh. done. }
  split; [split|].
  - unfold bytes_at. simpl. done.
  - done.
  - apply Forall_forall. intros e (i & Hi)%list_elem_of_lookup. rewrite (He i e Hi).
    split; [done|]. split; done.
  - split.
    + intros i e Hi Hex. by rewrite (He i e Hi) in Hex.
    + intros i j e1 e2 _ Hi _ Hex. by rewrite (He i e1 Hi) in Hex.
  - by rewrite Hl.
  - rewrite Hl. layout. lia.
  - intros i e Hi Hex. by rewrite (He i e Hi) in Hex.
  - unfold table_on_disk, bytes_at. rewrite drop_app_length' by done.
    apply take_ge. layout. lia.
Qed.

Lemma stored_at_new f i : (i < region_entries)%nat -> stored_at RegionHeader_new f i = None.
Proof.
  intros Hi. unfold stored_at, RegionHeader_new. cbn [entries].
  rewrite lookup_total_replicate_2 by exact Hi. done.
Qed.

(** ** Lemmas: opening *)

Lemma open_region_spec m r :
  rm_ok m -> regions m !! r = None ->
  exists f h, open_region (files m) r = Ok (<[RegionFile r := f]> (files m), h) /\
    handle_ok f h /\ loaded_chunk_count h = 0 /\ header_dirty h = false /\
    (files m !! RegionFile r = Some f \/ Z.of_nat (length f) = 8200) /\
    forall i, (i < region_entries)%nat -> region_view m r i = stored_at (rh_header h) f i.
Proof.
  intros Hok Hr. unfold open_region. destruct (files m !! RegionFile r) as [f|] eqn:Hf.
  - destruct (ok_closed m Hok r f Hr Hf) as (h & Hfo & Ht).
    exists f, (mkHandle h 0 false (sectors_of f)).
    rewrite file_read_ok by (pose proof (fo_length _ _ _ Hfo); layout; lia).
    cbn [result_bind]. rewrite (fo_magic _ _ _ Hfo).
    rewrite decide_True by done. change (le_word 8 (take 2 (drop 4 file_header)) =? FORMAT_VERSION) with true.
    rewrite (read_region_closed f h Hfo Ht). cbn [result_bind]. rewrite insert_id by done.
    split; [done|]. split; [by split_and!|]. split; [done|]. split; [done|]. split; [by left|].
    intros i Hi. by apply region_view_closed.
  - exists (file_header ++ RegionHeader_to_bytes RegionHeader_new),
      (mkHandle RegionHeader_new 0 false FIRST_DATA_SECTOR).
    destruct new_file_ok as [Hfo Ht]. split; [done|]. split; [by split_and!|]. split; [done|].
    split; [done|]. split.
    { right. rewrite length_app, Nat2Z.inj_add, header_bytes_length by apply length_replicate. done. }
    intros i Hi. unfold region_view. rewrite Hf. simpl. by rewrite stored_at_new.
Qed.

Lemma index_of_bound pos : (index_of pos < region_entries)%nat.
Proof.
  unfold index_of, local_chunk_pos, region_entries.
  pose proof (chunk_index_bound (cp_x pos) (cp_y pos)). lia.
Qed.

Lemma region_index_eq p q : region_of p = region_of q -> index_of p = index_of q -> p = q.
Proof.
  intros Hr Hi. apply region_index_inj; [exact Hr|]. unfold index_of, local_chunk_pos in Hi.
  pose proof (chunk_index_bound (cp_x p) (cp_y p)). pose proof (chunk_index_bound (cp_x q) (cp_y q)). lia.
Qed.

(** Replacing the state of an open region. *)
Lemma set_open m r f h :
  rm_ok m -> handle_ok f h ->
  let m' := mkRM (<[RegionFile r := f]> (files m)) (<[r := h]> (regions m)) in
  rm_ok m' /\ (forall i, region_view m' r i = stored_at (rh_header h) f i) /\
  forall r' i, r' <> r -> region_view m' r' i = region_view m r' i.
Proof.
  intros Hok Hh m'. split_and!.
  - split; simpl.
    + intros r' h' [[<- <-]|[Hne H]]%lookup_insert_Some.
      * exists f. by rewrite lookup_insert_eq.
      * rewrite lookup_insert_ne by naive_solver. by apply (ok_open m Hok).
    + intros r' f' [Hr Hne]%lookup_insert_None Hf. rewrite lookup_insert_ne in Hf by naive_solver.
      by eapply (ok_closed m Hok).
  - intros i. apply region_view_open; simpl; by rewrite lookup_insert_eq.
  - intros r' i Hne. unfold region_view. simpl. by rewrite !lookup_insert_ne by naive_solver.
Qed.

(** Closing a region with its table on disk. *)
Lemma set_closed m r f h :
  rm_ok m -> file_ok f h (sectors_of f) -> table_on_disk f h ->
  let m' := mkRM (<[RegionFile r := f]> (files m)) (delete r (regions m)) in
  rm_ok m' /\ (forall i, region_view m' r i = stored_at h f i) /\
  forall r' i, r' <> r -> region_view m' r' i = region_view m r' i.
Proof.
  intros Hok Hf Ht m'. split_and!.
  - split; simpl.
    + intros r' h' [Hne H]%lookup_delete_Some. rewrite lookup_insert_ne by naive_solver.
      by apply (ok_open m Hok).
    + intros r' f' Hr Hf'. destruct (decide (r' = r)) as [->|Hne].
      * rewrite lookup_insert_eq in Hf'. injection Hf' as <-. by exists h.
      * rewrite lookup_insert_ne in Hf' by naive_solver. rewrite lookup_delete_ne in Hr by done.
        by eapply (ok_closed m Hok).
  - intros i. apply region_view_closed; simpl; [by rewrite lookup_delete_eq|by rewrite lookup_insert_eq|done|done].
  - intros r' i Hne. unfold region_view. simpl.
    by rewrite lookup_delete_ne, lookup_insert_ne by naive_solver.
Qed.

Lemma get_or_open_spec m r :
  rm_ok m ->
  exists m' f h, get_or_open m r = Ok (m', h) /\ rm_ok m' /\
    regions m' !! r = Some h /\ files m' !! RegionFile r = Some f /\ handle_ok f h /\
    (regions m !! r = None -> loaded_chunk_count h = 0) /\
    (forall r' i, (i < region_entries)%nat -> region_view m' r' i = region_view m r' i) /\
    (is_Some (regions m !! r) -> m' = m) /\
    (files m !! RegionFile r = Some f \/ Z.of_nat (length f) = 8200).
Proof.
  intros Hok. unfold get_or_open. destruct (regions m !! r) as [h|] eqn:Hr.
  - destruct (ok_open m Hok r h Hr) as (f & Hf & Hh). exists m, f, h. split_and!; by auto.
  - destruct (open_region_spec m r Hok Hr) as (f & h & -> & Hh & Hc & Hd & Hnew & Hv).
    destruct (set_open m r f h Hok Hh) as (Hok' & Hv1 & Hv2). cbn [result_bind].
    eexists _, f, h. split; [done|]. split; [exact Hok'|]. simpl.
    rewrite !lookup_insert_eq. split; [done|]. split; [done|]. split; [done|]. split; [done|].
    split_and!.
    + intros r' i Hi. destruct (decide (r' = r)) as [->|Hne]; [by rewrite Hv1, Hv|by apply Hv2].
    + by intros [? ?].
    + done.
Qed.

(** ** Lemmas: writing a payload *)

Definition payload_sectors (data : list Z) : Z := div_ceilZ (Z.of_nat (length data)) SECTOR_SIZE.

Lemma write_chunk_data_spec off data f :
  0 <= off ->
  let f' := write_chunk_data off data f in
  let n := payload_sectors data in
  bytes_at (off * 4096) (Z.of_nat (length data)) f' = data /\
  Z.of_nat (length f') = Z.max (Z.of_nat (length f)) ((off + n) * 4096) /\
  forall i, (i < length f)%nat -> Z.of_nat i < off * 4096 \/ (off + n) * 4096 <= Z.of_nat i ->
    f' !! i = f !! i.
Proof.
  intros Hoff f' n. unfold f', n, write_chunk_data, payload_sectors, div_ceilZ, SECTOR_SIZE.
  set (len := Z.of_nat (length data)).
  set (pad := (4096 - len mod 4096) mod 4096).
  assert (0 <= len) as Hlen by lia.
  assert (0 <= pad < 4096 /\ (len + (4096 - 1)) / 4096 * 4096 = len + pad) as [Hpad Hn].
  { unfold pad. pose proof (Z.div_mod len 4096 ltac:(lia)) as E.
    pose proof (Z.mod_pos_bound len 4096 ltac:(lia)) as Hm.
    pose proof (Z.div_mod (len + (4096 - 1)) 4096 ltac:(lia)) as E2.
    pose proof (Z.mod_pos_bound (len + (4096 - 1)) 4096 ltac:(lia)) as Hm2.
    destruct (Z.eq_dec (len mod 4096) 0) as [E0|E0].
    - rewrite E0. change ((4096 - 0) mod 4096) with 0. lia.
    - rewrite (Z.mod_small (4096 - len mod 4096)) by lia. lia. }
  set (f1 := file_write (off * 4096) data f).
  assert (Z.of_nat (length f1) = Z.max (Z.of_nat (length f)) (off * 4096 + len)) as Hl1.
  { unfold f1. by rewrite file_write_length by lia. }
  rewrite Z.mul_add_distr_r, Hn. destruct (Z.ltb_spec 0 pad) as [Hp|Hp].
  - assert (Z.of_nat (length (replicate (Z.to_nat pad) 0)) = pad) as Hr by (rewrite length_replicate; lia).
    split_and!.
    + rewrite <- (bytes_at_write_same (off * 4096) data f) by lia. apply bytes_at_eq; [lia|].
      intros i Hi. fold len in Hi. apply file_write_outside; [lia| |lia]. fold f1. lia.
    + rewrite file_write_length, Hr by lia. lia.
    + intros i Hi Ho. rewrite file_write_outside by (rewrite ?Hr; fold len f1; lia).
      apply file_write_outside; fold len; lia.
  - split_and!.
    + apply bytes_at_write_same. lia.
    + lia.
    + intros i Hi Ho. apply file_write_outside; fold len; lia.
Qed.

(** The sectors [off, off + n) are free for the chunk at [idx]. *)
Definition range_free (h : RegionHeader) (idx : nat) (off n : Z) : Prop :=
  forall i e, i <> idx -> entries h !! i = Some e -> ChunkEntry_exists e = true ->
    sector_offset e + sector_count e <= off \/ off + n <= sector_offset e.

(** What the choice of sectors and the size of the payload give. *)
Section SaveFile.
Context (f : file) (h : RegionHeader) (s : Z) (idx : nat) (off : Z) (data : list Z).
Context (status : ChunkStatus).
Context (Hok : file_ok f h s) (Hidx : (idx < region_entries)%nat) (Hoff : 3 <= off <= s).
Context (Hlen : 0 < Z.of_nat (length data) < 2 ^ 24) (Hs : s + 4096 < 2 ^ 31).
Context (Hfree : range_free h idx off (payload_sectors data)).

Let n := payload_sectors data.
Let len := Z.of_nat (length data).
Let e0 := mkEntry off (u32 len) status.
Let f' := write_chunk_data off data f.
Let h' := mkHeader (<[idx := e0]> (entries h)).

Lemma new_entry_facts :
  u32 len = len /\ sector_count e0 = n /\ 1 <= n <= 4096 /\ len <= 4096 * n /\
  ChunkEntry_exists e0 = true.
Proof using All.
  assert (u32 len = len) as Hu by (apply (wrapu_small 32); unfold in_u, len; lia).
  destruct (sector_count_eq e0) as [E Hc]; [unfold e0, MAX_CHUNK_SIZE; cbn [size_bytes]; unfold len in *; lia|].
  pose proof (div_ceilZ_bounds len SECTOR_SIZE ltac:(done) ltac:(unfold len; lia)) as Hdc.
  unfold n, payload_sectors. fold len. unfold e0 in E at 2. cbn [size_bytes] in E.
  rewrite Hu in E. rewrite E in Hc |- *. split; [done|]. split; [done|]. layout.
  split; [done|]. split; [lia|]. unfold e0, ChunkEntry_exists. cbn [sector_offset].
  by rewrite (proj2 (Z.eqb_neq _ _)) by lia.
Qed.

Lemma new_entries_cases i e :
  entries h' !! i = Some e -> (i = idx /\ e = e0) \/ (i <> idx /\ entries h !! i = Some e).
Proof using All.
  unfold h'. cbn [entries]. rewrite lookup_insert_list by (rewrite (fo_count _ _ _ Hok); done).
  case_decide; [left; by simplify_eq|by right].
Qed.

Lemma grown_sectors_eq : grown_sectors off data s = Z.max s (off + n).
Proof using All.
  destruct new_entry_facts as (_ & _ & Hn & _ & _). unfold grown_sectors.
  fold (payload_sectors data). fold n.
  assert (u32 n = n) as -> by (apply (wrapu_small 32); unfold in_u; lia).
  assert (u32 (off + n) = off + n) as -> by (apply (wrapu_small 32); unfold in_u; lia).
  destruct (Z.ltb_spec s (off + n)); lia.
Qed.

Lemma saved_table_ok : table_ok (entries h') (Z.max s (off + n)).
Proof using All.
  destruct new_entry_facts as (Hu & Hc0 & Hn & _ & Hex0).
  destruct (fo_table _ _ _ Hok) as [Hv Hd]. split.
  - intros i e [[-> ->]|[_ Hi]]%new_entries_cases Hex.
    + split; [unfold e0; layout; cbn [sector_offset]; lia|]. rewrite Hc0. unfold e0. cbn [size_bytes sector_offset].
      unfold MAX_CHUNK_SIZE. rewrite Hu. unfold len. lia.
    + destruct (Hv i e Hi Hex) as (H1 & H2 & H3). split; [done|]. split; [done|]. lia.
  - assert (forall i e, i <> idx -> entries h !! i = Some e -> ChunkEntry_exists e = true ->
      disjoint_entries e0 e) as Hnew.
    { intros i e Hne Hi Hex. unfold disjoint_entries. rewrite Hc0. unfold e0. cbn [sector_offset].
      destruct (Hfree i e Hne Hi Hex) as [Hx|Hx]; fold n in Hx; lia. }
    intros i j e1 e2 Hij [[-> ->]|[Hi1 Hi]]%new_entries_cases [[-> ->]|[Hj1 Hj]]%new_entries_cases Hx1 Hx2.
    + done.
    + by apply (Hnew j).
    + apply or_comm. by apply (Hnew i).
    + by apply (Hd i j).
Qed.

Lemma saved_file_ok : file_ok f' h' (grown_sectors off data s).
Proof using All.
  destruct new_entry_facts as (Hu & Hc0 & Hn & Hln & _). rewrite grown_sectors_eq.
  destruct (write_chunk_data_spec off data f ltac:(lia)) as (_ & Hl & Hout).
  fold f' n in Hl, Hout. fold n in Hl.
  pose proof (fo_sectors _ _ _ Hok) as Hsec. pose proof (fo_length _ _ _ Hok) as Hfl.
  pose proof (div_ceilZ_bounds (Z.of_nat (length f)) SECTOR_SIZE ltac:(done) ltac:(lia)) as Hsb.
  rewrite <- Hsec in Hsb. split.
  - rewrite <- (fo_magic _ _ _ Hok). apply bytes_at_eq; [done|]. intros i Hi. layout.
    apply Hout; lia.
  - unfold h'. cbn [entries]. rewrite length_insert. apply Hok.
  - apply Forall_insert; [apply Hok|]. unfold e0. split; [cbn [sector_offset]; lia|].
    split; [cbn [size_bytes]; rewrite Hu; unfold len; lia|]. cbn [sector_offset]. lia.
  - apply saved_table_ok.
  - pose proof (div_ceilZ_bounds (Z.of_nat (length f')) SECTOR_SIZE ltac:(done) ltac:(lia)) as Hb'.
    layout. lia.
  - layout. lia.
  - intros i e [[-> ->]|[_ Hi]]%new_entries_cases Hex.
    + unfold e0. cbn [sector_offset size_bytes]. rewrite Hu. layout. lia.
    + pose proof (fo_data _ _ _ Hok i e Hi Hex). lia.
Qed.

Lemma saved_stored_at i :
  (i < region_entries)%nat ->
  stored_at h' f' i = if decide (i = idx) then Some (data, status) else stored_at h f i.
Proof using All.
  intros Hi. destruct new_entry_facts as (Hu & Hc0 & Hn & _ & Hex0).
  destruct (write_chunk_data_spec off data f ltac:(lia)) as (Hd & _ & Hout).
  fold f' n in Hd, Hout. unfold stored_at. unfold h' at 1 2 3 4. cbn [entries].
  case_decide as E.
  - subst. rewrite list_lookup_total_insert_eq by (rewrite (fo_count _ _ _ Hok); done).
    rewrite Hex0. unfold e0. cbn [sector_offset size_bytes entry_status]. rewrite Hu.
    do 2 f_equal. exact Hd.
  - rewrite list_lookup_total_insert_ne by done.
    apply (stored_at_agree h f f' s i Hok Hi). intros e j He Hex Hj.
    destruct (stored_entry h f s i e Hok He Hex) as (H1 & H2 & H3 & _ & H5 & _).
    destruct (Hfree i e E He Hex) as [Hx|Hx]; fold n in Hx; apply Hout; lia.
Qed.
End SaveFile.

(** ** Lemmas: operations *)

Lemma with_file_Some fs r f k :
  fs !! RegionFile r = Some f -> with_file fs r k = <[RegionFile r := k f]> fs.
Proof.
  intros H. unfold with_file. apply map_eq. intros j. destruct (decide (j = RegionFile r)) as [->|Hne].
  - by rewrite lookup_alter_eq, H, lookup_insert_eq.
  - by rewrite lookup_alter_ne, lookup_insert_ne by done.
Qed.

(** The sectors [save_chunk_data] writes to are in the data area and free. *)
Lemma save_offset_free f h s idx data :
  file_ok f h s -> (idx < region_entries)%nat -> 0 < Z.of_nat (length data) < 2 ^ 24 ->
  s + 4096 < 2 ^ 31 ->
  let n := u32 (payload_sectors data) in
  let old := entries h !!! idx in
  let off := if ChunkEntry_exists old && (n <=? sector_count old)
             then sector_offset old else find_free_sectors h n s in
  3 <= off <= s /\ range_free h idx off (payload_sectors data).
Proof.
  intros Hok Hidx Hlen Hs n old off.
  pose proof (div_ceilZ_bounds (Z.of_nat (length data)) SECTOR_SIZE ltac:(done) ltac:(lia)) as Hd.
  assert (n = payload_sectors data /\ 1 <= n <= 4096) as [En Hn].
  { unfold n. unfold payload_sectors, SECTOR_SIZE in *.
    assert (u32 (div_ceilZ (Z.of_nat (length data)) 4096) = div_ceilZ (Z.of_nat (length data)) 4096) as ->
      by (apply (wrapu_small 32); unfold in_u; lia). lia. }
  rewrite <- (fo_count _ _ _ Hok) in Hidx.
  destruct (lookup_lt_is_Some_2 (entries h) idx Hidx) as [e He].
  assert (old = e) as Hold by (by apply list_lookup_total_correct).
  unfold off. rewrite Hold. destruct (ChunkEntry_exists e) eqn:Hex; simpl.
  - destruct (Z.leb_spec n (sector_count e)) as [Hle|Hgt].
    + destruct (stored_entry h f s idx e Hok He Hex) as (H1 & _ & _ & H4 & _). split; [lia|].
      intros i e' Hne Hi Hex'. pose proof (proj2 (fo_table _ _ _ Hok) i idx e' e Hne Hi He Hex' Hex) as Hdis.
      unfold disjoint_entries in Hdis. lia.
    + pose proof (fo_length _ _ _ Hok). pose proof (fo_sectors _ _ _ Hok) as Hsec.
      pose proof (div_ceilZ_bounds (Z.of_nat (length f)) SECTOR_SIZE ltac:(done) ltac:(lia)) as Hsb.
      destruct (find_free_sectors_spec h n s (fo_table _ _ _ Hok)) as [H1 H2]; layout; [lia|lia|].
      split; [lia|]. intros i e' _ Hi Hex'. rewrite <- En. by apply (H2 i).
  - pose proof (fo_length _ _ _ Hok). pose proof (fo_sectors _ _ _ Hok) as Hsec.
    pose proof (div_ceilZ_bounds (Z.of_nat (length f)) SECTOR_SIZE ltac:(done) ltac:(lia)) as Hsb.
    destruct (find_free_sectors_spec h n s (fo_table _ _ _ Hok)) as [H1 H2]; layout; [lia|lia|].
    split; [lia|]. intros i e' _ Hi Hex'. rewrite <- En. by apply (H2 i).
Qed.

(** The views of a manager in which only region [r] changed, at one index. *)
Lemma stored_update m m' pos o :
  (forall r i, r <> region_of pos -> (i < region_entries)%nat -> region_view m' r i = region_view m r i) ->
  (forall i, (i < region_entries)%nat -> region_view m' (region_of pos) i =
     if decide (i = index_of pos) then o else region_view m (region_of pos) i) ->
  forall q, stored m' q = if decide (q = pos) then o else stored m q.
Proof.
  intros Hother Hsame q. unfold stored. pose proof (index_of_bound q) as Hq.
  destruct (decide (region_of q = region_of pos)) as [E|Hne].
  - rewrite E, (Hsame _ Hq). destruct (decide (q = pos)) as [->|Hqp].
    + by rewrite decide_True.
    + rewrite decide_False; [done|]. intros Ei. by apply Hqp, region_index_eq.
  - rewrite Hother by done. rewrite decide_False; [done|]. by intros ->.
Qed.

Lemma save_compressed_spec m pos status data :
  rm_ok m -> 0 < Z.of_nat (length data) < 2 ^ 24 ->
  (forall f, files m !! RegionFile (region_of pos) = Some f -> Z.of_nat (length f) <= 2 ^ 43 - 2 ^ 25) ->
  exists m', save_compressed m pos status data = Ok (m', true) /\ rm_ok m' /\
    forall q, stored m' q = if decide (q = pos) then Some (data, status) else stored m q.
Proof.
  intros Hok Hlen Hroom. unfold save_compressed. set (r := region_of pos) in *.
  destruct (get_or_open_spec m r Hok) as (m1 & f & h & -> & Hok1 & Hr1 & Hf1 & (Hfo & Hdirty & Hcnt) & Hl0 & Hv1 & _ & Hnew).
  cbn [result_bind]. fold (payload_sectors data).
  assert (file_sectors h + 4096 < 2 ^ 31) as Hs.
  { assert (Z.of_nat (length f) <= 2 ^ 43 - 2 ^ 25) by (destruct Hnew as [Hf| ->]; [by apply Hroom|lia]).
    pose proof (fo_sectors _ _ _ Hfo) as Hsec. pose proof (fo_length _ _ _ Hfo).
    pose proof (div_ceilZ_bounds (Z.of_nat (length f)) SECTOR_SIZE ltac:(done) ltac:(lia)).
    unfold SECTOR_SIZE in *. lia. }
  pose proof (index_of_bound pos) as Hidx.
  destruct (save_offset_free f (rh_header h) (file_sectors h) (index_of pos) data Hfo Hidx Hlen Hs) as [Hoff Hfree].
  match type of Hoff with 3 <= ?o <= _ => set (off := o) in * end. clearbody off.
  pose proof (saved_file_ok f (rh_header h) (file_sectors h) (index_of pos) off data status
    Hfo Hidx Hoff Hlen Hs Hfree) as Hfo'.
  pose proof (saved_stored_at f (rh_header h) (file_sectors h) (index_of pos) off data status
    Hfo Hidx Hoff Hlen Hs Hfree) as Hst'.
  set (f' := write_chunk_data off data f) in *.
  set (hd := mkHeader (<[index_of pos := _]> (entries (rh_header h)))) in *.
  rewrite (with_file_Some _ r f _ Hf1). fold f'.
  assert (forall i, (i < region_entries)%nat -> stored_at hd f' i =
    if decide (i = index_of pos) then Some (data, status) else region_view m r i) as Hst2.
  { intros i Hi. rewrite Hst' by done. case_decide; [done|].
    by rewrite <- Hv1, (region_view_open m1 r f h) by done. }
  destruct (bool_decide (regions m !! r = None) && (loaded_chunk_count h =? 0)).
  - rewrite (with_file_Some _ r f') by (by rewrite lookup_insert_eq). rewrite insert_insert_eq.
    destruct (write_header_spec f' hd _ Hfo') as (Hfo2 & Ht2 & Hst3).
    destruct (set_closed m1 r (write_header hd f') hd Hok1) as (Hok2 & Hvr & Hvo);
      [by rewrite <- (file_ok_sectors _ _ _ Hfo2)|done|].
    eexists. split; [done|]. split; [exact Hok2|]. apply stored_update.
    + intros r' i Hne Hi. rewrite Hvo by done. by apply Hv1.
    + intros i Hi. rewrite Hvr, Hst3 by done. by apply Hst2.
  - destruct (set_open m1 r f' (mkHandle hd (loaded_chunk_count h) true (grown_sectors off data (file_sectors h))) Hok1)
      as (Hok2 & Hvr & Hvo); [by split_and!|].
    eexists. split; [done|]. split; [exact Hok2|]. apply stored_update.
    + intros r' i Hne Hi. rewrite Hvo by done. by apply Hv1.
    + intros i Hi. rewrite Hvr. by apply Hst2.
Qed.

Lemma stored_at_exists h f i :
  ChunkEntry_exists (entries h !!! i) = bool_decide (is_Some (stored_at h f i)).
Proof.
  unfold stored_at. by destruct (ChunkEntry_exists _).
Qed.

Lemma acquire_chunk_spec m pos :
  rm_ok m ->
  exists m', acquire_chunk m pos = Ok (m', bool_decide (is_Some (stored m pos))) /\ rm_ok m' /\
    is_Some (regions m' !! region_of pos) /\ forall q, stored m' q = stored m q.
Proof.
  intros Hok. unfold acquire_chunk.
  destruct (get_or_open_spec m (region_of pos) Hok)
    as (m1 & f & h & -> & Hok1 & Hr1 & Hf1 & (Hfo & Hd & Hc) & _ & Hv1 & _).
  cbn [result_bind]. pose proof (index_of_bound pos) as Hidx.
  rewrite (stored_at_exists (rh_header h) f), <- (region_view_open m1 _ f h _ Hr1 Hf1), Hv1 by done.
  fold (stored m pos).
  destruct (set_open m1 (region_of pos) f (mkHandle (rh_header h) (loaded_chunk_count h + 1)
    (header_dirty h) (file_sectors h)) Hok1) as (Hok2 & Hvr & Hvo).
  { split_and!; [done|done|simpl; lia]. }
  rewrite (insert_id (files m1)) in Hok2, Hvr, Hvo by done.
  eexists. split; [done|]. split; [exact Hok2|]. simpl. split; [by rewrite lookup_insert_eq|].
  intros q. unfold stored. pose proof (index_of_bound q) as Hq. rewrite <- Hv1 by done.
  destruct (decide (region_of q = region_of pos)) as [E|Hne]; [|by apply Hvo].
  rewrite E, Hvr. by rewrite (region_view_open m1 _ f h).
Qed.

(** Closing a handle, with its header written when dirty. *)
Lemma close_handle f h :
  handle_ok f h ->
  let f' := if header_dirty h then write_header (rh_header h) f else f in
  file_ok f' (rh_header h) (file_sectors h) /\ table_on_disk f' (rh_header h) /\
  forall i, (i < region_entries)%nat -> stored_at (rh_header h) f' i = stored_at (rh_header h) f i.
Proof.
  intros (Hfo & Ht & _). destruct (header_dirty h); simpl; [by apply write_header_spec|].
  split_and!; [done|by apply Ht|done].
Qed.

Lemma release_chunk_spec m pos :
  rm_ok m ->
  exists m', release_chunk m pos = Ok m' /\ rm_ok m' /\ forall q, stored m' q = stored m q.
Proof.
  intros Hok. unfold release_chunk. set (r := region_of pos).
  destruct (regions m !! r) as [h|] eqn:Hr; [|by exists m].
  destruct (ok_open m Hok r h Hr) as (f & Hf & Hh).
  assert (forall m', (forall i, (i < region_entries)%nat -> region_view m' r i = stored_at (rh_header h) f i) ->
    (forall r' i, r' <> r -> region_view m' r' i = region_view m r' i) ->
    forall q, stored m' q = stored m q) as Hsame.
  { intros m' H1 H2 q. unfold stored. pose proof (index_of_bound q) as Hq.
    destruct (decide (region_of q = r)) as [E|Hne]; [|by apply H2].
    rewrite E, H1 by done. by rewrite (region_view_open m r f h). }
  destruct (Z.eqb_spec (loaded_chunk_count h ⊖ 1) 0) as [Hz|Hz].
  - destruct (close_handle f h Hh) as (Hfo & Ht & Hst).
    set (f' := if header_dirty h then write_header (rh_header h) f else f) in *.
    assert ((if header_dirty h then with_file (files m) r (write_header (rh_header h)) else files m) =
            <[RegionFile r := f']> (files m)) as ->.
    { unfold f'. destruct (header_dirty h); [by apply with_file_Some|by rewrite insert_id]. }
    destruct (set_closed m r f' (rh_header h) Hok) as (Hok2 & Hvr & Hvo);
      [by rewrite <- (file_ok_sectors _ _ _ Hfo)|done|].
    eexists. split; [done|]. split; [exact Hok2|]. apply Hsame; [|done].
    intros i Hi. by rewrite Hvr, Hst.
  - destruct Hh as (Hfo & Ht & Hc).
    destruct (set_open m r f (mkHandle (rh_header h) (loaded_chunk_count h ⊖ 1) (header_dirty h)
      (file_sectors h)) Hok) as (Hok2 & Hvr & Hvo).
    { split_and!; [done|done|]. simpl. unfold saturating_sub. lia. }
    rewrite (insert_id (files m)) in Hok2, Hvr, Hvo by done.
    eexists. split; [done|]. split; [exact Hok2|]. by apply Hsame.
Qed.

Lemma flush_files_lookup hs fs p :
  NoDup (fst <$> hs) ->
  flush_files hs fs !! p =
    match p with
    | RegionFile r =>
        match list_find (fun x => fst x = r) hs with
        | Some (_, (_, h)) => (if header_dirty h then write_header (rh_header h) else id) <$> fs !! p
        | None => fs !! p
        end
    | BackupFile _ _ => fs !! p
    end.
Proof.
  unfold flush_files. revert fs. induction hs as [|[r h] hs IH]; intros fs Hnd; [by destruct p|].
  rewrite fmap_cons in Hnd. apply NoDup_cons in Hnd as [Hr Hnd]. cbn [foldl].
  rewrite IH by done. clear IH. destruct p as [r'|r' v]; cbn [list_find].
  - destruct (decide (fst (r, h) = r')) as [E|Hne].
    + simpl in E. subst r'.
      assert (list_find (fun x : RegionPos * RegionHandle => fst x = r) hs = None) as ->.
      { apply list_find_None, Forall_forall. intros x Hx E. apply Hr, list_elem_of_fmap. by exists x. }
      destruct (header_dirty h); [unfold with_file; by rewrite lookup_alter_eq|].
      by rewrite option_fmap_id.
    + simpl in Hne.
      assert ((if header_dirty h then with_file fs r (write_header (rh_header h)) else fs) !! RegionFile r'
              = fs !! RegionFile r') as ->.
      { destruct (header_dirty h); [|done]. unfold with_file. rewrite lookup_alter_ne; [done|]. naive_solver. }
      by destruct (list_find (fun x : RegionPos * RegionHandle => fst x = r') hs) as [[i [r'' h']]|].
  - destruct (header_dirty h); [|done]. unfold with_file. by rewrite lookup_alter_ne.
Qed.

Lemma flushed_lookup m r :
  flush_files (map_to_list (regions m)) (files m) !! RegionFile r =
    match regions m !! r with
    | Some h => (if header_dirty h then write_header (rh_header h) else id) <$> files m !! RegionFile r
    | None => files m !! RegionFile r
    end.
Proof.
  rewrite flush_files_lookup by apply NoDup_fst_map_to_list.
  destruct (list_find _ _) as [[i [r' h]]|] eqn:E.
  - apply list_find_Some in E as (Hi & Hr & _). simpl in Hr. subst r'.
    apply list_elem_of_lookup_2, elem_of_map_to_list in Hi. by rewrite Hi.
  - destruct (regions m !! r) as [h|] eqn:Hr; [|done]. apply list_find_None in E.
    rewrite Forall_forall in E. exfalso. apply (E (r, h)); [|done]. by apply elem_of_map_to_list.
Qed.

(** Flushing: the file of every region, open or closed, has its table on disk. *)
Lemma flushed_file m r f' :
  rm_ok m -> flush_files (map_to_list (regions m)) (files m) !! RegionFile r = Some f' ->
  exists h, file_ok f' h (sectors_of f') /\ table_on_disk f' h /\
    (forall i, (i < region_entries)%nat -> stored_at h f' i = region_view m r i) /\
    forall hd, regions m !! r = Some hd -> h = rh_header hd /\ file_sectors hd = sectors_of f'.
Proof.
  intros Hok. rewrite flushed_lookup. destruct (regions m !! r) as [hd|] eqn:Hr.
  - destruct (ok_open m Hok r hd Hr) as (f & Hf & Hh). rewrite Hf. simpl. intros [= Ef'].
    destruct (close_handle f hd Hh) as (Hfo & Ht & Hst).
    assert ((if header_dirty hd then write_header (rh_header hd) f else f) = f') as E.
    { rewrite <- Ef'. by destruct (header_dirty hd). }
    rewrite E in Hfo, Ht, Hst. exists (rh_header hd).
    split; [by rewrite <- (file_ok_sectors _ _ _ Hfo)|]. split; [done|]. split.
    + intros i Hi. rewrite Hst by done. by rewrite (region_view_open m r f hd).
    + intros hd' [= <-]. split; [done|]. by apply (file_ok_sectors _ (rh_header hd)).
  - intros Hf. destruct (ok_closed m Hok r f' Hr Hf) as (h & Hfo & Ht). exists h.
    split_and!; [done|done| |done]. intros i Hi. by rewrite (region_view_closed m r f' h).
Qed.

Lemma flush_all_spec m :
  rm_ok m -> rm_ok (flush_all m) /\ forall q, stored (flush_all m) q = stored m q.
Proof.
  intros Hok. split.
  - split; simpl.
    + intros r h. rewrite lookup_fmap. intros (hd & Hr & ->)%fmap_Some.
      destruct (ok_open m Hok r hd Hr) as (f & Hf & (Hfo & _ & Hc)).
      destruct (flush_files _ _ !! RegionFile r) as [f'|] eqn:Hf'.
      2: { rewrite flushed_lookup, Hr, Hf in Hf'. done. }
      destruct (flushed_file m r f' Hok Hf') as (h & Hfo' & Ht & _ & Hh).
      destruct (Hh hd Hr) as [-> Es]. exists f'. split; [done|]. split_and!; simpl; [by rewrite Es|done|done].
    + intros r f'. rewrite lookup_fmap. intros Hr%fmap_None Hf'.
      destruct (flushed_file m r f' Hok Hf') as (h & Hfo & Ht & _). by exists h.
  - intros q. unfold stored. pose proof (index_of_bound q) as Hq. unfold region_view at 1. simpl.
    destruct (flush_files _ _ !! RegionFile (region_of q)) as [f'|] eqn:Hf'.
    + destruct (flushed_file m (region_of q) f' Hok Hf') as (h & Hfo & Ht & Hst & Hh).
      rewrite lookup_fmap. destruct (regions m !! region_of q) as [hd|] eqn:Hr; simpl.
      * destruct (Hh hd eq_refl) as [<- _]. by apply Hst.
      * rewrite (read_region_closed f' h) by done. by apply Hst.
    + unfold region_view. rewrite flushed_lookup in Hf'.
      destruct (regions m !! region_of q); [apply fmap_None in Hf'|]; by rewrite Hf'.
Qed.

Lemma close_all_spec m :
  rm_ok m -> rm_ok (close_all m) /\ regions (close_all m) = ∅ /\
    forall q, stored (close_all m) q = stored m q.
Proof.
  intros Hok. split_and!; [|done|].
  - split; simpl; [intros r h; by rewrite lookup_empty|]. intros r f' _ Hf'.
    destruct (flushed_file m r f' Hok Hf') as (h & Hfo & Ht & _). by exists h.
  - intros q. unfold stored. pose proof (index_of_bound q) as Hq. unfold region_view at 1. simpl.
    rewrite lookup_empty.
    destruct (flush_files _ _ !! RegionFile (region_of q)) as [f'|] eqn:Hf'.
    + destruct (flushed_file m (region_of q) f' Hok Hf') as (h & Hfo & Ht & Hst & _).
      rewrite (read_region_closed f' h) by done. by apply Hst.
    + unfold region_view. rewrite flushed_lookup in Hf'.
      destruct (regions m !! region_of q); [apply fmap_None in Hf'|]; by rewrite Hf'.
Qed.

(** ** Lemmas: reading single entries and payloads *)

Lemma table_entry_bytes f h i :
  length (entries h) = region_entries -> table_on_disk f h -> (i < region_entries)%nat ->
  bytes_at (FILE_HEADER_SIZE + Z.of_nat i * 8) 8 f = ChunkEntry_to_bytes (entries h !!! i).
Proof.
  intros Hc Ht Hi. unfold table_on_disk in Ht.
  assert (bytes_at (FILE_HEADER_SIZE + Z.of_nat i * 8) 8 f =
          take 8 (drop (i * 8) (bytes_at FILE_HEADER_SIZE CHUNK_TABLE_SIZE f))) as ->.
  { unfold bytes_at, region_entries in *. layout. apply list_eq. intros k.
    destruct (decide (k < 8)%nat) as [Hk|Hk].
    - rewrite !lookup_take_lt by lia. rewrite !lookup_drop.
      rewrite lookup_take_lt by lia. rewrite lookup_drop. f_equal. lia.
    - by rewrite !lookup_take_ge by lia. }
  rewrite Ht.
  assert (chunks 8 (RegionHeader_to_bytes h) !! i = Some (ChunkEntry_to_bytes (entries h !!! i))) as H.
  { unfold RegionHeader_to_bytes. rewrite chunks_bind by (done || lia). rewrite list_lookup_fmap.
    rewrite list_lookup_lookup_total_lt by lia. done. }
  rewrite chunks_lookup in H by lia. case_decide; [|done]. by injection H.
Qed.

Lemma chunk_exists_spec m pos :
  rm_ok m -> chunk_exists m pos = Ok (bool_decide (is_Some (stored m pos))).
Proof.
  intros Hok. unfold chunk_exists, stored. pose proof (index_of_bound pos) as Hi.
  destruct (regions m !! region_of pos) as [h|] eqn:Hr.
  - destruct (ok_open m Hok _ h Hr) as (f & Hf & _).
    by rewrite (region_view_open m _ f h _ Hr Hf), (stored_at_exists (rh_header h) f).
  - destruct (files m !! RegionFile (region_of pos)) as [f|] eqn:Hf.
    2: { unfold region_view. by rewrite Hf. }
    destruct (ok_closed m Hok _ f Hr Hf) as (h & Hfo & Ht).
    rewrite (region_view_closed m _ f h) by done.
    rewrite file_read_ok by (pose proof (fo_length _ _ _ Hfo); unfold region_entries in Hi; layout; lia).
    cbn [result_bind]. rewrite (table_entry_bytes f h) by (done || apply Hfo).
    rewrite ChunkEntry_from_to_bytes, (stored_at_exists h f); [done|].
    pose proof (fo_wf _ _ _ Hfo) as Hw. rewrite Forall_forall in Hw. apply Hw.
    apply list_elem_of_lookup_total_2. rewrite (fo_count _ _ _ Hfo). done.
Qed.

Lemma load_read_spec m pos min_y height f h :
  rm_ok m -> 0 < height -> Z.rem height 16 = 0 -> Z.rem min_y 16 = 0 ->
  regions m !! region_of pos = Some h -> files m !! RegionFile (region_of pos) = Some f ->
  let e := entries (rh_header h) !!! index_of pos in
  load_read m pos min_y height =
    Ok (match stored m pos with
        | Some (bytes, _) => Some (bytes, e)
        | None => None
        end).
Proof.
  intros Hok Hh0 Hh Hy Hr Hf e. unfold load_read.
  rewrite (proj2 (Z.leb_gt _ _)), Hh, Hy by done. simpl. rewrite Hr, Hf. simpl.
  unfold stored. rewrite (region_view_open m _ f h _ Hr Hf). unfold stored_at. fold e.
  destruct (ChunkEntry_exists e) eqn:Hex; [|done].
  destruct (ok_open m Hok _ h Hr) as (f0 & Hf0 & (Hfo & _)).
  rewrite Hf in Hf0. injection Hf0 as <-.
  pose proof (index_of_bound pos) as Hi. rewrite <- (fo_count _ _ _ Hfo) in Hi.
  assert (entries (rh_header h) !! index_of pos = Some e) as He by (by apply list_lookup_lookup_total_lt).
  destruct (stored_entry _ f _ _ e Hfo He Hex) as (H1 & H2 & H3 & _).
  pose proof (fo_length _ _ _ Hfo) as Hl.
  pose proof (file_ok_sectors _ _ _ Hfo) as Es. destruct (sectors_of_eq f ltac:(lia)) as [_ Hs].
  assert (validate_chunk_entry e (file_sectors h) = Ok tt) as ->.
  { apply validate_chunk_entry_ok; [lia|lia|]. by apply (proj1 (fo_table _ _ _ Hfo) (index_of pos)). }
  cbn [result_bind]. rewrite file_read_ok by (layout; lia). done.
Qed.

Lemma cleared_file_ok f h s idx :
  file_ok f h s -> file_ok f (mkHeader (<[idx := ChunkEntry_empty]> (entries h))) s.
Proof.
  intros [Hm Hc Hw [Hv Hd] Hs Hl Hdata].
  assert (forall i e, <[idx := ChunkEntry_empty]> (entries h) !! i = Some e ->
    ChunkEntry_exists e = true -> entries h !! i = Some e) as Hsub.
  { intros i e Hi Hex. destruct (decide (i = idx)) as [->|Hne].
    - apply list_lookup_insert_Some in Hi as [(_ & <- & _)|[? _]]; done.
    - by rewrite list_lookup_insert_ne in Hi. }
  split; cbn [entries]; try done.
  - by rewrite length_insert.
  - apply Forall_insert; [done|]. by split_and!.
  - split.
    + intros i e Hi Hex. apply (Hv i); auto.
    + intros i j e1 e2 Hij Hi Hj Hx1 Hx2. apply (Hd i j); auto.
  - intros i e Hi Hex. apply (Hdata i); auto.
Qed.

Lemma clear_corrupt_spec m pos h :
  rm_ok m -> regions m !! region_of pos = Some h ->
  exists m', clear_corrupt_chunk_if_unchanged m (region_of pos) (index_of pos)
      (entries (rh_header h) !!! index_of pos) = Ok (m', true) /\ rm_ok m' /\
    forall q, stored m' q = if decide (q = pos) then None else stored m q.
Proof.
  intros Hok Hr. destruct (ok_open m Hok _ h Hr) as (f & Hf & (Hfo & _ & Hc)).
  unfold clear_corrupt_chunk_if_unchanged. rewrite Hr, decide_True by done.
  set (hd := mkHeader (<[index_of pos := ChunkEntry_empty]> (entries (rh_header h)))).
  rewrite (with_file_Some _ _ f) by done.
  pose proof (cleared_file_ok f (rh_header h) _ (index_of pos) Hfo) as Hfo1. fold hd in Hfo1.
  destruct (write_header_spec f hd _ Hfo1) as (Hfo2 & Ht2 & Hst2).
  destruct (set_open m (region_of pos) (write_header hd f)
    (mkHandle hd (loaded_chunk_count h) false (file_sectors h)) Hok) as (Hok2 & Hvr & Hvo).
  { by split_and!. }
  eexists. split; [done|]. split; [exact Hok2|]. apply stored_update; [intros; by apply Hvo|].
  intros i Hi. rewrite Hvr. cbn [rh_header]. rewrite Hst2 by done.
  rewrite (region_view_open m _ f h) by done. unfold stored_at, hd. cbn [entries]. case_decide as E.
  - subst. rewrite list_lookup_total_insert_eq by (rewrite (fo_count _ _ _ Hfo); done). done.
  - by rewrite list_lookup_total_insert_ne.
Qed.

(** ** Abstract specification: a map from chunks to payload and status *)

Abbreviation store := (gmap ChunkPos (list Z * ChunkStatus)).

(** The files and open handles implement the store. *)
Definition implements (m : RegionManager) (s : store) : Prop :=
  rm_ok m /\ forall q, stored m q = s !! q.

(** Room for one more chunk in the file of a region (files stay below 8 TiB). *)
Definition has_room (m : RegionManager) (pos : ChunkPos) : Prop :=
  forall f, files m !! RegionFile (region_of pos) = Some f -> Z.of_nat (length f) <= 2 ^ 43 - 2 ^ 25.

Lemma implements_empty : implements (mkRM ∅ ∅) ∅.
Proof.
  split; [split; simpl; intros *; by rewrite lookup_empty|]. intros q. rewrite lookup_empty.
  unfold stored, region_view. simpl. by rewrite lookup_empty.
Qed.

Lemma save_implements m s pos status data :
  implements m s -> 0 < Z.of_nat (length data) < 2 ^ 24 -> has_room m pos ->
  exists m', save_compressed m pos status data = Ok (m', true) /\
    implements m' (<[pos := (data, status)]> s).
Proof.
  intros [Hok Hst] Hlen Hroom.
  destruct (save_compressed_spec m pos status data Hok Hlen Hroom) as (m' & E & Hok' & Hst').
  exists m'. split; [done|]. split; [done|]. intros q. rewrite Hst'. case_decide as Eq.
  - subst. by rewrite lookup_insert_eq.
  - by rewrite lookup_insert_ne.
Qed.

Section CodecLemmas.
Context {Persistent Loaded : Type} `{ChunkCodec Persistent Loaded}.

(** What [load_chunk] does to the store, for the outcome of decoding the payload. *)
Definition load_outcome (m : RegionManager) (s : store) (pos : ChunkPos) (min_y height : Z) : Prop :=
  match s !! pos with
  | None => load_chunk m pos min_y height = Ok (m, None)
  | Some (bytes, status) =>
      match decode_chunk bytes pos status min_y height with
      | Some loaded => load_chunk m pos min_y height = Ok (m, Some loaded)
      | None => exists m', load_chunk m pos min_y height = Ok (m', None) /\
                  implements m' (delete pos s)
      end
  end.

Lemma load_implements m s pos min_y height :
  implements m s -> is_Some (regions m !! region_of pos) ->
  0 < height -> Z.rem height 16 = 0 -> Z.rem min_y 16 = 0 ->
  load_outcome m s pos min_y height.
Proof.
  intros [Hok Hst] [h Hr] Hh0 Hh Hy. destruct (ok_open m Hok _ h Hr) as (f & Hf & _).
  pose proof (load_read_spec m pos min_y height f h Hok Hh0 Hh Hy Hr Hf) as Hread.
  unfold load_outcome, load_chunk. rewrite Hread. rewrite <- Hst. cbn [result_bind].
  unfold stored. rewrite (region_view_open m _ f h _ Hr Hf). unfold stored_at.
  set (e := entries (rh_header h) !!! index_of pos).
  destruct (ChunkEntry_exists e); [|done]. unfold load_finish.
  destruct (decode_chunk _ pos (entry_status e) min_y height); [done|].
  destruct (clear_corrupt_spec m pos h Hok Hr) as (m' & Hcl & Hok' & Hst'). fold e in Hcl.
  exists m'. rewrite Hcl. split; [done|]. split; [done|]. intros q. rewrite Hst', Hst. case_decide as Eq.
  - subst. by rewrite lookup_delete_eq.
  - by rewrite lookup_delete_ne.
Qed.

Lemma encode_chunk_spec persistent data :
  encode_chunk persistent = Ok data <->
  exists bytes, wincode_serialize persistent = Some bytes /\ zstd_encode_all bytes = Ok data /\
    Z.of_nat (length data) <= MAX_CHUNK_SIZE.
Proof.
  unfold encode_chunk. destruct (wincode_serialize persistent) as [bytes|].
  - destruct (zstd_encode_all bytes) as [c|e] eqn:Ez; cbn [result_bind].
    + case Z.ltb_spec; intros Hl.
      * split; [done|]. intros (b & [= <-] & Hz & Hle). rewrite Ez in Hz. injection Hz as ->. lia.
      * split; [intros [= <-]; eauto|]. intros (b & [= <-] & Hz & Hle). by rewrite Ez in Hz.
    + split; [done|]. intros (b & [= <-] & Hz & Hle). by rewrite Ez in Hz.
  - split; [done|]. by intros (b & ? & _).
Qed.

Lemma decode_encode `{!ChunkCodecLaws Persistent Loaded} persistent data pos status min_y height :
  encode_chunk persistent = Ok data ->
  decode_chunk data pos status min_y height =
    try_persistent_to_chunk persistent pos status min_y height.
Proof.
  intros (bytes & Hw & Hz & _)%encode_chunk_spec. unfold decode_chunk.
  rewrite (zstd_inverse _ _ Hz). simpl. by rewrite (wincode_inverse _ _ Hw).
Qed.
End CodecLemmas.

(** ** Properties *)

(** A codec for the witnesses: chunks are byte lists framed by a magic byte, and a chunk
    that starts with 255 cannot be materialised. *)
#[local] Instance example_codec : ChunkCodec (list Z) (list Z) := {
  wincode_serialize p := Some p;
  wincode_deserialize bytes := Some bytes;
  zstd_encode_all data := Ok (40 :: data);
  zstd_decode_all c := match c with 40 :: data => Some data | _ => None end;
  try_persistent_to_chunk p _ _ _ _ := match p with 255 :: _ => None | _ => Some p end;
}.

#[local] Instance example_codec_laws : ChunkCodecLaws (list Z) (list Z).
Proof. split; [|by intros ? ? [= <-]]. simpl. congruence. Qed.

(** C8. Saving implements an insertion into the abstract map from chunk positions to
    payloads: when the chunk encodes to a non-empty payload below 2^24 bytes,
    [save_chunk_data] succeeds whether the region is open, closed or new, the chunk then
    has the new payload and status, and every other chunk of every region keeps its
    own; a chunk that does not encode leaves an error and changes nothing. *)
Theorem save_chunk_implements_insert `{ChunkCodec Persistent Loaded} m s pos status persistent :
  implements m s -> has_room m pos ->
  match encode_chunk persistent with
  | Err e => save_chunk_data m pos status persistent = Err e
  | Ok data =>
      0 < Z.of_nat (length data) < 2 ^ 24 ->
      exists m', save_chunk_data m pos status persistent = Ok (m', true) /\
        implements m' (<[pos := (data, status)]> s)
  end.
Proof.
  intros Him Hroom. unfold save_chunk_data. destruct (encode_chunk persistent) as [data|e]; [|done].
  intros Hlen. exact (save_implements m s pos status data Him Hlen Hroom).
Qed.

Lemma save_chunk_implements_insert_witness :
  exists m', save_chunk_data (mkRM ∅ ∅) (mkChunkPos (-5) 40) Full [1; 2; 3] = Ok (m', true) /\
    implements m' (<[mkChunkPos (-5) 40 := ([40; 1; 2; 3], Full)]> ∅).
Proof.
  refine (save_chunk_implements_insert (mkRM ∅ ∅) ∅ (mkChunkPos (-5) 40) Full
    [1; 2; 3] implements_empty _ _).
  - intros f Hf. simpl in Hf. by rewrite lookup_empty in Hf.
  - simpl. lia.
Defined.

(** Loading implements a lookup: in an acquired region, a chunk that is not stored
    loads as absent, a stored chunk is decoded from exactly the stored payload and
    status, and a payload that does not decode is discarded, alone, so the chunk is
    absent afterwards. *)
Theorem load_chunk_implements_lookup `{ChunkCodec Persistent Loaded} m s pos min_y height :
  implements m s -> is_Some (regions m !! region_of pos) ->
  0 < height -> Z.rem height 16 = 0 -> Z.rem min_y 16 = 0 ->
  match s !! pos with
  | None => load_chunk m pos min_y height = Ok (m, None)
  | Some (bytes, status) =>
      match decode_chunk bytes pos status min_y height with
      | Some loaded => load_chunk m pos min_y height = Ok (m, Some loaded)
      | None => exists m', load_chunk m pos min_y height = Ok (m', None) /\
                  implements m' (delete pos s)
      end
  end.
Proof. exact (load_implements m s pos min_y height). Qed.

Lemma load_chunk_implements_lookup_witness :
  exists m, implements m ∅ /\ load_chunk m (mkChunkPos 3 3) (-64) 384 = Ok (m, None).
Proof.
  destruct (acquire_chunk_spec (mkRM ∅ ∅) (mkChunkPos 3 3) (proj1 implements_empty))
    as (m & _ & Hok & Hr & Hst).
  assert (implements m ∅) as Him.
  { split; [exact Hok|]. intros q. rewrite Hst. exact (proj2 implements_empty q). }
  exists m. split; [exact Him|].
  exact (load_chunk_implements_lookup m ∅ (mkChunkPos 3 3) (-64) 384 Him Hr
    eq_refl eq_refl eq_refl).
Defined.

(** Opening and closing never lose data: acquiring and releasing a chunk, flushing
    and closing all regions succeed and leave the abstract map unchanged, also across a
    restart from the files alone; [acquire_chunk] and [chunk_exists] report exactly
    whether the chunk is stored. *)
Theorem region_lifecycle_keeps_store m s pos :
  implements m s ->
  (exists m', acquire_chunk m pos = Ok (m', bool_decide (is_Some (s !! pos))) /\
     implements m' s /\ is_Some (regions m' !! region_of pos)) /\
  (exists m', release_chunk m pos = Ok m' /\ implements m' s) /\
  chunk_exists m pos = Ok (bool_decide (is_Some (s !! pos))) /\
  implements (flush_all m) s /\
  implements (mkRM (files (close_all m)) ∅) s.
Proof.
  intros [Hok Hst]. rewrite <- (Hst pos). split_and!.
  - destruct (acquire_chunk_spec m pos Hok) as (m' & E & Hok' & Hr & Hst').
    exists m'. split; [done|]. split; [|done]. split; [done|]. intros q. by rewrite Hst'.
  - destruct (release_chunk_spec m pos Hok) as (m' & E & Hok' & Hst').
    exists m'. split; [done|]. split; [done|]. intros q. by rewrite Hst'.
  - by apply chunk_exists_spec.
  - destruct (flush_all_spec m Hok) as [H1 H2]. split; [exact H1|]. intros q. by rewrite H2.
  - destruct (close_all_spec m Hok) as (H1 & _ & H2). split; [exact H1|].
    intros q. rewrite <- Hst. exact (H2 q).
Qed.

Lemma region_lifecycle_keeps_store_witness :
  chunk_exists (mkRM ∅ ∅) (mkChunkPos 0 0) = Ok false /\ implements (flush_all (mkRM ∅ ∅)) ∅.
Proof.
  split.
  - exact (proj1 (proj2 (proj2 (region_lifecycle_keeps_store (mkRM ∅ ∅) ∅ (mkChunkPos 0 0) implements_empty)))).
  - exact (proj1 (proj2 (proj2 (proj2 (region_lifecycle_keeps_store (mkRM ∅ ∅) ∅ (mkChunkPos 0 0) implements_empty))))).
Defined.

(** C34. A saved chunk survives a restart: when the codec libraries invert each other,
    saving a chunk, closing every region and acquiring the chunk again from the files
    alone, loading returns what [try_persistent_to_chunk] makes of the very chunk that
    was saved. *)
Theorem saved_chunk_survives_restart `{ChunkCodecLaws Persistent Loaded}
  m s pos status persistent data loaded min_y height :
  implements m s -> has_room m pos ->
  encode_chunk persistent = Ok data -> 0 < Z.of_nat (length data) < 2 ^ 24 ->
  try_persistent_to_chunk persistent pos status min_y height = Some loaded ->
  0 < height -> Z.rem height 16 = 0 -> Z.rem min_y 16 = 0 ->
  exists m1 m2 m3,
    save_chunk_data m pos status persistent = Ok (m1, true) /\
    acquire_chunk (mkRM (files (close_all m1)) ∅) pos = Ok (m2, true) /\
    load_chunk m2 pos min_y height = Ok (m3, Some loaded).
Proof.
  intros Him Hroom Henc Hlen Hdec Hh0 Hh Hy.
  destruct (save_implements m s pos status data Him Hlen Hroom) as (m1 & E1 & [Hok1 Hst1]).
  destruct (close_all_spec m1 Hok1) as (Hokc & _ & Hstc).
  change (close_all m1) with (mkRM (files (close_all m1)) ∅) in Hokc, Hstc.
  destruct (acquire_chunk_spec _ pos Hokc) as (m2 & E2 & Hok2 & Hr2 & Hst2).
  assert (implements m2 (<[pos := (data, status)]> s)) as Him2.
  { split; [done|]. intros q. by rewrite Hst2, Hstc. }
  pose proof (load_implements m2 _ pos min_y height Him2 Hr2 Hh0 Hh Hy) as Hload.
  unfold load_outcome in Hload. rewrite lookup_insert_eq, (decode_encode _ _ _ _ _ _ Henc), Hdec in Hload.
  exists m1, m2, m2. split_and!; [| |exact Hload].
  - unfold save_chunk_data. rewrite Henc. exact E1.
  - rewrite E2. do 2 f_equal. rewrite Hstc, Hst1, lookup_insert_eq. done.
Qed.

Lemma saved_chunk_survives_restart_witness :
  exists m1 m2 m3,
    save_chunk_data (mkRM ∅ ∅) (mkChunkPos 0 0) Full [9; 8] = Ok (m1, true) /\
    acquire_chunk (mkRM (files (close_all m1)) ∅) (mkChunkPos 0 0) = Ok (m2, true) /\
    load_chunk m2 (mkChunkPos 0 0) 0 256 = Ok (m3, Some [9; 8]).
Proof.
  apply (saved_chunk_survives_restart (mkRM ∅ ∅) ∅
    (mkChunkPos 0 0) Full [9; 8] [40; 9; 8] [9; 8] 0 256).
  - exact implements_empty.
  - intros f Hf. simpl in Hf. by rewrite lookup_empty in Hf.
  - reflexivity.
  - simpl. lia.
  - reflexivity.
  - lia.
  - reflexivity.
  - reflexivity.
Defined.
