(* ===== verification/TickList.v ===== *)
(** * Scheduled ticks of one chunk

    Models [steel-core/src/world/tick_scheduler/list.rs] and [run_batch.rs] with the tick
    types of [mod.rs]: priorities, scheduled and saved ticks, the per-chunk [TickList]
    (pending saved entries, a binary heap of live entries, the set of scheduled keys) and
    the batch of ticks being executed.  Time is an [i64], delays are [i32], the insertion
    counter is a [u64].

    A [BinaryHeap] is modelled by its elements from the greatest to the least: pushing
    inserts in place, popping takes the first.  The elements of the queues compare
    different, so the order in which they are popped does not depend on the layout of
    the heap; its layout is never observed (packing sorts it). *)

From S2P Require Import Prelude Positions.

(** ** Ordering *)

(** [Ordering::then_with] *)
Definition then_with (a b : comparison) : comparison :=
  match a with Eq => b | _ => a end.

Section Heap.
Context {A : Type} (cmp : A -> A -> comparison).

Fixpoint heap_push (x : A) (h : list A) : list A :=
  match h with
  | [] => [x]
  | y :: h' => match cmp x y with Gt => x :: h | _ => y :: heap_push x h' end
  end.

(** The stable [sort_by]. *)
Fixpoint sorted_insert (x : A) (l : list A) : list A :=
  match l with
  | [] => [x]
  | y :: l' => match cmp x y with Gt => y :: sorted_insert x l' | _ => x :: l end
  end.

Definition sort_by (l : list A) : list A := foldr sorted_insert [] l.
End Heap.

(** ** Ticks *)

Inductive TickPriority :=
| ExtremelyHigh | VeryHigh | High | Normal | Low | VeryLow | ExtremelyLow.

#[global] Instance TickPriority_eq_dec : EqDecision TickPriority.
Proof. solve_decision. Defined.

(** The discriminant, on which the derived order is based. *)
Definition TickPriority_value (p : TickPriority) : Z :=
  match p with
  | ExtremelyHigh => -3 | VeryHigh => -2 | High => -1 | Normal => 0
  | Low => 1 | VeryLow => 2 | ExtremelyLow => 3
  end.

Definition TickPriority_by_value (value : Z) : TickPriority :=
  if value =? -3 then ExtremelyHigh
  else if value =? -2 then VeryHigh
  else if value =? -1 then High
  else if value =? 0 then Normal
  else if value =? 1 then Low
  else if value =? 2 then VeryLow
  else if value =? 3 then ExtremelyLow
  else if value <? TickPriority_value ExtremelyHigh then ExtremelyHigh
  else ExtremelyLow.

(** Blocks and fluids are told apart by the address of their registry entry. *)
Class TickKey (T : Type) := tick_key : T -> Z.

Abbreviation ScheduledTickKey := (BlockPos * Z)%type.

Record ScheduledTick (T : Type) := mkTick {
  tick_type : T;
  tick_pos : BlockPos;
  trigger_tick : Z;
  priority : TickPriority;
  sub_tick_order : Z;
}.
Arguments mkTick {T} _ _ _ _ _.
Arguments tick_type {T} _.
Arguments tick_pos {T} _.
Arguments trigger_tick {T} _.
Arguments priority {T} _.
Arguments sub_tick_order {T} _.

Record SavedTick (T : Type) := mkSaved {
  saved_type : T;
  saved_pos : BlockPos;
  saved_delay : Z;
  saved_priority : TickPriority;
}.
Arguments mkSaved {T} _ _ _ _.
Arguments saved_type {T} _.
Arguments saved_pos {T} _.
Arguments saved_delay {T} _.
Arguments saved_priority {T} _.

Definition intra_tick_drain_order (left_priority : TickPriority) (left_order : Z)
  (right_priority : TickPriority) (right_order : Z) : comparison :=
  then_with (Z.compare (TickPriority_value left_priority) (TickPriority_value right_priority))
    (Z.compare left_order right_order).

Definition drain_order {T} (self other : ScheduledTick T) : comparison :=
  then_with (Z.compare (trigger_tick self) (trigger_tick other))
    (intra_tick_drain_order (priority self) (sub_tick_order self)
       (priority other) (sub_tick_order other)).

Record QueuedTick (T : Type) := mkQTick {
  qt_tick : ScheduledTick T;
  insertion_order : Z;
}.
Arguments mkQTick {T} _ _.
Arguments qt_tick {T} _.
Arguments insertion_order {T} _.

Definition QueuedTick_cmp {T} (self other : QueuedTick T) : comparison :=
  then_with (CompOpp (drain_order (qt_tick self) (qt_tick other)))
    (Z.compare (insertion_order other) (insertion_order self)).

(** ** Tick lists *)

Record TickList (T : Type) := mkTickList {
  pending_ticks : option (list (SavedTick T));
  ticks : list (QueuedTick T);
  scheduled : gset ScheduledTickKey;
  next_insertion_order : Z;
}.
Arguments mkTickList {T} _ _ _ _.
Arguments pending_ticks {T} _.
Arguments ticks {T} _.
Arguments scheduled {T} _.
Arguments next_insertion_order {T} _.

Section TickList.
Context {T : Type} `{TickKey T}.

Definition ScheduledTick_key (t : ScheduledTick T) : ScheduledTickKey :=
  (tick_pos t, tick_key (tick_type t)).

Definition saved_key (t : SavedTick T) : ScheduledTickKey :=
  (saved_pos t, tick_key (saved_type t)).

Definition TickList_new : TickList T := mkTickList None [] ∅ 0.
Definition TickList_new_pending : TickList T := mkTickList (Some []) [] ∅ 0.

Definition push_unchecked (l : TickList T) (tick : ScheduledTick T) : TickList T :=
  mkTickList (pending_ticks l)
    (heap_push QueuedTick_cmp (mkQTick tick (next_insertion_order l)) (ticks l))
    (scheduled l) (u64 (next_insertion_order l + 1)).

(** [scheduled.insert(key)]: the new set and whether the key is new. *)
Definition insert_key (l : TickList T) (k : ScheduledTickKey) : TickList T * bool :=
  (mkTickList (pending_ticks l) (ticks l) ({[k]} ∪ scheduled l) (next_insertion_order l),
   bool_decide (k ∉ scheduled l)).

Definition schedule (l : TickList T) (type : T) (pos : BlockPos) (trigger : Z)
  (prio : TickPriority) (order : Z) : TickList T * bool :=
  let '(l, is_new) := insert_key l (pos, tick_key type) in
  if is_new then (push_unchecked l (mkTick type pos trigger prio order), true) else (l, false).

Definition schedule_saved_pending (l : TickList T) (s : SavedTick T) : TickList T * bool :=
  let '(l, is_new) := insert_key l (saved_key s) in
  if is_new
  then (mkTickList (Some (default [] (pending_ticks l) ++ [s])) (ticks l) (scheduled l)
          (next_insertion_order l), true)
  else (l, false).

Definition schedule_pending (l : TickList T) (type : T) (pos : BlockPos) (prio : TickPriority)
  : TickList T * bool := schedule_saved_pending l (mkSaved type pos 0 prio).

Definition from_saved_ticks (saved : list (SavedTick T)) : TickList T :=
  mkTickList (Some saved) [] (foldl (fun set s => {[saved_key s]} ∪ set) ∅ saved) 0.

Definition from_proto_saved_ticks (saved : list (SavedTick T)) : TickList T :=
  foldl (fun l s => fst (schedule_saved_pending l s)) TickList_new_pending saved.

Definition has_tick (l : TickList T) (pos : BlockPos) (type : T) : bool :=
  bool_decide ((pos, tick_key type) ∈ scheduled l).

Definition pending_entries (l : TickList T) : list (SavedTick T) := default [] (pending_ticks l).

(** [retain]: the kept entries, and the keys of the dropped ones leave the set. *)
Definition remove_pending_matching (l : TickList T) (predicate : SavedTick T -> bool)
  : TickList T * nat :=
  match pending_ticks l with
  | None => (l, 0%nat)
  | Some pending =>
      let kept := filter (fun t => predicate t = false) pending in
      let dropped := filter (fun t => predicate t = true) pending in
      (mkTickList (Some kept) (ticks l)
         (foldl (fun set t => set ∖ {[saved_key t]}) (scheduled l) dropped) (next_insertion_order l),
       (length pending - length kept)%nat)
  end.

(** The order of saved lists: by sub-tick order, then by insertion. *)
Definition save_order (left right : QueuedTick T) : comparison :=
  then_with (Z.compare (sub_tick_order (qt_tick left)) (sub_tick_order (qt_tick right)))
    (Z.compare (insertion_order left) (insertion_order right)).

Definition save_tick (current_tick : Z) (q : QueuedTick T) : SavedTick T :=
  mkSaved (tick_type (qt_tick q)) (tick_pos (qt_tick q))
    (i32 (i64 (trigger_tick (qt_tick q) - current_tick))) (priority (qt_tick q)).

(** [packing_snapshot] followed by [TickListPackingSnapshot::pack]. *)
Definition pack (l : TickList T) (current_tick : Z) : list (SavedTick T) :=
  pending_entries l ++ (save_tick current_tick <$> sort_by save_order (ticks l)).

Definition unpack_tick (current_tick : Z) (tick_count index : nat) (s : SavedTick T)
  : ScheduledTick T :=
  mkTick (saved_type s) (saved_pos s) (i64 (current_tick + saved_delay s)) (saved_priority s)
    (- Z.of_nat tick_count + Z.of_nat index).

Definition unpack (l : TickList T) (current_tick : Z) : TickList T :=
  match pending_ticks l with
  | None => l
  | Some pending =>
      foldl push_unchecked
        (mkTickList None (ticks l) (scheduled l) (next_insertion_order l))
        (imap (unpack_tick current_tick (length pending)) pending)
  end.

Definition TickList_len (l : TickList T) : nat :=
  (length (ticks l) + match pending_ticks l with Some p => length p | None => 0 end)%nat.

Definition peek (l : TickList T) : option (ScheduledTick T) := qt_tick <$> head (ticks l).

Definition peek_ready (l : TickList T) (current_tick : Z) : option (ScheduledTick T) :=
  tick ← peek l;
  if trigger_tick tick <=? current_tick then Some tick else None.

Definition pop_ready (l : TickList T) (current_tick : Z) : option (TickList T * ScheduledTick T) :=
  _ ← peek_ready l current_tick;
  match ticks l with
  | [] => None
  | q :: rest =>
      Some (mkTickList (pending_ticks l) rest (scheduled l ∖ {[ScheduledTick_key (qt_tick q)]})
              (next_insertion_order l), qt_tick q)
  end.

(** Every round pops one tick, so the number of live ticks is enough fuel. *)
Fixpoint drain_loop (fuel : nat) (l : TickList T) (current_tick : Z)
  : TickList T * list (ScheduledTick T) :=
  match fuel with
  | O => (l, [])
  | S fuel' =>
      match pop_ready l current_tick with
      | None => (l, [])
      | Some (l, tick) => let '(l, ready) := drain_loop fuel' l current_tick in (l, tick :: ready)
      end
  end.

Definition drain_ready (l : TickList T) (current_tick : Z) : TickList T * list (ScheduledTick T) :=
  drain_loop (length (ticks l)) l current_tick.
End TickList.

(** ** The batch being executed *)

Record ScheduledTickRunBatch (T : Type) := mkRunBatch {
  rb_ticks : list (ScheduledTick T);
  rb_next_index : nat;
  rb_lookup : option (gmap ScheduledTickKey nat);
}.
Arguments mkRunBatch {T} _ _ _.
Arguments rb_ticks {T} _.
Arguments rb_next_index {T} _.
Arguments rb_lookup {T} _.

Section RunBatch.
Context {T : Type} `{TickKey T}.

Definition RunBatch_new (ts : list (ScheduledTick T)) : ScheduledTickRunBatch T :=
  mkRunBatch ts 0 None.

(** [None] is the panic of the bounds assertion. *)
Definition RunBatch_start (b : ScheduledTickRunBatch T) (index : nat)
  : option (ScheduledTickRunBatch T) :=
  if (index <? length (rb_ticks b))%nat
  then Some (mkRunBatch (rb_ticks b) (index + 1) (rb_lookup b)) else None.

(** Collecting pairs into a map: a later entry replaces an earlier one. *)
Definition build_lookup (initial : nat) (ts : list (ScheduledTick T)) : gmap ScheduledTickKey nat :=
  foldl (fun m '(index, t) => <[ScheduledTick_key t := (initial + index)%nat]> m) ∅
    (imap pair (drop initial ts)).

Definition RunBatch_contains (b : ScheduledTickRunBatch T) (pos : BlockPos) (type : T)
  : ScheduledTickRunBatch T * bool :=
  let initial := rb_next_index b in
  if (length (rb_ticks b) <=? initial)%nat then (b, false)
  else
    let lookup := default (build_lookup initial (rb_ticks b)) (rb_lookup b) in
    (mkRunBatch (rb_ticks b) (rb_next_index b) (Some lookup),
     match lookup !! (pos, tick_key type) with
     | Some index => (rb_next_index b <=? index)%nat
     | None => false
     end).
End RunBatch.

(** ** Lemmas: orders *)

Lemma then_with_Gt a b : then_with a b = Gt <-> a = Gt \/ (a = Eq /\ b = Gt).
Proof. destruct a; simpl; naive_solver. Qed.
Lemma then_with_Lt a b : then_with a b = Lt <-> a = Lt \/ (a = Eq /\ b = Lt).
Proof. destruct a; simpl; naive_solver. Qed.
Lemma then_with_Eq a b : then_with a b = Eq <-> a = Eq /\ b = Eq.
Proof. destruct a; simpl; naive_solver. Qed.
Lemma CompOpp_Gt a : CompOpp a = Gt <-> a = Lt.
Proof. by destruct a. Qed.
Lemma CompOpp_Lt a : CompOpp a = Lt <-> a = Gt.
Proof. by destruct a. Qed.
Lemma CompOpp_Eq a : CompOpp a = Eq <-> a = Eq.
Proof. by destruct a. Qed.
Lemma Zcompare_Gt a b : (a ?= b) = Gt <-> b < a.
Proof. rewrite Z.compare_gt_iff. done. Qed.

(** Reduces a comparison of lexicographic orders to linear arithmetic. *)
Ltac order_iff :=
  unfold drain_order, intra_tick_drain_order in *;
  repeat first
    [ setoid_rewrite then_with_Gt | setoid_rewrite then_with_Lt | setoid_rewrite then_with_Eq
    | setoid_rewrite CompOpp_Gt | setoid_rewrite CompOpp_Lt | setoid_rewrite CompOpp_Eq
    | setoid_rewrite Zcompare_Gt | setoid_rewrite Z.compare_lt_iff | setoid_rewrite Z.compare_eq_iff ].

Section Orders.
Context {T : Type} `{TickKey T}.

(** [a] is drained before [b]. *)
Definition before (a b : QueuedTick T) : Prop := QueuedTick_cmp a b = Gt.

Definition drains_before (t1 p1 s1 i1 t2 p2 s2 i2 : Z) : Prop :=
  t1 < t2 \/ (t1 = t2 /\ (p1 < p2 \/ (p1 = p2 /\ (s1 < s2 \/ (s1 = s2 /\ i1 < i2))))).

Lemma before_iff (a b : QueuedTick T) :
  before a b <->
  drains_before (trigger_tick (qt_tick a)) (TickPriority_value (priority (qt_tick a)))
    (sub_tick_order (qt_tick a)) (insertion_order a)
    (trigger_tick (qt_tick b)) (TickPriority_value (priority (qt_tick b)))
    (sub_tick_order (qt_tick b)) (insertion_order b).
Proof. unfold before, QueuedTick_cmp, drains_before. order_iff. lia. Qed.

Lemma QueuedTick_cmp_antisym (a b : QueuedTick T) : QueuedTick_cmp b a = CompOpp (QueuedTick_cmp a b).
Proof.
  unfold QueuedTick_cmp, drain_order, intra_tick_drain_order.
  rewrite (Z.compare_antisym (trigger_tick (qt_tick a))),
    (Z.compare_antisym (TickPriority_value (priority (qt_tick a)))),
    (Z.compare_antisym (sub_tick_order (qt_tick a))), (Z.compare_antisym (insertion_order a)).
  repeat match goal with |- context [?x ?= ?y] => destruct (x ?= y); simpl; try done end.
Qed.

Lemma QueuedTick_cmp_Lt (a b : QueuedTick T) : QueuedTick_cmp a b = Lt <-> before b a.
Proof. unfold before. rewrite (QueuedTick_cmp_antisym a b), CompOpp_Gt. done. Qed.

Lemma QueuedTick_cmp_Eq (a b : QueuedTick T) : QueuedTick_cmp a b = Eq -> insertion_order a = insertion_order b.
Proof. unfold QueuedTick_cmp. order_iff. lia. Qed.

Lemma QueuedTick_cmp_ext (a b a' b' : QueuedTick T) :
  (before a b <-> before a' b') -> (before b a <-> before b' a') ->
  QueuedTick_cmp a b = QueuedTick_cmp a' b'.
Proof.
  intros H1 H2. rewrite <- (QueuedTick_cmp_Lt a b), <- (QueuedTick_cmp_Lt a' b') in H2. unfold before in H1.
  destruct (QueuedTick_cmp a b), (QueuedTick_cmp a' b'); intuition congruence.
Qed.

#[global] Instance before_trans : Transitive before.
Proof. intros a b c. rewrite !before_iff. unfold drains_before. lia. Qed.

#[global] Instance before_irrefl : Irreflexive before.
Proof. intros a. unfold complement. rewrite before_iff. unfold drains_before. lia. Qed.

(** [a] comes before [b] in a saved list. *)
Definition saved_before (a b : QueuedTick T) : Prop :=
  sub_tick_order (qt_tick a) < sub_tick_order (qt_tick b) \/
  (sub_tick_order (qt_tick a) = sub_tick_order (qt_tick b) /\ insertion_order a < insertion_order b).

Lemma save_order_Gt (a b : QueuedTick T) : save_order a b = Gt <-> saved_before b a.
Proof. unfold save_order, saved_before. order_iff. lia. Qed.

Lemma save_order_not_Gt (a b : QueuedTick T) :
  insertion_order a <> insertion_order b -> save_order a b <> Gt -> saved_before a b.
Proof. rewrite save_order_Gt. unfold saved_before. lia. Qed.
End Orders.

(** ** Lemmas: heaps and sorting *)

Section Sorting.
Context {A : Type} (cmp : A -> A -> comparison).

Lemma heap_push_perm x h : heap_push cmp x h ≡ₚ x :: h.
Proof.
  induction h as [|y h IH]; simpl; [done|]. destruct (cmp x y); try done.
  - rewrite IH. apply Permutation_swap.
  - rewrite IH. apply Permutation_swap.
Qed.

Lemma sorted_insert_perm x l : sorted_insert cmp x l ≡ₚ x :: l.
Proof.
  induction l as [|y l IH]; simpl; [done|]. destruct (cmp x y); try done.
  rewrite IH. apply Permutation_swap.
Qed.

Lemma sort_by_perm l : sort_by cmp l ≡ₚ l.
Proof. induction l as [|x l IH]; simpl; [done|]. by rewrite sorted_insert_perm, IH. Qed.

(** Pushing keeps the heap sorted when the new element compares different. *)
Lemma heap_push_sorted (R : relation A) `{!Transitive R} x h :
  (forall y, cmp x y = Gt -> R x y) -> (forall y, cmp x y = Lt -> R y x) ->
  (forall y, y ∈ h -> cmp x y <> Eq) ->
  StronglySorted R h -> StronglySorted R (heap_push cmp x h).
Proof.
  intros HGt HLt Hne Hs. induction Hs as [|y h Hs IH Hy]; simpl; [by repeat constructor|].
  destruct (cmp x y) eqn:E.
  - exfalso. apply (Hne y); [left|done].
  - constructor; [apply IH; intros z Hz; apply Hne; by right|].
    rewrite heap_push_perm. constructor; [by apply HLt|done].
  - constructor; [by constructor|]. constructor; [by apply HGt|].
    eapply Forall_impl; [exact Hy|]. intros z Hz. etrans; [by apply HGt|done].
Qed.

Lemma sorted_insert_sorted (R : relation A) `{!Transitive R} x l :
  (forall y, cmp x y = Gt -> R y x) -> (forall y, y ∈ l -> cmp x y <> Gt -> R x y) ->
  StronglySorted R l -> StronglySorted R (sorted_insert cmp x l).
Proof.
  intros HGt Hn Hs. induction Hs as [|y l Hs IH Hy]; simpl; [by repeat constructor|].
  destruct (cmp x y) eqn:E.
  1,2: constructor; [by constructor|]; assert (R x y) by (apply Hn; [left|congruence]);
       constructor; [done|]; eapply Forall_impl; [exact Hy|]; intros z Hz; by etrans.
  constructor; [apply IH; intros z Hz; apply Hn; by right|].
  rewrite sorted_insert_perm. constructor; [by apply HGt|done].
Qed.

Lemma foldl_push_perm xs h : foldl (fun h x => heap_push cmp x h) h xs ≡ₚ xs ++ h.
Proof.
  revert h. induction xs as [|x xs IH]; intros h; simpl; [done|].
  by rewrite IH, heap_push_perm, Permutation_middle.
Qed.
End Sorting.

Lemma NoDup_fmap_elem_inj {A B} (f : A -> B) (xs : list A) x y :
  NoDup (f <$> xs) -> x ∈ xs -> y ∈ xs -> f x = f y -> x = y.
Proof.
  intros Hnd [i Hi]%list_elem_of_lookup [j Hj]%list_elem_of_lookup Hf.
  assert (i = j) as <-; [|congruence]. apply (NoDup_lookup (f <$> xs) i j (f x)); [done| |].
  - by rewrite list_lookup_fmap, Hi.
  - by rewrite list_lookup_fmap, Hj, Hf.
Qed.

Lemma Forall2_fmap_eq {A B C} (P : A -> B -> Prop) (f : A -> C) (g : B -> C) xs ys :
  (forall x y, x ∈ xs -> P x y -> f x = g y) -> Forall2 P xs ys -> f <$> xs = g <$> ys.
Proof.
  intros Hfg Hp. induction Hp as [|x y xs ys Hxy Hp IH]; [done|]. simpl. f_equal.
  - apply Hfg; [left|done].
  - apply IH. intros ? ? Hin. apply Hfg. by right.
Qed.

Lemma sorted_lookup {A} (R : relation A) xs i j a b :
  StronglySorted R xs -> (i < j)%nat -> xs !! i = Some a -> xs !! j = Some b -> R a b.
Proof.
  intros Hs. revert i j. induction Hs as [|x xs Hs IH Hx]; intros [|i] [|j] Hij Ha Hb; try lia; try done.
  - injection Ha as ->. rewrite Forall_lookup in Hx. by eapply Hx.
  - apply (IH i j); [lia|done|done].
Qed.

(** A list sorted by a strict order is determined by its elements. *)
Lemma sorted_unique {A} (R : relation A) `{!Transitive R, !Irreflexive R} (l1 l2 : list A) :
  StronglySorted R l1 -> StronglySorted R l2 -> l1 ≡ₚ l2 -> l1 = l2.
Proof.
  intros H1. revert l2. induction H1 as [|x l1 H1 IH Hx]; intros l2 H2 Hp.
  - symmetry in Hp. by apply Permutation_nil_r in Hp.
  - destruct H2 as [|y l2 H2 Hy]; [by apply Permutation_nil_r in Hp|].
    assert (x = y) as ->.
    { assert (x ∈ y :: l2) as Hin by (rewrite <- Hp; left).
      assert (y ∈ x :: l1) as Hin' by (rewrite Hp; left).
      apply elem_of_cons in Hin as [|Hin]; [done|]. apply elem_of_cons in Hin' as [|Hin']; [done|].
      rewrite Forall_forall in Hx, Hy. destruct (irreflexivity R x). etrans; [by apply Hx|by apply Hy]. }
    f_equal. apply IH; [done|]. by apply Permutation_cons_inv in Hp.
Qed.

(** Heaps built from related elements with corresponding comparisons are related. *)
Lemma foldl_push_related {A B} (cmpA : A -> A -> comparison) (cmpB : B -> B -> comparison)
  (Rel : A -> B -> Prop) xs ys h k :
  (forall a a' b b', Rel a b -> Rel a' b' -> cmpA a a' = cmpB b b') ->
  Forall2 Rel xs ys -> Forall2 Rel h k ->
  Forall2 Rel (foldl (fun h x => heap_push cmpA x h) h xs) (foldl (fun h x => heap_push cmpB x h) k ys).
Proof.
  intros Hcmp Hxy. revert h k. induction Hxy as [|x y xs ys Hr Hxy IH]; intros h k Hhk; simpl; [done|].
  apply IH. clear IH. induction Hhk as [|a b h k Hab Hhk IH]; simpl; [by repeat constructor|].
  rewrite (Hcmp x a y b) by done. destruct (cmpB y b); by repeat constructor.
Qed.

(** ** Invariant *)

Section Invariant.
Context {T : Type} `{TickKey T}.
Implicit Types l : TickList T.

(** The keys of all entries, pending and live. *)
Definition entry_keys l : list ScheduledTickKey :=
  (saved_key <$> pending_entries l) ++ ((fun q => ScheduledTick_key (qt_tick q)) <$> ticks l).

(** [extra] lists the keys of entries that are on their way into the list. *)
Record list_ok_with (extra : list ScheduledTickKey) l : Prop := {
  lo_sorted : StronglySorted before (ticks l);
  lo_next : 0 <= next_insertion_order l;
  lo_orders : Forall (fun q => 0 <= insertion_order q < next_insertion_order l) (ticks l);
  lo_distinct : NoDup (insertion_order <$> ticks l);
  lo_unique : NoDup (extra ++ entry_keys l);
  lo_scheduled : scheduled l = list_to_set (extra ++ entry_keys l);
}.

Abbreviation list_ok := (list_ok_with []).

Lemma list_ok_scheduled l k : list_ok l -> (k ∈ scheduled l <-> k ∈ entry_keys l).
Proof. intros Hok. rewrite (lo_scheduled _ _ Hok). set_solver. Qed.

Lemma new_ok : list_ok TickList_new.
Proof. split; simpl; try done; constructor. Qed.

Lemma new_pending_ok : list_ok TickList_new_pending.
Proof. split; simpl; try done; constructor. Qed.

Lemma from_saved_ticks_scheduled (saved : list (SavedTick T)) (s : gset ScheduledTickKey) :
  foldl (fun set t => {[saved_key t]} ∪ set) s saved = list_to_set (saved_key <$> saved) ∪ s.
Proof.
  revert s. induction saved as [|t saved IH]; intros s; simpl; [set_solver|]. rewrite IH. set_solver.
Qed.

Lemma from_saved_ticks_ok saved :
  NoDup (saved_key <$> saved) -> list_ok (from_saved_ticks saved).
Proof.
  intros Hnd. split; simpl; try done; try constructor.
  - unfold entry_keys. simpl. by rewrite app_nil_r.
  - unfold entry_keys. simpl. rewrite app_nil_r, from_saved_ticks_scheduled. set_solver.
Qed.

(** Pushing a live tick whose key the set already has. *)
Lemma push_unchecked_ok extra l tick :
  list_ok_with (ScheduledTick_key tick :: extra) l -> next_insertion_order l < 2 ^ 64 - 1 ->
  list_ok_with extra (push_unchecked l tick).
Proof.
  intros [Hs Hn0 Ho Hd Hu Hsch] Hn. set (q := mkQTick tick (next_insertion_order l)).
  pose proof (heap_push_perm QueuedTick_cmp q (ticks l)) as Hp.
  assert (extra ++ entry_keys (push_unchecked l tick) ≡ₚ (ScheduledTick_key tick :: extra) ++ entry_keys l)
    as Hkeys.
  { unfold entry_keys, pending_entries. cbn [ticks pending_ticks push_unchecked]. fold q. rewrite Hp. simpl.
    by rewrite <- !Permutation_middle. }
  rewrite Forall_forall in Ho.
  assert (u64 (next_insertion_order l + 1) = next_insertion_order l + 1) as Hu64.
  { apply wrapu_small. unfold in_u. lia. }
  split; cbn [ticks next_insertion_order scheduled push_unchecked]; fold q; rewrite ?Hu64; [| lia | | | |].
  - apply heap_push_sorted; try done; [tc_solve|intros y; by rewrite QueuedTick_cmp_Lt|].
    intros y Hy E%QueuedTick_cmp_Eq. apply Ho in Hy. simpl in E. lia.
  - rewrite Hp. constructor; [simpl; lia|]. apply Forall_forall. intros y Hy%Ho. lia.
  - rewrite Hp. simpl. constructor; [|done]. intros (y & E & Hy%Ho)%list_elem_of_fmap. lia.
  - by rewrite Hkeys.
  - by rewrite Hkeys, Hsch.
Qed.

Lemma push_unchecked_next l tick :
  0 <= next_insertion_order l < 2 ^ 64 - 1 ->
  next_insertion_order (push_unchecked l tick) = next_insertion_order l + 1.
Proof. intros ?. apply wrapu_small. unfold in_u. lia. Qed.

Lemma insert_key_old l k : k ∈ scheduled l -> insert_key l k = (l, false).
Proof.
  intros Hk. unfold insert_key. rewrite bool_decide_eq_false_2 by (intros ?; done).
  f_equal. destruct l as [p t s n]. simpl in *. f_equal. set_solver.
Qed.

Lemma insert_key_fresh l k : k ∉ scheduled l ->
  insert_key l k = (mkTickList (pending_ticks l) (ticks l) ({[k]} ∪ scheduled l)
                      (next_insertion_order l), true).
Proof. intros Hk. unfold insert_key. by rewrite bool_decide_eq_true_2. Qed.

Lemma schedule_ok l type pos trigger prio order :
  list_ok l -> next_insertion_order l < 2 ^ 64 - 1 ->
  list_ok (fst (schedule l type pos trigger prio order)).
Proof.
  intros Hok Hn. unfold schedule. destruct (decide ((pos, tick_key type) ∈ scheduled l)) as [Hin|Hout].
  - by rewrite insert_key_old.
  - rewrite insert_key_fresh by done. simpl. destruct Hok as [Hs Hn0 Ho Hd Hu Hsch].
    apply push_unchecked_ok; [|done]. split; simpl; try done.
    + constructor; [|done]. rewrite Hsch in Hout. set_solver.
    + by rewrite Hsch.
Qed.

Lemma schedule_false_ticks l type pos trigger prio order l' :
  schedule l type pos trigger prio order = (l', false) -> ticks l' = ticks l.
Proof. unfold schedule, insert_key. case_bool_decide; [done|]. by intros [= <-]. Qed.

Lemma schedule_saved_pending_ok l s :
  list_ok l -> list_ok (fst (schedule_saved_pending l s)).
Proof.
  intros Hok. unfold schedule_saved_pending. destruct (decide (saved_key s ∈ scheduled l)) as [Hin|Hout].
  - by rewrite insert_key_old.
  - rewrite insert_key_fresh by done. simpl. destruct Hok as [Hs Hn0 Ho Hd Hu Hsch].
    assert (forall sch n, entry_keys (mkTickList (Some (default [] (pending_ticks l) ++ [s])) (ticks l) sch n)
      ≡ₚ saved_key s :: entry_keys l) as Hkeys.
    { intros sch n. unfold entry_keys, pending_entries. simpl. rewrite fmap_app. simpl.
      rewrite <- (assoc_L (++)). simpl. by rewrite <- Permutation_middle. }
    split; simpl; try done; rewrite Hkeys.
    + constructor; [|done]. rewrite Hsch in Hout. set_solver.
    + by rewrite Hsch.
Qed.

Lemma from_proto_saved_ticks_ok saved : list_ok (from_proto_saved_ticks saved).
Proof.
  unfold from_proto_saved_ticks. generalize new_pending_ok. generalize (TickList_new_pending (T := T)).
  induction saved as [|s saved IH]; intros l Hl; simpl; [done|]. apply IH, schedule_saved_pending_ok, Hl.
Qed.
Lemma remove_pending_matching_ok l predicate :
  list_ok l -> list_ok (fst (remove_pending_matching l predicate)).
Proof.
  intros Hok. unfold remove_pending_matching. destruct (pending_ticks l) as [pending|] eqn:Ep; [|done].
  destruct Hok as [Hs Hn0 Ho Hd Hu Hsch]. simpl in *. unfold entry_keys, pending_entries in *.
  rewrite Ep in *. simpl in *.
  set (kept := filter (fun t => predicate t = false) pending).
  set (dropped := filter (fun t => predicate t = true) pending).
  set (live := (fun q => ScheduledTick_key (qt_tick q)) <$> ticks l) in *.
  assert (pending ≡ₚ kept ++ dropped) as Hsplit.
  { subst kept dropped. clear. induction pending as [|t ts IH]; [done|]. rewrite !filter_cons.
    destruct (predicate t); simpl; rewrite IH at 1; [apply Permutation_middle|done]. }
  assert (forall set, foldl (fun set t => set ∖ {[saved_key t]}) set dropped =
    set ∖ (list_to_set (saved_key <$> dropped) : gset _)) as Hfold.
  { clear. induction dropped as [|t ts IH]; intros set; simpl; [set_solver|]. rewrite IH. set_solver. }
  rewrite Hsplit in Hu, Hsch. rewrite fmap_app in Hu, Hsch. rewrite <- (assoc_L (++)) in Hu, Hsch.
  rewrite (Permutation_app_comm (saved_key <$> dropped)), (assoc_L (++)) in Hu, Hsch.
  apply NoDup_app in Hu as (Hu1 & Hu2 & Hu3).
  split; simpl; try done. rewrite Hfold, Hsch, list_to_set_app_L. unfold entry_keys, pending_entries. simpl.
  fold live. apply set_eq. intros x. rewrite elem_of_difference, elem_of_union, !elem_of_list_to_set.
  split; [tauto|]. intros Hx. split; [by left|]. by apply Hu2.
Qed.

Lemma pop_ready_Some l now l' tick :
  pop_ready l now = Some (l', tick) ->
  exists q rest, ticks l = q :: rest /\ tick = qt_tick q /\ trigger_tick tick <= now /\
    l' = mkTickList (pending_ticks l) rest (scheduled l ∖ {[ScheduledTick_key tick]})
           (next_insertion_order l).
Proof.
  unfold pop_ready, peek_ready, peek. destruct (ticks l) as [|q rest] eqn:Et; simpl; [done|].
  case Z.leb_spec; [|done]. intros Hle [= <- <-]. eauto 10.
Qed.

Lemma pop_ready_ok l now l' tick :
  list_ok l -> pop_ready l now = Some (l', tick) -> list_ok l'.
Proof.
  intros [Hs Hn0 Ho Hd Hu Hsch] (q & rest & Et & -> & _ & ->)%pop_ready_Some.
  unfold entry_keys, pending_entries in *. rewrite Et in *. simpl in *.
  rewrite <- Permutation_middle in Hu, Hsch. apply NoDup_cons in Hu as [Hu1 Hu2].
  inversion Hs; inversion Ho; inversion Hd; subst. split; simpl; try done. rewrite Hsch.
  unfold entry_keys, pending_entries. simpl in *.
  apply set_eq. intros x. rewrite elem_of_difference, elem_of_union, elem_of_singleton. set_solver.
Qed.

Lemma foldl_push_ok l ts :
  list_ok_with (ScheduledTick_key <$> ts) l ->
  next_insertion_order l + Z.of_nat (length ts) < 2 ^ 64 -> list_ok (foldl push_unchecked l ts).
Proof.
  revert l. induction ts as [|t ts IH]; intros l Hok Hn; simpl in *; [done|].
  pose proof (lo_next _ _ Hok). apply IH; [apply push_unchecked_ok; [done|lia]|].
  rewrite push_unchecked_next by lia. lia.
Qed.

Lemma unpack_keys now n (pending : list (SavedTick T)) :
  ScheduledTick_key <$> imap (unpack_tick now n) pending = saved_key <$> pending.
Proof. rewrite fmap_imap. apply list_eq. intros i. rewrite list_lookup_imap, list_lookup_fmap. done. Qed.

Lemma unpack_ok l now :
  list_ok l -> next_insertion_order l + Z.of_nat (length (pending_entries l)) < 2 ^ 64 ->
  list_ok (unpack l now).
Proof.
  intros Hok Hn. unfold unpack, pending_entries in *. destruct (pending_ticks l) as [pending|] eqn:Ep; [|done].
  apply foldl_push_ok; [|simpl; by rewrite length_imap]. rewrite unpack_keys.
  destruct Hok as [Hs Hn0 Ho Hd Hu Hsch]. unfold entry_keys, pending_entries in *. rewrite Ep in *.
  by split.
Qed.

(** ** Reachable lists *)

(** The operations of a chunk's list; the insertion counter does not wrap. *)
Inductive list_step : TickList T -> TickList T -> Prop :=
| step_schedule l type pos trigger prio order :
    next_insertion_order l < 2 ^ 64 - 1 ->
    list_step l (fst (schedule l type pos trigger prio order))
| step_schedule_pending l type pos prio :
    list_step l (fst (schedule_pending l type pos prio))
| step_remove_pending l predicate :
    list_step l (fst (remove_pending_matching l predicate))
| step_unpack l now :
    next_insertion_order l + Z.of_nat (length (pending_entries l)) < 2 ^ 64 ->
    list_step l (unpack l now)
| step_pop l now l' tick :
    pop_ready l now = Some (l', tick) -> list_step l l'.

Inductive list_initial : TickList T -> Prop :=
| initial_new : list_initial TickList_new
| initial_pending : list_initial TickList_new_pending
| initial_proto saved : list_initial (from_proto_saved_ticks saved)
| initial_saved saved : NoDup (saved_key <$> saved) -> list_initial (from_saved_ticks saved).

Definition list_reachable (l : TickList T) : Prop := exists l0, list_initial l0 /\ rtc list_step l0 l.

Lemma list_reachable_ok l : list_reachable l -> list_ok l.
Proof.
  intros (l0 & Hi & Hr). assert (list_ok l0) as Hok.
  { destruct Hi; auto using new_ok, new_pending_ok, from_proto_saved_ticks_ok, from_saved_ticks_ok. }
  clear Hi. induction Hr as [|l1 l2 l3 Hst _ IH]; [done|]. apply IH. destruct Hst.
  - by apply schedule_ok.
  - by apply schedule_saved_pending_ok.
  - by apply remove_pending_matching_ok.
  - by apply unpack_ok.
  - by eapply pop_ready_ok.
Qed.
End Invariant.

Abbreviation list_ok := (list_ok_with []).

(** ** Lemmas: draining *)

Section Draining.
Context {T : Type} `{TickKey T}.
Implicit Types l : TickList T.

Definition is_ready (now : Z) (q : QueuedTick T) : Prop := trigger_tick (qt_tick q) <= now.

#[global] Instance is_ready_dec now q : Decision (is_ready now q).
Proof. unfold is_ready. apply _. Defined.

(** Behind a tick that is not ready, none is. *)
Lemma sorted_not_ready now q (rest : list (QueuedTick T)) :
  StronglySorted before (q :: rest) -> ~ is_ready now q -> Forall (fun p => ~ is_ready now p) (q :: rest).
Proof.
  intros [_ Hq]%StronglySorted_inv Hn. constructor; [done|]. eapply Forall_impl; [exact Hq|].
  intros p Hp%before_iff. unfold drains_before, is_ready in *. lia.
Qed.

Lemma filter_none {A} (P : A -> Prop) `{!forall x, Decision (P x)} (xs : list A) :
  Forall (fun x => ~ P x) xs -> filter P xs = [].
Proof. induction 1; [done|]. by rewrite filter_cons_False. Qed.

Lemma filter_all {A} (P : A -> Prop) `{!forall x, Decision (P x)} (xs : list A) :
  Forall P xs -> filter P xs = xs.
Proof. induction 1; [done|]. rewrite filter_cons_True by done. by f_equal. Qed.

Lemma pop_ready_None l now :
  pop_ready l now = None -> ticks l = [] \/ exists q rest, ticks l = q :: rest /\ ~ is_ready now q.
Proof.
  unfold pop_ready, peek_ready, peek, is_ready. destruct (ticks l) as [|q rest]; simpl; [by left|].
  case Z.leb_spec; [done|]. intros Hlt _. right. exists q, rest. split; [done|lia].
Qed.

Lemma drain_loop_spec fuel l now l' ready :
  list_ok l -> (length (ticks l) <= fuel)%nat -> drain_loop fuel l now = (l', ready) ->
  ready = qt_tick <$> filter (is_ready now) (ticks l) /\
  ticks l' = filter (fun q => ~ is_ready now q) (ticks l) /\
  pending_ticks l' = pending_ticks l /\ list_ok l'.
Proof.
  revert l ready. induction fuel as [|fuel IH]; intros l ready Hok Hf; simpl.
  - intros [= <- <-]. destruct (ticks l); [done|simpl in Hf; lia].
  - destruct (pop_ready l now) as [[l1 tick]|] eqn:Ep.
    + pose proof (pop_ready_ok _ _ _ _ Hok Ep) as Hok1.
      apply pop_ready_Some in Ep as (q & rest & Et & -> & Hle & ->).
      destruct (drain_loop fuel _ now) as [l2 ready2] eqn:Ed. intros [= <- <-].
      apply IH in Ed as (-> & Ht & Hp & Hok2); [|done|rewrite Et in Hf; simpl in *; lia].
      rewrite Et. rewrite filter_cons_True by done. rewrite filter_cons_False by (intros Hn; by apply Hn). done.
    + intros [= <- <-]. apply pop_ready_None in Ep as [Et|(q & rest & Et & Hn)]; rewrite Et; [done|].
      pose proof (lo_sorted _ _ Hok) as Hs. rewrite Et in Hs. pose proof (sorted_not_ready _ _ _ Hs Hn).
      rewrite filter_none, (filter_all (fun q => ~ is_ready now q)) by done. done.
Qed.
End Draining.

(** ** Lemmas: saving and loading again *)

Section Reload.
Context {T : Type} `{TickKey T}.
Implicit Types l : TickList T.

Lemma sort_by_saved (xs : list (QueuedTick T)) :
  NoDup (insertion_order <$> xs) -> StronglySorted saved_before (sort_by save_order xs).
Proof.
  assert (Transitive (saved_before (T := T))) by (intros a b c; unfold saved_before; lia).
  induction xs as [|x xs IH]; simpl; intros Hnd; [constructor|].
  apply NoDup_cons in Hnd as [Hx Hnd]. apply sorted_insert_sorted; [done| | |by apply IH].
  - intros y. by rewrite save_order_Gt.
  - intros y Hy Hc. apply save_order_not_Gt; [|done]. rewrite sort_by_perm in Hy.
    intros E. apply Hx. rewrite E. by apply list_elem_of_fmap_2.
Qed.

(** The live tick that the [i]th of [n] saved ticks becomes. *)
Definition reload_tick (now now' : Z) (n i : nat) (q : QueuedTick T) : QueuedTick T :=
  mkQTick (unpack_tick now' n i (save_tick now q)) (Z.of_nat i).

Lemma foldl_push_sorted (h xs : list (QueuedTick T)) :
  StronglySorted before h -> NoDup (insertion_order <$> xs ++ h) ->
  StronglySorted before (foldl (fun h q => heap_push QueuedTick_cmp q h) h xs).
Proof.
  revert h. induction xs as [|x xs IH]; intros h Hs Hnd; simpl in *; [done|].
  apply NoDup_cons in Hnd as [Hx Hnd]. apply IH.
  - apply heap_push_sorted; try done; [tc_solve|intros y; by rewrite QueuedTick_cmp_Lt|].
    intros y Hy E%QueuedTick_cmp_Eq. apply Hx. rewrite E. apply list_elem_of_fmap_2. set_solver.
  - rewrite heap_push_perm, <- Permutation_middle. simpl. by constructor.
Qed.

Lemma foldl_push_queue l ts :
  0 <= next_insertion_order l -> next_insertion_order l + Z.of_nat (length ts) < 2 ^ 64 ->
  ticks (foldl push_unchecked l ts) =
  foldl (fun h q => heap_push QueuedTick_cmp q h) (ticks l)
    (imap (fun i t => mkQTick t (next_insertion_order l + Z.of_nat i)) ts).
Proof.
  revert l. induction ts as [|t ts IH]; intros l Hn0 Hn; simpl in *; [done|].
  rewrite IH; rewrite ?push_unchecked_next by lia; [|lia..]. rewrite Z.add_0_r. simpl. f_equal.
  apply imap_ext. intros i x _. simpl. f_equal. lia.
Qed.

(** The delay of every live tick fits its 32-bit field, and its new deadline fits 64 bits. *)
Definition delays_fit l (now now' : Z) : Prop :=
  Forall (fun q => in_s 32 (trigger_tick (qt_tick q) - now) /\
                   in_s 64 (now' + (trigger_tick (qt_tick q) - now))) (ticks l).

Lemma reload_trigger now now' n i q :
  in_s 32 (trigger_tick (qt_tick q) - now) /\ in_s 64 (now' + (trigger_tick (qt_tick q) - now)) ->
  trigger_tick (qt_tick (reload_tick now now' n i q)) = now' + (trigger_tick (qt_tick q) - now).
Proof.
  unfold in_s. simpl. intros [H32 H64].
  rewrite (i64_small (_ - _)) by lia. rewrite i32_small by lia. apply i64_small. lia.
Qed.

(** Saving in this order and loading again keeps every comparison of two ticks. *)
Lemma reload_cmp now now' n (xs : list (QueuedTick T)) i j a b :
  StronglySorted saved_before xs ->
  Forall (fun q => in_s 32 (trigger_tick (qt_tick q) - now) /\
                   in_s 64 (now' + (trigger_tick (qt_tick q) - now))) xs ->
  xs !! i = Some a -> xs !! j = Some b ->
  QueuedTick_cmp a b = QueuedTick_cmp (reload_tick now now' n i a) (reload_tick now now' n j b).
Proof.
  intros Hs Hf Ha Hb.
  assert (((i < j)%nat /\ saved_before a b) \/ (i = j /\ a = b) \/ ((j < i)%nat /\ saved_before b a)) as Hord.
  { destruct (Nat.lt_trichotomy i j) as [Hij|[->|Hij]].
    - left. split; [done|by eapply sorted_lookup].
    - right; left. split; congruence.
    - right; right. split; [done|by eapply sorted_lookup]. }
  rewrite Forall_lookup in Hf.
  apply QueuedTick_cmp_ext; rewrite !before_iff, !reload_trigger by eauto;
    unfold drains_before, saved_before in *; simpl; destruct Hord as [Hord|[[-> ->]|Hord]]; lia.
Qed.

Lemma reload_queue l now now' :
  list_ok l -> Z.of_nat (length (ticks l)) < 2 ^ 64 -> pending_ticks l = None -> delays_fit l now now' ->
  Forall2 (fun q q' => exists i, q' = reload_tick now now' (length (ticks l)) i q /\
             sort_by save_order (ticks l) !! i = Some q)
    (ticks l) (ticks (unpack (from_saved_ticks (pack l now)) now')).
Proof.
  intros Hok Hlen Hp Hfit. set (xs := sort_by save_order (ticks l)). set (n := length (ticks l)).
  assert (xs ≡ₚ ticks l) as Hperm by apply sort_by_perm.
  assert (pack l now = save_tick now <$> xs) as Hpack by (unfold pack, pending_entries; by rewrite Hp).
  assert (foldl (fun h q => heap_push QueuedTick_cmp q h) [] xs = ticks l) as <-.
  { apply (sorted_unique before); [|by apply lo_sorted in Hok|by rewrite foldl_push_perm, app_nil_r].
    apply foldl_push_sorted; [constructor|]. rewrite app_nil_r, Hperm. exact (lo_distinct _ _ Hok). }
  unfold unpack. simpl. rewrite foldl_push_queue; simpl; [|lia|].
  2: { rewrite length_imap, Hpack, length_fmap, Hperm. fold n. lia. }
  apply foldl_push_related; [| |constructor].
  - intros a a' b b' (i & -> & Hi) (j & -> & Hj). apply (reload_cmp now now' n xs); try done.
    + apply sort_by_saved. exact (lo_distinct _ _ Hok).
    + unfold delays_fit in Hfit. by rewrite <- Hperm in Hfit.
  - apply Forall2_same_length_lookup_2.
    + by rewrite !length_imap, Hpack, length_fmap.
    + intros i q q' Hq Hq'. exists i. split; [|done].
      rewrite !list_lookup_imap, Hpack, list_lookup_fmap, Hq in Hq'. simpl in Hq'.
      rewrite length_fmap, Hperm in Hq'. fold n in Hq'. by injection Hq' as <-.
Qed.
End Reload.

(** ** Lemmas: the execution batch *)

Section Batch.
Context {T : Type} `{TickKey T}.

Lemma build_lookup_spec initial (ts : list (ScheduledTick T)) k :
  match build_lookup initial ts !! k with
  | Some v => (initial <= v)%nat /\ (exists t, ts !! v = Some t /\ ScheduledTick_key t = k) /\
      (forall i t, ts !! i = Some t -> ScheduledTick_key t = k -> (initial <= i)%nat -> (i <= v)%nat)
  | None => forall i t, ts !! i = Some t -> ScheduledTick_key t = k -> (i < initial)%nat
  end.
Proof.
  unfold build_lookup.
  assert (forall xs, match foldl (fun m '(index, t) => <[ScheduledTick_key t := (initial + index)%nat]> m)
      (∅ : gmap ScheduledTickKey nat) (imap pair xs) !! k with
    | Some v => exists i, v = (initial + i)%nat /\ (exists t, xs !! i = Some t /\ ScheduledTick_key t = k) /\
        (forall j t, xs !! j = Some t -> ScheduledTick_key t = k -> (j <= i)%nat)
    | None => forall j t, xs !! j = Some t -> ScheduledTick_key t <> k
    end) as Hxs.
  { induction xs as [|x xs IH] using rev_ind; [simpl; by rewrite lookup_empty|].
    rewrite imap_app, foldl_app. simpl. rewrite Nat.add_0_r.
    destruct (decide (ScheduledTick_key x = k)) as [<-|Hne].
    - rewrite lookup_insert_eq. exists (length xs). split; [done|]. split.
      + exists x. split; [|done]. by rewrite lookup_app_r, Nat.sub_diag by lia.
      + intros j t Hj%lookup_lt_Some _. rewrite length_app in Hj. simpl in Hj. lia.
    - rewrite lookup_insert_ne by done. destruct (_ !! k) as [v|].
      + destruct IH as (i & -> & (t & Ht & Hk) & Hmax). exists i. split; [done|]. split.
        * exists t. split; [|done]. by apply lookup_app_l_Some.
        * intros j t' [Hj|[? [Hj ->]%list_lookup_singleton_Some]]%lookup_app_Some Hk'; [eauto|congruence].
      + intros j t' [Hj|[? [Hj ->]%list_lookup_singleton_Some]]%lookup_app_Some; [eauto|done]. }
  specialize (Hxs (drop initial ts)). destruct (_ !! k) as [v|].
  - destruct Hxs as (i & -> & (t & Ht & Hk) & Hmax). rewrite lookup_drop in Ht. split; [lia|].
    split; [by eauto|]. intros j t' Hj Hk' Hle.
    assert (drop initial ts !! (j - initial)%nat = Some t') as Hd
      by (rewrite lookup_drop; by replace (initial + (j - initial))%nat with j by lia).
    specialize (Hmax _ _ Hd Hk'). lia.
  - intros i t Hi Hk. destruct (decide (i < initial)%nat) as [|Hge]; [done|]. exfalso.
    apply (Hxs (i - initial)%nat t); [|done]. rewrite lookup_drop.
    by replace (initial + (i - initial))%nat with i by lia.
Qed.

(** The executor starts the ticks in order and callbacks query the batch. *)
Inductive batch_step : ScheduledTickRunBatch T -> ScheduledTickRunBatch T -> Prop :=
| step_start b index b' :
    (rb_next_index b <= index)%nat -> RunBatch_start b index = Some b' -> batch_step b b'
| step_contains b pos type : batch_step b (fst (RunBatch_contains b pos type)).

Definition batch_ok (ts : list (ScheduledTick T)) (b : ScheduledTickRunBatch T) : Prop :=
  rb_ticks b = ts /\
  match rb_lookup b with
  | None => True
  | Some m => exists initial, (initial <= rb_next_index b)%nat /\ m = build_lookup initial ts
  end.

Lemma batch_reachable_ok ts b : rtc batch_step (RunBatch_new ts) b -> batch_ok ts b.
Proof.
  assert (batch_ok ts (RunBatch_new ts)) as Hok by done. revert Hok. generalize (RunBatch_new ts).
  intros b0 Hok Hr. induction Hr as [|b1 b2 b3 Hst _ IH]; [done|]. apply IH. clear IH.
  destruct Hok as [Ht Hl]. destruct Hst as [b index b' Hle Hs|b pos type].
  - unfold RunBatch_start in Hs. destruct (index <? _)%nat; [|done]. injection Hs as <-. split; [done|].
    simpl. destruct (rb_lookup b); [|done]. destruct Hl as (i & Hi & ->). exists i. split; [lia|done].
  - unfold RunBatch_contains. destruct (_ <=? _)%nat; [done|]. split; [done|]. simpl.
    destruct (rb_lookup b) as [m|]; simpl; [done|]. exists (rb_next_index b). by rewrite Ht.
Qed.

Lemma contains_spec ts b pos type :
  batch_ok ts b ->
  (snd (RunBatch_contains b pos type) = true <->
   exists i t, (rb_next_index b <= i)%nat /\ ts !! i = Some t /\
     ScheduledTick_key t = (pos, tick_key type)).
Proof.
  intros [Ht Hl]. unfold RunBatch_contains. rewrite Ht. case Nat.leb_spec; intros Hlen; simpl.
  { split; [done|]. intros (i & t & Hi & Hit%lookup_lt_Some & _). lia. }
  assert (exists initial, (initial <= rb_next_index b)%nat /\
    default (build_lookup (rb_next_index b) ts) (rb_lookup b) = build_lookup initial ts) as (initial & Hi & ->).
  { destruct (rb_lookup b); [done|]. by eexists. }
  pose proof (build_lookup_spec initial ts (pos, tick_key type)) as Hspec.
  destruct (_ !! _) as [v|].
  - destruct Hspec as (Hv & (t & Htv & Hk) & Hmax). rewrite Nat.leb_le. split; [by eauto|].
    intros (i & t' & Hi' & Hti & Hk'). specialize (Hmax i t' Hti Hk'). lia.
  - split; [done|]. intros (i & t & Hi' & Hti & Hk). specialize (Hspec i t Hti Hk). lia.
Qed.
End Batch.

(** ** Properties *)

#[local] Instance example_tick_key : TickKey Z := fun z => z.

(** A list with two live ticks of the same deadline and one of an earlier one. *)
Definition example_list : TickList Z :=
  fst (schedule (fst (schedule (fst (schedule TickList_new 7 (mkBlockPos 1 2 3) 30 Normal 0))
    8 (mkBlockPos 1 2 3) 30 High 1)) 7 (mkBlockPos 4 5 6) 20 Normal 2).

Lemma example_list_reachable : list_reachable example_list.
Proof.
  exists TickList_new. split; [constructor|]. unfold example_list.
  repeat (eapply rtc_r; [|apply step_schedule; vm_compute; reflexivity]). constructor.
Qed.

Lemma example_list_delays : delays_fit example_list 10 1000.
Proof. unfold delays_fit. refine (bool_decide_eq_true_1 _ _). vm_compute. reflexivity. Qed.

(** One tick per position and type: in every reachable list the keys of the pending
    and live entries are pairwise different, [has_tick] tells exactly whether an entry
    with the key exists, and [schedule] adds a tick exactly when none exists. *)
Theorem tick_list_one_per_key `{TickKey T} (l : TickList T) pos type :
  list_reachable l ->
  NoDup (entry_keys l) /\
  (has_tick l pos type = true <-> (pos, tick_key type) ∈ entry_keys l) /\
  (forall trigger prio order,
     snd (schedule l type pos trigger prio order) = negb (has_tick l pos type) /\
     has_tick (fst (schedule l type pos trigger prio order)) pos type = true).
Proof.
  intros Hok%list_reachable_ok. split; [exact (lo_unique _ _ Hok)|]. split.
  { unfold has_tick. rewrite bool_decide_eq_true. by apply list_ok_scheduled. }
  intros trigger prio order. unfold schedule, has_tick.
  destruct (decide ((pos, tick_key type) ∈ scheduled l)) as [Hin|Hout].
  - rewrite insert_key_old by done. simpl. by rewrite !bool_decide_eq_true_2.
  - rewrite insert_key_fresh by done. simpl. rewrite bool_decide_eq_false_2 by done. split; [done|].
    apply bool_decide_eq_true_2. set_solver.
Qed.

Lemma tick_list_one_per_key_witness :
  NoDup (entry_keys example_list) /\
  (has_tick example_list (mkBlockPos 1 2 3) 8 = true <-> (mkBlockPos 1 2 3, 8) ∈ entry_keys example_list).
Proof.
  destruct (tick_list_one_per_key example_list (mkBlockPos 1 2 3) 8 example_list_reachable) as (H1 & H2 & _).
  split; [exact H1|exact H2].
Defined.

(** Draining a reachable list at a game time returns exactly its ready ticks, each
    once, ordered by deadline, priority and sub-tick order with ties in insertion order
    (the order [before]), and leaves exactly the ticks that are not ready; pending
    entries do not move. *)
Theorem drain_ready_exact `{TickKey T} (l : TickList T) now l' ready :
  list_reachable l -> drain_ready l now = (l', ready) ->
  ready = qt_tick <$> filter (is_ready now) (ticks l) /\
  ticks l' = filter (fun q => ~ is_ready now q) (ticks l) /\
  StronglySorted before (ticks l) /\ pending_ticks l' = pending_ticks l /\
  (forall tick, tick ∈ ready -> has_tick l' (tick_pos tick) (tick_type tick) = false).
Proof.
  intros Hok%list_reachable_ok Hd.
  destruct (drain_loop_spec _ _ _ _ _ Hok (Nat.le_refl _) Hd) as (-> & Ht & Hp & Hok').
  split_and!; [done|done|exact (lo_sorted _ _ Hok)|done|].
  intros tick (q & -> & [Hr Hq]%list_elem_of_filter)%list_elem_of_fmap.
  apply bool_decide_eq_false_2. change (ScheduledTick_key (qt_tick q) ∉ scheduled l').
  rewrite (list_ok_scheduled l') by done. pose proof (lo_unique _ _ Hok) as Hu. simpl in Hu.
  unfold entry_keys, pending_entries in *. rewrite Hp, Ht.
  apply NoDup_app in Hu as (_ & Hdis & Hnd). intros [Hin|Hin]%elem_of_app.
  - apply (Hdis _ Hin). by apply (list_elem_of_fmap_2 (fun q => ScheduledTick_key (qt_tick q))).
  - apply list_elem_of_fmap in Hin as (q' & Heq & [Hn Hq']%list_elem_of_filter).
    assert (q = q') as <-; [|done]. by eapply (NoDup_fmap_elem_inj (fun q => ScheduledTick_key (qt_tick q))).
Qed.

Lemma drain_ready_exact_witness :
  qt_tick <$> filter (is_ready 25) (ticks example_list) = [mkTick 7 (mkBlockPos 4 5 6) 20 Normal 2] /\
  StronglySorted before (ticks example_list).
Proof.
  destruct (drain_ready_exact example_list 25 _ _ example_list_reachable eq_refl) as (H1 & _ & H2 & _).
  split; [rewrite <- H1; vm_compute; reflexivity|exact H2].
Defined.

(** Saved ticks survive a reload: packing the live ticks of a reachable list at one
    game time, loading the saved list and unpacking it at another gives the same ticks
    in the same drain order, each with the remaining delay and priority it was saved
    with, although sub-tick orders and insertion orders are assigned anew. *)
Theorem saved_ticks_reload_in_order `{TickKey T} (l : TickList T) now now' :
  list_reachable l -> pending_ticks l = None -> Z.of_nat (length (ticks l)) < 2 ^ 64 ->
  delays_fit l now now' ->
  let reloaded := unpack (from_saved_ticks (pack l now)) now' in
  (fun q => (tick_type (qt_tick q), tick_pos (qt_tick q), trigger_tick (qt_tick q) - now',
             priority (qt_tick q))) <$> ticks reloaded =
  (fun q => (tick_type (qt_tick q), tick_pos (qt_tick q), trigger_tick (qt_tick q) - now,
             priority (qt_tick q))) <$> ticks l.
Proof.
  intros Hok%list_reachable_ok Hp Hlen Hfit. simpl.
  pose proof (reload_queue l now now' Hok Hlen Hp Hfit) as Hq.
  symmetry. eapply Forall2_fmap_eq; [|exact Hq]. intros q q' Hin (i & -> & _).
  unfold delays_fit in Hfit. rewrite Forall_forall in Hfit. rewrite reload_trigger by auto.
  simpl. f_equal. f_equal. lia.
Qed.

Lemma saved_ticks_reload_in_order_witness :
  (fun q => (tick_type (qt_tick q), trigger_tick (qt_tick q) - 1000)) <$>
    ticks (unpack (from_saved_ticks (pack example_list 10)) 1000) = [(7, 10); (8, 20); (7, 20)] /\
  (fun q => (tick_type (qt_tick q), tick_pos (qt_tick q), trigger_tick (qt_tick q) - 1000,
             priority (qt_tick q))) <$> ticks (unpack (from_saved_ticks (pack example_list 10)) 1000) =
  (fun q => (tick_type (qt_tick q), tick_pos (qt_tick q), trigger_tick (qt_tick q) - 10,
             priority (qt_tick q))) <$> ticks example_list.
Proof.
  split; [vm_compute; reflexivity|].
  apply (saved_ticks_reload_in_order example_list 10 1000 example_list_reachable).
  - reflexivity.
  - vm_compute. reflexivity.
  - exact example_list_delays.
Defined.

(** While a batch runs, [contains] answers whether a tick of the key is still to
    come: for the ticks started in order and any queries in between, it is true exactly
    when a tick at or after the next index has the position and type, whenever the
    lookup table was built. *)
Theorem run_batch_contains_exact `{TickKey T} (ts : list (ScheduledTick T)) b pos type :
  rtc batch_step (RunBatch_new ts) b ->
  (snd (RunBatch_contains b pos type) = true <->
   exists i t, (rb_next_index b <= i)%nat /\ ts !! i = Some t /\
     ScheduledTick_key t = (pos, tick_key type)).
Proof. intros Hr. apply contains_spec. by apply batch_reachable_ok. Qed.

Lemma run_batch_contains_exact_witness :
  let ts := [mkTick 7 (mkBlockPos 4 5 6) 20 Normal 2; mkTick 8 (mkBlockPos 1 2 3) 30 High 1] in
  let b := mkRunBatch ts 1 None in
  (snd (RunBatch_contains b (mkBlockPos 4 5 6) 7) = true <->
   exists i t, (rb_next_index b <= i)%nat /\ ts !! i = Some t /\
     ScheduledTick_key t = (mkBlockPos 4 5 6, tick_key 7)).
Proof.
  intros ts b. apply (run_batch_contains_exact ts b (mkBlockPos 4 5 6) 7).
  eapply rtc_l; [|apply rtc_refl]. apply (step_start _ 0); [simpl; lia|reflexivity].
Defined.
