(* ===== verification/TickScheduler.v ===== *)
(** * The world's tick scheduler

    Models the chunk tick containers of [steel-core/src/world/tick_scheduler/mod.rs] and
    the world index of [scheduler.rs]: registration of Full chunks, unpacking, live
    scheduling, reconciliation of the active chunks and the collection of a batch of
    ready ticks.

    A container is shared ([Arc]) between its chunk and the index, so the containers
    live in a store and both refer to them by identity; [Arc::ptr_eq] compares
    identities.  Every operation runs under the phase lock and the locks of the state it
    touches and is one step of the model.  Block and fluid queues are treated alike by
    the source; a [TickKind] selects the queue.  [None] is a panic (a failed assertion);
    errors are values. *)

From S2P Require Import Prelude Positions TickList.

Inductive TickKind := KindBlock | KindFluid.

#[global] Instance TickKind_eq_dec : EqDecision TickKind.
Proof. solve_decision. Defined.

Inductive ChunkTickContainerLifecycle := Proto | PrePublication | Registered | Finalized.

#[global] Instance ChunkTickContainerLifecycle_eq_dec : EqDecision ChunkTickContainerLifecycle.
Proof. solve_decision. Defined.

Inductive TickSchedulerError :=
| AlreadyRegistered (pos : ChunkPos)
| MissingContainer (pos : ChunkPos)
| ContainerMismatch (pos : ChunkPos).

(** ** Deadline sets *)

Definition deadline_cmp (a b : Z * Z) : comparison :=
  then_with (Z.compare (fst a) (fst b)) (Z.compare (snd a) (snd b)).

(** A [BTreeSet] by its elements in order; the flag tells whether the set changed. *)
Definition btree_insert (x : Z * Z) (s : list (Z * Z)) : list (Z * Z) * bool :=
  if decide (x ∈ s) then (s, false) else (sorted_insert deadline_cmp x s, true).

Definition btree_remove (x : Z * Z) (s : list (Z * Z)) : list (Z * Z) * bool :=
  (filter (fun y => y <> x) s, bool_decide (x ∈ s)).

(** ** The world index *)

Record ActiveChunkRank := mkActive { ac_generation : Z; ac_rank : nat }.

Record RegisteredChunkTicks := mkRegistered {
  reg_container : Z;
  block_head : option Z;
  fluid_head : option Z;
  reg_active : option ActiveChunkRank;
}.

Definition reg_head (k : TickKind) (r : RegisteredChunkTicks) : option Z :=
  match k with KindBlock => block_head r | KindFluid => fluid_head r end.

Definition reg_set_head (k : TickKind) (t : option Z) (r : RegisteredChunkTicks)
  : RegisteredChunkTicks :=
  match k with
  | KindBlock => mkRegistered (reg_container r) t (fluid_head r) (reg_active r)
  | KindFluid => mkRegistered (reg_container r) (block_head r) t (reg_active r)
  end.

Definition active_rank (r : RegisteredChunkTicks) (generation : Z) : option nat :=
  match reg_active r with
  | Some a => if ac_generation a =? generation then Some (ac_rank a) else None
  | None => None
  end.

Record WorldTickSchedulerState := mkIndex {
  ix_chunks : gmap ChunkPos RegisteredChunkTicks;
  active_block_deadlines : list (Z * Z);
  active_fluid_deadlines : list (Z * Z);
  active_generation : Z;
}.

Definition deadlines (k : TickKind) (s : WorldTickSchedulerState) : list (Z * Z) :=
  match k with KindBlock => active_block_deadlines s | KindFluid => active_fluid_deadlines s end.

Definition set_deadlines (k : TickKind) (d : list (Z * Z)) (s : WorldTickSchedulerState)
  : WorldTickSchedulerState :=
  match k with
  | KindBlock => mkIndex (ix_chunks s) d (active_fluid_deadlines s) (active_generation s)
  | KindFluid => mkIndex (ix_chunks s) (active_block_deadlines s) d (active_generation s)
  end.

Definition set_chunks (c : gmap ChunkPos RegisteredChunkTicks) (s : WorldTickSchedulerState)
  : WorldTickSchedulerState :=
  mkIndex c (active_block_deadlines s) (active_fluid_deadlines s) (active_generation s).

Definition clear_active (r : RegisteredChunkTicks) : RegisteredChunkTicks :=
  mkRegistered (reg_container r) (block_head r) (fluid_head r) None.

Definition advance_active_generation (s : WorldTickSchedulerState) : WorldTickSchedulerState :=
  match checked_addu 64 (active_generation s) 1 with
  | Some generation =>
      mkIndex (ix_chunks s) (active_block_deadlines s) (active_fluid_deadlines s) generation
  | None =>
      mkIndex (clear_active <$> ix_chunks s) (active_block_deadlines s) (active_fluid_deadlines s) 1
  end.

(** The two asserted updates of a deadline set. *)
Definition remove_deadline (k : TickKind) (x : Z * Z) (s : WorldTickSchedulerState)
  : option WorldTickSchedulerState :=
  let '(d, removed) := btree_remove x (deadlines k s) in
  if removed then Some (set_deadlines k d s) else None.

Definition insert_deadline (k : TickKind) (x : Z * Z) (s : WorldTickSchedulerState)
  : option WorldTickSchedulerState :=
  let '(d, inserted) := btree_insert x (deadlines k s) in
  if inserted then Some (set_deadlines k d s) else None.

(** The head of an active container leaves, or enters, the deadline set. *)
Definition drop_head (k : TickKind) (active : bool) (head : option Z) (packed : Z)
  (s : WorldTickSchedulerState) : option WorldTickSchedulerState :=
  match head with
  | Some h => if active then remove_deadline k (h, packed) s else Some s
  | None => Some s
  end.

Definition index_head (k : TickKind) (active : bool) (head : option Z) (packed : Z)
  (s : WorldTickSchedulerState) : option WorldTickSchedulerState :=
  match head with
  | Some h => if active then insert_deadline k (h, packed) s else Some s
  | None => Some s
  end.

Definition set_head (s : WorldTickSchedulerState) (pos : ChunkPos) (k : TickKind)
  (trigger : option Z) : option (result WorldTickSchedulerState TickSchedulerError) :=
  match ix_chunks s !! pos with
  | None => Some (Err (MissingContainer pos))
  | Some registered =>
      let active := bool_decide (is_Some (active_rank registered (active_generation s))) in
      let previous := reg_head k registered in
      if decide (previous = trigger) then Some (Ok s)
      else
        let packed := PackedChunkPos_from pos in
        s ← drop_head k active previous packed s;
        match ix_chunks s !! pos with
        | None => Some (Err (MissingContainer pos))
        | Some registered =>
            let s := set_chunks (<[pos := reg_set_head k trigger registered]> (ix_chunks s)) s in
            s ← index_head k active trigger packed s;
            Some (Ok s)
        end
  end.

Record ActiveTickContainer := mkDue { due_pos : ChunkPos; due_rank : nat; due_container : Z }.

(** Every round removes a deadline, so their number is enough fuel. *)
Fixpoint take_due_loop (fuel : nat) (s : WorldTickSchedulerState) (k : TickKind) (now : Z)
  : option (WorldTickSchedulerState * list ActiveTickContainer) :=
  match fuel, deadlines k s with
  | S fuel', (trigger, packed) :: rest =>
      if now <? trigger then Some (s, [])
      else
        let s := set_deadlines k rest s in
        let pos := PackedChunkPos_to_chunk_pos packed in
        registered ← ix_chunks s !! pos;
        if decide (reg_head k registered = Some trigger) then
          rank ← active_rank registered (active_generation s);
          let s := set_chunks (<[pos := reg_set_head k None registered]> (ix_chunks s)) s in
          '(s, due) ← take_due_loop fuel' s k now;
          Some (s, mkDue pos rank (reg_container registered) :: due)
        else None
  | _, _ => Some (s, [])
  end.

Definition take_due (s : WorldTickSchedulerState) (k : TickKind) (now : Z)
  : option (WorldTickSchedulerState * list ActiveTickContainer) :=
  take_due_loop (length (deadlines k s)) s k now.

(** A registered chunk becomes active: the rest of the loop body of
    [reconcile_active_chunks]. *)
Definition activate_chunk (s : WorldTickSchedulerState) (rank : nat) (pos : ChunkPos)
  (registered : RegisteredChunkTicks) : option WorldTickSchedulerState :=
  if decide (is_Some (active_rank registered (active_generation s))) then None
  else
    let active := Some (mkActive (active_generation s) rank) in
    let s := set_chunks (<[pos := mkRegistered (reg_container registered) (block_head registered)
                                   (fluid_head registered) active]> (ix_chunks s)) s in
    let packed := PackedChunkPos_from pos in
    s ← index_head KindBlock true (block_head registered) packed s;
    index_head KindFluid true (fluid_head registered) packed s.

Fixpoint activate_loop (s : WorldTickSchedulerState) (rank : nat) (active : list ChunkPos)
  : option (WorldTickSchedulerState * result unit TickSchedulerError) :=
  match active with
  | [] => Some (s, Ok ())
  | pos :: rest =>
      match ix_chunks s !! pos with
      | None => Some (s, Err (MissingContainer pos))
      | Some registered =>
          s ← activate_chunk s rank pos registered; activate_loop s (S rank) rest
      end
  end.

Definition reconcile_active_chunks (s : WorldTickSchedulerState) (active : list ChunkPos)
  : option (WorldTickSchedulerState * result unit TickSchedulerError) :=
  match filter (fun pos => ix_chunks s !! pos = None) active with
  | pos :: _ => Some (s, Err (MissingContainer pos))
  | [] =>
      let s := mkIndex (ix_chunks s) [] [] (active_generation s) in
      activate_loop (advance_active_generation s) 0 active
  end.

(** ** Containers *)

Section Containers.
Context {B F : Type} `{!TickKey B, !TickKey F}.

Record ChunkTickLists := mkLists { block_list : TickList B; fluid_list : TickList F }.

Definition tick_of (k : TickKind) : Type := match k with KindBlock => B | KindFluid => F end.

#[global] Instance tick_of_key k : TickKey (tick_of k) :=
  match k with KindBlock => tick_key (T := B) | KindFluid => tick_key (T := F) end.

(** [block], [fluid] and their mutable versions. *)
Definition select (k : TickKind) (l : ChunkTickLists) : TickList (tick_of k) :=
  match k with KindBlock => block_list l | KindFluid => fluid_list l end.

Definition update (k : TickKind) : TickList (tick_of k) -> ChunkTickLists -> ChunkTickLists :=
  match k with
  | KindBlock => fun t l => mkLists t (fluid_list l)
  | KindFluid => fun t l => mkLists (block_list l) t
  end.

Record ChunkTickContainerState := mkContainer {
  lifecycle : ChunkTickContainerLifecycle;
  lists : ChunkTickLists;
}.

Definition ChunkTickContainer_new (l : ChunkTickLists) : ChunkTickContainerState :=
  mkContainer PrePublication l.
Definition ChunkTickContainer_new_proto (l : ChunkTickLists) : ChunkTickContainerState :=
  mkContainer Proto l.

Definition promote_to_full (c : ChunkTickContainerState) : ChunkTickContainerState * bool :=
  if decide (lifecycle c = Proto) then (mkContainer PrePublication (lists c), true) else (c, false).

Definition with_list (k : TickKind) (c : ChunkTickContainerState) (t : TickList (tick_of k))
  : ChunkTickContainerState := mkContainer (lifecycle c) (update k t (lists c)).

Definition schedule_unregistered (k : TickKind) (c : ChunkTickContainerState) (type : tick_of k)
  (pos : BlockPos) (trigger : Z) (prio : TickPriority) (order : Z)
  : ChunkTickContainerState * option bool :=
  if decide (lifecycle c = PrePublication) then
    let '(t, added) := schedule (select k (lists c)) type pos trigger prio order in
    (with_list k c t, Some added)
  else (c, None).

Definition container_schedule_pending (k : TickKind) (c : ChunkTickContainerState)
  (type : tick_of k) (pos : BlockPos) (prio : TickPriority)
  : ChunkTickContainerState * option bool :=
  if decide (lifecycle c = Proto) then
    let '(t, added) := schedule_pending (select k (lists c)) type pos prio in
    (with_list k c t, Some added)
  else (c, None).

Definition pending_snapshot (k : TickKind) (c : ChunkTickContainerState)
  : option (list (SavedTick (tick_of k))) :=
  if decide (lifecycle c = Proto) then Some (pending_entries (select k (lists c))) else None.

Definition remove_pending_blocks_matching (c : ChunkTickContainerState)
  (predicate : SavedTick B -> bool) : ChunkTickContainerState * option nat :=
  if decide (lifecycle c = Proto) then
    let '(t, n) := remove_pending_matching (block_list (lists c)) predicate in
    (mkContainer (lifecycle c) (mkLists t (fluid_list (lists c))), Some n)
  else (c, None).

Definition container_has (k : TickKind) (c : ChunkTickContainerState) (pos : BlockPos)
  (type : tick_of k) : option bool :=
  if decide (lifecycle c = Finalized) then None else Some (has_tick (select k (lists c)) pos type).

Definition container_snapshot (c : ChunkTickContainerState) (now : Z)
  : option (list (SavedTick B) * list (SavedTick F)) :=
  if decide (lifecycle c = Finalized) then None
  else Some (pack (block_list (lists c)) now, pack (fluid_list (lists c)) now).

(** ** The world scheduler *)

Record FullChunkRef := mkChunkRef { chunk_pos : ChunkPos; chunk_container : Z }.

Record WorldTickScheduler := mkScheduler {
  containers : gmap Z ChunkTickContainerState;
  next_order : Z;
  index : WorldTickSchedulerState;
}.

Definition WorldTickScheduler_new (cs : gmap Z ChunkTickContainerState) : WorldTickScheduler :=
  mkScheduler cs 0 (mkIndex ∅ [] [] 0).

Definition set_index (w : WorldTickScheduler) (s : WorldTickSchedulerState) : WorldTickScheduler :=
  mkScheduler (containers w) (next_order w) s.

Definition set_container (w : WorldTickScheduler) (id : Z) (c : ChunkTickContainerState)
  : WorldTickScheduler := mkScheduler (<[id := c]> (containers w)) (next_order w) (index w).

Definition next_sub_tick_order (w : WorldTickScheduler) : WorldTickScheduler * Z :=
  (mkScheduler (containers w) (i64 (next_order w + 1)) (index w), next_order w).

(** [peek().map(|tick| tick.trigger_tick)] *)
Definition list_head (k : TickKind) (c : ChunkTickContainerState) : option Z :=
  trigger_tick <$> peek (select k (lists c)).

Definition register_chunk (w : WorldTickScheduler) (chunk : FullChunkRef)
  : option (WorldTickScheduler * result unit TickSchedulerError) :=
  c ← containers w !! chunk_container chunk;
  if decide (lifecycle c = PrePublication) then
    match ix_chunks (index w) !! chunk_pos chunk with
    | Some _ => Some (w, Err (AlreadyRegistered (chunk_pos chunk)))
    | None =>
        let s := set_chunks (<[chunk_pos chunk :=
          mkRegistered (chunk_container chunk) (list_head KindBlock c) (list_head KindFluid c) None]>
          (ix_chunks (index w))) (index w) in
        Some (set_container (set_index w s) (chunk_container chunk) (mkContainer Registered (lists c)),
              Ok ())
    end
  else Some (w, Err (AlreadyRegistered (chunk_pos chunk))).

(** The checked head update that ends [unpack_chunk] and [schedule_block]; a failed
    lookup or comparison is returned as the error. *)
Definition update_head (w : WorldTickScheduler) (chunk : FullChunkRef) (k : TickKind)
  (head : option Z) : option (WorldTickScheduler * result unit TickSchedulerError) :=
  match ix_chunks (index w) !! chunk_pos chunk with
  | None => Some (w, Err (MissingContainer (chunk_pos chunk)))
  | Some registered =>
      if decide (reg_container registered = chunk_container chunk) then
        r ← set_head (index w) (chunk_pos chunk) k head;
        match r with
        | Ok s => Some (set_index w s, Ok ())
        | Err e => Some (w, Err e)
        end
      else Some (w, Err (ContainerMismatch (chunk_pos chunk)))
  end.

Definition unpack_chunk (w : WorldTickScheduler) (pos : ChunkPos) (now : Z)
  : option (WorldTickScheduler * result unit TickSchedulerError) :=
  match ix_chunks (index w) !! pos with
  | None => Some (w, Err (MissingContainer pos))
  | Some registered =>
      let id := reg_container registered in
      c ← containers w !! id;
      if decide (lifecycle c = Registered) then
        let c := mkContainer Registered
                   (mkLists (unpack (block_list (lists c)) now) (unpack (fluid_list (lists c)) now)) in
        let w := set_container w id c in
        '(w, r) ← update_head w (mkChunkRef pos id) KindBlock (list_head KindBlock c);
        match r with
        | Err e => Some (w, Err e)
        | Ok _ => update_head w (mkChunkRef pos id) KindFluid (list_head KindFluid c)
        end
      else Some (w, Err (MissingContainer pos))
  end.

Definition unregister_chunk (w : WorldTickScheduler) (pos : ChunkPos) : option WorldTickScheduler :=
  let s := index w in
  match ix_chunks s !! pos with
  | None => Some w
  | Some registered =>
      let packed := PackedChunkPos_from pos in
      let active := bool_decide (is_Some (active_rank registered (active_generation s))) in
      let s := set_chunks (delete pos (ix_chunks s)) s in
      s ← drop_head KindBlock active (block_head registered) packed s;
      s ← drop_head KindFluid active (fluid_head registered) packed s;
      c ← containers w !! reg_container registered;
      Some (set_container (set_index w s) (reg_container registered) (mkContainer Finalized (lists c)))
  end.

(** [schedule_block] and [schedule_fluid]. *)
Definition schedule_tick (k : TickKind) (w : WorldTickScheduler) (chunk : FullChunkRef)
  (type : tick_of k) (pos : BlockPos) (trigger : Z) (prio : TickPriority) (order : Z)
  : option (WorldTickScheduler * result bool TickSchedulerError) :=
  c ← containers w !! chunk_container chunk;
  if decide (lifecycle c = PrePublication) then
    let '(t, added) := schedule (select k (lists c)) type pos trigger prio order in
    Some (set_container w (chunk_container chunk) (with_list k c t), Ok added)
  else if decide (lifecycle c = Finalized) then
    Some (w, Err (MissingContainer (chunk_pos chunk)))
  else
    let previous_head := list_head k c in
    let '(t, added) := schedule (select k (lists c)) type pos trigger prio order in
    let c := with_list k c t in
    let w := set_container w (chunk_container chunk) c in
    if negb added then Some (w, Ok false)
    else if decide (list_head k c = previous_head) then Some (w, Ok true)
    else
      '(w, r) ← update_head w chunk k (list_head k c);
      match r with Ok _ => Some (w, Ok true) | Err e => Some (w, Err e) end.

Definition reconcile (w : WorldTickScheduler) (active : list ChunkPos)
  : option (WorldTickScheduler * result unit TickSchedulerError) :=
  '(s, r) ← reconcile_active_chunks (index w) active; Some (set_index w s, r).
(** ** Collecting a batch *)

Record ReadyContainer := mkReady {
  rc_pos : ChunkPos;
  rc_rank : nat;
  rc_container : Z;
  rc_priority : TickPriority;
  rc_order : Z;
  dirty_reported : bool;
}.

Definition ReadyContainer_cmp (self other : ReadyContainer) : comparison :=
  then_with (CompOpp (intra_tick_drain_order (rc_priority self) (rc_order self)
                        (rc_priority other) (rc_order other)))
    (Nat.compare (rc_rank other) (rc_rank self)).

Definition ReadyContainer_new {T} (a : ActiveTickContainer) (tick : ScheduledTick T) (dirty : bool)
  : ReadyContainer :=
  mkReady (due_pos a) (due_rank a) (due_container a) (priority tick) (sub_tick_order tick) dirty.

Definition ReadyContainer_refresh {T} (r : ReadyContainer) (tick : ScheduledTick T) (dirty : bool)
  : ReadyContainer :=
  mkReady (rc_pos r) (rc_rank r) (rc_container r) (priority tick) (sub_tick_order tick) dirty.

Abbreviation TickHeadUpdate := (ChunkPos * option Z)%type.
Abbreviation container_store := (gmap Z ChunkTickContainerState).

(** The queue of a container that must be registered. *)
Definition registered_queue (k : TickKind) (cs : container_store) (id : Z)
  : option (ChunkTickContainerState * TickList (tick_of k)) :=
  c ← cs !! id;
  if decide (lifecycle c = Registered) then Some (c, select k (lists c)) else None.

(** The loop body of [prepare_ready_containers]. *)
Definition prepare_one (k : TickKind) (cs : container_store) (now : Z) (a : ActiveTickContainer)
  (st : list ReadyContainer * list TickHeadUpdate)
  : option (list ReadyContainer * list TickHeadUpdate) :=
  let '(heap, updates) := st in
  '(_, queue) ← registered_queue k cs (due_container a);
  match peek queue with
  | Some tick =>
      if trigger_tick tick <=? now
      then Some (heap_push ReadyContainer_cmp (ReadyContainer_new a tick false) heap, updates)
      else Some (heap, updates ++ [(due_pos a, Some (trigger_tick tick))])
  | None => Some (heap, updates ++ [(due_pos a, None)])
  end.

Definition prepare_ready_containers (k : TickKind) (cs : container_store) (now : Z)
  (due : list ActiveTickContainer) : option (list ReadyContainer * list TickHeadUpdate) :=
  for_each due (prepare_one k cs now) ([], []).

(** The inner loop: the current container is drained while its head is no later than the
    best competitor; [budget] is [max_ticks - ticks.len()]. *)
Fixpoint drain_current {T} `{TickKey T} (budget : nat) (queue : TickList T) (now : Z)
  (competitor : option (TickPriority * Z)) : TickList T * list (ScheduledTick T) :=
  match budget with
  | O => (queue, [])
  | S budget' =>
      match peek_ready queue now with
      | None => (queue, [])
      | Some next_tick =>
          if match competitor with
             | Some (prio, order) =>
                 bool_decide (intra_tick_drain_order (priority next_tick) (sub_tick_order next_tick)
                                prio order = Gt)
             | None => false
             end
          then (queue, [])
          else
            match pop_ready queue now with
            | None => (queue, [])
            | Some (queue, tick) =>
                let '(queue, ts) := drain_current budget' queue now competitor in
                (queue, tick :: ts)
            end
      end
  end.

(** The state of [collect_registered_ticks]. *)
Record collection (k : TickKind) := mkCollection {
  co_store : container_store;
  co_heap : list ReadyContainer;
  co_updates : list TickHeadUpdate;
  co_ticks : list (ScheduledTick (tick_of k));
  co_changed : list nat;
}.
Arguments mkCollection {k} _ _ _ _ _.
Arguments co_store {k} _.
Arguments co_heap {k} _.
Arguments co_updates {k} _.
Arguments co_ticks {k} _.
Arguments co_changed {k} _.

(** The body of the outer loop, for the container popped from the heap. *)
Definition collect_one (k : TickKind) (now : Z) (max_ticks : nat) (r : ReadyContainer)
  (heap : list ReadyContainer) (st : collection k) : option (collection k) :=
  '(c, queue) ← registered_queue k (co_store st) (rc_container r);
  match pop_ready queue now with
  | None =>
      Some (mkCollection (co_store st) heap
              (co_updates st ++ [(rc_pos r, trigger_tick <$> peek queue)]) (co_ticks st) (co_changed st))
  | Some (queue, tick) =>
      let changed := if dirty_reported r then co_changed st else co_changed st ++ [rc_rank r] in
      let ticks := co_ticks st ++ [tick] in
      let competitor := (fun c => (rc_priority c, rc_order c)) <$> head heap in
      let '(queue, more) := drain_current (max_ticks - length ticks) queue now competitor in
      let ticks := ticks ++ more in
      let store := <[rc_container r := with_list k c queue]> (co_store st) in
      match peek queue with
      | Some next_tick =>
          if (length ticks <? max_ticks)%nat && (trigger_tick next_tick <=? now) then
            Some (mkCollection store
                    (heap_push ReadyContainer_cmp (ReadyContainer_refresh r next_tick true) heap)
                    (co_updates st) ticks changed)
          else
            Some (mkCollection store heap
                    (co_updates st ++ [(rc_pos r, Some (trigger_tick next_tick))]) ticks changed)
      | None => Some (mkCollection store heap (co_updates st ++ [(rc_pos r, None)]) ticks changed)
      end
  end.

(** A round takes a tick or drops a container for good, so [max_ticks] and the number of
    containers are enough fuel; running out of it is [None]. *)
Fixpoint collect_loop (fuel : nat) (k : TickKind) (now : Z) (max_ticks : nat) (st : collection k)
  : option (collection k) :=
  if (max_ticks <=? length (co_ticks st))%nat then Some st
  else
    match co_heap st with
    | [] => Some st
    | r :: heap =>
        match fuel with
        | O => None
        | S fuel' => st ← collect_one k now max_ticks r heap st; collect_loop fuel' k now max_ticks st
        end
    end.

Definition remaining_update (k : TickKind) (cs : container_store) (r : ReadyContainer)
  : option TickHeadUpdate :=
  c ← cs !! rc_container r; Some (rc_pos r, list_head k c).

Definition collect_registered_ticks (k : TickKind) (cs : container_store) (now : Z)
  (max_ticks : nat) (due : list ActiveTickContainer) : option (collection k) :=
  '(heap, updates) ← prepare_ready_containers k cs now due;
  st ← collect_loop (max_ticks + length heap) k now max_ticks (mkCollection cs heap updates [] []);
  rest ← mapM (remaining_update k (co_store st)) (co_heap st);
  Some (mkCollection (co_store st) [] (co_updates st ++ rest) (co_ticks st) (co_changed st)).

(** A head update of the collected batch; an error is a panic. *)
Definition apply_update (k : TickKind) (u : TickHeadUpdate) (s : WorldTickSchedulerState)
  : option WorldTickSchedulerState :=
  r ← set_head s (fst u) k (snd u);
  match r with Ok s => Some s | Err _ => None end.

(** The batch is the list of ticks and the ranks of the containers that changed. *)
Definition collect_ticks (k : TickKind) (w : WorldTickScheduler) (now : Z) (max_ticks : nat)
  : option (WorldTickScheduler * (list (ScheduledTick (tick_of k)) * list nat)) :=
  if (max_ticks =? 0)%nat then Some (w, ([], []))
  else
    '(s, due) ← take_due (index w) k now;
    match due with
    | [] => Some (set_index w s, ([], []))
    | _ =>
        st ← collect_registered_ticks k (containers w) now max_ticks due;
        s ← for_each (co_updates st) (apply_update k) s;
        Some (mkScheduler (co_store st) (next_order w) s, (co_ticks st, co_changed st))
    end.
End Containers.

Arguments ChunkTickLists : clear implicits.
Arguments ChunkTickContainerState : clear implicits.
Arguments WorldTickScheduler : clear implicits.
Arguments tick_of : clear implicits.
Arguments collection : clear implicits.
Arguments mkCollection {B F k} _ _ _ _ _.
Arguments co_store {B F k} _.
Arguments co_heap {B F k} _.
Arguments co_updates {B F k} _.
Arguments co_ticks {B F k} _.
Arguments co_changed {B F k} _.

(** ** Lemmas: deadline sets *)

Definition deadline_lt (a b : Z * Z) : Prop := deadline_cmp a b = Lt.

Lemma deadline_lt_iff a b :
  deadline_lt a b <-> fst a < fst b \/ (fst a = fst b /\ snd a < snd b).
Proof. unfold deadline_lt, deadline_cmp. order_iff. done. Qed.

Lemma deadline_cmp_Gt a b : deadline_cmp a b = Gt <-> deadline_lt b a.
Proof. rewrite deadline_lt_iff. unfold deadline_cmp. order_iff. lia. Qed.

Lemma deadline_cmp_Eq a b : deadline_cmp a b = Eq -> a = b.
Proof. destruct a, b. unfold deadline_cmp. order_iff. simpl. intros [-> ->]. done. Qed.

#[global] Instance deadline_lt_trans : Transitive deadline_lt.
Proof. intros a b c. rewrite !deadline_lt_iff. lia. Qed.

#[global] Instance deadline_lt_irrefl : Irreflexive deadline_lt.
Proof. intros a. unfold complement. rewrite deadline_lt_iff. lia. Qed.

Lemma deadlines_set_eq k d s : deadlines k (set_deadlines k d s) = d.
Proof. by destruct k. Qed.

Lemma deadlines_set_ne k k' d s : k <> k' -> deadlines k (set_deadlines k' d s) = deadlines k s.
Proof. by destruct k, k'. Qed.

Lemma set_deadlines_chunks k d s : ix_chunks (set_deadlines k d s) = ix_chunks s.
Proof. by destruct k. Qed.

Lemma set_deadlines_generation k d s : active_generation (set_deadlines k d s) = active_generation s.
Proof. by destruct k. Qed.

Lemma deadlines_set_chunks k c s : deadlines k (set_chunks c s) = deadlines k s.
Proof. by destruct k. Qed.

Lemma reg_head_set k k' t r :
  reg_head k (reg_set_head k' t r) = if decide (k = k') then t else reg_head k r.
Proof. by destruct k, k'. Qed.

Lemma reg_set_head_id k r : reg_set_head k (reg_head k r) r = r.
Proof. by destruct k, r. Qed.

Lemma reg_set_head_active k t r g : active_rank (reg_set_head k t r) g = active_rank r g.
Proof. by destruct k. Qed.

Lemma reg_set_head_container k t r : reg_container (reg_set_head k t r) = reg_container r.
Proof. by destruct k. Qed.

Lemma reg_set_head_reg_active k t r : reg_active (reg_set_head k t r) = reg_active r.
Proof. by destruct k. Qed.

Create Rewrite HintDb sched.
#[export] Hint Rewrite deadlines_set_eq set_deadlines_chunks set_deadlines_generation
  deadlines_set_chunks reg_set_head_active reg_set_head_container reg_set_head_reg_active : sched.

(** A deadline set holds the elements of a predicate, in order. *)
Definition holds (d : list (Z * Z)) (P : Z * Z -> Prop) : Prop :=
  StronglySorted deadline_lt d /\ forall x, x ∈ d <-> P x.

#[global] Instance holds_proper d : Proper (pointwise_relation _ iff ==> iff) (holds d).
Proof. intros P Q HPQ. unfold holds. unfold pointwise_relation in HPQ. by setoid_rewrite HPQ. Qed.

Lemma remove_deadline_spec k x s P :
  holds (deadlines k s) P -> P x ->
  exists d, remove_deadline k x s = Some (set_deadlines k d s) /\ holds d (fun y => P y /\ y <> x).
Proof.
  intros [Hs HP] Hx. unfold remove_deadline, btree_remove.
  rewrite bool_decide_eq_true_2 by by apply HP. eexists. split; [done|]. split.
  - clear HP. induction Hs as [|y d Hs IH Hy]; [constructor|]. rewrite filter_cons. case_decide; [|done].
    constructor; [done|]. rewrite Forall_forall in *. intros z [_ Hz]%list_elem_of_filter. auto.
  - intros y. rewrite list_elem_of_filter, HP. tauto.
Qed.

Lemma insert_deadline_spec k x s P :
  holds (deadlines k s) P -> ~ P x ->
  exists d, insert_deadline k x s = Some (set_deadlines k d s) /\ holds d (fun y => P y \/ y = x).
Proof.
  intros [Hs HP] Hx. unfold insert_deadline, btree_insert. rewrite decide_False by by rewrite HP.
  eexists. split; [done|]. split.
  - apply sorted_insert_sorted; [tc_solve| | |done].
    + intros y. by rewrite deadline_cmp_Gt.
    + intros y Hy Hc. destruct (deadline_cmp x y) eqn:E; [|done|done].
      apply deadline_cmp_Eq in E as ->. by apply HP in Hy.
  - intros y. rewrite sorted_insert_perm, elem_of_cons, HP. tauto.
Qed.

(** ** Invariant of the index *)

(** What the deadline set of a kind must hold. *)
Definition is_deadline (chunks : gmap ChunkPos RegisteredChunkTicks) (g : Z) (k : TickKind)
  (x : Z * Z) : Prop :=
  exists pos r, chunks !! pos = Some r /\ snd x = PackedChunkPos_from pos /\
    is_Some (active_rank r g) /\ reg_head k r = Some (fst x).

Definition positions_ok (chunks : gmap ChunkPos RegisteredChunkTicks) : Prop :=
  forall pos r, chunks !! pos = Some r -> ChunkPos_ok pos.

Record index_ok (s : WorldTickSchedulerState) : Prop := {
  io_positions : positions_ok (ix_chunks s);
  io_deadlines k : holds (deadlines k s) (is_deadline (ix_chunks s) (active_generation s) k);
  io_generation : 0 <= active_generation s < 2 ^ 64;
  io_active pos r a : ix_chunks s !! pos = Some r -> reg_active r = Some a ->
    ac_generation a <= active_generation s;
}.

Lemma positions_ok_insert chunks pos r :
  ChunkPos_ok pos -> positions_ok chunks -> positions_ok (<[pos := r]> chunks).
Proof. intros Hp Hok q r' [[<- _]|[_ Hq]]%lookup_insert_Some; [done|by eapply Hok]. Qed.

Lemma is_deadline_insert chunks g k pos r x :
  ChunkPos_ok pos -> positions_ok chunks ->
  (is_deadline (<[pos := r]> chunks) g k x <->
   (snd x = PackedChunkPos_from pos /\ is_Some (active_rank r g) /\ reg_head k r = Some (fst x)) \/
   (is_deadline chunks g k x /\ snd x <> PackedChunkPos_from pos)).
Proof.
  intros Hp Hok. split.
  - intros (q & r' & [[<- <-]|[Hne Hq]]%lookup_insert_Some & Hx & Ha & Hh); [by left|]. right.
    split; [by exists q, r'|]. rewrite Hx. intros E. apply Hne.
    apply PackedChunkPos_inj; [done|by eapply Hok|done].
  - intros [(Hx & Ha & Hh)|[(q & r' & Hq & Hx & Ha & Hh) Hne]].
    + exists pos, r. by rewrite lookup_insert_eq.
    + exists q, r'. rewrite lookup_insert_ne by congruence. done.
Qed.

Lemma is_deadline_at chunks g k pos r x :
  positions_ok chunks -> chunks !! pos = Some r -> snd x = PackedChunkPos_from pos ->
  (is_deadline chunks g k x <-> is_Some (active_rank r g) /\ reg_head k r = Some (fst x)).
Proof.
  intros Hok Hr Hx. split.
  - intros (q & r' & Hq & Hx' & Ha & Hh).
    assert (pos = q) as <- by (apply PackedChunkPos_inj; eauto; congruence).
    rewrite Hr in Hq. by injection Hq as <-.
  - intros [Ha Hh]. by exists pos, r.
Qed.

Lemma is_deadline_delete chunks g k pos x :
  ChunkPos_ok pos -> positions_ok chunks ->
  (is_deadline (delete pos chunks) g k x <-> is_deadline chunks g k x /\ snd x <> PackedChunkPos_from pos).
Proof.
  intros Hp Hok. split.
  - intros (q & r' & [Hne Hq]%lookup_delete_Some & Hx & Ha & Hh).
    split; [by exists q, r'|]. rewrite Hx. intros E. apply Hne.
    apply PackedChunkPos_inj; [done|by eapply Hok|done].
  - intros [(q & r' & Hq & Hx & Ha & Hh) Hne]. exists q, r'. rewrite lookup_delete_ne by congruence. done.
Qed.

(** Changing a head of one kind does not concern the other kind. *)
Lemma is_deadline_other_kind chunks g k k' pos r t x :
  ChunkPos_ok pos -> positions_ok chunks -> chunks !! pos = Some r -> k' <> k ->
  (is_deadline (<[pos := reg_set_head k t r]> chunks) g k' x <-> is_deadline chunks g k' x).
Proof.
  intros Hp Hok Hr Hk. rewrite is_deadline_insert, reg_set_head_active, reg_head_set by done.
  rewrite decide_False by done. destruct (decide (snd x = PackedChunkPos_from pos)) as [E|E].
  - rewrite (is_deadline_at chunks g k' pos r x) by done. tauto.
  - tauto.
Qed.

(** Replacing the head of [pos] and the set of its kind keeps the index in order. *)
Lemma index_ok_set_head s k pos r t d :
  index_ok s -> ix_chunks s !! pos = Some r ->
  holds d (is_deadline (<[pos := reg_set_head k t r]> (ix_chunks s)) (active_generation s) k) ->
  index_ok (set_deadlines k d (set_chunks (<[pos := reg_set_head k t r]> (ix_chunks s)) s)).
Proof.
  intros Hok Hr Hd. pose proof (io_positions _ Hok) as Hpos. pose proof (Hpos _ _ Hr) as Hp.
  split; autorewrite with sched; simpl.
  - by apply positions_ok_insert.
  - intros k'. destruct (decide (k' = k)) as [->|Hk]; autorewrite with sched; [done|].
    rewrite deadlines_set_ne, deadlines_set_chunks by done.
    eapply holds_proper; [|exact (io_deadlines _ Hok k')]. intros x. by apply is_deadline_other_kind.
  - exact (io_generation _ Hok).
  - intros q r' a [[<- <-]|[_ Hq]]%lookup_insert_Some; autorewrite with sched; eauto using io_active.
Qed.

Lemma set_deadlines_same k s : set_deadlines k (deadlines k s) s = s.
Proof. by destruct k, s. Qed.

Lemma set_deadlines_twice k d d' s : set_deadlines k d (set_deadlines k d' s) = set_deadlines k d s.
Proof. by destruct k. Qed.

Lemma set_chunks_deadlines k d c s :
  set_chunks c (set_deadlines k d s) = set_deadlines k d (set_chunks c s).
Proof. by destruct k. Qed.

(** The two set updates of a head, against the registrations the set holds. *)
Lemma drop_head_spec chunks g k pos r s :
  positions_ok chunks -> chunks !! pos = Some r ->
  holds (deadlines k s) (is_deadline chunks g k) ->
  exists d, drop_head k (bool_decide (is_Some (active_rank r g))) (reg_head k r)
      (PackedChunkPos_from pos) s = Some (set_deadlines k d s) /\
    holds d (fun x => is_deadline chunks g k x /\ snd x <> PackedChunkPos_from pos).
Proof.
  intros Hpos Hr Hd. set (packed := PackedChunkPos_from pos).
  assert (~ (is_Some (active_rank r g) /\ is_Some (reg_head k r)) ->
    holds (deadlines k s) (fun x => is_deadline chunks g k x /\ snd x <> packed)) as Hno.
  { intros Hn. eapply holds_proper; [|exact Hd]. intros x. split; [tauto|]. intros Hx. split; [done|].
    intros E. apply Hn. rewrite (is_deadline_at _ _ _ pos r) in Hx by done. destruct Hx as [? ->]. eauto. }
  unfold drop_head. destruct (reg_head k r) as [p|] eqn:Eh; [case_bool_decide as Ea|].
  - destruct (remove_deadline_spec k (p, packed) s _ Hd) as (d1 & E1 & H1);
      [by apply (is_deadline_at _ _ _ pos r)|]. exists d1. split; [done|].
    eapply holds_proper; [|exact H1]. intros x. split; intros [Hx Hne]; (split; [done|]).
    + intros ->. by apply Hne.
    + intros E. apply Hne. rewrite (is_deadline_at _ _ _ pos r), Eh in Hx by done.
      destruct x. simpl in *. destruct Hx as [_ [= ->]]. by subst.
  - exists (deadlines k s). rewrite set_deadlines_same. split; [done|]. apply Hno. tauto.
  - exists (deadlines k s). rewrite set_deadlines_same. split; [done|]. apply Hno. by intros [_ [? ?]].
Qed.

Lemma index_head_spec chunks g k pos r s :
  ChunkPos_ok pos -> positions_ok chunks ->
  holds (deadlines k s) (fun x => is_deadline chunks g k x /\ snd x <> PackedChunkPos_from pos) ->
  exists d, index_head k (bool_decide (is_Some (active_rank r g))) (reg_head k r)
      (PackedChunkPos_from pos) s = Some (set_deadlines k d s) /\
    holds d (is_deadline (<[pos := r]> chunks) g k).
Proof.
  intros Hp Hpos Hd. set (packed := PackedChunkPos_from pos).
  assert (~ (is_Some (active_rank r g) /\ is_Some (reg_head k r)) ->
    holds (deadlines k s) (is_deadline (<[pos := r]> chunks) g k)) as Hno.
  { intros Hn. eapply holds_proper; [|exact Hd]. intros x. rewrite is_deadline_insert by done.
    split; [|tauto]. intros [(_ & Ha & Hh)|?]; [|done]. rewrite Hh in Hn. exfalso. eauto. }
  unfold index_head. destruct (reg_head k r) as [p|] eqn:Eh; [case_bool_decide as Ea|].
  - destruct (insert_deadline_spec k (p, packed) s _ Hd) as (d1 & E1 & H1); [by intros [_ ?]|].
    exists d1. split; [done|]. eapply holds_proper; [|exact H1]. intros x.
    rewrite is_deadline_insert, Eh by done. destruct x as [t q]. simpl. split.
    + intros [(-> & _ & [= ->])|?]; [by right|by left].
    + intros [?|[= -> ->]]; [by right|by left].
  - exists (deadlines k s). rewrite set_deadlines_same. split; [done|]. apply Hno. tauto.
  - exists (deadlines k s). rewrite set_deadlines_same. split; [done|]. apply Hno. by intros [_ [? ?]].
Qed.

Lemma set_head_spec s pos k t r :
  index_ok s -> ix_chunks s !! pos = Some r ->
  exists s', set_head s pos k t = Some (Ok s') /\ index_ok s' /\
    ix_chunks s' = <[pos := reg_set_head k t r]> (ix_chunks s) /\
    active_generation s' = active_generation s.
Proof.
  intros Hok Hr. pose proof (io_positions _ Hok) as Hpos. pose proof (Hpos _ _ Hr) as Hp.
  unfold set_head. rewrite Hr. case_decide as Et.
  { subst t. exists s. rewrite reg_set_head_id, insert_id by done. done. }
  set (g := active_generation s). set (new := reg_set_head k t r).
  destruct (drop_head_spec _ g k pos r s Hpos Hr (io_deadlines _ Hok k)) as (d1 & -> & Hd1).
  simpl. rewrite set_deadlines_chunks, Hr. fold new. rewrite set_chunks_deadlines.
  destruct (index_head_spec (ix_chunks s) g k pos new
    (set_deadlines k d1 (set_chunks (<[pos := new]> (ix_chunks s)) s)) Hp Hpos) as (d2 & E2 & Hd2).
  { by rewrite deadlines_set_eq. }
  subst new. rewrite reg_set_head_active, reg_head_set, decide_True in E2 by done.
  rewrite E2, set_deadlines_twice. simpl. eexists. split; [done|]. split.
  - by apply index_ok_set_head.
  - by autorewrite with sched.
Qed.

(** ** Lemmas: due containers *)

Section Due.
Context (k : TickKind) (now : Z).

(** [a] stands for an active registration whose head is due. *)
Definition due_ok (s : WorldTickSchedulerState) (a : ActiveTickContainer) : Prop :=
  exists r t, ix_chunks s !! due_pos a = Some r /\ reg_container r = due_container a /\
    reg_head k r = Some t /\ t <= now /\ active_rank r (active_generation s) = Some (due_rank a).

Definition is_due (s : WorldTickSchedulerState) (pos : ChunkPos) : Prop :=
  exists r t, ix_chunks s !! pos = Some r /\ is_Some (active_rank r (active_generation s)) /\
    reg_head k r = Some t /\ t <= now.

Record taken (s s' : WorldTickSchedulerState) (due : list ActiveTickContainer) : Prop := {
  tk_ok : index_ok s';
  tk_generation : active_generation s' = active_generation s;
  tk_nodup : NoDup (due_pos <$> due);
  tk_chunks pos : ix_chunks s' !! pos =
    if decide (pos ∈ due_pos <$> due) then reg_set_head k None <$> ix_chunks s !! pos
    else ix_chunks s !! pos;
  tk_due : Forall (due_ok s) due;
  tk_complete pos : is_due s pos -> pos ∈ due_pos <$> due;
}.

Lemma taken_nil s :
  index_ok s -> Forall (fun x => now < fst x) (deadlines k s) -> taken s s [].
Proof.
  intros Hok Hn. split; simpl; try done; try apply NoDup_nil_2; try apply Forall_nil_2.
  intros pos (r & t & Hr & Ha & Hh & Hle). destruct (io_deadlines _ Hok k) as [_ Hiff].
  assert ((t, PackedChunkPos_from pos) ∈ deadlines k s) as Hin by (apply Hiff; by exists pos, r).
  rewrite Forall_forall in Hn. apply Hn in Hin. simpl in Hin. lia.
Qed.

(** Popping the first deadline detaches its registration. *)
Lemma pop_deadline s t p rest :
  index_ok s -> deadlines k s = (t, p) :: rest ->
  exists pos r rank, p = PackedChunkPos_from pos /\ PackedChunkPos_to_chunk_pos p = pos /\
    ix_chunks s !! pos = Some r /\ reg_head k r = Some t /\
    active_rank r (active_generation s) = Some rank /\
    index_ok (set_chunks (<[pos := reg_set_head k None r]> (ix_chunks s)) (set_deadlines k rest s)).
Proof.
  intros Hok Hd. pose proof (io_positions _ Hok) as Hpos. destruct (io_deadlines _ Hok k) as [Hs Hiff].
  rewrite Hd in Hs, Hiff. assert (is_deadline (ix_chunks s) (active_generation s) k (t, p)) as Hx
    by (apply Hiff; left).
  destruct Hx as (pos & r & Hr & Hpk & [rank Ha] & Hh). simpl in *. subst p. pose proof (Hpos _ _ Hr) as Hp.
  exists pos, r, rank. split_and!; try done; [by apply PackedChunkPos_roundtrip|].
  rewrite set_chunks_deadlines. apply index_ok_set_head; [done..|].
  apply StronglySorted_inv in Hs as [Hs Ht]. split; [done|]. intros x.
  rewrite is_deadline_insert, reg_head_set, decide_True by done. rewrite <- Hiff, elem_of_cons. split.
  - intros Hx. right. split; [by right|]. intros E.
    assert (is_deadline (ix_chunks s) (active_generation s) k x) as Hx' by (apply Hiff; by right).
    rewrite (is_deadline_at _ _ _ pos r), Hh in Hx' by done. destruct x as [t' p'], Hx' as [_ [= ->]].
    simpl in *. subst p'. rewrite Forall_forall in Ht. by destruct (irreflexivity deadline_lt _ (Ht _ Hx)).
  - intros [(_ & _ & ?)|[[->|?] Hne]]; [done| |done]. by destruct Hne.
Qed.

Lemma taken_cons s t pos r rank s' due :
  ix_chunks s !! pos = Some r -> reg_head k r = Some t -> t <= now ->
  active_rank r (active_generation s) = Some rank -> forall s1,
  ix_chunks s1 = <[pos := reg_set_head k None r]> (ix_chunks s) ->
  active_generation s1 = active_generation s -> taken s1 s' due ->
  taken s s' (mkDue pos rank (reg_container r) :: due).
Proof.
  intros Hr Hh Hle Ha s1 Hc Hg [H1 H2 H3 H4 H5 H6]. rewrite Forall_forall in H5.
  assert (pos ∉ due_pos <$> due) as Hnin.
  { intros (a & -> & Ha')%list_elem_of_fmap. destruct (H5 _ Ha') as (r' & t' & Hr' & _ & Hh' & _).
    rewrite Hc, lookup_insert_eq in Hr'. injection Hr' as <-. by rewrite reg_head_set, decide_True in Hh'. }
  split; try done; simpl.
  - congruence.
  - by constructor.
  - intros q. rewrite H4, Hc. destruct (decide (q = pos)) as [->|Hne].
    + rewrite decide_False, decide_True by (done || left). by rewrite lookup_insert_eq, Hr.
    + rewrite lookup_insert_ne by done. apply decide_ext. rewrite elem_of_cons. naive_solver.
  - constructor; [by exists r, t|]. apply Forall_forall. intros a Ha'.
    destruct (H5 _ Ha') as (r' & t' & Hr' & Hrest). exists r', t'. rewrite <- Hg. split; [|done].
    rewrite Hc, lookup_insert_ne in Hr'; [done|]. intros ->. apply Hnin. by apply list_elem_of_fmap_2.
  - intros q Hq. destruct (decide (q = pos)) as [->|Hne]; [left|]. right. apply H6.
    destruct Hq as (r' & t' & Hr' & Ha' & Hrest). exists r', t'. rewrite Hg, Hc, lookup_insert_ne by done. done.
Qed.

Lemma take_due_loop_spec fuel s :
  index_ok s -> (length (deadlines k s) <= fuel)%nat ->
  exists s' due, take_due_loop fuel s k now = Some (s', due) /\ taken s s' due.
Proof.
  revert s. induction fuel as [|fuel IH]; intros s Hok Hf.
  - exists s, []. split; [done|]. apply taken_nil; [done|].
    destruct (deadlines k s) eqn:Ed; [constructor|simpl in Hf; lia].
  - simpl. destruct (deadlines k s) as [|[t p] rest] eqn:Ed.
    { exists s, []. split; [done|]. apply taken_nil; [done|]. rewrite Ed. constructor. }
    case Z.ltb_spec; intros Hlt.
    { exists s, []. split; [done|]. apply taken_nil; [done|]. destruct (io_deadlines _ Hok k) as [Hs _].
      rewrite Ed in *. apply StronglySorted_inv in Hs as [_ Hs]. constructor; [done|].
      eapply Forall_impl; [exact Hs|]. intros x Hx%deadline_lt_iff. simpl in Hx. lia. }
    destruct (pop_deadline s t p rest Hok Ed) as (pos & r & rank & -> & -> & Hr & Hh & Ha & Hok1).
    rewrite set_deadlines_chunks, Hr. simpl. rewrite decide_True by done.
    rewrite set_deadlines_generation, Ha. simpl.
    edestruct (IH _ Hok1) as (s' & due & -> & Htk).
    { rewrite deadlines_set_chunks, deadlines_set_eq. simpl in Hf. lia. }
    simpl. exists s', (mkDue pos rank (reg_container r) :: due). split; [done|].
    eapply (taken_cons s t pos r rank s' due Hr Hh Hlt Ha); [| |exact Htk]; [done|].
    apply set_deadlines_generation.
Qed.
End Due.

(** ** Lemmas: activation and removal *)

(** Registrations that agree except for their activity. *)
Definition same_registration (r r' : RegisteredChunkTicks) : Prop :=
  reg_container r = reg_container r' /\ forall k, reg_head k r = reg_head k r'.

Definition same_registrations (c c' : gmap ChunkPos RegisteredChunkTicks) : Prop :=
  forall pos, option_Forall2 same_registration (c !! pos) (c' !! pos).

#[global] Instance same_registrations_preorder : PreOrder same_registrations.
Proof.
  split.
  - intros c pos. destruct (c !! pos); by repeat constructor.
  - intros c1 c2 c3 H1 H2 pos. specialize (H1 pos). specialize (H2 pos).
    inversion H1 as [r1 r2 [E1 E1'] Hc1 Hc2|Hc1 Hc2]; rewrite <- Hc2 in H2.
    + inversion H2 as [r2' r3 [E2 E2'] Hc4 Hc3|]; subst. constructor. split; [congruence|].
      intros k. by rewrite E1', E2'.
    + inversion H2. constructor.
Qed.

(** The positions that are active. *)
Definition is_active (s : WorldTickSchedulerState) (pos : ChunkPos) : Prop :=
  exists r, ix_chunks s !! pos = Some r /\ is_Some (active_rank r (active_generation s)).

Lemma activate_chunk_spec s rank pos r :
  index_ok s -> ix_chunks s !! pos = Some r -> active_rank r (active_generation s) = None ->
  exists s', activate_chunk s rank pos r = Some s' /\ index_ok s' /\
    active_generation s' = active_generation s /\
    same_registrations (ix_chunks s) (ix_chunks s') /\
    (forall q, is_active s' q <-> q = pos \/ is_active s q).
Proof.
  intros Hok Hr Hna. pose proof (io_positions _ Hok) as Hpos. pose proof (Hpos _ _ Hr) as Hp.
  unfold activate_chunk. rewrite Hna, decide_False by (by intros [? ?]).
  set (g := active_generation s) in *.
  set (r' := mkRegistered _ _ _ _). set (s0 := set_chunks _ s).
  assert (active_rank r' g = Some rank) as Ha by (unfold active_rank; simpl; by rewrite Z.eqb_refl).
  assert (forall k, holds (deadlines k s0)
    (fun x => is_deadline (ix_chunks s) g k x /\ snd x <> PackedChunkPos_from pos)) as Hd.
  { intros k. unfold s0. rewrite deadlines_set_chunks. eapply holds_proper; [|exact (io_deadlines _ Hok k)].
    intros x. split; [tauto|]. intros Hx. split; [done|]. intros E.
    rewrite (is_deadline_at _ _ _ pos r) in Hx by done. fold g in Hx. rewrite Hna in Hx. by destruct Hx as [[? ?] _]. }
  destruct (index_head_spec (ix_chunks s) g KindBlock pos r' s0 Hp Hpos (Hd _)) as (d1 & E1 & Hd1).
  destruct (index_head_spec (ix_chunks s) g KindFluid pos r' (set_deadlines KindBlock d1 s0) Hp Hpos)
    as (d2 & E2 & Hd2); [by rewrite deadlines_set_ne|].
  rewrite Ha, bool_decide_eq_true_2 in E1, E2 by done. simpl in E1. rewrite E1. simpl. simpl in E2.
  eexists. split; [exact E2|]. split_and!; try done.
  - split; simpl.
    + by apply positions_ok_insert.
    + by intros [].
    + exact (io_generation _ Hok).
    + intros q r1 a [[<- <-]|[_ Hq]]%lookup_insert_Some; [|by apply (io_active _ Hok _ _ _ Hq)].
      simpl. intros [= <-]. simpl. lia.
  - intros q. simpl. destruct (decide (q = pos)) as [->|Hne].
    + rewrite lookup_insert_eq, Hr. constructor. split; [done|]. by intros [].
    + rewrite lookup_insert_ne by done. destruct (ix_chunks s !! q); by repeat constructor.
  - intros q. unfold is_active. simpl. destruct (decide (q = pos)) as [->|Hne].
    + rewrite lookup_insert_eq. split; [by left|]. intros _. exists r'. split; [done|]. exists rank. exact Ha.
    + rewrite lookup_insert_ne by done. naive_solver.
Qed.

Lemma activate_loop_spec active s rank :
  index_ok s -> NoDup active -> (forall pos, pos ∈ active -> ~ is_active s pos) ->
  (forall pos, pos ∈ active -> is_Some (ix_chunks s !! pos)) ->
  exists s', activate_loop s rank active = Some (s', Ok ()) /\ index_ok s' /\
    same_registrations (ix_chunks s) (ix_chunks s') /\
    (forall pos, is_active s' pos <-> pos ∈ active \/ is_active s pos).
Proof.
  revert s rank. induction active as [|pos active IH]; intros s rank Hok Hnd Hna Hin; simpl.
  { exists s. split_and!; try done. intros pos. rewrite elem_of_nil. tauto. }
  apply NoDup_cons in Hnd as [Hp Hnd]. destruct (Hin pos) as [r Hr]; [left|]. rewrite Hr.
  destruct (activate_chunk_spec s rank pos r Hok Hr) as (s1 & -> & Hok1 & Hg1 & Hsame & Hact).
  { apply eq_None_not_Some. intros Ha. apply (Hna pos); [left|]. by exists r. }
  simpl. destruct (IH s1 (S rank) Hok1 Hnd) as (s2 & -> & Hok2 & Hsame2 & Hact2).
  - intros q Hq [->|Ha]%Hact; [done|]. apply (Hna q); [by right|done].
  - intros q Hq. destruct (Hin q) as [r' Hr']; [by right|]. specialize (Hsame q). rewrite Hr' in Hsame.
    inversion Hsame. eauto.
  - exists s2. split_and!; try done; [by etrans|]. intros q. rewrite Hact2, Hact, elem_of_cons. tauto.
Qed.

(** A new generation starts with no active chunk. *)
Lemma advance_spec s :
  index_ok s -> let s' := advance_active_generation (mkIndex (ix_chunks s) [] [] (active_generation s)) in
  index_ok s' /\ same_registrations (ix_chunks s) (ix_chunks s') /\ (forall pos, ~ is_active s' pos).
Proof.
  intros Hok s'.
  assert ((forall pos, ~ is_active s' pos) /\ same_registrations (ix_chunks s) (ix_chunks s') /\
    positions_ok (ix_chunks s') /\ 0 <= active_generation s' < 2 ^ 64 /\
    (forall k, deadlines k s' = []) /\
    (forall pos r a, ix_chunks s' !! pos = Some r -> reg_active r = Some a ->
       ac_generation a <= active_generation s')) as (Hna & Hsame & Hpos & Hgen & Hd & Hact).
  { subst s'. unfold advance_active_generation, checked_addu. pose proof (io_generation _ Hok) as Hg.
    simpl. case_match eqn:E; simpl.
    - case_match; [|done]. injection E as <-. split_and!; try lia; try done.
      + intros pos (r & Hr & Ha). simpl in *. unfold active_rank in Ha. destruct (reg_active r) as [a|] eqn:Er;
          [|by destruct Ha]. pose proof (io_active _ Hok _ _ _ Hr Er).
        rewrite (proj2 (Z.eqb_neq _ _)) in Ha by lia. by destruct Ha.
      + exact (io_positions _ Hok).
      + by intros [].
      + intros pos r a Hr Er. pose proof (io_active _ Hok _ _ _ Hr Er). lia.
    - split_and!; try lia; try done.
      + intros pos (r & Hr & Ha). simpl in *. rewrite lookup_fmap in Hr.
        destruct (ix_chunks s !! pos); [|done]. injection Hr as <-. by destruct Ha.
      + intros pos. rewrite lookup_fmap. destruct (ix_chunks s !! pos); constructor. split; [done|]. by intros [].
      + intros pos r Hr. rewrite lookup_fmap in Hr. destruct (ix_chunks s !! pos) eqn:E'; [|done].
        by eapply (io_positions _ Hok).
      + by intros [].
      + intros pos r a Hr. rewrite lookup_fmap in Hr. destruct (ix_chunks s !! pos); [|done].
        injection Hr as <-. done. }
  split_and!; try done. split; try done. intros k. rewrite Hd. split; [constructor|]. intros x.
  rewrite elem_of_nil. split; [done|]. intros (pos & r & Hr & _ & Ha & _). apply (Hna pos). by exists r.
Qed.

Lemma reconcile_spec s active :
  index_ok s -> NoDup active ->
  exists s' res, reconcile_active_chunks s active = Some (s', res) /\ index_ok s' /\
    same_registrations (ix_chunks s) (ix_chunks s') /\
    (if decide (Forall (fun pos => is_Some (ix_chunks s !! pos)) active)
     then res = Ok () /\ (forall pos, is_active s' pos <-> pos ∈ active)
     else s' = s /\ exists pos, pos ∈ active /\ res = Err (MissingContainer pos)).
Proof.
  intros Hok Hnd. unfold reconcile_active_chunks.
  destruct (filter _ active) as [|pos rest] eqn:Ef.
  - assert (Forall (fun pos => is_Some (ix_chunks s !! pos)) active) as Hin.
    { apply Forall_forall. intros pos Hp. apply not_eq_None_Some. intros E.
      assert (pos ∈ filter (fun pos => ix_chunks s !! pos = None) active) as Hf by by apply list_elem_of_filter.
      rewrite Ef in Hf. by apply elem_of_nil in Hf. }
    destruct (advance_spec s Hok) as (Hok1 & Hsame1 & Hna). rewrite Forall_forall in Hin.
    destruct (activate_loop_spec active _ 0 Hok1 Hnd) as (s' & -> & Hok' & Hsame' & Hact); [by auto| |].
    { intros pos Hp. specialize (Hsame1 pos). destruct (Hin _ Hp) as [r Hr]. rewrite Hr in Hsame1.
      inversion Hsame1. eauto. }
    exists s', (Ok ()). split_and!; try done; [by etrans|].
    rewrite decide_True by by apply Forall_forall. split; [done|]. intros pos. rewrite Hact. naive_solver.
  - assert (pos ∈ filter (fun pos => ix_chunks s !! pos = None) active) as Hf by (rewrite Ef; left).
    apply list_elem_of_filter in Hf as [Hn Hp]. exists s, (Err (MissingContainer pos)). split_and!; try done.
    rewrite decide_False; [by eauto|]. rewrite Forall_forall. intros Hall. destruct (Hall _ Hp). congruence.
Qed.

(** The index part of [unregister_chunk]. *)
Lemma unregister_index s pos r :
  index_ok s -> ix_chunks s !! pos = Some r ->
  exists s', (s1 ← drop_head KindBlock (bool_decide (is_Some (active_rank r (active_generation s))))
                (block_head r) (PackedChunkPos_from pos) (set_chunks (delete pos (ix_chunks s)) s);
              drop_head KindFluid (bool_decide (is_Some (active_rank r (active_generation s))))
                (fluid_head r) (PackedChunkPos_from pos) s1) = Some s' /\
    index_ok s' /\ ix_chunks s' = delete pos (ix_chunks s).
Proof.
  intros Hok Hr. pose proof (io_positions _ Hok) as Hpos. pose proof (Hpos _ _ Hr) as Hp.
  set (g := active_generation s). set (s0 := set_chunks _ s).
  destruct (drop_head_spec _ g KindBlock pos r s0 Hpos Hr) as (d1 & E1 & Hd1);
    [exact (io_deadlines _ Hok KindBlock)|].
  destruct (drop_head_spec _ g KindFluid pos r (set_deadlines KindBlock d1 s0) Hpos Hr) as (d2 & E2 & Hd2);
    [exact (io_deadlines _ Hok KindFluid)|].
  simpl in E1, E2. fold g. rewrite E1. simpl. eexists. split; [exact E2|]. split; [|done].
  split; simpl.
  - intros q r' [_ Hq]%lookup_delete_Some. by eapply Hpos.
  - intros [].
    + eapply holds_proper; [|exact Hd1]. intros x. by apply is_deadline_delete.
    + eapply holds_proper; [|exact Hd2]. intros x. by apply is_deadline_delete.
  - exact (io_generation _ Hok).
  - intros q r' a [_ Hq]%lookup_delete_Some. by apply (io_active _ Hok q).
Qed.

(** ** Lemmas: containers and the index *)

Section World.
Context {B F : Type} `{!TickKey B, !TickKey F}.
Abbreviation store := (gmap Z (ChunkTickContainerState B F)).

Lemma select_update k k' (t : TickList (tick_of B F k)) (l : ChunkTickLists B F) :
  k' <> k -> select k' (update k t l) = select k' l.
Proof. by destruct k, k'. Qed.

Lemma select_update_eq k (t : TickList (tick_of B F k)) (l : ChunkTickLists B F) :
  select k (update k t l) = t.
Proof. by destruct k. Qed.

Lemma with_list_select k (c : ChunkTickContainerState B F) : with_list k c (select k (lists c)) = c.
Proof. by destruct k, c as [? []]. Qed.

Lemma list_head_other k k' (c : ChunkTickContainerState B F) t :
  k' <> k -> list_head k' (with_list k c t) = list_head k' c.
Proof. intros Hk. unfold list_head, with_list. simpl. by rewrite select_update. Qed.

(** The chunk a container belongs to. *)
Context (owner : Z -> ChunkPos).

(** The heads of the index are those of the queues, except where [stale]. *)
Record world_ok (stale : TickKind -> ChunkPos -> Prop) (cs : store) (s : WorldTickSchedulerState)
  : Prop := {
  wo_index : index_ok s;
  wo_registered pos r : ix_chunks s !! pos = Some r ->
    owner (reg_container r) = pos /\
    exists c, cs !! reg_container r = Some c /\ lifecycle c = Registered /\
      forall k, ~ stale k pos -> reg_head k r = list_head k c;
  wo_owned id c : cs !! id = Some c -> lifecycle c = Registered ->
    exists r, ix_chunks s !! owner id = Some r /\ reg_container r = id;
}.

Definition fresh (k : TickKind) (pos : ChunkPos) : Prop := False.

Lemma world_ok_weaken (P Q : TickKind -> ChunkPos -> Prop) cs s :
  (forall k pos, P k pos -> Q k pos) -> world_ok P cs s -> world_ok Q cs s.
Proof.
  intros HPQ [H1 H2 H3]. split; [done| |done]. intros pos r Hr.
  destruct (H2 _ _ Hr) as (Ho & c & Hc & Hl & Hh). split; [done|]. exists c. eauto 10.
Qed.

(** A container outside the index may change freely. *)
Lemma world_ok_unregistered P cs s id c' :
  world_ok P cs s -> (forall c, cs !! id = Some c -> lifecycle c <> Registered) ->
  lifecycle c' <> Registered -> world_ok P (<[id := c']> cs) s.
Proof.
  intros [H1 H2 H3] Hid Hc'. split; [done| |].
  - intros pos r Hr. destruct (H2 _ _ Hr) as (Ho & c & Hc & Hl & Hh). split; [done|]. exists c.
    rewrite lookup_insert_ne; [done|]. intros E. apply (Hid c); congruence.
  - intros id' c [[<- <-]|[_ Hc]]%lookup_insert_Some Hl; [done|eauto].
Qed.

(** A registered container changes; the heads that differ become stale. *)
Lemma world_ok_registered P cs s id c c' :
  world_ok P cs s -> cs !! id = Some c -> lifecycle c = Registered -> lifecycle c' = Registered ->
  world_ok (fun k pos => P k pos \/ (pos = owner id /\ list_head k c' <> list_head k c))
    (<[id := c']> cs) s.
Proof.
  intros [H1 H2 H3] Hc Hl Hl'. split; [done| |].
  - intros pos r Hr. destruct (H2 _ _ Hr) as (Ho & c1 & Hc1 & Hl1 & Hh). split; [done|].
    destruct (decide (reg_container r = id)) as [Hid|Hne].
    + subst id. exists c'. rewrite lookup_insert_eq. split_and!; try done. intros k Hk.
      assert (c1 = c) as -> by congruence. rewrite Hh by tauto. rewrite Ho in Hk.
      destruct (decide (list_head k c' = list_head k c)); [done|tauto].
    + exists c1. rewrite lookup_insert_ne by done. split_and!; try done. intros k Hk. apply Hh. tauto.
  - intros id' c1 [[<- <-]|[_ Hc1]]%lookup_insert_Some Hl1; eauto.
Qed.

(** Setting a head to that of its queue makes it fresh. *)
Lemma world_ok_set_head P cs s pos k r c :
  world_ok P cs s -> ix_chunks s !! pos = Some r -> cs !! reg_container r = Some c ->
  exists s', set_head s pos k (list_head k c) = Some (Ok s') /\
    world_ok (fun k' q => P k' q /\ ~ (k' = k /\ q = pos)) cs s' /\
    ix_chunks s' = <[pos := reg_set_head k (list_head k c) r]> (ix_chunks s) /\
    active_generation s' = active_generation s.
Proof.
  intros [H1 H2 H3] Hr Hc. destruct (set_head_spec s pos k (list_head k c) r H1 Hr) as (s' & E & Hok & Hch & Hg).
  exists s'. split; [done|]. split; [|done]. split; [done| |].
  - intros q r1. rewrite Hch. intros [[<- <-]|[Hne Hq]]%lookup_insert_Some.
    + rewrite reg_set_head_container. destruct (H2 _ _ Hr) as (Ho & c1 & Hc1 & Hl & Hh). split; [done|].
      exists c1. split_and!; try done. intros k' Hk'. rewrite reg_head_set. case_decide as Ek.
      * subst k'. congruence.
      * apply Hh. tauto.
    + destruct (H2 _ _ Hq) as (Ho & c1 & Hc1 & Hl & Hh). split; [done|]. exists c1. split_and!; try done.
      intros k' Hk'. apply Hh. intros HP. apply Hk'. split; [done|]. by intros [_ ->].
  - intros id c1 Hc1 Hl. destruct (H3 _ _ Hc1 Hl) as (r1 & Hr1 & <-). rewrite Hch.
    destruct (decide (owner (reg_container r1) = pos)) as [E'|Hne].
    + rewrite E', lookup_insert_eq. eexists. split; [done|]. rewrite reg_set_head_container. congruence.
    + rewrite lookup_insert_ne by done. eauto.
Qed.

(** The head updates after a collection. *)
Lemma apply_updates_ok k cs updates s :
  world_ok (fun k' pos => k' = k /\ pos ∈ fst <$> updates) cs s ->
  Forall (fun u => exists r c, ix_chunks s !! fst u = Some r /\ cs !! reg_container r = Some c /\
            snd u = list_head k c) updates ->
  exists s', for_each updates (apply_update k) s = Some s' /\ world_ok fresh cs s' /\
    active_generation s' = active_generation s /\
    (forall pos, option_Forall2 (fun r r' => reg_container r = reg_container r' /\
                   reg_active r = reg_active r') (ix_chunks s !! pos) (ix_chunks s' !! pos)).
Proof.
  revert s. induction updates as [|[pos t] updates IH]; intros s Hok Hu.
  { exists s. split_and!; try done.
    - eapply world_ok_weaken; [|exact Hok]. intros k' q [_ Hq]. by apply elem_of_nil in Hq.
    - intros q. destruct (ix_chunks s !! q); by constructor. }
  apply Forall_cons in Hu as [(r & c & Hr & Hc & Ht) Hu]. simpl in *. subst t.
  destruct (world_ok_set_head _ cs s pos k r c Hok Hr Hc) as (s1 & E1 & Hok1 & Hch & Hg).
  assert (apply_update k (pos, list_head k c) s = Some s1) as Hap by (unfold apply_update; simpl; by rewrite E1).
  simpl. rewrite Hap. simpl.
  assert (forall q, option_Forall2 (fun r r' => reg_container r = reg_container r' /\
    reg_active r = reg_active r') (ix_chunks s !! q) (ix_chunks s1 !! q)) as Hsame.
  { intros q. rewrite Hch. destruct (decide (q = pos)) as [->|Hne].
    - rewrite lookup_insert_eq, Hr. constructor. by rewrite reg_set_head_container, reg_set_head_reg_active.
    - rewrite lookup_insert_ne by done. destruct (ix_chunks s !! q); by constructor. }
  destruct (IH s1) as (s2 & E2 & Hok2 & Hg2 & Hsame2).
  - eapply world_ok_weaken; [|exact Hok1]. intros k' q [[-> Hq] Hne]. split; [done|].
    apply elem_of_cons in Hq as [->|Hq]; [tauto|done].
  - eapply Forall_impl; [exact Hu|]. intros u (r1 & c1 & Hr1 & Hc1 & Ht). specialize (Hsame (fst u)).
    rewrite Hr1 in Hsame. inversion Hsame as [r1' r2 [Hcon _] Ha Hb|]; subst. exists r2, c1.
    by rewrite <- Hcon.
  - exists s2. split_and!; try done; [congruence|]. intros q. specialize (Hsame q). specialize (Hsame2 q).
    inversion Hsame as [r1 r2 [Ha1 Ha2] Ha Hb|Ha Hb]; rewrite <- Hb in Hsame2.
    + inversion Hsame2 as [r2' r3 [Hb1 Hb2] Ha' Hb'|]; subst. constructor. split; congruence.
    + inversion Hsame2. constructor.
Qed.
End World.

(** ** Lemmas: collecting *)

Section Collect.
Context {B F : Type} `{!TickKey B, !TickKey F}.
Abbreviation store := (gmap Z (ChunkTickContainerState B F)).

Lemma drain_current_spec {T} `{TickKey T} budget (q : TickList T) now comp q' ts :
  drain_current budget q now comp = (q', ts) ->
  exists p, ticks q = p ++ ticks q' /\ ts = qt_tick <$> p /\ Forall (is_ready now) p /\
    (length ts <= budget)%nat.
Proof.
  revert q ts. induction budget as [|budget IH]; intros q ts; simpl.
  { intros [= <- <-]. exists []. done. }
  assert ((q, []) = (q', ts) -> exists p, ticks q = p ++ ticks q' /\ ts = qt_tick <$> p /\
    Forall (is_ready now) p /\ (length ts <= S budget)%nat) as Hstop.
  { intros [= <- <-]. exists []. split_and!; try done. simpl. lia. }
  destruct (peek_ready q now); [|done]. destruct (match comp with Some _ => _ | None => _ end); [done|].
  destruct (pop_ready q now) as [[q1 tick]|] eqn:Ep; [|done].
  apply pop_ready_Some in Ep as (x & rest & Et & -> & Hle & ->).
  destruct (drain_current budget _ now comp) as [q2 ts2] eqn:Ed. intros [= <- <-].
  apply IH in Ed as (p & Ht & -> & Hp & Hlen). simpl in *. exists (x :: p). split_and!.
  - rewrite Et, Ht. done.
  - done.
  - by constructor.
  - simpl. lia.
Qed.

(** A function changed at one of several distinct points. *)
Lemma bind_update_perm {A X} `{EqDecision A} (f : A -> list X) (ids : list A) id extra :
  NoDup ids -> id ∈ ids ->
  ids ≫= (fun i => if decide (i = id) then f i ++ extra else f i) ≡ₚ (ids ≫= f) ++ extra.
Proof.
  intros Hnd Hin. induction ids as [|i ids IH]; [by apply elem_of_nil in Hin|].
  apply NoDup_cons in Hnd as [Hi Hnd]. rewrite !bind_cons. destruct (decide (i = id)) as [->|Hne].
  - assert ((ids ≫= fun i => if decide (i = id) then f i ++ extra else f i) = ids ≫= f) as ->.
    { clear IH Hin Hnd. induction ids as [|j ids IH]; [done|]. rewrite !bind_cons, decide_False, IH; [done| |].
      - intros ?. apply Hi. by right.
      - intros ->. apply Hi. by left. }
    rewrite <- !(assoc_L (++)). apply Permutation_app_head. apply Permutation_app_comm.
  - apply elem_of_cons in Hin as [->|Hin]; [done|]. rewrite IH by done. by rewrite (assoc_L (++)).
Qed.

Context (k : TickKind) (now : Z) (max_ticks : nat) (cs0 : store) (due : list ActiveTickContainer).
Context (Hpos : NoDup (due_pos <$> due)) (Hids : NoDup (due_container <$> due)).
Context (Hreg : Forall (fun a => exists c, cs0 !! due_container a = Some c /\ lifecycle c = Registered) due).

Abbreviation queue c := (ticks (select k (lists c))).

(** What happened to one container when [p] was taken from it. *)
Definition container_after (c c' : ChunkTickContainerState B F) (p : list (QueuedTick (tick_of B F k)))
  : Prop :=
  lifecycle c' = lifecycle c /\ (forall k', k' <> k -> select k' (lists c') = select k' (lists c)) /\
  queue c = p ++ queue c' /\ Forall (is_ready now) p.

(** The next tick of a queue is not ready. *)
Definition head_waits (t : option Z) : Prop :=
  match t with Some t => now < t | None => True end.

(** [r] stands for a due container, [u] for the head of one in the store. *)
Definition from_due (r : ReadyContainer) : Prop :=
  exists a, a ∈ due /\ due_pos a = rc_pos r /\ due_container a = rc_container r.

Definition update_of (cs : store) (u : ChunkPos * option Z) : Prop :=
  exists a c, a ∈ due /\ due_pos a = fst u /\ cs !! due_container a = Some c /\ snd u = list_head k c.

Record collecting (st : collection B F k) (took : Z -> list (QueuedTick (tick_of B F k))) : Prop := {
  cg_positions : (rc_pos <$> co_heap st) ++ (fst <$> co_updates st) ≡ₚ due_pos <$> due;
  cg_heap : Forall from_due (co_heap st);
  cg_store id : match cs0 !! id with
    | None => co_store st !! id = None
    | Some c => exists c', co_store st !! id = Some c' /\ container_after c c' (took id)
    end;
  cg_sub id : (qt_tick <$> took id) `sublist_of` co_ticks st;
  cg_due id : took id <> [] -> id ∈ due_container <$> due;
  cg_updates : Forall (fun u => update_of (co_store st) u /\
    ((max_ticks <= length (co_ticks st))%nat \/ head_waits (snd u))) (co_updates st);
  cg_ticks : co_ticks st ≡ₚ (due_container <$> due) ≫= (fun id => qt_tick <$> took id);
  cg_length : (length (co_ticks st) <= max_ticks)%nat;
}.

Lemma due_same a b : a ∈ due -> b ∈ due -> due_pos a = due_pos b \/ due_container a = due_container b -> a = b.
Proof.
  intros Ha Hb [E|E]; [by eapply (NoDup_fmap_elem_inj due_pos)|by eapply (NoDup_fmap_elem_inj due_container)].
Qed.

(** The queue of a container in the heap is there. *)
Lemma collecting_queue st took r heap :
  collecting st took -> co_heap st = r :: heap ->
  exists a c0 c, a ∈ due /\ due_pos a = rc_pos r /\ due_container a = rc_container r /\
    cs0 !! rc_container r = Some c0 /\ co_store st !! rc_container r = Some c /\
    container_after c0 c (took (rc_container r)) /\
    registered_queue k (co_store st) (rc_container r) = Some (c, select k (lists c)).
Proof.
  intros Hc Hh. pose proof (cg_heap _ _ Hc) as Hr. rewrite Hh in Hr.
  apply Forall_cons in Hr as [(a & Ha & Hp & Hi) _]. rewrite Forall_forall in Hreg.
  destruct (Hreg a Ha) as (c0 & Hc0 & Hl). rewrite Hi in Hc0. pose proof (cg_store _ _ Hc (rc_container r)) as Hs.
  rewrite Hc0 in Hs. destruct Hs as (c & Hcc & Haft). exists a, c0, c. split_and!; try done.
  unfold registered_queue. rewrite Hcc. simpl. rewrite decide_True; [done|]. destruct Haft as [-> _]. done.
Qed.
(** [p] more ticks taken from the container of [r], whose queue becomes [q]. *)
Definition took_more (took : Z -> list (QueuedTick (tick_of B F k))) (id : Z)
  (p : list (QueuedTick (tick_of B F k))) : Z -> list (QueuedTick (tick_of B F k)) :=
  fun i => if decide (i = id) then took i ++ p else took i.

(** The parts of the invariant that do not concern the heap and the new update. *)
Lemma collecting_take st took r heap c p q heap' extra ch :
  collecting st took -> co_heap st = r :: heap ->
  co_store st !! rc_container r = Some c -> queue c = p ++ ticks q -> Forall (is_ready now) p ->
  (length (co_ticks st) + length p <= max_ticks)%nat ->
  let c' := with_list k c q in
  let ticks' := co_ticks st ++ (qt_tick <$> p) in
  (rc_pos <$> heap') ++ (fst <$> co_updates st ++ extra) ≡ₚ due_pos <$> due ->
  Forall (fun r' => r' ∈ heap \/ (rc_pos r' = rc_pos r /\ rc_container r' = rc_container r)) heap' ->
  Forall (fun u => u = (rc_pos r, list_head k c') /\
    ((max_ticks <= length ticks')%nat \/ head_waits (snd u))) extra ->
  collecting (mkCollection (<[rc_container r := c']> (co_store st)) heap'
    (co_updates st ++ extra) ticks' ch) (took_more took (rc_container r) p).
Proof.
  intros Hc Hh Hcc Hq Hp Hlen c' ticks' Hperm Hheap Hextra.
  destruct (collecting_queue st took r heap Hc Hh) as (a & c0 & c1 & Ha & Hap & Hai & Hc0 & Hc1 & Haft & _).
  assert (c1 = c) as -> by congruence. pose proof (cg_heap _ _ Hc) as Hr. rewrite Hh in Hr.
  split; simpl; try done.
  - eapply Forall_impl; [exact Hheap|]. rewrite Forall_forall in Hr.
    intros r' [Hin|[Ep Ei]]; [apply Hr; by right|]. exists a. by rewrite Ep, Ei.
  - intros id. pose proof (cg_store _ _ Hc id) as Hs. destruct (decide (id = rc_container r)) as [->|Hne].
    + rewrite Hc0, lookup_insert_eq. exists c'. split; [done|]. unfold took_more. rewrite decide_True by done.
      destruct Haft as (H1 & H2 & H3 & H4). split_and!; [done| | |by apply Forall_app].
      * intros k' Hk'. unfold c'. simpl. rewrite select_update by done. auto.
      * rewrite H3, Hq. unfold c'. simpl. by rewrite select_update_eq, (assoc_L (++)).
    + rewrite lookup_insert_ne by done. unfold took_more. by rewrite decide_False.
  - intros id. unfold took_more. pose proof (cg_sub _ _ Hc id). case_decide.
    + subst. rewrite fmap_app. by apply sublist_app.
    + by apply sublist_inserts_r.
  - intros id. unfold took_more. case_decide as E; [intros _|exact (cg_due _ _ Hc id)].
    rewrite E, <- Hai. by apply list_elem_of_fmap_2.
  - apply Forall_app. split.
    + pose proof (cg_updates _ _ Hc) as Hu. rewrite Forall_forall in *.
      intros u Hin. destruct (Hu u Hin) as [(b & cb & Hb & Hbp & Hbc & Hut) Hw].
      assert (due_container b <> rc_container r) as Hne.
      { rewrite <- Hai. intros E. assert (b = a) as -> by (apply due_same; auto).
        pose proof (cg_positions _ _ Hc) as Hperm0. rewrite Hh in Hperm0. simpl in Hperm0.
        assert (NoDup ((rc_pos <$> r :: heap) ++ (fst <$> co_updates st))) as Hnd by (simpl; by rewrite Hperm0).
        simpl in Hnd. apply NoDup_cons in Hnd as [Hnin _]. apply Hnin. rewrite <- Hap, Hbp.
        apply elem_of_app. right. by apply list_elem_of_fmap_2. }
      split; [|unfold ticks'; rewrite length_app; naive_solver lia].
      exists b, cb. by rewrite lookup_insert_ne.
    + eapply Forall_impl; [exact Hextra|]. intros u [-> Hw]. split; [|done]. exists a, c'. simpl.
      rewrite Hai, lookup_insert_eq. done.
  - unfold ticks'. rewrite (cg_ticks _ _ Hc). symmetry. unfold took_more.
    rewrite <- (bind_update_perm (fun id => qt_tick <$> took id) _ (rc_container r) (qt_tick <$> p));
      [|done|rewrite <- Hai; by apply list_elem_of_fmap_2].
    apply reflexive_eq. apply list_bind_ext; [|done]. intros i. case_decide; [by rewrite fmap_app|done].
  - unfold ticks'. rewrite length_app, length_fmap. done.
Qed.

Section Take.
Context (st : collection B F k) (took : Z -> list (QueuedTick (tick_of B F k))).
Context (r : ReadyContainer) (heap : list ReadyContainer) (c : ChunkTickContainerState B F).
Context (p : list (QueuedTick (tick_of B F k))) (q : TickList (tick_of B F k)).
Context (Hc : collecting st took) (Hh : co_heap st = r :: heap).
Context (Hcc : co_store st !! rc_container r = Some c) (Hq : queue c = p ++ ticks q).
Context (Hp : Forall (is_ready now) p) (Hlen : (length (co_ticks st) + length p <= max_ticks)%nat).

Abbreviation ticks' := (co_ticks st ++ (qt_tick <$> p)).
Abbreviation store' := (<[rc_container r := with_list k c q]> (co_store st)).

(** The container goes back into the heap. *)
Lemma collecting_back r' ch :
  rc_pos r' = rc_pos r -> rc_container r' = rc_container r ->
  collecting (mkCollection store' (heap_push ReadyContainer_cmp r' heap) (co_updates st) ticks' ch)
    (took_more took (rc_container r) p).
Proof.
  intros Ep Ei. pose proof (cg_positions _ _ Hc) as Hperm. rewrite Hh in Hperm. simpl in Hperm.
  pose proof (collecting_take st took r heap c p q (heap_push ReadyContainer_cmp r' heap) [] ch
    Hc Hh Hcc Hq Hp Hlen) as Htake. simpl in Htake. rewrite app_nil_r in Htake. apply Htake.
  - rewrite heap_push_perm. simpl. by rewrite Ep.
  - rewrite heap_push_perm. constructor; [by right|]. apply Forall_forall. auto.
  - constructor.
Qed.

(** The container is finished and its new head recorded. *)
Lemma collecting_finish t ch :
  list_head k (with_list k c q) = t -> (max_ticks <= length ticks')%nat \/ head_waits t ->
  collecting (mkCollection store' heap (co_updates st ++ [(rc_pos r, t)]) ticks' ch)
    (took_more took (rc_container r) p).
Proof.
  intros <- Hw. pose proof (cg_positions _ _ Hc) as Hperm. rewrite Hh in Hperm. simpl in Hperm.
  apply (collecting_take st took r heap c p q heap _ ch Hc Hh Hcc Hq Hp Hlen).
  - rewrite fmap_app. simpl. rewrite (assoc_L (++)), (Permutation_app_comm _ [_]). done.
  - apply Forall_forall. auto.
  - constructor; [|done]. done.
Qed.
End Take.

Definition collect_measure (st : collection B F k) : nat :=
  (max_ticks - length (co_ticks st) + length (co_heap st))%nat.

Lemma collect_one_spec st took r heap :
  collecting st took -> co_heap st = r :: heap -> (length (co_ticks st) < max_ticks)%nat ->
  exists st' took', collect_one k now max_ticks r heap st = Some st' /\ collecting st' took' /\
    (collect_measure st' < collect_measure st)%nat.
Proof.
  intros Hc Hh Hlt.
  destruct (collecting_queue st took r heap Hc Hh) as (a & c0 & c & Ha & Hap & Hai & Hc0 & Hcc & Haft & Hq).
  unfold collect_one. rewrite Hq. simpl. unfold collect_measure. rewrite Hh.
  destruct (pop_ready (select k (lists c)) now) as [[q1 tick]|] eqn:Ep.
  - apply pop_ready_Some in Ep as (x & rest & Et & -> & Hle & ->).
    set (ch := if dirty_reported r then _ else _).
    destruct (drain_current _ _ now _) as [q2 more] eqn:Ed.
    apply drain_current_spec in Ed as (p & Ht & -> & Hp & Hlen). simpl in Ht. rewrite length_app in Hlen.
    simpl in Hlen. rewrite length_fmap in Hlen.
    assert (queue c = (x :: p) ++ ticks q2) as Hqc by (rewrite Et, Ht; done).
    assert (Forall (is_ready now) (x :: p)) as Hrd by (by constructor).
    assert ((length (co_ticks st) + length (x :: p) <= max_ticks)%nat) as Hl by (simpl; lia).
    pose proof (collecting_finish st took r heap c (x :: p) q2 Hc Hh Hcc Hqc Hrd Hl) as Hfin.
    pose proof (collecting_back st took r heap c (x :: p) q2 Hc Hh Hcc Hqc Hrd Hl) as Hback.
    unfold list_head in Hfin. simpl in Hfin, Hback. rewrite select_update_eq in Hfin.
    rewrite <- !(assoc_L (++)). simpl.
    destruct (peek q2) as [next|] eqn:Epk;
      [destruct ((length _ <? max_ticks)%nat && (trigger_tick next <=? now)) eqn:Eb|].
    + eexists _, _. split; [done|]. split; [by apply Hback|]. simpl.
      rewrite (Permutation_length (heap_push_perm _ _ _)), length_app. simpl. lia.
    + eexists _, _. split; [done|]. split; [apply Hfin; [done|]|simpl; rewrite length_app; simpl; lia].
      apply andb_false_iff in Eb as [Eb%Nat.ltb_ge|Eb%Z.leb_gt]; [by left|by right].
    + eexists _, _. split; [done|]. split; [apply Hfin; [done|by right]|simpl; rewrite length_app; simpl; lia].
  - eexists _, (took_more took (rc_container r) []). split; [done|]. split; [|simpl; lia].
    pose proof (collecting_finish st took r heap c [] (select k (lists c)) Hc Hh Hcc eq_refl) as Hfin.
    rewrite with_list_select, insert_id, app_nil_r in Hfin by done. apply Hfin; [done|simpl; lia|done|].
    right. unfold peek. apply pop_ready_None in Ep as [->|(y & rest & -> & Hnr)]; simpl; [done|].
    unfold is_ready in Hnr. lia.
Qed.

Lemma collect_loop_spec fuel st took :
  collecting st took -> (collect_measure st <= fuel)%nat ->
  exists st' took', collect_loop fuel k now max_ticks st = Some st' /\ collecting st' took' /\
    (co_heap st' = [] \/ (max_ticks <= length (co_ticks st'))%nat).
Proof.
  revert st took. induction fuel as [|fuel IH]; intros st took Hc Hf; simpl.
  all: case Nat.leb_spec; intros Hl; [by eauto 10|].
  all: destruct (co_heap st) as [|r heap] eqn:Eh; [by eauto 10|].
  - unfold collect_measure in Hf. rewrite Eh in Hf. simpl in Hf. lia.
  - destruct (collect_one_spec st took r heap Hc Eh Hl) as (st1 & took1 & -> & Hc1 & Hm). simpl.
    apply (IH st1 took1 Hc1). lia.
Qed.
Lemma prepare_loop_spec l heap updates :
  (forall a, a ∈ l -> a ∈ due) -> Forall from_due heap ->
  Forall (fun u => update_of cs0 u /\ head_waits (snd u)) updates ->
  exists heap' updates', for_each l (prepare_one k cs0 now) (heap, updates) = Some (heap', updates') /\
    (rc_pos <$> heap') ++ (fst <$> updates') ≡ₚ (rc_pos <$> heap) ++ (fst <$> updates) ++ (due_pos <$> l) /\
    Forall from_due heap' /\ Forall (fun u => update_of cs0 u /\ head_waits (snd u)) updates'.
Proof.
  revert heap updates. induction l as [|a l IH]; intros heap updates Hin Hheap Hupd; simpl.
  { exists heap, updates. by rewrite app_nil_r. }
  assert (a ∈ due) as Ha by (apply Hin; left). rewrite Forall_forall in Hreg.
  destruct (Hreg a Ha) as (c & Hc & Hlc). unfold registered_queue. rewrite Hc. simpl.
  rewrite decide_True by done. simpl.
  assert (forall t, list_head k c = t -> head_waits t ->
    Forall (fun u => update_of cs0 u /\ head_waits (snd u)) (updates ++ [(due_pos a, t)])) as Hnew.
  { intros t <- Hw. apply Forall_app. split; [done|]. constructor; [|done]. split; [|done]. by exists a, c. }
  unfold list_head in Hnew. destruct (peek (select k (lists c))) as [tick|].
  - case Z.leb_spec; intros Hle; simpl.
    + destruct (IH (heap_push ReadyContainer_cmp (ReadyContainer_new a tick false) heap) updates)
        as (h' & u' & -> & Hperm & Hh & Hu); [by set_solver| |done|].
      { rewrite heap_push_perm. constructor; [by exists a|done]. }
      exists h', u'. split_and!; try done. rewrite Hperm, heap_push_perm. simpl. solve_Permutation.
    + destruct (IH heap (updates ++ [(due_pos a, Some (trigger_tick tick))]))
        as (h' & u' & -> & Hperm & Hh & Hu); [by set_solver|done|by apply Hnew|].
      exists h', u'. split_and!; try done. rewrite Hperm, fmap_app. simpl. solve_Permutation.
  - simpl. destruct (IH heap (updates ++ [(due_pos a, None)]))
      as (h' & u' & -> & Hperm & Hh & Hu); [by set_solver|done|by apply Hnew|].
    exists h', u'. split_and!; try done. rewrite Hperm, fmap_app. simpl. solve_Permutation.
Qed.

Lemma prepare_ready_spec :
  exists heap updates, prepare_ready_containers k cs0 now due = Some (heap, updates) /\
    collecting (mkCollection cs0 heap updates [] []) (fun _ => []).
Proof.
  destruct (prepare_loop_spec due [] []) as (heap & updates & E & Hperm & Hh & Hu); try done.
  simpl in Hperm. exists heap, updates. split; [exact E|]. split; simpl; try done.
  - intros id. destruct (cs0 !! id) as [c|] eqn:Ec; [|done]. exists c. split; [done|]. by repeat split.
  - eapply Forall_impl; [exact Hu|]. intros u [H1 H2]. auto.
  - apply reflexive_eq. clear. induction due as [|a l IH]; [done|]. exact IH.
  - lia.
Qed.

Lemma remaining_updates_spec st took :
  collecting st took ->
  exists rest, mapM (remaining_update k (co_store st)) (co_heap st) = Some rest /\
    (fst <$> rest = rc_pos <$> co_heap st) /\
    Forall (update_of (co_store st)) rest.
Proof.
  intros Hc. pose proof (cg_heap _ _ Hc) as Hh. revert Hh. generalize (co_heap st). intros heap.
  induction heap as [|r heap IH]; intros Hh; simpl.
  { by exists []. }
  apply Forall_cons in Hh as [(a & Ha & Hp & Hi) Hh]. destruct (IH Hh) as (rest & -> & Hfst & Hrest).
  rewrite Forall_forall in Hreg. destruct (Hreg a Ha) as (c0 & Hc0 & _).
  pose proof (cg_store _ _ Hc (due_container a)) as Hs. rewrite Hc0 in Hs. destruct Hs as (c & Hcc & _).
  unfold remaining_update. rewrite <- Hi, Hcc. simpl. eexists. split; [done|]. split; [rewrite fmap_cons; by rewrite Hfst|].
  constructor; [|done]. by exists a, c.
Qed.

Lemma collect_registered_spec :
  exists st took, collect_registered_ticks k cs0 now max_ticks due = Some st /\
    co_heap st = [] /\ collecting st took.
Proof.
  unfold collect_registered_ticks. destruct prepare_ready_spec as (heap & updates & -> & Hc0). simpl.
  destruct (collect_loop_spec (max_ticks + length heap) _ _ Hc0) as (st & took & -> & Hc & Hend).
  { unfold collect_measure. simpl. lia. }
  simpl. destruct (remaining_updates_spec st took Hc) as (rest & -> & Hfst & Hrest). simpl.
  eexists _, took. split; [done|]. split; [done|]. destruct Hc as [H1 H2 H3 H4 H5 H6 H7 H8].
  split; simpl; try done.
  - rewrite fmap_app, Hfst. by rewrite Permutation_app_comm.
  - apply Forall_app. split; [done|]. destruct Hend as [Hn|Hm].
    + rewrite Hn in Hfst. destruct rest; [constructor|done].
    + eapply Forall_impl; [exact Hrest|]. intros u Hu. auto.
Qed.
End Collect.

(** ** The scheduler keeps its invariant *)

Section Scheduler.
Context {B F : Type} `{!TickKey B, !TickKey F}.
Context (owner : Z -> ChunkPos).
Implicit Types w : WorldTickScheduler B F.

Definition sched_ok w : Prop := world_ok owner fresh (containers w) (index w).

(** Which container is registered where, and how far each container is. *)
Definition registrations w : gmap ChunkPos Z := reg_container <$> ix_chunks (index w).

Definition container_lifecycle w (id : Z) : option ChunkTickContainerLifecycle :=
  lifecycle <$> containers w !! id.

(** A chunk reference is that of the chunk that owns the container. *)
Definition chunk_ok w (chunk : FullChunkRef) : Prop :=
  owner (chunk_container chunk) = chunk_pos chunk /\ ChunkPos_ok (chunk_pos chunk) /\
  is_Some (containers w !! chunk_container chunk).

Lemma index_ok_register s pos r :
  index_ok s -> ix_chunks s !! pos = None -> ChunkPos_ok pos -> reg_active r = None ->
  index_ok (set_chunks (<[pos := r]> (ix_chunks s)) s).
Proof.
  intros Hok Hn Hp Ha. split; simpl.
  - apply positions_ok_insert; [done|exact (io_positions _ Hok)].
  - intros k. rewrite deadlines_set_chunks. eapply holds_proper; [|exact (io_deadlines _ Hok k)]. intros x.
    rewrite is_deadline_insert by (done || exact (io_positions _ Hok)). unfold active_rank. rewrite Ha. split.
    + by intros [(_ & [? ?] & _)|[? _]].
    + intros Hx. right. split; [done|]. destruct Hx as (q & r' & Hq & -> & _). intros E.
      assert (q = pos) as -> by (apply PackedChunkPos_inj; [by eapply (io_positions _ Hok)|done|done]). congruence.
  - exact (io_generation _ Hok).
  - intros q r' a [[<- <-]|[_ Hq]]%lookup_insert_Some; [congruence|]. by apply (io_active _ Hok q).
Qed.

Lemma register_chunk_ok w chunk :
  sched_ok w -> chunk_ok w chunk ->
  exists w' res, register_chunk w chunk = Some (w', res) /\ sched_ok w'.
Proof.
  intros Hok (Ho & Hp & [c Hc]). unfold register_chunk. rewrite Hc. simpl.
  case_decide as Hl; [|by eauto]. destruct (ix_chunks (index w) !! chunk_pos chunk) eqn:Er; [by eauto|].
  eexists _, _. split; [done|]. destruct Hok as [H1 H2 H3]. split; simpl.
  - by apply index_ok_register.
  - intros pos r [[<- <-]|[Hne Hr]]%lookup_insert_Some; simpl.
    + split; [done|]. eexists. rewrite lookup_insert_eq. split; [done|]. split; [done|]. by intros [] _.
    + destruct (H2 _ _ Hr) as (Hor & c1 & Hc1 & Hl1 & Hh). split; [done|]. exists c1.
      rewrite lookup_insert_ne; [done|]. intros E. congruence.
  - intros id c1 [[<- <-]|[Hne Hc1]]%lookup_insert_Some Hl1.
    + rewrite Ho, lookup_insert_eq. by eexists.
    + destruct (H3 _ _ Hc1 Hl1) as (r & Hr & <-). exists r. split; [|done].
      rewrite lookup_insert_ne; [done|]. intros E. congruence.
Qed.

Lemma update_head_ok P w pos k r c :
  world_ok owner P (containers w) (index w) -> ix_chunks (index w) !! pos = Some r ->
  containers w !! reg_container r = Some c ->
  exists s', update_head w (mkChunkRef pos (reg_container r)) k (list_head k c) = Some (set_index w s', Ok ()) /\
    world_ok owner (fun k' q => P k' q /\ ~ (k' = k /\ q = pos)) (containers w) s' /\
    ix_chunks s' = <[pos := reg_set_head k (list_head k c) r]> (ix_chunks (index w)).
Proof.
  intros Hok Hr Hc. unfold update_head. simpl. rewrite Hr, decide_True by done.
  destruct (world_ok_set_head owner P _ _ pos k r c Hok Hr Hc) as (s' & -> & Hok' & Hch & _).
  simpl. eauto.
Qed.

Lemma unpack_chunk_ok w pos now :
  sched_ok w -> exists w' res, unpack_chunk w pos now = Some (w', res) /\ sched_ok w' /\
    registrations w' = registrations w /\
    (forall id, container_lifecycle w' id = container_lifecycle w id) /\
    (is_Some (registrations w !! pos) -> res = Ok ()).
Proof.
  intros Hok. unfold unpack_chunk, registrations.
  destruct (ix_chunks (index w) !! pos) as [r|] eqn:Er.
  2: { eexists _, _. split; [done|]. split_and!; try done. rewrite lookup_fmap, Er. by intros [? ?]. }
  destruct (wo_registered _ _ _ _ Hok _ _ Er) as (Ho & c & Hc & Hl & Hh). rewrite Hc. simpl.
  rewrite decide_True by done. set (c' := mkContainer Registered _).
  pose proof (world_ok_registered owner _ _ _ _ c c' Hok Hc Hl eq_refl) as Hok1. rewrite Ho in Hok1.
  set (w1 := set_container w (reg_container r) c').
  destruct (update_head_ok _ w1 pos KindBlock r c' Hok1 Er) as (s1 & -> & Hok2 & Hch1);
    [apply lookup_insert_eq|]. simpl.
  destruct (update_head_ok _ (set_index w1 s1) pos KindFluid (reg_set_head KindBlock (list_head KindBlock c') r) c'
    Hok2) as (s2 & E2 & Hok3 & Hch2); simpl; [rewrite Hch1; apply lookup_insert_eq|apply lookup_insert_eq|].
  simpl in E2. eexists _, _. split; [exact E2|]. split_and!; try done.
  - eapply world_ok_weaken; [|exact Hok3]. intros k q [[[HP|[-> HP]] Hb] Hf]; [done|]. destruct k; tauto.
  - simpl in *. rewrite Hch2, Hch1, insert_insert_eq, fmap_insert.
    apply insert_id. by rewrite lookup_fmap, Er.
  - intros id. unfold container_lifecycle, w1. simpl.
    destruct (decide (id = reg_container r)) as [->|Hne]; [|by rewrite lookup_insert_ne].
    rewrite lookup_insert_eq, Hc. simpl. by rewrite Hl.
Qed.

Lemma unregister_chunk_ok w pos :
  sched_ok w -> exists w', unregister_chunk w pos = Some w' /\ sched_ok w' /\
    registrations w' = delete pos (registrations w) /\
    (forall id, registrations w !! pos <> Some id -> container_lifecycle w' id = container_lifecycle w id).
Proof.
  intros Hok. unfold unregister_chunk, registrations.
  destruct (ix_chunks (index w) !! pos) as [r|] eqn:Er.
  2: { eexists. split; [done|]. split_and!; try done.
       rewrite delete_id; [done|]. by rewrite lookup_fmap, Er. }
  destruct Hok as [H1 H2 H3]. destruct (unregister_index _ pos r H1 Er) as (s' & E & Hok' & Hch).
  destruct (drop_head KindBlock _ _ _ _) as [s1|]; [|done]. simpl in *. rewrite E. simpl.
  destruct (H2 _ _ Er) as (Ho & c & Hc & Hl & Hh). rewrite Hc. simpl. eexists. split; [done|].
  split; [|split; [simpl; by rewrite Hch, fmap_delete|]].
  2: { intros id Hid. rewrite lookup_fmap, Er in Hid. unfold container_lifecycle. simpl.
       rewrite lookup_insert_ne; [done|]. intros E1. apply Hid. simpl. congruence. }
  split; simpl; [done| |].
  - intros q r' Hr. rewrite Hch in Hr. apply lookup_delete_Some in Hr as [Hne Hr].
    destruct (H2 _ _ Hr) as (Ho' & c1 & Hc1 & Hrest). split; [done|]. exists c1.
    rewrite lookup_insert_ne; [done|]. congruence.
  - intros id c1 [[<- <-]|[Hne Hc1]]%lookup_insert_Some Hl1; [done|].
    destruct (H3 _ _ Hc1 Hl1) as (r1 & Hr1 & <-). exists r1. rewrite Hch. split; [|done].
    rewrite lookup_delete_ne; [done|]. intros E1. congruence.
Qed.

Lemma schedule_tick_ok k w chunk type pos trigger prio order :
  sched_ok w -> chunk_ok w chunk ->
  exists w' res, schedule_tick k w chunk type pos trigger prio order = Some (w', res) /\ sched_ok w'.
Proof.
  intros Hok (Ho & Hp & [c Hc]). unfold schedule_tick. rewrite Hc. simpl.
  destruct (schedule _ type pos trigger prio order) as [t added] eqn:Es. set (c' := with_list k c t).
  assert (lifecycle c <> Registered -> world_ok owner fresh (<[chunk_container chunk := c']> (containers w)) (index w))
    as Hun by (intros Hn; apply world_ok_unregistered; [done|intros c1 ?; congruence|done]).
  case_decide as E1; [eexists _, _; split; [done|]; apply Hun; congruence|].
  case_decide as E2; [by eauto|].
  assert (lifecycle c = Registered -> list_head k c' = list_head k c ->
    world_ok owner fresh (<[chunk_container chunk := c']> (containers w)) (index w)) as Hsame.
  { intros Hl Eh. eapply world_ok_weaken; [|exact (world_ok_registered owner _ _ _ _ c c' Hok Hc Hl Hl)].
    intros k' q [?|[_ Hne]]; [done|]. destruct (decide (k' = k)) as [->|]; [done|].
    by destruct Hne; apply list_head_other. }
  assert (list_head k c' = list_head k c -> world_ok owner fresh (<[chunk_container chunk := c']> (containers w)) (index w))
    as Hkeep by (intros; destruct (decide (lifecycle c = Registered)); auto).
  destruct added; simpl; [case_decide as Eh; [eexists _, _; split; [done|]; by apply Hkeep|]|].
  - destruct (decide (lifecycle c = Registered)) as [Hl|Hl].
    + destruct (wo_owned _ _ _ _ Hok _ _ Hc Hl) as (r & Hr & Hrc). rewrite Ho in Hr.
      pose proof (world_ok_registered owner _ _ _ _ c c' Hok Hc Hl Hl) as Hok1. rewrite Ho in Hok1.
      destruct (update_head_ok _ (set_container w (chunk_container chunk) c') (chunk_pos chunk) k r c' Hok1 Hr)
        as (s1 & E & Hok2 & _); [rewrite Hrc; apply lookup_insert_eq|]. rewrite Hrc in E.
      destruct chunk as [cp ci]. simpl in *. rewrite E. simpl. eexists _, _. split; [done|].
      eapply world_ok_weaken; [|exact Hok2]. intros k' q [[?|[-> Hne]] Hk]; [done|].
      destruct (decide (k' = k)) as [->|]; [tauto|]. by destruct Hne; apply list_head_other.
    + unfold update_head. simpl. destruct (ix_chunks (index w) !! chunk_pos chunk) as [r|] eqn:Er;
        [|simpl; eexists _, _; split; [done|]; by apply Hun].
      rewrite decide_False; [simpl; eexists _, _; split; [done|]; by apply Hun|]. intros E.
      destruct (wo_registered _ _ _ _ Hok _ _ Er) as (_ & c1 & Hc1 & Hl1 & _). congruence.
  - eexists _, _. split; [done|]. apply Hkeep. unfold list_head, peek, c'. simpl.
    rewrite select_update_eq, (schedule_false_ticks _ _ _ _ _ _ _ Es). done.
Qed.

Lemma reconcile_ok w active :
  sched_ok w -> NoDup active -> exists w' res, reconcile w active = Some (w', res) /\ sched_ok w' /\
    registrations w' = registrations w /\ containers w' = containers w /\
    ((forall pos, pos ∈ active -> is_Some (registrations w !! pos)) -> res = Ok ()).
Proof.
  intros [H1 H2 H3] Hnd. unfold reconcile.
  destruct (reconcile_spec (index w) active H1 Hnd) as (s' & res & -> & Hok & Hsame & Hres). simpl.
  eexists _, _. split; [done|]. split; [|split; [|split; [done|]]].
  2: { unfold registrations. simpl. apply map_eq. intros pos. rewrite !lookup_fmap.
       specialize (Hsame pos). inversion Hsame as [r0 r1 [Hcon _] Ha Hb|Ha Hb]; simpl; congruence. }
  2: { intros Hall. rewrite decide_True in Hres; [by destruct Hres|]. apply Forall_forall. intros pos Hpos.
       specialize (Hall pos Hpos). unfold registrations in Hall. rewrite lookup_fmap in Hall.
       by apply fmap_is_Some in Hall. }
  split; simpl; [done| |].
  - intros pos r Hr. specialize (Hsame pos). rewrite Hr in Hsame.
    inversion Hsame as [r0 r1 [Hcon Hh] Ha Hb|]; subst. symmetry in Ha.
    destruct (H2 _ _ Ha) as (Ho & c & Hc & Hl & Hhd). rewrite <- Hcon. split; [done|]. exists c.
    split_and!; try done. intros k Hk. rewrite <- Hh. auto.
  - intros id c Hc Hl. destruct (H3 _ _ Hc Hl) as (r & Hr & <-). specialize (Hsame (owner (reg_container r))).
    rewrite Hr in Hsame. inversion Hsame as [r0 r1 [Hcon Hh] Ha Hb|]; subst. exists r1. by rewrite Hcon.
Qed.
(** Taking the due containers leaves only their heads stale. *)
Lemma taken_world_ok k now (cs : gmap Z (ChunkTickContainerState B F)) s s' due :
  world_ok owner fresh cs s -> taken k now s s' due ->
  world_ok owner (fun k' pos => k' = k /\ pos ∈ due_pos <$> due) cs s'.
Proof.
  intros [H1 H2 H3] Htk. split; [exact (tk_ok _ _ _ _ _ Htk)| |].
  - intros pos r Hr. rewrite (tk_chunks _ _ _ _ _ Htk) in Hr. case_decide as Hd.
    + destruct (ix_chunks s !! pos) as [r0|] eqn:E0; [|done]. injection Hr as <-.
      rewrite reg_set_head_container. destruct (H2 _ _ E0) as (Ho & c & Hc & Hl & Hh). split; [done|].
      exists c. split_and!; try done. intros k' Hk'. rewrite reg_head_set, decide_False by naive_solver.
      apply Hh. by intros [].
    + destruct (H2 _ _ Hr) as (Ho & c & Hc & Hl & Hh). split; [done|]. exists c. split_and!; try done.
      intros k' _. apply Hh. by intros [].
  - intros id c Hc Hl. destruct (H3 _ _ Hc Hl) as (r & Hr & Hrc).
    rewrite (tk_chunks _ _ _ _ _ Htk), Hr. case_decide; simpl; [|by eauto].
    eexists. split; [done|]. by rewrite reg_set_head_container.
Qed.

Section Batch.
Context (k : TickKind) (now : Z) (max_ticks : nat) (w : WorldTickScheduler B F).
Context (s' : WorldTickSchedulerState) (due : list ActiveTickContainer).
Context (Hok : sched_ok w) (Htk : taken k now (index w) s' due).

(** The container of a due entry, and that the entry is determined by it. *)
Lemma due_registered a :
  a ∈ due -> exists r c, ix_chunks (index w) !! due_pos a = Some r /\ reg_container r = due_container a /\
    owner (due_container a) = due_pos a /\ containers w !! due_container a = Some c /\
    lifecycle c = Registered /\ is_Some (active_rank r (active_generation (index w))).
Proof.
  intros Ha. pose proof (tk_due _ _ _ _ _ Htk) as Hd. rewrite Forall_forall in Hd.
  destruct (Hd _ Ha) as (r & t & Hr & Hrc & _ & _ & Hact).
  destruct (wo_registered _ _ _ _ Hok _ _ Hr) as (Ho & c & Hc & Hl & _). rewrite Hrc in Ho, Hc.
  exists r, c. by split_and!; try rewrite Hact.
Qed.

Lemma due_containers_nodup : NoDup (due_container <$> due).
Proof.
  pose proof (tk_nodup _ _ _ _ _ Htk) as Hnd. apply (NoDup_fmap_1 owner).
  rewrite <- list_fmap_compose. erewrite list_fmap_ext; [exact Hnd|]. intros i a Ha. simpl.
  destruct (due_registered a) as (r & c & _ & _ & Ho & _); [by eapply list_elem_of_lookup_2|done].
Qed.

Lemma due_all_registered :
  Forall (fun a => exists c, containers w !! due_container a = Some c /\ lifecycle c = Registered) due.
Proof.
  apply Forall_forall. intros a Ha. destruct (due_registered a Ha) as (r & c & _ & _ & _ & Hc & Hl & _). eauto.
Qed.

Context (st : collection B F k) (took : Z -> list (QueuedTick (tick_of B F k))).
Context (Hcol : collecting k now max_ticks (containers w) due st took) (Hheap : co_heap st = []).

(** A container from which nothing was taken keeps its head. *)
Lemma untouched_head pos r :
  ix_chunks (index w) !! pos = Some r -> pos ∉ due_pos <$> due ->
  exists c c', containers w !! reg_container r = Some c /\ co_store st !! reg_container r = Some c' /\
    lifecycle c' = Registered /\ forall k', reg_head k' r = list_head k' c'.
Proof.
  intros Hr Hnd. destruct (wo_registered _ _ _ _ Hok _ _ Hr) as (Ho & c & Hc & Hl & Hh).
  pose proof (cg_store _ _ _ _ _ _ _ Hcol (reg_container r)) as Hs. rewrite Hc in Hs.
  destruct Hs as (c' & Hc' & Hl' & Hother & Hq & _). exists c, c'. split_and!; try done; [congruence|].
  intros k'. rewrite Hh by (by intros []). unfold list_head, peek. destruct (decide (k' = k)) as [->|Hne].
  - assert (took (reg_container r) = []) as E; [|by rewrite Hq, E].
    destruct (took (reg_container r)) eqn:Et; [done|]. destruct Hnd.
    assert (reg_container r ∈ due_container <$> due) as (a & Ea & Ha)%list_elem_of_fmap
      by (apply (cg_due _ _ _ _ _ _ _ Hcol); by rewrite Et).
    destruct (due_registered a Ha) as (_ & _ & _ & _ & Hoa & _). rewrite <- Ea, Ho in Hoa. rewrite Hoa.
    by apply list_elem_of_fmap_2.
  - by rewrite Hother.
Qed.

Lemma collected_world_ok :
  world_ok owner (fun k' pos => k' = k /\ pos ∈ due_pos <$> due) (co_store st) s'.
Proof.
  destruct (taken_world_ok k now _ _ _ _ Hok Htk) as [H1 H2 H3]. split; [done| |].
  - intros pos r Hr. destruct (H2 _ _ Hr) as (Ho & c & Hc & Hl & Hh). split; [done|].
    pose proof (cg_store _ _ _ _ _ _ _ Hcol (reg_container r)) as Hs. rewrite Hc in Hs.
    destruct Hs as (c' & Hc' & Hl' & Hother & Hq & _). exists c'. split_and!; [done|congruence|].
    intros k' Hk'. destruct (decide (k' = k)) as [->|Hne].
    + assert (pos ∉ due_pos <$> due) as Hnd by tauto. rewrite (tk_chunks _ _ _ _ _ Htk), decide_False in Hr by done.
      destruct (untouched_head pos r Hr Hnd) as (c1 & c2 & _ & Hc2 & _ & Hhd). rewrite Hhd. congruence.
    + rewrite Hh by done. unfold list_head. by rewrite Hother.
  - intros id c' Hc' Hl'. pose proof (cg_store _ _ _ _ _ _ _ Hcol id) as Hs.
    destruct (containers w !! id) as [c|] eqn:Ec; [|congruence].
    destruct Hs as (c1 & Hc1 & Hl1 & _). apply (H3 _ _ Ec). congruence.
Qed.

Lemma collected_updates :
  Forall (fun u => exists r c, ix_chunks s' !! fst u = Some r /\ co_store st !! reg_container r = Some c /\
            snd u = list_head k c) (co_updates st).
Proof.
  eapply Forall_impl; [exact (cg_updates _ _ _ _ _ _ _ Hcol)|].
  intros u [(a & c & Ha & Hap & Hc & Hu) _]. destruct (due_registered a Ha) as (r & c0 & Hr & Hrc & _).
  exists (reg_set_head k None r), c. rewrite reg_set_head_container, Hrc, <- Hap. split_and!; try done.
  rewrite (tk_chunks _ _ _ _ _ Htk), decide_True by by apply list_elem_of_fmap_2. by rewrite Hr.
Qed.

(** With room left in the batch, no active container has a ready tick left. *)
Lemma collected_all pos r c' :
  (length (co_ticks st) < max_ticks)%nat -> ix_chunks (index w) !! pos = Some r ->
  is_Some (active_rank r (active_generation (index w))) -> co_store st !! reg_container r = Some c' ->
  head_waits now (list_head k c').
Proof.
  intros Hlen Hr Ha Hc'. destruct (decide (pos ∈ due_pos <$> due)) as [Hin|Hnd].
  - pose proof (cg_positions _ _ _ _ _ _ _ Hcol) as Hperm. rewrite Hheap in Hperm. simpl in Hperm.
    rewrite <- Hperm in Hin. apply list_elem_of_fmap in Hin as (u & -> & Hu).
    pose proof (cg_updates _ _ _ _ _ _ _ Hcol) as Hup. rewrite Forall_forall in Hup.
    destruct (Hup u Hu) as [(a & c & Hain & Hap & Hc & Eu) [?|Hw]]; [lia|].
    destruct (due_registered a Hain) as (r' & _ & Hr' & Hrc & _). rewrite Hap, Hr in Hr'. injection Hr' as <-.
    rewrite Eu in Hw. congruence.
  - destruct (untouched_head pos r Hr Hnd) as (c1 & c2 & _ & Hc2 & _ & Hhd).
    assert (c2 = c') as -> by congruence. rewrite <- Hhd. destruct (reg_head k r) as [t|] eqn:Et; [|done].
    simpl. destruct (decide (t <= now)); [|lia]. destruct Hnd.
    apply (tk_complete _ _ _ _ _ Htk). by exists r, t.
Qed.
End Batch.
(** What a collection promises: [took id] was taken from the front of container [id]. *)
Record batch_spec (k : TickKind) (now : Z) (max_ticks : nat) (w w' : WorldTickScheduler B F)
  (ts : list (ScheduledTick (tick_of B F k))) (took : Z -> list (QueuedTick (tick_of B F k))) : Prop := {
  bs_length : (length ts <= max_ticks)%nat;
  bs_containers id c : containers w !! id = Some c ->
    exists c', containers w' !! id = Some c' /\ container_after k now c c' (took id);
  bs_order id : (qt_tick <$> took id) `sublist_of` ts;
  bs_ticks : exists ids, NoDup ids /\ ts ≡ₚ ids ≫= (fun id => qt_tick <$> took id);
  bs_active id : took id <> [] -> is_active (index w) (owner id);
  bs_exhaustive pos r c' : (length ts < max_ticks)%nat -> ix_chunks (index w) !! pos = Some r ->
    is_Some (active_rank r (active_generation (index w))) ->
    containers w' !! reg_container r = Some c' -> head_waits now (list_head k c');
}.

Lemma batch_spec_of_collection k now max_ticks w s s1 due st took :
  sched_ok w -> taken k now (index w) s due ->
  collecting k now max_ticks (containers w) due st took -> co_heap st = [] ->
  batch_spec k now max_ticks w (mkScheduler (co_store st) (next_order w) s1) (co_ticks st) took.
Proof.
  intros Hok Htk Hcol Hheap. split; simpl.
  - exact (cg_length _ _ _ _ _ _ _ Hcol).
  - intros id c Hc. pose proof (cg_store _ _ _ _ _ _ _ Hcol id) as Hs. by rewrite Hc in Hs.
  - exact (cg_sub _ _ _ _ _ _ _ Hcol).
  - exists (due_container <$> due). split; [by eapply due_containers_nodup|exact (cg_ticks _ _ _ _ _ _ _ Hcol)].
  - intros id (a & -> & Ha)%(cg_due _ _ _ _ _ _ _ Hcol id)%list_elem_of_fmap.
    destruct (due_registered k now w s due Hok Htk a Ha) as (r & c & Hr & _ & Ho & _ & _ & Hact).
    exists r. by rewrite Ho.
  - intros pos r c'. by eapply collected_all.
Qed.

Lemma collecting_nothing k now max_ticks w s :
  taken k now (index w) s [] ->
  collecting k now max_ticks (containers w) [] (mkCollection (containers w) [] [] [] []) (fun _ => []).
Proof.
  intros Htk. split; simpl; try done; [|lia].
  intros id. destruct (containers w !! id) as [c|]; [|done]. exists c. by repeat split.
Qed.

Lemma collect_ticks_ok k w now max_ticks :
  sched_ok w ->
  exists w' ts changed took, collect_ticks k w now max_ticks = Some (w', (ts, changed)) /\
    sched_ok w' /\ batch_spec k now max_ticks w w' ts took.
Proof.
  intros Hok. unfold collect_ticks. case Nat.eqb_spec; intros Hm.
  { subst. exists w, [], [], (fun _ => []). split; [done|]. split; [done|]. split; simpl; try done; [| |lia].
    - intros id c Hc. exists c. by repeat split.
    - exists []. by split; [constructor|]. }
  destruct (take_due_loop_spec k now _ (index w) (wo_index _ _ _ _ Hok) (Nat.le_refl _)) as (s & due & E & Htk).
  unfold take_due. rewrite E. simpl. destruct due as [|a due].
  - eexists _, _, _, (fun _ => []). split; [done|]. split.
    + eapply world_ok_weaken; [|exact (taken_world_ok k now _ _ _ _ Hok Htk)].
      intros k' q [_ Hq]. by apply elem_of_nil in Hq.
    + apply (batch_spec_of_collection k now max_ticks w s s [] (mkCollection (containers w) [] [] [] []) _ Hok Htk);
        [by eapply collecting_nothing|done].
  - set (d := a :: due) in *.
    destruct (collect_registered_spec k now max_ticks (containers w) d (tk_nodup _ _ _ _ _ Htk)
      (due_containers_nodup _ _ _ _ _ Hok Htk) (due_all_registered _ _ _ _ _ Hok Htk))
      as (st & took & -> & Hheap & Hcol). simpl.
    pose proof (cg_positions _ _ _ _ _ _ _ Hcol) as Hperm. rewrite Hheap in Hperm. simpl in Hperm.
    destruct (apply_updates_ok owner k (co_store st) (co_updates st) s) as (s2 & -> & Hok2 & _).
    { eapply world_ok_weaken; [|by eapply collected_world_ok]. intros k' q. by rewrite Hperm. }
    { by eapply collected_updates. }
    simpl. eexists _, _, _, took. split; [done|]. split; [exact Hok2|]. by eapply batch_spec_of_collection.
Qed.

(** ** Reachable schedulers *)

(** Changes a chunk makes to its own container outside the index. *)
Inductive container_step : ChunkTickContainerState B F -> ChunkTickContainerState B F -> Prop :=
| cs_promote c : container_step c (fst (promote_to_full c))
| cs_schedule k c type pos trigger prio order :
    container_step c (fst (schedule_unregistered k c type pos trigger prio order))
| cs_pending k c type pos prio : container_step c (fst (container_schedule_pending k c type pos prio))
| cs_remove c predicate : container_step c (fst (remove_pending_blocks_matching c predicate)).

Inductive sched_step : WorldTickScheduler B F -> WorldTickScheduler B F -> Prop :=
| ss_order w : sched_step w (fst (next_sub_tick_order w))
| ss_new w id l : containers w !! id = None -> sched_step w (set_container w id (ChunkTickContainer_new l))
| ss_new_proto w id l :
    containers w !! id = None -> sched_step w (set_container w id (ChunkTickContainer_new_proto l))
| ss_container w id c c' :
    containers w !! id = Some c -> container_step c c' -> sched_step w (set_container w id c')
| ss_register w chunk w' res :
    chunk_ok w chunk -> register_chunk w chunk = Some (w', res) -> sched_step w w'
| ss_unpack w pos now w' res : unpack_chunk w pos now = Some (w', res) -> sched_step w w'
| ss_unregister w pos w' : unregister_chunk w pos = Some w' -> sched_step w w'
| ss_schedule k w chunk type pos trigger prio order w' res :
    chunk_ok w chunk -> schedule_tick k w chunk type pos trigger prio order = Some (w', res) ->
    sched_step w w'
| ss_reconcile w active w' res :
    NoDup active -> reconcile w active = Some (w', res) -> sched_step w w'
| ss_collect k w now max_ticks w' batch :
    collect_ticks k w now max_ticks = Some (w', batch) -> sched_step w w'.

Definition sched_reachable w : Prop := rtc sched_step (WorldTickScheduler_new ∅) w.

(** A container step leaves a registered container alone and registers none. *)
Lemma container_step_registered c c' :
  container_step c c' ->
  (lifecycle c = Registered /\ c' = c) \/ (lifecycle c <> Registered /\ lifecycle c' <> Registered).
Proof.
  destruct 1 as [c|k c type pos trigger prio order|k c type pos prio|c predicate].
  - unfold promote_to_full. case_decide as E; simpl; [right; split; [congruence|done]|].
    destruct (decide (lifecycle c = Registered)); auto.
  - unfold schedule_unregistered. case_decide as E.
    + destruct (schedule _ _ _ _ _ _) as [t added]. simpl. right. split; congruence.
    + simpl. destruct (decide (lifecycle c = Registered)); auto.
  - unfold container_schedule_pending. case_decide as E.
    + destruct (schedule_pending _ _ _ _) as [t added]. simpl. right. split; congruence.
    + simpl. destruct (decide (lifecycle c = Registered)); auto.
  - unfold remove_pending_blocks_matching. case_decide as E.
    + destruct (remove_pending_matching _ _) as [t n]. simpl. right. split; congruence.
    + simpl. destruct (decide (lifecycle c = Registered)); auto.
Qed.

Lemma sched_new_ok : sched_ok (WorldTickScheduler_new ∅).
Proof.
  split; simpl.
  - split; simpl.
    1: intros pos r; by rewrite lookup_empty.
    2: lia.
    2: intros pos r a; by rewrite lookup_empty.
    intros []; (split; [constructor|]); intros x; rewrite elem_of_nil; (split; [done|]);
      intros (pos & r & Hr & _); by rewrite lookup_empty in Hr.
  - intros pos r. by rewrite lookup_empty.
  - intros id c. by rewrite lookup_empty.
Qed.

Lemma sched_step_ok w w' : sched_ok w -> sched_step w w' -> sched_ok w'.
Proof.
  intros Hok Hst. destruct Hst.
  - done.
  - apply world_ok_unregistered; [done|congruence|done].
  - apply world_ok_unregistered; [done|congruence|done].
  - destruct (container_step_registered _ _ H0) as [[Hl ->]|[Hl Hl']].
    + unfold set_container, sched_ok. simpl. by rewrite insert_id.
    + apply world_ok_unregistered; [done|congruence|done].
  - destruct (register_chunk_ok w chunk Hok H) as (w1 & r1 & E & Hok1). congruence.
  - destruct (unpack_chunk_ok w pos now Hok) as (w1 & r1 & E & Hok1 & _). congruence.
  - destruct (unregister_chunk_ok w pos Hok) as (w1 & E & Hok1 & _). congruence.
  - destruct (schedule_tick_ok k w chunk type pos trigger prio order Hok H) as (w1 & r1 & E & Hok1). congruence.
  - destruct (reconcile_ok w active Hok H) as (w1 & r1 & E & Hok1 & _). congruence.
  - destruct (collect_ticks_ok k w now max_ticks Hok) as (w1 & ts & ch & took & E & Hok1 & _). congruence.
Qed.

Lemma sched_reachable_ok w : sched_reachable w -> sched_ok w.
Proof.
  unfold sched_reachable. generalize sched_new_ok. generalize (WorldTickScheduler_new (B := B) (F := F) ∅).
  intros w0 Hok Hr. induction Hr as [|w1 w2 w3 Hst _ IH]; [done|]. eauto using sched_step_ok.
Qed.
End Scheduler.

(** ** Properties *)

#[local] Instance example_key : TickKey Z := fun z => z.

(** A scheduler with one active chunk that has three block ticks. *)
Definition example_owner (id : Z) : ChunkPos := mkChunkPos id 0.

Definition example_world : WorldTickScheduler Z Z :=
  let w := WorldTickScheduler_new ∅ in
  let w := set_container w 5 (ChunkTickContainer_new (mkLists example_list TickList_new)) in
  let w := match register_chunk w (mkChunkRef (mkChunkPos 5 0) 5) with Some (w, _) => w | None => w end in
  match reconcile w [mkChunkPos 5 0] with Some (w, _) => w | None => w end.

Lemma example_world_reachable : sched_reachable example_owner example_world.
Proof.
  unfold example_world. eapply rtc_l; [apply (ss_new _ _ 5 (mkLists example_list TickList_new)); done|].
  eapply rtc_l.
  { apply (ss_register _ _ (mkChunkRef (mkChunkPos 5 0) 5) _ (Ok ())); [|vm_compute; reflexivity].
    split; [done|]. split; [by split|]. by eexists. }
  eapply rtc_l; [|apply rtc_refl].
  apply (ss_reconcile _ _ [mkChunkPos 5 0] _ (Ok ())); [apply NoDup_singleton|vm_compute; reflexivity].
Qed.

Lemma example_collect :
  match collect_ticks KindBlock example_world 25 100 with
  | Some (_, (ts, _)) => Some (trigger_tick <$> ts)
  | None => None
  end = Some [20].
Proof. vm_compute. reflexivity. Qed.

(** C12. The world index never disagrees with the queues, and no assertion of the
    scheduler can fail: in every reachable scheduler the recorded heads are the heads of
    the registered containers' queues, the deadline sets hold exactly the heads of the
    active chunks in order, and no operation panics, whatever its arguments (chunk
    references are those of existing chunks, the active list has no duplicates). *)
Theorem tick_index_consistent {B F} `{!TickKey B, !TickKey F} owner (w : WorldTickScheduler B F) :
  sched_reachable owner w ->
  (forall k pos r, ix_chunks (index w) !! pos = Some r ->
     exists c, containers w !! reg_container r = Some c /\ lifecycle c = Registered /\
       reg_head k r = list_head k c) /\
  (forall k, StronglySorted deadline_lt (deadlines k (index w)) /\
     forall t packed, (t, packed) ∈ deadlines k (index w) <->
       exists pos r, ix_chunks (index w) !! pos = Some r /\ packed = PackedChunkPos_from pos /\
         is_Some (active_rank r (active_generation (index w))) /\ reg_head k r = Some t) /\
  (forall chunk, chunk_ok owner w chunk ->
     is_Some (register_chunk w chunk) /\
     forall k type pos trigger prio order, is_Some (schedule_tick k w chunk type pos trigger prio order)) /\
  (forall pos now, is_Some (unpack_chunk w pos now) /\ is_Some (unregister_chunk w pos)) /\
  (forall active, NoDup active -> is_Some (reconcile w active)) /\
  (forall k now max_ticks, is_Some (collect_ticks k w now max_ticks)).
Proof.
  intros Hok%sched_reachable_ok. split_and!.
  - intros k pos r Hr. destruct (wo_registered _ _ _ _ Hok _ _ Hr) as (_ & c & Hc & Hl & Hh).
    exists c. split_and!; try done. apply Hh. by intros [].
  - intros k. destruct (io_deadlines _ (wo_index _ _ _ _ Hok) k) as [Hs Hiff]. split; [done|].
    intros t packed. rewrite Hiff. done.
  - intros chunk Hc. split.
    + destruct (register_chunk_ok owner w chunk Hok Hc) as (? & ? & -> & _). eauto.
    + intros. destruct (schedule_tick_ok owner k w chunk type pos trigger prio order Hok Hc) as (? & ? & -> & _). eauto.
  - intros pos now. split.
    + destruct (unpack_chunk_ok owner w pos now Hok) as (? & ? & -> & _). eauto.
    + destruct (unregister_chunk_ok owner w pos Hok) as (? & -> & _). eauto.
  - intros active Hnd. destruct (reconcile_ok owner w active Hok Hnd) as (? & ? & -> & _). eauto.
  - intros k now max_ticks. destruct (collect_ticks_ok owner k w now max_ticks Hok) as (? & ? & ? & ? & -> & _). eauto.
Qed.

Lemma tick_index_consistent_witness :
  deadlines KindBlock (index example_world) = [(20, PackedChunkPos_from (mkChunkPos 5 0))] /\
  is_Some (collect_ticks KindBlock example_world 25 100).
Proof.
  destruct (tick_index_consistent example_owner example_world example_world_reachable)
    as (_ & _ & _ & _ & _ & Hcollect).
  split; [vm_compute; reflexivity|exact (Hcollect KindBlock 25 100%nat)].
Defined.

(** C13. A batch takes only ready ticks and, with room left, all of them: collecting from
    a reachable scheduler returns at most the maximum number of ticks; from every
    container a prefix of its queue is taken, all of it ready and in queue order within
    the batch, and nothing else of the container changes; the batch consists of exactly
    these ticks; only containers of active chunks are drained; and when the batch is
    shorter than the maximum, no active container has a ready tick left. *)
Theorem collect_ticks_exact {B F} `{!TickKey B, !TickKey F} owner k (w : WorldTickScheduler B F) now max_ticks :
  sched_reachable owner w ->
  exists w' ts changed took, collect_ticks k w now max_ticks = Some (w', (ts, changed)) /\
    (length ts <= max_ticks)%nat /\
    (forall id c, containers w !! id = Some c -> exists c', containers w' !! id = Some c' /\
       lifecycle c' = lifecycle c /\
       (forall k', k' <> k -> select k' (lists c') = select k' (lists c)) /\
       ticks (select k (lists c)) = took id ++ ticks (select k (lists c')) /\
       Forall (is_ready now) (took id) /\ (qt_tick <$> took id) `sublist_of` ts) /\
    (exists ids, NoDup ids /\ ts ≡ₚ ids ≫= (fun id => qt_tick <$> took id)) /\
    (forall id, took id <> [] -> is_active (index w) (owner id)) /\
    (forall pos r c', (length ts < max_ticks)%nat -> ix_chunks (index w) !! pos = Some r ->
       is_Some (active_rank r (active_generation (index w))) ->
       containers w' !! reg_container r = Some c' ->
       forall tick, peek (select k (lists c')) = Some tick -> now < trigger_tick tick).
Proof.
  intros Hok%sched_reachable_ok.
  destruct (collect_ticks_ok owner k w now max_ticks Hok) as (w' & ts & ch & took & E & _ & [H1 H2 H3 H4 H5 H6]).
  exists w', ts, ch, took. split_and!; try done.
  - intros id c Hc. destruct (H2 _ _ Hc) as (c' & Hc' & Ha & Hb & Hd & Hf). exists c'. split_and!; try done.
  - intros pos r c' Hlen Hr Hact Hc' tick Hp. specialize (H6 _ _ _ Hlen Hr Hact Hc').
    unfold list_head in H6. by rewrite Hp in H6.
Qed.

Lemma collect_ticks_exact_witness :
  exists w' ts changed, collect_ticks KindBlock example_world 25 100 = Some (w', (ts, changed)) /\
    (length ts <= 100)%nat /\ trigger_tick <$> ts = [20].
Proof.
  destruct (collect_ticks_exact example_owner KindBlock example_world 25 100 example_world_reachable)
    as (w' & ts & changed & took & E & Hlen & _).
  exists w', ts, changed. split; [exact E|]. split; [exact Hlen|].
  pose proof example_collect as Hval. rewrite E in Hval. by injection Hval.
Defined.
