(* ===== verification/FullNeighborhood.v ===== *)
(** * The Full-neighbourhood index

    Models [FullNeighborhoodIndex] of [steel-core/src/chunk/full_chunk_readiness.rs]:
    which positions hold a Full chunk, and for every centre how many of its 9 and of
    its 25 neighbours do.  Chunk ticking readiness is decided from these counters, which
    are kept incrementally.  A holder is its identity ([Arc::ptr_eq], [Weak::ptr_eq] are
    equality of identities); hash maps are [gmap]s and the dirty set a [gset]. *)

From S2P Require Import Prelude Positions ChunkTickets.

(** ** Data *)

Definition BLOCK_TICKING_FULL_COUNT : Z := 9.
Definition ENTITY_TICKING_FULL_COUNT : Z := 25.

Record FullNeighborhoodCounts := mkCounts { block_ticking : Z; entity_ticking : Z }.

Definition counts_default : FullNeighborhoodCounts := mkCounts 0 0.

Definition block_ticking_ready (c : FullNeighborhoodCounts) : bool :=
  block_ticking c =? BLOCK_TICKING_FULL_COUNT.

Definition entity_ticking_ready (c : FullNeighborhoodCounts) : bool :=
  entity_ticking c =? ENTITY_TICKING_FULL_COUNT.

Inductive FullNeighborhoodError :=
| CounterOverflow (center : ChunkPos) (radius count : Z)
| CounterUnderflow (center : ChunkPos) (radius : Z)
| ContributorIdentityMismatch (pos : ChunkPos).

(** A pending entry keeps a save dependency on its holder alive; [pending_readiness]
    records the holder. *)
Record FullNeighborhoodIndex := mkNeighborhood {
  contributors : gmap ChunkPos Z;
  nb_counts : gmap ChunkPos FullNeighborhoodCounts;
  dirty_centers : gset ChunkPos;
  pending_readiness : gmap ChunkPos Z;
}.

Definition Neighborhood_default : FullNeighborhoodIndex := mkNeighborhood ∅ ∅ ∅ ∅.

(** ** Operations *)

(** [a.checked_add(b)] on [i32]. *)
Definition checked_adds (a b : Z) : option Z :=
  if decide (in_s 32 (a + b)) then Some (a + b) else None.

(** The centres [for_each_center] visits, in order: centres outside the coordinate range
    are skipped. *)
Definition for_each_center (pos : ChunkPos) (radius : Z) : list ChunkPos :=
  radius_range radius ≫= fun dz =>
  omap (fun dx => x ← checked_adds (cp_x pos) dx; z ← checked_adds (cp_y pos) dz;
                  Some (mkChunkPos x z)) (radius_range radius).

Definition counts_at (n : FullNeighborhoodIndex) (center : ChunkPos) : FullNeighborhoodCounts :=
  default counts_default (nb_counts n !! center).

(** The counter of one radius. *)
Definition count_of (radius : Z) (c : FullNeighborhoodCounts) : Z :=
  if radius =? 1 then block_ticking c else entity_ticking c.

Definition set_count (radius v : Z) (c : FullNeighborhoodCounts) : FullNeighborhoodCounts :=
  if radius =? 1 then mkCounts v (entity_ticking c) else mkCounts (block_ticking c) v.

(** Both validations keep the first error of the loop. *)
Definition validate_increment (n : FullNeighborhoodIndex) (pos : ChunkPos) (radius maximum : Z)
  : result unit FullNeighborhoodError :=
  foldl (fun r center =>
    match r with
    | Err _ => r
    | Ok _ => let count := count_of radius (counts_at n center) in
              if maximum <=? count then Err (CounterOverflow center radius count) else Ok ()
    end) (Ok ()) (for_each_center pos radius).

Definition validate_decrement (n : FullNeighborhoodIndex) (pos : ChunkPos) (radius : Z)
  : result unit FullNeighborhoodError :=
  foldl (fun r center =>
    match r with
    | Err _ => r
    | Ok _ => if count_of radius (counts_at n center) =? 0
              then Err (CounterUnderflow center radius) else Ok ()
    end) (Ok ()) (for_each_center pos radius).

Definition adjust_one (radius : Z) (increment : bool) (n : FullNeighborhoodIndex)
  (center : ChunkPos) : FullNeighborhoodIndex :=
  let counts := counts_at n center in
  let count := count_of radius counts in
  let count := if increment then u8 (count + 1) else u8 (count - 1) in
  mkNeighborhood (contributors n) (<[center := set_count radius count counts]> (nb_counts n))
    ({[center]} ∪ dirty_centers n) (pending_readiness n).

Definition adjust_counts (n : FullNeighborhoodIndex) (pos : ChunkPos) (radius : Z)
  (increment : bool) : FullNeighborhoodIndex :=
  foldl (adjust_one radius increment) n (for_each_center pos radius).

Definition set_contributors (n : FullNeighborhoodIndex) (c : gmap ChunkPos Z)
  : FullNeighborhoodIndex := mkNeighborhood c (nb_counts n) (dirty_centers n) (pending_readiness n).

Definition add_contributor (n : FullNeighborhoodIndex) (pos : ChunkPos) (holder : Z)
  : result FullNeighborhoodIndex FullNeighborhoodError :=
  let? _ := validate_increment n pos 1 BLOCK_TICKING_FULL_COUNT in
  let? _ := validate_increment n pos 2 ENTITY_TICKING_FULL_COUNT in
  let n := set_contributors n (<[pos := holder]> (contributors n)) in
  Ok (adjust_counts (adjust_counts n pos 1 true) pos 2 true).

(** The counters that dropped to zero are removed. *)
Definition prune_one (n : FullNeighborhoodIndex) (center : ChunkPos) : FullNeighborhoodIndex :=
  match nb_counts n !! center with
  | Some c =>
      if (block_ticking c =? 0) && (entity_ticking c =? 0)
      then mkNeighborhood (contributors n) (delete center (nb_counts n)) (dirty_centers n)
             (pending_readiness n)
      else n
  | None => n
  end.

Definition remove_contributor (n : FullNeighborhoodIndex) (pos : ChunkPos)
  : result FullNeighborhoodIndex FullNeighborhoodError :=
  let? _ := validate_decrement n pos 1 in
  let? _ := validate_decrement n pos 2 in
  let n := set_contributors n (delete pos (contributors n)) in
  let n := adjust_counts (adjust_counts n pos 1 false) pos 2 false in
  Ok (foldl prune_one n (for_each_center pos 2)).

Definition reconcile_contributor (n : FullNeighborhoodIndex) (pos : ChunkPos) (holder : option Z)
  : result FullNeighborhoodIndex FullNeighborhoodError :=
  let unchanged :=
    match contributors n !! pos, holder with
    | Some current, Some h => bool_decide (current = h)
    | None, None => true
    | Some _, None | None, Some _ => false
    end in
  if unchanged then Ok n
  else
    let? n := (if decide (is_Some (contributors n !! pos)) then remove_contributor n pos else Ok n) in
    match holder with
    | Some h => add_contributor n pos h
    | None => Ok n
    end.

Definition remove_contributor_if_matches (n : FullNeighborhoodIndex) (pos : ChunkPos) (holder : Z)
  : result FullNeighborhoodIndex FullNeighborhoodError :=
  match contributors n !! pos with
  | None => Ok n
  | Some current =>
      if decide (current = holder) then remove_contributor n pos
      else Err (ContributorIdentityMismatch pos)
  end.

Definition mark_dirty (n : FullNeighborhoodIndex) (pos : ChunkPos) : FullNeighborhoodIndex :=
  mkNeighborhood (contributors n) (nb_counts n) ({[pos]} ∪ dirty_centers n) (pending_readiness n).

Definition dirty_counts_snapshot (n : FullNeighborhoodIndex)
  : list (ChunkPos * FullNeighborhoodCounts) :=
  (fun pos => (pos, counts_at n pos)) <$> elements (dirty_centers n).

Definition take_dirty_counts (n : FullNeighborhoodIndex)
  : FullNeighborhoodIndex * list (ChunkPos * FullNeighborhoodCounts) :=
  (mkNeighborhood (contributors n) (nb_counts n) ∅ (pending_readiness n), dirty_counts_snapshot n).

(** The holders that gain (+1) or lose (-1) a save dependency, in order. *)
Definition ensure_pending_readiness (n : FullNeighborhoodIndex) (pos : ChunkPos) (holder : Z)
  : FullNeighborhoodIndex * list (Z * Z) :=
  if decide (pending_readiness n !! pos = Some holder) then (n, [])
  else
    (mkNeighborhood (contributors n) (nb_counts n) (dirty_centers n)
       (<[pos := holder]> (pending_readiness n)),
     (holder, 1) :: match pending_readiness n !! pos with Some old => [(old, -1)] | None => [] end).

Definition clear_pending_readiness (n : FullNeighborhoodIndex) (pos : ChunkPos)
  : FullNeighborhoodIndex * list (Z * Z) :=
  (mkNeighborhood (contributors n) (nb_counts n) (dirty_centers n) (delete pos (pending_readiness n)),
   match pending_readiness n !! pos with Some old => [(old, -1)] | None => [] end).

(** ** Specification: counting contributors in a square *)

(** [q] is within Chebyshev distance [r] of [c]. *)
Definition near (r : Z) (c q : ChunkPos) : Prop :=
  Z.max (Z.abs (cp_x q - cp_x c)) (Z.abs (cp_y q - cp_y c)) <= r.

#[global] Instance counts_eq_dec : EqDecision FullNeighborhoodCounts.
Proof. solve_decision. Defined.

#[global] Instance near_dec r c q : Decision (near r c q).
Proof. unfold near. apply _. Defined.

(** The number of positions of [D] within distance [r] of [c]. *)
Definition full_count (r : Z) (D : gset ChunkPos) (c : ChunkPos) : Z :=
  Z.of_nat (size (filter (near r c) D)).

Definition square (r : Z) (c : ChunkPos) : list ChunkPos :=
  radius_range r ≫= fun dz => (fun dx => mkChunkPos (cp_x c + dx) (cp_y c + dz)) <$> radius_range r.

(** Contributors lie in the coordinate range, every counter is exact, and no counter at
    zero is stored. *)
Record nb_ok (n : FullNeighborhoodIndex) : Prop := {
  nb_range : forall p, is_Some (contributors n !! p) -> ChunkPos_ok p;
  nb_exact : forall c, ChunkPos_ok c ->
    counts_at n c = mkCounts (full_count 1 (dom (contributors n)) c)
                             (full_count 2 (dom (contributors n)) c);
  nb_tight : forall c, nb_counts n !! c <> Some counts_default;
}.

(** ** Lemmas: squares *)

Lemma near_sym r c q : near r c q <-> near r q c.
Proof. unfold near. lia. Qed.

Lemma elem_of_square r c q : 0 <= r -> q ∈ square r c <-> near r c q.
Proof.
  intros Hr. unfold square, near. rewrite list_elem_of_bind. split.
  - intros (dz & (dx & -> & Hx)%list_elem_of_fmap & Hz).
    apply elem_of_radius_range in Hx, Hz; [|done..]. simpl. lia.
  - intros H. exists (cp_y q - cp_y c). split.
    + apply list_elem_of_fmap. exists (cp_x q - cp_x c). split.
      * destruct q. simpl. f_equal; lia.
      * apply elem_of_radius_range; lia.
    + apply elem_of_radius_range; lia.
Qed.

Lemma NoDup_square r c : NoDup (square r c).
Proof.
  unfold square. apply NoDup_bind.
  - intros dz dz' q _ _ (dx & -> & _)%list_elem_of_fmap (dx' & E & _)%list_elem_of_fmap.
    injection E. lia.
  - intros dz _. apply NoDup_fmap_2_strong; [|apply NoDup_seqZ].
    intros x y _ _ [=]. lia.
  - apply NoDup_seqZ.
Qed.

Lemma elem_of_for_each_center r p c : 0 <= r ->
  c ∈ for_each_center p r <-> ChunkPos_ok c /\ near r p c.
Proof.
  intros Hr. unfold for_each_center, near. rewrite list_elem_of_bind. split.
  - intros (dz & (dx & Hx & E)%list_elem_of_omap & Hz).
    apply elem_of_radius_range in Hx, Hz; [|done..]. unfold checked_adds in E.
    repeat case_decide; simplify_option_eq. unfold ChunkPos_ok. simpl. split; [done|lia].
  - intros [[Hcx Hcy] H]. exists (cp_y c - cp_y p). split.
    + apply list_elem_of_omap. exists (cp_x c - cp_x p). split; [apply elem_of_radius_range; lia|].
      unfold checked_adds. replace (cp_x p + (cp_x c - cp_x p)) with (cp_x c) by lia.
      replace (cp_y p + (cp_y c - cp_y p)) with (cp_y c) by lia.
      rewrite !decide_True by done. by destruct c.
    + apply elem_of_radius_range; lia.
Qed.

Lemma NoDup_for_each_center p r : NoDup (for_each_center p r).
Proof.
  unfold for_each_center. apply NoDup_bind.
  - intros dz dz' q _ _ (dx & _ & E)%list_elem_of_omap (dx' & _ & E')%list_elem_of_omap.
    unfold checked_adds in *. repeat case_decide; simplify_option_eq. lia.
  - intros dz _. apply NoDup_omap_inj; [|apply NoDup_seqZ].
    intros x y q E E'. unfold checked_adds in *. repeat case_decide; simplify_option_eq. lia.
  - apply NoDup_seqZ.
Qed.

Lemma length_square r c : 0 <= r -> Z.of_nat (length (square r c)) = (2 * r + 1) * (2 * r + 1).
Proof.
  intros Hr. unfold square, radius_range.
  assert (forall l : list Z, length (l ≫= fun dz => (fun dx => mkChunkPos (cp_x c + dx) (cp_y c + dz))
    <$> seqZ (- r) (2 * r + 1)) = (length l * Z.to_nat (2 * r + 1))%nat) as H.
  { induction l as [|x l IH]; [done|]. rewrite bind_cons, length_app, IH, length_fmap, length_seqZ.
    simpl. lia. }
  rewrite H, length_seqZ. lia.
Qed.

(** ** Lemmas: counting *)

Lemma full_count_empty r c : full_count r ∅ c = 0.
Proof.
  unfold full_count. replace (filter (near r c) ∅) with (∅ : gset ChunkPos) by set_solver.
  by rewrite size_empty.
Qed.

Lemma full_count_insert r D p c : p ∉ D ->
  full_count r ({[p]} ∪ D) c = full_count r D c + (if decide (near r p c) then 1 else 0).
Proof.
  intros Hp. unfold full_count. case_decide as H; rewrite near_sym in H.
  - replace (filter (near r c) ({[p]} ∪ D)) with ({[p]} ∪ filter (near r c) D : gset ChunkPos)
      by set_solver.
    rewrite size_union by set_solver. rewrite size_singleton. lia.
  - replace (filter (near r c) ({[p]} ∪ D)) with (filter (near r c) D : gset ChunkPos)
      by set_solver. lia.
Qed.

Lemma full_count_delete r D p c : p ∈ D ->
  full_count r (D ∖ {[p]}) c = full_count r D c - (if decide (near r p c) then 1 else 0).
Proof.
  intros Hp. pose proof (full_count_insert r (D ∖ {[p]}) p c ltac:(set_solver)) as H.
  replace ({[p]} ∪ D ∖ {[p]}) with D in H; [lia|].
  apply set_eq. intros q. destruct (decide (q = p)); set_solver.
Qed.

Lemma filter_near_square r (D : gset ChunkPos) c : 0 <= r ->
  filter (near r c) D = D ∩ list_to_set (square r c).
Proof.
  intros Hr. apply set_eq. intros q.
  rewrite elem_of_filter, elem_of_intersection, elem_of_list_to_set, elem_of_square by done. tauto.
Qed.

Lemma size_square r c : 0 <= r ->
  Z.of_nat (size (list_to_set (square r c) : gset ChunkPos)) = (2 * r + 1) * (2 * r + 1).
Proof. intros Hr. rewrite size_list_to_set by apply NoDup_square. by apply length_square. Qed.

Lemma full_count_bound r D c : 0 <= r -> 0 <= full_count r D c <= (2 * r + 1) * (2 * r + 1).
Proof.
  intros Hr. unfold full_count. rewrite filter_near_square by done. split; [lia|].
  rewrite <- (size_square r c) by done. apply Nat2Z.inj_le, subseteq_size. set_solver.
Qed.

(** A square is full exactly when all its positions are counted. *)
Lemma full_count_full r D c : 0 <= r ->
  full_count r D c = (2 * r + 1) * (2 * r + 1) <-> forall q, near r c q -> q ∈ D.
Proof.
  intros Hr. unfold full_count. rewrite filter_near_square by done.
  rewrite <- (size_square r c) by done. split.
  - intros H%Nat2Z.inj q Hq.
    assert (D ∩ list_to_set (square r c) = list_to_set (square r c)) as E.
    { apply set_eq. apply set_subseteq_size_equiv; [set_solver|lia]. }
    assert (q ∈ (list_to_set (square r c) : gset ChunkPos)) as Hin.
    { apply elem_of_list_to_set. by apply elem_of_square. }
    rewrite <- E in Hin. set_solver.
  - intros H. do 2 f_equal. apply set_eq. intros q.
    rewrite elem_of_intersection, elem_of_list_to_set, elem_of_square by done. naive_solver.
Qed.

(** ** Lemmas: the loops *)

Lemma count_of_set_count r v c : count_of r (set_count r v c) = v.
Proof. unfold count_of, set_count. by destruct (r =? 1). Qed.

(** A validation loop succeeds exactly when its test fails at every centre. *)
Lemma validate_loop_ok {A E} (bad : A -> bool) (err : A -> E) (l : list A) :
  (forall c, c ∈ l -> bad c = false) ->
  foldl (fun (r : result unit E) c =>
    match r with Err _ => r | Ok _ => if bad c then Err (err c) else Ok () end) (Ok ()) l = Ok ().
Proof.
  induction l as [|x l IH]; intros H; [done|]. simpl. rewrite H by left.
  apply IH. intros c Hc. apply H. by right.
Qed.

Lemma validate_increment_ok n pos r maximum :
  (forall c, c ∈ for_each_center pos r -> count_of r (counts_at n c) < maximum) ->
  validate_increment n pos r maximum = Ok ().
Proof.
  intros H. unfold validate_increment.
  apply (validate_loop_ok (fun c => maximum <=? count_of r (counts_at n c))
           (fun c => CounterOverflow c r (count_of r (counts_at n c)))).
  intros c Hc. specialize (H c Hc). lia.
Qed.

Lemma validate_decrement_ok n pos r :
  (forall c, c ∈ for_each_center pos r -> 0 < count_of r (counts_at n c)) ->
  validate_decrement n pos r = Ok ().
Proof.
  intros H. unfold validate_decrement.
  apply (validate_loop_ok (fun c => count_of r (counts_at n c) =? 0) (fun c => CounterUnderflow c r)).
  intros c Hc. specialize (H c Hc). lia.
Qed.

(** What [adjust_counts] does to the counter of one centre. *)
Definition adjusted (r : Z) (increment : bool) (c : FullNeighborhoodCounts) : FullNeighborhoodCounts :=
  set_count r (if increment then u8 (count_of r c + 1) else u8 (count_of r c - 1)) c.

Lemma adjust_loop n r increment l :
  NoDup l ->
  let n' := foldl (adjust_one r increment) n l in
  (forall c, counts_at n' c = if decide (c ∈ l) then adjusted r increment (counts_at n c)
                              else counts_at n c) /\
  (forall c, nb_counts n' !! c = if decide (c ∈ l) then Some (adjusted r increment (counts_at n c))
                                 else nb_counts n !! c) /\
  dirty_centers n' = list_to_set l ∪ dirty_centers n /\
  contributors n' = contributors n /\ pending_readiness n' = pending_readiness n.
Proof.
  intros Hl. revert n. induction Hl as [|x l Hx _ IH]; intros n; simpl.
  { repeat split; try (intros c; by case_decide). set_solver. }
  specialize (IH (adjust_one r increment n x)) as (_ & H2 & H3 & H4 & H5). simpl in *.
  assert (forall c, nb_counts (foldl (adjust_one r increment) (adjust_one r increment n x) l) !! c =
    if decide (c ∈ x :: l) then Some (adjusted r increment (counts_at n c)) else nb_counts n !! c) as H.
  { intros c. rewrite H2. destruct (decide (c = x)) as [->|Hne].
    - rewrite decide_False, decide_True by (done || by left). by rewrite lookup_insert_eq.
    - unfold counts_at at 1. simpl. rewrite lookup_insert_ne by done.
      destruct (decide (c ∈ l)); [rewrite decide_True by by right|
        rewrite decide_False by (intros [|]%elem_of_cons; done)]; done. }
  split_and!; [|done| |done|done].
  - intros c. unfold counts_at at 1. rewrite H. by case_decide.
  - rewrite H3. set_solver.
Qed.

Lemma adjust_counts_spec n pos r increment : 0 <= r ->
  let n' := adjust_counts n pos r increment in
  (forall c, counts_at n' c =
     if decide (ChunkPos_ok c /\ near r pos c) then adjusted r increment (counts_at n c)
     else counts_at n c) /\
  (forall c, ~ (ChunkPos_ok c /\ near r pos c) -> nb_counts n' !! c = nb_counts n !! c) /\
  (forall c, ChunkPos_ok c /\ near r pos c ->
     nb_counts n' !! c = Some (adjusted r increment (counts_at n c))) /\
  (forall c, c ∈ dirty_centers n' <-> (ChunkPos_ok c /\ near r pos c) \/ c ∈ dirty_centers n) /\
  contributors n' = contributors n /\ pending_readiness n' = pending_readiness n.
Proof.
  intros Hr.
  destruct (adjust_loop n r increment (for_each_center pos r) (NoDup_for_each_center pos r))
    as (H1 & H2 & H3 & H4 & H5).
  assert (forall c, c ∈ for_each_center pos r <-> ChunkPos_ok c /\ near r pos c) as Hc
    by (intros; by apply elem_of_for_each_center).
  unfold adjust_counts. cbn zeta. split_and!; [| | | |done|done].
  - intros c. rewrite (H1 c). by rewrite (decide_ext _ _ _ _ (Hc c)).
  - intros c Hn. rewrite (H2 c). by rewrite decide_False by (by rewrite Hc).
  - intros c Hn. rewrite (H2 c). by rewrite decide_True by (by rewrite Hc).
  - intros c. rewrite H3, elem_of_union, elem_of_list_to_set, Hc. done.
Qed.

Lemma prune_loop n l :
  let n' := foldl prune_one n l in
  (forall c, counts_at n' c = counts_at n c) /\
  (forall c, c ∈ l -> nb_counts n' !! c <> Some counts_default) /\
  (forall c, nb_counts n !! c <> Some counts_default -> nb_counts n' !! c <> Some counts_default) /\
  dirty_centers n' = dirty_centers n /\
  contributors n' = contributors n /\ pending_readiness n' = pending_readiness n.
Proof.
  assert (forall n x, let n' := prune_one n x in
    (forall c, counts_at n' c = counts_at n c) /\ nb_counts n' !! x <> Some counts_default /\
    (forall c, nb_counts n !! c <> Some counts_default -> nb_counts n' !! c <> Some counts_default) /\
    dirty_centers n' = dirty_centers n /\ contributors n' = contributors n /\
    pending_readiness n' = pending_readiness n) as Hone.
  { clear. intros n x. unfold prune_one, counts_at.
    destruct (nb_counts n !! x) as [[b e]|] eqn:E; [|by rewrite E].
    simpl. destruct ((b =? 0) && (e =? 0)) eqn:Eb; simpl.
    - apply andb_true_iff in Eb as [->%Z.eqb_eq ->%Z.eqb_eq]. rewrite lookup_delete_eq. split_and!; try done.
      + intros c. destruct (decide (c = x)) as [->|]; [by rewrite lookup_delete_eq, E|].
        by rewrite lookup_delete_ne.
      + intros c. destruct (decide (c = x)) as [->|]; [by rewrite lookup_delete_eq|].
        by rewrite lookup_delete_ne.
    - rewrite E. split_and!; try done. intros [= -> ->]. by simpl in Eb. }
  revert n. induction l as [|x l IH]; intros n; simpl.
  { split_and!; try done. by intros c ?%elem_of_nil. }
  destruct (Hone n x) as (P1 & P2 & P3 & P4 & P5 & P6).
  destruct (IH (prune_one n x)) as (Q1 & Q2 & Q3 & Q4 & Q5 & Q6).
  split_and!; [| | |congruence..].
  - intros c. by rewrite Q1, P1.
  - intros c [->|Hc]%elem_of_cons; [by apply Q3|by apply Q2].
  - intros c Hc. by apply Q3, P3.
Qed.

(** ** Lemmas: the operations keep the counters exact *)

Lemma adjusted_exact r (increment : bool) D D' c :
  r = 1 \/ r = 2 ->
  full_count r D' c = full_count r D c + (if increment then 1 else -1) ->
  count_of r (adjusted r increment (mkCounts (full_count 1 D c) (full_count 2 D c))) = full_count r D' c.
Proof.
  intros Hr H. unfold adjusted. rewrite count_of_set_count.
  pose proof (full_count_bound r D' c ltac:(lia)) as B.
  assert (count_of r (mkCounts (full_count 1 D c) (full_count 2 D c)) = full_count r D c) as ->.
  { by destruct Hr as [-> | ->]. }
  assert (full_count r D' c < 256) by (destruct Hr as [-> | ->]; lia).
  destruct increment; rewrite u8_small by lia; lia.
Qed.

(** Adjusting both radii around [pos] turns exact counters for [D] into exact counters
    for the set with [pos] added or removed. *)
Lemma adjust_both_exact n pos (increment : bool) (D D' : gset ChunkPos) :
  (forall c, ChunkPos_ok c -> counts_at n c = mkCounts (full_count 1 D c) (full_count 2 D c)) ->
  (forall r c, full_count r D' c = full_count r D c +
     (if decide (near r pos c) then if increment then 1 else -1 else 0)) ->
  let n' := adjust_counts (adjust_counts n pos 1 increment) pos 2 increment in
  forall c, ChunkPos_ok c -> counts_at n' c = mkCounts (full_count 1 D' c) (full_count 2 D' c).
Proof.
  intros Hn HD n' c Hc. subst n'.
  destruct (adjust_counts_spec (adjust_counts n pos 1 increment) pos 2 increment ltac:(lia)) as (-> & _).
  destruct (adjust_counts_spec n pos 1 increment ltac:(lia)) as (-> & _). rewrite Hn by done.
  pose proof (HD 1 c) as H1. pose proof (HD 2 c) as H2.
  pose proof (adjusted_exact 1 increment D D' c ltac:(lia)) as A1.
  pose proof (adjusted_exact 2 increment D D' c ltac:(lia)) as A2.
  assert (near 1 pos c -> near 2 pos c) by (unfold near; lia).
  unfold adjusted, set_count, count_of in *. simpl in *.
  repeat case_decide; simpl; try tauto; f_equal; rewrite ?A1, ?A2; try done; lia.
Qed.

Lemma near_1_2 p c : near 1 p c -> near 2 p c.
Proof. unfold near. lia. Qed.

(** The frame of two adjustments around [pos]. *)
Lemma adjust_both_frame n pos increment :
  let n' := adjust_counts (adjust_counts n pos 1 increment) pos 2 increment in
  (forall c, ~ (ChunkPos_ok c /\ near 2 pos c) -> nb_counts n' !! c = nb_counts n !! c) /\
  (forall c, c ∈ dirty_centers n' <-> (ChunkPos_ok c /\ near 2 pos c) \/ c ∈ dirty_centers n) /\
  contributors n' = contributors n /\ pending_readiness n' = pending_readiness n.
Proof.
  destruct (adjust_counts_spec (adjust_counts n pos 1 increment) pos 2 increment ltac:(lia))
    as (_ & A2 & _ & A4 & A5 & A6).
  destruct (adjust_counts_spec n pos 1 increment ltac:(lia)) as (_ & B2 & _ & B4 & B5 & B6).
  pose proof (near_1_2 pos) as Hnear. simpl. split_and!.
  - intros c Hc. rewrite A2 by done. apply B2. naive_solver.
  - intros c. rewrite A4, B4. naive_solver.
  - congruence.
  - congruence.
Qed.

(** What a contributor change at [pos] leaves behind: the counters are exact for the new
    contributors, and exactly the centres within two chunks became dirty. *)
Definition nb_changed (n : FullNeighborhoodIndex) (pos : ChunkPos) (cs : gmap ChunkPos Z)
  (n' : FullNeighborhoodIndex) : Prop :=
  nb_ok n' /\ contributors n' = cs /\
  (forall c, c ∈ dirty_centers n' <-> (ChunkPos_ok c /\ near 2 pos c) \/ c ∈ dirty_centers n) /\
  pending_readiness n' = pending_readiness n.

(** Around a free position no square is full yet. *)
Lemma full_count_lt r D pos c : 0 <= r -> pos ∉ D -> near r pos c ->
  full_count r D c < (2 * r + 1) * (2 * r + 1).
Proof.
  intros Hr Hp Hn. pose proof (full_count_bound r D c Hr).
  destruct (decide (full_count r D c = (2 * r + 1) * (2 * r + 1))) as [E|]; [|lia].
  destruct Hp. apply (proj1 (full_count_full r D c Hr) E). by apply near_sym.
Qed.

Lemma full_count_pos r D pos c : pos ∈ D -> near r pos c -> 0 < full_count r D c.
Proof.
  intros Hp Hn. unfold full_count. apply near_sym in Hn.
  assert (size (filter (near r c) D) <> 0%nat); [|lia].
  apply size_non_empty_iff. set_solver.
Qed.

Lemma add_contributor_ok n pos h :
  nb_ok n -> ChunkPos_ok pos -> contributors n !! pos = None ->
  exists n', add_contributor n pos h = Ok n' /\ nb_changed n pos (<[pos := h]> (contributors n)) n'.
Proof.
  intros [Hrange Hexact Htight] Hpos Hnone.
  assert (pos ∉ dom (contributors n)) as Hp by by apply not_elem_of_dom.
  unfold add_contributor.
  rewrite !validate_increment_ok; [|intros c [Hc Hnear]%elem_of_for_each_center; [|lia]..]; cycle 1.
  { rewrite Hexact by done. by apply (full_count_lt 2 _ pos c). }
  { rewrite Hexact by done. by apply (full_count_lt 1 _ pos c). }
  eexists. split; [done|].
  set (n0 := set_contributors n (<[pos := h]> (contributors n))).
  destruct (adjust_both_frame n0 pos true) as (F1 & F2 & F3 & F4). split; [|done].
  assert (forall c, ChunkPos_ok c -> counts_at (adjust_counts (adjust_counts n0 pos 1 true) pos 2 true) c
    = mkCounts (full_count 1 ({[pos]} ∪ dom (contributors n)) c)
               (full_count 2 ({[pos]} ∪ dom (contributors n)) c)) as HE.
  { apply (adjust_both_exact n0 pos true (dom (contributors n))); [done|].
    intros r c. by apply full_count_insert. }
  split; rewrite ?F3; simpl; rewrite ?dom_insert_L; [|done|].
  - intros p. rewrite lookup_insert_is_Some. intros [->|[_ H]]; auto.
  - intros c Hz. destruct (decide (ChunkPos_ok c /\ near 2 pos c)) as [[Hc Hn]|Hn].
    + specialize (HE c Hc). unfold counts_at in HE. rewrite Hz in HE. injection HE as _ H2.
      pose proof (full_count_pos 2 ({[pos]} ∪ dom (contributors n)) pos c ltac:(set_solver) Hn). lia.
    + rewrite F1 in Hz by done. by apply (Htight c).
Qed.

Lemma remove_contributor_ok n pos :
  nb_ok n -> is_Some (contributors n !! pos) ->
  exists n', remove_contributor n pos = Ok n' /\ nb_changed n pos (delete pos (contributors n)) n'.
Proof.
  intros [Hrange Hexact Htight] Hsome.
  assert (pos ∈ dom (contributors n)) as Hp by by apply elem_of_dom.
  unfold remove_contributor.
  rewrite !validate_decrement_ok; [|intros c [Hc Hnear]%elem_of_for_each_center; [|lia]..]; cycle 1.
  { rewrite Hexact by done. by apply (full_count_pos 2 _ pos c). }
  { rewrite Hexact by done. by apply (full_count_pos 1 _ pos c). }
  eexists. split; [done|].
  set (n0 := set_contributors n (delete pos (contributors n))).
  destruct (adjust_both_frame n0 pos false) as (F1 & F2 & F3 & F4).
  set (n1 := adjust_counts (adjust_counts n0 pos 1 false) pos 2 false) in *.
  destruct (prune_loop n1 (for_each_center pos 2)) as (Q1 & Q2 & Q3 & Q4 & Q5 & Q6).
  split; [|rewrite Q4, Q5, Q6; done].
  assert (forall c, ChunkPos_ok c -> counts_at n1 c
    = mkCounts (full_count 1 (dom (contributors n) ∖ {[pos]}) c)
               (full_count 2 (dom (contributors n) ∖ {[pos]}) c)) as HE.
  { apply (adjust_both_exact n0 pos false (dom (contributors n))); [done|].
    intros r c. rewrite full_count_delete by done. case_decide; lia. }
  split; rewrite ?Q5, ?F3; simpl; rewrite ?dom_delete_L.
  - intros p [_ H]%lookup_delete_is_Some. auto.
  - intros c Hc. rewrite Q1. by apply HE.
  - intros c. destruct (decide (ChunkPos_ok c /\ near 2 pos c)) as [Hc|Hn].
    + apply Q2. by apply elem_of_for_each_center.
    + apply Q3. rewrite F1 by done. apply Htight.
Qed.

(** [reconcile_contributor] makes the contributor at [pos] the given holder. *)
Lemma reconcile_contributor_ok n pos ho :
  nb_ok n -> ChunkPos_ok pos ->
  exists n', reconcile_contributor n pos ho = Ok n' /\ nb_ok n' /\
    contributors n' = partial_alter (fun _ => ho) pos (contributors n) /\
    (forall c, c ∈ dirty_centers n' <->
       (contributors n !! pos <> ho /\ ChunkPos_ok c /\ near 2 pos c) \/ c ∈ dirty_centers n) /\
    pending_readiness n' = pending_readiness n.
Proof.
  intros Hok Hpos. unfold reconcile_contributor.
  assert (forall ho', contributors n !! pos = ho' ->
    contributors n = partial_alter (fun _ => ho') pos (contributors n)) as Hid.
  { intros ho' <-. by rewrite partial_alter_self. }
  destruct (contributors n !! pos) as [cur|] eqn:E, ho as [h|].
  - case_bool_decide as Hb; [subst cur; exists n; split_and!; naive_solver|].
    rewrite decide_True by done.
    destruct (remove_contributor_ok n pos Hok ltac:(by rewrite E)) as (n1 & -> & Hok1 & C1 & D1 & P1).
    simpl. destruct (add_contributor_ok n1 pos h Hok1 Hpos) as (n2 & -> & Hok2 & C2 & D2 & P2).
    { by rewrite C1, lookup_delete_eq. }
    exists n2. rewrite C2, C1, insert_delete_eq, P2. split_and!; try done.
    intros c. rewrite D2, D1. naive_solver.
  - rewrite decide_True by done.
    destruct (remove_contributor_ok n pos Hok ltac:(by rewrite E)) as (n1 & -> & Hok1 & C1 & D1 & P1).
    exists n1. split_and!; try done. intros c. rewrite D1. naive_solver.
  - rewrite decide_False by (intros []; done). simpl.
    destruct (add_contributor_ok n pos h Hok Hpos E) as (n1 & -> & Hok1 & C1 & D1 & P1).
    exists n1. split_and!; try done. intros c. rewrite D1. naive_solver.
  - exists n. split_and!; naive_solver.
Qed.

Lemma nb_ok_default : nb_ok Neighborhood_default.
Proof.
  split; simpl.
  - intros p [? ?]. done.
  - intros c _. by rewrite dom_empty_L, !full_count_empty.
  - done.
Qed.

(** The readiness tests, read off exact counters. *)
Lemma ready_iff n c : nb_ok n -> ChunkPos_ok c ->
  (block_ticking_ready (counts_at n c) = true <->
     forall q, near 1 c q -> is_Some (contributors n !! q)) /\
  (entity_ticking_ready (counts_at n c) = true <->
     forall q, near 2 c q -> is_Some (contributors n !! q)).
Proof.
  intros Hok Hc. unfold block_ticking_ready, entity_ticking_ready.
  rewrite (nb_exact n Hok c Hc). simpl. rewrite !Z.eqb_eq.
  change BLOCK_TICKING_FULL_COUNT with ((2 * 1 + 1) * (2 * 1 + 1)).
  change ENTITY_TICKING_FULL_COUNT with ((2 * 2 + 1) * (2 * 2 + 1)).
  rewrite !full_count_full by lia.
  split; split; intros H q Hq; specialize (H q Hq); by apply elem_of_dom.
Qed.

(** ** Histories of the index *)

(** The operations of the index, as one step each. *)
Inductive nb_op :=
| OpReconcile (pos : ChunkPos) (holder : option Z)
| OpRemoveIfMatches (pos : ChunkPos) (holder : Z)
| OpMarkDirty (pos : ChunkPos)
| OpTakeDirty
| OpEnsurePending (pos : ChunkPos) (holder : Z)
| OpClearPending (pos : ChunkPos).

Definition nb_op_ok (op : nb_op) : Prop :=
  match op with
  | OpReconcile pos _ | OpRemoveIfMatches pos _ | OpMarkDirty pos
  | OpEnsurePending pos _ | OpClearPending pos => ChunkPos_ok pos
  | OpTakeDirty => True
  end.

Definition nb_run (n : FullNeighborhoodIndex) (op : nb_op)
  : result FullNeighborhoodIndex FullNeighborhoodError :=
  match op with
  | OpReconcile pos holder => reconcile_contributor n pos holder
  | OpRemoveIfMatches pos holder => remove_contributor_if_matches n pos holder
  | OpMarkDirty pos => Ok (mark_dirty n pos)
  | OpTakeDirty => Ok (take_dirty_counts n).1
  | OpEnsurePending pos holder => Ok (ensure_pending_readiness n pos holder).1
  | OpClearPending pos => Ok (clear_pending_readiness n pos).1
  end.

(** A failed operation reports its error and leaves the index as it was. *)
Definition nb_history (ops : list nb_op) : FullNeighborhoodIndex :=
  foldl (fun n op => match nb_run n op with Ok n' => n' | Err _ => n end) Neighborhood_default ops.

Lemma nb_run_cases n op : nb_ok n -> nb_op_ok op ->
  (exists n', nb_run n op = Ok n' /\ nb_ok n') \/
  (exists pos h cur, op = OpRemoveIfMatches pos h /\ contributors n !! pos = Some cur /\ cur <> h /\
     nb_run n op = Err (ContributorIdentityMismatch pos)).
Proof.
  intros Hok Hop. destruct op as [pos ho|pos h|pos| |pos h|pos]; simpl in *.
  - left. destruct (reconcile_contributor_ok n pos ho Hok Hop) as (n' & ? & ? & _). eauto.
  - unfold remove_contributor_if_matches. destruct (contributors n !! pos) as [cur|] eqn:E; [|eauto].
    case_decide as Hd; [|naive_solver].
    destruct (remove_contributor_ok n pos Hok ltac:(by rewrite E)) as (n' & ? & ? & _). eauto.
  - left. eexists. split; [done|]. by destruct Hok.
  - left. eexists. split; [done|]. by destruct Hok.
  - left. eexists. split; [done|]. unfold ensure_pending_readiness. case_decide; [done|]. by destruct Hok.
  - left. eexists. split; [done|]. by destruct Hok.
Qed.

Lemma nb_history_ok ops : Forall nb_op_ok ops -> nb_ok (nb_history ops).
Proof.
  unfold nb_history. generalize nb_ok_default. generalize Neighborhood_default.
  induction ops as [|op ops IH]; intros n Hn Hops; [done|].
  apply Forall_cons in Hops as [Hop Hops]. simpl. apply IH; [|done].
  destruct (nb_run_cases n op Hn Hop) as [(n' & -> & ?)|(? & ? & ? & _ & _ & _ & ->)]; done.
Qed.

(** A centre whose counters a change at [pos] moved is within two chunks of it. *)
Lemma counts_changed_dirty n n' pos ho c :
  nb_ok n -> ChunkPos_ok pos -> reconcile_contributor n pos ho = Ok n' -> ChunkPos_ok c ->
  counts_at n' c <> counts_at n c -> c ∈ dirty_centers n'.
Proof.
  intros Hok Hpos E Hc Hne.
  destruct (reconcile_contributor_ok n pos ho Hok Hpos) as (n'' & E' & Hok' & C & D & _).
  rewrite E in E'. injection E' as <-. apply D.
  rewrite (nb_exact n Hok c Hc), (nb_exact n' Hok' c Hc), C in Hne.
  destruct (decide (contributors n !! pos = ho)) as [<-|Hho]; [by rewrite partial_alter_self in Hne|].
  left. split; [done|]. split; [done|].
  destruct (decide (near 2 pos c)) as [|Hfar]; [done|]. destruct Hne.
  assert (forall r, r <= 2 -> full_count r (dom (partial_alter (fun _ => ho) pos (contributors n))) c =
    full_count r (dom (contributors n)) c) as Hsame.
  { intros r Hr. unfold full_count. do 2 f_equal. apply set_eq. intros q. rewrite !elem_of_filter, !elem_of_dom.
    destruct (decide (q = pos)) as [->|]; [|by rewrite lookup_partial_alter_ne].
    assert (~ near r c pos) by (rewrite near_sym; unfold near in *; lia). tauto. }
  by rewrite !Hsame by lia.
Qed.

(** ** Progress of the index between two drains of its dirty set *)

(** The counters stay exact, pending entries are untouched, and every centre whose counters
    moved is dirty. *)
Record nb_progress (n n' : FullNeighborhoodIndex) : Prop := {
  np_ok : nb_ok n';
  np_pending : pending_readiness n' = pending_readiness n;
  np_dirty : dirty_centers n ⊆ dirty_centers n';
  np_counts : forall c, ChunkPos_ok c -> c ∉ dirty_centers n' -> counts_at n' c = counts_at n c;
  np_range : forall c, c ∈ dirty_centers n' -> c ∈ dirty_centers n \/ ChunkPos_ok c;
}.

Lemma nb_progress_refl n : nb_ok n -> nb_progress n n.
Proof. intros H. split; try done. auto. Qed.

Lemma nb_progress_trans n1 n2 n3 : nb_progress n1 n2 -> nb_progress n2 n3 -> nb_progress n1 n3.
Proof.
  intros [A1 A2 A3 A4 A5] [B1 B2 B3 B4 B5]. split; [done|congruence|set_solver| |].
  - intros c Hc Hd. rewrite B4 by done. apply A4; [done|]. set_solver.
  - intros c [H|H]%B5; [by apply A5|by right].
Qed.

Lemma reconcile_progress n pos ho :
  nb_ok n -> ChunkPos_ok pos ->
  exists n', reconcile_contributor n pos ho = Ok n' /\ nb_progress n n' /\
    contributors n' = partial_alter (fun _ => ho) pos (contributors n).
Proof.
  intros Hok Hpos. destruct (reconcile_contributor_ok n pos ho Hok Hpos) as (n' & E & Hok' & C & D & P).
  exists n'. split; [done|]. split; [|done]. split; try done.
  - intros c Hc. apply D. by right.
  - intros c Hc Hd. destruct (decide (counts_at n' c = counts_at n c)) as [|Hne]; [done|].
    destruct Hd. by apply (counts_changed_dirty n n' pos ho).
  - intros c [(_ & H & _)|H]%D; auto.
Qed.

Lemma mark_dirty_progress n pos : nb_ok n -> ChunkPos_ok pos -> nb_progress n (mark_dirty n pos).
Proof.
  intros Hok Hpos. split; simpl; try done.
  - by destruct Hok.
  - set_solver.
  - intros c [->%elem_of_singleton|H]%elem_of_union; auto.
Qed.

(** The holder registered at [pos], if any, is the one that leaves. *)
Lemma remove_if_matches_progress n pos id :
  nb_ok n -> ChunkPos_ok pos -> (forall cur, contributors n !! pos = Some cur -> cur = id) ->
  exists n', remove_contributor_if_matches n pos id = Ok n' /\ nb_progress n n' /\
    contributors n' = delete pos (contributors n).
Proof.
  intros Hok Hpos Hcur. unfold remove_contributor_if_matches.
  destruct (contributors n !! pos) as [cur|] eqn:E.
  - rewrite (Hcur cur eq_refl), decide_True by done.
    destruct (reconcile_progress n pos None Hok Hpos) as (n' & E' & P & C). exists n'.
    unfold reconcile_contributor in E'. rewrite E in E'. rewrite decide_True in E' by done.
    destruct (remove_contributor n pos) as [n1|]; [|done]. simpl in E'. injection E' as ->. done.
  - exists n. split; [done|]. split; [by apply nb_progress_refl|]. by rewrite delete_id.
Qed.

(** C10. After any history of operations the incremental counters of every centre are the
    numbers of Full contributors within one and within two chunks of it, counted afresh: a
    centre is block ticking ready exactly when all 9 positions around it, and entity ticking
    ready exactly when all 25, are contributors.  Reconciling a position then never fails,
    touches no other contributor, and marks every centre whose counters it changes as dirty;
    the one error an operation can report is that the contributor to remove is another
    holder. *)
Theorem full_neighborhood_exact ops :
  Forall nb_op_ok ops ->
  let n := nb_history ops in
  (forall c, ChunkPos_ok c ->
     counts_at n c = mkCounts (full_count 1 (dom (contributors n)) c) (full_count 2 (dom (contributors n)) c) /\
     (block_ticking_ready (counts_at n c) = true <->
        forall q, near 1 c q -> is_Some (contributors n !! q)) /\
     (entity_ticking_ready (counts_at n c) = true <->
        forall q, near 2 c q -> is_Some (contributors n !! q))) /\
  (forall pos ho, ChunkPos_ok pos -> exists n',
     reconcile_contributor n pos ho = Ok n' /\
     contributors n' = partial_alter (fun _ => ho) pos (contributors n) /\
     forall c, ChunkPos_ok c -> counts_at n' c <> counts_at n c -> c ∈ dirty_centers n') /\
  (forall op e, nb_op_ok op -> nb_run n op = Err e ->
     exists pos h cur, op = OpRemoveIfMatches pos h /\ contributors n !! pos = Some cur /\ cur <> h /\ e = ContributorIdentityMismatch pos).
Proof.
  intros Hops n. pose proof (nb_history_ok ops Hops) as Hok. fold n in Hok. split; [|split].
  - intros c Hc. split; [by apply nb_exact|]. by apply ready_iff.
  - intros pos ho Hpos.
    destruct (reconcile_contributor_ok n pos ho Hok Hpos) as (n' & E & _ & C & _).
    exists n'. split; [done|]. split; [done|]. intros c. by apply (counts_changed_dirty n n' pos ho).
  - intros op e Hop E. destruct (nb_run_cases n op Hok Hop) as [(n' & E' & _)|(pos & h & cur & -> & Hc & Hne & E')]; [congruence|].
    exists pos, h, cur. split; [done|]. split; [done|]. split; [done|]. congruence.
Qed.

(** Nine contributors around the origin and one far away. *)
Definition nb_witness_ops : list nb_op :=
  (fun p => OpReconcile p (Some 7)) <$> (square 1 (mkChunkPos 0 0) ++ [mkChunkPos 40 40]).

Lemma full_neighborhood_exact_witness :
  block_ticking_ready (counts_at (nb_history nb_witness_ops) (mkChunkPos 0 0)) = true /\
  forall q, near 1 (mkChunkPos 0 0) q -> is_Some (contributors (nb_history nb_witness_ops) !! q).
Proof.
  split; [by vm_compute|].
  apply (full_neighborhood_exact nb_witness_ops).
  - repeat constructor; done.
  - by split.
  - by vm_compute.
Defined.
