(* ===== verification/TickOwnership.v ===== *)
(** * What the chunk map relies on from the tick scheduler

    The chunk map registers a chunk's tick queues when the chunk becomes Full, unpacks them
    when it starts ticking, publishes the positions that tick, and unregisters the queues
    when the chunk is dropped; an error from any of these calls is a panic.  [TickOwnership]
    states when the calls succeed; [WorldTickScheduler] implements it. *)

From S2P Require Import Prelude Positions TickList TickScheduler.

Class TickOwnership (T : Type) := {
  to_ok : T -> Prop;
  (** the container registered at each position, and each container's lifecycle *)
  to_registered : T -> gmap ChunkPos Z;
  to_lifecycle : T -> Z -> option ChunkTickContainerLifecycle;

  (** a chunk's container comes into being with the chunk, Full or not *)
  to_install : T -> Z -> bool -> T;
  to_promote : T -> Z -> option T;
  to_register : T -> ChunkPos -> Z -> option (T * result unit TickSchedulerError);
  to_unpack : T -> ChunkPos -> option (T * result unit TickSchedulerError);
  to_unregister : T -> ChunkPos -> option T;
  to_reconcile : T -> list ChunkPos -> option (T * result unit TickSchedulerError);

  to_install_law t id full : to_ok t -> to_lifecycle t id = None ->
    to_ok (to_install t id full) /\ to_registered (to_install t id full) = to_registered t /\
    forall id', to_lifecycle (to_install t id full) id' =
      if decide (id' = id) then Some (if full then PrePublication else Proto) else to_lifecycle t id';
  to_promote_law t id : to_ok t -> to_lifecycle t id = Some Proto ->
    exists t', to_promote t id = Some t' /\ to_ok t' /\ to_registered t' = to_registered t /\
      forall id', to_lifecycle t' id' =
        if decide (id' = id) then Some PrePublication else to_lifecycle t id';
  to_register_law t pos id : to_ok t -> ChunkPos_ok pos ->
    to_lifecycle t id = Some PrePublication -> to_registered t !! pos = None ->
    exists t', to_register t pos id = Some (t', Ok ()) /\ to_ok t' /\
      to_registered t' = <[pos := id]> (to_registered t) /\
      forall id', to_lifecycle t' id' =
        if decide (id' = id) then Some Registered else to_lifecycle t id';
  to_unpack_law t pos : to_ok t -> is_Some (to_registered t !! pos) ->
    exists t', to_unpack t pos = Some (t', Ok ()) /\ to_ok t' /\
      to_registered t' = to_registered t /\ forall id, to_lifecycle t' id = to_lifecycle t id;
  to_unregister_law t pos : to_ok t ->
    exists t', to_unregister t pos = Some t' /\ to_ok t' /\
      to_registered t' = delete pos (to_registered t) /\
      forall id, to_registered t !! pos <> Some id -> to_lifecycle t' id = to_lifecycle t id;
  to_reconcile_law t active : to_ok t -> NoDup active ->
    (forall pos, pos ∈ active -> is_Some (to_registered t !! pos)) ->
    exists t', to_reconcile t active = Some (t', Ok ()) /\ to_ok t' /\
      to_registered t' = to_registered t /\ forall id, to_lifecycle t' id = to_lifecycle t id;
}.

(** ** The tick scheduler implements it *)

Section Scheduler.
Context {B F : Type} `{!TickKey B, !TickKey F}.
Implicit Types w : WorldTickScheduler B F.

(** The game time at which queues are unpacked, and the ticks a new chunk comes with. *)
Context (now : Z) (initial : Z -> bool -> ChunkTickLists B F).

(** An unregistered container may belong to any chunk. *)
Lemma sched_ok_owner owner w id pos :
  sched_ok owner w -> container_lifecycle w id <> Some Registered ->
  sched_ok (fun i => if decide (i = id) then pos else owner i) w.
Proof.
  intros [H1 H2 H3] Hid. unfold container_lifecycle in Hid. split; [done| |].
  - intros q r Hr. destruct (H2 _ _ Hr) as (Ho & c & Hc & Hl & Hh).
    rewrite decide_False; [eauto|]. intros <-. rewrite Hc in Hid. simpl in Hid. congruence.
  - intros i c Hc Hl. rewrite decide_False; [eauto|]. intros ->. rewrite Hc in Hid. simpl in Hid. congruence.
Qed.

Definition scheduler_ok w : Prop := exists owner, sched_ok owner w.

Lemma set_container_lifecycle w id c id' :
  container_lifecycle (set_container w id c) id' =
  if decide (id' = id) then Some (lifecycle c) else container_lifecycle w id'.
Proof.
  unfold container_lifecycle. simpl. case_decide as E; [subst; by rewrite lookup_insert_eq|].
  by rewrite lookup_insert_ne.
Qed.

Lemma set_container_ok w id c :
  scheduler_ok w -> container_lifecycle w id <> Some Registered -> lifecycle c <> Registered ->
  scheduler_ok (set_container w id c).
Proof.
  intros [owner Hok] Hid Hc. exists owner. apply world_ok_unregistered; [done| |done].
  intros c' Hc' E. apply Hid. unfold container_lifecycle. rewrite Hc'. simpl. by rewrite E.
Qed.

Definition install_container w (id : Z) (full : bool) : WorldTickScheduler B F :=
  set_container w id (if full then ChunkTickContainer_new (initial id full)
                      else ChunkTickContainer_new_proto (initial id full)).

(** [promote_to_full] under the assertion that it succeeds. *)
Definition promote_container w (id : Z) : option (WorldTickScheduler B F) :=
  c ← containers w !! id;
  let '(c, promoted) := promote_to_full c in
  if promoted : bool then Some (set_container w id c) else None.

Lemma register_chunk_law w pos id :
  scheduler_ok w -> ChunkPos_ok pos ->
  container_lifecycle w id = Some PrePublication -> registrations w !! pos = None ->
  exists w', register_chunk w (mkChunkRef pos id) = Some (w', Ok ()) /\ scheduler_ok w' /\
    registrations w' = <[pos := id]> (registrations w) /\
    forall id', container_lifecycle w' id' =
      if decide (id' = id) then Some Registered else container_lifecycle w id'.
Proof.
  intros [owner Hok] Hpos Hl Hr.
  pose proof (sched_ok_owner owner w id pos Hok ltac:(congruence)) as Hok'.
  unfold container_lifecycle in Hl. destruct (containers w !! id) as [c|] eqn:Ec; [|done].
  simpl in Hl. injection Hl as Hl.
  destruct (register_chunk_ok _ w (mkChunkRef pos id) Hok') as (w' & res & E & Hw').
  { split_and!; [by rewrite decide_True|done|by simpl; rewrite Ec]. }
  unfold registrations in Hr. rewrite lookup_fmap, fmap_None in Hr.
  unfold register_chunk in E. simpl in E. rewrite Ec in E. simpl in E.
  rewrite decide_True, Hr in E by done. injection E as <- <-.
  eexists. split; [unfold register_chunk; simpl; rewrite Ec; simpl; by rewrite decide_True, Hr by done|].
  split; [by eexists|]. split.
  - unfold registrations. simpl. by rewrite fmap_insert.
  - intros id'. rewrite set_container_lifecycle. by case_decide.
Qed.

#[global] Program Instance scheduler_ownership : TickOwnership (WorldTickScheduler B F) := {
  to_ok := scheduler_ok;
  to_registered := registrations;
  to_lifecycle := container_lifecycle;
  to_install := install_container;
  to_promote := promote_container;
  to_register := fun w pos id => register_chunk w (mkChunkRef pos id);
  to_unpack := fun w pos => unpack_chunk w pos now;
  to_unregister := unregister_chunk;
  to_reconcile := reconcile;
}.
Next Obligation.
  intros w id full Hok Hl. unfold install_container. split_and!.
  - apply set_container_ok; [done|congruence|by destruct full].
  - done.
  - intros id'. rewrite set_container_lifecycle. case_decide; [|done]. by destruct full.
Qed.
Next Obligation.
  intros w id Hok Hl. unfold promote_container. unfold container_lifecycle in Hl.
  destruct (containers w !! id) as [c|] eqn:Ec; [|done]. simpl in *. injection Hl as Hl.
  unfold promote_to_full. rewrite decide_True by done. simpl. eexists. split; [done|]. split_and!.
  - apply set_container_ok; [done| |done]. unfold container_lifecycle. rewrite Ec. simpl. congruence.
  - done.
  - intros id'. rewrite set_container_lifecycle. by case_decide.
Qed.
Next Obligation. intros. by apply register_chunk_law. Qed.
Next Obligation.
  intros w pos [owner Hok] Hs.
  destruct (unpack_chunk_ok owner w pos now Hok) as (w' & res & E & Hok' & H1 & H2 & H3).
  rewrite (H3 Hs) in E. exists w'. split; [done|]. split; [by exists owner|done].
Qed.
Next Obligation.
  intros w pos [owner Hok]. destruct (unregister_chunk_ok owner w pos Hok) as (w' & E & Hok' & H1 & H2).
  exists w'. split; [done|]. split; [by exists owner|done].
Qed.
Next Obligation.
  intros w active [owner Hok] Hnd Hall.
  destruct (reconcile_ok owner w active Hok Hnd) as (w' & res & E & Hok' & H1 & H2 & H3).
  rewrite (H3 Hall) in E. exists w'. split; [done|]. split; [by exists owner|].
  split; [done|]. intros id. unfold container_lifecycle. by rewrite H2.
Qed.

Lemma scheduler_new_ok : scheduler_ok (WorldTickScheduler_new ∅).
Proof. exists (fun _ => mkChunkPos 0 0). apply sched_new_ok. Qed.

End Scheduler.
