(* ===== verification/ChunkHolder.v ===== *)
(** * Chunk holders

    Models [ChunkHolder] of [steel-core/src/chunk/chunk_holder.rs]: the ticket levels, the
    published status and the claims on status work, the packed ticking readiness, the save
    lifecycle and the pending changes of one chunk.  Every atomic field keeps the integer
    the source stores.  Wake-ups of waiting futures have no counterpart: a waiter re-reads
    the state.  Chunk data is reduced to what the holder reads of it. *)

From S2P Require Import Prelude Positions ChunkPyramid ChunkTickets TickScheduler.

(** ** Encodings of the atomic fields *)

Definition USIZE_MAX : Z := 2 ^ 64 - 1.
Definition STATUS_NONE : Z := 255.
Definition UNPUBLISHED_STATUS : Z := 0.
Definition NO_TICKET_LEVEL : Z := 255.
Definition SAVE_LIFECYCLE_ACTIVE : Z := 0.
Definition SAVE_LIFECYCLE_UNLOADING : Z := 1.
Definition SAVE_LIFECYCLE_PREPARING : Z := 2.

Definition optional_ticket_level_raw (level : option ChunkTicketLevel) : Z :=
  match level with Some level => level | None => NO_TICKET_LEVEL end.

Definition optional_ticket_level_from_raw (raw : Z) : option ChunkTicketLevel :=
  if raw =? NO_TICKET_LEVEL then None else ChunkTicketLevel_new raw.

Definition status_index (s : ChunkStatus) : Z := Z.of_nat (ChunkStatus_get_index s).

Definition encoded_published_status (status : ChunkStatus) : Z := u8 (status_index status) + 1.

(** An encoding outside the table panics. *)
Definition decoded_published_status (status : Z) : option (option ChunkStatus) :=
  if status =? UNPUBLISHED_STATUS then Some None
  else match ChunkStatus_from_index (Z.to_nat (status - 1)) with
       | Some s => Some (Some s)
       | None => None
       end.

Inductive TickingReadiness := Unready | BlockTicking | EntityTicking.

#[global] Instance TickingReadiness_eq_dec : EqDecision TickingReadiness.
Proof. solve_decision. Defined.

Definition TickingReadiness_rank (r : TickingReadiness) : Z :=
  match r with Unready => 0 | BlockTicking => 1 | EntityTicking => 2 end.

(** [TickingReadinessSnapshot::readiness]; the fourth bit pattern is unreachable. *)
Definition snapshot_readiness (word : Z) : option TickingReadiness :=
  match Z.land word 3 with
  | 0 => Some Unready
  | 1 => Some BlockTicking
  | 2 => Some EntityTicking
  | _ => None
  end.

Definition readiness_is_block_ticking (r : TickingReadiness) : bool :=
  match r with BlockTicking | EntityTicking => true | Unready => false end.

Definition readiness_is_entity_ticking (r : TickingReadiness) : bool :=
  match r with EntityTicking => true | _ => false end.

(** ** Data *)

(** What the holder reads of its chunk: whether the weak reference to the world still
    upgrades, whether the Full runtime is installed, and the dirty flag. *)
Record ChunkData := mkData { cd_level : bool; cd_full_runtime : bool; cd_dirty : bool }.

(** Block and light changes waiting for the next broadcast. *)
Record ChangeTracker := mkTracker {
  has_changed_sections : bool;
  queued_for_broadcast : bool;
  packet_content_revision : Z;
  changed_blocks_per_section : list (gset Z);
  changed_sky_light : gset SectionPos;
  changed_block_light : gset SectionPos;
}.

Record ChunkHolder := mkHolder {
  h_pos : ChunkPos;
  h_min_y : Z;
  h_height : Z;
  h_data : option ChunkData;
  h_published : Z;
  h_started : Z;
  h_load : Z;
  h_sim : Z;
  h_allowed : Z;
  h_task : option ChunkStatus;
  h_task_target : Z;
  h_save_deps : Z;
  h_lifecycle : Z;
  h_readiness : Z;
  h_full_init : bool;
  h_changes : ChangeTracker;
}.

Definition set_h_data (v : option ChunkData) (h : ChunkHolder) : ChunkHolder :=
  mkHolder (h_pos h) (h_min_y h) (h_height h) v (h_published h) (h_started h) (h_load h) (h_sim h)
    (h_allowed h) (h_task h) (h_task_target h) (h_save_deps h) (h_lifecycle h) (h_readiness h)
    (h_full_init h) (h_changes h).
Definition set_h_published (v : Z) (h : ChunkHolder) : ChunkHolder :=
  mkHolder (h_pos h) (h_min_y h) (h_height h) (h_data h) v (h_started h) (h_load h) (h_sim h)
    (h_allowed h) (h_task h) (h_task_target h) (h_save_deps h) (h_lifecycle h) (h_readiness h)
    (h_full_init h) (h_changes h).
Definition set_h_started (v : Z) (h : ChunkHolder) : ChunkHolder :=
  mkHolder (h_pos h) (h_min_y h) (h_height h) (h_data h) (h_published h) v (h_load h) (h_sim h)
    (h_allowed h) (h_task h) (h_task_target h) (h_save_deps h) (h_lifecycle h) (h_readiness h)
    (h_full_init h) (h_changes h).
Definition set_h_load (v : Z) (h : ChunkHolder) : ChunkHolder :=
  mkHolder (h_pos h) (h_min_y h) (h_height h) (h_data h) (h_published h) (h_started h) v (h_sim h)
    (h_allowed h) (h_task h) (h_task_target h) (h_save_deps h) (h_lifecycle h) (h_readiness h)
    (h_full_init h) (h_changes h).
Definition set_h_sim (v : Z) (h : ChunkHolder) : ChunkHolder :=
  mkHolder (h_pos h) (h_min_y h) (h_height h) (h_data h) (h_published h) (h_started h) (h_load h)
    v (h_allowed h) (h_task h) (h_task_target h) (h_save_deps h) (h_lifecycle h) (h_readiness h)
    (h_full_init h) (h_changes h).
Definition set_h_allowed (v : Z) (h : ChunkHolder) : ChunkHolder :=
  mkHolder (h_pos h) (h_min_y h) (h_height h) (h_data h) (h_published h) (h_started h) (h_load h)
    (h_sim h) v (h_task h) (h_task_target h) (h_save_deps h) (h_lifecycle h) (h_readiness h)
    (h_full_init h) (h_changes h).
Definition set_h_save_deps (v : Z) (h : ChunkHolder) : ChunkHolder :=
  mkHolder (h_pos h) (h_min_y h) (h_height h) (h_data h) (h_published h) (h_started h) (h_load h)
    (h_sim h) (h_allowed h) (h_task h) (h_task_target h) v (h_lifecycle h) (h_readiness h)
    (h_full_init h) (h_changes h).
Definition set_h_lifecycle (v : Z) (h : ChunkHolder) : ChunkHolder :=
  mkHolder (h_pos h) (h_min_y h) (h_height h) (h_data h) (h_published h) (h_started h) (h_load h)
    (h_sim h) (h_allowed h) (h_task h) (h_task_target h) (h_save_deps h) v (h_readiness h)
    (h_full_init h) (h_changes h).
Definition set_h_readiness (v : Z) (h : ChunkHolder) : ChunkHolder :=
  mkHolder (h_pos h) (h_min_y h) (h_height h) (h_data h) (h_published h) (h_started h) (h_load h)
    (h_sim h) (h_allowed h) (h_task h) (h_task_target h) (h_save_deps h) (h_lifecycle h) v
    (h_full_init h) (h_changes h).
Definition set_h_full_init (v : bool) (h : ChunkHolder) : ChunkHolder :=
  mkHolder (h_pos h) (h_min_y h) (h_height h) (h_data h) (h_published h) (h_started h) (h_load h)
    (h_sim h) (h_allowed h) (h_task h) (h_task_target h) (h_save_deps h) (h_lifecycle h)
    (h_readiness h) v (h_changes h).
Definition set_h_changes (v : ChangeTracker) (h : ChunkHolder) : ChunkHolder :=
  mkHolder (h_pos h) (h_min_y h) (h_height h) (h_data h) (h_published h) (h_started h) (h_load h)
    (h_sim h) (h_allowed h) (h_task h) (h_task_target h) (h_save_deps h) (h_lifecycle h)
    (h_readiness h) (h_full_init h) v.
Definition set_task (t : option ChunkStatus) (target : Z) (h : ChunkHolder) : ChunkHolder :=
  mkHolder (h_pos h) (h_min_y h) (h_height h) (h_data h) (h_published h) (h_started h) (h_load h)
    (h_sim h) (h_allowed h) t target (h_save_deps h) (h_lifecycle h) (h_readiness h)
    (h_full_init h) (h_changes h).

Inductive EntityVisibility := Hidden | Tracked | Ticking.

(** ** Construction and levels *)

Definition tracker_new (height : Z) : ChangeTracker :=
  mkTracker false false 0 (replicate (Z.to_nat (Z.quot height 16)) ∅) ∅ ∅.

(** [map_or(STATUS_NONE, |s| s.get_index() as u8)] of the status a level permits. *)
Definition allowed_of_level (level : option ChunkTicketLevel) : Z :=
  match generation_status level with Some s => u8 (status_index s) | None => STATUS_NONE end.

Definition new_with_full_publications (pos : ChunkPos) (load_level : ChunkTicketLevel)
  (simulation_level : option ChunkTicketLevel) (min_y height : Z) : ChunkHolder :=
  mkHolder pos min_y height None UNPUBLISHED_STATUS USIZE_MAX load_level
    (optional_ticket_level_raw simulation_level) (allowed_of_level (Some load_level))
    None STATUS_NONE 0 SAVE_LIFECYCLE_ACTIVE 0 false (tracker_new height).

Definition holder_load_level (h : ChunkHolder) : option ChunkTicketLevel :=
  optional_ticket_level_from_raw (h_load h).

Definition swap_load_level (h : ChunkHolder) (level : ChunkTicketLevel)
  : ChunkHolder * option ChunkTicketLevel := (set_h_load level h, holder_load_level h).

Definition clear_load_level (h : ChunkHolder) : ChunkHolder := set_h_load NO_TICKET_LEVEL h.

Definition holder_simulation_level (h : ChunkHolder) : option ChunkTicketLevel :=
  optional_ticket_level_from_raw (h_sim h).

Definition set_simulation_level (h : ChunkHolder) (level : option ChunkTicketLevel) : ChunkHolder :=
  set_h_sim (optional_ticket_level_raw level) h.

Definition update_highest_allowed_status (h : ChunkHolder) (level : option ChunkTicketLevel)
  : ChunkHolder := set_h_allowed (allowed_of_level level) h.

Definition is_status_disallowed (h : ChunkHolder) (status : ChunkStatus) : bool :=
  if h_allowed h =? STATUS_NONE then true else h_allowed h <? status_index status.

(** ** Published status and data *)

Definition try_chunk (h : ChunkHolder) (status : ChunkStatus) : option ChunkData :=
  if encoded_published_status status <=? h_published h then h_data h else None.

Definition try_full_chunk (h : ChunkHolder) : option ChunkData := try_chunk h Full.

Definition published_status (h : ChunkHolder) : option (option ChunkStatus) :=
  decoded_published_status (h_published h).

(** ** Ticking readiness *)

Definition ticking_readiness (h : ChunkHolder) : option TickingReadiness :=
  snapshot_readiness (h_readiness h).

(** One round of the compare-exchange loop; the outer [None] is the exhausted generation,
    the inner one "already at the target". *)
Definition transition_ticking_readiness (h : ChunkHolder) (target : TickingReadiness)
  : option (ChunkHolder * option TickingReadiness) :=
  let current := h_readiness h in
  previous ← snapshot_readiness current;
  if decide (previous = target) then Some (h, None)
  else
    let generation := Z.shiftr current 2 in
    if decide (generation = Z.shiftr (2 ^ 64 - 1) 2) then None
    else
      let next := Z.lor (u64 (Z.shiftl (generation + 1) 2)) (TickingReadiness_rank target) in
      Some (set_h_readiness next h, Some previous).

Definition entity_visibility (h : ChunkHolder) : option EntityVisibility :=
  match try_chunk h Full with
  | None => Some Hidden
  | Some _ =>
      if negb (match holder_load_level h with Some l => ChunkTicketLevel_is_full l | None => false end)
      then Some Hidden
      else if is_entity_ticking (holder_simulation_level h)
      then r ← ticking_readiness h;
           Some (if readiness_is_entity_ticking r then Ticking else Tracked)
      else Some Tracked
  end.

(** ** Save lifecycle *)

Definition is_ready_for_saving (h : ChunkHolder) : bool := h_save_deps h =? 0.

Definition add_save_dependency (h : ChunkHolder) : ChunkHolder :=
  set_h_save_deps (u64 (h_save_deps h + 1)) h.

Definition drop_save_dependency (h : ChunkHolder) : ChunkHolder :=
  set_h_save_deps (u64 (h_save_deps h - 1)) h.

(** [compare_exchange] on the save lifecycle. *)
Definition cas_lifecycle (h : ChunkHolder) (current new : Z) : option ChunkHolder :=
  if h_lifecycle h =? current then Some (set_h_lifecycle new h) else None.

(** Panics unless the holder is active. *)
Definition begin_unloading (h : ChunkHolder) : option ChunkHolder :=
  cas_lifecycle h SAVE_LIFECYCLE_ACTIVE SAVE_LIFECYCLE_UNLOADING.

Definition try_begin_save_preparation (h : ChunkHolder) : option ChunkHolder :=
  cas_lifecycle h SAVE_LIFECYCLE_UNLOADING SAVE_LIFECYCLE_PREPARING.

(** Dropping a [ChunkSavePreparationGuard]: panics outside the preparing lifecycle. *)
Definition end_save_preparation (h : ChunkHolder) : option ChunkHolder :=
  cas_lifecycle h SAVE_LIFECYCLE_PREPARING SAVE_LIFECYCLE_UNLOADING.

Definition try_revive_from_unloading (h : ChunkHolder) : option ChunkHolder :=
  cas_lifecycle h SAVE_LIFECYCLE_UNLOADING SAVE_LIFECYCLE_ACTIVE.

(** ** Claims on status work *)

Inductive claim_outcome := Claimed | AlreadyClaimed.

(** The outer [None] is the panic on an unexpected [started_work]. *)
Definition claim_status_work (h : ChunkHolder) (status : ChunkStatus)
  : option (ChunkHolder * claim_outcome) :=
  let parent_index := match ChunkStatus_parent status with
                      | Some p => status_index p | None => USIZE_MAX end in
  if h_started h =? parent_index then Some (set_h_started (status_index status) h, Claimed)
  else if negb (h_started h =? USIZE_MAX) && (status_index status <=? h_started h)
  then Some (h, AlreadyClaimed)
  else None.

Definition release_status_work_claim (h : ChunkHolder) (status : ChunkStatus) : option ChunkHolder :=
  published ← published_status h;
  let rollback_index := match published with Some s => status_index s | None => USIZE_MAX end in
  if negb (rollback_index =? USIZE_MAX) && (status_index status <=? rollback_index) then Some h
  else if h_started h =? status_index status then Some (set_h_started rollback_index h)
  else Some h.

Definition mark_status_work_published (h : ChunkHolder) (status : ChunkStatus) : ChunkHolder :=
  if negb (h_started h =? USIZE_MAX) && (status_index status <=? h_started h) then h
  else set_h_started (status_index status) h.

Definition status_work_covers (h : ChunkHolder) (status : ChunkStatus) : bool :=
  negb (h_started h =? USIZE_MAX) && (status_index status <=? h_started h).

(** ** Publishing *)

(** Replacing installed data panics. *)
Definition insert_chunk_no_notify (h : ChunkHolder) (chunk : ChunkData) : option ChunkHolder :=
  match h_data h with Some _ => None | None => Some (set_h_data (Some chunk) h) end.

Definition publish_generated_status (h : ChunkHolder) (status : ChunkStatus) : ChunkHolder :=
  set_h_published (Z.max (h_published h) (encoded_published_status status)) h.

(** [upgrade_to_full]: installing the Full runtime twice panics. *)
Definition upgrade_to_full (h : ChunkHolder) : option ChunkHolder :=
  published ← published_status h;
  if decide (published = Some Full) then Some h
  else
    chunk ← h_data h;
    if cd_full_runtime chunk then None
    else Some (set_h_data (Some (mkData (cd_level chunk) true (cd_dirty chunk))) h).

Definition set_dirty (b : bool) (h : ChunkHolder) : ChunkHolder :=
  match h_data h with
  | Some c => set_h_data (Some (mkData (cd_level c) (cd_full_runtime c) b)) h
  | None => h
  end.

Definition mark_dirty_data (h : ChunkHolder) : ChunkHolder := set_dirty true h.

(** ** Producers: the task that owns a claim, one atomic action per step *)

(** The actions between claiming a status and dropping the claim.  A producer that is
    [StClaimed] may still give up; from [StRan] on it runs to the end. *)
Inductive producer_stage :=
| StClaimed        (* the claim and its save dependency are held *)
| StRan            (* the stage ran, or the stored chunk was installed *)
| StRegistered     (* the tick queues of a Full chunk are registered *)
| StMarked         (* [started_work] covers the status *)
| StPublished      (* the status is visible *)
| StInitialized    (* [full_status_initialized] is set *)
| StDone.          (* only the claim and the save dependency are left to drop *)

#[global] Instance producer_stage_eq_dec : EqDecision producer_stage.
Proof. solve_decision. Defined.

(** [pr_work] is the status that is published: the claimed one, or the stored status when
    an Empty step finds a stored chunk. *)
Record producer := mkProducer {
  pr_claim : ChunkStatus;
  pr_work : ChunkStatus;
  pr_loaded : bool;
  pr_stage : producer_stage;
}.

(** What a step asks of the tick scheduler and of the publication queue. *)
Inductive producer_effect :=
| NoEffect
| InstallTicks (full : bool)
| PromoteTicks
| RegisterTicks
| PublishFull.

Definition with_stage (q : producer) (s : producer_stage) : producer :=
  mkProducer (pr_claim q) (pr_work q) (pr_loaded q) s.

(** The stage function of a generated step: Empty installs a new chunk (with its world
    reference and dirty flag), Full installs the Full runtime, the others only change
    chunk contents.  A missing parent panics. *)
Definition run_generated_step (h : ChunkHolder) (q : producer) (level dirty : bool)
  : option (ChunkHolder * producer * producer_effect) :=
  let q' := mkProducer (pr_claim q) (pr_claim q) false StRan in
  match ChunkStatus_parent (pr_claim q) with
  | None => h ← insert_chunk_no_notify h (mkData level false dirty);
            Some (h, q', InstallTicks false)
  | Some parent =>
      published ← published_status h;
      if match published with Some s => status_index parent <=? status_index s | None => false end
      then if decide (pr_claim q = Full)
           then if decide (published = Some Full) then Some (h, q', NoEffect)
                else h ← upgrade_to_full h; Some (h, q', PromoteTicks)
           else Some (h, q', NoEffect)
      else None
  end.

(** The three assertions of [store_and_publish_chunk_status] and the installation. *)
Definition install_loaded_chunk (h : ChunkHolder) (q : producer) (status : ChunkStatus)
  (chunk : ChunkData) : option (ChunkHolder * producer * producer_effect) :=
  if decide (h_published h = UNPUBLISHED_STATUS) then
    if decide (bool_decide (status = Full) = cd_full_runtime chunk) then
      h ← insert_chunk_no_notify h chunk;
      Some (h, mkProducer (pr_claim q) status true StRan, InstallTicks (cd_full_runtime chunk))
    else None
  else None.

(** [stored_chunk.mark_dirty()] of [finish_generation_status]. *)
Definition mark_unpublished_dirty (h : ChunkHolder) (status : ChunkStatus) : option ChunkHolder :=
  published ← published_status h;
  Some (if match published with Some p => status_index p <? status_index status | None => true end
        then mark_dirty_data h else h).

(** [register_full_chunk_ticks]: without data or Full runtime it panics, without a world it
    returns. *)
Definition register_full_chunk_ticks (h : ChunkHolder) : option producer_effect :=
  chunk ← h_data h;
  if cd_full_runtime chunk then Some (if cd_level chunk then RegisterTicks else NoEffect) else None.

(** The steps from [StRan] on: [finish_generation_status], the tail of
    [store_and_publish_chunk_status], and [publish_full]. *)
Definition producer_advance (h : ChunkHolder) (q : producer)
  : option (ChunkHolder * producer * producer_effect) :=
  match pr_stage q with
  | StClaimed | StDone => Some (h, q, NoEffect)
  | StRan =>
      h ← (if pr_loaded q then Some h else mark_unpublished_dirty h (pr_work q));
      e ← (if decide (pr_work q = Full) then register_full_chunk_ticks h else Some NoEffect);
      Some (h, with_stage q StRegistered, e)
  | StRegistered => Some (mark_status_work_published h (pr_work q), with_stage q StMarked, NoEffect)
  | StMarked =>
      let h := if pr_loaded q then set_h_published (encoded_published_status (pr_work q)) h
               else publish_generated_status h (pr_work q) in
      Some (h, with_stage q StPublished, NoEffect)
  | StPublished =>
      if decide (pr_work q = Full) then
        match try_full_chunk h with
        | Some _ => Some (set_h_full_init true h, with_stage q StInitialized, NoEffect)
        | None => Some (h, with_stage q StDone, NoEffect)
        end
      else Some (h, with_stage q StDone, NoEffect)
  | StInitialized => Some (h, with_stage q StDone, PublishFull)
  end.

(** Dropping the save dependency and the claim. *)
Definition drop_producer (h : ChunkHolder) (q : producer) : option ChunkHolder :=
  release_status_work_claim (drop_save_dependency h) (pr_claim q).

(** ** The invariant of a holder and its producers *)

(** [started_work] on the scale of the published encoding. *)
Definition work_level (h : ChunkHolder) : Z :=
  if h_started h =? USIZE_MAX then 0 else h_started h + 1.

Definition is_open (q : producer) : bool :=
  match pr_stage q with StClaimed | StRan | StRegistered | StMarked => true | _ => false end.

Definition has_run (q : producer) : bool :=
  match pr_stage q with StClaimed => false | _ => true end.

Definition ticks_registered (q : producer) : bool :=
  match pr_stage q with StClaimed | StRan => false | _ => true end.

Definition encoded (s : ChunkStatus) : Z := status_index s + 1.

Definition producer_shape (q : producer) : Prop :=
  if pr_loaded q then pr_claim q = Empty else pr_work q = pr_claim q.

(** The one open producer works on the status after the published one. *)
Record open_ok (h : ChunkHolder) (q : producer) : Prop := {
  oo_next : h_published h = encoded (pr_claim q) - 1;
  oo_work : work_level h =
    match pr_stage q with StMarked => encoded (pr_work q) | _ => encoded (pr_claim q) end;
}.

Definition running (ps : list producer) (f : producer -> bool) : Prop :=
  exists q, q ∈ ps /\ is_open q = true /\ f q = true.

Definition works_full (q : producer) : bool := bool_decide (pr_work q = Full).

Record producers_ok (h : ChunkHolder) (ps : list producer) : Prop := {
  po_published : 0 <= h_published h <= 12;
  po_started : h_started h = USIZE_MAX \/ 0 <= h_started h <= 11;
  po_shape : Forall producer_shape ps;
  po_open : match filter (fun q => is_open q = true) ps with
            | [] => work_level h = h_published h
            | [q] => open_ok h q
            | _ => False
            end;
  po_closed : Forall (fun q => is_open q = false -> encoded (pr_work q) <= h_published h) ps;
  po_data : is_Some (h_data h) <-> 0 < h_published h \/ running ps has_run;
  po_runtime : forall c, h_data h = Some c ->
    (cd_full_runtime c = true <->
       h_published h = 12 \/ running ps (fun q => has_run q && works_full q));
  po_init : h_full_init h = true -> h_published h = 12;
  po_full : h_published h = 12 -> h_full_init h = false ->
    exists q, q ∈ ps /\ pr_stage q = StPublished /\ pr_work q = Full;
  po_pushing : forall q, q ∈ ps -> pr_stage q = StInitialized -> h_full_init h = true;
}.

(** The lifecycle that the chunk's tick container has, read off the holder. *)
Definition registered_by (q : producer) : bool := is_open q && ticks_registered q && works_full q.

Definition holder_ticks (h : ChunkHolder) (ps : list producer) : option ChunkTickContainerLifecycle :=
  c ← h_data h;
  Some (if cd_full_runtime c then
          if cd_level c && ((h_published h =? 12) || existsb registered_by ps)
          then Registered else PrePublication
        else Proto).

(** An effect is asked for exactly where it moves the container. *)
Definition effect_ok (e : producer_effect) (before after : option ChunkTickContainerLifecycle) : Prop :=
  match e with
  | NoEffect | PublishFull => after = before
  | InstallTicks full => before = None /\ after = Some (if full then PrePublication else Proto)
  | PromoteTicks => before = Some Proto /\ after = Some PrePublication
  | RegisterTicks => before = Some PrePublication /\ after = Some Registered
  end.

(** ** Lemmas: encodings *)

Lemma status_index_range s : 0 <= status_index s <= 11.
Proof. by destruct s. Qed.

Lemma status_index_inj s s' : status_index s = status_index s' -> s = s'.
Proof. by destruct s, s'. Qed.

Lemma encoded_range s : 1 <= encoded s <= 12.
Proof. unfold encoded. pose proof (status_index_range s). lia. Qed.

Lemma encoded_published_status_eq s : encoded_published_status s = encoded s.
Proof. by destruct s. Qed.

Lemma encoded_Full s : encoded s = 12 <-> s = Full.
Proof. by destruct s. Qed.

Lemma parent_encoded s : match ChunkStatus_parent s with
                         | Some p => encoded p = encoded s - 1 | None => s = Empty end.
Proof. by destruct s. Qed.

Definition encoded_opt (o : option ChunkStatus) : Z :=
  match o with Some s => encoded s | None => 0 end.

Lemma decoded_published_status_spec p : 0 <= p <= 12 ->
  exists o, decoded_published_status p = Some o /\ encoded_opt o = p.
Proof.
  intros H. assert (p ∈ seqZ 0 13) as Hp by (apply elem_of_seqZ; lia). vm_compute in Hp.
  repeat (apply elem_of_cons in Hp as [->|Hp]; [by eexists|]). by apply elem_of_nil in Hp.
Qed.

Lemma decoded_encoded_status s : decoded_published_status (encoded_published_status s) = Some (Some s).
Proof. by destruct s. Qed.

Lemma encoded_opt_Full o : encoded_opt o = 12 <-> o = Some Full.
Proof. destruct o as [s|]; simpl; [|done]. rewrite encoded_Full. split; congruence. Qed.

Lemma level_raw_roundtrip l :
  (forall x, l = Some x -> level_ok x) ->
  optional_ticket_level_from_raw (optional_ticket_level_raw l) = l.
Proof.
  intros H. unfold optional_ticket_level_from_raw, optional_ticket_level_raw, ChunkTicketLevel_new.
  destruct l as [x|]; [|done]. specialize (H x eq_refl). unfold level_ok in H.
  change MAX_LEVEL_RAW with 141 in *. unfold NO_TICKET_LEVEL.
  rewrite (proj2 (Z.eqb_neq _ _)) by lia. by rewrite (proj2 (Z.leb_le _ _)) by lia.
Qed.

(** ** Lemmas: the readiness word *)

(** A word in range with one of the three defined readiness values. *)
Definition word_ok (w : Z) : Prop := in_u 64 w /\ exists r, snapshot_readiness w = Some r.

Definition word_generation (w : Z) : Z := Z.shiftr w 2.

Lemma word_land_3 g r : 0 <= g -> 0 <= r < 4 ->
  Z.land (Z.lor (Z.shiftl g 2) r) 3 = r /\ Z.shiftr (Z.lor (Z.shiftl g 2) r) 2 = g.
Proof.
  intros Hg Hr. rewrite Z.land_lor_distr_l, Z.shiftr_lor. change 3 with (Z.ones 2).
  rewrite !Z.land_ones by lia. rewrite Z.shiftl_mul_pow2, Z.mod_mul by lia.
  rewrite !Z.shiftr_div_pow2 by lia. rewrite Z.div_mul by lia. change (2 ^ 2) with 4.
  rewrite Z.mod_small, Z.div_small, Z.lor_0_r by lia. done.
Qed.

(** A transition installs the target and advances the generation by one; it panics only
    when the generation is exhausted. *)
Lemma transition_spec h target r :
  in_u 64 (h_readiness h) -> snapshot_readiness (h_readiness h) = Some r ->
  word_generation (h_readiness h) < 2 ^ 62 - 1 ->
  if decide (r = target) then transition_ticking_readiness h target = Some (h, None)
  else exists w, transition_ticking_readiness h target = Some (set_h_readiness w h, Some r) /\
         in_u 64 w /\ snapshot_readiness w = Some target /\
         word_generation w = word_generation (h_readiness h) + 1.
Proof.
  intros Hu Hr Hg. unfold transition_ticking_readiness. rewrite Hr. simpl.
  case_decide as E; [done|]. fold (word_generation (h_readiness h)).
  change (Z.shiftr (2 ^ 64 - 1) 2) with (2 ^ 62 - 1).
  rewrite decide_False by lia. unfold in_u in Hu.
  assert (0 <= word_generation (h_readiness h)) as Hg0 by (apply Z.shiftr_nonneg; lia).
  set (g := word_generation (h_readiness h) + 1).
  assert (u64 (Z.shiftl g 2) = Z.shiftl g 2) as ->.
  { apply wrapu_small. unfold in_u. rewrite Z.shiftl_mul_pow2 by lia. lia. }
  assert (0 <= TickingReadiness_rank target < 4) as Ht by (by destruct target).
  destruct (word_land_3 g (TickingReadiness_rank target) ltac:(lia) Ht) as [L1 L2].
  eexists. split; [done|]. split_and!.
  - unfold in_u.
    set (w := Z.lor _ _) in *. assert (0 <= w) as Hw.
    { apply Z.lor_nonneg. split; [apply Z.shiftl_nonneg|]; lia. }
    split; [done|]. rewrite Z.shiftr_div_pow2 in L2 by lia. change (2 ^ 2) with 4 in L2.
    pose proof (Z.div_mod w 4 ltac:(lia)). pose proof (Z.mod_pos_bound w 4 ltac:(lia)). lia.
  - unfold snapshot_readiness. rewrite L1. by destruct target.
  - exact L2.
Qed.

(** ** Lemmas: producers *)

Lemma new_producers_ok pos level sim min_y height :
  producers_ok (new_with_full_publications pos level sim min_y height) [].
Proof.
  split; simpl; try done; [by left|..].
  - split; [by intros []|]. unfold UNPUBLISHED_STATUS. intros [?|(q & ?%elem_of_nil & _)]; [lia|done].
  - by intros q ?%elem_of_nil.
Qed.

Lemma running_perm ps ps' f : ps ≡ₚ ps' -> running ps f -> running ps' f.
Proof. intros E (q & Hq & H). exists q. by rewrite <- E. Qed.

Lemma producers_ok_perm h ps ps' : ps ≡ₚ ps' -> producers_ok h ps -> producers_ok h ps'.
Proof.
  intros E [H1 H2 H3 H4 H5 H6 H7 H8 H9 H10].
  assert (forall f, running ps f <-> running ps' f) as Hrun
    by (intros; split; apply running_perm; [done|by symmetry]).
  split; try done.
  - by rewrite <- E.
  - assert (filter (fun q => is_open q = true) ps ≡ₚ filter (fun q => is_open q = true) ps') as Ef
      by by apply filter_Permutation.
    destruct (filter (fun q => is_open q = true) ps) as [|q [|q' l]].
    + by apply Permutation_nil_l in Ef as <-.
    + by apply Permutation_singleton_l in Ef as <-.
    + done.
  - by rewrite <- E.
  - by rewrite H6, Hrun.
  - intros c Hc. by rewrite (H7 c Hc), Hrun.
  - intros P I. destruct (H9 P I) as (q & Hq & ?). exists q. by rewrite <- E.
  - intros q Hq. apply H10. by rewrite E.
Qed.

(** With an open producer at the head no other producer is open. *)
Lemma open_head h q ps : producers_ok h (q :: ps) -> is_open q = true ->
  open_ok h q /\ filter (fun q => is_open q = true) ps = [].
Proof.
  intros [_ _ _ H _ _ _ _ _ _] Hq. rewrite filter_cons_True in H by done.
  by destruct (filter _ ps).
Qed.

Lemma running_cons q ps f :
  running (q :: ps) f <-> (is_open q = true /\ f q = true) \/ running ps f.
Proof.
  unfold running. split.
  - intros (q' & [->|Hq]%elem_of_cons & H); [by left|right; eauto].
  - intros [H|(q' & Hq & H)]; [exists q|exists q']; (split; [|done]); [left|by right].
Qed.

Lemma running_none ps f : filter (fun q => is_open q = true) ps = [] -> ~ running ps f.
Proof.
  intros H (q & Hq & Ho & _). apply (not_elem_of_nil q). rewrite <- H. by apply list_elem_of_filter.
Qed.

(** What a closed producer's presence says is independent of the fields a step of another
    producer changes, as long as the published status does not decrease. *)
Lemma closed_mono h h' ps : h_published h <= h_published h' ->
  Forall (fun q => is_open q = false -> encoded (pr_work q) <= h_published h) ps ->
  Forall (fun q => is_open q = false -> encoded (pr_work q) <= h_published h') ps.
Proof. intros Hle H. eapply Forall_impl; [exact H|]. intros q Hq Ho. specialize (Hq Ho). lia. Qed.

Lemma existsb_none ps : filter (fun q => is_open q = true) ps = [] -> existsb registered_by ps = false.
Proof.
  intros H. apply not_true_iff_false. intros (q & Hq & Hr)%existsb_exists.
  apply (running_none ps registered_by H). exists q. split; [by apply list_elem_of_In|].
  unfold registered_by in Hr. rewrite !andb_true_iff in Hr. split; [tauto|].
  unfold registered_by. by rewrite !andb_true_iff.
Qed.

Lemma holder_ticks_perm h ps ps' : ps ≡ₚ ps' -> holder_ticks h ps = holder_ticks h ps'.
Proof.
  intros E. unfold holder_ticks. assert (existsb registered_by ps = existsb registered_by ps') as ->; [|done].
  apply eq_true_iff_eq. rewrite !existsb_exists.
  split; intros (q & Hq & Hr); exists q; (split; [|done]); apply list_elem_of_In;
    apply list_elem_of_In in Hq; [rewrite <- E|rewrite E]; done.
Qed.

(** Replacing the open producer at the head by an open one. *)
Lemma producers_ok_open h h' q q' ps :
  producers_ok h (q :: ps) -> is_open q = true -> is_open q' = true ->
  producer_shape q' -> open_ok h' q' ->
  h_published h' = h_published h -> h_full_init h' = h_full_init h ->
  0 <= h_started h' <= 11 ->
  (is_Some (h_data h') <-> 0 < h_published h \/ has_run q' = true) ->
  (forall c, h_data h' = Some c -> (cd_full_runtime c = true <-> has_run q' && works_full q' = true)) ->
  producers_ok h' (q' :: ps).
Proof.
  intros Hok Hq Hq' Hshape Hopen Hp Hi Hst Hd Hr. destruct (open_head _ _ _ Hok Hq) as [Hoq Hps].
  destruct Hok as [H1 H2 H3 H4 H5 H6 H7 H8 H9 H10]. apply Forall_cons in H3 as [_ H3], H5 as [_ H5].
  assert (forall f, running (q' :: ps) f <-> f q' = true) as Hrun.
  { intros f. rewrite running_cons. pose proof (running_none ps f Hps). tauto. }
  assert (h_published h <= 11) as Hle.
  { rewrite (oo_next _ _ Hoq). pose proof (encoded_range (pr_claim q)). lia. }
  split; rewrite ?Hp, ?Hi; try done.
  - by right.
  - by constructor.
  - by rewrite filter_cons_True, Hps.
  - constructor; [congruence|done].
  - rewrite Hrun. done.
  - intros c Hc. rewrite Hrun, (Hr c Hc). split; [tauto|]. intros [?|?]; [lia|done].
  - intros ? ?. lia.
  - intros q0 [->|Hq0]%elem_of_cons Hs; [unfold is_open in Hq'; by rewrite Hs in Hq'|].
    apply (H10 q0); [by right|done].
Qed.

(** With an open producer at the head the container's lifecycle depends on it alone. *)
Lemma holder_ticks_open h q q' ps :
  producers_ok h (q :: ps) -> is_open q = true -> is_open q' = true ->
  forall h', h_published h' = h_published h ->
  holder_ticks h' (q' :: ps) =
    c ← h_data h';
    Some (if cd_full_runtime c then
            if cd_level c && (ticks_registered q' && works_full q') then Registered else PrePublication
          else Proto).
Proof.
  intros Hok Hq Hq' h' Hp. destruct (open_head _ _ _ Hok Hq) as [Hoq Hps].
  assert (h_published h <= 11) as Hle.
  { rewrite (oo_next _ _ Hoq). pose proof (encoded_range (pr_claim q)). lia. }
  unfold holder_ticks. rewrite Hp, (proj2 (Z.eqb_neq _ _)) by lia. simpl.
  rewrite (existsb_none ps Hps), orb_false_r. unfold registered_by. by rewrite Hq'.
Qed.

Lemma work_level_started h s : h_started h = status_index s -> work_level h = encoded s.
Proof.
  intros H. unfold work_level, encoded, USIZE_MAX. pose proof (status_index_range s).
  rewrite H, (proj2 (Z.eqb_neq _ _)) by lia. done.
Qed.

Lemma started_of_level h : h_started h = USIZE_MAX \/ 0 <= h_started h <= 11 ->
  (work_level h = 0 <-> h_started h = USIZE_MAX) /\
  (0 < work_level h -> h_started h = work_level h - 1).
Proof.
  unfold work_level, USIZE_MAX. intros H. destruct (Z.eqb_spec (h_started h) (2 ^ 64 - 1)); lia.
Qed.

(** The container's lifecycle before registration. *)
Definition unregistered_ticks (d : option ChunkData) : option ChunkTickContainerLifecycle :=
  c ← d; Some (if cd_full_runtime c then PrePublication else Proto).

Lemma holder_ticks_unregistered h q q' ps :
  producers_ok h (q :: ps) -> is_open q = true ->
  pr_stage q' = StClaimed \/ pr_stage q' = StRan ->
  forall h', h_published h' = h_published h ->
  holder_ticks h' (q' :: ps) = unregistered_ticks (h_data h').
Proof.
  intros Hok Hq Hst h' E.
  rewrite (holder_ticks_open h q q' ps Hok Hq) by (done || by unfold is_open; destruct Hst as [-> | ->]).
  unfold unregistered_ticks, ticks_registered. destruct (h_data h') as [c|]; [|done]. simpl.
  by destruct Hst as [-> | ->]; simpl; rewrite andb_false_r.
Qed.

(** What holds while a claim has done nothing yet. *)
Lemma claimed_facts h q ps :
  producers_ok h (q :: ps) -> pr_stage q = StClaimed ->
  h_published h = encoded (pr_claim q) - 1 /\ 0 <= h_started h <= 11 /\
  work_level h = encoded (pr_claim q) /\ (is_Some (h_data h) <-> 0 < h_published h) /\
  (forall c, h_data h = Some c -> cd_full_runtime c = false).
Proof.
  intros Hok Hst. assert (is_open q = true) as Hq by by (unfold is_open; rewrite Hst).
  destruct (open_head _ _ _ Hok Hq) as [[Hn Hw] Hps]. rewrite Hst in Hw.
  pose proof (encoded_range (pr_claim q)) as Hr.
  assert (has_run q = false) as Hrunq by by (unfold has_run; rewrite Hst).
  assert (forall f, (forall q, f q = true -> has_run q = true) -> ~ running (q :: ps) f) as Hno.
  { intros f Hf [[_ E]|E]%running_cons; [apply Hf in E; congruence|by apply (running_none ps f)]. }
  split_and!; try done; try lia.
  - destruct (po_started _ _ Hok) as [E|]; [|lia]. unfold work_level in Hw. rewrite E, Z.eqb_refl in Hw. lia.
  - destruct (po_started _ _ Hok) as [E|]; [|lia]. unfold work_level in Hw. rewrite E, Z.eqb_refl in Hw. lia.
  - rewrite (po_data _ _ Hok). pose proof (Hno has_run ltac:(done)). tauto.
  - intros c Hc. apply not_true_iff_false. rewrite (po_runtime _ _ Hok c Hc).
    pose proof (Hno (fun q => has_run q && works_full q)) as Hn2.
    intros [?|?]; [lia|]. apply Hn2; [|done]. by intros q0 [? _]%andb_true_iff.
Qed.

(** Once the claim has run, with data [d] installed. *)
Lemma ran_ok h q q' ps d :
  producers_ok h (q :: ps) -> pr_stage q = StClaimed ->
  pr_stage q' = StRan -> pr_claim q' = pr_claim q -> producer_shape q' ->
  is_Some d -> (forall c, d = Some c -> cd_full_runtime c = works_full q') ->
  producers_ok (set_h_data d h) (q' :: ps) /\
  holder_ticks (set_h_data d h) (q' :: ps) = unregistered_ticks d.
Proof.
  intros Hok Hst Hst' Hcl Hsh Hsome Hd.
  destruct (claimed_facts _ _ _ Hok Hst) as (F1 & F2 & F3 & _ & _).
  assert (is_open q = true) as Hq by by (unfold is_open; rewrite Hst).
  assert (is_open q' = true) as Hq' by by (unfold is_open; rewrite Hst').
  assert (has_run q' = true) as Hr' by by (unfold has_run; rewrite Hst').
  split.
  - apply (producers_ok_open h _ q); try done.
    + split; [by rewrite Hcl|]. rewrite Hst', Hcl. exact F3.
    + simpl. rewrite Hr'. tauto.
    + simpl. intros c Hc. rewrite (Hd c Hc), Hr'. done.
  - apply (holder_ticks_unregistered h q q' ps Hok Hq); [by right|done].
Qed.

(** Starting from a claim: the stage runs, or a stored chunk is installed. *)
Lemma run_generated_step_ok h q ps level dirty :
  producers_ok h (q :: ps) -> pr_stage q = StClaimed ->
  exists d q' e, run_generated_step h q level dirty = Some (set_h_data d h, q', e) /\
    producers_ok (set_h_data d h) (q' :: ps) /\ pr_stage q' = StRan /\
    effect_ok e (holder_ticks h (q :: ps)) (holder_ticks (set_h_data d h) (q' :: ps)) /\
    e <> PublishFull /\ (forall b, cd_level <$> h_data h = Some b -> cd_level <$> d = Some b).
Proof.
  intros Hok Hst. destruct (claimed_facts _ _ _ Hok Hst) as (F1 & F2 & F3 & F4 & F5).
  assert (is_open q = true) as Hq by by (unfold is_open; rewrite Hst).
  rewrite (holder_ticks_unregistered h q q ps Hok Hq ltac:(by left) h eq_refl).
  set (q' := mkProducer (pr_claim q) (pr_claim q) false StRan).
  pose proof (fun d => ran_ok h q q' ps d Hok Hst eq_refl eq_refl eq_refl) as Hran.
  assert (set_h_data (h_data h) h = h) as Hid by by destruct h.
  unfold run_generated_step. fold q'. pose proof (parent_encoded (pr_claim q)) as Hpar.
  pose proof (encoded_range (pr_claim q)) as Hrange.
  destruct (ChunkStatus_parent (pr_claim q)) as [par|].
  - destruct (decoded_published_status_spec (h_published h) ltac:(lia)) as (o & Eo & Ho).
    destruct o as [s|]; simpl in Ho; [|pose proof (encoded_range par); lia].
    assert (s = par) as -> by (apply status_index_inj; unfold encoded in *; lia).
    destruct (proj2 F4 ltac:(pose proof (encoded_range par); lia)) as [c Hc]. pose proof (F5 c Hc) as Hrt.
    assert (par <> Full) as Hnf by (intros ->; change (encoded Full) with 12 in Hpar; lia).
    unfold upgrade_to_full, published_status. rewrite Eo. simpl. rewrite Z.leb_refl.
    rewrite (decide_False (P := Some par = Some Full)) by congruence.
    case_decide as Hf.
    + rewrite Hc. simpl. rewrite Hrt, decide_False by congruence.
      destruct (Hran (Some (mkData (cd_level c) true (cd_dirty c)))) as [R1 R2]; [done| |].
      { intros ? [= <-]. unfold works_full, q'. simpl. by rewrite bool_decide_true. }
      eexists _, q', PromoteTicks. split; [reflexivity|]. rewrite R2. unfold unregistered_ticks. simpl. by rewrite ?Hrt.
    + destruct (Hran (h_data h)) as [R1 R2]; [by rewrite Hc| |].
      { intros c' Hc'. rewrite (F5 c' Hc'). unfold works_full, q'. simpl. by rewrite bool_decide_false. }
      rewrite Hid in R1, R2. exists (h_data h), q', NoEffect. rewrite Hid. by rewrite R2.
  - unfold insert_chunk_no_notify. rewrite Hpar in F1. change (encoded Empty) with 1 in F1.
    destruct (h_data h) as [c|] eqn:Ed; [pose proof (proj1 F4 ltac:(done)); lia|]. simpl.
    destruct (Hran (Some (mkData level false dirty))) as [R1 R2]; [done| |].
    { intros ? [= <-]. unfold works_full, q'. simpl. by rewrite Hpar. }
    eexists _, q', (InstallTicks false). split; [done|]. by rewrite R2.
Qed.

Lemma install_loaded_chunk_ok h q ps status chunk :
  producers_ok h (q :: ps) -> pr_stage q = StClaimed -> pr_claim q = Empty ->
  cd_full_runtime chunk = bool_decide (status = Full) ->
  exists d q', install_loaded_chunk h q status chunk =
      Some (set_h_data d h, q', InstallTicks (cd_full_runtime chunk)) /\
    producers_ok (set_h_data d h) (q' :: ps) /\ pr_stage q' = StRan /\
    effect_ok (InstallTicks (cd_full_runtime chunk)) (holder_ticks h (q :: ps))
      (holder_ticks (set_h_data d h) (q' :: ps)) /\
    h_data h = None.
Proof.
  intros Hok Hst Hcl Hrt. destruct (claimed_facts _ _ _ Hok Hst) as (F1 & F2 & F3 & F4 & F5).
  assert (is_open q = true) as Hq by by (unfold is_open; rewrite Hst).
  rewrite (holder_ticks_unregistered h q q ps Hok Hq ltac:(by left) h eq_refl).
  rewrite Hcl in F1. change (encoded Empty) with 1 in F1.
  unfold install_loaded_chunk, insert_chunk_no_notify. rewrite decide_True by done.
  rewrite decide_True by done.
  destruct (h_data h) as [c|]; [pose proof (proj1 F4 ltac:(done)); lia|]. simpl.
  set (q' := mkProducer (pr_claim q) status true StRan).
  destruct (ran_ok h q q' ps (Some chunk) Hok Hst eq_refl eq_refl Hcl) as [R1 R2]; [done| |].
  { by intros ? [= <-]. }
  eexists _, q'. split; [done|]. rewrite R2. by split_and!.
Qed.

(** The fields that producers never touch. *)
Definition same_frame (h h' : ChunkHolder) : Prop :=
  h_pos h' = h_pos h /\ h_load h' = h_load h /\ h_sim h' = h_sim h /\ h_allowed h' = h_allowed h /\
  h_lifecycle h' = h_lifecycle h /\ h_readiness h' = h_readiness h.

Lemma set_dirty_ok b h ps : producers_ok h ps ->
  producers_ok (set_dirty b h) ps /\ holder_ticks (set_dirty b h) ps = holder_ticks h ps /\
  same_frame h (set_dirty b h) /\ h_published (set_dirty b h) = h_published h /\
  h_full_init (set_dirty b h) = h_full_init h /\
  cd_level <$> h_data (set_dirty b h) = cd_level <$> h_data h.
Proof.
  intros Hok. unfold set_dirty. destruct (h_data h) as [c|] eqn:E; [|by rewrite E; split_and!].
  split_and!; try done.
  - destruct Hok as [H1 H2 H3 H4 H5 H6 H7 H8 H9 H10]. rewrite E in *. split; simpl; try done.
    + destruct (filter _ ps) as [|q [|]]; [done| |done]. by destruct H4.
    + rewrite <- H6. split; eauto.
    + intros c' [= <-]. by apply (H7 c).
  - unfold holder_ticks. by rewrite E.
Qed.

(** The steps from [StRan] to the end: no assertion fails, and the invariant is kept. *)

Lemma mark_unpublished_dirty_ok h s ps : producers_ok h ps ->
  exists h', mark_unpublished_dirty h s = Some h' /\ producers_ok h' ps /\
    holder_ticks h' ps = holder_ticks h ps /\ same_frame h h' /\ h_published h' = h_published h /\
    h_full_init h' = h_full_init h /\ cd_level <$> h_data h' = cd_level <$> h_data h.
Proof.
  intros Hok. unfold mark_unpublished_dirty, published_status.
  destruct (decoded_published_status_spec _ (po_published _ _ Hok)) as (o & -> & _). simpl.
  eexists. split; [done|]. case_step; [by apply set_dirty_ok|by split_and!].
Qed.

(** An open producer that has run: its data is there, Full runtime exactly for Full work. *)
Lemma ran_facts h q ps : producers_ok h (q :: ps) -> is_open q = true -> has_run q = true ->
  exists c, h_data h = Some c /\ cd_full_runtime c = works_full q.
Proof.
  intros Hok Hq Hrun. destruct (open_head _ _ _ Hok Hq) as [[Hn _] Hps].
  destruct (proj2 (po_data _ _ Hok)) as [c Hc]; [right; apply running_cons; auto|].
  exists c. split; [done|]. apply eq_true_iff_eq. rewrite (po_runtime _ _ Hok c Hc), running_cons, Hq, Hrun.
  pose proof (running_none ps (fun q => has_run q && works_full q) Hps).
  pose proof (encoded_range (pr_claim q)). simpl. split; [intros [?|[[_ ?]|?]]; [lia|done|done]|auto].
Qed.

(** Moving the open producer forward without publishing: only [started_work] may change. *)
Lemma stage_forward_ok h h' q q' ps :
  producers_ok h (q :: ps) -> is_open q = true -> has_run q = true ->
  q' = with_stage q (pr_stage q') -> is_open q' = true -> has_run q' = true ->
  open_ok h' q' -> h_published h' = h_published h -> h_full_init h' = h_full_init h ->
  0 <= h_started h' <= 11 -> h_data h' = h_data h ->
  producers_ok h' (q' :: ps).
Proof.
  intros Hok Hq Hrun Eq Hq' Hrun' Ho Hp Hi Hs Hd.
  destruct (ran_facts h q ps Hok Hq Hrun) as (c & Hc & Hrt).
  apply (producers_ok_open h h' q q'); try done.
  - pose proof (po_shape _ _ Hok) as [Hsh _]%Forall_cons. by rewrite Eq.
  - rewrite Hd, Hc, Hrun'. split; [by right|done].
  - rewrite Hd, Hc. intros ? [= <-]. rewrite Hrt, Hrun', Eq. done.
Qed.

Lemma advance_ran_ok h q ps :
  producers_ok h (q :: ps) -> pr_stage q = StRan ->
  exists h' e, producer_advance h q = Some (h', with_stage q StRegistered, e) /\ same_frame h h' /\
    producers_ok h' (with_stage q StRegistered :: ps) /\
    h_published h' = h_published h /\ h_full_init h' = h_full_init h /\
    cd_level <$> h_data h' = cd_level <$> h_data h /\ e <> PublishFull /\
    effect_ok e (holder_ticks h (q :: ps)) (holder_ticks h' (with_stage q StRegistered :: ps)).
Proof.
  intros Hok Hst. unfold producer_advance. rewrite Hst.
  assert (is_open q = true) as Hq by by (unfold is_open; rewrite Hst).
  assert (has_run q = true) as Hrun by by (unfold has_run; rewrite Hst).
  assert (exists h', (if pr_loaded q then Some h else mark_unpublished_dirty h (pr_work q)) = Some h' /\
    producers_ok h' (q :: ps) /\ holder_ticks h' (q :: ps) = holder_ticks h (q :: ps) /\ same_frame h h' /\
    h_published h' = h_published h /\ h_full_init h' = h_full_init h /\
    cd_level <$> h_data h' = cd_level <$> h_data h)
    as (h' & -> & Hok' & <- & Hfr & Hp & Hi & Hl).
  { destruct (pr_loaded q); [eexists; by split_and!|by apply mark_unpublished_dirty_ok]. }
  rewrite <- Hp, <- Hi, <- Hl. clear Hp Hi Hl Hok. destruct (open_head _ _ _ Hok' Hq) as [[Hn Hw] _]. rewrite Hst in Hw.
  destruct (ran_facts h' q ps Hok' Hq Hrun) as (c & Hc & Hrt). simpl.
  assert (producers_ok h' (with_stage q StRegistered :: ps)) as Hnew.
  { apply (stage_forward_ok h' h' q); try done. pose proof (encoded_range (pr_claim q)).
    destruct (started_of_level h' (po_started _ _ Hok')). lia. }
  rewrite (holder_ticks_unregistered h' q q ps Hok' Hq ltac:(by right) h' eq_refl).
  pose proof (holder_ticks_open h' q (with_stage q StRegistered) ps Hok' Hq eq_refl h' eq_refl) as HT.
  unfold register_full_chunk_ticks, unregistered_ticks. rewrite Hc in *. simpl in *. rewrite Hrt in *.
  unfold works_full in *. simpl in *. case_decide as Hf.
  - rewrite bool_decide_true in * by done. exists h'. eexists. split; [done|]. rewrite HT, Hc.
    by destruct (cd_level c) eqn:El; split_and!; try done; simpl; rewrite El.
  - rewrite bool_decide_false in * by done. exists h', NoEffect. rewrite HT, Hc. by split_and!.
Qed.

Lemma mark_status_work_published_ok h q ps :
  producers_ok h (q :: ps) -> pr_stage q = StRegistered ->
  let h' := mark_status_work_published h (pr_work q) in
  producers_ok h' (with_stage q StMarked :: ps) /\ same_frame h h' /\
  h_published h' = h_published h /\ h_full_init h' = h_full_init h /\ h_data h' = h_data h /\
  holder_ticks h' (with_stage q StMarked :: ps) = holder_ticks h (q :: ps).
Proof.
  intros Hok Hst h'.
  assert (is_open q = true) as Hq by by (unfold is_open; rewrite Hst).
  assert (has_run q = true) as Hrun by by (unfold has_run; rewrite Hst).
  destruct (open_head _ _ _ Hok Hq) as [[Hn Hw] _]. rewrite Hst in Hw.
  pose proof (po_shape _ _ Hok) as [Hsh _]%Forall_cons.
  pose proof (encoded_range (pr_claim q)) as Hrc. pose proof (status_index_range (pr_work q)) as Hrw.
  destruct (started_of_level h (po_started _ _ Hok)) as [_ Hsl]. specialize (Hsl ltac:(lia)).
  assert (encoded (pr_claim q) <= encoded (pr_work q)) as Hle.
  { unfold producer_shape in Hsh. destruct (pr_loaded q); [|by rewrite Hsh].
    rewrite Hsh. apply encoded_range. }
  assert (h_started h' = status_index (pr_work q) /\ h_data h' = h_data h /\ same_frame h h' /\
    h_published h' = h_published h /\ h_full_init h' = h_full_init h) as (S1 & S2 & S3 & S4 & S5).
  { unfold h', mark_status_work_published. case_step; [|by split_and!].
    split_and!; try done. apply andb_true_iff in Heqb as [_ ?%Z.leb_le]. unfold encoded in *. lia. }
  split_and!; try done.
  - apply (stage_forward_ok h h' q); try done; [|lia]. split; [simpl; congruence|].
    simpl. by apply work_level_started.
  - rewrite (holder_ticks_open h q (with_stage q StMarked) ps Hok Hq eq_refl h' S4).
    rewrite (holder_ticks_open h q q ps Hok Hq Hq h eq_refl), S2. unfold ticks_registered. by rewrite Hst.
Qed.

Definition published_by (h : ChunkHolder) (q : producer) : ChunkHolder :=
  if pr_loaded q then set_h_published (encoded_published_status (pr_work q)) h
  else publish_generated_status h (pr_work q).

Lemma publish_ok h q ps :
  producers_ok h (q :: ps) -> pr_stage q = StMarked ->
  let h' := published_by h q in
  producers_ok h' (with_stage q StPublished :: ps) /\ same_frame h h' /\
  h_published h <= h_published h' /\ h_full_init h' = h_full_init h /\ h_data h' = h_data h /\
  holder_ticks h' (with_stage q StPublished :: ps) = holder_ticks h (q :: ps).
Proof.
  intros Hok Hst h'.
  assert (is_open q = true) as Hq by by (unfold is_open; rewrite Hst).
  assert (has_run q = true) as Hrun by by (unfold has_run; rewrite Hst).
  destruct (open_head _ _ _ Hok Hq) as [[Hn Hw] Hps]. rewrite Hst in Hw.
  destruct (ran_facts h q ps Hok Hq Hrun) as (c & Hc & Hrt).
  pose proof (holder_ticks_open h q q ps Hok Hq Hq h eq_refl) as HT.
  destruct Hok as [H1 H2 H3 H4 H5 H6 H7 H8 H9 H10].
  pose proof H3 as [Hsh Hsh']%Forall_cons. apply Forall_cons in H5 as [_ H5].
  pose proof (encoded_range (pr_claim q)) as Hrc. pose proof (encoded_range (pr_work q)) as Hrw.
  assert (encoded (pr_claim q) <= encoded (pr_work q)) as Hle.
  { unfold producer_shape in Hsh. destruct (pr_loaded q); [|by rewrite Hsh]. rewrite Hsh. apply encoded_range. }
  assert (h' = set_h_published (encoded (pr_work q)) h) as Eh.
  { unfold h', published_by, publish_generated_status. rewrite encoded_published_status_eq.
    destruct (pr_loaded q); [done|]. f_equal. lia. }
  clearbody h'. subst h'. simpl.
  assert (forall f, ~ running (with_stage q StPublished :: ps) f) as Hno.
  { intros f. rewrite running_cons. pose proof (running_none ps f Hps). by intros [[? _]|?]. }
  split_and!; try done; [|lia|].
  - split; simpl; try done; try lia.
    + by constructor.
    + rewrite filter_cons_False by done. by rewrite Hps.
    + constructor; [done|]. apply (closed_mono h (set_h_published (encoded (pr_work q)) h)); [simpl; lia|done].
    + rewrite Hc. split; [lia|done].
    + intros c'. rewrite Hc. intros [= <-]. rewrite Hrt. unfold works_full. rewrite bool_decide_eq_true, encoded_Full.
      split; [by left|]. intros [?|[]%Hno]. done.
    + intros ?%H8. lia.
    + intros E _. exists (with_stage q StPublished). split_and!; [by left|done|]. by apply encoded_Full.
    + intros q0 [->|Hq0]%elem_of_cons Hs; [done|]. apply (H10 q0); [by right|done].
  - rewrite HT. unfold holder_ticks. simpl. rewrite Hc. simpl.
    rewrite (existsb_none ps Hps), Hrt. unfold works_full, ticks_registered. rewrite Hst. simpl.
    rewrite orb_false_r. destruct (Z.eqb_spec (encoded (pr_work q)) 12) as [E|E]; rewrite encoded_Full in E.
    + by rewrite bool_decide_true.
    + by rewrite bool_decide_false.
Qed.

(** A step of a producer whose status is out: only the initialization flag may be set. *)
Lemma closed_step_ok h q s ps (init : bool) :
  producers_ok h (q :: ps) -> is_open q = false -> is_open (with_stage q s) = false ->
  (init = true -> h_published h = 12) ->
  (init = false -> h_full_init h = false -> pr_stage q = StPublished -> pr_work q <> Full) ->
  (s = StInitialized -> init = true) ->
  let h' := if init then set_h_full_init true h else h in
  producers_ok h' (with_stage q s :: ps) /\ holder_ticks h' (with_stage q s :: ps) = holder_ticks h (q :: ps).
Proof.
  intros Hok Hq Hq' Hi1 Hi2 Hi3 h'. destruct Hok as [H1 H2 H3 H4 H5 H6 H7 H8 H9 H10].
  pose proof H3 as [Hsh Hsh']%Forall_cons. apply Forall_cons in H5 as [H5q H5].
  assert (forall f, running (with_stage q s :: ps) f <-> running (q :: ps) f) as Hrun.
  { intros f. rewrite !running_cons, Hq, Hq'. naive_solver. }
  rewrite filter_cons_False in H4 by congruence.
  assert (h_published h' = h_published h /\ h_started h' = h_started h /\ h_data h' = h_data h /\
    h_full_init h' = init || h_full_init h) as (E1 & E2 & E3 & E4) by by (unfold h'; destruct init).
  split.
  - split; rewrite ?E1, ?E2, ?E3, ?Hrun; try done.
    + by constructor.
    + rewrite filter_cons_False by congruence. unfold work_level in *. rewrite E2.
      destruct (filter _ ps) as [|q0 [|]]; [done| |done]. destruct H4 as [O1 O2].
      split; [by rewrite E1|]. unfold work_level in *. by rewrite E2.
    + constructor; [auto|done].
    + intros c Hc. rewrite Hrun. by apply H7.
    + rewrite E4. intros [->|?]%orb_true_iff; auto.
    + rewrite E4. intros P [-> I]%orb_false_iff. destruct (H9 P I) as (q0 & [->|Hq0]%elem_of_cons & A & B).
      * by destruct (Hi2 eq_refl I A).
      * exists q0. split; [by right|done].
    + rewrite E4. intros q0 [->|Hq0]%elem_of_cons Hs; [by rewrite (Hi3 Hs)|].
      rewrite (H10 q0); [by rewrite orb_true_r|by right|done].
  - unfold holder_ticks. rewrite E1, E3. simpl. unfold registered_by. by rewrite Hq, Hq'.
Qed.

Lemma open_ok_ext h h' q : h_published h' = h_published h -> h_started h' = h_started h ->
  open_ok h q -> open_ok h' q.
Proof. intros E1 E2 [O1 O2]. unfold work_level in *. split; [congruence|]. unfold work_level. by rewrite E2. Qed.

(** Fields outside the producers' protocol do not matter to the invariant. *)
Lemma producers_ok_ext h h' ps :
  h_published h' = h_published h -> h_started h' = h_started h -> h_data h' = h_data h ->
  h_full_init h' = h_full_init h -> producers_ok h ps ->
  producers_ok h' ps /\ holder_ticks h' ps = holder_ticks h ps.
Proof.
  intros E1 E2 E3 E4 [H1 H2 H3 H4 H5 H6 H7 H8 H9 H10]. split; [split|]; rewrite ?E1, ?E2, ?E3, ?E4; try done.
  - destruct (filter _ ps) as [|q [|]]; [|by apply (open_ok_ext h)|done]. unfold work_level in *. by rewrite E2.
  - unfold holder_ticks. by rewrite E1, E3.
Qed.

(** Whether the installed chunk can reach its world. *)
Definition h_level (h : ChunkHolder) : option bool := cd_level <$> h_data h.

(** What one producer action does to its holder. *)
Record step_ok (h : ChunkHolder) (ps : list producer) (h' : ChunkHolder) (ps' : list producer)
  (e : producer_effect) : Prop := {
  so_ok : producers_ok h' ps';
  so_frame : same_frame h h';
  so_published : h_published h <= h_published h';
  so_init : h_full_init h = true -> h_full_init h' = true;
  so_level : forall b, h_level h = Some b -> h_level h' = Some b;
  so_publish : e = PublishFull -> h_full_init h' = true;
  so_effect : effect_ok e (holder_ticks h ps) (holder_ticks h' ps');
  so_pushing : h_full_init h' = true ->
    h_full_init h = true \/ (exists q, q ∈ ps' /\ pr_stage q = StInitialized);
  so_pushed : forall q, q ∈ ps -> pr_stage q = StInitialized ->
    e = PublishFull \/ q ∈ ps';
}.

Lemma producer_advance_ok h q ps :
  producers_ok h (q :: ps) ->
  exists h' q' e, producer_advance h q = Some (h', q', e) /\ step_ok h (q :: ps) h' (q' :: ps) e.
Proof.
  intros Hok.
  assert (forall h' q' e (init : bool), same_frame h h' -> h_published h <= h_published h' ->
    h_full_init h' = init || h_full_init h -> (init = true -> pr_stage q' = StInitialized) ->
    h_level h' = h_level h ->
    (e = PublishFull -> h_full_init h' = true) -> (pr_stage q = StInitialized -> e = PublishFull) ->
    producers_ok h' (q' :: ps) ->
    effect_ok e (holder_ticks h (q :: ps)) (holder_ticks h' (q' :: ps)) ->
    step_ok h (q :: ps) h' (q' :: ps) e) as Hbuild.
  { intros h' q' e init F1 F2 F3 F4 FL F5 F6 F7 F8. split; try done.
    - rewrite F3. intros ->. by rewrite orb_true_r.
    - by rewrite FL.
    - rewrite F3. intros [->|?]%orb_true_iff; [|by left]. right. exists q'. split; [left|auto].
    - intros q0 [->|Hq0]%elem_of_cons Hs; [left; auto|right; by right]. }
  destruct (pr_stage q) eqn:Hst.
  - exists h, q, NoEffect. unfold producer_advance. rewrite Hst. split; [done|].
    by apply (Hbuild h q NoEffect false).
  - destruct (advance_ran_ok h q ps Hok Hst) as (h' & e & E & F1 & F2 & F3 & F4 & FL & F5 & F6).
    exists h', (with_stage q StRegistered), e. split; [done|]. apply (Hbuild _ _ _ false); try done. lia.
  - destruct (mark_status_work_published_ok h q ps Hok Hst) as (F1 & F2 & F3 & F4 & FD & F5).
    eexists _, _, NoEffect. unfold producer_advance. rewrite Hst. split; [done|].
    apply (Hbuild _ _ _ false); try done; [lia|unfold h_level; by rewrite FD].
  - destruct (publish_ok h q ps Hok Hst) as (F1 & F2 & F3 & F4 & FD & F5).
    eexists _, _, NoEffect. unfold producer_advance. rewrite Hst. split; [done|].
    apply (Hbuild (published_by h q) _ _ false); try done. unfold h_level. by rewrite FD.
  - assert (is_open q = false) as Hq by by (unfold is_open; rewrite Hst).
    pose proof (po_closed _ _ Hok) as [Hcl _]%Forall_cons. specialize (Hcl Hq).
    unfold producer_advance. rewrite Hst. case_decide as Hf.
    + rewrite Hf in Hcl. change (encoded Full) with 12 in Hcl. pose proof (po_published _ _ Hok).
      unfold try_full_chunk, try_chunk. rewrite encoded_published_status_eq. change (encoded Full) with 12.
      rewrite (proj2 (Z.leb_le _ _)) by lia.
      destruct (proj2 (po_data _ _ Hok)) as [c Hc]; [lia|]. rewrite Hc.
      destruct (closed_step_ok h q StInitialized ps true Hok Hq eq_refl) as [G1 G2]; [lia|done|done|].
      eexists _, _, NoEffect. split; [done|]. by apply (Hbuild _ _ _ true).
    + destruct (closed_step_ok h q StDone ps false Hok Hq eq_refl) as [G1 G2]; [done|done|done|].
      eexists _, _, NoEffect. split; [done|]. by apply (Hbuild h _ _ false).
  - assert (is_open q = false) as Hq by by (unfold is_open; rewrite Hst).
    destruct (closed_step_ok h q StDone ps false Hok Hq eq_refl) as [G1 G2]; [done|by rewrite Hst|done|].
    eexists _, _, PublishFull. unfold producer_advance. rewrite Hst. split; [done|].
    apply (Hbuild h _ _ false); try done. intros _. apply (po_pushing _ _ Hok q); [left|done].
  - exists h, q, NoEffect. unfold producer_advance. rewrite Hst. split; [done|].
    by apply (Hbuild h q NoEffect false).
Qed.

(** The claimed status is at most the published work. *)
Lemma shape_claim_le q : producer_shape q -> encoded (pr_claim q) <= encoded (pr_work q).
Proof. unfold producer_shape. destruct (pr_loaded q); intros ->; [apply encoded_range|done]. Qed.

Lemma drop_step_ok h h' q ps :
  pr_stage q = StClaimed \/ pr_stage q = StDone -> same_frame h h' ->
  h_published h' = h_published h -> h_full_init h' = h_full_init h -> h_data h' = h_data h ->
  producers_ok h' ps -> step_ok h (q :: ps) h' ps NoEffect.
Proof.
  intros Hst F1 F2 F3 F4 F5. split; try done; try lia.
  - by rewrite F3.
  - unfold h_level. by rewrite F4.
  - simpl. unfold holder_ticks. rewrite F2, F4. simpl.
    assert (registered_by q = false) as ->; [|done]. unfold registered_by, is_open, ticks_registered.
    by destruct Hst as [-> | ->].
  - rewrite F3. by left.
  - intros q0 [->|Hq0]%elem_of_cons Hs; [by destruct Hst; congruence|by right].
Qed.

(** Giving up a claim rolls [started_work] back to the published status. *)
Lemma abandon_ok h q ps :
  producers_ok h (q :: ps) -> pr_stage q = StClaimed ->
  exists h', drop_producer h q = Some h' /\ step_ok h (q :: ps) h' ps NoEffect.
Proof.
  intros Hok Hst. unfold drop_producer, release_status_work_claim, published_status. simpl.
  destruct (decoded_published_status_spec _ (po_published _ _ Hok)) as (o & -> & Ho). simpl.
  pose proof (encoded_range (pr_claim q)) as Hrc.
  destruct (claimed_facts _ _ _ Hok Hst) as (F1 & F2 & F3 & F4 & F5).
  assert (is_open q = true) as Hq by by (unfold is_open; rewrite Hst).
  destruct (open_head _ _ _ Hok Hq) as [_ Hps]. destruct (started_of_level h (po_started _ _ Hok)) as [_ Hsl].
  specialize (Hsl ltac:(lia)).
  assert (h_started h = status_index (pr_claim q)) as Hs by (unfold encoded in *; lia).
  set (rb := match o with Some s => status_index s | None => USIZE_MAX end).
  assert (work_level (set_h_started rb h) = h_published h /\ (rb = USIZE_MAX \/ 0 <= rb <= 11) /\
    (negb (rb =? USIZE_MAX) && (status_index (pr_claim q) <=? rb)) = false) as (Hw & Hrb & ->).
  { unfold work_level, rb, USIZE_MAX. destruct o as [s|]; simpl in *; [|by split_and!; auto].
    pose proof (status_index_range s). unfold encoded in *.
    rewrite (proj2 (Z.eqb_neq _ _)) by lia. simpl. split; [done|]. split; [by right|]. lia. }
  rewrite Hs, Z.eqb_refl. eexists. split; [done|]. apply drop_step_ok; try done; [by left|].
  destruct Hok as [H1 H2 H3 H4 H5 H6 H7 H8 H9 H10]. apply Forall_cons in H3 as [_ H3], H5 as [_ H5].
  assert (forall f, ~ running ps f) as Hno by (intros; by apply running_none).
  split; simpl; try done.
  - by rewrite Hps.
  - rewrite F4. specialize (Hno has_run). tauto.
  - intros c Hc. rewrite (F5 c Hc). split; [done|]. intros [?|[]%Hno]. lia.
  - intros ? ?. lia.
  - intros q0 Hq0. apply H10. by right.
Qed.

(** After publication dropping the claim changes nothing. *)
Lemma finish_ok h q ps :
  producers_ok h (q :: ps) -> pr_stage q = StDone ->
  exists h', drop_producer h q = Some h' /\ step_ok h (q :: ps) h' ps NoEffect.
Proof.
  intros Hok Hst. unfold drop_producer, release_status_work_claim, published_status. simpl.
  destruct (decoded_published_status_spec _ (po_published _ _ Hok)) as (o & -> & Ho). simpl.
  pose proof (encoded_range (pr_claim q)) as Hrc.
  assert (is_open q = false) as Hq by by (unfold is_open; rewrite Hst).
  pose proof (po_closed _ _ Hok) as [Hcl _]%Forall_cons. specialize (Hcl Hq).
  pose proof (po_shape _ _ Hok) as [Hsh%shape_claim_le _]%Forall_cons.
  destruct o as [s|]; simpl in Ho; [|lia]. pose proof (status_index_range s). unfold encoded in *.
  unfold USIZE_MAX. rewrite (proj2 (Z.eqb_neq (status_index s) _)), (proj2 (Z.leb_le _ _)) by lia. simpl.
  eexists. split; [done|]. apply drop_step_ok; try done; [by right|].
  apply (producers_ok_ext h); try done.
  destruct Hok as [H1 H2 H3 H4 H5 H6 H7 H8 H9 H10]. apply Forall_cons in H3 as [_ H3], H5 as [_ H5].
  rewrite filter_cons_False in H4 by congruence.
  assert (forall f, running (q :: ps) f <-> running ps f) as Hrun
    by (intros; rewrite running_cons, Hq; naive_solver).
  split; try done.
  - by rewrite H6, Hrun.
  - intros c Hc. by rewrite (H7 c Hc), Hrun.
  - intros P I. destruct (H9 P I) as (q0 & [->|Hq0]%elem_of_cons & A & B); [congruence|eauto].
  - intros q0 Hq0. apply H10. by right.
Qed.

(** Started work covers the published status. *)
Lemma work_covers h ps : producers_ok h ps -> h_published h <= work_level h.
Proof.
  intros Hok. pose proof (po_open _ _ Hok) as Ho. pose proof (po_shape _ _ Hok) as Hsh.
  destruct (filter _ ps) as [|q [|]] eqn:Ef; [lia| |done]. destruct Ho as [O1 O2].
  assert (q ∈ ps) as Hq.
  { eapply list_elem_of_filter. rewrite Ef. left. }
  rewrite Forall_forall in Hsh. apply Hsh, shape_claim_le in Hq. destruct (pr_stage q); lia.
Qed.

(** Claiming a status whose parent is published never panics; a successful claim opens a
    producer for it and there was none. *)
Lemma claim_status_work_ok h s ps :
  producers_ok h ps -> encoded s - 1 <= h_published h ->
  exists h' outcome, claim_status_work h s = Some (h', outcome) /\
    match outcome with
    | Claimed => filter (fun q => is_open q = true) ps = [] /\ h_published h = encoded s - 1 /\
        step_ok h ps (add_save_dependency h') (mkProducer s s false StClaimed :: ps) NoEffect
    | AlreadyClaimed => h' = h /\ encoded s <= work_level h
    end.
Proof.
  intros Hok Hpub. unfold claim_status_work.
  set (par := match ChunkStatus_parent s with Some p => status_index p | None => USIZE_MAX end).
  destruct (started_of_level h (po_started _ _ Hok)) as [Hs0 Hs1].
  pose proof (encoded_range s) as Hrs. pose proof (parent_encoded s) as Hpar.
  pose proof (work_covers h ps Hok) as Hle.
  assert (h_started h = par <-> work_level h = encoded s - 1) as Hclaim.
  { unfold par. destruct (ChunkStatus_parent s) as [p|].
    - pose proof (encoded_range p). unfold encoded in *. split; [|lia].
      intros E. rewrite (work_level_started h p E). unfold encoded. lia.
    - rewrite Hpar. change (encoded Empty - 1) with 0. by rewrite Hs0. }
  destruct (Z.eqb_spec (h_started h) par) as [E|E].
  - apply Hclaim in E. eexists _, Claimed. split; [done|].
    assert (filter (fun q => is_open q = true) ps = []) as Hno.
    { pose proof (po_open _ _ Hok) as Ho. pose proof (po_shape _ _ Hok) as Hsh.
      destruct (filter _ ps) as [|q [|]] eqn:Ef; [done| |done]. destruct Ho as [O1 O2].
      assert (q ∈ ps) as Hq by (eapply list_elem_of_filter; rewrite Ef; left).
      rewrite Forall_forall in Hsh. apply Hsh, shape_claim_le in Hq. destruct (pr_stage q); lia. }
    split; [done|]. split; [lia|].
    destruct Hok as [H1 H2 H3 H4 H5 H6 H7 H8 H9 H10].
    assert (forall f, (forall q, f q = true -> has_run q = true) ->
      running (mkProducer s s false StClaimed :: ps) f <-> running ps f) as Hrun.
    { intros f Hf. rewrite running_cons. split; [intros [[_ ?%Hf]|?]; done|auto]. }
    split; try done; [split; try done|..].
    + simpl. right. pose proof (status_index_range s). lia.
    + by constructor.
    + rewrite filter_cons_True by done. rewrite Hno. split; simpl; [lia|]. by apply work_level_started.
    + by constructor.
    + by rewrite H6, Hrun.
    + intros c Hc. rewrite (H7 c Hc), Hrun; [done|]. by intros q [? _]%andb_true_iff.
    + intros P I. destruct (H9 P I) as (q & Hq & ?). exists q. split; [by right|done].
    + intros q [->|Hq]%elem_of_cons Hs; [done|]. by apply (H10 q).
    + by left.
    + intros q Hq _. right. by right.
  - eexists _, AlreadyClaimed. split; [|split; [done|lia]]. unfold encoded, USIZE_MAX in *.
    rewrite (proj2 (Z.eqb_neq (h_started h) _)), (proj2 (Z.leb_le _ _)) by lia. done.
Qed.

(** The first action of a producer as a step. *)
Lemma start_step_ok h q q' ps d e :
  pr_stage q = StClaimed -> producers_ok (set_h_data d h) (q' :: ps) -> e <> PublishFull ->
  (forall b, h_level h = Some b -> cd_level <$> d = Some b) ->
  effect_ok e (holder_ticks h (q :: ps)) (holder_ticks (set_h_data d h) (q' :: ps)) ->
  step_ok h (q :: ps) (set_h_data d h) (q' :: ps) e.
Proof.
  intros Hst Hok He Hl Heff. split; try done.
  - by left.
  - intros q0 [->|Hq0]%elem_of_cons Hs; [congruence|right; by right].
Qed.
