(* ===== verification/ChunkMap.v ===== *)
(** * The chunk map: holder lifecycle and ticking readiness

    Models the lifecycle half of [ChunkMap] ([steel-core/src/chunk/chunk_map/mod.rs],
    [generation_readiness.rs], [persistence.rs]): committing a scheduling epoch, reviving and
    unloading holders, the Full-publication queue, the readiness index and the snapshot of
    ticking chunks.  Holders live in a heap, an [Arc] is the identity of its holder.

    Generation and saving run on other threads.  The commit is a program over a state monad
    whose [interfere] steps let the other threads run: it takes the next list of events from
    a schedule and applies them.  [interfere] stands before every call that handles one
    chunk and between the phases; inside such a call the other threads touch only fields
    that the call does not read, or that only grow (published status, initialization flag,
    publication queue), so that the call acts as if at one point.  The theorems quantify
    over all schedules.  Hash maps are visited in the order of [map_to_list]. *)

From S2P Require Import Prelude Positions ChunkPyramid ChunkTickets TickScheduler.
From S2P Require Import TickOwnership FullNeighborhood ChunkHolder.

(** ** Data *)

Record TickableChunk := mkTickable { tc_pos : ChunkPos; tc_holder : Z }.

Record TickingChunkSnapshot := mkSnapshot {
  sn_block : list TickableChunk;
  sn_random : list nat;
  sn_entity : list nat;
}.

Record TickingReadinessCandidate := mkCandidate {
  ca_pos : ChunkPos;
  ca_holder : Z;
  ca_desired : TickingReadiness;
  ca_target : TickingReadiness;
}.

Record DeferredChunkRevival := mkRevival {
  dr_load : ChunkTicketLevel;
  dr_sim : option ChunkTicketLevel;
}.

Record FullPublication := mkPublication { fp_pos : ChunkPos; fp_holder : Z }.

(** [heap] holds the live holders, [producers] the generation tasks that own a claim on
    one, [saving] the holders with a live save-preparation guard. *)
Record ChunkMap (T : Type) := mkMap {
  heap : gmap Z ChunkHolder;
  producers : gmap Z (list producer);
  saving : gset Z;
  next_id : Z;
  chunks : gmap ChunkPos Z;
  unloading_chunks : gmap ChunkPos Z;
  deferred_revivals : gmap ChunkPos DeferredChunkRevival;
  full_publications : list FullPublication;
  full_neighborhood : FullNeighborhoodIndex;
  ticking_chunks : TickingChunkSnapshot;
  scheduled_ticks : T;
}.
Arguments mkMap {T} _ _ _ _ _ _ _ _ _ _ _.
Arguments heap {T} _.
Arguments producers {T} _.
Arguments saving {T} _.
Arguments next_id {T} _.
Arguments chunks {T} _.
Arguments unloading_chunks {T} _.
Arguments deferred_revivals {T} _.
Arguments full_publications {T} _.
Arguments full_neighborhood {T} _.
Arguments ticking_chunks {T} _.
Arguments scheduled_ticks {T} _.

Definition is_full_level (level : option ChunkTicketLevel) : bool :=
  match level with Some l => ChunkTicketLevel_is_full l | None => false end.

Section Map.
Context {T : Type} `{!TickOwnership T}.
(** The world's vertical extent. *)
Context (world_min_y world_height : Z).
Implicit Types m : ChunkMap T.

Definition set_heap m (v : gmap Z ChunkHolder) : ChunkMap T :=
  mkMap v (producers m) (saving m) (next_id m) (chunks m) (unloading_chunks m)
    (deferred_revivals m) (full_publications m) (full_neighborhood m) (ticking_chunks m)
    (scheduled_ticks m).
Definition set_producers m (v : gmap Z (list producer)) : ChunkMap T :=
  mkMap (heap m) v (saving m) (next_id m) (chunks m) (unloading_chunks m) (deferred_revivals m)
    (full_publications m) (full_neighborhood m) (ticking_chunks m) (scheduled_ticks m).
Definition set_saving m (v : gset Z) : ChunkMap T :=
  mkMap (heap m) (producers m) v (next_id m) (chunks m) (unloading_chunks m) (deferred_revivals m)
    (full_publications m) (full_neighborhood m) (ticking_chunks m) (scheduled_ticks m).
Definition set_active m (v : gmap ChunkPos Z) : ChunkMap T :=
  mkMap (heap m) (producers m) (saving m) (next_id m) v (unloading_chunks m) (deferred_revivals m)
    (full_publications m) (full_neighborhood m) (ticking_chunks m) (scheduled_ticks m).
Definition set_unloading_chunks m (v : gmap ChunkPos Z) : ChunkMap T :=
  mkMap (heap m) (producers m) (saving m) (next_id m) (chunks m) v (deferred_revivals m)
    (full_publications m) (full_neighborhood m) (ticking_chunks m) (scheduled_ticks m).
Definition set_deferred_revivals m (v : gmap ChunkPos DeferredChunkRevival) : ChunkMap T :=
  mkMap (heap m) (producers m) (saving m) (next_id m) (chunks m) (unloading_chunks m) v
    (full_publications m) (full_neighborhood m) (ticking_chunks m) (scheduled_ticks m).
Definition set_full_publications m (v : list FullPublication) : ChunkMap T :=
  mkMap (heap m) (producers m) (saving m) (next_id m) (chunks m) (unloading_chunks m)
    (deferred_revivals m) v (full_neighborhood m) (ticking_chunks m) (scheduled_ticks m).
Definition set_full_neighborhood m (v : FullNeighborhoodIndex) : ChunkMap T :=
  mkMap (heap m) (producers m) (saving m) (next_id m) (chunks m) (unloading_chunks m)
    (deferred_revivals m) (full_publications m) v (ticking_chunks m) (scheduled_ticks m).
Definition set_ticking_chunks m (v : TickingChunkSnapshot) : ChunkMap T :=
  mkMap (heap m) (producers m) (saving m) (next_id m) (chunks m) (unloading_chunks m)
    (deferred_revivals m) (full_publications m) (full_neighborhood m) v (scheduled_ticks m).
Definition set_scheduled_ticks m (v : T) : ChunkMap T :=
  mkMap (heap m) (producers m) (saving m) (next_id m) (chunks m) (unloading_chunks m)
    (deferred_revivals m) (full_publications m) (full_neighborhood m) (ticking_chunks m) v.

Definition set_holder m (id : Z) (h : ChunkHolder) : ChunkMap T :=
  set_heap m (<[id := h]> (heap m)).

Definition producers_of m (id : Z) : list producer := default [] (producers m !! id).

(** ** The other threads *)

(** A generation task claims, runs, loads, advances or drops; a save task opens its guard,
    takes the dirty flag, drops the guard, and at its end gives up its save dependency;
    gameplay, or a failed save, marks a chunk dirty. *)
Inductive env_event :=
| EvClaim (id : Z) (status : ChunkStatus)
| EvRun (id : Z) (i : nat) (level dirty : bool)
| EvLoad (id : Z) (i : nat) (status : ChunkStatus) (chunk : ChunkData)
| EvAdvance (id : Z) (i : nat)
| EvDrop (id : Z) (i : nat)
| EvSaveBegin (id : Z)
| EvTakeDirty (id : Z)
| EvSaveEnd (id : Z)
| EvDirty (id : Z)
| EvSaveDone (id : Z).

(** The tick scheduler and the publication queue serve a producer; an error from the
    scheduler panics. *)
Definition apply_effect m (id : Z) (pos : ChunkPos) (e : producer_effect) : option (ChunkMap T) :=
  match e with
  | NoEffect => Some m
  | InstallTicks full => Some (set_scheduled_ticks m (to_install (scheduled_ticks m) id full))
  | PromoteTicks => t ← to_promote (scheduled_ticks m) id; Some (set_scheduled_ticks m t)
  | RegisterTicks =>
      '(t, r) ← to_register (scheduled_ticks m) pos id;
      match r with Ok _ => Some (set_scheduled_ticks m t) | Err _ => None end
  | PublishFull => Some (set_full_publications m (full_publications m ++ [mkPublication pos id]))
  end.

Definition put_producers m (id : Z) (h : ChunkHolder) (ps : list producer) : ChunkMap T :=
  set_producers (set_holder m id h) (<[id := ps]> (producers m)).

(** A claim is tried on a status the level allows, by a generation task that has seen the
    parent status published on this holder. *)
Definition parent_published (h : ChunkHolder) (status : ChunkStatus) : bool :=
  match ChunkStatus_parent status with
  | Some parent => encoded_published_status parent <=? h_published h
  | None => true
  end.

Definition claim_event m (id : Z) (status : ChunkStatus) : option (ChunkMap T) :=
  match heap m !! id with
  | None => Some m
  | Some h =>
      if is_status_disallowed h status || negb (parent_published h status) then Some m
      else
        '(h', outcome) ← claim_status_work h status;
        match outcome with
        | Claimed => Some (put_producers m id (add_save_dependency h')
                             (mkProducer status status false StClaimed :: producers_of m id))
        | AlreadyClaimed => Some m
        end
  end.

(** Producer [i] of holder [id] takes a step of kind [f]. *)
Definition producer_event m (id : Z) (i : nat) (enabled : producer -> bool)
  (f : ChunkHolder -> producer -> option (ChunkHolder * producer * producer_effect))
  : option (ChunkMap T) :=
  match heap m !! id, producers_of m id !! i with
  | Some h, Some q =>
      if enabled q then
        '(h', q', e) ← f h q;
        apply_effect (put_producers m id h' (q' :: delete i (producers_of m id))) id (h_pos h) e
      else Some m
  | _, _ => Some m
  end.

Definition drop_event m (id : Z) (i : nat) : option (ChunkMap T) :=
  match heap m !! id, producers_of m id !! i with
  | Some h, Some q =>
      match pr_stage q with
      | StClaimed | StDone =>
          h' ← drop_producer h q; Some (put_producers m id h' (delete i (producers_of m id)))
      | _ => Some m
      end
  | _, _ => Some m
  end.

Definition is_claimed (q : producer) : bool := bool_decide (pr_stage q = StClaimed).

Definition env_step m (ev : env_event) : option (ChunkMap T) :=
  match ev with
  | EvClaim id status => claim_event m id status
  | EvRun id i level dirty =>
      producer_event m id i is_claimed (fun h q => run_generated_step h q level dirty)
  | EvLoad id i status chunk =>
      producer_event m id i
        (fun q => is_claimed q && bool_decide (pr_claim q = Empty) &&
                  bool_decide (cd_full_runtime chunk = bool_decide (status = Full)))
        (fun h q => install_loaded_chunk h q status chunk)
  | EvAdvance id i => producer_event m id i (fun q => negb (is_claimed q)) producer_advance
  | EvDrop id i => drop_event m id i
  | EvSaveBegin id =>
      match h ← heap m !! id; try_begin_save_preparation h with
      | Some h => Some (set_saving (set_holder m id h) ({[id]} ∪ saving m))
      | None => Some m
      end
  | EvTakeDirty id =>
      match heap m !! id with
      | Some h =>
          if decide (id ∈ saving m /\ is_Some (try_chunk h StructureStarts))
          then Some (set_holder m id (set_dirty false h)) else Some m
      | None => Some m
      end
  | EvSaveEnd id =>
      if decide (id ∈ saving m) then
        h ← heap m !! id; h ← end_save_preparation h;
        Some (set_saving (set_holder m id h) (saving m ∖ {[id]}))
      else Some m
  | EvDirty id =>
      Some (match heap m !! id with
            | Some h => match try_chunk h StructureStarts with
                        | Some _ => set_holder m id (mark_dirty_data h)
                        | None => m
                        end
            | None => m
            end)
  | EvSaveDone id =>
      Some (match heap m !! id with
            | Some h => set_holder m id (drop_save_dependency h)
            | None => m
            end)
  end.

Definition env_steps m (evs : list env_event) : option (ChunkMap T) :=
  for_each evs (fun ev m => env_step m ev) m.

(** ** Programs of the driver thread *)

(** A program runs on the map and the rest of the schedule; [None] is a panic. *)
Definition interleaving : Type := list (list env_event).
Definition prog (A : Type) : Type := ChunkMap T * interleaving -> option (A * (ChunkMap T * interleaving)).

#[global] Instance prog_ret : MRet prog := fun A a s => Some (a, s).
#[global] Instance prog_bind : MBind prog :=
  fun A B k p s => match p s with Some (a, s') => k a s' | None => None end.

Definition panic {A} : prog A := fun _ => None.
Definition get_map : prog (ChunkMap T) := fun s => Some (s.1, s).
Definition put_map (m : ChunkMap T) : prog unit := fun s => Some ((), (m, s.2)).
Definition modify_map (f : ChunkMap T -> ChunkMap T) : prog unit := fun s => Some ((), (f s.1, s.2)).

(** The other threads run. *)
Definition interfere : prog unit := fun s =>
  match s.2 with
  | [] => Some ((), s)
  | evs :: rest => match env_steps s.1 evs with Some m => Some ((), (m, rest)) | None => None end
  end.

(** Access to a holder through its [Arc]. *)
Definition read_holder (id : Z) : prog ChunkHolder :=
  m ← get_map; match heap m !! id with Some h => mret h | None => panic end.

Definition update_holder {A} (id : Z) (f : ChunkHolder -> option (ChunkHolder * A)) : prog A :=
  h ← read_holder id;
  match f h with
  | Some (h', a) => _ ← modify_map (fun m => set_holder m id h'); mret a
  | None => panic
  end.

(** An assertion: the value, or a panic. *)
Definition expect {A} (o : option A) : prog A := match o with Some a => mret a | None => panic end.

Fixpoint for_prog {A} (l : list A) (f : A -> prog unit) : prog unit :=
  match l with
  | [] => mret ()
  | x :: l' => _ ← interfere; _ ← f x; for_prog l' f
  end.

(** A loop that collects the results that are present ([filter_map]). *)
Fixpoint filter_map_prog {A B} (l : list A) (f : A -> prog (option B)) : prog (list B) :=
  match l with
  | [] => mret []
  | x :: l' =>
      _ ← interfere; o ← f x; rest ← filter_map_prog l' f;
      mret (match o with Some b => b :: rest | None => rest end)
  end.

(** A loop that accumulates with [|=]. *)
Fixpoint any_prog {A} (l : list A) (f : A -> prog bool) : prog bool :=
  match l with
  | [] => mret false
  | x :: l' => _ ← interfere; b ← f x; rest ← any_prog l' f; mret (b || rest)
  end.

(** ** Merging revivals that had to wait *)

Definition merge_deferred_revivals (changes : list LevelChange) : prog (list LevelChange) :=
  m ← get_map;
  let deferred := foldr (fun c d => delete (ch_pos c) d) (deferred_revivals m) changes in
  _ ← put_map (set_deferred_revivals m ∅);
  mret (changes ++ ((fun '(pos, r) => mkChange pos (Some (dr_load r)) (dr_sim r)) <$> map_to_list deferred)).

(** ** Readiness candidates *)

Definition ticking_snapshot_membership (r : TickingReadiness) (sim : option ChunkTicketLevel)
  : bool * bool * bool :=
  let block := is_block_ticking sim && bool_decide (r <> Unready) in
  let random := block && is_entity_ticking sim in
  let entity := random && bool_decide (r = EntityTicking) in
  (block, random, entity).

Definition simulation_changes_ticking_snapshot (changes : list LevelChange) : prog bool :=
  any_prog changes (fun change =>
    m ← get_map;
    match chunks m !! ch_pos change with
    | None => mret false
    | Some id =>
        h ← read_holder id; r ← expect (ticking_readiness h);
        mret (bool_decide (ticking_snapshot_membership r (holder_simulation_level h) <>
                           ticking_snapshot_membership r (ch_new_simulation_level change)))
    end).

(** The four conditions under which a holder counts as Full. *)
Definition is_full_ready (h : ChunkHolder) : option bool :=
  if h_full_init h then
    published ← published_status h;
    Some (bool_decide (published = Some Full) && bool_decide (is_Some (try_chunk h Full)))
  else Some false.

Definition current_full_contributor (pos : ChunkPos) : prog (option Z) :=
  m ← get_map;
  match chunks m !! pos with
  | None => mret None
  | Some id =>
      h ← read_holder id;
      if is_full_level (holder_load_level h) then
        ready ← expect (is_full_ready h); mret (if ready : bool then Some id else None)
      else mret None
  end.

Definition validate_full_publication (p : FullPublication) : prog (option Z) :=
  m ← get_map;
  match heap m !! fp_holder p, chunks m !! fp_pos p with
  | Some _, Some active =>
      h ← read_holder active;
      if bool_decide (fp_holder p = active) && is_full_level (holder_load_level h) then
        ready ← expect (is_full_ready h); mret (if ready : bool then Some active else None)
      else mret None
  | _, _ => mret None
  end.

Definition desired_ticking_readiness (level : option ChunkTicketLevel) : TickingReadiness :=
  if is_entity_ticking level then EntityTicking
  else if is_block_ticking level then BlockTicking else Unready.

Definition target_ticking_readiness (h : ChunkHolder) (level : option ChunkTicketLevel)
  (counts : FullNeighborhoodCounts) : option TickingReadiness :=
  ready ← is_full_ready h;
  Some (if negb ready then Unready
        else if is_entity_ticking level && entity_ticking_ready counts then EntityTicking
        else if is_block_ticking level && block_ticking_ready counts then BlockTicking
        else Unready).

Definition readiness_candidates (dirty : list (ChunkPos * FullNeighborhoodCounts))
  (new_levels : option (gmap ChunkPos (option ChunkTicketLevel)))
  : prog (list TickingReadinessCandidate) :=
  filter_map_prog dirty (fun '(pos, counts) =>
    m ← get_map;
    match chunks m !! pos with
    | None => mret None
    | Some id =>
        h ← read_holder id;
        let load_level := match levels ← new_levels; levels !! pos with
                          | Some level => level
                          | None => holder_load_level h
                          end in
        target ← expect (target_ticking_readiness h load_level counts);
        mret (Some (mkCandidate pos id (desired_ticking_readiness load_level) target))
    end).

(** Moves the readiness of a candidate to its target; the result is whether that changes
    what the ticking snapshot contains. *)
Definition transition_candidate (c : TickingReadinessCandidate) : prog bool :=
  previous ← update_holder (ca_holder c) (fun h => transition_ticking_readiness h (ca_target c));
  match previous with
  | None => mret false
  | Some previous =>
      h ← read_holder (ca_holder c);
      mret (bool_decide (ticking_snapshot_membership previous (holder_simulation_level h) <>
                         ticking_snapshot_membership (ca_target c) (holder_simulation_level h)))
  end.

Definition apply_readiness_demotions (candidates : list TickingReadinessCandidate) : prog bool :=
  any_prog candidates (fun c =>
    h ← read_holder (ca_holder c); current ← expect (ticking_readiness h);
    if TickingReadiness_rank current <=? TickingReadiness_rank (ca_target c) then mret false
    else transition_candidate c).

(** The save dependencies that the pending entries gain or lose. *)
Definition apply_save_deltas m (deltas : list (Z * Z)) : ChunkMap T :=
  foldl (fun m '(id, d) =>
    set_heap m (alter (if d =? 1 then add_save_dependency else drop_save_dependency) id (heap m)))
    m deltas.

Definition update_pending_readiness (candidates : list TickingReadinessCandidate) : prog unit :=
  for_prog candidates (fun c =>
    h ← read_holder (ca_holder c); confirmed ← expect (ticking_readiness h);
    m ← get_map;
    let '(n, deltas) :=
      if TickingReadiness_rank confirmed <? TickingReadiness_rank (ca_desired c)
      then ensure_pending_readiness (full_neighborhood m) (ca_pos c) (ca_holder c)
      else clear_pending_readiness (full_neighborhood m) (ca_pos c) in
    put_map (apply_save_deltas (set_full_neighborhood m n) deltas)).

(** ** Lifecycle of one position *)

Definition insert_new_holder m (pos : ChunkPos) (h : ChunkHolder) : ChunkMap T :=
  mkMap (<[next_id m := h]> (heap m)) (producers m) (saving m) (next_id m + 1)
    (<[pos := next_id m]> (chunks m)) (unloading_chunks m) (deferred_revivals m)
    (full_publications m) (full_neighborhood m) (ticking_chunks m) (scheduled_ticks m).

(** The active holder of [pos]: the present one, a revived one, or a new one.  [None] when
    the position has no level, or when its holder is busy preparing a save: the revival is
    then deferred. *)
Definition obtain_holder (pos : ChunkPos) (new_level new_sim : option ChunkTicketLevel)
  : prog (option Z) :=
  m ← get_map;
  match chunks m !! pos, new_level with
  | Some id, _ => mret (Some id)
  | None, None => mret None
  | None, Some level =>
      match unloading_chunks m !! pos with
      | Some id =>
          h ← read_holder id;
          match try_revive_from_unloading h with
          | Some h =>
              _ ← put_map (set_active (set_unloading_chunks (set_holder m id h)
                                         (delete pos (unloading_chunks m)))
                             (<[pos := id]> (chunks m)));
              mret (Some id)
          | None =>
              _ ← put_map (set_deferred_revivals m
                             (<[pos := mkRevival level new_sim]> (deferred_revivals m)));
              mret None
          end
      | None =>
          _ ← put_map (insert_new_holder m pos
                         (new_with_full_publications pos level new_sim world_min_y world_height));
          mret (Some (next_id m))
      end
  end.

Definition cancel_generation_task (h : ChunkHolder) : ChunkHolder := set_task None STATUS_NONE h.

(** The level half of [update_chunk_level] for an active holder. *)
Definition apply_level (id : Z) (level : ChunkTicketLevel) (new_sim : option ChunkTicketLevel) : prog unit :=
  old ← update_holder id (fun h =>
    let '(h, old) := swap_load_level h level in
    let h := set_simulation_level h new_sim in
    let h := if decide (old = Some level) then h else update_highest_allowed_status h (Some level) in
    Some (h, old));
  if ChunkTicketLevel_is_full level && negb (is_full_level old) then
    h ← read_holder id;
    ready ← expect (is_full_ready h);
    if ready : bool
    then modify_map (fun m => set_full_publications m (full_publications m ++ [mkPublication (h_pos h) id]))
    else mret ()
  else mret ().

(** The unloading half. *)
Definition unload_holder (pos : ChunkPos) (id : Z) : prog unit :=
  _ ← update_holder id (fun h =>
    h ← begin_unloading h;
    let h := clear_load_level (cancel_generation_task h) in
    Some (update_highest_allowed_status (set_simulation_level h None) None, ()));
  modify_map (fun m =>
    match chunks m !! pos with
    | Some id => set_unloading_chunks (set_active m (delete pos (chunks m)))
                   (<[pos := id]> (unloading_chunks m))
    | None => m
    end).

Definition update_chunk_level (pos : ChunkPos) (new_level new_sim : option ChunkTicketLevel)
  : prog (option Z) :=
  _ ← match new_level with
      | None => modify_map (fun m => set_deferred_revivals m (delete pos (deferred_revivals m)))
      | Some _ => mret ()
      end;
  holder ← obtain_holder pos new_level new_sim;
  match holder, new_level with
  | None, _ => mret None
  | Some id, Some level => _ ← apply_level id level new_sim; mret (Some id)
  | Some id, None => _ ← unload_holder pos id; mret None
  end.

(** ** Reconciling readiness *)

(** Runs an operation of the index; its error is returned. *)
Definition with_neighborhood {A}
  (f : FullNeighborhoodIndex -> result (FullNeighborhoodIndex * A) FullNeighborhoodError)
  : prog (result A FullNeighborhoodError) :=
  m ← get_map;
  match f (full_neighborhood m) with
  | Ok (n, a) => _ ← put_map (set_full_neighborhood m n); mret (Ok a)
  | Err e => mret (Err e)
  end.

Definition active_changes m (changes : list LevelChange)
  : list (ChunkPos * Z * option ChunkTicketLevel) :=
  omap (fun c => id ← chunks m !! ch_pos c; Some (ch_pos c, id, ch_new_level c)) changes.

Definition remove_lost_contributors (active : list (ChunkPos * Z * option ChunkTicketLevel))
  (n : FullNeighborhoodIndex) : result FullNeighborhoodIndex FullNeighborhoodError :=
  foldl (fun r '(pos, id, new_level) =>
    let? n := r in
    if is_full_level new_level then Ok n else remove_contributor_if_matches n pos id) (Ok n) active.

Definition new_levels_of (changes : list LevelChange) : gmap ChunkPos (option ChunkTicketLevel) :=
  foldl (fun levels c => <[ch_pos c := ch_new_level c]> levels) ∅ changes.

Definition prepare_ticking_readiness_demotions (changes : list LevelChange)
  : prog (result bool FullNeighborhoodError) :=
  match changes with
  | [] => mret (Ok false)
  | _ =>
      m ← get_map;
      let active := active_changes m changes in
      r ← with_neighborhood (fun n =>
        let? n := remove_lost_contributors active n in
        let n := foldl (fun n c => mark_dirty n (ch_pos c)) n changes in
        Ok (n, dirty_counts_snapshot n));
      match r with
      | Err e => mret (Err e)
      | Ok dirty =>
          candidates ← readiness_candidates dirty (Some (new_levels_of changes));
          changed ← apply_readiness_demotions candidates;
          _ ← update_pending_readiness candidates;
          mret (Ok changed)
      end
  end.

(** [post_process_generation]: the contents of the chunk are not modelled, an unavailable
    world is an error. *)
Definition post_process_generation (h : ChunkHolder) : result unit unit :=
  match try_full_chunk h with
  | Some chunk => if cd_level chunk then Ok () else Err ()
  | None => Err ()
  end.

Definition unpack_scheduled_ticks (pos : ChunkPos) : prog unit :=
  m ← get_map;
  '(t, r) ← expect (to_unpack (scheduled_ticks m) pos);
  match r with Ok _ => put_map (set_scheduled_ticks m t) | Err _ => panic end.

Definition promote_candidate (c : TickingReadinessCandidate) : prog bool :=
  h ← read_holder (ca_holder c); current ← expect (ticking_readiness h);
  if TickingReadiness_rank (ca_target c) <=? TickingReadiness_rank current then mret false
  else if decide (current = Unready) then
    match post_process_generation h with
    | Err _ => mret false
    | Ok _ => _ ← unpack_scheduled_ticks (ca_pos c); transition_candidate c
    end
  else transition_candidate c.

Definition apply_final_readiness (dirty : list (ChunkPos * FullNeighborhoodCounts)) : prog bool :=
  match dirty with
  | [] => mret false
  | _ =>
      candidates ← readiness_candidates dirty None;
      demoted ← apply_readiness_demotions candidates;
      _ ← update_pending_readiness candidates;
      promoted ← any_prog candidates promote_candidate;
      _ ← update_pending_readiness candidates;
      mret (demoted || promoted)
  end.

Definition reconcile_contributors (updates : list (ChunkPos * option Z)) (n : FullNeighborhoodIndex)
  : result FullNeighborhoodIndex FullNeighborhoodError :=
  foldl (fun r '(pos, holder) => let? n := r in reconcile_contributor n pos holder) (Ok n) updates.

(** The part that runs when there is anything to reconcile. *)
Definition reconcile_drained (changed_positions : list ChunkPos) (publications : list FullPublication)
  : prog (result bool FullNeighborhoodError) :=
  current ← filter_map_prog changed_positions (fun pos =>
    o ← current_full_contributor pos; mret (Some (pos, o)));
  published ← filter_map_prog publications (fun p =>
    o ← validate_full_publication p; mret (id ← o; Some (fp_pos p, Some id)));
  let updates := map_to_list (foldl (fun u '(pos, o) => <[pos := o]> u)
                                (∅ : gmap ChunkPos (option Z)) (current ++ published)) in
  r ← with_neighborhood (fun n =>
    let n := foldl mark_dirty n changed_positions in
    let? n := reconcile_contributors updates n in
    Ok (take_dirty_counts n));
  match r with
  | Err e => mret (Err e)
  | Ok dirty => changed ← apply_final_readiness dirty; mret (Ok changed)
  end.

Definition reconcile_ticking_readiness_measured (changed_positions : list ChunkPos)
  : prog (result bool FullNeighborhoodError) :=
  m ← get_map;
  let publications := full_publications m in
  _ ← put_map (set_full_publications m []);
  match publications, changed_positions with
  | [], [] => mret (Ok false)
  | _, _ => reconcile_drained changed_positions publications
  end.

(** ** Recovery from an inconsistent index *)

Definition clear_all_ticking_readiness : prog unit :=
  m ← get_map;
  for_prog (map_to_list (chunks m)).*2 (fun id =>
    _ ← update_holder id (fun h => transition_ticking_readiness h Unready); mret ()).

Definition reset_neighborhood : prog unit :=
  modify_map (fun m => set_full_neighborhood m Neighborhood_default).

Definition rebuild_ticking_readiness : prog (result bool FullNeighborhoodError) :=
  _ ← modify_map (fun m => set_full_publications m []);
  m ← get_map;
  let active := map_to_list (chunks m) in
  updates ← filter_map_prog active (fun '(pos, id) =>
    h ← read_holder id;
    ready ← (if is_full_level (holder_load_level h) then expect (is_full_ready h) else mret false);
    mret (Some (pos, if ready : bool then Some id else None)));
  match (let? n := reconcile_contributors updates
                     (foldl mark_dirty Neighborhood_default active.*1) in Ok (take_dirty_counts n)) with
  | Err e => mret (Err e)
  | Ok (n, dirty) =>
      _ ← modify_map (fun m => set_full_neighborhood m n);
      changed ← apply_final_readiness dirty;
      mret (Ok changed)
  end.

Definition recover_ticking_readiness_index : prog unit :=
  _ ← clear_all_ticking_readiness;
  _ ← reset_neighborhood;
  r ← rebuild_ticking_readiness;
  match r with
  | Ok _ => mret ()
  | Err _ => _ ← clear_all_ticking_readiness; reset_neighborhood
  end.

(** ** The ticking snapshot *)

(** The traversal of the active chunks; the flag says whether the chunk also ticks
    randomly and its entities. *)
Definition tickable_of m (pos : ChunkPos) (id : Z) : option (option (TickableChunk * bool * bool)) :=
  h ← heap m !! id;
  match holder_simulation_level h with
  | None => Some None
  | Some sim =>
      r ← ticking_readiness h;
      if negb (ChunkTicketLevel_is_block_ticking sim) || negb (readiness_is_block_ticking r) then Some None
      else match try_full_chunk h with
           | None => Some None
           | Some _ =>
               let random := ChunkTicketLevel_is_entity_ticking sim in
               Some (Some (mkTickable pos id, random, random && readiness_is_entity_ticking r))
           end
  end.

Definition push_tickable (s : TickingChunkSnapshot) (x : TickableChunk * bool * bool)
  : TickingChunkSnapshot :=
  let '(tickable, random, entity) := x in
  let index := length (sn_block s) in
  mkSnapshot (sn_block s ++ [tickable])
    (if random : bool then sn_random s ++ [index] else sn_random s)
    (if entity : bool then sn_entity s ++ [index] else sn_entity s).

Definition collect_tickable m (entries : list (ChunkPos * Z)) : option TickingChunkSnapshot :=
  for_each entries (fun '(pos, id) s =>
    o ← tickable_of m pos id;
    Some (match o with Some x => push_tickable s x | None => s end)) (mkSnapshot [] [] []).

Definition rebuild_ticking_chunk_snapshot : prog unit :=
  m ← get_map;
  s ← expect (collect_tickable m (map_to_list (chunks m)));
  '(t, r) ← expect (to_reconcile (scheduled_ticks m) (tc_pos <$> sn_block s));
  match r with
  | Ok _ => put_map (set_ticking_chunks (set_scheduled_ticks m t) s)
  | Err _ => panic
  end.

(** ** Committing a scheduling epoch *)

Definition commit_levels (changes : list LevelChange) : prog (list (Z * ChunkTicketLevel)) :=
  filter_map_prog changes (fun c =>
    o ← update_chunk_level (ch_pos c) (ch_new_level c) (ch_new_simulation_level c);
    mret (id ← o; level ← ch_new_level c; Some (id, level))).

(** [commit_scheduling_epoch] up to handing the ticket manager to the next epoch; the result
    lists the holders whose generation is to be scheduled. *)
Definition commit_scheduling_epoch (changes : list LevelChange) : prog (list (Z * ChunkTicketLevel)) :=
  changes ← merge_deferred_revivals changes;
  _ ← interfere;
  let changed_positions := ch_pos <$> changes in
  simulation ← simulation_changes_ticking_snapshot changes;
  prepared ← prepare_ticking_readiness_demotions changes;
  '(rebuild, rebuild_readiness) ←
    match prepared with
    | Ok changed => mret (simulation || changed, false)
    | Err _ => _ ← clear_all_ticking_readiness; _ ← reset_neighborhood; mret (simulation, true)
    end;
  holders ← commit_levels changes;
  _ ← interfere;
  rebuild ←
    (if rebuild_readiness : bool then
       r ← rebuild_ticking_readiness;
       match r with
       | Ok _ => mret true
       | Err _ => _ ← recover_ticking_readiness_index; mret true
       end
     else
       r ← reconcile_ticking_readiness_measured changed_positions;
       match r with
       | Ok changed => mret (rebuild || changed)
       | Err _ => _ ← recover_ticking_readiness_index; mret true
       end);
  _ ← interfere;
  _ ← (if rebuild : bool then rebuild_ticking_chunk_snapshot else mret ());
  mret holders.

(** ** The background epoch *)

(** The positions an epoch must not drop. *)
Definition staged_revivals m (changes : list LevelChange) : gset ChunkPos :=
  list_to_set (ch_pos <$> filter (fun c => is_Some (ch_new_level c) /\
                                           is_Some (unloading_chunks m !! ch_pos c)) changes)
  ∪ dom (deferred_revivals m).

(** The source removes the holders of a pass first and unregisters their ticks afterwards;
    in between nothing can register ticks at these positions, so one step does both. *)
Definition finalize_holder m (pos : ChunkPos) (id : Z) : option (ChunkMap T) :=
  t ← to_unregister (scheduled_ticks m) pos;
  Some (mkMap (delete id (heap m)) (delete id (producers m)) (saving m) (next_id m) (chunks m)
          (delete pos (unloading_chunks m)) (deferred_revivals m) (full_publications m)
          (full_neighborhood m) (ticking_chunks m) t).

(** [Arc::strong_count(holder) != 1]: a producer, a save-preparation guard, the ticking
    snapshot, a pending-readiness entry or something outside the map refers to the holder. *)
Definition is_referenced m (outside : Z -> bool) (id : Z) : bool :=
  negb (bool_decide (producers_of m id = [])) || bool_decide (id ∈ saving m)
  || bool_decide (id ∈ tc_holder <$> sn_block (ticking_chunks m))
  || bool_decide (id ∈ (map_to_list (pending_readiness (full_neighborhood m))).*2)
  || outside id.

(** One position of [process_unloads]: kept while it is staged, has light work or is
    referenced; saved first when dirty or with entities to save; dropped otherwise. *)
Definition process_unload (staged : gset ChunkPos) (light_touches save_pending : ChunkPos -> bool)
  (outside : Z -> bool) (entry : ChunkPos * Z) m : option (ChunkMap T) :=
  let '(pos, id) := entry in
  h ← heap m !! id;
  if bool_decide (pos ∈ staged) || light_touches pos || is_referenced m outside id then Some m
  else
    let is_dirty := match try_chunk h StructureStarts with Some c => cd_dirty c | None => false end in
    if is_dirty || save_pending pos then Some (set_holder m id (add_save_dependency h))
    else finalize_holder m pos id.

Definition process_unloads (staged : gset ChunkPos) (light_touches save_pending : ChunkPos -> bool)
  (outside : Z -> bool) : prog unit :=
  m ← get_map;
  for_prog (map_to_list (unloading_chunks m)) (fun entry =>
    m ← get_map; m ← expect (process_unload staged light_touches save_pending outside entry m); put_map m).

(** ** Reasoning about programs *)

(** Under every schedule the program returns, with a result and map that satisfy [Q]. *)
Definition wp {A} (p : prog A) (Q : A -> ChunkMap T -> Prop) m : Prop :=
  forall sched, exists a m' sched', p (m, sched) = Some (a, (m', sched')) /\ Q a m'.

Lemma wp_ret {A} (a : A) Q m : Q a m -> wp (mret a) Q m.
Proof. intros H sched. by exists a, m, sched. Qed.

Lemma wp_bind {A B} (p : prog A) (k : A -> prog B) Q m :
  wp p (fun a m' => wp (k a) Q m') m -> wp (p ≫= k) Q m.
Proof.
  intros H sched. destruct (H sched) as (a & m' & sched' & E & Hk).
  destruct (Hk sched') as (b & m'' & sched'' & E' & HQ). exists b, m'', sched''.
  split; [|done]. unfold mbind, prog_bind. by rewrite E.
Qed.

Lemma wp_mono {A} (p : prog A) (Q Q' : A -> ChunkMap T -> Prop) m :
  (forall a m', Q a m' -> Q' a m') -> wp p Q m -> wp p Q' m.
Proof.
  intros HQ H sched. destruct (H sched) as (a & m' & sched' & E & Ha). exists a, m', sched'. auto.
Qed.

Lemma wp_get Q m : Q m m -> wp get_map Q m.
Proof. intros H sched. by exists m, m, sched. Qed.

Lemma wp_put m' Q m : Q () m' -> wp (put_map m') Q m.
Proof. intros H sched. by exists (), m', sched. Qed.

Lemma wp_modify f Q m : Q () (f m) -> wp (modify_map f) Q m.
Proof. intros H sched. by exists (), (f m), sched. Qed.

Lemma wp_expect {A} (o : option A) a Q m : o = Some a -> Q a m -> wp (expect o) Q m.
Proof. intros -> H. by apply wp_ret. Qed.

Lemma wp_read_holder id h Q m : heap m !! id = Some h -> Q h m -> wp (read_holder id) Q m.
Proof.
  intros Hh H. unfold read_holder. apply wp_bind, wp_get. rewrite Hh. by apply wp_ret.
Qed.

Lemma wp_update_holder {A} id h (f : ChunkHolder -> option (ChunkHolder * A)) h' a Q m :
  heap m !! id = Some h -> f h = Some (h', a) -> Q a (set_holder m id h') ->
  wp (update_holder id f) Q m.
Proof.
  intros Hh Hf H. unfold update_holder. apply wp_bind, (wp_read_holder id h); [done|]. rewrite Hf.
  apply wp_bind, wp_modify. by apply wp_ret.
Qed.
End Map.
