(* ===== verification/ChunkMapInv.v ===== *)
(** * The invariant of the chunk map

    Every live holder sits in exactly one of the two maps, its lifecycle, levels and
    readiness agree with that, its producers keep their protocol, the tick scheduler owns
    exactly the Full chunks, and contributors of the readiness index are active Full
    holders.  Steps of the other threads keep the invariant, never panic, and change only
    what [evolves] allows. *)

From S2P Require Import Prelude Positions ChunkPyramid ChunkTickets TickScheduler.
From S2P Require Import TickOwnership FullNeighborhood ChunkHolder ChunkMap.

Section Invariant.
Context {T : Type} `{!TickOwnership T}.
Implicit Types m : ChunkMap T.

(** ** The invariant *)

Definition raw_level_ok (raw : Z) : Prop := raw = NO_TICKET_LEVEL \/ level_ok raw.

Definition is_active_holder m (id : Z) (h : ChunkHolder) : Prop :=
  chunks m !! h_pos h = Some id /\ h_lifecycle h = SAVE_LIFECYCLE_ACTIVE /\ level_ok (h_load h).

Definition is_unloading_holder m (id : Z) (h : ChunkHolder) : Prop :=
  unloading_chunks m !! h_pos h = Some id /\
  (h_lifecycle h = SAVE_LIFECYCLE_UNLOADING \/ h_lifecycle h = SAVE_LIFECYCLE_PREPARING) /\
  h_load h = NO_TICKET_LEVEL /\ ticking_readiness h = Some Unready.

Record holder_ok m (id : Z) (h : ChunkHolder) : Prop := {
  ho_id : 0 <= id < next_id m;
  ho_pos : ChunkPos_ok (h_pos h);
  ho_word : word_ok (h_readiness h);
  ho_sim : raw_level_ok (h_sim h);
  ho_producers : producers_ok h (producers_of m id);
  ho_place : is_active_holder m id h \/ is_unloading_holder m id h;
  ho_saving : id ∈ saving m <-> h_lifecycle h = SAVE_LIFECYCLE_PREPARING;
  ho_ticks : to_lifecycle (scheduled_ticks m) id = holder_ticks h (producers_of m id);
}.

(** Registered positions are those whose live holder has registered its queues. *)
Definition owns_ticks m (p : ChunkPos) (id : Z) : Prop :=
  exists h, heap m !! id = Some h /\ h_pos h = p /\ holder_ticks h (producers_of m id) = Some Registered.

(** Holders that the readiness index may count. *)
Definition full_holder m (p : ChunkPos) (id : Z) : Prop :=
  chunks m !! p = Some id /\
  exists h, heap m !! id = Some h /\ h_full_init h = true /\ is_full_level (holder_load_level h) = true.

Record map_ok m : Prop := {
  mo_holder : forall id h, heap m !! id = Some h -> holder_ok m id h;
  mo_chunks : forall p id, chunks m !! p = Some id -> exists h, heap m !! id = Some h /\ h_pos h = p;
  mo_unloading : forall p id, unloading_chunks m !! p = Some id ->
    exists h, heap m !! id = Some h /\ h_pos h = p;
  mo_disjoint : forall p, is_Some (chunks m !! p) -> unloading_chunks m !! p = None;
  mo_next : 0 <= next_id m;
  mo_fresh : forall id, next_id m <= id ->
    to_lifecycle (scheduled_ticks m) id = None /\ producers_of m id = [];
  mo_saving : forall id, id ∈ saving m -> is_Some (heap m !! id);
  mo_ticks : to_ok (scheduled_ticks m);
  mo_registered : forall p id, to_registered (scheduled_ticks m) !! p = Some id <-> owns_ticks m p id;
  mo_neighborhood : nb_ok (full_neighborhood m);
  mo_contributors : forall p id, contributors (full_neighborhood m) !! p = Some id -> full_holder m p id;
  mo_published : forall p id, mkPublication p id ∈ full_publications m ->
    forall h, heap m !! id = Some h -> h_pos h = p /\ h_full_init h = true;
  mo_known : forall p id, mkPublication p id ∈ full_publications m -> id < next_id m;
}.

(** ** What the other threads may do *)

Record holder_evolves (h h' : ChunkHolder) : Prop := {
  he_pos : h_pos h' = h_pos h;
  he_load : h_load h' = h_load h;
  he_sim : h_sim h' = h_sim h;
  he_readiness : h_readiness h' = h_readiness h;
  he_active : h_lifecycle h' = SAVE_LIFECYCLE_ACTIVE <-> h_lifecycle h = SAVE_LIFECYCLE_ACTIVE;
  he_published : h_published h <= h_published h';
  he_init : h_full_init h = true -> h_full_init h' = true;
  he_level : forall b, h_level h = Some b -> h_level h' = Some b;
}.

(** A Full chunk is announced to the driver when its publication is queued, or about to be. *)
Definition announced m (p : ChunkPos) (id : Z) : Prop :=
  mkPublication p id ∈ full_publications m \/
  exists q, q ∈ producers_of m id /\ pr_stage q = StInitialized.

Record evolves m m' : Prop := {
  ev_chunks : chunks m' = chunks m;
  ev_unloading : unloading_chunks m' = unloading_chunks m;
  ev_deferred : deferred_revivals m' = deferred_revivals m;
  ev_neighborhood : full_neighborhood m' = full_neighborhood m;
  ev_snapshot : ticking_chunks m' = ticking_chunks m;
  ev_next : next_id m' = next_id m;
  ev_heap : forall id, option_Forall2 holder_evolves (heap m !! id) (heap m' !! id);
  ev_announced : forall id h, heap m !! id = Some h -> announced m (h_pos h) id -> announced m' (h_pos h) id;
  ev_new_full : forall id h h', heap m !! id = Some h -> heap m' !! id = Some h' ->
    h_full_init h' = true -> h_full_init h = true \/ announced m' (h_pos h) id;
}.

#[global] Instance holder_evolves_refl : Reflexive holder_evolves.
Proof. intros h. by split. Qed.

#[global] Instance holder_evolves_trans : Transitive holder_evolves.
Proof.
  intros h1 h2 h3 [A1 A2 A3 A4 A5 A6 A7 A8] [B1 B2 B3 B4 B5 B6 B7 B8].
  split; [congruence..|by rewrite B5|lia|auto|auto].
Qed.

#[global] Instance evolves_refl : Reflexive evolves.
Proof.
  intros m. split; try done. intros id h h' -> [= ->]. by left.
Qed.

#[global] Instance evolves_trans : Transitive evolves.
Proof.
  intros m1 m2 m3 H12 H23.
  assert (forall id h1, heap m1 !! id = Some h1 -> exists h2, heap m2 !! id = Some h2 /\ holder_evolves h1 h2) as Hstep.
  { intros id h1 E. pose proof (ev_heap _ _ H12 id) as F. rewrite E in F. inversion F; eauto. }
  split; try (destruct H12, H23; congruence).
  - intros id. pose proof (ev_heap _ _ H12 id) as F. pose proof (ev_heap _ _ H23 id) as G.
    inversion F as [h1 h2 H E1 E2|E1 E2]; rewrite <- E2 in G; inversion G; constructor. by etransitivity.
  - intros id h1 E A. destruct (Hstep id h1 E) as (h2 & E2 & He). rewrite <- (he_pos _ _ He).
    apply (ev_announced _ _ H23 id h2 E2). rewrite (he_pos _ _ He). by apply (ev_announced _ _ H12 id h1).
  - intros id h1 h3 E1 E3 I3. destruct (Hstep id h1 E1) as (h2 & E2 & He).
    destruct (ev_new_full _ _ H23 id h2 h3 E2 E3 I3) as [I2|A]; [|right; by rewrite <- (he_pos _ _ He)].
    destruct (ev_new_full _ _ H12 id h1 h2 E1 E2 I2) as [I1|A]; [by left|]. right.
    rewrite <- (he_pos _ _ He). apply (ev_announced _ _ H23 id h2 E2). by rewrite (he_pos _ _ He).
Qed.

(** ** Changing one holder *)

(** The map with holder [id], its producers, the guards, the queue and the tick scheduler
    replaced. *)
Definition replace_holder m (id : Z) (h : ChunkHolder) (prs : gmap Z (list producer)) (sv : gset Z)
  (pubs : list FullPublication) (t : T) : ChunkMap T :=
  mkMap (<[id := h]> (heap m)) prs sv (next_id m) (chunks m)
    (unloading_chunks m) (deferred_revivals m) pubs (full_neighborhood m) (ticking_chunks m) t.

(** Only the producers of [id] change. *)
Definition producers_follow m (id : Z) (ps : list producer) (prs : gmap Z (list producer)) : Prop :=
  forall i, default [] (prs !! i) = if decide (i = id) then ps else producers_of m i.

Lemma producers_follow_insert m id ps : producers_follow m id ps (<[id := ps]> (producers m)).
Proof.
  intros i. case_decide as E; [subst; by rewrite lookup_insert_eq|]. by rewrite lookup_insert_ne.
Qed.

Lemma producers_follow_same m id : producers_follow m id (producers_of m id) (producers m).
Proof. intros i. case_decide as E; [by subst|done]. Qed.

Lemma producers_of_replace m id h ps prs sv pubs t i : producers_follow m id ps prs ->
  producers_of (replace_holder m id h prs sv pubs t) i = if decide (i = id) then ps else producers_of m i.
Proof. intros H. apply H. Qed.

(** The tick scheduler follows a holder's container. *)
Record ticks_follow m (id : Z) (h h' : ChunkHolder) (ps' : list producer) (t' : T) : Prop := {
  tf_ok : to_ok t';
  tf_lifecycle : forall id', to_lifecycle t' id' =
    if decide (id' = id) then holder_ticks h' ps' else to_lifecycle (scheduled_ticks m) id';
  tf_registered : to_registered t' =
    if decide (holder_ticks h' ps' = Some Registered) then <[h_pos h := id]> (to_registered (scheduled_ticks m))
    else to_registered (scheduled_ticks m);
  tf_keeps : holder_ticks h (producers_of m id) = Some Registered -> holder_ticks h' ps' = Some Registered;
}.

(** The change keeps what the driver relies on. *)
Record holder_change m (id : Z) (h h' : ChunkHolder) (ps' : list producer) (sv' : gset Z)
  (pubs' : list FullPublication) : Prop := {
  hc_evolves : holder_evolves h h';
  hc_lifecycle : h_lifecycle h = SAVE_LIFECYCLE_ACTIVE \/
    h_lifecycle h' = SAVE_LIFECYCLE_UNLOADING \/ h_lifecycle h' = SAVE_LIFECYCLE_PREPARING;
  hc_producers : producers_ok h' ps';
  hc_saving : forall id', id' ∈ sv' <->
    if decide (id' = id) then h_lifecycle h' = SAVE_LIFECYCLE_PREPARING else id' ∈ saving m;
  hc_publications : pubs' = full_publications m \/
    pubs' = full_publications m ++ [mkPublication (h_pos h) id] /\ h_full_init h' = true;
  hc_new_full : h_full_init h' = true -> h_full_init h = true \/
    exists q, q ∈ ps' /\ pr_stage q = StInitialized;
  hc_pushing : forall q, q ∈ producers_of m id -> pr_stage q = StInitialized ->
    pubs' = full_publications m ++ [mkPublication (h_pos h) id] \/ q ∈ ps';
}.

Lemma replace_holder_evolves m id h h' ps' prs sv' pubs' t' :
  producers_follow m id ps' prs ->
  heap m !! id = Some h -> holder_change m id h h' ps' sv' pubs' ->
  evolves m (replace_holder m id h' prs sv' pubs' t').
Proof.
  intros Hprs Hh [C1 C2 C3 C4 C5 C6 C7]. split; try done.
  - intros id'. simpl. destruct (decide (id' = id)) as [->|Hne].
    + rewrite Hh, lookup_insert_eq. by constructor.
    + by rewrite lookup_insert_ne.
  - intros id' h0 Hh0 A. unfold announced. rewrite (producers_of_replace _ _ _ _ _ _ _ _ _ Hprs).
    destruct A as [A|(q & Hq & Hs)]; simpl.
    + left. destruct C5 as [->|[-> _]]; [done|]. apply elem_of_app. by left.
    + case_decide as E; [|by eauto]. subst id'. rewrite Hh in Hh0. injection Hh0 as <-.
      destruct (C7 q Hq Hs) as [->|Hq']; [left; set_solver|eauto].
  - intros id' h0 h1 Hh0 Hh1 I. simpl in Hh1. destruct (decide (id' = id)) as [->|Hne].
    + rewrite lookup_insert_eq in Hh1. injection Hh1 as <-. rewrite Hh in Hh0. injection Hh0 as <-.
      destruct (C6 I) as [?|Hq]; [by left|]. right. right. rewrite (producers_of_replace _ _ _ _ _ _ _ _ _ Hprs). by rewrite decide_True.
    + rewrite lookup_insert_ne in Hh1 by done. rewrite Hh0 in Hh1. injection Hh1 as <-. by left.
Qed.

(** A live holder's place says which map it is in. *)
Lemma holder_place m id h : map_ok m -> heap m !! id = Some h ->
  is_active_holder m id h \/ is_unloading_holder m id h.
Proof. intros Hok Hh. exact (ho_place _ _ _ (mo_holder _ Hok id h Hh)). Qed.

Lemma owner_unique m id id' h h' : map_ok m -> heap m !! id = Some h -> heap m !! id' = Some h' ->
  h_pos h = h_pos h' -> id = id'.
Proof.
  intros Hok Hh Hh' Ep.
  destruct (holder_place m id h Hok Hh) as [(A & _)|(A & _)], (holder_place m id' h' Hok Hh') as [(B & _)|(B & _)];
    rewrite Ep in A; try congruence.
  - pose proof (mo_disjoint _ Hok (h_pos h') ltac:(by rewrite A)). congruence.
  - pose proof (mo_disjoint _ Hok (h_pos h') ltac:(by rewrite B)). congruence.
Qed.

Lemma lookup_replace m id h ps sv pubs t id0 h0 :
  heap (replace_holder m id h ps sv pubs t) !! id0 = Some h0 ->
  (id0 = id /\ h0 = h) \/ (id0 <> id /\ heap m !! id0 = Some h0).
Proof. simpl. intros [[<- <-]|[Hne E]]%lookup_insert_Some; [by left|right; split; [congruence|done]]. Qed.

Lemma replace_holder_holder_ok m id h h' ps' prs sv' pubs' t' id0 h0 :
  producers_follow m id ps' prs -> map_ok m -> heap m !! id = Some h -> holder_change m id h h' ps' sv' pubs' ->
  ticks_follow m id h h' ps' t' ->
  heap (replace_holder m id h' prs sv' pubs' t') !! id0 = Some h0 ->
  holder_ok (replace_holder m id h' prs sv' pubs' t') id0 h0.
Proof.
  intros Hprs Hok Hh [C1 C2 C3 C4 C5 C6 C7] [T1 T2 T3 T4] E.
  assert (h_pos h' = h_pos h) as Ep by exact (he_pos _ _ C1).
  apply lookup_replace in E as [[-> ->]|[Hne E0]].
  - destruct (mo_holder _ Hok id h Hh) as [I1 I2 I3 I4 I5 I6 I7 I8]. split.
    + done.
    + by rewrite Ep.
    + by rewrite (he_readiness _ _ C1).
    + by rewrite (he_sim _ _ C1).
    + rewrite (producers_of_replace _ _ _ _ _ _ _ _ _ Hprs). by rewrite decide_True.
    + unfold is_active_holder, is_unloading_holder, ticking_readiness in *. simpl.
      rewrite Ep, (he_load _ _ C1), (he_readiness _ _ C1).
      destruct I6 as [(A & B & C)|(A & B & C)].
      * left. split; [done|]. split; [by apply (he_active _ _ C1)|done].
      * right. split; [done|]. split; [|done]. destruct C2 as [C2|C2]; [|done].
        unfold SAVE_LIFECYCLE_ACTIVE, SAVE_LIFECYCLE_UNLOADING, SAVE_LIFECYCLE_PREPARING in *. lia.
    + simpl. rewrite C4. by rewrite decide_True.
    + simpl. rewrite T2, (producers_of_replace _ _ _ _ _ _ _ _ _ Hprs), !decide_True by done. done.
  - destruct (mo_holder _ Hok id0 h0 E0) as [I1 I2 I3 I4 I5 I6 I7 I8]. split; try done.
    + rewrite (producers_of_replace _ _ _ _ _ _ _ _ _ Hprs). by rewrite decide_False.
    + simpl. rewrite C4. by rewrite decide_False.
    + simpl. rewrite T2, (producers_of_replace _ _ _ _ _ _ _ _ _ Hprs), !decide_False by done. done.
Qed.

Lemma replace_holder_registered m id h h' ps' prs sv' pubs' t' p i :
  producers_follow m id ps' prs -> map_ok m -> heap m !! id = Some h -> h_pos h' = h_pos h -> ticks_follow m id h h' ps' t' ->
  to_registered t' !! p = Some i <-> owns_ticks (replace_holder m id h' prs sv' pubs' t') p i.
Proof.
  intros Hprs Hok Hh Ep [T1 T2 T3 T4].
  assert (owns_ticks (replace_holder m id h' prs sv' pubs' t') p i <->
    if decide (i = id) then h_pos h = p /\ holder_ticks h' ps' = Some Registered else owns_ticks m p i) as ->.
  { unfold owns_ticks. rewrite (producers_of_replace _ _ _ _ _ _ _ _ _ Hprs). simpl. destruct (decide (i = id)) as [->|E].
    - rewrite lookup_insert_eq. split; [intros (? & [= <-] & <- & ?); by split|].
      intros [<- ?]. by exists h'.
    - by rewrite lookup_insert_ne by done. }
  rewrite T3. case_decide as Hreg.
  - destruct (decide (p = h_pos h)) as [->|Hp].
    + rewrite lookup_insert_eq. case_decide as E; [subst; naive_solver|]. split; [congruence|].
      intros (h0 & E0 & Hp0 & _). destruct E. by apply (owner_unique m i id h0 h).
    + rewrite lookup_insert_ne by done. rewrite (mo_registered _ Hok). case_decide as E; [|done]. subst i.
      unfold owns_ticks. split; [|naive_solver]. intros (h0 & E0 & <- & _). rewrite Hh in E0. by injection E0 as ->.
  - rewrite (mo_registered _ Hok). case_decide as E; [|done]. subst i. unfold owns_ticks. split.
    + intros (h0 & E0 & <- & R). rewrite Hh in E0. injection E0 as <-. by destruct Hreg; apply T4.
    + intros [_ R]. done.
Qed.

Lemma replace_holder_ok m id h h' ps' prs sv' pubs' t' :
  producers_follow m id ps' prs -> map_ok m -> heap m !! id = Some h -> holder_change m id h h' ps' sv' pubs' ->
  ticks_follow m id h h' ps' t' ->
  map_ok (replace_holder m id h' prs sv' pubs' t').
Proof.
  intros Hprs Hok Hh Hc Ht. pose proof (mo_holder _ Hok id h Hh) as Hho.
  assert (h_pos h' = h_pos h) as Ep by exact (he_pos _ _ (hc_evolves _ _ _ _ _ _ _ Hc)).
  assert (forall i h0 p, heap m !! i = Some h0 -> h_pos h0 = p ->
    exists h1, <[id := h']> (heap m) !! i = Some h1 /\ h_pos h1 = p) as Hlook.
  { intros i h0 p E0 Hp. destruct (decide (i = id)) as [->|Hne];
      [rewrite lookup_insert_eq; exists h'|rewrite lookup_insert_ne by done; by eauto].
    split; [done|]. congruence. }
  split; simpl; try (apply Hok).
  - intros id0 h0 E. by apply (replace_holder_holder_ok m id h h' ps' prs sv' pubs' t').
  - intros p i (h0 & E0 & Hp)%(mo_chunks _ Hok). eauto.
  - intros p i (h0 & E0 & Hp)%(mo_unloading _ Hok). eauto.
  - intros i Hi. assert (i <> id) as Hne by (intros ->; pose proof (ho_id _ _ _ Hho); lia).
    rewrite (tf_lifecycle _ _ _ _ _ _ Ht), (producers_of_replace _ _ _ _ _ _ _ _ _ Hprs), !decide_False by done.
    by apply (mo_fresh _ Hok).
  - intros i Hi. apply (hc_saving _ _ _ _ _ _ _ Hc) in Hi. case_decide as E.
    + subst. by rewrite lookup_insert_eq.
    + rewrite lookup_insert_ne by done. by apply (mo_saving _ Hok).
  - exact (tf_ok _ _ _ _ _ _ Ht).
  - intros p i. by apply (replace_holder_registered m id h h' ps' prs sv' pubs').
  - intros p i (A & h0 & E0 & B & C)%(mo_contributors _ Hok). split; [done|]. simpl.
    destruct (decide (i = id)) as [->|Hne]; [|rewrite lookup_insert_ne by done; eauto].
    rewrite lookup_insert_eq. exists h'. rewrite Hh in E0. injection E0 as <-.
    pose proof (hc_evolves _ _ _ _ _ _ _ Hc) as He. split_and!; [done|by apply (he_init _ _ He)|].
    unfold holder_load_level. by rewrite (he_load _ _ He).
  - intros p i Hin h0 E0.
    assert (mkPublication p i ∈ full_publications m \/ (p = h_pos h /\ i = id /\ h_full_init h' = true)) as Hp.
    { destruct (hc_publications _ _ _ _ _ _ _ Hc) as [->|[-> I]]; [by left|].
      apply elem_of_app in Hin as [?|[= -> ->]%list_elem_of_singleton]; auto. }
    pose proof (hc_evolves _ _ _ _ _ _ _ Hc) as He.
    destruct (decide (i = id)) as [->|Hne].
    + rewrite lookup_insert_eq in E0. injection E0 as <-. rewrite Ep. destruct Hp as [Hp|(-> & _ & ?)]; [|done].
      destruct (mo_published _ Hok p id Hp h Hh) as [-> I]. split; [done|by apply (he_init _ _ He)].
    + rewrite lookup_insert_ne in E0 by done. destruct Hp as [Hp|(_ & ? & _)]; [|done].
      by apply (mo_published _ Hok p i Hp).
  - intros p i Hin. pose proof (ho_id _ _ _ Hho).
    destruct (hc_publications _ _ _ _ _ _ _ Hc) as [->|[-> I]]; [by apply (mo_known _ Hok p)|].
    apply elem_of_app in Hin as [?|[= -> ->]%list_elem_of_singleton]; [by apply (mo_known _ Hok p)|lia].
Qed.

(** ** The other threads keep the invariant *)

Lemma unregistered_position m id h :
  map_ok m -> heap m !! id = Some h -> holder_ticks h (producers_of m id) <> Some Registered ->
  to_registered (scheduled_ticks m) !! h_pos h = None.
Proof.
  intros Hok Hh Hn. destruct (to_registered _ !! h_pos h) as [i|] eqn:E; [|done].
  apply (mo_registered _ Hok) in E as (h0 & E0 & Ep & R).
  assert (i = id) as -> by exact (owner_unique m i id h0 h Hok E0 Hh Ep). congruence.
Qed.

(** Whatever a producer asks of the scheduler and the queue is granted. *)
Lemma effect_step_ok m id h ps h' ps' e :
  map_ok m -> heap m !! id = Some h -> ps ≡ₚ producers_of m id -> step_ok h ps h' ps' e ->
  exists m', apply_effect (put_producers m id h' ps') id (h_pos h) e = Some m' /\ map_ok m' /\ evolves m m'.
Proof.
  intros Hok Hh Hps [S1 S2 S3 S4 SL S4' S5 S6 S7].
  pose proof (mo_holder _ Hok id h Hh) as Hho. destruct S2 as (F1 & F2 & F3 & F4 & F5 & F6).
  assert (forall pubs', pubs' = full_publications m /\ e <> PublishFull \/
      pubs' = full_publications m ++ [mkPublication (h_pos h) id] /\ e = PublishFull ->
    holder_change m id h h' ps' (saving m) pubs') as Hchange.
  { intros pubs' Hp. split; try done.
    - split; try done. by rewrite F5.
    - rewrite F5. destruct (ho_place _ _ _ Hho) as [(_ & ? & _)|(_ & ? & _)]; auto.
    - intros i. case_decide as E; [|done]. subst i. by rewrite (ho_saving _ _ _ Hho), F5.
    - destruct Hp as [[-> _]|[-> ->]]; [by left|]. right. split; [done|]. by apply S4'.
    - intros q Hq Hs. rewrite <- Hps in Hq. destruct (S7 q Hq Hs) as [->|?]; [|by right].
      left. by destruct Hp as [[_ []]|[-> _]]. }
  assert (forall t' pubs', holder_change m id h h' ps' (saving m) pubs' -> ticks_follow m id h h' ps' t' ->
    map_ok (replace_holder m id h' (<[id := ps']> (producers m)) (saving m) pubs' t') /\
    evolves m (replace_holder m id h' (<[id := ps']> (producers m)) (saving m) pubs' t')) as Hdone.
  { intros t' pubs' HC HT. pose proof (producers_follow_insert m id ps') as HF.
    split; [by apply (replace_holder_ok m id h h' ps')|by apply (replace_holder_evolves m id h h' ps')]. }
  rewrite (holder_ticks_perm h ps _ Hps) in S5.
  pose proof (ho_ticks _ _ _ Hho) as Hlife. pose proof (mo_ticks _ Hok) as Hto.
  pose proof (unregistered_position m id h Hok Hh) as Hfree.
  assert (e = NoEffect \/ e = PublishFull -> ticks_follow m id h h' ps' (scheduled_ticks m)) as Hsame.
  { intros He. assert (holder_ticks h' ps' = holder_ticks h (producers_of m id)) as Eh.
    { by destruct He as [-> | ->]. }
    split; rewrite ?Eh; try done.
    - intros i. case_decide as E; [|done]. by subst.
    - case_decide as R; [|done]. symmetry. apply insert_id. apply (mo_registered _ Hok). by exists h. }
  destruct e as [|full| | |]; simpl in *.
  - eexists. split; [done|]. apply (Hdone (scheduled_ticks m)); [apply Hchange; by left|auto].
  - destruct S5 as [B A]. destruct (to_install_law (scheduled_ticks m) id full Hto) as (L1 & L2 & L3); [congruence|].
    eexists. split; [done|]. apply Hdone; [apply Hchange; by left|]. split; rewrite ?A, ?B; try done.
    by rewrite L2; case_decide; [destruct full|].
  - destruct S5 as [B A]. destruct (to_promote_law (scheduled_ticks m) id Hto) as (t' & -> & L1 & L2 & L3); [congruence|].
    eexists. split; [done|]. apply Hdone; [apply Hchange; by left|]. by split; rewrite ?A, ?B.
  - destruct S5 as [B A].
    destruct (to_register_law (scheduled_ticks m) (h_pos h) id Hto (ho_pos _ _ _ Hho)) as (t' & -> & L1 & L2 & L3);
      [congruence|apply Hfree; congruence|]. simpl.
    eexists. split; [done|]. apply Hdone; [apply Hchange; by left|]. by split; rewrite ?A, ?B.
  - eexists. split; [done|]. apply (Hdone (scheduled_ticks m)); [apply Hchange; by right|auto].
Qed.

(** A step that finds nothing to do. *)
Lemma noop_ok m : map_ok m -> exists m', Some m = Some m' /\ map_ok m' /\ evolves m m'.
Proof. intros Hok. by exists m. Qed.

Lemma take_producer m id i q : producers_of m id !! i = Some q ->
  q :: delete i (producers_of m id) ≡ₚ producers_of m id.
Proof. intros H. symmetry. by apply delete_Permutation. Qed.

Lemma producer_event_ok m id i enabled f :
  map_ok m ->
  (forall h q ps, enabled q = true -> producers_ok h (q :: ps) ->
    exists h' q' e, f h q = Some (h', q', e) /\ step_ok h (q :: ps) h' (q' :: ps) e) ->
  exists m', producer_event m id i enabled f = Some m' /\ map_ok m' /\ evolves m m'.
Proof.
  intros Hok Hf. unfold producer_event.
  destruct (heap m !! id) as [h|] eqn:Hh; [|by apply noop_ok].
  destruct (producers_of m id !! i) as [q|] eqn:Hq; [|by apply noop_ok].
  destruct (enabled q) eqn:He; [|by apply noop_ok].
  pose proof (take_producer m id i q Hq) as Hperm.
  destruct (Hf h q (delete i (producers_of m id)) He) as (h' & q' & e & -> & Hs).
  { eapply producers_ok_perm; [symmetry; exact Hperm|]. exact (ho_producers _ _ _ (mo_holder _ Hok id h Hh)). }
  simpl. by apply (effect_step_ok m id h (q :: delete i (producers_of m id))).
Qed.

Lemma claim_event_ok m id s : map_ok m ->
  exists m', claim_event m id s = Some m' /\ map_ok m' /\ evolves m m'.
Proof.
  intros Hok. unfold claim_event. destruct (heap m !! id) as [h|] eqn:Hh; [|by apply noop_ok].
  destruct (is_status_disallowed h s || negb (parent_published h s)) eqn:Hg; [by apply noop_ok|].
  apply orb_false_iff in Hg as [_ Hg%negb_false_iff].
  pose proof (ho_producers _ _ _ (mo_holder _ Hok id h Hh)) as Hps.
  destruct (claim_status_work_ok h s (producers_of m id) Hps) as (h' & o & -> & Ho).
  { unfold parent_published in Hg. pose proof (parent_encoded s) as Hp. pose proof (po_published _ _ Hps).
    destruct (ChunkStatus_parent s) as [par|]; [|subst; change (encoded Empty) with 1; lia].
    apply Z.leb_le in Hg. rewrite encoded_published_status_eq in Hg. lia. }
  simpl. destruct o; [|by apply noop_ok]. destruct Ho as (_ & _ & Hs).
  apply (effect_step_ok m id h (producers_of m id) _ _ NoEffect Hok Hh ltac:(done) Hs).
Qed.

Lemma drop_event_ok m id i : map_ok m ->
  exists m', drop_event m id i = Some m' /\ map_ok m' /\ evolves m m'.
Proof.
  intros Hok. unfold drop_event. destruct (heap m !! id) as [h|] eqn:Hh; [|by apply noop_ok].
  destruct (producers_of m id !! i) as [q|] eqn:Hq; [|by apply noop_ok].
  pose proof (take_producer m id i q Hq) as Hperm.
  assert (producers_ok h (q :: delete i (producers_of m id))) as Hps.
  { eapply producers_ok_perm; [symmetry; exact Hperm|]. exact (ho_producers _ _ _ (mo_holder _ Hok id h Hh)). }
  assert (forall h', step_ok h (q :: delete i (producers_of m id)) h' (delete i (producers_of m id)) NoEffect ->
    exists m', Some (put_producers m id h' (delete i (producers_of m id))) = Some m' /\ map_ok m' /\ evolves m m')
    as Hd by (intros h' Hs; exact (effect_step_ok m id h _ h' _ NoEffect Hok Hh Hperm Hs)).
  destruct (pr_stage q) eqn:Est; try by apply noop_ok.
  - destruct (abandon_ok h q _ Hps Est) as (h' & -> & Hs). simpl. auto.
  - destruct (finish_ok h q _ Hps Est) as (h' & -> & Hs). simpl. auto.
Qed.

(** A change of a holder that its producers do not notice. *)
Lemma side_change_ok m id h h' sv :
  map_ok m -> heap m !! id = Some h ->
  producers_ok h' (producers_of m id) -> holder_ticks h' (producers_of m id) = holder_ticks h (producers_of m id) ->
  holder_evolves h h' -> h_full_init h' = h_full_init h ->
  h_lifecycle h = SAVE_LIFECYCLE_ACTIVE \/
    h_lifecycle h' = SAVE_LIFECYCLE_UNLOADING \/ h_lifecycle h' = SAVE_LIFECYCLE_PREPARING ->
  (forall i, i ∈ sv <-> if decide (i = id) then h_lifecycle h' = SAVE_LIFECYCLE_PREPARING else i ∈ saving m) ->
  let m' := set_saving (set_holder m id h') sv in
  map_ok m' /\ evolves m m'.
Proof.
  intros Hok Hh Hps Hticks He Hi Hlc Hsv m'. pose proof (mo_holder _ Hok id h Hh) as Hho.
  assert (holder_change m id h h' (producers_of m id) sv (full_publications m)) as Hc.
  { split; try done.
    - by left.
    - rewrite Hi. by left.
    - intros q Hq _. by right. }
  assert (ticks_follow m id h h' (producers_of m id) (scheduled_ticks m)) as Ht.
  { split; rewrite ?Hticks; try done.
    - exact (mo_ticks _ Hok).
    - intros i. case_decide as E; [|done]. subst. exact (ho_ticks _ _ _ Hho).
    - case_decide as R; [|done]. symmetry. apply insert_id. apply (mo_registered _ Hok). by exists h. }
  pose proof (producers_follow_same m id) as HF.
  split; [exact (replace_holder_ok _ _ _ _ _ _ _ _ _ HF Hok Hh Hc Ht)|
          exact (replace_holder_evolves _ _ _ _ _ _ _ _ (scheduled_ticks m) HF Hh Hc)].
Qed.

(** Moving between the unloading and the preparing lifecycle. *)
Lemma save_event_ok m id h lc sv :
  map_ok m -> heap m !! id = Some h ->
  h_lifecycle h <> SAVE_LIFECYCLE_ACTIVE ->
  lc = SAVE_LIFECYCLE_UNLOADING \/ lc = SAVE_LIFECYCLE_PREPARING ->
  (forall i, i ∈ sv <-> if decide (i = id) then lc = SAVE_LIFECYCLE_PREPARING else i ∈ saving m) ->
  let m' := set_saving (set_holder m id (set_h_lifecycle lc h)) sv in
  map_ok m' /\ evolves m m'.
Proof.
  intros Hok Hh Ha Hlc Hsv. pose proof (mo_holder _ Hok id h Hh) as Hho.
  destruct (producers_ok_ext h (set_h_lifecycle lc h) (producers_of m id)) as [Hps Hticks]; try done.
  { exact (ho_producers _ _ _ Hho). }
  apply (side_change_ok m id h); try done; [|by right].
  split; try done. simpl. split; [|done]. intros ->. by destruct Hlc.
Qed.

(** Steps that leave the lifecycle alone. *)
Lemma data_event_ok m id h h' :
  map_ok m -> heap m !! id = Some h -> producers_ok h' (producers_of m id) ->
  holder_ticks h' (producers_of m id) = holder_ticks h (producers_of m id) ->
  same_frame h h' -> h_published h' = h_published h -> h_full_init h' = h_full_init h ->
  cd_level <$> h_data h' = cd_level <$> h_data h ->
  map_ok (set_holder m id h') /\ evolves m (set_holder m id h').
Proof.
  intros Hok Hh Hps Ht (F1 & F2 & F3 & F4 & F5 & F6) Hp Hi Hl.
  apply (side_change_ok m id h h' (saving m)); try done.
  - split; try done; [by rewrite F5|lia|by rewrite Hi|]. unfold h_level. by rewrite Hl.
  - rewrite F5. destruct (holder_place m id h Hok Hh) as [(_ & ? & _)|(_ & ? & _)]; auto.
  - intros i. case_decide as E; [|done]. subst. rewrite F5. exact (ho_saving _ _ _ (mo_holder _ Hok id h Hh)).
Qed.

Lemma dirty_event_ok m id h b :
  map_ok m -> heap m !! id = Some h ->
  map_ok (set_holder m id (set_dirty b h)) /\ evolves m (set_holder m id (set_dirty b h)).
Proof.
  intros Hok Hh.
  destruct (set_dirty_ok b h _ (ho_producers _ _ _ (mo_holder _ Hok id h Hh))) as (P1 & P2 & P3 & P4 & P5 & P6).
  by apply (data_event_ok m id h).
Qed.

Lemma env_step_ok m ev : map_ok m -> exists m', env_step m ev = Some m' /\ map_ok m' /\ evolves m m'.
Proof.
  intros Hok. destruct ev as [id s|id i level dirty|id i s chunk|id i|id i|id|id|id|id|id]; simpl.
  - by apply claim_event_ok.
  - apply producer_event_ok; [done|]. intros h q ps Hen Hps. apply bool_decide_eq_true in Hen.
    destruct (run_generated_step_ok h q ps level dirty Hps Hen) as (d & q' & e & -> & P1 & P2 & P3 & P4 & P5).
    eexists _, q', e. split; [done|]. by apply start_step_ok.
  - apply producer_event_ok; [done|]. intros h q ps Hen Hps.
    rewrite !andb_true_iff in Hen. unfold is_claimed in Hen. rewrite !bool_decide_eq_true in Hen.
    destruct Hen as [[Hst Hcl] Hrt].
    destruct (install_loaded_chunk_ok h q ps s chunk Hps Hst Hcl Hrt) as (d & q' & -> & P1 & P2 & P3 & P4).
    eexists _, q', _. split; [done|]. apply start_step_ok; try done. unfold h_level. by rewrite P4.
  - apply producer_event_ok; [done|]. intros h q ps _ Hps. by apply producer_advance_ok.
  - by apply drop_event_ok.
  - destruct (heap m !! id) as [h|] eqn:Hh; simpl; [|by apply noop_ok].
    unfold try_begin_save_preparation, cas_lifecycle.
    destruct (Z.eqb_spec (h_lifecycle h) SAVE_LIFECYCLE_UNLOADING) as [E|E]; [|by apply noop_ok].
    eexists. split; [done|]. apply save_event_ok; try done; [by rewrite E|by right|].
    intros i. case_decide; set_solver.
  - destruct (heap m !! id) as [h|] eqn:Hh; [|by apply noop_ok]. case_decide; [|by apply noop_ok].
    eexists. split; [done|]. by apply dirty_event_ok.
  - case_decide as Hs; [|by apply noop_ok]. destruct (mo_saving _ Hok id Hs) as [h Hh]. rewrite Hh. simpl.
    apply (ho_saving _ _ _ (mo_holder _ Hok id h Hh)) in Hs.
    unfold end_save_preparation, cas_lifecycle. rewrite Hs, Z.eqb_refl. simpl.
    eexists. split; [done|]. apply save_event_ok; try done; [by rewrite Hs|by left|].
    intros i. case_decide; set_solver.
  - eexists. split; [done|]. destruct (heap m !! id) as [h|] eqn:Hh; [|done].
    destruct (try_chunk h StructureStarts); [by apply dirty_event_ok|done].
  - eexists. split; [done|]. destruct (heap m !! id) as [h|] eqn:Hh; [|done].
    apply (data_event_ok m id h); try done; by apply (producers_ok_ext h), (ho_producers _ _ _ (mo_holder _ Hok id h Hh)).
Qed.

Lemma env_steps_ok m evs : map_ok m -> exists m', env_steps m evs = Some m' /\ map_ok m' /\ evolves m m'.
Proof.
  unfold env_steps. revert m. induction evs as [|ev evs IH]; intros m Hok; simpl; [by apply noop_ok|].
  destruct (env_step_ok m ev Hok) as (m1 & -> & Hok1 & He1). simpl.
  destruct (IH m1 Hok1) as (m2 & -> & Hok2 & He2). exists m2. split_and!; try done. by etransitivity.
Qed.

(** The driver's view of interference. *)
Lemma wp_interfere (Q : unit -> ChunkMap T -> Prop) m :
  map_ok m -> (forall m', map_ok m' -> evolves m m' -> Q () m') -> wp interfere Q m.
Proof.
  intros Hok HQ sched. unfold interfere. simpl. destruct sched as [|evs rest]; simpl.
  - exists (), m, []. split; [done|]. by apply HQ.
  - destruct (env_steps_ok m evs Hok) as (m' & -> & Hok' & He). exists (), m', rest. split; [done|]. by apply HQ.
Qed.

(** Loops: an invariant that survives interference and one round is kept. *)
Lemma wp_for {A} (l : list A) (f : A -> prog unit) (I : list A -> ChunkMap T -> Prop) m :
  (forall l m, I l m -> map_ok m) ->
  (forall l m m', I l m -> map_ok m' -> evolves m m' -> I l m') ->
  (forall x l m, I (x :: l) m -> wp (f x) (fun _ m' => I l m') m) ->
  I l m -> wp (for_prog l f) (fun _ m' => I [] m') m.
Proof.
  intros Hok Hev Hf. revert m. induction l as [|x l IH]; intros m HI; simpl; [by apply wp_ret|].
  apply wp_bind, wp_interfere; [eauto|]. intros m1 Hok1 He1.
  apply wp_bind. eapply wp_mono; [|apply Hf; eauto]. intros u m2 HI2. by apply IH.
Qed.

Lemma wp_any {A} (l : list A) (f : A -> prog bool) (I : list A -> bool -> ChunkMap T -> Prop) m b :
  (forall l b m, I l b m -> map_ok m) ->
  (forall l b m m', I l b m -> map_ok m' -> evolves m m' -> I l b m') ->
  (forall x l b m, I (x :: l) b m -> wp (f x) (fun b' m' => I l (b || b') m') m) ->
  I l b m -> wp (any_prog l f) (fun b' m' => I [] (b || b') m') m.
Proof.
  intros Hok Hev Hf. revert m b. induction l as [|x l IH]; intros m b HI; simpl.
  { apply wp_ret. by rewrite orb_false_r. }
  apply wp_bind, wp_interfere; [eauto|]. intros m1 Hok1 He1.
  apply wp_bind. eapply wp_mono; [|apply Hf; eauto]. intros b1 m2 HI2.
  apply wp_bind. eapply wp_mono; [|apply IH; exact HI2]. intros b2 m3 HI3. apply wp_ret.
  by rewrite orb_assoc.
Qed.

(** The results gathered so far, in order. *)
Lemma wp_filter_map {A B} (l : list A) (f : A -> prog (option B))
  (I : list A -> list B -> ChunkMap T -> Prop) m acc :
  (forall l acc m, I l acc m -> map_ok m) ->
  (forall l acc m m', I l acc m -> map_ok m' -> evolves m m' -> I l acc m') ->
  (forall x l acc m, I (x :: l) acc m ->
     wp (f x) (fun o m' => I l (acc ++ match o with Some b => [b] | None => [] end) m') m) ->
  I l acc m -> wp (filter_map_prog l f) (fun bs m' => I [] (acc ++ bs) m') m.
Proof.
  intros Hok Hev Hf. revert m acc. induction l as [|x l IH]; intros m acc HI; simpl.
  { apply wp_ret. by rewrite app_nil_r. }
  apply wp_bind, wp_interfere; [eauto|]. intros m1 Hok1 He1.
  apply wp_bind. eapply wp_mono; [|apply Hf; eauto]. intros o m2 HI2.
  apply wp_bind. eapply wp_mono; [|apply IH; exact HI2]. clear HI2. intros bs m3 HI3. apply wp_ret.
  cbn beta in HI3; rewrite <- (assoc_L (++)) in HI3. by destruct o.
Qed.
End Invariant.
