(* ===== verification/ChunkMapCommit.v ===== *)
(** * Committing an epoch

    The commit keeps the invariant and brings the map back to a quiet state: every active
    chunk is exactly as ready as its level and its Full neighbourhood allow, and the ticking
    snapshot lists exactly the chunks that tick.  The driver-owned part of the state of an
    active position is a [cell]; the phases of the commit are described by what they do to
    the cells and to the readiness index. *)

From S2P Require Import Prelude Positions ChunkPyramid ChunkTickets TickScheduler.
From S2P Require Import TickOwnership FullNeighborhood ChunkHolder ChunkMap ChunkMapInv.

Abbreviation rank := TickingReadiness_rank.

Section Commit.
Context {T : Type} `{!TickOwnership T}.
Context (world_min_y world_height : Z).
Implicit Types m : ChunkMap T.

(** ** Cells *)

Record cell := mkCell {
  c_id : Z;
  c_load : option ChunkTicketLevel;
  c_sim : option ChunkTicketLevel;
  c_ready : TickingReadiness;
  c_generation : Z;
}.

Definition readiness_of (h : ChunkHolder) : TickingReadiness := default Unready (ticking_readiness h).

Definition cell_of (id : Z) (h : ChunkHolder) : cell :=
  mkCell id (holder_load_level h) (holder_simulation_level h) (readiness_of h)
    (word_generation (h_readiness h)).

(** What the driver sees at an active position. *)
Definition cells m (p : ChunkPos) : option cell :=
  id ← chunks m !! p; h ← heap m !! id; Some (cell_of id h).

Lemma cells_Some m p c : cells m p = Some c <->
  exists h, chunks m !! p = Some (c_id c) /\ heap m !! c_id c = Some h /\ c = cell_of (c_id c) h.
Proof.
  unfold cells. split.
  - intros H. destruct (chunks m !! p) as [id|]; [|done]. simpl in H.
    destruct (heap m !! id) as [h|] eqn:E; [|done]. injection H as <-. by exists h.
  - intros (h & -> & E & Ec). simpl. rewrite E. simpl. by rewrite <- Ec.
Qed.

Lemma cells_None m p : map_ok m -> cells m p = None <-> chunks m !! p = None.
Proof.
  intros Hok. unfold cells. destruct (chunks m !! p) as [id|] eqn:E; [|done]. simpl.
  destruct (mo_chunks _ Hok p id E) as (h & -> & _). done.
Qed.

Lemma holder_evolves_cell id h h' : holder_evolves h h' -> cell_of id h' = cell_of id h.
Proof.
  intros []. unfold cell_of, holder_load_level, holder_simulation_level, readiness_of, ticking_readiness. congruence.
Qed.

Lemma evolves_cells m m' p : evolves m m' -> cells m' p = cells m p.
Proof.
  intros He. unfold cells. rewrite (ev_chunks _ _ He). destruct (chunks m !! p) as [id|]; [|done]. simpl.
  pose proof (ev_heap _ _ He id) as F. inversion F as [h h' Hh E1 E2|]; [|done]. simpl.
  by rewrite (holder_evolves_cell id h h' Hh).
Qed.

(** An active position and its holder. *)
Lemma active_holder m p id h :
  map_ok m -> chunks m !! p = Some id -> heap m !! id = Some h ->
  h_pos h = p /\ h_lifecycle h = SAVE_LIFECYCLE_ACTIVE /\ level_ok (h_load h).
Proof.
  intros Hok Hp Hh. destruct (mo_chunks _ Hok p id Hp) as (h0 & E & <-). rewrite Hh in E. injection E as <-.
  split; [done|]. destruct (holder_place m id h Hok Hh) as [(_ & A)|(A & _)]; [done|].
  rewrite (mo_disjoint _ Hok (h_pos h)) in A; [done|]. by rewrite Hp.
Qed.

Lemma ticking_readiness_some m id h : map_ok m -> heap m !! id = Some h ->
  ticking_readiness h = Some (readiness_of h).
Proof.
  intros Hok Hh. destruct (ho_word _ _ _ (mo_holder _ Hok id h Hh)) as [_ [r Hr]].
  unfold readiness_of, ticking_readiness. by rewrite Hr.
Qed.

(** ** Driver writes to one holder *)

(** Fields that only the driver writes may change, within their ranges. *)
Record driver_write (h h' : ChunkHolder) : Prop := {
  dw_pos : h_pos h' = h_pos h;
  dw_published : h_published h' = h_published h;
  dw_started : h_started h' = h_started h;
  dw_data : h_data h' = h_data h;
  dw_init : h_full_init h' = h_full_init h;
  dw_lifecycle : h_lifecycle h' = h_lifecycle h;
  dw_word : word_ok (h_readiness h) -> word_ok (h_readiness h');
  dw_sim : raw_level_ok (h_sim h) -> raw_level_ok (h_sim h');
}.

Lemma set_holder_ok m id h h' :
  map_ok m -> heap m !! id = Some h -> driver_write h h' ->
  (is_active_holder m id h -> level_ok (h_load h') /\
     (contributors (full_neighborhood m) !! h_pos h = Some id ->
        is_full_level (holder_load_level h') = true)) ->
  (is_unloading_holder m id h -> h_load h' = h_load h /\ h_readiness h' = h_readiness h) ->
  map_ok (set_holder m id h').
Proof.
  intros Hok Hh [D1 D2 D3 D4 D5 D6 D7 D8] Hact Hun.
  pose proof (mo_holder _ Hok id h Hh) as Hho.
  destruct (producers_ok_ext h h' (producers_of m id) D2 D3 D4 D5 (ho_producers _ _ _ Hho)) as [Hps Hticks].
  assert (forall i h0 p, heap m !! i = Some h0 -> h_pos h0 = p ->
    exists h1, <[id := h']> (heap m) !! i = Some h1 /\ h_pos h1 = p) as Hlook.
  { intros i h0 p E0 Hp. destruct (decide (i = id)) as [->|Hne];
      [rewrite lookup_insert_eq; exists h'|rewrite lookup_insert_ne by done; by eauto].
    split; [done|]. congruence. }
  split; simpl; try (apply Hok).
  - intros i h0 [[<- <-]|[Hne E0]]%lookup_insert_Some; [|by destruct (mo_holder _ Hok i h0 E0)].
    destruct Hho as [I1 I2 I3 I4 I5 I6 I7 I8]. split; try done.
    + by rewrite D1.
    + by apply D7.
    + by apply D8.
    + destruct I6 as [A|A]; [left; destruct (Hact A) as [L _]|right; destruct (Hun A) as [L R]].
      * unfold is_active_holder in *. rewrite D1, D6. simpl. tauto.
      * unfold is_unloading_holder, ticking_readiness in *. by rewrite D1, D6, L, R.
    + by rewrite D6.
    + exact (eq_trans I8 (eq_sym Hticks)).
  - intros p i (h0 & E0 & Hp)%(mo_chunks _ Hok). eauto.
  - intros p i (h0 & E0 & Hp)%(mo_unloading _ Hok). eauto.
  - intros i Hi%(mo_saving _ Hok). rewrite lookup_insert_is_Some'. auto.
  - intros p i. rewrite (mo_registered _ Hok). unfold owns_ticks. simpl.
    destruct (decide (i = id)) as [->|Hne]; [|by rewrite lookup_insert_ne].
    rewrite lookup_insert_eq, Hh. split; intros (h0 & [= <-] & E1 & E2);
      [exists h'|exists h]; split_and!; try done; try congruence; [exact (eq_trans Hticks E2)|exact (eq_trans (eq_sym Hticks) E2)].
  - intros p i Hc. destruct (mo_contributors _ Hok p i Hc) as (A & h0 & E0 & B & C). split; [done|]. simpl.
    destruct (decide (i = id)) as [->|Hne]; [|rewrite lookup_insert_ne by done; eauto].
    rewrite lookup_insert_eq. exists h'. split; [done|]. rewrite Hh in E0. injection E0 as <-.
    split; [by rewrite D5|]. destruct (active_holder m p id h Hok A Hh) as (<- & ? & ?).
    by apply Hact.
  - intros p i Hin h0 [[<- <-]|[Hne E0]]%lookup_insert_Some.
    + rewrite D1, D5. by apply (mo_published _ Hok p id Hin).
    + by apply (mo_published _ Hok p i Hin).
Qed.

(** What the write does to the cells. *)
Lemma set_holder_cells m id h h' p :
  map_ok m -> heap m !! id = Some h -> h_pos h' = h_pos h ->
  cells (set_holder m id h') p =
    if decide (chunks m !! p = Some id) then Some (cell_of id h') else cells m p.
Proof.
  intros Hok Hh Ep. unfold cells. simpl. destruct (chunks m !! p) as [i|]; [|done]. simpl.
  case_decide as E.
  - injection E as ->. by rewrite lookup_insert_eq.
  - rewrite lookup_insert_ne by congruence. done.
Qed.

(** ** What a phase of the commit leaves alone *)

Record holder_drives (h h' : ChunkHolder) : Prop := {
  hd_pos : h_pos h' = h_pos h;
  hd_load : h_load h' = h_load h;
  hd_sim : h_sim h' = h_sim h;
  hd_init : h_full_init h = true -> h_full_init h' = true;
  hd_level : forall b, h_level h = Some b -> h_level h' = Some b;
}.

(** The readiness phases change readiness words, pending entries and the tick scheduler;
    everything else moves only as the other threads make it. *)
Record drives m m' : Prop := {
  dr_ok : map_ok m';
  dr_chunks : chunks m' = chunks m;
  dr_unloading : unloading_chunks m' = unloading_chunks m;
  dr_deferred : deferred_revivals m' = deferred_revivals m;
  dr_snapshot : ticking_chunks m' = ticking_chunks m;
  dr_contributors : contributors (full_neighborhood m') = contributors (full_neighborhood m);
  dr_counts : nb_counts (full_neighborhood m') = nb_counts (full_neighborhood m);
  dr_dirty : dirty_centers (full_neighborhood m') = dirty_centers (full_neighborhood m);
  dr_heap : forall id, option_Forall2 holder_drives (heap m !! id) (heap m' !! id);
  dr_announced : forall id h, heap m !! id = Some h -> announced m (h_pos h) id -> announced m' (h_pos h) id;
  dr_new_full : forall id h h', heap m !! id = Some h -> heap m' !! id = Some h' ->
    h_full_init h' = true -> h_full_init h = true \/ announced m' (h_pos h) id;
  dr_idle : forall id h h', heap m !! id = Some h -> heap m' !! id = Some h' ->
    unloading_chunks m !! h_pos h = Some id -> h_readiness h' = h_readiness h;
}.

#[global] Instance holder_drives_refl : Reflexive holder_drives.
Proof. intros h. by split. Qed.

#[global] Instance holder_drives_trans : Transitive holder_drives.
Proof.
  intros h1 h2 h3 [A1 A2 A3 A4 A5] [B1 B2 B3 B4 B5]. split; [congruence..|auto|auto].
Qed.

Lemma evolves_drives m m' : map_ok m' -> evolves m m' -> drives m m'.
Proof.
  intros Hok [E1 E2 E3 E4 E5 E6 E7 E8 E9]. split; try done; try congruence.
  - intros id. destruct (E7 id) as [h h' []|]; by constructor.
  - intros id h h' Hh Hh' _. specialize (E7 id). rewrite Hh, Hh' in E7. inversion E7 as [? ? []|]; subst. done.
Qed.

Lemma drives_heap m m' id h : drives m m' -> heap m !! id = Some h ->
  exists h', heap m' !! id = Some h' /\ holder_drives h h'.
Proof. intros Hd E. pose proof (dr_heap _ _ Hd id) as F. rewrite E in F. inversion F; eauto. Qed.

Lemma drives_heap_inv m m' id h' : drives m m' -> heap m' !! id = Some h' ->
  exists h, heap m !! id = Some h /\ holder_drives h h'.
Proof. intros Hd E. pose proof (dr_heap _ _ Hd id) as F. rewrite E in F. inversion F; eauto. Qed.

Lemma drives_trans m1 m2 m3 : drives m1 m2 -> drives m2 m3 -> drives m1 m3.
Proof.
  intros H12 H23. split; try (destruct H12, H23; congruence).
  - intros id. pose proof (dr_heap _ _ H12 id) as F. pose proof (dr_heap _ _ H23 id) as G.
    inversion F as [h1 h2 H E1 E2|E1 E2]; rewrite <- E2 in G; inversion G; constructor. by etransitivity.
  - intros id h1 E A. destruct (drives_heap _ _ id h1 H12 E) as (h2 & E2 & He). rewrite <- (hd_pos _ _ He).
    apply (dr_announced _ _ H23 id h2 E2). rewrite (hd_pos _ _ He). by apply (dr_announced _ _ H12 id h1).
  - intros id h1 h3 E1 E3 I3. destruct (drives_heap _ _ id h1 H12 E1) as (h2 & E2 & He).
    destruct (dr_new_full _ _ H23 id h2 h3 E2 E3 I3) as [I2|A]; [|right; by rewrite <- (hd_pos _ _ He)].
    destruct (dr_new_full _ _ H12 id h1 h2 E1 E2 I2) as [I1|A]; [by left|]. right.
    rewrite <- (hd_pos _ _ He). apply (dr_announced _ _ H23 id h2 E2). by rewrite (hd_pos _ _ He).
  - intros id h1 h3 E1 E3 Hu. destruct (drives_heap _ _ id h1 H12 E1) as (h2 & E2 & He).
    rewrite (dr_idle _ _ H23 id h2 h3 E2 E3), (dr_idle _ _ H12 id h1 h2 E1 E2 Hu); [done|].
    by rewrite (hd_pos _ _ He), (dr_unloading _ _ H12).
Qed.

Lemma drives_refl m : map_ok m -> drives m m.
Proof. intros Hok. by apply evolves_drives. Qed.

(** A write to one holder is such a change. *)
Lemma set_holder_drives m id h h' :
  heap m !! id = Some h -> holder_drives h h' -> h_full_init h' = h_full_init h ->
  (unloading_chunks m !! h_pos h = Some id -> h_readiness h' = h_readiness h) ->
  map_ok (set_holder m id h') -> drives m (set_holder m id h').
Proof.
  intros Hh Hd Hi Hu Hok. split; try done.
  - intros i. simpl. destruct (decide (i = id)) as [->|Hne].
    + rewrite Hh, lookup_insert_eq. by constructor.
    + rewrite lookup_insert_ne by done. destruct (heap m !! i); by constructor.
  - intros i h0 h1 E0. simpl. destruct (decide (i = id)) as [->|Hne].
    + rewrite lookup_insert_eq. intros [= <-]. rewrite Hh in E0. injection E0 as <-. rewrite Hi. by left.
    + rewrite lookup_insert_ne by done. rewrite E0. intros [= <-]. by left.
  - intros i h0 h1 E0. simpl. destruct (decide (i = id)) as [->|Hne].
    + rewrite lookup_insert_eq. intros [= <-]. rewrite Hh in E0. injection E0 as <-. done.
    + rewrite lookup_insert_ne by done. rewrite E0. by intros [= <-].
Qed.

(** ** Transitions *)

Definition retarget (cl : cell) (target : TickingReadiness) : cell :=
  if decide (c_ready cl = target) then cl
  else mkCell (c_id cl) (c_load cl) (c_sim cl) target (c_generation cl + 1).

Definition same_membership (cl cl' : cell) : bool :=
  bool_decide (ticking_snapshot_membership (c_ready cl) (c_sim cl) =
               ticking_snapshot_membership (c_ready cl') (c_sim cl')).

Definition MAX_GENERATION : Z := 2 ^ 62 - 1.

(** A transition sets the readiness of the candidate's cell and reports whether the
    snapshot membership changed. *)
Lemma wp_transition c cl (Q : bool -> ChunkMap T -> Prop) m :
  map_ok m -> cells m (ca_pos c) = Some cl -> c_id cl = ca_holder c ->
  c_generation cl < MAX_GENERATION ->
  (forall m', drives m m' -> full_neighborhood m' = full_neighborhood m ->
     (forall p, cells m' p = if decide (p = ca_pos c) then Some (retarget cl (ca_target c)) else cells m p) ->
     Q (negb (same_membership cl (retarget cl (ca_target c)))) m') ->
  wp (transition_candidate c) Q m.
Proof.
  intros Hok Hcl Hid Hgen HQ. apply cells_Some in Hcl as (h & Hp & Hh & Ecl). rewrite Hid in *.
  pose proof (mo_holder _ Hok _ h Hh) as Hho. destruct (ho_word _ _ _ Hho) as [Hu [r Hr]].
  assert (readiness_of h = r) as Er by by (unfold readiness_of, ticking_readiness; rewrite Hr).
  destruct (active_holder m (ca_pos c) _ h Hok Hp Hh) as (Hpos & Hlc & Hlv).
  assert (c_ready cl = r) as Ecr by by rewrite Ecl.
  assert (c_sim cl = holder_simulation_level h) as Ecs by by rewrite Ecl.
  pose proof (transition_spec h (ca_target c) r Hu Hr) as Ht.
  rewrite Ecl in Hgen. specialize (Ht Hgen). unfold transition_candidate. apply wp_bind.
  unfold retarget, same_membership in HQ. rewrite Ecr in HQ. destruct (decide (r = ca_target c)) as [Et|Et].
  - apply (wp_update_holder _ h _ h None); [done|done|]. apply wp_ret.
    assert (set_holder m (ca_holder c) h = m) as ->.
    { unfold set_holder, set_heap. rewrite insert_id by done. by destruct m. }
    replace false with (negb (bool_decide (ticking_snapshot_membership r (c_sim cl) =
      ticking_snapshot_membership (c_ready cl) (c_sim cl)))) by (rewrite Ecr; by rewrite bool_decide_true).
    apply HQ; [by apply drives_refl|done|]. intros p. destruct (decide (p = ca_pos c)) as [->|]; [|done].
    apply cells_Some. rewrite Hid. eauto.
  - destruct Ht as (w & E & Hw & Hwr & Hwg).
    apply (wp_update_holder _ h _ (set_h_readiness w h) (Some r)); [done|done|]. simpl.
    apply wp_bind, (wp_read_holder _ (set_h_readiness w h)); [by simpl; rewrite lookup_insert_eq|].
    apply wp_ret. simpl in HQ.
    assert (map_ok (set_holder m (ca_holder c) (set_h_readiness w h))) as Hok'.
    { apply (set_holder_ok m _ h); try done.
      - split; try done. intros _. split; [done|eauto].
      - intros _. split; [done|]. simpl. intros Hc. rewrite Hpos in Hc.
        destruct (mo_contributors _ Hok _ _ Hc) as (_ & h0 & E0 & _ & F). rewrite Hh in E0. by injection E0 as <-.
      - intros (A & _). rewrite (mo_disjoint _ Hok (h_pos h)) in A; [done|]. by rewrite Hpos, Hp. }
    rewrite bool_decide_not. change (holder_simulation_level (set_h_readiness w h)) with
      (holder_simulation_level h). rewrite <- Ecs.
    apply HQ; [|done|].
    { apply (set_holder_drives m _ h); try done. intros A.
      rewrite (mo_disjoint _ Hok (h_pos h)) in A; [done|]. by rewrite Hpos, Hp. }
    intros p. rewrite (set_holder_cells m _ h) by done.
    destruct (decide (chunks m !! p = Some (ca_holder c))) as [E1|E1].
    + rewrite decide_True; [|destruct (active_holder m p _ h Hok E1 Hh) as [E2 _]; congruence].
      rewrite Ecl. unfold cell_of, readiness_of, ticking_readiness. simpl. by rewrite Hwr, Hwg.
    + rewrite decide_False; [done|]. by intros ->.
Qed.

(** ** Candidates *)

(** The readiness that a level and the neighbourhood allow. *)
Definition allowed_readiness (level : option ChunkTicketLevel) (counts : FullNeighborhoodCounts)
  : TickingReadiness :=
  if is_entity_ticking level && entity_ticking_ready counts then EntityTicking
  else if is_block_ticking level && block_ticking_ready counts then BlockTicking
  else Unready.

Definition effective_level (lv : option (gmap ChunkPos (option ChunkTicketLevel))) (p : ChunkPos) (cl : cell)
  : option ChunkTicketLevel :=
  match levels ← lv; levels !! p with Some level => level | None => c_load cl end.

Definition candidate_at m (lv : option (gmap ChunkPos (option ChunkTicketLevel))) (p : ChunkPos)
  : option TickingReadinessCandidate :=
  cl ← cells m p;
  Some (mkCandidate p (c_id cl) (desired_ticking_readiness (effective_level lv p cl))
          (allowed_readiness (effective_level lv p cl) (counts_at (full_neighborhood m) p))).

Lemma is_full_ready_producers h ps : producers_ok h ps -> is_full_ready h = Some (h_full_init h).
Proof.
  intros Hps. unfold is_full_ready. destruct (h_full_init h) eqn:Hi; [|done].
  pose proof (po_init _ _ Hps Hi) as H12. unfold published_status, try_chunk. rewrite H12. simpl.
  destruct (proj2 (po_data _ _ Hps)) as [c Hc]; [lia|]. by rewrite Hc.
Qed.

Lemma is_full_ready_init m id h : map_ok m -> heap m !! id = Some h -> is_full_ready h = Some (h_full_init h).
Proof.
  intros Hok Hh. exact (is_full_ready_producers h _ (ho_producers _ _ _ (mo_holder _ Hok id h Hh))).
Qed.

Lemma near_self r p : 0 <= r -> near r p p.
Proof. unfold near. lia. Qed.

(** Where the neighbourhood is Full the chunk itself is. *)
Lemma ready_contributor m p : map_ok m -> ChunkPos_ok p ->
  block_ticking_ready (counts_at (full_neighborhood m) p) = true \/
  entity_ticking_ready (counts_at (full_neighborhood m) p) = true ->
  exists id, full_holder m p id.
Proof.
  intros Hok Hp Hr. destruct (ready_iff _ p (mo_neighborhood _ Hok) Hp) as [Hb He].
  assert (is_Some (contributors (full_neighborhood m) !! p)) as [id Hid].
  { destruct Hr as [Hr|Hr]; [apply (proj1 Hb Hr)|apply (proj1 He Hr)]; apply near_self; lia. }
  exists id. by apply (mo_contributors _ Hok).
Qed.

Lemma target_is_allowed m p id h level :
  map_ok m -> chunks m !! p = Some id -> heap m !! id = Some h ->
  target_ticking_readiness h level (counts_at (full_neighborhood m) p) =
    Some (allowed_readiness level (counts_at (full_neighborhood m) p)).
Proof.
  intros Hok Hp Hh. unfold target_ticking_readiness. rewrite (is_full_ready_init m id h Hok Hh). simpl.
  destruct (h_full_init h) eqn:Hi; [done|]. simpl. unfold allowed_readiness.
  destruct (active_holder m p id h Hok Hp Hh) as (Hpos & _ & _).
  pose proof (ho_pos _ _ _ (mo_holder _ Hok id h Hh)) as Hpok. rewrite Hpos in Hpok.
  pose proof (ready_contributor m p Hok Hpok) as Hr.
  assert (~ exists id, full_holder m p id) as Hno.
  { intros (id' & A & h0 & E0 & B & _). rewrite Hp in A. injection A as <-. congruence. }
  destruct (entity_ticking_ready _) eqn:Ee; [destruct Hno; auto|]. rewrite andb_false_r.
  destruct (block_ticking_ready _) eqn:Eb; [destruct Hno; auto|]. by rewrite andb_false_r.
Qed.

Lemma candidate_at_evolves m m' lv p : evolves m m' -> candidate_at m' lv p = candidate_at m lv p.
Proof. intros He. unfold candidate_at. by rewrite (evolves_cells m m' p He), (ev_neighborhood _ _ He). Qed.

Lemma wp_readiness_candidates ps lv m :
  map_ok m ->
  wp (readiness_candidates ((fun p => (p, counts_at (full_neighborhood m) p)) <$> ps) lv)
    (fun cs m' => map_ok m' /\ evolves m m' /\ cs = omap (candidate_at m lv) ps) m.
Proof.
  intros Hok. unfold readiness_candidates.
  eapply wp_mono; [|apply (wp_filter_map _ _ (fun rest acc m1 => map_ok m1 /\ evolves m m1 /\
    exists ps1 ps2, ps = ps1 ++ ps2 /\ rest = (fun p => (p, counts_at (full_neighborhood m) p)) <$> ps2 /\
      acc = omap (candidate_at m lv) ps1)) with (acc := [])].
  - intros cs m' (Hok' & He & ps1 & ps2 & -> & E & Ecs). split_and!; try done.
    symmetry in E. apply fmap_nil_inv in E as ->. by rewrite app_nil_r.
  - by intros ? ? ? (? & _).
  - intros l acc m1 m2 (_ & He & H) Hok2 He2. split; [done|]. split; [by etransitivity|done].
  - intros x l acc m1 (Hok1 & He1 & ps1 & ps2 & -> & El & ->).
    destruct ps2 as [|p ps2]; [done|]. injection El as -> ->.
    assert (candidate_at m1 lv p = candidate_at m lv p) as Ec by by apply candidate_at_evolves.
    assert (forall o, o = candidate_at m lv p -> map_ok m1 /\ evolves m m1 /\ exists qs1 qs2,
      ps1 ++ p :: ps2 = qs1 ++ qs2 /\
      (fun p => (p, counts_at (full_neighborhood m) p)) <$> ps2 =
        (fun p => (p, counts_at (full_neighborhood m) p)) <$> qs2 /\
      omap (candidate_at m lv) ps1 ++ match o with Some b => [b] | None => [] end =
        omap (candidate_at m lv) qs1) as Hdone.
    { intros o ->. split_and!; try done. exists (ps1 ++ [p]), ps2.
      rewrite <- (assoc_L (++)), omap_app. split_and!; try done; simpl; by destruct (candidate_at m lv p). }
    simpl. apply wp_bind, wp_get. unfold candidate_at, cells in Ec.
    destruct (chunks m1 !! p) as [id|] eqn:Hp; [|apply wp_ret; by apply (Hdone None)].
    destruct (mo_chunks _ Hok1 p id Hp) as (h & Hh & _).
    apply wp_bind, (wp_read_holder id h); [done|].
    apply wp_bind. eapply wp_expect.
    { rewrite <- (ev_neighborhood _ _ He1). by apply (target_is_allowed m1 p id). }
    apply wp_ret. refine (Hdone (Some _) _).
    unfold candidate_at. rewrite <- (evolves_cells m m1 p He1). unfold cells. rewrite Hp. simpl. rewrite Hh. simpl.
    by rewrite (ev_neighborhood _ _ He1).
  - split_and!; try done. by exists [], ps.
Qed.

(** ** Loops over candidates *)

(** Candidates name distinct positions, with the holder active there. *)
Definition candidates_ok m (cs : list TickingReadinessCandidate) : Prop :=
  NoDup (ca_pos <$> cs) /\
  Forall (fun c => exists cl, cells m (ca_pos c) = Some cl /\ c_id cl = ca_holder c) cs.

(** What a loop over candidates did: [R] relates the cell of each candidate before and
    after, the other cells are unchanged, and when the flag is down no membership in the
    ticking snapshot changed. *)
Record cells_moved (R : TickingReadinessCandidate -> cell -> cell -> ChunkMap T -> Prop)
  (cs : list TickingReadinessCandidate) m (b : bool) m' : Prop := {
  cm_drives : drives m m';
  cm_neighborhood : full_neighborhood m' = full_neighborhood m;
  cm_candidates : Forall (fun c => forall cl, cells m (ca_pos c) = Some cl ->
    exists cl', cells m' (ca_pos c) = Some cl' /\ R c cl cl' m') cs;
  cm_others : forall p, p ∉ (ca_pos <$> cs) -> cells m' p = cells m p;
  cm_membership : b = false -> forall p cl cl', cells m p = Some cl -> cells m' p = Some cl' ->
    same_membership cl cl' = true;
}.

Lemma same_membership_refl cl : same_membership cl cl = true.
Proof. by apply bool_decide_eq_true. Qed.

Lemma same_membership_trans cl1 cl2 cl3 :
  same_membership cl1 cl2 = true -> same_membership cl2 cl3 = true -> same_membership cl1 cl3 = true.
Proof. unfold same_membership. rewrite !bool_decide_eq_true. congruence. Qed.

Section CellLoop.
Context (R : TickingReadinessCandidate -> cell -> cell -> ChunkMap T -> Prop).
Context (f : TickingReadinessCandidate -> prog (T := T) bool) (m : ChunkMap T) (cs : list TickingReadinessCandidate).
Context (Hstable : forall c cl cl' m1 m2, R c cl cl' m1 -> drives m1 m2 -> R c cl cl' m2).
Context (Hstep : forall c cl m1, c ∈ cs -> drives m m1 -> cells m1 (ca_pos c) = Some cl -> c_id cl = ca_holder c ->
  full_neighborhood m1 = full_neighborhood m -> cells m (ca_pos c) = Some cl ->
  wp (f c) (fun b m2 => drives m1 m2 /\ full_neighborhood m2 = full_neighborhood m1 /\
    exists cl', R c cl cl' m2 /\ (b = false -> same_membership cl cl' = true) /\
      forall p, cells m2 p = if decide (p = ca_pos c) then Some cl' else cells m1 p) m1).

Lemma wp_cells_loop : map_ok m -> candidates_ok m cs ->
  wp (any_prog cs f) (cells_moved R cs m) m.
Proof.
  intros Hok [Hnd Hcs].
  eapply wp_mono; [|apply (wp_any cs f (fun rest b m1 => exists done, cs = done ++ rest /\
    cells_moved R done m b m1) m false)].
  - intros b m' (done & E & Hm). rewrite app_nil_r in E. subst done. done.
  - intros l b m1 (done & _ & Hm). exact (dr_ok _ _ (cm_drives _ _ _ _ _ Hm)).
  - intros l b m1 m2 (done & E & [M1 M2 M3 M4 M5]) Hok2 He. exists done. split; [done|].
    pose proof (evolves_drives _ _ Hok2 He) as Hd. split.
    + by apply (drives_trans m m1).
    + by rewrite (ev_neighborhood _ _ He).
    + eapply Forall_impl; [exact M3|]. intros c Hc cl Hcl. destruct (Hc cl Hcl) as (cl' & E' & HR).
      exists cl'. rewrite (evolves_cells m1 m2 _ He). eauto.
    + intros p Hp. rewrite (evolves_cells m1 m2 _ He). auto.
    + intros Hb p cl cl' Hcl. rewrite (evolves_cells m1 m2 _ He). eauto.
  - intros c rest b m1 (done & E & [M1 M2 M3 M4 M5]). subst cs.
    assert ((ca_pos c ∉ (ca_pos <$> done)) /\ (ca_pos c ∉ (ca_pos <$> rest))) as [Hnew Hnew'].
    { rewrite fmap_app in Hnd. apply NoDup_app in Hnd as (_ & H1 & [H2 _]%NoDup_cons). split; [|done].
      intros Hin. apply (H1 _ Hin). left. }
    rewrite Forall_app, Forall_cons in Hcs. destruct Hcs as (_ & (cl & Hcl & Hid) & _).
    eapply wp_mono; [|apply (Hstep c cl m1); try done; [set_solver|by rewrite M4]].
    intros b' m2 (D & N & cl' & HR & Hb & Hcells). exists (done ++ [c]).
    split; [by rewrite <- (assoc_L (++))|]. split.
    + by apply (drives_trans m m1).
    + congruence.
    + apply Forall_app. split.
      * rewrite Forall_forall in M3. apply Forall_forall. intros c0 Hc0 cl0 Hcl0.
        destruct (M3 c0 Hc0 cl0 Hcl0) as (cl0' & E0 & R0). exists cl0'. split; [|eauto].
        rewrite Hcells, decide_False; [done|]. intros Eq. apply Hnew. rewrite <- Eq. by apply list_elem_of_fmap_2.
      * constructor; [|done]. intros cl0 Hcl0. rewrite Hcl in Hcl0. injection Hcl0 as <-.
        exists cl'. rewrite Hcells, decide_True by done. done.
    + intros p Hp. rewrite fmap_app, elem_of_app in Hp. rewrite Hcells, decide_False; [auto|].
      intros ->. apply Hp. right. by left.
    + intros [Hb1 Hb2]%orb_false_iff p cl0 cl2 H0 H2. rewrite Hcells in H2. case_decide as Ep.
      * subst p. rewrite Hcl in H0. injection H0 as <-. injection H2 as <-. auto.
      * eauto.
  - exists []. split; [done|]. split; try done.
    + by apply drives_refl.
    + intros _ p cl cl' -> [= <-]. apply same_membership_refl.
Qed.
End CellLoop.

Lemma rank_inj r r' : rank r = rank r' -> r = r'.
Proof. by destruct r, r'. Qed.

Definition demoted (c : TickingReadinessCandidate) (cl cl' : cell) m : Prop :=
  cl' = if rank (c_ready cl) <=? rank (ca_target c) then cl else retarget cl (ca_target c).

(** Whether the chunk of [id] can still reach its world. *)
Definition has_world m (id : Z) (b : bool) : Prop := exists h, heap m !! id = Some h /\ h_level h = Some b.

Definition promoted (c : TickingReadinessCandidate) (cl cl' : cell) m : Prop :=
  if rank (ca_target c) <=? rank (c_ready cl) then cl' = cl
  else (cl' = retarget cl (ca_target c) /\ (c_ready cl = Unready -> has_world m (c_id cl) true)) \/
       (cl' = cl /\ c_ready cl = Unready /\ has_world m (c_id cl) false).

(** Room for one more transition. *)
Definition has_room (k : Z) m (cs : list TickingReadinessCandidate) : Prop :=
  Forall (fun c => forall cl, cells m (ca_pos c) = Some cl -> c_generation cl + k <= MAX_GENERATION) cs.

Lemma has_world_drives m m' id b : has_world m id b -> drives m m' -> has_world m' id b.
Proof.
  intros (h & Hh & Hl) Hd. destruct (drives_heap _ _ _ _ Hd Hh) as (h' & Hh' & D).
  exists h'. split; [done|]. by apply (hd_level _ _ D).
Qed.

Lemma wp_demotions cs m :
  map_ok m -> candidates_ok m cs -> has_room 1 m cs ->
  wp (apply_readiness_demotions cs) (cells_moved demoted cs m) m.
Proof.
  intros Hok Hcs Hroom. apply wp_cells_loop; [done| |done|done].
  intros c cl m1 Hc Hd Hcl Hid Hn Hcl0. pose proof (dr_ok _ _ Hd) as Hok1.
  pose proof Hcl as (h & Hp & Hh & Ecl)%cells_Some. rewrite Hid in Hp, Hh.
  apply wp_bind, (wp_read_holder _ h); [done|].
  apply wp_bind. eapply wp_expect; [by apply (ticking_readiness_some m1 (ca_holder c))|].
  assert (c_ready cl = readiness_of h) as Er by by rewrite Ecl.
  destruct (rank (readiness_of h) <=? rank (ca_target c)) eqn:Ele.
  - apply wp_ret. split; [by apply drives_refl|]. split; [done|]. exists cl.
    split; [unfold demoted; by rewrite Er, Ele|]. split; [intros; apply same_membership_refl|].
    intros p. case_decide; [by subst|done].
  - apply (wp_transition c cl); try done.
    { unfold has_room in Hroom. rewrite Forall_forall in Hroom. specialize (Hroom c Hc cl Hcl0). lia. }
    intros m2 Hd2 Hn2 Hc2. split; [done|]. split; [done|]. eexists. split; [unfold demoted; by rewrite Er, Ele|].
    split; [by intros ?%negb_false_iff|done].
Qed.

(** A contributor whose chunk can reach the world has its ticks registered. *)
Lemma contributor_registered m p id h :
  map_ok m -> full_holder m p id -> heap m !! id = Some h -> h_level h = Some true ->
  is_Some (to_registered (scheduled_ticks m) !! p).
Proof.
  intros Hok (Hp & h0 & E0 & Hi & _) Hh Hl. rewrite Hh in E0. injection E0 as <-.
  exists id. apply (mo_registered _ Hok). exists h.
  destruct (active_holder m p id h Hok Hp Hh) as (Hpos & _ & _). split_and!; try done.
  pose proof (ho_producers _ _ _ (mo_holder _ Hok id h Hh)) as Hps. pose proof (po_init _ _ Hps Hi) as H12.
  unfold h_level in Hl. unfold holder_ticks. destruct (h_data h) as [c|] eqn:Hc; [|done]. simpl in *.
  injection Hl as Hl. rewrite (proj2 (po_runtime _ _ Hps c Hc)) by auto. by rewrite Hl, H12.
Qed.

Lemma wp_unpack p m (Q : unit -> ChunkMap T -> Prop) :
  map_ok m -> is_Some (to_registered (scheduled_ticks m) !! p) ->
  (forall m', drives m m' -> full_neighborhood m' = full_neighborhood m ->
     (forall q, cells m' q = cells m q) -> Q () m') ->
  wp (unpack_scheduled_ticks p) Q m.
Proof.
  intros Hok Hr HQ. destruct (to_unpack_law (scheduled_ticks m) p (mo_ticks _ Hok) Hr) as (t & E & L1 & L2 & L3).
  unfold unpack_scheduled_ticks. apply wp_bind, wp_get. apply wp_bind. eapply wp_expect; [exact E|].
  simpl. apply wp_put. apply HQ; [|done|done]. split; try done.
  - split; simpl; try apply Hok; try done.
    + intros id h Hh. destruct (mo_holder _ Hok id h Hh) as [I1 I2 I3 I4 I5 I6 I7 I8]. split; try done.
      simpl. by rewrite L3.
    + intros id Hid. rewrite L3. by apply (mo_fresh _ Hok).
    + intros q id. rewrite L2. apply (mo_registered _ Hok).
  - intros id h h'. simpl. intros -> [= ->]. by left.
  - intros id h h'. simpl. by intros -> [= ->].
Qed.

Lemma wp_promotions cs m :
  map_ok m -> candidates_ok m cs -> has_room 1 m cs ->
  Forall (fun c => exists level, ca_target c =
    allowed_readiness level (counts_at (full_neighborhood m) (ca_pos c))) cs ->
  wp (any_prog cs promote_candidate) (cells_moved promoted cs m) m.
Proof.
  intros Hok Hcs Hroom Htarget. apply wp_cells_loop; [| |done|done].
  { unfold promoted. intros c cl cl' m1 m2 HR Hd. destruct (_ <=? _); [done|].
    destruct HR as [[? Hw]|(? & ? & ?)]; [left|right; split_and!; try done; by apply (has_world_drives m1)].
    split; [done|]. intros Hu. apply (has_world_drives m1); auto. }
  intros c cl m1 Hc Hd Hcl Hid Hn Hcl0. pose proof (dr_ok _ _ Hd) as Hok1.
  pose proof Hcl as (h & Hp & Hh & Ecl)%cells_Some. rewrite Hid in Hp, Hh.
  apply wp_bind, (wp_read_holder _ h); [done|].
  apply wp_bind. eapply wp_expect; [by apply (ticking_readiness_some m1 (ca_holder c))|].
  assert (c_ready cl = readiness_of h) as Er by by rewrite Ecl. rewrite <- Er.
  assert (forall m2, drives m1 m2 -> full_neighborhood m2 = full_neighborhood m1 ->
    (forall p, cells m2 p = cells m1 p) -> (rank (ca_target c) <=? rank (c_ready cl)) = false ->
    (c_ready cl = Unready -> has_world m1 (c_id cl) true) ->
    wp (transition_candidate c) (fun b m3 => drives m1 m3 /\ full_neighborhood m3 = full_neighborhood m1 /\
      exists cl', promoted c cl cl' m3 /\ (b = false -> same_membership cl cl' = true) /\
        forall p, cells m3 p = if decide (p = ca_pos c) then Some cl' else cells m1 p) m2) as Htrans.
  { intros m2 Hd2 Hn2 Hc2 Ele Hw. apply (wp_transition c cl).
    - exact (dr_ok _ _ Hd2).
    - by rewrite Hc2.
    - done.
    - unfold has_room in Hroom. rewrite Forall_forall in Hroom. specialize (Hroom c Hc cl Hcl0). lia.
    - intros m3 Hd3 Hn3 Hc3. split; [by apply (drives_trans m1 m2)|]. split; [congruence|].
      eexists. split.
      { unfold promoted. rewrite Ele. left. split; [done|]. intros Hu.
        apply (has_world_drives m1); [by apply Hw|by apply (drives_trans m1 m2)]. }
      split; [by intros ?%negb_false_iff|]. intros p. rewrite Hc3. case_decide; [done|]. by rewrite Hc2. }
  assert (forall b : bool, promoted c cl cl m1 -> wp (mret false) (fun b m3 => drives m1 m3 /\
    full_neighborhood m3 = full_neighborhood m1 /\
      exists cl', promoted c cl cl' m3 /\ (b = false -> same_membership cl cl' = true) /\
        forall p, cells m3 p = if decide (p = ca_pos c) then Some cl' else cells m1 p) m1) as Hstay.
  { intros _ HR. apply wp_ret. split; [by apply drives_refl|]. split; [done|]. exists cl.
    split; [done|]. split; [intros; apply same_membership_refl|]. intros p. case_decide; [by subst|done]. }
  destruct (rank (ca_target c) <=? rank (c_ready cl)) eqn:Ele.
  - apply (Hstay false). unfold promoted. by rewrite Ele.
  - case_decide as Hun; [|apply Htrans; try done; by apply drives_refl].
    rewrite Forall_forall in Htarget. destruct (Htarget c Hc) as [level Et].
    destruct (active_holder m1 _ _ h Hok1 Hp Hh) as (Hpos & _ & _).
    pose proof (ho_pos _ _ _ (mo_holder _ Hok1 _ h Hh)) as Hpok. rewrite Hpos in Hpok.
    assert (full_holder m1 (ca_pos c) (ca_holder c)) as Hfull.
    { destruct (ready_contributor m1 (ca_pos c) Hok1 Hpok) as (id & Hf).
      - rewrite Hn. rewrite Hun in Ele. unfold allowed_readiness in Et.
        destruct (is_entity_ticking level), (is_block_ticking level),
          (entity_ticking_ready _), (block_ticking_ready _); simpl in Et; rewrite Et in Ele; simpl in Ele; auto; done.
      - assert (id = ca_holder c) as <-; [|done]. destruct Hf as [A _]. congruence. }
    unfold post_process_generation, try_full_chunk, try_chunk.
    destruct Hfull as (_ & h0 & E0 & Hi & Hlv). rewrite Hh in E0. injection E0 as <-.
    pose proof (ho_producers _ _ _ (mo_holder _ Hok1 _ h Hh)) as Hps. pose proof (po_init _ _ Hps Hi) as H12.
    rewrite H12. simpl. destruct (proj2 (po_data _ _ Hps)) as [d Hdt]; [lia|]. rewrite Hdt.
    destruct (cd_level d) eqn:El.
    + apply wp_bind. apply wp_unpack; [done| |].
      * apply (contributor_registered m1 _ (ca_holder c) h); try done; [by split; [|exists h]|].
        unfold h_level. rewrite Hdt. simpl. by rewrite El.
      * intros m2 Hd2 Hn2 Hc2. apply Htrans; try done. intros _. rewrite Hid. exists h. split; [done|].
        unfold h_level. rewrite Hdt. simpl. by rewrite El.
    + apply (Hstay false). unfold promoted. rewrite Ele. right. split_and!; try done.
      rewrite Hid. exists h. split; [done|]. unfold h_level. rewrite Hdt. simpl. by rewrite El.
Qed.

(** ** Pending readiness *)

(** Counting save dependencies changes nothing else. *)
Lemma save_delta_ok m id d :
  map_ok m ->
  let m' := set_heap m (alter (if d =? 1 then add_save_dependency else drop_save_dependency) id (heap m)) in
  drives m m' /\ full_neighborhood m' = full_neighborhood m /\ forall p, cells m' p = cells m p.
Proof.
  intros Hok m'. set (f := if d =? 1 then add_save_dependency else drop_save_dependency) in m'.
  destruct (heap m !! id) as [h|] eqn:Hh.
  - assert (m' = set_holder m id (f h)) as ->.
    { unfold m', set_holder. f_equal. apply map_eq. intros i. destruct (decide (i = id)) as [->|Hne].
      - by rewrite lookup_alter_eq, lookup_insert_eq, Hh.
      - by rewrite lookup_alter_ne, lookup_insert_ne. }
    assert (driver_write h (f h) /\ holder_drives h (f h) /\ h_load (f h) = h_load h /\
      h_readiness (f h) = h_readiness h /\ cell_of id (f h) = cell_of id h /\ h_full_init (f h) = h_full_init h)
      as (W1 & W2 & W3 & W4 & W5 & W6) by (unfold f; destruct (d =? 1); split_and!; done).
    assert (map_ok (set_holder m id (f h))) as Hok'.
    { apply (set_holder_ok m id h); try done. unfold holder_load_level. rewrite W3. intros (A & B & C).
      split; [done|]. intros (D & h0 & E0 & _ & F)%(mo_contributors _ Hok). rewrite Hh in E0. by injection E0 as <-. }
    split; [by apply (set_holder_drives m id h)|]. split; [done|].
    intros p. rewrite (set_holder_cells m id h) by (done || apply W1). case_decide as E; [|done].
    unfold cells. rewrite E. simpl. rewrite Hh. simpl. by rewrite W5.
  - assert (m' = m) as ->; [|by split; [apply drives_refl|]].
    unfold m'. destruct m. unfold set_heap. simpl in *. f_equal. apply map_eq. intros i.
    destruct (decide (i = id)) as [->|Hne]; [by rewrite lookup_alter_eq, Hh|by rewrite lookup_alter_ne].
Qed.

Lemma save_deltas_ok m deltas :
  map_ok m ->
  let m' := apply_save_deltas m deltas in
  drives m m' /\ full_neighborhood m' = full_neighborhood m /\ forall p, cells m' p = cells m p.
Proof.
  unfold apply_save_deltas. revert m. induction deltas as [|[id d] deltas IH]; intros m Hok; simpl.
  { split; [by apply drives_refl|done]. }
  destruct (save_delta_ok m id d Hok) as (D1 & N1 & C1). set (m1 := set_heap _ _) in *.
  destruct (IH m1 (dr_ok _ _ D1)) as (D2 & N2 & C2).
  split; [by apply (drives_trans m m1)|]. split; [congruence|]. intros p. by rewrite C2, C1.
Qed.

Lemma set_pending_ok m n :
  map_ok m -> contributors n = contributors (full_neighborhood m) ->
  nb_counts n = nb_counts (full_neighborhood m) -> dirty_centers n = dirty_centers (full_neighborhood m) ->
  drives m (set_full_neighborhood m n) /\ forall p, cells (set_full_neighborhood m n) p = cells m p.
Proof.
  intros Hok E1 E2 E3. split; [|done]. split; try done.
  - split; simpl; try apply Hok.
    + intros id h Hh. by destruct (mo_holder _ Hok id h Hh).
    + destruct (mo_neighborhood _ Hok) as [N1 N2 N3]. unfold counts_at in *. rewrite <- E1, <- E2 in *. by split.
    + rewrite E1. apply (mo_contributors _ Hok).
  - intros id h h'. simpl. intros -> [= ->]. by left.
  - intros id h h'. simpl. by intros -> [= ->].
Qed.

(** Exactly the candidates below their desired readiness stay pending. *)
Definition pending_spec m (cs : list TickingReadinessCandidate) m' : Prop :=
  Forall (fun c => forall cl, cells m (ca_pos c) = Some cl ->
    pending_readiness (full_neighborhood m') !! ca_pos c =
      if rank (c_ready cl) <? rank (ca_desired c) then Some (c_id cl) else None) cs /\
  forall p, p ∉ (ca_pos <$> cs) ->
    pending_readiness (full_neighborhood m') !! p = pending_readiness (full_neighborhood m) !! p.

Lemma wp_update_pending cs m :
  map_ok m -> candidates_ok m cs ->
  wp (update_pending_readiness cs)
    (fun _ m' => drives m m' /\ (forall p, cells m' p = cells m p) /\ pending_spec m cs m') m.
Proof.
  intros Hok [Hnd Hcs]. unfold update_pending_readiness.
  eapply wp_mono; [|apply (wp_for cs _ (fun rest m1 => exists done, cs = done ++ rest /\
    drives m m1 /\ (forall p, cells m1 p = cells m p) /\ pending_spec m done m1))].
  - intros _ m' (done & E & H). rewrite app_nil_r in E. by subst done.
  - intros l m1 (done & _ & Hd & _). exact (dr_ok _ _ Hd).
  - intros l m1 m2 (done & E & Hd & Hc & Hp) Hok2 He. exists done. split; [done|]. split_and!.
    + apply (drives_trans m m1); [done|by apply evolves_drives].
    + intros p. by rewrite (evolves_cells m1 m2 p He).
    + unfold pending_spec. by rewrite (ev_neighborhood _ _ He).
  - intros c rest m1 (done & E & Hd & Hc & Hp). subst cs. pose proof (dr_ok _ _ Hd) as Hok1.
    assert (ca_pos c ∉ (ca_pos <$> done)) as Hnew.
    { rewrite fmap_app in Hnd. apply NoDup_app in Hnd as (_ & H1 & _). intros Hin. apply (H1 _ Hin). left. }
    rewrite Forall_app, Forall_cons in Hcs. destruct Hcs as (_ & (cl & Hcl & Hid) & _).
    pose proof Hcl as Hcl1. rewrite <- Hc in Hcl1. apply cells_Some in Hcl1 as (h & Hpc & Hh & Ecl).
    rewrite Hid in Hpc, Hh. assert (readiness_of h = c_ready cl) as Er by by rewrite Ecl.
    apply wp_bind, (wp_read_holder _ h); [done|].
    apply wp_bind. eapply wp_expect; [by apply (ticking_readiness_some m1 (ca_holder c))|]. rewrite Er.
    apply wp_bind, wp_get.
    set (n' := if rank (c_ready cl) <? rank (ca_desired c) then _ else _).
    assert (contributors n'.1 = contributors (full_neighborhood m1) /\
      nb_counts n'.1 = nb_counts (full_neighborhood m1) /\ dirty_centers n'.1 = dirty_centers (full_neighborhood m1) /\
      pending_readiness n'.1 = partial_alter (fun _ =>
        if rank (c_ready cl) <? rank (ca_desired c) then Some (ca_holder c) else None) (ca_pos c)
        (pending_readiness (full_neighborhood m1))) as (E1 & E2 & E3 & E4).
    { unfold n', ensure_pending_readiness, clear_pending_readiness.
      destruct (rank (c_ready cl) <? rank (ca_desired c)); [|done]. case_decide as Ep; [|done].
      split_and!; try done. simpl. by rewrite <- Ep, partial_alter_self. }
    clearbody n'. destruct n' as [n deltas]. simpl in *. apply wp_put. exists (done ++ [c]).
    split; [by rewrite <- (assoc_L (++))|].
    destruct (set_pending_ok m1 n Hok1 E1 E2 E3) as [D1 C1].
    destruct (save_deltas_ok _ deltas (dr_ok _ _ D1)) as (D2 & N2 & C2). split_and!.
    + apply (drives_trans m m1); [done|]. by eapply drives_trans.
    + intros p. by rewrite C2, C1.
    + unfold pending_spec. rewrite N2. simpl. rewrite E4. destruct Hp as [Hp1 Hp2]. split.
      * apply Forall_app. split; [|constructor; [|done]].
        -- rewrite Forall_forall in Hp1. apply Forall_forall. intros c0 Hc0 cl0 Hcl0.
           rewrite lookup_partial_alter_ne; [by apply Hp1|]. intros Eq. apply Hnew. rewrite Eq. by apply list_elem_of_fmap_2.
        -- intros cl0 Hcl0. rewrite Hcl in Hcl0. injection Hcl0 as <-. rewrite lookup_partial_alter_eq. by rewrite Hid.
      * intros p Hp. rewrite fmap_app, elem_of_app in Hp. rewrite lookup_partial_alter_ne; [apply Hp2; tauto|].
        intros Eq. apply Hp. right. subst p. by left.
  - exists []. split; [done|]. split; [by apply drives_refl|done].
Qed.
End Commit.
