(* ===== verification/ChunkMapEpoch.v ===== *)
(** * The phases of a commit

    The quiet state between two commits, and what each phase of [commit_scheduling_epoch]
    does to it: merging deferred revivals, demoting before the lifecycle changes, moving
    holders between the maps, reconciling the readiness index and rebuilding the ticking
    snapshot. *)

From S2P Require Import Prelude Positions ChunkPyramid ChunkTickets TickScheduler.
From S2P Require Import TickOwnership FullNeighborhood ChunkHolder ChunkMap ChunkMapInv.
From S2P Require Import ChunkMapCommit.

Section Epoch.
Context {T : Type} `{!TickOwnership T}.
Context (world_min_y world_height : Z).
Implicit Types m : ChunkMap T.

(** ** The quiet state *)

Abbreviation counts m p := (counts_at (full_neighborhood m) p).

(** As ready as level and neighbourhood allow, unless the chunk has lost its world. *)
Definition settled m (p : ChunkPos) (cl : cell) : Prop :=
  c_ready cl = allowed_readiness (c_load cl) (counts m p) \/
  (c_ready cl = Unready /\ has_world m (c_id cl) false).

Definition pending_of m (p : ChunkPos) : option Z :=
  cl ← cells m p;
  if rank (c_ready cl) <? rank (desired_ticking_readiness (c_load cl)) then Some (c_id cl) else None.

Definition membership (cl : cell) : bool * bool * bool :=
  ticking_snapshot_membership (c_ready cl) (c_sim cl).

(** The snapshot lists a chunk in a view exactly when its cell is a member of the view. *)
Definition indexed (block : list TickableChunk) (indices : list nat) (x : TickableChunk) : Prop :=
  exists i, i ∈ indices /\ block !! i = Some x.

Definition member m (view : bool * bool * bool -> bool) (x : TickableChunk) : Prop :=
  exists cl, cells m (tc_pos x) = Some cl /\ c_id cl = tc_holder x /\ view (membership cl) = true.

Definition snapshot_exact m : Prop :=
  let s := ticking_chunks m in
  NoDup (tc_pos <$> sn_block s) /\ NoDup (sn_random s) /\ NoDup (sn_entity s) /\
  forall x,
    (x ∈ sn_block s <-> member m (fun v => v.1.1) x) /\
    (indexed (sn_block s) (sn_random s) x <-> member m (fun v => v.1.2) x) /\
    (indexed (sn_block s) (sn_entity s) x <-> member m (fun v => v.2) x).

Definition sim_level_ok (sim : option ChunkTicketLevel) : Prop := forall l, sim = Some l -> level_ok l.

(** Every Full active holder that its level lets count is counted or announced. *)
Definition counted_or_announced m (p : ChunkPos) : Prop :=
  forall id, full_holder m p id ->
    contributors (full_neighborhood m) !! p = Some id \/ announced m p id.

(** Only a chunk that can reach its world ticks. *)
Definition worldly m : Prop := forall p cl, cells m p = Some cl -> c_ready cl <> Unready -> has_world m (c_id cl) true.

(** Everything but the snapshot is up to date. *)
Record poised m : Prop := {
  q_ok : map_ok m;
  q_dirty : dirty_centers (full_neighborhood m) = ∅;
  q_ready : forall p cl, cells m p = Some cl -> settled m p cl;
  q_world : worldly m;
  q_pending : forall p, pending_readiness (full_neighborhood m) !! p = pending_of m p;
  q_announced : forall p, counted_or_announced m p;
  q_deferred : forall p r, deferred_revivals m !! p = Some r ->
    cells m p = None /\ ChunkPos_ok p /\ level_ok (dr_load r) /\ sim_level_ok (dr_sim r);
}.

Definition quiet m : Prop := poised m /\ snapshot_exact m.

(** ** Changes *)

Record change_ok (c : LevelChange) : Prop := {
  co_pos : ChunkPos_ok (ch_pos c);
  co_level : sim_level_ok (ch_new_level c);
  co_sim : sim_level_ok (ch_new_simulation_level c);
}.

Definition changes_ok (changes : list LevelChange) : Prop :=
  NoDup (ch_pos <$> changes) /\ Forall change_ok changes.

Lemma new_levels_lookup changes p l : NoDup (ch_pos <$> changes) ->
  new_levels_of changes !! p = Some l <-> exists c, c ∈ changes /\ ch_pos c = p /\ ch_new_level c = l.
Proof.
  unfold new_levels_of. induction changes as [|c changes IH] using rev_ind; intros Hnd; simpl.
  { rewrite lookup_empty. split; [done|]. by intros (c & ?%elem_of_nil & _). }
  rewrite fmap_app in Hnd. apply NoDup_app in Hnd as (Hnd & Hc & _).
  rewrite foldl_snoc. destruct (decide (p = ch_pos c)) as [->|Hne].
  - rewrite lookup_insert_eq. split; [intros [= <-]; exists c; set_solver|].
    intros (c' & [Hc'| ->%list_elem_of_singleton]%elem_of_app & E & <-); [|done].
    exfalso. apply (Hc (ch_pos c')); [by apply list_elem_of_fmap_2|]. rewrite E. by left.
  - rewrite lookup_insert_ne by done. rewrite IH by done.
    split; intros (c' & Hc' & E & <-); exists c'; (split; [|done]); set_solver.
Qed.

Lemma new_levels_None changes p : NoDup (ch_pos <$> changes) ->
  new_levels_of changes !! p = None <-> p ∉ (ch_pos <$> changes).
Proof.
  intros Hnd. destruct (new_levels_of changes !! p) as [l|] eqn:E.
  - apply (new_levels_lookup changes p l Hnd) in E as (c & Hc & <- & _). split; [done|].
    intros []. by apply list_elem_of_fmap_2.
  - split; [|done]. intros _ (c & -> & Hc)%list_elem_of_fmap.
    assert (new_levels_of changes !! ch_pos c = Some (ch_new_level c)); [|congruence].
    apply new_levels_lookup; eauto.
Qed.

(** ** Simulation levels *)

Lemma wp_simulation_changes changes m :
  map_ok m ->
  wp (simulation_changes_ticking_snapshot changes)
    (fun b m' => map_ok m' /\ evolves m m' /\ (b = false -> forall c cl, c ∈ changes ->
       cells m (ch_pos c) = Some cl ->
       membership cl = ticking_snapshot_membership (c_ready cl) (ch_new_simulation_level c))) m.
Proof.
  intros Hok. unfold simulation_changes_ticking_snapshot.
  eapply wp_mono; [|apply (wp_any changes _ (fun rest b m1 => map_ok m1 /\ evolves m m1 /\
    exists done, changes = done ++ rest /\ (b = false -> forall c cl, c ∈ done -> cells m (ch_pos c) = Some cl ->
      membership cl = ticking_snapshot_membership (c_ready cl) (ch_new_simulation_level c))) m false)].
  - intros b m' (H1 & H2 & done & E & H3). rewrite app_nil_r in E. by subst done.
  - by intros ? ? ? (? & _).
  - intros l b m1 m2 (_ & He & H) Hok2 He2. split; [done|]. split; [by etransitivity|done].
  - intros c rest b m1 (Hok1 & He & done & -> & Hd).
    assert (forall b', (b' = false -> forall cl, cells m1 (ch_pos c) = Some cl ->
      membership cl = ticking_snapshot_membership (c_ready cl) (ch_new_simulation_level c)) ->
      map_ok m1 /\ evolves m m1 /\ exists done', done ++ c :: rest = done' ++ rest /\
        (b || b' = false -> forall c cl, c ∈ done' -> cells m (ch_pos c) = Some cl ->
          membership cl = ticking_snapshot_membership (c_ready cl) (ch_new_simulation_level c))) as Hdone.
    { intros b' Hb'. split; [done|]. split; [done|]. exists (done ++ [c]). split; [by rewrite <- (assoc_L (++))|].
      intros [H1 H2]%orb_false_iff c0 cl [Hc0| ->%list_elem_of_singleton]%elem_of_app Hcl; [by apply Hd|].
      apply Hb'; [done|]. by rewrite (evolves_cells m m1 _ He). }
    apply wp_bind, wp_get. destruct (chunks m1 !! ch_pos c) as [id|] eqn:Hp.
    + destruct (mo_chunks _ Hok1 _ _ Hp) as (h & Hh & _). apply wp_bind, (wp_read_holder id h); [done|].
      apply wp_bind. eapply wp_expect; [by apply (ticking_readiness_some m1 id)|]. apply wp_ret. apply Hdone.
      intros Hb cl (h0 & A & B & ->)%cells_Some. rewrite Hp in A. injection A as A. rewrite <- A in B.
      rewrite Hh in B. injection B as <-. apply bool_decide_eq_false in Hb. unfold membership. simpl.
      by apply dec_stable.
    + apply wp_ret. apply Hdone. intros _ cl (h0 & A & _)%cells_Some. congruence.
  - split; [done|]. split; [done|]. exists []. split; [done|]. by intros _ c cl ?%elem_of_nil.
Qed.

(** ** Demotions before the lifecycle changes *)

Definition lost (active : list (ChunkPos * Z * option ChunkTicketLevel)) : list ChunkPos :=
  (fun x => x.1.1) <$> filter (fun x => is_full_level x.2 = false) active.

Lemma remove_lost_progress active n :
  nb_ok n ->
  Forall (fun x => ChunkPos_ok x.1.1 /\ forall cur, contributors n !! x.1.1 = Some cur -> cur = x.1.2) active ->
  exists n', remove_lost_contributors active n = Ok n' /\ nb_progress n n' /\
    forall p, contributors n' !! p = if decide (p ∈ lost active) then None else contributors n !! p.
Proof.
  unfold remove_lost_contributors. revert n. induction active as [|[[pos id] level] active IH]; intros n Hok Hall.
  { exists n. split; [done|]. split; [by apply nb_progress_refl|]. intros p. rewrite decide_False; [done|].
    by intros ?%elem_of_nil. }
  apply Forall_cons in Hall as [[Hpos Hcur] Hall]. simpl in *. unfold lost. rewrite filter_cons. simpl.
  destruct (is_full_level level) eqn:Ef; simpl.
  - destruct (IH n Hok Hall) as (n' & E & P & C). exists n'. split; [done|]. split; [done|].
    intros p. by rewrite C.
  - destruct (remove_if_matches_progress n pos id Hok Hpos Hcur) as (n1 & -> & P1 & C1). simpl.
    destruct (IH n1 (np_ok _ _ P1)) as (n' & E & P & C).
    { eapply Forall_impl; [exact Hall|]. intros [[q i] l] [H1 H2]. split; [done|]. simpl in *.
      rewrite C1. intros cur [_ Hc]%lookup_delete_Some. auto. }
    exists n'. split; [done|]. split; [by apply (nb_progress_trans n n1)|].
    intros p. rewrite C, C1. destruct (decide (p = pos)) as [->|Hne].
    + rewrite lookup_delete_eq, (decide_True (P := pos ∈ _ :: _)) by by left. by case_decide.
    + rewrite lookup_delete_ne by done. unfold lost. case_decide as H1.
      * rewrite decide_True; [done|by right].
      * rewrite decide_False; [done|]. by intros [|]%elem_of_cons.
Qed.

Lemma mark_all_progress {A} (f : A -> ChunkPos) (l : list A) n :
  nb_ok n -> Forall (fun x => ChunkPos_ok (f x)) l ->
  let n' := foldl (fun n x => mark_dirty n (f x)) n l in
  nb_progress n n' /\ contributors n' = contributors n /\ Forall (fun x => f x ∈ dirty_centers n') l.
Proof.
  revert n. induction l as [|x l IH]; intros n Hok Hall; simpl.
  { split; [by apply nb_progress_refl|done]. }
  apply Forall_cons in Hall as [Hx Hl]. pose proof (mark_dirty_progress n (f x) Hok Hx) as P1.
  destruct (IH (mark_dirty n (f x)) (np_ok _ _ P1) Hl) as (P2 & C & D).
  split; [by apply (nb_progress_trans n (mark_dirty n (f x)))|]. split; [done|].
  constructor; [|done]. apply (np_dirty _ _ P2). simpl. set_solver.
Qed.

Lemma lost_active m changes p : p ∈ lost (active_changes m changes) <->
  exists c id, c ∈ changes /\ ch_pos c = p /\ chunks m !! p = Some id /\ is_full_level (ch_new_level c) = false.
Proof.
  unfold lost, active_changes. rewrite list_elem_of_fmap. split.
  - intros ([[q id] l] & -> & [Hf Hin]%list_elem_of_filter). apply list_elem_of_omap in Hin as (c & Hc & E).
    destruct (chunks m !! ch_pos c) as [i|] eqn:Ei; [|done]. simpl in *. injection E as <- <- <-. eauto 10.
  - intros (c & id & Hc & <- & Hid & Hf). exists (ch_pos c, id, ch_new_level c). split; [done|].
    apply list_elem_of_filter. split; [done|]. apply list_elem_of_omap. exists c. split; [done|]. by rewrite Hid.
Qed.

(** Contributors of a subset of the holders keep the map's invariant. *)
Lemma set_neighborhood_ok m n :
  map_ok m -> nb_ok n ->
  (forall p id, contributors n !! p = Some id -> full_holder m p id) ->
  map_ok (set_full_neighborhood m n).
Proof.
  intros Hok Hn Hc. split; simpl; try apply Hok; [|done|done].
  intros id h Hh. by destruct (mo_holder _ Hok id h Hh).
Qed.

(** The candidates for a set of dirty positions. *)
Lemma candidates_of_ok m lv ps :
  NoDup ps -> candidates_ok m (omap (candidate_at m lv) ps) /\
  forall p, p ∈ (ca_pos <$> omap (candidate_at m lv) ps) <-> p ∈ ps /\ is_Some (cells m p).
Proof.
  intros Hnd.
  assert (forall p c, candidate_at m lv p = Some c -> ca_pos c = p /\ exists cl, cells m p = Some cl /\ c_id cl = ca_holder c)
    as Hat.
  { intros p c. unfold candidate_at. destruct (cells m p) as [cl|]; [|done]. simpl. intros [= <-]. eauto. }
  assert (forall p, p ∈ (ca_pos <$> omap (candidate_at m lv) ps) <-> p ∈ ps /\ is_Some (cells m p)) as Hin.
  { intros p. rewrite list_elem_of_fmap. split.
    - intros (c & -> & (q & Hq & E)%list_elem_of_omap). destruct (Hat q c E) as (-> & cl & -> & _). eauto.
    - intros [Hp [cl Hcl]]. unfold candidate_at. eexists (mkCandidate p _ _ _). split; [done|].
      apply list_elem_of_omap. exists p. split; [done|]. rewrite Hcl. done. }
  split; [|done]. split.
  - clear Hin. induction Hnd as [|p ps Hp Hnd IH]; simpl; [constructor|].
    destruct (candidate_at m lv p) as [c|] eqn:E; [|done]. simpl. constructor; [|done].
    destruct (Hat p c E) as [-> _]. intros (c' & Ec & (q & Hq & E')%list_elem_of_omap)%list_elem_of_fmap.
    destruct (Hat q c' E') as [Eq _]. congruence.
  - apply Forall_forall. intros c (q & Hq & E)%list_elem_of_omap. destruct (Hat q c E) as (-> & ?). done.
Qed.

Definition demote (cl : cell) (target : TickingReadiness) : cell :=
  if rank (c_ready cl) <=? rank target then cl else retarget cl target.

Lemma demote_spec cl t :
  let cl' := demote cl t in
  c_id cl' = c_id cl /\ c_load cl' = c_load cl /\ c_sim cl' = c_sim cl /\
  c_generation cl <= c_generation cl' <= c_generation cl + 1 /\
  rank (c_ready cl') = Z.min (rank (c_ready cl)) (rank t).
Proof.
  unfold demote, retarget. destruct (Z.leb_spec (rank (c_ready cl)) (rank t)); [split_and!; try done; lia|].
  case_decide as E; [rewrite E in *; lia|]. simpl. split_and!; try done; lia.
Qed.

(** The pending entry that a cell leaves when it wants what [level] allows. *)
Definition pending_entry (level : option ChunkTicketLevel) (cl : cell) : option Z :=
  if rank (c_ready cl) <? rank (desired_ticking_readiness level) then Some (c_id cl) else None.

Definition target_at m lv (p : ChunkPos) (cl : cell) : TickingReadiness :=
  allowed_readiness (effective_level lv p cl) (counts m p).

(** Demoting the candidates among [ps]. *)
Record demote_post (ps : list ChunkPos) lv m (cs : list TickingReadinessCandidate) (b : bool) m' : Prop := {
  dp_drives : drives m m';
  dp_candidates : cs = omap (candidate_at m lv) ps;
  dp_cells : forall p cl, cells m p = Some cl ->
    cells m' p = Some (if decide (p ∈ ps) then demote cl (target_at m lv p cl) else cl);
  dp_flag : b = false -> forall p cl cl', cells m p = Some cl -> cells m' p = Some cl' ->
    same_membership cl cl' = true;
  dp_pending : forall p cl', cells m' p = Some cl' -> p ∈ ps ->
    pending_readiness (full_neighborhood m') !! p = pending_entry (effective_level lv p cl') cl';
  dp_pending_other : forall p, p ∉ ps \/ cells m p = None ->
    pending_readiness (full_neighborhood m') !! p = pending_readiness (full_neighborhood m) !! p;
}.

(** Every active cell may still make [k] transitions. *)
Definition cells_room (k : Z) m : Prop :=
  forall p cl, cells m p = Some cl -> c_generation cl + k <= MAX_GENERATION.

Lemma cells_room_has k m cs : cells_room k m -> has_room k m cs.
Proof. intros H. apply Forall_forall. intros c _ cl. apply H. Qed.

Lemma cells_None_drives m m' p : drives m m' -> map_ok m -> cells m' p = None <-> cells m p = None.
Proof.
  intros Hd Hok. rewrite (cells_None m p Hok), (cells_None m' p (dr_ok _ _ Hd)). by rewrite (dr_chunks _ _ Hd).
Qed.

Lemma candidate_at_Some m lv p cl c : cells m p = Some cl -> candidate_at m lv p = Some c ->
  ca_pos c = p /\ ca_holder c = c_id cl /\ ca_target c = target_at m lv p cl /\
  ca_desired c = desired_ticking_readiness (effective_level lv p cl).
Proof. intros Hcl. unfold candidate_at. rewrite Hcl. simpl. by intros [= <-]. Qed.

(** The candidate of an active position of [ps]. *)
Lemma candidate_in m lv (ps : list ChunkPos) p cl : cells m p = Some cl -> p ∈ ps ->
  mkCandidate p (c_id cl) (desired_ticking_readiness (effective_level lv p cl)) (target_at m lv p cl)
    ∈ omap (candidate_at m lv) ps.
Proof.
  intros Hcl Hp. apply list_elem_of_omap. exists p. split; [done|]. unfold candidate_at. by rewrite Hcl.
Qed.

Lemma wp_demote_phase {A} ps lv (k : list TickingReadinessCandidate -> bool -> prog A) Q m :
  map_ok m -> NoDup ps -> cells_room 1 m ->
  (forall cs b m', demote_post ps lv m cs b m' -> wp (k cs b) Q m') ->
  wp (cs ← readiness_candidates ((fun p => (p, counts m p)) <$> ps) lv;
      b ← apply_readiness_demotions cs; _ ← update_pending_readiness cs; k cs b) Q m.
Proof.
  intros Hok Hnd Hroom Hk. apply wp_bind. eapply wp_mono; [|by apply wp_readiness_candidates].
  intros cs m1 (Hok1 & He1 & Ecs).
  destruct (candidates_of_ok m lv ps Hnd) as [Hcs Hin]. rewrite <- Ecs in Hcs, Hin.
  assert (forall p, cells m1 p = cells m p) as Hc1 by (intros; by apply evolves_cells).
  assert (candidates_ok m1 cs) as Hcs1.
  { destruct Hcs as [H1 H2]. split; [done|]. eapply Forall_impl; [exact H2|]. intros c. by rewrite Hc1. }
  apply wp_bind. eapply wp_mono; [|apply wp_demotions; [done|done|]].
  2: { apply cells_room_has. intros p cl. rewrite Hc1. apply Hroom. }
  intros b m2 [M1 M2 M3 M4 M5].
  assert (forall p cl, cells m p = Some cl ->
    cells m2 p = Some (if decide (p ∈ ps) then demote cl (target_at m lv p cl) else cl)) as Hc2.
  { intros p cl Hcl. case_decide as Hp.
    - pose proof (candidate_in m lv ps p cl Hcl Hp) as Hc. rewrite <- Ecs in Hc. rewrite Forall_forall in M3.
      destruct (M3 _ Hc cl) as (cl' & E & ->); [simpl; by rewrite Hc1|]. exact E.
    - rewrite M4, Hc1; [done|]. rewrite Hin. tauto. }
  assert (candidates_ok m2 cs) as Hcs2.
  { destruct Hcs as [H1 H2]. split; [done|]. eapply Forall_impl; [exact H2|]. intros c (cl & Hcl & Hid).
    rewrite (Hc2 _ _ Hcl). eexists. split; [done|]. case_decide; [|done].
    by destruct (demote_spec cl (target_at m lv (ca_pos c) cl)) as [-> _]. }
  apply wp_bind. eapply wp_mono; [|by apply wp_update_pending; [exact (dr_ok _ _ M1)|]].
  intros _ m3 (D3 & C3 & [P1 P2]). apply Hk. split.
  - apply (drives_trans m m1); [by apply evolves_drives|]. by apply (drives_trans m1 m2).
  - done.
  - intros p cl Hcl. rewrite C3. by apply Hc2.
  - intros Hb p cl cl'. rewrite C3, <- Hc1. by apply M5.
  - intros p cl' Hcl' Hp. rewrite C3 in Hcl'. rewrite Forall_forall in P1.
    destruct (cells m p) as [cl|] eqn:Hcl.
    + pose proof (candidate_in m lv ps p cl Hcl Hp) as Hc. rewrite <- Ecs in Hc.
      etransitivity; [exact (P1 _ Hc cl' Hcl')|]. simpl. unfold pending_entry, effective_level.
      rewrite (Hc2 _ _ Hcl), decide_True in Hcl' by done. injection Hcl' as <-.
      by destruct (demote_spec cl (target_at m lv p cl)) as (_ & -> & _).
    + assert (cells m2 p = None) by (apply (cells_None_drives m1 m2 p M1 Hok1); by rewrite Hc1). congruence.
  - intros p Hp. rewrite P2, M2, (ev_neighborhood _ _ He1); [done|]. rewrite Hin. intros [H1 [cl H2]].
    destruct Hp as [?|?]; [done|congruence].
Qed.

(** The index with the contributors that lose their level removed, and the demotions that
    follow from it. *)
Record prepared (changes : list LevelChange) m (n : FullNeighborhoodIndex) (b : bool) m' : Prop := {
  pd_progress : nb_progress (full_neighborhood m) n;
  pd_contributors : forall p, contributors n !! p =
    if decide (p ∈ lost (active_changes m changes)) then None
    else contributors (full_neighborhood m) !! p;
  pd_changed : Forall (fun c => ch_pos c ∈ dirty_centers n) changes;
  pd_idle : changes = [] -> n = full_neighborhood m;
  pd_demote : exists cs, demote_post (elements (dirty_centers n)) (Some (new_levels_of changes))
    (set_full_neighborhood m n) cs b m';
}.

Lemma set_neighborhood_id m : set_full_neighborhood m (full_neighborhood m) = m.
Proof. by destruct m. Qed.

Lemma wp_prepare changes m :
  map_ok m -> dirty_centers (full_neighborhood m) = ∅ -> changes_ok changes -> cells_room 1 m ->
  wp (prepare_ticking_readiness_demotions changes)
    (fun r m' => exists b n, r = Ok b /\ prepared changes m n b m') m.
Proof.
  intros Hok Hdirty [Hnd Hch] Hroom. unfold prepare_ticking_readiness_demotions.
  destruct changes as [|c0 changes0] eqn:Echanges.
  { apply wp_ret. exists false, (full_neighborhood m). split; [done|]. split; try done.
    - apply nb_progress_refl, Hok.
    - exists []. rewrite set_neighborhood_id, Hdirty. split; try done.
      + by apply drives_refl.
      + intros _ p cl cl' -> [= <-]. apply same_membership_refl.
      + by intros p cl' _ ?%elem_of_nil. }
  rewrite <- Echanges in *. clear c0 changes0 Echanges.
  apply wp_bind, wp_get. apply wp_bind. unfold with_neighborhood. apply wp_bind, wp_get.
  destruct (remove_lost_progress (active_changes m changes) (full_neighborhood m) (mo_neighborhood _ Hok))
    as (n1 & E1 & P1 & C1).
  { apply Forall_forall. intros [[q id] l] Hin. apply list_elem_of_omap in Hin as (c & Hc & E).
    destruct (chunks m !! ch_pos c) as [i|] eqn:Ei; [|done]. simpl in E. injection E as <- <- <-. simpl.
    rewrite Forall_forall in Hch. split; [exact (co_pos _ (Hch c Hc))|].
    intros cur [A _]%(mo_contributors _ Hok). congruence. }
  rewrite E1. simpl.
  destruct (mark_all_progress ch_pos changes n1 (np_ok _ _ P1)) as (P2 & C2 & D2).
  { eapply Forall_impl; [exact Hch|]. intros c Hc. exact (co_pos _ Hc). }
  set (n2 := foldl (fun n c => mark_dirty n (ch_pos c)) n1 changes) in *.
  pose proof (nb_progress_trans _ _ _ P1 P2) as P.
  assert (forall p, contributors n2 !! p = if decide (p ∈ lost (active_changes m changes)) then None
    else contributors (full_neighborhood m) !! p) as C by (intros p; by rewrite C2, C1).
  assert (map_ok (set_full_neighborhood m n2)) as Hok2.
  { apply set_neighborhood_ok; [done|exact (np_ok _ _ P)|]. intros p id. rewrite C.
    case_decide; [done|]. apply (mo_contributors _ Hok). }
  apply wp_bind, wp_put, wp_ret. simpl.
  apply (wp_demote_phase (elements (dirty_centers n2)) (Some (new_levels_of changes))
    (fun _ b => mret (Ok b)) _ (set_full_neighborhood m n2)); [done|apply NoDup_elements|done|].
  intros cs b m' Hd. apply wp_ret. exists b, n2. split; [done|]. split; try done; [|by exists cs].
  intros Ec. unfold n2. rewrite Ec in *. injection E1 as <-. done.
Qed.

(** ** Moving a holder between the maps *)

(** The map after a holder was placed, with possibly one more publication of it. *)
Definition placed m (id : Z) (h : ChunkHolder) (ch un : gmap ChunkPos Z)
  (df : gmap ChunkPos DeferredChunkRevival) (pubs : list FullPublication) : ChunkMap T :=
  mkMap (<[id := h]> (heap m)) (producers m) (saving m) (next_id m) ch un df pubs
    (full_neighborhood m) (ticking_chunks m) (scheduled_ticks m).

(** Placement of [id] at its position, in one of the maps. *)
Record placement m (id : Z) (h h' : ChunkHolder) (ch un : gmap ChunkPos Z)
  (pubs : list FullPublication) : Prop := {
  pl_pos : h_pos h' = h_pos h;
  pl_published : h_published h' = h_published h;
  pl_started : h_started h' = h_started h;
  pl_data : h_data h' = h_data h;
  pl_init : h_full_init h' = h_full_init h;
  pl_word : h_readiness h' = h_readiness h;
  pl_sim : raw_level_ok (h_sim h');
  pl_other : forall p, p <> h_pos h -> ch !! p = chunks m !! p /\ un !! p = unloading_chunks m !! p;
  pl_place :
    (ch !! h_pos h = Some id /\ un !! h_pos h = None /\ h_lifecycle h' = SAVE_LIFECYCLE_ACTIVE /\
       level_ok (h_load h') /\
       (is_Some (contributors (full_neighborhood m) !! h_pos h) ->
          is_full_level (holder_load_level h') = true)) \/
    (ch !! h_pos h = None /\ un !! h_pos h = Some id /\ h_lifecycle h' = SAVE_LIFECYCLE_UNLOADING /\
       h_load h' = NO_TICKET_LEVEL /\ ticking_readiness h' = Some Unready /\
       contributors (full_neighborhood m) !! h_pos h = None);
  pl_saving : h_lifecycle h <> SAVE_LIFECYCLE_PREPARING;
  pl_pubs : pubs = full_publications m \/
    pubs = full_publications m ++ [mkPublication (h_pos h) id] /\ h_full_init h = true;
}.

Lemma placed_ok m id h h' ch un df pubs :
  map_ok m -> heap m !! id = Some h -> placement m id h h' ch un pubs ->
  map_ok (placed m id h' ch un df pubs).
Proof.
  intros Hok Hh [D1 D2 D3 D4 D5 D6 D7 D8 D9 D10 D11]. pose proof (mo_holder _ Hok id h Hh) as Hho.
  destruct (producers_ok_ext h h' (producers_of m id) D2 D3 D4 D5 (ho_producers _ _ _ Hho)) as [Hps Hticks].
  assert (forall p i, ch !! p = Some i \/ un !! p = Some i ->
    (p = h_pos h /\ i = id) \/ (p <> h_pos h /\ i <> id /\ (chunks m !! p = Some i \/ unloading_chunks m !! p = Some i)))
    as Hin.
  { intros p i Hi. destruct (decide (p = h_pos h)) as [->|Hne].
    - left. split; [done|]. destruct D9 as [(A & B & _)|(A & B & _)], Hi; congruence.
    - right. destruct (D8 p Hne) as [E1 E2]. rewrite E1, E2 in Hi. split; [done|]. split; [|done].
      intros ->. destruct Hi as [Hi|Hi]; [destruct (mo_chunks _ Hok p id Hi) as (h0 & E0 & Hp)|
        destruct (mo_unloading _ Hok p id Hi) as (h0 & E0 & Hp)]; congruence. }
  assert (forall p i, ch !! p = Some i \/ un !! p = Some i ->
    exists h1, <[id := h']> (heap m) !! i = Some h1 /\ h_pos h1 = p) as Hlook.
  { intros p i [[-> ->]|(Hp & Hne & [Hi|Hi])]%Hin; [by exists h'; rewrite lookup_insert_eq| |];
      rewrite lookup_insert_ne by done; [by apply (mo_chunks _ Hok)|by apply (mo_unloading _ Hok)]. }
  split; simpl; try (apply Hok); eauto.
  - intros i h0 [[<- <-]|[Hne E0]]%lookup_insert_Some.
    + destruct Hho as [I1 I2 I3 I4 I5 I6 I7 I8]. split; try done.
      * by rewrite D1.
      * by rewrite D6.
      * unfold is_active_holder, is_unloading_holder. simpl. rewrite D1.
        destruct D9 as [(A & B & C & D & _)|(A & B & C & D & F & _)]; [by left|right]. split; [done|]. auto.
      * simpl. rewrite I7. split; [done|]. unfold SAVE_LIFECYCLE_PREPARING, SAVE_LIFECYCLE_ACTIVE,
          SAVE_LIFECYCLE_UNLOADING in *. destruct D9 as [(_ & _ & -> & _)|(_ & _ & -> & _)]; done.
      * simpl. exact (eq_trans I8 (eq_sym Hticks)).
    + destruct (mo_holder _ Hok i h0 E0) as [I1 I2 I3 I4 I5 I6 I7 I8]. split; try done.
      assert (h_pos h0 <> h_pos h) as Hpne by (intros E; by apply Hne; symmetry; apply (owner_unique m i id h0 h Hok)).
      destruct (D8 _ Hpne) as [E1 E2]. unfold is_active_holder, is_unloading_holder in *. simpl.
      by rewrite E1, E2.
  - intros p [i Hi]. destruct (decide (p = h_pos h)) as [->|Hne].
    + by destruct D9 as [(A & B & _)|(A & B & _)]; [|rewrite A in Hi].
    + destruct (D8 p Hne) as [E1 E2]. rewrite E2. apply (mo_disjoint _ Hok). rewrite <- E1. eauto.
  - intros i Hi%(mo_saving _ Hok). rewrite lookup_insert_is_Some'. auto.
  - intros p i. rewrite (mo_registered _ Hok). unfold owns_ticks. simpl.
    destruct (decide (i = id)) as [->|Hne]; [|by rewrite lookup_insert_ne].
    rewrite lookup_insert_eq, Hh. split; intros (h0 & [= <-] & E1 & E2);
      [exists h'|exists h]; split_and!; try done; try congruence; [exact (eq_trans Hticks E2)|exact (eq_trans (eq_sym Hticks) E2)].
  - intros p i Hc. destruct (mo_contributors _ Hok p i Hc) as (A & h0 & E0 & B & C). unfold full_holder. simpl.
    destruct (mo_chunks _ Hok p i A) as (h2 & E2 & <-). rewrite E0 in E2. injection E2 as <-.
    destruct (decide (i = id)) as [->|Hne].
    + rewrite Hh in E0. injection E0 as <-. rewrite Hc in D9. rewrite lookup_insert_eq.
      destruct D9 as [(A1 & _ & _ & _ & A2)|(_ & _ & _ & _ & _ & A2)]; [|done]. split; [done|].
      exists h'. rewrite D5. eauto.
    + rewrite lookup_insert_ne by done.
      assert (h_pos h0 <> h_pos h) as Hpne by (intros E; by apply Hne, (owner_unique m i id h0 h Hok)).
      rewrite (proj1 (D8 _ Hpne)). eauto.
  - intros p i Hq h0 [[<- <-]|[Hne E0]]%lookup_insert_Some.
    + rewrite D1, D5. destruct D11 as [->|[-> Hi]]; [by apply (mo_published _ Hok p id Hq)|].
      apply elem_of_app in Hq as [Hq|[= ->]%list_elem_of_singleton]; [by apply (mo_published _ Hok p id Hq)|done].
    + apply (mo_published _ Hok p i); [|done]. destruct D11 as [->|[-> Hi]]; [done|].
      apply elem_of_app in Hq as [Hq|[= -> ->]%list_elem_of_singleton]; [done|]. done.
  - intros p i Hq. pose proof (ho_id _ _ _ Hho). destruct D11 as [->|[-> Hi]]; [by apply (mo_known _ Hok p)|].
    apply elem_of_app in Hq as [Hq|[= -> ->]%list_elem_of_singleton]; [by apply (mo_known _ Hok p)|lia].
Qed.

(** What placing a holder leaves alone. *)
Lemma placed_cells m id h h' ch un df pubs p :
  map_ok m -> heap m !! id = Some h -> placement m id h h' ch un pubs ->
  cells (placed m id h' ch un df pubs) p =
    if decide (p = h_pos h) then (if decide (ch !! p = Some id) then Some (cell_of id h') else None) else cells m p.
Proof.
  intros Hok Hh Hp. unfold cells. simpl. case_decide as E.
  - subst p. destruct (pl_place _ _ _ _ _ _ _ Hp) as [(A & _)|(A & _)]; rewrite A; simpl.
    + by rewrite lookup_insert_eq, decide_True.
    + done.
  - rewrite (proj1 (pl_other _ _ _ _ _ _ _ Hp p E)). destruct (chunks m !! p) as [i|] eqn:Ei; [|done]. simpl.
    rewrite lookup_insert_ne; [done|]. intros <-.
    destruct (mo_chunks _ Hok p id Ei) as (h0 & E0 & Ep). congruence.
Qed.

Lemma placed_announced m id h' ch un df pubs i p :
  full_publications m ⊆ pubs -> announced m p i -> announced (placed m id h' ch un df pubs) p i.
Proof. intros Hp [A|A]; [left; by apply Hp|by right]. Qed.

(** ** Changing the level of one position *)

Definition level_result (c : LevelChange) (before : option cell) (o : option Z) m' : Prop :=
  match ch_new_level c with
  | None => o = None /\ cells m' (ch_pos c) = None /\ deferred_revivals m' !! ch_pos c = None
  | Some level =>
      (exists cl', o = Some (c_id cl') /\ cells m' (ch_pos c) = Some cl' /\ c_load cl' = Some level /\
         c_sim cl' = ch_new_simulation_level c /\
         match before with
         | Some cl => c_id cl' = c_id cl /\ c_ready cl' = c_ready cl
         | None => c_ready cl' = Unready
         end) \/
      (o = None /\ before = None /\ cells m' (ch_pos c) = None /\
       deferred_revivals m' !! ch_pos c = Some (mkRevival level (ch_new_simulation_level c)))
  end.

(** The revival that a change leaves for the next commit. *)
Definition deferred_by (c : LevelChange) (r : DeferredChunkRevival) m' : Prop :=
  ch_new_level c = Some (dr_load r) /\ ch_new_simulation_level c = dr_sim r /\ cells m' (ch_pos c) = None.

(** Everything but the position of the change stays; holders stay alive with their chunk and
    readiness, and nothing announced is forgotten. *)
Record leveled (c : LevelChange) m (o : option Z) m' : Prop := {
  lv_ok : map_ok m';
  lv_neighborhood : full_neighborhood m' = full_neighborhood m;
  lv_snapshot : ticking_chunks m' = ticking_chunks m;
  lv_other : forall p, p <> ch_pos c -> cells m' p = cells m p /\
    deferred_revivals m' !! p = deferred_revivals m !! p;
  lv_holder : forall id h, heap m !! id = Some h -> exists h', heap m' !! id = Some h' /\
    h_level h' = h_level h /\ h_readiness h' = h_readiness h;
  lv_new : forall id h', heap m' !! id = Some h' -> heap m !! id = None -> h_readiness h' = 0;
  lv_counted : forall p, counted_or_announced m p -> counted_or_announced m' p;
  lv_result : level_result c (cells m (ch_pos c)) o m';
  lv_deferred : forall r, deferred_revivals m' !! ch_pos c = Some r ->
    deferred_revivals m !! ch_pos c = Some r \/ deferred_by c r m';
}.

(** The demotions that must precede a change. *)
Definition level_pre (c : LevelChange) m : Prop := forall cl, cells m (ch_pos c) = Some cl ->
  (is_full_level (ch_new_level c) = false -> contributors (full_neighborhood m) !! ch_pos c = None) /\
  (ch_new_level c = None -> c_ready cl = Unready).

Lemma placed_leveled c m id h h' ch un df pubs o :
  map_ok m -> heap m !! id = Some h -> h_pos h = ch_pos c -> placement m id h h' ch un pubs ->
  (forall p, p <> ch_pos c -> df !! p = deferred_revivals m !! p) -> df ⊆ deferred_revivals m ->
  (ch !! h_pos h = Some id -> h_full_init h' = true -> is_full_level (holder_load_level h') = true ->
     (chunks m !! h_pos h = Some id /\ is_full_level (holder_load_level h) = true) \/
     mkPublication (h_pos h) id ∈ pubs) ->
  level_result c (cells m (ch_pos c)) o (placed m id h' ch un df pubs) ->
  leveled c m o (placed m id h' ch un df pubs).
Proof.
  intros Hok Hh Hpos Hp Hdf Hsubdf Hfull Hres. pose proof (placed_ok m id h h' ch un df pubs Hok Hh Hp) as Hok'.
  assert (full_publications m ⊆ pubs) as Hsub.
  { destruct (pl_pubs _ _ _ _ _ _ _ Hp) as [->|[-> _]]; set_solver. }
  split; try done.
  - intros p Hne. split; [|by apply Hdf]. rewrite (placed_cells m id h) by done. rewrite decide_False; [done|congruence].
  - intros i h0 E0. simpl. destruct (decide (i = id)) as [->|Hne].
    + rewrite lookup_insert_eq. exists h'. rewrite Hh in E0. injection E0 as <-.
      unfold h_level. by rewrite (pl_data _ _ _ _ _ _ _ Hp), (pl_word _ _ _ _ _ _ _ Hp).
    + rewrite lookup_insert_ne by done. eauto.
  - intros i h0 E0 E1. simpl in E0. apply lookup_insert_Some in E0 as [[<- <-]|[Hne E0]]; congruence.
  - intros p Hc i (A & h0 & E0 & B & C). simpl in *.
    destruct (decide (p = h_pos h)) as [->|Hne].
    + assert (i = id) as ->.
      { destruct (pl_place _ _ _ _ _ _ _ Hp) as [(A' & _)|(A' & _)]; congruence. }
      rewrite lookup_insert_eq in E0. injection E0 as <-.
      destruct (Hfull A B C) as [[H1 H2]|H]; [|right; by left].
      destruct (Hc id) as [|An]; [|by left|right; by apply placed_announced].
      split; [done|]. exists h. rewrite (pl_init _ _ _ _ _ _ _ Hp) in B. done.
    + assert (i <> id) as Hni.
      { intros ->. rewrite (proj1 (pl_other _ _ _ _ _ _ _ Hp p Hne)) in A.
        destruct (mo_chunks _ Hok p id A) as (h1 & E1 & Ep). congruence. }
      rewrite lookup_insert_ne in E0 by done.
      destruct (Hc i) as [|An]; [|by left|right; by apply placed_announced].
      split; [by rewrite <- (proj1 (pl_other _ _ _ _ _ _ _ Hp p Hne))|eauto].
  - intros r Hr. left. simpl in Hr. by eapply lookup_weaken.
Qed.

(** The holder after its level was applied. *)
Definition relevel (h : ChunkHolder) (level : ChunkTicketLevel) (sim : option ChunkTicketLevel) : ChunkHolder :=
  let h' := set_simulation_level (set_h_load level h) sim in
  if decide (holder_load_level h = Some level) then h' else update_highest_allowed_status h' (Some level).

Lemma relevel_frame h level sim :
  h_pos (relevel h level sim) = h_pos h /\ h_published (relevel h level sim) = h_published h /\
  h_started (relevel h level sim) = h_started h /\ h_data (relevel h level sim) = h_data h /\
  h_full_init (relevel h level sim) = h_full_init h /\ h_readiness (relevel h level sim) = h_readiness h /\
  h_lifecycle (relevel h level sim) = h_lifecycle h /\ h_load (relevel h level sim) = level /\
  h_sim (relevel h level sim) = optional_ticket_level_raw sim.
Proof. unfold relevel. by case_decide. Qed.

Definition level_publications m (id : Z) (h : ChunkHolder) (level : ChunkTicketLevel) : list FullPublication :=
  if ChunkTicketLevel_is_full level && negb (is_full_level (holder_load_level h)) && h_full_init h
  then full_publications m ++ [mkPublication (h_pos h) id] else full_publications m.

Lemma wp_apply_level id h ps level sim m (Q : unit -> ChunkMap T -> Prop) :
  heap m !! id = Some h -> producers_ok h ps ->
  Q () (set_full_publications (set_holder m id (relevel h level sim)) (level_publications m id h level)) ->
  wp (apply_level id level sim) Q m.
Proof.
  intros Hh Hps HQ. unfold apply_level. apply wp_bind.
  apply (wp_update_holder id h _ (relevel h level sim) (holder_load_level h)); [done|done|].
  unfold level_publications in HQ. destruct (relevel_frame h level sim) as (F1 & F2 & F3 & F4 & F5 & _).
  destruct (ChunkTicketLevel_is_full level && negb (is_full_level (holder_load_level h))); simpl in HQ;
    [|by apply wp_ret].
  apply wp_bind, (wp_read_holder id (relevel h level sim)); [by simpl; rewrite lookup_insert_eq|].
  apply wp_bind. eapply wp_expect.
  { apply (is_full_ready_producers _ ps). by apply (producers_ok_ext h). }
  rewrite F5. destruct (h_full_init h); [|by apply wp_ret]. apply wp_modify. by rewrite F1.
Qed.

(** Applying a level to a holder that is, or was just made, active. *)
Lemma wp_level_placed c level m id h h1 ch un :
  map_ok m -> heap m !! id = Some h -> change_ok c -> h_pos h = ch_pos c -> ch_new_level c = Some level ->
  level_pre c m ->
  (h1 = h /\ ch = chunks m /\ un = unloading_chunks m /\ chunks m !! h_pos h = Some id \/
   h1 = set_h_lifecycle SAVE_LIFECYCLE_ACTIVE h /\ ch = <[ch_pos c := id]> (chunks m) /\
     un = delete (ch_pos c) (unloading_chunks m) /\ chunks m !! h_pos h = None /\
     unloading_chunks m !! h_pos h = Some id /\ h_lifecycle h = SAVE_LIFECYCLE_UNLOADING) ->
  wp (apply_level (T := T) id level (ch_new_simulation_level c) ≫= (fun _ => mret (Some id)))
    (leveled c m) (placed m id h1 ch un (deferred_revivals m) (full_publications m)).
Proof.
  intros Hok Hh [Hp1 Hp2 Hp3] Hpos Hlevel Hpre Hcase. pose proof (mo_holder _ Hok id h Hh) as Hho.
  assert (h_published h1 = h_published h /\ h_started h1 = h_started h /\ h_data h1 = h_data h /\
    h_full_init h1 = h_full_init h /\ h_pos h1 = h_pos h /\ h_readiness h1 = h_readiness h /\ h_load h1 = h_load h)
    as (G1 & G2 & G3 & G4 & G5 & G6 & G7) by (destruct Hcase as [(-> & _)|(-> & _)]; done).
  apply wp_bind, (wp_apply_level id h1 (producers_of m id));
    [by simpl; rewrite lookup_insert_eq|by apply (producers_ok_ext h); [..|exact (ho_producers _ _ _ Hho)]|].
  apply wp_ret. set (h2 := relevel h1 level (ch_new_simulation_level c)).
  destruct (relevel_frame h1 level (ch_new_simulation_level c)) as (F1 & F2 & F3 & F4 & F5 & F6 & F7 & F8 & F9).
  fold h2 in F1, F2, F3, F4, F5, F6, F7, F8, F9.
  set (pubs := level_publications m id h level).
  assert (level_publications (placed m id h1 ch un (deferred_revivals m) (full_publications m)) id h1 level = pubs) as ->.
  { unfold pubs, level_publications, holder_load_level. by rewrite G4, G5, G7. }
  match goal with |- leveled _ _ _ ?x => replace x with (placed m id h2 ch un (deferred_revivals m) pubs) end.
  2: { unfold placed, set_full_publications, set_holder, set_heap. simpl. by rewrite insert_insert_eq. }
  assert (holder_load_level h2 = Some level) as Eload.
  { unfold holder_load_level. rewrite F8. exact (level_raw_roundtrip (Some level) ltac:(rewrite <- Hlevel; exact Hp2)). }
  assert (holder_simulation_level h2 = ch_new_simulation_level c) as Esim.
  { unfold holder_simulation_level. rewrite F9. exact (level_raw_roundtrip _ Hp3). }
  assert (ch !! h_pos h = Some id) as Hch.
  { destruct Hcase as [(_ & -> & _ & ?)|(_ & -> & _)]; [done|]. by rewrite <- Hpos, lookup_insert_eq. }
  assert (cells m (ch_pos c) = if decide (chunks m !! h_pos h = Some id) then Some (cell_of id h) else None) as Ebefore.
  { unfold cells. rewrite <- Hpos. case_decide as E; [by rewrite E; simpl; rewrite Hh|].
    destruct Hcase as [(_ & _ & _ & ?)|(_ & _ & _ & -> & _)]; done. }
  assert (placement m id h h2 ch un pubs) as Hplace.
  { split; try congruence.
    - rewrite F9. unfold raw_level_ok. destruct (ch_new_simulation_level c) as [x|]; [right; by apply Hp3|by left].
    - intros p Hne. destruct Hcase as [(_ & -> & -> & _)|(_ & -> & -> & _)]; [done|].
      rewrite lookup_insert_ne, lookup_delete_ne by congruence. done.
    - left. split; [done|]. split_and!.
      + destruct Hcase as [(_ & _ & -> & E)|(_ & _ & -> & _)]; [|by rewrite <- Hpos, lookup_delete_eq].
        apply (mo_disjoint _ Hok). by rewrite E.
      + rewrite F7. destruct Hcase as [(-> & _ & _ & E)|(-> & _)]; [|done].
        by destruct (active_holder m _ id h Hok E Hh) as (_ & ? & _).
      + rewrite F8. apply Hp2. done.
      + rewrite Eload. simpl. intros [i Hi]. pose proof (mo_contributors _ Hok _ _ Hi) as [A _].
        assert (i = id) as ->.
        { destruct Hcase as [(_ & _ & _ & E)|(_ & _ & _ & E & _)]; congruence. }
        rewrite decide_True in Ebefore by done. destruct (Hpre _ Ebefore) as [Hfull _].
        rewrite Hlevel in Hfull. simpl in Hfull. destruct (ChunkTicketLevel_is_full level); [done|].
        rewrite <- Hpos in Hfull. rewrite Hfull in Hi by done. done.
    - destruct Hcase as [(_ & _ & _ & E)|(_ & _ & _ & _ & _ & ->)]; [|done].
      destruct (active_holder m _ id h Hok E Hh) as (_ & -> & _). done.
    - unfold pubs, level_publications. destruct (ChunkTicketLevel_is_full level && _); [|by left]. simpl.
      destruct (h_full_init h) eqn:Hi; [right|left]; done. }
  apply (placed_leveled c m id h); try done.
  - rewrite Eload, F5, G4. simpl. intros _ Hi Hf. unfold pubs, level_publications. rewrite Hi, Hf. simpl.
    destruct (is_full_level (holder_load_level h)) eqn:Eo; simpl; [left|right; set_solver].
    split; [|done]. destruct Hcase as [(_ & _ & _ & ?)|(_ & _ & _ & _ & U & _)]; [done|].
    destruct (holder_place m id h Hok Hh) as [(A & _)|(_ & _ & A & _)]; [done|].
    unfold holder_load_level in Eo. by rewrite A in Eo.
  - unfold level_result. rewrite Hlevel. left. exists (cell_of id h2). rewrite (placed_cells m id h) by done.
    rewrite decide_True by done. rewrite decide_True by congruence. split_and!; try done.
    rewrite Ebefore. unfold cell_of, readiness_of, ticking_readiness. simpl. rewrite F6, G6.
    case_decide as E; [done|]. destruct Hcase as [(_ & _ & _ & ?)|(_ & _ & _ & _ & U & _)]; [done|].
    destruct (holder_place m id h Hok Hh) as [(A & _)|(_ & _ & _ & A)]; [done|].
    unfold ticking_readiness in A. by rewrite A.
Qed.

Lemma wp_level_active c level m id h :
  map_ok m -> heap m !! id = Some h -> chunks m !! ch_pos c = Some id -> change_ok c ->
  ch_new_level c = Some level -> level_pre c m ->
  wp (apply_level (T := T) id level (ch_new_simulation_level c) ≫= (fun _ => mret (Some id))) (leveled c m) m.
Proof.
  intros Hok Hh Hp Hc Hlevel Hpre. destruct (active_holder m _ id h Hok Hp Hh) as (Hpos & _ & _).
  pose proof (wp_level_placed c level m id h h (chunks m) (unloading_chunks m) Hok Hh Hc Hpos Hlevel Hpre
    ltac:(left; by rewrite Hpos)) as H.
  unfold placed in H. rewrite insert_id in H by done. by destruct m.
Qed.

(** A new holder. *)
Lemma new_holder_ok pos level sim m :
  map_ok m -> ChunkPos_ok pos -> level_ok level -> sim_level_ok sim ->
  chunks m !! pos = None -> unloading_chunks m !! pos = None ->
  map_ok (insert_new_holder m pos (new_with_full_publications pos level sim world_min_y world_height)).
Proof.
  intros Hok Hpos Hlevel Hsim Hc Hu. set (h := new_with_full_publications _ _ _ _ _).
  destruct (mo_fresh _ Hok (next_id m) ltac:(lia)) as [Fl Fp].
  assert (forall i h0, heap m !! i = Some h0 -> i <> next_id m) as Hnew.
  { intros i h0 Hi. pose proof (ho_id _ _ _ (mo_holder _ Hok i h0 Hi)). lia. }
  assert (forall i h0 p, heap m !! i = Some h0 -> h_pos h0 = p -> exists h1,
    <[next_id m := h]> (heap m) !! i = Some h1 /\ h_pos h1 = p) as Hlook.
  { intros i h0 p Hi Hp. rewrite lookup_insert_ne by (symmetry; by apply (Hnew i h0)). eauto. }
  assert (producers_ok h []) as Hps by apply new_producers_ok.
  split; simpl; try apply Hok.
  - intros i h0 [[<- <-]|[Hne E0]]%lookup_insert_Some.
    + split; simpl; try done.
      * pose proof (mo_next _ Hok). lia.
      * unfold word_ok, in_u. split; [done|by exists Unready].
      * destruct sim as [x|]; [right; by apply Hsim|by left].
      * unfold producers_of in *. simpl. by rewrite Fp.
      * left. unfold is_active_holder. simpl. by rewrite lookup_insert_eq.
      * split; [|done]. intros [h1 H1]%(mo_saving _ Hok). by destruct (Hnew _ _ H1).
    + destruct (mo_holder _ Hok i h0 E0) as [I1 I2 I3 I4 I5 I6 I7 I8]. split; simpl; try done; [lia|].
      unfold is_active_holder, is_unloading_holder in *. simpl.
      destruct I6 as [(A & B)|B]; [left|by right]. rewrite lookup_insert_ne; [done|]. intros E. congruence.
  - intros p i [[<- <-]|[Hne E]]%lookup_insert_Some; [exists h; by rewrite lookup_insert_eq|].
    destruct (mo_chunks _ Hok p i E) as (h0 & E0 & Hp). eauto.
  - intros p i (h0 & E0 & Hp)%(mo_unloading _ Hok). eauto.
  - intros p. rewrite lookup_insert_is_Some. intros [->|[Hne Hp]]; [done|by apply (mo_disjoint _ Hok)].
  - pose proof (mo_next _ Hok). lia.
  - intros i Hi. apply (mo_fresh _ Hok). lia.
  - intros i Hi%(mo_saving _ Hok). rewrite lookup_insert_is_Some'. auto.
  - intros p i. rewrite (mo_registered _ Hok). unfold owns_ticks. simpl.
    destruct (decide (i = next_id m)) as [->|Hne]; [|by rewrite lookup_insert_ne].
    rewrite lookup_insert_eq. split; intros (h0 & E0 & E1 & E2); [by destruct (Hnew _ _ E0)|].
    injection E0 as <-. unfold producers_of in *. simpl in E2. by rewrite Fp in E2.
  - intros p i (A & h0 & E0 & B & C)%(mo_contributors _ Hok). unfold full_holder. simpl.
    rewrite lookup_insert_ne by congruence. split; [done|]. exists h0.
    rewrite lookup_insert_ne; [done|]. symmetry. by apply (Hnew i h0).
  - intros p i Hin h0 [[<- <-]|[Hne E0]]%lookup_insert_Some; [|by apply (mo_published _ Hok p i)].
    pose proof (mo_known _ Hok _ _ Hin). lia.
  - intros p i Hin. pose proof (mo_known _ Hok _ _ Hin). lia.
Qed.

(** Remembering or forgetting a deferred revival. *)
Lemma deferred_leveled c m o df :
  map_ok m -> cells m (ch_pos c) = None ->
  (forall p, p <> ch_pos c -> df !! p = deferred_revivals m !! p) ->
  level_result c None o (set_deferred_revivals m df) ->
  (forall r, df !! ch_pos c = Some r -> deferred_revivals m !! ch_pos c = Some r \/
     ch_new_level c = Some (dr_load r) /\ ch_new_simulation_level c = dr_sim r) ->
  leveled c m o (set_deferred_revivals m df).
Proof.
  intros Hok Hc Hdf Hres Hdef. split; simpl; try done.
  - split; simpl; try apply Hok. intros id h Hh. by destruct (mo_holder _ Hok id h Hh).
  - intros p Hp. split; [done|by apply Hdf].
  - intros id h Hh. eauto.
  - intros id h H1 H2. congruence.
  - by rewrite Hc.
  - intros r Hr. destruct (Hdef r Hr) as [?|[? ?]]; [by left|right]. by split_and!.
Qed.

Definition unloaded (h : ChunkHolder) : ChunkHolder :=
  update_highest_allowed_status (set_simulation_level (clear_load_level (cancel_generation_task
    (set_h_lifecycle SAVE_LIFECYCLE_UNLOADING h))) None) None.

Lemma wp_unload c m id h :
  map_ok m -> change_ok c -> ch_new_level c = None -> level_pre c m ->
  chunks m !! ch_pos c = Some id -> heap m !! id = Some h ->
  wp (unload_holder (T := T) (ch_pos c) id ≫= (fun _ => mret None)) (leveled c m)
    (set_deferred_revivals m (delete (ch_pos c) (deferred_revivals m))).
Proof.
  intros Hok Hc Hlevel Hpre Hp Hh. destruct (active_holder m _ id h Hok Hp Hh) as (Hpos & Hlc & Hlv).
  destruct (Hpre (cell_of id h)) as [Hcon Hun]; [by unfold cells; rewrite Hp; simpl; rewrite Hh|].
  rewrite Hlevel in Hcon. specialize (Hcon eq_refl). specialize (Hun Hlevel).
  apply wp_bind. unfold unload_holder. apply wp_bind.
  apply (wp_update_holder id h _ (unloaded h) ()); [done| |].
  { unfold begin_unloading, cas_lifecycle. by rewrite Hlc, Z.eqb_refl. }
  apply wp_modify, wp_ret. simpl. rewrite Hp.
  set (ch := delete (ch_pos c) (chunks m)). set (un := <[ch_pos c := id]> (unloading_chunks m)).
  change (leveled c m None (placed m id (unloaded h) ch un (delete (ch_pos c) (deferred_revivals m))
    (full_publications m))).
  assert (placement m id h (unloaded h) ch un (full_publications m)) as Hplace.
  { split; try done.
    - by left.
    - rewrite Hpos. intros p Hne. unfold ch, un. by rewrite lookup_insert_ne, lookup_delete_ne.
    - right. rewrite Hpos. unfold ch, un. rewrite lookup_delete_eq, lookup_insert_eq. split_and!; try done.
      change (ticking_readiness (unloaded h)) with (ticking_readiness h).
      rewrite (ticking_readiness_some m id h Hok Hh). by f_equal.
    - by rewrite Hlc.
    - by left. }
  apply (placed_leveled c m id h); try done.
  - intros p Hne. by rewrite lookup_delete_ne.
  - apply delete_subseteq.
  - unfold level_result. rewrite Hlevel. rewrite (placed_cells m id h) by done.
    rewrite decide_True by done. unfold ch. rewrite lookup_delete_eq. split; [done|]. split; [done|]. simpl.
    apply lookup_delete_eq.
Qed.

(** A level applied to a new holder. *)
Lemma new_leveled c level m h o m' :
  map_ok m -> ch_new_level c = Some level -> chunks m !! ch_pos c = None ->
  h = new_with_full_publications (ch_pos c) level (ch_new_simulation_level c) world_min_y world_height ->
  leveled c (insert_new_holder m (ch_pos c) h) o m' -> leveled c m o m'.
Proof.
  intros Hok Hlevel Hp Eh [L1 L2 L3 L4 L5 L6 L7 L8 L9].
  assert (forall i h0, heap m !! i = Some h0 -> next_id m <> i) as Hnew.
  { intros i h0 Hi. pose proof (ho_id _ _ _ (mo_holder _ Hok i h0 Hi)). lia. }
  assert (forall p, p <> ch_pos c -> cells (insert_new_holder m (ch_pos c) h) p = cells m p) as Hcells.
  { intros p Hne. unfold cells. simpl. rewrite lookup_insert_ne by done.
    destruct (chunks m !! p) as [i|] eqn:E; [|done]. simpl. destruct (mo_chunks _ Hok p i E) as (h0 & E0 & _).
    by rewrite lookup_insert_ne by by apply (Hnew i h0). }
  split; try done.
  - intros p Hne. destruct (L4 p Hne) as [-> ->]. by rewrite Hcells.
  - intros i h0 E0. apply L5. simpl. rewrite lookup_insert_ne; [done|]. by apply (Hnew i h0).
  - intros i h0 E0 E1. destruct (decide (i = next_id m)) as [->|Hne].
    + destruct (L5 (next_id m) h) as (h1 & E2 & _ & E3); [simpl; by rewrite lookup_insert_eq|].
      rewrite E0 in E2. injection E2 as <-. rewrite E3. by subst h.
    + apply (L6 i h0 E0). simpl. by rewrite lookup_insert_ne.
  - intros p Hca. apply L7. intros i (A & h0 & E0 & B & C). simpl in *.
    apply lookup_insert_Some in E0 as [[<- <-]|[Hne E0]]; [by subst h|].
    destruct (decide (p = ch_pos c)) as [->|Hpne]; [rewrite lookup_insert_eq in A; congruence|].
    rewrite lookup_insert_ne in A by done. apply (Hca i). split; [done|eauto].
  - unfold level_result in *. rewrite Hlevel in *. assert (cells m (ch_pos c) = None) as -> by by apply (cells_None m _ Hok).
    assert (cells (insert_new_holder m (ch_pos c) h) (ch_pos c) = Some (cell_of (next_id m) h)) as Ec.
    { unfold cells. simpl. rewrite lookup_insert_eq. simpl. by rewrite lookup_insert_eq. }
    rewrite Ec in L8. destruct L8 as [(cl' & H1 & H2 & H3 & H4 & H5 & H6)|(_ & ? & _)]; [|done].
    left. exists cl'. split_and!; try done. rewrite H6. by subst h.
Qed.

Lemma wp_update_level c m :
  map_ok m -> change_ok c -> level_pre c m ->
  wp (update_chunk_level world_min_y world_height (ch_pos c) (ch_new_level c) (ch_new_simulation_level c))
    (leveled c m) m.
Proof.
  intros Hok Hc Hpre. unfold update_chunk_level. apply wp_bind.
  destruct (ch_new_level c) as [level|] eqn:Hlevel.
  - apply wp_ret, wp_bind. unfold obtain_holder. apply wp_bind, wp_get.
    assert (level_ok level) as Hlv by (apply (co_level _ Hc); by rewrite Hlevel).
    destruct (chunks m !! ch_pos c) as [id|] eqn:Hp.
    { apply wp_ret. destruct (mo_chunks _ Hok _ _ Hp) as (h & Hh & _). by apply (wp_level_active c level m id h). }
    assert (cells m (ch_pos c) = None) as Hcell by by apply (cells_None m _ Hok).
    destruct (unloading_chunks m !! ch_pos c) as [id|] eqn:Hu.
    + destruct (mo_unloading _ Hok _ _ Hu) as (h & Hh & Hpos). apply wp_bind, (wp_read_holder id h); [done|].
      unfold try_revive_from_unloading, cas_lifecycle.
      destruct (Z.eqb_spec (h_lifecycle h) SAVE_LIFECYCLE_UNLOADING) as [Hlc|Hlc].
      * apply wp_bind, wp_put, wp_ret.
        exact (wp_level_placed c level m id h (set_h_lifecycle SAVE_LIFECYCLE_ACTIVE h) (<[ch_pos c:=id]> (chunks m))
          (delete (ch_pos c) (unloading_chunks m)) Hok Hh Hc Hpos Hlevel Hpre ltac:(right; by rewrite Hpos)).
      * apply wp_bind, wp_put, wp_ret, wp_ret. apply deferred_leveled; try done.
        -- intros p Hne. by rewrite lookup_insert_ne.
        -- unfold level_result. rewrite Hlevel. right. simpl. by rewrite lookup_insert_eq.
        -- rewrite lookup_insert_eq, Hlevel. intros r [= <-]. by right.
    + apply wp_bind, wp_put, wp_ret.
      set (h := new_with_full_publications (ch_pos c) level (ch_new_simulation_level c) world_min_y world_height).
      pose proof (new_holder_ok (ch_pos c) level (ch_new_simulation_level c) m Hok (co_pos _ Hc) Hlv (co_sim _ Hc) Hp Hu)
        as Hok1. fold h in Hok1. set (m1 := insert_new_holder m (ch_pos c) h) in *.
      assert (heap m1 !! next_id m = Some h) as Hh1 by (simpl; by rewrite lookup_insert_eq).
      assert (chunks m1 !! ch_pos c = Some (next_id m)) as Hp1 by (simpl; by rewrite lookup_insert_eq).
      eapply wp_mono; [intros o m'; by apply (new_leveled c level m h o m')|].
      apply (wp_level_active c level m1 (next_id m) h); try done.
      intros cl _. split; [|congruence]. intros _. simpl.
      destruct (contributors (full_neighborhood m) !! ch_pos c) as [i|] eqn:Ei; [|done].
      destruct (mo_contributors _ Hok _ _ Ei) as [A _]. congruence.
  - apply wp_modify. set (m1 := set_deferred_revivals m _). apply wp_bind. unfold obtain_holder.
    apply wp_bind, wp_get. simpl. destruct (chunks m !! ch_pos c) as [id|] eqn:Hp.
    + apply wp_ret. destruct (mo_chunks _ Hok _ _ Hp) as (h & Hh & Hpos).
      by apply (wp_unload c m id h).
    + apply wp_ret, wp_ret. apply deferred_leveled; try done.
      * by apply (cells_None m _ Hok).
      * intros p Hne. by rewrite lookup_delete_ne.
      * unfold level_result. rewrite Hlevel. split; [done|]. split; [by apply (cells_None m _ Hok)|].
        apply lookup_delete_eq.
      * intros r. by rewrite lookup_delete_eq.
Qed.
End Epoch.
