(* ===== verification/ChunkMapReconcile.v ===== *)
(** * Levels, reconciliation and the ticking snapshot

    The second half of a commit: the levels of all changes, the reconciliation of the
    readiness index with the active Full holders, the final demotions and promotions, and
    the ticking snapshot. *)

From S2P Require Import Prelude Positions ChunkPyramid ChunkTickets TickScheduler.
From S2P Require Import TickOwnership FullNeighborhood ChunkHolder ChunkMap ChunkMapInv.
From S2P Require Import ChunkMapCommit ChunkMapEpoch.

Section Reconcile.
Context {T : Type} `{!TickOwnership T}.
Context (world_min_y world_height : Z).
Implicit Types m : ChunkMap T.

Abbreviation counts m p := (counts_at (full_neighborhood m) p).

(** ** What survives the readiness phases *)

Lemma drives_counted m m' p : map_ok m -> drives m m' -> counted_or_announced m p -> counted_or_announced m' p.
Proof.
  intros Hok Hd Hc id (A & h' & E' & B & C). rewrite (dr_chunks _ _ Hd) in A.
  destruct (drives_heap_inv _ _ _ _ Hd E') as (h & E & D).
  destruct (active_holder m p id h Hok A E) as (Hpos & _ & _). rewrite (dr_contributors _ _ Hd).
  destruct (dr_new_full _ _ Hd id h h' E E' B) as [I|An]; [|right; by rewrite <- Hpos].
  destruct (Hc id) as [|An]; [|by left|right; rewrite <- Hpos in *; by apply (dr_announced _ _ Hd id h)].
  split; [done|]. exists h. split_and!; try done. unfold holder_load_level in *. by rewrite <- (hd_load _ _ D).
Qed.

(** No readiness word is past generation [G]. *)
Definition gens_le (G : Z) m : Prop :=
  forall id h, heap m !! id = Some h -> word_generation (h_readiness h) <= G.

Lemma gens_drives G k m m' :
  map_ok m -> drives m m' -> 0 <= k ->
  (forall p cl cl', cells m p = Some cl -> cells m' p = Some cl' -> c_generation cl' <= c_generation cl + k) ->
  gens_le G m -> gens_le (G + k) m'.
Proof.
  intros Hok Hd Hk Hc Hg id h' E'. destruct (drives_heap_inv _ _ _ _ Hd E') as (h & E & D).
  specialize (Hg id h E). destruct (holder_place m id h Hok E) as [(A & _)|(A & _)].
  - specialize (Hc (h_pos h) (cell_of id h) (cell_of id h')). simpl in Hc.
    assert (word_generation (h_readiness h') <= word_generation (h_readiness h) + k); [|lia]. apply Hc.
    + unfold cells. rewrite A. simpl. by rewrite E.
    + unfold cells. rewrite (dr_chunks _ _ Hd), A. simpl. by rewrite E'.
  - rewrite (dr_idle _ _ Hd id h h' E E' A). lia.
Qed.

Lemma gens_evolves G m m' : evolves m m' -> gens_le G m -> gens_le G m'.
Proof.
  intros He Hg id h' E'. pose proof (ev_heap _ _ He id) as F. rewrite E' in F.
  inversion F as [h0 ? Hh E0 E1|]; subst. rewrite (he_readiness _ _ Hh). by apply (Hg id).
Qed.

Lemma gens_room G k m : gens_le G m -> G + k <= MAX_GENERATION -> cells_room k m.
Proof.
  intros Hg HG p cl (h & _ & E & ->)%cells_Some. simpl. specialize (Hg _ h E). lia.
Qed.

(** ** The levels of all changes *)

(** The active holder of a changed position, with the level it got. *)
Definition to_schedule m (c : LevelChange) : option (Z * ChunkTicketLevel) :=
  cl ← cells m (ch_pos c); level ← ch_new_level c; Some (c_id cl, level).

Record levels_done (done : list LevelChange) m (os : list (Z * ChunkTicketLevel)) m' : Prop := {
  ld_ok : map_ok m';
  ld_neighborhood : full_neighborhood m' = full_neighborhood m;
  ld_snapshot : ticking_chunks m' = ticking_chunks m;
  ld_other : forall p, p ∉ (ch_pos <$> done) -> cells m' p = cells m p /\
    deferred_revivals m' !! p = deferred_revivals m !! p;
  ld_world : forall id b, has_world m id b -> has_world m' id b;
  ld_gens : forall G, 0 <= G -> gens_le G m -> gens_le G m';
  ld_counted : forall p, counted_or_announced m p -> counted_or_announced m' p;
  ld_result : Forall (fun c => exists o, level_result c (cells m (ch_pos c)) o m') done;
  ld_holders : os = omap (to_schedule m') done;
  ld_deferred : forall p r, deferred_revivals m' !! p = Some r -> deferred_revivals m !! p = Some r \/
    exists c, c ∈ done /\ ch_pos c = p /\ deferred_by c r m';
}.

Lemma level_result_ext c before o m m' :
  cells m' (ch_pos c) = cells m (ch_pos c) ->
  deferred_revivals m' !! ch_pos c = deferred_revivals m !! ch_pos c ->
  level_result c before o m -> level_result c before o m'.
Proof. intros E1 E2. unfold level_result. by rewrite E1, E2. Qed.

Lemma level_result_schedule c before o m :
  level_result c before o m -> (id ← o; level ← ch_new_level c; Some (id, level)) = to_schedule m c.
Proof.
  unfold level_result, to_schedule. destruct (ch_new_level c) as [l|].
  - intros [(cl & -> & -> & _)|(-> & _ & -> & _)]; done.
  - by intros (-> & -> & _).
Qed.

Lemma levels_done_evolves done m os m1 m2 :
  levels_done done m os m1 -> map_ok m2 -> evolves m1 m2 -> levels_done done m os m2.
Proof.
  intros [L1 L2 L3 L4 L5 L6 L7 L8 L9 L10] Hok He. pose proof (evolves_drives _ _ Hok He) as Hd.
  assert (forall p, cells m2 p = cells m1 p) as Hc by (intros; by apply evolves_cells).
  split; try done.
  - by rewrite (ev_neighborhood _ _ He).
  - by rewrite (ev_snapshot _ _ He).
  - intros p Hp. rewrite Hc, (ev_deferred _ _ He). auto.
  - intros id b H. by apply (has_world_drives m1); [apply L5|].
  - intros G HG H. by apply (gens_evolves G m1 m2); [|apply L6].
  - intros p H. by apply (drives_counted m1); [..|apply L7].
  - eapply Forall_impl; [exact L8|]. intros c [o Ho]. exists o. eapply level_result_ext; [..|exact Ho]; [done|].
    by rewrite (ev_deferred _ _ He).
  - rewrite L9. apply list_omap_ext, Forall_Forall2_diag, Forall_forall. intros c _.
    unfold to_schedule. by rewrite Hc.
  - intros p r. rewrite (ev_deferred _ _ He). intros [?|(c & H1 & H2 & H3)]%L10; [by left|right].
    exists c. unfold deferred_by in *. by rewrite Hc.
Qed.

Lemma levels_done_step done m os m1 c o m2 :
  levels_done done m os m1 -> ch_pos c ∉ (ch_pos <$> done) -> leveled c m1 o m2 ->
  levels_done (done ++ [c]) m (os ++ match (id ← o; level ← ch_new_level c; Some (id, level)) with
                                     | Some b => [b] | None => [] end) m2.
Proof.
  intros [L1 L2 L3 L4 L5 L6 L7 L8 L9 L10] Hnew [V1 V2 V3 V4 V5 V6 V7 V8 V9].
  assert (forall c0, c0 ∈ done -> ch_pos c0 <> ch_pos c) as Hne.
  { intros c0 Hc0 E. apply Hnew. rewrite <- E. by apply list_elem_of_fmap_2. }
  split; try done; try congruence.
  - intros p Hp. rewrite fmap_app, elem_of_app in Hp. destruct (V4 p) as [-> ->].
    + intros ->. apply Hp. right. by left.
    + apply L4. tauto.
  - intros id b (h & E & Hl)%L5. destruct (V5 id h E) as (h' & E' & Hl' & _).
    exists h'. split; [done|]. congruence.
  - intros G HG Hg id h' E'. destruct (heap m1 !! id) as [h|] eqn:E.
    + destruct (V5 id h E) as (h2 & E2 & _ & R). rewrite E' in E2. injection E2 as <-. rewrite R.
      by apply (L6 G HG Hg id).
    + rewrite (V6 id h' E' E). change (word_generation 0) with 0. done.
  - auto.
  - apply Forall_app. split; [|constructor; [|done]].
    + rewrite Forall_forall in L8. apply Forall_forall. intros c0 Hc0. destruct (L8 c0 Hc0) as [o0 H0].
      exists o0. destruct (V4 _ (Hne c0 Hc0)) as [E1 E2]. by apply (level_result_ext _ _ _ m1).
    + exists o. destruct (L4 _ Hnew) as [E _]. by rewrite <- E.
  - rewrite (level_result_schedule _ _ _ _ V8), omap_app, L9. f_equal.
    apply list_omap_ext, Forall_Forall2_diag, Forall_forall. intros c0 Hc0. unfold to_schedule.
    by rewrite (proj1 (V4 _ (Hne c0 Hc0))).
  - intros p r Hr. destruct (decide (p = ch_pos c)) as [->|Hpne].
    + destruct (V9 r Hr) as [H|H]; [|right; exists c; set_solver].
      left. by rewrite <- (proj2 (L4 _ Hnew)).
    + rewrite (proj2 (V4 p Hpne)) in Hr. destruct (L10 p r Hr) as [?|(c0 & H1 & H2 & H3)]; [by left|right].
      exists c0. split; [set_solver|]. split; [done|]. unfold deferred_by in *. by rewrite (proj1 (V4 _ (Hne c0 H1))).
Qed.

Lemma wp_commit_levels changes m :
  map_ok m -> changes_ok changes -> Forall (fun c => level_pre c m) changes ->
  wp (commit_levels world_min_y world_height changes) (levels_done changes m) m.
Proof.
  intros Hok [Hnd Hch] Hpre. unfold commit_levels.
  eapply wp_mono; [|apply (wp_filter_map changes _ (fun rest os m1 => exists done, changes = done ++ rest /\
    levels_done done m os m1) m [])].
  - intros os m' (done & E & Hl). rewrite app_nil_r in E. by subst done.
  - intros l os m1 (done & _ & Hl). exact (ld_ok _ _ _ _ Hl).
  - intros l os m1 m2 (done & E & Hl) Hok2 He. exists done. split; [done|]. by apply (levels_done_evolves done m os m1).
  - intros c rest os m1 (done & -> & Hl). rewrite fmap_app in Hnd. apply NoDup_app in Hnd as (_ & Hdisj & _).
    assert (ch_pos c ∉ (ch_pos <$> done)) as Hnew by (intros Hin; apply (Hdisj _ Hin); left).
    rewrite Forall_app, Forall_cons in Hch, Hpre. destruct Hch as (_ & Hc & _), Hpre as (_ & Hp & _).
    apply wp_bind. eapply wp_mono; [|apply (wp_update_level world_min_y world_height c m1); [exact (ld_ok _ _ _ _ Hl)|done|]].
    + intros o m2 Hv. apply wp_ret. exists (done ++ [c]). split; [by rewrite <- (assoc_L (++))|].
      by apply (levels_done_step done m os m1).
    + unfold level_pre in *. by rewrite (proj1 (ld_other _ _ _ _ Hl _ Hnew)), (ld_neighborhood _ _ _ _ Hl).
  - exists []. split; [done|]. split; try done. by left.
Qed.

(** ** The final demotions and promotions *)

Record same_holder (cl cl' : cell) : Prop := {
  sh_id : c_id cl' = c_id cl;
  sh_load : c_load cl' = c_load cl;
  sh_sim : c_sim cl' = c_sim cl;
}.

(** A cell wakes up only with its world. *)
Definition wakes m (cl cl' : cell) : Prop :=
  c_ready cl' <> Unready -> c_ready cl <> Unready \/ has_world m (c_id cl') true.

Record finaled (ps : list ChunkPos) m (b : bool) m' : Prop := {
  fn_drives : drives m m';
  fn_cells : forall p cl, cells m p = Some cl -> exists cl', cells m' p = Some cl' /\ same_holder cl cl' /\
    c_generation cl' <= c_generation cl + 2 /\ wakes m' cl cl' /\
    (if decide (p ∈ ps) then settled m' p cl' else cl' = cl);
  fn_flag : b = false -> forall p cl cl', cells m p = Some cl -> cells m' p = Some cl' ->
    same_membership cl cl' = true;
  fn_pending : forall p cl', cells m' p = Some cl' -> p ∈ ps ->
    pending_readiness (full_neighborhood m') !! p = pending_entry (c_load cl') cl';
  fn_pending_other : forall p, p ∉ ps \/ cells m p = None ->
    pending_readiness (full_neighborhood m') !! p = pending_readiness (full_neighborhood m) !! p;
}.

Lemma finaled_refl m : map_ok m -> finaled [] m false m.
Proof.
  intros Hok. split; try done.
  - by apply drives_refl.
  - intros p cl Hcl. exists cl. rewrite decide_False by by intros ?%elem_of_nil. split_and!; try done; [lia|by left].
  - intros _ p cl cl' -> [= <-]. apply same_membership_refl.
  - by intros p cl' _ ?%elem_of_nil.
Qed.

Lemma retarget_spec cl t :
  same_holder cl (retarget cl t) /\ c_ready (retarget cl t) = t /\
  c_generation cl <= c_generation (retarget cl t) <= c_generation cl + 1.
Proof. unfold retarget. case_decide as E; simpl; split_and!; try done; try lia. Qed.

(** A demoted cell that is then promoted to the same target is settled. *)
Lemma promoted_settled m p cl cl1 cl2 c :
  cl1 = demote cl (ca_target c) -> promoted c cl1 cl2 m ->
  ca_target c = allowed_readiness (c_load cl) (counts m p) ->
  same_holder cl cl2 /\ c_generation cl2 <= c_generation cl + 2 /\ wakes m cl cl2 /\ settled m p cl2.
Proof.
  intros E1 Hp Et. destruct (demote_spec cl (ca_target c)) as (D1 & D2 & D3 & D4 & D5). rewrite <- E1 in *.
  assert (c_ready cl1 <> Unready -> c_ready cl <> Unready) as Hdown.
  { destruct (c_ready cl1), (c_ready cl); simpl in D5; try done; destruct (ca_target c); simpl in D5; lia. }
  unfold promoted in Hp. destruct (Z.leb_spec (rank (ca_target c)) (rank (c_ready cl1))) as [Hle|Hlt].
  - subst cl2. split; [by split|]. split; [lia|]. split; [left; auto|]. left. rewrite D2, <- Et. apply rank_inj. lia.
  - destruct (retarget_spec cl1 (ca_target c)) as ([R1 R2 R3] & R4 & R5).
    destruct Hp as [[-> Hw]|(-> & Hu & Hw)].
    + split; [by split; congruence|]. split; [lia|]. split; [|left; by rewrite R4, R2, D2].
      intros _. destruct (decide (c_ready cl1 = Unready)) as [Hu|Hu]; [right; rewrite R1; auto|left; auto].
    + split; [by split|]. split; [lia|]. split; [by left; auto|by right].
Qed.

Lemma settled_drives m m' p cl : drives m m' -> settled m p cl -> settled m' p cl.
Proof.
  intros Hd [H|[H1 H2]].
  - left. unfold counts_at in *. by rewrite (dr_counts _ _ Hd).
  - right. split; [done|]. by apply (has_world_drives m).
Qed.

(** The candidates of a demotion phase without new levels. *)
Lemma final_candidates ps m cs b m1 :
  map_ok m -> NoDup ps -> demote_post ps None m cs b m1 ->
  candidates_ok m1 cs /\
  (forall p, p ∈ (ca_pos <$> cs) <-> p ∈ ps /\ is_Some (cells m p)) /\
  Forall (fun c => exists cl, cells m (ca_pos c) = Some cl /\
    ca_target c = allowed_readiness (c_load cl) (counts m (ca_pos c)) /\
    ca_desired c = desired_ticking_readiness (c_load cl)) cs.
Proof.
  intros Hok Hnd [P1 P2 P3 P4 P5 P6]. destruct (candidates_of_ok m None ps Hnd) as [[Hcs1 Hcs2] Hin].
  rewrite <- P2 in *. split_and!; [|done|].
  - split; [done|]. eapply Forall_impl; [exact Hcs2|]. intros c (cl & Hcl & Hid). rewrite (P3 _ _ Hcl).
    eexists. split; [done|]. case_decide; [|done]. by rewrite (proj1 (demote_spec cl _)).
  - apply Forall_forall. intros c Hc. rewrite P2 in Hc. apply list_elem_of_omap in Hc as (p & Hp & E).
    destruct (cells m p) as [cl|] eqn:Hcl; [|by unfold candidate_at in E; rewrite Hcl in E].
    destruct (candidate_at_Some m None p cl c Hcl E) as (-> & _ & Et & Ed). eauto.
Qed.

(** The cells after demotions and promotions. *)
Lemma promoted_cells ps m cs b m1 b2 m2 :
  map_ok m -> NoDup ps -> demote_post ps None m cs b m1 -> cells_moved promoted cs m1 b2 m2 ->
  forall p cl, cells m p = Some cl -> exists cl', cells m2 p = Some cl' /\ same_holder cl cl' /\
    c_generation cl' <= c_generation cl + 2 /\ wakes m2 cl cl' /\
    (if decide (p ∈ ps) then settled m2 p cl' else cl' = cl).
Proof.
  intros Hok Hnd Hdp [M1 M2 M3 M4 M5] p cl Hcl.
  destruct (final_candidates ps m cs b m1 Hok Hnd Hdp) as (Hcs & Hin & Htarget). destruct Hdp as [P1 P2 P3 P4 P5 P6].
  pose proof (P3 p cl Hcl) as Hcl1. case_decide as Hp.
  - pose proof (proj2 (Hin p) (conj Hp (mk_is_Some _ _ Hcl))) as (c & -> & Hc)%list_elem_of_fmap.
    rewrite Forall_forall in Htarget, M3. destruct (Htarget c Hc) as (cl0 & E0 & Et & Ed).
    rewrite Hcl in E0. injection E0 as <-. destruct (M3 c Hc _ Hcl1) as (cl2 & Hcl2 & HR). exists cl2. split; [done|].
    apply (promoted_settled m2 (ca_pos c) cl (demote cl (target_at m None (ca_pos c) cl)) cl2 c).
    + f_equal. unfold target_at, effective_level. simpl. by rewrite Et.
    + done.
    + rewrite Et. unfold counts_at. by rewrite (dr_counts _ _ M1), (dr_counts _ _ P1).
  - exists cl. rewrite M4 by (rewrite Hin; tauto). split_and!; try done; [lia|by left].
Qed.

Lemma wp_promote_phase ps m cs b m1 :
  map_ok m -> NoDup ps -> cells_room 2 m -> demote_post ps None m cs b m1 ->
  wp (promoted ← any_prog cs promote_candidate;
      _ ← update_pending_readiness cs; mret (b || promoted)) (finaled ps m) m1.
Proof.
  intros Hok Hnd Hroom Hdp. pose proof (final_candidates ps m cs b m1 Hok Hnd Hdp) as (Hcs & Hin & Htarget).
  pose proof (dr_ok _ _ (dp_drives _ _ _ _ _ _ Hdp)) as Hok1. destruct (Hdp) as [P1 P2 P3 P4 P5 P6].
  apply wp_bind. eapply wp_mono; [|apply wp_promotions; [done|done|..]].
  2: { apply cells_room_has. intros p cl1 Hcl1. destruct (cells m p) as [cl|] eqn:Hcl.
       - rewrite (P3 p cl Hcl) in Hcl1. injection Hcl1 as <-. specialize (Hroom p cl Hcl).
         case_decide; [|lia]. destruct (demote_spec cl (target_at m None p cl)) as (_ & _ & _ & ? & _). lia.
       - apply (cells_None_drives m m1 p P1 Hok) in Hcl. congruence. }
  2: { eapply Forall_impl; [exact Htarget|]. intros c (cl & _ & Et & _). exists (c_load cl).
       unfold counts_at in *. by rewrite (dr_counts _ _ P1). }
  intros b2 m2 Hmoved. pose proof (promoted_cells ps m cs b m1 b2 m2 Hok Hnd Hdp Hmoved) as Hc2.
  destruct Hmoved as [M1 M2 M3 M4 M5]. pose proof (drives_trans _ _ _ P1 M1) as Hd2.
  assert (candidates_ok m2 cs) as Hcs2.
  { destruct Hcs as [H1 H2]. split; [done|]. rewrite Forall_forall in H2, Htarget. apply Forall_forall. intros c Hc.
    destruct (Htarget c Hc) as (cl & Hcl & _), (H2 c Hc) as (cl1 & Hcl1 & Hid).
    destruct (Hc2 _ _ Hcl) as (cl2 & Hcl2 & [Hs _ _] & _). exists cl2. split; [done|]. rewrite Hs, <- Hid.
    rewrite (P3 _ _ Hcl) in Hcl1. injection Hcl1 as <-. case_decide; [|done]. by rewrite (proj1 (demote_spec cl _)). }
  apply wp_bind. eapply wp_mono; [|by apply wp_update_pending; [exact (dr_ok _ _ M1)|]].
  intros u m3 (D3 & C3 & [Q1 Q2]). apply wp_ret. split.
  - by apply (drives_trans m m2).
  - intros p cl Hcl. destruct (Hc2 p cl Hcl) as (cl' & Hcl' & H1 & H2 & Hw & H3). exists cl'. rewrite C3.
    split_and!; try done; [|case_decide; [by apply (settled_drives m2)|done]].
    intros Hr. destruct (Hw Hr) as [?|?]; [by left|right; by apply (has_world_drives m2)].
  - intros [-> ->]%orb_false_iff p cl cl'. rewrite C3. intros Hcl Hcl'. pose proof (P3 p cl Hcl) as Hcl1.
    eapply same_membership_trans; [by apply (P4 eq_refl p)|by apply (M5 eq_refl p)].
  - intros p cl' Hcl' Hp. rewrite C3 in Hcl'. destruct (cells m p) as [cl|] eqn:Hcl.
    + pose proof (proj2 (Hin p) (conj Hp (mk_is_Some _ _ Hcl))) as (c & -> & Hc)%list_elem_of_fmap.
      rewrite Forall_forall in Htarget, Q1. rewrite (Q1 c Hc cl' Hcl'). unfold pending_entry.
      destruct (Htarget c Hc) as (cl0 & E0 & _ & ->), (Hc2 _ _ Hcl) as (cl2 & Hcl2 & [_ Hl _] & _).
      rewrite Hcl in E0. injection E0 as <-. rewrite Hcl' in Hcl2. injection Hcl2 as <-. by rewrite Hl.
    + apply (cells_None_drives m m2 p Hd2 Hok) in Hcl. congruence.
  - intros p Hp. rewrite Q2, M2; [by apply P6|]. rewrite Hin. intros [H1 [cl H2]]. destruct Hp; [done|congruence].
Qed.

Lemma wp_apply_final ps m :
  map_ok m -> NoDup ps -> cells_room 2 m ->
  wp (apply_final_readiness ((fun p => (p, counts m p)) <$> ps)) (finaled ps m) m.
Proof.
  intros Hok Hnd Hroom. unfold apply_final_readiness. destruct ps as [|p0 ps0] eqn:Eps.
  { apply wp_ret. by apply finaled_refl. }
  rewrite <- Eps in *. destruct ((fun p => (p, counts m p)) <$> ps) as [|x l] eqn:Ex; [by rewrite Eps in Ex|].
  rewrite <- Ex. clear p0 ps0 Eps x l Ex.
  apply (wp_demote_phase ps None (fun cs b => promoted ← any_prog cs promote_candidate;
    _ ← update_pending_readiness cs; mret (b || promoted))); [done|done| |].
  - intros p cl Hcl. specialize (Hroom p cl Hcl). lia.
  - intros cs b m1 Hdp. by apply wp_promote_phase.
Qed.

(** ** Reconciling the contributors *)

Definition overlay (u : gmap ChunkPos (option Z)) (cs : gmap ChunkPos Z) (p : ChunkPos) : option Z :=
  match u !! p with Some o => o | None => cs !! p end.

Lemma reconcile_all_progress l n :
  nb_ok n -> NoDup l.*1 -> Forall (fun x => ChunkPos_ok x.1) l ->
  exists n', reconcile_contributors l n = Ok n' /\ nb_progress n n' /\
    forall p, contributors n' !! p = overlay (list_to_map l) (contributors n) p.
Proof.
  unfold reconcile_contributors, overlay. revert n. induction l as [|[q o] l IH]; intros n Hok Hnd Hall; simpl.
  { exists n. split; [done|]. split; [by apply nb_progress_refl|]. intros p. by rewrite lookup_empty. }
  apply NoDup_cons in Hnd as [Hq Hnd]. apply Forall_cons in Hall as [Hqok Hall]. simpl in *.
  destruct (reconcile_progress n q o Hok Hqok) as (n1 & -> & P1 & C1).
  destruct (IH n1 (np_ok _ _ P1) Hnd Hall) as (n' & E & P & C). exists n'. split; [done|].
  split; [by apply (nb_progress_trans n n1)|]. intros p. rewrite C, C1.
  destruct (decide (p = q)) as [->|Hne].
  - by rewrite lookup_insert_eq, lookup_partial_alter_eq, not_elem_of_list_to_map_1.
  - by rewrite lookup_insert_ne, lookup_partial_alter_ne.
Qed.

(** The last entry for a position wins. *)
Definition updates_of (l : list (ChunkPos * option Z)) : gmap ChunkPos (option Z) :=
  foldl (fun u '(pos, o) => <[pos := o]> u) ∅ l.

Lemma updates_of_Some l p o : updates_of l !! p = Some o -> (p, o) ∈ l.
Proof.
  unfold updates_of. induction l as [|[q x] l IH] using rev_ind; simpl; [done|].
  rewrite foldl_snoc. intros [[<- <-]|[_ H]]%lookup_insert_Some; set_solver.
Qed.

Lemma updates_of_None l p o : updates_of l !! p = None -> (p, o) ∉ l.
Proof.
  unfold updates_of. induction l as [|[q x] l IH] using rev_ind; simpl; [by intros _ ?%elem_of_nil|].
  rewrite foldl_snoc. intros [H Hne]%lookup_insert_None [Hin|[= <- <-]%list_elem_of_singleton]%elem_of_app; [|done].
  by apply IH.
Qed.

(** What is known of an entry computed for a position. *)
Definition entry_sound m (x : ChunkPos * option Z) : Prop := forall id, x.2 = Some id -> full_holder m x.1 id.

Definition entry_complete m (x : ChunkPos * option Z) : Prop :=
  forall id, full_holder m x.1 id -> x.2 = Some id \/ announced m x.1 id.

Lemma full_holder_evolves m m' p id : evolves m m' -> full_holder m p id -> full_holder m' p id.
Proof.
  intros He (A & h & E & B & C). split; [by rewrite (ev_chunks _ _ He)|].
  pose proof (ev_heap _ _ He id) as F. rewrite E in F. inversion F as [? h' Hh E1 E2|]; subst.
  exists h'. split; [done|]. split; [by apply (he_init _ _ Hh)|]. unfold holder_load_level in *.
  by rewrite (he_load _ _ Hh).
Qed.

(** A holder that counts now counted before, or was announced since. *)
Lemma full_holder_back m m' p id : map_ok m -> evolves m m' -> full_holder m' p id ->
  full_holder m p id \/ announced m' p id.
Proof.
  intros Hok He (A & h' & E' & B & C). rewrite (ev_chunks _ _ He) in A.
  pose proof (ev_heap _ _ He id) as F. rewrite E' in F. inversion F as [h ? Hh E1 E2|]; subst.
  symmetry in E1. destruct (active_holder m p id h Hok A E1) as (Hpos & _ & _).
  destruct (ev_new_full _ _ He id h h' E1 E' B) as [I|An]; [left|right; by rewrite <- Hpos].
  split; [done|]. exists h. split_and!; try done. unfold holder_load_level in *. by rewrite <- (he_load _ _ Hh).
Qed.

Lemma announced_evolves m m' p id : evolves m m' -> full_holder m p id -> map_ok m ->
  announced m p id -> announced m' p id.
Proof.
  intros He (A & h & E & _) Hok An. destruct (active_holder m p id h Hok A E) as (<- & _ & _).
  by apply (ev_announced _ _ He id h).
Qed.

Lemma entry_evolves m m' x : map_ok m -> evolves m m' -> entry_sound m x -> entry_sound m' x.
Proof. intros Hok He Hs id E. by apply (full_holder_evolves m), Hs. Qed.

Lemma entry_complete_evolves m m' x : map_ok m -> evolves m m' -> entry_complete m x -> entry_complete m' x.
Proof.
  intros Hok He Hc id Hf. destruct (full_holder_back m m' _ id Hok He Hf) as [H|H]; [|by right].
  destruct (Hc id H) as [E|An]; [by left|right]. by apply (announced_evolves m m').
Qed.

Lemma full_holder_intro m p id h : chunks m !! p = Some id -> heap m !! id = Some h ->
  full_holder m p id <-> h_full_init h = true /\ is_full_level (holder_load_level h) = true.
Proof.
  intros Hp Hh. unfold full_holder. rewrite Hp, Hh. split; [by intros (_ & ? & [= <-] & ?)|]. eauto.
Qed.

Lemma wp_current_contributor p m (Q : option Z -> ChunkMap T -> Prop) :
  map_ok m -> (forall o, (forall id, o = Some id <-> full_holder m p id) -> Q o m) ->
  wp (current_full_contributor p) Q m.
Proof.
  intros Hok HQ. unfold current_full_contributor. apply wp_bind, wp_get.
  destruct (chunks m !! p) as [id|] eqn:Hp.
  - destruct (mo_chunks _ Hok p id Hp) as (h & Hh & _). pose proof (full_holder_intro m p id h Hp Hh) as Hf.
    assert (forall i, full_holder m p i -> i = id) as Hi by (intros i [? _]; congruence).
    apply wp_bind, (wp_read_holder id h); [done|].
    destruct (is_full_level (holder_load_level h)).
    + apply wp_bind. eapply wp_expect; [by apply (is_full_ready_init m id)|]. apply wp_ret, HQ.
      intros i. destruct (h_full_init h); (split; [|intros H; pose proof (Hi i H) as ->]); try done.
      * intros [= <-]. by apply Hf.
      * by apply Hf in H as [? _].
    + apply wp_ret, HQ. intros i. split; [done|]. intros H. pose proof (Hi i H) as ->. by apply Hf in H as [_ ?].
  - apply wp_ret, HQ. intros i. split; [done|]. intros [? _]. congruence.
Qed.

Lemma wp_validate pub m (Q : option Z -> ChunkMap T -> Prop) :
  map_ok m ->
  (forall o, (forall id, o = Some id <-> id = fp_holder pub /\ full_holder m (fp_pos pub) id) -> Q o m) ->
  wp (validate_full_publication pub) Q m.
Proof.
  intros Hok HQ. unfold validate_full_publication. apply wp_bind, wp_get.
  destruct (heap m !! fp_holder pub) as [h|] eqn:Hh.
  2: { apply wp_ret, HQ. intros i. split; [done|]. intros (-> & _ & h & ? & _). congruence. }
  destruct (chunks m !! fp_pos pub) as [id|] eqn:Hp.
  2: { apply wp_ret, HQ. intros i. split; [done|]. intros (_ & ? & _). congruence. }
  destruct (mo_chunks _ Hok _ id Hp) as (h1 & Hh1 & _). pose proof (full_holder_intro m _ id h1 Hp Hh1) as Hf.
  apply wp_bind, (wp_read_holder id h1); [done|].
  destruct (bool_decide (fp_holder pub = id) && is_full_level (holder_load_level h1)) eqn:Eb.
  - apply andb_true_iff in Eb as [<-%bool_decide_eq_true Hl].
    apply wp_bind. eapply wp_expect; [by apply (is_full_ready_init m (fp_holder pub))|]. apply wp_ret, HQ.
    intros i. destruct (h_full_init h1); (split; [|intros [-> H]]); try done.
    + intros [= <-]. split; [done|]. by apply Hf.
    + by apply Hf in H as [? _].
  - apply wp_ret, HQ. intros i. split; [done|]. intros [-> H]. assert (fp_holder pub = id) as E.
    { destruct H as [? _]. congruence. }
    rewrite E in H. apply Hf in H as [_ Hl]. rewrite Hl, andb_true_r in Eb. by apply bool_decide_eq_false in Eb.
Qed.

(** The entries of the changed positions. *)
Lemma wp_current_entries changed m :
  map_ok m ->
  wp (filter_map_prog changed (fun pos => o ← current_full_contributor pos; mret (Some (pos, o))))
    (fun l m' => map_ok m' /\ evolves m m' /\ l.*1 = changed /\
       Forall (fun x => entry_sound m' x /\ entry_complete m' x) l) m.
Proof.
  intros Hok.
  eapply wp_mono; [|apply (wp_filter_map changed _ (fun rest l m1 => map_ok m1 /\ evolves m m1 /\
    l.*1 ++ rest = changed /\ Forall (fun x => entry_sound m1 x /\ entry_complete m1 x) l) m [])].
  - intros l m' (H1 & H2 & H3 & H4). by rewrite app_nil_r in H3.
  - by intros ? ? ? (? & _).
  - intros rest l m1 m2 (Hok1 & He & E & Hl) Hok2 He2. split_and!; [done|by etransitivity|done|].
    eapply Forall_impl; [exact Hl|]. intros x [H1 H2]. split; [by apply (entry_evolves m1)|by apply (entry_complete_evolves m1)].
  - intros p rest l m1 (Hok1 & He & E & Hl). apply wp_bind, wp_current_contributor; [done|]. intros o Ho. apply wp_ret.
    split_and!; [done|done| |].
    + rewrite fmap_app, <- (assoc_L (++)). done.
    + apply Forall_app. split; [done|]. constructor; [|done].
      split; [intros id E1; by apply Ho|]. intros id H. left. by apply Ho.
  - by split_and!.
Qed.

(** The entries of the drained publications. *)
Lemma wp_published_entries pubs m :
  map_ok m ->
  wp (filter_map_prog pubs (fun p => o ← validate_full_publication p; mret (id ← o; Some (fp_pos p, Some id))))
    (fun l m' => map_ok m' /\ evolves m m' /\
       Forall (fun x => entry_sound m' x /\ is_Some x.2) l /\
       forall p id, mkPublication p id ∈ pubs -> full_holder m p id -> (p, Some id) ∈ l) m.
Proof.
  intros Hok.
  eapply wp_mono; [|apply (wp_filter_map pubs _ (fun rest l m1 => map_ok m1 /\ evolves m m1 /\
    Forall (fun x => entry_sound m1 x /\ is_Some x.2) l /\ exists done, pubs = done ++ rest /\
      forall p id, mkPublication p id ∈ done -> full_holder m p id -> (p, Some id) ∈ l) m [])].
  - intros l m' (H1 & H2 & H3 & done & E & H4). rewrite app_nil_r in E. by subst done.
  - by intros ? ? ? (? & _).
  - intros rest l m1 m2 (Hok1 & He & Hl & H) Hok2 He2. split_and!; [done|by etransitivity| |done].
    eapply Forall_impl; [exact Hl|]. intros x [H1 H2]. split; [by apply (entry_evolves m1)|done].
  - intros pub rest l m1 (Hok1 & He & Hl & done & -> & Hd). apply wp_bind, wp_validate; [done|]. intros o Ho. apply wp_ret.
    split_and!; [done|done| |exists (done ++ [pub]); split; [by rewrite <- (assoc_L (++))|]].
    + apply Forall_app. split; [done|]. destruct o as [id|]; simpl; [|done]. constructor; [|done].
      split; [|done]. intros i [= <-]. by apply Ho.
    + intros p id [Hin|E%list_elem_of_singleton]%elem_of_app Hf; apply elem_of_app; [left; by apply Hd|right].
      subst pub. rewrite (proj2 (Ho id)); [by left|]. split; [done|]. by apply (full_holder_evolves m).
  - split_and!; try done. exists []. split; [done|]. by intros p id ?%elem_of_nil.
Qed.

(** The overlay of the entries counts every Full active holder that is not announced. *)
Lemma overlay_complete m m1 m2 changed current published :
  let u := updates_of (current ++ published) in
  map_ok m1 -> chunks m1 = chunks m -> heap m1 = heap m -> producers m1 = producers m ->
  evolves m1 m2 -> (forall p, counted_or_announced m p) ->
  Forall (fun x => entry_sound m2 x /\ entry_complete m2 x) current -> current.*1 = changed ->
  Forall (fun x => entry_sound m2 x /\ is_Some x.2) published ->
  (forall p id, mkPublication p id ∈ full_publications m -> full_holder m1 p id -> (p, Some id) ∈ published) ->
  (forall p id, contributors (full_neighborhood m) !! p = Some id -> full_holder m p id) ->
  (forall p id, overlay u (contributors (full_neighborhood m)) p = Some id -> full_holder m2 p id) /\
  forall p id, full_holder m2 p id ->
    overlay u (contributors (full_neighborhood m)) p = Some id \/ announced m2 p id.
Proof.
  intros u Hok1 Ec Eh Epr He Hca Hcur Echanged Hpub Hdrain Hc.
  assert (forall p id, full_holder m1 p id <-> full_holder m p id) as Hf1.
  { intros p id. unfold full_holder. by rewrite Ec, Eh. }
  rewrite Forall_forall in Hcur, Hpub. unfold overlay. split.
  - intros p id Ho. unfold u in Ho. destruct (updates_of (current ++ published) !! p) as [o|] eqn:E.
    + apply updates_of_Some in E. apply elem_of_app in E as [E|E].
      * by apply (proj1 (Hcur _ E) id).
      * by apply (proj1 (Hpub _ E) id).
    + by apply (full_holder_evolves m1), Hf1, Hc.
  - intros p id Hf. unfold u. destruct (updates_of (current ++ published) !! p) as [o|] eqn:E.
    + apply updates_of_Some in E. apply elem_of_app in E as [E|E].
      * by apply (proj2 (Hcur _ E)).
      * destruct (Hpub _ E) as [Hs [i Hi]]. simpl in Hi. subst o. left. destruct (Hs i eq_refl) as [A _], Hf as [B _].
        simpl in A. congruence.
    + destruct (full_holder_back m1 m2 p id Hok1 He Hf) as [H|H]; [|by right]. pose proof H as H'. apply Hf1 in H'.
      destruct (Hca p id H') as [C|An]; [by left|right]. apply (announced_evolves m1 m2); try done.
      destruct An as [Hin|An].
      * exfalso. apply (updates_of_None _ p (Some id) E). apply elem_of_app. right. by apply Hdrain.
      * right. unfold producers_of in *. by rewrite Epr.
Qed.

(** The state with the queue drained. *)
Lemma drain_ok m : map_ok m -> map_ok (set_full_publications m []).
Proof.
  intros Hok. split; simpl; try apply Hok; try by intros p id ?%elem_of_nil.
  intros id h Hh. by destruct (mo_holder _ Hok id h Hh).
Qed.

Record reconciled (changed : list ChunkPos) m (b : bool) m' : Prop := {
  rc_ok : map_ok m';
  rc_dirty : dirty_centers (full_neighborhood m') = ∅;
  rc_index : exists n, nb_progress (full_neighborhood m) n /\ Forall (fun p => p ∈ dirty_centers n) changed /\
    nb_counts (full_neighborhood m') = nb_counts n /\
    (forall p cl, cells m p = Some cl -> exists cl', cells m' p = Some cl' /\ same_holder cl cl' /\
       (if decide (p ∈ dirty_centers n)
        then settled m' p cl' /\ pending_readiness (full_neighborhood m') !! p = pending_entry (c_load cl') cl'
        else cl' = cl /\ pending_readiness (full_neighborhood m') !! p = pending_readiness (full_neighborhood m) !! p));
  rc_none : forall p, cells m p = None -> cells m' p = None /\
    pending_readiness (full_neighborhood m') !! p = pending_readiness (full_neighborhood m) !! p;
  rc_flag : b = false -> forall p cl cl', cells m p = Some cl -> cells m' p = Some cl' -> same_membership cl cl' = true;
  rc_snapshot : ticking_chunks m' = ticking_chunks m;
  rc_deferred : deferred_revivals m' = deferred_revivals m;
  rc_world : forall id b, has_world m id b -> has_world m' id b;
  rc_worldly : worldly m -> worldly m';
  rc_gens : forall G, gens_le G m -> gens_le (G + 2) m';
  rc_counted : forall p, counted_or_announced m' p;
}.

(** From the state with the index replaced to the end. *)
Lemma finaled_reconciled changed m m2 n b m' :
  map_ok m2 -> evolves (set_full_publications m []) m2 ->
  nb_progress (full_neighborhood m) n -> Forall (fun p => p ∈ dirty_centers n) changed ->
  map_ok (set_full_neighborhood m2 (take_dirty_counts n).1) ->
  (forall p, counted_or_announced (set_full_neighborhood m2 (take_dirty_counts n).1) p) ->
  finaled (elements (dirty_centers n)) (set_full_neighborhood m2 (take_dirty_counts n).1) b m' ->
  reconciled changed m b m'.
Proof.
  intros Hok2 He P Hch Hok3 Hca [F1 F2 F3 F4 F5]. set (m3 := set_full_neighborhood m2 _) in *.
  assert (forall p, cells m3 p = cells m p) as Hcells.
  { intros p. transitivity (cells m2 p); [done|]. by rewrite (evolves_cells _ _ p He). }
  assert (pending_readiness (full_neighborhood m3) = pending_readiness (full_neighborhood m)) as Hpend.
  { simpl. exact (np_pending _ _ P). }
  assert (forall id b, has_world m id b -> has_world m3 id b) as Hworld.
  { intros id b0 (h & E & Hl). pose proof (ev_heap _ _ He id) as F. simpl in F. rewrite E in F.
    inversion F as [? h' Hh E1 E2|]; subst. exists h'. split; [by symmetry|]. by apply (he_level _ _ Hh). }
  split.
  - exact (dr_ok _ _ F1).
  - by rewrite (dr_dirty _ _ F1).
  - exists n. split_and!; try done; [by rewrite (dr_counts _ _ F1)|].
    intros p cl Hcl. rewrite <- Hcells in Hcl. destruct (F2 p cl Hcl) as (cl' & E & Hs & _ & _ & Hd).
    exists cl'. split; [done|]. split; [done|].
    destruct (decide (p ∈ elements (dirty_centers n))) as [Hp|Hp]; rewrite elem_of_elements in Hp.
    + rewrite decide_True by done. split; [done|]. apply F4; [done|by apply elem_of_elements].
    + rewrite decide_False by done. split; [done|]. rewrite F5, Hpend; [done|]. left. by rewrite elem_of_elements.
  - intros p Hp. rewrite <- Hcells in Hp. split; [by apply (cells_None_drives m3 m')|].
    rewrite F5, Hpend; [done|by right].
  - intros Hb p cl cl'. rewrite <- Hcells. by apply F3.
  - rewrite (dr_snapshot _ _ F1). exact (ev_snapshot _ _ He).
  - rewrite (dr_deferred _ _ F1). exact (ev_deferred _ _ He).
  - intros id b0 H. apply (has_world_drives m3); [|done]. by apply Hworld.
  - intros Hw p cl' Hcl' Hr. destruct (cells m3 p) as [cl|] eqn:Hcl.
    + destruct (F2 p cl Hcl) as (cl2 & E & [Hid _ _] & _ & Hwake & _). rewrite Hcl' in E. injection E as <-.
      destruct (Hwake Hr) as [Hr0|]; [|done]. rewrite Hid. apply (has_world_drives m3); [|done].
      apply Hworld, (Hw p); [by rewrite <- Hcells|done].
    + apply (cells_None_drives m3 m' p F1 Hok3) in Hcl. congruence.
  - intros G Hg. apply (gens_drives G 2 m3); try done; [|].
    + intros p cl cl' Hcl Hcl'. destruct (F2 p cl Hcl) as (cl2 & E & _ & Hgen & _ & _). rewrite Hcl' in E. by injection E as <-.
    + apply (gens_evolves G _ m2 He). exact Hg.
  - intros p. by apply (drives_counted m3).
Qed.

(** Nothing changed and nothing was published. *)
Lemma reconciled_idle m :
  map_ok m -> full_publications m = [] -> dirty_centers (full_neighborhood m) = ∅ ->
  (forall p, counted_or_announced m p) -> reconciled [] m false (set_full_publications m []).
Proof.
  intros Hok E1 E2 Hca. assert (set_full_publications m [] = m) as Em.
  { unfold set_full_publications. rewrite <- E1. by destruct m. }
  assert (set_full_neighborhood m (take_dirty_counts (full_neighborhood m)).1 = m) as En.
  { unfold set_full_neighborhood, take_dirty_counts. simpl. rewrite <- E2. by destruct m as [? ? ? ? ? ? ? ? [] ? ?]. }
  rewrite Em. apply (finaled_reconciled [] m m (full_neighborhood m)); rewrite ?Em, ?En; try done.
  - apply nb_progress_refl, Hok.
  - rewrite E2. by apply finaled_refl.
Qed.

Lemma updates_ok l m : map_ok m ->
  Forall (fun x => ChunkPos_ok x.1 \/ exists id, full_holder m x.1 id) l ->
  Forall (fun x => ChunkPos_ok x.1) (map_to_list (updates_of l)).
Proof.
  intros Hok Hl. apply Forall_forall. intros [p o] Hx%elem_of_map_to_list%updates_of_Some. rewrite Forall_forall in Hl.
  destruct (Hl _ Hx) as [?|(id & A & h & E & _)]; [done|]. simpl in *.
  destruct (active_holder m p id h Hok A E) as (<- & _). exact (ho_pos _ _ _ (mo_holder _ Hok id h E)).
Qed.

Lemma wp_reconcile_drained changed m :
  map_ok m -> Forall ChunkPos_ok changed -> cells_room 2 m -> (forall p, counted_or_announced m p) ->
  wp (reconcile_drained changed (full_publications m))
    (fun r m' => exists b, r = Ok b /\ reconciled changed m b m') (set_full_publications m []).
Proof.
  intros Hok Hch Hroom Hca. unfold reconcile_drained.
  pose proof (drain_ok m Hok) as Hok1. set (m1 := set_full_publications m []) in *.
  apply wp_bind. eapply wp_mono; [|by apply wp_current_entries].
  intros current m2 (Hok2 & He2 & Ecur & Hcur).
  apply wp_bind. eapply wp_mono; [|by apply wp_published_entries].
  intros published m3 (Hok3 & He3 & Hpub & Hdrain). fold (updates_of (current ++ published)).
  assert (evolves m1 m3) as He by by etransitivity.
  assert (Forall (fun x => entry_sound m3 x /\ entry_complete m3 x) current) as Hcur3.
  { eapply Forall_impl; [exact Hcur|]. intros x [H1 H2]. split; [by apply (entry_evolves m2)|by apply (entry_complete_evolves m2)]. }
  destruct (overlay_complete m m1 m3 changed current published Hok1 eq_refl eq_refl eq_refl He Hca Hcur3 Ecur Hpub)
    as [Hsound Hcomplete]; [|exact (mo_contributors _ Hok)|].
  { intros p id Hin Hf. apply Hdrain; [done|]. by apply (full_holder_evolves m1). }
  assert (full_neighborhood m3 = full_neighborhood m) as En by exact (ev_neighborhood _ _ He).
  apply wp_bind. unfold with_neighborhood. apply wp_bind, wp_get. rewrite En.
  destruct (mark_all_progress (fun p => p) changed (full_neighborhood m) (mo_neighborhood _ Hok) Hch) as (P1 & C1 & D1).
  set (n1 := foldl _ (full_neighborhood m) changed) in *.
  change (foldl mark_dirty (full_neighborhood m) changed) with n1.
  destruct (reconcile_all_progress (map_to_list (updates_of (current ++ published))) n1 (np_ok _ _ P1))
    as (n & E & P2 & C2); [apply NoDup_fst_map_to_list| |].
  { apply (updates_ok _ m3 Hok3), Forall_app. split.
    - apply Forall_forall. intros x Hx. left. rewrite Forall_forall in Hch. apply Hch. rewrite <- Ecur. by apply list_elem_of_fmap_2.
    - eapply Forall_impl; [exact Hpub|]. intros x [Hs [id Hid]]. right. exists id. by apply Hs. }
  rewrite E. simpl. rewrite list_to_map_to_list in C2.
  pose proof (nb_progress_trans _ _ _ P1 P2) as P.
  assert (forall p, contributors n !! p = overlay (updates_of (current ++ published)) (contributors (full_neighborhood m)) p)
    as C by (intros p; rewrite C2; unfold overlay; by rewrite C1).
  set (m4 := set_full_neighborhood m3 (take_dirty_counts n).1).
  assert (map_ok m4) as Hok4.
  { apply set_neighborhood_ok; [done|by destruct (np_ok _ _ P)|]. simpl. intros p id. rewrite C. apply Hsound. }
  apply wp_bind, wp_put, wp_ret. apply wp_bind.
  eapply wp_mono; [|apply (wp_apply_final (elements (dirty_centers n)) m4); [done|apply NoDup_elements|]].
  - intros b m' Hf. apply wp_ret. exists b. split; [done|]. apply (finaled_reconciled changed m m3 n); try done.
    + eapply Forall_impl; [exact D1|]. intros p Hp. by apply (np_dirty _ _ P2).
    + intros p id Hfh. simpl. rewrite C. by apply Hcomplete.
  - intros p cl Hcl. apply (Hroom p). rewrite <- Hcl. symmetry. exact (evolves_cells _ _ p He).
Qed.

Lemma wp_reconcile changed m :
  map_ok m -> Forall ChunkPos_ok changed -> cells_room 2 m -> (forall p, counted_or_announced m p) ->
  (changed = [] -> dirty_centers (full_neighborhood m) = ∅) ->
  wp (reconcile_ticking_readiness_measured changed)
    (fun r m' => exists b, r = Ok b /\ reconciled changed m b m') m.
Proof.
  intros Hok Hch Hroom Hca Hempty. unfold reconcile_ticking_readiness_measured. apply wp_bind, wp_get.
  apply wp_bind, wp_put. pose proof (wp_reconcile_drained changed m Hok Hch Hroom Hca) as H.
  destruct (full_publications m) eqn:E, changed; try exact H.
  apply wp_ret. exists false. split; [done|]. apply reconciled_idle; auto.
Qed.
End Reconcile.
