(* ===== verification/ChunkMapSafety.v ===== *)
(** * The chunk map between commits

    The ticking snapshot, and the whole commit: from a quiet map, whatever the other threads
    do meanwhile, the commit returns, no index operation reports an error, and the map is
    quiet again with the levels of the changes. *)

From S2P Require Import Prelude Positions ChunkPyramid ChunkTickets TickScheduler.
From S2P Require Import TickOwnership FullNeighborhood ChunkHolder ChunkMap ChunkMapInv.
From S2P Require Import ChunkMapCommit ChunkMapEpoch ChunkMapReconcile.

Section Safety.
Context {T : Type} `{!TickOwnership T}.
Context (world_min_y world_height : Z).
Implicit Types m : ChunkMap T.

(** ** The ticking snapshot *)

(** A chunk that ticks is Full. *)
Lemma ready_full m p cl :
  map_ok m -> cells m p = Some cl -> settled m p cl -> c_ready cl <> Unready -> full_holder m p (c_id cl).
Proof.
  intros Hok (h & Hp & Hh & Ecl)%cells_Some [Hr|[Hr _]] Hn; [|done].
  destruct (active_holder m p _ h Hok Hp Hh) as (Hpos & _ & _).
  pose proof (ho_pos _ _ _ (mo_holder _ Hok _ h Hh)) as Hpok. rewrite Hpos in Hpok.
  destruct (ready_contributor m p Hok Hpok) as (id & Hf).
  - rewrite Hr in Hn. unfold allowed_readiness in Hn.
    destruct (entity_ticking_ready _), (block_ticking_ready _); auto. by rewrite !andb_false_r in Hn.
  - assert (id = c_id cl) as <-; [|done]. destruct Hf as [A _]. congruence.
Qed.

Lemma full_holder_chunk m p id h :
  map_ok m -> full_holder m p id -> heap m !! id = Some h -> is_Some (try_full_chunk h).
Proof.
  intros Hok (_ & h0 & E0 & Hi & _) Hh. rewrite Hh in E0. injection E0 as <-.
  pose proof (ho_producers _ _ _ (mo_holder _ Hok id h Hh)) as Hps. pose proof (po_init _ _ Hps Hi) as H12.
  unfold try_full_chunk, try_chunk. rewrite H12. simpl. apply (proj2 (po_data _ _ Hps)). lia.
Qed.

Definition tickable_entry (p : ChunkPos) (cl : cell) : option (TickableChunk * bool * bool) :=
  if (membership cl).1.1 then Some (mkTickable p (c_id cl), (membership cl).1.2, (membership cl).2) else None.

Lemma tickable_of_spec m p cl :
  map_ok m -> cells m p = Some cl -> settled m p cl -> tickable_of m p (c_id cl) = Some (tickable_entry p cl).
Proof.
  intros Hok Hcl Hs. pose proof (ready_full m p cl Hok Hcl Hs) as Hf.
  apply cells_Some in Hcl as (h & Hp & Hh & Ecl). unfold tickable_of, tickable_entry. rewrite Hh. simpl.
  pose proof (ticking_readiness_some m _ h Hok Hh) as Hr. rewrite Hr. simpl.
  assert (c_ready cl = readiness_of h) as Er by by rewrite Ecl.
  assert (c_sim cl = holder_simulation_level h) as Es by by rewrite Ecl.
  unfold membership, ticking_snapshot_membership. rewrite Er, Es. rewrite Er in Hf.
  destruct (holder_simulation_level h) as [sim|]; [|done]. simpl.
  destruct (ChunkTicketLevel_is_block_ticking sim), (ChunkTicketLevel_is_entity_ticking sim);
    destruct (readiness_of h) eqn:Erh; simpl; try done;
    (destruct (full_holder_chunk m p _ h Hok (Hf ltac:(done)) Hh) as [? ->]); done.
Qed.

(** A snapshot made of a list of entries. *)
Record represents (s : TickingChunkSnapshot) (xs : list (TickableChunk * bool * bool)) : Prop := {
  rp_block : sn_block s = xs.*1.*1;
  rp_random_range : Forall (fun i => (i < length xs)%nat) (sn_random s);
  rp_entity_range : Forall (fun i => (i < length xs)%nat) (sn_entity s);
  rp_random_nodup : NoDup (sn_random s);
  rp_entity_nodup : NoDup (sn_entity s);
  rp_random : forall x, indexed (sn_block s) (sn_random s) x <-> exists e, (x, true, e) ∈ xs;
  rp_entity : forall x, indexed (sn_block s) (sn_entity s) x <-> exists r, (x, r, true) ∈ xs;
}.

(** One more entry in a view. *)
Lemma indexed_push (block : list TickableChunk) (indices : list nat) t (b : bool) x :
  Forall (fun i => (i < length block)%nat) indices ->
  indexed (block ++ [t]) (if b then indices ++ [length block] else indices) x <->
    indexed block indices x \/ (b = true /\ x = t).
Proof.
  intros Hr. rewrite Forall_forall in Hr. unfold indexed. split.
  - intros (i & Hi & E).
    assert (i ∈ indices \/ (b = true /\ i = length block)) as [H|[-> ->]].
    { destruct b; [apply elem_of_app in Hi as [?| ->%list_elem_of_singleton]|]; auto. }
    + rewrite lookup_app_l in E by by apply Hr. eauto.
    + rewrite list_lookup_middle in E by done. injection E as <-. by right.
  - intros [(i & Hi & E)|[-> ->]].
    + exists i. split; [destruct b; [apply elem_of_app; by left|done]|]. rewrite lookup_app_l; [done|]. by apply Hr.
    + exists (length block). split; [apply elem_of_app; right; by left|]. by rewrite list_lookup_middle.
Qed.

Lemma range_push n (indices : list nat) (b : bool) :
  Forall (fun i => (i < n)%nat) indices -> NoDup indices ->
  Forall (fun i => (i < n + 1)%nat) (if b then indices ++ [n] else indices) /\
  NoDup (if b then indices ++ [n] else indices).
Proof.
  intros Hr Hnd. assert (Forall (fun i => (i < n + 1)%nat) indices) as Hr'.
  { eapply Forall_impl; [exact Hr|]. simpl. lia. }
  destruct b; [|done]. split; [apply Forall_app; split; [done|constructor; [lia|done]]|].
  apply NoDup_app. split; [done|]. split; [|apply NoDup_singleton]. intros i Hi ->%list_elem_of_singleton.
  rewrite Forall_forall in Hr. specialize (Hr n Hi). lia.
Qed.

Lemma push_tickable_represents s xs x : represents s xs -> represents (push_tickable s x) (xs ++ [x]).
Proof.
  intros [R1 R2 R3 R4 R5 R6 R7]. destruct x as [[t r] e]. unfold push_tickable.
  assert (length (sn_block s) = length xs) as El by by rewrite R1, !length_fmap.
  rewrite <- El in R2, R3. destruct (range_push _ _ r R2 R4) as [A1 A2], (range_push _ _ e R3 R5) as [B1 B2].
  split; simpl; rewrite ?length_app, <- ?El; simpl; try done.
  - by rewrite R1, !fmap_app.
  - intros x. rewrite indexed_push by done. rewrite R6. split.
    + intros [[e0 H]|[-> ->]]; [exists e0|exists e]; set_solver.
    + intros (e0 & [H|[= -> -> ->]%list_elem_of_singleton]%elem_of_app); [left; eauto|by right].
  - intros x. rewrite indexed_push by done. rewrite R7. split.
    + intros [[r0 H]|[-> ->]]; [exists r0|exists r]; set_solver.
    + intros (r0 & [H|[= -> -> ->]%list_elem_of_singleton]%elem_of_app); [left; eauto|by right].
Qed.

(** The entries of the active chunks, in the order of the traversal. *)
Definition entries m : list (TickableChunk * bool * bool) :=
  omap (fun '(p, id) => cl ← cells m p; tickable_entry p cl) (map_to_list (chunks m)).

Lemma collect_tickable_spec m :
  map_ok m -> (forall p cl, cells m p = Some cl -> settled m p cl) ->
  exists s, collect_tickable m (map_to_list (chunks m)) = Some s /\ represents s (entries m).
Proof.
  intros Hok Hs. unfold collect_tickable, entries.
  apply (for_each_ind (fun pre s => represents s
    (omap (fun '(p, id) => cl ← cells m p; tickable_entry p cl) pre))).
  - split; simpl; try done; try constructor; try constructor;
      intros H; destruct H as (i & Hi & _) || destruct H as (i & Hi);
      by (apply elem_of_nil in Hi || destruct Hi).
  - intros pre [p id] todo s E Hr.
    assert (chunks m !! p = Some id) as Hp.
    { apply elem_of_map_to_list. rewrite E. set_solver. }
    destruct (mo_chunks _ Hok p id Hp) as (h & Hh & _).
    assert (cells m p = Some (cell_of id h)) as Hcl by (unfold cells; rewrite Hp; simpl; by rewrite Hh).
    pose proof (tickable_of_spec m p _ Hok Hcl (Hs p _ Hcl)) as Ht. simpl in Ht. rewrite Ht. simpl.
    eexists. split; [done|]. rewrite omap_app. simpl. rewrite Hcl. simpl.
    destruct (tickable_entry p (cell_of id h)) as [x|]; [by apply push_tickable_represents|by rewrite app_nil_r].
Qed.

Lemma elem_of_entries m x r e : map_ok m ->
  (x, r, e) ∈ entries m <-> exists cl, cells m (tc_pos x) = Some cl /\ c_id cl = tc_holder x /\
    membership cl = (true, r, e).
Proof.
  intros Hok. unfold entries. rewrite list_elem_of_omap. split.
  - intros ([p id] & Hin & E). apply elem_of_map_to_list in Hin. destruct (cells m p) as [cl|] eqn:Hcl; [|done].
    simpl in E. unfold tickable_entry in E. destruct (membership cl) as [[[] r'] e'] eqn:Em; simpl in E; [|done].
    injection E as <- <- <-. by exists cl.
  - intros (cl & Hcl & Hid & Em). destruct x as [p id]. simpl in *. exists (p, id). split.
    + apply elem_of_map_to_list. rewrite <- Hid. by apply cells_Some in Hcl as (h & ? & _).
    + rewrite Hcl. simpl. unfold tickable_entry. rewrite Em. simpl. by rewrite Hid.
Qed.

Lemma membership_nested cl r e : membership cl = (false, r, e) -> r = false /\ e = false.
Proof.
  unfold membership, ticking_snapshot_membership. intros [= -> <- <-]. done.
Qed.

Lemma NoDup_entries m : NoDup (tc_pos <$> (entries m).*1.*1).
Proof.
  unfold entries. pose proof (NoDup_fst_map_to_list (chunks m)) as Hnd.
  induction (map_to_list (chunks m)) as [|[p id] l IH]; simpl; [constructor|].
  apply NoDup_cons in Hnd as [Hp Hnd]. destruct (cells m p ≫= tickable_entry p) as [[[t r] e]|] eqn:E; [|auto].
  simpl. constructor; [|auto]. destruct (cells m p) as [cl|]; [|done]. simpl in E. unfold tickable_entry in E.
  destruct (membership cl).1.1; [|done]. injection E as <- <- <-. simpl.
  rewrite !list_elem_of_fmap. intros (t & Et & H). apply list_elem_of_fmap in H as ([t1 r1] & -> & H).
  apply list_elem_of_fmap in H as ([[t2 r2] e2] & [= -> ->] & H). apply list_elem_of_omap in H as ([q i] & Hq & E).
  destruct (cells m q) as [cl2|]; [|done]. simpl in E. unfold tickable_entry in E.
  destruct (membership cl2).1.1; [|done]. injection E as <- <- <-. simpl in Et. subst q.
  apply Hp. apply list_elem_of_fmap. by exists (p, i).
Qed.

Lemma represents_exact m s : map_ok m -> ticking_chunks m = s -> represents s (entries m) -> snapshot_exact m.
Proof.
  intros Hok E [R1 R2 R3 R4 R5 R6 R7]. unfold snapshot_exact. rewrite E. split_and!; [|done|done|].
  { rewrite R1. apply NoDup_entries. }
  intros x. unfold member. rewrite R6, R7. split_and!.
  - rewrite R1. split.
    + intros H. apply list_elem_of_fmap in H as ([t r] & -> & H). apply list_elem_of_fmap in H as ([[t' r'] e'] & [= -> ->] & H).
      apply (elem_of_entries m t' r' e' Hok) in H as (cl & ? & ? & Em). exists cl. by rewrite Em.
    + intros (cl & H1 & H2 & H3). destruct (membership cl) as [[b r] e] eqn:Em. simpl in H3. subst b.
      apply list_elem_of_fmap. exists (x, r). split; [done|]. apply list_elem_of_fmap. exists (x, r, e). split; [done|].
      apply elem_of_entries; eauto.
  - split.
    + intros (e & (cl & H1 & H2 & H3)%(elem_of_entries m x true e Hok)). exists cl. by rewrite H3.
    + intros (cl & H1 & H2 & H3). destruct (membership cl) as [[b r] e] eqn:Em. simpl in H3. subst r.
      destruct b; [|by destruct (membership_nested _ _ _ Em)]. exists e. apply elem_of_entries; eauto.
  - split.
    + intros (r & (cl & H1 & H2 & H3)%(elem_of_entries m x r true Hok)). exists cl. by rewrite H3.
    + intros (cl & H1 & H2 & H3). destruct (membership cl) as [[b r] e] eqn:Em. simpl in H3. subst e.
      destruct b; [|by destruct (membership_nested _ _ _ Em)]. exists r. apply elem_of_entries; eauto.
Qed.

(** Every chunk of the snapshot has its tick queues registered. *)
Lemma entries_registered m x :
  map_ok m -> (forall p cl, cells m p = Some cl -> settled m p cl) -> worldly m -> x ∈ (entries m).*1.*1 ->
  is_Some (to_registered (scheduled_ticks m) !! tc_pos x).
Proof.
  intros Hok Hs Hw H. apply list_elem_of_fmap in H as ([t r] & -> & H).
  apply list_elem_of_fmap in H as ([[t' r'] e'] & [= -> ->] & H).
  apply (elem_of_entries m t' r' e' Hok) in H as (cl & Hcl & Hid & Em).
  assert (c_ready cl <> Unready) as Hr.
  { intros E. unfold membership, ticking_snapshot_membership in Em. rewrite E in Em. by rewrite andb_false_r in Em. }
  destruct (Hw _ _ Hcl Hr) as (h & Hh & Hl).
  apply (contributor_registered m _ (c_id cl) h); try done. by apply ready_full; [..|apply Hs|].
Qed.

Lemma wp_rebuild_snapshot m :
  map_ok m -> (forall p cl, cells m p = Some cl -> settled m p cl) -> worldly m ->
  wp rebuild_ticking_chunk_snapshot (fun _ m' => exists t s,
    m' = set_ticking_chunks (set_scheduled_ticks m t) s /\ map_ok m' /\ snapshot_exact m') m.
Proof.
  intros Hok Hs Hw. unfold rebuild_ticking_chunk_snapshot. apply wp_bind, wp_get.
  destruct (collect_tickable_spec m Hok Hs) as (s & E & Hr). apply wp_bind, (wp_expect _ s); [done|].
  destruct (to_reconcile_law (scheduled_ticks m) (tc_pos <$> sn_block s) (mo_ticks _ Hok)) as (t & Et & L1 & L2 & L3).
  - rewrite (rp_block _ _ Hr). apply NoDup_entries.
  - intros p (x & -> & Hx)%list_elem_of_fmap. rewrite (rp_block _ _ Hr) in Hx. by apply entries_registered.
  - apply wp_bind, (wp_expect _ (t, Ok ())); [done|]. apply wp_put. exists t, s. split; [done|].
    assert (map_ok (set_ticking_chunks (set_scheduled_ticks m t) s)) as Hok'.
    { split; simpl; try apply Hok; try done.
      - intros id h Hh. destruct (mo_holder _ Hok id h Hh) as [I1 I2 I3 I4 I5 I6 I7 I8]. split; try done. simpl.
        by rewrite L3.
      - intros id Hid. rewrite L3. by apply (mo_fresh _ Hok).
      - intros p id. rewrite L2. apply (mo_registered _ Hok). }
    split; [done|]. apply (represents_exact _ s); [done|done|]. exact Hr.
Qed.

(** ** Between the phases *)

(** A step that leaves the cells and the index alone. *)
Lemma poised_drives m m' :
  poised m -> drives m m' -> full_neighborhood m' = full_neighborhood m ->
  (forall p, cells m' p = cells m p) -> poised m'.
Proof.
  intros [Q1 Q2 Q3 Q4 Q5 Q6 Q7] Hd Hn Hc. split; [exact (dr_ok _ _ Hd)|by rewrite Hn|..].
  - intros p cl. rewrite Hc. intros Hcl. by apply (settled_drives m), Q3.
  - intros p cl. rewrite Hc. intros Hcl Hr. by apply (has_world_drives m); [apply (Q4 p)|].
  - intros p. unfold pending_of. rewrite Hc, Hn. apply Q5.
  - intros p. by apply (drives_counted m).
  - intros p r. rewrite Hc, (dr_deferred _ _ Hd). apply Q7.
Qed.

Lemma poised_evolves m m' : poised m -> map_ok m' -> evolves m m' -> poised m'.
Proof.
  intros Hq Hok He. apply (poised_drives m); [done|by apply evolves_drives|exact (ev_neighborhood _ _ He)|].
  intros p. by apply evolves_cells.
Qed.

Lemma snapshot_exact_ext m m' :
  ticking_chunks m' = ticking_chunks m -> (forall view x, member m' view x <-> member m view x) ->
  snapshot_exact m -> snapshot_exact m'.
Proof.
  intros E Hm (S1 & S2 & S3 & S4). unfold snapshot_exact. rewrite E. split_and!; try done.
  intros x. rewrite !Hm. apply S4.
Qed.

Lemma snapshot_evolves m m' : evolves m m' -> snapshot_exact m -> snapshot_exact m'.
Proof.
  intros He. apply snapshot_exact_ext; [exact (ev_snapshot _ _ He)|]. intros view x. unfold member.
  by rewrite (evolves_cells m m' _ He).
Qed.

(** The load and simulation level that a position has, or will get when its holder can be
    revived. *)
Definition assigned m (p : ChunkPos) : option (ChunkTicketLevel * option ChunkTicketLevel) :=
  match cells m p with
  | Some cl => level ← c_load cl; Some (level, c_sim cl)
  | None => r ← deferred_revivals m !! p; Some (dr_load r, dr_sim r)
  end.

(** ** One epoch *)

(** The cells before the levels change. *)
Lemma prepared_cell changes m n b1 m3 p cl :
  changes_ok changes -> prepared changes m n b1 m3 -> cells m p = Some cl -> exists cl3, cells m3 p = Some cl3 /\ same_holder cl cl3 /\
  (c_ready cl3 <> Unready -> c_ready cl <> Unready) /\ c_generation cl3 <= c_generation cl + 1 /\
  (p ∉ dirty_centers n -> cl3 = cl) /\ (b1 = false -> same_membership cl cl3 = true) /\
  rank (c_ready cl3) <= rank (c_ready cl) /\
  (new_levels_of changes !! p = Some None -> c_ready cl3 = Unready).
Proof.
  intros [Hnd _] [_ _ Hd _ (cs & [P1 P2 P3 P4 P5 P6])] Hcl.
  pose proof (P3 p cl Hcl) as Hcl3. eexists. split; [exact Hcl3|]. case_decide as Hp; rewrite elem_of_elements in Hp.
  - set (t := target_at _ _ p cl) in *. destruct (demote_spec cl t) as (D1 & D2 & D3 & D4 & D5). split_and!.
    + by split.
    + intros Hr E. rewrite E in D5. destruct (c_ready (demote cl t)), t; simpl in D5; lia || done.
    + lia.
    + done.
    + intros Hb. by apply (P4 Hb p).
    + lia.
    + intros E. apply rank_inj. rewrite D5. unfold t, target_at, effective_level. simpl. rewrite E. simpl.
      destruct (c_ready cl); simpl; lia.
  - split_and!; try done; [lia|intros; apply same_membership_refl|].
    intros E. exfalso. apply (new_levels_lookup changes p None Hnd) in E as (c & Hc & <- & _).
    rewrite Forall_forall in Hd. by apply Hp, Hd.
Qed.

Lemma prepared_ok changes m n b m3 : map_ok m -> prepared changes m n b m3 -> map_ok (set_full_neighborhood m n).
Proof.
  intros Hok [P C _ _ _]. apply set_neighborhood_ok; [done|exact (np_ok _ _ P)|].
  intros p id. rewrite C. case_decide; [done|]. apply (mo_contributors _ Hok).
Qed.

Lemma prepared_drives changes m n b m3 : prepared changes m n b m3 -> drives (set_full_neighborhood m n) m3.
Proof. intros [_ _ _ _ (cs & Hd)]. exact (dp_drives _ _ _ _ _ _ Hd). Qed.

Lemma prepared_none changes m n b m3 p : map_ok m -> prepared changes m n b m3 -> cells m3 p = None <-> cells m p = None.
Proof.
  intros Hok Hp. apply (cells_None_drives (set_full_neighborhood m n) m3 p); [by eapply prepared_drives|by eapply prepared_ok].
Qed.

Lemma prepared_gens changes m n b m3 G :
  map_ok m -> changes_ok changes -> prepared changes m n b m3 -> gens_le G m -> gens_le (G + 1) m3.
Proof.
  intros Hok Hch Hp Hg. apply (gens_drives G 1 (set_full_neighborhood m n)); try done.
  - by eapply prepared_ok.
  - by eapply prepared_drives.
  - intros p cl cl3 Hcl Hcl3. destruct (prepared_cell _ _ _ _ _ p cl Hch Hp Hcl) as (cl3' & E & _ & _ & H & _).
    rewrite Hcl3 in E. by injection E as <-.
Qed.

(** The demotions make way for every level change. *)
Lemma prepared_level_pre changes m n b m3 :
  map_ok m -> changes_ok changes -> prepared changes m n b m3 -> Forall (fun c => level_pre c m3) changes.
Proof.
  intros Hok Hch Hp. apply Forall_forall. intros c Hc cl3 Hcl3.
  destruct (cells m (ch_pos c)) as [cl|] eqn:Hcl; [|apply (prepared_none _ _ _ _ _ _ Hok Hp) in Hcl; congruence].
  destruct (prepared_cell _ _ _ _ _ _ _ Hch Hp Hcl) as (cl3' & E & _ & _ & _ & _ & _ & _ & Hun).
  rewrite Hcl3 in E. injection E as <-. split.
  - intros Hf. rewrite (dr_contributors _ _ (prepared_drives _ _ _ _ _ Hp)). simpl.
    rewrite (pd_contributors _ _ _ _ _ Hp), decide_True; [done|]. apply lost_active.
    apply cells_Some in Hcl as (h & A & _). eauto 10.
  - intros Hl. apply Hun, (new_levels_lookup _ _ _ (proj1 Hch)). eauto.
Qed.

Lemma unleveled_counted c before o m :
  is_full_level (ch_new_level c) = false -> level_result c before o m -> counted_or_announced m (ch_pos c).
Proof.
  intros Hf Hres id (A & h & E & _ & Hl). exfalso.
  assert (cells m (ch_pos c) = Some (cell_of id h)) as Hcl by (unfold cells; rewrite A; simpl; by rewrite E).
  unfold level_result in Hres. destruct (ch_new_level c) as [l|].
  - destruct Hres as [(cl & _ & E1 & E2 & _)|(_ & _ & E1 & _)]; [|congruence]. rewrite Hcl in E1. injection E1 as <-.
    simpl in *. rewrite E2 in Hl. simpl in Hl. congruence.
  - destruct Hres as (_ & ? & _). congruence.
Qed.

Lemma levels_counted changes m n b m3 os m4 :
  poised m -> prepared changes m n b m3 -> levels_done changes m3 os m4 ->
  forall p, counted_or_announced m4 p.
Proof.
  intros Hq Hp Hl p. destruct (decide (p ∈ lost (active_changes m changes))) as [Hlost|Hlost].
  - apply lost_active in Hlost as (c & id & Hc & <- & _ & Hf). pose proof (ld_result _ _ _ _ Hl) as Hr.
    rewrite Forall_forall in Hr. destruct (Hr c Hc) as [o Ho]. by eapply unleveled_counted.
  - apply (ld_counted _ _ _ _ Hl), (drives_counted (set_full_neighborhood m n));
      [eapply prepared_ok; [exact (q_ok _ Hq)|done]|by eapply prepared_drives|].
    intros id Hf. simpl. rewrite (pd_contributors _ _ _ _ _ Hp), decide_False by done.
    exact (q_announced _ Hq p id Hf).
Qed.

Record epoch (changes : list LevelChange) m n (b1 : bool) m3 os m4 (b2 : bool) m5 : Prop := {
  ep_start : poised m;
  ep_none : deferred_revivals m = ∅;
  ep_changes : changes_ok changes;
  ep_prepared : prepared changes m n b1 m3;
  ep_levels : levels_done changes m3 os m4;
  ep_reconciled : reconciled (ch_pos <$> changes) m4 b2 m5;
}.

Section Trace.
Context {changes : list LevelChange} {m m3 m4 m5 : ChunkMap T} {n : FullNeighborhoodIndex}.
Context {b1 b2 : bool} {os : list (Z * ChunkTicketLevel)}.
Context (Hep : epoch changes m n b1 m3 os m4 b2 m5).

Lemma epoch_demoted : exists cs, demote_post (elements (dirty_centers n)) (Some (new_levels_of changes))
  (set_full_neighborhood m n) cs b1 m3.
Proof. exact (pd_demote _ _ _ _ _ (ep_prepared _ _ _ _ _ _ _ _ _ Hep)). Qed.

Let Hprep := ep_prepared _ _ _ _ _ _ _ _ _ Hep.
Let Hchg := ep_changes _ _ _ _ _ _ _ _ _ Hep.
Let Hlev := ep_levels _ _ _ _ _ _ _ _ _ Hep.
Let Hrec := ep_reconciled _ _ _ _ _ _ _ _ _ Hep.
Let Hstart := ep_start _ _ _ _ _ _ _ _ _ Hep.
Let Hmok : map_ok m := q_ok _ Hstart.

Lemma epoch_drives : drives (set_full_neighborhood m n) m3.
Proof. exact (prepared_drives _ _ _ _ _ Hprep). Qed.

Lemma epoch_none p : cells m3 p = None <-> cells m p = None.
Proof. exact (prepared_none _ _ _ _ _ p Hmok Hprep). Qed.

(** A position either keeps its cell or got the level of its change. *)
Lemma epoch_level p :
  (p ∉ (ch_pos <$> changes)) /\ cells m4 p = cells m3 p \/
  exists c o, c ∈ changes /\ ch_pos c = p /\ level_result c (cells m3 p) o m4.
Proof.
  destruct (decide (p ∈ (ch_pos <$> changes))) as [Hp|Hp].
  - right. apply list_elem_of_fmap in Hp as (c & -> & Hc). pose proof (ld_result _ _ _ _ Hlev) as Hr.
    rewrite Forall_forall in Hr. destruct (Hr c Hc) as [o Ho]. by exists c, o.
  - left. split; [done|]. by apply (ld_other _ _ _ _ Hlev).
Qed.

Lemma changed_dirty c : c ∈ changes -> ch_pos c ∈ dirty_centers n.
Proof.
  intros Hc. pose proof (pd_changed _ _ _ _ _ Hprep) as Hd. rewrite Forall_forall in Hd. by apply Hd.
Qed.

Lemma epoch_index4 : contributors (full_neighborhood m4) = contributors n /\
  nb_counts (full_neighborhood m4) = nb_counts n /\ dirty_centers (full_neighborhood m4) = dirty_centers n /\
  pending_readiness (full_neighborhood m4) = pending_readiness (full_neighborhood m3).
Proof.
  rewrite (ld_neighborhood _ _ _ _ Hlev). pose proof epoch_drives as Hd. split_and!.
  - exact (dr_contributors _ _ Hd).
  - exact (dr_counts _ _ Hd).
  - exact (dr_dirty _ _ Hd).
  - done.
Qed.

(** A position outside the final dirty set did not change at all. *)
Lemma epoch_untouched n2 p cl :
  nb_progress (full_neighborhood m4) n2 -> p ∉ dirty_centers n2 -> cells m4 p = Some cl ->
  cells m p = Some cl /\ counts_at n2 p = counts_at (full_neighborhood m) p /\
  pending_readiness (full_neighborhood m4) !! p = pending_readiness (full_neighborhood m) !! p.
Proof.
  intros P Hp Hcl. destruct epoch_index4 as (E1 & E2 & E3 & E4).
  assert (p ∉ dirty_centers n) as Hpn by (intros H; apply Hp, (np_dirty _ _ P); by rewrite E3).
  destruct (epoch_level p) as [[Hc E]|(c & o & Hc & <- & _)]; [|by destruct Hpn; apply changed_dirty].
  destruct (cells m p) as [cl0|] eqn:Hcl0; [|apply epoch_none in Hcl0; congruence].
  destruct (prepared_cell _ _ _ _ _ p cl0 Hchg Hprep Hcl0) as (cl3 & Hcl3 & _ & _ & _ & Hs & _). rewrite (Hs Hpn) in Hcl3.
  assert (cl0 = cl) as -> by congruence. split; [done|].
  assert (ChunkPos_ok p) as Hpok.
  { apply cells_Some in Hcl0 as (h & A & B & _). destruct (active_holder m p _ h Hmok A B) as (<- & _).
    exact (ho_pos _ _ _ (mo_holder _ Hmok _ h B)). }
  split.
  - rewrite (np_counts _ _ P p Hpok Hp). rewrite <- (np_counts _ _ (pd_progress _ _ _ _ _ Hprep) p Hpok Hpn).
    unfold counts_at. by rewrite E2.
  - rewrite E4. destruct epoch_demoted as (cs & Hd). rewrite (dp_pending_other _ _ _ _ _ _ Hd).
    + simpl. by rewrite (np_pending _ _ (pd_progress _ _ _ _ _ Hprep)).
    + left. by rewrite elem_of_elements.
Qed.

Lemma epoch_world id b : has_world m id b -> has_world m5 id b.
Proof.
  intros H. apply (rc_world _ _ _ _ Hrec), (ld_world _ _ _ _ Hlev).
  apply (has_world_drives (set_full_neighborhood m n)); [done|]. exact epoch_drives.
Qed.

Lemma epoch_ready p cl : cells m5 p = Some cl -> settled m5 p cl.
Proof.
  intros Hcl. destruct (rc_index _ _ _ _ Hrec) as (n2 & P & Hd & En & Hcells).
  destruct (cells m4 p) as [cl4|] eqn:Hcl4; [|by rewrite (proj1 (rc_none _ _ _ _ Hrec p Hcl4)) in Hcl].
  destruct (Hcells p cl4 Hcl4) as (cl5 & E & _ & Hs). rewrite Hcl in E. injection E as <-.
  case_decide as Hp; [by destruct Hs|]. destruct Hs as [-> _].
  destruct (epoch_untouched n2 p cl4 P Hp Hcl4) as (Hcl0 & Ec & _).
  destruct (q_ready _ Hstart p cl4 Hcl0) as [H|[H1 H2]].
  - left. rewrite H, <- Ec. unfold counts_at. by rewrite En.
  - right. split; [done|]. by apply epoch_world.
Qed.

Lemma epoch_worldly : worldly m5.
Proof.
  apply (rc_worldly _ _ _ _ Hrec). intros p cl4 Hcl4 Hr. apply (ld_world _ _ _ _ Hlev).
  assert (exists cl3, cells m3 p = Some cl3 /\ c_id cl3 = c_id cl4 /\ c_ready cl3 = c_ready cl4) as (cl3 & Hcl3 & Ei & Er).
  { destruct (epoch_level p) as [[_ E]|(c & o & Hc & <- & Hres)]; [rewrite <- E; eauto|].
    unfold level_result in Hres. destruct (ch_new_level c) as [l|]; [|destruct Hres as (_ & ? & _); congruence].
    destruct Hres as [(cl' & _ & E & _ & _ & Hb)|(_ & _ & E & _)]; [|congruence].
    rewrite Hcl4 in E. injection E as <-. destruct (cells m3 (ch_pos c)) as [cl3|]; [|done].
    exists cl3. destruct Hb. auto. }
  destruct (cells m p) as [cl|] eqn:Hcl; [|apply epoch_none in Hcl; congruence].
  destruct (prepared_cell _ _ _ _ _ p cl Hchg Hprep Hcl) as (cl3' & E & [Hid _ _] & Hdown & _). rewrite Hcl3 in E. injection E as <-.
  rewrite <- Ei, Hid. apply (has_world_drives (set_full_neighborhood m n)); [|exact epoch_drives].
  apply (q_world _ Hstart p); [done|]. apply Hdown. congruence.
Qed.

(** The pending entry of a position without an active holder is gone. *)
Lemma epoch_pending_none p : cells m4 p = None -> pending_readiness (full_neighborhood m4) !! p = None.
Proof.
  intros Hcl4. destruct epoch_index4 as (_ & _ & _ & ->). destruct epoch_demoted as (cs & Hd).
  assert (cells m p = None -> pending_readiness (full_neighborhood m3) !! p = None) as Hnone.
  { intros Hcl. rewrite (dp_pending_other _ _ _ _ _ _ Hd) by by right. simpl.
    rewrite (np_pending _ _ (pd_progress _ _ _ _ _ Hprep)), (q_pending _ Hstart). unfold pending_of. by rewrite Hcl. }
  destruct (epoch_level p) as [[_ E]|(c & o & Hc & <- & Hres)].
  { apply Hnone, epoch_none. congruence. }
  destruct (cells m3 (ch_pos c)) as [cl3|] eqn:Hcl3; [|by apply Hnone, epoch_none].
  assert (ch_new_level c = None) as Hlevel.
  { unfold level_result in Hres. destruct (ch_new_level c); [|done].
    destruct Hres as [(cl' & _ & E & _)|(_ & E & _)]; congruence. }
  rewrite (dp_pending _ _ _ _ _ _ Hd (ch_pos c) cl3 Hcl3) by by apply elem_of_elements, changed_dirty.
  unfold pending_entry, effective_level. simpl.
  rewrite (proj2 (new_levels_lookup changes (ch_pos c) None (proj1 Hchg))) by eauto.
  by destruct (c_ready cl3).
Qed.

Lemma epoch_pending p : pending_readiness (full_neighborhood m5) !! p = pending_of m5 p.
Proof.
  destruct (rc_index _ _ _ _ Hrec) as (n2 & P & Hd & En & Hcells). unfold pending_of.
  destruct (cells m4 p) as [cl4|] eqn:Hcl4.
  - destruct (Hcells p cl4 Hcl4) as (cl5 & -> & _ & Hs). simpl. case_decide as Hp; [by destruct Hs as [_ ->]|].
    destruct Hs as [-> ->], (epoch_untouched n2 p cl4 P Hp Hcl4) as (Hcl0 & _ & ->).
    rewrite (q_pending _ Hstart). unfold pending_of. by rewrite Hcl0.
  - destruct (rc_none _ _ _ _ Hrec p Hcl4) as [-> ->]. simpl. by apply epoch_pending_none.
Qed.

Lemma epoch_deferred p r : deferred_revivals m5 !! p = Some r ->
  cells m5 p = None /\ ChunkPos_ok p /\ level_ok (dr_load r) /\ sim_level_ok (dr_sim r) /\
  exists c, c ∈ changes /\ ch_pos c = p /\ deferred_by c r m5.
Proof.
  rewrite (rc_deferred _ _ _ _ Hrec). intros [H|(c & Hc & <- & (E1 & E2 & E3))]%(ld_deferred _ _ _ _ Hlev).
  - rewrite (dr_deferred _ _ epoch_drives) in H. simpl in H. by rewrite (ep_none _ _ _ _ _ _ _ _ _ Hep) in H.
  - destruct (rc_none _ _ _ _ Hrec _ E3) as [E5 _]. pose proof (proj2 Hchg) as Hch.
    rewrite Forall_forall in Hch. destruct (Hch c Hc) as [C1 C2 C3]. split_and!; try done.
    + by apply C2.
    + by rewrite <- E2.
    + by exists c.
Qed.

Lemma epoch_poised : poised m5.
Proof.
  split.
  - exact (rc_ok _ _ _ _ Hrec).
  - exact (rc_dirty _ _ _ _ Hrec).
  - exact epoch_ready.
  - exact epoch_worldly.
  - exact epoch_pending.
  - exact (rc_counted _ _ _ _ Hrec).
  - intros p r H. destruct (epoch_deferred p r H) as (? & ? & ? & ? & _). done.
Qed.

(** ** Levels *)

(** The cell that the levels left survives to the end with its identity and levels. *)
Lemma epoch_same_holder p : match cells m4 p, cells m5 p with
  | Some cl4, Some cl5 => same_holder cl4 cl5
  | None, None => True
  | _, _ => False
  end.
Proof.
  destruct (cells m4 p) as [cl4|] eqn:Hcl4.
  - destruct (rc_index _ _ _ _ Hrec) as (n2 & _ & _ & _ & Hcells).
    by destruct (Hcells p cl4 Hcl4) as (cl5 & -> & Hs & _).
  - by rewrite (proj1 (rc_none _ _ _ _ Hrec p Hcl4)).
Qed.

Lemma epoch_assigned_changed c : c ∈ changes ->
  assigned m5 (ch_pos c) = level ← ch_new_level c; Some (level, ch_new_simulation_level c).
Proof.
  intros Hc. pose proof (ld_result _ _ _ _ Hlev) as Hr. rewrite Forall_forall in Hr. destruct (Hr c Hc) as [o Ho].
  pose proof (epoch_same_holder (ch_pos c)) as Hs. unfold assigned. rewrite (rc_deferred _ _ _ _ Hrec).
  unfold level_result in Ho. destruct (ch_new_level c) as [l|].
  - destruct Ho as [(cl & _ & E & E1 & E2 & _)|(_ & _ & E & ->)]; rewrite E in Hs.
    + destruct (cells m5 (ch_pos c)) as [cl5|]; [|done]. destruct Hs as [_ -> ->]. by rewrite E1, E2.
    + by destruct (cells m5 (ch_pos c)).
  - destruct Ho as (_ & E & ->). rewrite E in Hs. by destruct (cells m5 (ch_pos c)).
Qed.

Lemma epoch_assigned_same p : p ∉ (ch_pos <$> changes) -> assigned m5 p = assigned m p.
Proof.
  intros Hp. destruct (ld_other _ _ _ _ Hlev p Hp) as [E1 E2]. pose proof (epoch_same_holder p) as Hs.
  unfold assigned. rewrite (rc_deferred _ _ _ _ Hrec), E2, (dr_deferred _ _ epoch_drives). simpl. rewrite E1 in Hs.
  destruct (cells m p) as [cl|] eqn:Hcl.
  - destruct (prepared_cell _ _ _ _ _ p cl Hchg Hprep Hcl) as (cl3 & Hcl3 & [_ S2 S3] & _). rewrite Hcl3 in Hs.
    destruct (cells m5 p) as [cl5|]; [|done]. destruct Hs as [_ T2 T3]. by rewrite T2, T3, S2, S3.
  - rewrite (proj2 (epoch_none p) Hcl) in Hs. by destruct (cells m5 p).
Qed.

Lemma epoch_holders id level : (id, level) ∈ os <->
  exists p cl, p ∈ (ch_pos <$> changes) /\ cells m5 p = Some cl /\ c_id cl = id /\ c_load cl = Some level.
Proof.
  rewrite (ld_holders _ _ _ _ Hlev), list_elem_of_omap. unfold to_schedule. split.
  - intros (c & Hc & E). pose proof (epoch_same_holder (ch_pos c)) as Hs. pose proof (epoch_assigned_changed c Hc) as Ha.
    destruct (cells m4 (ch_pos c)) as [cl4|]; [|done]. simpl in E. destruct (ch_new_level c) as [l|]; [|done].
    simpl in *. injection E as <- <-. unfold assigned in Ha. destruct (cells m5 (ch_pos c)) as [cl5|] eqn:E5; [|done].
    destruct Hs as [S1 _ _]. exists (ch_pos c), cl5. split_and!; [by apply list_elem_of_fmap_2|done|done|].
    by destruct (c_load cl5); simpl in Ha; [injection Ha as -> _|].
  - intros (p & cl5 & (c & -> & Hc)%list_elem_of_fmap & E5 & Hid & Hl). exists c. split; [done|].
    pose proof (epoch_same_holder (ch_pos c)) as Hs. pose proof (epoch_assigned_changed c Hc) as Ha.
    rewrite E5 in Hs. unfold assigned in Ha. rewrite E5, Hl in Ha. simpl in Ha.
    destruct (cells m4 (ch_pos c)) as [cl4|]; [|done]. destruct Hs as [S1 _ _]. simpl.
    destruct (ch_new_level c); simpl in *; [injection Ha as -> _|done]. by rewrite <- Hid, S1.
Qed.

Lemma epoch_gens G : 0 <= G -> gens_le G m -> gens_le (G + 3) m5.
Proof.
  intros HG Hg. replace (G + 3) with (G + 1 + 2) by lia.
  apply (rc_gens _ _ _ _ Hrec), (ld_gens _ _ _ _ Hlev); [lia|].
  by eapply prepared_gens.
Qed.

(** ** Membership in the snapshot *)

(** When neither the simulation levels nor the demotions moved a chunk in or out of a view,
    applying the new simulation level to the demoted readiness does not either. *)
Lemma membership_square r0 r1 s0 s1 : rank r1 <= rank r0 ->
  ticking_snapshot_membership r0 s0 = ticking_snapshot_membership r0 s1 ->
  ticking_snapshot_membership r0 s0 = ticking_snapshot_membership r1 s0 ->
  ticking_snapshot_membership r1 s1 = ticking_snapshot_membership r0 s0.
Proof.
  unfold ticking_snapshot_membership.
  destruct r0, r1; simpl; try lia; intros _;
    destruct (is_block_ticking s0), (is_entity_ticking s0), (is_block_ticking s1), (is_entity_ticking s1); done.
Qed.

Hypothesis Hsim : forall c cl, c ∈ changes -> cells m (ch_pos c) = Some cl ->
  membership cl = ticking_snapshot_membership (c_ready cl) (ch_new_simulation_level c).
Hypothesis Hb1 : b1 = false.
Hypothesis Hb2 : b2 = false.

Definition nowhere : bool * bool * bool := (false, false, false).

Lemma epoch_membership4 p :
  match cells m p, cells m4 p with
  | Some cl, Some cl4 => c_id cl4 = c_id cl /\ membership cl4 = membership cl
  | Some cl, None => membership cl = nowhere
  | None, Some cl4 => membership cl4 = nowhere
  | None, None => True
  end.
Proof.
  destruct (cells m p) as [cl|] eqn:Hcl.
  - destruct (prepared_cell _ _ _ _ _ p cl Hchg Hprep Hcl) as (cl3 & Hcl3 & [S1 S2 S3] & _ & _ & _ & Hm & Hr & Hun).
    specialize (Hm Hb1). apply bool_decide_eq_true in Hm.
    destruct (epoch_level p) as [[_ E]|(c & o & Hc & <- & Hres)].
    { rewrite E, Hcl3. by split. }
    unfold level_result in Hres. rewrite Hcl3 in Hres. destruct (ch_new_level c) as [l|] eqn:Hlevel.
    + destruct Hres as [(cl4 & _ & -> & _ & E2 & E3 & E4)|(_ & ? & _)]; [|done]. split; [congruence|].
      unfold membership. rewrite E2, E4. apply membership_square; [done|by apply Hsim|]. by rewrite S3 in Hm.
    + destruct Hres as (_ & -> & _). unfold membership. rewrite Hm. unfold ticking_snapshot_membership, nowhere.
      rewrite Hun; [by rewrite andb_false_r|].
      apply (new_levels_lookup changes _ None (proj1 Hchg)). eauto.
  - assert (cells m3 p = None) as Hcl3 by by apply epoch_none.
    destruct (epoch_level p) as [[_ E]|(c & o & Hc & <- & Hres)]; [by rewrite E, Hcl3|].
    unfold level_result in Hres. rewrite Hcl3 in Hres. destruct (ch_new_level c) as [l|].
    + destruct Hres as [(cl4 & _ & -> & _ & _ & E)|(_ & _ & -> & _)]; [|done].
      unfold membership, ticking_snapshot_membership. rewrite E. by rewrite andb_false_r.
    + by destruct Hres as (_ & -> & _).
Qed.

Lemma epoch_membership5 p :
  match cells m p, cells m5 p with
  | Some cl, Some cl5 => c_id cl5 = c_id cl /\ membership cl5 = membership cl
  | Some cl, None => membership cl = nowhere
  | None, Some cl5 => membership cl5 = nowhere
  | None, None => True
  end.
Proof.
  pose proof (epoch_membership4 p) as H. destruct (cells m4 p) as [cl4|] eqn:Hcl4.
  - destruct (rc_index _ _ _ _ Hrec) as (n2 & _ & _ & _ & Hcells).
    destruct (Hcells p cl4 Hcl4) as (cl5 & Hcl5 & [S1 _ _] & _). rewrite Hcl5.
    pose proof (rc_flag _ _ _ _ Hrec Hb2 p cl4 cl5 Hcl4 Hcl5) as Hm. apply bool_decide_eq_true in Hm.
    fold (membership cl4) in Hm. fold (membership cl5) in Hm. rewrite <- Hm, S1. done.
  - by rewrite (proj1 (rc_none _ _ _ _ Hrec p Hcl4)).
Qed.

Lemma epoch_snapshot : snapshot_exact m -> snapshot_exact m5.
Proof.
  assert (forall view x, view nowhere = false -> member m5 view x <-> member m view x) as Hmem.
  { intros view x Hv. unfold member. pose proof (epoch_membership5 (tc_pos x)) as H.
    destruct (cells m (tc_pos x)) as [cl|], (cells m5 (tc_pos x)) as [cl5|].
    - destruct H as [H1 H2]. split; intros (c & [= <-] & E1 & E2); [exists cl|exists cl5]; split_and!; congruence.
    - split; [by intros (c & ? & _)|]. intros (c & [= <-] & _ & E). congruence.
    - split; [|by intros (c & ? & _)]. intros (c & [= <-] & _ & E). congruence.
    - done. }
  intros (S1 & S2 & S3 & S4). unfold snapshot_exact.
  assert (ticking_chunks m5 = ticking_chunks m) as ->.
  { rewrite (rc_snapshot _ _ _ _ Hrec), (ld_snapshot _ _ _ _ Hlev), (dr_snapshot _ _ epoch_drives). done. }
  split_and!; try done. intros x. by rewrite !Hmem.
Qed.
End Trace.

(** ** The commit *)

Lemma foldr_delete_lookup (changes : list LevelChange) (d : gmap ChunkPos DeferredChunkRevival) p :
  foldr (fun c d => delete (ch_pos c) d) d changes !! p =
    if decide (p ∈ (ch_pos <$> changes)) then None else d !! p.
Proof.
  induction changes as [|c changes IH]; simpl; [done|].
  destruct (decide (p = ch_pos c)) as [->|Hne].
  - rewrite lookup_delete_eq, decide_True; [done|by left].
  - rewrite lookup_delete_ne by done. rewrite IH. case_decide as H1.
    + rewrite decide_True; [done|by right].
    + rewrite decide_False; [done|]. by intros [|]%elem_of_cons.
Qed.

(** The merged changes: those of the epoch, and the deferred revivals they do not override. *)
Record merged (changes : list LevelChange) m (changes' : list LevelChange) : Prop := {
  mg_ok : changes_ok changes';
  mg_changes : forall c, c ∈ changes -> c ∈ changes';
  mg_positions : forall p, p ∈ (ch_pos <$> changes') <->
    p ∈ (ch_pos <$> changes) \/ is_Some (deferred_revivals m !! p);
  mg_deferred : forall p r, p ∉ (ch_pos <$> changes) -> deferred_revivals m !! p = Some r ->
    mkChange p (Some (dr_load r)) (dr_sim r) ∈ changes';
}.

Lemma wp_merge changes m :
  poised m -> changes_ok changes ->
  wp (merge_deferred_revivals changes)
    (fun changes' m' => merged changes m changes' /\ m' = set_deferred_revivals m ∅) m.
Proof.
  intros Hq [Hnd Hch]. unfold merge_deferred_revivals. apply wp_bind, wp_get. apply wp_bind, wp_put, wp_ret.
  split; [|done]. set (d := foldr _ _ changes). set (f := fun '(pos, r) => _).
  assert (ch_pos <$> (f <$> map_to_list d) = (map_to_list d).*1) as Epos.
  { rewrite <- list_fmap_compose. apply list_fmap_ext. by intros i [p r]. }
  assert (forall p r, (p, r) ∈ map_to_list d <-> (p ∉ (ch_pos <$> changes)) /\ deferred_revivals m !! p = Some r) as Hd.
  { intros p r. rewrite elem_of_map_to_list. unfold d. rewrite foldr_delete_lookup. case_decide; naive_solver. }
  assert (forall p, p ∈ (map_to_list d).*1 <-> (p ∉ (ch_pos <$> changes)) /\ is_Some (deferred_revivals m !! p)) as Hk.
  { intros p. rewrite list_elem_of_fmap. split.
    - intros ([q r] & -> & [H1 H2]%Hd). simpl. eauto.
    - intros (H1 & r & H2). exists (p, r). split; [done|]. by apply Hd. }
  split.
  - split.
    + rewrite fmap_app, Epos. apply NoDup_app. split; [done|]. split; [|apply NoDup_fst_map_to_list].
      intros p Hp [H _]%Hk. done.
    + apply Forall_app. split; [done|]. apply Forall_fmap, Forall_forall. intros [p r] [_ H]%Hd.
      destruct (q_deferred _ Hq p r H) as (_ & H1 & H2 & H3). split; simpl; [done| |done]. by intros l [= <-].
  - intros c Hc. apply elem_of_app. by left.
  - intros p. rewrite fmap_app, elem_of_app, Epos, Hk. destruct (decide (p ∈ (ch_pos <$> changes))); tauto.
  - intros p r Hp Hr. apply elem_of_app. right. apply list_elem_of_fmap. exists (p, r). split; [done|]. by apply Hd.
Qed.

Lemma set_deferred_poised m : poised m -> poised (set_deferred_revivals m ∅).
Proof.
  intros [Q1 Q2 Q3 Q4 Q5 Q6 Q7]. split; try done.
  split; simpl; try apply Q1. intros id h Hh. by destruct (mo_holder _ Q1 id h Hh).
Qed.

(** What a commit does: the map is quiet again, every position has the level that the
    changes assign to it, and the holders to schedule are those of the changed positions. *)
Record committed (changes : list LevelChange) (G : Z) m (os : list (Z * ChunkTicketLevel)) m' : Prop := {
  cd_quiet : quiet m';
  cd_gens : gens_le (G + 3) m';
  cd_changed : forall c, c ∈ changes ->
    assigned m' (ch_pos c) = level ← ch_new_level c; Some (level, ch_new_simulation_level c);
  cd_same : forall p, p ∉ (ch_pos <$> changes) -> assigned m' p = assigned m p;
  cd_holders : forall id level, (id, level) ∈ os <-> exists p cl,
    (p ∈ (ch_pos <$> changes) \/ is_Some (deferred_revivals m !! p)) /\
    cells m' p = Some cl /\ c_id cl = id /\ c_load cl = Some level;
}.

(** From the end of an epoch on the merged changes to the end of the commit. *)
Lemma epoch_committed changes changes' G m m1 n b1 m3 os m4 b2 m5 m6 :
  poised m -> merged changes m changes' -> (forall p, cells m1 p = cells m p) ->
  epoch changes' m1 n b1 m3 os m4 b2 m5 -> 0 <= G -> gens_le G m1 ->
  (forall p, cells m6 p = cells m5 p) -> deferred_revivals m6 = deferred_revivals m5 ->
  (forall G, gens_le G m5 -> gens_le G m6) -> quiet m6 ->
  committed changes G m os m6.
Proof.
  intros Hq [_ M2 M3 M4] Hc1 Hep HG Hg Hc6 Hd6 Hg6 Hq6.
  assert (forall p, assigned m6 p = assigned m5 p) as Ha6 by (intros; unfold assigned; by rewrite Hc6, Hd6).
  split; [done| | | |].
  - by apply Hg6, (epoch_gens Hep).
  - intros c Hc. rewrite Ha6. by apply (epoch_assigned_changed Hep), M2.
  - intros p Hp. rewrite Ha6. destruct (deferred_revivals m !! p) as [r|] eqn:Hr.
    + pose proof (epoch_assigned_changed Hep _ (M4 p r Hp Hr)) as E. simpl in E. rewrite E.
      unfold assigned. rewrite (proj1 (q_deferred _ Hq p r Hr)), Hr. done.
    + rewrite (epoch_assigned_same Hep).
      * unfold assigned. rewrite Hc1, Hr, (ep_none _ _ _ _ _ _ _ _ _ Hep). done.
      * rewrite M3, Hr. by intros [?|[? ?]].
  - intros id level. rewrite (epoch_holders Hep). setoid_rewrite M3. by setoid_rewrite Hc6.
Qed.

(** The end of the commit: rebuild the snapshot if anything said so. *)
Lemma wp_commit_end changes changes' G m m1 m2 n b1 m3 os m4 b2 m5 (bs : bool) :
  poised m -> merged changes m changes' -> (forall p, cells m2 p = cells m p) ->
  epoch changes' m2 n b1 m3 os m4 b2 m5 -> 0 <= G -> gens_le G m2 ->
  (bs = false -> forall c cl, c ∈ changes' -> cells m1 (ch_pos c) = Some cl ->
     membership cl = ticking_snapshot_membership (c_ready cl) (ch_new_simulation_level c)) ->
  (forall p, cells m1 p = cells m2 p) -> snapshot_exact m2 ->
  wp (_ ← interfere; _ ← (if (bs || b1) || b2 then rebuild_ticking_chunk_snapshot else mret ()); mret os)
    (committed changes G m) m5.
Proof.
  intros Hq Hm Hc2 Hep HG Hg Hsim Hc1 Hsn. pose proof (epoch_poised Hep) as Hq5.
  apply wp_bind, wp_interfere; [exact (q_ok _ Hq5)|]. intros m6 Hok6 He6.
  pose proof (poised_evolves m5 m6 Hq5 Hok6 He6) as Hq6.
  assert (forall p, cells m6 p = cells m5 p) as Hc6 by (intros; by apply evolves_cells).
  apply wp_bind. destruct ((bs || b1) || b2) eqn:Eb.
  - eapply wp_mono; [|apply wp_rebuild_snapshot; [done|exact (q_ready _ Hq6)|exact (q_world _ Hq6)]].
    intros u m7 (t & s & -> & Hok7 & Hs7). apply wp_ret.
    apply (epoch_committed changes changes' G m m2 n b1 m3 os m4 b2 m5); try done.
    + exact (ev_deferred _ _ He6).
    + intros G' Hg5. exact (gens_evolves G' m5 m6 He6 Hg5).
    + split; [|done]. destruct Hq6 as [Q1 Q2 Q3 Q4 Q5 Q6 Q7]. by split.
  - apply wp_ret, wp_ret. apply orb_false_iff in Eb as [[-> ->]%orb_false_iff ->].
    apply (epoch_committed changes changes' G m m2 n false m3 os m4 false m5); try done.
    + exact (ev_deferred _ _ He6).
    + intros G' Hg5. exact (gens_evolves G' m5 m6 He6 Hg5).
    + split; [done|]. apply (snapshot_evolves m5 m6 He6), (epoch_snapshot Hep); try done.
      intros c cl Hc. rewrite <- Hc1. by apply Hsim.
Qed.

Lemma wp_commit changes G m :
  quiet m -> changes_ok changes -> 0 <= G -> gens_le G m -> G + 3 <= MAX_GENERATION ->
  wp (commit_scheduling_epoch world_min_y world_height changes) (committed changes G m) m.
Proof.
  intros [Hq Hsn] Hch HG Hg Hroom. unfold commit_scheduling_epoch.
  apply wp_bind. eapply wp_mono; [|by apply wp_merge]. intros changes' ? [Hm ->].
  pose proof (set_deferred_poised m Hq) as Hq1. set (m0 := set_deferred_revivals m ∅) in *.
  apply wp_bind, wp_interfere; [exact (q_ok _ Hq1)|]. intros m1 Hok1 He1.
  apply wp_bind. eapply wp_mono; [|by apply wp_simulation_changes].
  intros bs m2 (Hok2 & He2 & Hsim). assert (evolves m0 m2) as He02 by by etransitivity.
  pose proof (poised_evolves m0 m2 Hq1 Hok2 He02) as Hq2.
  assert (snapshot_exact m2) as Hsn2 by (apply (snapshot_evolves m0 m2 He02); exact Hsn).
  assert (gens_le G m2) as Hg2 by (apply (gens_evolves G m0 m2 He02); exact Hg).
  assert (deferred_revivals m2 = ∅) as Hd2 by exact (ev_deferred _ _ He02).
  assert (forall p, cells m2 p = cells m p) as Hc2 by (intros; exact (evolves_cells m0 m2 p He02)).
  apply wp_bind. eapply wp_mono; [|apply wp_prepare; [done|exact (q_dirty _ Hq2)|exact (mg_ok _ _ _ Hm)|]].
  2: { apply (gens_room G 1 m2); [done|lia]. }
  intros r m3 (b1 & n & -> & Hprep). apply wp_bind, wp_ret.
  pose proof (prepared_drives _ _ _ _ _ Hprep) as Hd3. pose proof (dr_ok _ _ Hd3) as Hok3.
  apply wp_bind. eapply wp_mono; [|apply wp_commit_levels; [done|exact (mg_ok _ _ _ Hm)|]].
  2: { by eapply prepared_level_pre; [exact Hok2|exact (mg_ok _ _ _ Hm)|]. }
  intros os m4' Hlev'. apply wp_bind, wp_interfere; [exact (ld_ok _ _ _ _ Hlev')|]. intros m4 Hok4 He4.
  pose proof (levels_done_evolves _ _ _ _ _ Hlev' Hok4 He4) as Hlev. clear Hlev' m4' He4.
  apply wp_bind. eapply wp_mono; [|apply wp_bind; eapply wp_mono; [|apply wp_reconcile; [done|..]]].
  - intros rebuild m5 H. exact H.
  - intros r m5 (b2 & -> & Hrec). apply wp_ret.
    apply (wp_commit_end changes changes' G m m1 m2 n b1 m3 os m4 b2 m5 bs); try done.
    + split; try done. exact (mg_ok _ _ _ Hm).
    + intros p. symmetry. by apply evolves_cells.
  - apply Forall_fmap. eapply Forall_impl; [exact (proj2 (mg_ok _ _ _ Hm))|]. intros c Hc. exact (co_pos _ Hc).
  - apply (gens_room (G + 1) 2); [|lia]. apply (ld_gens _ _ _ _ Hlev); [lia|].
    eapply prepared_gens; [exact Hok2|exact (mg_ok _ _ _ Hm)|done|done].
  - by eapply levels_counted.
  - intros E. rewrite (ld_neighborhood _ _ _ _ Hlev), (dr_dirty _ _ Hd3). simpl.
    rewrite (pd_idle _ _ _ _ _ Hprep); [exact (q_dirty _ Hq2)|]. by apply fmap_nil_inv in E.
Qed.
End Safety.
