(* ===== verification/ChunkMapSystem.v ===== *)
(** * Histories of the chunk map

    Unloading, and every history of commits, unloads and steps of the other threads from an
    empty map: the map never panics, readiness and the ticking snapshot are exact after each
    operation, and every position has the level that was last assigned to it. *)

From S2P Require Import Prelude Positions ChunkPyramid ChunkTickets TickList TickScheduler.
From S2P Require Import TickOwnership FullNeighborhood ChunkHolder ChunkMap ChunkMapInv.
From S2P Require Import ChunkMapCommit ChunkMapEpoch ChunkMapReconcile ChunkMapSafety.

Section System.
Context {T : Type} `{!TickOwnership T}.
Context (world_min_y world_height : Z).
Implicit Types m : ChunkMap T.

(** ** Unloading *)

(** An unloading holder that nothing refers to can be dropped. *)
Lemma finalize_map_ok m pos id h t :
  map_ok m -> unloading_chunks m !! pos = Some id -> heap m !! id = Some h -> producers_of m id = [] ->
  id ∉ saving m -> to_ok t -> to_registered t = delete pos (to_registered (scheduled_ticks m)) ->
  (forall i, i <> id -> to_lifecycle t i = to_lifecycle (scheduled_ticks m) i) ->
  map_ok (mkMap (delete id (heap m)) (delete id (producers m)) (saving m) (next_id m) (chunks m)
    (delete pos (unloading_chunks m)) (deferred_revivals m) (full_publications m) (full_neighborhood m)
    (ticking_chunks m) t).
Proof.
  intros Hok Hu Hh Hps Hsv Ht Hreg Hlife. destruct (mo_unloading _ Hok pos id Hu) as (h0 & E0 & Hpos).
  rewrite Hh in E0. injection E0 as <-. pose proof (ho_id _ _ _ (mo_holder _ Hok id h Hh)) as Hid.
  assert (forall p i, p <> pos -> chunks m !! p = Some i \/ unloading_chunks m !! p = Some i -> i <> id) as Hne.
  { intros p i Hp Hi ->. destruct Hi as [Hi|Hi]; [destruct (mo_chunks _ Hok p id Hi) as (h0 & E0 & Ep)|
      destruct (mo_unloading _ Hok p id Hi) as (h0 & E0 & Ep)]; congruence. }
  assert (forall i, default [] (delete id (producers m) !! i) = producers_of m i) as Hprs.
  { intros i. destruct (decide (i = id)) as [->|Hi]; [by rewrite lookup_delete_eq, Hps|by rewrite lookup_delete_ne]. }
  assert (forall p i, chunks m !! p = Some i -> i <> id) as Hact.
  { intros p i Hp. destruct (decide (p = pos)) as [->|Hpne]; [|eauto].
    pose proof (mo_disjoint _ Hok pos (mk_is_Some _ _ Hp)). congruence. }
  split; simpl; try apply Hok; try done.
  - intros i h0 [Hi E0]%lookup_delete_Some. destruct (mo_holder _ Hok i h0 E0) as [I1 I2 I3 I4 I5 I6 I7 I8].
    split; unfold producers_of in *; simpl; try done; try by rewrite Hprs.
    + unfold is_active_holder, is_unloading_holder in *. simpl. destruct I6 as [A|(A & B)]; [by left|right].
      split; [|done]. rewrite lookup_delete_ne; [done|]. intros E. rewrite <- E in A. congruence.
    + rewrite Hprs, Hlife by done. done.
  - intros p i Hp. destruct (mo_chunks _ Hok p i Hp) as (h0 & E0 & Ep). exists h0.
    rewrite lookup_delete_ne; [done|]. intros E. by apply (Hact p i Hp).
  - intros p i [Hp Hi]%lookup_delete_Some. destruct (mo_unloading _ Hok p i Hi) as (h0 & E0 & Ep). exists h0.
    rewrite lookup_delete_ne; [done|]. intros E. by apply (Hne p i); [done|right|].
  - intros p Hp. apply lookup_delete_None. right. by apply (mo_disjoint _ Hok).
  - intros i Hi. rewrite Hlife by lia. unfold producers_of. simpl. rewrite Hprs. by apply (mo_fresh _ Hok).
  - intros i Hi. rewrite lookup_delete_ne; [by apply (mo_saving _ Hok)|]. by intros <-.
  - intros p i. rewrite Hreg. unfold owns_ticks, producers_of. simpl. rewrite Hprs. split.
    + intros [Hp Hi]%lookup_delete_Some. apply (mo_registered _ Hok) in Hi as (h0 & E0 & Ep & R). exists h0.
      rewrite lookup_delete_ne; [done|]. intros <-. congruence.
    + intros (h0 & [Hi E0]%lookup_delete_Some & Ep & R). apply lookup_delete_Some. split.
      * intros <-. apply Hi. apply (owner_unique m id i h h0 Hok Hh E0). congruence.
      * apply (mo_registered _ Hok). by exists h0.
  - intros p i (A & h0 & E0 & B)%(mo_contributors _ Hok). split; [done|]. simpl. exists h0.
    rewrite lookup_delete_ne; [done|]. intros E. by apply (Hact p i A).
  - intros p i Hin h0 [_ E0]%lookup_delete_Some. by apply (mo_published _ Hok p i).
Qed.

Lemma finalize_quiet m pos id h t m' :
  quiet m -> unloading_chunks m !! pos = Some id -> heap m !! id = Some h ->
  m' = mkMap (delete id (heap m)) (delete id (producers m)) (saving m) (next_id m) (chunks m)
    (delete pos (unloading_chunks m)) (deferred_revivals m) (full_publications m) (full_neighborhood m)
    (ticking_chunks m) t ->
  map_ok m' -> quiet m' /\ forall p, cells m' p = cells m p.
Proof.
  intros [[Q1 Q2 Q3 Q4 Q5 Q6 Q7] Hsn] Hu Hh -> Hok'. set (m' := mkMap _ _ _ _ _ _ _ _ _ _ _) in *.
  assert (forall p i, chunks m !! p = Some i -> i <> id) as Hact.
  { intros p i Hp ->. destruct (mo_chunks _ Q1 p id Hp) as (h0 & E0 & Ep), (mo_unloading _ Q1 pos id Hu) as (h1 & E1 & Ep1).
    assert (p = pos) as -> by congruence. pose proof (mo_disjoint _ Q1 pos (mk_is_Some _ _ Hp)). congruence. }
  assert (forall p i, chunks m !! p = Some i -> heap m' !! i = heap m !! i) as Hheap.
  { intros p i Hp. simpl. rewrite lookup_delete_ne; [done|]. intros E. by apply (Hact p i Hp). }
  assert (forall p, cells m' p = cells m p) as Hc.
  { intros p. unfold cells. change (chunks m') with (chunks m). destruct (chunks m !! p) as [i|] eqn:Hp; [|done].
    cbn [mbind option_bind]. by rewrite (Hheap p i Hp). }
  assert (forall p cl b, cells m p = Some cl -> has_world m (c_id cl) b -> has_world m' (c_id cl) b) as Hw.
  { intros p cl b (h0 & Hp & _)%cells_Some (h1 & E1 & L). exists h1. by rewrite (Hheap p _ Hp). }
  assert (forall p i, full_holder m' p i <-> full_holder m p i) as Hf.
  { intros p i. unfold full_holder. change (chunks m') with (chunks m). split; intros (A & B);
      (split; [done|]); by rewrite (Hheap p i A) in *. }
  split; [|done]. split.
  - split; try done.
    + intros p cl. rewrite Hc. intros Hcl. destruct (Q3 p cl Hcl) as [?|[? ?]]; [by left|right]. split; [done|eauto].
    + intros p cl. rewrite Hc. eauto.
    + intros p. unfold pending_of. rewrite Hc. apply Q5.
    + intros p i Hfi. apply Hf in Hfi. destruct (Q6 p i Hfi) as [?|[?|(q & Hq & Hs)]]; [by left|right; by left|right; right].
      exists q. split; [|done]. unfold producers_of. simpl. rewrite lookup_delete_ne; [done|].
      intros E. destruct Hfi as [A _]. by apply (Hact p i A).
    + intros p r Hr. rewrite Hc. by apply Q7.
  - apply (snapshot_exact_ext m); [done| |done]. intros view x. unfold member. by rewrite Hc.
Qed.

(** One position: kept as it is, kept with a save under way, or dropped when nothing wants
    it and its data is on disk. *)
Definition droppable m (staged : gset ChunkPos) (light_touches save_pending : ChunkPos -> bool)
  (outside : Z -> bool) (pos : ChunkPos) (id : Z) : Prop :=
  (pos ∉ staged) /\ light_touches pos = false /\ save_pending pos = false /\ is_referenced m outside id = false /\
  forall h c, heap m !! id = Some h -> try_chunk h StructureStarts = Some c -> cd_dirty c = false.

Record unload_post m (pos : ChunkPos) (id : Z) (drop : Prop) m' : Prop := {
  up_quiet : quiet m';
  up_cells : forall p, cells m' p = cells m p;
  up_deferred : deferred_revivals m' = deferred_revivals m;
  up_gens : forall G, gens_le G m -> gens_le G m';
  up_unloading : unloading_chunks m' = unloading_chunks m \/
    unloading_chunks m' = delete pos (unloading_chunks m) /\ heap m' !! id = None /\ drop;
}.

Lemma process_unload_ok staged light_touches save_pending outside pos id m :
  quiet m -> unloading_chunks m !! pos = Some id ->
  exists m', process_unload staged light_touches save_pending outside (pos, id) m = Some m' /\
    unload_post m pos id (droppable m staged light_touches save_pending outside pos id) m'.
Proof.
  intros Hq Hu. pose proof (q_ok _ (proj1 Hq)) as Hok. destruct (mo_unloading _ Hok pos id Hu) as (h & Hh & Hpos).
  unfold process_unload. rewrite Hh. simpl.
  destruct (bool_decide (pos ∈ staged) || light_touches pos || is_referenced m outside id) eqn:Ekeep.
  { exists m. split; [done|]. split; auto. }
  rewrite !orb_false_iff in Ekeep. destruct Ekeep as [[Est%bool_decide_eq_false El] Er].
  set (dirty := match try_chunk h StructureStarts with Some c => cd_dirty c | None => false end).
  destruct (dirty || save_pending pos) eqn:Esave.
  - destruct (save_delta_ok m id 1 Hok) as (D1 & D2 & D3). simpl in D1, D2, D3.
    assert (set_holder m id (add_save_dependency h) = set_heap m (alter add_save_dependency id (heap m))) as E.
    { unfold set_holder. f_equal. apply map_eq. intros i. destruct (decide (i = id)) as [->|Hne].
      - by rewrite lookup_alter_eq, lookup_insert_eq, Hh.
      - by rewrite lookup_alter_ne, lookup_insert_ne. }
    rewrite E. eexists. split; [done|]. split; try done.
    + split; [by apply (poised_drives m); [apply Hq|..]|]. apply (snapshot_exact_ext m); [done| |apply Hq].
      intros view x. unfold member. by rewrite D3.
    + intros G Hg i h0. simpl. destruct (decide (i = id)) as [->|Hne].
      * rewrite lookup_alter_eq, Hh. intros [= <-]. exact (Hg id h Hh).
      * rewrite lookup_alter_ne by done. apply Hg.
    + by left.
  - apply orb_false_iff in Esave as [Ed Es]. unfold finalize_holder.
    destruct (to_unregister_law (scheduled_ticks m) pos (mo_ticks _ Hok)) as (t & -> & L1 & L2 & L3). simpl.
    pose proof Er as Er'. unfold is_referenced in Er. rewrite !orb_false_iff in Er. destruct Er as ((((R1 & R2) & R3) & R4) & R5).
    apply negb_false_iff, bool_decide_eq_true in R1. apply bool_decide_eq_false in R2.
    eexists. split; [done|]. set (m' := mkMap _ _ _ _ _ _ _ _ _ _ _).
    assert (map_ok m') as Hok'.
    { apply (finalize_map_ok m pos id h); try done. intros i Hi. apply L3. intros E.
      apply (mo_registered _ Hok) in E as (h0 & E0 & Ep & _). apply Hi. apply (owner_unique m i id h0 h Hok E0 Hh). congruence. }
    destruct (finalize_quiet m pos id h t m' Hq Hu Hh eq_refl Hok') as [Q C]. split; try done.
    + intros G Hg i h0 E0. simpl in E0. apply lookup_delete_Some in E0 as [_ E0]. by apply (Hg i).
    + right. split; [done|]. split; [apply lookup_delete_eq|]. split_and!; try done.
      intros h0 c E0 Hc. rewrite Hh in E0. injection E0 as <-. unfold dirty in Ed. by rewrite Hc in Ed.
Qed.

(** All unloading positions; the loop drops no position that is staged for revival. *)
Record unloads_post m (staged : gset ChunkPos) m' : Prop := {
  us_quiet : quiet m';
  us_cells : forall p, cells m' p = cells m p;
  us_deferred : deferred_revivals m' = deferred_revivals m;
  us_gens : forall G, gens_le G m -> gens_le G m';
  us_kept : forall p id, unloading_chunks m !! p = Some id -> unloading_chunks m' !! p = Some id \/
    (unloading_chunks m' !! p = None /\ p ∉ staged);
}.

Lemma unloads_post_evolves m staged m1 m2 :
  unloads_post m staged m1 -> map_ok m2 -> evolves m1 m2 -> unloads_post m staged m2.
Proof.
  intros [U1 U2 U3 U4 U5] Hok He. split.
  - split; [by apply (poised_evolves m1); [apply U1|..]|by apply (snapshot_evolves m1); [|apply U1]].
  - intros p. by rewrite (evolves_cells m1 m2 p He).
  - by rewrite (ev_deferred _ _ He).
  - intros G Hg. apply (gens_evolves G m1 m2 He). auto.
  - intros p id Hp. rewrite (ev_unloading _ _ He). auto.
Qed.

Lemma wp_process_unloads staged light_touches save_pending outside m :
  quiet m -> wp (process_unloads staged light_touches save_pending outside) (fun _ m' => unloads_post m staged m') m.
Proof.
  intros Hq. unfold process_unloads. apply wp_bind, wp_get.
  eapply wp_mono; [|apply (wp_for (map_to_list (unloading_chunks m)) _ (fun rest m1 => unloads_post m staged m1 /\
    NoDup rest.*1 /\ forall p id, (p, id) ∈ rest -> unloading_chunks m1 !! p = Some id))].
  - by intros u m' [H _].
  - intros l m1 [H _]. exact (q_ok _ (proj1 (us_quiet _ _ _ H))).
  - intros l m1 m2 (H1 & H2 & H3) Hok2 He. split_and!; [by apply (unloads_post_evolves m staged m1)|done|].
    intros p id. rewrite (ev_unloading _ _ He). apply H3.
  - intros [pos id] rest m1 ([U1 U2 U3 U4 U5] & Hnd & Hrest). apply wp_bind, wp_get.
    assert (unloading_chunks m1 !! pos = Some id) as Hu by (apply Hrest; by left).
    destruct (process_unload_ok staged light_touches save_pending outside pos id m1 U1 Hu) as (m2 & E & [P1 P2 P3 P4 P5]).
    apply wp_bind, (wp_expect _ m2); [done|]. apply wp_put. apply NoDup_cons in Hnd as [Hnew Hnd]. simpl in Hnew.
    assert (forall p i, (p, i) ∈ rest -> p <> pos) as Hne.
    { intros p i Hin ->. apply Hnew. apply list_elem_of_fmap. by exists (pos, i). }
    split_and!; [split; try done| done|].
    + intros p. by rewrite P2.
    + congruence.
    + auto.
    + intros p i Hp. destruct P5 as [->|(-> & _ & Hst & _)]; [auto|].
      destruct (decide (p = pos)) as [->|Hpne]; [rewrite lookup_delete_eq; by right|by rewrite lookup_delete_ne; auto].
    + intros p i Hin. pose proof (Hne p i Hin). destruct P5 as [->|(-> & _)];
        [|rewrite lookup_delete_ne by done]; apply Hrest; by right.
  - split_and!; [by split; auto|apply NoDup_fst_map_to_list|]. intros p id Hin. by apply elem_of_map_to_list.
Qed.

(** ** Histories *)

Inductive map_op :=
| OpCommit (changes : list LevelChange) (sched : interleaving)
| OpUnload (changes : list LevelChange) (light_touches save_pending : ChunkPos -> bool) (outside : Z -> bool)
    (sched : interleaving)
| OpOthers (evs : list env_event).

Definition final_map {A} (r : option (A * (ChunkMap T * interleaving))) : option (ChunkMap T) :=
  match r with Some (_, (m, _)) => Some m | None => None end.

(** [OpUnload] is the unloading part of an epoch that prepared [changes] for its commit. *)
Definition run_op m (op : map_op) : option (ChunkMap T) :=
  match op with
  | OpCommit changes sched => final_map (commit_scheduling_epoch world_min_y world_height changes (m, sched))
  | OpUnload changes light_touches save_pending outside sched =>
      final_map (process_unloads (staged_revivals m changes) light_touches save_pending outside (m, sched))
  | OpOthers evs => env_steps m evs
  end.

Definition run_ops m (ops : list map_op) : option (ChunkMap T) := for_each ops (fun op m => run_op m op) m.

Definition empty_map (t : T) : ChunkMap T :=
  mkMap ∅ ∅ ∅ 0 ∅ ∅ ∅ [] Neighborhood_default (mkSnapshot [] [] []) t.

Definition op_ok (op : map_op) : Prop :=
  match op with OpCommit changes _ => changes_ok changes | _ => True end.

Definition is_commit (op : map_op) : bool := match op with OpCommit _ _ => true | _ => false end.

Definition commits (ops : list map_op) : Z := Z.of_nat (length (filter (fun op => is_commit op = true) ops)).

(** The level that a change asks for, and the level last asked for at a position. *)
Definition request (c : LevelChange) : option (ChunkTicketLevel * option ChunkTicketLevel) :=
  level ← ch_new_level c; Some (level, ch_new_simulation_level c).

Definition requested (changes : list LevelChange) (p : ChunkPos)
  (old : option (ChunkTicketLevel * option ChunkTicketLevel)) :=
  match list_find (fun c => ch_pos c = p) changes with Some (_, c) => request c | None => old end.

Definition replay (ops : list map_op) (p : ChunkPos) : option (ChunkTicketLevel * option ChunkTicketLevel) :=
  foldl (fun old op => match op with OpCommit changes _ => requested changes p old | _ => old end) None ops.

(** A tick scheduler that has seen no chunk. *)
Definition fresh_ticks (t : T) : Prop :=
  to_ok t /\ to_registered t = ∅ /\ forall id, to_lifecycle t id = None.

Lemma empty_quiet t : fresh_ticks t -> quiet (empty_map t).
Proof.
  intros (H1 & H2 & H3). split; [split|]; try done.
  - split; simpl; try done; try by intros ? ?.
    + intros p id. rewrite H2, lookup_empty. split; [done|]. by intros (h & ? & _).
    + apply nb_ok_default.
    + by intros p id ?%elem_of_nil.
  - by intros p id (? & _).
  - split_and!; [constructor|constructor|constructor|]. intros x. simpl. unfold member, indexed, cells. simpl.
    split_and!; (split; [|by intros (cl & ? & _)]).
    + by intros ?%elem_of_nil.
    + by intros (i & ?%elem_of_nil & _).
    + by intros (i & ?%elem_of_nil & _).
Qed.

Lemma committed_assigned changes G m os m' p :
  committed changes G m os m' -> assigned m' p = requested changes p (assigned m p).
Proof.
  intros [_ _ C3 C4 _]. unfold requested. destruct (list_find _ changes) as [[i c]|] eqn:E.
  - apply list_find_Some in E as (Hi & <- & _). apply C3. by eapply list_elem_of_lookup_2.
  - apply list_find_None in E. apply C4. intros (c & -> & Hc)%list_elem_of_fmap. rewrite Forall_forall in E. by apply (E c).
Qed.

Record history (ops : list map_op) m : Prop := {
  hs_quiet : quiet m;
  hs_gens : gens_le (3 * commits ops) m;
  hs_assigned : forall p, assigned m p = replay ops p;
}.

Lemma history_step ops op m :
  history ops m -> op_ok op -> 3 * commits (ops ++ [op]) <= MAX_GENERATION ->
  exists m', run_op m op = Some m' /\ history (ops ++ [op]) m'.
Proof.
  intros [H1 H2 H3] Hop Hroom. unfold commits in *. rewrite filter_app, length_app, Nat2Z.inj_add in *.
  set (k := Z.of_nat (length (filter (fun op => is_commit op = true) ops))) in *.
  assert (forall m', quiet m' -> (forall p, cells m' p = cells m p) -> deferred_revivals m' = deferred_revivals m ->
    gens_le (3 * k) m' -> is_commit op = false -> history (ops ++ [op]) m') as Hkeep.
  { intros m' Q C D Gs Hno. split; [done| |].
    - unfold commits. rewrite filter_app, length_app, Nat2Z.inj_add, filter_cons. fold k. rewrite Hno.
      simpl. by rewrite Z.add_0_r.
    - intros p. unfold replay. rewrite foldl_snoc. fold (replay ops p). rewrite <- H3. unfold assigned.
      rewrite C, D. by destruct op. }
  destruct op as [changes sched|changes light save outside sched|evs]; simpl in *.
  - destruct (wp_commit world_min_y world_height changes (3 * k) m H1 Hop ltac:(lia) H2 ltac:(lia) sched)
      as (os & m' & sched' & E & Hc). rewrite E. simpl. exists m'. split; [done|]. split.
    + exact (cd_quiet _ _ _ _ _ Hc).
    + unfold commits. rewrite filter_app, length_app, Nat2Z.inj_add. fold k. simpl.
      replace (3 * (k + Z.of_nat 1)) with (3 * k + 3) by lia. exact (cd_gens _ _ _ _ _ Hc).
    + intros p. unfold replay. rewrite foldl_snoc. fold (replay ops p). rewrite <- H3. by apply (committed_assigned changes (3 * k) m os).
  - destruct (wp_process_unloads (staged_revivals m changes) light save outside m H1 sched) as (u & m' & sched' & E & [U1 U2 U3 U4 U5]).
    rewrite E. simpl. exists m'. split; [done|]. apply Hkeep; auto.
  - destruct (env_steps_ok m evs (q_ok _ (proj1 H1))) as (m' & E & Hok & He). rewrite E. exists m'. split; [done|].
    apply Hkeep; [|by intros p; apply evolves_cells|exact (ev_deferred _ _ He)|by apply (gens_evolves _ m m' He)|done].
    split; [by apply (poised_evolves m); [apply H1|..]|by apply (snapshot_evolves m); [|apply H1]].
Qed.

Lemma commits_app ops ops' : commits (ops ++ ops') = commits ops + commits ops'.
Proof. unfold commits. by rewrite filter_app, length_app, Nat2Z.inj_add. Qed.

Lemma history_ok ops t :
  fresh_ticks t -> Forall op_ok ops -> 3 * commits ops <= MAX_GENERATION ->
  exists m, run_ops (empty_map t) ops = Some m /\ history ops m.
Proof.
  intros Ht Hops Hroom. unfold run_ops. apply (for_each_ind history).
  - split; [by apply empty_quiet|by intros id h ?|done].
  - intros pre op todo m -> Hm. rewrite Forall_app, Forall_cons in Hops. apply history_step; [done|apply Hops|].
    replace (pre ++ op :: todo) with ((pre ++ [op]) ++ todo) in Hroom by by rewrite <- (assoc_L (++)).
    rewrite commits_app in Hroom. unfold commits at 2 in Hroom. lia.
Qed.

(** ** What holds of every history *)

(** All positions within [r] of [p] hold Full chunks that their level lets count. *)
Definition full_square m (r : Z) (p : ChunkPos) : Prop := forall q, near r p q -> exists id, full_holder m q id.

Lemma allowed_readiness_spec level c : 
  let r := allowed_readiness level c in
  (r = EntityTicking <-> is_entity_ticking level = true /\ entity_ticking_ready c = true) /\
  (r = BlockTicking -> is_block_ticking level = true /\ block_ticking_ready c = true) /\
  (is_block_ticking level = true -> block_ticking_ready c = true -> r <> Unready).
Proof.
  unfold allowed_readiness. destruct (is_entity_ticking level), (entity_ticking_ready c),
    (is_block_ticking level), (block_ticking_ready c); simpl; naive_solver.
Qed.

Lemma entity_is_block_level level : is_entity_ticking level = true -> is_block_ticking level = true.
Proof.
  destruct level as [l|]; [|done]. simpl. unfold ChunkTicketLevel_is_entity_ticking, ChunkTicketLevel_is_block_ticking.
  rewrite !Z.leb_le. change LEVEL_ENTITY_TICKING_CHUNK with 128. change LEVEL_BLOCK_TICKING_CHUNK with 129. lia.
Qed.

Lemma quiet_readiness m p cl :
  quiet m -> cells m p = Some cl ->
  (c_ready cl <> Unready -> is_block_ticking (c_load cl) = true /\ has_world m (c_id cl) true /\ full_square m 1 p) /\
  (c_ready cl = EntityTicking -> is_entity_ticking (c_load cl) = true /\ full_square m 2 p) /\
  ((forall q id, ~ announced m q id) -> has_world m (c_id cl) true ->
   (is_block_ticking (c_load cl) = true -> full_square m 1 p -> c_ready cl <> Unready) /\
   (is_entity_ticking (c_load cl) = true -> full_square m 2 p -> c_ready cl = EntityTicking)).
Proof.
  intros [Hq _] Hcl. pose proof (q_ok _ Hq) as Hok.
  assert (ChunkPos_ok p) as Hp.
  { pose proof Hcl as (h & A & B & _)%cells_Some. destruct (active_holder m p _ h Hok A B) as (<- & _).
    exact (ho_pos _ _ _ (mo_holder _ Hok _ h B)). }
  destruct (ready_iff _ p (mo_neighborhood _ Hok) Hp) as [Hb He].
  destruct (allowed_readiness_spec (c_load cl) (counts_at (full_neighborhood m) p)) as (A1 & A2 & A3).
  assert (forall r, (forall q, near r p q -> is_Some (contributors (full_neighborhood m) !! q)) -> full_square m r p) as Hfull.
  { intros r H q Hn. destruct (H q Hn) as [id Hid]. exists id. by apply (mo_contributors _ Hok). }
  assert (forall r, (forall q id, ~ announced m q id) -> full_square m r p ->
    forall q, near r p q -> is_Some (contributors (full_neighborhood m) !! q)) as Hcount.
  { intros r Hno H q Hn. destruct (H q Hn) as [id Hf]. destruct (q_announced _ Hq q id Hf) as [->|An]; [done|].
    by destruct (Hno q id). }
  pose proof (q_world _ Hq p cl Hcl) as Hw.
  destruct (q_ready _ Hq p cl Hcl) as [Hr|[Hr Hl]]; rewrite Hr in *.
  - split_and!.
    + intros Hn. split; [|split; [auto|]]; destruct (allowed_readiness _ _) eqn:E; try done.
      * by apply A2.
      * by apply entity_is_block_level, A1.
      * by apply Hfull, Hb, A2.
      * intros q Hnear. by apply (Hfull 2 (proj1 He (proj2 (proj1 A1 eq_refl)))), near_1_2.
    + intros E. destruct (proj1 A1 E) as [H1 H2]. split; [done|]. by apply Hfull, He.
    + intros Hno _. split; intros Hlv Hsq; [apply A3; [done|]|apply A1; split; [done|]].
      * by apply Hb, Hcount.
      * by apply He, Hcount.
  - split_and!; try done. intros _ (h & Hh & Hl1). destruct Hl as (h' & Hh' & Hl2). congruence.
Qed.

(** C2. From an empty map, whatever the order of commits, unload passes and steps of the
    generation and save threads, and whatever these threads do during the calls, no
    assertion fails; and every position has the load and simulation level of the last change
    committed for it, at an active holder or as a revival waiting for a save to release the
    holder. *)
Theorem chunk_map_replays_levels ops t :
  fresh_ticks t -> Forall op_ok ops -> 3 * commits ops <= MAX_GENERATION ->
  exists m, run_ops (empty_map t) ops = Some m /\ map_ok m /\ forall p, assigned m p = replay ops p.
Proof.
  intros Ht Hops Hroom. destruct (history_ok ops t Ht Hops Hroom) as (m & E & [[Hq _] _ Ha]).
  exists m. split; [done|]. split; [exact (q_ok _ Hq)|done].
Qed.

(** C3. After any history a chunk is at least block ticking only with a ticking level, its
    world and 9 Full chunks around it, and entity ticking only with 25; and when no Full
    publication is under way it is as ready as its level and neighbourhood allow. *)
Theorem ticking_readiness_exact ops t m p cl :
  fresh_ticks t -> Forall op_ok ops -> 3 * commits ops <= MAX_GENERATION ->
  run_ops (empty_map t) ops = Some m -> cells m p = Some cl ->
  (c_ready cl <> Unready -> is_block_ticking (c_load cl) = true /\ has_world m (c_id cl) true /\ full_square m 1 p) /\
  (c_ready cl = EntityTicking -> is_entity_ticking (c_load cl) = true /\ full_square m 2 p) /\
  ((forall q id, ~ announced m q id) -> has_world m (c_id cl) true ->
   (is_block_ticking (c_load cl) = true -> full_square m 1 p -> c_ready cl <> Unready) /\
   (is_entity_ticking (c_load cl) = true -> full_square m 2 p -> c_ready cl = EntityTicking)).
Proof.
  intros Ht Hops Hroom Hrun. destruct (history_ok ops t Ht Hops Hroom) as (m0 & E & [Hquiet _ _]).
  rewrite Hrun in E. injection E as <-. by apply quiet_readiness.
Qed.

(** After any history the ticking snapshot lists, once each, exactly the active chunks
    whose readiness and simulation level let them tick blocks, and its index lists are
    exactly those that also tick randomly and those whose entities tick. *)
Theorem ticking_snapshot_exact ops t :
  fresh_ticks t -> Forall op_ok ops -> 3 * commits ops <= MAX_GENERATION ->
  exists m, run_ops (empty_map t) ops = Some m /\ snapshot_exact m.
Proof.
  intros Ht Hops Hroom. destruct (history_ok ops t Ht Hops Hroom) as (m & E & [[_ Hs] _ _]). by exists m.
Qed.

(** C37. After any history, a commit returns exactly the active holders of the positions it
    changed or revived, each with its new level, for generation to be scheduled. *)
Theorem commit_schedules_changed ops t m changes sched :
  fresh_ticks t -> Forall op_ok ops -> 3 * commits ops + 3 <= MAX_GENERATION ->
  run_ops (empty_map t) ops = Some m -> changes_ok changes ->
  exists os m' sched',
    commit_scheduling_epoch world_min_y world_height changes (m, sched) = Some (os, (m', sched')) /\
    forall id level, (id, level) ∈ os <-> exists p cl,
      (p ∈ (ch_pos <$> changes) \/ is_Some (deferred_revivals m !! p)) /\
      cells m' p = Some cl /\ c_id cl = id /\ c_load cl = Some level.
Proof.
  intros Ht Hops Hroom Hrun Hch. destruct (history_ok ops t Ht Hops ltac:(lia)) as (m0 & E & [Hquiet Hg _]).
  rewrite Hrun in E. injection E as <-.
  assert (0 <= 3 * commits ops) as H0 by (unfold commits; lia).
  destruct (wp_commit world_min_y world_height changes _ m Hquiet Hch H0 Hg Hroom sched) as (os & m' & sched' & E & Hc).
  exists os, m', sched'. split; [done|]. exact (cd_holders _ _ _ _ _ Hc).
Qed.

(** After any history, unloading a position never drops a holder whose dirty flag is set,
    that is staged for revival, or that a producer, a save, the ticking snapshot or
    a pending readiness entry still refers to; and it leaves the active chunks alone. *)
Theorem unload_drops_only_saved ops t m staged light_touches save_pending outside pos id :
  fresh_ticks t -> Forall op_ok ops -> 3 * commits ops <= MAX_GENERATION ->
  run_ops (empty_map t) ops = Some m -> unloading_chunks m !! pos = Some id ->
  exists m', process_unload staged light_touches save_pending outside (pos, id) m = Some m' /\ map_ok m' /\
    (forall p, cells m' p = cells m p) /\
    (heap m' !! id = None -> droppable m staged light_touches save_pending outside pos id).
Proof.
  intros Ht Hops Hroom Hrun Hu. destruct (history_ok ops t Ht Hops Hroom) as (m0 & E & [Hquiet _ _]).
  rewrite Hrun in E. injection E as <-.
  destruct (process_unload_ok staged light_touches save_pending outside pos id m Hquiet Hu) as (m' & E & [P1 P2 _ _ P5]).
  exists m'. split; [done|]. split; [exact (q_ok _ (proj1 P1))|]. split; [done|]. intros Hgone.
  destruct P5 as [Eu|(_ & _ & ?)]; [|done].
  rewrite <- Eu in Hu. by destruct (mo_unloading _ (q_ok _ (proj1 P1)) pos id Hu) as (h & ? & _); congruence.
Qed.
End System.

(** ** A concrete history *)

#[local] Instance witness_key : TickKey Z := fun z => z.
#[local] Instance witness_ownership : TickOwnership (WorldTickScheduler Z Z) :=
  scheduler_ownership 0 (fun _ _ => mkLists TickList_new TickList_new).

Definition witness_ticks : WorldTickScheduler Z Z := WorldTickScheduler_new ∅.

Lemma witness_ticks_fresh : fresh_ticks witness_ticks.
Proof. split; [apply scheduler_new_ok|done]. Qed.

(** Nine positions around the origin at the block ticking level. *)
Definition witness_changes : list LevelChange :=
  (fun p => mkChange p (Some LEVEL_BLOCK_TICKING_CHUNK) (Some LEVEL_BLOCK_TICKING_CHUNK)) <$> square 1 (mkChunkPos 0 0).

(** The generation thread loads holder [id] as a stored Full chunk. *)
Definition witness_load (id : Z) : list env_event :=
  [EvClaim id Empty; EvLoad id 0 Full (mkData true true false); EvAdvance id 0; EvAdvance id 0; EvAdvance id 0;
   EvAdvance id 0; EvAdvance id 0; EvDrop id 0].

(** The nine chunks are scheduled and loaded, the second commit while the last one is
    loading; the origin then loses its level while a neighbour is being saved. *)
Definition witness_ops : list map_op :=
  [OpCommit witness_changes [];
   OpOthers (concat (witness_load <$> seqZ 0 8));
   OpCommit [] [witness_load 8];
   OpCommit [] [];
   OpUnload [] (fun _ => false) (fun _ => false) (fun _ => false) []].

Definition witness_map : ChunkMap (WorldTickScheduler Z Z) :=
  default (empty_map witness_ticks) (run_ops (-64) 384 (empty_map witness_ticks) witness_ops).

Lemma witness_run : run_ops (-64) 384 (empty_map witness_ticks) witness_ops = Some witness_map.
Proof. apply run_default. vm_compute. reflexivity. Qed.

Lemma witness_ops_ok : Forall op_ok witness_ops.
Proof.
  assert (changes_ok witness_changes) as H.
  { split; [by apply (bool_decide_unpack _); vm_compute|].
    apply Forall_fmap, Forall_forall. intros p Hp. apply elem_of_square in Hp; [|lia]. unfold near in Hp. simpl in *.
    split; simpl; [unfold ChunkPos_ok, in_s in *; simpl in *; lia| |]; intros l [= <-]; unfold level_ok;
      change LEVEL_BLOCK_TICKING_CHUNK with 129; change MAX_LEVEL_RAW with 141; lia. }
  assert (changes_ok []) as H0 by by split; constructor.
  by repeat apply Forall_cons_2.
Qed.

Lemma witness_room : 3 * commits witness_ops + 3 <= MAX_GENERATION.
Proof. vm_compute. discriminate. Qed.

Lemma chunk_map_replays_levels_witness :
  exists m, run_ops (-64) 384 (empty_map witness_ticks) witness_ops = Some m /\
    assigned m (mkChunkPos 1 0) = Some (129, Some 129) /\ assigned m (mkChunkPos 2 0) = None.
Proof.
  destruct (chunk_map_replays_levels (-64) 384 witness_ops witness_ticks witness_ticks_fresh witness_ops_ok)
    as (m & E & _ & H); [pose proof witness_room; lia|].
  exists m. split; [exact E|]. rewrite !H. split; reflexivity.
Defined.

(** The origin ticks, and so its nine chunks are Full. *)
Lemma ticking_readiness_exact_witness :
  exists cl, cells witness_map (mkChunkPos 0 0) = Some cl /\ c_ready cl = BlockTicking /\
    full_square witness_map 1 (mkChunkPos 0 0).
Proof.
  eexists. split; [vm_compute; reflexivity|]. split; [reflexivity|].
  apply (ticking_readiness_exact (-64) 384 witness_ops witness_ticks witness_map _ (mkCell 4 (Some 129) (Some 129) BlockTicking 1)
    witness_ticks_fresh witness_ops_ok); [pose proof witness_room; lia|exact witness_run|vm_compute; reflexivity|discriminate].
Defined.

Lemma ticking_snapshot_exact_witness :
  exists m, run_ops (-64) 384 (empty_map witness_ticks) witness_ops = Some m /\
    ticking_chunks m = mkSnapshot [mkTickable (mkChunkPos 0 0) 4] [] [] /\ snapshot_exact m.
Proof.
  destruct (ticking_snapshot_exact (-64) 384 witness_ops witness_ticks witness_ticks_fresh witness_ops_ok)
    as (m & E & H); [pose proof witness_room; lia|].
  exists m. split; [exact E|]. split; [|exact H].
  apply (f_equal (fun o => ticking_chunks <$> o)) in E. cbn [fmap option_fmap option_map] in E.
  assert (Some (ticking_chunks m) = Some (mkSnapshot [mkTickable (mkChunkPos 0 0) 4] [] [])) as [= ->]; [|reflexivity].
  rewrite <- E. vm_compute. reflexivity.
Defined.

(** A tenth position. *)
Definition witness_change : LevelChange := mkChange (mkChunkPos 2 0) (Some 130) None.

Lemma witness_change_ok : changes_ok [witness_change].
Proof.
  split; [apply NoDup_singleton|]. constructor; [|constructor]. split; [by split| |by intros l].
  intros l [= <-]. split; vm_compute; discriminate.
Qed.

Lemma commit_schedules_changed_witness :
  exists os m' sched',
    commit_scheduling_epoch (-64) 384 [witness_change] (witness_map, []) = Some (os, (m', sched')) /\
    forall id level, (id, level) ∈ os <-> exists p cl,
      (p ∈ (ch_pos <$> [witness_change]) \/ is_Some (deferred_revivals witness_map !! p)) /\
      cells m' p = Some cl /\ c_id cl = id /\ c_load cl = Some level.
Proof.
  apply (commit_schedules_changed (-64) 384 witness_ops witness_ticks witness_map [witness_change] []
    witness_ticks_fresh witness_ops_ok witness_room witness_run witness_change_ok).
Defined.

(** A corner loses its level. *)
Definition witness_unload_ops : list map_op := witness_ops ++ [OpCommit [mkChange (mkChunkPos 1 1) None None] []].

Definition witness_unload_map : ChunkMap (WorldTickScheduler Z Z) :=
  default witness_map (run_ops (-64) 384 (empty_map witness_ticks) witness_unload_ops).

Lemma witness_unload_run :
  run_ops (-64) 384 (empty_map witness_ticks) witness_unload_ops = Some witness_unload_map.
Proof. apply run_default. vm_compute. reflexivity. Qed.

Lemma witness_unload_ops_ok : Forall op_ok witness_unload_ops /\ 3 * commits witness_unload_ops <= MAX_GENERATION.
Proof.
  split; [|vm_compute; discriminate]. apply Forall_app. split; [exact witness_ops_ok|]. constructor; [|constructor].
  split; [apply NoDup_singleton|]. constructor; [|constructor]. by split.
Qed.

(** Nothing keeps it: the pass drops it. *)
Lemma unload_drops_only_saved_witness :
  exists m', process_unload ∅ (fun _ => false) (fun _ => false) (fun _ => false) (mkChunkPos 1 1, 8) witness_unload_map = Some m' /\
    heap m' !! 8 = None /\
    droppable witness_unload_map ∅ (fun _ => false) (fun _ => false) (fun _ => false) (mkChunkPos 1 1) 8.
Proof.
  destruct (unload_drops_only_saved (-64) 384 witness_unload_ops witness_ticks witness_unload_map ∅ (fun _ => false)
    (fun _ => false) (fun _ => false) (mkChunkPos 1 1) 8 witness_ticks_fresh (proj1 witness_unload_ops_ok)
    (proj2 witness_unload_ops_ok) witness_unload_run) as (m' & E & _ & _ & H); [vm_compute; reflexivity|].
  exists m'. split; [exact E|].
  assert (heap m' !! 8 = None) as Hgone; [|exact (conj Hgone (H Hgone))].
  apply (f_equal (fun o => m ← o; heap m !! 8)) in E. simpl in E. rewrite <- E. vm_compute. reflexivity.
Defined.
