(* ===== verification/ChunkSaves.v ===== *)
(** * Saving a chunk before it is dropped

    Models [steel-core/src/chunk/chunk_map/persistence.rs] for one holder: the task of
    [save_chunk] with the preparation on the encoding pool, its retries, and the decision of
    the unload pass.  A save task refers to its holder from the moment it is spawned until
    it ends, and the pass leaves a referenced holder alone.  Changes are counted: the
    counter of the holder is compared with the one of the last snapshot that was written.

    The theorem says that no change is lost: a holder that is dropped has its last change on
    disk, through every interleaving of changes, level updates, revivals, unload passes and
    save tasks that succeed, fail or are cancelled.  The save of the shutdown and panics on
    the encoding pool are not part of it. *)

From S2P Require Import Prelude Positions ChunkPyramid ChunkTickets ChunkHolder TickOwnership FullNeighborhood ChunkMap.

(** ** The unload pass *)

Inductive unload_decision := KeepHolder | SaveFirst | DropHolder.

(** One position of [process_unloads]. *)
Definition decide_unload (staged light_touches referenced save_pending : bool) (h : ChunkHolder) : unload_decision :=
  if staged || light_touches || referenced then KeepHolder
  else if (match try_chunk h StructureStarts with Some c => cd_dirty c | None => false end) || save_pending then SaveFirst
  else DropHolder.

(** The pass of [ChunkMap] follows this decision. *)
Lemma process_unload_decides {T} `{!TickOwnership T} (staged : gset ChunkPos) light_touches save_pending outside pos id (m : ChunkMap T) :
  process_unload staged light_touches save_pending outside (pos, id) m =
  h ← heap m !! id;
  match decide_unload (bool_decide (pos ∈ staged)) (light_touches pos) (is_referenced m outside id) (save_pending pos) h with
  | KeepHolder => Some m
  | SaveFirst => Some (set_holder m id (add_save_dependency h))
  | DropHolder => finalize_holder m pos id
  end.
Proof.
  unfold process_unload, decide_unload. destruct (heap m !! id) as [h|]; [|done]. simpl.
  by destruct (bool_decide (pos ∈ staged) || light_touches pos || is_referenced m outside id), ((match try_chunk h StructureStarts with Some c => cd_dirty c | None => false end) || save_pending pos).
Qed.

(** ** A save task *)

(** Where a task stands: spawned; holding the preparation guard; with the flag taken, the
    count of changes in the snapshot and whether entities force a save; with a snapshot that
    is handed over; writing; about to end. *)
Inductive save_stage :=
| SvSpawned
| SvPreparing
| SvTaken (dirty : bool) (version : Z) (force : bool)
| SvPrepared (version : Z)
| SvWriting (version : Z)
| SvDone.

Definition mark_chunk_dirty_for_save_retry (h : ChunkHolder) : ChunkHolder :=
  match try_chunk h StructureStarts with Some _ => mark_dirty_data h | None => h end.

(** One action of a task at [version] changes, on the holder and the count that is on disk.
    The snapshot has at least the changes from before the flag was taken. *)
Inductive task_step (version : Z) : ChunkHolder * Z * save_stage -> ChunkHolder * Z * save_stage -> Prop :=
| ts_begin h h' stored : try_begin_save_preparation h = Some h' -> task_step version (h, stored, SvSpawned) (h', stored, SvPreparing)
| ts_refused h stored : try_begin_save_preparation h = None -> task_step version (h, stored, SvSpawned) (h, stored, SvDone)
| ts_not_persisted h h' stored : try_chunk h StructureStarts = None \/ published_status h = Some None ->
    end_save_preparation h = Some h' -> task_step version (h, stored, SvPreparing) (h', stored, SvDone)
| ts_take_dirty h stored chunk force : try_chunk h StructureStarts = Some chunk ->
    task_step version (h, stored, SvPreparing) (set_dirty false h, stored, SvTaken (cd_dirty chunk) version force)
| ts_prepare h h' stored dirty taken force : dirty || force = true -> end_save_preparation h = Some h' ->
    task_step version (h, stored, SvTaken dirty taken force) (h', stored, SvPrepared taken)
| ts_nothing h h' stored dirty taken force : end_save_preparation (if dirty : bool then mark_dirty_data h else h) = Some h' ->
    task_step version (h, stored, SvTaken dirty taken force) (h', stored, SvDone)
| ts_cancelled h stored taken : task_step version (h, stored, SvPrepared taken) (mark_chunk_dirty_for_save_retry h, stored, SvDone)
| ts_received h stored taken : task_step version (h, stored, SvPrepared taken) (h, stored, SvWriting taken)
| ts_written h stored taken : task_step version (h, stored, SvWriting taken) (h, taken, SvDone)
| ts_failed h stored taken : task_step version (h, stored, SvWriting taken) (mark_chunk_dirty_for_save_retry h, stored, SvDone).

(** ** Everything else that happens to a holder *)

(** With whether it counts as a change of the chunk. *)
Inductive other_step (h : ChunkHolder) : ChunkHolder -> bool -> Prop :=
| os_mark_dirty chunk : try_chunk h StructureStarts = Some chunk -> other_step h (mark_dirty_data h) true
| os_load_level level : other_step h (swap_load_level h level).1 false
| os_clear_level : other_step h (clear_load_level h) false
| os_simulation_level level : other_step h (set_simulation_level h level) false
| os_allowed level : other_step h (update_highest_allowed_status h level) false
| os_readiness target h' previous : transition_ticking_readiness h target = Some (h', previous) -> other_step h h' false
| os_begin_unloading h' : begin_unloading h = Some h' -> other_step h h' false
| os_revive h' : try_revive_from_unloading h = Some h' -> other_step h h' false
| os_add_dependency : other_step h (add_save_dependency h) false
| os_drop_dependency : other_step h (drop_save_dependency h) false
| os_claim status h' outcome : claim_status_work h status = Some (h', outcome) -> other_step h h' false
| os_release status h' : release_status_work_claim h status = Some h' -> other_step h h' false
| os_insert chunk h' : insert_chunk_no_notify h chunk = Some h' -> other_step h h' (cd_dirty chunk)
| os_upgrade h' : upgrade_to_full h = Some h' -> other_step h h' false
| os_stage status published : h_data h <> None -> published_status h = Some published ->
    (match published with Some p => status_index p <? status_index status | None => true end = true) -> other_step h (mark_dirty_data h) true
| os_started status : other_step h (mark_status_work_published h status) false
| os_publish status : other_step h (publish_generated_status h status) false
| os_full_init : other_step h (set_h_full_init true h) false
| os_changes changes : other_step h (set_h_changes changes h) false.

(** ** One holder with its save tasks *)

Record saved_holder := mkSaved {
  sv_holder : ChunkHolder;
  sv_present : bool;
  sv_tasks : list save_stage;
  sv_version : Z;
  sv_stored : Z;
}.

Inductive saved_step : saved_holder -> saved_holder -> Prop :=
| sh_other h h' changed tasks version stored : other_step h h' changed ->
    saved_step (mkSaved h true tasks version stored) (mkSaved h' true tasks (if changed : bool then version + 1 else version) stored)
| sh_task h h' present i stage stage' tasks version stored stored' : tasks !! i = Some stage ->
    task_step version (h, stored, stage) (h', stored', stage') ->
    saved_step (mkSaved h present tasks version stored) (mkSaved h' present (<[i := stage']> tasks) version stored')
| sh_task_ends h present i tasks version stored : tasks !! i = Some SvDone ->
    saved_step (mkSaved h present tasks version stored) (mkSaved (drop_save_dependency h) present (delete i tasks) version stored)
| sh_unload h tasks version stored staged light_touches referenced save_pending :
    saved_step (mkSaved h true tasks version stored)
      (match decide_unload staged light_touches (referenced || negb (bool_decide (tasks = []))) save_pending h with
       | KeepHolder => mkSaved h true tasks version stored
       | SaveFirst => mkSaved (add_save_dependency h) true (SvSpawned :: tasks) version stored
       | DropHolder => mkSaved h false tasks version stored
       end).

(** A holder as it enters the map, or that was just loaded or saved. *)
Definition saved_initial (s : saved_holder) : Prop :=
  sv_present s = true /\ sv_tasks s = [] /\ sv_stored s = sv_version s.

(** ** No change is lost *)

Definition flag (h : ChunkHolder) : bool := match h_data h with Some c => cd_dirty c | None => false end.
Definition persistable (h : ChunkHolder) : Prop := is_Some (try_chunk h StructureStarts).

(** Parts of a holder that saving depends on. *)
Record kept (h h' : ChunkHolder) : Prop := {
  ke_persistable : persistable h -> persistable h';
  ke_preparing : h_lifecycle h' = SAVE_LIFECYCLE_PREPARING <-> h_lifecycle h = SAVE_LIFECYCLE_PREPARING;
}.

Lemma persistable_data h h' : h_published h <= h_published h' -> (is_Some (h_data h) -> is_Some (h_data h')) -> persistable h -> persistable h'.
Proof.
  unfold persistable, try_chunk. intros Hp Hd. destruct (Z.leb_spec (encoded_published_status StructureStarts) (h_published h)); [|by intros []].
  rewrite (proj2 (Z.leb_le _ _)) by lia. done.
Qed.

Lemma set_dirty_flag b h : h_data h <> None -> flag (set_dirty b h) = b.
Proof. unfold flag, set_dirty. by destruct (h_data h). Qed.

Lemma set_dirty_kept b h : kept h (set_dirty b h).
Proof. split; [apply persistable_data|]; unfold set_dirty; by destruct (h_data h). Qed.

Lemma persistable_has_data h : persistable h -> h_data h <> None.
Proof. unfold persistable, try_chunk. destruct (_ <=? _); [|by intros []]. by intros [? ->]. Qed.

Lemma retry_ok h : persistable h -> kept h (mark_chunk_dirty_for_save_retry h) /\ flag (mark_chunk_dirty_for_save_retry h) = true.
Proof.
  intros Hp. pose proof Hp as [c Hc]. unfold mark_chunk_dirty_for_save_retry. rewrite Hc. split; [apply set_dirty_kept|].
  by apply set_dirty_flag, persistable_has_data.
Qed.

Lemma cas_spec h current new h' : cas_lifecycle h current new = Some h' -> h_lifecycle h = current /\ h' = set_h_lifecycle new h.
Proof. unfold cas_lifecycle. destruct (Z.eqb_spec (h_lifecycle h) current); [|done]. by intros [= <-]. Qed.

(** Every other step keeps them, and sets the flag if it changes the chunk. *)
Lemma other_step_ok h h' changed : other_step h h' changed -> kept h h' /\ flag h' = (if changed then true else flag h).
Proof.
  assert (forall h', h_published h <= h_published h' -> h_data h' = h_data h -> h_lifecycle h' = h_lifecycle h -> kept h h' /\ flag h' = flag h) as Hsame.
  { intros x Hp Hd Hl. split; [split; [apply persistable_data; [done|by rewrite Hd]|by rewrite Hl]|]. unfold flag. by rewrite Hd. }
  destruct 1 as [chunk Hc|level| |level|level|target h' previous E|h' E|h' E| | |status h' outcome E|status h' E|chunk h' E|h' E|status published Hd Hs Hlt|status|status| |changes];
    try (by apply Hsame).
  - split; [apply set_dirty_kept|]. apply set_dirty_flag, persistable_has_data. by exists chunk.
  - unfold transition_ticking_readiness in E. apply bind_Some in E as (r & _ & E). case_decide; [injection E as <- <-; by apply Hsame|].
    case_decide; [done|]. injection E as <- <-. by apply Hsame.
  - apply cas_spec in E as [El ->]. split; [split; [by apply persistable_data|]|done]. simpl. rewrite El. done.
  - apply cas_spec in E as [El ->]. split; [split; [by apply persistable_data|]|done]. simpl. rewrite El. done.
  - unfold claim_status_work in E. destruct (_ =? _); [injection E as <- <-; by apply Hsame|]. destruct (_ && _); [|done]. injection E as <- <-. by apply Hsame.
  - unfold release_status_work_claim in E. apply bind_Some in E as (r & _ & E). destruct (_ && _); [injection E as <-; by apply Hsame|].
    destruct (_ =? _); injection E as <-; by apply Hsame.
  - unfold insert_chunk_no_notify in E. destruct (h_data h) eqn:Ed; [done|]. injection E as <-. split.
    + split; [|done]. apply persistable_data; [done|]. simpl. eauto.
    + unfold flag. rewrite Ed. simpl. by destruct (cd_dirty chunk).
  - unfold upgrade_to_full in E. apply bind_Some in E as (r & _ & E). case_decide; [injection E as <-; by apply Hsame|].
    apply bind_Some in E as (chunk & Ed & E). destruct (cd_full_runtime chunk); [done|]. injection E as <-. split; [split; [|done]|].
    + apply persistable_data; [done|]. simpl. eauto.
    + unfold flag. by rewrite Ed.
  - split; [apply set_dirty_kept|by apply set_dirty_flag].
  - unfold mark_status_work_published. destruct (_ && _); by apply Hsame.
  - apply Hsame; [|done|done]. simpl. lia.
Qed.

(** What a task has in hand, for the changes that the flag no longer shows. *)
Definition stage_ok (h : ChunkHolder) (version stored : Z) (stage : save_stage) : Prop :=
  let unsaved := flag h = true \/ stored = version in
  match stage with
  | SvSpawned | SvDone => unsaved
  | SvPreparing => h_lifecycle h = SAVE_LIFECYCLE_PREPARING /\ unsaved
  | SvTaken dirty taken _ =>
      h_lifecycle h = SAVE_LIFECYCLE_PREPARING /\ persistable h /\ (flag h = true \/ taken = version) /\ (dirty = false -> unsaved)
  | SvPrepared taken | SvWriting taken => persistable h /\ (flag h = true \/ taken = version)
  end.

Definition tasks_ok (h : ChunkHolder) (version stored : Z) (tasks : list save_stage) : Prop :=
  match tasks with
  | [] => flag h = true \/ stored = version
  | [stage] => stage_ok h version stored stage
  | _ => False
  end.

Record saved_ok (s : saved_holder) : Prop := {
  so_tasks : tasks_ok (sv_holder s) (sv_version s) (sv_stored s) (sv_tasks s);
  so_dropped : sv_present s = false -> sv_tasks s = [] /\ (persistable (sv_holder s) -> sv_stored s = sv_version s);
}.

Lemma stage_other h h' changed version stored stage : other_step h h' changed -> stage_ok h version stored stage ->
  stage_ok h' (if changed then version + 1 else version) stored stage.
Proof.
  intros H Hs. apply other_step_ok in H as [[Kp Kl] Hf]. unfold stage_ok in *. rewrite Hf.
  destruct changed, stage; try tauto; rewrite ?Kl; naive_solver.
Qed.

Lemma task_step_ok version h stored stage h' stored' stage' : task_step version (h, stored, stage) (h', stored', stage') ->
  stage_ok h version stored stage -> stage_ok h' version stored' stage'.
Proof.
  intros H Hs. inversion H; subst; unfold stage_ok in *.
  - match goal with E : try_begin_save_preparation _ = _ |- _ => apply cas_spec in E as [_ ->] end. done.
  - done.
  - match goal with E : end_save_preparation _ = _ |- _ => apply cas_spec in E as [_ ->] end. apply Hs.
  - match goal with E : try_chunk _ _ = Some ?c |- _ => rename c into chunk; rename E into Hc end. destruct Hs as [Hl Hs].
    assert (persistable h) as Hp by (by exists chunk). destruct (set_dirty_kept false h) as [Kp Kl]. rewrite Kl. split_and!; [done|auto|by right|].
    intros Hd. right. destruct Hs as [Hs|]; [|done]. exfalso. unfold flag, try_chunk in *. destruct (_ <=? _); [|done]. rewrite Hc in Hs. congruence.
  - match goal with E : end_save_preparation _ = _ |- _ => apply cas_spec in E as [_ ->] end. destruct Hs as (_ & Hp & Hv & _). done.
  - destruct Hs as (_ & Hp & _ & Hu). match goal with E : end_save_preparation _ = _ |- _ => apply cas_spec in E as [_ ->] end.
    destruct dirty; [left|by apply Hu]. apply (set_dirty_flag true h). by apply persistable_has_data.
  - destruct Hs as [Hp _]. left. by apply retry_ok.
  - done.
  - apply Hs.
  - destruct Hs as [Hp _]. left. by apply retry_ok.
Qed.

Lemma saved_step_ok s s' : saved_step s s' -> saved_ok s -> saved_ok s'.
Proof.
  intros H [Ht Hd]. destruct H as [h h' changed tasks version stored Ho|h h' present i stage stage' tasks version stored stored' Hi Hs|h present i tasks version stored Hi
    |h tasks version stored staged light_touches referenced save_pending]; simpl in *.
  - split; [|done]. simpl. destruct tasks as [|stage [|]]; [|by apply (stage_other h)|done]. exact (stage_other h h' changed version stored SvDone Ho Ht).
  - destruct tasks as [|t [|]]; [done| |done]. destruct i; [|done]. injection Hi as ->. split; simpl; [by apply (task_step_ok version h stored stage)|].
    intros Hp. by destruct (Hd Hp).
  - destruct tasks as [|t [|]]; [done| |done]. destruct i; [|done]. injection Hi as ->. split; simpl; [done|]. intros Hp. by destruct (Hd Hp).
  - unfold decide_unload. destruct tasks as [|t tasks]; [|rewrite (bool_decide_eq_false_2 (t :: tasks = [])) by done; rewrite !orb_true_r; by split].
    destruct (staged || _ || _); [by split|]. destruct (_ || save_pending) eqn:E; [by split|]. apply orb_false_iff in E as [E _].
    split; [done|]. simpl. intros _. split; [done|]. intros [c Hc]. rewrite Hc in E. destruct Ht as [Hf|]; [|done].
    unfold flag, try_chunk in *. destruct (_ <=? _); [|done]. rewrite Hc in Hf. congruence.
Qed.

Lemma saved_run_ok s s' : saved_initial s -> rtc saved_step s s' -> saved_ok s'.
Proof.
  intros (Hp & Ht & Hv) Hrun. assert (saved_ok s) as Hok by (split; [rewrite Ht; by right|by rewrite Hp]).
  clear Hp Ht Hv. induction Hrun as [|s1 s2 s3 Hstep _ IH]; [done|]. apply IH. by apply (saved_step_ok s1).
Qed.

(** C30. However a chunk changes, unloads, is revived and is saved, whether saves succeed, fail,
    are refused or cancelled, and in whatever order this happens: a holder that the unload
    pass drops has no save task left and, if its status is one that is stored, its last
    change is on disk.  At most one save task works on a holder at a time; without one, a
    chunk that is not marked dirty is on disk as it is; and no task panics when it gives
    its preparation guard back. *)
Theorem unload_loses_nothing s0 s : saved_initial s0 -> rtc saved_step s0 s ->
  (sv_present s = false -> sv_tasks s = [] /\ (is_Some (try_chunk (sv_holder s) StructureStarts) -> sv_stored s = sv_version s)) /\
  (length (sv_tasks s) <= 1)%nat /\
  (forall c, sv_tasks s = [] -> try_chunk (sv_holder s) StructureStarts = Some c -> cd_dirty c = false -> sv_stored s = sv_version s) /\
  (forall stage, stage ∈ sv_tasks s -> (stage = SvPreparing \/ exists dirty taken force, stage = SvTaken dirty taken force) ->
     is_Some (end_save_preparation (sv_holder s))).
Proof.
  intros H0 Hrun. destruct (saved_run_ok s0 s H0 Hrun) as [Ht Hd]. destruct s as [h present tasks version stored]. simpl in *. split_and!.
  - exact Hd.
  - destruct tasks as [|t [|]]; simpl; [lia|lia|done].
  - intros c -> Hc Hclean. destruct Ht as [Hf|]; [|done]. unfold flag, try_chunk in *. destruct (_ <=? _); [|done]. rewrite Hc in Hf. congruence.
  - intros stage Hin Hstage. destruct tasks as [|t [|]]; [by apply elem_of_nil in Hin| |done]. apply list_elem_of_singleton in Hin as ->.
    assert (h_lifecycle h = SAVE_LIFECYCLE_PREPARING) as Hl by (destruct Hstage as [->|(d & v & f & ->)]; apply Ht).
    unfold end_save_preparation, cas_lifecycle. rewrite Hl, Z.eqb_refl. eauto.
Qed.

(** ** A concrete run *)

(** A chunk is changed and leaves; while it is saved it changes again, so that the first
    save is not enough, and it is dropped after a second one. *)
Definition saves_holder : ChunkHolder :=
  set_h_data (Some (mkData true true false)) (set_h_published 12 (new_with_full_publications (mkChunkPos 0 0) 33 None (-64) 384)).
Definition saves_start : saved_holder := mkSaved saves_holder true [] 0 0.
Definition saves_changed : ChunkHolder := set_h_lifecycle SAVE_LIFECYCLE_UNLOADING (mark_dirty_data saves_holder).

Lemma pass_saves h version stored : decide_unload false false false false h = SaveFirst ->
  saved_step (mkSaved h true [] version stored) (mkSaved (add_save_dependency h) true [SvSpawned] version stored).
Proof. intros E. pose proof (sh_unload h [] version stored false false false false) as H. rewrite bool_decide_eq_true_2 in H by done. cbn [negb orb] in H. by rewrite E in H. Qed.

Lemma pass_drops h version stored : decide_unload false false false false h = DropHolder ->
  saved_step (mkSaved h true [] version stored) (mkSaved h false [] version stored).
Proof. intros E. pose proof (sh_unload h [] version stored false false false false) as H. rewrite bool_decide_eq_true_2 in H by done. cbn [negb orb] in H. by rewrite E in H. Qed.

(** A task that finds the flag set and writes what it took; the chunk may change meanwhile. *)
Lemma save_runs (again : bool) h h1 h2 version stored : try_begin_save_preparation h = Some h1 -> try_chunk h1 StructureStarts = Some (mkData true true true) ->
  end_save_preparation (set_dirty false h1) = Some h2 -> is_Some (try_chunk h2 StructureStarts) ->
  rtc saved_step (mkSaved h true [SvSpawned] version stored)
    (mkSaved (drop_save_dependency (if again then mark_dirty_data h2 else h2)) true [] (if again then version + 1 else version) version).
Proof.
  intros H1 H2 H3 [c Hc].
  eapply rtc_l; [refine (sh_task _ _ _ 0 _ _ [SvSpawned] _ _ _ eq_refl (ts_begin _ _ _ _ H1))|].
  eapply rtc_l; [refine (sh_task _ _ _ 0 _ _ [SvPreparing] _ _ _ eq_refl (ts_take_dirty _ _ _ _ false H2))|].
  eapply rtc_l; [refine (sh_task _ _ _ 0 _ _ [_] _ _ _ eq_refl (ts_prepare _ _ _ _ true _ false eq_refl H3))|].
  eapply rtc_l; [refine (sh_task _ _ _ 0 _ _ [_] _ _ _ eq_refl (ts_received _ _ _ _))|]. cbn [list_insert insert].
  destruct again; [eapply rtc_l; [exact (sh_other _ _ true _ _ _ (os_mark_dirty _ _ Hc))|]|];
    (eapply rtc_l; [refine (sh_task _ _ _ 0 _ _ [_] _ _ _ eq_refl (ts_written _ _ _ _))|]);
    apply rtc_once; exact (sh_task_ends _ _ 0 [SvDone] _ _ eq_refl).
Qed.

(** The holder when the first task ends, and when the second does. *)
Definition saves_preparing (h : ChunkHolder) : ChunkHolder := set_h_lifecycle SAVE_LIFECYCLE_PREPARING h.
Definition saves_clean (h : ChunkHolder) : ChunkHolder := set_h_lifecycle SAVE_LIFECYCLE_UNLOADING (set_dirty false (saves_preparing h)).
Definition saves_first : ChunkHolder := drop_save_dependency (mark_dirty_data (saves_clean (add_save_dependency saves_changed))).
Definition saves_second : ChunkHolder := drop_save_dependency (saves_clean (add_save_dependency saves_first)).

Lemma saves_unloading : rtc saved_step saves_start (mkSaved saves_changed true [] 1 0).
Proof.
  eapply rtc_l; [exact (sh_other _ _ true _ _ _ (os_mark_dirty saves_holder _ eq_refl))|].
  apply rtc_once. exact (sh_other _ saves_changed false _ _ _ (os_begin_unloading (mark_dirty_data saves_holder) saves_changed eq_refl)).
Qed.

Lemma saves_twice : rtc saved_step (mkSaved saves_changed true [] 1 0) (mkSaved saves_second true [] 2 2).
Proof.
  eapply rtc_l; [apply pass_saves; reflexivity|].
  etrans; [apply (save_runs true (add_save_dependency saves_changed) (saves_preparing (add_save_dependency saves_changed)) (saves_clean (add_save_dependency saves_changed)) 1 0 eq_refl eq_refl eq_refl); by eexists|].
  eapply rtc_l; [apply pass_saves; reflexivity|].
  apply (save_runs false (add_save_dependency saves_first) (saves_preparing (add_save_dependency saves_first)) (saves_clean (add_save_dependency saves_first)) 2 1 eq_refl eq_refl eq_refl). by eexists.
Qed.

Lemma unload_loses_nothing_witness :
  let dropped := mkSaved saves_second false [] 2 2 in rtc saved_step saves_start dropped /\ sv_stored dropped = sv_version dropped.
Proof.
  assert (rtc saved_step saves_start (mkSaved saves_second false [] 2 2)) as Hrun.
  { etrans; [exact saves_unloading|]. etrans; [exact saves_twice|]. apply rtc_once, pass_drops. reflexivity. }
  split; [exact Hrun|].
  apply (proj2 (proj1 (unload_loses_nothing saves_start (mkSaved saves_second false [] 2 2) ltac:(by split_and!) Hrun) eq_refl)).
  eexists. reflexivity.
Defined.
