(* ===== verification/ChunkGeneration.v ===== *)
(** * Chunk generation tasks

    Models [steel-core/src/chunk/chunk_generation_task.rs], the task queue of
    [chunk_map/generation_readiness.rs] and the scheduling entry points of
    [chunk_holder.rs]: the square cache of holders, the queue with its limit and
    priorities, and the task that drives a square of chunks to a target status one layer at
    a time.  The statuses that other tasks publish meanwhile are part of the environment. *)

From S2P Require Import Prelude Positions ChunkPyramid ChunkTickets TickList TickScheduler.
From S2P Require Import TickOwnership FullNeighborhood ChunkHolder ChunkMap ChunkMapInv.
From S2P Require Import ChunkMapCommit ChunkMapEpoch ChunkMapReconcile ChunkMapSafety.
From S2P Require Import ChunkMapSystem.

(** ** The square cache *)

Record StaticCache2D (A : Type) := mkCache {
  sc_min_x : Z;
  sc_min_z : Z;
  sc_size : Z;
  sc_cache : list A;
}.
Arguments mkCache {A} _ _ _ _.
Arguments sc_min_x {A} _.
Arguments sc_min_z {A} _.
Arguments sc_size {A} _.
Arguments sc_cache {A} _.

(** The factory may panic. *)
Definition StaticCache2D_create {A} (center_x center_z radius : Z) (factory : Z -> Z -> option A)
  : option (StaticCache2D A) :=
  let size := i32 (i32 (radius * 2) + 1) in
  let min_x := i32 (center_x - radius) in
  let min_z := i32 (center_z - radius) in
  let cap := u64 (i32 (size * size)) in
  let size_usize := u64 size in
  cells ← mapM (fun index => factory (i32 (min_x + i32 (index mod size_usize)))
                                     (i32 (min_z + i32 (index / size_usize)))) (seqZ 0 cap);
  Some (mkCache min_x min_z size cells).

Definition StaticCache2D_try_get {A} (c : StaticCache2D A) (x z : Z) : option A :=
  let rel_x := i32 (x - sc_min_x c) in
  let rel_z := i32 (z - sc_min_z c) in
  if (0 <=? rel_x) && (rel_x <? sc_size c) && (0 <=? rel_z) && (rel_z <? sc_size c)
  then sc_cache c !! Z.to_nat (u64 (i32 (i32 (rel_z * sc_size c) + rel_x)))
  else None.

(** [get] panics out of bounds. *)
Definition StaticCache2D_get {A} (c : StaticCache2D A) (x z : Z) : option A := StaticCache2D_try_get c x z.

(** The square fits in the coordinate range, and its cells in the index range. *)
Definition square_fits (p : ChunkPos) (r : Z) : Prop :=
  0 <= r <= 1000 /\ in_s 32 (cp_x p - r) /\ in_s 32 (cp_x p + r) /\ in_s 32 (cp_y p - r) /\ in_s 32 (cp_y p + r).

Lemma wrapped_offset x lo r :
  in_s 32 x -> in_s 32 lo -> in_s 32 (lo + 2 * r) -> 0 <= r <= 1000 ->
  (0 <= i32 (x - lo) < 2 * r + 1 <-> lo <= x <= lo + 2 * r) /\
  (lo <= x <= lo + 2 * r -> i32 (x - lo) = x - lo).
Proof.
  unfold in_s, i32, wraps. change (2 ^ (32 - 1)) with 2147483648. change (2 ^ 32) with 4294967296.
  intros. split; [split|]; intros; Z.div_mod_to_equations; lia.
Qed.

(** The index of a cell in row-major order. *)
Lemma cell_index r i : 0 <= r -> 0 <= i < (2 * r + 1) * (2 * r + 1) ->
  0 <= i mod (2 * r + 1) <= 2 * r /\ 0 <= i / (2 * r + 1) <= 2 * r.
Proof.
  intros Hr Hi. pose proof (Z.mod_pos_bound i (2 * r + 1) ltac:(lia)).
  pose proof (Z.div_lt_upper_bound i (2 * r + 1) (2 * r + 1) ltac:(lia) ltac:(lia)).
  pose proof (Z.div_pos i (2 * r + 1) ltac:(lia) ltac:(lia)). lia.
Qed.

Lemma index_cell r x z : 0 <= x <= 2 * r -> 0 <= z <= 2 * r ->
  0 <= z * (2 * r + 1) + x < (2 * r + 1) * (2 * r + 1) /\
  (z * (2 * r + 1) + x) mod (2 * r + 1) = x /\ (z * (2 * r + 1) + x) / (2 * r + 1) = z.
Proof.
  intros Hx Hz. split; [nia|]. rewrite Z.add_comm, Z.mod_add, Z.div_add, Z.mod_small, Z.div_small by lia. lia.
Qed.

Lemma in_square p r x z : near r p (mkChunkPos x z) <->
  cp_x p - r <= x <= cp_x p - r + 2 * r /\ cp_y p - r <= z <= cp_y p - r + 2 * r.
Proof. unfold near. simpl. lia. Qed.

(** Creation succeeds exactly when the factory does on the whole square, and then the cache
    answers like the factory inside the square and with nothing outside. *)
Lemma create_spec {A} p r (factory : Z -> Z -> option A) : square_fits p r ->
  match StaticCache2D_create (cp_x p) (cp_y p) r factory with
  | Some c => forall x z, in_s 32 x -> in_s 32 z ->
      StaticCache2D_try_get c x z = (if decide (near r p (mkChunkPos x z)) then factory x z else None) /\
      (near r p (mkChunkPos x z) -> is_Some (factory x z))
  | None => exists x z, near r p (mkChunkPos x z) /\ factory x z = None
  end.
Proof.
  intros (Hr & H1 & H2 & H3 & H4). unfold StaticCache2D_create. set (s := 2 * r + 1).
  assert (0 <= s * s < 2 ^ 31) as Hs by (unfold s; change (2 ^ 31) with 2147483648; nia).
  unfold in_s in H1, H2, H3, H4. change (2 ^ (32 - 1)) with 2147483648 in *. change (2 ^ 31) with 2147483648 in *.
  rewrite (i32_small (r * 2)) by lia. replace (r * 2 + 1) with s by (unfold s; lia).
  rewrite (i32_small s), (i32_small (cp_x p - r)), (i32_small (cp_y p - r)), (i32_small (s * s)) by (unfold s; lia).
  unfold u64. rewrite !wrapu_small by (unfold in_u, s; lia).
  assert (forall i, 0 <= i < s * s ->
    i32 (cp_x p - r + i32 (i mod s)) = cp_x p - r + i mod s /\ i32 (cp_y p - r + i32 (i / s)) = cp_y p - r + i / s) as Hi.
  { intros i Hi. pose proof (cell_index r i ltac:(lia) Hi) as [Hm Hd]. fold s in Hm, Hd.
    rewrite (i32_small (i mod s)), (i32_small (i / s)) by lia. rewrite !i32_small by lia. done. }
  destruct (mapM _ (seqZ 0 (s * s))) as [cells|] eqn:E; simpl.
  - apply mapM_Some_1 in E. intros x z Hx Hz. unfold StaticCache2D_try_get. simpl.
    destruct (wrapped_offset x (cp_x p - r) r Hx ltac:(unfold in_s; lia) ltac:(unfold in_s; lia) Hr) as [Bx Ox].
    destruct (wrapped_offset z (cp_y p - r) r Hz ltac:(unfold in_s; lia) ltac:(unfold in_s; lia) Hr) as [Bz Oz].
    fold s in Bx, Bz. pose proof (in_square p r x z) as Hsq. destruct (decide (near r p (mkChunkPos x z))) as [Hn|Hn].
    + apply Hsq in Hn as [Nx Nz]. rewrite Ox, Oz by lia.
      replace (_ && _ && _ && _) with true by (symmetry; rewrite !andb_true_iff, !Z.leb_le, !Z.ltb_lt; unfold s; lia).
      set (rx := x - (cp_x p - r)). set (rz := z - (cp_y p - r)).
      destruct (index_cell r rx rz ltac:(unfold rx; lia) ltac:(unfold rz; lia)) as (Ib & Im & Id). fold s in Ib, Im, Id.
      rewrite (i32_small (rz * s)) by (unfold rz, rx, s in *; nia). rewrite (i32_small (rz * s + rx)) by lia.
      unfold u64. rewrite wrapu_small by (unfold in_u; lia).
      destruct (Forall2_lookup_l _ _ _ (Z.to_nat (rz * s + rx)) (rz * s + rx) E) as (a & -> & Ha).
      { apply lookup_seqZ. lia. }
      destruct (Hi _ Ib) as [Ex Ez]. rewrite Ex, Ez in Ha. rewrite Im, Id in Ha. unfold rx, rz in Ha.
      replace (cp_x p - r + (x - (cp_x p - r))) with x in Ha by lia.
      replace (cp_y p - r + (z - (cp_y p - r))) with z in Ha by lia. rewrite Ha. eauto.
    + replace (_ && _ && _ && _) with false; [done|]. symmetry. apply not_true_iff_false.
      rewrite !andb_true_iff, !Z.leb_le, !Z.ltb_lt. intros H. apply Hn, Hsq. lia.
  - apply mapM_None_1 in E. apply Exists_exists in E as (i & Hin & Hf). apply elem_of_seqZ in Hin.
    destruct (Hi i ltac:(lia)) as [Ex Ez]. rewrite Ex, Ez in Hf.
    pose proof (cell_index r i ltac:(lia) ltac:(fold s; lia)) as [Hm Hd]. fold s in Hm, Hd.
    eexists _, _. split; [|exact Hf]. apply in_square. lia.
Qed.

(** ** The queue of tasks *)

Definition GENERATION_THREAD_MULTIPLE : Z := 2.

Record GenerationTaskPriority := mkPriority {
  simulation_bucket : Z;
  gp_simulation_level : ChunkTicketLevel;
  gp_load_level : ChunkTicketLevel;
}.

Definition priority_for_levels (load_level simulation_level : option ChunkTicketLevel) : GenerationTaskPriority :=
  mkPriority (match simulation_level with Some _ => 0 | None => 1 end)
    (default LEVEL_MAX simulation_level) (default LEVEL_MAX load_level).

(** The derived order: bucket, simulation level, load level. *)
Definition priority_le (a b : GenerationTaskPriority) : bool :=
  if simulation_bucket a =? simulation_bucket b then
    if gp_simulation_level a =? gp_simulation_level b then gp_load_level a <=? gp_load_level b
    else gp_simulation_level a <? gp_simulation_level b
  else simulation_bucket a <? simulation_bucket b.

Definition max_running_generation_tasks (threads : Z) : Z := Z.max threads 1 * GENERATION_THREAD_MULTIPLE.

Section Queue.
Context {A : Type}.
(** The cancellation flag of a task, and its priority, which is read off the levels of its
    centre when the queue is sorted. *)
Context (is_cancelled : A -> bool) (priority : A -> GenerationTaskPriority).

Record GenerationQueue := mkQueue { pending_tasks : list A; running_tasks : Z }.

(** [sort_by_cached_key] is stable. *)
Fixpoint insert_task (x : A) (l : list A) : list A :=
  match l with
  | [] => [x]
  | y :: l' => if priority_le (priority x) (priority y) then x :: l else y :: insert_task x l'
  end.

Definition sort_tasks (l : list A) : list A := foldr insert_task [] l.

(** The tasks that start, and the queue they leave. *)
Definition run_generation_tasks (stopped : bool) (threads : Z) (q : GenerationQueue)
  : list A * GenerationQueue :=
  if stopped then ([], q)
  else
    let pending := filter (fun x => is_cancelled x = false) (pending_tasks q) in
    match pending with
    | [] => ([], mkQueue pending (running_tasks q))
    | _ =>
        let available_slots := saturating_sub (max_running_generation_tasks threads) (running_tasks q) in
        if available_slots =? 0 then ([], mkQueue pending (running_tasks q))
        else
          let task_count := Nat.min (length pending) (Z.to_nat available_slots) in
          let pending := if (task_count <? length pending)%nat then sort_tasks pending else pending in
          (take task_count pending,
           mkQueue (drop task_count pending) (running_tasks q + Z.of_nat task_count))
    end.

(** Dropping a [RunningGenerationTaskPermit]. *)
Definition release_permit (q : GenerationQueue) : GenerationQueue :=
  mkQueue (pending_tasks q) (running_tasks q - 1).

Lemma priority_le_total a b : priority_le a b = false -> priority_le b a = true.
Proof.
  unfold priority_le. repeat case_match; rewrite ?Z.eqb_eq, ?Z.eqb_neq, ?Z.leb_gt, ?Z.leb_le, ?Z.ltb_ge, ?Z.ltb_lt in *; lia.
Qed.

Lemma priority_le_trans a b c : priority_le a b = true -> priority_le b c = true -> priority_le a c = true.
Proof.
  unfold priority_le. repeat case_match; rewrite ?Z.eqb_eq, ?Z.eqb_neq, ?Z.leb_gt, ?Z.leb_le, ?Z.ltb_ge, ?Z.ltb_lt in *; lia.
Qed.

Let le (x y : A) : Prop := priority_le (priority x) (priority y) = true.

Lemma insert_task_perm x l : insert_task x l ≡ₚ x :: l.
Proof.
  induction l as [|y l IH]; simpl; [done|]. case_match; [done|]. rewrite IH. apply Permutation_swap.
Qed.

Lemma sort_tasks_perm l : sort_tasks l ≡ₚ l.
Proof. induction l as [|x l IH]; simpl; [done|]. by rewrite insert_task_perm, IH. Qed.

Lemma insert_task_sorted x l : StronglySorted le l -> StronglySorted le (insert_task x l).
Proof.
  induction 1 as [|y l Hs IH Hy]; simpl; [by repeat constructor|].
  destruct (priority_le (priority x) (priority y)) eqn:E.
  - constructor; [by constructor|]. constructor; [done|]. eapply Forall_impl; [exact Hy|].
    intros z Hz. by apply (priority_le_trans _ (priority y)).
  - constructor; [done|]. rewrite insert_task_perm. constructor; [|done]. by apply priority_le_total.
Qed.

Lemma sort_tasks_sorted l : StronglySorted le (sort_tasks l).
Proof. induction l as [|x l IH]; simpl; [constructor|]. by apply insert_task_sorted. Qed.

(** Running the queue starts only tasks that are not cancelled, never more at a time
    than twice the number of threads, and none that a waiting task should go before; no
    task is lost, cancelled ones apart. *)
Theorem generation_queue_starts_best stopped threads q :
  0 <= running_tasks q <= max_running_generation_tasks threads ->
  let '(started, q') := run_generation_tasks stopped threads q in
  running_tasks q' = running_tasks q + Z.of_nat (length started) /\
  running_tasks q' <= max_running_generation_tasks threads /\
  Forall (fun x => is_cancelled x = false) started /\
  (stopped = false -> started ++ pending_tasks q' ≡ₚ filter (fun x => is_cancelled x = false) (pending_tasks q)) /\
  (forall x y, x ∈ started -> y ∈ pending_tasks q' -> priority_le (priority x) (priority y) = true) /\
  (stopped = false -> pending_tasks q' <> [] -> running_tasks q' = max_running_generation_tasks threads).
Proof.
  intros Hr. unfold run_generation_tasks. destruct stopped; [simpl; split_and!; try done; [lia|lia|by intros ? ? ?%elem_of_nil]|].
  set (pending := filter _ (pending_tasks q)).
  assert (Forall (fun x => is_cancelled x = false) pending) as Hlive.
  { apply Forall_forall. by intros x [? _]%list_elem_of_filter. }
  destruct pending as [|x0 l0] eqn:Epending; [simpl; split_and!; try done; [lia|lia|by intros ? ? ?%elem_of_nil]|].
  rewrite <- Epending in *. clear x0 l0 Epending.
  set (slots := saturating_sub _ _).
  assert (slots = max_running_generation_tasks threads - running_tasks q) as Eslots by (unfold slots, saturating_sub; lia).
  destruct (Z.eqb_spec slots 0) as [E0|E0]; [simpl; split_and!; try done; [lia|lia|by intros ? ? ?%elem_of_nil|lia]|].
  set (n := Nat.min (length pending) (Z.to_nat slots)).
  set (l := if (n <? length pending)%nat then sort_tasks pending else pending).
  assert (l ≡ₚ pending) as Hperm by (unfold l; case_match; [apply sort_tasks_perm|done]).
  assert (length l = length pending) as Elen by by rewrite Hperm.
  assert (length (take n l) = n) as En by (rewrite length_take; lia). simpl. rewrite En.
  split_and!; try lia.
  - apply Forall_take. by rewrite Hperm.
  - intros _. by rewrite take_drop.
  - intros x y Hx Hy. assert (n < length pending)%nat as Hlt.
    { apply list_elem_of_lookup in Hy as [i Hi]. apply lookup_lt_Some in Hi. rewrite length_drop in Hi. lia. }
    unfold l in *. rewrite (proj2 (Nat.ltb_lt _ _) Hlt) in *. pose proof (sort_tasks_sorted pending) as Hs.
    rewrite <- (take_drop n (sort_tasks pending)) in Hs. exact (StronglySorted_app_1_elem_of le _ _ _ _ Hs Hx Hy).
  - intros _ Hne. assert (n < length pending)%nat as Hlt; [|lia].
    destruct (drop n l) as [|y l'] eqn:Ed; [done|]. apply (f_equal length) in Ed. rewrite length_drop in Ed. simpl in Ed. lia.
Qed.
End Queue.

(** ** Tasks *)

(** [neighbor_ready] holds the awaited futures: the status and the holder it is wanted of. *)
Record ChunkGenerationTask := mkTask {
  tk_pos : ChunkPos;
  tk_target : ChunkStatus;
  tk_scheduled : option ChunkStatus;
  tk_cancelled : bool;
  tk_ready : list (Z * ChunkStatus);
  tk_cache : StaticCache2D Z;
  tk_center : Z;
  tk_needs : bool;
}.

Definition task_step (needs_generation : bool) (target : ChunkStatus) : ChunkStep :=
  ChunkPyramid_get_step_to (if needs_generation then GENERATION_PYRAMID else LOADING_PYRAMID) target.

Definition worst_case_radius (target : ChunkStatus) : Z :=
  Z.of_nat (ChunkDependencies_get_radius_of (accumulated_dependencies (task_step true target)) Empty).

(** Panics when a position of the square has no active holder. *)
Definition ChunkGenerationTask_new {T} (m : ChunkMap T) (pos : ChunkPos) (target : ChunkStatus)
  : option ChunkGenerationTask :=
  cache ← StaticCache2D_create (cp_x pos) (cp_y pos) (worst_case_radius target)
            (fun x y => chunks m !! mkChunkPos x y);
  center ← StaticCache2D_get cache (cp_x pos) (cp_y pos);
  Some (mkTask pos target None false [] cache center true).

Definition cancel_task (t : ChunkGenerationTask) : ChunkGenerationTask :=
  mkTask (tk_pos t) (tk_target t) (tk_scheduled t) true (tk_ready t) (tk_cache t) (tk_center t) (tk_needs t).

Definition set_ready (t : ChunkGenerationTask) (l : list (Z * ChunkStatus)) : ChunkGenerationTask :=
  mkTask (tk_pos t) (tk_target t) (tk_scheduled t) (tk_cancelled t) l (tk_cache t) (tk_center t) (tk_needs t).

Definition set_scheduled (t : ChunkGenerationTask) (s : ChunkStatus) (needs : bool) : ChunkGenerationTask :=
  mkTask (tk_pos t) (tk_target t) (Some s) (tk_cancelled t) (tk_ready t) (tk_cache t) (tk_center t) needs.

(** What one round of the loop sees of the rest of the server: an outside cancellation, which
    branch [select!] takes when both are possible, the results of the awaited futures, and
    for each holder its published status, whether [apply_step] accepts it and whether the
    task is cancelled when the holder's turn comes. *)
Record round_env := mkRound {
  re_cancel : bool;
  re_take_cancel : bool;
  re_results : Z * ChunkStatus -> bool;
  re_published : Z -> option ChunkStatus;
  re_applied : Z -> bool;
  re_cancelled_at : Z -> bool;
}.

Definition status_gt (s : ChunkStatus) (published : option ChunkStatus) : bool :=
  match published with
  | Some p => (ChunkStatus_get_index p <? ChunkStatus_get_index s)%nat
  | None => true
  end.

(** The assertion is on the expectation to generate. *)
Definition schedule_chunk_in_layer (e : round_env) (status : ChunkStatus) (needs_generation : bool)
  (holder : Z) (t : ChunkGenerationTask) : option ChunkGenerationTask :=
  let generate := status_gt status (re_published e holder) in
  if generate && negb needs_generation then None
  else Some (if re_applied e holder then set_ready t (tk_ready t ++ [(holder, status)]) else cancel_task t).

Definition get_radius_for_layer (t : ChunkGenerationTask) (status : ChunkStatus) (needs_generation : bool) : Z :=
  i32 (Z.of_nat (ChunkStep_get_accumulated_radius_of (task_step needs_generation (tk_target t)) status)).

(** The positions of a layer, in order. *)
Definition layer_positions (pos : ChunkPos) (radius : Z) : list ChunkPos :=
  rectangle (i32 (cp_x pos - radius)) (i32 (cp_x pos + radius)) (i32 (cp_y pos - radius)) (i32 (cp_y pos + radius)).

Fixpoint schedule_positions (e : round_env) (status : ChunkStatus) (needs_generation : bool)
  (ps : list ChunkPos) (t : ChunkGenerationTask) : option ChunkGenerationTask :=
  match ps with
  | [] => Some t
  | p :: ps' =>
      holder ← StaticCache2D_get (tk_cache t) (cp_x p) (cp_y p);
      let t := if re_cancelled_at e holder then cancel_task t else t in
      if tk_cancelled t then Some t
      else t ← schedule_chunk_in_layer e status needs_generation holder t;
           schedule_positions e status needs_generation ps' t
  end.

Definition schedule_layer (e : round_env) (status : ChunkStatus) (needs_generation : bool)
  (t : ChunkGenerationTask) : option ChunkGenerationTask :=
  schedule_positions e status needs_generation
    (layer_positions (tk_pos t) (get_radius_for_layer t status needs_generation)) t.

Definition status_lt (published : option ChunkStatus) (s : ChunkStatus) : bool := status_gt s published.

(** The inner loops of [can_load_without_generation]. *)
Definition loaded_neighbours (e : round_env) (t : ChunkGenerationTask) : option bool :=
  let dependencies := accumulated_dependencies (task_step false (tk_target t)) in
  let range := i32 (Z.of_nat (ChunkDependencies_get_radius dependencies)) in
  for_each (layer_positions (tk_pos t) range) (fun p (ok : bool) =>
    if negb ok then Some false
    else
      let distance := Z.max (i32 (Z.abs (i32 (cp_x (tk_pos t) - cp_x p))))
                            (i32 (Z.abs (i32 (cp_y (tk_pos t) - cp_y p)))) in
      match ChunkDependencies_get dependencies (Z.to_nat distance) with
      | Some required =>
          neighbour ← StaticCache2D_get (tk_cache t) (cp_x p) (cp_y p);
          Some (negb (status_lt (re_published e neighbour) required))
      | None => Some true
      end) true.

Definition can_load_without_generation (e : round_env) (t : ChunkGenerationTask) : option bool :=
  if decide (tk_target t = Empty) then Some true
  else
    center ← StaticCache2D_get (tk_cache t) (cp_x (tk_pos t)) (cp_y (tk_pos t));
    match re_published e center with
    | Some highest =>
        if (ChunkStatus_get_index highest <? ChunkStatus_get_index (tk_target t))%nat then Some false
        else loaded_neighbours e t
    | None => Some false
    end.

(** The next layer and whether it needs generation; [None] is a failed [expect]. *)
Definition next_layer (e : round_env) (t : ChunkGenerationTask) : option (ChunkStatus * bool) :=
  match tk_scheduled t with
  | None => Some (Empty, tk_needs t)
  | Some s =>
      restart ← (if negb (tk_needs t) && bool_decide (s = Empty)
                 then loadable ← can_load_without_generation e t; Some (negb loadable)
                 else Some false);
      if restart : bool then Some (Empty, true)
      else next ← ChunkStatus_next s; Some (next, tk_needs t)
  end.

Definition schedule_next_layer (e : round_env) (t : ChunkGenerationTask) : option ChunkGenerationTask :=
  '(status, needs) ← next_layer e t;
  t ← schedule_layer e status needs t;
  Some (set_scheduled t status needs).

Definition wait_for_scheduled_layers (e : round_env) (t : ChunkGenerationTask) : ChunkGenerationTask :=
  match tk_ready t with
  | [] => t
  | futures =>
      let t := set_ready t [] in
      if forallb (re_results e) futures then t else cancel_task t
  end.

Inductive run_outcome :=
| Running (t : ChunkGenerationTask)
| Stopped (t : ChunkGenerationTask)
| Finished (t : ChunkGenerationTask).

(** The loop of [run], one round per environment. *)
Fixpoint run_task (rounds : list round_env) (t : ChunkGenerationTask) : option run_outcome :=
  match rounds with
  | [] => Some (Running t)
  | e :: rounds' =>
      let t := if re_cancel e then cancel_task t else t in
      if tk_cancelled t && re_take_cancel e then Some (Stopped t)
      else
        let t := wait_for_scheduled_layers e t in
        if decide (tk_scheduled t = Some (tk_target t)) then Some (Finished t)
        else t ← schedule_next_layer e t; run_task rounds' t
  end.

(** ** Scheduling from a holder *)

(** [schedule_chunk_generation_task_b]: whether a task for [status] is to be made. *)
Definition wants_generation_task (h : ChunkHolder) (status : ChunkStatus) : bool :=
  negb (is_status_disallowed h status) &&
  negb (bool_decide (is_Some (try_chunk h status))) &&
  negb (negb (h_task_target h =? STATUS_NONE) && (u8 (status_index status) <=? h_task_target h)) &&
  match h_task h with
  | Some target => negb (status_index status <=? status_index target)
  | None => true
  end.

(** Makes the task, which may panic, and installs it; the old task is cancelled. *)
Definition schedule_chunk_generation_task_b {T} (m : ChunkMap T) (id : Z) (status : ChunkStatus)
  : option (ChunkMap T * option ChunkGenerationTask) :=
  h ← heap m !! id;
  if wants_generation_task h status then
    task ← ChunkGenerationTask_new m (h_pos h) status;
    Some (set_holder m id (set_task (Some status) (u8 (status_index status)) h), Some task)
  else Some (m, None).

(** The loop of an epoch over the holders to schedule. *)
Definition schedule_generation {T} (m : ChunkMap T) (holders : list (Z * ChunkTicketLevel))
  : option (ChunkMap T * list ChunkGenerationTask) :=
  for_each holders (fun '(id, level) '(m, tasks) =>
    match generation_status (Some level) with
    | None => Some (m, tasks)
    | Some status =>
        '(m, task) ← schedule_chunk_generation_task_b m id status;
        Some (m, tasks ++ match task with Some t => [t] | None => [] end)
    end) (m, []).

(** ** What the layers need of the pyramid *)

Abbreviation idx := ChunkStatus_get_index.

Definition layer_radius (target s : ChunkStatus) : nat :=
  ChunkStep_get_accumulated_radius_of (task_step true target) s.

(** Layers lie within the cache, and the direct dependencies of a layer within the earlier
    layers. *)
Definition layers_nested : bool :=
  forallb (fun target => (worst_case_radius target <=? 16) && forallb (fun s =>
    negb (idx s <=? idx target)%nat ||
    ((Z.of_nat (layer_radius target s) <=? worst_case_radius target) &&
     forallb (fun d => match dir_get GENERATION_PYRAMID s d with
                       | None => true
                       | Some s' => (idx s' <? idx s)%nat &&
                                    (layer_radius target s + d <=? layer_radius target s')%nat
                       end) (seq 0 16))) all_statuses) all_statuses.

Lemma layers_are_nested target s : (idx s <= idx target)%nat ->
  0 <= Z.of_nat (layer_radius target s) <= worst_case_radius target /\ worst_case_radius target <= 16 /\
  forall d s', dir_get GENERATION_PYRAMID s d = Some s' ->
    (idx s' < idx s)%nat /\ Z.of_nat (layer_radius target s) + Z.of_nat d <= Z.of_nat (layer_radius target s').
Proof.
  intros Hs. assert (layers_nested = true) as H by (vm_compute; reflexivity).
  unfold layers_nested in H. rewrite forallb_forall in H. specialize (H target (all_statuses_elem target)).
  apply andb_true_iff in H as [H16 H]. apply Z.leb_le in H16. rewrite forallb_forall in H.
  specialize (H s (all_statuses_elem s)). rewrite (proj2 (Nat.leb_le _ _) Hs) in H. cbn [negb orb] in H.
  apply andb_true_iff in H as [Hr H]. apply Z.leb_le in Hr. split; [lia|]. split; [done|].
  intros d s' Hd. assert (d < 16)%nat as Hd16.
  { apply (get_short GENERATION_PYRAMID ltac:(vm_compute; reflexivity) s). by rewrite Hd. }
  rewrite forallb_forall in H. specialize (H d ltac:(apply in_seq; lia)). rewrite Hd in H.
  apply andb_true_iff in H as [H1%Nat.ltb_lt H2%Nat.leb_le]. lia.
Qed.

Lemma next_status s target : (idx s < idx target)%nat ->
  exists s', ChunkStatus_next s = Some s' /\ idx s' = S (idx s).
Proof. intros H. destruct s; try (eexists; split; reflexivity). destruct target; simpl in H; lia. Qed.

(** ** The task's loop *)

Lemma square_sub p r r' : square_fits p r' -> 0 <= r <= r' -> square_fits p r.
Proof. unfold square_fits, in_s. intros. lia. Qed.

Lemma elem_of_layer p r q : square_fits p r -> q ∈ layer_positions p r <-> near r p q.
Proof.
  intros (Hr & H1 & H2 & H3 & H4). unfold layer_positions.
  unfold in_s in *. change (2 ^ (32 - 1)) with (2 ^ 31) in *. rewrite !i32_small by lia.
  rewrite elem_of_rectangle. destruct q as [x z]. rewrite in_square. simpl. lia.
Qed.

Section Task.
(** A task whose cache holds a holder for every position of its square. *)
Context (pos : ChunkPos) (target : ChunkStatus) (cache : StaticCache2D Z) (center : Z).
Context (Hfits : square_fits pos (worst_case_radius target)).
Context (Hcache : forall q, near (worst_case_radius target) pos q ->
  is_Some (StaticCache2D_get cache (cp_x q) (cp_y q))).
Context (Hcenter : StaticCache2D_get cache (cp_x pos) (cp_y pos) = Some center).

Definition holder_at (q : ChunkPos) : Z := default 0 (StaticCache2D_get cache (cp_x q) (cp_y q)).

Lemma holder_at_get q : near (worst_case_radius target) pos q ->
  StaticCache2D_get cache (cp_x q) (cp_y q) = Some (holder_at q).
Proof. intros Hq. destruct (Hcache q Hq) as [h Hh]. unfold holder_at. by rewrite Hh. Qed.

Definition layer (s : ChunkStatus) : list ChunkPos := layer_positions pos (Z.of_nat (layer_radius target s)).

Definition futures_of (s : ChunkStatus) : list (Z * ChunkStatus) := (fun q => (holder_at q, s)) <$> layer s.

(** The task between two rounds: it is the task of this square, it has scheduled the layers
    up to [tk_scheduled], and all but the last are published. *)
Record task_inv (w : Z -> option ChunkStatus) (t : ChunkGenerationTask) : Prop := {
  ti_pos : tk_pos t = pos;
  ti_target : tk_target t = target;
  ti_cache : tk_cache t = cache;
  ti_needs : tk_needs t = true;
  ti_range : forall s, tk_scheduled t = Some s -> (idx s <= idx target)%nat;
  ti_ready : tk_cancelled t = false ->
    tk_ready t = match tk_scheduled t with Some s => futures_of s | None => [] end;
  ti_published : tk_cancelled t = false -> forall s s' q, tk_scheduled t = Some s -> (idx s' < idx s)%nat ->
    near (Z.of_nat (layer_radius target s')) pos q -> status_le (Some s') (w (holder_at q));
}.

(** The statuses that a round sees have only grown, and a future that reports success has
    its status published. *)
Record round_ok (w : Z -> option ChunkStatus) (e : round_env) : Prop := {
  ro_grow : forall h, status_le (w h) (re_published e h);
  ro_results : forall h s, re_results e (h, s) = true -> status_le (Some s) (re_published e h);
}.

Fixpoint rounds_ok (w : Z -> option ChunkStatus) (rounds : list round_env) : Prop :=
  match rounds with
  | [] => True
  | e :: rounds' => round_ok w e /\ rounds_ok (re_published e) rounds'
  end.

Lemma near_self_layer (r : nat) : near (Z.of_nat r) pos pos.
Proof. unfold near. lia. Qed.

Lemma elem_of_layer_s s q : (idx s <= idx target)%nat ->
  q ∈ layer s <-> near (Z.of_nat (layer_radius target s)) pos q.
Proof.
  intros Hs. destruct (layers_are_nested target s Hs) as (Hr & _). unfold layer. apply elem_of_layer.
  by apply (square_sub pos _ (worst_case_radius target)).
Qed.

Lemma layer_in_cache s q : (idx s <= idx target)%nat -> q ∈ layer s -> near (worst_case_radius target) pos q.
Proof.
  intros Hs Hq. apply elem_of_layer_s in Hq; [|done]. destruct (layers_are_nested target s Hs) as (Hr & _).
  unfold near in *. lia.
Qed.

(** Visiting the positions of a layer: no panic, and either the task is cancelled or every
    position has a future. *)
Lemma schedule_positions_ok e s ps t :
  tk_cache t = cache -> Forall (near (worst_case_radius target) pos) ps ->
  exists t', schedule_positions e s true ps t = Some t' /\
    tk_pos t' = tk_pos t /\ tk_target t' = tk_target t /\ tk_cache t' = tk_cache t /\ tk_needs t' = tk_needs t /\
    tk_scheduled t' = tk_scheduled t /\
    (tk_cancelled t' = false -> tk_cancelled t = false /\ tk_ready t' = tk_ready t ++ ((fun q => (holder_at q, s)) <$> ps)).
Proof.
  revert t. induction ps as [|q ps IH]; intros t Hc Hps; simpl.
  { exists t. split_and!; try done. intros H. by rewrite app_nil_r. }
  apply Forall_cons in Hps as [Hq Hps]. rewrite Hc, (holder_at_get q Hq). simpl.
  set (t1 := if re_cancelled_at e (holder_at q) then cancel_task t else t).
  assert (tk_pos t1 = tk_pos t /\ tk_target t1 = tk_target t /\ tk_cache t1 = tk_cache t /\ tk_needs t1 = tk_needs t /\
    tk_scheduled t1 = tk_scheduled t /\ tk_ready t1 = tk_ready t /\ (tk_cancelled t1 = false -> tk_cancelled t = false))
    as (E1 & E2 & E3 & E4 & E5 & E6 & E7) by (unfold t1; by case_match).
  destruct (tk_cancelled t1) eqn:Ec.
  { exists t1. split_and!; try done; congruence. }
  unfold schedule_chunk_in_layer. rewrite andb_false_r. simpl.
  set (t2 := if re_applied e (holder_at q) then _ else _).
  destruct (IH t2) as (t' & E & F1 & F2 & F3 & F4 & F5 & F6); [unfold t2; case_match; simpl; congruence|done|].
  exists t'. split; [done|]. unfold t2 in *. destruct (re_applied e (holder_at q)); simpl in *; split_and!; try congruence.
  - intros H. destruct (F6 H) as [_ ->]. split; [auto|]. rewrite E6, <- (assoc_L (++)). done.
  - intros H. by destruct (F6 H).
Qed.

Lemma wait_eq e t : wait_for_scheduled_layers e t =
  if forallb (re_results e) (tk_ready t) then set_ready t [] else cancel_task (set_ready t []).
Proof.
  unfold wait_for_scheduled_layers. destruct (tk_ready t) eqn:E; [|done]. simpl. unfold set_ready. rewrite <- E. by destruct t.
Qed.

Lemma wait_ok w e t : task_inv w t -> round_ok w e ->
  let t' := wait_for_scheduled_layers e t in
  tk_pos t' = pos /\ tk_target t' = target /\ tk_cache t' = cache /\ tk_needs t' = true /\
  tk_scheduled t' = tk_scheduled t /\
  (tk_cancelled t' = false -> tk_cancelled t = false /\ tk_ready t' = [] /\
   forall s s' q, tk_scheduled t = Some s -> (idx s' <= idx s)%nat ->
     near (Z.of_nat (layer_radius target s')) pos q -> status_le (Some s') (re_published e (holder_at q))).
Proof.
  intros [I1 I2 I3 I4 I5 I6 I7] [G R] t'.
  assert (tk_cancelled t = false -> forallb (re_results e) (tk_ready t) = true ->
    forall s s' q, tk_scheduled t = Some s -> (idx s' <= idx s)%nat ->
     near (Z.of_nat (layer_radius target s')) pos q -> status_le (Some s') (re_published e (holder_at q))) as Hpub.
  { intros Hc Hall s s' q Es Hle Hq. destruct (decide (idx s' < idx s)%nat) as [Hlt|Hge].
    - etransitivity; [by apply (I7 Hc s s' q)|apply G].
    - assert (s' = s) as -> by (apply ChunkStatus_index_inj; lia). apply R.
      rewrite (I6 Hc), Es, forallb_forall in Hall. apply Hall, list_elem_of_In. unfold futures_of.
      apply list_elem_of_fmap. exists q. split; [done|]. by apply elem_of_layer_s; [apply I5|]. }
  unfold t'. rewrite wait_eq. destruct (forallb (re_results e) (tk_ready t)) eqn:Ef; simpl; split_and!; try done.
  intros Hc. split; [done|]. split; [done|]. by apply Hpub.
Qed.

(** The number of layers scheduled. *)
Definition layers_scheduled (t : ChunkGenerationTask) : nat :=
  match tk_scheduled t with Some s => S (idx s) | None => 0 end.

Lemma schedule_next_ok e t :
  tk_pos t = pos -> tk_target t = target -> tk_cache t = cache -> tk_needs t = true ->
  (forall s, tk_scheduled t = Some s -> (idx s <= idx target)%nat) -> tk_scheduled t <> Some target ->
  (tk_cancelled t = false -> tk_ready t = [] /\
   forall s s' q, tk_scheduled t = Some s -> (idx s' <= idx s)%nat ->
     near (Z.of_nat (layer_radius target s')) pos q -> status_le (Some s') (re_published e (holder_at q))) ->
  exists t', schedule_next_layer e t = Some t' /\ task_inv (re_published e) t' /\
    layers_scheduled t' = S (layers_scheduled t).
Proof.
  intros E1 E2 E3 E4 Hrange Hne Hpub.
  assert (exists s, next_layer e t = Some (s, true) /\ idx s = layers_scheduled t /\ (idx s <= idx target)%nat)
    as (s & Es & Ei & Hs).
  { unfold next_layer, layers_scheduled. rewrite E4. destruct (tk_scheduled t) as [s|]; simpl.
    - specialize (Hrange s eq_refl). destruct (next_status s target) as (s' & -> & Es').
      { assert (idx s <> idx target); [|lia]. intros E. apply Hne. f_equal. by apply ChunkStatus_index_inj. }
      exists s'. split; [done|]. split; [done|]. assert (idx s <> idx target); [|lia].
      intros E. apply Hne. f_equal. by apply ChunkStatus_index_inj.
    - exists Empty. split_and!; try done. simpl. lia. }
  unfold schedule_next_layer. rewrite Es. simpl. unfold schedule_layer, get_radius_for_layer. rewrite E1, E2.
  fold (layer_radius target s). destruct (layers_are_nested target s Hs) as (Hr & H16 & _).
  rewrite i32_small by (change (2 ^ 31) with 2147483648; lia). fold (layer s).
  destruct (schedule_positions_ok e s (layer s) t E3) as (t' & -> & F1 & F2 & F3 & F4 & F5 & F6).
  { apply Forall_forall. intros q Hq. by apply (layer_in_cache s). }
  simpl. eexists. split; [done|]. split; [|unfold layers_scheduled at 1; simpl; by rewrite Ei].
  split; simpl; try congruence.
  - intros Hc. destruct (F6 Hc) as [Hc0 ->]. by rewrite (proj1 (Hpub Hc0)).
  - intros Hc s0 s' q [= <-] Hlt Hq. destruct (F6 Hc) as [Hc0 _]. destruct (Hpub Hc0) as [_ Hp].
    destruct (tk_scheduled t) as [s1|] eqn:Es1; [|unfold layers_scheduled in Ei; rewrite Es1 in Ei; lia].
    apply (Hp s1); [done| |done]. unfold layers_scheduled in Ei. rewrite Es1 in Ei. lia.
Qed.

Definition last_view (w : Z -> option ChunkStatus) (rounds : list round_env) : Z -> option ChunkStatus :=
  foldl (fun _ e => re_published e) w rounds.

Lemma last_view_grows w rounds h : rounds_ok w rounds -> status_le (w h) (last_view w rounds h).
Proof.
  revert w. induction rounds as [|e rounds IH]; intros w; simpl; [reflexivity|].
  intros [[G _] Hr]. etransitivity; [apply G|]. by apply IH.
Qed.

Lemma run_task_ok w rounds t : task_inv w t -> rounds_ok w rounds ->
  match run_task rounds t with
  | None => False
  | Some (Running t') => task_inv (last_view w rounds) t' /\
      layers_scheduled t' = (layers_scheduled t + length rounds)%nat
  | Some (Stopped _) => True
  | Some (Finished t') => tk_cancelled t' = false -> status_le (Some target) (last_view w rounds center)
  end.
Proof.
  revert w t. induction rounds as [|e rounds IH]; intros w t Hi Hr; simpl.
  { split; [done|lia]. }
  destruct Hr as [He Hr]. set (t1 := if re_cancel e then cancel_task t else t).
  assert (task_inv w t1 /\ layers_scheduled t1 = layers_scheduled t) as [Hi1 El].
  { unfold t1. destruct (re_cancel e); [|done]. split; [|done]. destruct Hi. by split. }
  destruct (tk_cancelled t1 && re_take_cancel e); [done|].
  destruct (wait_ok w e t1 Hi1 He) as (W1 & W2 & W3 & W4 & W5 & W6). set (t2 := wait_for_scheduled_layers e t1) in *.
  destruct (decide (tk_scheduled t2 = Some (tk_target t2))) as [Ed|Ed].
  - intros Hc. destruct (W6 Hc) as (_ & _ & Hp). rewrite W2 in Ed.
    change (status_le (Some target) (last_view (re_published e) rounds center)).
    transitivity (re_published e center); [|by apply last_view_grows]. assert (center = holder_at pos) as ->.
    { unfold holder_at. by rewrite Hcenter. }
    apply (Hp target); [by rewrite <- W5|done|]. apply near_self_layer.
  - destruct (schedule_next_ok e t2 W1 W2 W3 W4) as (t3 & -> & Hi3 & E3).
    + intros s Hs. rewrite W5 in Hs. by apply (ti_range _ _ Hi1).
    + by rewrite W2 in Ed.
    + intros Hc. destruct (W6 Hc) as (_ & ? & Hp). rewrite W5. by split.
    + simpl. specialize (IH _ _ Hi3 Hr). destruct (run_task rounds t3) as [[t'|t'|t']|]; try done.
      destruct IH as [IH1 IH2]. split; [done|]. rewrite IH2, E3. unfold layers_scheduled at 1. rewrite W5.
      fold (layers_scheduled t1). lia.
Qed.
End Task.

(** ** Tasks on a map *)

Section Tasks.
Context {T : Type}.
Implicit Types m : ChunkMap T.

(** Every position of the task's square has an active holder. *)
Definition square_active m (pos : ChunkPos) (target : ChunkStatus) : Prop :=
  forall q, near (worst_case_radius target) pos q -> is_Some (chunks m !! q).

Lemma near_in_range pos r q : square_fits pos r -> near r pos q -> in_s 32 (cp_x q) /\ in_s 32 (cp_y q).
Proof. unfold square_fits, near, in_s. lia. Qed.

(** Creating a task succeeds exactly when the square is active. *)
Lemma new_task_spec m pos target : square_fits pos (worst_case_radius target) ->
  match ChunkGenerationTask_new m pos target with
  | Some t => square_active m pos target /\
      tk_pos t = pos /\ tk_target t = target /\ tk_scheduled t = None /\ tk_cancelled t = false /\ tk_ready t = [] /\
      tk_needs t = true /\ chunks m !! pos = Some (tk_center t) /\
      forall q, near (worst_case_radius target) pos q ->
        StaticCache2D_get (tk_cache t) (cp_x q) (cp_y q) = chunks m !! q
  | None => ~ square_active m pos target
  end.
Proof.
  intros Hfits. pose proof (create_spec pos (worst_case_radius target) (fun x y => chunks m !! mkChunkPos x y) Hfits) as Hc.
  unfold ChunkGenerationTask_new. destruct (StaticCache2D_create _ _ _ _) as [cache|]; simpl.
  2: { intros Hact. destruct Hc as (x & z & Hn & Hnone). destruct (Hact _ Hn) as [id Hid]. congruence. }
  assert (forall q, near (worst_case_radius target) pos q ->
    StaticCache2D_get cache (cp_x q) (cp_y q) = chunks m !! q) as Hget.
  { intros q Hq. destruct (near_in_range _ _ q Hfits Hq) as [Hx Hy]. unfold StaticCache2D_get.
    rewrite (proj1 (Hc _ _ Hx Hy)). destruct q as [x y]. by rewrite decide_True. }
  assert (near (worst_case_radius target) pos pos) as Hself by (unfold near; destruct Hfits; lia).
  rewrite (Hget pos Hself). destruct (chunks m !! pos) as [center|] eqn:Hp; simpl.
  - split_and!; try done. intros q Hq. destruct (near_in_range _ _ q Hfits Hq) as [Hx Hy].
    destruct (Hc _ _ Hx Hy) as [_ H]. destruct q as [x y]. by apply H.
  - destruct pos as [x y]. destruct (near_in_range _ _ _ Hfits Hself) as [Hx Hy].
    destruct (proj2 (Hc _ _ Hx Hy) Hself) as [? ?]. simpl in *. congruence.
Qed.

(** A new task satisfies the invariant of its loop. *)
Lemma new_task_inv m pos target t w : square_fits pos (worst_case_radius target) ->
  ChunkGenerationTask_new m pos target = Some t ->
  (forall q, near (worst_case_radius target) pos q -> is_Some (StaticCache2D_get (tk_cache t) (cp_x q) (cp_y q))) /\
  StaticCache2D_get (tk_cache t) (cp_x pos) (cp_y pos) = Some (tk_center t) /\
  task_inv pos target (tk_cache t) w t.
Proof.
  intros Hfits E. pose proof (new_task_spec m pos target Hfits) as H. rewrite E in H.
  destruct H as (Hact & E1 & E2 & E3 & E4 & E5 & E6 & E7 & Hget). split_and!.
  - intros q Hq. rewrite (Hget q Hq). by apply Hact.
  - rewrite Hget; [done|]. unfold near. destruct Hfits. lia.
  - split; try done; rewrite E3; try done.
Qed.

(** C33. A generation task always ends: it never panics, and after one round per status up
    to the target and a last one its loop has stopped, whatever futures and cancellations
    do. *)
Theorem generation_task_ends m pos target t w rounds :
  square_fits pos (worst_case_radius target) -> ChunkGenerationTask_new m pos target = Some t ->
  rounds_ok w rounds -> (idx target + 2 <= length rounds)%nat ->
  exists t', run_task rounds t = Some (Stopped t') \/ run_task rounds t = Some (Finished t').
Proof.
  intros Hfits E Hr Hlen. destruct (new_task_inv m pos target t w Hfits E) as (H1 & H2 & Hi).
  pose proof (run_task_ok pos target (tk_cache t) (tk_center t) Hfits H1 H2 w rounds t Hi Hr) as H.
  destruct (run_task rounds t) as [[t'|t'|t']|]; [|by exists t'; left|by exists t'; right|done].
  exfalso. destruct H as [Hi' El]. unfold layers_scheduled in El. destruct (tk_scheduled t') as [s|] eqn:Es; [|lia].
  pose proof (ti_range _ _ _ _ _ Hi' s Es). lia.
Qed.

(** C11. When a task that is not cancelled has just scheduled a layer, every chunk that the
    layer's stages read is in the task's cache with the status they require published; and
    a task that finishes without being cancelled has brought its centre to the target. *)
Theorem generation_layers_ready m pos target t w rounds :
  square_fits pos (worst_case_radius target) -> ChunkGenerationTask_new m pos target = Some t ->
  rounds_ok w rounds ->
  (forall t' s q q' s', run_task rounds t = Some (Running t') -> tk_cancelled t' = false ->
     tk_scheduled t' = Some s -> near (Z.of_nat (layer_radius target s)) pos q ->
     direct_at GENERATION_PYRAMID s (cp_x q' - cp_x q, cp_y q' - cp_y q) = Some s' ->
     exists id, chunks m !! q' = Some id /\ StaticCache2D_get (tk_cache t) (cp_x q') (cp_y q') = Some id /\
       status_le (Some s') (last_view w rounds id)) /\
  (forall t', run_task rounds t = Some (Finished t') -> tk_cancelled t' = false ->
     exists id, chunks m !! pos = Some id /\ status_le (Some target) (last_view w rounds id)).
Proof.
  intros Hfits E Hr. destruct (new_task_inv m pos target t w Hfits E) as (H1 & H2 & Hi).
  pose proof (new_task_spec m pos target Hfits) as Hnew. rewrite E in Hnew.
  destruct Hnew as (Hact & _ & _ & _ & _ & _ & _ & Hcenter & Hget).
  pose proof (run_task_ok pos target (tk_cache t) (tk_center t) Hfits H1 H2 w rounds t Hi Hr) as H. split.
  - intros t' s q q' s' Erun Hc Es Hq Hd. rewrite Erun in H. destruct H as [Hi' _].
    pose proof (ti_range _ _ _ _ _ Hi' s Es) as Hs. destruct (layers_are_nested target s Hs) as (_ & _ & Hdeps).
    unfold direct_at in Hd. destruct (Hdeps _ _ Hd) as [Hlt Hrad].
    assert (near (Z.of_nat (layer_radius target s')) pos q') as Hq'.
    { unfold near, chebyshev in *. simpl in Hrad. lia. }
    destruct (layers_are_nested target s' ltac:(lia)) as (Hwc & _).
    assert (near (worst_case_radius target) pos q') as Hqw by (unfold near in *; lia).
    destruct (Hact q' Hqw) as [id Hid]. exists id. split; [done|]. split; [by rewrite Hget|].
    pose proof (ti_published _ _ _ _ _ Hi' Hc s s' q' Es Hlt Hq') as Hpub. unfold holder_at in Hpub.
    by rewrite Hget, Hid in Hpub.
  - intros t' Erun Hc. rewrite Erun in H. exists (tk_center t). split; [done|]. by apply H.
Qed.
End Tasks.

(** ** Tasks after a history of the map *)

(** After any history, a task can be created at a position when every position of its
    square has a level and none of them is a revival still waiting for a save. *)
Theorem task_creation_needs_no_deferred {T} `{!TickOwnership T} min_y height ops (t : T) m pos target :
  fresh_ticks t -> Forall op_ok ops -> 3 * commits ops <= MAX_GENERATION ->
  run_ops min_y height (empty_map t) ops = Some m -> square_fits pos (worst_case_radius target) ->
  (forall q, near (worst_case_radius target) pos q -> is_Some (replay ops q) /\ deferred_revivals m !! q = None) ->
  exists task, ChunkGenerationTask_new m pos target = Some task.
Proof.
  intros Ht Hops Hroom Hrun Hfits Hsq. destruct (history_ok min_y height ops t Ht Hops Hroom) as (m0 & E & [Hq _ Ha]).
  rewrite Hrun in E. injection E as <-. pose proof (new_task_spec m pos target Hfits) as H.
  destruct (ChunkGenerationTask_new m pos target) as [task|]; [by exists task|]. destruct H.
  intros q Hn. destruct (Hsq q Hn) as [[l Hl] Hd]. rewrite <- Ha in Hl. unfold assigned in Hl. rewrite Hd in Hl.
  destruct (cells m q) as [cl|] eqn:Hcl; [|done]. apply cells_Some in Hcl as (h & -> & _). done.
Qed.

#[local] Instance save_key : TickKey Z := fun z => z.
#[local] Instance save_ownership : TickOwnership (WorldTickScheduler Z Z) :=
  scheduler_ownership 0 (fun _ _ => mkLists TickList_new TickList_new).

(** A chunk next to the origin is generated, unloaded, and its save begins to snapshot it. *)
Definition generate_events (id : Z) (status : ChunkStatus) : list env_event :=
  [EvClaim id status; EvRun id 0 true true; EvAdvance id 0; EvAdvance id 0; EvAdvance id 0; EvAdvance id 0; EvDrop id 0].

Definition saving_ops (preparing : bool) : list map_op :=
  [OpCommit [mkChange (mkChunkPos 1 0) (Some 134) None] [];
   OpOthers (generate_events 0 Empty ++ generate_events 0 StructureStarts);
   OpCommit [mkChange (mkChunkPos 1 0) None None] [];
   OpUnload [] (fun _ => false) (fun _ => false) (fun _ => false) [];
   OpOthers (if preparing then [EvSaveBegin 0] else [])].

(** Then a ticket at the origin asks for Biomes there. *)
Definition saving_changes : list LevelChange :=
  (fun q => mkChange q (Some (133 + Z.max (Z.abs (cp_x q)) (Z.abs (cp_y q)))) None) <$> square 8 (mkChunkPos 0 0).

(** The epoch that commits these changes and schedules generation. *)
Definition saving_epoch (preparing : bool) : option (list ChunkGenerationTask) :=
  m ← run_ops (-64) 384 (empty_map (WorldTickScheduler_new ∅)) (saving_ops preparing);
  '(holders, (m, _)) ← commit_scheduling_epoch (-64) 384 saving_changes (m, []);
  '(_, tasks) ← schedule_generation m holders;
  Some tasks.

(** A position whose holder is being snapshotted for a save when its level returns is
    deferred, and is not active; scheduling the tasks of that same epoch then fails at a
    task whose square contains it.  Without the save the same epoch makes every task. *)
Theorem deferred_revival_breaks_generation :
  saving_epoch true = None /\ length <$> saving_epoch false = Some 288%nat.
Proof. split; vm_compute; reflexivity. Qed.

(** ** Concrete tasks *)

Lemma generation_queue_starts_best_witness :
  let q := mkQueue [(3, false); (1, true); (2, false); (1, false)] 3 in
  let r := run_generation_tasks snd (fun x => priority_for_levels (Some (fst x)) (Some (fst x))) false 2 q in
  fst r = [(1, false)] /\ running_tasks (snd r) <= 4.
Proof.
  split; [reflexivity|].
  pose proof (generation_queue_starts_best snd (fun x => priority_for_levels (Some (fst x)) (Some (fst x))) false 2
    (mkQueue [(3, false); (1, true); (2, false); (1, false)] 3)) as H.
  apply H. vm_compute. split; discriminate.
Defined.

(** The map whose levels ask for Biomes at the origin. *)
Definition square_ops : list map_op := [OpCommit saving_changes []].

Definition square_ticks : WorldTickScheduler Z Z := WorldTickScheduler_new ∅.

Lemma square_ticks_fresh : fresh_ticks square_ticks.
Proof. split; [apply scheduler_new_ok|done]. Qed.

Definition square_map : ChunkMap (WorldTickScheduler Z Z) :=
  default (empty_map square_ticks) (run_ops (-64) 384 (empty_map square_ticks) square_ops).

Lemma square_run : run_ops (-64) 384 (empty_map square_ticks) square_ops = Some square_map.
Proof. apply run_default. vm_compute. reflexivity. Qed.

Definition square_task : ChunkGenerationTask :=
  default (mkTask (mkChunkPos 0 0) Empty None true [] (mkCache 0 0 0 []) 0 true)
    (ChunkGenerationTask_new square_map (mkChunkPos 0 0) Biomes).

Lemma square_task_new : ChunkGenerationTask_new square_map (mkChunkPos 0 0) Biomes = Some square_task.
Proof. vm_compute. reflexivity. Qed.

Lemma origin_fits : square_fits (mkChunkPos 0 0) (worst_case_radius Biomes).
Proof. unfold square_fits, in_s. change (worst_case_radius Biomes) with 8. simpl. lia. Qed.

(** Every chunk publishes one status per round. *)
Definition growing_round (s : ChunkStatus) : round_env :=
  mkRound false false (fun '(_, s') => bool_decide (idx s' <= idx s)%nat) (fun _ => Some s) (fun _ => true) (fun _ => false).

Definition growing_rounds : list round_env :=
  growing_round <$> [Empty; Empty; StructureStarts; StructureReferences; Biomes].

Lemma growing_round_ok p s : status_le p (Some s) -> round_ok (fun _ => p) (growing_round s).
Proof. intros Hp. split; [done|]. intros h s' H%bool_decide_eq_true. simpl. exact H. Qed.

Lemma growing_rounds_ok : rounds_ok (fun _ => None) growing_rounds.
Proof.
  split; [by apply growing_round_ok|]. do 4 (split; [apply (growing_round_ok (Some _)); vm_compute; lia|]). done.
Qed.

Lemma generation_task_ends_witness :
  exists t', run_task growing_rounds square_task = Some (Stopped t') \/ run_task growing_rounds square_task = Some (Finished t').
Proof.
  apply (generation_task_ends square_map (mkChunkPos 0 0) Biomes square_task (fun _ => None) growing_rounds
    origin_fits square_task_new growing_rounds_ok). vm_compute. lia.
Defined.

(** When Biomes is scheduled at the origin, the chunk eight to the east has its structure
    starts. *)
Lemma generation_layers_ready_witness :
  exists t' id, run_task (take 4 growing_rounds) square_task = Some (Running t') /\ tk_scheduled t' = Some Biomes /\
    chunks square_map !! mkChunkPos 8 0 = Some id /\
    status_le (Some StructureStarts) (last_view (fun _ => None) (take 4 growing_rounds) id).
Proof.
  destruct (generation_layers_ready square_map (mkChunkPos 0 0) Biomes square_task (fun _ => None) (take 4 growing_rounds)
    origin_fits square_task_new) as [H _].
  { split; [by apply growing_round_ok|]. do 3 (split; [apply (growing_round_ok (Some _)); vm_compute; lia|]). done. }
  destruct (run_task (take 4 growing_rounds) square_task) as [[t'|t'|t']|] eqn:E; cycle 1.
  1-3: exfalso; revert E; vm_compute; discriminate.
  destruct (H t' Biomes (mkChunkPos 0 0) (mkChunkPos 8 0) StructureStarts) as (id & Hid & _ & Hle); [reflexivity|..].
  - apply (f_equal (fun o => match o with Some (Running t) => tk_cancelled t | _ => true end)) in E.
    rewrite <- E. vm_compute. reflexivity.
  - apply (f_equal (fun o => match o with Some (Running t) => tk_scheduled t | _ => None end)) in E.
    rewrite <- E. vm_compute. reflexivity.
  - vm_compute. discriminate.
  - vm_compute. reflexivity.
  - exists t', id. split; [reflexivity|]. split; [|exact (conj Hid Hle)].
    apply (f_equal (fun o => match o with Some (Running t) => tk_scheduled t | _ => None end)) in E.
    rewrite <- E. vm_compute. reflexivity.
Defined.

Lemma square_ops_ok : Forall op_ok square_ops.
Proof.
  constructor; [|constructor]. split; [by apply (bool_decide_unpack _); vm_compute|].
  apply Forall_fmap, Forall_forall. intros p Hp. apply elem_of_square in Hp; [|lia]. unfold near in Hp. simpl in *.
  split; simpl; [unfold ChunkPos_ok, in_s in *; simpl in *; lia| |done]. intros l [= <-]. unfold level_ok.
  change MAX_LEVEL_RAW with 141. lia.
Qed.

Lemma task_creation_needs_no_deferred_witness :
  exists task, ChunkGenerationTask_new square_map (mkChunkPos 0 0) Biomes = Some task.
Proof.
  apply (task_creation_needs_no_deferred (-64) 384 square_ops square_ticks square_map (mkChunkPos 0 0) Biomes
    square_ticks_fresh square_ops_ok); [vm_compute; discriminate|exact square_run|exact origin_fits|].
  intros q Hq. apply elem_of_square in Hq; [|vm_compute; discriminate]. revert q Hq.
  apply (proj1 (Forall_forall (fun q => is_Some (replay square_ops q) /\ deferred_revivals square_map !! q = None) _)).
  apply (bool_decide_unpack _). vm_compute. reflexivity.
Defined.
