(* ===== verification/PlayerView.v ===== *)
(** * What a player sees

    Models [PlayerChunkView] of [steel-core/src/chunk/player_chunk_view.rs], the spatial
    index [PlayerAreaMap] of [world/player_index/area.rs] and the player tracking of
    [chunk/chunk_map/player_tracking.rs]: the round area of chunks around a player, the
    difference of two such areas, which players see a chunk, and the tickets that keep a
    player's chunks loaded. *)

From S2P Require Import Prelude Positions ChunkTickets ChunkScheduler.

(** ** The view *)

Record PlayerChunkView := mkView { v_center : ChunkPos; view_distance : Z }.

#[global] Instance PlayerChunkView_eq_dec : EqDecision PlayerChunkView.
Proof. solve_decision. Defined.

Definition min_x (v : PlayerChunkView) : Z := i32 (i32 (cp_x (v_center v) - view_distance v) - 1).
Definition max_x (v : PlayerChunkView) : Z := i32 (i32 (cp_x (v_center v) + view_distance v) + 1).
Definition min_z (v : PlayerChunkView) : Z := i32 (i32 (cp_y (v_center v) - view_distance v) - 1).
Definition max_z (v : PlayerChunkView) : Z := i32 (i32 (cp_y (v_center v) + view_distance v) + 1).

(** The squares are 64-bit and cannot overflow. *)
Definition is_within_distance (center_x center_z distance chunk_x chunk_z : Z)
  (include_neighbors : bool) : bool :=
  let buffer_range := if include_neighbors then 2 else 1 in
  let delta_x := Z.max 0 (i32 (i32 (Z.abs (i32 (chunk_x - center_x))) - buffer_range)) in
  let delta_z := Z.max 0 (i32 (i32 (Z.abs (i32 (chunk_z - center_z))) - buffer_range)) in
  let distance_squared := delta_x * delta_x + delta_z * delta_z in
  let radius_squared := distance * distance in
  distance_squared <? radius_squared.

Definition view_contains (v : PlayerChunkView) (pos : ChunkPos) : bool :=
  is_within_distance (cp_x (v_center v)) (cp_y (v_center v)) (view_distance v) (cp_x pos) (cp_y pos) true.

(** The positions handed to the callback, in order. *)
Definition view_for_each (v : PlayerChunkView) : list ChunkPos :=
  filter (fun pos => view_contains v pos = true) (rectangle (min_x v) (max_x v) (min_z v) (max_z v)).

Definition square_intersects (v other : PlayerChunkView) : bool :=
  (min_x v <=? max_x other) && (min_x other <=? max_x v) &&
  (min_z v <=? max_z other) && (min_z other <=? max_z v).

(** The calls of [on_added] ([true]) and [on_removed] ([false]), in order. *)
Definition view_difference (old new : PlayerChunkView) : list (ChunkPos * bool) :=
  if decide (old = new) then []
  else if square_intersects old new then
    omap (fun pos =>
            let saw := view_contains old pos in
            let sees := view_contains new pos in
            if eqb saw sees then None else Some (pos, sees))
      (rectangle (Z.min (min_x old) (min_x new)) (Z.max (max_x old) (max_x new))
                 (Z.min (min_z old) (min_z new)) (Z.max (max_z old) (max_z new)))
  else ((fun pos => (pos, false)) <$> view_for_each old) ++ ((fun pos => (pos, true)) <$> view_for_each new).

(** *** What a view should contain *)

(** Distances are counted from the square of chunks next to the centre. *)
Definition beyond (a b : Z) : Z := Z.max 0 (Z.abs (a - b) - 2).

Definition sees (v : PlayerChunkView) (pos : ChunkPos) : Prop :=
  beyond (cp_x pos) (cp_x (v_center v)) * beyond (cp_x pos) (cp_x (v_center v)) +
  beyond (cp_y pos) (cp_y (v_center v)) * beyond (cp_y pos) (cp_y (v_center v)) <
  view_distance v * view_distance v.

#[global] Instance sees_dec v pos : Decision (sees v pos).
Proof. unfold sees. apply _. Defined.

(** A centre well inside the coordinate range; distances are bytes. *)
Definition view_ok (v : PlayerChunkView) : Prop :=
  - 2 ^ 29 <= cp_x (v_center v) <= 2 ^ 29 /\ - 2 ^ 29 <= cp_y (v_center v) <= 2 ^ 29 /\ in_u 8 (view_distance v).

Lemma view_bounds v : view_ok v ->
  min_x v = cp_x (v_center v) - view_distance v - 1 /\ max_x v = cp_x (v_center v) + view_distance v + 1 /\
  min_z v = cp_y (v_center v) - view_distance v - 1 /\ max_z v = cp_y (v_center v) + view_distance v + 1.
Proof.
  unfold view_ok, in_u, min_x, max_x, min_z, max_z. intros (H1 & H2 & H3).
  change (2 ^ 29) with 536870912 in *. change (2 ^ 8) with 256 in H3.
  by rewrite !i32_small by (change (2 ^ 31) with 2147483648; rewrite ?i32_small; change (2 ^ 31) with 2147483648; lia).
Qed.

(** Around the centres the wrapping arithmetic is exact. *)
Definition central (pos : ChunkPos) : Prop :=
  - 2 ^ 30 <= cp_x pos <= 2 ^ 30 /\ - 2 ^ 30 <= cp_y pos <= 2 ^ 30.

Lemma view_contains_spec v pos : view_ok v -> central pos -> view_contains v pos = true <-> sees v pos.
Proof.
  unfold view_ok, central, view_contains, is_within_distance, sees, beyond. intros (H1 & H2 & _) [H3 H4].
  change (2 ^ 29) with 536870912 in *. change (2 ^ 30) with 1073741824 in *. rewrite Z.ltb_lt.
  assert (forall a c, - 1073741824 <= a <= 1073741824 -> - 536870912 <= c <= 536870912 ->
    i32 (i32 (Z.abs (i32 (a - c))) - 2) = Z.abs (a - c) - 2) as E.
  { intros a c Ha Hc. rewrite (i32_small (a - c)) by (change (2 ^ 31) with 2147483648; lia).
    rewrite (i32_small (Z.abs _)) by (change (2 ^ 31) with 2147483648; lia).
    by rewrite i32_small by (change (2 ^ 31) with 2147483648; lia). }
  by rewrite !E by done.
Qed.

(** What is seen lies in the scanned square. *)
Lemma sees_in_square v pos : view_ok v -> sees v pos ->
  min_x v <= cp_x pos <= max_x v /\ min_z v <= cp_y pos <= max_z v.
Proof.
  intros Hv H. destruct (view_bounds v Hv) as (-> & -> & -> & ->). destruct Hv as (_ & _ & [Hd _]).
  unfold sees, beyond in H. nia.
Qed.

Lemma square_central v pos : view_ok v ->
  min_x v <= cp_x pos <= max_x v -> min_z v <= cp_y pos <= max_z v -> central pos.
Proof.
  intros Hv. destruct (view_bounds v Hv) as (-> & -> & -> & ->). destruct Hv as (H1 & H2 & H3).
  unfold in_u, central in *. change (2 ^ 29) with 536870912 in *. change (2 ^ 30) with 1073741824 in *.
  change (2 ^ 8) with 256 in H3. lia.
Qed.

Lemma elem_of_view_for_each v pos : view_ok v -> pos ∈ view_for_each v <-> sees v pos.
Proof.
  intros Hv. unfold view_for_each. rewrite list_elem_of_filter, elem_of_rectangle. split.
  - intros [Hc [Hx Hz]]. apply view_contains_spec; [done|by eapply square_central|done].
  - intros H. destruct (sees_in_square v pos Hv H) as [Hx Hz]. split; [|done].
    apply view_contains_spec; [done|by eapply square_central|done].
Qed.

Lemma NoDup_view_for_each v : NoDup (view_for_each v).
Proof. apply NoDup_filter, NoDup_rectangle. Qed.

Lemma disjoint_views old new pos : view_ok old -> view_ok new -> square_intersects old new = false ->
  sees old pos -> ~ sees new pos.
Proof.
  intros Ho Hn Hs H1 H2. apply sees_in_square in H1, H2; [|done..].
  unfold square_intersects in Hs. rewrite !andb_false_iff, !Z.leb_gt in Hs. lia.
Qed.

(** The callbacks name exactly the positions whose visibility changes. *)
Lemma view_difference_elem old new pos b : view_ok old -> view_ok new ->
  (pos, b) ∈ view_difference old new <->
  if b : bool then sees new pos /\ ~ sees old pos else sees old pos /\ ~ sees new pos.
Proof.
  intros Ho Hn. unfold view_difference. case_decide as E.
  { subst. split; [by intros ?%elem_of_nil|]. destruct b; naive_solver. }
  destruct (square_intersects old new) eqn:Hs.
  - rewrite list_elem_of_omap. split.
    + intros (q & Hq & Hf). apply elem_of_rectangle in Hq.
      assert (central q) as Hc.
      { pose proof (view_bounds old Ho) as (E1 & E2 & E3 & E4). pose proof (view_bounds new Hn) as (E5 & E6 & E7 & E8).
        rewrite E1, E2, E3, E4, E5, E6, E7, E8 in Hq. destruct Ho as (? & ? & ?), Hn as (? & ? & ?).
        unfold in_u, central in *. change (2 ^ 29) with 536870912 in *. change (2 ^ 30) with 1073741824 in *.
        change (2 ^ 8) with 256 in *. lia. }
      destruct (view_contains old q) eqn:E1, (view_contains new q) eqn:E2; simplify_eq/=;
        rewrite <- !view_contains_spec by done; rewrite E1, E2; done.
    + intros H. assert (sees old pos \/ sees new pos) as Hany by (destruct b; naive_solver).
      assert (central pos) as Hc.
      { destruct Hany as [Hv|Hv]; apply sees_in_square in Hv as Hb; [|done| |done]; by eapply square_central; [|apply Hb..]. }
      exists pos. split.
      * apply elem_of_rectangle. destruct Hany as [Hv|Hv]; apply sees_in_square in Hv; try done; lia.
      * pose proof (view_contains_spec old pos Ho Hc) as Eo. pose proof (view_contains_spec new pos Hn Hc) as En.
        destruct b, (view_contains old pos), (view_contains new pos); naive_solver.
  - rewrite elem_of_app, !list_elem_of_fmap. split.
    + intros [(q & [= -> ->] & Hq)|(q & [= -> ->] & Hq)]; apply elem_of_view_for_each in Hq; try done.
      * split; [done|]. by apply (disjoint_views old).
      * split; [done|]. intros Hold. by apply (disjoint_views old new q).
    + destruct b; intros [H _].
      * right. exists pos. split; [done|]. by apply elem_of_view_for_each.
      * left. exists pos. split; [done|]. by apply elem_of_view_for_each.
Qed.

Lemma NoDup_view_difference old new : view_ok old -> view_ok new -> NoDup (view_difference old new).*1.
Proof.
  intros Ho Hn. unfold view_difference. case_decide; [constructor|].
  destruct (square_intersects old new) eqn:Hs.
  - rewrite list_fmap_omap. apply NoDup_omap_inj; [|apply NoDup_rectangle].
    intros p q r Hp Hq. destruct (eqb (view_contains old p) _), (eqb (view_contains old q) _); naive_solver.
  - rewrite fmap_app, <- !list_fmap_compose. simpl. apply NoDup_app. unfold compose. simpl.
    rewrite !list_fmap_id. split_and!; [apply NoDup_view_for_each| |apply NoDup_view_for_each].
    intros p Hp Hq. apply elem_of_view_for_each in Hp, Hq; [|done..]. by apply (disjoint_views old new p).
Qed.

(** C28. Moving from one view to another announces every chunk that comes into view and every
    chunk that leaves it, each once, and no other chunk; scanning a view finds exactly the
    chunks that it contains. *)
Theorem view_difference_exact old new : view_ok old -> view_ok new ->
  NoDup (view_difference old new).*1 /\ NoDup (view_for_each new) /\
  (forall pos, pos ∈ view_for_each new <-> sees new pos) /\
  (forall pos, (pos, true) ∈ view_difference old new <-> sees new pos /\ ~ sees old pos) /\
  (forall pos, (pos, false) ∈ view_difference old new <-> sees old pos /\ ~ sees new pos).
Proof.
  intros Ho Hn. split_and!.
  - by apply NoDup_view_difference.
  - apply NoDup_view_for_each.
  - intros pos. by apply elem_of_view_for_each.
  - intros pos. exact (view_difference_elem old new pos true Ho Hn).
  - intros pos. exact (view_difference_elem old new pos false Ho Hn).
Qed.

Lemma view_difference_exact_witness :
  (mkChunkPos 4 0, true) ∈ view_difference (mkView (mkChunkPos 0 0) 2) (mkView (mkChunkPos 1 0) 2) /\
  sees (mkView (mkChunkPos 1 0) 2) (mkChunkPos 4 0) /\ ~ sees (mkView (mkChunkPos 0 0) 2) (mkChunkPos 4 0).
Proof.
  destruct (view_difference_exact (mkView (mkChunkPos 0 0) 2) (mkView (mkChunkPos 1 0) 2)) as (_ & _ & _ & H & _).
  - unfold view_ok, in_u. cbn [v_center view_distance cp_x cp_y]. lia.
  - unfold view_ok, in_u. cbn [v_center view_distance cp_x cp_y]. lia.
  - assert (sees (mkView (mkChunkPos 1 0) 2) (mkChunkPos 4 0) /\ ~ sees (mkView (mkChunkPos 0 0) 2) (mkChunkPos 4 0)) as E.
    { unfold sees, beyond. simpl. lia. }
    split; [by apply H|exact E].
Defined.

(** ** The spatial index of players *)

Record PlayerAreaMap := mkArea {
  am_chunks : gmap ChunkPos (gset Z);
  player_chunks : gmap Z (gset ChunkPos);
}.

Definition PlayerAreaMap_new : PlayerAreaMap := mkArea ∅ ∅.

Definition add_to_chunk (entity_id : Z) (a : PlayerAreaMap) (chunk : ChunkPos) : PlayerAreaMap :=
  match am_chunks a !! chunk with
  | Some set => mkArea (<[chunk := {[entity_id]} ∪ set]> (am_chunks a)) (player_chunks a)
  | None => mkArea (<[chunk := {[entity_id]}]> (am_chunks a)) (player_chunks a)
  end.

Definition remove_from_chunk (entity_id : Z) (a : PlayerAreaMap) (chunk : ChunkPos) : PlayerAreaMap :=
  match am_chunks a !! chunk with
  | Some set =>
      let set := set ∖ {[entity_id]} in
      if decide (set = ∅) then mkArea (delete chunk (am_chunks a)) (player_chunks a)
      else mkArea (<[chunk := set]> (am_chunks a)) (player_chunks a)
  | None => a
  end.

(** [insert_sync] keeps an entry that is already there. *)
Definition on_player_join (a : PlayerAreaMap) (entity_id : Z) (v : PlayerChunkView) : PlayerAreaMap :=
  let a := foldl (add_to_chunk entity_id) a (view_for_each v) in
  match player_chunks a !! entity_id with
  | Some _ => a
  | None => mkArea (am_chunks a) (<[entity_id := list_to_set (view_for_each v)]> (player_chunks a))
  end.

Definition remove_by_entity_id (a : PlayerAreaMap) (entity_id : Z) : PlayerAreaMap :=
  match player_chunks a !! entity_id with
  | Some chunks =>
      foldl (remove_from_chunk entity_id) (mkArea (am_chunks a) (delete entity_id (player_chunks a))) (elements chunks)
  | None => a
  end.

Definition on_player_view_change (a : PlayerAreaMap) (entity_id : Z) (added removed : list ChunkPos)
  : PlayerAreaMap :=
  match added, removed with
  | [], [] => a
  | _, _ =>
      let a := foldl (remove_from_chunk entity_id) a removed in
      let a := foldl (add_to_chunk entity_id) a added in
      mkArea (am_chunks a)
        (alter (fun set => (set ∖ list_to_set removed) ∪ list_to_set added) entity_id (player_chunks a))
  end.

Definition get_tracking_players (a : PlayerAreaMap) (chunk : ChunkPos) : list Z :=
  match am_chunks a !! chunk with Some set => elements set | None => [] end.

(** *** The index is exact *)

Definition trackers (a : PlayerAreaMap) (c : ChunkPos) : gset Z := default ∅ (am_chunks a !! c).

(** [tracked id] is what player [id] sees. *)
Record area_ok (a : PlayerAreaMap) (tracked : gmap Z (gset ChunkPos)) : Prop := {
  ao_players : player_chunks a = tracked;
  ao_exact : forall c id, id ∈ trackers a c <-> exists cs, tracked !! id = Some cs /\ c ∈ cs;
  ao_tight : forall c s, am_chunks a !! c = Some s -> s <> ∅;
}.

Definition tight (a : PlayerAreaMap) : Prop := forall c s, am_chunks a !! c = Some s -> s <> ∅.

Lemma add_to_chunk_spec id a c : tight a ->
  tight (add_to_chunk id a c) /\ player_chunks (add_to_chunk id a c) = player_chunks a /\
  forall c', trackers (add_to_chunk id a c) c' = if decide (c' = c) then {[id]} ∪ trackers a c' else trackers a c'.
Proof.
  intros Ht. unfold add_to_chunk. destruct (am_chunks a !! c) as [s|] eqn:E; (split; [|split; [done|]]).
  - intros c' s' Hs. simpl in Hs. apply lookup_insert_Some in Hs as [[<- <-]|[_ Hs]]; [set_solver|by eapply Ht].
  - intros c'. unfold trackers. simpl. case_decide as Ec; [subst; by rewrite lookup_insert_eq, E|by rewrite lookup_insert_ne].
  - intros c' s' Hs. simpl in Hs. apply lookup_insert_Some in Hs as [[<- <-]|[_ Hs]]; [set_solver|by eapply Ht].
  - intros c'. unfold trackers. simpl. case_decide as Ec; [subst; rewrite lookup_insert_eq, E; set_solver|by rewrite lookup_insert_ne].
Qed.

Lemma remove_from_chunk_spec id a c : tight a ->
  tight (remove_from_chunk id a c) /\ player_chunks (remove_from_chunk id a c) = player_chunks a /\
  forall c', trackers (remove_from_chunk id a c) c' = if decide (c' = c) then trackers a c' ∖ {[id]} else trackers a c'.
Proof.
  intros Ht. unfold remove_from_chunk. destruct (am_chunks a !! c) as [s|] eqn:E.
  - case_decide as Es; (split; [|split; [done|]]).
    + intros c' s' Hs. simpl in Hs. apply lookup_delete_Some in Hs as [_ Hs]. by eapply Ht.
    + intros c'. unfold trackers. simpl. case_decide as Ec; [subst; by rewrite lookup_delete_eq, E|by rewrite lookup_delete_ne].
    + intros c' s' Hs. simpl in Hs. apply lookup_insert_Some in Hs as [[<- <-]|[_ Hs]]; [done|by eapply Ht].
    + intros c'. unfold trackers. simpl. case_decide as Ec; [subst; by rewrite lookup_insert_eq, E|by rewrite lookup_insert_ne].
  - split_and!; [done..|]. intros c'. case_decide as Ec; [|done]. subst. unfold trackers. rewrite E. set_solver.
Qed.

Lemma fold_add_spec id cs : forall a, tight a ->
  tight (foldl (add_to_chunk id) a cs) /\ player_chunks (foldl (add_to_chunk id) a cs) = player_chunks a /\
  forall c' x, x ∈ trackers (foldl (add_to_chunk id) a cs) c' <-> x ∈ trackers a c' \/ (x = id /\ c' ∈ cs).
Proof.
  induction cs as [|c cs IH]; intros a Ht; simpl.
  { split_and!; [done..|]. intros c' x. split; [by left|]. intros [?|[_ ?%elem_of_nil]]; done. }
  destruct (add_to_chunk_spec id a c Ht) as (H1 & H2 & H3). destruct (IH _ H1) as (I1 & I2 & I3).
  split_and!; [done|congruence|]. intros c' x. rewrite I3, H3, elem_of_cons. case_decide; set_solver.
Qed.

Lemma fold_remove_spec id cs : forall a, tight a ->
  tight (foldl (remove_from_chunk id) a cs) /\ player_chunks (foldl (remove_from_chunk id) a cs) = player_chunks a /\
  forall c' x, x ∈ trackers (foldl (remove_from_chunk id) a cs) c' <-> x ∈ trackers a c' /\ (x = id -> c' ∉ cs).
Proof.
  induction cs as [|c cs IH]; intros a Ht; simpl.
  { split_and!; [done..|]. intros c' x. split; [|tauto]. intros H. split; [done|]. by intros _ ?%elem_of_nil. }
  destruct (remove_from_chunk_spec id a c Ht) as (H1 & H2 & H3). destruct (IH _ H1) as (I1 & I2 & I3).
  split_and!; [done|congruence|]. intros c' x. rewrite I3, H3, not_elem_of_cons. case_decide; set_solver.
Qed.

Lemma ex_Some {A} (x : A) (P : A -> Prop) : (exists y, Some x = Some y /\ P y) <-> P x.
Proof. naive_solver. Qed.

Lemma ex_None {A} (P : A -> Prop) : (exists y, None = Some y /\ P y) <-> False.
Proof. naive_solver. Qed.

Lemma area_new_ok : area_ok PlayerAreaMap_new ∅.
Proof. split; [done| |by intros c s]. intros c id. split; [by intros ?%elem_of_empty|by intros (cs & ? & _)]. Qed.

Lemma on_player_join_ok a tracked id v : area_ok a tracked -> tracked !! id = None ->
  area_ok (on_player_join a id v) (<[id := list_to_set (view_for_each v)]> tracked).
Proof.
  intros [H1 H2 H3] Hid. unfold on_player_join. destruct (fold_add_spec id (view_for_each v) a H3) as (I1 & I2 & I3).
  rewrite I2, H1, Hid. split; cbn [am_chunks player_chunks]; [reflexivity| |exact I1].
  intros c x. change (x ∈ trackers (foldl (add_to_chunk id) a (view_for_each v)) c <->
    exists cs, <[id := list_to_set (view_for_each v)]> tracked !! x = Some cs /\ c ∈ cs).
  rewrite I3, H2. destruct (decide (x = id)) as [->|Hx].
  - rewrite lookup_insert_eq, Hid, ex_Some, ex_None, elem_of_list_to_set. tauto.
  - rewrite lookup_insert_ne by done. tauto.
Qed.

Lemma remove_by_entity_id_ok a tracked id : area_ok a tracked ->
  area_ok (remove_by_entity_id a id) (delete id tracked).
Proof.
  intros [H1 H2 H3]. unfold remove_by_entity_id. rewrite H1. destruct (tracked !! id) as [cs|] eqn:E.
  - set (a0 := mkArea (am_chunks a) (delete id tracked)). assert (tight a0) as Ht by exact H3.
    destruct (fold_remove_spec id (elements cs) a0 Ht) as (I1 & I2 & I3). split; [done| |exact I1].
    intros c x. rewrite I3. change (trackers a0 c) with (trackers a c). rewrite H2, elem_of_elements.
    destruct (decide (x = id)) as [->|Hx].
    + rewrite lookup_delete_eq, E, ex_Some, ex_None. tauto.
    + rewrite lookup_delete_ne by done. tauto.
  - rewrite delete_id by done. by split.
Qed.

Lemma on_player_view_change_ok a tracked id cs added removed : area_ok a tracked -> tracked !! id = Some cs ->
  area_ok (on_player_view_change a id added removed)
    (<[id := (cs ∖ list_to_set removed) ∪ list_to_set added]> tracked).
Proof.
  intros Ha Hid. assert (area_ok (let a := foldl (add_to_chunk id) (foldl (remove_from_chunk id) a removed) added in
    mkArea (am_chunks a) (alter (fun set => (set ∖ list_to_set removed) ∪ list_to_set added) id (player_chunks a)))
    (<[id := (cs ∖ list_to_set removed) ∪ list_to_set added]> tracked)) as H.
  { destruct Ha as [H1 H2 H3]. destruct (fold_remove_spec id removed a H3) as (I1 & I2 & I3).
    destruct (fold_add_spec id added _ I1) as (J1 & J2 & J3). split; simpl; [| |exact J1].
    - rewrite J2, I2, H1. apply map_eq. intros x. destruct (decide (x = id)) as [->|Hx].
      + by rewrite lookup_insert_eq, lookup_alter_eq, Hid.
      + by rewrite lookup_insert_ne, lookup_alter_ne.
    - intros c x. change (x ∈ trackers (foldl (add_to_chunk id)
        (foldl (remove_from_chunk id) a removed) added) c <-> exists cs',
        <[id := cs ∖ list_to_set removed ∪ list_to_set added]> tracked !! x = Some cs' /\ c ∈ cs').
      rewrite J3, I3, H2. destruct (decide (x = id)) as [->|Hx].
      + rewrite lookup_insert_eq, Hid, !ex_Some, elem_of_union, elem_of_difference, !elem_of_list_to_set. tauto.
      + rewrite lookup_insert_ne by done. tauto. }
  destruct added as [|c added], removed as [|c' removed]; try exact H. simpl.
  replace (cs ∖ ∅ ∪ ∅) with cs by set_solver. by rewrite insert_id.
Qed.

Lemma get_tracking_players_spec a tracked c id : area_ok a tracked ->
  id ∈ get_tracking_players a c <-> exists cs, tracked !! id = Some cs /\ c ∈ cs.
Proof.
  intros Ha. rewrite <- (ao_exact _ _ Ha). unfold get_tracking_players, trackers.
  destruct (am_chunks a !! c); simpl; [apply elem_of_elements|set_solver].
Qed.
