(* ===== verification/ChunkSender.v ===== *)
(** * Sending chunks to a player

    Models [ChunkSender] of [steel-core/src/player/chunk_sender.rs]: the chunks that wait
    to be sent and those the client has, the quota that the client's feedback adjusts, and
    the three phases of a batch (prepare, encode, commit). *)

From Stdlib Require Import Floats.SpecFloat.
From stdpp Require Import sorting.
From S2P Require Import Prelude Float32 Positions ChunkPyramid ChunkTickets ChunkHolder PlayerView.

(** 0.1 rounded to 32 bits. *)
Definition MIN_CHUNKS_PER_TICK : f32 := S754_finite false 13421773 (-27).
Definition MAX_CHUNKS_PER_TICK : f32 := f32_of_Z 500.
Definition START_CHUNKS_PER_TICK : f32 := f32_of_Z 9.
Definition MAX_UNACKNOWLEDGED_BATCHES : Z := 10.

(** ** Packets *)

(** The packets that concern chunks; [D] is the content of a chunk packet. *)
Inductive packet (D : Type) :=
| SetChunkCenter (x z : Z)
| ForgetLevelChunk (pos : Z)
| ChunkBatchStart
| LevelChunkWithLight (x z : Z) (data : D)
| ChunkBatchFinished (batch_size : Z)
| BlockUpdate (pos : BlockPos) (state : Z)
| SectionBlocksUpdate (section : SectionPos) (changes : list (Z * Z)).
Arguments SetChunkCenter {D}.
Arguments ForgetLevelChunk {D}.
Arguments ChunkBatchStart {D}.
Arguments LevelChunkWithLight {D}.
Arguments ChunkBatchFinished {D}.
Arguments BlockUpdate {D}.
Arguments SectionBlocksUpdate {D}.

(** ** The sender *)

Record ChunkSender := mkSender {
  pending_chunks : gset ChunkPos;
  sent_chunks : gset ChunkPos;
  unacknowledged_batches : Z;
  desired_chunks_per_tick : f32;
  batch_quota : f32;
  max_unacknowledged_batches : Z;
}.

Definition ChunkSender_default : ChunkSender :=
  mkSender ∅ ∅ 0 START_CHUNKS_PER_TICK (f32_of_Z 0) 1.

(** A holder is the identity behind its [Arc]; a readiness snapshot is the packed word. *)
Record PreparedChunk := mkPrepared { pc_pos : ChunkPos; pc_holder : Z; pc_readiness : Z }.

Record PreparedBatch := mkBatch { b_chunks : list PreparedChunk; b_epoch : Z }.

Record EncodedChunk (D : Type) := mkEncoded {
  ec_pos : ChunkPos;
  ec_packet : D;
  content_revision : Z;
  ec_holder : Z;
  ec_readiness : Z;
}.
Arguments mkEncoded {D}.
Arguments ec_pos {D}.
Arguments ec_packet {D}.
Arguments content_revision {D}.
Arguments ec_holder {D}.
Arguments ec_readiness {D}.

Definition word_is_block_ticking (word : Z) : bool :=
  match snapshot_readiness word with Some r => readiness_is_block_ticking r | None => false end.

Section Sender.
Context {D : Type}.
(** The live holders and the active holder of each position. *)
Implicit Types holders : gmap Z ChunkHolder.
Implicit Types active : gmap ChunkPos Z.

Definition is_current_for holders (e : EncodedChunk D) (p : PreparedChunk) : bool :=
  match holders !! ec_holder e with
  | None => false
  | Some h =>
      bool_decide (ec_pos e = pc_pos p) && bool_decide (ec_holder e = pc_holder p) &&
      (ec_readiness e =? pc_readiness p) && word_is_block_ticking (pc_readiness p) &&
      (h_readiness h =? pc_readiness p) && (packet_content_revision (h_changes h) =? content_revision e)
  end.

Definition mark_chunk_pending_to_send (s : ChunkSender) (pos : ChunkPos) : ChunkSender :=
  mkSender ({[pos]} ∪ pending_chunks s) (sent_chunks s ∖ {[pos]}) (unacknowledged_batches s)
    (desired_chunks_per_tick s) (batch_quota s) (max_unacknowledged_batches s).

(** The packets to send are returned. *)
Definition drop_chunk (s : ChunkSender) (closed : bool) (pos : ChunkPos) : ChunkSender * list (packet D) :=
  (mkSender (pending_chunks s ∖ {[pos]}) (sent_chunks s ∖ {[pos]}) (unacknowledged_batches s)
     (desired_chunks_per_tick s) (batch_quota s) (max_unacknowledged_batches s),
   if bool_decide (pos ∈ sent_chunks s) && negb closed then [ForgetLevelChunk (PackedChunkPos_from pos)] else []).

Definition chunk_distance_squared (pos player : ChunkPos) : Z :=
  let dx := Z.abs (cp_x pos - cp_x player) in
  let dz := Z.abs (cp_y pos - cp_y player) in
  saturating_add 64 (Z.min (2 ^ 64 - 1) (dx * dx)) (Z.min (2 ^ 64 - 1) (dz * dz)).

(** The pending chunk at [pos], when it can be sent. *)
Definition sendable holders active (pos : ChunkPos) : option PreparedChunk :=
  id ← active !! pos; h ← holders !! id;
  if decide (published_status h = Some (Some Full)) then
    if word_is_block_ticking (h_readiness h) then Some (mkPrepared pos id (h_readiness h)) else None
  else None.

Definition nearer (player p q : ChunkPos) : Prop :=
  chunk_distance_squared p player <= chunk_distance_squared q player.

#[local] Instance nearer_dec player p q : Decision (nearer player p q).
Proof. unfold nearer. apply _. Defined.

(** The loop of [collect_candidates], with its limit. *)
Definition collect_candidates holders active (s : ChunkSender) (player : ChunkPos) : list PreparedChunk :=
  let max_batch_size := f32_floor_usize (batch_quota s) in
  let candidates := merge_sort (nearer player) (elements (pending_chunks s)) in
  foldl (fun chosen pos =>
    if max_batch_size <=? Z.of_nat (length chosen) then chosen
    else match sendable holders active pos with Some c => chosen ++ [c] | None => chosen end) [] candidates.

Definition set_quota (s : ChunkSender) (q : f32) : ChunkSender :=
  mkSender (pending_chunks s) (sent_chunks s) (unacknowledged_batches s) (desired_chunks_per_tick s) q
    (max_unacknowledged_batches s).

Definition prepare_batch holders active (epoch : Z) (player : ChunkPos) (s : ChunkSender)
  : ChunkSender * option PreparedBatch :=
  if max_unacknowledged_batches s <=? unacknowledged_batches s then (s, None)
  else
    let max_batch_size := f32_max (desired_chunks_per_tick s) (f32_of_Z 1) in
    let s := set_quota s (f32_min (f32_add (batch_quota s) (desired_chunks_per_tick s)) max_batch_size) in
    if SFltb (batch_quota s) (f32_of_Z 1) || bool_decide (pending_chunks s = ∅) then (s, None)
    else
      match collect_candidates holders active s player with
      | [] => (s, None)
      | chunks => (s, Some (mkBatch chunks epoch))
      end.

(** The checks of [commit_batch] on one encoded chunk. *)
Definition still_valid holders (s : ChunkSender) (batch : PreparedBatch) (e : EncodedChunk D) : bool :=
  bool_decide (ec_pos e ∈ pending_chunks s) &&
  match list_find (fun c => pc_pos c = ec_pos e) (b_chunks batch) with
  | Some (_, p) => is_current_for holders e p
  | None => false
  end.

Definition valid_chunks holders (s : ChunkSender) (batch : PreparedBatch) (encoded : list (EncodedChunk D))
  : list (EncodedChunk D) :=
  filter (fun e => still_valid holders s batch e = true) encoded.

Definition mark_sent (s : ChunkSender) (pos : ChunkPos) : ChunkSender :=
  mkSender (pending_chunks s ∖ {[pos]}) ({[pos]} ∪ sent_chunks s) (unacknowledged_batches s)
    (desired_chunks_per_tick s) (batch_quota s) (max_unacknowledged_batches s).

Definition commit_batch holders (epoch : Z) (s : ChunkSender) (batch : PreparedBatch)
  (encoded : list (EncodedChunk D)) : ChunkSender * list (packet D) :=
  if negb (epoch =? b_epoch batch) then (s, [])
  else
    match valid_chunks holders s batch encoded with
    | [] => (s, [])
    | valid =>
        let s := mkSender (pending_chunks s) (sent_chunks s) (u16 (unacknowledged_batches s + 1))
                   (desired_chunks_per_tick s) (f32_sub (batch_quota s) (f32_of_Z (Z.of_nat (length valid))))
                   (max_unacknowledged_batches s) in
        (foldl mark_sent s (ec_pos <$> valid),
         [ChunkBatchStart] ++
         ((fun e => LevelChunkWithLight (cp_x (ec_pos e)) (cp_y (ec_pos e)) (ec_packet e)) <$> valid) ++
         [ChunkBatchFinished (i32 (Z.of_nat (length valid)))])
    end.

Definition on_chunk_batch_received_by_client (s : ChunkSender) (desired : f32) : ChunkSender * bool :=
  if unacknowledged_batches s =? 0 then (s, false)
  else
    let unacknowledged := saturating_sub (unacknowledged_batches s) 1 in
    let desired := if f32_is_nan desired then MIN_CHUNKS_PER_TICK
                   else f32_clamp desired MIN_CHUNKS_PER_TICK MAX_CHUNKS_PER_TICK in
    (mkSender (pending_chunks s) (sent_chunks s) unacknowledged desired
       (if unacknowledged =? 0 then f32_of_Z 1 else batch_quota s) MAX_UNACKNOWLEDGED_BATCHES, true).

(** ** Choosing a batch *)

Lemma collect_loop_take {A B} (f : A -> option B) (n : nat) (l : list A) : forall chosen, (length chosen <= n)%nat ->
  foldl (fun chosen x => if Z.of_nat n <=? Z.of_nat (length chosen) then chosen
                         else match f x with Some c => chosen ++ [c] | None => chosen end) chosen l =
  chosen ++ take (n - length chosen) (omap f l).
Proof.
  induction l as [|x l IH]; intros chosen Hn; simpl; [by rewrite take_nil, app_nil_r|].
  destruct (Z.leb_spec (Z.of_nat n) (Z.of_nat (length chosen))) as [H|H].
  - rewrite IH by done. replace (n - length chosen)%nat with O by lia. by destruct (f x).
  - destruct (f x) as [c|] eqn:E; [|by apply IH]. rewrite IH by (rewrite length_app; simpl; lia).
    rewrite length_app. simpl. replace (n - length chosen)%nat with (S (n - (length chosen + 1)))%nat by lia.
    simpl. by rewrite <- app_assoc.
Qed.

Lemma collect_candidates_eq holders active s player :
  collect_candidates holders active s player =
  take (Z.to_nat (f32_floor_usize (batch_quota s)))
    (omap (sendable holders active) (merge_sort (nearer player) (elements (pending_chunks s)))).
Proof.
  unfold collect_candidates. pose proof (floor_usize_nonneg (batch_quota s)) as Hn.
  pose proof (collect_loop_take (sendable holders active) (Z.to_nat (f32_floor_usize (batch_quota s)))
    (merge_sort (nearer player) (elements (pending_chunks s))) []) as H.
  rewrite Z2Nat.id in H by done. rewrite H by (simpl; lia). simpl. by rewrite Nat.sub_0_r.
Qed.

Lemma sendable_pos holders active pos c : sendable holders active pos = Some c ->
  pc_pos c = pos /\ exists h, active !! pos = Some (pc_holder c) /\ holders !! pc_holder c = Some h /\
    published_status h = Some (Some Full) /\ h_readiness h = pc_readiness c /\
    word_is_block_ticking (pc_readiness c) = true.
Proof.
  unfold sendable. intros (id & Hid & H)%bind_Some. apply bind_Some in H as (h & Hh & H).
  case_decide; [|done]. destruct (word_is_block_ticking _) eqn:E; [|done]. injection H as <-. simpl. eauto 10.
Qed.

#[local] Instance nearer_total player : Total (nearer player).
Proof. intros p q. unfold nearer. lia. Qed.
#[local] Instance nearer_trans player : Transitive (nearer player).
Proof. intros p q r. unfold nearer. lia. Qed.

Lemma StronglySorted_omap {A B} (R : relation A) (S : relation B) (f : A -> option B) l :
  (forall x y a b, R x y -> f x = Some a -> f y = Some b -> S a b) ->
  StronglySorted R l -> StronglySorted S (omap f l).
Proof.
  intros Hf. induction 1 as [|x l _ IH Hx]; simpl; [constructor|].
  destruct (f x) as [a|] eqn:E; [|done]. constructor; [done|]. apply Forall_forall.
  intros b (y & Hy & Eb)%list_elem_of_omap. rewrite Forall_forall in Hx. eauto.
Qed.

(** A batch consists of pending chunks that are Full and at least block ticking, each once,
    at most as many as the quota allows; a chunk that could be sent is left out only when
    the quota is used up, and then nothing farther from the player was chosen instead. *)
Theorem prepare_batch_nearest holders active epoch player s s' batch :
  prepare_batch holders active epoch player s = (s', Some batch) ->
  b_epoch batch = epoch /\ b_chunks batch <> [] /\ NoDup (pc_pos <$> b_chunks batch) /\
  Z.of_nat (length (b_chunks batch)) <= f32_floor_usize (batch_quota s') /\
  (forall c, c ∈ b_chunks batch -> pc_pos c ∈ pending_chunks s /\ sendable holders active (pc_pos c) = Some c) /\
  (forall pos c, pos ∈ pending_chunks s -> sendable holders active pos = Some c -> c ∉ b_chunks batch ->
     Z.of_nat (length (b_chunks batch)) = f32_floor_usize (batch_quota s') /\
     forall c', c' ∈ b_chunks batch -> nearer player (pc_pos c') pos).
Proof.
  unfold prepare_batch. case_match; [done|]. set (s1 := set_quota _ _). case_match; [done|].
  pose proof (collect_candidates_eq holders active s1 player) as E. pose proof (floor_usize_nonneg (batch_quota s1)) as Hn.
  set (n := f32_floor_usize (batch_quota s1)) in *. set (sorted := merge_sort _ _) in E.
  assert (forall pos, pos ∈ sorted <-> pos ∈ pending_chunks s) as Hin.
  { intros pos. unfold sorted. rewrite merge_sort_Permutation, elem_of_elements. done. }
  destruct (collect_candidates holders active s1 player) as [|c0 cs] eqn:Ec; [done|].
  assert (take (Z.to_nat n) (omap (sendable holders active) sorted) <> []) as Hne by (by rewrite <- E).
  rewrite E. clear c0 cs Ec E.
  intros [= <- <-]. cbn [b_chunks b_epoch]. fold n. set (l := omap (sendable holders active) sorted) in *.
  assert (forall c, c ∈ l -> pc_pos c ∈ pending_chunks s /\ sendable holders active (pc_pos c) = Some c) as Hl.
  { intros c (q & Hq & Hc)%list_elem_of_omap. destruct (sendable_pos _ _ _ _ Hc) as [-> _]. by rewrite <- Hin. }
  split_and!; [done|exact Hne| | |intros c Hc; apply Hl; by apply (subseteq_take (Z.to_nat n))|].
  - rewrite fmap_take. eapply sublist_NoDup; [|apply sublist_take]. unfold l. rewrite list_fmap_omap.
    apply NoDup_omap_inj; [|unfold sorted; rewrite merge_sort_Permutation; apply NoDup_elements].
    intros x y z (c & Hc & ->)%fmap_Some (c' & Hc' & Ez)%fmap_Some.
    destruct (sendable_pos _ _ _ _ Hc) as [<- _], (sendable_pos _ _ _ _ Hc') as [<- _]. done.
  - rewrite length_take. lia.
  - intros pos c Hpos Hc Hnot. assert (c ∈ l) as Hcl by (apply list_elem_of_omap; exists pos; by rewrite Hin).
    rewrite <- (take_drop (Z.to_nat n) l), elem_of_app in Hcl. destruct Hcl as [?|Hdrop]; [done|]. split.
    + rewrite length_take. apply list_elem_of_lookup in Hdrop as [i Hi]. apply lookup_lt_Some in Hi.
      rewrite length_drop in Hi. lia.
    + intros c' Hc'. destruct (sendable_pos _ _ _ _ Hc) as [<- _].
      assert (StronglySorted (fun a b => nearer player (pc_pos a) (pc_pos b)) l) as Hs.
      { eapply StronglySorted_omap; [|apply StronglySorted_merge_sort; apply _].
        intros x y a b Hxy Ha Hb. destruct (sendable_pos _ _ _ _ Ha) as [-> _], (sendable_pos _ _ _ _ Hb) as [-> _]. done. }
      rewrite <- (take_drop (Z.to_nat n) l) in Hs.
      exact (StronglySorted_app_1_elem_of _ _ _ _ _ Hs Hc' Hdrop).
Qed.
End Sender.

(** ** A concrete batch *)

(** Two chunks wait and the quota allows one: the nearer is chosen. *)
Definition waiting_holder (pos : ChunkPos) : ChunkHolder :=
  set_h_readiness 5 (set_h_published 12 (new_with_full_publications pos 128 None (-64) 384)).

Definition waiting_holders : gmap Z ChunkHolder :=
  {[7 := waiting_holder (mkChunkPos 5 0); 8 := waiting_holder (mkChunkPos 1 0)]}.
Definition waiting_active : gmap ChunkPos Z := {[mkChunkPos 5 0 := 7; mkChunkPos 1 0 := 8]}.
Definition waiting_sender : ChunkSender :=
  mkSender {[mkChunkPos 5 0; mkChunkPos 1 0]} ∅ 0 (f32_of_Z 1) (f32_of_Z 0) 1.

Lemma prepare_batch_nearest_witness :
  exists s', prepare_batch waiting_holders waiting_active 3 (mkChunkPos 0 0) waiting_sender =
    (s', Some (mkBatch [mkPrepared (mkChunkPos 1 0) 8 5] 3)) /\ nearer (mkChunkPos 0 0) (mkChunkPos 1 0) (mkChunkPos 5 0).
Proof.
  eexists. split; [vm_compute; reflexivity|].
  destruct (prepare_batch_nearest waiting_holders waiting_active 3 (mkChunkPos 0 0) waiting_sender
    (set_quota waiting_sender (f32_of_Z 1)) (mkBatch [mkPrepared (mkChunkPos 1 0) 8 5] 3)) as (_ & _ & _ & _ & _ & H);
    [vm_compute; reflexivity|].
  destruct (H (mkChunkPos 5 0) (mkPrepared (mkChunkPos 5 0) 7 5)) as [_ Hn].
  - apply (bool_decide_unpack _). vm_compute. done.
  - vm_compute. reflexivity.
  - by intros [=]%list_elem_of_singleton.
  - apply (Hn (mkPrepared (mkChunkPos 1 0) 8 5)). apply list_elem_of_singleton. reflexivity.
Defined.
