(* ===== verification/PlayerTracking.v ===== *)
(** * Tracking players

    Models the player tracking of [steel-core/src/chunk/chunk_map/player_tracking.rs]
    together with the sending loop of [server/run_loop.rs] and the joining and leaving of
    [world/world_entities.rs]: the view of each player, the chunks queued for it and sent
    to it, the spatial index, and the tickets that keep a view loaded.  The game thread
    and the sending loop interleave at the critical sections of the source. *)

From Stdlib Require Import Floats.SpecFloat.
From S2P Require Import Prelude Positions ChunkTickets ChunkScheduler ChunkHolder.
From S2P Require Import PlayerView ChunkSender.

Section Tracking.
Context {D : Type}.
(** The world's simulation distance. *)
Context (simulation_distance : Z).

(** A player of the world; [p_log] is what was put on its connection since it joined. *)
Record player := mkPlayer {
  last_tracking_view : option PlayerChunkView;
  chunk_sender : ChunkSender;
  chunk_send_epoch : Z;
  last_chunk_pos : ChunkPos;
  p_closed : bool;
  p_log : list (packet D);
}.

Record tracking := mkTracking {
  t_players : gmap Z player;
  player_area_map : PlayerAreaMap;
  t_operations : list ChunkTicketOperation;
}.

Definition view_ticket (v : PlayerChunkView) : ChunkTicket :=
  ChunkTicket_player (view_distance v) simulation_distance.

(** The callbacks of [difference], on the sender and the connection. *)
Definition apply_difference (closed : bool) (changes : list (ChunkPos * bool)) (s : ChunkSender)
  (log : list (packet D)) : ChunkSender * list (packet D) :=
  foldl (fun '(s, log) '(pos, added) =>
    if added : bool then (mark_chunk_pending_to_send s pos, log)
    else let '(s, packets) := drop_chunk s closed pos in (s, log ++ packets)) (s, log) changes.

Definition added_of (changes : list (ChunkPos * bool)) : list ChunkPos :=
  (filter (fun c => c.2 = true) changes).*1.
Definition removed_of (changes : list (ChunkPos * bool)) : list ChunkPos :=
  (filter (fun c => c.2 = false) changes).*1.

Definition update_player_status (id : Z) (chunk : ChunkPos) (distance : Z) (t : tracking) : tracking :=
  match t_players t !! id with
  | None => t
  | Some p =>
      let new_view := mkView chunk distance in
      if decide (last_tracking_view p = Some new_view) then
        mkTracking (<[id := mkPlayer (last_tracking_view p) (chunk_sender p) (chunk_send_epoch p) chunk
                              (p_closed p) (p_log p)]> (t_players t)) (player_area_map t) (t_operations t)
      else
        let log := p_log p ++ [SetChunkCenter (cp_x chunk) (cp_y chunk)] in
        match last_tracking_view p with
        | Some last_view =>
            let changes := view_difference last_view new_view in
            let '(s, log) := apply_difference (p_closed p) changes (chunk_sender p) log in
            mkTracking (<[id := mkPlayer (Some new_view) s (chunk_send_epoch p) chunk (p_closed p) log]> (t_players t))
              (on_player_view_change (player_area_map t) id (added_of changes) (removed_of changes))
              (t_operations t ++ [OpRemove (v_center last_view) (view_ticket last_view); OpAdd chunk (view_ticket new_view)])
        | None =>
            let s := foldl mark_chunk_pending_to_send (chunk_sender p) (view_for_each new_view) in
            mkTracking (<[id := mkPlayer (Some new_view) s (chunk_send_epoch p) chunk (p_closed p) log]> (t_players t))
              (on_player_join (player_area_map t) id new_view)
              (t_operations t ++ [OpAdd chunk (view_ticket new_view)])
        end
  end.

(** [ChunkMap::remove_player]: the state the player leaves with, and the operations. *)
Definition remove_player (p : player) : player * list ChunkTicketOperation :=
  (mkPlayer None ChunkSender_default (u32 (chunk_send_epoch p + 1)) (mkChunkPos (2 ^ 31 - 1) (2 ^ 31 - 1)) (p_closed p) [],
   match last_tracking_view p with
   | Some v => [OpRemove (v_center v) (view_ticket v)]
   | None => []
   end).

(** Taking a player out of the world: chunk map, player list and spatial index. *)
Definition detach_player (id : Z) (t : tracking) : tracking :=
  match t_players t !! id with
  | None => t
  | Some p =>
      mkTracking (delete id (t_players t)) (remove_by_entity_id (player_area_map t) id)
        (t_operations t ++ (remove_player p).2)
  end.

(** ** The sending loop *)

Definition with_sender (p : player) (s : ChunkSender) (packets : list (packet D)) : player :=
  mkPlayer (last_tracking_view p) s (chunk_send_epoch p) (last_chunk_pos p) (p_closed p) (p_log p ++ packets).

Definition set_player (t : tracking) (id : Z) (p : player) : tracking :=
  mkTracking (<[id := p]> (t_players t)) (player_area_map t) (t_operations t).

(** Phase 1 for one player. *)
Definition send_prepare (holders : gmap Z ChunkHolder) (active : gmap ChunkPos Z) (id : Z) (t : tracking)
  : tracking * option PreparedBatch :=
  match t_players t !! id with
  | None => (t, None)
  | Some p =>
      let '(s, batch) := prepare_batch holders active (chunk_send_epoch p) (last_chunk_pos p) (chunk_sender p) in
      (set_player t id (with_sender p s []), batch)
  end.

(** Phase 3: nothing happens without a view or outside the world. *)
Definition send_commit (holders : gmap Z ChunkHolder) (id : Z) (batch : PreparedBatch)
  (encoded : list (EncodedChunk D)) (t : tracking) : tracking :=
  match t_players t !! id with
  | None => t
  | Some p =>
      match last_tracking_view p with
      | None => t
      | Some _ =>
          let '(s, packets) := commit_batch holders (chunk_send_epoch p) (chunk_sender p) batch encoded in
          set_player t id (with_sender p s packets)
      end
  end.

(** ** The system *)

(** A player that joins comes without a view and with a fresh sender. *)
Definition joining (p : player) : Prop :=
  last_tracking_view p = None /\ chunk_sender p = ChunkSender_default /\ p_log p = [].

(** The tracking state and the batch of the sending loop, which handles one player at a
    time. *)
Definition system : Type := tracking * option (Z * PreparedBatch).

(** Players join, move and leave. *)
Inductive player_step (t : tracking) : tracking -> Prop :=
| step_join id p : t_players t !! id = None -> joining p -> player_step t (set_player t id p)
| step_move id chunk distance : view_ok (mkView chunk distance) ->
    player_step t (update_player_status id chunk distance t)
| step_detach id : player_step t (detach_player id t).

(** Connections close and acknowledge batches. *)
Inductive connection_step (t : tracking) : tracking -> Prop :=
| step_close id p : t_players t !! id = Some p ->
    connection_step t
      (set_player t id (mkPlayer (last_tracking_view p) (chunk_sender p) (chunk_send_epoch p) (last_chunk_pos p)
                          true (p_log p)))
| step_acknowledge id p desired : t_players t !! id = Some p ->
    connection_step t (set_player t id (with_sender p (on_chunk_batch_received_by_client (chunk_sender p) desired).1 [])).

Inductive tracking_step : system -> system -> Prop :=
| step_player t t' b : player_step t t' -> tracking_step (t, b) (t', b)
| step_connection t t' b : connection_step t t' -> tracking_step (t, b) (t', b)
| step_prepare t holders active id :
    tracking_step (t, None)
      ((send_prepare holders active id t).1, pair id <$> (send_prepare holders active id t).2)
| step_commit t holders id batch encoded :
    tracking_step (t, Some (id, batch)) (send_commit holders id batch encoded t, None).

Definition tracking_initial : system := (mkTracking ∅ PlayerAreaMap_new [], None).

Definition tracking_reachable (s : system) : Prop := rtc tracking_step tracking_initial s.

(** ** What the client holds *)

(** A client receives a packet. *)
Definition client_receive (held : gset ChunkPos) (p : packet D) : gset ChunkPos :=
  match p with
  | LevelChunkWithLight x z _ => {[mkChunkPos x z]} ∪ held
  | ForgetLevelChunk pos => held ∖ {[PackedChunkPos_to_chunk_pos pos]}
  | _ => held
  end.

Definition client_chunks (log : list (packet D)) : gset ChunkPos := foldl client_receive ∅ log.

Lemma client_chunks_app l1 l2 : client_chunks (l1 ++ l2) = foldl client_receive (client_chunks l1) l2.
Proof. unfold client_chunks. by rewrite foldl_app. Qed.

(** The counters of a sender that only its own operations touch. *)
Definition same_window (s s' : ChunkSender) : Prop :=
  unacknowledged_batches s' = unacknowledged_batches s /\ max_unacknowledged_batches s' = max_unacknowledged_batches s.

Lemma drop_chunk_ok closed s log pos : ChunkPos_ok pos ->
  let '(s', packets) := drop_chunk (D := D) s closed pos in
  pending_chunks s' = pending_chunks s ∖ {[pos]} /\ sent_chunks s' = sent_chunks s ∖ {[pos]} /\ same_window s s' /\
  (closed = false -> client_chunks log = sent_chunks s -> client_chunks (log ++ packets) = sent_chunks s').
Proof.
  intros Hpos. unfold drop_chunk. split_and!; try done. intros -> Hlog. rewrite andb_true_r.
  case_bool_decide as Hin; rewrite client_chunks_app; simpl; rewrite Hlog.
  - by rewrite PackedChunkPos_roundtrip.
  - set_solver.
Qed.

Lemma apply_difference_ok closed changes : forall s log,
  NoDup changes.*1 -> (forall pos, (pos, true) ∈ changes -> pos ∉ sent_chunks s) ->
  (forall pos b, (pos, b) ∈ changes -> ChunkPos_ok pos) ->
  let '(s', log') := apply_difference closed changes s log in
  (forall pos, pos ∈ pending_chunks s' <-> (pos, true) ∈ changes \/ (pos ∈ pending_chunks s /\ (pos, false) ∉ changes)) /\
  (forall pos, pos ∈ sent_chunks s' <-> pos ∈ sent_chunks s /\ (pos, false) ∉ changes) /\ same_window s s' /\
  (closed = false -> client_chunks log = sent_chunks s -> client_chunks log' = sent_chunks s').
Proof.
  induction changes as [|[pos b] changes IH]; intros s log Hnd Hadd Hok; simpl.
  { split_and!; try done; intros pos; rewrite ?elem_of_nil; tauto. }
  apply NoDup_cons in Hnd as [Hpos Hnd]. simpl in Hpos.
  assert (forall b', (pos, b') ∉ changes) as Hfresh.
  { intros b' Hin. apply Hpos, list_elem_of_fmap. by exists (pos, b'). }
  assert (ChunkPos_ok pos) as Hp by (eapply Hok, elem_of_cons; by left).
  destruct b.
  - pose proof (Hadd pos ltac:(apply elem_of_cons; by left)) as Hns.
    specialize (IH (mark_chunk_pending_to_send s pos) log Hnd). unfold apply_difference in IH |- *. cbn [foldl].
    destruct (foldl _ _ changes) as [s' log'].
    destruct IH as (I1 & I2 & I3 & I4).
    { intros q Hq. simpl. pose proof (Hadd q ltac:(apply elem_of_cons; by right)). set_solver. }
    { intros q b' Hq. eapply Hok, elem_of_cons. by right. }
    simpl in *. split_and!; [| |exact I3|].
    + intros q. rewrite I1, !elem_of_cons, elem_of_union, elem_of_singleton.
      destruct (decide (q = pos)) as [->|Hq]; [specialize (Hfresh false)|]; intuition congruence.
    + intros q. rewrite I2, elem_of_cons, elem_of_difference, elem_of_singleton. naive_solver.
    + intros Hc Hl. apply I4; [done|]. set_solver.
  - pose proof (drop_chunk_ok closed s log pos Hp) as Hdrop. unfold apply_difference in IH |- *. cbn [foldl].
    destruct (drop_chunk s closed pos) as [s1 packets]. destruct Hdrop as (E1 & E2 & E3 & E4).
    specialize (IH s1 (log ++ packets) Hnd). destruct (foldl _ _ changes) as [s' log'].
    destruct IH as (I1 & I2 & I3 & I4).
    { intros q Hq. rewrite E2. pose proof (Hadd q ltac:(apply elem_of_cons; by right)). set_solver. }
    { intros q b' Hq. eapply Hok, elem_of_cons. by right. }
    split_and!; [| |destruct E3, I3; split; congruence|].
    + intros q. rewrite I1, E1, !elem_of_cons, elem_of_difference, elem_of_singleton.
      destruct (decide (q = pos)) as [->|Hq]; [specialize (Hfresh true)|]; intuition congruence.
    + intros q. rewrite I2, E2, elem_of_cons, elem_of_difference, elem_of_singleton. naive_solver.
    + intros Hc Hl. auto.
Qed.

Lemma mark_all_sent ps : forall s,
  pending_chunks (foldl mark_sent s ps) = pending_chunks s ∖ list_to_set ps /\
  sent_chunks (foldl mark_sent s ps) = list_to_set ps ∪ sent_chunks s /\ same_window s (foldl mark_sent s ps).
Proof.
  induction ps as [|pos ps IH]; intros s; simpl; [split_and!; [set_solver..|done]|].
  destruct (IH (mark_sent s pos)) as (-> & -> & Hw). simpl. split_and!; [set_solver..|exact Hw].
Qed.

Lemma client_chunk_packets (es : list (EncodedChunk D)) held :
  foldl client_receive held ((fun e => LevelChunkWithLight (cp_x (ec_pos e)) (cp_y (ec_pos e)) (ec_packet e)) <$> es) =
  list_to_set (ec_pos <$> es) ∪ held.
Proof.
  revert held. induction es as [|e es IH]; intros held; simpl; [set_solver|]. rewrite IH.
  destruct (ec_pos e). simpl. set_solver.
Qed.

Lemma valid_pending holders s batch (es : list (EncodedChunk D)) pos :
  pos ∈ ec_pos <$> valid_chunks holders s batch es -> pos ∈ pending_chunks s.
Proof.
  intros (e & -> & He)%list_elem_of_fmap. unfold valid_chunks in He. apply list_elem_of_filter in He as [He _].
  unfold still_valid in He. apply andb_true_iff in He as [He _]. by apply bool_decide_eq_true in He.
Qed.

(** The window of unacknowledged batches; [room] is left for one more. *)
Definition window_ok (s : ChunkSender) : Prop :=
  0 <= unacknowledged_batches s <= max_unacknowledged_batches s /\ 1 <= max_unacknowledged_batches s <= 10.
Definition room (s : ChunkSender) : Prop := unacknowledged_batches s < max_unacknowledged_batches s.

Lemma commit_batch_ok holders epoch s batch es log :
  let '(s', packets) := commit_batch holders epoch s batch es in
  (forall pos, pos ∈ pending_chunks s' \/ pos ∈ sent_chunks s' <-> pos ∈ pending_chunks s \/ pos ∈ sent_chunks s) /\
  (pending_chunks s ## sent_chunks s -> pending_chunks s' ## sent_chunks s') /\
  (client_chunks log = sent_chunks s -> client_chunks (log ++ packets) = sent_chunks s') /\
  (window_ok s -> room s -> window_ok s').
Proof.
  unfold commit_batch. destruct (negb (epoch =? b_epoch batch)); [by rewrite app_nil_r|].
  destruct (valid_chunks holders s batch es) as [|e0 valid0] eqn:Ev; [by rewrite app_nil_r|]. rewrite <- Ev. clear e0 valid0 Ev.
  set (valid := valid_chunks holders s batch es). set (s1 := mkSender _ _ _ _ _ _).
  assert (forall pos, pos ∈ ec_pos <$> valid -> pos ∈ pending_chunks s) as Hv by (intros pos; apply valid_pending).
  destruct (mark_all_sent (ec_pos <$> valid) s1) as (-> & -> & [W1 W2]). cbn [pending_chunks sent_chunks s1]. split_and!.
  - intros pos. rewrite elem_of_difference, elem_of_union, elem_of_list_to_set. specialize (Hv pos).
    destruct (decide (pos ∈ ec_pos <$> valid)); tauto.
  - set_solver.
  - intros Hl. rewrite client_chunks_app, Hl. cbn [app foldl]. rewrite foldl_app, client_chunk_packets. done.
  - unfold window_ok, room. rewrite W1, W2. cbn [unacknowledged_batches max_unacknowledged_batches s1].
    intros Hw Hr. unfold u16. rewrite wrapu_small by (unfold in_u; change (2 ^ 16) with 65536; lia). lia.
Qed.

Lemma prepare_batch_ok holders active epoch player s :
  let '(s', batch) := prepare_batch holders active epoch player s in
  pending_chunks s' = pending_chunks s /\ sent_chunks s' = sent_chunks s /\ same_window s s' /\
  (is_Some batch -> room s').
Proof.
  unfold prepare_batch, room. destruct (Z.leb_spec (max_unacknowledged_batches s) (unacknowledged_batches s)); [by split_and!|].
  destruct (SFltb _ _ || _); [by split_and!|]. destruct (collect_candidates _ _ _ _); by split_and!.
Qed.

Lemma acknowledge_ok s desired :
  let s' := (on_chunk_batch_received_by_client s desired).1 in
  pending_chunks s' = pending_chunks s /\ sent_chunks s' = sent_chunks s /\ (window_ok s -> window_ok s') /\
  (window_ok s -> room s -> room s').
Proof.
  unfold on_chunk_batch_received_by_client, window_ok, room. destruct (Z.eqb_spec (unacknowledged_batches s) 0); [done|].
  simpl. unfold saturating_sub, MAX_UNACKNOWLEDGED_BATCHES. split_and!; [done|done|lia|lia].
Qed.

(** ** The invariant *)

(** The chunks of the view are those waiting and those sent, and the client has the
    latter. *)
Record session_ok (p : player) : Prop := {
  so_view : match last_tracking_view p with
            | None => pending_chunks (chunk_sender p) = ∅ /\ sent_chunks (chunk_sender p) = ∅
            | Some v => view_ok v /\
                forall pos, pos ∈ pending_chunks (chunk_sender p) \/ pos ∈ sent_chunks (chunk_sender p) <-> sees v pos
            end;
  so_disjoint : pending_chunks (chunk_sender p) ## sent_chunks (chunk_sender p);
  so_client : p_closed p = false -> client_chunks (p_log p) = sent_chunks (chunk_sender p);
  so_window : window_ok (chunk_sender p);
}.

(** What each player sees, and the tickets of the views. *)
Definition seen_by (p : player) : option (gset ChunkPos) :=
  v ← last_tracking_view p; Some (list_to_set (view_for_each v)).
Definition tracked_views (ps : gmap Z player) : gmap Z (gset ChunkPos) := omap seen_by ps.

Definition ticket_of (p : player) : option (ChunkPos * ChunkTicket) :=
  v ← last_tracking_view p; Some (v_center v, view_ticket v).
Definition player_tickets (ps : gmap Z player) : list (ChunkPos * ChunkTicket) :=
  omap ticket_of (map_to_list ps).*2.

Definition added_tickets (ops : list ChunkTicketOperation) : list (ChunkPos * ChunkTicket) :=
  omap (fun op => match op with OpAdd pos t => Some (pos, t) | OpRemove _ _ => None end) ops.
Definition removed_tickets (ops : list ChunkTicketOperation) : list (ChunkPos * ChunkTicket) :=
  omap (fun op => match op with OpRemove pos t => Some (pos, t) | OpAdd _ _ => None end) ops.

Record system_ok (s : system) : Prop := {
  sy_sessions : forall id p, t_players s.1 !! id = Some p -> session_ok p;
  sy_loop : forall id batch p, s.2 = Some (id, batch) -> t_players s.1 !! id = Some p -> room (chunk_sender p);
  sy_area : area_ok (player_area_map s.1) (tracked_views (t_players s.1));
  sy_tickets : added_tickets (t_operations s.1) ≡ₚ removed_tickets (t_operations s.1) ++ player_tickets (t_players s.1);
}.

Lemma player_tickets_insert ps id p :
  player_tickets (<[id := p]> ps) ≡ₚ option_list (ticket_of p) ++ player_tickets (delete id ps).
Proof.
  unfold player_tickets. rewrite <- insert_delete_eq, map_to_list_insert by apply lookup_delete_eq.
  simpl. by destruct (ticket_of p).
Qed.

Lemma player_tickets_lookup ps id p : ps !! id = Some p ->
  player_tickets ps ≡ₚ option_list (ticket_of p) ++ player_tickets (delete id ps).
Proof. intros Hp. rewrite <- player_tickets_insert. by rewrite insert_id. Qed.

(** A step that only changes the sender of one player. *)
Lemma set_player_ok t b b' id p p' : system_ok (t, b) -> t_players t !! id = Some p ->
  last_tracking_view p' = last_tracking_view p -> session_ok p' ->
  (forall id' batch p'', b' = Some (id', batch) -> t_players t !! id' = Some p'' ->
     room (if decide (id' = id) then chunk_sender p' else chunk_sender p'')) ->
  system_ok (set_player t id p', b').
Proof.
  intros [H1 H2 H3 H4] Hp Hv Hs Hroom. assert (tracked_views (<[id := p']> (t_players t)) = tracked_views (t_players t)) as Et.
  { apply map_eq. intros x. unfold tracked_views. rewrite !lookup_omap. destruct (decide (x = id)) as [->|Hx].
    - rewrite lookup_insert_eq, Hp. simpl. unfold seen_by. by rewrite Hv.
    - by rewrite lookup_insert_ne. }
  split; simpl.
  - intros x q [[<- <-]|[_ Hq]]%lookup_insert_Some; [done|by eapply H1].
  - intros x batch q Hb [[<- <-]|[Hx Hq]]%lookup_insert_Some.
    + specialize (Hroom id batch p Hb Hp). by rewrite decide_True in Hroom.
    + specialize (Hroom x batch q Hb Hq). by rewrite decide_False in Hroom.
  - by rewrite Et.
  - simpl in H4. rewrite H4, (player_tickets_insert _ id p'), (player_tickets_lookup _ id p Hp).
    unfold ticket_of. by rewrite Hv.
Qed.

Lemma tracked_views_insert ps id p cs : seen_by p = Some cs ->
  tracked_views (<[id := p]> ps) = <[id := cs]> (tracked_views ps).
Proof.
  intros Hp. apply map_eq. intros x. unfold tracked_views. rewrite lookup_omap. destruct (decide (x = id)) as [->|Hx].
  - by rewrite !lookup_insert_eq.
  - by rewrite !lookup_insert_ne, lookup_omap.
Qed.

Lemma tracked_views_delete ps id : tracked_views (delete id ps) = delete id (tracked_views ps).
Proof.
  apply map_eq. intros x. unfold tracked_views. rewrite lookup_omap. destruct (decide (x = id)) as [->|Hx].
  - by rewrite !lookup_delete_eq.
  - by rewrite !lookup_delete_ne, lookup_omap.
Qed.

(** A player moves to a new view: its old ticket, if any, is given back and one is taken. *)
Lemma change_view_ok t b id p p' v area ops : system_ok (t, b) -> t_players t !! id = Some p ->
  last_tracking_view p' = Some v -> session_ok p' -> same_window (chunk_sender p) (chunk_sender p') ->
  area_ok area (<[id := list_to_set (view_for_each v)]> (tracked_views (t_players t))) ->
  added_tickets ops = added_tickets (t_operations t) ++ [(v_center v, view_ticket v)] ->
  removed_tickets ops = removed_tickets (t_operations t) ++ option_list (ticket_of p) ->
  system_ok (mkTracking (<[id := p']> (t_players t)) area ops, b).
Proof.
  intros [H1 H2 H3 H4] Hp Hv Hs [Hw1 Hw2] Harea Hadd Hrem. split; simpl.
  - intros x q [[<- <-]|[_ Hq]]%lookup_insert_Some; [done|by eapply H1].
  - intros x batch q Hb [[<- <-]|[_ Hq]]%lookup_insert_Some; [|by eapply H2].
    specialize (H2 id batch p Hb Hp). unfold room in *. by rewrite Hw1, Hw2.
  - rewrite (tracked_views_insert _ _ _ (list_to_set (view_for_each v))); [done|]. unfold seen_by. by rewrite Hv.
  - simpl in H4. rewrite Hadd, Hrem, H4, (player_tickets_insert _ id p'), (player_tickets_lookup _ id p Hp).
    unfold ticket_of at 3. rewrite Hv. simpl. rewrite <- !app_assoc. apply Permutation_app_head, Permutation_app_head.
    by rewrite <- Permutation_cons_append.
Qed.

(** Positions in a view can be packed. *)
Lemma sees_pos_ok v pos : view_ok v -> sees v pos -> ChunkPos_ok pos.
Proof.
  intros Hv H. destruct (sees_in_square v pos Hv H) as [Hx Hz]. destruct (square_central v pos Hv Hx Hz) as [? ?].
  unfold ChunkPos_ok, in_s. change (2 ^ 30) with 1073741824 in *. change (2 ^ (32 - 1)) with 2147483648. lia.
Qed.

Lemma elem_of_added changes pos : pos ∈ added_of changes <-> (pos, true) ∈ changes.
Proof.
  unfold added_of. rewrite list_elem_of_fmap. split.
  - intros ([q b] & -> & [Hb Hin]%list_elem_of_filter). simpl in *. by subst.
  - intros H. exists (pos, true). by rewrite list_elem_of_filter.
Qed.

Lemma elem_of_removed changes pos : pos ∈ removed_of changes <-> (pos, false) ∈ changes.
Proof.
  unfold removed_of. rewrite list_elem_of_fmap. split.
  - intros ([q b] & -> & [Hb Hin]%list_elem_of_filter). simpl in *. by subst.
  - intros H. exists (pos, false). by rewrite list_elem_of_filter.
Qed.

(** A player with a view moves. *)
Lemma move_session p v new log : session_ok p -> last_tracking_view p = Some v -> view_ok new ->
  client_chunks log = client_chunks (p_log p) ->
  let '(s, log) := apply_difference (p_closed p) (view_difference v new) (chunk_sender p) log in
  session_ok (mkPlayer (Some new) s (chunk_send_epoch p) (v_center new) (p_closed p) log) /\ same_window (chunk_sender p) s.
Proof.
  intros [H1 H2 H3 H4] Hv Hn Hlog. rewrite Hv in H1. destruct H1 as [Hold H1].
  pose proof (apply_difference_ok (p_closed p) (view_difference v new) (chunk_sender p) log) as H.
  destruct (apply_difference _ _ _ _) as [s log']. destruct H as (D1 & D2 & D3 & D4).
  - by apply NoDup_view_difference.
  - intros pos Hpos%view_difference_elem; [|done..]. intros Hin. apply (proj2 Hpos), H1. by right.
  - intros pos b Hpos%view_difference_elem; [|done..].
    destruct b, Hpos as [Hpos _]; by eapply sees_pos_ok, Hpos.
  - assert (forall pos, (pos, true) ∈ view_difference v new <-> sees new pos /\ ~ sees v pos) as T
      by (intros pos; exact (view_difference_elem v new pos true Hold Hn)).
    assert (forall pos, (pos, false) ∈ view_difference v new <-> sees v pos /\ ~ sees new pos) as F
      by (intros pos; exact (view_difference_elem v new pos false Hold Hn)).
    split; [|done]. split; simpl.
    + split; [done|]. intros pos. rewrite D1, D2, T, F. specialize (H1 pos).
      destruct (decide (sees v pos)), (decide (sees new pos)); tauto.
    + intros pos Hp Hs. rewrite D1, T in Hp. rewrite D2 in Hs. specialize (H1 pos). specialize (H2 pos). naive_solver.
    + intros Hc. apply D4; [done|]. rewrite Hlog. by apply H3.
    + destruct D3 as [E1 E2]. unfold window_ok in *. by rewrite E1, E2.
Qed.

Lemma mark_all_pending ps : forall s,
  pending_chunks (foldl mark_chunk_pending_to_send s ps) = list_to_set ps ∪ pending_chunks s /\
  sent_chunks (foldl mark_chunk_pending_to_send s ps) = sent_chunks s ∖ list_to_set ps /\
  same_window s (foldl mark_chunk_pending_to_send s ps).
Proof.
  induction ps as [|pos ps IH]; intros s; simpl; [split_and!; [set_solver..|done]|].
  destruct (IH (mark_chunk_pending_to_send s pos)) as (-> & -> & Hw). simpl. split_and!; [set_solver..|exact Hw].
Qed.

(** A player gets its first view. *)
Lemma join_session p new log : session_ok p -> last_tracking_view p = None -> view_ok new ->
  client_chunks log = client_chunks (p_log p) ->
  let s := foldl mark_chunk_pending_to_send (chunk_sender p) (view_for_each new) in
  session_ok (mkPlayer (Some new) s (chunk_send_epoch p) (v_center new) (p_closed p) log) /\ same_window (chunk_sender p) s.
Proof.
  intros [H1 H2 H3 H4] Hv Hn Hlog s. rewrite Hv in H1. destruct H1 as [Hp Hs].
  destruct (mark_all_pending (view_for_each new) (chunk_sender p)) as (E1 & E2 & E3). fold s in E1, E2, E3.
  rewrite Hp in E1. rewrite Hs in E2. clearbody s. split; [|done]. split; cbn [last_tracking_view chunk_sender p_closed p_log].
  - split; [done|]. intros pos. rewrite E1, E2, <- elem_of_view_for_each by done.
    rewrite elem_of_union, elem_of_difference, elem_of_list_to_set, elem_of_empty. tauto.
  - rewrite E2. intros pos _ [[]%elem_of_empty _]%elem_of_difference.
  - intros Hc. rewrite Hlog, H3, Hs, E2 by done. symmetry. apply set_eq. intros pos.
    rewrite elem_of_difference, elem_of_empty. tauto.
  - destruct E3 as [W1 W2]. unfold window_ok in *. by rewrite W1, W2.
Qed.

Lemma client_center log x z : client_chunks (log ++ [SetChunkCenter x z]) = client_chunks log.
Proof. by rewrite client_chunks_app. Qed.

Lemma update_player_status_ok t b id chunk distance : system_ok (t, b) -> view_ok (mkView chunk distance) ->
  system_ok (update_player_status id chunk distance t, b).
Proof.
  intros Hok Hn. unfold update_player_status. destruct (t_players t !! id) as [p|] eqn:Hp; [|done].
  pose proof (sy_sessions _ Hok id p Hp) as Hs. case_decide as Ev.
  { apply (set_player_ok t b b id p); [done..| |].
    - destruct Hs as [S1 S2 S3 S4]. split; done.
    - intros id' batch q Hb Hq. destruct (decide (id' = id)) as [->|_]; [exact (sy_loop _ Hok _ _ _ Hb Hp)|exact (sy_loop _ Hok _ _ _ Hb Hq)]. }
  set (log := p_log p ++ _). assert (client_chunks log = client_chunks (p_log p)) as Hlog by apply client_center.
  destruct (last_tracking_view p) as [v|] eqn:Hv.
  - pose proof (move_session p v (mkView chunk distance) log Hs Hv Hn Hlog) as Hm.
    destruct (apply_difference _ _ _ _) as [s log']. destruct Hm as [Hm Hw].
    apply (change_view_ok t b id p _ (mkView chunk distance)); try done.
    + pose proof (sy_area _ Hok) as Ha. simpl in Ha.
      assert (tracked_views (t_players t) !! id = Some (list_to_set (view_for_each v))) as Ht.
      { unfold tracked_views. rewrite lookup_omap, Hp. simpl. unfold seen_by. by rewrite Hv. }
      pose proof (on_player_view_change_ok _ _ id _ (added_of (view_difference v (mkView chunk distance)))
        (removed_of (view_difference v (mkView chunk distance))) Ha Ht) as H.
      assert (view_ok v) as Hold by (destruct Hs as [S1 _ _ _]; rewrite Hv in S1; apply S1).
      match type of H with area_ok _ (<[_ := ?cs]> _) => replace (list_to_set (view_for_each (mkView chunk distance))) with cs; [done|] end.
      apply set_eq. intros pos. rewrite elem_of_union, elem_of_difference, !elem_of_list_to_set, !elem_of_view_for_each by done.
      rewrite elem_of_added, elem_of_removed, !view_difference_elem by done.
      destruct (decide (sees v pos)), (decide (sees (mkView chunk distance) pos)); tauto.
    + unfold added_tickets. by rewrite omap_app.
    + unfold removed_tickets, ticket_of. by rewrite omap_app, Hv.
  - pose proof (join_session p (mkView chunk distance) log Hs Hv Hn Hlog) as [Hm Hw].
    apply (change_view_ok t b id p _ (mkView chunk distance)); try done.
    + apply on_player_join_ok; [apply (sy_area _ Hok)|]. unfold tracked_views. rewrite lookup_omap, Hp. simpl.
      unfold seen_by. by rewrite Hv.
    + unfold added_tickets. by rewrite omap_app.
    + unfold removed_tickets, ticket_of. by rewrite omap_app, Hv.
Qed.

Lemma detach_player_ok t b id : system_ok (t, b) -> system_ok (detach_player id t, b).
Proof.
  intros Hok. unfold detach_player. destruct (t_players t !! id) as [p|] eqn:Hp; [|done].
  destruct Hok as [H1 H2 H3 H4]. split; simpl in *.
  - intros x q [_ Hq]%lookup_delete_Some. by eapply H1.
  - intros x batch q Hb [_ Hq]%lookup_delete_Some. by eapply H2.
  - rewrite tracked_views_delete. by apply remove_by_entity_id_ok.
  - unfold added_tickets, removed_tickets in *. rewrite !omap_app, H4, (player_tickets_lookup _ id p Hp).
    unfold ticket_of. destruct (last_tracking_view p); simpl; rewrite ?app_nil_r, <- ?app_assoc; done.
Qed.

(** A step that only changes the sender's window or moves chunks from waiting to sent. *)
Lemma with_sender_session p s packets : session_ok p ->
  (forall pos, pos ∈ pending_chunks s \/ pos ∈ sent_chunks s <->
     pos ∈ pending_chunks (chunk_sender p) \/ pos ∈ sent_chunks (chunk_sender p)) ->
  pending_chunks s ## sent_chunks s ->
  (client_chunks (p_log p) = sent_chunks (chunk_sender p) -> client_chunks (p_log p ++ packets) = sent_chunks s) ->
  window_ok s -> (last_tracking_view p = None -> pending_chunks s = ∅ /\ sent_chunks s = ∅) ->
  session_ok (with_sender p s packets).
Proof.
  intros [H1 H2 H3 H4] Hall Hd Hc Hw Hn. split; simpl; [|done|by intros ?; apply Hc, H3|done].
  destruct (last_tracking_view p) as [v|]; [|by apply Hn]. destruct H1 as [Hv H1]. split; [done|].
  intros pos. by rewrite Hall.
Qed.

Lemma joining_ok t b id p : system_ok (t, b) -> t_players t !! id = None -> joining p ->
  system_ok (set_player t id p, b).
Proof.
  intros [H1 H2 H3 H4] Hid (Hv & Hs & Hl). split; simpl in *.
  - intros x q [[<- <-]|[_ Hq]]%lookup_insert_Some; [|by eapply H1].
    split; rewrite ?Hv, ?Hs, ?Hl; [done|by intros ?|done|]. unfold window_ok. simpl. lia.
  - intros x batch q Hb [[<- <-]|[_ Hq]]%lookup_insert_Some; [|by eapply H2]. rewrite Hs. done.
  - replace (tracked_views (<[id := p]> (t_players t))) with (tracked_views (t_players t)); [done|].
    apply map_eq. intros x. unfold tracked_views. rewrite !lookup_omap. destruct (decide (x = id)) as [->|Hx].
    + rewrite lookup_insert_eq, Hid. simpl. unfold seen_by. by rewrite Hv.
    + by rewrite lookup_insert_ne.
  - rewrite H4, player_tickets_insert. unfold ticket_of. rewrite Hv. simpl. by rewrite delete_id.
Qed.

Lemma room_others t b id p s : system_ok (t, b) -> t_players t !! id = Some p ->
  (room (chunk_sender p) -> room s) ->
  forall id' batch q, b = Some (id', batch) -> t_players t !! id' = Some q ->
    room (if decide (id' = id) then s else chunk_sender q).
Proof.
  intros Hok Hp Hroom id' batch q Hb Hq. destruct (decide (id' = id)) as [->|_].
  - exact (Hroom (sy_loop _ Hok _ _ _ Hb Hp)).
  - exact (sy_loop _ Hok _ _ _ Hb Hq).
Qed.

Lemma tracking_step_ok s s' : tracking_step s s' -> system_ok s -> system_ok s'.
Proof.
  intros Hstep. destruct Hstep as [t t' b [id p Hid Hj|id chunk distance Hv|id]|t t' b [id p Hp|id p desired Hp]
    |t holders active id|t holders id batch encoded]; intros Hok.
  - by apply joining_ok.
  - by apply update_player_status_ok.
  - by apply detach_player_ok.
  - destruct (sy_sessions _ Hok id p Hp) as [S1 S2 S3 S4]. apply (set_player_ok t b b id p); [done..|by split|].
    intros id' batch q. by apply (room_others t b id p (chunk_sender p) Hok Hp).
  - destruct (acknowledge_ok (chunk_sender p) desired) as (E1 & E2 & E3 & E4).
    pose proof (sy_sessions _ Hok id p Hp) as Hs. apply (set_player_ok t b b id p); [done..| |].
    + apply with_sender_session; try done; rewrite ?E1, ?E2; [done|apply Hs|by rewrite app_nil_r|by apply E3, Hs|].
      intros Hn. destruct Hs as [S1 _ _ _]. by rewrite Hn in S1.
    + intros id' batch q. apply (room_others t b id p _ Hok Hp). by apply E4, Hs.
  - unfold send_prepare. destruct (t_players t !! id) as [p|] eqn:Hp; [|done].
    pose proof (prepare_batch_ok holders active (chunk_send_epoch p) (last_chunk_pos p) (chunk_sender p)) as H.
    destruct (prepare_batch _ _ _ _ _) as [s o]. destruct H as (E1 & E2 & [E3 E4] & E5).
    pose proof (sy_sessions _ Hok id p Hp) as Hs. apply (set_player_ok t None _ id p); [done..| |].
    + apply with_sender_session; try done; rewrite ?E1, ?E2; [done|apply Hs|by rewrite app_nil_r| |].
      * unfold window_ok. rewrite E3, E4. apply Hs.
      * intros Hn. destruct Hs as [S1 _ _ _]. by rewrite Hn in S1.
    + intros id' batch' q (batch & Ho & [= <- <-])%fmap_Some Hq. simpl in Ho. rewrite decide_True by done. apply E5. by rewrite Ho.
  - unfold send_commit. destruct (t_players t !! id) as [p|] eqn:Hp; [|by destruct Hok; split].
    destruct (last_tracking_view p) as [v|] eqn:Hv; [|by destruct Hok; split].
    pose proof (commit_batch_ok holders (chunk_send_epoch p) (chunk_sender p) batch encoded (p_log p)) as H.
    destruct (commit_batch _ _ _ _ _) as [s packets]. destruct H as (E1 & E2 & E3 & E4).
    pose proof (sy_sessions _ Hok id p Hp) as Hs. apply (set_player_ok t (Some (id, batch)) None id p); [done..| |done].
    apply with_sender_session; try done; [apply E2, Hs|apply E4; [apply Hs|by eapply (sy_loop _ Hok)]|congruence].
Qed.

Lemma tracking_initial_ok : system_ok tracking_initial.
Proof. split; simpl; [done|done|apply area_new_ok|done]. Qed.

Lemma tracking_reachable_ok s : tracking_reachable s -> system_ok s.
Proof.
  unfold tracking_reachable. generalize tracking_initial_ok. generalize tracking_initial. intros s0 H0 H.
  induction H as [s0|s0 s1 s2 Hstep _ IH]; [done|]. by apply IH, (tracking_step_ok s0).
Qed.

(** C26. However players join, move, acknowledge, disconnect and leave while batches are on the
    way: an open client holds exactly the chunks the server believes it sent; these and the
    ones still waiting are disjoint and together exactly the player's view; and never more
    than ten batches are unacknowledged. *)
Theorem client_chunks_follow_view s id p : tracking_reachable s -> t_players s.1 !! id = Some p ->
  (p_closed p = false -> client_chunks (p_log p) = sent_chunks (chunk_sender p)) /\
  pending_chunks (chunk_sender p) ## sent_chunks (chunk_sender p) /\
  (forall pos, pos ∈ pending_chunks (chunk_sender p) \/ pos ∈ sent_chunks (chunk_sender p) <->
     exists v, last_tracking_view p = Some v /\ sees v pos) /\
  0 <= unacknowledged_batches (chunk_sender p) <= 10.
Proof.
  intros Hs Hp. destruct (sy_sessions _ (tracking_reachable_ok s Hs) id p Hp) as [H1 H2 H3 H4].
  split_and!; [done|done| |unfold window_ok in H4; lia|unfold window_ok in H4; lia].
  intros pos. destruct (last_tracking_view p) as [v|].
  - destruct H1 as [_ H1]. rewrite H1. naive_solver.
  - destruct H1 as [-> ->]. rewrite elem_of_empty. naive_solver.
Qed.

(** The spatial index names for every chunk exactly the players that see it, and the ticket
    operations that were queued leave, beside those given back, exactly one ticket per view:
    at its centre, for its distance. *)
Theorem tracked_views_indexed s : tracking_reachable s ->
  (forall c id, id ∈ get_tracking_players (player_area_map s.1) c <->
     exists p v, t_players s.1 !! id = Some p /\ last_tracking_view p = Some v /\ sees v c) /\
  added_tickets (t_operations s.1) ≡ₚ
    removed_tickets (t_operations s.1) ++
    omap (fun p => v ← last_tracking_view p; Some (v_center v, ChunkTicket_player (view_distance v) simulation_distance))
      (map_to_list (t_players s.1)).*2.
Proof.
  intros Hs%tracking_reachable_ok. split; [|exact (sy_tickets _ Hs)]. intros c id.
  rewrite (get_tracking_players_spec _ _ _ _ (sy_area _ Hs)). unfold tracked_views. rewrite lookup_omap. split.
  - intros (cs & E & Hc). destruct (t_players s.1 !! id) as [p|] eqn:Hp; [|done]. simpl in E. unfold seen_by in E.
    destruct (last_tracking_view p) as [v|] eqn:Hv; [|done]. injection E as <-. exists p, v. split_and!; [done..|].
    destruct (sy_sessions _ Hs id p Hp) as [S1 _ _ _]. rewrite Hv in S1.
    apply elem_of_list_to_set in Hc. apply elem_of_view_for_each in Hc; [done|apply S1].
  - intros (p & v & Hp & Hv & Hc). rewrite Hp. simpl. unfold seen_by. rewrite Hv. eexists. split; [done|].
    destruct (sy_sessions _ Hs id p Hp) as [S1 _ _ _]. rewrite Hv in S1.
    apply elem_of_list_to_set, elem_of_view_for_each; [apply S1|done].
Qed.
End Tracking.

(** ** A concrete run *)

(** A player joins, sees the chunks around the origin, and is sent the middle one. *)
Definition example_holder : ChunkHolder :=
  set_h_readiness 5 (set_h_published 12 (new_with_full_publications (mkChunkPos 0 0) 128 None (-64) 384)).

Definition example_player : player (D := unit) :=
  mkPlayer None ChunkSender_default 0 (mkChunkPos 0 0) false [].

Definition example_joined : tracking :=
  update_player_status 10 1 (mkChunkPos 0 0) 2 (set_player (mkTracking ∅ PlayerAreaMap_new []) 1 example_player).

Definition example_prepared : tracking (D := unit) * option PreparedBatch :=
  send_prepare {[7 := example_holder]} {[mkChunkPos 0 0 := 7]} 1 example_joined.

Definition example_sent : tracking (D := unit) :=
  send_commit {[7 := example_holder]} 1 (default (mkBatch [] 0) example_prepared.2)
    [mkEncoded (mkChunkPos 0 0) tt 0 7 5] example_prepared.1.

Lemma example_sent_reachable : tracking_reachable 10 (example_sent, None).
Proof.
  eapply rtc_l; [apply (step_player 10), (step_join 10 _ 1 example_player); [done|by split_and!]|].
  eapply rtc_l; [apply (step_player 10), (step_move 10 _ 1 (mkChunkPos 0 0) 2)|].
  { unfold view_ok, in_u. cbn [v_center view_distance cp_x cp_y]. lia. }
  eapply rtc_l; [apply (step_prepare 10 example_joined {[7 := example_holder]} {[mkChunkPos 0 0 := 7]} 1)|].
  fold example_prepared. replace example_prepared.2 with (Some (default (mkBatch [] 0) example_prepared.2)) by (vm_compute; reflexivity).
  apply rtc_once, (step_commit 10).
Qed.

Definition example_client : player (D := unit) := default example_player (t_players example_sent !! 1).

Lemma example_client_facts :
  t_players example_sent !! 1 = Some example_client /\ p_closed example_client = false /\
  client_chunks (p_log example_client) = {[mkChunkPos 0 0]}.
Proof. split; [apply run_default; vm_compute; reflexivity|]. split; vm_compute; reflexivity. Qed.

Lemma client_chunks_follow_view_witness :
  client_chunks (p_log example_client) = {[mkChunkPos 0 0]} /\
  client_chunks (p_log example_client) = sent_chunks (chunk_sender example_client).
Proof.
  split; [apply example_client_facts|].
  apply (client_chunks_follow_view 10 (example_sent, None) 1 _ example_sent_reachable); apply example_client_facts.
Defined.

Lemma tracked_views_indexed_witness :
  1 ∈ get_tracking_players (player_area_map example_sent) (mkChunkPos 3 0) /\
  exists p v, t_players example_sent !! 1 = Some p /\ last_tracking_view p = Some v /\ sees v (mkChunkPos 3 0).
Proof.
  assert (1 ∈ get_tracking_players (player_area_map example_sent) (mkChunkPos 3 0)) as H.
  { apply list_elem_of_In. vm_compute. by left. }
  split; [exact H|]. exact (proj1 (proj1 (tracked_views_indexed 10 (example_sent, None) example_sent_reachable) (mkChunkPos 3 0) 1) H).
Defined.
