(* ===== verification/ChunkBroadcast.v ===== *)
(** * Broadcasting block changes

    Models the pending changes of [ChunkHolder] (block and light changes, the content
    revision, the broadcast flags), [ChunkMap::block_changed] and
    [ChunkMap::broadcast_changed_chunks], and the encoding phase of the sending loop, as two
    threads over shared state.  The game thread writes blocks, reports them and broadcasts;
    the sending loop snapshots whole chunks for new viewers; light workers queue holders.
    Packets may fail to be encoded, which loses the changes they were for.  The model covers
    chunks that keep their holders: holders are neither replaced nor dropped. *)

From stdpp Require Import sorting.
From S2P Require Import Prelude Positions ChunkPyramid ChunkTickets ChunkHolder.
From S2P Require Import PlayerView ChunkSender PlayerTracking.

(** ** Pending changes of a holder *)

Definition set_tracker (h : ChunkHolder) (f : ChangeTracker -> ChangeTracker) : ChunkHolder :=
  set_h_changes (f (h_changes h)) h.

(** The section a change is recorded in; [None] when it is not recorded. *)
Definition changed_section (h : ChunkHolder) (pos : BlockPos) : option nat :=
  if negb (word_is_block_ticking (h_readiness h)) || (bp_y pos <? h_min_y h) || (h_min_y h + h_height h <=? bp_y pos)
  then None
  else
    let section_index := Z.to_nat (Z.quot (bp_y pos - h_min_y h) 16) in
    if decide (section_index < length (changed_blocks_per_section (h_changes h)))%nat then Some section_index else None.

Definition insert_changed (i : nat) (packed : Z) (t : ChangeTracker) : ChangeTracker :=
  mkTracker (has_changed_sections t) (queued_for_broadcast t) (packet_content_revision t)
    (alter (union {[packed]}) i (changed_blocks_per_section t)) (changed_sky_light t) (changed_block_light t).

Definition mark_packet_content_changed (t : ChangeTracker) : ChangeTracker :=
  mkTracker (has_changed_sections t) (queued_for_broadcast t) (u64 (packet_content_revision t + 1))
    (changed_blocks_per_section t) (changed_sky_light t) (changed_block_light t).

(** Sets both flags. *)
Definition flag_changed (t : ChangeTracker) : ChangeTracker :=
  mkTracker true true (packet_content_revision t) (changed_blocks_per_section t) (changed_sky_light t)
    (changed_block_light t).

Definition set_queued (b : bool) (t : ChangeTracker) : ChangeTracker :=
  mkTracker (has_changed_sections t) b (packet_content_revision t) (changed_blocks_per_section t)
    (changed_sky_light t) (changed_block_light t).

(** The result tells whether the holder has to be queued. *)
Definition block_changed (h : ChunkHolder) (pos : BlockPos) : ChunkHolder * bool :=
  match changed_section h pos with
  | None => (h, false)
  | Some i =>
      let h := set_tracker h (insert_changed i (PackedSectionBlockPos_from_block_pos pos)) in
      let h := set_tracker h mark_packet_content_changed in
      (set_tracker h flag_changed, negb (queued_for_broadcast (h_changes h)))
  end.

Definition clear_broadcast_queued (h : ChunkHolder) : ChunkHolder := set_tracker h (set_queued false).

(** The non-empty sections with their index, from index [i] on. *)
Fixpoint nonempty_sections (i : nat) (l : list (gset Z)) : list (nat * gset Z) :=
  match l with
  | [] => []
  | s :: l' => if decide (s = ∅) then nonempty_sections (S i) l' else (i, s) :: nonempty_sections (S i) l'
  end.

Definition take_changed_blocks (h : ChunkHolder) : ChunkHolder * list (nat * gset Z) :=
  if has_changed_sections (h_changes h) then
    (set_tracker h (fun t => mkTracker false (queued_for_broadcast t) (packet_content_revision t)
       ((fun _ => ∅) <$> changed_blocks_per_section t) (changed_sky_light t) (changed_block_light t)),
     nonempty_sections 0 (changed_blocks_per_section (h_changes h)))
  else (h, []).

Definition take_changed_light_sections (h : ChunkHolder) : ChunkHolder * (gset SectionPos * gset SectionPos) :=
  (set_tracker h (fun t => mkTracker (has_changed_sections t) (queued_for_broadcast t) (packet_content_revision t)
     (changed_blocks_per_section t) ∅ ∅), (changed_sky_light (h_changes h), changed_block_light (h_changes h))).

(** *** Light *)

Definition LIGHT_SECTION_PADDING : Z := 1.

Record LightSectionRange := mkLightRange { min_section_y : Z; light_section_count : Z }.

Definition from_world_height (min_y height : Z) : option LightSectionRange :=
  if height <=? 0 then None
  else
    let max_y := min_y + (height - 1) in
    if decide (in_s 32 max_y) then
      let min_chunk_section_y := block_to_section_coord min_y in
      let max_chunk_section_y := block_to_section_coord max_y in
      Some (mkLightRange (min_chunk_section_y - LIGHT_SECTION_PADDING)
              (max_chunk_section_y - min_chunk_section_y + 1 + LIGHT_SECTION_PADDING * 2))
    else None.

Definition light_section_index (r : LightSectionRange) (section_y : Z) : option Z :=
  if (section_y <? min_section_y r) || (min_section_y r + light_section_count r <=? section_y) then None
  else Some (section_y - min_section_y r).

Inductive LightLayer := SkyLight | BlockLight.

(** [None] when the section is not one of this chunk or the chunk is not there. *)
Definition mark_valid_light_section_dirty (h : ChunkHolder) (section : SectionPos) : option (ChunkHolder * bool) :=
  if negb (sp_x section =? cp_x (h_pos h)) || negb (sp_z section =? cp_y (h_pos h)) then None
  else
    range ← from_world_height (h_min_y h) (h_height h);
    _ ← light_section_index range (sp_y section);
    published ← published_status h;
    status ← published;
    _ ← h_data h;
    Some (mark_dirty_data h, bool_decide (status = Full) && word_is_block_ticking (h_readiness h)).

Definition insert_light (layer : LightLayer) (section : SectionPos) (t : ChangeTracker) : ChangeTracker :=
  match layer with
  | SkyLight => mkTracker (has_changed_sections t) (queued_for_broadcast t) (packet_content_revision t)
                  (changed_blocks_per_section t) ({[section]} ∪ changed_sky_light t) (changed_block_light t)
  | BlockLight => mkTracker (has_changed_sections t) (queued_for_broadcast t) (packet_content_revision t)
                    (changed_blocks_per_section t) (changed_sky_light t) ({[section]} ∪ changed_block_light t)
  end.

Definition light_changed (h : ChunkHolder) (layer : LightLayer) (section : SectionPos) : ChunkHolder * bool :=
  match mark_valid_light_section_dirty h section with
  | None => (h, false)
  | Some (h, false) => (h, false)
  | Some (h, true) =>
      let h := set_tracker h mark_packet_content_changed in
      let inserted := match layer with
                      | SkyLight => bool_decide (section ∉ changed_sky_light (h_changes h))
                      | BlockLight => bool_decide (section ∉ changed_block_light (h_changes h))
                      end in
      let h := set_tracker h (insert_light layer section) in
      if inserted then (set_tracker h (set_queued true), negb (queued_for_broadcast (h_changes h))) else (h, false)
  end.

(** ** The world as two threads see it *)

(** The content of a chunk packet: the block states of the chunk. *)
Abbreviation chunk_blocks := (gmap BlockPos Z).

Abbreviation chunk_of := ChunkPos_from_block_pos.

(** What the game thread is doing.  A change is recorded in three steps: the position enters
    the holder's set, the revision grows, the flags are set and the holder queued.  A
    broadcast works off the queue it took: the changes of a holder are taken, then its
    viewers looked up, then one packet per section sent. *)
Inductive game_state :=
| GIdle
| GInserted (id : Z) (pos : BlockPos)
| GRevised (id : Z)
| GBroadcast (queue : list Z)
| GTaken (id : Z) (changes : list (nat * gset Z)) (queue : list Z)
| GSending (id : Z) (players : list Z) (changes : list (nat * gset Z)) (queue : list Z).

(** Encoding one prepared chunk: not started, reading blocks since a revision was read, or
    done with or without a packet. *)
Inductive encode_job :=
| JWaiting (c : PreparedChunk)
| JReading (c : PreparedChunk) (revision : Z) (data : chunk_blocks)
| JDone (result : option (EncodedChunk chunk_blocks)).

Record broadcast_world := mkWorld {
  w_holders : gmap Z ChunkHolder;
  w_active : gmap ChunkPos Z;
  w_blocks : chunk_blocks;
  (** written blocks that are not reported yet *)
  w_unreported : list (BlockPos * Z);
  chunks_to_broadcast : list Z;
  (** holders that a light worker has flagged and not queued yet *)
  w_light_queueing : list Z;
  w_system : system (D := chunk_blocks);
  w_game : game_state;
  w_jobs : list encode_job;
  w_cache : list (EncodedChunk chunk_blocks);
  (** positions that clients are, as things stand, not to be told about: the last change
      reported of the position was not recorded for clients, or its packet was lost *)
  w_untold : gset BlockPos;
}.

Implicit Types w : broadcast_world.

Definition set_holders w (v : gmap Z ChunkHolder) : broadcast_world :=
  mkWorld v (w_active w) (w_blocks w) (w_unreported w) (chunks_to_broadcast w) (w_light_queueing w) (w_system w)
    (w_game w) (w_jobs w) (w_cache w) (w_untold w).
Definition set_blocks w (v : chunk_blocks) (r : list (BlockPos * Z)) : broadcast_world :=
  mkWorld (w_holders w) (w_active w) v r (chunks_to_broadcast w) (w_light_queueing w) (w_system w)
    (w_game w) (w_jobs w) (w_cache w) (w_untold w).
Definition set_unreported w (r : list (BlockPos * Z)) (u : gset BlockPos) : broadcast_world :=
  mkWorld (w_holders w) (w_active w) (w_blocks w) r (chunks_to_broadcast w) (w_light_queueing w) (w_system w)
    (w_game w) (w_jobs w) (w_cache w) u.
Definition set_queue w (q l : list Z) : broadcast_world :=
  mkWorld (w_holders w) (w_active w) (w_blocks w) (w_unreported w) q l (w_system w)
    (w_game w) (w_jobs w) (w_cache w) (w_untold w).
Definition set_system w (s : system) : broadcast_world :=
  mkWorld (w_holders w) (w_active w) (w_blocks w) (w_unreported w) (chunks_to_broadcast w) (w_light_queueing w) s
    (w_game w) (w_jobs w) (w_cache w) (w_untold w).
Definition set_game w (g : game_state) : broadcast_world :=
  mkWorld (w_holders w) (w_active w) (w_blocks w) (w_unreported w) (chunks_to_broadcast w) (w_light_queueing w)
    (w_system w) g (w_jobs w) (w_cache w) (w_untold w).
Definition set_jobs w (j : list encode_job) : broadcast_world :=
  mkWorld (w_holders w) (w_active w) (w_blocks w) (w_unreported w) (chunks_to_broadcast w) (w_light_queueing w)
    (w_system w) (w_game w) j (w_cache w) (w_untold w).
Definition set_cache w (c : list (EncodedChunk chunk_blocks)) : broadcast_world :=
  mkWorld (w_holders w) (w_active w) (w_blocks w) (w_unreported w) (chunks_to_broadcast w) (w_light_queueing w)
    (w_system w) (w_game w) (w_jobs w) c (w_untold w).

Definition update_tracker w (id : Z) (f : ChangeTracker -> ChangeTracker) : broadcast_world :=
  set_holders w (alter (fun h => set_tracker h f) id (w_holders w)).

(** ** The game thread *)

(** [is_block_ticking_full_chunk_loaded]. *)
Definition is_block_ticking_loaded (h : ChunkHolder) : bool :=
  is_block_ticking (holder_load_level h) && word_is_block_ticking (h_readiness h).

(** [finish_block_set] for the [i]-th unreported write: a block that was overwritten since
    is left to the later write; without the flag for clients, or in a chunk that does not
    tick, nothing is recorded; otherwise [block_changed] begins. *)
Definition report (update_clients : bool) (i : nat) w : broadcast_world :=
  match w_unreported w !! i with
  | None => w
  | Some (pos, state) =>
      let rest := delete i (w_unreported w) in
      if negb (bool_decide (w_blocks w !! pos = Some state)) then set_unreported w rest (w_untold w)
      else
        let recorded :=
          id ← w_active w !! chunk_of pos; h ← w_holders w !! id;
          if update_clients && is_block_ticking_loaded h
          then i ← changed_section h pos; Some (id, i) else None in
        match recorded with
        | None => set_unreported w rest ({[pos]} ∪ w_untold w)
        | Some (id, i) =>
            set_game (update_tracker (set_unreported w rest (w_untold w ∖ {[pos]})) id
                        (insert_changed i (PackedSectionBlockPos_from_block_pos pos))) (GInserted id pos)
        end
  end.

(** [get_packet_tracking_players]. *)
Definition packet_tracking_players (t : tracking (D := chunk_blocks)) (chunk : ChunkPos) : list Z :=
  filter (fun id => match t_players t !! id with
                    | Some p => bool_decide (chunk ∈ sent_chunks (chunk_sender p))
                    | None => false
                    end = true) (get_tracking_players (player_area_map t) chunk).

Definition section_of (h : ChunkHolder) (i : nat) : SectionPos :=
  mkSectionPos (cp_x (h_pos h)) (Z.quot (h_min_y h) 16 + Z.of_nat i) (cp_y (h_pos h)).

Definition block_state (blocks : chunk_blocks) (pos : BlockPos) : Z := default 0 (blocks !! pos).

(** The packet for the changes of one section. *)
Definition section_packet (blocks : chunk_blocks) (section : SectionPos) (changed : gset Z) : packet chunk_blocks :=
  match elements changed with
  | [packed] =>
      let pos := SectionPos_relative_to_block_pos section packed in BlockUpdate pos (block_state blocks pos)
  | l => SectionBlocksUpdate section
           ((fun packed => (packed, block_state blocks (SectionPos_relative_to_block_pos section packed))) <$> l)
  end.

Definition send_to (p : packet chunk_blocks) (t : tracking (D := chunk_blocks)) (id : Z) : tracking :=
  mkTracking (alter (fun q => with_sender q (chunk_sender q) [p]) id (t_players t)) (player_area_map t) (t_operations t).

(** The next action of the game thread in the middle of an operation. *)
Definition game_continue w : broadcast_world :=
  match w_game w with
  | GIdle => w
  | GInserted id _ => set_game (update_tracker w id mark_packet_content_changed) (GRevised id)
  | GRevised id =>
      let queued := match w_holders w !! id with Some h => queued_for_broadcast (h_changes h) | None => true end in
      set_game (set_queue (update_tracker w id flag_changed)
                  (if queued then chunks_to_broadcast w else chunks_to_broadcast w ++ [id]) (w_light_queueing w)) GIdle
  | GBroadcast [] => set_game w GIdle
  | GBroadcast (id :: queue) =>
      match w_holders w !! id with
      | None => set_game w (GBroadcast queue)
      | Some h =>
          let '(h, _) := take_changed_light_sections (clear_broadcast_queued h) in
          let '(h, changes) := take_changed_blocks h in
          set_game (set_holders w (<[id := h]> (w_holders w))) (GTaken id changes queue)
      end
  | GTaken id changes queue =>
      match w_holders w !! id with
      | None => set_game w (GBroadcast queue)
      | Some h => set_game w (GSending id (packet_tracking_players (w_system w).1 (h_pos h)) changes queue)
      end
  | GSending id players [] queue => set_game w (GBroadcast queue)
  | GSending id players ((i, changed) :: changes) queue =>
      match w_holders w !! id with
      | None => set_game w (GBroadcast queue)
      | Some h =>
          let p := section_packet (w_blocks w) (section_of h i) changed in
          set_game (set_system w (foldl (send_to p) (w_system w).1 players, (w_system w).2))
            (GSending id players changes queue)
      end
  end.

(** The block positions that a list of changes of a holder stands for. *)
Definition change_positions (h : ChunkHolder) (changes : list (nat * gset Z)) : gset BlockPos :=
  ⋃ ((fun '(i, changed) => set_map (SectionPos_relative_to_block_pos (section_of h i)) changed) <$> changes).

(** What the game thread does instead when a packet cannot be encoded: without the packet of
    a section it goes on to the next section; without the light packet, which comes before
    the sections, it goes on to the next holder.  The changes were taken and are lost. *)
Definition encoding_fails w : option broadcast_world :=
  match w_game w with
  | GTaken id changes queue =>
      h ← w_holders w !! id;
      Some (set_unreported (set_game w (GBroadcast queue)) (w_unreported w) (change_positions h changes ∪ w_untold w))
  | GSending id (player :: players) (change :: changes) queue =>
      h ← w_holders w !! id;
      Some (set_unreported (set_game w (GSending id (player :: players) changes queue)) (w_unreported w)
              (change_positions h [change] ∪ w_untold w))
  | _ => None
  end.

(** ** The sending loop *)

Definition revision_of w (id : Z) : Z :=
  match w_holders w !! id with Some h => packet_content_revision (h_changes h) | None => 0 end.
Definition readiness_word w (id : Z) : Z := match w_holders w !! id with Some h => h_readiness h | None => 0 end.

Definition cached w (pos : ChunkPos) : option (EncodedChunk chunk_blocks) :=
  snd <$> list_find (fun e => ec_pos e = pos) (w_cache w).

(** Whether a cached packet is usable. *)
Definition cache_hit w (c : PreparedChunk) : option (EncodedChunk chunk_blocks) :=
  e ← cached w (pc_pos c); if is_current_for (w_holders w) e c then Some e else None.

Definition can_encode w (c : PreparedChunk) : bool :=
  word_is_block_ticking (pc_readiness c) && (readiness_word w (pc_holder c) =? pc_readiness c) &&
  match w_holders w !! pc_holder c with Some h => bool_decide (is_Some (try_full_chunk h)) | None => false end.

(** One action of an encoding job; blocks are read one at a time. *)
Inductive encode_step w : encode_job -> encode_job -> Prop :=
| encode_start c :
    encode_step w (JWaiting c)
      (match cache_hit w c with
       | Some e => JDone (Some e)
       | None => if can_encode w c then JReading c (revision_of w (pc_holder c)) ∅ else JDone None
       end)
| encode_read c revision data pos state : chunk_of pos = pc_pos c -> w_blocks w !! pos = Some state ->
    encode_step w (JReading c revision data) (JReading c revision (<[pos := state]> data))
| encode_finish c revision data :
    (forall pos, chunk_of pos = pc_pos c -> is_Some (w_blocks w !! pos) -> is_Some (data !! pos)) ->
    encode_step w (JReading c revision data)
      (JDone (if (revision =? revision_of w (pc_holder c)) && (readiness_word w (pc_holder c) =? pc_readiness c)
              then Some (mkEncoded (pc_pos c) data revision (pc_holder c) (pc_readiness c)) else None)).

(** The packets of finished jobs. *)
Definition job_results (jobs : list encode_job) : list (EncodedChunk chunk_blocks) :=
  omap (fun j => match j with JDone r => r | _ => None end) jobs.

Definition job_done (j : encode_job) : bool := match j with JDone _ => true | _ => false end.

Definition commit_jobs w (id : Z) (batch : PreparedBatch) : broadcast_world :=
  let encoded := job_results (w_jobs w) in
  set_jobs (set_cache (set_system w (send_commit (w_holders w) id batch encoded (w_system w).1, None))
              (reverse encoded ++ w_cache w)) [].

(** ** The threads together *)

Section Broadcast.
Context (simulation_distance : Z).

Inductive broadcast_step w : broadcast_world -> Prop :=
| bs_set_block pos state : w_game w = GIdle -> is_Some (w_blocks w !! pos) ->
    broadcast_step w (set_blocks w (<[pos := state]> (w_blocks w)) ((pos, state) :: w_unreported w))
| bs_report update_clients i : w_game w = GIdle -> broadcast_step w (report update_clients i w)
| bs_broadcast : w_game w = GIdle ->
    broadcast_step w (set_game (set_queue w [] (w_light_queueing w)) (GBroadcast (chunks_to_broadcast w)))
| bs_game : broadcast_step w (game_continue w)
| bs_encoding_fails w' : encoding_fails w = Some w' -> broadcast_step w w'
| bs_players t : w_game w = GIdle -> player_step simulation_distance (w_system w).1 t ->
    broadcast_step w (set_system w (t, (w_system w).2))
| bs_readiness id h target h' previous : w_game w = GIdle -> w_holders w !! id = Some h ->
    transition_ticking_readiness h target = Some (h', previous) ->
    broadcast_step w (set_holders w (<[id := h']> (w_holders w)))
| bs_connection t : connection_step (w_system w).1 t -> broadcast_step w (set_system w (t, (w_system w).2))
| bs_light id h layer section : w_holders w !! id = Some h ->
    broadcast_step w
      (set_queue (set_holders w (<[id := (light_changed h layer section).1]> (w_holders w))) (chunks_to_broadcast w)
         (if (light_changed h layer section).2 then id :: w_light_queueing w else w_light_queueing w))
| bs_light_queue i id : w_light_queueing w !! i = Some id ->
    broadcast_step w (set_queue w (chunks_to_broadcast w ++ [id]) (delete i (w_light_queueing w)))
| bs_sending_tick : (w_system w).2 = None -> broadcast_step w (set_cache w [])
| bs_prepare id : (w_system w).2 = None ->
    broadcast_step w
      (let '(t, batch) := send_prepare (w_holders w) (w_active w) id (w_system w).1 in
       set_jobs (set_system w (t, pair id <$> batch))
         (match batch with Some b => JWaiting <$> b_chunks b | None => [] end))
| bs_encode i j j' : w_jobs w !! i = Some j -> encode_step w j j' ->
    broadcast_step w (set_jobs w (<[i := j']> (w_jobs w)))
| bs_commit id batch : (w_system w).2 = Some (id, batch) -> forallb job_done (w_jobs w) = true ->
    broadcast_step w (commit_jobs w id batch).

End Broadcast.

(** ** What clients hold *)

Definition client_apply (held : gmap ChunkPos chunk_blocks) (p : packet chunk_blocks) : gmap ChunkPos chunk_blocks :=
  match p with
  | LevelChunkWithLight x z data => <[mkChunkPos x z := data]> held
  | ForgetLevelChunk pos => delete (PackedChunkPos_to_chunk_pos pos) held
  | BlockUpdate pos state => alter (insert pos state) (chunk_of pos) held
  | SectionBlocksUpdate section changes =>
      alter (fun data => foldl (fun data '(packed, state) =>
               <[SectionPos_relative_to_block_pos section packed := state]> data) data changes)
        (mkChunkPos (sp_x section) (sp_z section)) held
  | _ => held
  end.

Definition client_blocks (log : list (packet chunk_blocks)) : gmap ChunkPos chunk_blocks := foldl client_apply ∅ log.

Lemma client_blocks_app l1 l2 : client_blocks (l1 ++ l2) = foldl client_apply (client_blocks l1) l2.
Proof. unfold client_blocks. by rewrite foldl_app. Qed.

(** ** Recorded positions *)

Lemma elem_of_nonempty l : forall k i s,
  (i, s) ∈ nonempty_sections k l <-> exists j, l !! j = Some s /\ i = (k + j)%nat /\ s <> ∅.
Proof.
  induction l as [|x l IH]; intros k i s; simpl.
  { rewrite elem_of_nil. split; [done|]. by intros (j & ? & _). }
  assert ((i, s) ∈ nonempty_sections (S k) l <-> exists j, l !! j = Some s /\ i = (k + S j)%nat /\ s <> ∅) as E.
  { rewrite IH. by setoid_rewrite Nat.add_succ_comm. }
  case_decide as Hx; [rewrite E|rewrite elem_of_cons, E]; split.
  - intros (j & ? & ? & ?). by exists (S j).
  - intros ([|j] & Hj & ? & ?); [by injection Hj as <-|by exists j].
  - intros [[= -> ->]|(j & ? & ? & ?)]; [exists O; split; [done|]; split; [lia|done]|by exists (S j)].
  - intros ([|j] & Hj & -> & ?); [left; injection Hj as ->; f_equal; lia|right; by exists j].
Qed.

(** A position is among a list of changes of a holder. *)
Definition recorded (h : ChunkHolder) (changes : list (nat * gset Z)) (pos : BlockPos) : Prop :=
  exists i s packed, (i, s) ∈ changes /\ packed ∈ s /\ SectionPos_relative_to_block_pos (section_of h i) packed = pos.

Lemma elem_of_change_positions h changes pos : pos ∈ change_positions h changes <-> recorded h changes pos.
Proof.
  unfold change_positions, recorded. rewrite elem_of_union_list. setoid_rewrite list_elem_of_fmap. split.
  - intros (X & ([i s] & -> & Hin) & (k & -> & Hk)%elem_of_map). by exists i, s, k.
  - intros (i & s & k & Hin & Hk & <-). eexists. split; [by exists (i, s)|]. by apply elem_of_map_2.
Qed.

Definition pending_changes (h : ChunkHolder) : list (nat * gset Z) :=
  nonempty_sections 0 (changed_blocks_per_section (h_changes h)).

Lemma recorded_pending h pos :
  recorded h (pending_changes h) pos <->
  exists i s packed, changed_blocks_per_section (h_changes h) !! i = Some s /\ packed ∈ s /\
    SectionPos_relative_to_block_pos (section_of h i) packed = pos.
Proof.
  unfold recorded, pending_changes. split.
  - intros (i & s & packed & Hin & Hp & E). apply elem_of_nonempty in Hin as (j & Hj & -> & _). by exists j, s, packed.
  - intros (i & s & packed & Hi & Hp & E). exists i, s, packed. split_and!; [|done..].
    apply elem_of_nonempty. exists i. split_and!; [done|lia|set_solver].
Qed.

(** A world of whole sections. *)
Definition extent_ok (h : ChunkHolder) : Prop := h_min_y h mod 16 = 0.
Definition block_ok (pos : BlockPos) : Prop := in_s 32 (bp_x pos) /\ in_s 32 (bp_y pos) /\ in_s 32 (bp_z pos).

Lemma section_of_block h pos i : extent_ok h -> chunk_of pos = h_pos h -> changed_section h pos = Some i ->
  section_of h i = SectionPos_from_block_pos pos.
Proof.
  unfold changed_section, extent_ok. intros He Hc Hs. destruct (_ || _) eqn:E; [done|]. case_decide; [|done].
  injection Hs as <-. rewrite !orb_false_iff, Z.ltb_ge, Z.leb_gt in E. destruct E as [[_ E1] E2].
  unfold section_of, SectionPos_from_block_pos. rewrite <- Hc. unfold ChunkPos_from_block_pos. simpl. f_equal.
  unfold block_to_section_coord, SECTION_BITS. rewrite Z.shiftr_div_pow2 by done. change (2 ^ 4) with 16.
  rewrite Z2Nat.id by (apply Z.quot_pos; lia). rewrite (Z.quot_div_nonneg (bp_y pos - h_min_y h)) by lia.
  assert (h_min_y h = 16 * (h_min_y h / 16)) as Em by (Z.div_mod_to_equations; lia).
  assert (Z.quot (h_min_y h) 16 = h_min_y h / 16) as ->.
  { rewrite Em at 1. rewrite Z.mul_comm. by apply Z.quot_mul. }
  Z.div_mod_to_equations. lia.
Qed.

Lemma block_relative h pos i : extent_ok h -> block_ok pos -> chunk_of pos = h_pos h -> changed_section h pos = Some i ->
  SectionPos_relative_to_block_pos (section_of h i) (PackedSectionBlockPos_from_block_pos pos) = pos.
Proof.
  intros He (Hx & Hy & Hz) Hc Hs. rewrite (section_of_block h pos i) by done.
  by apply section_relative_roundtrip.
Qed.

Lemma fold_updates blocks section l : forall data pos,
  foldl (fun (data : chunk_blocks) '(packed, state) => <[SectionPos_relative_to_block_pos section packed := state]> data) data
    ((fun packed => (packed, block_state blocks (SectionPos_relative_to_block_pos section packed))) <$> l) !! pos =
  if decide (pos ∈ SectionPos_relative_to_block_pos section <$> l) then Some (block_state blocks pos) else data !! pos.
Proof.
  induction l as [|packed l IH]; intros data pos; [done|]. rewrite !fmap_cons. cbn [foldl]. rewrite IH. destruct (decide (pos ∈ SectionPos_relative_to_block_pos section <$> l)) as [Hin|Hin].
  { rewrite decide_True; [done|]. by right. }
  destruct (decide (pos = SectionPos_relative_to_block_pos section packed)) as [->|Hne].
  - rewrite lookup_insert_eq, decide_True; [done|]. by left.
  - rewrite lookup_insert_ne, decide_False; [done| |done]. by intros [?|?]%elem_of_cons.
Qed.

(** A section packet brings exactly its positions up to date in a client that has the
    chunk. *)
Lemma section_packet_apply blocks section changed held data :
  let c := mkChunkPos (sp_x section) (sp_z section) in
  held !! c = Some data -> (forall packed, packed ∈ changed -> chunk_of (SectionPos_relative_to_block_pos section packed) = c) ->
  exists data', client_apply held (section_packet blocks section changed) !! c = Some data' /\
    forall pos, data' !! pos =
      if decide (pos ∈ SectionPos_relative_to_block_pos section <$> elements changed) then Some (block_state blocks pos)
      else data !! pos.
Proof.
  intros c Hc Hpos. unfold section_packet. assert (exists data', alter (fun data => foldl (fun data '(packed, state) =>
      <[SectionPos_relative_to_block_pos section packed := state]> data) data
      ((fun packed => (packed, block_state blocks (SectionPos_relative_to_block_pos section packed))) <$> elements changed))
      c held !! c = Some data' /\ forall pos, data' !! pos =
      if decide (pos ∈ SectionPos_relative_to_block_pos section <$> elements changed) then Some (block_state blocks pos)
      else data !! pos) as Hmany.
  { rewrite lookup_alter_eq, Hc. simpl. eexists. split; [done|]. intros pos. apply fold_updates. }
  destruct (elements changed) as [|packed [|packed' l]] eqn:El; [exact Hmany| |exact Hmany].
  assert (packed ∈ changed) as Hin by (apply elem_of_elements; rewrite El; by left).
  cbn [client_apply]. rewrite (Hpos packed Hin). exact Hmany.
Qed.

Lemma section_packet_other blocks section changed held c :
  c <> mkChunkPos (sp_x section) (sp_z section) ->
  (forall packed, packed ∈ changed -> chunk_of (SectionPos_relative_to_block_pos section packed) = mkChunkPos (sp_x section) (sp_z section)) ->
  client_apply held (section_packet blocks section changed) !! c = held !! c.
Proof.
  intros Hne Hpos. unfold section_packet.
  destruct (elements changed) as [|packed [|packed' l]] eqn:El; cbn [client_apply]; try by rewrite lookup_alter_ne.
  assert (packed ∈ changed) as Hin by (apply elem_of_elements; rewrite El; by left).
  rewrite (Hpos packed Hin). by rewrite lookup_alter_ne.
Qed.
