(* ===== verification/ClientMirror.v ===== *)
(** * Clients mirror the blocks of the world

    The invariant behind [ChunkBroadcast]: whatever a client holds of a chunk it was sent
    is either up to date or still to be told, through every interleaving of the game
    thread, the sending loop, the connections and the light workers. *)

From Stdlib Require Import Floats.SpecFloat.
From S2P Require Import Prelude Positions ChunkPyramid ChunkTickets ChunkHolder.
From S2P Require Import Float32 PlayerView ChunkSender PlayerTracking ChunkBroadcast.

Implicit Types w : broadcast_world.

Section Mirror.
Context (simulation_distance : Z).

(** ** The invariant *)

(** Written and neither reported nor overwritten, or in the set but before the revision. *)
Definition written w (pos : BlockPos) : Prop :=
  exists state, w_blocks w !! pos = Some state /\ (pos, state) ∈ w_unreported w.
Definition unrevised w (pos : BlockPos) : Prop := written w pos \/ (exists id, w_game w = GInserted id pos).

(** Positions that clients are to be told. *)
Definition told w (c : ChunkPos) (pos : BlockPos) : Prop :=
  chunk_of pos = c /\ (pos ∉ w_untold w) /\ is_Some (w_blocks w !! pos).

(** An encoded chunk is up to date as long as its revision is the holder's. *)
Definition encoded_ok w (e : EncodedChunk chunk_blocks) : Prop :=
  w_active w !! ec_pos e = Some (ec_holder e) /\ content_revision e <= revision_of w (ec_holder e) /\
  (content_revision e = revision_of w (ec_holder e) -> forall pos, told w (ec_pos e) pos ->
     ec_packet e !! pos = w_blocks w !! pos \/ unrevised w pos).

Definition job_ok w (j : encode_job) : Prop :=
  match j with
  | JWaiting c => w_active w !! pc_pos c = Some (pc_holder c)
  | JReading c revision data =>
      w_active w !! pc_pos c = Some (pc_holder c) /\ revision <= revision_of w (pc_holder c) /\
      (revision = revision_of w (pc_holder c) -> forall pos, told w (pc_pos c) pos -> is_Some (data !! pos) ->
         data !! pos = w_blocks w !! pos \/ unrevised w pos)
  | JDone (Some e) => encoded_ok w e
  | JDone None => True
  end.

(** The changes the game thread has taken and not sent to player [pid]. *)
Definition being_sent w (pid id : Z) (h : ChunkHolder) (pos : BlockPos) : Prop :=
  match w_game w with
  | GTaken id' changes _ => id' = id /\ recorded h changes pos
  | GSending id' players changes _ => id' = id /\ pid ∈ players /\ recorded h changes pos
  | _ => False
  end.

(** Player [pid] will still be told about [pos]. *)
Definition to_be_told w (pid : Z) (pos : BlockPos) : Prop :=
  written w pos \/
  (exists id h, w_active w !! chunk_of pos = Some id /\ w_holders w !! id = Some h /\
    (recorded h (pending_changes h) pos \/ being_sent w pid id h pos)).

(** The recorded positions of a holder lie in its chunk. *)
Definition changes_ok w (h : ChunkHolder) (changes : list (nat * gset Z)) : Prop :=
  forall pos, recorded h changes pos -> chunk_of pos = h_pos h /\ is_Some (w_blocks w !! pos).

Definition game_rest (g : game_state) : list Z :=
  match g with GBroadcast q | GTaken _ _ q | GSending _ _ _ q => q | _ => [] end.

Definition in_queue w (id : Z) : Prop :=
  id ∈ chunks_to_broadcast w \/ id ∈ w_light_queueing w \/ id ∈ game_rest (w_game w).

Definition recording w (id : Z) : Prop := (exists pos, w_game w = GInserted id pos) \/ w_game w = GRevised id.

(** The flags of a holder: recorded changes are flagged, and a flagged holder is queued. *)
Record flags_ok w (id : Z) (h : ChunkHolder) : Prop := {
  fo_changed : forall pos, recorded h (pending_changes h) pos -> has_changed_sections (h_changes h) = true \/ recording w id;
  fo_queued : has_changed_sections (h_changes h) = true -> queued_for_broadcast (h_changes h) = true;
  fo_queue : queued_for_broadcast (h_changes h) = true -> in_queue w id;
}.

Definition game_ok w : Prop :=
  match w_game w with
  | GInserted id pos => w_active w !! chunk_of pos = Some id /\
      exists h, w_holders w !! id = Some h /\ recorded h (pending_changes h) pos
  | GTaken id changes _ | GSending id _ changes _ => forall h, w_holders w !! id = Some h -> changes_ok w h changes
  | _ => True
  end.

(** What an open client has of a chunk that was sent to it is up to date or will be. *)
Definition mirror_ok w : Prop :=
  forall pid p c pos, t_players (w_system w).1 !! pid = Some p -> p_closed p = false ->
    c ∈ sent_chunks (chunk_sender p) -> told w c pos ->
    exists data, client_blocks (p_log p) !! c = Some data /\
      (data !! pos = w_blocks w !! pos \/ to_be_told w pid pos).

Record world_ok (n : Z) w : Prop := {
  wo_system : system_ok simulation_distance (w_system w);
  wo_active : forall c id, w_active w !! c = Some id -> exists h, w_holders w !! id = Some h /\ h_pos h = c;
  wo_holder : forall id h, w_holders w !! id = Some h ->
    extent_ok h /\ changes_ok w h (pending_changes h) /\ flags_ok w id h /\
    0 <= packet_content_revision (h_changes h) <= n;
  wo_blocks : forall pos, is_Some (w_blocks w !! pos) -> block_ok pos;
  wo_game : game_ok w;
  wo_jobs : Forall (job_ok w) (w_jobs w);
  wo_cache : Forall (encoded_ok w) (w_cache w);
  wo_mirror : mirror_ok w;
}.

(** *** Steps that keep encoded chunks and clients up to date *)

Record keeps_fresh w w' : Prop := {
  kf_active : w_active w' = w_active w;
  kf_revision : forall id, revision_of w id <= revision_of w' id;
  kf_told : forall c id pos (x : option Z), w_active w !! c = Some id -> told w' c pos ->
    revision_of w' id = revision_of w id ->
    unrevised w' pos \/
    (told w c pos /\ (x = w_blocks w !! pos \/ unrevised w pos -> x = w_blocks w' !! pos \/ unrevised w' pos));
}.

Lemma encoded_ok_fresh w w' e : keeps_fresh w w' -> encoded_ok w e -> encoded_ok w' e.
Proof.
  intros [K1 K2 K3] (H1 & H2 & H3). specialize (K2 (ec_holder e)) as Hle. split_and!; [by rewrite K1|lia|].
  intros E pos Hpos. assert (revision_of w' (ec_holder e) = revision_of w (ec_holder e)) as Er by lia.
  destruct (K3 _ _ pos (ec_packet e !! pos) H1 Hpos Er) as [Hu|[Ht Hx]]; [by right|]. apply Hx, H3; [lia|done].
Qed.

Lemma job_ok_fresh w w' j : keeps_fresh w w' -> job_ok w j -> job_ok w' j.
Proof.
  intros Hk. destruct j as [c|c revision data|[e|]]; simpl; [by rewrite (kf_active _ _ Hk)| |by apply encoded_ok_fresh|done].
  destruct Hk as [K1 K2 K3]. intros (H1 & H2 & H3). specialize (K2 (pc_holder c)) as Hle. split_and!; [by rewrite K1|lia|].
  intros E pos Hpos Hd. assert (revision_of w' (pc_holder c) = revision_of w (pc_holder c)) as Er by lia.
  destruct (K3 _ _ pos (data !! pos) H1 Hpos Er) as [Hu|[Ht Hx]]; [by right|]. apply Hx, H3; [lia|done|done].
Qed.

(** The clients' side, for a step that sends nothing. *)
Definition keeps_told w w' : Prop :=
  forall pid p c pos (x : option Z), t_players (w_system w).1 !! pid = Some p -> c ∈ sent_chunks (chunk_sender p) ->
    told w' c pos ->
    to_be_told w' pid pos \/
    (told w c pos /\ (x = w_blocks w !! pos \/ to_be_told w pid pos -> x = w_blocks w' !! pos \/ to_be_told w' pid pos)).

(** A client holds blocks of each chunk the server counts as sent. *)
Lemma client_blocks_dom log : dom (client_blocks log) = client_chunks log.
Proof.
  induction log as [|p log IH] using rev_ind; [done|]. rewrite client_blocks_app, client_chunks_app. simpl. rewrite <- IH.
  destruct p; simpl; rewrite ?dom_insert_L, ?dom_delete_L, ?dom_alter_L; done.
Qed.

Lemma client_has_chunk w pid p c : system_ok simulation_distance (w_system w) ->
  t_players (w_system w).1 !! pid = Some p -> p_closed p = false -> c ∈ sent_chunks (chunk_sender p) ->
  is_Some (client_blocks (p_log p) !! c).
Proof.
  intros Hok Hp Hcl Hc. apply elem_of_dom. by rewrite client_blocks_dom, (so_client _ (sy_sessions _ _ Hok pid p Hp) Hcl).
Qed.

Lemma mirror_keeps n w w' : world_ok n w -> w_system w' = w_system w -> keeps_told w w' -> mirror_ok w'.
Proof.
  intros Hok Es Hk pid p c pos Hp Hc Hs Ht. rewrite Es in Hp.
  destruct (client_has_chunk w pid p c (wo_system _ _ Hok) Hp Hc Hs) as [data Hd]. exists data. split; [done|].
  destruct (Hk pid p c pos (data !! pos) Hp Hs Ht) as [H|[Ht' H]]; [by right|]. apply H.
  destruct (wo_mirror _ _ Hok pid p c pos Hp Hc Hs Ht') as (data' & Hd' & H'). by simplify_eq.
Qed.

(** A step after which holders, jobs and clients were checked. *)
Lemma step_ok n w w' : world_ok n w -> system_ok simulation_distance (w_system w') ->
  keeps_fresh w w' -> Forall (job_ok w') (w_jobs w') -> Forall (encoded_ok w') (w_cache w') ->
  (forall id h, w_holders w !! id = Some h -> exists h', w_holders w' !! id = Some h' /\ h_pos h' = h_pos h) ->
  (forall id h, w_holders w' !! id = Some h -> extent_ok h /\ changes_ok w' h (pending_changes h) /\ flags_ok w' id h /\
     0 <= packet_content_revision (h_changes h) <= n + 1) ->
  (forall pos, is_Some (w_blocks w' !! pos) -> is_Some (w_blocks w !! pos)) -> game_ok w' -> mirror_ok w' ->
  world_ok (n + 1) w'.
Proof.
  intros Hok Es Hf Hj Hc Hh Hh' Hb Hg Hm. split; try done.
  - intros c id Hid. rewrite (kf_active _ _ Hf) in Hid. destruct (wo_active _ _ Hok c id Hid) as (h & E & <-). by apply Hh.
  - intros pos Hpos. by apply (wo_blocks _ _ Hok), Hb.
Qed.

(** A step of the game thread or of a light worker. *)
Lemma quiet_step_ok n w w' : world_ok n w ->
  w_system w' = w_system w -> w_jobs w' = w_jobs w -> w_cache w' = w_cache w ->
  keeps_fresh w w' -> keeps_told w w' ->
  (forall id h, w_holders w !! id = Some h -> exists h', w_holders w' !! id = Some h' /\ h_pos h' = h_pos h) ->
  (forall id h, w_holders w' !! id = Some h -> extent_ok h /\ changes_ok w' h (pending_changes h) /\ flags_ok w' id h /\
     0 <= packet_content_revision (h_changes h) <= n + 1) ->
  (forall pos, is_Some (w_blocks w' !! pos) -> is_Some (w_blocks w !! pos)) -> game_ok w' -> world_ok (n + 1) w'.
Proof.
  intros Hok Es Ej Ec Hf Ht Hh Hh' Hb Hg. apply (step_ok n w); try done.
  - rewrite Es. apply Hok.
  - rewrite Ej. eapply Forall_impl; [apply (wo_jobs _ _ Hok)|]. intros j. by apply job_ok_fresh.
  - rewrite Ec. eapply Forall_impl; [apply (wo_cache _ _ Hok)|]. intros e. by apply encoded_ok_fresh.
  - by apply (mirror_keeps n w).
Qed.

Lemma flags_keep w w' id h : flags_ok w id h ->
  (recording w id -> recording w' id) -> (in_queue w id -> in_queue w' id) -> flags_ok w' id h.
Proof. intros [F1 F2 F3] Hr Hq. split; [|done|auto]. intros pos H. destruct (F1 pos H); auto. Qed.

Lemma changes_ok_keep w w' h changes : changes_ok w h changes ->
  (forall pos, is_Some (w_blocks w !! pos) -> is_Some (w_blocks w' !! pos)) -> changes_ok w' h changes.
Proof. intros H Hb pos Hpos. destruct (H pos Hpos). auto. Qed.

(** When the holders and the game thread stay as they are. *)
Lemma same_holders_ok n w w' : world_ok n w -> w_holders w' = w_holders w ->
  (forall id, recording w id -> recording w' id) ->
  (forall pos, is_Some (w_blocks w !! pos) -> is_Some (w_blocks w' !! pos)) ->
  (forall id, in_queue w id -> in_queue w' id) ->
  forall id h, w_holders w' !! id = Some h -> extent_ok h /\ changes_ok w' h (pending_changes h) /\ flags_ok w' id h /\
     0 <= packet_content_revision (h_changes h) <= n + 1.
Proof.
  intros Hok Eh Hr Hb Hq id h Hid. rewrite Eh in Hid. destruct (wo_holder _ _ Hok id h Hid) as (H1 & H2 & H3 & H4).
  split_and!; [done|by apply (changes_ok_keep w)| |lia|lia]. apply (flags_keep w); [done|apply Hr|apply Hq].
Qed.

Lemma game_idle_rest w : w_game w = GIdle -> game_rest (w_game w) = [].
Proof. by intros ->. Qed.

Lemma set_block_ok n w pos state : world_ok n w -> w_game w = GIdle -> is_Some (w_blocks w !! pos) ->
  world_ok (n + 1) (set_blocks w (<[pos := state]> (w_blocks w)) ((pos, state) :: w_unreported w)).
Proof.
  intros Hok Hg Hpos. set (w' := set_blocks _ _ _).
  assert (forall q, is_Some (w_blocks w' !! q) <-> is_Some (w_blocks w !! q)) as Hdom.
  { intros q. simpl. rewrite lookup_insert_is_Some. destruct (decide (pos = q)) as [<-|]; tauto. }
  assert (forall c q, told w' c q -> told w c q) as Htold.
  { intros c q (E & Hu & Hs). split_and!; [done|done|]. by apply Hdom. }
  assert (forall q, written w q -> written w' q) as Hw.
  { intros q (s & Hs & Hin). destruct (decide (pos = q)) as [<-|Hne].
    - exists state. simpl. rewrite lookup_insert_eq. split; [done|by left].
    - exists s. simpl. rewrite lookup_insert_ne by done. split; [done|by right]. }
  assert (forall q (x : option Z), x = w_blocks w !! q -> x = w_blocks w' !! q \/ written w' q) as Hx.
  { intros q x ->. simpl. destruct (decide (pos = q)) as [<-|Hne].
    - right. exists state. simpl. rewrite lookup_insert_eq. split; [done|by left].
    - left. by rewrite lookup_insert_ne. }
  apply (quiet_step_ok n w w'); try done.
  - split; [done|done|]. intros c id q x _ Ht _. right. split; [by apply Htold|]. intros [E|[Hu|Hu]].
    + destruct (Hx q x E) as [?|?]; [by left|right; by left].
    + right. left. by apply Hw.
    + right. by right.
  - intros pid p c q x _ _ Ht. right. split; [by apply (Htold c)|]. intros [E|[Hu|Hu]].
    + destruct (Hx q x E) as [?|?]; [by left|right; by left].
    + right. left. by apply Hw.
    + right. right. exact Hu.
  - intros id h Hid. by exists h.
  - apply (same_holders_ok n w w'); [done..| |done]. intros q. by apply Hdom.
  - intros q. by apply Hdom.
  - unfold game_ok. simpl. by rewrite Hg.
Qed.

Lemma recorded_insert h i pos q :
  (i < length (changed_blocks_per_section (h_changes h)))%nat ->
  SectionPos_relative_to_block_pos (section_of h i) (PackedSectionBlockPos_from_block_pos pos) = pos ->
  let h' := set_tracker h (insert_changed i (PackedSectionBlockPos_from_block_pos pos)) in
  recorded h' (pending_changes h') q <-> q = pos \/ recorded h (pending_changes h) q.
Proof.
  intros Hi Hp h'. rewrite !recorded_pending. change (section_of h') with (section_of h). simpl.
  set (l := changed_blocks_per_section (h_changes h)) in *. set (packed := PackedSectionBlockPos_from_block_pos pos) in *.
  destruct (lookup_lt_is_Some_2 l i Hi) as [s Hs]. split.
  - intros (j & s' & pk & Hj & Hin & E). destruct (decide (j = i)) as [->|Hne].
    + rewrite list_lookup_alter_eq, Hs in Hj. injection Hj as <-. apply elem_of_union in Hin as [->%elem_of_singleton|Hin].
      * left. congruence.
      * right. by exists i, s, pk.
    + rewrite list_lookup_alter_ne in Hj by done. right. by exists j, s', pk.
  - intros [->|(j & s' & pk & Hj & Hin & E)].
    + exists i, ({[packed]} ∪ s), packed. rewrite list_lookup_alter_eq, Hs. split_and!; [done|set_solver|done].
    + destruct (decide (j = i)) as [->|Hne].
      * exists i, ({[packed]} ∪ s), pk. rewrite list_lookup_alter_eq, Hs. split_and!; [done| |done]. set_solver.
      * exists j, s', pk. by rewrite list_lookup_alter_ne.
Qed.

Lemma changed_section_length h pos i : changed_section h pos = Some i ->
  (i < length (changed_blocks_per_section (h_changes h)))%nat.
Proof. unfold changed_section. destruct (_ || _); [done|]. case_decide; [|done]. by intros [= <-]. Qed.

Lemma world_ok_mono n w : world_ok n w -> world_ok (n + 1) w.
Proof.
  intros [H1 H2 H3 H4 H5 H6 H7 H8]. split; try done. intros id h Hid. destruct (H3 id h Hid) as (? & ? & ? & ?).
  split_and!; [done..|lia|lia].
Qed.

(** Dropping the [i]-th report of a position leaves the other writes, and that of a later
    write to the same position. *)
Lemma written_drop w i pos state u : w_unreported w !! i = Some (pos, state) ->
  let w' := set_unreported w (delete i (w_unreported w)) u in
  forall q, written w q -> (q = pos /\ w_blocks w !! pos = Some state) \/ written w' q.
Proof.
  intros Hi w' q (s & Hs & Hin). rewrite (delete_Permutation _ _ _ Hi) in Hin.
  apply elem_of_cons in Hin as [[= -> ->]|Hin]; [by left|]. right. by exists s.
Qed.

Lemma report_skip_ok n w i pos state : world_ok n w -> w_game w = GIdle -> w_unreported w !! i = Some (pos, state) ->
  w_blocks w !! pos <> Some state -> world_ok (n + 1) (set_unreported w (delete i (w_unreported w)) (w_untold w)).
Proof.
  intros Hok Hg Hi Hne. set (w' := set_unreported _ _ _).
  assert (forall q, written w q -> written w' q) as Hw.
  { intros q H. destruct (written_drop w i pos state (w_untold w) Hi q H) as [[_ ?]|?]; done. }
  apply (quiet_step_ok n w w'); try done.
  - split; [done|done|]. intros c id q x _ Ht _. right. split; [done|]. intros [?|[?|?]]; [by left|right; left; auto|right; by right].
  - intros pid p c q x _ _ Ht. right. split; [done|]. intros [?|[?|?]]; [by left|right; left; auto|right; by right].
  - intros id h Hid. by exists h.
  - by apply (same_holders_ok n w w').
  - unfold game_ok. simpl. by rewrite Hg.
Qed.

Lemma report_untold_ok n w i pos state : world_ok n w -> w_game w = GIdle -> w_unreported w !! i = Some (pos, state) ->
  world_ok (n + 1) (set_unreported w (delete i (w_unreported w)) ({[pos]} ∪ w_untold w)).
Proof.
  intros Hok Hg Hi. set (w' := set_unreported _ _ _).
  assert (forall c q, told w' c q -> told w c q /\ (written w q -> written w' q)) as Hw.
  { intros c q (E & Hu & Hs). simpl in Hu. split; [split_and!; [done|set_solver|done]|].
    intros H. destruct (written_drop w i pos state ({[pos]} ∪ w_untold w) Hi q H) as [[-> _]|?]; [set_solver|done]. }
  apply (quiet_step_ok n w w'); try done.
  - split; [done|done|]. intros c id q x _ Ht _. destruct (Hw c q Ht) as [? ?]. right. split; [done|].
    intros [?|[?|?]]; [by left|right; left; auto|right; by right].
  - intros pid p c q x _ _ Ht. destruct (Hw c q Ht) as [? ?]. right. split; [done|].
    intros [?|[?|?]]; [by left|right; left; auto|right; by right].
  - intros id h Hid. by exists h.
  - by apply (same_holders_ok n w w').
  - unfold game_ok. simpl. by rewrite Hg.
Qed.

(** *** Recording a change *)

Lemma revision_alter w id f x : (forall t, packet_content_revision (f t) = packet_content_revision t) ->
  revision_of (update_tracker w id f) x = revision_of w x.
Proof.
  intros Hf. unfold revision_of. simpl. destruct (decide (x = id)) as [->|Hx]; [|by rewrite lookup_alter_ne].
  rewrite lookup_alter_eq. destruct (w_holders w !! id); [apply Hf|done].
Qed.

Lemma holders_alter w id f x h : w_holders (update_tracker w id f) !! x = Some h ->
  (x = id /\ exists h0, w_holders w !! id = Some h0 /\ h = set_tracker h0 f) \/ (x <> id /\ w_holders w !! x = Some h).
Proof. simpl. intros [[<- (h0 & E & ->)]|[? ?]]%lookup_alter_Some; [left; eauto|by right]. Qed.

Lemma report_record_ok n w i pos state id k h : world_ok n w -> w_game w = GIdle ->
  w_unreported w !! i = Some (pos, state) -> w_blocks w !! pos = Some state ->
  w_active w !! chunk_of pos = Some id -> w_holders w !! id = Some h -> changed_section h pos = Some k ->
  world_ok (n + 1) (set_game (update_tracker (set_unreported w (delete i (w_unreported w)) (w_untold w ∖ {[pos]})) id
    (insert_changed k (PackedSectionBlockPos_from_block_pos pos))) (GInserted id pos)).
Proof.
  intros Hok Hg Hi Hb Ha Hh Hk. set (w0 := set_unreported _ _ _). set (w1 := update_tracker _ _ _). set (w' := set_game _ _).
  destruct (wo_holder _ _ Hok id h Hh) as (He & Hc & Hf & Hr).
  assert (h_pos h = chunk_of pos) as Hp by (destruct (wo_active _ _ Hok _ _ Ha) as (h' & E & <-); congruence).
  set (h1 := set_tracker h (insert_changed k (PackedSectionBlockPos_from_block_pos pos))).
  assert (w_holders w' !! id = Some h1) as Hh1 by (simpl; by rewrite lookup_alter_eq, Hh).
  assert (forall q, recorded h1 (pending_changes h1) q <-> q = pos \/ recorded h (pending_changes h) q) as Hrec.
  { intros q. apply recorded_insert; [by apply (changed_section_length h pos)|].
    apply block_relative; try done. apply (wo_blocks _ _ Hok). by exists state. }
  assert (forall x, revision_of w' x = revision_of w x) as Hrev
    by (intros x; exact (revision_alter w0 id (insert_changed k _) x (fun _ => eq_refl))).
  assert (forall q, written w q -> q = pos \/ written w' q) as Hw.
  { intros q H. destruct (written_drop w i pos state (w_untold w ∖ {[pos]}) Hi q H) as [[? _]|?]; [by left|by right]. }
  assert (forall c q, told w' c q -> q = pos \/ told w c q) as Htold.
  { intros c q (E & Hu & Hs). simpl in Hu. destruct (decide (q = pos)) as [->|Hne]; [by left|right]. split_and!; [done|set_solver|done]. }
  apply (quiet_step_ok n w w'); try done.
  - split; [done|intros x; by rewrite Hrev|]. intros c x q y _ Ht _.
    destruct (Htold c q Ht) as [->|Ht']; [left; right; by exists id|right]. split; [done|]. intros [?|[H|[? H]]]; [by left| |congruence].
    right. destruct (Hw q H) as [->|?]; [right; by exists id|by left].
  - intros pid p c q y _ _ Ht.
    destruct (Htold c q Ht) as [->|Ht']; [left; right; exists id, h1; split_and!; [done|done|left; apply Hrec; by left]|right].
    split; [done|]. intros [?|[H|(x & hx & Hax & Hx & H)]]; [by left| |].
    + right. destruct (Hw q H) as [->|?]; [|by left]. right. exists id, h1. split_and!; [done|done|]. left. apply Hrec. by left.
    + right. right. destruct H as [H|H]; [|unfold being_sent in H; by rewrite Hg in H].
      destruct (decide (x = id)) as [->|Hne].
      * exists id, h1. split_and!; [done|done|]. left. apply Hrec. right. congruence.
      * exists x, hx. split_and!; [done|simpl; by rewrite lookup_alter_ne|by left].
  - intros x hx Hx. destruct (decide (x = id)) as [->|Hne]; [exists h1; split; [done|]; by assert (hx = h) as -> by congruence|].
    exists hx. split; [simpl; by rewrite lookup_alter_ne|done].
  - intros x hx Hx. apply holders_alter in Hx as [(-> & h0 & E & ->)|[Hne Hx]].
    + assert (h0 = h) as -> by (simpl in E; congruence). fold h1. split_and!; [done| | |simpl; lia|simpl; lia].
      * intros q [->|Hq]%Hrec; [by split; [|exists state]|by apply Hc].
      * split; [intros q _; right; left; by exists pos|apply Hf|]. intros Hq. apply (fo_queue _ _ _ Hf) in Hq.
        unfold in_queue in *. rewrite Hg in Hq. exact Hq.
    + destruct (wo_holder _ _ Hok x hx Hx) as (? & ? & F & ?). split_and!; [done|done| |lia|lia].
      apply (flags_keep w); [done| |]; unfold recording, in_queue; rewrite Hg; [|done]. intros [[? ?]|?]; done.
  - split; [done|]. exists h1. split; [done|]. apply Hrec. by left.
Qed.

Lemma report_ok n w update_clients i : world_ok n w -> w_game w = GIdle -> world_ok (n + 1) (report update_clients i w).
Proof.
  intros Hok Hg. unfold report. destruct (w_unreported w !! i) as [[pos state]|] eqn:Hi; [|by apply world_ok_mono].
  case_bool_decide as Hb; [|by apply (report_skip_ok n w i pos state)]. cbn [negb].
  destruct (w_active w !! chunk_of pos) as [id|] eqn:Ha; cbn [mbind option_bind]; [|by apply (report_untold_ok n w i pos state)].
  destruct (w_holders w !! id) as [h|] eqn:Hh; cbn [mbind option_bind]; [|by apply (report_untold_ok n w i pos state)].
  destruct (_ && _); [|by apply (report_untold_ok n w i pos state)].
  destruct (changed_section h pos) as [k|] eqn:Hk; cbn [mbind option_bind]; [|by apply (report_untold_ok n w i pos state)].
  by apply (report_record_ok n w i pos state id k h).
Qed.
(** *** The game thread continues *)

(** For steps that write no block. *)
Lemma told_same w w' c pos : w_blocks w' = w_blocks w -> w_untold w' = w_untold w -> told w' c pos -> told w c pos.
Proof. unfold told. by intros -> ->. Qed.

Lemma fresh_same w w' : w_active w' = w_active w -> w_blocks w' = w_blocks w -> w_untold w' = w_untold w ->
  (forall id, revision_of w id <= revision_of w' id) ->
  (forall c id pos, w_active w !! c = Some id -> chunk_of pos = c -> revision_of w' id = revision_of w id ->
     unrevised w pos -> unrevised w' pos) -> keeps_fresh w w'.
Proof.
  intros Ea Eb Eu Hr Hu. split; [done|done|]. intros c id pos x Hc Ht Er. right. split; [by apply (told_same w w')|].
  rewrite Eb. intros [?|H]; [by left|right]. apply (Hu c id); [done|apply Ht|done|done].
Qed.

Lemma keeps_told_same w w' : w_blocks w' = w_blocks w -> w_untold w' = w_untold w ->
  (forall pid p pos, t_players (w_system w).1 !! pid = Some p -> chunk_of pos ∈ sent_chunks (chunk_sender p) ->
     to_be_told w pid pos -> to_be_told w' pid pos) -> keeps_told w w'.
Proof.
  intros Eb Eu H pid p c pos x Hp Hc Ht. right. split; [by apply (told_same w w')|]. rewrite Eb.
  destruct Ht as [<- _]. intros [?|?]; [by left|right; by apply (H pid p)].
Qed.

(** The thread moves on and touches nothing else. *)
Lemma game_moves_ok n w g : world_ok n w ->
  (forall id h, w_holders w !! id = Some h -> recording w id -> recording (set_game w g) id) ->
  (forall id h, w_holders w !! id = Some h -> id ∈ game_rest (w_game w) -> id ∈ game_rest g) ->
  (forall pos, unrevised w pos -> unrevised (set_game w g) pos) ->
  (forall pid p pos id h, t_players (w_system w).1 !! pid = Some p -> chunk_of pos ∈ sent_chunks (chunk_sender p) ->
     w_holders w !! id = Some h -> h_pos h = chunk_of pos -> being_sent w pid id h pos -> being_sent (set_game w g) pid id h pos) ->
  game_ok (set_game w g) -> world_ok (n + 1) (set_game w g).
Proof.
  intros Hok Hrec Hq Hu Hs Hg. apply (quiet_step_ok n w); try done.
  - apply fresh_same; try done. intros c id pos _ _ _. apply Hu.
  - apply keeps_told_same; [done|done|]. intros pid p pos Hp Hc [H|(id & h & Ha & Hh & H)]; [by left|right].
    exists id, h. split_and!; [done|done|]. destruct H as [H|H]; [by left|right]. apply (Hs pid p); try done.
    destruct (wo_active _ _ Hok _ _ Ha) as (h' & ? & <-). congruence.
  - intros id h Hid. by exists h.
  - intros id h Hid. destruct (wo_holder _ _ Hok id h Hid) as (H1 & H2 & H3 & H4). split_and!; [done|done| |lia|lia].
    apply (flags_keep w); [done|by apply (Hrec id h)|]. intros [?|[?|?]]; [by left|right; by left|right; right; by apply (Hq id h)].
Qed.
(** *** One holder changes *)

Definition same_place (h h' : ChunkHolder) : Prop := h_pos h' = h_pos h /\ h_min_y h' = h_min_y h.

Lemma recorded_place h h' changes pos : same_place h h' -> recorded h changes pos -> recorded h' changes pos.
Proof. intros [E1 E2] (i & s & k & ? & ? & E). exists i, s, k. unfold section_of. rewrite E1, E2. done. Qed.

Lemma being_sent_place w pid id h h' pos : same_place h h' -> being_sent w pid id h pos -> being_sent w pid id h' pos.
Proof.
  intros Hp. unfold being_sent. destruct (w_game w); try done.
  - intros [? ?]. split; [done|]. by apply (recorded_place h).
  - intros (? & ? & ?). split_and!; [done|done|]. by apply (recorded_place h).
Qed.

Lemma alter_holder w id h f : w_holders w !! id = Some h ->
  update_tracker w id f = set_holders w (<[id := set_tracker h f]> (w_holders w)).
Proof.
  intros Hh. unfold update_tracker, set_holders. f_equal. apply map_eq. intros x. destruct (decide (x = id)) as [->|Hx].
  - by rewrite lookup_alter_eq, lookup_insert_eq, Hh.
  - by rewrite lookup_alter_ne, lookup_insert_ne.
Qed.

Lemma revision_insert w id h x : revision_of (set_holders w (<[id := h]> (w_holders w))) x =
  if decide (x = id) then packet_content_revision (h_changes h) else revision_of w x.
Proof.
  unfold revision_of. simpl. destruct (decide (x = id)) as [->|Hx]; [by rewrite lookup_insert_eq|by rewrite lookup_insert_ne].
Qed.

Definition with_holder w (id : Z) (h : ChunkHolder) (q l : list Z) (g : game_state) : broadcast_world :=
  set_game (set_queue (set_holders w (<[id := h]> (w_holders w))) q l) g.

Lemma holder_step_ok n w id h h' q l g : world_ok n w -> w_holders w !! id = Some h -> same_place h h' ->
  packet_content_revision (h_changes h) <= packet_content_revision (h_changes h') <= n + 1 ->
  let w' := with_holder w id h' q l g in
  (forall pos, recorded h' (pending_changes h') pos -> recorded h (pending_changes h) pos) ->
  flags_ok w' id h' ->
  (forall x, x <> id -> recording w x -> recording w' x) -> (forall x, x <> id -> in_queue w x -> in_queue w' x) ->
  (forall pos, (w_active w !! chunk_of pos = Some id ->
                 packet_content_revision (h_changes h') = packet_content_revision (h_changes h)) ->
     unrevised w pos -> unrevised w' pos) ->
  (forall pid pos, recorded h (pending_changes h) pos ->
     recorded h' (pending_changes h') pos \/ being_sent w' pid id h' pos) ->
  (forall pid x hx pos, being_sent w pid x hx pos -> being_sent w' pid x hx pos) ->
  game_ok w' -> world_ok (n + 1) w'.
Proof.
  intros Hok Hh [Hp Hy] Hrev w' Hrec Hflags Hrc Hq Hu Hsend Hsent Hg.
  assert (forall x, x <> id -> w_holders w' !! x = w_holders w !! x) as Hne by (intros x Hx; simpl; by rewrite lookup_insert_ne).
  assert (w_holders w' !! id = Some h') as Hid by (simpl; by rewrite lookup_insert_eq).
  assert (forall x, revision_of w' x = if decide (x = id) then packet_content_revision (h_changes h') else revision_of w x) as Er
    by exact (revision_insert w id h').
  destruct (wo_holder _ _ Hok id h Hh) as (He & Hc & Hf & Hr).
  assert (revision_of w id = packet_content_revision (h_changes h)) as Ei by (unfold revision_of; by rewrite Hh).
  apply (quiet_step_ok n w w'); try done.
  - apply fresh_same; try done.
    + intros x. rewrite Er. destruct (decide (x = id)) as [->|]; lia.
    + intros c x pos Hx <- E. apply Hu. intros Hx'. assert (x = id) as -> by congruence.
      rewrite Er, decide_True in E by done. congruence.
  - apply keeps_told_same; [done|done|]. intros pid p pos _ _ [H|(x & hx & Ha & Hx & H)]; [by left|right].
    destruct (decide (x = id)) as [->|Hx'].
    + assert (hx = h) as -> by congruence. exists id, h'. split_and!; [done|done|].
      destruct H as [H|H]; [by apply Hsend|right]. apply Hsent. by apply (being_sent_place w pid id h).
    + exists x, hx. split_and!; [done|by rewrite Hne|]. destruct H as [H|H]; [by left|right; by apply Hsent].
  - intros x hx Hx. destruct (decide (x = id)) as [->|Hx']; [|exists hx; by rewrite Hne].
    assert (hx = h) as -> by congruence. by exists h'.
  - intros x hx Hx. destruct (decide (x = id)) as [->|Hx'].
    + assert (hx = h') as -> by congruence. split_and!; [unfold extent_ok; congruence| |done|lia|lia].
      intros pos Hpos. rewrite Hp. by apply Hc, Hrec.
    + rewrite Hne in Hx by done. destruct (wo_holder _ _ Hok x hx Hx) as (? & ? & ? & ?). split_and!; [done|done| |lia|lia].
      apply (flags_keep w); auto.
Qed.
Lemma revise_ok n w id pos : world_ok n w -> n + 1 < 2 ^ 64 -> w_game w = GInserted id pos ->
  world_ok (n + 1) (set_game (update_tracker w id mark_packet_content_changed) (GRevised id)).
Proof.
  intros Hok Hn Hg. pose proof (wo_game _ _ Hok) as Hgame. unfold game_ok in Hgame. rewrite Hg in Hgame. destruct Hgame as [Ha (h & Hh & Hpos)].
  rewrite (alter_holder w id h) by done. destruct (wo_holder _ _ Hok id h Hh) as (He & Hc & Hf & Hr).
  assert (u64 (packet_content_revision (h_changes h) + 1) = packet_content_revision (h_changes h) + 1) as Er
    by (apply wrapu_small; unfold in_u; lia).
  apply (holder_step_ok n w id h _ (chunks_to_broadcast w) (w_light_queueing w)); try done.
  - simpl. rewrite Er. lia.
  - split; [intros q _; right; by right|apply Hf|]. intros H. apply (fo_queue _ _ _ Hf) in H. unfold in_queue in *. by rewrite Hg in H.
  - intros x Hx [[q E]|E]; congruence.
  - intros x Hx. unfold in_queue. by rewrite Hg.
  - intros q Hq [H|[x H]]; [by left|]. rewrite Hg in H. injection H as <- <-. specialize (Hq Ha). simpl in Hq. lia.
  - intros pid q Hq. by left.
  - intros pid x hx q. unfold being_sent. by rewrite Hg.
Qed.

Lemma flag_ok n w id : world_ok n w -> w_game w = GRevised id -> world_ok (n + 1) (game_continue w).
Proof.
  intros Hok Hg. unfold game_continue. rewrite Hg. destruct (w_holders w !! id) as [h|] eqn:Hh.
  2:{ assert (set_queue (update_tracker w id flag_changed) (chunks_to_broadcast w) (w_light_queueing w) = w) as ->.
      { unfold update_tracker. rewrite alter_id by (by rewrite Hh). by destruct w. }
      apply game_moves_ok; try done.
      - intros x hx Hx [[q E]|E]; congruence.
      - intros x hx _. by rewrite Hg.
      - intros q [H|[x E]]; [by left|congruence].
      - intros pid p q x hx _ _ _ _. unfold being_sent. by rewrite Hg. }
  rewrite (alter_holder w id h) by done. destruct (wo_holder _ _ Hok id h Hh) as (He & Hc & Hf & Hr).
  apply (holder_step_ok n w id h); try done.
  - simpl. lia.
  - split; [by left|done|]. intros _. unfold in_queue. simpl. destruct (queued_for_broadcast (h_changes h)) eqn:E.
    + apply (fo_queue _ _ _ Hf) in E. unfold in_queue in E. by rewrite Hg in E.
    + left. apply elem_of_app. right. by left.
  - intros x Hx [[q E]|E]; congruence.
  - intros x Hx [H|[H|H]]; [left; simpl; case_match; set_solver|right; by left|]. rewrite Hg in H. by apply elem_of_nil in H.
  - intros q _ [H|[x E]]; [by left|congruence].
  - intros pid q Hq. by left.
  - intros pid x hx q. unfold being_sent. by rewrite Hg.
Qed.
(** *** The broadcast *)

(** The holder after its changes were taken. *)
Definition taken (h : ChunkHolder) : ChunkHolder * list (nat * gset Z) :=
  take_changed_blocks (take_changed_light_sections (clear_broadcast_queued h)).1.

Lemma nothing_recorded h (l : list (gset Z)) pos : changed_blocks_per_section (h_changes h) = (fun _ => ∅) <$> l ->
  ~ recorded h (pending_changes h) pos.
Proof.
  intros E (i & s & k & Hi & Hk & _)%recorded_pending. rewrite E, list_lookup_fmap in Hi.
  apply fmap_Some in Hi as (? & _ & ->). by apply elem_of_empty in Hk.
Qed.

Lemma taken_spec h : let '(h', changes) := taken h in
  same_place h h' /\ packet_content_revision (h_changes h') = packet_content_revision (h_changes h) /\
  queued_for_broadcast (h_changes h') = false /\ has_changed_sections (h_changes h') = false /\
  (has_changed_sections (h_changes h) = true ->
     changes = pending_changes h /\ forall pos, ~ recorded h' (pending_changes h') pos) /\
  (has_changed_sections (h_changes h) = false -> pending_changes h' = pending_changes h /\ changes = []).
Proof.
  unfold taken, take_changed_blocks. simpl. destruct (has_changed_sections (h_changes h)) eqn:E.
  - split_and!; try done. intros _. split; [done|]. intros pos. by eapply nothing_recorded.
  - split_and!; done.
Qed.

Lemma take_ok n w id h queue : world_ok n w -> w_game w = GBroadcast (id :: queue) -> w_holders w !! id = Some h ->
  world_ok (n + 1) (set_game (set_holders w (<[id := (taken h).1]> (w_holders w))) (GTaken id (taken h).2 queue)).
Proof.
  intros Hok Hg Hh. pose proof (taken_spec h) as Ht. destruct (taken h) as [h' changes].
  destruct Ht as (Hp & Hr & Hq & Hc & H1 & H2). destruct (wo_holder _ _ Hok id h Hh) as (He & Hch & Hf & Hrv). simpl.
  assert (forall pos, recorded h (pending_changes h) pos -> has_changed_sections (h_changes h) = true) as Hflag.
  { intros pos Hpos. destruct (fo_changed _ _ _ Hf pos Hpos) as [?|[[q E]|E]]; [done|congruence..]. }
  assert (forall pos, ~ recorded h' (pending_changes h') pos) as Hnone.
  { intros pos Hpos. destruct (has_changed_sections (h_changes h)) eqn:E; [by apply (proj2 (H1 eq_refl) pos)|].
    rewrite (proj1 (H2 eq_refl)) in Hpos. apply (recorded_place h' h) in Hpos; [|by destruct Hp; split].
    by specialize (Hflag pos Hpos). }
  apply (holder_step_ok n w id h h' (chunks_to_broadcast w) (w_light_queueing w)); try done.
  - rewrite Hr. lia.
  - intros pos Hpos. by apply Hnone in Hpos.
  - split; [intros pos Hpos; by apply Hnone in Hpos|congruence|congruence].
  - intros x Hx [[q E]|E]; congruence.
  - intros x Hx [H|[H|H]]; [by left|right; by left|]. right. right. rewrite Hg in H. by apply elem_of_cons in H as [?|?].
  - intros pos _ [H|[x E]]; [by left|congruence].
  - intros pid pos Hpos. right. split; [done|]. rewrite (proj1 (H1 (Hflag pos Hpos))). by apply (recorded_place h).
  - intros pid x hx pos. unfold being_sent. by rewrite Hg.
  - intros hx Hx. simpl in Hx. rewrite lookup_insert_eq in Hx. injection Hx as <-. intros pos Hpos.
    apply (recorded_place h' h) in Hpos; [|by destruct Hp; split]. rewrite (proj1 Hp).
    destruct (has_changed_sections (h_changes h)) eqn:E; [rewrite (proj1 (H1 eq_refl)) in Hpos; by apply Hch|].
    rewrite (proj2 (H2 eq_refl)) in Hpos. destruct Hpos as (? & ? & ? & ?%elem_of_nil & _). done.
Qed.

Lemma broadcast_ok n w : world_ok n w -> w_game w = GIdle ->
  world_ok (n + 1) (set_game (set_queue w [] (w_light_queueing w)) (GBroadcast (chunks_to_broadcast w))).
Proof.
  intros Hok Hg. apply (quiet_step_ok n w); try done.
  - apply fresh_same; try done. intros c id pos _ _ _ [H|[x E]]; [by left|congruence].
  - apply keeps_told_same; [done|done|]. intros pid p pos _ _ [H|(id & h & Ha & Hh & [H|H])]; [by left| |].
    + right. exists id, h. split_and!; [done|done|by left].
    + unfold being_sent in H. by rewrite Hg in H.
  - intros id h Hh. by exists h.
  - apply (same_holders_ok n w); try done.
    + intros id [[q E]|E]; congruence.
    + intros id [H|[H|H]]; [right; by right|right; by left|]. rewrite Hg in H. by apply elem_of_nil in H.
Qed.
(** Every player that was sent a chunk is found. *)
Lemma viewers_found t b pid p c : system_ok simulation_distance (t, b) -> t_players t !! pid = Some p ->
  c ∈ sent_chunks (chunk_sender p) -> pid ∈ packet_tracking_players t c.
Proof.
  intros Hok Hp Hc. unfold packet_tracking_players. apply list_elem_of_filter. rewrite Hp. split; [by apply bool_decide_eq_true|].
  apply (get_tracking_players_spec _ _ _ _ (sy_area _ _ Hok)). unfold tracked_views, seen_by. simpl. rewrite lookup_omap, Hp. simpl.
  destruct (sy_sessions _ _ Hok pid p Hp) as [Hv _ _ _]. destruct (last_tracking_view p) as [v|].
  - eexists. split; [done|]. destruct Hv as [Hv H]. apply elem_of_list_to_set, elem_of_view_for_each; [done|]. apply H. by right.
  - destruct Hv as [_ E]. rewrite E in Hc. by apply elem_of_empty in Hc.
Qed.

Lemma lookup_viewers_ok n w id h changes queue : world_ok n w -> w_game w = GTaken id changes queue ->
  w_holders w !! id = Some h ->
  world_ok (n + 1) (set_game w (GSending id (packet_tracking_players (w_system w).1 (h_pos h)) changes queue)).
Proof.
  intros Hok Hg Hh. pose proof (wo_game _ _ Hok) as Hgame. unfold game_ok in Hgame. rewrite Hg in Hgame. apply game_moves_ok; try done.
  - intros x hx _ [[q E]|E]; congruence.
  - intros x hx _. by rewrite Hg.
  - intros q [H|[x E]]; [by left|congruence].
  - intros pid p pos x hx Hp Hc Hx E. unfold being_sent. rewrite Hg. simpl. intros [<- H]. split_and!; [done| |done].
    assert (hx = h) as -> by congruence. rewrite E.
    pose proof (wo_system _ _ Hok) as Hs. destruct (w_system w) as [t b]. by apply (viewers_found t b pid p).
Qed.

(** The thread turns to the rest of the queue. *)
Lemma next_holder_ok n w queue : world_ok n w -> (forall id pos, w_game w <> GInserted id pos) ->
  (forall id, w_game w <> GRevised id) ->
  (forall id h, w_holders w !! id = Some h -> id ∈ game_rest (w_game w) -> id ∈ queue) ->
  (forall pid id h pos, w_holders w !! id = Some h -> ~ being_sent w pid id h pos) ->
  world_ok (n + 1) (set_game w (GBroadcast queue)).
Proof.
  intros Hok H1 H2 Hq Hs. apply game_moves_ok; try done.
  - intros x hx _ [[q E]|E]; exfalso; [by eapply H1|by eapply H2].
  - intros q [H|[x E]]; [by left|]. exfalso. by eapply H1.
  - intros pid p pos x hx _ _ Hx _ H. by apply Hs in H.
Qed.

(** *** Sending a section *)

Definition inert (p : packet chunk_blocks) : Prop := forall held, client_receive held p = held.

Lemma section_packet_inert blocks section changed : inert (section_packet blocks section changed).
Proof. intros held. unfold section_packet. by destruct (elements changed) as [|? [|? ?]]. Qed.

Lemma send_to_ok t b p id : inert p -> system_ok simulation_distance (t, b) -> system_ok simulation_distance (send_to p t id, b).
Proof.
  intros Hi Hok. unfold send_to. destruct (t_players t !! id) as [q|] eqn:Hq.
  - assert (alter (fun q => with_sender q (chunk_sender q) [p]) id (t_players t) = <[id := with_sender q (chunk_sender q) [p]]> (t_players t)) as ->.
    { apply map_eq. intros x. destruct (decide (x = id)) as [->|Hx]; [by rewrite lookup_alter_eq, lookup_insert_eq, Hq|].
      by rewrite lookup_alter_ne, lookup_insert_ne. }
    apply (set_player_ok simulation_distance t b b id q); try done.
    + pose proof (sy_sessions _ _ Hok id q Hq) as Hs. apply with_sender_session; try done; [apply Hs| |apply Hs|].
      * rewrite client_chunks_app. simpl. by rewrite Hi.
      * intros Hn. destruct Hs as [S1 _ _ _]. by rewrite Hn in S1.
    + intros x batch r. by apply (room_others simulation_distance t b id q (chunk_sender q) Hok Hq).
  - rewrite alter_id by (by rewrite Hq). by destruct t.
Qed.

Lemma send_all_ok b p ids : inert p -> forall t, system_ok simulation_distance (t, b) ->
  system_ok simulation_distance (foldl (send_to p) t ids, b).
Proof. intros Hi. induction ids as [|id ids IH]; intros t Ht; [done|]. simpl. by apply IH, send_to_ok. Qed.

(** Each player gets the packet, at least once when it is listed. *)
Lemma send_all_player p ids pid q' : forall t, t_players (foldl (send_to p) t ids) !! pid = Some q' ->
  exists q k, t_players t !! pid = Some q /\ p_closed q' = p_closed q /\ chunk_sender q' = chunk_sender q /\
    p_log q' = p_log q ++ replicate k p /\ (pid ∈ ids -> (0 < k)%nat).
Proof.
  induction ids as [|id ids IH]; intros t Hq; simpl in Hq.
  { exists q', O. split_and!; try done; [by rewrite app_nil_r|]. by intros ?%elem_of_nil. }
  destruct (IH _ Hq) as (q & k & Hq' & E1 & E2 & E3 & E4). simpl in Hq'.
  apply lookup_alter_Some in Hq' as [[-> (q0 & E & ->)]|[Hne E]].
  - exists q0, (S k). split_and!; try done; [|intros _; lia]. rewrite E3. simpl. by rewrite <- app_assoc.
  - exists q, k. split_and!; try done. intros [?|?]%elem_of_cons; [congruence|auto].
Qed.
(** A client that gets the packet of a section [k] times. *)
Lemma section_packets_apply blocks section changed k : forall held data,
  let c := mkChunkPos (sp_x section) (sp_z section) in
  held !! c = Some data -> (forall packed, packed ∈ changed -> chunk_of (SectionPos_relative_to_block_pos section packed) = c) ->
  exists data', foldl client_apply held (replicate k (section_packet blocks section changed)) !! c = Some data' /\
    forall pos, data' !! pos =
      if decide ((0 < k)%nat /\ pos ∈ SectionPos_relative_to_block_pos section <$> elements changed)
      then Some (block_state blocks pos) else data !! pos.
Proof.
  induction k as [|k IH]; intros held data c Hd Hpos; cbn [replicate foldl].
  { exists data. split; [done|]. intros pos. case_decide; [lia|done]. }
  destruct (section_packet_apply blocks section changed held data Hd Hpos) as (d1 & E1 & D1).
  destruct (IH _ d1 E1 Hpos) as (d2 & E2 & D2). exists d2. split; [done|]. intros pos. rewrite D2, D1.
  destruct (decide (pos ∈ _)) as [Hin|Hin].
  - destruct (decide (_ /\ _)), (decide (_ /\ _)) as [|Hn]; try done; exfalso; apply Hn; (split; [lia|done]).
  - destruct (decide (_ /\ _)) as [[]|], (decide (_ /\ _)) as [[]|]; done.
Qed.

Lemma section_packets_other blocks section changed k c : forall held,
  c <> mkChunkPos (sp_x section) (sp_z section) ->
  (forall packed, packed ∈ changed -> chunk_of (SectionPos_relative_to_block_pos section packed) = mkChunkPos (sp_x section) (sp_z section)) ->
  foldl client_apply held (replicate k (section_packet blocks section changed)) !! c = held !! c.
Proof. induction k as [|k IH]; intros held Hc Hpos; [done|]. simpl. rewrite IH by done. by apply section_packet_other. Qed.

Lemma recorded_cons h i changed changes pos : recorded h ((i, changed) :: changes) pos <->
  pos ∈ SectionPos_relative_to_block_pos (section_of h i) <$> elements changed \/ recorded h changes pos.
Proof.
  unfold recorded. rewrite list_elem_of_fmap. setoid_rewrite elem_of_elements. split.
  - intros (j & s & k & [[= -> ->]|H]%elem_of_cons & Hk & <-); [left; by exists k|right; by exists j, s, k].
  - intros [(k & -> & Hk)|(j & s & k & H & Hk & <-)]; [exists i, changed, k|exists j, s, k]; split_and!; try done;
      apply elem_of_cons; [by left|by right].
Qed.

Lemma send_section_ok n w id h players i changed changes queue : world_ok n w ->
  w_game w = GSending id players ((i, changed) :: changes) queue -> w_holders w !! id = Some h ->
  world_ok (n + 1)
    (set_game (set_system w (foldl (send_to (section_packet (w_blocks w) (section_of h i) changed)) (w_system w).1 players,
                             (w_system w).2)) (GSending id players changes queue)).
Proof.
  intros Hok Hg Hh. set (p := section_packet _ _ _). set (w' := set_game _ _).
  pose proof (wo_game _ _ Hok) as Hgame. unfold game_ok in Hgame. rewrite Hg in Hgame. specialize (Hgame h Hh).
  assert (keeps_fresh w w') as Hfresh.
  { apply fresh_same; try done. intros c x pos _ _ _ [H|[y E]]; [by left|congruence]. }
  assert (forall packed, packed ∈ changed -> chunk_of (SectionPos_relative_to_block_pos (section_of h i) packed) = h_pos h) as Hpk.
  { intros packed Hin. apply Hgame, recorded_cons. left. apply list_elem_of_fmap. exists packed. by rewrite elem_of_elements. }
  assert (mkChunkPos (sp_x (section_of h i)) (sp_z (section_of h i)) = h_pos h) as Es by (simpl; by destruct (h_pos h)).
  apply (step_ok n w); try done.
  - simpl. apply send_all_ok; [apply section_packet_inert|]. pose proof (wo_system _ _ Hok) as H. by destruct (w_system w).
  - eapply Forall_impl; [apply (wo_jobs _ _ Hok)|]. intros j. by apply job_ok_fresh.
  - eapply Forall_impl; [apply (wo_cache _ _ Hok)|]. intros e. by apply encoded_ok_fresh.
  - intros x hx Hx. by exists hx.
  - apply (same_holders_ok n w); try done.
    + intros x [[q E]|E]; congruence.
    + intros x. unfold in_queue. by rewrite Hg.
  - intros hx Hx pos Hpos. simpl in Hx. assert (hx = h) as -> by congruence. apply Hgame, recorded_cons. by right.
  - intros pid q' c pos Hq' Hcl Hc Ht. simpl in Hq'.
    destruct (send_all_player p players pid q' _ Hq') as (q & k & Hq & E1 & E2 & E3 & E4).
    rewrite E1 in Hcl. rewrite E2 in Hc. destruct (wo_mirror _ _ Hok pid q c pos Hq Hcl Hc Ht) as (data & Hd & Hdata).
    rewrite E3, client_blocks_app. destruct (decide (c = h_pos h)) as [->|Hne].
    + rewrite <- Es in Hd |- *.
      destruct (section_packets_apply (w_blocks w) (section_of h i) changed k _ data Hd ltac:(by rewrite Es)) as (d' & Ed & D).
      exists d'. split; [done|]. rewrite D. assert (Some (block_state (w_blocks w) pos) = w_blocks w !! pos) as Eb.
      { destruct Ht as (_ & _ & [v Hv]). unfold block_state. simpl in Hv. by rewrite Hv. }
      destruct (decide _) as [Hin|Hin]; [by left|]. destruct Hdata as [H|[H|(x & hx & Ha & Hx & H)]]; [by left|right; by left|].
      right. right. exists x, hx. split_and!; [done|done|]. destruct H as [H|H]; [by left|right]. unfold being_sent in H |- *.
      rewrite Hg in H. simpl. destruct H as (<- & Hin' & H). split_and!; [done|done|].
      assert (hx = h) as -> by congruence. apply recorded_cons in H as [H|H]; [|done]. exfalso. apply Hin. split; [by apply E4|done].
    + unfold p. rewrite section_packets_other by (rewrite Es; done). exists data. split; [done|].
      destruct Hdata as [H|[H|(x & hx & Ha & Hx & H)]]; [by left|right; by left|].
      right. right. exists x, hx. split_and!; [done|done|]. destruct H as [H|H]; [by left|exfalso]. unfold being_sent in H.
      rewrite Hg in H. destruct H as (<- & _ & H). destruct (wo_active _ _ Hok _ _ Ha) as (h' & Eh & Ep).
      apply Hne. destruct Ht as [<- _]. congruence.
Qed.
Lemma game_continue_ok n w : world_ok n w -> n + 1 < 2 ^ 64 -> world_ok (n + 1) (game_continue w).
Proof.
  intros Hok Hn. pose proof (fun id => flag_ok n w id Hok) as Hflag. unfold game_continue in *.
  destruct (w_game w) as [|id pos|id|[|id queue]|id changes queue|id players [|[i changed] changes] queue] eqn:Hg.
  - by apply world_ok_mono.
  - by apply (revise_ok n w id pos).
  - exact (Hflag id eq_refl).
  - apply game_moves_ok; try done.
    + intros x h _ [[q E]|E]; congruence.
    + intros x h _. by rewrite Hg.
    + intros q [H|[x E]]; [by left|congruence].
    + intros pid p pos x h _ _ _ _. unfold being_sent. by rewrite Hg.
  - destruct (w_holders w !! id) as [h|] eqn:Hh.
    { pose proof (take_ok n w id h queue Hok Hg Hh) as H. unfold taken in H. simpl in H |- *.
      by destruct (take_changed_blocks _). }
    apply next_holder_ok; try done; try congruence.
    + intros x h Hx. rewrite Hg. intros [->|?]%elem_of_cons; [congruence|done].
    + intros pid x h pos _. unfold being_sent. rewrite Hg. by intros [].
  - destruct (w_holders w !! id) as [h|] eqn:Hh; [by apply lookup_viewers_ok|].
    apply next_holder_ok; try done; try congruence.
    + intros x h Hx. by rewrite Hg.
    + intros pid x h pos Hx. unfold being_sent. rewrite Hg. intros [<- _]. congruence.
  - apply next_holder_ok; try done; try congruence.
    + intros x h Hx. by rewrite Hg.
    + intros pid x h pos Hx. unfold being_sent. rewrite Hg. intros (_ & _ & ? & ? & ? & ?%elem_of_nil & _). done.
  - destruct (w_holders w !! id) as [h|] eqn:Hh; [by apply send_section_ok|].
    apply next_holder_ok; try done; try congruence.
    + intros x h Hx. by rewrite Hg.
    + intros pid x h pos Hx. unfold being_sent. rewrite Hg. intros [<- _]. congruence.
Qed.

(** A packet that was not sent: its positions are no longer told. *)
Lemma lost_packet_ok n w g lost : world_ok n w ->
  (forall id, recording w id -> recording (set_game w g) id) ->
  (forall id, in_queue w id -> in_queue (set_game w g) id) ->
  (forall id pos, w_game w <> GInserted id pos) ->
  (forall pid id h pos, w_holders w !! id = Some h -> being_sent w pid id h pos ->
     pos ∈ lost \/ being_sent (set_game w g) pid id h pos) ->
  game_ok (set_game w g) ->
  world_ok (n + 1) (set_unreported (set_game w g) (w_unreported w) (lost ∪ w_untold w)).
Proof.
  intros Hok Hrec Hq Hi Hs Hg. set (w' := set_unreported _ _ _).
  assert (forall c pos, told w' c pos -> told w c pos /\ pos ∉ lost) as Htold.
  { intros c pos (E & Hu & Hb). simpl in Hu. split; [split_and!; [done|set_solver|done]|set_solver]. }
  apply (quiet_step_ok n w w'); try done.
  - split; [done|done|]. intros c id pos x _ Ht _. right. destruct (Htold c pos Ht) as [Ht' _]. split; [done|].
    intros [?|[?|[id' H]]]; [by left|right; by left|]. by apply Hi in H.
  - intros pid p c pos x _ _ Ht. right. destruct (Htold c pos Ht) as [Ht' Hl]. split; [done|].
    intros [?|[?|(id & h & Ha & Hh & H)]]; [by left|right; by left|]. right. right. exists id, h. split_and!; [done|done|].
    destruct H as [H|H]; [by left|right]. by destruct (Hs pid id h pos Hh H).
  - intros id h Hid. by exists h.
  - by apply (same_holders_ok n w w').
Qed.

Lemma encoding_fails_ok n w w' : world_ok n w -> encoding_fails w = Some w' -> world_ok (n + 1) w'.
Proof.
  intros Hok Hf. pose proof (wo_game _ _ Hok) as Hgame. unfold encoding_fails, game_ok in *.
  destruct (w_game w) as [| | | |id changes queue|id [|player players] [|[i changed] changes] queue] eqn:Hg; try done;
    apply bind_Some in Hf as (h & Hh & [= <-]); apply lost_packet_ok; try done; try congruence.
  - intros x [[q E]|E]; congruence.
  - intros x. unfold in_queue. by rewrite Hg.
  - intros pid x hx pos Hx. unfold being_sent. rewrite Hg. intros [<- H]. left. apply elem_of_change_positions. congruence.
  - intros x [[q E]|E]; congruence.
  - intros x. unfold in_queue. by rewrite Hg.
  - intros pid x hx pos Hx. unfold being_sent. rewrite Hg. cbn [w_game set_game]. intros (<- & Hp & H).
    assert (hx = h) as -> by congruence. destruct H as (j & s & k & [[= -> ->]|Hin]%elem_of_cons & Hk & E).
    + left. apply elem_of_change_positions. exists i, changed, k. split_and!; [by left|done|done].
    + right. split_and!; [done|done|]. by exists j, s, k.
  - intros hx Hx pos (j & s & k & Hin & H). apply (Hgame hx Hx). exists j, s, k. split; [by right|done].
Qed.

(** *** Light workers and readiness *)

Lemma game_same_ok w id h h' q l : game_ok w -> w_holders w !! id = Some h -> same_place h h' ->
  (forall pos, recorded h (pending_changes h) pos -> recorded h' (pending_changes h') pos) ->
  game_ok (with_holder w id h' q l (w_game w)).
Proof.
  intros Hg Hh Hp Hrec. assert (forall x changes, (forall hx, w_holders w !! x = Some hx -> changes_ok w hx changes) ->
    forall hx, (<[id := h']> (w_holders w)) !! x = Some hx -> changes_ok w hx changes) as Hc.
  { intros x changes H hx [[<- <-]|[_ Hx]]%lookup_insert_Some; [|by apply H]. intros pos Hpos. rewrite (proj1 Hp).
    apply (H h Hh). apply (recorded_place h'); [by destruct Hp; split|done]. }
  unfold game_ok in *. simpl. destruct (w_game w) as [|x pos| | |x changes queue|x players changes queue]; try done.
  - destruct Hg as (Ha & hx & Hx & Hpos). split; [done|]. destruct (decide (x = id)) as [->|Hne].
    + exists h'. rewrite lookup_insert_eq. split; [done|]. apply Hrec. congruence.
    + exists hx. by rewrite lookup_insert_ne.
  - exact (Hc x changes Hg).
  - exact (Hc x changes Hg).
Qed.

Lemma mark_dirty_keeps h : h_changes (mark_dirty_data h) = h_changes h /\ same_place h (mark_dirty_data h) /\
  pending_changes (mark_dirty_data h) = pending_changes h.
Proof. unfold mark_dirty_data, set_dirty. by destruct (h_data h). Qed.

Lemma light_changed_spec h layer section : let '(h', queue) := light_changed h layer section in
  packet_content_revision (h_changes h) + 1 < 2 ^ 64 -> 0 <= packet_content_revision (h_changes h) ->
  same_place h h' /\
  packet_content_revision (h_changes h) <= packet_content_revision (h_changes h') <= packet_content_revision (h_changes h) + 1 /\
  pending_changes h' = pending_changes h /\ has_changed_sections (h_changes h') = has_changed_sections (h_changes h) /\
  (queued_for_broadcast (h_changes h) = true -> queued_for_broadcast (h_changes h') = true) /\
  (queued_for_broadcast (h_changes h') = true -> queued_for_broadcast (h_changes h) = true \/ queue = true).
Proof.
  unfold light_changed. destruct (mark_valid_light_section_dirty h section) as [[h0 visible]|] eqn:E; [|intros; split_and!; try done; auto; lia].
  assert (h0 = mark_dirty_data h) as ->.
  { unfold mark_valid_light_section_dirty in E. destruct (_ || _); [done|]. repeat apply bind_Some in E as (? & _ & E). congruence. }
  pose proof (mark_dirty_keeps h) as (Ec & Hp & Hpend). revert Ec Hp Hpend. generalize (mark_dirty_data h). clear E.
  intros h0 Ec Hp Hpend.
  destruct visible; [|intros Hr H0; rewrite Ec; split_and!; try done; auto; lia].
  assert (forall r, r + 1 < 2 ^ 64 -> 0 <= r -> u64 (r + 1) = r + 1) as Er
    by (intros r ? ?; apply wrapu_small; unfold in_u; lia).
  destruct layer; case_bool_decide; cbn; intros Hr H0; rewrite Ec, Er by done;
    (split_and!; [exact Hp|lia|lia|done|done|auto|]); destruct (queued_for_broadcast (h_changes h)); auto.
Qed.

Lemma light_ok n w id h layer section : world_ok n w -> n + 1 < 2 ^ 64 -> w_holders w !! id = Some h ->
  world_ok (n + 1)
    (set_queue (set_holders w (<[id := (light_changed h layer section).1]> (w_holders w))) (chunks_to_broadcast w)
       (if (light_changed h layer section).2 then id :: w_light_queueing w else w_light_queueing w)).
Proof.
  intros Hok Hn Hh. pose proof (light_changed_spec h layer section) as H. destruct (light_changed h layer section) as [h' queue].
  destruct (wo_holder _ _ Hok id h Hh) as (He & Hc & Hf & Hr).
  destruct H as (Hp & Hrev & Hpend & Hch & Hq1 & Hq2); [lia|lia|]. cbn [fst snd].
  assert (forall q, recorded h' (pending_changes h') q <-> recorded h (pending_changes h) q) as Hrec.
  { intros q. rewrite Hpend. split; apply recorded_place; [by destruct Hp; split|done]. }
  assert (forall x, in_queue w x -> in_queue (set_queue (set_holders w (<[id := h']> (w_holders w))) (chunks_to_broadcast w)
       (if queue then id :: w_light_queueing w else w_light_queueing w)) x) as Hq.
  { intros x [H|[H|H]]; [by left| |right; by right]. right. left. simpl. destruct queue; [by right|done]. }
  apply (holder_step_ok n w id h h' (chunks_to_broadcast w)
    (if queue then id :: w_light_queueing w else w_light_queueing w) (w_game w)); try done.
  - lia.
  - intros q. apply Hrec.
  - split.
    + intros pos Hpos. rewrite Hch. by apply (fo_changed _ _ _ Hf pos), Hrec.
    + rewrite Hch. intros H. apply Hq1. by apply (fo_queued _ _ _ Hf).
    + intros H. destruct (Hq2 H) as [H'| ->]; [by apply Hq, (fo_queue _ _ _ Hf)|]. right. left. simpl. by left.
  - intros x _. apply Hq.
  - intros pid q Hpos. left. by apply Hrec.
  - apply (game_same_ok w id h); try done; [apply Hok|]. intros q. apply Hrec.
Qed.

Lemma readiness_ok n w id h target h' previous : world_ok n w -> w_holders w !! id = Some h ->
  transition_ticking_readiness h target = Some (h', previous) ->
  world_ok (n + 1) (set_holders w (<[id := h']> (w_holders w))).
Proof.
  intros Hok Hh Ht. assert (exists r, h' = set_h_readiness r h) as [r ->].
  { unfold transition_ticking_readiness in Ht. apply bind_Some in Ht as (previous' & _ & Ht).
    case_decide; [injection Ht as <- <-; exists (h_readiness h); by destruct h|]. case_decide; [done|].
    injection Ht as <- _. eauto. }
  destruct (wo_holder _ _ Hok id h Hh) as (He & Hc & Hf & Hr).
  apply (holder_step_ok n w id h _ (chunks_to_broadcast w) (w_light_queueing w) (w_game w)); try done.
  - simpl. lia.
  - by destruct Hf.
  - intros pid pos Hpos. by left.
  - by apply (game_same_ok w id h); [apply Hok|..].
Qed.

Lemma light_queue_ok n w i id : world_ok n w -> w_light_queueing w !! i = Some id ->
  world_ok (n + 1) (set_queue w (chunks_to_broadcast w ++ [id]) (delete i (w_light_queueing w))).
Proof.
  intros Hok Hi. apply (quiet_step_ok n w); try done.
  - by apply fresh_same.
  - by apply keeps_told_same.
  - intros x h Hx. by exists h.
  - apply (same_holders_ok n w); try done. intros x [H|[H|H]]; [left; apply elem_of_app; by left| |right; by right].
    rewrite (delete_Permutation _ _ _ Hi) in H. apply elem_of_cons in H as [->|H]; [|right; by left].
    left. apply elem_of_app. right. by left.
  - apply Hok.
Qed.
(** *** Players and connections *)

(** Clients keep what they have of the chunks that stay sent. *)
Definition clients_keep (t t' : tracking (D := chunk_blocks)) : Prop :=
  forall pid p' c, t_players t' !! pid = Some p' -> p_closed p' = false -> c ∈ sent_chunks (chunk_sender p') ->
    exists p, t_players t !! pid = Some p /\ p_closed p = false /\ c ∈ sent_chunks (chunk_sender p) /\
      client_blocks (p_log p') !! c = client_blocks (p_log p) !! c.

Lemma outside_step_ok n w s jobs cache : world_ok n w -> system_ok simulation_distance s ->
  Forall (job_ok w) jobs -> Forall (encoded_ok w) cache -> mirror_ok (set_system w s) ->
  world_ok (n + 1) (set_cache (set_jobs (set_system w s) jobs) cache).
Proof.
  intros Hok Hs Hj Hc Hm. apply world_ok_mono. destruct Hok as [H1 H2 H3 H4 H5 H6 H7 H8]. split; try done.
  intros id h Hh. destruct (H3 id h Hh) as (? & ? & ? & ?). split_and!; [done|done| |lia|lia]. by apply (flags_keep w).
Qed.

Lemma mirror_clients n w t b : world_ok n w -> clients_keep (w_system w).1 t -> mirror_ok (set_system w (t, b)).
Proof.
  intros Hok Hk pid p' c pos Hp Hc Hs Ht. destruct (Hk pid p' c Hp Hc Hs) as (p & E1 & E2 & E3 & ->).
  exact (wo_mirror _ _ Hok pid p c pos E1 E2 E3 Ht).
Qed.

(** A step that concerns one player. *)
Lemma clients_keep_insert t t' id p p' : t_players t' = <[id := p']> (t_players t) -> t_players t !! id = Some p ->
  (p_closed p' = false -> p_closed p = false) ->
  (forall c, c ∈ sent_chunks (chunk_sender p') -> c ∈ sent_chunks (chunk_sender p) /\
     client_blocks (p_log p') !! c = client_blocks (p_log p) !! c) ->
  clients_keep t t'.
Proof.
  intros Et Hp Hcl H pid q c Hq Hc Hs. rewrite Et in Hq. apply lookup_insert_Some in Hq as [[<- <-]|[_ Hq]]; [|by exists q].
  destruct (H c Hs). exists p. by split_and!; [|apply Hcl|..].
Qed.

Lemma apply_difference_blocks closed changes c : forall s log,
  (forall pos b, (pos, b) ∈ changes -> ChunkPos_ok pos) -> (c, false) ∉ changes ->
  client_blocks (apply_difference closed changes s log).2 !! c = client_blocks log !! c.
Proof.
  induction changes as [|[pos b] changes IH]; intros s log Hok Hc; [done|].
  unfold apply_difference in *. cbn [foldl]. destruct b.
  - apply IH; [intros q b Hq; eapply Hok; by right|]. intros H. apply Hc. by right.
  - unfold drop_chunk. rewrite IH; [|intros q b Hq; eapply Hok; by right|intros H; apply Hc; by right].
    destruct (_ && _); [|by rewrite app_nil_r]. rewrite client_blocks_app. simpl.
    rewrite PackedChunkPos_roundtrip by (eapply Hok; by left). apply lookup_delete_ne. intros ->. apply Hc. by left.
Qed.

Lemma client_blocks_center log x z : client_blocks (log ++ [SetChunkCenter x z]) = client_blocks log.
Proof. by rewrite client_blocks_app. Qed.

Lemma move_keeps t b id chunk distance : system_ok simulation_distance (t, b) -> view_ok (mkView chunk distance) ->
  clients_keep t (update_player_status simulation_distance id chunk distance t).
Proof.
  intros Hok Hn. unfold update_player_status. destruct (t_players t !! id) as [p|] eqn:Hp; [|intros pid q c; by exists q].
  pose proof (sy_sessions _ _ Hok id p Hp) as Hs. case_decide as Ev; [by eapply clients_keep_insert|].
  destruct (last_tracking_view p) as [v|] eqn:Hv.
  - set (changes := view_difference v (mkView chunk distance)). set (log := p_log p ++ _).
    destruct Hs as [S1 _ _ _]. rewrite Hv in S1. destruct S1 as [Hold S1].
    assert (forall pos b, (pos, b) ∈ changes -> ChunkPos_ok pos) as Hpos.
    { intros pos [] H; unfold changes in H; rewrite view_difference_elem in H by done; by eapply sees_pos_ok, H. }
    pose proof (apply_difference_ok (p_closed p) changes (chunk_sender p) log) as Hd.
    pose proof (fun c => apply_difference_blocks (p_closed p) changes c (chunk_sender p) log Hpos) as Hb.
    destruct (apply_difference _ _ _ _) as [s log']. destruct Hd as (_ & D2 & _).
    + by apply NoDup_view_difference.
    + intros pos H. unfold changes in H. rewrite view_difference_elem in H by done. intros Hin. apply (proj2 H), S1. by right.
    + done.
    + eapply clients_keep_insert; [done..|]. intros c [Hc Hf]%D2. split; [done|]. simpl. rewrite Hb by done.
      unfold log. by rewrite client_blocks_center.
  - eapply clients_keep_insert; [done..|]. cbn [chunk_sender p_log]. intros c Hc.
    destruct (mark_all_pending (view_for_each (mkView chunk distance)) (chunk_sender p)) as (_ & E & _). rewrite E in Hc.
    rewrite client_blocks_center. apply elem_of_difference in Hc as [Hc _]. done.
Qed.

Lemma player_step_keeps t b t' : system_ok simulation_distance (t, b) -> player_step simulation_distance t t' -> clients_keep t t'.
Proof.
  intros Hok [id p Hid (_ & Hs & _)|id chunk distance Hv|id].
  - intros pid q c Hq Hc Hin. simpl in Hq. apply lookup_insert_Some in Hq as [[<- <-]|[_ Hq]]; [|by exists q]. rewrite Hs in Hin. by apply elem_of_empty in Hin.
  - by apply (move_keeps t b).
  - unfold detach_player. destruct (t_players t !! id) as [p|]; [|intros pid q c; by exists q].
    intros pid q c Hq Hc Hin. simpl in Hq. apply lookup_delete_Some in Hq as [_ Hq]. by exists q.
Qed.

Lemma connection_step_keeps t t' : connection_step t t' -> clients_keep t t'.
Proof.
  intros [id p Hp|id p desired Hp]; (eapply clients_keep_insert; [done..|]); [done|]. simpl.
  destruct (acknowledge_ok (chunk_sender p) desired) as (_ & E & _). intros c Hc. rewrite E in Hc. by rewrite app_nil_r.
Qed.

Lemma tracking_ok n w t : world_ok n w -> tracking_step simulation_distance (w_system w) (t, (w_system w).2) ->
  clients_keep (w_system w).1 t -> world_ok (n + 1) (set_system w (t, (w_system w).2)).
Proof.
  intros Hok Ht Hk. apply (outside_step_ok n w _ (w_jobs w) (w_cache w)); [done| |apply Hok|apply Hok|by apply (mirror_clients n)].
  by apply (tracking_step_ok simulation_distance (w_system w)), Hok.
Qed.
(** *** The sending loop *)

Lemma prepared_active holders active epoch player s s' b c :
  prepare_batch holders active epoch player s = (s', Some b) -> c ∈ b_chunks b ->
  active !! pc_pos c = Some (pc_holder c).
Proof.
  unfold prepare_batch. destruct (_ <=? _); [done|]. destruct (SFltb _ _ || _); [done|].
  pose proof (collect_candidates_eq holders active (set_quota s (f32_min (f32_add (batch_quota s) (desired_chunks_per_tick s))
    (f32_max (desired_chunks_per_tick s) (f32_of_Z 1)))) player) as E.
  destruct (collect_candidates _ _ _ _) as [|c0 cs]; [done|]. intros [= _ <-] Hc. simpl in Hc. rewrite E in Hc.
  apply (subseteq_take _ _ c), list_elem_of_omap in Hc as (pos & _ & Hc).
  by destruct (sendable_pos _ _ _ _ Hc) as (<- & h & ? & _).
Qed.

Lemma prepare_ok n w id : world_ok n w -> (w_system w).2 = None ->
  world_ok (n + 1)
    (let '(t, batch) := send_prepare (w_holders w) (w_active w) id (w_system w).1 in
     set_jobs (set_system w (t, pair id <$> batch)) (match batch with Some b => JWaiting <$> b_chunks b | None => [] end)).
Proof.
  intros Hok Hnone. pose proof (wo_system _ _ Hok) as Hsys. pose proof (mirror_clients n w) as Hm.
  destruct (w_system w) as [t b0]. simpl in Hnone. subst b0. cbn [fst snd] in *.
  pose proof (tracking_step_ok simulation_distance _ _ (step_prepare simulation_distance t (w_holders w) (w_active w) id) Hsys) as Hs.
  unfold send_prepare in *. destruct (t_players t !! id) as [p|] eqn:Hp.
  2:{ apply (outside_step_ok n w _ [] (w_cache w)); [done|done|constructor|apply Hok|]. apply Hm; [done|]. intros pid q c. by exists q. }
  pose proof (prepare_batch_ok (w_holders w) (w_active w) (chunk_send_epoch p) (last_chunk_pos p) (chunk_sender p)) as E.
  pose proof (prepared_active (w_holders w) (w_active w) (chunk_send_epoch p) (last_chunk_pos p) (chunk_sender p)) as Ha.
  destruct (prepare_batch _ _ _ _ _) as [s batch]. destruct E as (_ & E & _). simpl in Hs.
  apply (outside_step_ok n w _ (match batch with Some b => JWaiting <$> b_chunks b | None => [] end) (w_cache w));
    [done|done| |apply Hok|].
  - destruct batch as [b|]; [|constructor]. apply Forall_fmap, Forall_forall. intros c Hc. by apply (Ha s b).
  - apply Hm; [done|]. eapply clients_keep_insert; [done..|]. simpl. intros c Hc. rewrite app_nil_r. by rewrite E in Hc.
Qed.

Lemma encode_job_ok n w j j' : world_ok n w -> job_ok w j -> encode_step w j j' -> job_ok w j'.
Proof.
  intros Hok Hj Hstep. destruct Hstep as [c|c revision data pos state Hpos Hb|c revision data Hall]; simpl in Hj.
  - unfold cache_hit, cached. destruct (list_find _ (w_cache w)) as [[i e]|] eqn:Hf; cbn [mbind option_bind fmap option_fmap option_map snd].
    + destruct (is_current_for _ _ _); [|by destruct (can_encode w c); simpl; [split_and!; [done|lia|intros _ q _ [? ?]]|]].
      apply list_find_Some in Hf as (Hi & _). simpl. eapply (Forall_lookup_1 _ _ _ _ (wo_cache _ _ Hok) Hi).
    + destruct (can_encode w c); [|done]. simpl. split_and!; [done|lia|]. by intros _ q _ [? ?].
  - destruct Hj as (H1 & H2 & H3). simpl. split_and!; [done|done|]. intros E q Hq. destruct (decide (q = pos)) as [->|Hne].
    + rewrite lookup_insert_eq, Hb. by left.
    + rewrite lookup_insert_ne by done. by apply H3.
  - destruct Hj as (H1 & H2 & H3). destruct (_ && _) eqn:E; [|done]. apply andb_true_iff in E as [E _].
    apply Z.eqb_eq in E. simpl. split_and!; [done|done|]. intros _ q Hq. apply H3; [done|done|]. apply Hall; apply Hq.
Qed.

Lemma job_results_ok w jobs : Forall (job_ok w) jobs -> Forall (encoded_ok w) (job_results jobs).
Proof.
  intros H. apply Forall_forall. intros e (j & Hj & E)%list_elem_of_omap. rewrite Forall_forall in H. specialize (H j Hj).
  destruct j as [| |[e'|]]; simplify_eq/=. exact H.
Qed.

(** What a client has of a chunk after a batch. *)
Lemma client_blocks_batch (es : list (EncodedChunk chunk_blocks)) c : forall held,
  (c ∈ ec_pos <$> es /\ exists e, e ∈ es /\ ec_pos e = c /\
     foldl client_apply held ((fun e => LevelChunkWithLight (cp_x (ec_pos e)) (cp_y (ec_pos e)) (ec_packet e)) <$> es) !! c = Some (ec_packet e)) \/
  ((c ∉ ec_pos <$> es) /\
     foldl client_apply held ((fun e => LevelChunkWithLight (cp_x (ec_pos e)) (cp_y (ec_pos e)) (ec_packet e)) <$> es) !! c = held !! c).
Proof.
  induction es as [|e es IH]; intros held; [right; split; [apply not_elem_of_nil|done]|]. rewrite !fmap_cons. cbn [foldl client_apply].
  assert (mkChunkPos (cp_x (ec_pos e)) (cp_y (ec_pos e)) = ec_pos e) as -> by (by destruct (ec_pos e)).
  destruct (IH (<[ec_pos e := ec_packet e]> held)) as [(Hin & e' & He' & Ep & E)|[Hin E]].
  - left. split; [by right|]. exists e'. split_and!; [by right|done|done].
  - destruct (decide (c = ec_pos e)) as [->|Hne].
    + left. split; [by left|]. exists e. split_and!; [by left|done|]. by rewrite E, lookup_insert_eq.
    + right. split; [by intros [?|?]%elem_of_cons|]. by rewrite E, lookup_insert_ne.
Qed.
(** A client is up to date with a chunk it was just sent. *)
Lemma sent_now n w e p pid pos : world_ok n w -> encoded_ok w e -> is_current_for (w_holders w) e p = true ->
  told w (ec_pos e) pos -> ec_packet e !! pos = w_blocks w !! pos \/ to_be_told w pid pos.
Proof.
  intros Hok (H1 & _ & H3) Hcur Ht. unfold is_current_for in Hcur. destruct (w_holders w !! ec_holder e) as [h|] eqn:Hh; [|done].
  rewrite !andb_true_iff, !Z.eqb_eq in Hcur. destruct Hcur as [_ Er].
  destruct (H3 ltac:(unfold revision_of; rewrite Hh; by symmetry) pos Ht) as [E|[Hw|[id Hid]]]; [by left|right; by left|].
  right. right. pose proof (wo_game _ _ Hok) as Hg. unfold game_ok in Hg. rewrite Hid in Hg.
  destruct Hg as (Ha & hx & Hx & Hpos). exists id, hx. split_and!; [done|done|by left].
Qed.

Lemma commit_ok n w id batch : world_ok n w -> (w_system w).2 = Some (id, batch) -> world_ok (n + 1) (commit_jobs w id batch).
Proof.
  intros Hok Hb. unfold commit_jobs. pose proof (job_results_ok w _ (wo_jobs _ _ Hok)) as He. set (es := job_results (w_jobs w)) in *.
  apply (outside_step_ok n w _ [] (reverse es ++ w_cache w)); [done| |constructor| |].
  - pose proof (wo_system _ _ Hok) as Hs. destruct (w_system w) as [t b]. simpl in Hb. subst b.
    exact (tracking_step_ok simulation_distance _ _ (step_commit simulation_distance t (w_holders w) id batch es) Hs).
  - apply Forall_app. split; [|apply Hok]. by apply Forall_reverse.
  - pose proof (wo_mirror _ _ Hok) as Hm. unfold send_commit. destruct (t_players (w_system w).1 !! id) as [p|] eqn:Hp; [|exact Hm].
    destruct (last_tracking_view p); [|exact Hm]. unfold commit_batch. destruct (negb _) eqn:Ee.
    { apply (mirror_clients n); [done|]. eapply clients_keep_insert; [done..|]. simpl. intros c Hc. by rewrite app_nil_r. }
    destruct (valid_chunks _ _ _ _) as [|e0 valid0] eqn:Ev.
    { apply (mirror_clients n); [done|]. eapply clients_keep_insert; [done..|]. simpl. intros c Hc. by rewrite app_nil_r. }
    rewrite <- Ev. clear e0 valid0 Ev. set (valid := valid_chunks _ _ _ _).
    intros pid q c pos Hq Hcl Hc Ht. simpl in Hq. apply lookup_insert_Some in Hq as [[<- <-]|[_ Hq]]; [|exact (Hm pid q c pos Hq Hcl Hc Ht)].
    cbn [p_log with_sender chunk_sender p_closed] in *. set (s1 := mkSender _ _ _ _ _ _) in Hc.
    destruct (mark_all_sent (ec_pos <$> valid) s1) as (_ & Es & _). rewrite Es in Hc. cbn [sent_chunks s1] in Hc.
    rewrite client_blocks_app. cbn [app foldl client_apply]. rewrite foldl_app. cbn [foldl client_apply].
    destruct (client_blocks_batch valid c (client_blocks (p_log p))) as [(_ & e & He' & <- & ->)|[Hnot ->]].
    + exists (ec_packet e). split; [done|]. unfold valid, valid_chunks in He'. apply list_elem_of_filter in He' as [Hv Hin].
      rewrite Forall_forall in He. unfold still_valid in Hv. apply andb_true_iff in Hv as [_ Hv].
      destruct (list_find _ _) as [[i pc]|]; [|done]. exact (sent_now n w e pc _ pos Hok (He e Hin) Hv Ht).
    + apply elem_of_union in Hc as [Hc%elem_of_list_to_set|Hc]; [done|]. exact (Hm id p c pos Hp Hcl Hc Ht).
Qed.
(** *** Runs *)

Lemma broadcast_step_ok n w w' : world_ok n w -> n + 1 < 2 ^ 64 -> broadcast_step simulation_distance w w' -> world_ok (n + 1) w'.
Proof.
  intros Hok Hn Hstep. destruct Hstep as [pos state Hg Hpos|update_clients i Hg|Hg| |w' Hw'|t Hg Ht|id h target h' previous Hg Hh Ht|t Ht
    |id h layer section Hh|i id Hi|Hnone|id Hnone|i j j' Hj Hstep|id batch Hb Hdone].
  - by apply set_block_ok.
  - by apply report_ok.
  - by apply broadcast_ok.
  - by apply game_continue_ok.
  - by apply (encoding_fails_ok n w).
  - pose proof (wo_system _ _ Hok) as Hs. apply tracking_ok; [done|..]; destruct (w_system w) as [t0 b]; [by constructor|].
    by apply (player_step_keeps t0 b).
  - by apply (readiness_ok n w id h target h' previous).
  - apply tracking_ok; [done|..]; [destruct (w_system w); by apply step_connection|by apply connection_step_keeps].
  - by apply light_ok.
  - by apply light_queue_ok.
  - apply (outside_step_ok n w (w_system w) (w_jobs w) []); [done|apply Hok|apply Hok|constructor|apply Hok].
  - by apply prepare_ok.
  - apply (outside_step_ok n w (w_system w) _ (w_cache w)); [done|apply Hok| |apply Hok|apply Hok].
    apply Forall_insert; [apply Hok|]. apply (encode_job_ok n w j); try done. exact (Forall_lookup_1 _ _ _ _ (wo_jobs _ _ Hok) Hj).
  - by apply commit_ok.
Qed.

(** A world before any player joins and any change is reported. *)
Record world_initial w : Prop := {
  wi_system : w_system w = tracking_initial;
  wi_active : forall c id, w_active w !! c = Some id -> exists h, w_holders w !! id = Some h /\ h_pos h = c;
  wi_holders : forall id h, w_holders w !! id = Some h -> extent_ok h /\ h_changes h = tracker_new (h_height h);
  wi_blocks : forall pos, is_Some (w_blocks w !! pos) -> block_ok pos;
  wi_idle : w_game w = GIdle /\ w_unreported w = [] /\ w_jobs w = [] /\ w_cache w = [];
}.

Lemma world_initial_ok w : world_initial w -> world_ok 0 w.
Proof.
  intros [H1 H2 H3 H4 (H5 & H6 & H7 & H8)]. split; try done.
  - rewrite H1. apply tracking_initial_ok.
  - intros id h Hh. destruct (H3 id h Hh) as [He E]. assert (forall pos, ~ recorded h (pending_changes h) pos) as Hnone.
    { intros pos (i & s & k & Hi & Hk & _)%recorded_pending. rewrite E in Hi. unfold tracker_new in Hi. simpl in Hi.
      apply lookup_replicate_1 in Hi as [-> _]. by apply elem_of_empty in Hk. }
    split_and!; [done|intros pos Hpos; by apply Hnone in Hpos| |by rewrite E|by rewrite E].
    split; [intros pos Hpos; by apply Hnone in Hpos|by rewrite E|by rewrite E].
  - unfold game_ok. by rewrite H5.
  - rewrite H7. constructor.
  - rewrite H8. constructor.
  - intros pid p c pos. by rewrite H1.
Qed.

Lemma broadcast_run_ok n w0 w : nsteps (broadcast_step simulation_distance) n w0 w -> forall k, 0 <= k -> k + Z.of_nat n < 2 ^ 64 ->
  world_ok k w0 -> world_ok (k + Z.of_nat n) w.
Proof.
  induction 1 as [w|n w0 w1 w Hstep _ IH]; intros k Hk Hn Hok; [by rewrite Z.add_0_r|].
  replace (k + Z.of_nat (S n)) with (k + 1 + Z.of_nat n) by lia. apply IH; [lia|lia|]. apply (broadcast_step_ok k w0); [done|lia|done].
Qed.

Lemma quiet_world n w pid pos : world_ok n w -> w_game w = GIdle -> w_unreported w = [] -> chunks_to_broadcast w = [] ->
  w_light_queueing w = [] -> ~ to_be_told w pid pos.
Proof.
  intros Hok Hg Hu Hq Hl [(s & _ & Hin)|(id & h & Ha & Hh & H)]; [rewrite Hu in Hin; by apply elem_of_nil in Hin|].
  unfold being_sent in H. rewrite Hg in H. destruct H as [H|[]]. destruct (wo_holder _ _ Hok id h Hh) as (_ & _ & Hf & _).
  destruct (fo_changed _ _ _ Hf pos H) as [Hc|[[q E]|E]]; [|congruence..].
  apply (fo_queued _ _ _ Hf), (fo_queue _ _ _ Hf) in Hc. unfold in_queue in Hc. rewrite Hg, Hq, Hl in Hc. simpl in Hc.
  rewrite !elem_of_nil in Hc. tauto.
Qed.

(** *** The game thread returns *)

Definition rest_same w w' : Prop :=
  w_blocks w' = w_blocks w /\ w_unreported w' = w_unreported w /\ w_untold w' = w_untold w /\
  chunks_to_broadcast w' = chunks_to_broadcast w /\ w_light_queueing w' = w_light_queueing w.

Lemma rest_same_trans w1 w2 w3 : rest_same w1 w2 -> rest_same w2 w3 -> rest_same w1 w3.
Proof. intros (? & ? & ? & ? & ?) (? & ? & ? & ? & ?). split_and!; congruence. Qed.

Lemma sections_sent id players changes queue : forall w, w_game w = GSending id players changes queue ->
  exists k, w_game (Nat.iter k game_continue w) = GBroadcast queue /\ rest_same w (Nat.iter k game_continue w).
Proof.
  induction changes as [|[i changed] changes IH]; intros w Hg.
  { exists 1%nat. simpl. unfold game_continue. rewrite Hg. done. }
  destruct (w_holders w !! id) as [h|] eqn:Hh; [|exists 1%nat; simpl; unfold game_continue; rewrite Hg, Hh; done].
  destruct (IH (game_continue w)) as (k & Hk & Hr); [unfold game_continue; by rewrite Hg, Hh|].
  exists (S k). rewrite Nat.iter_succ_r. split; [done|]. eapply rest_same_trans, Hr. unfold game_continue. by rewrite Hg, Hh.
Qed.

Lemma broadcast_returns queue : forall w, w_game w = GBroadcast queue ->
  exists k, w_game (Nat.iter k game_continue w) = GIdle /\ rest_same w (Nat.iter k game_continue w).
Proof.
  induction queue as [|id queue IH]; intros w Hg.
  { exists 1%nat. simpl. unfold game_continue. rewrite Hg. done. }
  assert (exists k, w_game (Nat.iter k game_continue w) = GBroadcast queue /\ rest_same w (Nat.iter k game_continue w)) as (k & Hk & Hr).
  { destruct (w_holders w !! id) as [h|] eqn:Hh; [|exists 1%nat; simpl; unfold game_continue; rewrite Hg, Hh; done].
    assert (exists w1 changes, game_continue w = w1 /\ w_game w1 = GTaken id changes queue /\ rest_same w w1 /\
      is_Some (w_holders w1 !! id)) as (w1 & changes & E1 & G1 & R1 & [h1 H1]).
    { unfold game_continue. rewrite Hg, Hh. simpl. destruct (take_changed_blocks _) as [h' changes].
      eexists _, changes. split; [done|]. simpl. rewrite lookup_insert_eq. by split_and!. }
    destruct (sections_sent id (packet_tracking_players (w_system w1).1 (h_pos h1)) changes queue (game_continue w1)) as (k & Hk & Hr).
    { unfold game_continue. by rewrite G1, H1. }
    exists (S (S k)). rewrite !Nat.iter_succ_r, E1. split; [done|]. eapply rest_same_trans, Hr. eapply rest_same_trans; [exact R1|].
    unfold game_continue. by rewrite G1, H1. }
  destruct (IH _ Hk) as (k' & Hk' & Hr'). exists (k' + k)%nat. rewrite Nat.iter_add. split; [done|]. by eapply rest_same_trans.
Qed.

(** A broadcast leaves revisions alone. *)
Definition broadcasting (g : game_state) : Prop := match g with GInserted _ _ | GRevised _ => False | _ => True end.

Lemma continue_broadcasting n w : world_ok n w -> n + 1 < 2 ^ 64 -> broadcasting (w_game w) ->
  world_ok n (game_continue w) /\ broadcasting (w_game (game_continue w)).
Proof.
  intros Hok Hn Hb.
  assert (forall id h, w_holders w !! id = Some h -> 0 <= packet_content_revision (h_changes h) <= n) as Hr
    by (intros id h Hh; apply (wo_holder _ _ Hok id h Hh)).
  assert (broadcasting (w_game (game_continue w)) /\ forall id h, w_holders (game_continue w) !! id = Some h ->
    0 <= packet_content_revision (h_changes h) <= n) as [Hb' Hr'].
  { unfold game_continue. destruct (w_game w) as [|? ?|?|queue|id changes queue|id players changes queue] eqn:Hg; [by rewrite Hg|done|done|..].
    - destruct queue as [|id queue]; [done|]. destruct (w_holders w !! id) as [h|] eqn:Hh; [|done].
      pose proof (taken_spec h) as Ht. unfold taken in Ht. simpl in *. destruct (take_changed_blocks _) as [h' changes].
      destruct Ht as (_ & Er & _). split; [done|]. simpl. intros x hx [[<- <-]|[_ Hx]]%lookup_insert_Some; [|by apply (Hr x)].
      rewrite Er. by apply (Hr id).
    - by destruct (w_holders w !! id).
    - destruct changes as [|[i changed] changes]; [done|]. by destruct (w_holders w !! id). }
  split; [|done]. destruct (game_continue_ok n w Hok Hn) as [H1 H2 H3 H4 H5 H6 H7 H8]. split; try done.
  intros id h Hh. destruct (H3 id h Hh) as (? & ? & ? & _). specialize (Hr' id h Hh). done.
Qed.

Lemma iter_broadcasting n k w : world_ok n w -> n + 1 < 2 ^ 64 -> broadcasting (w_game w) ->
  world_ok n (Nat.iter k game_continue w) /\ broadcasting (w_game (Nat.iter k game_continue w)).
Proof. intros Hok Hn Hb. induction k as [|k [IH IHb]]; [done|]. by apply continue_broadcasting. Qed.

Lemma quiet_mirror n w pid p c : world_ok n w -> w_game w = GIdle -> w_unreported w = [] -> chunks_to_broadcast w = [] ->
  w_light_queueing w = [] -> t_players (w_system w).1 !! pid = Some p -> p_closed p = false -> c ∈ sent_chunks (chunk_sender p) ->
  exists data, client_blocks (p_log p) !! c = Some data /\ forall pos, told w c pos -> data !! pos = w_blocks w !! pos.
Proof.
  intros Hok Hg Hu Hq Hl Hp Hcl Hc. destruct (client_has_chunk w pid p c (wo_system _ _ Hok) Hp Hcl Hc) as [data Hd].
  exists data. split; [done|]. intros pos Ht. destruct (wo_mirror _ _ Hok pid p c pos Hp Hcl Hc Ht) as (data' & Hd' & [H|H]).
  - congruence.
  - by apply (quiet_world _ w pid pos Hok) in H.
Qed.

(** C29. One broadcast is enough: once every write is reported and no light worker is about to
    queue a holder, a broadcast whose packets can all be encoded and that nothing interrupts
    ends, and when it does every open client holds the current state of all it is to be told
    about, in each chunk the server counts as sent; blocks are as before, and nothing is
    left queued. *)
Theorem broadcast_updates_clients n w0 w : world_initial w0 -> nsteps (broadcast_step simulation_distance) n w0 w ->
  Z.of_nat n + 2 < 2 ^ 64 -> w_game w = GIdle -> w_unreported w = [] -> w_light_queueing w = [] ->
  let start := set_game (set_queue w [] (w_light_queueing w)) (GBroadcast (chunks_to_broadcast w)) in
  exists k, let w' := Nat.iter k game_continue start in
    w_game w' = GIdle /\ rest_same start w' /\
    forall pid p c, t_players (w_system w').1 !! pid = Some p -> p_closed p = false -> c ∈ sent_chunks (chunk_sender p) ->
    exists data, client_blocks (p_log p) !! c = Some data /\ forall pos, told w c pos -> data !! pos = w_blocks w !! pos.
Proof.
  intros H0 Hrun Hn Hg Hu Hl start. pose proof (broadcast_run_ok n w0 w Hrun 0 ltac:(lia) ltac:(lia) (world_initial_ok w0 H0)) as Hok.
  destruct (broadcast_returns (chunks_to_broadcast w) start eq_refl) as (k & Hk & Hrest). exists k. intros w'.
  split_and!; [done|done|]. intros pid p c Hp Hcl Hc.
  destruct (iter_broadcasting (0 + Z.of_nat n + 1) k start) as [Hok' _]; [by apply broadcast_ok|lia|done|].
  destruct Hrest as (Eb & Eu & Et & Eq & El).
  destruct (quiet_mirror (0 + Z.of_nat n + 1) w' pid p c) as (data & Hd & H); try done; [by rewrite <- Hu|by rewrite <- Hl|].
  exists data. split; [done|]. intros pos Ht. rewrite H; [by unfold w'; rewrite Eb|]. by apply (told_same w' start).
Qed.

(** A report that is recorded runs to the end of [block_changed] of the holder, and queues
    the holder when that says so. *)
Theorem report_is_block_changed w i pos state id h k :
  w_unreported w !! i = Some (pos, state) -> w_blocks w !! pos = Some state -> w_active w !! chunk_of pos = Some id ->
  w_holders w !! id = Some h -> is_block_ticking_loaded h = true -> changed_section h pos = Some k ->
  let w' := game_continue (game_continue (report true i w)) in
  w_game w' = GIdle /\ w_holders w' = <[id := (block_changed h pos).1]> (w_holders w) /\
  chunks_to_broadcast w' = (if (block_changed h pos).2 then chunks_to_broadcast w ++ [id] else chunks_to_broadcast w) /\
  w_unreported w' = delete i (w_unreported w).
Proof.
  intros Hi Hb Ha Hh Ht Hk. unfold report. rewrite Hi, bool_decide_true by done. cbn [negb]. rewrite Ha. cbn [mbind option_bind].
  rewrite Hh. cbn [mbind option_bind]. rewrite Ht, Hk. cbn [andb mbind option_bind]. unfold block_changed. rewrite Hk.
  unfold game_continue. simpl. rewrite !lookup_alter_eq, Hh. simpl. split_and!; [done| | |done].
  - apply map_eq. intros x. destruct (decide (x = id)) as [->|Hx].
    + by rewrite !lookup_alter_eq, Hh, lookup_insert_eq.
    + by rewrite !lookup_alter_ne, lookup_insert_ne.
  - by destruct (queued_for_broadcast (h_changes h)).
Qed.

(** C4. Among chunks that stay loaded: once every write is reported and the queue is worked
    off, each open client holds every chunk the server counts as sent, and in it the current
    state of every loaded block, apart from blocks whose last report was not recorded for
    clients (made without the flag for clients, or in a chunk that was not ticking) or whose
    update packet could not be encoded.  No interleaving of writes, broadcasts, light
    updates, readiness changes, moves, batches and cached packets loses or reverts a change
    otherwise. *)
Theorem clients_mirror_blocks n w0 w : world_initial w0 -> nsteps (broadcast_step simulation_distance) n w0 w ->
  Z.of_nat n < 2 ^ 64 ->
  w_game w = GIdle -> w_unreported w = [] -> chunks_to_broadcast w = [] -> w_light_queueing w = [] ->
  forall pid p c, t_players (w_system w).1 !! pid = Some p -> p_closed p = false -> c ∈ sent_chunks (chunk_sender p) ->
  exists data, client_blocks (p_log p) !! c = Some data /\ forall pos, told w c pos -> data !! pos = w_blocks w !! pos.
Proof.
  intros H0 Hrun Hn Hg Hu Hq Hl pid p c Hp Hcl Hc.
  apply (quiet_mirror (0 + Z.of_nat n) w pid p c); try done.
  by apply (broadcast_run_ok n w0 w Hrun 0 ltac:(lia) ltac:(lia)), world_initial_ok.
Qed.
End Mirror.

(** ** A concrete run *)

(** A player joins and is sent the chunk at the origin, then a block of it changes and the
    change is broadcast. *)
Definition mirror_holder : ChunkHolder :=
  set_h_data (Some (mkData true true false))
    (set_h_readiness 5 (set_h_published 12 (new_with_full_publications (mkChunkPos 0 0) 128 None (-64) 384))).
Definition mirror_block : BlockPos := mkBlockPos 1 70 2.
Definition mirror_player : player (D := chunk_blocks) := mkPlayer None ChunkSender_default 0 (mkChunkPos 0 0) false [].
Definition mirror_start : broadcast_world :=
  mkWorld {[7 := mirror_holder]} {[mkChunkPos 0 0 := 7]} {[mirror_block := 1]} [] [] [] tracking_initial GIdle [] [] ∅.

Definition mirror_came : broadcast_world :=
  set_system mirror_start (set_player (w_system mirror_start).1 1 mirror_player, (w_system mirror_start).2).
Definition mirror_joined : broadcast_world :=
  set_system mirror_came (update_player_status 10 1 (mkChunkPos 0 0) 2 (w_system mirror_came).1, (w_system mirror_came).2).
Definition mirror_prepared : broadcast_world :=
  let '(t, batch) := send_prepare (w_holders mirror_joined) (w_active mirror_joined) 1 (w_system mirror_joined).1 in
  set_jobs (set_system mirror_joined (t, pair 1 <$> batch))
    (match batch with Some b => JWaiting <$> b_chunks b | None => [] end).
Definition mirror_chunk : PreparedChunk := mkPrepared (mkChunkPos 0 0) 7 5.
Definition mirror_started : broadcast_world :=
  set_jobs mirror_prepared (<[0%nat := match cache_hit mirror_prepared mirror_chunk with
    | Some e => JDone (Some e)
    | None => if can_encode mirror_prepared mirror_chunk
              then JReading mirror_chunk (revision_of mirror_prepared (pc_holder mirror_chunk)) ∅ else JDone None
    end]> (w_jobs mirror_prepared)).
Definition mirror_read : broadcast_world :=
  set_jobs mirror_started (<[0%nat := JReading mirror_chunk 0 (<[mirror_block := 1]> ∅)]> (w_jobs mirror_started)).
Definition mirror_encoded : broadcast_world :=
  set_jobs mirror_read (<[0%nat := JDone (
    if (0 =? revision_of mirror_read (pc_holder mirror_chunk)) && (readiness_word mirror_read (pc_holder mirror_chunk) =? pc_readiness mirror_chunk)
    then Some (mkEncoded (pc_pos mirror_chunk) (<[mirror_block := 1]> ∅) 0 (pc_holder mirror_chunk) (pc_readiness mirror_chunk)) else None)]>
    (w_jobs mirror_read)).
Definition mirror_committed : broadcast_world := commit_jobs mirror_encoded 1 (mkBatch [mirror_chunk] 0).
Definition mirror_written : broadcast_world :=
  set_blocks mirror_committed (<[mirror_block := 9]> (w_blocks mirror_committed)) ((mirror_block, 9) :: w_unreported mirror_committed).
Definition mirror_reported : broadcast_world := game_continue (game_continue (report true 0 mirror_written)).
Definition mirror_broadcast : broadcast_world :=
  set_game (set_queue mirror_reported [] (w_light_queueing mirror_reported)) (GBroadcast (chunks_to_broadcast mirror_reported)).
Definition mirror_end : broadcast_world := Nat.iter 5 game_continue mirror_broadcast.

Lemma mirror_start_initial : world_initial mirror_start.
Proof.
  split; try done; simpl.
  - intros c id [<- <-]%lookup_singleton_Some. exists mirror_holder. by rewrite lookup_singleton_eq.
  - intros id h [<- <-]%lookup_singleton_Some. done.
  - intros pos [s [<- <-]%lookup_singleton_Some]. unfold block_ok, in_s. simpl. lia.
Qed.

Lemma mirror_arrival : nsteps (broadcast_step 10) 2 mirror_start mirror_joined.
Proof.
  apply (nsteps_l _ _ _ mirror_came).
  { refine (bs_players 10 mirror_start _ eq_refl _). apply (step_join 10 _ 1 mirror_player); [done|by split_and!]. }
  apply nsteps_once. refine (bs_players 10 mirror_came _ eq_refl _). apply (step_move 10 _ 1 (mkChunkPos 0 0) 2).
  unfold view_ok, in_u. cbn [v_center view_distance cp_x cp_y]. lia.
Qed.

Lemma mirror_jobs :
  w_jobs mirror_prepared !! 0%nat = Some (JWaiting mirror_chunk) /\
  w_jobs mirror_started !! 0%nat = Some (JReading mirror_chunk 0 ∅) /\
  w_jobs mirror_read !! 0%nat = Some (JReading mirror_chunk 0 (<[mirror_block := 1]> ∅)) /\
  w_blocks mirror_started = {[mirror_block := 1]} /\ w_blocks mirror_read = {[mirror_block := 1]} /\
  (w_system mirror_encoded).2 = Some (1, mkBatch [mirror_chunk] 0) /\ forallb job_done (w_jobs mirror_encoded) = true.
Proof. split_and!; vm_compute; reflexivity. Qed.

Lemma mirror_sending : nsteps (broadcast_step 10) 5 mirror_joined mirror_committed.
Proof.
  destruct mirror_jobs as (J1 & J2 & J3 & B2 & B3 & S & D).
  apply (nsteps_l _ _ _ mirror_prepared); [unfold mirror_prepared; by apply bs_prepare|].
  apply (nsteps_l _ _ _ mirror_started).
  { unfold mirror_started. apply (bs_encode 10 mirror_prepared 0 _ _ J1), encode_start. }
  apply (nsteps_l _ _ _ mirror_read).
  { unfold mirror_read. apply (bs_encode 10 mirror_started 0 _ _ J2), encode_read; [reflexivity|].
    rewrite B2. apply lookup_singleton_eq. }
  apply (nsteps_l _ _ _ mirror_encoded).
  { unfold mirror_encoded. apply (bs_encode 10 mirror_read 0 _ _ J3), encode_finish.
    intros pos _. rewrite B3. intros [s [<- _]%lookup_singleton_Some]. by rewrite lookup_insert_eq. }
  apply nsteps_once. exact (bs_commit 10 mirror_encoded 1 _ S D).
Qed.

Lemma game_runs w k : nsteps (broadcast_step 10) k w (Nat.iter k game_continue w).
Proof. induction k as [|k IH]; [constructor|]. eapply nsteps_r; [exact IH|]. apply bs_game. Qed.

Lemma mirror_idle : w_game mirror_committed = GIdle /\ w_blocks mirror_committed = {[mirror_block := 1]} /\
  w_game mirror_written = GIdle /\ w_game mirror_reported = GIdle.
Proof. split_and!; vm_compute; reflexivity. Qed.

Lemma mirror_telling : nsteps (broadcast_step 10) 10 mirror_committed mirror_end.
Proof.
  destruct mirror_idle as (G1 & B1 & G2 & G3). apply (nsteps_l _ _ _ mirror_written).
  { refine (bs_set_block 10 mirror_committed mirror_block 9 G1 _). rewrite B1, lookup_singleton_eq. eauto. }
  apply (nsteps_l _ _ _ (report true 0 mirror_written)); [exact (bs_report 10 mirror_written true 0 G2)|].
  apply (nsteps_trans 2 6 _ mirror_reported); [exact (game_runs _ 2)|].
  apply (nsteps_l _ _ _ mirror_broadcast); [exact (bs_broadcast 10 mirror_reported G3)|]. exact (game_runs mirror_broadcast 5).
Qed.

Definition mirror_client : player (D := chunk_blocks) := default mirror_player (t_players (w_system mirror_end).1 !! 1).

Lemma mirror_end_facts :
  w_game mirror_end = GIdle /\ w_unreported mirror_end = [] /\ chunks_to_broadcast mirror_end = [] /\
  w_light_queueing mirror_end = [] /\ t_players (w_system mirror_end).1 !! 1 = Some mirror_client /\
  p_closed mirror_client = false /\ bool_decide (mkChunkPos 0 0 ∈ sent_chunks (chunk_sender mirror_client)) = true /\
  bool_decide (mirror_block ∈ w_untold mirror_end) = false /\ w_blocks mirror_end !! mirror_block = Some 9.
Proof. split_and!; vm_compute; reflexivity. Qed.

Lemma clients_mirror_blocks_witness :
  exists data, client_blocks (p_log mirror_client) !! mkChunkPos 0 0 = Some data /\ data !! mirror_block = Some 9.
Proof.
  destruct mirror_end_facts as (Hg & Hu & Hq & Hl & Hp & Hc & Hs & Ht & Hb).
  destruct (clients_mirror_blocks 10 17 mirror_start mirror_end mirror_start_initial
    (nsteps_trans 2 15 _ _ _ mirror_arrival (nsteps_trans 5 10 _ _ _ mirror_sending mirror_telling)) ltac:(lia) Hg Hu Hq Hl 1 mirror_client (mkChunkPos 0 0) Hp Hc
    (bool_decide_eq_true_1 _ Hs)) as (data & Hd & H).
  exists data. split; [exact Hd|]. rewrite <- Hb. apply H. split; [reflexivity|].
  split; [exact (bool_decide_eq_false_1 _ Ht)|]. rewrite Hb. eexists. reflexivity.
Defined.

Lemma mirror_reported_facts :
  w_game mirror_reported = GIdle /\ w_unreported mirror_reported = [] /\ w_light_queueing mirror_reported = [] /\
  chunks_to_broadcast mirror_reported = [7].
Proof. split_and!; vm_compute; reflexivity. Qed.

Lemma mirror_told : nsteps (broadcast_step 10) 4 mirror_committed mirror_reported.
Proof.
  destruct mirror_idle as (G1 & B1 & G2 & _). apply (nsteps_l _ _ _ mirror_written).
  { refine (bs_set_block 10 mirror_committed mirror_block 9 G1 _). rewrite B1, lookup_singleton_eq. eauto. }
  apply (nsteps_l _ _ _ (report true 0 mirror_written)); [exact (bs_report 10 mirror_written true 0 G2)|exact (game_runs _ 2)].
Qed.

Lemma broadcast_updates_clients_witness :
  chunks_to_broadcast mirror_reported = [7] /\ exists k, w_game (Nat.iter k game_continue mirror_broadcast) = GIdle.
Proof.
  destruct mirror_reported_facts as (Hg & Hu & Hl & Hq). split; [exact Hq|].
  destruct (broadcast_updates_clients 10 11 mirror_start mirror_reported mirror_start_initial
    (nsteps_trans 2 9 _ _ _ mirror_arrival (nsteps_trans 5 4 _ _ _ mirror_sending mirror_told)) ltac:(lia) Hg Hu Hl) as (k & Hk & _).
  exists k. exact Hk.
Defined.
