(* ===== verification/Items.v ===== *)
(** * Item stacks and containers

    Models [ItemStack] of [steel-registry/src/item_stack.rs] (counts, splitting, comparison
    by effective components) and the containers of [steel-core/src/inventory/container] with
    the player's inventory and barrels.  The components of an item's prototype come from the
    registry. *)

From stdpp Require Import strings.
From S2P Require Import Prelude.

(** ** Components *)

(** A component value, erased to a number unless it is an integer. *)
Inductive ComponentData := IntData (v : Z) | OtherData (v : Z).
#[global] Instance ComponentData_eq_dec : EqDecision ComponentData.
Proof. solve_decision. Defined.

Inductive ComponentPatchEntry := PatchSet (data : ComponentData) | PatchRemoved.

Abbreviation DataComponentMap := (gmap string ComponentData).
Abbreviation DataComponentPatch := (gmap string ComponentPatchEntry).

(** The prototype components of each item. *)
Class ItemRegistry := item_components : Z -> DataComponentMap.

Definition MAX_STACK_SIZE : string := "minecraft:max_stack_size".
Definition MAX_DAMAGE : string := "minecraft:max_damage".
Definition DAMAGE : string := "minecraft:damage".
Definition UNBREAKABLE : string := "minecraft:unbreakable".

(** ** Stacks *)

Definition AIR : Z := 0.

Record ItemStack := mkStack { item : Z; count : Z; patch : DataComponentPatch }.

Definition ItemStack_empty : ItemStack := mkStack AIR 0 ∅.

Section Items.
Context `{ItemRegistry}.

Implicit Types s t : ItemStack.

Definition is_empty s : bool := (item s =? AIR) || (count s <=? 0).

(** [ItemStack::item] and [ItemStack::count] of a possibly empty stack. *)
Definition stack_item s : Z := if is_empty s then AIR else item s.
Definition stack_count s : Z := if is_empty s then 0 else count s.

Definition set_count s (n : Z) : ItemStack := mkStack (item s) n (patch s).
Definition grow s (amount : Z) : ItemStack := set_count s (count s + amount).
Definition shrink s (amount : Z) : ItemStack := set_count s (count s - amount).

(** What is left, and what was split off. *)
Definition split s (amount : Z) : ItemStack * ItemStack :=
  let take := Z.min amount (count s) in (shrink s take, mkStack (item s) take (patch s)).

Definition copy_with_count s (n : Z) : ItemStack :=
  if is_empty s then ItemStack_empty else mkStack (item s) n (patch s).

Definition is_removed (p : DataComponentPatch) (key : string) : bool :=
  match p !! key with Some PatchRemoved => true | _ => false end.

Definition get_effective_value_raw s (key : string) : option ComponentData :=
  match patch s !! key with
  | Some (PatchSet data) => Some data
  | Some PatchRemoved => None
  | None => item_components (item s) !! key
  end.

Definition has_component s (key : string) : bool :=
  match patch s !! key with
  | Some (PatchSet _) => true
  | Some PatchRemoved => false
  | None => bool_decide (is_Some (item_components (item s) !! key))
  end.

(** [get] of an [i32] component. *)
Definition get_i32 s (key : string) : option Z :=
  match get_effective_value_raw s key with Some (IntData v) => Some v | _ => None end.

Definition max_stack_size s : Z := default 1 (get_i32 s MAX_STACK_SIZE).

Definition is_damageable_item s : bool :=
  has_component s MAX_DAMAGE && negb (has_component s UNBREAKABLE) && has_component s DAMAGE.
Definition get_max_damage s : Z := default 0 (get_i32 s MAX_DAMAGE).
Definition get_damage_value s : Z := Z.max 0 (Z.min (get_max_damage s) (default 0 (get_i32 s DAMAGE))).
Definition is_damaged s : bool := is_damageable_item s && (0 <? get_damage_value s).
Definition is_stackable s : bool := (1 <? max_stack_size s) && (negb (is_damageable_item s) || negb (is_damaged s)).

(** The keys of one stack that [components_equal] looks at. *)
Definition compared_keys s : gset string :=
  filter (fun key => is_removed (patch s) key = false) (dom (item_components (item s))) ∪
  filter (fun key => match patch s !! key with Some (PatchSet _) => true | _ => false end = true) (dom (patch s)).

Definition components_equal s t : bool :=
  forallb (fun key => bool_decide (get_effective_value_raw s key = get_effective_value_raw t key))
    (elements (compared_keys s ∪ compared_keys t)).

Definition is_same_item s t : bool := stack_item s =? stack_item t.

Definition is_same_item_same_components s t : bool :=
  if negb (is_same_item s t) then false
  else if is_empty s && is_empty t then true
  else components_equal s t.

Definition stack_matches s t : bool := (stack_count s =? stack_count t) && is_same_item_same_components s t.

(** *** Kinds of items *)

(** Stacks of the same item with the same effective components. *)
Definition same_kind s t : Prop :=
  item s = item t /\ forall key, get_effective_value_raw s key = get_effective_value_raw t key.

#[global] Instance same_kind_equiv : Equivalence same_kind.
Proof.
  split.
  - intros s. by split.
  - intros s t [E1 E2]. by split.
  - intros s t u [E1 E2] [F1 F2]. split; [congruence|]. intros key. by rewrite E2.
Qed.

Lemma compared_key s key : is_Some (get_effective_value_raw s key) -> key ∈ compared_keys s.
Proof.
  unfold get_effective_value_raw, compared_keys, is_removed. intros Hk. rewrite elem_of_union, !elem_of_filter, !elem_of_dom.
  destruct (patch s !! key) as [[data|]|] eqn:E; [right; by eauto|by destruct Hk|left; by split].
Qed.

Lemma components_equal_spec s t :
  components_equal s t = true <-> forall key, get_effective_value_raw s key = get_effective_value_raw t key.
Proof.
  unfold components_equal. rewrite forallb_forall. setoid_rewrite <- list_elem_of_In. setoid_rewrite elem_of_elements.
  setoid_rewrite bool_decide_eq_true. split; [|auto]. intros Hall key. destruct (get_effective_value_raw s key) as [d|] eqn:E.
  - rewrite <- E. apply Hall, elem_of_union_l, compared_key. by rewrite E.
  - destruct (get_effective_value_raw t key) as [d|] eqn:E'; [|done]. rewrite <- E, <- E'. apply Hall, elem_of_union_r, compared_key.
    by rewrite E'.
Qed.

Lemma same_item_same_components_spec s t : is_empty s = false -> is_empty t = false ->
  is_same_item_same_components s t = true <-> same_kind s t.
Proof.
  intros Hs Ht. unfold is_same_item_same_components, is_same_item, stack_item, same_kind. rewrite Hs, Ht. simpl.
  destruct (Z.eqb_spec (item s) (item t)); simpl; [rewrite components_equal_spec; tauto|naive_solver].
Qed.

Lemma max_stack_size_kind s t : same_kind s t -> max_stack_size s = max_stack_size t.
Proof. intros [_ E]. unfold max_stack_size, get_i32. by rewrite E. Qed.

Lemma same_kind_count s n : same_kind (set_count s n) s.
Proof. by split. Qed.

(** *** Amounts *)

(** How many items of the kind of [r] a stack holds. *)
Definition of_kind (r s : ItemStack) : bool := (item r =? item s) && components_equal r s.
Definition amount (r s : ItemStack) : Z := if of_kind r s then stack_count s else 0.

(** A stack as the game makes them: within the limit of its kind, and no items of air. *)
Definition stack_ok s : Prop :=
  0 <= count s /\ (item s = AIR -> count s = 0) /\ (0 < count s -> count s <= max_stack_size s <= 99).

(** A stack on its way between containers, which may be above the limit of its kind. *)
Definition held_ok s : Prop :=
  0 <= count s /\ (item s = AIR -> count s = 0) /\ (0 < count s -> 1 <= max_stack_size s <= 99).

Lemma stack_held s : stack_ok s -> held_ok s.
Proof. intros (H1 & H2 & H3). split_and!; [done|done|]. intros Hs. specialize (H3 Hs). lia. Qed.

Lemma held_stack s : held_ok s -> count s <= max_stack_size s -> stack_ok s.
Proof. intros (H1 & H2 & H3) Hle. split_and!; [done|done|]. intros Hs. specialize (H3 Hs). lia. Qed.

Lemma of_kind_spec r s : of_kind r s = true <-> same_kind r s.
Proof. unfold of_kind, same_kind. by rewrite andb_true_iff, Z.eqb_eq, components_equal_spec. Qed.

Lemma of_kind_same r s t : same_kind s t -> of_kind r s = of_kind r t.
Proof.
  intros Hst. apply eq_true_iff_eq. rewrite !of_kind_spec. split; intros ?; [by transitivity s|by transitivity t].
Qed.

Lemma stack_ok_count s : held_ok s -> stack_count s = count s.
Proof.
  intros (H1 & H2 & _). unfold stack_count, is_empty. destruct (Z.eqb_spec (item s) AIR); [by rewrite H2|].
  destruct (Z.leb_spec (count s) 0); simpl; lia.
Qed.

Lemma stack_ok_empty s : held_ok s -> is_empty s = (count s <=? 0).
Proof.
  intros (H1 & H2 & _). unfold is_empty. destruct (Z.eqb_spec (item s) AIR); [by rewrite H2|done].
Qed.

Lemma amount_ok r s : held_ok s -> amount r s = if of_kind r s then count s else 0.
Proof. intros Hs. unfold amount. by rewrite stack_ok_count. Qed.

Lemma empty_stack_ok : stack_ok ItemStack_empty.
Proof. split; simpl; [done|]. split; [done|lia]. Qed.

Lemma amount_empty r s : is_empty s = true -> amount r s = 0.
Proof. unfold amount, stack_count. intros ->. by destruct (of_kind r s). Qed.

(** A stack of the kind of [s] with another count. *)
Lemma recount_ok s t n : held_ok s -> same_kind t s -> 0 < count s -> 0 <= n <= max_stack_size s -> stack_ok (set_count t n).
Proof.
  intros (H1 & H2 & H3) [E1 E2] Hs Hn. split; simpl; [lia|]. split.
  - intros Ha. rewrite Ha in E1. symmetry in E1. apply H2 in E1. lia.
  - intros _. rewrite (max_stack_size_kind (set_count t n) s) by (by split). lia.
Qed.

Lemma amount_recount r s t n : same_kind t s -> held_ok (set_count t n) ->
  amount r (set_count t n) = if of_kind r s then n else 0.
Proof.
  intros Hk Hok. rewrite amount_ok by done. rewrite (of_kind_same r _ s); [done|]. by transitivity t; [apply same_kind_count|].
Qed.

Lemma split_ok s n : stack_ok s -> 0 <= n -> stack_ok (split s n).1 /\ stack_ok (split s n).2.
Proof.
  intros (H1 & H2 & H3) Hn. unfold split, shrink, set_count, stack_ok. simpl.
  change (max_stack_size (mkStack (item s) ?[a] (patch s))) with (max_stack_size s).
  change (max_stack_size (mkStack (item s) ?[b] (patch s))) with (max_stack_size s).
  split; (split; [lia|]); (split; [intros Ha; specialize (H2 Ha); lia|]); lia.
Qed.

Lemma split_held s n : held_ok s -> 0 <= n -> held_ok (split s n).1 /\ held_ok (split s n).2.
Proof.
  intros (H1 & H2 & H3) Hn. unfold split, shrink, set_count, held_ok. simpl.
  change (max_stack_size (mkStack (item s) ?[a] (patch s))) with (max_stack_size s).
  change (max_stack_size (mkStack (item s) ?[b] (patch s))) with (max_stack_size s).
  split; (split; [lia|]); (split; [intros Ha; specialize (H2 Ha); lia|]); lia.
Qed.

(** A part that fits is a stack of its own. *)
Lemma split_part_ok s n : held_ok s -> 0 <= n <= max_stack_size s -> stack_ok (split s n).2.
Proof.
  intros Hs Hn. apply held_stack; [apply split_held; [done|lia]|]. change (Z.min n (count s) <= max_stack_size s). lia.
Qed.

Lemma split_amount r s n : held_ok s -> 0 <= n -> amount r (split s n).1 + amount r (split s n).2 = amount r s.
Proof.
  intros Hs Hn. destruct (split_held s n Hs Hn) as [H1 H2]. rewrite !amount_ok by done.
  change (of_kind r (split s n).1) with (of_kind r s). change (of_kind r (split s n).2) with (of_kind r s). simpl.
  destruct (of_kind r s); lia.
Qed.

(** A stack with another count of the kind of one that is held. *)
Lemma recount_held s t n : held_ok s -> same_kind t s -> 0 < count s -> 0 <= n -> held_ok (set_count t n).
Proof.
  intros (H1 & H2 & H3) [E1 E2] Hs Hn. split; simpl; [lia|]. split.
  - intros Ha. rewrite Ha in E1. symmetry in E1. apply H2 in E1. lia.
  - intros _. rewrite (max_stack_size_kind (set_count t n) s) by (by split). auto.
Qed.
End Items.

(** Solves what follows from a stack being well-formed. *)
Ltac held := first [done | by apply stack_held | by apply stack_held, empty_stack_ok | by apply empty_stack_ok].
