(* ===== verification/Containers.v ===== *)
(** * Containers

    Models the [Container] trait of [steel-core/src/inventory/container/mod.rs] with its
    default methods, the player's inventory and barrels, which override some of them. *)

From S2P Require Import Prelude Items.

(** ** Kinds of containers *)

Inductive ContainerKind :=
| SimpleContainer
| BarrelContainer
| PlayerInventory (selected : nat).

Record Container := mkContainer { c_kind : ContainerKind; items : list ItemStack }.

Definition INVENTORY_SIZE : nat := 36.
Definition CONTAINER_SIZE : nat := 43.
Definition SLOT_OFFHAND : nat := 40.
Definition BARREL_SLOTS : nat := 27.

Section Containers.
Context `{ItemRegistry}.

Implicit Types c : Container.
Implicit Types s : ItemStack.

(** ** Access *)

Definition get_item c (slot : nat) : option ItemStack :=
  match c_kind c with
  | PlayerInventory _ => if decide (slot < CONTAINER_SIZE)%nat then items c !! slot else Some ItemStack_empty
  | _ => items c !! slot
  end.

(** A change through [get_item_mut]. *)
Definition update_item c (slot : nat) (f : ItemStack -> ItemStack) : option Container :=
  s ← items c !! slot; Some (mkContainer (c_kind c) (<[slot := f s]> (items c))).

Definition get_max_stack_size c : Z := match c_kind c with BarrelContainer => 64 | _ => 99 end.
Definition get_max_stack_size_for_item c s : Z := Z.min (get_max_stack_size c) (max_stack_size s).

Definition set_item c (slot : nat) s : option Container :=
  match c_kind c with
  | SimpleContainer => l ← vec_set (items c) slot s; Some (mkContainer (c_kind c) l)
  | BarrelContainer =>
      if decide (slot < BARREL_SLOTS)%nat then
        let max := get_max_stack_size_for_item c s in
        let s := if negb (is_empty s) && (max <? stack_count s) then set_count s max else s in
        l ← vec_set (items c) slot s; Some (mkContainer (c_kind c) l)
      else Some c
  | PlayerInventory selected =>
      if decide (slot = selected) then l ← vec_set (items c) selected s; Some (mkContainer (c_kind c) l)
      else if decide (INVENTORY_SIZE <= slot < CONTAINER_SIZE)%nat
      then l ← vec_set (items c) slot s; Some (mkContainer (c_kind c) l)
      else if decide (slot < INVENTORY_SIZE)%nat
      then l ← vec_set (items c) slot s; Some (mkContainer (c_kind c) l)
      else Some c
  end.

(** The stack that is removed. *)
Definition remove_item c (slot : nat) (n : Z) : option (Container * ItemStack) :=
  s ← items c !! slot;
  if is_empty s || (n <=? 0) then Some (c, ItemStack_empty)
  else c ← update_item c slot (fun s => (split s n).1); Some (c, (split s n).2).

(** ** Adding a stack *)

(** One slot of the first pass: top up a stack of the same kind. *)
Definition top_up (max : Z) (slot : nat) (acc : Container * ItemStack) : option (Container * ItemStack) :=
  let '(c, stack) := acc in
  if is_empty stack then Some (c, stack)
  else
    existing ← items c !! slot;
    if negb (is_empty existing) && is_same_item_same_components existing stack then
      let space := max - stack_count existing in
      if 0 <? space then
        let to_add := Z.min (stack_count stack) space in
        c ← update_item c slot (fun s => grow s to_add); Some (c, shrink stack to_add)
      else Some (c, stack)
    else Some (c, stack).

(** One slot of the second pass: fill an empty slot. *)
Definition fill_empty (max : Z) (slot : nat) (acc : Container * ItemStack) : option (Container * ItemStack) :=
  let '(c, stack) := acc in
  if is_empty stack then Some (c, stack)
  else
    existing ← get_item c slot;
    if is_empty existing then
      let to_place := Z.min (stack_count stack) max in
      c ← set_item c slot (split stack to_place).2; Some (c, (split stack to_place).1)
    else Some (c, stack).

(** The player's inventory writes [self.items[slot]] directly. *)
Definition fill_main (max : Z) (slot : nat) (acc : Container * ItemStack) : option (Container * ItemStack) :=
  let '(c, stack) := acc in
  if is_empty stack then Some (c, stack)
  else
    existing ← items c !! slot;
    if is_empty existing then
      let to_place := Z.min (stack_count stack) max in
      c ← update_item c slot (fun _ => (split stack to_place).2); Some (c, (split stack to_place).1)
    else Some (c, stack).

(** The slots that the first pass of the player's inventory visits. *)
Definition top_up_order (selected : nat) : list nat :=
  [selected; SLOT_OFFHAND] ++ filter (fun slot => slot <> selected) (seq 0 INVENTORY_SIZE).

(** The remaining stack, and whether nothing remains. *)
Definition container_add c s : option (Container * ItemStack * bool) :=
  if is_empty s then Some (c, s, true)
  else
    let max := get_max_stack_size_for_item c s in
    '(c, s) ← match c_kind c with
              | PlayerInventory selected =>
                  acc ← (if is_stackable s then for_each (top_up_order selected) (top_up max) (c, s) else Some (c, s));
                  for_each (seq 0 INVENTORY_SIZE) (fill_main max) acc
              | _ =>
                  let size := length (items c) in
                  acc ← (if is_stackable s then for_each (seq 0 size) (top_up max) (c, s) else Some (c, s));
                  for_each (seq 0 size) (fill_empty max) acc
              end;
    Some (c, s, is_empty s).

(** ** Clearing *)

Definition matching_item_count s (predicate : ItemStack -> bool) (amount_to_remove : Z) (counting_only : bool) : Z :=
  if is_empty s || negb (predicate s) then 0
  else if counting_only then stack_count s
  else if amount_to_remove <? 0 then stack_count s
  else Z.min amount_to_remove (stack_count s).

Definition clear_slot (predicate : ItemStack -> bool) (amount_to_remove : Z) (counting_only : bool)
  (slot : nat) (acc : Container * Z) : option (Container * Z) :=
  let '(c, n) := acc in
  s ← get_item c slot;
  let removed := matching_item_count s predicate (amount_to_remove - n) counting_only in
  if (0 <? removed) && negb counting_only then
    c ← (if removed =? stack_count s then set_item c slot ItemStack_empty
         else update_item c slot (fun s => shrink s removed));
    Some (c, n + removed)
  else Some (c, n + removed).

Definition clear_or_count_matching_items c (predicate : ItemStack -> bool) (amount_to_remove : Z) (counting_only : bool)
  : option (Container * Z) :=
  for_each (seq 0 (length (items c))) (clear_slot predicate amount_to_remove counting_only) (c, 0).

Definition clear_content c : Container * Z :=
  (mkContainer (c_kind c) ((fun _ => ItemStack_empty) <$> items c), foldl Z.add 0 (stack_count <$> items c)).

(** ** Totals *)

Definition sumZ (l : list Z) : Z := foldr Z.add 0 l.

Lemma sumZ_insert {A} (f : A -> Z) (l : list A) i x y : l !! i = Some x ->
  sumZ (f <$> <[i := y]> l) = sumZ (f <$> l) - f x + f y.
Proof.
  revert i. induction l as [|z l IH]; intros [|i] Hi; [done|done| |].
  - injection Hi as ->.
    change (f y + sumZ (f <$> l) = f x + sumZ (f <$> l) - f x + f y). lia.
  - change (f z + sumZ (f <$> <[i := y]> l) = f z + sumZ (f <$> l) - f x + f y). rewrite (IH i Hi). lia.
Qed.

(** The items of a kind in a container. *)
Definition container_total (r : ItemStack) c : Z := sumZ (amount r <$> items c).

Record container_ok c : Prop := {
  co_stacks : Forall stack_ok (items c);
  co_limit : Forall (fun s => count s <= get_max_stack_size c) (items c);
  co_size : match c_kind c with
            | SimpleContainer => True
            | BarrelContainer => length (items c) = BARREL_SLOTS
            | PlayerInventory selected => length (items c) = CONTAINER_SIZE /\ (selected < 9)%nat
            end;
}.

Definition put c (slot : nat) s : Container := mkContainer (c_kind c) (<[slot := s]> (items c)).

Lemma put_ok c slot s : container_ok c -> stack_ok s -> count s <= get_max_stack_size c -> container_ok (put c slot s).
Proof.
  intros [H1 H2 H3] Hs Hle. split; simpl; [by apply Forall_insert|by apply Forall_insert|]. destruct (c_kind c); [done|..]; by rewrite length_insert.
Qed.

Lemma put_total r c slot s t : items c !! slot = Some s ->
  container_total r (put c slot t) = container_total r c - amount r s + amount r t.
Proof. apply (sumZ_insert (amount r)). Qed.

Lemma container_slot_ok c slot s : container_ok c -> items c !! slot = Some s -> stack_ok s.
Proof. intros Hc Hs. exact (Forall_lookup_1 _ _ _ _ (co_stacks _ Hc) Hs). Qed.

Lemma container_slot_limit c slot s : container_ok c -> items c !! slot = Some s -> count s <= get_max_stack_size c.
Proof. intros Hc Hs. exact (Forall_lookup_1 _ _ _ _ (co_limit _ Hc) Hs). Qed.

Lemma get_item_in c slot s : container_ok c -> items c !! slot = Some s -> get_item c slot = Some s.
Proof.
  intros Hc Hs. unfold get_item. pose proof (co_size _ Hc) as Hl. apply lookup_lt_Some in Hs as Hlt.
  destruct (c_kind c) as [| |sel]; [done|done|]. destruct Hl as [Hl _]. rewrite decide_True; [done|lia].
Qed.

Lemma update_item_in c slot s f : items c !! slot = Some s -> update_item c slot f = Some (put c slot (f s)).
Proof. unfold update_item. by intros ->. Qed.

(** A slot takes what fits. *)
Lemma set_item_in c slot s t : container_ok c -> items c !! slot = Some s ->
  (is_empty t = false -> stack_count t <= get_max_stack_size_for_item c t) -> set_item c slot t = Some (put c slot t).
Proof.
  intros Hc Hs Hfit. pose proof (co_size _ Hc) as Hl. apply lookup_lt_Some in Hs as Hlt. unfold set_item, put.
  destruct (c_kind c) as [| |sel] eqn:Ek; simpl.
  - by rewrite vec_set_Some.
  - rewrite decide_True by lia. destruct (is_empty t) eqn:Et; simpl; [by rewrite vec_set_Some|].
    destruct (Z.ltb_spec (get_max_stack_size_for_item c t) (stack_count t)); [specialize (Hfit eq_refl); lia|].
    by rewrite vec_set_Some.
  - destruct Hl as [Hl Hsel]. unfold CONTAINER_SIZE, INVENTORY_SIZE in *. destruct (decide (slot = sel)) as [->|].
    + rewrite vec_set_Some by lia. done.
    + case_decide; [by rewrite vec_set_Some|]. rewrite decide_True by lia. by rewrite vec_set_Some.
Qed.

(** ** Adding *)

(** Nothing is lost or made, and what remains is of the same kind. *)
Definition adds_to (c0 : Container) (s0 : ItemStack) (acc : Container * ItemStack) : Prop :=
  container_ok acc.1 /\ c_kind acc.1 = c_kind c0 /\ length (items acc.1) = length (items c0) /\
  held_ok acc.2 /\ same_kind acc.2 s0 /\ count acc.2 <= count s0 /\
  forall r, container_total r acc.1 + amount r acc.2 = container_total r c0 + amount r s0.

Lemma stack_nonempty s : held_ok s -> is_empty s = false <-> 0 < count s.
Proof. intros Hs. rewrite stack_ok_empty by done. rewrite Z.leb_gt. done. Qed.

(** Putting a changed stack into a slot while the rest of the added stack is kept. *)
Lemma adds_to_put c0 s0 c s slot old new rest : adds_to c0 s0 (c, s) -> items c !! slot = Some old ->
  stack_ok new -> count new <= get_max_stack_size c0 -> held_ok rest -> same_kind rest s -> count rest <= count s ->
  (forall r, amount r new + amount r rest = amount r old + amount r s) -> adds_to c0 s0 (put c slot new, rest).
Proof.
  intros (H1 & H2 & H3 & H4 & H5 & H6 & H7) Hold Hnew Hfit Hrest Hk Hle Hsum. simpl in *. split_and!; simpl; try done.
  - apply put_ok; [done|done|]. unfold get_max_stack_size. by rewrite H2.
  - by rewrite length_insert.
  - by transitivity s.
  - lia.
  - intros r. rewrite (put_total r c slot old) by done. specialize (H7 r). specialize (Hsum r). lia.
Qed.

Lemma top_up_ok c0 s0 max slot acc : adds_to c0 s0 acc -> max <= get_max_stack_size_for_item c0 s0 -> (slot < length (items c0))%nat ->
  exists acc', top_up max slot acc = Some acc' /\ adds_to c0 s0 acc'.
Proof.
  destruct acc as [c s]. intros Hacc Hmax Hslot. pose proof Hacc as (H1 & H2 & H3 & H4 & H5 & H6 & H7). simpl in *. unfold get_max_stack_size_for_item in Hmax.
  destruct (is_empty s) eqn:Es; [by exists (c, s)|]. destruct (lookup_lt_is_Some_2 (items c) slot) as [old Hold]; [lia|].
  pose proof (container_slot_ok c slot old H1 Hold) as Ho. rewrite Hold. simpl.
  destruct (is_empty old) eqn:Eo; simpl; [by exists (c, s)|].
  destruct (is_same_item_same_components old s) eqn:Ek; [|by exists (c, s)]. apply same_item_same_components_spec in Ek; [|done..].
  rewrite (stack_ok_count old), (stack_ok_count s) by held. destruct (Z.ltb_spec 0 (max - count old)); [|by exists (c, s)].
  rewrite (update_item_in c slot old) by done. simpl. eexists. split; [done|].
  apply stack_nonempty in Es as Hs; [|done]. apply stack_nonempty in Eo as Hp; [|held].
  assert (max <= max_stack_size old) as Hm by (rewrite (max_stack_size_kind old s0); [lia|by transitivity s]).
  pose proof H4 as (_ & _ & Hlim). specialize (Hlim Hs).
  assert (stack_ok (grow old (Z.min (count s) (max - count old)))) as G1 by (apply (recount_ok old); [held|done|lia|lia]).
  assert (held_ok (shrink s (Z.min (count s) (max - count old)))) as G2 by (apply (recount_held s); [done|done|lia|lia]).
  apply (adds_to_put c0 s0 c s slot old); try done; [simpl; lia|simpl; lia|].
  intros r. unfold grow, shrink in *. rewrite (amount_recount r old) by held. rewrite (amount_recount r s) by done.
  rewrite !amount_ok by held. rewrite (of_kind_same r old s) by done. destruct (of_kind r s); lia.
Qed.

(** What both second passes do in an empty slot. *)
Lemma fill_ok c0 s0 c s slot old max : adds_to c0 s0 (c, s) -> items c !! slot = Some old -> is_empty old = true ->
  is_empty s = false -> 1 <= max <= get_max_stack_size_for_item c0 s0 ->
  adds_to c0 s0 (put c slot (split s (Z.min (stack_count s) max)).2, (split s (Z.min (stack_count s) max)).1) /\
  is_empty (split s (Z.min (stack_count s) max)).2 = false /\
  stack_count (split s (Z.min (stack_count s) max)).2 <= max.
Proof.
  intros Hacc Hold Eo Es Hmax. pose proof Hacc as (H1 & H2 & H3 & H4 & H5 & H6 & H7). simpl in *. unfold get_max_stack_size_for_item in Hmax.
  apply stack_nonempty in Es as Hs; [|done]. rewrite stack_ok_count by done.
  destruct (split_held s (Z.min (count s) max) H4 ltac:(lia)) as [G1 _].
  assert (stack_ok (split s (Z.min (count s) max)).2) as G2
    by (apply split_part_ok; [done|]; rewrite (max_stack_size_kind s s0) by done; lia). split_and!.
  - apply (adds_to_put c0 s0 c s slot old); try done; [simpl; lia|simpl; lia|]. intros r.
    rewrite (amount_empty r old) by done. rewrite Z.add_comm. exact (split_amount r s (Z.min (count s) max) H4 ltac:(lia)).
  - apply stack_nonempty; [held|]. simpl. lia.
  - rewrite stack_ok_count by held. simpl. lia.
Qed.

(** The slots that were visited are full unless nothing remains. *)
Definition visited_full (pre : list nat) (acc : Container * ItemStack) : Prop :=
  is_empty acc.2 = false -> forall slot, slot ∈ pre -> exists t, items acc.1 !! slot = Some t /\ is_empty t = false.

Lemma visited_put pre c s slot new rest : (slot < length (items c))%nat -> is_empty s = false -> is_empty new = false ->
  visited_full pre (c, s) -> visited_full (pre ++ [slot]) (put c slot new, rest).
Proof.
  intros Hlt Hs Hnew Hv _ x Hx. simpl. destruct (decide (x = slot)) as [->|Hne].
  - exists new. by rewrite list_lookup_insert_eq.
  - rewrite list_lookup_insert_ne by done. apply elem_of_app in Hx as [Hx| ->%list_elem_of_singleton]; [|done]. by apply Hv.
Qed.

Lemma visited_skip pre c s slot t : items c !! slot = Some t -> is_empty t = false ->
  visited_full pre (c, s) -> visited_full (pre ++ [slot]) (c, s).
Proof.
  intros Ht Et Hv Hs x [Hx| ->%list_elem_of_singleton]%elem_of_app; [by apply Hv|]. by exists t.
Qed.

Lemma fill_main_ok c0 s0 max pre slot acc : adds_to c0 s0 acc -> visited_full pre acc ->
  1 <= max <= get_max_stack_size_for_item c0 s0 -> (slot < length (items c0))%nat ->
  exists acc', fill_main max slot acc = Some acc' /\ adds_to c0 s0 acc' /\ visited_full (pre ++ [slot]) acc'.
Proof.
  destruct acc as [c s]. intros Hacc Hv Hmax Hslot. pose proof Hacc as (H1 & H2 & H3 & _). cbn [fst snd] in *. unfold fill_main.
  destruct (is_empty s) eqn:Es; [exists (c, s); split_and!; [done..|]; intros E; simpl in E; congruence|].
  destruct (lookup_lt_is_Some_2 (items c) slot) as [old Hold]; [lia|]. rewrite Hold. cbn [mbind option_bind].
  destruct (is_empty old) eqn:Eo; [|exists (c, s); split_and!; [done..|]; by apply (visited_skip pre c s slot old)].
  rewrite (update_item_in c slot old) by done. destruct (fill_ok c0 s0 c s slot old max) as (F1 & F2 & F3); try done.
  eexists. split; [done|]. split; [done|]. apply (visited_put pre c s); [lia|done..].
Qed.

Lemma fill_empty_ok c0 s0 max pre slot acc : adds_to c0 s0 acc -> visited_full pre acc ->
  1 <= max -> max = get_max_stack_size_for_item c0 s0 -> (slot < length (items c0))%nat ->
  exists acc', fill_empty max slot acc = Some acc' /\ adds_to c0 s0 acc' /\ visited_full (pre ++ [slot]) acc'.
Proof.
  destruct acc as [c s]. intros Hacc Hv Hmax Emax Hslot. pose proof Hacc as (H1 & H2 & H3 & H4 & H5 & _). cbn [fst snd] in *.
  unfold fill_empty. destruct (is_empty s) eqn:Es; [exists (c, s); split_and!; [done..|]; intros E; simpl in E; congruence|].
  destruct (lookup_lt_is_Some_2 (items c) slot) as [old Hold]; [lia|]. rewrite (get_item_in c slot old) by done. cbn [mbind option_bind].
  destruct (is_empty old) eqn:Eo; [|exists (c, s); split_and!; [done..|]; by apply (visited_skip pre c s slot old)].
  destruct (fill_ok c0 s0 c s slot old max) as (F1 & F2 & F3); try done; [lia|].
  rewrite (set_item_in c slot old); [|done|done|].
  - eexists. split; [done|]. split; [done|]. apply (visited_put pre c s); [lia|done..].
  - intros _. replace (get_max_stack_size_for_item c _) with max; [done|]. rewrite Emax. unfold get_max_stack_size_for_item, get_max_stack_size.
    rewrite H2. f_equal. apply max_stack_size_kind. by transitivity s.
Qed.

Lemma adds_to_refl c s : container_ok c -> held_ok s -> adds_to c s (c, s).
Proof. intros Hc Hs. split_and!; simpl; done. Qed.

Lemma top_up_all_ok c s max l : container_ok c -> held_ok s -> max <= get_max_stack_size_for_item c s ->
  Forall (fun slot => slot < length (items c))%nat l ->
  exists acc, (if is_stackable s then for_each l (top_up max) (c, s) else Some (c, s)) = Some acc /\ adds_to c s acc.
Proof.
  intros Hc Hs Hmax Hl. destruct (is_stackable s); [|exists (c, s); split; [done|]; by apply adds_to_refl].
  apply (for_each_ind (fun _ => adds_to c s)); [by apply adds_to_refl|]. intros pre slot todo acc E Hacc.
  apply top_up_ok; [done|done|]. rewrite Forall_forall in Hl. apply Hl. rewrite E. apply elem_of_app. right. by left.
Qed.

(** The slots that [add] fills. *)
Definition fill_slots c : list nat :=
  match c_kind c with PlayerInventory _ => seq 0 INVENTORY_SIZE | _ => seq 0 (length (items c)) end.

Lemma fill_all_ok c s l f acc : Forall (fun slot => slot < length (items c))%nat l -> adds_to c s acc ->
  (forall pre slot acc, (slot < length (items c))%nat -> adds_to c s acc -> visited_full pre acc ->
     exists acc', f slot acc = Some acc' /\ adds_to c s acc' /\ visited_full (pre ++ [slot]) acc') ->
  exists acc', for_each l f acc = Some acc' /\ adds_to c s acc' /\ visited_full l acc'.
Proof.
  intros Hl Hacc Hf. apply (for_each_ind (fun pre acc => adds_to c s acc /\ visited_full pre acc)).
  - split; [done|]. by intros _ slot ?%elem_of_nil.
  - intros pre slot todo acc' E [Ha Hv]. apply Hf; [|done|done]. rewrite Forall_forall in Hl. apply Hl. rewrite E.
    apply elem_of_app. right. by left.
Qed.

Lemma seq_below n m : (n <= m)%nat -> Forall (fun slot => slot < m)%nat (seq 0 n).
Proof. intros Hle. apply Forall_forall. intros slot [_ ?]%elem_of_seq. lia. Qed.

Lemma container_add_ok c s : container_ok c -> held_ok s ->
  exists c' s', container_add c s = Some (c', s', is_empty s') /\ adds_to c s (c', s') /\ visited_full (fill_slots c) (c', s').
Proof.
  intros Hc Hs. unfold container_add. destruct (is_empty s) eqn:Es.
  { exists c, s. rewrite Es. split_and!; [done|by apply adds_to_refl|]. intros E. simpl in E. congruence. }
  set (max := get_max_stack_size_for_item c s). apply stack_nonempty in Es; [|done]. pose proof Hs as (_ & _ & Hlim). specialize (Hlim Es).
  assert (1 <= max <= get_max_stack_size_for_item c s) as Hmax.
  { split; [|done]. unfold max, get_max_stack_size_for_item, get_max_stack_size. destruct (c_kind c); lia. }
  pose proof (seq_below _ _ (le_n (length (items c)))) as Hall.
  pose proof (top_up_all_ok c s max _ Hc Hs (proj2 Hmax) Hall) as (acc & E1 & Ha).
  pose proof (fun acc Ha => fill_all_ok c s _ (fill_empty max) acc Hall Ha (fun pre slot acc' Hs Ha Hv =>
    fill_empty_ok c s max pre slot acc' Ha Hv (proj1 Hmax) eq_refl Hs)) as Hfill.
  pose proof (co_size _ Hc) as Hsize. unfold fill_slots. destruct (c_kind c) as [| |sel] eqn:Ek.
  - rewrite E1. destruct (Hfill acc Ha) as ([c' s'] & E & A & V). cbn [mbind option_bind]. rewrite E. by exists c', s'.
  - rewrite E1. destruct (Hfill acc Ha) as ([c' s'] & E & A & V). cbn [mbind option_bind]. rewrite E. by exists c', s'.
  - destruct Hsize as [Hsize Hsel]. unfold CONTAINER_SIZE in Hsize. clear acc E1 Ha.
    assert (Forall (fun slot => slot < length (items c))%nat (seq 0 INVENTORY_SIZE)) as Hmain
      by (apply seq_below; unfold INVENTORY_SIZE; lia).
    destruct (top_up_all_ok c s max (top_up_order sel) Hc Hs (proj2 Hmax)) as (acc & -> & Ha).
    { unfold top_up_order, SLOT_OFFHAND. apply Forall_app. split; [repeat (constructor; [lia|]); constructor|].
      apply Forall_forall. intros slot [_ Hin]%list_elem_of_filter. rewrite Forall_forall in Hmain. by apply Hmain. }
    destruct (fill_all_ok c s _ (fill_main max) acc Hmain Ha) as ([c' s'] & E & A & V).
    { intros pre slot acc' ? ? ?. by apply fill_main_ok. }
    cbn [mbind option_bind]. rewrite E. by exists c', s'.
Qed.

(** ** Clearing *)

Definition matching (predicate : ItemStack -> bool) s : Z :=
  if is_empty s || negb (predicate s) then 0 else stack_count s.

(** What a limit leaves of a number of matching items. *)
Definition limited (amount_to_remove : Z) (counting_only : bool) (n : Z) : Z :=
  if counting_only || (amount_to_remove <? 0) then n else Z.min amount_to_remove n.

Lemma sumZ_snoc l x : sumZ (l ++ [x]) = sumZ l + x.
Proof. induction l as [|y l IH]; simpl; [lia|]. unfold sumZ in *. simpl. lia. Qed.

Record clearing (predicate : ItemStack -> bool) (limit : Z) (counting_only : bool) (c0 : Container) (i : nat)
  (acc : Container * Z) : Prop := {
  cl_ok : container_ok acc.1;
  cl_kind : c_kind acc.1 = c_kind c0;
  cl_length : length (items acc.1) = length (items c0);
  cl_count : acc.2 = limited limit counting_only (sumZ (matching predicate <$> take i (items c0)));
  cl_total : sumZ (stack_count <$> items acc.1) = sumZ (stack_count <$> items c0) - (if counting_only then 0 else acc.2);
  cl_kept : forall slot s, items c0 !! slot = Some s -> matching predicate s = 0 \/ (i <= slot)%nat \/ counting_only = true ->
    items acc.1 !! slot = Some s;
}.

Lemma stack_count_nonneg s : 0 <= stack_count s.
Proof. unfold stack_count, is_empty. destruct (Z.eqb_spec (item s) AIR), (Z.leb_spec (count s) 0); simpl; lia. Qed.

Lemma matching_nonneg predicate s : 0 <= matching predicate s.
Proof. unfold matching. destruct (_ || _); [done|apply stack_count_nonneg]. Qed.

Lemma sumZ_nonneg {A} (f : A -> Z) l : (forall x, 0 <= f x) -> 0 <= sumZ (f <$> l).
Proof. intros Hf. induction l as [|x l IH]; [done|]. change (0 <= f x + sumZ (f <$> l)). specialize (Hf x). lia. Qed.

Lemma clear_slot_ok predicate limit counting_only c0 i acc s0 : clearing predicate limit counting_only c0 i acc ->
  items c0 !! i = Some s0 ->
  exists acc', clear_slot predicate limit counting_only i acc = Some acc' /\ clearing predicate limit counting_only c0 (S i) acc'.
Proof.
  destruct acc as [c n]. intros [H1 H2 H3 H4 H5 H6] Hi. cbn [fst snd] in *.
  pose proof (H6 i s0 Hi (or_intror (or_introl (le_n i)))) as Hc. pose proof (container_slot_ok c i s0 H1 Hc) as Hs.
  unfold clear_slot. rewrite (get_item_in c i s0) by done. cbn [mbind option_bind].
  set (removed := matching_item_count s0 predicate (limit - n) counting_only).
  assert (sumZ (matching predicate <$> take (S i) (items c0)) = sumZ (matching predicate <$> take i (items c0)) + matching predicate s0) as Esum
    by (rewrite (take_S_r _ _ s0) by done; rewrite fmap_app; apply sumZ_snoc).
  pose proof (matching_nonneg predicate s0) as Hm. pose proof (stack_count_nonneg s0) as Hcount.
  assert (n + removed = limited limit counting_only (sumZ (matching predicate <$> take (S i) (items c0))) /\
    0 <= removed <= stack_count s0 /\ (matching predicate s0 = 0 -> removed = 0)) as (En & Hr & Hr0).
  { pose proof (sumZ_nonneg (matching predicate) (take i (items c0)) (matching_nonneg predicate)) as Hpre.
    rewrite Esum. unfold removed, matching_item_count, limited, matching in *. rewrite H4.
    destruct (is_empty s0 || negb (predicate s0)); destruct counting_only; simpl in *; [lia|destruct (Z.ltb_spec limit 0); lia|lia|].
    destruct (Z.ltb_spec limit 0); [rewrite (proj2 (Z.ltb_lt _ _)) by lia; lia|].
    destruct (Z.ltb_spec (limit - Z.min limit (sumZ ((fun s => if is_empty s || negb (predicate s) then 0 else stack_count s) <$> take i (items c0)))) 0); lia. }
  destruct ((0 <? removed) && negb counting_only) eqn:Eb.
  - apply andb_true_iff in Eb as [Hpos%Z.ltb_lt ->%negb_true_iff].
    set (t := if removed =? stack_count s0 then ItemStack_empty else shrink s0 removed).
    assert (exists c', (if removed =? stack_count s0 then set_item c i ItemStack_empty else update_item c i (fun s => shrink s removed)) = Some c'
      /\ c' = put c i t) as (c' & -> & ->).
    { unfold t. destruct (removed =? stack_count s0); [rewrite (set_item_in c i s0) by done|rewrite (update_item_in c i s0) by done]; eauto. }
    assert (stack_ok t /\ stack_count t = stack_count s0 - removed) as [Ht Et].
    { unfold t. rewrite (stack_ok_count s0) in * by held. destruct (Z.eqb_spec removed (count s0)) as [E|E].
      - split; [apply empty_stack_ok|]. rewrite stack_ok_count by held. simpl. lia.
      - pose proof Hs as (_ & _ & Hlim). assert (stack_ok (shrink s0 removed)) as G by (apply (recount_ok s0); [held|done|lia|lia]).
        split; [done|]. by rewrite stack_ok_count by held. }
    eexists. split; [done|]. split; cbn [fst snd]; [apply put_ok; [done|done|]|done|simpl; by rewrite length_insert|done| |].
    + rewrite <- (stack_ok_count t) by held. pose proof (container_slot_limit c i s0 H1 Hc). rewrite <- (stack_ok_count s0) in * by held. lia.
    + simpl. rewrite (sumZ_insert stack_count _ _ s0) by done. simpl in H5. lia.
    + intros slot s Hslot Hcase. simpl. rewrite list_lookup_insert_ne.
      * apply H6; [done|]. destruct Hcase as [?|[?|?]]; [by left|right; left; lia|done].
      * intros <-. assert (s = s0) as -> by congruence. destruct Hcase as [E|[E|E]]; [specialize (Hr0 E); lia|lia|done].
  - eexists. split; [done|]. split; cbn [fst snd]; try done.
    + destruct counting_only; [done|]. rewrite andb_true_r in Eb. apply Z.ltb_ge in Eb. lia.
    + intros slot s Hslot Hcase. apply H6; [done|]. destruct Hcase as [?|[?|?]]; [by left|right; left; lia|right; by right].
Qed.

(** [/clear] removes exactly the limit of matching items, or all of them without a limit,
    tells how many, and leaves everything else where it was; counting removes nothing. *)
Theorem clear_exact c predicate limit counting_only : container_ok c ->
  exists c' n, clear_or_count_matching_items c predicate limit counting_only = Some (c', n) /\ container_ok c' /\
    n = limited limit counting_only (sumZ (matching predicate <$> items c)) /\
    sumZ (stack_count <$> items c') = sumZ (stack_count <$> items c) - (if counting_only then 0 else n) /\
    forall slot s, items c !! slot = Some s -> matching predicate s = 0 \/ counting_only = true -> items c' !! slot = Some s.
Proof.
  intros Hc. unfold clear_or_count_matching_items.
  destruct (for_each_ind (fun pre acc => clearing predicate limit counting_only c (length pre) acc) (seq 0 (length (items c)))
    (clear_slot predicate limit counting_only) (c, 0)) as ([c' n] & E & [H1 _ _ H4 H5 H6]).
  - split; simpl; try done.
    + unfold limited. destruct counting_only; simpl; [done|]. destruct (Z.ltb_spec limit 0); lia.
    + destruct counting_only; lia.
  - intros pre slot todo acc E Hacc. assert (slot = length pre) as ->.
    { assert (seq 0 (length (items c)) !! length pre = Some slot) as Hl by (rewrite E; by apply list_lookup_middle).
      apply lookup_seq in Hl as [-> _]. done. }
    assert (length pre < length (items c))%nat as Hlt.
    { rewrite <- (length_seq (length (items c)) 0), E, length_app. simpl. lia. }
    destruct (lookup_lt_is_Some_2 _ _ Hlt) as [s0 Hs0]. rewrite length_app, Nat.add_1_r. by apply (clear_slot_ok predicate limit counting_only c _ acc s0).
  - exists c', n. rewrite length_seq, firstn_all in H4. split_and!; [done..|]. intros slot s Hs [?|?]; apply H6; auto.
Qed.

(** Adding a stack puts all of it away unless every slot that it may fill is taken; what does
    not fit is left over, and the items of every kind are the same together. *)
Theorem container_add_exact c s : container_ok c -> held_ok s ->
  exists c' s', container_add c s = Some (c', s', is_empty s') /\ container_ok c' /\ same_kind s' s /\
    (forall r, container_total r c' + amount r s' = container_total r c + amount r s) /\
    (is_empty s' = false -> forall slot, slot ∈ fill_slots c -> exists t, items c' !! slot = Some t /\ is_empty t = false).
Proof.
  intros Hc Hs. destruct (container_add_ok c s Hc Hs) as (c' & s' & E & (H1 & _ & _ & _ & H5 & _ & H7) & Hv). by exists c', s'.
Qed.

End Containers.

(** ** An example *)

(** Every item stacks to 64, but item 2 to 16. *)
Definition example_items : ItemRegistry :=
  fun i => if i =? AIR then ∅ else {[ MAX_STACK_SIZE := IntData (if i =? 2 then 16 else 64) ]}.

Definition example_stack (i n : Z) : ItemStack := mkStack i n ∅.
Definition example_inventory : Container :=
  mkContainer (PlayerInventory 0) ([example_stack 1 60; example_stack 2 9; ItemStack_empty; example_stack 1 3] ++ repeat ItemStack_empty 39).

Lemma example_stack_ok i n : i <> AIR -> 0 <= n <= 16 \/ (0 <= n <= 64 /\ i <> 2) -> @stack_ok example_items (example_stack i n).
Proof.
  intros Hi Hn. assert (@max_stack_size example_items (example_stack i n) = if i =? 2 then 16 else 64) as E.
  { unfold max_stack_size, get_i32, get_effective_value_raw. simpl. rewrite lookup_empty. unfold item_components, example_items.
    destruct (Z.eqb_spec i AIR); [done|]. by rewrite lookup_singleton_eq. }
  split_and!; simpl; [lia|done|]. intros _. rewrite E. destruct (Z.eqb_spec i 2); lia.
Qed.

Lemma example_inventory_ok : @container_ok example_items example_inventory.
Proof.
  split; simpl; [|repeat (constructor; [vm_compute; discriminate|]); constructor|split; [done|lia]].
  repeat (constructor; [first [apply empty_stack_ok | apply example_stack_ok; [done|lia]]|]). constructor.
Qed.

Lemma clear_exact_witness : exists c' n,
  @clear_or_count_matching_items example_items example_inventory (fun s => item s =? 1) 62 false = Some (c', n) /\ n = 62.
Proof.
  destruct (@clear_exact example_items example_inventory (fun s => item s =? 1) 62 false example_inventory_ok) as (c' & n & E & _ & En & _).
  exists c', n. split; [exact E|]. rewrite En. vm_compute. reflexivity.
Defined.

Lemma container_add_exact_witness : exists c' s',
  @container_add example_items example_inventory (example_stack 1 64) = Some (c', s', is_empty s') /\ @container_ok example_items c'.
Proof.
  destruct (@container_add_exact example_items example_inventory (example_stack 1 64) example_inventory_ok) as (c' & s' & E & Hok & _).
  - apply stack_held, example_stack_ok; [done|lia].
  - exists c', s'. split; [exact E|exact Hok].
Defined.
