(* ===== verification/Menus.v ===== *)
(** * Menus

    Models the slots and clicks of [steel-core/src/inventory]: the parsing of click packets
    ([click.rs]), the operations of slots ([slots/slot.rs]), and the handlers of a menu
    ([menu/behavior.rs], [menu/mod.rs], [menu/layout.rs]).  Slots are views of positions in
    shared containers, and several slots may view the same position.  The model covers menus
    of stored slots with default hooks; what would be dropped into the world is collected. *)

From stdpp Require Import strings.
From S2P Require Import Prelude Float32 Items Containers.

(** ** Clicks *)

Inductive MouseButton := LeftButton | RightButton.
Inductive SwapTarget := Hotbar (index : Z) | Offhand.
Inductive DragKind := DragLeft | DragRight | DragClone.
Inductive FillDirection := Forward | Backward.
Inductive QuickCraft := QcStart (kind : DragKind) | QcAddSlot (slot : nat) | QcEnd.

Inductive Click :=
| Pickup (slot : nat) (button : MouseButton)
| DropCarried (button : MouseButton)
| QuickMove (slot : nat)
| Swap (slot : nat) (target : SwapTarget)
| CloneStack (slot : nat)
| Throw (slot : nat) (whole_stack : bool)
| PickupAll (slot : nat) (direction : FillDirection)
| Drag (action : QuickCraft).

(** The type of a click in the packet. *)
Inductive ClickType := TPickup | TQuickMove | TSwap | TClone | TThrow | TQuickCraft | TPickupAll.

Definition SLOT_CLICKED_OUTSIDE : Z := -999.

Definition inventory_slot (target : SwapTarget) : nat :=
  match target with Hotbar index => Z.to_nat index | Offhand => 40%nat end.

Definition slot_below (slot : nat) (slot_count : nat) : bool := bool_decide (slot < slot_count)%nat.

Definition is_valid_for (click : Click) (slot_count : nat) : bool :=
  match click with
  | Pickup slot _ | QuickMove slot | CloneStack slot | Throw slot _ | PickupAll slot _ | Drag (QcAddSlot slot) =>
      slot_below slot slot_count
  | Swap slot target =>
      slot_below slot slot_count && match target with Hotbar index => index <? 9 | Offhand => true end
  | DropCarried _ | Drag (QcStart _) | Drag QcEnd => true
  end.

(** [slot_num] is an [i16] and [button] an [i8]. *)
Definition Click_parse (slot_num button : Z) (click_type : ClickType) (slot_count : nat) : option Click :=
  if (0 <=? slot_num) && (Z.of_nat slot_count <=? slot_num) then None
  else
    let slot := if (0 <=? slot_num) && (slot_num <? Z.of_nat slot_count) then Some (Z.to_nat slot_num) else None in
    let mouse_button := if button =? 0 then Some LeftButton else if button =? 1 then Some RightButton else None in
    match click_type with
    | TPickup =>
        button ← mouse_button;
        if slot_num =? SLOT_CLICKED_OUTSIDE then Some (DropCarried button) else slot ← slot; Some (Pickup slot button)
    | TQuickMove => if (button =? 0) || (button =? 1) then slot ← slot; Some (QuickMove slot) else None
    | TSwap =>
        target ← (if (0 <=? button) && (button <=? 8) then Some (Hotbar button)
                  else if button =? 40 then Some Offhand else None);
        slot ← slot; Some (Swap slot target)
    | TClone => slot ← slot; Some (CloneStack slot)
    | TThrow =>
        slot ← slot;
        whole ← (if button =? 0 then Some false else if button =? 1 then Some true else None);
        Some (Throw slot whole)
    | TPickupAll =>
        slot ← slot;
        direction ← (if button =? 0 then Some Forward else if button =? 1 then Some Backward else None);
        Some (PickupAll slot direction)
    | TQuickCraft =>
        let phase := Z.land button 3 in
        if phase =? 0 then
          let bits := Z.land (Z.shiftr button 2) 3 in
          kind ← (if bits =? 0 then Some DragLeft else if bits =? 1 then Some DragRight
                  else if bits =? 2 then Some DragClone else None);
          Some (Drag (QcStart kind))
        else if phase =? 1 then slot ← slot; Some (Drag (QcAddSlot slot))
        else if phase =? 2 then Some (Drag QcEnd)
        else None
    end.

Section Menus.
Context `{ItemRegistry}.

Definition place_count (kind : DragKind) (slot_count : nat) (carried : ItemStack) : Z :=
  match kind with
  | DragLeft => f32_floor_i32 (f32_div (f32_of_Z (count carried)) (f32_of_Z (Z.of_nat slot_count)))
  | DragRight => 1
  | DragClone => max_stack_size carried
  end.

Definition can_item_quick_replace (slot_item carried : ItemStack) (ignore_size : bool) : bool :=
  if is_empty slot_item then true
  else if negb (is_same_item_same_components carried slot_item) then false
  else count slot_item + (if ignore_size then 0 else count carried) <=? max_stack_size carried.

(** ** Slots *)

Abbreviation containers := (gmap Z Container).

(** A view of position [sl_index] of a container; [sl_cap] is the limit of armor slots. *)
Record Slot := mkSlot {
  sl_container : Z;
  sl_index : nat;
  may_place : ItemStack -> bool;
  may_pickup : containers -> bool;
  sl_cap : option Z;
}.

Definition NormalSlot (container : Z) (index : nat) : Slot := mkSlot container index (fun _ => true) (fun _ => true) None.

Definition RestrictedSlot (container : Z) (index : nat) (place : nat -> ItemStack -> bool)
  (pickup : option (nat -> ItemStack -> containers -> bool)) : Slot :=
  mkSlot container index (place index)
    (fun g => match pickup with
              | None => true
              | Some it => match g !! container with
                           | Some c => match get_item c index with Some s => it index s g | None => true end
                           | None => true
                           end
              end) None.

(** [equippable] tells what the slot accepts, [bound] what cannot be taken off. *)
Definition ArmorSlot (container : Z) (index : nat) (equippable bound : ItemStack -> bool) (infinite : bool) : Slot :=
  mkSlot container index equippable
    (fun g => match g !! container with
              | Some c => match get_item c index with
                          | Some s => negb (negb (is_empty s) && negb infinite && bound s)
                          | None => true
                          end
              | None => true
              end) (Some 1).

Implicit Types g : containers.
Implicit Types sl : Slot.
Implicit Types s : ItemStack.

Definition physical_key sl : Z * nat := (sl_container sl, sl_index sl).

Definition slot_get g sl : option ItemStack := c ← g !! sl_container sl; get_item c (sl_index sl).

Definition slot_update g sl (f : ItemStack -> ItemStack) : option containers :=
  c ← g !! sl_container sl; c ← update_item c (sl_index sl) f; Some (<[sl_container sl := c]> g).

(** [set_item] and [set_by_player]. *)
Definition slot_set g sl s : option containers :=
  c ← g !! sl_container sl; c ← set_item c (sl_index sl) s; Some (<[sl_container sl := c]> g).

Definition slot_max g sl : option Z :=
  match sl_cap sl with Some cap => Some cap | None => c ← g !! sl_container sl; Some (get_max_stack_size c) end.

Definition slot_max_for_item g sl s : option Z := m ← slot_max g sl; Some (Z.min m (max_stack_size s)).

Definition allow_modification g sl : option bool := s ← slot_get g sl; Some (may_pickup sl g && may_place sl s).

Definition slot_remove g sl (n : Z) : option (containers * ItemStack) :=
  s ← slot_get g sl;
  if is_empty s || (n <=? 0) then Some (g, ItemStack_empty)
  else
    c ← g !! sl_container sl; '(c, removed) ← remove_item c (sl_index sl) n;
    Some (<[sl_container sl := c]> g, removed).

Definition try_remove g sl (n max_amount : Z) : option (containers * option ItemStack) :=
  if negb (may_pickup sl g) then Some (g, None)
  else
    s ← slot_get g sl; modifiable ← allow_modification g sl;
    if negb modifiable && (max_amount <? stack_count s) then Some (g, None)
    else
      '(g, result) ← slot_remove g sl (Z.min n max_amount);
      if is_empty result then Some (g, None)
      else
        left ← slot_get g sl;
        g ← (if is_empty left then slot_set g sl ItemStack_empty else Some g);
        Some (g, Some result).

(** [on_take] of a stored slot leaves no remainder. *)
Definition safe_take g sl (n max_amount : Z) : option (containers * ItemStack) :=
  '(g, taken) ← try_remove g sl n max_amount;
  Some (g, match taken with Some t => t | None => ItemStack_empty end).

Definition safe_insert g sl (input : ItemStack) (n : Z) : option (containers * ItemStack) :=
  if is_empty input || negb (may_place sl input) then Some (g, input)
  else
    slot_stack ← slot_get g sl; max ← slot_max_for_item g sl input;
    let transferable := Z.min (Z.min n (count input)) (max - count slot_stack) in
    if transferable <=? 0 then Some (g, input)
    else if is_empty slot_stack then
      let '(input, placed) := split input transferable in
      g ← slot_set g sl placed; Some (g, input)
    else if is_same_item_same_components slot_stack input then
      g ← slot_set g sl (grow slot_stack transferable); Some (g, shrink input transferable)
    else Some (g, input).

(** ** Menus *)

Record Route := mkRoute { r_from : nat * nat; r_targets : list (nat * nat); r_direction : FillDirection }.

(** What is fixed when a menu is built; [m_inventory] is the player's inventory. *)
Record Menu := mkMenu {
  m_slots : list Slot;
  m_routes : list Route;
  m_drain_sections : list (nat * nat);
  m_inventory : Z;
  can_drag_to : nat -> bool;
  can_take_item_for_pick_all : ItemStack -> nat -> bool;
}.

Record MenuState := mkMenuState {
  m_containers : containers;
  m_carried : ItemStack;
  m_quickcraft : option DragKind;
  m_quickcraft_slots : list nat;
  m_dropped : list ItemStack;
}.

Implicit Types m : Menu.
Implicit Types st : MenuState.

Definition set_containers st g : MenuState :=
  mkMenuState g (m_carried st) (m_quickcraft st) (m_quickcraft_slots st) (m_dropped st).
Definition set_carried st s : MenuState :=
  mkMenuState (m_containers st) s (m_quickcraft st) (m_quickcraft_slots st) (m_dropped st).
Definition set_drag st (kind : option DragKind) (slots : list nat) : MenuState :=
  mkMenuState (m_containers st) (m_carried st) kind slots (m_dropped st).

Definition reset_quick_craft st : MenuState := set_drag st None [].

Definition drop_item st s : MenuState :=
  if is_empty s then st
  else mkMenuState (m_containers st) (m_carried st) (m_quickcraft st) (m_quickcraft_slots st) (m_dropped st ++ [s]).

Definition add_item_or_drop m st s : option MenuState :=
  if is_empty s then Some st
  else
    c ← m_containers st !! m_inventory m; '(c, s, added) ← container_add c s;
    let st := set_containers st (<[m_inventory m := c]> (m_containers st)) in
    Some (if negb added || negb (is_empty s) then drop_item st s else st).

(** *** Dragging *)

Definition is_clone (kind : option DragKind) : bool := match kind with Some DragClone => true | _ => false end.

Definition drag_add_slot m st (slot : nat) : option MenuState :=
  sl ← m_slots m !! slot; slot_item ← slot_get (m_containers st) sl;
  let carried := m_carried st in
  Some (if can_item_quick_replace slot_item carried true && may_place sl carried &&
           (is_clone (m_quickcraft st) || (Z.of_nat (length (m_quickcraft_slots st)) <? count carried)) &&
           can_drag_to m slot && negb (bool_decide (slot ∈ m_quickcraft_slots st))
        then set_drag st (m_quickcraft st) (m_quickcraft_slots st ++ [slot]) else st).

(** One slot of the distribution: the containers and what remains of the carried count. *)
Definition drag_place m (kind : DragKind) (slot_count : nat) (source : ItemStack) (slot : nat) (acc : containers * Z)
  : option (containers * Z) :=
  let '(g, remaining) := acc in
  sl ← m_slots m !! slot; slot_item ← slot_get g sl;
  if can_item_quick_replace slot_item source true && may_place sl source &&
     (is_clone (Some kind) || (Z.of_nat slot_count <=? count source)) && can_drag_to m slot
  then
    let current_count := if is_empty slot_item then 0 else count slot_item in
    slot_max ← slot_max_for_item g sl source;
    let max_size := Z.min (max_stack_size source) slot_max in
    let new_count := Z.min (place_count kind slot_count source + current_count) max_size in
    g ← slot_set g sl (set_count source new_count);
    Some (g, remaining - (new_count - current_count))
  else Some (g, remaining).

(** *** Single clicks *)

Definition drop_carried st (button : MouseButton) : MenuState :=
  if is_empty (m_carried st) then st
  else match button with
       | LeftButton => drop_item (set_carried st ItemStack_empty) (m_carried st)
       | RightButton => let '(carried, one) := split (m_carried st) 1 in drop_item (set_carried st carried) one
       end.

Definition do_pickup m st (slot : nat) (button : MouseButton) : option MenuState :=
  sl ← m_slots m !! slot;
  let g := m_containers st in
  slot_item ← slot_get g sl;
  let carried := m_carried st in
  let requested := match button with LeftButton => count carried | RightButton => 1 end in
  if is_empty slot_item then
    if negb (is_empty carried) && may_place sl carried then
      '(g, carried) ← safe_insert g sl carried requested; Some (set_carried (set_containers st g) carried)
    else Some st
  else if is_empty carried then
    let n := match button with LeftButton => count slot_item | RightButton => Z.quot (count slot_item + 1) 2 end in
    '(g, taken) ← try_remove g sl n (2 ^ 31 - 1);
    let st := set_carried (set_containers st g) ItemStack_empty in
    Some (match taken with Some t => set_carried st t | None => st end)
  else if is_same_item_same_components slot_item carried then
    if may_pickup sl g && may_place sl carried then
      '(g, carried) ← safe_insert g sl carried requested; Some (set_carried (set_containers st g) carried)
    else if may_pickup sl g then
      let space := max_stack_size carried - count carried in
      if 0 <? space then
        '(g, taken) ← try_remove g sl (count slot_item) space;
        Some (match taken with
              | Some t => set_carried (set_containers st g) (grow carried (count t))
              | None => set_containers st g
              end)
      else Some st
    else Some st
  else if may_pickup sl g && may_place sl carried then
    max ← slot_max_for_item g sl carried;
    if count carried <=? max then
      g ← slot_set g sl carried; Some (set_carried (set_containers st g) slot_item)
    else Some st
  else Some st.

Definition finish_quick_craft m st : option MenuState :=
  match m_quickcraft st with
  | None => Some (reset_quick_craft st)
  | Some kind =>
      match m_quickcraft_slots st with
      | [] => Some (reset_quick_craft st)
      | [slot] =>
          let st := reset_quick_craft st in
          match kind with
          | DragLeft => do_pickup m st slot LeftButton
          | DragRight => do_pickup m st slot RightButton
          | DragClone => Some st
          end
      | slots =>
          let source := m_carried st in
          if is_empty source then Some (reset_quick_craft st)
          else
            '(g, remaining) ← for_each slots (drag_place m kind (length slots) source) (m_containers st, count source);
            Some (reset_quick_craft (set_carried (set_containers st g) (set_count source remaining)))
      end
  end.

Definition do_quick_craft m (infinite : bool) st (action : QuickCraft) : option MenuState :=
  let valid := match action with
               | QcStart _ => bool_decide (m_quickcraft st = None)
               | QcAddSlot _ | QcEnd => negb (bool_decide (m_quickcraft st = None))
               end in
  if negb valid || is_empty (m_carried st) then Some (reset_quick_craft st)
  else match action with
       | QcStart kind =>
           if is_clone (Some kind) && negb infinite then Some (reset_quick_craft st) else Some (set_drag st (Some kind) [])
       | QcAddSlot slot => drag_add_slot m st slot
       | QcEnd => finish_quick_craft m st
       end.

Definition do_clone m (infinite : bool) st (slot : nat) : option MenuState :=
  if negb infinite || negb (is_empty (m_carried st)) then Some st
  else
    sl ← m_slots m !! slot; slot_item ← slot_get (m_containers st) sl;
    Some (if is_empty slot_item then st else set_carried st (copy_with_count slot_item (max_stack_size slot_item))).

(** The loop of a whole-stack throw, which goes on while the slot refills. *)
Fixpoint throw_more (fuel : nat) (can_drop : bool) sl (dropped : ItemStack) st : option MenuState :=
  match fuel with
  | O => None
  | S fuel =>
      let g := m_containers st in
      if negb (may_pickup sl g) || negb can_drop then Some st
      else
        current ← slot_get g sl;
        if is_empty current || negb (is_same_item current dropped) then Some st
        else
          '(g, more) ← safe_take g sl (count current) (2 ^ 31 - 1);
          let st := set_containers st g in
          if is_empty more then Some st else throw_more fuel can_drop sl dropped (drop_item st more)
  end.

Definition do_throw (fuel : nat) m (can_drop : bool) st (slot : nat) (whole_stack : bool) : option MenuState :=
  if negb (is_empty (m_carried st)) then Some st
  else
    sl ← m_slots m !! slot;
    let g := m_containers st in
    if negb (may_pickup sl g) || negb can_drop then Some st
    else
      slot_item ← slot_get g sl;
      '(g, dropped) ← safe_take g sl (if whole_stack : bool then count slot_item else 1) (2 ^ 31 - 1);
      let st := drop_item (set_containers st g) dropped in
      if whole_stack then throw_more fuel can_drop sl dropped st else Some st.

(** *** Quick moves *)

(** The slots of a range in the order they are walked. *)
Definition walk (direction : FillDirection) (start stop : nat) : list nat :=
  match direction with
  | Forward => seq start (stop - start)
  | Backward => reverse (seq start (stop - start))
  end.

(** Whether a destination is the source or another view of its position. *)
Definition is_source m (source : nat) (dest : nat) : option bool :=
  src ← m_slots m !! source; sl ← m_slots m !! dest;
  Some (bool_decide (dest = source) || bool_decide (physical_key sl = physical_key src)).

(** One destination of the first pass: stack onto items of the same kind. *)
Definition stack_onto m (source : nat) (dest : nat) (acc : containers * ItemStack * bool)
  : option (containers * ItemStack * bool) :=
  let '(g, stack, changed) := acc in
  if is_empty stack then Some acc
  else
    skip ← is_source m source dest;
    if skip : bool then Some acc
    else
      sl ← m_slots m !! dest; target ← slot_get g sl;
      if negb (is_empty target) && is_same_item_same_components stack target then
        let total := count target + count stack in
        max ← slot_max_for_item g sl target;
        if total <=? max then
          g ← slot_update g sl (fun s => set_count s total); Some (g, set_count stack 0, true)
        else if count target <? max then
          g ← slot_update g sl (fun s => set_count s max); Some (g, shrink stack (max - count target), true)
        else Some acc
      else Some acc.

(** The second pass: place into the first empty slot. *)
Fixpoint place_empty m (source : nat) (dests : list nat) g stack : option (containers * ItemStack * bool) :=
  match dests with
  | [] => Some (g, stack, false)
  | dest :: dests =>
      skip ← is_source m source dest;
      if skip : bool then place_empty m source dests g stack
      else
        sl ← m_slots m !! dest; target ← slot_get g sl;
        if is_empty target && may_place sl stack then
          max ← slot_max_for_item g sl stack;
          let '(stack, placed) := split stack (Z.min (count stack) max) in
          g ← slot_set g sl placed; Some (g, stack, true)
        else place_empty m source dests g stack
  end.

Definition move_item_stack_to m g (source : nat) stack (start stop : nat) (direction : FillDirection)
  : option (containers * ItemStack * bool) :=
  if decide (stop <= start)%nat then Some (g, stack, false)
  else
    '(g, stack, changed) ← (if is_stackable stack then for_each (walk direction start stop) (stack_onto m source) (g, stack, false)
                            else Some (g, stack, false));
    if is_empty stack then Some (g, stack, changed)
    else
      '(g, stack, placed) ← place_empty m source (walk direction start stop) g stack;
      Some (g, stack, changed || placed).

Definition update_quick_move_source g sl (remaining : ItemStack) : option containers :=
  if is_empty remaining then slot_set g sl ItemStack_empty else slot_update g sl (fun _ => remaining).

(** The first target range that takes something. *)
Fixpoint move_to_targets m g (source : nat) stack (direction : FillDirection) (targets : list (nat * nat))
  : option (containers * ItemStack * bool) :=
  match targets with
  | [] => Some (g, stack, false)
  | (start, stop) :: targets =>
      '(g, stack, moved) ← move_item_stack_to m g source stack start stop direction;
      if moved : bool then Some (g, stack, true) else move_to_targets m g source stack direction targets
  end.

Definition in_range (range : nat * nat) (slot : nat) : bool := bool_decide (range.1 <= slot < range.2)%nat.

(** The item that was in the slot, or empty when nothing moved. *)
Definition quick_move m g (slot : nat) : option (containers * ItemStack) :=
  match list_find (fun r => in_range (r_from r) slot = true) (m_routes m) with
  | None => Some (g, ItemStack_empty)
  | Some (_, route) =>
      sl ← m_slots m !! slot; clicked ← slot_get g sl;
      if is_empty clicked || negb (may_pickup sl g) then Some (g, ItemStack_empty)
      else
        '(g, remaining, moved) ← move_to_targets m g slot clicked (r_direction route) (r_targets route);
        if negb moved then Some (g, ItemStack_empty)
        else
          g ← update_quick_move_source g sl remaining;
          Some (g, if count remaining =? count clicked then ItemStack_empty else clicked)
  end.

Fixpoint quick_move_loop (fuel : nat) m (slot : nat) g (result : ItemStack) : option containers :=
  if is_empty result then Some g
  else match fuel with
       | O => None
       | S fuel =>
           sl ← m_slots m !! slot; current ← slot_get g sl;
           if negb (is_same_item current result) then Some g
           else '(g, result) ← quick_move m g slot; quick_move_loop fuel m slot g result
       end.

Definition do_quick_move (fuel : nat) m st (slot : nat) : option MenuState :=
  sl ← m_slots m !! slot;
  let g := m_containers st in
  if negb (may_pickup sl g) then Some st
  else
    initial ← slot_get g sl;
    if is_empty initial then Some st
    else
      '(g, result) ← quick_move m g slot; g ← quick_move_loop fuel m slot g result;
      Some (set_containers st g).

(** *** Swapping with the inventory *)

Definition inventory_set m g (slot : nat) s : option containers :=
  c ← g !! m_inventory m; c ← set_item c slot s; Some (<[m_inventory m := c]> g).

(** [inv.get_item_mut(slot).split(n)]. *)
Definition inventory_split m g (slot : nat) (n : Z) : option (containers * ItemStack) :=
  c ← g !! m_inventory m; s ← items c !! slot; c ← update_item c slot (fun s => (split s n).1);
  Some (<[m_inventory m := c]> g, (split s n).2).

Definition do_swap m (infinite : bool) st (slot : nat) (target : SwapTarget) : option MenuState :=
  sl ← m_slots m !! slot;
  let g := m_containers st in
  let inv_slot := inventory_slot target in
  target_item ← slot_get g sl; c ← g !! m_inventory m; source_item ← get_item c inv_slot;
  if is_empty source_item && is_empty target_item then Some st
  else if is_empty source_item then
    if may_pickup sl g then
      g ← inventory_set m g inv_slot target_item; g ← slot_set g sl ItemStack_empty; Some (set_containers st g)
    else Some st
  else if is_empty target_item then
    if may_place sl source_item then
      max ← slot_max_for_item g sl source_item;
      if max <? count source_item then
        '(g, placed) ← inventory_split m g inv_slot max; g ← slot_set g sl placed; Some (set_containers st g)
      else g ← inventory_set m g inv_slot ItemStack_empty; g ← slot_set g sl source_item; Some (set_containers st g)
    else Some st
  else if may_pickup sl g && may_place sl source_item then
    max ← slot_max_for_item g sl source_item;
    if max <? count source_item then
      '(g, placed) ← inventory_split m g inv_slot max; g ← slot_set g sl placed;
      c ← g !! m_inventory m; '(c, displaced, added) ← container_add c target_item;
      let st := set_containers st (<[m_inventory m := c]> g) in
      Some (if negb added && negb infinite then drop_item st displaced else st)
    else g ← inventory_set m g inv_slot target_item; g ← slot_set g sl source_item; Some (set_containers st g)
  else Some st.

(** *** Collecting *)

(** One slot of a pass: the containers and the carried stack. *)
Definition collect_from m (max_stack : Z) (carried_item : ItemStack) (second_pass : bool) (slot : nat)
  (acc : containers * ItemStack) : option (containers * ItemStack) :=
  let '(g, carried) := acc in
  if max_stack <=? count carried then Some acc
  else
    sl ← m_slots m !! slot; target ← slot_get g sl;
    if negb (is_empty target) && can_item_quick_replace target carried_item true && may_pickup sl g &&
       can_take_item_for_pick_all m carried_item slot && (second_pass || negb (count target =? max_stack_size target))
    then
      let can_take := max_stack - count carried in
      '(g, removed) ← safe_take g sl (Z.min (count target) can_take) can_take;
      Some (g, grow carried (Z.min (count removed) can_take))
    else Some acc.

Definition do_pickup_all m st (slot : nat) (direction : FillDirection) : option MenuState :=
  sl ← m_slots m !! slot;
  let g := m_containers st in
  let carried := m_carried st in
  slot_item ← slot_get g sl;
  if is_empty carried || (negb (is_empty slot_item) && may_pickup sl g) then Some st
  else
    let order := walk direction 0 (length (m_slots m)) in
    acc ← for_each order (collect_from m (max_stack_size carried) carried false) (g, carried);
    '(g, carried) ← for_each order (collect_from m (max_stack_size carried) carried true) acc;
    Some (set_carried (set_containers st g) carried).

(** ** The menu *)

(** A click that was parsed; [fuel] bounds the loops of quick moves and throws. *)
Definition clicked (fuel : nat) m (infinite can_drop : bool) st (click : Click) : option MenuState :=
  if negb (is_valid_for click (length (m_slots m))) then Some st
  else
    let idle := if decide (m_quickcraft st = None) then st else reset_quick_craft st in
    match click with
    | Drag action => do_quick_craft m infinite st action
    | Pickup slot button => do_pickup m idle slot button
    | DropCarried button => Some (drop_carried idle button)
    | QuickMove slot => do_quick_move fuel m idle slot
    | Swap slot target => do_swap m infinite idle slot target
    | CloneStack slot => do_clone m infinite idle slot
    | Throw slot whole_stack => do_throw fuel m can_drop idle slot whole_stack
    | PickupAll slot direction => do_pickup_all m idle slot direction
    end.

(** The items of a section return to the player, or are dropped. *)
Definition drain_slot m (return_to_inventory : bool) (slot : nat) st : option MenuState :=
  sl ← m_slots m !! slot; s ← slot_get (m_containers st) sl;
  g ← slot_update (m_containers st) sl (fun _ => ItemStack_empty);
  let st := set_containers st g in
  if is_empty s then Some st
  else if return_to_inventory then add_item_or_drop m st s else Some (drop_item st s).

Definition menu_removed m (return_to_inventory : bool) st : option MenuState :=
  let carried := m_carried st in
  let st := set_carried st ItemStack_empty in
  st ← (if is_empty carried then Some st
        else if return_to_inventory then add_item_or_drop m st carried else Some (drop_item st carried));
  for_each (m_drain_sections m) (fun range => for_each (seq range.1 (range.2 - range.1)) (drain_slot m return_to_inventory)) st.

End Menus.
