(* ===== verification/MenuItems.v ===== *)
(** * Menus conserve items

    Every click moves items between the containers of a menu, the cursor and the world and
    neither loses nor makes any, also when several slots view the same position; no click
    that was parsed panics, and the loops of clicks end. *)

From S2P Require Import Prelude Float32 Items Containers Menus.

Section MenuItems.
Context `{ItemRegistry}.

Abbreviation containers := (gmap Z Container).
Implicit Types g : containers.
Implicit Types sl : Slot.
Implicit Types s t : ItemStack.
Implicit Types m : Menu.
Implicit Types st : MenuState.

(** ** Containers together *)

Definition g_total (r : ItemStack) g : Z := sumZ (container_total r <$> (map_to_list g).*2).
Definition g_ok g : Prop := map_Forall (fun _ c => container_ok c) g.

Lemma sumZ_perm l l' : l ≡ₚ l' -> sumZ l = sumZ l'.
Proof. unfold sumZ. induction 1; simpl; lia. Qed.

Lemma g_total_insert r g id c c' : g !! id = Some c ->
  g_total r (<[id := c']> g) = g_total r g - container_total r c + container_total r c'.
Proof.
  intros Hc. assert (forall x, g_total r (<[id := x]> g) = container_total r x + g_total r (delete id g)) as E.
  { intros x. unfold g_total. rewrite <- insert_delete_eq.
    rewrite (sumZ_perm _ (container_total r <$> ((id, x) :: map_to_list (delete id g)).*2)); [done|].
    by rewrite map_to_list_insert by apply lookup_delete_eq. }
  rewrite E. specialize (E c). rewrite insert_id in E by done. lia.
Qed.

(** Containers keep their kinds and sizes. *)
Definition same_shape g g' : Prop :=
  forall id c, g !! id = Some c -> exists c', g' !! id = Some c' /\ c_kind c' = c_kind c /\ length (items c') = length (items c).

Lemma same_shape_refl g : same_shape g g.
Proof. intros id c Hc. by exists c. Qed.

Lemma same_shape_trans g1 g2 g3 : same_shape g1 g2 -> same_shape g2 g3 -> same_shape g1 g3.
Proof.
  intros H1 H2 id c Hc. destruct (H1 id c Hc) as (c1 & E1 & K1 & L1). destruct (H2 id c1 E1) as (c2 & E2 & K2 & L2).
  exists c2. split_and!; [done|congruence|congruence].
Qed.

Lemma same_shape_insert g id c c' : g !! id = Some c -> c_kind c' = c_kind c -> length (items c') = length (items c) ->
  same_shape g (<[id := c']> g).
Proof.
  intros Hc Hk Hl x y Hx. destruct (decide (x = id)) as [->|Hne].
  - exists c'. rewrite lookup_insert_eq. assert (y = c) as -> by congruence. done.
  - exists y. by rewrite lookup_insert_ne.
Qed.

(** Items move between the containers and a stack outside of them. *)
Record exchanges g s g' s' : Prop := {
  ex_ok : g_ok g';
  ex_shape : same_shape g g';
  ex_stack : stack_ok s';
  ex_total : forall r, g_total r g' + amount r s' = g_total r g + amount r s;
}.

Lemma exchanges_refl g s : g_ok g -> stack_ok s -> exchanges g s g s.
Proof. intros Hg Hs. split; [done|apply same_shape_refl|done|done]. Qed.

Lemma exchanges_trans g1 s1 g2 s2 g3 s3 : exchanges g1 s1 g2 s2 -> exchanges g2 s2 g3 s3 -> exchanges g1 s1 g3 s3.
Proof.
  intros [A1 A2 A3 A4] [B1 B2 B3 B4]. split; [done|by eapply same_shape_trans|done|]. intros r. specialize (A4 r). specialize (B4 r). lia.
Qed.

(** ** Slots *)

Definition slot_at g sl s : Prop := exists c, g !! sl_container sl = Some c /\ items c !! sl_index sl = Some s.

(** The slots of a menu view positions of its containers and have no limit of their own. *)
Definition slot_wf g sl : Prop :=
  (exists c, g !! sl_container sl = Some c /\ (sl_index sl < length (items c))%nat) /\ sl_cap sl = None.

(** What the container of a slot has room for. *)
Definition fits g sl s : Prop := forall c, g !! sl_container sl = Some c -> count s <= get_max_stack_size c.

Record menu_wf m g : Prop := {
  mw_slots : Forall (slot_wf g) (m_slots m);
  mw_inventory : exists c selected, g !! m_inventory m = Some c /\ c_kind c = PlayerInventory selected;
  mw_routes : Forall (fun r => Forall (fun range => range.2 <= length (m_slots m))%nat (r_targets r)) (m_routes m);
  mw_drains : Forall (fun range => range.2 <= length (m_slots m))%nat (m_drain_sections m);
}.

Lemma menu_wf_shape m g g' : same_shape g g' -> menu_wf m g -> menu_wf m g'.
Proof.
  intros Hs [H1 H2 H3 H4]. split; [|..]; try done.
  - eapply Forall_impl; [exact H1|]. intros sl [(c & Hc & Hi) Hcap]. split; [|done].
    destruct (Hs _ _ Hc) as (c' & Hc' & _ & E). exists c'. rewrite E. done.
  - destruct H2 as (c & sel & Hc & Hk). destruct (Hs _ _ Hc) as (c' & Hc' & E & _). exists c', sel. split; [done|congruence].
Qed.

Lemma slot_lookup m g slot : menu_wf m g -> (slot < length (m_slots m))%nat ->
  exists sl s, m_slots m !! slot = Some sl /\ slot_wf g sl /\ slot_at g sl s.
Proof.
  intros Hm Hlt. destruct (lookup_lt_is_Some_2 _ _ Hlt) as [sl Hsl]. pose proof (Forall_lookup_1 _ _ _ _ (mw_slots _ _ Hm) Hsl) as Hwf.
  destruct Hwf as [(c & Hc & Hi) Hcap] eqn:E. destruct (lookup_lt_is_Some_2 _ _ Hi) as [s Hs]. exists sl, s. split_and!; [done|done|by exists c].
Qed.

Lemma slot_at_wf g sl : slot_wf g sl -> exists s, slot_at g sl s.
Proof. intros [(c & Hc & Hi) _]. destruct (lookup_lt_is_Some_2 _ _ Hi) as [s Hs]. exists s, c. done. Qed.

Lemma slot_at_ok g sl s : g_ok g -> slot_at g sl s -> stack_ok s.
Proof. intros Hg (c & Hc & Hs). exact (container_slot_ok c _ s (Hg _ _ Hc) Hs). Qed.

Lemma fits_empty g sl : fits g sl ItemStack_empty.
Proof. intros c _. unfold get_max_stack_size. destruct (c_kind c); simpl; lia. Qed.

Lemma slot_at_fits g sl s t : g_ok g -> slot_at g sl s -> count t <= count s -> fits g sl t.
Proof.
  intros Hg (c & Hc & Hs) Hle c' Hc'. assert (c' = c) as -> by congruence. pose proof (container_slot_limit c _ s (Hg _ _ Hc) Hs). lia.
Qed.

Lemma slot_get_at g sl s : g_ok g -> slot_at g sl s -> slot_get g sl = Some s.
Proof. intros Hg (c & Hc & Hs). unfold slot_get. rewrite Hc. simpl. apply get_item_in; [exact (Hg _ _ Hc)|done]. Qed.

Definition slot_put g sl s : containers :=
  match g !! sl_container sl with Some c => <[sl_container sl := put c (sl_index sl) s]> g | None => g end.

Lemma slot_put_at g sl s t : slot_at g sl s -> slot_at (slot_put g sl t) sl t.
Proof.
  intros (c & Hc & Hs). unfold slot_put. rewrite Hc. exists (put c (sl_index sl) t). rewrite lookup_insert_eq. split; [done|].
  apply list_lookup_insert_eq. by eapply lookup_lt_Some.
Qed.


Lemma slot_put_other g sl sl' s t u : slot_at g sl s -> physical_key sl' <> physical_key sl -> slot_at g sl' u ->
  slot_at (slot_put g sl t) sl' u.
Proof.
  intros (c & Hc & Hs) Hne (c' & Hc' & Hu). unfold slot_put. rewrite Hc. unfold physical_key in Hne.
  destruct (decide (sl_container sl' = sl_container sl)) as [E|E].
  - rewrite E in Hc'. assert (c' = c) as -> by congruence. exists (put c (sl_index sl) t). rewrite E, lookup_insert_eq. split; [done|].
    simpl. rewrite list_lookup_insert_ne; [done|]. congruence.
  - exists c'. rewrite lookup_insert_ne by done. done.
Qed.

Lemma slot_put_ok g sl old new : g_ok g -> slot_at g sl old -> stack_ok new -> fits g sl new ->
  g_ok (slot_put g sl new) /\ same_shape g (slot_put g sl new) /\
  forall r, g_total r (slot_put g sl new) = g_total r g - amount r old + amount r new.
Proof.
  intros Hg (c & Hc & Hold) Hnew Hfit. unfold slot_put. rewrite Hc. split_and!.
  - intros x y. intros [[<- <-]|[_ Hy]]%lookup_insert_Some; [|exact (Hg _ _ Hy)]. apply put_ok; [exact (Hg _ _ Hc)|done|by apply Hfit].
  - apply (same_shape_insert g _ c); [done|done|]. simpl. by rewrite length_insert.
  - intros r. rewrite (g_total_insert r g _ c) by done. rewrite (put_total r c _ old) by done. lia.
Qed.

Lemma slot_put_exchanges g sl old new s s' : g_ok g -> slot_at g sl old -> stack_ok new -> fits g sl new -> stack_ok s' ->
  (forall r, amount r new + amount r s' = amount r old + amount r s) -> exchanges g s (slot_put g sl new) s'.
Proof.
  intros Hg Hold Hnew Hfit Hs Hsum. destruct (slot_put_ok g sl old new) as (H1 & H2 & H3); try done. split; try done.
  intros r. rewrite H3. specialize (Hsum r). lia.
Qed.

Lemma slot_update_at g sl s f : slot_at g sl s -> slot_update g sl f = Some (slot_put g sl (f s)).
Proof. intros (c & Hc & Hs). unfold slot_update, slot_put. rewrite Hc. simpl. by rewrite (update_item_in c _ s). Qed.

(** The limit of a slot for a stack. *)
Lemma slot_max_ok g sl s : slot_wf g sl -> 1 <= max_stack_size s ->
  exists max, slot_max_for_item g sl s = Some max /\ 1 <= max <= max_stack_size s /\
    (forall t, count t <= max -> fits g sl t) /\
    (forall t, same_kind t s -> stack_count t <= max -> forall old, slot_at g sl old -> g_ok g ->
       slot_set g sl t = Some (slot_put g sl t)).
Proof.
  intros [(c & Hc & Hi) Hcap] Hs. unfold slot_max_for_item, slot_max. rewrite Hcap, Hc. cbn [mbind option_bind].
  eexists. split; [done|]. assert (64 <= get_max_stack_size c) as H64 by (unfold get_max_stack_size; destruct (c_kind c); lia).
  split; [lia|]. split.
  - intros t Ht c' Hc'. assert (c' = c) as -> by congruence. lia.
  - intros t Ht Hcount old (c' & Hc' & Hold) Hg. assert (c' = c) as -> by congruence. unfold slot_set, slot_put. rewrite Hc. simpl.
    rewrite (set_item_in c _ old); [done|exact (Hg _ _ Hc)|done|]. intros _. unfold get_max_stack_size_for_item.
    by rewrite (max_stack_size_kind t s).
Qed.

(** What is in a slot is within its limit. *)
Lemma slot_max_held g sl old : slot_wf g sl -> g_ok g -> slot_at g sl old -> 0 < count old ->
  forall s max, same_kind s old -> slot_max_for_item g sl s = Some max -> count old <= max.
Proof.
  intros [_ Hcap] Hg (c & Hc & Hold) Hpos s max Hk. unfold slot_max_for_item, slot_max. rewrite Hcap, Hc. intros [= <-].
  pose proof (container_slot_limit c _ old (Hg _ _ Hc) Hold). destruct (container_slot_ok c _ old (Hg _ _ Hc) Hold) as (_ & _ & Hlim).
  rewrite (max_stack_size_kind s old) by done. lia.
Qed.

Lemma slot_set_empty g sl s : slot_wf g sl -> g_ok g -> slot_at g sl s -> slot_set g sl ItemStack_empty = Some (slot_put g sl ItemStack_empty).
Proof.
  intros _ Hg (c & Hc & Hs). unfold slot_set, slot_put. rewrite Hc. simpl.
  rewrite (set_item_in c _ s); [done|exact (Hg _ _ Hc)|done|]. done.
Qed.

Lemma nonempty_max s : stack_ok s -> is_empty s = false -> 0 < count s <= max_stack_size s.
Proof. intros Hs He. apply stack_nonempty in He; [|held]. destruct Hs as (_ & _ & Hs). specialize (Hs He). lia. Qed.

Lemma empty_count s : held_ok s -> is_empty s = true -> count s = 0.
Proof. intros Hs He. rewrite stack_ok_empty in He by done. apply Z.leb_le in He. destruct Hs. lia. Qed.

(** Two stacks of one kind with new counts that add up. *)
Lemma recount_amounts r s t n k : held_ok s -> held_ok t -> same_kind s t -> held_ok (set_count s n) -> held_ok (set_count t k) ->
  n + k = count s + count t -> amount r (set_count s n) + amount r (set_count t k) = amount r s + amount r t.
Proof.
  intros Hs Ht Hk Hn Hk' E. rewrite (amount_recount r s s), (amount_recount r s t) by done. rewrite !amount_ok by done.
  rewrite (of_kind_same r s t) by done. destruct (of_kind r t); lia.
Qed.

Lemma safe_insert_ok g sl input n : slot_wf g sl -> g_ok g -> stack_ok input ->
  exists g' input', safe_insert g sl input n = Some (g', input') /\ exchanges g input g' input'.
Proof.
  intros Hwf Hg Hin. unfold safe_insert. destruct (is_empty input) eqn:Ei; cbn [orb]; [exists g, input; by split; [|apply exchanges_refl]|].
  destruct (may_place sl input); cbn [negb]; [|exists g, input; by split; [|apply exchanges_refl]].
  destruct (slot_at_wf g sl Hwf) as [old Hold]. pose proof (slot_at_ok g sl old Hg Hold) as Ho.
  rewrite (slot_get_at g sl old) by done. cbn [mbind option_bind]. destruct (nonempty_max input Hin Ei) as [Hi Hlim].
  destruct (slot_max_ok g sl input Hwf ltac:(lia)) as (max & -> & Hmax & Hfit & Hset). cbn [mbind option_bind]. set (n' := Z.min _ _).
  destruct (Z.leb_spec n' 0); [exists g, input; by split; [|apply exchanges_refl]|].
  destruct (is_empty old) eqn:Eo.
  - pose proof (empty_count old ltac:(held) Eo) as E0. destruct (split_ok input n' Hin ltac:(lia)) as [S1 S2].
    rewrite (surjective_pairing (split input n')). cbv beta iota. rewrite (Hset (split input n').2) with (old := old); try done.
    + eexists _, _. split; [done|]. apply (slot_put_exchanges g sl old); try done; [apply Hfit; simpl; lia|].
      intros r. rewrite (amount_empty r old) by done. pose proof (split_amount r input n' (stack_held _ Hin) ltac:(lia)). lia.
    + rewrite stack_ok_count by held. simpl. lia.
  - destruct (is_same_item_same_components old input) eqn:Ek; [|exists g, input; by split; [|apply exchanges_refl]].
    apply same_item_same_components_spec in Ek; [|done|done]. destruct (nonempty_max old Ho Eo) as [Hp _].
    rewrite (max_stack_size_kind input old) in Hlim, Hmax by done.
    assert (stack_ok (grow old n')) as G1 by (apply (recount_ok old); [held|done|lia|lia]).
    assert (stack_ok (shrink input n')) as G2 by (apply (recount_ok old); [held|done|lia|lia]).
    rewrite (Hset (grow old n')) with (old := old); [|by rewrite <- Ek| |done|done].
    + simpl. eexists _, _. split; [done|]. apply (slot_put_exchanges g sl old); try done; [apply Hfit; simpl; lia|]. intros r.
      apply recount_amounts; try held. lia.
    + rewrite stack_ok_count by held. simpl. lia.
Qed.

Lemma slot_remove_at g sl old n : g_ok g -> slot_at g sl old ->
  slot_remove g sl n = Some (if is_empty old || (n <=? 0) then (g, ItemStack_empty)
                             else (slot_put g sl (split old n).1, (split old n).2)).
Proof.
  intros Hg Hold. pose proof Hold as (c & Hc & Hi). unfold slot_remove. rewrite (slot_get_at g sl old) by done. simpl.
  destruct (is_empty old || (n <=? 0)) eqn:E; [done|]. rewrite Hc. cbn [mbind option_bind]. unfold remove_item. rewrite Hi. cbn [mbind option_bind].
  rewrite E. rewrite (update_item_in c _ old) by done. cbn [mbind option_bind]. unfold slot_put. by rewrite Hc.
Qed.

(** What a removal that succeeds leaves and takes. *)
Record removal g sl (old : ItemStack) (n : Z) g' (t : ItemStack) : Prop := {
  re_exchange : exchanges g ItemStack_empty g' t;
  re_kind : same_kind t old;
  re_count : 0 < count t <= n /\ count t <= count old;
  re_rest : exists rest, slot_at g' sl rest /\ count rest = count old - count t;
}.

Lemma try_remove_ok g sl old n max : slot_wf g sl -> g_ok g -> slot_at g sl old ->
  exists g' taken, try_remove g sl n max = Some (g', taken) /\
    match taken with
    | Some t => removal g sl old (Z.min n max) g' t /\ (n = count old -> n <= max -> count t = n)
    | None => g' = g
    end.
Proof.
  intros Hwf Hg Hold. pose proof (slot_at_ok g sl old Hg Hold) as Ho. unfold try_remove.
  destruct (may_pickup sl g); cbn [negb]; [|by exists g, None]. unfold allow_modification. rewrite (slot_get_at g sl old) by done.
  cbn [mbind option_bind]. destruct (_ && _); [by exists g, None|]. rewrite (slot_remove_at g sl old) by done. cbn [mbind option_bind].
  destruct (is_empty old) eqn:Eo; cbn [orb]; [by exists g, None|]. destruct (Z.leb_spec (Z.min n max) 0); [by exists g, None|].
  destruct (nonempty_max old Ho Eo) as [Hp Hlim]. set (k := Z.min n max) in *. destruct (split_ok old k Ho ltac:(lia)) as [S1 S2].
  rewrite (proj2 (stack_nonempty _ (stack_held _ S2))) by (simpl; lia).
  assert (exchanges g ItemStack_empty (slot_put g sl (split old k).1) (split old k).2) as Hex.
  { apply (slot_put_exchanges g sl old); try held; [apply (slot_at_fits g sl old); [done|done|simpl; lia]|]. intros r. rewrite (amount_empty r ItemStack_empty) by done.
    pose proof (split_amount r old k (stack_held _ Ho) ltac:(lia)). lia. }
  pose proof (slot_put_at g sl old (split old k).1 Hold) as Hrest.
  rewrite (slot_get_at _ sl (split old k).1) by (try apply Hex; done). cbn [mbind option_bind].
  destruct (is_empty (split old k).1) eqn:Er.
  - rewrite (slot_set_empty _ sl (split old k).1); [| |apply Hex|done].
    + eexists _, _. split; [done|]. split; [|simpl; lia]. split; [|done|simpl; lia|].
      * eapply exchanges_trans; [exact Hex|]. apply (slot_put_exchanges _ sl (split old k).1); [apply Hex|done|held|apply fits_empty|held|].
        intros r. by rewrite (amount_empty r ItemStack_empty), (amount_empty r (split old k).1).
      * exists ItemStack_empty. split; [by eapply slot_put_at|]. pose proof (empty_count _ (stack_held _ S1) Er) as E0. simpl in *. lia.
    + destruct Hwf as [(c & Hc & Hi) Hcap]. split; [|done]. destruct (ex_shape _ _ _ _ Hex _ _ Hc) as (c' & Hc' & _ & E).
      exists c'. split; [done|]. lia.
  - eexists _, _. split; [done|]. split; [|simpl; lia]. split; [done|done|simpl; lia|]. exists (split old k).1. split; [done|]. simpl. lia.
Qed.

Lemma slot_wf_shape g g' sl : same_shape g g' -> slot_wf g sl -> slot_wf g' sl.
Proof.
  intros Hs [(c & Hc & Hi) Hcap]. split; [|done]. destruct (Hs _ _ Hc) as (c' & Hc' & _ & E). exists c'. rewrite E. done.
Qed.

(** ** The state of a menu *)

(** The items of a kind in the containers, on the cursor and dropped. *)
Definition menu_total (r : ItemStack) st : Z :=
  g_total r (m_containers st) + amount r (m_carried st) + sumZ (amount r <$> m_dropped st).

(** A menu in use by a player without infinite materials. *)
Record menu_ok m st : Prop := {
  mo_wf : menu_wf m (m_containers st);
  mo_containers : g_ok (m_containers st);
  mo_carried : stack_ok (m_carried st);
  mo_drag : is_clone (m_quickcraft st) = false;
  mo_drag_slots : Forall (fun slot => slot < length (m_slots m))%nat (m_quickcraft_slots st);
}.

(** The menu stays well-formed and nothing is lost or made. *)
Definition conserves m st st' : Prop := menu_ok m st' /\ forall r, menu_total r st' = menu_total r st.

Lemma conserves_refl m st : menu_ok m st -> conserves m st st.
Proof. by split. Qed.

Lemma conserves_trans m st1 st2 st3 : conserves m st1 st2 -> conserves m st2 st3 -> conserves m st1 st3.
Proof. intros [_ E1] [H2 E2]. split; [done|]. intros r. by rewrite E2. Qed.

Lemma set_containers_ok m st g' s s' : menu_ok m st -> exchanges (m_containers st) s g' s' ->
  menu_ok m (set_containers st g') /\
  forall r, menu_total r (set_containers st g') + amount r s' = menu_total r st + amount r s.
Proof.
  intros [H1 H2 H3 H4 H5] [E1 E2 E3 E4]. split.
  - split; [by eapply menu_wf_shape|done..].
  - intros r. specialize (E4 r). unfold menu_total. simpl. lia.
Qed.

Lemma set_carried_ok m st s : menu_ok m st -> stack_ok s ->
  menu_ok m (set_carried st s) /\ forall r, menu_total r (set_carried st s) = menu_total r st - amount r (m_carried st) + amount r s.
Proof.
  intros [H1 H2 H3 H4 H5] Hs. split; [by split|]. intros r. unfold menu_total. simpl. lia.
Qed.

Lemma set_drag_ok m st kind slots : menu_ok m st -> is_clone kind = false ->
  Forall (fun slot => slot < length (m_slots m))%nat slots -> conserves m st (set_drag st kind slots).
Proof. intros [H1 H2 H3 H4 H5] Hk Hs. split; [by split|done]. Qed.

Lemma reset_ok m st : menu_ok m st -> conserves m st (reset_quick_craft st).
Proof. intros Hst. apply set_drag_ok; [done|done|constructor]. Qed.

Lemma drop_item_ok m st s : menu_ok m st ->
  menu_ok m (drop_item st s) /\ forall r, menu_total r (drop_item st s) = menu_total r st + amount r s.
Proof.
  intros Hst. unfold drop_item. destruct (is_empty s) eqn:Es.
  - split; [done|]. intros r. rewrite amount_empty by done. lia.
  - destruct Hst as [H1 H2 H3 H4 H5]. split; [by split|]. intros r. unfold menu_total. simpl. rewrite fmap_app. simpl.
    rewrite sumZ_snoc. lia.
Qed.

(** Items move between the containers and the cursor. *)
Lemma exchange_carried m st g' s' : menu_ok m st -> exchanges (m_containers st) (m_carried st) g' s' ->
  conserves m st (set_carried (set_containers st g') s').
Proof.
  intros Hst Hex. destruct (set_containers_ok m st g' _ _ Hst Hex) as [H1 E1].
  destruct (set_carried_ok m _ s' H1 (ex_stack _ _ _ _ Hex)) as [H2 E2]. split; [done|]. intros r.
  rewrite E2. specialize (E1 r). simpl. lia.
Qed.

Lemma exchanges_shift g s g' s' t t' : exchanges g s g' s' -> stack_ok t' ->
  (forall r, amount r t' - amount r s' = amount r t - amount r s) -> exchanges g t g' t'.
Proof. intros [H1 H2 H3 H4] Ht E. split; [done..|]. intros r. specialize (E r). specialize (H4 r). lia. Qed.

(** *** Single clicks *)

Lemma drop_carried_ok m st button : menu_ok m st -> conserves m st (drop_carried st button).
Proof.
  intros Hst. unfold drop_carried. destruct (is_empty (m_carried st)) eqn:Ec; [by apply conserves_refl|]. pose proof (mo_carried _ _ Hst) as Hc.
  destruct button.
  - destruct (set_carried_ok m st ItemStack_empty Hst ltac:(held)) as [H1 E1].
    destruct (drop_item_ok m _ (m_carried st) H1) as [H2 E2]. split; [done|]. intros r. rewrite E2, E1.
    rewrite (amount_empty r ItemStack_empty) by done. lia.
  - destruct (split_ok (m_carried st) 1 Hc ltac:(lia)) as [S1 S2]. rewrite (surjective_pairing (split _ 1)). cbv beta iota.
    destruct (set_carried_ok m st _ Hst S1) as [H1 E1].
    destruct (drop_item_ok m _ (split (m_carried st) 1).2 H1) as [H2 E2]. split; [done|]. intros r. rewrite E2, E1.
    pose proof (split_amount r (m_carried st) 1 (stack_held _ Hc) ltac:(lia)). lia.
Qed.

Lemma insert_carried_ok m st sl n : menu_ok m st -> slot_wf (m_containers st) sl ->
  exists st', ('(g, carried) ← safe_insert (m_containers st) sl (m_carried st) n; Some (set_carried (set_containers st g) carried)) = Some st' /\
    conserves m st st'.
Proof.
  intros Hst Hwf. destruct (safe_insert_ok _ sl (m_carried st) n Hwf (mo_containers _ _ Hst) (mo_carried _ _ Hst)) as (g' & s' & -> & Hex).
  eexists. split; [done|]. by apply exchange_carried.
Qed.

Lemma merge_carried r s t n : stack_ok s -> stack_ok t -> same_kind t s -> stack_ok (grow s n) -> n = count t ->
  amount r (grow s n) = amount r s + amount r t.
Proof.
  intros Hs Ht Hk Hg E. unfold grow in *. rewrite (amount_recount r s s) by held. rewrite !amount_ok by held.
  rewrite (of_kind_same r t s) by done. destruct (of_kind r s); lia.
Qed.

Lemma do_pickup_ok m st slot button : menu_ok m st -> (slot < length (m_slots m))%nat ->
  exists st', do_pickup m st slot button = Some st' /\ conserves m st st'.
Proof.
  intros Hst Hlt. pose proof Hst as [Hwf Hg Hc _ _]. destruct (slot_lookup m _ slot Hwf Hlt) as (sl & old & Hsl & Hsw & Hold).
  pose proof (slot_at_ok _ sl old Hg Hold) as Ho. unfold do_pickup. rewrite Hsl. cbn [mbind option_bind].
  rewrite (slot_get_at _ sl old) by done. cbn [mbind option_bind].
  assert (exists st', Some st = Some st' /\ conserves m st st') as Hsame by (exists st; split; [done|by apply conserves_refl]).
  destruct (is_empty old) eqn:Eo.
  { destruct (_ && _); [by apply insert_carried_ok|done]. }
  destruct (nonempty_max old Ho Eo) as [Hp Hlim]. destruct (is_empty (m_carried st)) eqn:Ec.
  { destruct (try_remove_ok _ sl old (match button with LeftButton => count old | RightButton => Z.quot (count old + 1) 2 end) (2 ^ 31 - 1) Hsw Hg Hold)
      as (g' & taken & -> & Ht). cbn [mbind option_bind]. eexists. split; [done|].
    destruct taken as [t|]; [destruct Ht as [[Hex _ _ _] _]|subst g'].
    - apply (exchange_carried m st); [done|]. eapply exchanges_shift; [exact Hex|apply Hex|]. intros r.
      rewrite (amount_empty r (m_carried st)), (amount_empty r ItemStack_empty) by done. lia.
    - apply (exchange_carried m st); [done|]. apply (exchanges_shift _ (m_carried st) _ (m_carried st)); [by apply exchanges_refl|held|].
      intros r. rewrite (amount_empty r ItemStack_empty), (amount_empty r (m_carried st)) by done. done. }
  destruct (nonempty_max _ Hc Ec) as [Hcp Hcl]. destruct (is_same_item_same_components old (m_carried st)) eqn:Ek.
  - apply same_item_same_components_spec in Ek; [|done..].
    destruct (_ && _); [by apply insert_carried_ok|]. destruct (may_pickup sl _); [|done].
    destruct (Z.ltb_spec 0 (max_stack_size (m_carried st) - count (m_carried st))); [|done].
    destruct (try_remove_ok _ sl old (count old) (max_stack_size (m_carried st) - count (m_carried st)) Hsw Hg Hold)
      as (g' & taken & -> & Ht). cbn [mbind option_bind]. eexists. split; [done|]. destruct taken as [t|].
    + destruct Ht as [[Hex Hk Hn _] _]. 
      assert (stack_ok (grow (m_carried st) (count t))) as Hgrow by (apply (recount_ok (m_carried st)); [held|done|lia|lia]).
      apply exchange_carried; [done|]. eapply exchanges_shift; [exact Hex|done|]. intros r.
      rewrite (merge_carried r (m_carried st) t (count t)); try done; [|apply Hex|by transitivity old]. rewrite (amount_empty r ItemStack_empty) by done. lia.
    + subst g'. destruct (set_containers_ok m st _ _ _ Hst (exchanges_refl _ (m_carried st) Hg Hc)) as [H1 E1]. split; [done|].
      intros r. specialize (E1 r). lia.
  - destruct (_ && _); [|done]. destruct (slot_max_ok _ sl (m_carried st) Hsw ltac:(lia)) as (max & -> & Hmax & Hfit & Hset). cbn [mbind option_bind].
    destruct (Z.leb_spec (count (m_carried st)) max); [|done].
    rewrite (Hset (m_carried st)) with (old := old); [|done|by rewrite stack_ok_count by held|done|done]. eexists. split; [done|].
    apply exchange_carried; [done|]. apply (slot_put_exchanges _ sl old); [done|done|done|by apply Hfit|done|]. intros r. lia.
Qed.

(** *** Dragging *)

Lemma drag_add_slot_ok m st slot : menu_ok m st -> (slot < length (m_slots m))%nat ->
  exists st', drag_add_slot m st slot = Some st' /\ conserves m st st'.
Proof.
  intros Hst Hlt. destruct (slot_lookup m _ slot (mo_wf _ _ Hst) Hlt) as (sl & old & Hsl & _ & Hold). unfold drag_add_slot. rewrite Hsl.
  cbn [mbind option_bind]. rewrite (slot_get_at _ sl old) by (try apply Hst; done). cbn [mbind option_bind]. eexists. split; [done|].
  destruct (_ && _); [|by apply conserves_refl]. apply set_drag_ok; [done|apply Hst|].
  apply Forall_app. split; [apply Hst|]. by constructor.
Qed.

Lemma place_count_bound kind n source : is_clone (Some kind) = false -> 0 < count source <= 99 -> (1 <= Z.of_nat n <= count source)%Z ->
  0 <= place_count kind n source /\ Z.of_nat n * place_count kind n source <= count source.
Proof.
  intros Hk Hs Hn. unfold place_count. destruct kind; [|lia|done]. rewrite floor_div_small by lia. split.
  - apply Z.div_pos; lia.
  - apply Z.mul_div_le. lia.
Qed.

(** After some slots, with [place] items at most in each. *)
Record dragged (g0 : containers) (source : ItemStack) (place : Z) (i : nat) (acc : containers * Z) : Prop := {
  dr_ok : g_ok acc.1;
  dr_shape : same_shape g0 acc.1;
  dr_left : count source - Z.of_nat i * place <= acc.2 <= count source;
  dr_total : forall r, g_total r acc.1 + (if of_kind r source then acc.2 else 0) = g_total r g0 + amount r source;
}.

Lemma drag_place_ok m g0 kind n source place slot i acc : menu_wf m g0 -> (slot < length (m_slots m))%nat -> is_clone (Some kind) = false ->
  stack_ok source -> is_empty source = false -> 0 <= place -> (Z.of_nat n <= count source -> place_count kind n source = place) ->
  dragged g0 source place i acc ->
  exists acc', drag_place m kind n source slot acc = Some acc' /\ dragged g0 source place (S i) acc'.
Proof.
  intros Hwf Hlt Hk Hs Es Hpos Hplace Hacc. destruct acc as [g remaining]. pose proof Hacc as [H1 H2 H3 H4]. cbn [fst snd] in *.
  destruct (slot_lookup m g slot (menu_wf_shape _ _ _ H2 Hwf) Hlt) as (sl & old & Hsl & Hsw & Hold). pose proof (slot_at_ok _ _ _ H1 Hold) as Ho.
  unfold drag_place. rewrite Hsl, Hk. cbn [mbind option_bind orb]. rewrite (slot_get_at g sl old) by done. cbn [mbind option_bind].
  assert (exists acc', Some (g, remaining) = Some acc' /\ dragged g0 source place (S i) acc') as Hskip
    by (eexists; split; [done|]; split; try done; cbn [snd]; lia).
  destruct (can_item_quick_replace old source true) eqn:Eq; cbn [andb]; [|done].
  destruct (may_place sl source); cbn [andb]; [|done].
  destruct (Z.leb_spec (Z.of_nat n) (count source)) as [Hle|]; cbn [andb]; [|done].
  destruct (can_drag_to m slot); [|done].
  destruct (nonempty_max source Hs Es) as [Hp Hlim]. rewrite (Hplace Hle).
  destruct (slot_max_ok g sl source Hsw ltac:(lia)) as (max & Emax & Hmax & Hfit & Hset). rewrite Emax. cbn [mbind option_bind].
  assert ((if is_empty old then 0 else count old) = count old) as ->
    by (destruct (is_empty old) eqn:Eo; [symmetry; apply empty_count; [held|done]|done]).
  assert (0 <= count old <= max /\ (0 < count old -> same_kind old source)) as [Hcur Hkind].
  { pose proof Ho as (H0 & _). destruct (is_empty old) eqn:Eo; [rewrite (empty_count old) by held; lia|].
    destruct (nonempty_max old Ho Eo) as [Hop _]. unfold can_item_quick_replace in Eq. rewrite Eo in Eq.
    destruct (is_same_item_same_components source old) eqn:Ek; [|done]. apply same_item_same_components_spec in Ek; [|done..].
    split; [|done]. split; [lia|]. by apply (slot_max_held g sl old Hsw H1 Hold Hop source). }
  replace (Z.min (max_stack_size source) max) with max by lia. set (new := Z.min _ max).
  assert (stack_ok (set_count source new)) as Hnew by (apply (recount_ok source); [held|done|lia|lia]).
  rewrite (Hset (set_count source new)) with (old := old); [|done|rewrite stack_ok_count by held; simpl; lia|done|done].
  cbn [mbind option_bind]. eexists. split; [done|].
  destruct (slot_put_ok g sl old (set_count source new)) as (P1 & P2 & P3); [done|done|done|apply Hfit; simpl; lia|].
  split; cbn [fst snd]; [done|by eapply same_shape_trans|lia|]. intros r. rewrite P3, (amount_recount r source) by held.
  specialize (H4 r). rewrite (amount_ok r old) by held. destruct (decide (0 < count old)) as [Hop|Hop].
  - rewrite (of_kind_same r old source) by auto. destruct (of_kind r source); lia.
  - replace (count old) with 0 by lia. destruct (of_kind r old), (of_kind r source); lia.
Qed.

Lemma finish_quick_craft_ok m st : menu_ok m st -> exists st', finish_quick_craft m st = Some st' /\ conserves m st st'.
Proof.
  intros Hst. pose proof (reset_ok m st Hst) as Hreset. pose proof Hst as [Hwf Hg Hc Hd Hl]. unfold finish_quick_craft.
  destruct (m_quickcraft st) as [kind|]; [|by eauto]. destruct (m_quickcraft_slots st) as [|slot [|slot' rest]] eqn:Es; [by eauto|..].
  - assert (slot < length (m_slots m))%nat as Hlt by (by inversion Hl). destruct kind; [..|by eauto].
    + destruct (do_pickup_ok m _ slot LeftButton (proj1 Hreset) Hlt) as (st' & -> & Hst'). exists st'. split; [done|].
      eapply conserves_trans; [exact Hreset|exact Hst'].
    + destruct (do_pickup_ok m _ slot RightButton (proj1 Hreset) Hlt) as (st' & -> & Hst'). exists st'. split; [done|].
      eapply conserves_trans; [exact Hreset|exact Hst'].
  - set (slots := slot :: slot' :: rest) in *. destruct (is_empty (m_carried st)) eqn:Ec; [by eauto|]. set (source := m_carried st) in *.
    destruct (nonempty_max source Hc Ec) as [Hp Hlim]. pose proof Hc as (_ & _ & H99). specialize (H99 Hp).
    set (place := if decide (Z.of_nat (length slots) <= count source) then place_count kind (length slots) source else 0).
    assert (0 <= place /\ Z.of_nat (length slots) * place <= count source) as [Hpl Hsum].
    { unfold place. case_decide; [|lia]. apply place_count_bound; [done|lia|]. split; [unfold slots; simpl; lia|done]. }
    destruct (for_each_ind (fun pre => dragged (m_containers st) source place (length pre)) slots
      (drag_place m kind (length slots) source) (m_containers st, count source)) as ([g remaining] & E & [D1 D2 D3 D4]).
    + split; cbn [fst snd length]; [done|apply same_shape_refl|lia|]. intros r. by rewrite (amount_ok r source) by held.
    + intros pre x todo acc Ex Hacc. rewrite length_app, Nat.add_1_r. apply (drag_place_ok m (m_containers st)); try done.
      * rewrite Forall_forall in Hl. apply Hl. rewrite Ex. apply elem_of_app. right. by left.
      * intros Hle. unfold place. by rewrite decide_True.
    + rewrite E. cbn [mbind option_bind]. eexists. split; [done|]. cbn [fst snd] in *.
      assert (stack_ok (set_count source remaining)) as Hrem by (apply (recount_ok source); [held|done|lia|lia]).
      assert (exchanges (m_containers st) (m_carried st) g (set_count source remaining)) as Hex
        by (split; try done; intros r; by rewrite (amount_recount r source) by held).
      pose proof (exchange_carried m st _ _ Hst Hex) as Hdone. eapply conserves_trans; [exact Hdone|]. apply reset_ok, Hdone.
Qed.

Lemma do_quick_craft_ok m st action : menu_ok m st -> is_valid_for (Drag action) (length (m_slots m)) = true ->
  exists st', do_quick_craft m false st action = Some st' /\ conserves m st st'.
Proof.
  intros Hst Hvalid. pose proof (reset_ok m st Hst) as Hreset. unfold do_quick_craft. destruct (_ || _); [by eauto|]. destruct action as [kind|slot|].
  - destruct (is_clone (Some kind)) eqn:Ek; [by eauto|]. eexists. split; [done|]. apply set_drag_ok; [done|done|constructor].
  - apply drag_add_slot_ok; [done|]. exact (bool_decide_eq_true_1 _ Hvalid).
  - by apply finish_quick_craft_ok.
Qed.

(** *** Throwing *)

Lemma safe_take_ok g sl old n max : slot_wf g sl -> g_ok g -> slot_at g sl old ->
  exists g' t, safe_take g sl n max = Some (g', t) /\ exchanges g ItemStack_empty g' t /\ count t <= Z.max 0 (Z.min n max) /\
    (0 < count t -> same_kind t old) /\
    ((is_empty t = true /\ g' = g) \/ (exists rest, slot_at g' sl rest /\ count rest = count old - count t /\ (n = count old -> n <= max -> count t = n))).
Proof.
  intros Hwf Hg Hold. unfold safe_take. destruct (try_remove_ok g sl old n max Hwf Hg Hold) as (g' & taken & -> & Ht).
  cbn [mbind option_bind]. destruct taken as [t|].
  - destruct Ht as [[R1 R2 R3 (rest & R4 & R5)] Hall]. exists g', t. split_and!; [done|done|lia|done|]. right. by exists rest.
  - subst g'. exists g, ItemStack_empty. split_and!; [done|apply exchanges_refl; held|simpl; lia|simpl; lia|by left].
Qed.

(** A throw of one round: the slot is empty afterwards, or holds what was not taken. *)
Lemma throw_more_done fuel can_drop sl dropped st rest : g_ok (m_containers st) -> slot_at (m_containers st) sl rest ->
  is_empty rest = true \/ is_empty dropped = true -> throw_more (S fuel) can_drop sl dropped st = Some st.
Proof.
  intros Hg Hrest Hstop. simpl. destruct (_ || _); [done|]. rewrite (slot_get_at _ sl rest) by done. simpl.
  destruct (is_empty rest) eqn:Er; simpl; [done|]. destruct Hstop as [?|Hd]; [done|]. unfold is_same_item, stack_item. rewrite Er, Hd.
  unfold is_empty in Er. apply orb_false_iff in Er as [-> _]. done.
Qed.

Lemma do_throw_ok fuel m can_drop st slot whole : menu_ok m st -> (slot < length (m_slots m))%nat ->
  exists st', do_throw (S fuel) m can_drop st slot whole = Some st' /\ conserves m st st'.
Proof.
  intros Hst Hlt. pose proof Hst as [Hwf Hg Hc _ _]. destruct (slot_lookup m _ slot Hwf Hlt) as (sl & old & Hsl & Hsw & Hold).
  pose proof (slot_at_ok _ sl old Hg Hold) as Ho. unfold do_throw.
  assert (exists st', Some st = Some st' /\ conserves m st st') as Hsame by (exists st; split; [done|by apply conserves_refl]).
  destruct (negb _); [done|]. rewrite Hsl. cbn [mbind option_bind]. destruct (_ || _); [done|].
  rewrite (slot_get_at _ sl old) by done. cbn [mbind option_bind]. set (n := if whole then count old else 1).
  destruct (safe_take_ok _ sl old n (2 ^ 31 - 1) Hsw Hg Hold) as (g' & t & -> & Hex & _ & _ & Hcase). cbn [mbind option_bind].
  destruct (set_containers_ok m st g' _ _ Hst Hex) as [H1 E1]. destruct (drop_item_ok m _ t H1) as [H2 E2].
  set (st' := drop_item _ _) in *.
  assert (conserves m st st') as Hcons.
  { split; [done|]. intros r. specialize (E1 r). rewrite E2. rewrite (amount_empty r ItemStack_empty) in E1 by done. lia. }
  exists st'. split; [|done]. destruct whole; [|done]. assert (m_containers st' = g') as Eg by (unfold st', drop_item; by destruct (is_empty t)).
  assert (exists rest, slot_at g' sl rest /\ (is_empty rest = true \/ is_empty t = true)) as (rest & Hrest & Hstop).
  { destruct Hcase as [[? ->]|(rest & Hrest & E & Hall)]; [by eauto|]. exists rest. split; [done|left].
    pose proof (slot_at_ok g' sl rest (ex_ok _ _ _ _ Hex) Hrest) as Hro. rewrite stack_ok_empty by held. apply Z.leb_le. unfold n in Hall.
    destruct Ho as (_ & _ & Hlim). destruct (decide (0 < count old)); lia. }
  rewrite <- Eg in Hrest. apply (throw_more_done fuel can_drop sl t st' rest); [rewrite Eg; apply Hex|done|done].
Qed.

(** *** Quick moves *)

(** While items move out of [src], its position still holds what was clicked. *)
Record moving g0 src (clicked : ItemStack) (acc : containers * ItemStack * bool) : Prop := {
  mv_exchange : exchanges g0 clicked acc.1.1 acc.1.2;
  mv_source : slot_at acc.1.1 src clicked;
  mv_kind : same_kind acc.1.2 clicked;
  mv_none : acc.2 = false -> acc.1 = (g0, clicked);
  mv_some : acc.2 = true -> count acc.1.2 < count clicked;
}.

Lemma moving_start g src clicked : g_ok g -> slot_at g src clicked -> moving g src clicked (g, clicked, false).
Proof. intros Hg Hs. split; simpl; [|done|done|done|done]. apply exchanges_refl; [done|]. by apply (slot_at_ok g src). Qed.

Lemma moving_put g0 src clicked g stack b sl old new rest : moving g0 src clicked (g, stack, b) ->
  physical_key sl <> physical_key src -> slot_at g sl old -> stack_ok new -> fits g sl new -> stack_ok rest -> same_kind rest stack ->
  count rest < count stack -> (forall r, amount r new + amount r rest = amount r old + amount r stack) ->
  moving g0 src clicked (slot_put g sl new, rest, true).
Proof.
  intros [M1 M2 M3 M4 M5] Hne Hold Hnew Hfit Hrest Hk Hlt Hsum. cbn [fst snd] in *. split; cbn [fst snd]; [| |by transitivity stack|done|].
  - eapply exchanges_trans; [exact M1|]. by apply (slot_put_exchanges g sl old); [apply M1|..].
  - by eapply slot_put_other.
  - intros _. destruct b; [specialize (M5 eq_refl); lia|]. specialize (M4 eq_refl). by simplify_eq.
Qed.

Section QuickMove.
Context (m : Menu) (g0 : containers) (source : nat) (src : Slot) (clicked : ItemStack).
Hypothesis Hwf : menu_wf m g0.
Hypothesis Hsrc : m_slots m !! source = Some src.

Lemma is_source_ok dest sl : m_slots m !! dest = Some sl ->
  exists b, is_source m source dest = Some b /\ (b = false -> physical_key sl <> physical_key src).
Proof.
  intros Hsl. unfold is_source. rewrite Hsrc, Hsl. simpl. eexists. split; [done|]. intros [_ Hb]%orb_false_iff. by apply bool_decide_eq_false in Hb.
Qed.

Lemma stack_onto_ok dest acc : (dest < length (m_slots m))%nat -> moving g0 src clicked acc ->
  exists acc', stack_onto m source dest acc = Some acc' /\ moving g0 src clicked acc'.
Proof.
  destruct acc as [[g stack] b]. intros Hlt Hmv. pose proof Hmv as [[X1 X2 X3 X4] _ _ _ _]. cbn [fst snd] in *.
  destruct (slot_lookup m g dest (menu_wf_shape _ _ _ X2 Hwf) Hlt) as (sl & old & Hsl & Hsw & Hold). pose proof (slot_at_ok _ _ _ X1 Hold) as Ho.
  unfold stack_onto. destruct (is_empty stack) eqn:Es; [by eauto|]. destruct (is_source_ok dest sl Hsl) as (skip & -> & Hskip).
  cbn [mbind option_bind]. destruct skip; [by eauto|]. specialize (Hskip eq_refl). rewrite Hsl. cbn [mbind option_bind].
  rewrite (slot_get_at g sl old) by done. cbn [mbind option_bind]. destruct (is_empty old) eqn:Eo; cbn [negb andb]; [by eauto|].
  destruct (is_same_item_same_components stack old) eqn:Ek; [|by eauto]. apply same_item_same_components_spec in Ek; [|done..].
  destruct (nonempty_max old Ho Eo) as [Hp Hlim]. destruct (nonempty_max stack X3 Es) as [Hsp Hsl'].
  destruct (slot_max_ok g sl old Hsw ltac:(lia)) as (max & -> & Hmax & Hfit & _). cbn [mbind option_bind].
  rewrite (max_stack_size_kind stack old) in Hsl' by done.
  assert (forall n k, 0 <= n <= max -> 0 <= k < count stack -> n + k = count old + count stack ->
    moving g0 src clicked (slot_put g sl (set_count old n), set_count stack k, true)) as Hput.
  { intros n k Hn Hk E. assert (stack_ok (set_count old n)) as G1 by (apply (recount_ok old); [held|done|lia|lia]).
    assert (stack_ok (set_count stack k)) as G2 by (apply (recount_ok old); [held|done|lia|lia]).
    apply (moving_put g0 src clicked g stack b sl old); try done; [apply Hfit; simpl; lia|simpl; lia|].
    intros r. apply recount_amounts; try held. }
  destruct (Z.leb_spec (count old + count stack) max).
  - rewrite (slot_update_at g sl old) by done. eexists. split; [done|]. apply Hput; lia.
  - destruct (Z.ltb_spec (count old) max); [|by eauto]. rewrite (slot_update_at g sl old) by done. eexists. split; [done|].
    apply Hput; lia.
Qed.

Lemma place_empty_ok dests g stack b : Forall (fun dest => dest < length (m_slots m))%nat dests ->
  moving g0 src clicked (g, stack, b) -> is_empty stack = false ->
  exists g' stack' placed, place_empty m source dests g stack = Some (g', stack', placed) /\ moving g0 src clicked (g', stack', b || placed).
Proof.
  intros Hall Hmv Es. pose proof Hmv as [[X1 X2 X3 X4] _ _ _ _]. cbn [fst snd] in *. induction Hall as [|dest dests Hlt _ IH].
  { exists g, stack, false. by rewrite orb_false_r. }
  destruct (slot_lookup m g dest (menu_wf_shape _ _ _ X2 Hwf) Hlt) as (sl & old & Hsl & Hsw & Hold). pose proof (slot_at_ok _ _ _ X1 Hold) as Ho.
  cbn [place_empty]. destruct (is_source_ok dest sl Hsl) as (skip & -> & Hskip). cbn [mbind option_bind]. destruct skip; [done|].
  specialize (Hskip eq_refl). rewrite Hsl. cbn [mbind option_bind]. rewrite (slot_get_at g sl old) by done. cbn [mbind option_bind].
  destruct (is_empty old) eqn:Eo; cbn [andb]; [|done]. destruct (may_place sl stack); [|done]. destruct (nonempty_max stack X3 Es) as [Hp Hlim].
  destruct (slot_max_ok g sl stack Hsw ltac:(lia)) as (max & -> & Hmax & Hfit & Hset). cbn [mbind option_bind]. set (n := Z.min _ max).
  destruct (split_ok stack n X3 ltac:(lia)) as [S1 S2]. rewrite (surjective_pairing (split stack n)). cbv beta iota.
  rewrite (Hset (split stack n).2) with (old := old); try done; [|rewrite stack_ok_count by held; simpl; lia].
  cbn [mbind option_bind]. eexists _, _, _. split; [done|]. rewrite orb_true_r.
  apply (moving_put g0 src clicked g stack b sl old); try done; [apply Hfit; simpl; lia|simpl; lia|].
  intros r. rewrite (amount_empty r old) by done. pose proof (split_amount r stack n (stack_held _ X3) ltac:(lia)). lia.
Qed.

Lemma walk_below direction start stop n : (stop <= n)%nat -> Forall (fun slot => slot < n)%nat (walk direction start stop).
Proof.
  intros Hle. assert (Forall (fun slot => slot < n)%nat (seq start (stop - start))) as Hs
    by (apply Forall_forall; intros x [? ?]%elem_of_seq; lia).
  destruct direction; [done|]. by apply Forall_reverse.
Qed.

Lemma move_item_stack_to_ok start stop direction : g_ok g0 -> slot_at g0 src clicked -> is_empty clicked = false ->
  (stop <= length (m_slots m))%nat ->
  exists acc, move_item_stack_to m g0 source clicked start stop direction = Some acc /\ moving g0 src clicked acc.
Proof.
  intros Hg Hat Ec Hstop. pose proof (moving_start g0 src clicked Hg Hat) as Hstart. unfold move_item_stack_to. case_decide; [by eauto|].
  pose proof (walk_below direction start stop _ Hstop) as Hall.
  assert (exists acc, (if is_stackable clicked then for_each (walk direction start stop) (stack_onto m source) (g0, clicked, false)
                       else Some (g0, clicked, false)) = Some acc /\ moving g0 src clicked acc) as ([[g stack] b] & -> & Hmv).
  { destruct (is_stackable clicked); [|by eauto]. apply (for_each_ind (fun _ => moving g0 src clicked)); [done|].
    intros pre x todo acc E Hacc. apply stack_onto_ok; [|done]. rewrite Forall_forall in Hall. apply Hall. rewrite E. apply elem_of_app. right. by left. }
  cbn [mbind option_bind]. destruct (is_empty stack) eqn:Es; [by eauto|].
  destruct (place_empty_ok _ g stack b Hall Hmv Es) as (g' & stack' & placed & -> & Hmv'). cbn [mbind option_bind]. by eauto.
Qed.

Lemma move_to_targets_ok direction targets : g_ok g0 -> slot_at g0 src clicked -> is_empty clicked = false ->
  Forall (fun range => range.2 <= length (m_slots m))%nat targets ->
  exists acc, move_to_targets m g0 source clicked direction targets = Some acc /\ moving g0 src clicked acc.
Proof.
  intros Hg Hat Ec Hall. induction Hall as [|[start stop] targets Hstop _ IH]; cbn [move_to_targets].
  { eexists. split; [done|]. by apply moving_start. }
  destruct (move_item_stack_to_ok start stop direction Hg Hat Ec Hstop) as ([[g stack] b] & -> & Hmv). cbn [mbind option_bind].
  destruct b; [by eauto|]. pose proof (mv_none _ _ _ _ Hmv eq_refl) as E. simpl in E. injection E as -> ->. exact IH.
Qed.
End QuickMove.

Lemma quick_move_ok m g slot sl clicked : menu_wf m g -> g_ok g -> m_slots m !! slot = Some sl -> slot_wf g sl -> slot_at g sl clicked ->
  exists g' result, quick_move m g slot = Some (g', result) /\ exchanges g ItemStack_empty g' ItemStack_empty /\
    (is_empty result = true \/ exists rest, slot_at g' sl rest /\ count rest < count clicked).
Proof.
  intros Hwf Hg Hsl Hsw Hat. pose proof (slot_at_ok _ _ _ Hg Hat) as Hc. pose proof (exchanges_refl g ItemStack_empty Hg ltac:(held)) as Hsame.
  unfold quick_move. destruct (list_find _ (m_routes m)) as [[i route]|] eqn:Er; [|by eauto 8].
  apply list_find_Some in Er as (Er & _ & _). pose proof (Forall_lookup_1 _ _ _ _ (mw_routes _ _ Hwf) Er) as Htargets. cbv beta in Htargets.
  rewrite Hsl. cbn [mbind option_bind]. rewrite (slot_get_at g sl clicked) by done. cbn [mbind option_bind].
  destruct (is_empty clicked) eqn:Ec; cbn [orb]; [by eauto 8|]. destruct (negb (may_pickup sl g)); [by eauto 8|].
  destruct (move_to_targets_ok m g slot sl clicked Hwf Hsl (r_direction route) _ Hg Hat Ec Htargets) as ([[g' rest] moved] & -> & Hmv).
  cbn [mbind option_bind]. destruct moved; cbn [negb].
  - destruct Hmv as [[X1 X2 X3 X4] M2 M3 _ M5]. cbn [fst snd] in *. specialize (M5 eq_refl).
    set (new := if is_empty rest then ItemStack_empty else rest).
    assert (update_quick_move_source g' sl rest = Some (slot_put g' sl new)) as ->.
    { unfold update_quick_move_source, new. destruct (is_empty rest); [by apply (slot_set_empty g' sl clicked); [by eapply slot_wf_shape|..]|].
      by apply (slot_update_at g' sl clicked). }
    cbn [mbind option_bind]. eexists _, _. split; [done|].
    assert (stack_ok new /\ count new = count rest /\ forall r, amount r new = amount r rest) as (N1 & N2 & N3).
    { unfold new. destruct (is_empty rest) eqn:E; [|done]. split_and!; [held|by rewrite (empty_count rest) by held|].
      intros r. by rewrite !amount_empty. }
    split.
    + destruct (slot_put_ok g' sl clicked new) as (P1 & P2 & P3); [done|done|done|apply (slot_at_fits g' sl clicked); [done|done|lia]|].
      split; [done|by eapply same_shape_trans|held|]. intros r. specialize (X4 r). rewrite P3, N3. lia.
    + right. exists new. split; [by eapply slot_put_at|lia].
  - pose proof (mv_none _ _ _ _ Hmv eq_refl) as E. simpl in E. injection E as -> ->. by eauto 8.
Qed.

(** Each round leaves less in the slot, so the loop ends. *)
Lemma quick_move_loop_ok m slot sl fuel : forall g result current, menu_wf m g -> g_ok g -> m_slots m !! slot = Some sl -> slot_wf g sl ->
  slot_at g sl current -> is_empty result = true \/ count current < Z.of_nat fuel ->
  exists g', quick_move_loop fuel m slot g result = Some g' /\ exchanges g ItemStack_empty g' ItemStack_empty.
Proof.
  induction fuel as [|fuel IH]; intros g result current Hwf Hg Hsl Hsw Hat Hfuel;
    pose proof (exchanges_refl g ItemStack_empty Hg ltac:(held)) as Hsame; cbn [quick_move_loop]; destruct (is_empty result); [by eauto| |by eauto|].
  - destruct Hfuel as [?|Hfuel]; [done|]. destruct (slot_at_ok _ _ _ Hg Hat). lia.
  - destruct Hfuel as [?|Hfuel]; [done|]. rewrite Hsl. cbn [mbind option_bind]. rewrite (slot_get_at g sl current) by done. cbn [mbind option_bind].
    destruct (negb _); [by eauto|]. destruct (quick_move_ok m g slot sl current) as (g' & result' & -> & Hex & Hres); try done.
    cbn [mbind option_bind]. pose proof Hex as [X1 X2 _ _]. pose proof (slot_wf_shape _ _ _ X2 Hsw) as Hsw'.
    assert (exists next, slot_at g' sl next /\ (is_empty result' = true \/ count next < Z.of_nat fuel)) as (next & Hnext & Hlt).
    { destruct Hres as [He|(rest & Hrest & Hlt)]; [|exists rest; split; [done|right; lia]].
      destruct (slot_at_wf g' sl Hsw') as [next Hnext]. eauto. }
    destruct (IH g' result' next) as (g'' & -> & Hex'); try done; [by eapply menu_wf_shape|].
    eexists. split; [done|]. by eapply exchanges_trans.
Qed.

(** An exchange that leaves nothing outside of the containers. *)
Lemma containers_conserve m st g' : menu_ok m st -> exchanges (m_containers st) ItemStack_empty g' ItemStack_empty ->
  conserves m st (set_containers st g').
Proof.
  intros Hst Hex. destruct (set_containers_ok m st g' _ _ Hst Hex) as [H1 E1]. split; [done|]. intros r. specialize (E1 r). lia.
Qed.

Lemma do_quick_move_ok fuel m st slot : menu_ok m st -> (slot < length (m_slots m))%nat -> (99 <= fuel)%nat ->
  exists st', do_quick_move fuel m st slot = Some st' /\ conserves m st st'.
Proof.
  intros Hst Hlt Hfuel. pose proof Hst as [Hwf Hg _ _ _]. destruct (slot_lookup m _ slot Hwf Hlt) as (sl & old & Hsl & Hsw & Hold).
  pose proof (slot_at_ok _ _ _ Hg Hold) as (_ & _ & Ho). unfold do_quick_move. rewrite Hsl. cbn [mbind option_bind].
  assert (exists st', Some st = Some st' /\ conserves m st st') as Hsame by (exists st; split; [done|by apply conserves_refl]).
  destruct (negb _); [done|]. rewrite (slot_get_at _ sl old) by done. cbn [mbind option_bind]. destruct (is_empty old); [done|].
  destruct (quick_move_ok m (m_containers st) slot sl old) as (g' & result & -> & Hex & Hres); try done. cbn [mbind option_bind].
  pose proof Hex as [X1 X2 _ _]. pose proof (slot_wf_shape _ _ _ X2 Hsw) as Hsw'. destruct (slot_at_wf g' sl Hsw') as [next Hnext].
  assert (exists next, slot_at g' sl next /\ (is_empty result = true \/ count next < Z.of_nat fuel)) as (next' & Hnext' & Hlt').
  { destruct Hres as [He|(rest & Hrest & Hless)]; [by eauto|]. exists rest. split; [done|right].
    destruct (slot_at_ok _ _ _ X1 Hrest). destruct (decide (0 < count old)); lia. }
  destruct (quick_move_loop_ok m slot sl fuel g' result next') as (g'' & -> & Hex'); try done; [by eapply menu_wf_shape|].
  cbn [mbind option_bind]. eexists. split; [done|]. apply containers_conserve; [done|]. by eapply exchanges_trans.
Qed.

(** *** Collecting *)

Lemma collect_from_ok m g0 c0 second slot acc : menu_wf m g0 -> (slot < length (m_slots m))%nat -> stack_ok c0 -> is_empty c0 = false ->
  exchanges g0 c0 acc.1 acc.2 /\ same_kind acc.2 c0 ->
  exists acc', collect_from m (max_stack_size c0) c0 second slot acc = Some acc' /\ exchanges g0 c0 acc'.1 acc'.2 /\ same_kind acc'.2 c0.
Proof.
  destruct acc as [g s]. intros Hwf Hlt Hc Ec [Hex Hk]. cbn [fst snd] in *. pose proof Hex as [X1 X2 X3 X4].
  destruct (slot_lookup m g slot (menu_wf_shape _ _ _ X2 Hwf) Hlt) as (sl & old & Hsl & Hsw & Hold). pose proof (slot_at_ok _ _ _ X1 Hold) as Ho.
  unfold collect_from. destruct (Z.leb_spec (max_stack_size c0) (count s)); [by eauto|]. rewrite Hsl. cbn [mbind option_bind].
  rewrite (slot_get_at g sl old) by done. cbn [mbind option_bind].
  destruct (is_empty old) eqn:Eo; cbn [negb andb]; [by eauto|]. destruct (can_item_quick_replace old c0 true) eqn:Eq; cbn [andb]; [|by eauto].
  destruct (_ && _); [|by eauto]. unfold can_item_quick_replace in Eq. rewrite Eo in Eq.
  destruct (is_same_item_same_components c0 old) eqn:Ek; [|done]. apply same_item_same_components_spec in Ek; [|done..].
  set (room := max_stack_size c0 - count s). destruct (safe_take_ok g sl old (Z.min (count old) room) room Hsw X1 Hold)
    as (g' & t & -> & Hext & Hle & Hkt & _). cbn [mbind option_bind]. eexists. split; [done|]. cbn [fst snd].
  pose proof (ex_stack _ _ _ _ Hext) as Ht. destruct (nonempty_max c0 Hc Ec) as [Hp Hlim].
  assert (0 <= count s /\ 0 <= count t) as [Hs0 Ht0] by (split; [apply X3|apply Ht]). replace (Z.min (count t) room) with (count t) by lia.
  assert (stack_ok (grow s (count t))) as Hgrow by (apply (recount_ok c0); [held|done|lia|lia]).
  split; [|by transitivity s]. eapply exchanges_trans; [exact Hex|]. eapply exchanges_shift; [exact Hext|done|]. intros r.
  rewrite (amount_empty r ItemStack_empty) by done. unfold grow in *. rewrite (amount_recount r c0) by held. rewrite !amount_ok by held.
  rewrite (of_kind_same r s c0) by done. destruct (decide (0 < count t)) as [Hpos|Hpos].
  - rewrite (of_kind_same r t c0) by (transitivity old; [by apply Hkt|by symmetry]). destruct (of_kind r c0); lia.
  - replace (count t) with 0 by lia. destruct (of_kind r t), (of_kind r c0); lia.
Qed.

Lemma collect_pass_ok m g0 c0 second order acc : menu_wf m g0 -> Forall (fun slot => slot < length (m_slots m))%nat order ->
  stack_ok c0 -> is_empty c0 = false -> exchanges g0 c0 acc.1 acc.2 /\ same_kind acc.2 c0 ->
  exists acc', for_each order (collect_from m (max_stack_size c0) c0 second) acc = Some acc' /\ exchanges g0 c0 acc'.1 acc'.2 /\ same_kind acc'.2 c0.
Proof.
  intros Hwf Hall Hc Ec Hacc. apply (for_each_ind (fun _ acc => exchanges g0 c0 acc.1 acc.2 /\ same_kind acc.2 c0)); [done|].
  intros pre x todo acc' E Ha. apply collect_from_ok; [done| |done..]. rewrite Forall_forall in Hall. apply Hall. rewrite E. apply elem_of_app. right. by left.
Qed.

Lemma do_pickup_all_ok m st slot direction : menu_ok m st -> (slot < length (m_slots m))%nat ->
  exists st', do_pickup_all m st slot direction = Some st' /\ conserves m st st'.
Proof.
  intros Hst Hlt. pose proof Hst as [Hwf Hg Hc _ _]. destruct (slot_lookup m _ slot Hwf Hlt) as (sl & old & Hsl & Hsw & Hold).
  unfold do_pickup_all. rewrite Hsl. cbn [mbind option_bind]. rewrite (slot_get_at _ sl old) by done. cbn [mbind option_bind].
  destruct (is_empty (m_carried st)) eqn:Ec; cbn [orb]; [exists st; split; [done|by apply conserves_refl]|].
  destruct (_ && _); [exists st; split; [done|by apply conserves_refl]|].
  pose proof (walk_below direction 0 _ _ (le_n (length (m_slots m)))) as Hall.
  destruct (collect_pass_ok m (m_containers st) (m_carried st) false _ (m_containers st, m_carried st) Hwf Hall Hc Ec) as (acc & -> & Hacc).
  { split; [by apply exchanges_refl|done]. }
  cbn [mbind option_bind]. destruct (collect_pass_ok m (m_containers st) (m_carried st) true _ acc Hwf Hall Hc Ec Hacc) as ([g' s'] & -> & Hex & _).
  cbn [mbind option_bind]. eexists. split; [done|]. by apply exchange_carried.
Qed.

(** *** The player's inventory *)

(** The inventory as slots of its own. *)
Lemma inventory_slot_ok m g i : menu_wf m g -> g_ok g -> (i < CONTAINER_SIZE)%nat ->
  exists s, slot_wf g (NormalSlot (m_inventory m) i) /\ slot_at g (NormalSlot (m_inventory m) i) s.
Proof.
  intros Hwf Hg Hi. destruct (mw_inventory _ _ Hwf) as (c & sel & Hc & Hk). pose proof (co_size _ (Hg _ _ Hc)) as Hsize. rewrite Hk in Hsize.
  destruct (lookup_lt_is_Some_2 (items c) i) as [s Hs]; [lia|]. exists s. split; [|by exists c]. split; [|done]. exists c. split; [done|].
  simpl. lia.
Qed.

Lemma inventory_add_ok m g s : menu_wf m g -> g_ok g -> stack_ok s ->
  exists c c' s', g !! m_inventory m = Some c /\ container_add c s = Some (c', s', is_empty s') /\
    exchanges g s (<[m_inventory m := c']> g) s'.
Proof.
  intros Hwf Hg Hs. destruct (mw_inventory _ _ Hwf) as (c & sel & Hc & Hk).
  destruct (container_add_ok c s (Hg _ _ Hc) (stack_held _ Hs)) as (c' & s' & E & (A1 & A2 & A3 & A4 & A5 & A6 & A7) & _). cbn [fst snd] in *.
  exists c, c', s'. split_and!; [done|done|]. split.
  - intros x y. intros [[<- <-]|[_ Hy]]%lookup_insert_Some; [done|exact (Hg _ _ Hy)].
  - by apply (same_shape_insert g _ c).
  - destruct A4 as (B1 & B2 & B3). split_and!; [done|done|]. intros Hp. destruct Hs as (_ & _ & Hlim).
    rewrite (max_stack_size_kind s' s) by done. lia.
  - intros r. rewrite (g_total_insert r g _ c) by done. specialize (A7 r). lia.
Qed.

(** A slot written after others: its limit is the one it had. *)
Lemma slot_write g0 g sl old s t max : same_shape g0 g -> slot_wf g0 sl -> g_ok g -> slot_at g sl old -> stack_ok t -> same_kind t s ->
  slot_max_for_item g0 sl s = Some max -> count t <= max -> slot_set g sl t = Some (slot_put g sl t) /\ fits g sl t.
Proof.
  intros Hs [(c & Hc & _) Hcap] Hg (c' & Hc' & Hold) Ht Hk. unfold slot_max_for_item, slot_max. rewrite Hcap, Hc. intros [= <-] Hle.
  destruct (Hs _ _ Hc) as (c2 & Hc2 & Ekind & _). assert (c2 = c') as -> by congruence.
  assert (get_max_stack_size c' = get_max_stack_size c) as Emax by (unfold get_max_stack_size; by rewrite Ekind). split.
  - unfold slot_set, slot_put. rewrite Hc'. simpl. rewrite (set_item_in c' _ old); [done|exact (Hg _ _ Hc')|done|]. intros _.
    unfold get_max_stack_size_for_item. rewrite stack_ok_count by held. rewrite (max_stack_size_kind t s) by done. lia.
  - intros c3 Hc3. assert (c3 = c') as -> by congruence. lia.
Qed.

Lemma inventory_write m g i old t : menu_wf m g -> g_ok g -> slot_at g (NormalSlot (m_inventory m) i) old -> stack_ok t ->
  inventory_set m g i t = Some (slot_put g (NormalSlot (m_inventory m) i) t) /\ fits g (NormalSlot (m_inventory m) i) t.
Proof.
  intros Hwf Hg Hold Ht. pose proof Ht as (H1 & H2 & H3). change (inventory_set m g i t) with (slot_set g (NormalSlot (m_inventory m) i) t).
  pose proof Hold as (c & Hc & Hi). destruct (mw_inventory _ _ Hwf) as (c' & sel & Hc' & Hk).
  simpl in Hc, Hi. assert (c' = c) as -> by congruence.
  assert (slot_wf g (NormalSlot (m_inventory m) i)) as Hsw.
  { split; [|done]. exists c. split; [done|]. by eapply lookup_lt_Some. }
  assert (slot_max_for_item g (NormalSlot (m_inventory m) i) t = Some (Z.min 99 (max_stack_size t))) as Emax.
  { unfold slot_max_for_item, slot_max. simpl. rewrite Hc. simpl. unfold get_max_stack_size. by rewrite Hk. }
  destruct (decide (0 < count t)) as [Hp|Hp].
  - apply (slot_write g g _ old t t (Z.min 99 (max_stack_size t))); try done; [apply same_shape_refl|lia].
  - assert (is_empty t = true) as He by (rewrite stack_ok_empty by held; apply Z.leb_le; lia). split.
    + unfold slot_set, slot_put. simpl. rewrite Hc. simpl. rewrite (set_item_in c i old); [done|exact (Hg _ _ Hc)|done|]. by rewrite He.
    + intros c' Hc''. replace (count t) with 0 by lia. unfold get_max_stack_size. destruct (c_kind c'); lia.
Qed.

Lemma slot_at_key g a b x : physical_key a = physical_key b -> slot_at g a x -> slot_at g b x.
Proof. intros [= E1 E2] (c & Hc & Hx). exists c. by rewrite <- E1, <- E2. Qed.

Lemma slot_at_inj g sl x y : slot_at g sl x -> slot_at g sl y -> x = y.
Proof. intros (c & Hc & Hx) (c' & Hc' & Hy). congruence. Qed.

(** What a slot holds after another position was written. *)
Lemma slot_after_put g a b x y t : slot_at g a x -> slot_at g b y ->
  (physical_key a = physical_key b /\ x = y /\ slot_at (slot_put g a t) b t) \/ (physical_key a <> physical_key b /\ slot_at (slot_put g a t) b y).
Proof.
  intros Hx Hy. destruct (decide (physical_key a = physical_key b)) as [E|E]; [left|right].
  - split_and!; [done|by eapply slot_at_inj; [|exact Hy]; eapply slot_at_key|]. apply (slot_at_key _ a); [done|]. by eapply slot_put_at.
  - split; [done|]. by eapply slot_put_other.
Qed.

(** *** Swapping *)

Section Swap.
Context (m : Menu) (g : containers) (i : nat) (sl : Slot) (source target : ItemStack).
Let inv := NormalSlot (m_inventory m) i.
Hypothesis Hwf : menu_wf m g.
Hypothesis Hg : g_ok g.
Hypothesis Hsw : slot_wf g sl.
Hypothesis Hsource : slot_at g inv source.
Hypothesis Htarget : slot_at g sl target.

(** Two writes, first of the inventory and then of the slot, that leave [s] over. *)
Lemma swap_writes new placed s : stack_ok new -> fits g inv new -> stack_ok placed -> fits (slot_put g inv new) sl placed -> stack_ok s ->
  (forall r held, (physical_key inv = physical_key sl /\ source = target /\ held = new) \/ held = target ->
     amount r placed + amount r new + amount r s = amount r source + amount r held) ->
  exchanges g ItemStack_empty (slot_put (slot_put g inv new) sl placed) s.
Proof.
  intros Hnew Hfit Hplaced Hfit' Hs Hsum. destruct (slot_put_ok g inv source new) as (P1 & P2 & P3); try done.
  assert (exists held, slot_at (slot_put g inv new) sl held /\ ((physical_key inv = physical_key sl /\ source = target /\ held = new) \/ held = target))
    as (held & Hheld & Hcase) by (destruct (slot_after_put g inv sl source target new Hsource Htarget) as [(E & E' & ?)|[_ ?]]; eauto 8).
  destruct (slot_put_ok _ sl held placed P1 Hheld) as (Q1 & Q2 & Q3); try done.
  split; [done|by eapply same_shape_trans|done|]. intros r. rewrite Q3, P3. rewrite (amount_empty r ItemStack_empty) by done.
  specialize (Hsum r held Hcase). lia.
Qed.

Lemma inventory_split_at n : inventory_split m g i n = Some (slot_put g inv (split source n).1, (split source n).2).
Proof.
  destruct Hsource as (c & Hc & Hi). simpl in Hc, Hi. unfold inventory_split, slot_put. simpl. rewrite Hc. simpl. rewrite Hi. simpl.
  by rewrite (update_item_in c i source).
Qed.

(** The whole of the source fits, or nothing is placed. *)
Lemma swap_whole new placed max : stack_ok new -> stack_ok placed -> (same_kind placed source /\ slot_max_for_item g sl source = Some max /\ count placed <= max) \/ placed = ItemStack_empty ->
  (forall r held, (physical_key inv = physical_key sl /\ source = target /\ held = new) \/ held = target ->
     amount r placed + amount r new = amount r source + amount r held) ->
  exists g1 g', inventory_set m g i new = Some g1 /\ slot_set g1 sl placed = Some g' /\ exchanges g ItemStack_empty g' ItemStack_empty.
Proof.
  intros Hnew Hplaced Hk Hsum. destruct (inventory_write m g i source new Hwf Hg Hsource Hnew) as [-> Hfit]. fold inv in Hfit |- *.
  destruct (slot_put_ok g inv source new) as (P1 & P2 & P3); try done.
  assert (exists held, slot_at (slot_put g inv new) sl held) as [held Hheld]
    by (destruct (slot_after_put g inv sl source target new Hsource Htarget) as [(_ & _ & ?)|[_ ?]]; eauto).
  assert (slot_set (slot_put g inv new) sl placed = Some (slot_put (slot_put g inv new) sl placed) /\ fits (slot_put g inv new) sl placed) as [Eset Hfit'].
  { destruct Hk as [(Hk & Emax & Hle)| ->]; [by apply (slot_write g _ sl held source placed max)|]. split; [|apply fits_empty].
    apply (slot_set_empty _ sl held); [by eapply slot_wf_shape|done|done]. }
  eexists _, _. split; [done|]. split; [exact Eset|]. apply swap_writes; try held. intros r h Hh. rewrite (amount_empty r ItemStack_empty) by done. rewrite (Hsum r h Hh). lia.
Qed.

(** More than the slot takes: a part is placed, and the target is taken out. *)
Lemma swap_part max rest : slot_max_for_item g sl source = Some max -> 0 <= max < count source ->
  (is_empty target = true /\ rest = ItemStack_empty) \/ (is_empty target = false /\ rest = target) -> is_empty source = false ->
  exists g1 placed g', inventory_split m g i max = Some (g1, placed) /\ slot_set g1 sl placed = Some g' /\ exchanges g ItemStack_empty g' rest.
Proof.
  intros Emax Hmax Hrest Es. pose proof (slot_at_ok _ _ _ Hg Hsource) as Hs. pose proof (slot_at_ok _ _ _ Hg Htarget) as Ht.
  rewrite inventory_split_at. destruct (split_ok source max Hs ltac:(lia)) as [S1 S2].
  assert (fits g inv (split source max).1) as Hfit by (apply (slot_at_fits g inv source); [done|done|simpl; lia]).
  destruct (slot_put_ok g inv source (split source max).1) as (P1 & P2 & P3); try done.
  assert (physical_key inv <> physical_key sl /\ slot_at (slot_put g inv (split source max).1) sl target) as [Hne Hheld].
  { destruct (slot_after_put g inv sl source target (split source max).1 Hsource Htarget) as [(E & E' & _)|?]; [|done]. exfalso.
    pose proof (slot_max_held g sl target Hsw Hg Htarget) as Hle. rewrite <- E' in Hle. specialize (Hle ltac:(lia) source max ltac:(done) Emax). lia. }
  destruct (slot_write g _ sl target source (split source max).2 max P2 Hsw P1 Hheld S2 ltac:(done) Emax ltac:(simpl; lia)) as [Eset Hfit'].
  eexists _, _, _. split; [done|]. split; [exact Eset|].
  assert (stack_ok rest) as Hr by (destruct Hrest as [[_ ->]|[_ ->]]; held).
  apply swap_writes; try done. intros r h [(E & _)| ->]; [done|]. pose proof (split_amount r source max (stack_held _ Hs) ltac:(lia)).
  destruct Hrest as [[Et ->]|[_ ->]]; [rewrite (amount_empty r target), (amount_empty r ItemStack_empty) by done; lia|lia].
Qed.
End Swap.

(** What a swap displaces goes back into the inventory, or is dropped. *)
Lemma swap_displaced m st g' old : menu_ok m st -> exchanges (m_containers st) ItemStack_empty g' old ->
  exists st', (c ← g' !! m_inventory m; '(c, displaced, added) ← container_add c old;
               let st := set_containers st (<[m_inventory m := c]> g') in
               Some (if negb added && negb false then drop_item st displaced else st)) = Some st' /\ conserves m st st'.
Proof.
  intros Hst Hex. pose proof Hex as [X1 X2 X3 X4]. pose proof (menu_wf_shape _ _ _ X2 (mo_wf _ _ Hst)) as Hwf.
  destruct (inventory_add_ok m g' old Hwf X1 X3) as (c & c' & s' & -> & E & Hex'). cbn [mbind option_bind]. rewrite E. cbn [mbind option_bind].
  eexists. split; [done|]. destruct (set_containers_ok m st _ _ _ Hst (exchanges_trans _ _ _ _ _ _ Hex Hex')) as [H1 E1].
  destruct (is_empty s') eqn:Es; cbn [negb andb].
  - split; [done|]. intros r. specialize (E1 r). rewrite (amount_empty r s'), (amount_empty r ItemStack_empty) in E1 by done. lia.
  - destruct (drop_item_ok m _ s' H1) as [H2 E2]. split; [done|]. intros r. specialize (E1 r). rewrite E2.
    rewrite (amount_empty r ItemStack_empty) in E1 by done. lia.
Qed.

Lemma do_swap_ok m st slot target : menu_ok m st -> is_valid_for (Swap slot target) (length (m_slots m)) = true ->
  exists st', do_swap m false st slot target = Some st' /\ conserves m st st'.
Proof.
  intros Hst Hvalid. pose proof Hst as [Hwf Hg _ _ _]. apply andb_true_iff in Hvalid as [Hlt%bool_decide_eq_true_1 Hkey].
  destruct (slot_lookup m _ slot Hwf Hlt) as (sl & old & Hsl & Hsw & Hold). set (i := inventory_slot target).
  assert (i < CONTAINER_SIZE)%nat as Hi.
  { unfold i, inventory_slot, CONTAINER_SIZE. destruct target as [index|]; [apply Z.ltb_lt in Hkey|]; lia. }
  destruct (inventory_slot_ok m _ i Hwf Hg Hi) as (source & Hiw & Hsource). pose proof Hsource as (c & Hc & His). simpl in Hc, His.
  pose proof (slot_at_ok _ _ _ Hg Hold) as Ho. pose proof (slot_at_ok _ _ _ Hg Hsource) as Hs.
  unfold do_swap. fold i. rewrite Hsl. cbn [mbind option_bind]. rewrite (slot_get_at _ sl old) by done. cbn [mbind option_bind]. rewrite Hc.
  cbn [mbind option_bind]. rewrite (get_item_in c i source) by (try exact (Hg _ _ Hc); done). cbn [mbind option_bind].
  assert (exists st', Some st = Some st' /\ conserves m st st') as Hsame by (exists st; split; [done|by apply conserves_refl]).
  assert (forall g', exchanges (m_containers st) ItemStack_empty g' ItemStack_empty ->
    exists st', Some (set_containers st g') = Some st' /\ conserves m st st') as Hdone
    by (intros g' Hex; eexists; split; [done|]; by apply containers_conserve).
  destruct (is_empty source) eqn:Es; cbn [andb].
  { destruct (is_empty old) eqn:Eo; [done|]. destruct (may_pickup sl _); [|done].
    destruct (swap_whole m _ i sl source old Hwf Hg Hsw Hsource Hold old ItemStack_empty 0) as (g1 & g' & -> & Eset & Hex); try held; [by right|..].
    { intros r h Hh. rewrite (amount_empty r source), (amount_empty r ItemStack_empty) by done. by destruct Hh as [(_ & _ & ->)| ->]. }
    cbn [mbind option_bind]. rewrite Eset. by apply Hdone. }
  destruct (nonempty_max source Hs Es) as [Hp Hlim]. destruct (slot_max_ok _ sl source Hsw ltac:(lia)) as (max & Emax & Hmax & _).
  destruct (is_empty old) eqn:Eo.
  - destruct (may_place sl source); [|done]. rewrite Emax. cbn [mbind option_bind]. destruct (Z.ltb_spec max (count source)).
    + destruct (swap_part m _ i sl source old Hg Hsw Hsource Hold max ItemStack_empty Emax ltac:(lia)) as (g1 & placed & g' & -> & Eset & Hex); [by left|done|].
      cbn [mbind option_bind]. rewrite Eset. by apply Hdone.
    + destruct (swap_whole m _ i sl source old Hwf Hg Hsw Hsource Hold ItemStack_empty source max) as (g1 & g' & -> & Eset & Hex); try held; [by left|..].
      { intros r h Hh. rewrite (amount_empty r ItemStack_empty) by done. rewrite (amount_empty r h); [lia|]. by destruct Hh as [(_ & _ & ->)| ->]. }
      cbn [mbind option_bind]. rewrite Eset. by apply Hdone.
  - destruct (_ && _); [|done]. rewrite Emax. cbn [mbind option_bind]. destruct (Z.ltb_spec max (count source)).
    + destruct (swap_part m _ i sl source old Hg Hsw Hsource Hold max old Emax ltac:(lia)) as (g1 & placed & g' & -> & Eset & Hex); [by right|done|].
      cbn [mbind option_bind]. rewrite Eset. cbn [mbind option_bind]. by apply swap_displaced.
    + destruct (swap_whole m _ i sl source old Hwf Hg Hsw Hsource Hold old source max) as (g1 & g' & -> & Eset & Hex); try held; [by left|..].
      { intros r h Hh. destruct Hh as [(_ & _ & ->)| ->]; lia. }
      cbn [mbind option_bind]. rewrite Eset. by apply Hdone.
Qed.

(** ** Clicks *)

Lemma clicked_ok fuel m can_drop st click : menu_ok m st -> (99 <= fuel)%nat ->
  exists st', clicked fuel m false can_drop st click = Some st' /\ conserves m st st'.
Proof.
  intros Hst Hfuel. unfold clicked. destruct (is_valid_for click (length (m_slots m))) eqn:Hvalid; [|by eauto using conserves_refl].
  cbn [negb]. set (idle := if decide _ then _ else _). assert (conserves m st idle) as Hidle
    by (unfold idle; case_decide; [by apply conserves_refl|by apply reset_ok]).
  assert (forall r, (exists st', r = Some st' /\ conserves m idle st') -> exists st', r = Some st' /\ conserves m st st') as Hthen
    by (intros r (st' & -> & Hst'); eexists; split; [done|]; eapply conserves_trans; [exact Hidle|exact Hst']).
  destruct fuel as [|fuel]; [lia|]. destruct click as [slot button|button|slot|slot target|slot|slot whole|slot direction|action];
    [apply Hthen; pose proof (proj1 Hidle) as Hok..|by apply do_quick_craft_ok].
  - apply do_pickup_ok; [done|]. by apply bool_decide_eq_true_1 in Hvalid.
  - eexists. split; [done|]. by apply drop_carried_ok.
  - apply do_quick_move_ok; [done| |done]. by apply bool_decide_eq_true_1 in Hvalid.
  - by apply do_swap_ok.
  - exists idle. split; [done|]. by apply conserves_refl.
  - apply do_throw_ok; [done|]. by apply bool_decide_eq_true_1 in Hvalid.
  - apply do_pickup_all_ok; [done|]. by apply bool_decide_eq_true_1 in Hvalid.
Qed.

(** ** Closing *)

Lemma add_item_or_drop_ok m st s : menu_ok m st -> stack_ok s ->
  exists st', add_item_or_drop m st s = Some st' /\ menu_ok m st' /\ m_carried st' = m_carried st /\
    forall r, menu_total r st' = menu_total r st + amount r s.
Proof.
  intros Hst Hs. unfold add_item_or_drop. destruct (is_empty s) eqn:Es.
  { exists st. split_and!; try done. intros r. rewrite amount_empty by done. lia. }
  destruct (inventory_add_ok m (m_containers st) s) as (c & c' & s' & -> & E & Hex); [apply Hst|apply Hst|done|].
  cbn [mbind option_bind]. rewrite E. cbn [mbind option_bind]. destruct (set_containers_ok m st _ _ _ Hst Hex) as [H1 E1].
  destruct (is_empty s') eqn:Es'; cbn [negb orb].
  - eexists. split_and!; [done|done|done|]. intros r. specialize (E1 r). rewrite (amount_empty r s') in E1 by done. lia.
  - destruct (drop_item_ok m _ s' H1) as [H2 E2]. eexists. split_and!; [done|done| |].
    + unfold drop_item. by rewrite Es'.
    + intros r. specialize (E1 r). rewrite E2. lia.
Qed.

Lemma drop_item_full m st s : menu_ok m st ->
  exists st', Some (drop_item st s) = Some st' /\ menu_ok m st' /\ m_carried st' = m_carried st /\
    forall r, menu_total r st' = menu_total r st + amount r s.
Proof.
  intros Hst. destruct (drop_item_ok m st s Hst) as [H1 E1]. eexists. split_and!; [done|done| |done]. unfold drop_item. by destruct (is_empty s).
Qed.

Lemma drain_slot_ok m to_inventory slot st : menu_ok m st -> (slot < length (m_slots m))%nat ->
  exists st', drain_slot m to_inventory slot st = Some st' /\ conserves m st st' /\ m_carried st' = m_carried st.
Proof.
  intros Hst Hlt. pose proof Hst as [Hwf Hg _ _ _]. destruct (slot_lookup m _ slot Hwf Hlt) as (sl & old & Hsl & _ & Hold).
  pose proof (slot_at_ok _ _ _ Hg Hold) as Ho. unfold drain_slot. rewrite Hsl. cbn [mbind option_bind]. rewrite (slot_get_at _ sl old) by done.
  cbn [mbind option_bind]. rewrite (slot_update_at _ sl old) by done. cbn [mbind option_bind].
  assert (exchanges (m_containers st) ItemStack_empty (slot_put (m_containers st) sl ItemStack_empty) old) as Hex
    by (apply (slot_put_exchanges _ sl old); [done|done|held|apply fits_empty|done|]; intros r; lia).
  destruct (set_containers_ok m st _ _ _ Hst Hex) as [H1 E1]. setoid_rewrite (amount_empty _ ItemStack_empty) in E1; [|done].
  set (st1 := set_containers st _) in *. destruct (is_empty old) eqn:Eo.
  { eexists. split_and!; [done| |done]. split; [done|]. intros r. specialize (E1 r). rewrite (amount_empty r old) in E1 by done. lia. }
  assert (exists st', (if to_inventory then add_item_or_drop m st1 old else Some (drop_item st1 old)) = Some st' /\ menu_ok m st' /\
    m_carried st' = m_carried st1 /\ forall r, menu_total r st' = menu_total r st1 + amount r old)
    as (st' & -> & H2 & E2 & E3) by (destruct to_inventory; [by apply add_item_or_drop_ok|by apply drop_item_full]).
  eexists. split_and!; [done| |done]. split; [done|]. intros r. specialize (E1 r). rewrite E3. lia.
Qed.

Lemma menu_removed_ok m to_inventory st : menu_ok m st ->
  exists st', menu_removed m to_inventory st = Some st' /\ conserves m st st' /\ is_empty (m_carried st') = true.
Proof.
  intros Hst. unfold menu_removed. destruct (set_carried_ok m st ItemStack_empty Hst ltac:(held)) as [H1 E1].
  set (st1 := set_carried st ItemStack_empty) in *. pose proof (mo_carried _ _ Hst) as Hc.
  assert (exists st2, (if is_empty (m_carried st) then Some st1 else if to_inventory then add_item_or_drop m st1 (m_carried st)
    else Some (drop_item st1 (m_carried st))) = Some st2 /\ menu_ok m st2 /\ m_carried st2 = m_carried st1 /\
    forall r, menu_total r st2 = menu_total r st1 + amount r (m_carried st)) as (st2 & -> & H2 & Ec & E2).
  { destruct (is_empty (m_carried st)) eqn:Ee.
    - exists st1. split_and!; try done. intros r. rewrite (amount_empty r (m_carried st)) by done. lia.
    - destruct to_inventory; [by apply add_item_or_drop_ok|by apply drop_item_full]. }
  cbn [mbind option_bind]. assert (conserves m st st2 /\ is_empty (m_carried st2) = true) as [Hcons He].
  { split; [|by rewrite Ec]. split; [done|]. intros r. rewrite E2, E1. rewrite (amount_empty r ItemStack_empty) by done. lia. }
  destruct (for_each_ind (fun _ st' => conserves m st st' /\ is_empty (m_carried st') = true) (m_drain_sections m)
    (fun range => for_each (seq range.1 (range.2 - range.1)) (drain_slot m to_inventory)) st2) as (st' & -> & ? & ?); [done| |by eauto].
  intros pre [start stop] todo s Ep [Hs Hse]. simpl.
  assert (stop <= length (m_slots m))%nat as Hstop.
  { pose proof (mw_drains _ _ (mo_wf _ _ Hst)) as Hall. rewrite Forall_forall in Hall. apply (Hall (start, stop)). rewrite Ep. apply elem_of_app. right. by left. }
  apply (for_each_ind (fun _ st' => conserves m st st' /\ is_empty (m_carried st') = true)); [done|].
  intros pre' slot todo' s' Ep' [Hs' Hse']. destruct (drain_slot_ok m to_inventory slot s') as (s'' & -> & Hd & Ed).
  - apply Hs'.
  - assert (slot ∈ seq start (stop - start)) as [? ?]%elem_of_seq by (rewrite Ep'; apply elem_of_app; right; by left). lia.
  - eexists. split; [done|]. split; [|by rewrite Ed]. eapply conserves_trans; [exact Hs'|exact Hd].
Qed.

(** C5. Whatever a player without infinite materials clicks, and when the menu is closed after it,
    every click completes, and the number of items of every kind in the containers, on the
    cursor and dropped into the world stays the same; nothing is left on the cursor. *)
Theorem clicks_conserve_items fuel m can_drop to_inventory clicks st : menu_ok m st -> (99 <= fuel)%nat ->
  exists st1 st2, for_each clicks (fun click st => clicked fuel m false can_drop st click) st = Some st1 /\
    menu_removed m to_inventory st1 = Some st2 /\ menu_ok m st1 /\ menu_ok m st2 /\ is_empty (m_carried st2) = true /\
    forall r, menu_total r st1 = menu_total r st /\ menu_total r st2 = menu_total r st.
Proof.
  intros Hst Hfuel.
  destruct (for_each_ind (fun _ st' => conserves m st st') clicks (fun click st => clicked fuel m false can_drop st click) st)
    as (st1 & -> & [H1 E1]); [by apply conserves_refl| |].
  - intros pre click todo s _ Hs. destruct (clicked_ok fuel m can_drop s click (proj1 Hs) Hfuel) as (s' & -> & Hs').
    eexists. split; [done|]. eapply conserves_trans; [exact Hs|exact Hs'].
  - destruct (menu_removed_ok m to_inventory st1 H1) as (st2 & Er & [H2 E2] & He). exists st1, st2. split_and!; try done.
    intros r. by rewrite E2.
Qed.

End MenuItems.

(** A click that was parsed from a packet is valid for the menu it was parsed for, so its
    handlers never index a slot that does not exist. *)
Theorem parsed_click_valid slot_num button click_type slot_count click :
  Click_parse slot_num button click_type slot_count = Some click -> is_valid_for click slot_count = true.
Proof.
  unfold Click_parse. destruct (_ && (_ <=? slot_num)); [done|].
  assert (forall slot, (if (0 <=? slot_num) && (slot_num <? Z.of_nat slot_count) then Some (Z.to_nat slot_num) else None) = Some slot ->
    slot_below slot slot_count = true) as Hslot.
  { intros slot. destruct (_ && _) eqn:E; [|done]. intros [= <-]. apply andb_true_iff in E as [?%Z.leb_le ?%Z.ltb_lt].
    apply bool_decide_eq_true_2. lia. }
  destruct click_type; intros E; repeat first [progress simplify_option_eq | case_match]; try done; eauto;
    simpl; rewrite Hslot by done; [|done]. rewrite !andb_true_iff, !Z.leb_le in *. split; [done|]. apply Z.ltb_lt. lia.
Qed.

