(* ===== verification/MenuBuilder.v ===== *)
(** * Building menus

    Models [steel-core/src/inventory/menu/builder.rs] and the chest menu of
    [menu/kinds/chest_menu.rs].  A handle to a section is the range of its slots; handles
    are only made by the builder that uses them.  Sections claim the positions they cover,
    those of the player's inventory excepted.  The theorems show what holds of every menu
    the builder lets pass, and give a chest menu for the theorems on clicks.  Grids, result
    slots and data slots are not modelled. *)

From stdpp Require Import strings.
From S2P Require Import Prelude Float32 Items Containers Menus MenuItems.

Section MenuBuilder.
Context `{ItemRegistry}.

Abbreviation containers := (gmap Z Container).
Implicit Types g : containers.

Inductive SectionKind :=
| SkNormal
| SkRestricted (place : nat -> ItemStack -> bool) (pickup : option (nat -> ItemStack -> containers -> bool))
| SkDisplay
| SkCustom (factory : Z -> nat -> Slot).

Definition take_only : SectionKind := SkRestricted (fun _ _ => false) None.

Definition section_make (kind : SectionKind) (container : Z) (index : nat) : Slot :=
  match kind with
  | SkNormal => NormalSlot container index
  | SkRestricted place pickup => RestrictedSlot container index place pickup
  | SkDisplay => RestrictedSlot container index (fun _ _ => false) (Some (fun _ _ _ => false))
  | SkCustom factory => factory container index
  end.

Abbreviation range := (nat * nat)%type.

(** [mb_slot_count] is what the menu type declares. *)
Record MenuBuilder := mkBuilder {
  mb_slot_count : option nat;
  mb_slots : list Slot;
  mb_routes : list Route;
  mb_drain_sections : list range;
  claimed : list (Z * range);
}.
Implicit Types b : MenuBuilder.

Definition MenuBuilder_new (slot_count : option nat) : MenuBuilder := mkBuilder slot_count [] [] [] [].

(** A whole container, or the slots of it that are not carved yet. *)
Inductive SectionSource := WholeContainer (container : Z) | ContainerSlots (container : Z) (next size : nat).

Definition builder_split g (container : Z) : option SectionSource :=
  c ← g !! container; Some (ContainerSlots container 0 (length (items c))).

Definition source_take (source : SectionSource) (n : nat) : option (Z * range * SectionSource) :=
  match source with
  | WholeContainer container => Some (container, (0%nat, n), source)
  | ContainerSlots container next size =>
      if decide (next + n <= size)%nat
      then Some (container, (next, next + n)%nat, ContainerSlots container (next + n) size)
      else None
  end.

Definition overlaps (x y : range) : bool := bool_decide (x.1 < y.2)%nat && bool_decide (y.1 < x.2)%nat.

Definition claim g b (container : Z) (r : range) : option MenuBuilder :=
  c ← g !! container;
  if decide (r.2 <= length (items c))%nat then
    if forallb (fun '(other_id, other) => negb (bool_decide (other_id = container) && overlaps r other)) (claimed b)
    then Some (mkBuilder (mb_slot_count b) (mb_slots b) (mb_routes b) (mb_drain_sections b) (claimed b ++ [(container, r)]))
    else None
  else None.

Definition push_section_slot (slot : Slot) (container : Z) (index : nat) b : option MenuBuilder :=
  if decide (physical_key slot = (container, index))
  then Some (mkBuilder (mb_slot_count b) (mb_slots b ++ [slot]) (mb_routes b) (mb_drain_sections b) (claimed b))
  else None.

Definition section_from b (start : nat) : range := (start, length (mb_slots b)).

Definition section_with g b (source : SectionSource) (n : nat) (kind : SectionKind) : option (MenuBuilder * range * SectionSource) :=
  '(container, r, source) ← source_take source n;
  b ← claim g b container r;
  let start := length (mb_slots b) in
  b ← for_each (seq r.1 (r.2 - r.1)) (fun index b => push_section_slot (section_make kind container index) container index b) b;
  Some (b, section_from b start, source).

(** [section_with] over all slots of a container. *)
Definition section_all_with g b (container : Z) (kind : SectionKind) : option (MenuBuilder * range) :=
  c ← g !! container;
  '(b, section, _) ← section_with g b (WholeContainer container) (length (items c)) kind;
  Some (b, section).

(** The loop of [section_at]: slots are pushed one by one, and a run of consecutive indices is
    claimed once it ends. *)
Fixpoint section_at_loop g (container : Z) (kind : SectionKind) (indices : list nat) (run : option range) b : option MenuBuilder :=
  match indices with
  | [] => match run with Some r => claim g b container r | None => Some b end
  | index :: indices =>
      '(r, b) ← match run with
                | Some (first, next) =>
                    if decide (index = next) then Some ((first, S next), b)
                    else b ← claim g b container (first, next); Some ((index, S index), b)
                | None => Some ((index, S index), b)
                end;
      b ← push_section_slot (section_make kind container index) container index b;
      section_at_loop g container kind indices (Some r) b
  end.
Definition section_at g b (container : Z) (indices : list nat) (kind : SectionKind) : option (MenuBuilder * range) :=
  let start := length (mb_slots b) in
  b ← section_at_loop g container kind indices None b;
  Some (b, section_from b start).

Definition MAIN : range := (9, 36)%nat.
Definition HOTBAR : range := (0, 9)%nat.

Record PlayerInventorySections := mkPlayerSections { ps_all : range; ps_main : range; ps_hotbar : range }.

Definition player_inventory_with b (inventory : Z) (kind : SectionKind) : option (MenuBuilder * PlayerInventorySections) :=
  let start := length (mb_slots b) in
  b ← for_each (seq MAIN.1 (MAIN.2 - MAIN.1) ++ seq HOTBAR.1 (HOTBAR.2 - HOTBAR.1))
        (fun index b => push_section_slot (section_make kind inventory index) inventory index b) b;
  let main := (start, start + (MAIN.2 - MAIN.1))%nat in
  Some (b, mkPlayerSections (start, length (mb_slots b)) main (start + (MAIN.2 - MAIN.1), length (mb_slots b))%nat).

Definition route_from (targets : list range) (direction : FillDirection) (from : range) b : option MenuBuilder :=
  if existsb (fun r => overlaps (r_from r) from) (mb_routes b) then None
  else if existsb (fun t => overlaps t from) targets then None
  else Some (mkBuilder (mb_slot_count b) (mb_slots b) (mb_routes b ++ [mkRoute from targets direction])
               (mb_drain_sections b) (claimed b)).

Definition route b (from targets : list range) (direction : FillDirection) : option MenuBuilder :=
  for_each from (route_from targets direction) b.

Definition drain b (sections : list range) : MenuBuilder :=
  mkBuilder (mb_slot_count b) (mb_slots b) (mb_routes b) (mb_drain_sections b ++ sections) (claimed b).

(** The kinds of menus that are modelled allow every drag and every collection. *)
Definition build b (inventory : Z) : option Menu :=
  match mb_slot_count b with
  | Some n => if decide (length (mb_slots b) = n)
              then Some (mkMenu (mb_slots b) (mb_routes b) (mb_drain_sections b) inventory (fun _ => true) (fun _ _ => true))
              else None
  | None => Some (mkMenu (mb_slots b) (mb_routes b) (mb_drain_sections b) inventory (fun _ => true) (fun _ _ => true))
  end.

(** [menu_type_for_rows] looks the slot count of the menu type up. *)
Definition chest g (menu_type_for_rows : nat -> nat) (inventory container : Z) (rows : nat) : option Menu :=
  if decide (1 <= rows <= 6)%nat then
    '(b, chest, _) ← section_with g (MenuBuilder_new (Some (menu_type_for_rows rows))) (WholeContainer container) (rows * 9) SkNormal;
    '(b, player) ← player_inventory_with b inventory SkNormal;
    b ← route b [chest] [ps_all player] Backward;
    b ← route b [ps_all player] [chest] Forward;
    build b inventory
  else None.

(** ** Menus that are built are well-formed *)

Definition apart (l : list range) : Prop := forall i j x y, (i < j)%nat -> l !! i = Some x -> l !! j = Some y -> overlaps x y = false.

Lemma apart_snoc l y : apart l -> Forall (fun x => overlaps x y = false) l -> apart (l ++ [y]).
Proof.
  intros Hl Hy i j x z Hlt Hx Hz. apply lookup_snoc_Some in Hz as [[Hj Hz]|[-> <-]].
  - rewrite lookup_app_l in Hx by lia. exact (Hl i j x z Hlt Hx Hz).
  - rewrite lookup_app_l in Hx by lia. exact (Forall_lookup_1 _ _ _ _ Hy Hx).
Qed.

(** A position of a container that there is. *)
Definition position_exists g (p : Z * nat) : Prop := exists c, g !! p.1 = Some c /\ (p.2 < length (items c))%nat.

Definition positions (container : Z) (r : range) : list (Z * nat) := pair container <$> seq r.1 (r.2 - r.1).
Definition claimed_positions b : list (Z * nat) := flat_map (fun '(container, r) => positions container r) (claimed b).

(** Slots come from sections that claim what they cover, or from the player's inventory, which
    several sections may show. *)
Inductive slot_origin := FromSection | FromPlayerInventory.

Definition section_keys (l : list (slot_origin * Slot)) : list (Z * nat) :=
  omap (fun '(origin, slot) => match origin with FromSection => Some (physical_key slot) | FromPlayerInventory => None end) l.

(** No position is claimed twice. *)
Record claims_ok g b : Prop := {
  cl_nodup : NoDup (claimed_positions b);
  cl_exist : Forall (position_exists g) (claimed_positions b);
}.

Record builder_ok g b (handles : list range) (origins : list slot_origin) : Prop := {
  bo_slots : Forall (fun slot => position_exists g (physical_key slot)) (mb_slots b);
  bo_origins : length origins = length (mb_slots b);
  bo_claims : claims_ok g b;
  bo_covered : section_keys (zip origins (mb_slots b)) ≡ₚ claimed_positions b;
  bo_handles : Forall (fun r => r.2 <= length (mb_slots b))%nat handles;
  bo_routes : Forall (fun r => Forall (fun t => t.2 <= length (mb_slots b))%nat (r_targets r)) (mb_routes b);
  bo_drains : Forall (fun r => r.2 <= length (mb_slots b))%nat (mb_drain_sections b);
  bo_sources : apart (r_from <$> mb_routes b);
  bo_targets : Forall (fun r => Forall (fun t => overlaps t (r_from r) = false) (r_targets r)) (mb_routes b);
}.

(** What a builder goes through, with the handles it gave out and where its slots come from. *)
Inductive builds g : MenuBuilder -> list range -> list slot_origin -> Prop :=
| builds_new n : builds g (MenuBuilder_new n) [] []
| builds_section b handles origins source n kind b' section source' : builds g b handles origins ->
    section_with g b source n kind = Some (b', section, source') ->
    builds g b' (section :: handles) (origins ++ replicate (length (mb_slots b') - length (mb_slots b)) FromSection)
| builds_section_at b handles origins container indices kind b' section : builds g b handles origins ->
    section_at g b container indices kind = Some (b', section) ->
    builds g b' (section :: handles) (origins ++ replicate (length (mb_slots b') - length (mb_slots b)) FromSection)
| builds_player b handles origins inventory c selected kind b' sections : builds g b handles origins ->
    g !! inventory = Some c -> c_kind c = PlayerInventory selected -> container_ok c ->
    player_inventory_with b inventory kind = Some (b', sections) ->
    builds g b' (ps_all sections :: ps_main sections :: ps_hotbar sections :: handles)
      (origins ++ replicate (length (mb_slots b') - length (mb_slots b)) FromPlayerInventory)
| builds_route b handles origins from targets direction b' : builds g b handles origins -> from ⊆ handles -> targets ⊆ handles ->
    route b from targets direction = Some b' -> builds g b' handles origins
| builds_drain b handles origins sections : builds g b handles origins -> sections ⊆ handles -> builds g (drain b sections) handles origins.

(** *** Claims *)

Lemma elem_of_positions container r p : p ∈ positions container r <-> p.1 = container /\ (r.1 <= p.2 < r.2)%nat.
Proof.
  unfold positions. rewrite list_elem_of_fmap. setoid_rewrite elem_of_seq. destruct p as [id i]. simpl. split.
  - intros (y & [= -> ->] & ?). split; [done|lia].
  - intros [-> ?]. exists i. split; [done|lia].
Qed.

Lemma positions_NoDup container r : NoDup (positions container r).
Proof. apply NoDup_fmap_2; [by intros x y [=]|apply NoDup_seq]. Qed.

Lemma positions_snoc container first next : (first <= next)%nat -> positions container (first, S next) = positions container (first, next) ++ [(container, next)].
Proof.
  intros Hle. unfold positions. simpl. rewrite Nat.sub_succ_l by done. rewrite seq_S, fmap_app. simpl. by replace (first + (next - first))%nat with next by lia.
Qed.

Lemma elem_of_claimed b p : p ∈ claimed_positions b <-> exists container r, (container, r) ∈ claimed b /\ p ∈ positions container r.
Proof.
  unfold claimed_positions. rewrite list_elem_of_In, in_flat_map. split.
  - intros ([container r] & Hin & Hp). exists container, r. by rewrite !list_elem_of_In.
  - intros (container & r & Hin & Hp). exists (container, r). by rewrite <- !list_elem_of_In.
Qed.

Lemma claim_spec g b container r b' : claim g b container r = Some b' -> claims_ok g b ->
  b' = mkBuilder (mb_slot_count b) (mb_slots b) (mb_routes b) (mb_drain_sections b) (claimed b ++ [(container, r)]) /\
  claims_ok g b' /\ claimed_positions b' = claimed_positions b ++ positions container r.
Proof.
  intros E [Hnd Hex]. unfold claim in E. destruct (g !! container) as [c|] eqn:Hc; [|done]. simpl in E. case_decide as Hsize; [|done].
  destruct (forallb _ _) eqn:Ef; [|done]. injection E as <-. split; [done|].
  assert (forall l, flat_map (fun '(container, r) => positions container r) (l ++ [(container, r)]) =
    flat_map (fun '(container, r) => positions container r) l ++ positions container r) as Eapp.
  { intros l. rewrite flat_map_app. simpl. by rewrite app_nil_r. }
  split; [|by apply Eapp]. split; unfold claimed_positions; simpl; rewrite Eapp.
  - apply NoDup_app. split; [done|]. split; [|apply positions_NoDup]. intros [id i] (id' & r' & Hin & Hp)%elem_of_claimed Hr.
    apply elem_of_positions in Hp as [Hid Hp], Hr as [Hid' Hr]. simpl in *. subst id id'. rewrite forallb_forall in Ef. apply list_elem_of_In in Hin.
    specialize (Ef _ Hin). simpl in Ef. rewrite bool_decide_true in Ef by done. apply negb_true_iff in Ef. simpl in Ef. unfold overlaps in Ef.
    rewrite !bool_decide_true in Ef by lia. done.
  - apply Forall_app. split; [done|]. apply Forall_forall. intros p [Hid Hp]%elem_of_positions. exists c. rewrite Hid. split; [done|lia].
Qed.

(** *** Slots *)

Lemma push_spec kind container index b b' : push_section_slot (section_make kind container index) container index b = Some b' ->
  b' = mkBuilder (mb_slot_count b) (mb_slots b ++ [section_make kind container index]) (mb_routes b) (mb_drain_sections b) (claimed b) /\
  physical_key (section_make kind container index) = (container, index).
Proof. unfold push_section_slot. case_decide; [|done]. by intros [= <-]. Qed.

(** A builder with more slots, and nothing else new but claims. *)
Record pushed b (keys : list (Z * nat)) b' : Prop := {
  pu_slots : exists l, mb_slots b' = mb_slots b ++ l /\ physical_key <$> l = keys;
  pu_routes : mb_routes b' = mb_routes b;
  pu_drains : mb_drain_sections b' = mb_drain_sections b;
}.

Lemma pushed_trans b1 keys b2 keys' b3 : pushed b1 keys b2 -> pushed b2 keys' b3 -> pushed b1 (keys ++ keys') b3.
Proof.
  intros [(l & E & K) R D] [(l' & E' & K') R' D']. split; [|congruence|congruence]. exists (l ++ l'). split; [by rewrite E', E, app_assoc|].
  by rewrite fmap_app, K, K'.
Qed.

Lemma pushed_nothing b b' : mb_slots b' = mb_slots b -> mb_routes b' = mb_routes b -> mb_drain_sections b' = mb_drain_sections b -> pushed b [] b'.
Proof. intros E R D. split; [|done|done]. exists []. by rewrite app_nil_r. Qed.

Lemma push_pushed kind container index b b' : push_section_slot (section_make kind container index) container index b = Some b' ->
  pushed b [(container, index)] b' /\ claimed b' = claimed b.
Proof. intros [-> K]%push_spec. split; [|done]. split; [|done|done]. exists [section_make kind container index]. simpl. by rewrite K. Qed.

Lemma push_all_pushed kind container indices b b' :
  for_each indices (fun index b => push_section_slot (section_make kind container index) container index b) b = Some b' ->
  pushed b (pair container <$> indices) b' /\ claimed b' = claimed b.
Proof.
  revert b. induction indices as [|index indices IH]; intros b E; simpl in E; [injection E as <-; split; [by apply pushed_nothing|done]|].
  destruct (push_section_slot _ _ _ b) as [b1|] eqn:E1; [|done]. simpl in E. apply IH in E as [H2 C2]. apply push_pushed in E1 as [H1 C1].
  split; [|congruence]. exact (pushed_trans _ _ _ _ _ H1 H2).
Qed.

Lemma section_at_pushed g container kind indices run b b' : section_at_loop g container kind indices run b = Some b' ->
  claims_ok g b -> (forall first next, run = Some (first, next) -> first <= next)%nat ->
  pushed b (pair container <$> indices) b' /\ claims_ok g b' /\
  claimed_positions b' = claimed_positions b ++ (match run with Some r => positions container r | None => [] end) ++ (pair container <$> indices).
Proof.
  revert run b. induction indices as [|index indices IH]; intros run b E Hc Hrun; cbn [section_at_loop] in E.
  { destruct run as [r|]; [|injection E as <-; split; [by apply pushed_nothing|]; by rewrite !app_nil_r].
    destruct (claim_spec _ _ _ _ _ E Hc) as (-> & Hc' & ->). split; [by apply pushed_nothing|]. by rewrite app_nil_r. }
  assert (forall r b1 prefix, (r.1 <= r.2)%nat -> claims_ok g b1 -> pushed b [] b1 ->
    (b ← push_section_slot (section_make kind container index) container index b1; section_at_loop g container kind indices (Some r) b) = Some b' ->
    claimed_positions b1 ++ positions container r = prefix ++ [(container, index)] ->
    pushed b (pair container <$> index :: indices) b' /\ claims_ok g b' /\ claimed_positions b' = prefix ++ (pair container <$> index :: indices)) as Hgo.
  { intros r b1 prefix Hr Hc1 P1 E1 Ep. destruct (push_section_slot _ _ _ b1) as [b2|] eqn:E2; [|done]. cbn [mbind option_bind] in E1.
    apply push_pushed in E2 as [P2 C2]. assert (claimed_positions b2 = claimed_positions b1) as Cp by (unfold claimed_positions; by rewrite C2).
    destruct (IH (Some r) b2 E1) as (P3 & Hc3 & ->); [destruct Hc1; split; by rewrite Cp|by intros x y [= ->]|].
    split; [exact (pushed_trans _ _ _ _ _ P1 (pushed_trans _ _ _ _ _ P2 P3))|]. split; [done|].
    by rewrite Cp, app_assoc, Ep, <- app_assoc. }
  assert (positions container (index, S index) = [(container, index)]) as Eone by (rewrite positions_snoc by done; unfold positions; simpl; by rewrite Nat.sub_diag).
  destruct run as [[first next]|]; cbn [mbind option_bind] in E.
  - specialize (Hrun first next eq_refl). case_decide as Ei; cbn [mbind option_bind] in E.
    + subst index. rewrite app_assoc. eapply Hgo; [|exact Hc|by apply pushed_nothing|exact E|]; [simpl; lia|]. by rewrite positions_snoc, app_assoc.
    + destruct (claim g b container (first, next)) as [b1|] eqn:E1; [|done]. cbn [mbind option_bind] in E.
      destruct (claim_spec _ _ _ _ _ E1 Hc) as (-> & Hc1 & Cp). rewrite app_assoc, <- Cp. eapply Hgo; [|exact Hc1|by apply pushed_nothing|exact E|]; [simpl; lia|].
      by rewrite Eone.
  - cbn [app]. eapply Hgo; [|exact Hc|by apply pushed_nothing|exact E|]; [simpl; lia|]. by rewrite Eone.
Qed.

(** *** Builders *)

Lemma ranges_below_app {A} (l l' : list A) (rs : list range) :
  Forall (fun r => r.2 <= length l)%nat rs -> Forall (fun r => r.2 <= length (l ++ l'))%nat rs.
Proof. intros Hrs. rewrite length_app. eapply Forall_impl; [exact Hrs|]. intros [x y] Hr. simpl in *. lia. Qed.

Lemma section_keys_app l l' : section_keys (l ++ l') = section_keys l ++ section_keys l'.
Proof. apply omap_app. Qed.

Lemma section_keys_all (l : list Slot) : section_keys (zip (replicate (length l) FromSection) l) = physical_key <$> l.
Proof. induction l as [|x l IH]; [done|]. simpl. unfold section_keys in *. simpl. by rewrite IH. Qed.
Lemma section_keys_none (l : list Slot) : section_keys (zip (replicate (length l) FromPlayerInventory) l) = [].
Proof. induction l as [|x l IH]; [done|]. simpl. unfold section_keys in *. simpl. by rewrite IH. Qed.

Lemma pushed_ok g b handles origins keys b' origin : builder_ok g b handles origins -> pushed b keys b' -> claims_ok g b' ->
  Forall (position_exists g) keys ->
  claimed_positions b' = claimed_positions b ++ (match origin with FromSection => keys | FromPlayerInventory => [] end) ->
  builder_ok g b' handles (origins ++ replicate (length (mb_slots b') - length (mb_slots b)) origin) /\ length (mb_slots b') = (length (mb_slots b) + length keys)%nat.
Proof.
  intros [H1 H2 H3 H4 H5 H6 H7 H8 H9] [(l & E & K) R D] Hc Hk Ecl.
  assert (length l = length keys) as Hlen by (by rewrite <- K, length_fmap).
  assert (length (mb_slots b') = (length (mb_slots b) + length l)%nat) as El by (by rewrite E, length_app).
  rewrite El. replace (length (mb_slots b) + length l - length (mb_slots b))%nat with (length l) by lia. split; [|by rewrite <- Hlen].
  split; rewrite ?R, ?D, ?E; try done.
  - apply Forall_app. split; [done|]. rewrite <- K, Forall_fmap in Hk. exact Hk.
  - rewrite !length_app, length_replicate. lia.
  - rewrite zip_with_app by done. rewrite section_keys_app, H4, Ecl. apply Permutation_app_head.
    destruct origin; [by rewrite section_keys_all, K|by rewrite section_keys_none].
  - by apply ranges_below_app.
  - eapply Forall_impl; [exact H6|]. intros r Hr. by apply ranges_below_app.
  - by apply ranges_below_app.
Qed.

Lemma handle_ok g b handles origins section : builder_ok g b handles origins -> (section.2 <= length (mb_slots b))%nat -> builder_ok g b (section :: handles) origins.
Proof. intros [H1 H2 H3 H4 H5 H6 H7 H8 H9] Hs. split; try done. by constructor. Qed.

Lemma section_with_ok g b handles origins source n kind b' section source' : builder_ok g b handles origins ->
  section_with g b source n kind = Some (b', section, source') ->
  builder_ok g b' (section :: handles) (origins ++ replicate (length (mb_slots b') - length (mb_slots b)) FromSection).
Proof.
  intros Hb E. unfold section_with in E. destruct (source_take source n) as [[[container r] src]|]; [|done]. simpl in E.
  destruct (claim g b container r) as [b1|] eqn:E1; [|done]. destruct (claim_spec _ _ _ _ _ E1 (bo_claims _ _ _ _ Hb)) as (Eb & [Hn Hx] & Cp).
  simpl in E. destruct (for_each _ _ b1) as [b2|] eqn:E2; [|done]. simpl in E. injection E as <- <- <-.
  apply push_all_pushed in E2 as [P2 C2]. fold (positions container r) in P2. assert (claimed_positions b2 = claimed_positions b1) as Cp2 by (unfold claimed_positions; by rewrite C2).
  rewrite Cp in Cp2. destruct (pushed_ok g b handles origins (positions container r) b2 FromSection Hb) as [Hb2 _]; [|split; by rewrite Cp2, <- Cp| |done|by apply handle_ok].
  - apply (pushed_trans _ [] b1 _ b2); [by apply pushed_nothing; rewrite Eb|done].
  - rewrite Cp in Hx. by apply Forall_app in Hx as [_ Hx].
Qed.

Lemma section_at_ok g b handles origins container indices kind b' section : builder_ok g b handles origins ->
  section_at g b container indices kind = Some (b', section) ->
  builder_ok g b' (section :: handles) (origins ++ replicate (length (mb_slots b') - length (mb_slots b)) FromSection).
Proof.
  intros Hb E. unfold section_at in E. destruct (section_at_loop _ _ _ _ _ _) as [b1|] eqn:E1; [|done]. simpl in E. injection E as <- <-.
  destruct (section_at_pushed _ _ _ _ _ _ _ E1 (bo_claims _ _ _ _ Hb)) as (P & Hc & Cp); [done|]. simpl in Cp.
  destruct (pushed_ok g b handles origins _ b1 FromSection Hb P Hc) as [Hb1 _]; [|done|by apply handle_ok].
  destruct Hc as [_ Hx]. rewrite Cp in Hx. by apply Forall_app in Hx as [_ Hx].
Qed.

Lemma route_ok g b handles origins from targets direction b' : builder_ok g b handles origins -> from ⊆ handles -> targets ⊆ handles ->
  route b from targets direction = Some b' -> builder_ok g b' handles origins.
Proof.
  intros Hb _ Ht. unfold route. revert b Hb. induction from as [|r from IH]; intros b Hb E; simpl in E; [by injection E as <-|].
  destruct (route_from targets direction r b) as [b1|] eqn:E1; [|done]. simpl in E. apply (IH b1); [|done]. clear IH E.
  unfold route_from in E1. destruct (existsb _ (mb_routes b)) eqn:X1; [done|]. destruct (existsb _ targets) eqn:X2; [done|]. injection E1 as <-.
  destruct Hb as [H1 H2 [Hn Hx] H4 H5 H6 H7 H8 H9]. apply not_true_iff_false in X1. apply not_true_iff_false in X2. rewrite existsb_exists in X1, X2. split; simpl; try done.
  - apply Forall_app. split; [done|]. constructor; [|done]. simpl. rewrite Forall_forall in *. auto.
  - rewrite fmap_app. apply apart_snoc; [done|]. apply Forall_fmap, Forall_forall. intros x Hin%list_elem_of_In.
    apply not_true_iff_false. intros Ho. apply X1. by exists x.
  - apply Forall_app. split; [done|]. constructor; [|done]. simpl. apply Forall_forall. intros t Hin%list_elem_of_In.
    apply not_true_iff_false. intros Ho. apply X2. by exists t.
Qed.

Lemma player_inventory_ok g b handles origins inventory c selected kind b' sections : builder_ok g b handles origins ->
  g !! inventory = Some c -> c_kind c = PlayerInventory selected -> container_ok c ->
  player_inventory_with b inventory kind = Some (b', sections) ->
  builder_ok g b' (ps_all sections :: ps_main sections :: ps_hotbar sections :: handles)
    (origins ++ replicate (length (mb_slots b') - length (mb_slots b)) FromPlayerInventory).
Proof.
  intros Hb Hc Ekind Hok E. unfold player_inventory_with in E. destruct (for_each _ _ b) as [b1|] eqn:E1; [|done]. simpl in E. injection E as <- <-.
  apply push_all_pushed in E1 as [P C]. assert (claimed_positions b1 = claimed_positions b) as Cp by (unfold claimed_positions; by rewrite C).
  destruct (pushed_ok g b handles origins _ b1 FromPlayerInventory Hb P) as [Hb1 Hl].
  - destruct (bo_claims _ _ _ _ Hb). split; by rewrite Cp.
  - pose proof (co_size _ Hok) as Hsize. rewrite Ekind in Hsize. destruct Hsize as [Hsize _]. unfold CONTAINER_SIZE in Hsize.
    apply Forall_fmap, Forall_forall. intros i [[? ?]%elem_of_seq|[? ?]%elem_of_seq]%elem_of_app; simpl in *; exists c; (split; [done|simpl; lia]).
  - by rewrite app_nil_r.
  - simpl in Hl. repeat (apply handle_ok; [|simpl; lia]). done.
Qed.

Lemma builds_ok g b handles origins : builds g b handles origins -> builder_ok g b handles origins.
Proof.
  induction 1 as [n|b handles origins source n kind b' section source' _ IH E|b handles origins container indices kind b' section _ IH E
    |b handles origins inventory c selected kind b' sections _ IH Hc Ek Hok E
    |b handles origins from targets direction b' _ IH Hf Ht E|b handles origins sections _ IH Hs].
  - split; simpl; try constructor; [constructor|constructor|intros i j x y _ E; done].
  - eapply section_with_ok; [exact IH|exact E].
  - eapply section_at_ok; [exact IH|exact E].
  - eapply player_inventory_ok; [exact IH|exact Hc|exact Ek|exact Hok|exact E].
  - eapply route_ok; [exact IH|exact Hf|exact Ht|exact E].
  - destruct IH as [H1 H2 [Hn Hx] H4 H5 H6 H7 H8 H9]. split; simpl; try done. apply Forall_app. split; [done|]. rewrite Forall_forall in *. auto.
Qed.

Lemma build_menu b inventory m : build b inventory = Some m ->
  m = mkMenu (mb_slots b) (mb_routes b) (mb_drain_sections b) inventory (fun _ => true) (fun _ _ => true).
Proof. unfold build. destruct (mb_slot_count b); [case_decide; [|done]|]; by intros [= <-]. Qed.

Lemma build_wf g b handles origins inventory m : builder_ok g b handles origins -> build b inventory = Some m ->
  (exists c selected, g !! inventory = Some c /\ c_kind c = PlayerInventory selected) ->
  Forall (fun slot => sl_cap slot = None) (m_slots m) -> menu_wf m g.
Proof.
  intros Hb E%build_menu Hinv Hcap. subst m. destruct Hb. split; try done. simpl in *. rewrite Forall_forall in *. intros slot Hin. split; [|auto].
  by apply bo_slots0.
Qed.

(** Two slots of claiming sections show different positions. *)
Lemma section_keys_apart l i j slot slot' : NoDup (section_keys l) -> i <> j ->
  l !! i = Some (FromSection, slot) -> l !! j = Some (FromSection, slot') -> physical_key slot <> physical_key slot'.
Proof.
  revert i j. induction l as [|[origin x] l IH]; intros i j Hnd Hij Hi Hj; [done|].
  assert (forall k s, l !! k = Some (FromSection, s) -> physical_key s ∈ section_keys l) as Hin.
  { intros k s Hk. apply list_elem_of_omap. exists (FromSection, s). split; [by eapply list_elem_of_lookup_2|done]. }
  unfold section_keys in *. simpl in Hnd. destruct i as [|i], j as [|j]; simplify_eq/=; [|intros E|].
  - apply NoDup_cons in Hnd as [Hn _]. intros E. apply Hn. rewrite E. by eapply Hin.
  - apply NoDup_cons in Hnd as [Hn _]. apply Hn. rewrite <- E. by eapply Hin.
  - apply (IH i j); [|congruence|done|done]. destruct origin; [by apply NoDup_cons in Hnd as [_ ?]|done].
Qed.

(** C27. A menu that the builder lets pass has slots that view positions that exist, and routes and
    drained sections that stay within its slots; no two routes start at one slot and no
    route leads back to where it starts.  Two slots may view the same position only if one
    of them belongs to a section of the player's inventory, which claims nothing.  When no
    slot has a limit of its own the menu is well-formed. *)
Theorem built_menu_wf g b handles origins inventory m : builds g b handles origins -> build b inventory = Some m ->
  (exists c selected, g !! inventory = Some c /\ c_kind c = PlayerInventory selected) ->
  (Forall (fun slot => sl_cap slot = None) (m_slots m) -> menu_wf m g) /\
  Forall (fun slot => position_exists g (physical_key slot)) (m_slots m) /\
  Forall (fun r => Forall (fun t => t.2 <= length (m_slots m))%nat (r_targets r)) (m_routes m) /\
  Forall (fun r => r.2 <= length (m_slots m))%nat (m_drain_sections m) /\
  apart (r_from <$> m_routes m) /\ Forall (fun r => Forall (fun t => overlaps t (r_from r) = false) (r_targets r)) (m_routes m) /\
  forall i j slot slot', i <> j -> m_slots m !! i = Some slot -> m_slots m !! j = Some slot' -> physical_key slot = physical_key slot' ->
    origins !! i = Some FromPlayerInventory \/ origins !! j = Some FromPlayerInventory.
Proof.
  intros Hb%builds_ok E Hinv. split; [by apply (build_wf g b handles origins inventory)|]. apply build_menu in E as ->. destruct Hb as [H1 H2 [H3 _] H4 H5 H6 H7 H8 H9].
  cbn [m_slots m_routes m_drain_sections]. split_and!; try done. intros i j slot slot' Hij Hi Hj Hkey.
  destruct (lookup_lt_is_Some_2 origins i) as [[] Oi]; [rewrite H2; by eapply lookup_lt_Some| |by left].
  destruct (lookup_lt_is_Some_2 origins j) as [[] Oj]; [rewrite H2; by eapply lookup_lt_Some| |by right].
  exfalso. rewrite <- H4 in H3. apply (section_keys_apart _ i j slot slot' H3 Hij); [| |done]; apply lookup_zip_Some; done.
Qed.

Lemma chest_builds g types inventory c selected container rows m : chest g types inventory container rows = Some m ->
  g !! inventory = Some c -> c_kind c = PlayerInventory selected -> container_ok c ->
  exists b handles origins, builds g b handles origins /\ build b inventory = Some m.
Proof.
  unfold chest. case_decide; [|done]. intros E Hc Hk Hok.
  destruct (section_with _ _ _ _ _) as [[[b1 sec] src]|] eqn:E1; [|done]. cbn [mbind option_bind] in E.
  destruct (player_inventory_with _ _ _) as [[b2 player]|] eqn:E2; [|done]. cbn [mbind option_bind] in E.
  destruct (route b2 _ _ _) as [b3|] eqn:E3; [|done]. cbn [mbind option_bind] in E.
  destruct (route b3 _ _ _) as [b4|] eqn:E4; [|done]. cbn [mbind option_bind] in E.
  pose proof (builds_section _ _ _ _ _ _ _ _ _ _ (builds_new _ _) E1) as H1.
  pose proof (builds_player _ _ _ _ _ _ _ _ _ _ H1 Hc Hk Hok E2) as H2.
  eexists b4, _, _. split; [|done].
  eapply builds_route; [eapply builds_route; [exact H2| | |exact E3]| | |exact E4]; intros x ->%list_elem_of_singleton; set_solver.
Qed.

End MenuBuilder.

(** ** A chest of three rows *)

Definition example_containers : gmap Z Container :=
  {[ 0 := example_inventory; 1 := mkContainer SimpleContainer (example_stack 1 20 :: repeat ItemStack_empty 26) ]}.

#[local] Existing Instance example_items.

Lemma example_containers_ok : g_ok example_containers.
Proof.
  unfold g_ok, example_containers. apply map_Forall_insert_2; [apply example_inventory_ok|]. apply map_Forall_singleton.
  split; simpl; [|repeat (constructor; [vm_compute; discriminate|]); constructor|done].
  repeat (constructor; [first [apply empty_stack_ok | apply example_stack_ok; [done|lia]]|]). constructor.
Qed.

Lemma example_chest_some : is_Some (chest example_containers (fun rows => rows * 9 + 36)%nat 0 1 3).
Proof. vm_compute. by eexists. Qed.

Definition example_chest : Menu :=
  default (mkMenu [] [] [] 0 (fun _ => true) (fun _ _ => true)) (chest example_containers (fun rows => rows * 9 + 36)%nat 0 1 3).

Lemma example_chest_eq : chest example_containers (fun rows => rows * 9 + 36)%nat 0 1 3 = Some example_chest.
Proof. unfold example_chest. by destruct example_chest_some as [m ->]. Qed.

Lemma example_player : exists c selected, example_containers !! 0 = Some c /\ c_kind c = PlayerInventory selected.
Proof. by exists example_inventory, 0%nat. Qed.

Lemma example_chest_capless : Forall (fun slot => sl_cap slot = None) (m_slots example_chest).
Proof. apply (bool_decide_eq_true_1 (Forall (fun slot => sl_cap slot = None) (m_slots example_chest))). vm_compute. reflexivity. Qed.

Lemma example_chest_wf : menu_wf example_chest example_containers.
Proof.
  destruct (chest_builds _ _ 0 example_inventory 0 1 3 _ example_chest_eq eq_refl eq_refl example_inventory_ok) as (b & handles & origins & Hb & E).
  exact (build_wf _ b handles origins 0 _ (builds_ok _ _ _ _ Hb) E example_player example_chest_capless).
Qed.

Lemma built_menu_wf_witness : menu_wf example_chest example_containers /\ apart (r_from <$> m_routes example_chest) /\ length (m_slots example_chest) = 63%nat.
Proof.
  destruct (chest_builds _ _ 0 example_inventory 0 1 3 _ example_chest_eq eq_refl eq_refl example_inventory_ok) as (b & handles & origins & Hb & E).
  destruct (built_menu_wf example_containers b handles origins 0 example_chest Hb E example_player) as (Hwf & _ & _ & _ & Happ & _).
  split; [exact (Hwf example_chest_capless)|]. split; [exact Happ|vm_compute; reflexivity].
Defined.

(** Indices out of order are claimed run by run; repeating one is refused. *)
Lemma section_at_examples :
  ('(b, _) ← section_at example_containers (MenuBuilder_new None) 1 [3; 4; 9; 2]%nat SkNormal; Some (claimed b)) =
    Some [(1, (3%nat, 5%nat)); (1, (9%nat, 10%nat)); (1, (2%nat, 3%nat))] /\
  section_at example_containers (MenuBuilder_new None) 1 [3; 3]%nat SkNormal = None.
Proof. split; vm_compute; reflexivity. Qed.

Definition example_menu_state : MenuState := mkMenuState example_containers (example_stack 1 40) None [] [].

Lemma example_menu_ok : menu_ok example_chest example_menu_state.
Proof.
  split; simpl; [apply example_chest_wf|apply example_containers_ok|apply example_stack_ok; [done|lia]|done|constructor].
Qed.

(** A drag over three slots, a quick move out of the chest, a swap, a throw, and closing. *)
Definition example_clicks : list Click :=
  [Drag (QcStart DragLeft); Drag (QcAddSlot 0); Drag (QcAddSlot 5); Drag (QcAddSlot 6); Drag QcEnd;
   QuickMove 0; Swap 5 (Hotbar 1); Throw 6 true; PickupAll 9 Forward].

Lemma clicks_conserve_items_witness : exists st1 st2,
  for_each example_clicks (fun click st => clicked 99 example_chest false true st click) example_menu_state = Some st1 /\
  menu_removed example_chest true st1 = Some st2 /\ is_empty (m_carried st2) = true /\
  menu_total (example_stack 1 1) st2 = 123.
Proof.
  destruct (clicks_conserve_items 99 example_chest true true example_clicks example_menu_state example_menu_ok ltac:(lia))
    as (st1 & st2 & E1 & E2 & _ & _ & E3 & E4). exists st1, st2. split; [exact E1|]. split; [exact E2|]. split; [exact E3|].
  rewrite (proj2 (E4 _)). vm_compute. reflexivity.
Defined.

(** The drag really takes place: thirteen items go to each slot. *)
Lemma example_drag : (st ← for_each (take 5 example_clicks) (fun click st => clicked 99 example_chest false true st click) example_menu_state;
  c ← m_containers st !! 1; Some (count (m_carried st), count <$> take 7 (items c))) = Some (1, [33; 0; 0; 0; 0; 13; 13]).
Proof. vm_compute. reflexivity. Qed.

Lemma parsed_click_valid_witness : is_valid_for (Swap 5 Offhand) 63 = true.
Proof. apply (parsed_click_valid 5 40 TSwap 63). vm_compute. reflexivity. Defined.
