(* ===== verification/EntityManager.v ===== *)
(** * The entity manager

    Models [steel-core/src/entity/manager/mod.rs]: which entities are live in the world,
    the indexes by UUID, section, chunk and spatial cell, the visibility of chunks with the
    lists of accessible and ticking entities, unloading with recovery, and the entities that
    wait for a save.  An entity object is its network id; what the manager reads of the
    objects is an argument ([entities]), since they change on their own. *)

From S2P Require Import Prelude Positions Float64 ChunkHolder.

#[local] Open Scope steel_scope.

(** ** Boxes and spatial cells *)

Record Vec3 := mkVec3 { v_x : f64; v_y : f64; v_z : f64 }.
Record WorldAabb := mkAabb { box_min : Vec3; box_max : Vec3 }.

Definition axis_overlaps (min1 max1 min2 max2 : f64) : bool := (min1 <? max2) && (min2 <? max1).

Definition intersects (a b : WorldAabb) : bool :=
  axis_overlaps (v_x (box_min a)) (v_x (box_max a)) (v_x (box_min b)) (v_x (box_max b)) &&
  axis_overlaps (v_y (box_min a)) (v_y (box_max a)) (v_y (box_min b)) (v_y (box_max b)) &&
  axis_overlaps (v_z (box_min a)) (v_z (box_max a)) (v_z (box_min b)) (v_z (box_max b)).

Record EntitySpatialCell := mkCell { cell_x : Z; cell_y : Z; cell_z : Z }.
#[global] Instance EntitySpatialCell_eq_dec : EqDecision EntitySpatialCell.
Proof. solve_decision. Defined.
#[global] Instance EntitySpatialCell_countable : Countable EntitySpatialCell.
Proof.
  refine (inj_countable' (fun c => (cell_x c, cell_y c, cell_z c)) (fun '(x, y, z) => mkCell x y z) _).
  by intros [].
Defined.

Definition ENTITY_SPATIAL_CELL_OFFSET : f64 := f64_of_Z 2.
Definition MAX_DIRECT_SPATIAL_CELL_PROBES : Z := 4096.

(** [((v + OFFSET) / 4.0).floor() as i32]. *)
Definition cell_coordinate (v : f64) : Z := f64_floor_i32 (f64_div_pow2 (f64_add v ENTITY_SPATIAL_CELL_OFFSET) 2).

Definition containing (p : Vec3) : EntitySpatialCell :=
  mkCell (cell_coordinate (v_x p)) (cell_coordinate (v_y p)) (cell_coordinate (v_z p)).

Record EntitySpatialCellBounds := mkBounds { minimum : EntitySpatialCell; maximum : EntitySpatialCell }.

Definition from_aabb (box : WorldAabb) : EntitySpatialCellBounds := mkBounds (containing (box_min box)) (containing (box_max box)).

Definition bounds_contains (b : EntitySpatialCellBounds) (c : EntitySpatialCell) : bool :=
  (cell_x (minimum b) <=? cell_x c) && (cell_x c <=? cell_x (maximum b)) &&
  (cell_y (minimum b) <=? cell_y c) && (cell_y c <=? cell_y (maximum b)) &&
  (cell_z (minimum b) <=? cell_z c) && (cell_z c <=? cell_z (maximum b)).

Definition direct_probe_count (b : EntitySpatialCellBounds) : Z :=
  (cell_x (maximum b) - cell_x (minimum b) + 1) * (cell_y (maximum b) - cell_y (minimum b) + 1) *
  (cell_z (maximum b) - cell_z (minimum b) + 1).

(** The cells of [minimum..=maximum] in loop order. *)
Definition bounds_cells (b : EntitySpatialCellBounds) : list EntitySpatialCell :=
  seqZ (cell_x (minimum b)) (cell_x (maximum b) - cell_x (minimum b) + 1) ≫= fun x =>
  seqZ (cell_y (minimum b)) (cell_y (maximum b) - cell_y (minimum b) + 1) ≫= fun y =>
  mkCell x y <$> seqZ (cell_z (minimum b)) (cell_z (maximum b) - cell_z (minimum b) + 1).

(** ** Entities and entries *)

Inductive RemovalReason := Killed | Discarded | UnloadedToChunk | ChangedWorld | StoredWithPlayer.

Definition reason_should_save (reason : RemovalReason) : bool := match reason with UnloadedToChunk => true | _ => false end.

Inductive EntityOwnership := ManagerOwned | External.
#[global] Instance EntityOwnership_eq_dec : EqDecision EntityOwnership.
Proof. solve_decision. Defined.
#[global] Instance EntityVisibility_eq_dec : EqDecision EntityVisibility.
Proof. solve_decision. Defined.

Definition visibility_accessible (v : EntityVisibility) : bool := match v with Hidden => false | _ => true end.
Definition visibility_ticking (v : EntityVisibility) : bool := match v with Ticking => true | _ => false end.

(** What the manager reads of an entity object. *)
Record Entity := mkEntity {
  e_uuid : Z;
  e_position : Vec3;
  e_bounding_box : WorldAabb;
  e_removal_reason : option RemovalReason;
  e_vehicle : option Z;
  e_passengers : list Z;
  e_player_passengers : Z;
  e_always_ticking : bool;
  e_can_serialize : bool;
  e_is_player : bool;
  e_world_change_pending : bool;
}.
Definition entities : Type := Z -> Entity.

Definition entity_removed (e : Entity) : bool := bool_decide (is_Some (e_removal_reason e)).
Definition entity_passenger (e : Entity) : bool := bool_decide (is_Some (e_vehicle e)).

Definition section_of_pos (p : Vec3) : SectionPos :=
  SectionPos_from_block_pos (mkBlockPos (f64_floor_i32 (v_x p)) (f64_floor_i32 (v_y p)) (f64_floor_i32 (v_z p))).
Definition section_chunk (s : SectionPos) : ChunkPos := mkChunkPos (sp_x s) (sp_z s).

Record EntityEntry := mkEntry {
  en_entity : Z;
  en_uuid : Z;
  en_section : SectionPos;
  en_chunk : ChunkPos;
  en_bounding_box : WorldAabb;
  en_spatial_cells : list EntitySpatialCell;
  en_section_order : Z;
  en_ownership : EntityOwnership;
}.

Definition cells_of (box : WorldAabb) : list EntitySpatialCell := bounds_cells (from_aabb box).

Definition EntityEntry_new (v : entities) (id : Z) (ownership : EntityOwnership) : EntityEntry :=
  let section := section_of_pos (e_position (v id)) in
  let box := e_bounding_box (v id) in
  mkEntry id (e_uuid (v id)) section (section_chunk section) box (cells_of box) 0 ownership.

Definition entry_should_save (v : entities) (entry : EntityEntry) : bool :=
  let e := v (en_entity entry) in
  bool_decide (en_ownership entry = ManagerOwned) &&
  (negb (entity_removed e) || match e_removal_reason e with Some reason => reason_should_save reason | None => false end) &&
  negb (entity_passenger e) && negb (e_player_passengers e =? 1) && e_can_serialize e.

Definition query_order (entry : EntityEntry) : Z * Z := (PackedSectionPos_from (en_section entry), en_section_order entry).

(** The order of pairs. *)
Definition order_le (a b : Z * Z) : Prop := a.1 < b.1 \/ (a.1 = b.1 /\ a.2 <= b.2).
#[global] Instance order_le_dec a b : Decision (order_le a b).
Proof. unfold order_le. apply _. Defined.

(** ** Ordered ids and the tick list *)

Definition ordered_insert (id : Z) (ids : list Z) : list Z * bool :=
  if decide (id ∈ ids) then (ids, false) else (ids ++ [id], true).

Fixpoint remove_first (id : Z) (ids : list Z) : list Z :=
  match ids with
  | [] => []
  | x :: ids => if x =? id then ids else x :: remove_first id ids
  end.

Definition ordered_insert_at (index : nat) (id : Z) (ids : list Z) : option (list Z) :=
  if decide (id ∈ ids) then None
  else if decide (index <= length ids)%nat then Some (take index ids ++ id :: drop index ids) else None.

Record EntityTickList := mkTickList { tl_active : gset Z; tl_order : list Z }.

Definition tick_list_add (id : Z) (t : EntityTickList) : EntityTickList * bool :=
  if decide (id ∈ tl_active t) then (t, false) else (mkTickList ({[id]} ∪ tl_active t) (tl_order t ++ [id]), true).

Definition tick_list_remove (id : Z) (t : EntityTickList) : EntityTickList * bool :=
  if decide (id ∈ tl_active t) then (mkTickList (tl_active t ∖ {[id]}) (filter (fun x => x <> id) (tl_order t)), true)
  else (t, false).

Definition tick_list_snapshot (t : EntityTickList) : list Z := filter (fun id => id ∈ tl_active t) (tl_order t).

(** ** The state *)

Record ManagerState := mkManager {
  chunk_visibility : gmap ChunkPos EntityVisibility;
  live_by_id : gmap Z EntityEntry;
  live_by_uuid : gmap Z Z;
  accessible_order : list Z;
  by_section : gmap Z (list Z);
  by_spatial_cell : gmap EntitySpatialCell (list Z);
  by_chunk : gmap ChunkPos (gset Z);
  unloading_by_chunk : gmap ChunkPos (list EntityEntry);
  save_pending_by_chunk : gmap ChunkPos (list EntityEntry);
  tick_list : EntityTickList;
  next_order : Z;
}.

Definition manager_empty : ManagerState := mkManager ∅ ∅ ∅ [] ∅ ∅ ∅ ∅ ∅ (mkTickList ∅ []) 0.

Implicit Types s : ManagerState.

Definition set_visibility s x := mkManager x (live_by_id s) (live_by_uuid s) (accessible_order s) (by_section s) (by_spatial_cell s)
  (by_chunk s) (unloading_by_chunk s) (save_pending_by_chunk s) (tick_list s) (next_order s).
Definition set_live s x := mkManager (chunk_visibility s) x (live_by_uuid s) (accessible_order s) (by_section s) (by_spatial_cell s)
  (by_chunk s) (unloading_by_chunk s) (save_pending_by_chunk s) (tick_list s) (next_order s).
Definition set_uuids s x := mkManager (chunk_visibility s) (live_by_id s) x (accessible_order s) (by_section s) (by_spatial_cell s)
  (by_chunk s) (unloading_by_chunk s) (save_pending_by_chunk s) (tick_list s) (next_order s).
Definition set_accessible s x := mkManager (chunk_visibility s) (live_by_id s) (live_by_uuid s) x (by_section s) (by_spatial_cell s)
  (by_chunk s) (unloading_by_chunk s) (save_pending_by_chunk s) (tick_list s) (next_order s).
Definition set_sections s x := mkManager (chunk_visibility s) (live_by_id s) (live_by_uuid s) (accessible_order s) x (by_spatial_cell s)
  (by_chunk s) (unloading_by_chunk s) (save_pending_by_chunk s) (tick_list s) (next_order s).
Definition set_cells s x := mkManager (chunk_visibility s) (live_by_id s) (live_by_uuid s) (accessible_order s) (by_section s) x
  (by_chunk s) (unloading_by_chunk s) (save_pending_by_chunk s) (tick_list s) (next_order s).
Definition set_chunks s x := mkManager (chunk_visibility s) (live_by_id s) (live_by_uuid s) (accessible_order s) (by_section s) (by_spatial_cell s)
  x (unloading_by_chunk s) (save_pending_by_chunk s) (tick_list s) (next_order s).
Definition set_unloading s x := mkManager (chunk_visibility s) (live_by_id s) (live_by_uuid s) (accessible_order s) (by_section s) (by_spatial_cell s)
  (by_chunk s) x (save_pending_by_chunk s) (tick_list s) (next_order s).
Definition set_pending s x := mkManager (chunk_visibility s) (live_by_id s) (live_by_uuid s) (accessible_order s) (by_section s) (by_spatial_cell s)
  (by_chunk s) (unloading_by_chunk s) x (tick_list s) (next_order s).
Definition set_tick_list s x := mkManager (chunk_visibility s) (live_by_id s) (live_by_uuid s) (accessible_order s) (by_section s) (by_spatial_cell s)
  (by_chunk s) (unloading_by_chunk s) (save_pending_by_chunk s) x (next_order s).
Definition set_next_order s x := mkManager (chunk_visibility s) (live_by_id s) (live_by_uuid s) (accessible_order s) (by_section s) (by_spatial_cell s)
  (by_chunk s) (unloading_by_chunk s) (save_pending_by_chunk s) (tick_list s) x.

(** [map.entry(key).or_default()] changed by [f]. *)
Definition entry_or_default {K A} `{Countable K} (d : A) (f : A -> A) (k : K) (m : gmap K A) : gmap K A :=
  <[k := f (default d (m !! k))]> m.

(** [remove_from_section] and one cell of [remove_from_spatial_cells]:
    an entry that becomes empty is removed. *)
Definition remove_from {K} `{Countable K} (id : Z) (k : K) (m : gmap K (list Z)) : gmap K (list Z) :=
  match m !! k with
  | None => m
  | Some ids => let ids := remove_first id ids in if decide (ids = []) then delete k m else <[k := ids]> m
  end.

Definition remove_chunk_entry (id : Z) (chunk : ChunkPos) (m : gmap ChunkPos (gset Z)) : gmap ChunkPos (gset Z) :=
  match m !! chunk with
  | None => m
  | Some ids => let ids := ids ∖ {[id]} in if decide (ids = ∅) then delete chunk m else <[chunk := ids]> m
  end.

Definition remove_from_spatial_cells (cells : list EntitySpatialCell) (id : Z) (m : gmap EntitySpatialCell (list Z)) :=
  foldl (fun m cell => remove_from id cell m) m cells.

(** Whether a live entity comes after [order]. *)
Definition comes_after (live : gmap Z EntityEntry) (order : Z * Z) (id : Z) : bool :=
  match live !! id with Some e => negb (bool_decide (order_le (query_order e) order)) | None => false end.

(** Where an id goes into the ids of a cell. *)
Definition insertion_index (live : gmap Z EntityEntry) (order : Z * Z) (ids : list Z) : nat :=
  let append_in_order := match last ids with None => true | Some x => negb (comes_after live order x) end in
  if append_in_order then length ids
  else match list_find (fun x => comes_after live order x = true) ids with
       | Some (index, _) => index
       | None => length ids
       end.

Definition insert_into_spatial_cells (live : gmap Z EntityEntry) (cells : list EntitySpatialCell) (id : Z) (order : Z * Z)
  (m : gmap EntitySpatialCell (list Z)) : option (gmap EntitySpatialCell (list Z)) :=
  for_each cells (fun cell m =>
    let ids := default [] (m !! cell) in
    ids ← ordered_insert_at (insertion_index live order ids) id ids; Some (<[cell := ids]> m)) m.

Definition next_section_order s : option (Z * ManagerState) :=
  if next_order s <? 2 ^ 64 - 1 then Some (next_order s, set_next_order s (next_order s + 1)) else None.

(** ** Visibility *)

Definition chunk_visibility_of s (chunk : ChunkPos) : EntityVisibility := default Hidden (chunk_visibility s !! chunk).

Definition effective_visibility (v : entities) (entry : EntityEntry) (visibility : EntityVisibility) : EntityVisibility :=
  if e_always_ticking (v (en_entity entry)) then Ticking
  else match en_ownership entry with External => Tracked | ManagerOwned => visibility end.

Definition is_accessible_at s (ownership : EntityOwnership) (chunk : ChunkPos) : bool :=
  bool_decide (ownership = External) || visibility_accessible (chunk_visibility_of s chunk).

Definition is_accessible s (entry : EntityEntry) : bool := is_accessible_at s (en_ownership entry) (en_chunk entry).

Record EntityLifecycleChanges := mkChanges {
  tracking_started : list Z;
  tracking_stopped : list Z;
  ticking_started : list Z;
  ticking_stopped : list Z;
}.
Definition no_changes : EntityLifecycleChanges := mkChanges [] [] [] [].
Definition changes_extend (a b : EntityLifecycleChanges) : EntityLifecycleChanges :=
  mkChanges (tracking_started a ++ tracking_started b) (tracking_stopped a ++ tracking_stopped b)
    (ticking_started a ++ ticking_started b) (ticking_stopped a ++ ticking_stopped b).

(** The values of a B-tree map with keys in [first..=last], in the order of the keys. *)
Definition btree_range {A} (m : gmap Z A) (first last : Z) : list A :=
  omap (fun k => if decide (first <= k <= last) then m !! k else None) (merge_sort Z.le (elements (dom m))).

Definition entity_ids_in_chunk_order s (chunk : ChunkPos) : list Z :=
  concat (btree_range (by_section s) (PackedSectionPos_from (mkSectionPos (cp_x chunk) 0 (cp_y chunk)))
            (PackedSectionPos_from (mkSectionPos (cp_x chunk) (-1) (cp_y chunk)))).

(** ** Live entries *)

Definition insert_live_entry (v : entities) s (entry : EntityEntry) : option ManagerState :=
  let id := en_entity entry in
  let box := e_bounding_box (v id) in
  let accessible := is_accessible_at s (en_ownership entry) (en_chunk entry) in
  if decide (is_Some (live_by_id s !! id)) then None
  else if decide (is_Some (live_by_uuid s !! en_uuid entry)) then None
  else
    let s := set_uuids s (<[en_uuid entry := id]> (live_by_uuid s)) in
    '(order, s) ← next_section_order s;
    let entry := mkEntry id (en_uuid entry) (en_section entry) (en_chunk entry) box (cells_of box) order (en_ownership entry) in
    let s := set_sections s (entry_or_default [] (fun ids => (ordered_insert id ids).1) (PackedSectionPos_from (en_section entry)) (by_section s)) in
    cells ← insert_into_spatial_cells (live_by_id s) (en_spatial_cells entry) id (query_order entry) (by_spatial_cell s);
    let s := set_cells s cells in
    let s := set_chunks s (entry_or_default ∅ (union {[id]}) (en_chunk entry) (by_chunk s)) in
    let s := set_live s (<[id := entry]> (live_by_id s)) in
    Some (if accessible then set_accessible s (ordered_insert id (accessible_order s)).1 else s).

Definition remove_live_entry s (id : Z) : option (EntityEntry * ManagerState) :=
  entry ← live_by_id s !! id;
  let s := set_live s (delete id (live_by_id s)) in
  let s := set_tick_list s (tick_list_remove id (tick_list s)).1 in
  let s := set_uuids s (delete (en_uuid entry) (live_by_uuid s)) in
  let s := set_accessible s (remove_first id (accessible_order s)) in
  let s := set_sections s (remove_from id (PackedSectionPos_from (en_section entry)) (by_section s)) in
  let s := set_cells s (remove_from_spatial_cells (en_spatial_cells entry) id (by_spatial_cell s)) in
  Some (entry, set_chunks s (remove_chunk_entry id (en_chunk entry) (by_chunk s))).

Definition apply_entity_lifecycle_after_insert (v : entities) s (id : Z) : ManagerState * EntityLifecycleChanges :=
  match live_by_id s !! id with
  | None => (s, no_changes)
  | Some entry =>
      let visibility := effective_visibility v entry (chunk_visibility_of s (en_chunk entry)) in
      let started := if visibility_accessible visibility then [id] else [] in
      if visibility_ticking visibility then
        let '(ticks, added) := tick_list_add id (tick_list s) in
        (set_tick_list s ticks, mkChanges started [] (if added : bool then [id] else []) [])
      else (s, mkChanges started [] [] [])
  end.

(** One entity of a chunk whose visibility changes. *)
Definition change_entity_visibility (v : entities) (previous new : EntityVisibility) (id : Z)
  (acc : ManagerState * EntityLifecycleChanges) : ManagerState * EntityLifecycleChanges :=
  let '(s, changes) := acc in
  match live_by_id s !! id with
  | None => acc
  | Some entry =>
      let old_visibility := effective_visibility v entry previous in
      let new_visibility := effective_visibility v entry new in
      if negb (bool_decide (en_ownership entry = ManagerOwned)) || bool_decide (old_visibility = new_visibility) then acc
      else
        let '(s, changes) :=
          if visibility_ticking old_visibility && negb (visibility_ticking new_visibility) then
            let '(ticks, removed) := tick_list_remove id (tick_list s) in
            (set_tick_list s ticks, if removed : bool then changes_extend changes (mkChanges [] [] [] [id]) else changes)
          else (s, changes) in
        let '(s, changes) :=
          if visibility_accessible old_visibility && negb (visibility_accessible new_visibility) then
            (set_accessible s (remove_first id (accessible_order s)), changes_extend changes (mkChanges [] [id] [] []))
          else if negb (visibility_accessible old_visibility) && visibility_accessible new_visibility then
            (set_accessible s (ordered_insert id (accessible_order s)).1, changes_extend changes (mkChanges [id] [] [] []))
          else (s, changes) in
        if negb (visibility_ticking old_visibility) && visibility_ticking new_visibility then
          let '(ticks, added) := tick_list_add id (tick_list s) in
          (set_tick_list s ticks, if added : bool then changes_extend changes (mkChanges [] [] [id] []) else changes)
        else (s, changes)
  end.

Definition apply_chunk_visibility_change (v : entities) s (chunk : ChunkPos) (previous new : EntityVisibility)
  : ManagerState * EntityLifecycleChanges :=
  foldl (fun acc id => change_entity_visibility v previous new id acc) (s, no_changes) (entity_ids_in_chunk_order s chunk).

Definition update_chunk_visibility (v : entities) s (pos : ChunkPos) (visibility : EntityVisibility)
  : ManagerState * EntityLifecycleChanges :=
  let previous := default Hidden (chunk_visibility s !! pos) in
  let s := set_visibility s (<[pos := visibility]> (chunk_visibility s)) in
  if decide (previous = visibility) then (s, no_changes)
  else apply_chunk_visibility_change v s pos previous visibility.

(** ** Adding and removing *)

Inductive AddEntityError :=
| ChunkNotLoaded (entity_id : Z) (chunk : ChunkPos)
| DuplicateUuid (entity_id : Z) (uuid : Z)
| RemovedEntity (entity_id : Z).

Definition stored_entries (m : gmap ChunkPos (list EntityEntry)) : list EntityEntry := concat (map_to_list m).*2.

Definition contains_uuid s (uuid : Z) : bool :=
  bool_decide (is_Some (live_by_uuid s !! uuid)) ||
  existsb (fun entry => en_uuid entry =? uuid) (stored_entries (unloading_by_chunk s)) ||
  existsb (fun entry => en_uuid entry =? uuid) (stored_entries (save_pending_by_chunk s)).

Definition contains_id s (id : Z) : bool :=
  bool_decide (is_Some (live_by_id s !! id)) ||
  existsb (fun entry => en_entity entry =? id) (stored_entries (unloading_by_chunk s)) ||
  existsb (fun entry => en_entity entry =? id) (stored_entries (save_pending_by_chunk s)).

Definition checked_live_entry (v : entities) (id : Z) (ownership : EntityOwnership) : result EntityEntry AddEntityError :=
  if entity_removed (v id) then Err (RemovedEntity id) else Ok (EntityEntry_new v id ownership).

Fixpoint validate_live_entries s (entries : list EntityEntry) (ownership : EntityOwnership) (require_loaded_chunks : bool)
  : option (result unit AddEntityError) :=
  match entries with
  | [] => Some (Ok tt)
  | entry :: entries =>
      let id := en_entity entry in
      if contains_id s id then None
      else if contains_uuid s (en_uuid entry) then Some (Err (DuplicateUuid id (en_uuid entry)))
      else if require_loaded_chunks && bool_decide (ownership = ManagerOwned) &&
              negb (bool_decide (is_Some (chunk_visibility s !! en_chunk entry)))
      then Some (Err (ChunkNotLoaded id (en_chunk entry)))
      else validate_live_entries s entries ownership require_loaded_chunks
  end.

Definition add_live_entity (v : entities) s (id : Z) (ownership : EntityOwnership)
  : option (ManagerState * result EntityLifecycleChanges AddEntityError) :=
  match checked_live_entry v id ownership with
  | Err e => Some (s, Err e)
  | Ok entry =>
      valid ← validate_live_entries s [entry] ownership true;
      match valid with
      | Err e => Some (s, Err e)
      | Ok _ =>
          s ← insert_live_entry v s entry;
          let '(s, changes) := apply_entity_lifecycle_after_insert v s id in Some (s, Ok changes)
      end
  end.

Fixpoint checked_live_entries (v : entities) (ids : list Z) (ownership : EntityOwnership) : result (list EntityEntry) AddEntityError :=
  match ids with
  | [] => Ok []
  | id :: ids => let? entry := checked_live_entry v id ownership in
                 let? entries := checked_live_entries v ids ownership in Ok (entry :: entries)
  end.

(** The check for duplicates within a tree; the same id twice is a panic. *)
Fixpoint check_distinct (entries : list EntityEntry) (seen_ids seen_uuids : gset Z) : option (result unit AddEntityError) :=
  match entries with
  | [] => Some (Ok tt)
  | entry :: entries =>
      if decide (en_entity entry ∈ seen_ids) then None
      else if decide (en_uuid entry ∈ seen_uuids) then Some (Err (DuplicateUuid (en_entity entry) (en_uuid entry)))
      else check_distinct entries ({[en_entity entry]} ∪ seen_ids) ({[en_uuid entry]} ∪ seen_uuids)
  end.

Definition add_live_entity_tree (v : entities) s (ids : list Z) (ownership : EntityOwnership)
  : option (ManagerState * result EntityLifecycleChanges AddEntityError) :=
  match checked_live_entries v ids ownership with
  | Err e => Some (s, Err e)
  | Ok entries =>
      distinct ← check_distinct entries ∅ ∅;
      match distinct with
      | Err e => Some (s, Err e)
      | Ok _ =>
          valid ← validate_live_entries s entries ownership false;
          match valid with
          | Err e => Some (s, Err e)
          | Ok _ =>
              s ← for_each entries (fun entry s => insert_live_entry v s entry) s;
              let '(s, changes) := foldl (fun acc id =>
                let '(s, changes) := acc in
                let '(s, more) := apply_entity_lifecycle_after_insert v s id in
                (s, changes_extend changes more)) (s, no_changes) (en_entity <$> entries) in
              Some (s, Ok changes)
          end
      end
  end.

Definition remove_live_entity (v : entities) s (id : Z) (reason : RemovalReason) : ManagerState * option Z :=
  match remove_live_entry s id with
  | None => (s, None)
  | Some (entry, s) =>
      (if reason_should_save reason && entry_should_save v entry
       then set_pending s (entry_or_default [] (fun l => l ++ [entry]) (en_chunk entry) (save_pending_by_chunk s)) else s,
       Some (en_entity entry))
  end.

Definition on_chunk_saved s (chunk : ChunkPos) (saved_entity_ids : list Z) : ManagerState :=
  if decide (saved_entity_ids = []) then s
  else match save_pending_by_chunk s !! chunk with
       | None => s
       | Some entries =>
           let entries := filter (fun entry => (en_entity entry ∉ saved_entity_ids)) entries in
           set_pending s (if decide (entries = []) then delete chunk (save_pending_by_chunk s)
                          else <[chunk := entries]> (save_pending_by_chunk s))
       end.

Definition has_save_pending_for_chunk s (chunk : ChunkPos) : bool :=
  match save_pending_by_chunk s !! chunk with Some entries => negb (bool_decide (entries = [])) | None => false end.

(** ** Loading and unloading chunks *)

Record ChunkEntityLoadResult := mkLoadResult {
  lr_restored : list Z;
  lr_tracking_started : list Z;
  lr_ticking_started : list Z;
  lr_needs_save : bool;
}.

(** One retained entity of a chunk that is loaded again. *)
Definition restore_entry (v : entities) (pos : ChunkPos) (entry : EntityEntry) (acc : ManagerState * ChunkEntityLoadResult)
  : option (ManagerState * ChunkEntityLoadResult) :=
  let '(s, r) := acc in
  if entity_removed (v (en_entity entry)) then
    if entry_should_save v entry then
      Some (set_pending s (entry_or_default [] (fun l => l ++ [entry]) pos (save_pending_by_chunk s)),
            mkLoadResult (lr_restored r) (lr_tracking_started r) (lr_ticking_started r) true)
    else Some acc
  else
    s ← insert_live_entry v s entry;
    let '(s, changes) := apply_entity_lifecycle_after_insert v s (en_entity entry) in
    Some (s, mkLoadResult (lr_restored r ++ [en_entity entry]) (lr_tracking_started r ++ tracking_started changes)
               (lr_ticking_started r ++ ticking_started changes) (lr_needs_save r)).

Definition on_chunk_loaded (v : entities) s (pos : ChunkPos) : option (ManagerState * ChunkEntityLoadResult) :=
  let s := set_visibility s (match chunk_visibility s !! pos with
                             | Some _ => chunk_visibility s
                             | None => <[pos := Hidden]> (chunk_visibility s)
                             end) in
  let entries := default [] (unloading_by_chunk s !! pos) in
  for_each entries (restore_entry v pos) (set_unloading s (delete pos (unloading_by_chunk s)), mkLoadResult [] [] [] false).

Record Unloading := mkUnloading {
  ul_state : ManagerState;
  ul_visited : gset Z;
  ul_retained : list EntityEntry;
  ul_retained_entities : list Z;
  ul_stopped_ids : gset Z;
  ul_tracking_stopped : list Z;
}.

Definition push_unique_entity (id : Z) (seen : gset Z) (l : list Z) : gset Z * list Z :=
  if decide (id ∈ seen) then (seen, l) else ({[id]} ∪ seen, l ++ [id]).

(** An entity owned elsewhere goes back as it was. *)
Definition reinsert_external (v : entities) s (entry : EntityEntry) : option ManagerState :=
  s ← insert_live_entry v s entry;
  Some (match live_by_id s !! en_entity entry with
        | Some entry =>
            if visibility_ticking (effective_visibility v entry (chunk_visibility_of s (en_chunk entry)))
            then set_tick_list s (tick_list_add (en_entity entry) (tick_list s)).1 else s
        | None => s
        end).

Fixpoint retain_unloading_entity_tree (fuel : nat) (v : entities) (id : Z) (u : Unloading) : option Unloading :=
  if decide (id ∈ ul_visited u) then Some u
  else
    let u := mkUnloading (ul_state u) ({[id]} ∪ ul_visited u) (ul_retained u) (ul_retained_entities u) (ul_stopped_ids u) (ul_tracking_stopped u) in
    match remove_live_entry (ul_state u) id with
    | None => Some u
    | Some (entry, s) =>
        match en_ownership entry with
        | External =>
            s ← reinsert_external v s entry;
            Some (mkUnloading s (ul_visited u) (ul_retained u) (ul_retained_entities u) (ul_stopped_ids u) (ul_tracking_stopped u))
        | ManagerOwned =>
            let '(ids, stopped) := push_unique_entity id (ul_stopped_ids u) (ul_tracking_stopped u) in
            let u := mkUnloading s (ul_visited u) (ul_retained u ++ [entry]) (ul_retained_entities u ++ [id]) ids stopped in
            match fuel with
            | O => None
            | S fuel => for_each (e_passengers (v id)) (retain_unloading_entity_tree fuel v) u
            end
        end
    end.

Record ChunkEntityUnloadStart := mkUnloadStart {
  us_retained : list Z;
  us_tracking_stopped : list Z;
  us_ticking_stopped : list Z;
}.

(** The manager-owned entities of the chunk stop being tracked; roots are those that do not
    ride. *)
Definition collect_roots (v : entities) s (ids : list Z) (stopped_ids : gset Z) (stopped : list Z) : gset Z * list Z * list Z :=
  foldl (fun acc id =>
    let '(seen, stopped, roots) := acc in
    match live_by_id s !! id with
    | Some entry =>
        if decide (en_ownership entry = ManagerOwned) then
          let '(seen, stopped) := push_unique_entity id seen stopped in
          (seen, stopped, if entity_passenger (v id) then roots else roots ++ [id])
        else acc
    | None => acc
    end) (stopped_ids, stopped, []) ids.

Definition begin_chunk_unload (v : entities) s (pos : ChunkPos) : option (ManagerState * ChunkEntityUnloadStart) :=
  let previous := default Hidden (chunk_visibility s !! pos) in
  let s := set_visibility s (delete pos (chunk_visibility s)) in
  let ids := entity_ids_in_chunk_order s pos in
  let '(s, changes) := apply_chunk_visibility_change v s pos previous Hidden in
  let '(seen, stopped, roots) := collect_roots v s ids (list_to_set (tracking_stopped changes)) (tracking_stopped changes) in
  u ← for_each roots (retain_unloading_entity_tree (size (live_by_id s)) v) (mkUnloading s ∅ [] [] seen stopped);
  let s := ul_state u in
  let s := if decide (ul_retained u = []) then s
           else set_unloading s (entry_or_default [] (fun l => l ++ ul_retained u) pos (unloading_by_chunk s)) in
  Some (s, mkUnloadStart (ul_retained_entities u) (ul_tracking_stopped u) (ticking_stopped changes)).

(** The entities that are detached and marked as unloaded. *)
Definition finalize_chunk_unload s (pos : ChunkPos) : ManagerState * list Z :=
  (set_unloading s (delete pos (unloading_by_chunk s)), en_entity <$> default [] (unloading_by_chunk s !! pos)).

(** ** Moving *)

Inductive EntityMoveError := NotLive (entity_id : Z) | UnloadedDestination (entity_id : Z) (chunk : ChunkPos).

(** A vehicle chain that comes back to an entity is a panic. *)
Fixpoint live_loaded_root (fuel : nat) (v : entities) s (visited : gset Z) (passenger vehicle : Z) : option bool :=
  if decide (vehicle ∈ visited) then None
  else if entity_removed (v vehicle) || negb (bool_decide (passenger ∈ e_passengers (v vehicle))) then Some false
  else match live_by_id s !! vehicle with
       | None => Some false
       | Some entry =>
           match e_vehicle (v vehicle) with
           | None => Some (match en_ownership entry with
                           | External => true
                           | ManagerOwned => bool_decide (is_Some (chunk_visibility s !! en_chunk entry))
                           end)
           | Some next => match fuel with O => None | S fuel => live_loaded_root fuel v s ({[vehicle]} ∪ visited) vehicle next end
           end
       end.

Definition has_live_loaded_root_vehicle (v : entities) s (id : Z) : option bool :=
  match e_vehicle (v id) with
  | None => Some false
  | Some vehicle => live_loaded_root (size (live_by_id s)) v s {[id]} id vehicle
  end.

Definition can_move_manager_owned_to_chunk (v : entities) s (entry : EntityEntry) (chunk : ChunkPos) : option bool :=
  if decide (is_Some (chunk_visibility s !! chunk)) then Some true
  else if entity_passenger (v (en_entity entry)) then has_live_loaded_root_vehicle v s (en_entity entry) else Some false.

(** The check that both moves start with. *)
Definition check_destination (v : entities) s (entry : EntityEntry) (chunk : ChunkPos) : option (result unit EntityMoveError) :=
  match en_ownership entry with
  | External => Some (Ok tt)
  | ManagerOwned =>
      allowed ← can_move_manager_owned_to_chunk v s entry chunk;
      Some (if allowed : bool then Ok tt else Err (UnloadedDestination (en_entity entry) chunk))
  end.

Definition validate_move (v : entities) s (id : Z) (new_pos : Vec3) : option (result unit EntityMoveError) :=
  match live_by_id s !! id with
  | None => Some (Err (NotLive id))
  | Some entry => check_destination v s entry (section_chunk (section_of_pos new_pos))
  end.

Record EntityMoveUpdate := mkMoveUpdate {
  mu_entity_id : Z;
  mu_old_section : SectionPos;
  mu_new_section : SectionPos;
  mu_old_chunk : ChunkPos;
  mu_new_chunk : ChunkPos;
  mu_old_accessible : bool;
  mu_new_accessible : bool;
  mu_old_ticking : bool;
  mu_new_ticking : bool;
}.

Definition set_entry_cells (entry : EntityEntry) (cells : list EntitySpatialCell) : EntityEntry :=
  mkEntry (en_entity entry) (en_uuid entry) (en_section entry) (en_chunk entry) (en_bounding_box entry) cells
    (en_section_order entry) (en_ownership entry).
Definition set_entry_box (entry : EntityEntry) (box : WorldAabb) (cells : list EntitySpatialCell) : EntityEntry :=
  mkEntry (en_entity entry) (en_uuid entry) (en_section entry) (en_chunk entry) box cells
    (en_section_order entry) (en_ownership entry).

(** The indexes of an entity whose section or cells change. *)
Definition move_indexes (v : entities) s (current : EntityEntry) (new_section : SectionPos) (new_box : WorldAabb) : option ManagerState :=
  let id := en_entity current in
  let old_section := en_section current in
  let new_chunk := section_chunk new_section in
  let new_cells := cells_of new_box in
  let section_changed := negb (bool_decide (old_section = new_section)) in
  let s := if section_changed then
             set_chunks (set_sections s (remove_from id (PackedSectionPos_from old_section) (by_section s)))
               (remove_chunk_entry id (en_chunk current) (by_chunk s))
           else s in
  '(new_order, s) ← (if section_changed then next_section_order s else Some (en_section_order current, s));
  let cells := remove_from_spatial_cells (en_spatial_cells current) id (by_spatial_cell s) in
  let live := <[id := set_entry_cells current []]> (live_by_id s) in
  cells ← insert_into_spatial_cells live new_cells id (PackedSectionPos_from new_section, new_order) cells;
  let entry := mkEntry id (en_uuid current) new_section new_chunk new_box new_cells new_order (en_ownership current) in
  let s := set_live (set_cells s cells) (<[id := entry]> live) in
  Some (if section_changed then
          set_chunks (set_sections s (entry_or_default [] (fun ids => (ordered_insert id ids).1) (PackedSectionPos_from new_section) (by_section s)))
            (entry_or_default ∅ (union {[id]}) new_chunk (by_chunk s))
        else s).

Definition commit_move (v : entities) s (id : Z) (new_pos : Vec3) : option (ManagerState * result EntityMoveUpdate EntityMoveError) :=
  match live_by_id s !! id with
  | None => Some (s, Err (NotLive id))
  | Some current =>
      let new_section := section_of_pos new_pos in
      let new_chunk := section_chunk new_section in
      allowed ← check_destination v s current new_chunk;
      match allowed with
      | Err e => Some (s, Err e)
      | Ok _ =>
          let old_accessible := is_accessible s current in
          let new_accessible := is_accessible_at s (en_ownership current) new_chunk in
          let old_ticking := visibility_ticking (effective_visibility v current (chunk_visibility_of s (en_chunk current))) in
          let new_ticking := visibility_ticking (effective_visibility v current (chunk_visibility_of s new_chunk)) in
          let new_box := e_bounding_box (v id) in
          let update := mkMoveUpdate id (en_section current) new_section (en_chunk current) new_chunk old_accessible new_accessible
                          old_ticking new_ticking in
          if bool_decide (en_section current = new_section) && bool_decide (en_spatial_cells current = cells_of new_box) then
            Some (set_live s (<[id := set_entry_box current new_box (en_spatial_cells current)]> (live_by_id s)), Ok update)
          else
            s ← move_indexes v s current new_section new_box;
            let s := if old_accessible && negb new_accessible then set_accessible s (remove_first id (accessible_order s))
                     else if negb old_accessible && new_accessible then set_accessible s (ordered_insert id (accessible_order s)).1
                     else s in
            let s := if old_ticking && negb new_ticking then set_tick_list s (tick_list_remove id (tick_list s)).1
                     else if negb old_ticking && new_ticking then set_tick_list s (tick_list_add id (tick_list s)).1
                     else s in
            Some (s, Ok update)
      end
  end.

Definition commit_bounding_box_change (v : entities) s (id : Z) : option ManagerState :=
  match live_by_id s !! id with
  | None => Some s
  | Some current =>
      let box := e_bounding_box (v id) in
      let new_cells := cells_of box in
      if decide (en_spatial_cells current = new_cells) then
        Some (set_live s (<[id := set_entry_box current box (en_spatial_cells current)]> (live_by_id s)))
      else
        let cells := remove_from_spatial_cells (en_spatial_cells current) id (by_spatial_cell s) in
        let live := <[id := set_entry_cells current []]> (live_by_id s) in
        cells ← insert_into_spatial_cells live new_cells id (query_order current) cells;
        Some (set_live (set_cells s cells) (<[id := set_entry_box current box new_cells]> live))
  end.

(** ** Queries *)

Definition get_by_uuid s (uuid : Z) : option Z := id ← live_by_uuid s !! uuid; e ← live_by_id s !! id; Some (en_entity e).

Definition get_accessible_by_id s (id : Z) : option Z :=
  e ← live_by_id s !! id; if is_accessible s e then Some (en_entity e) else None.

Definition entry_le (e e' : EntityEntry) : Prop := order_le (query_order e) (query_order e').
#[global] Instance entry_le_dec e e' : Decision (entry_le e e').
Proof. unfold entry_le. apply _. Defined.

(** The ids of the cells that a query meets: each cell of the box is looked up, or all cells
    are searched when there are too many. *)
Definition populated_cells s (bounds : EntitySpatialCellBounds) : list (list Z) :=
  if direct_probe_count bounds <=? MAX_DIRECT_SPATIAL_CELL_PROBES then omap (fun c => by_spatial_cell s !! c) (bounds_cells bounds)
  else (filter (fun p => bounds_contains bounds p.1 = true) (map_to_list (by_spatial_cell s))).*2.

Definition entity_query_entries s (box : WorldAabb) : list EntityEntry :=
  let cells := populated_cells s (from_aabb box) in
  match cells with
  | [ids] => omap (fun id => live_by_id s !! id) ids
  | _ => merge_sort entry_le (omap (fun id => live_by_id s !! id) (elements (list_to_set (concat cells) : gset Z)))
  end.

Definition get_entities_in_aabb s (box : WorldAabb) : list Z :=
  en_entity <$> filter (fun e => is_accessible s e && intersects (en_bounding_box e) box = true) (entity_query_entries s box).

Definition get_accessible_entities s : list Z :=
  en_entity <$> filter (fun e => is_accessible s e = true) (omap (fun id => live_by_id s !! id) (accessible_order s)).

Definition live_entities_in_chunk s (chunk : ChunkPos) : list Z :=
  en_entity <$> omap (fun id => live_by_id s !! id) (entity_ids_in_chunk_order s chunk).

(** ** Saving *)

(** A second entry with the same UUID is a panic. *)
Definition push_saveable_entity (v : entities) (entry : EntityEntry) (acc : list Z * gset Z * gset Z) : option (list Z * gset Z * gset Z) :=
  let '(result, seen_ids, seen_uuids) := acc in
  if negb (entry_should_save v entry) then Some acc
  else if decide (en_entity entry ∈ seen_ids) then Some acc
  else if decide (en_uuid entry ∈ seen_uuids) then None
  else Some (result ++ [en_entity entry], {[en_entity entry]} ∪ seen_ids, {[en_uuid entry]} ∪ seen_uuids).

Definition get_saveable_entities_for_chunk (v : entities) s (chunk : ChunkPos) : option (list Z) :=
  let live := omap (fun id => live_by_id s !! id) (entity_ids_in_chunk_order s chunk) in
  acc ← for_each live (push_saveable_entity v) ([], ∅, ∅);
  acc ← for_each (default [] (unloading_by_chunk s !! chunk)) (push_saveable_entity v) acc;
  '(result, _, _) ← for_each (default [] (save_pending_by_chunk s !! chunk)) (push_saveable_entity v) acc;
  Some result.

Record UnsavedEntityReport := mkReport { ur_entity_id : Z; ur_uuid : Z; ur_chunk : ChunkPos }.

Definition push_unsaved_entity_report (v : entities) (saved_chunks : gset ChunkPos) (entry : EntityEntry) (acc : gset Z * list UnsavedEntityReport)
  : gset Z * list UnsavedEntityReport :=
  let '(seen, reports) := acc in
  if bool_decide (en_chunk entry ∈ saved_chunks) || negb (entry_should_save v entry) || bool_decide (en_entity entry ∈ seen) then acc
  else ({[en_entity entry]} ∪ seen, reports ++ [mkReport (en_entity entry) (en_uuid entry) (en_chunk entry)]).

(** The key [(chunk.x, chunk.y, entity_id)]. *)
Definition report_le (a b : UnsavedEntityReport) : Prop :=
  cp_x (ur_chunk a) < cp_x (ur_chunk b) \/
  (cp_x (ur_chunk a) = cp_x (ur_chunk b) /\
   (cp_y (ur_chunk a) < cp_y (ur_chunk b) \/ (cp_y (ur_chunk a) = cp_y (ur_chunk b) /\ ur_entity_id a <= ur_entity_id b))).
#[global] Instance report_le_dec a b : Decision (report_le a b).
Proof. unfold report_le. apply _. Defined.

Definition saveable_entities_outside_chunks (v : entities) s (saved_chunks : list ChunkPos) : list UnsavedEntityReport :=
  let entries := (map_to_list (live_by_id s)).*2 ++ stored_entries (unloading_by_chunk s) ++ stored_entries (save_pending_by_chunk s) in
  merge_sort report_le (foldl (fun acc entry => push_unsaved_entity_report v (list_to_set saved_chunks) entry acc) (∅, []) entries).2.

(** ** Small queries *)

Definition is_chunk_loaded s (pos : ChunkPos) : bool := bool_decide (is_Some (chunk_visibility s !! pos)).

Definition contains_live_or_unloading_entity s (id : Z) : bool :=
  bool_decide (is_Some (live_by_id s !! id)) || existsb (fun entry => en_entity entry =? id) (stored_entries (unloading_by_chunk s)).

Definition live_manager_owned_entity_chunk s (id : Z) : option ChunkPos :=
  e ← live_by_id s !! id; if decide (en_ownership e = ManagerOwned) then Some (en_chunk e) else None.

Definition has_entity_in_aabb_matching s (box : WorldAabb) (predicate : Z -> bool) : bool :=
  existsb (fun e => is_accessible s e && intersects (en_bounding_box e) box && predicate (en_entity e)) (entity_query_entries s box).
