(* ===== verification/EntityIndexes.v ===== *)
(** * The indexes of the entity manager

    The invariant of the manager: every index is what a recount of the live entities gives.
    The lemmas show that each operation keeps it and does not panic. *)

From S2P Require Import Prelude Positions Float64 ChunkHolder EntityManager.

#[local] Open Scope steel_scope.
Implicit Types s : ManagerState.
Implicit Types v : entities.

(** ** Cells *)

Lemma elem_of_seqZ_range x lo hi : x ∈ seqZ lo (hi - lo + 1) <-> lo <= x <= hi.
Proof. rewrite elem_of_seqZ. lia. Qed.

Lemma elem_of_bounds_cells b c : c ∈ bounds_cells b <-> bounds_contains b c = true.
Proof.
  unfold bounds_contains. rewrite !andb_true_iff, !Z.leb_le. unfold bounds_cells. rewrite list_elem_of_bind. destruct c as [x y z]. simpl. split.
  - intros (x' & Hc & Hx). apply list_elem_of_bind in Hc as (y' & Hc & Hy). apply list_elem_of_fmap in Hc as (z' & [= -> -> ->] & Hz).
    apply elem_of_seqZ_range in Hx, Hy, Hz. lia.
  - intros H. exists x. split; [|apply elem_of_seqZ_range; lia]. apply list_elem_of_bind. exists y. split; [|apply elem_of_seqZ_range; lia].
    apply list_elem_of_fmap. exists z. split; [done|]. apply elem_of_seqZ_range. lia.
Qed.

Lemma NoDup_bounds_cells b : NoDup (bounds_cells b).
Proof.
  apply NoDup_bind; [|intros x _|apply NoDup_seqZ].
  - intros x x' c _ _ Hc Hc'. apply list_elem_of_bind in Hc as (y & (z & -> & _)%list_elem_of_fmap & _).
    apply list_elem_of_bind in Hc' as (y' & (z' & [= -> _ _] & _)%list_elem_of_fmap & _). done.
  - apply NoDup_bind; [|intros y _|apply NoDup_seqZ].
    + intros y y' c _ _ (z & -> & _)%list_elem_of_fmap (z' & [= -> _] & _)%list_elem_of_fmap. done.
    + apply NoDup_fmap; [|apply NoDup_seqZ]. intros z z' [= ->]. done.
Qed.

Lemma cell_coordinate_le x y : x <= y -> cell_coordinate x <= cell_coordinate y.
Proof.
  intros Hle. unfold cell_coordinate. apply f64_floor_le. unfold f64_div_pow2. apply round_half_even_le; [done|]. apply f64_round_le. lia.
Qed.

(** A box whose corners are in order. *)
Definition box_ok (b : WorldAabb) : Prop :=
  v_x (box_min b) <= v_x (box_max b) /\ v_y (box_min b) <= v_y (box_max b) /\ v_z (box_min b) <= v_z (box_max b).

(** Boxes that intersect have a cell in common. *)
Lemma intersects_cell a b : box_ok a -> box_ok b -> intersects a b = true -> exists c, c ∈ cells_of a /\ c ∈ cells_of b.
Proof.
  intros (A1 & A2 & A3) (B1 & B2 & B3). unfold intersects, axis_overlaps. rewrite !andb_true_iff, !Z.ltb_lt. intros ([[X1 X2] [Y1 Y2]] & [Z1 Z2]).
  set (k := cell_coordinate).
  exists (mkCell (Z.max (k (v_x (box_min a))) (k (v_x (box_min b)))) (Z.max (k (v_y (box_min a))) (k (v_y (box_min b))))
            (Z.max (k (v_z (box_min a))) (k (v_z (box_min b))))).
  unfold cells_of. rewrite !elem_of_bounds_cells. unfold bounds_contains. rewrite !andb_true_iff, !Z.leb_le. simpl. fold k.
  assert (forall x y, x <= y -> k x <= k y) as Hk by apply cell_coordinate_le.
  pose proof (Hk _ _ A1). pose proof (Hk _ _ A2). pose proof (Hk _ _ A3). pose proof (Hk _ _ B1). pose proof (Hk _ _ B2). pose proof (Hk _ _ B3).
  pose proof (Hk _ _ (Z.lt_le_incl _ _ X1)). pose proof (Hk _ _ (Z.lt_le_incl _ _ X2)). pose proof (Hk _ _ (Z.lt_le_incl _ _ Y1)).
  pose proof (Hk _ _ (Z.lt_le_incl _ _ Y2)). pose proof (Hk _ _ (Z.lt_le_incl _ _ Z1)). pose proof (Hk _ _ (Z.lt_le_incl _ _ Z2)). lia.
Qed.

(** ** Sections of a chunk *)

(** Sections whose chunk is within the limits of the packed form. *)
Definition section_ok (p : SectionPos) : Prop := in_s 22 (sp_x p) /\ in_s 22 (sp_z p).

Lemma wraps_shift x k : 0 <= k <= 42 -> i64 (Z.shiftl (Z.land x (Z.shiftl 1 22 - 1)) 42) = wraps 22 x * 2 ^ 42.
Proof.
  intros _. rewrite Z.shiftl_mul_pow2 by lia. change (Z.shiftl 1 22 - 1) with (Z.ones 22). rewrite Z.land_ones by lia. unfold i64, wraps.
  replace (2 ^ 64) with (2 ^ 22 * 2 ^ 42) by done. replace (2 ^ (64 - 1)) with (2 ^ 21 * 2 ^ 42) by done.
  rewrite <- Z.mul_add_distr_r, Z.mul_mod_distr_r by lia. rewrite Zplus_mod_idemp_l. change (2 ^ (22 - 1)) with (2 ^ 21). lia.
Qed.

Lemma packed_section_value p : PackedSectionPos_from p = wraps 22 (sp_x p) * 2 ^ 42 + (sp_z p mod 2 ^ 22) * 2 ^ 20 + sp_y p mod 2 ^ 20.
Proof.
  unfold PackedSectionPos_from, SECTION_X_OFFSET, SECTION_Z_OFFSET, SECTION_XZ_MASK, SECTION_Y_MASK, SECTION_XZ_BITS, SECTION_Y_BITS.
  change (22 + 20) with 42. rewrite (wraps_shift _ 0) by lia. change (Z.shiftl 1 22 - 1) with (Z.ones 22). change (Z.shiftl 1 20 - 1) with (Z.ones 20).
  rewrite !Z.land_ones by lia. pose proof (Z.mod_pos_bound (sp_z p) (2 ^ 22) ltac:(lia)). pose proof (Z.mod_pos_bound (sp_y p) (2 ^ 20) ltac:(lia)).
  rewrite (Z.shiftl_mul_pow2 _ 20) by lia. unfold i64. rewrite (wraps_small 64) by (unfold in_s; lia).
  rewrite (Z.lor_comm (wraps 22 (sp_x p) * 2 ^ 42)). rewrite <- (Z.shiftl_mul_pow2 (wraps 22 (sp_x p))) by lia. rewrite lor_shiftl_add by lia.
  replace (sp_z p mod 2 ^ 22 * 2 ^ 20 + wraps 22 (sp_x p) * 2 ^ 42) with (Z.shiftl (sp_z p mod 2 ^ 22 + wraps 22 (sp_x p) * 2 ^ 22) 20)
    by (rewrite (Z.shiftl_mul_pow2 _ 20) by lia; change (2 ^ 42) with (2 ^ 22 * 2 ^ 20); ring).
  rewrite Z.lor_comm, lor_shiftl_add, (Z.shiftl_mul_pow2 _ 42) by lia. change (2 ^ 42) with (2 ^ 22 * 2 ^ 20). ring.
Qed.

(** The keys between the first and the last section of a chunk are those of its sections. *)
Lemma packed_section_range p chunk : section_ok p -> in_s 22 (cp_x chunk) -> in_s 22 (cp_y chunk) ->
  PackedSectionPos_from (mkSectionPos (cp_x chunk) 0 (cp_y chunk)) <= PackedSectionPos_from p <=
    PackedSectionPos_from (mkSectionPos (cp_x chunk) (-1) (cp_y chunk)) <-> section_chunk p = chunk.
Proof.
  intros (Hx & Hz) Hcx Hcz. rewrite !packed_section_value. simpl. rewrite !wraps_small by done.
  change (-1 mod 2 ^ 20) with (2 ^ 20 - 1). rewrite Z.mod_0_l by lia.
  pose proof (Z.mod_pos_bound (sp_y p) (2 ^ 20) ltac:(lia)). pose proof (Z.mod_pos_bound (sp_z p) (2 ^ 22) ltac:(lia)).
  pose proof (Z.mod_pos_bound (cp_y chunk) (2 ^ 22) ltac:(lia)). destruct chunk as [cx cz]. unfold section_chunk. simpl in *. split.
  - intros Hr. assert (sp_x p = cx) as Ex by lia. assert (sp_z p mod 2 ^ 22 = cz mod 2 ^ 22) as Ez by lia. f_equal; [done|].
    rewrite <- (wraps_wrapu 22 (sp_z p)), <- (wraps_wrapu 22 cz) by (lia || done). unfold wrapu. by rewrite Ez.
  - intros [= -> ->]. lia.
Qed.

(** ** Lists of ids under keys *)

Section Index.
Context {K : Type} `{Countable K}.
Implicit Types m : gmap K (list Z).

Record index_ok m (has : Z -> K -> Prop) : Prop := {
  ix_lists : forall k ids, m !! k = Some ids -> ids <> [] /\ NoDup ids;
  ix_has : forall k id, id ∈ default [] (m !! k) <-> has id k;
}.

Lemma index_ok_ext m has has' : (forall id k, has id k <-> has' id k) -> index_ok m has -> index_ok m has'.
Proof. intros E [H1 H2]. split; [done|]. intros k id. by rewrite H2, E. Qed.

Lemma elem_of_remove_first id x ids : NoDup ids -> x ∈ remove_first id ids <-> x ∈ ids /\ x <> id.
Proof.
  induction ids as [|y ids IH]; intros Hn; simpl; [rewrite !elem_of_nil; tauto|]. apply NoDup_cons in Hn as [Hy Hn].
  destruct (Z.eqb_spec y id) as [->|Hne].
  - rewrite elem_of_cons. split; [|naive_solver]. intros Hx. split; [by right|]. by intros ->.
  - rewrite !elem_of_cons, IH by done. naive_solver.
Qed.

Lemma sublist_remove_first id ids : remove_first id ids `sublist_of` ids.
Proof. induction ids as [|y ids IH]; simpl; [done|]. destruct (y =? id); [by constructor|by constructor]. Qed.

Lemma NoDup_remove_first id ids : NoDup ids -> NoDup (remove_first id ids).
Proof. intros Hn. by eapply sublist_NoDup; [|apply sublist_remove_first]. Qed.

Lemma remove_from_ok m has id k : index_ok m has -> index_ok (remove_from id k m) (fun id' k' => has id' k' /\ ~ (id' = id /\ k' = k)).
Proof.
  intros [H1 H2]. unfold remove_from. destruct (m !! k) as [ids|] eqn:E.
  - destruct (H1 k ids E) as [Hne Hn]. assert (forall x, x ∈ remove_first id ids <-> has x k /\ ~ (x = id /\ k = k)) as Hrem.
    { intros x. rewrite elem_of_remove_first by done. rewrite <- (H2 k), E. simpl. tauto. }
    case_decide as Ee.
    + split.
      * intros k' ids'. rewrite lookup_delete_Some. intros [_ Hk]. by eapply H1.
      * intros k' x. destruct (decide (k' = k)) as [->|Hk].
        -- rewrite lookup_delete_eq. simpl. rewrite Ee in Hrem. by rewrite <- Hrem.
        -- rewrite lookup_delete_ne by done. rewrite H2. naive_solver.
    + split.
      * intros k' ids'. rewrite lookup_insert_Some. intros [[<- <-]|[_ Hk]]; [|by eapply H1]. split; [done|]. by apply NoDup_remove_first.
      * intros k' x. destruct (decide (k' = k)) as [->|Hk]; [rewrite lookup_insert_eq|rewrite lookup_insert_ne by done]; simpl.
        -- apply Hrem.
        -- rewrite H2. naive_solver.
  - split; [done|]. intros k' x. rewrite H2. split; [|naive_solver]. intros Hx. split; [done|]. intros [-> ->]. apply H2 in Hx. rewrite E in Hx.
    by apply elem_of_nil in Hx.
Qed.

Lemma index_put_ok m has id k ids : index_ok m has -> ids <> [] -> NoDup ids ->
  (forall x, x ∈ ids <-> has x k \/ x = id) -> index_ok (<[k := ids]> m) (fun id' k' => has id' k' \/ (id' = id /\ k' = k)).
Proof.
  intros [H1 H2] Hne Hn Hids. split.
  - intros k' ids'. rewrite lookup_insert_Some. intros [[<- <-]|[_ Hk]]; [done|by eapply H1].
  - intros k' x. destruct (decide (k' = k)) as [->|Hk]; [rewrite lookup_insert_eq|rewrite lookup_insert_ne by done]; simpl.
    + rewrite Hids. tauto.
    + rewrite H2. tauto.
Qed.

Lemma ordered_insert_ids id ids : NoDup ids -> NoDup (ordered_insert id ids).1 /\ (forall x, x ∈ (ordered_insert id ids).1 <-> x ∈ ids \/ x = id).
Proof.
  intros Hn. unfold ordered_insert. case_decide as Hin; simpl.
  - split; [done|]. naive_solver.
  - split; [|intros x; by rewrite elem_of_app, list_elem_of_singleton]. apply NoDup_app. split; [done|]. split; [|apply NoDup_singleton].
    intros x Hx ->%list_elem_of_singleton. done.
Qed.

Lemma index_NoDup m has k : index_ok m has -> NoDup (default [] (m !! k)).
Proof. intros [H1 _]. destruct (m !! k) as [ids|] eqn:E; simpl; [by apply (H1 k)|constructor]. Qed.

Lemma entry_insert_ok m has id k : index_ok m has ->
  index_ok (entry_or_default [] (fun ids => (ordered_insert id ids).1) k m) (fun id' k' => has id' k' \/ (id' = id /\ k' = k)).
Proof.
  intros Hm. destruct (ordered_insert_ids id _ (index_NoDup m has k Hm)) as [Hn Hin]. apply index_put_ok; [done| |done|].
  - intros E. specialize (Hin id). rewrite E in Hin. apply (not_elem_of_nil id). by apply Hin; right.
  - intros x. rewrite Hin. by rewrite (ix_has _ _ Hm).
Qed.

Lemma index_ok_keys m has : index_ok m has -> forall k, is_Some (m !! k) <-> exists id, has id k.
Proof.
  intros [H1 H2] k. split.
  - intros [ids E]. destruct (H1 k ids E) as [Hne _]. destruct ids as [|x ids]; [done|]. exists x. apply H2. rewrite E. by left.
  - intros [x Hx]. apply H2 in Hx. destruct (m !! k); [by eexists|]. by apply elem_of_nil in Hx.
Qed.
End Index.

(** ** Cells in query order *)

#[global] Instance order_le_trans : Transitive order_le.
Proof. intros [a b] [c d] [e f]. unfold order_le. simpl. lia. Qed.
#[global] Instance order_le_total : Total order_le.
Proof. intros [a b] [c d]. unfold order_le. simpl. lia. Qed.

Definition order_of (live : gmap Z EntityEntry) (id : Z) : Z * Z := match live !! id with Some e => query_order e | None => (0, 0) end.
Definition sorted_ids (q : Z -> Z * Z) (ids : list Z) : Prop := StronglySorted (fun x y => order_le (q x) (q y)) ids.

Lemma sorted_ids_ext q q' ids : (forall x, x ∈ ids -> q x = q' x) -> sorted_ids q ids -> sorted_ids q' ids.
Proof.
  intros E. unfold sorted_ids. induction 1 as [|x ids Hs IH Hx]; [constructor|]. constructor; [apply IH; intros y Hy; apply E; by right|].
  rewrite Forall_forall in Hx |- *. intros y Hy. rewrite <- !E by (by left || by right). by apply Hx.
Qed.

Lemma sorted_sublist q ids ids' : ids' `sublist_of` ids -> sorted_ids q ids -> sorted_ids q ids'.
Proof.
  intros Hsub Hs. unfold sorted_ids in *. induction Hsub as [|x l k Hsub IH|x l k Hsub IH]; [done|..]; inversion Hs as [|? ? Hs' Hx]; subst.
  - constructor; [auto|]. rewrite Forall_forall in Hx |- *. intros y Hy. apply Hx. by eapply elem_of_sublist.
  - auto.
Qed.

Lemma comes_after_spec live order x : is_Some (live !! x) -> comes_after live order x = true <-> ~ order_le (order_of live x) order.
Proof.
  intros [e E]. unfold comes_after, order_of. rewrite E. rewrite negb_true_iff, bool_decide_eq_false. done.
Qed.

(** The insertion index splits the ids at the new order. *)
Lemma insertion_index_spec live order ids : (forall x, x ∈ ids -> is_Some (live !! x)) -> sorted_ids (order_of live) ids ->
  (insertion_index live order ids <= length ids)%nat /\
  (forall x, x ∈ take (insertion_index live order ids) ids -> order_le (order_of live x) order) /\
  (forall y, y ∈ drop (insertion_index live order ids) ids -> order_le order (order_of live y)).
Proof.
  intros Hlive Hs. unfold insertion_index.
  assert ((forall x, x ∈ ids -> order_le (order_of live x) order) -> (length ids <= length ids)%nat /\
    (forall x, x ∈ take (length ids) ids -> order_le (order_of live x) order) /\
    (forall y, y ∈ drop (length ids) ids -> order_le order (order_of live y))) as Hend.
  { intros Hall. split; [done|]. rewrite firstn_all, drop_all. split; [done|]. by intros y ?%elem_of_nil. }
  destruct (match last ids with None => true | Some x => negb (comes_after live order x) end) eqn:Elast.
  - apply Hend. intros x Hx. destruct (last ids) as [y|] eqn:Ey; [|apply last_None in Ey; subst; by apply elem_of_nil in Hx].
    apply last_Some in Ey as [pre ->]. assert (order_le (order_of live y) order) as Hy.
    { apply negb_true_iff in Elast. destruct (decide (order_le (order_of live y) order)) as [?|Hn]; [done|].
      apply (comes_after_spec live) in Hn; [congruence|]. apply Hlive, elem_of_app. right. by left. }
    apply elem_of_app in Hx as [Hx| ->%list_elem_of_singleton]; [|done]. transitivity (order_of live y); [|done].
    eapply StronglySorted_app_1_elem_of in Hs; [exact Hs|done|]. by left.
  - destruct (list_find _ ids) as [[i z]|] eqn:Ef.
    + apply list_find_Some in Ef as (Hi & Hz & Hbefore). apply lookup_lt_Some in Hi as Hlt.
      assert (z ∈ ids) as Hzin by (by eapply list_elem_of_lookup_2). apply comes_after_spec in Hz; [|auto]. split; [lia|]. split.
      * intros x Hx. apply elem_of_take in Hx as (j & Hj & Hji). specialize (Hbefore j x Hj Hji).
        destruct (decide (order_le (order_of live x) order)) as [?|Hn]; [done|]. exfalso. apply Hbefore, comes_after_spec; [|done].
        apply Hlive. by eapply list_elem_of_lookup_2.
      * intros y Hy. assert (order_le order (order_of live z)) as Hoz by (destruct (total order_le order (order_of live z)); [done|by destruct Hz]).
        rewrite (drop_S _ z) in Hy by done. apply elem_of_cons in Hy as [->|Hy]; [done|]. transitivity (order_of live z); [done|].
        unfold sorted_ids in Hs. rewrite <- (take_drop_middle ids i z Hi) in Hs. apply StronglySorted_app_1_r in Hs.
        inversion Hs as [|? ? _ Hall]; subst. rewrite Forall_forall in Hall. by apply Hall.
    + apply Hend. intros x Hx. rewrite list_find_None, Forall_forall in Ef. specialize (Ef x Hx).
      destruct (decide (order_le (order_of live x) order)) as [?|Hn]; [done|]. exfalso. apply Ef, comes_after_spec; [auto|done].
Qed.

(** An index of cells: the ids of each are live and in query order. *)
Definition cells_ok (live : gmap Z EntityEntry) (m : gmap EntitySpatialCell (list Z)) (has : Z -> EntitySpatialCell -> Prop) : Prop :=
  index_ok m has /\ (forall c ids, m !! c = Some ids -> sorted_ids (order_of live) ids).

Lemma insert_cell_ok live (m : gmap EntitySpatialCell (list Z)) has q id order c : index_ok m has -> (forall ids, m !! c = Some ids -> sorted_ids q ids) ->
  (forall x, has x c -> is_Some (live !! x)) -> ~ has id c -> q id = order -> (forall x, x <> id -> q x = order_of live x) ->
  let ids := default [] (m !! c) in
  exists ids', ordered_insert_at (insertion_index live order ids) id ids = Some ids' /\ ids' <> [] /\ NoDup ids' /\
    (forall x, x ∈ ids' <-> x ∈ ids \/ x = id) /\ sorted_ids q ids'.
Proof.
  intros Hm Hs Hl Hno Hq Hqx ids. pose proof (index_NoDup m has c Hm) as Hn. fold ids in Hn.
  assert (id ∉ ids) as Hid by (intros Hin; by apply (ix_has _ _ Hm) in Hin).
  assert (forall x, x ∈ ids -> is_Some (live !! x)) as Hlive by (intros x Hx; apply (ix_has _ _ Hm) in Hx; by apply Hl).
  assert (sorted_ids q ids) as Hsq by (unfold ids; destruct (m !! c) eqn:E; simpl; [by eapply Hs|constructor]).
  assert (sorted_ids (order_of live) ids) as Hsorted by (apply (sorted_ids_ext q); [|done]; intros x Hx; apply Hqx; by intros ->).
  destruct (insertion_index_spec live order ids Hlive Hsorted) as (Hi & Hbefore & Hafter). set (i := insertion_index live order ids) in *.
  unfold ordered_insert_at. rewrite decide_False by done. rewrite decide_True by done. eexists. split; [done|].
  assert (take i ids ++ id :: drop i ids ≡ₚ id :: ids) as Hperm by (rewrite <- Permutation_middle; by rewrite take_drop).
  split_and!.
  - intros E. rewrite E in Hperm. by apply Permutation_nil in Hperm.
  - rewrite Hperm. by constructor.
  - intros x. rewrite Hperm, elem_of_cons. tauto.
  - rewrite <- (take_drop i ids) in Hid, Hsq. apply not_elem_of_app in Hid as [Hid1 Hid2].
    apply StronglySorted_app in Hsq as (Hx & Hs1 & Hs2). apply StronglySorted_app_2.
    + intros x y Hxin Hyin. apply elem_of_cons in Hyin as [->|Hyin]; [|auto]. rewrite (Hqx x) by (by intros ->). rewrite Hq. auto.
    + done.
    + constructor; [done|]. apply Forall_forall. intros y Hy. rewrite Hq, (Hqx y) by (by intros ->). auto.
Qed.

(** Each of the new cells gets the id at its place. *)
Lemma insert_cells_ok live m has q id order cells : index_ok m has -> (forall c ids, m !! c = Some ids -> sorted_ids q ids) ->
  (forall x c, has x c -> x <> id /\ is_Some (live !! x)) -> NoDup cells -> q id = order -> (forall x, x <> id -> q x = order_of live x) ->
  exists m', insert_into_spatial_cells live cells id order m = Some m' /\ index_ok m' (fun x c => has x c \/ (x = id /\ c ∈ cells)) /\
    forall c ids, m' !! c = Some ids -> sorted_ids q ids.
Proof.
  intros Hm Hs Hl Hn Hq Hqx. unfold insert_into_spatial_cells.
  destruct (for_each_ind (fun done m' => index_ok m' (fun x c => has x c \/ (x = id /\ c ∈ done)) /\ forall c ids, m' !! c = Some ids -> sorted_ids q ids)
    cells (fun cell m => let ids := default [] (m !! cell) in
      ids ← ordered_insert_at (insertion_index live order ids) id ids; Some (<[cell := ids]> m)) m) as (m' & E & H).
  - split; [|done]. revert Hm. apply index_ok_ext. intros x c. rewrite elem_of_nil. tauto.
  - intros done c todo m' -> [Hm' Hs']. apply NoDup_app in Hn as (_ & Hdisj & _).
    destruct (insert_cell_ok live m' _ q id order c Hm' (Hs' c)) as (ids' & Eids & Hne & Hnd & Hin & Hsort); [| |done|done|].
    + intros x [Hx|[-> Hx]]; [by destruct (Hl x c Hx)|]. exfalso. apply (Hdisj _ Hx). by left.
    + intros [Hx|[_ Hx]]; [by destruct (Hl id c Hx)|]. apply (Hdisj _ Hx). by left.
    + simpl. rewrite Eids. simpl. eexists. split; [done|]. split.
      * apply (index_ok_ext _ (fun id' k' => (has id' k' \/ (id' = id /\ k' ∈ done)) \/ (id' = id /\ k' = c))).
        { intros x k. rewrite elem_of_app, list_elem_of_singleton. tauto. }
        apply index_put_ok; [done|done|done|]. intros x. rewrite Hin. by rewrite (ix_has _ _ Hm').
      * intros c' ids. rewrite lookup_insert_Some. intros [[<- <-]|[_ H]]; [done|by eapply Hs'].
  - by exists m'.
Qed.

Lemma remove_cells_ok live m has id cells : cells_ok live m has ->
  cells_ok live (remove_from_spatial_cells cells id m) (fun x c => has x c /\ ~ (x = id /\ c ∈ cells)).
Proof.
  unfold remove_from_spatial_cells. revert m has. induction cells as [|c cells IH]; intros m has [Hm Hs]; simpl.
  - split; [|done]. revert Hm. apply index_ok_ext. intros x c. rewrite elem_of_nil. tauto.
  - destruct (IH (remove_from id c m) (fun id' k' => has id' k' /\ ~ (id' = id /\ k' = c))) as [Hm' Hs'].
    + split; [by apply remove_from_ok|]. intros c' ids. unfold remove_from. destruct (m !! c) as [old|] eqn:E; [|apply Hs].
      case_decide; [rewrite lookup_delete_Some; intros [_ ?]; by eapply Hs|]. rewrite lookup_insert_Some. intros [[<- <-]|[_ ?]]; [|by eapply Hs].
      eapply sorted_sublist; [apply sublist_remove_first|by eapply Hs].
    + split; [|done]. revert Hm'. apply index_ok_ext. intros x k. rewrite elem_of_cons. tauto.
Qed.

(** ** Members of an index *)

(** The live entities whose entry is related to a key. *)
Definition member {K} (P : EntityEntry -> K -> Prop) (live : gmap Z EntityEntry) (id : Z) (k : K) : Prop :=
  exists e, live !! id = Some e /\ P e k.

Definition in_section (e : EntityEntry) (k : Z) : Prop := PackedSectionPos_from (en_section e) = k.
Definition in_cell (e : EntityEntry) (c : EntitySpatialCell) : Prop := c ∈ en_spatial_cells e.
Definition in_chunk (e : EntityEntry) (c : ChunkPos) : Prop := en_chunk e = c.

Lemma member_delete {K} (P : EntityEntry -> K -> Prop) live id x k : member P (delete id live) x k <-> x <> id /\ member P live x k.
Proof.
  unfold member. split.
  - intros (e & [Hx He]%lookup_delete_Some & HP). eauto.
  - intros (Hx & e & He & HP). exists e. by rewrite lookup_delete_ne.
Qed.

Lemma member_insert {K} (P : EntityEntry -> K -> Prop) live id e x k :
  member P (<[id := e]> live) x k <-> (x = id /\ P e k) \/ (x <> id /\ member P live x k).
Proof.
  unfold member. destruct (decide (x = id)) as [->|Hx].
  - rewrite lookup_insert_eq. naive_solver.
  - rewrite lookup_insert_ne by done. naive_solver.
Qed.

Lemma member_replace {K} (P : EntityEntry -> K -> Prop) live id e0 e : live !! id = Some e0 -> (forall k, P e0 k <-> P e k) ->
  forall x k, member P live x k <-> member P (<[id := e]> live) x k.
Proof.
  intros H0 HP x k. rewrite member_insert. unfold member. destruct (decide (x = id)) as [->|Hx].
  - rewrite H0. naive_solver.
  - naive_solver.
Qed.

Section Keyed.
Context {K : Type} `{Countable K} (P : EntityEntry -> K -> Prop).

Lemma index_delete_ok m live id e k : index_ok m (member P live) -> live !! id = Some e -> (forall k', P e k' <-> k = k') ->
  index_ok (remove_from id k m) (member P (delete id live)).
Proof.
  intros Hm He Hk. eapply index_ok_ext; [|by apply remove_from_ok]. intros x k'. rewrite member_delete. split; [|naive_solver].
  intros [Hx Hn]. split; [|done]. intros ->. destruct Hx as (e' & He' & Hp). assert (e' = e) as -> by congruence. apply Hk in Hp. by apply Hn.
Qed.

Lemma index_insert_ok m live id e k : index_ok m (member P (delete id live)) -> (forall k', P e k' <-> k = k') ->
  index_ok (entry_or_default [] (fun ids => (ordered_insert id ids).1) k m) (member P (<[id := e]> live)).
Proof.
  intros Hm Hk. eapply index_ok_ext; [|by apply entry_insert_ok]. intros x k'. simpl. rewrite member_insert, member_delete, Hk. naive_solver.
Qed.
End Keyed.

Lemma cells_delete_ok live m id e : cells_ok live m (member in_cell live) -> live !! id = Some e ->
  cells_ok (delete id live) (remove_from_spatial_cells (en_spatial_cells e) id m) (member in_cell (delete id live)).
Proof.
  intros Hm He. destruct (remove_cells_ok live m _ id (en_spatial_cells e) Hm) as [Hi Hs].
  assert (index_ok (remove_from_spatial_cells (en_spatial_cells e) id m) (member in_cell (delete id live))) as Hi'.
  { revert Hi. apply index_ok_ext. intros x c. rewrite member_delete. split; [|naive_solver]. intros [Hx Hn]. split; [|done]. intros ->.
    destruct Hx as (e' & He' & Hp). assert (e' = e) as -> by congruence. by apply Hn. }
  split; [done|]. intros c ids Hc. apply (sorted_ids_ext (order_of live)); [|by eapply Hs]. intros x Hx. unfold order_of.
  assert (member in_cell (delete id live) x c) as [Hne _]%member_delete by (apply (ix_has _ _ Hi'); by rewrite Hc). by rewrite lookup_delete_ne.
Qed.

Lemma cells_insert_ok live live' m id e : cells_ok (delete id live) m (member in_cell (delete id live)) -> NoDup (en_spatial_cells e) ->
  (forall x, x <> id -> live' !! x = live !! x) ->
  exists m', insert_into_spatial_cells live' (en_spatial_cells e) id (query_order e) m = Some m' /\
    cells_ok (<[id := e]> live) m' (member in_cell (<[id := e]> live)).
Proof.
  intros [Hm Hs] Hn Hlive.
  assert (forall x, x <> id -> order_of (<[id := e]> live) x = order_of live' x) as Hord.
  { intros x Hx. unfold order_of. by rewrite lookup_insert_ne, Hlive. }
  destruct (insert_cells_ok live' m (member in_cell (delete id live)) (order_of (<[id := e]> live)) id (query_order e) (en_spatial_cells e)) as (m' & E & Hi & Hs').
  - done.
  - intros c ids Hc. apply (sorted_ids_ext (order_of (delete id live))); [|by eapply Hs]. intros x Hx.
    assert (member in_cell (delete id live) x c) as [Hne _]%member_delete by (apply (ix_has _ _ Hm); by rewrite Hc).
    unfold order_of. by rewrite lookup_delete_ne, lookup_insert_ne.
  - intros x c [Hne (e' & He' & _)]%member_delete. split; [done|]. by rewrite Hlive, He'.
  - done.
  - unfold order_of. by rewrite lookup_insert_eq.
  - done.
  - exists m'. split; [done|]. split; [|done]. revert Hi. apply index_ok_ext. intros x c. rewrite member_insert, member_delete. unfold in_cell. naive_solver.
Qed.

(** The sets of ids by chunk. *)
Definition chunks_ok (m : gmap ChunkPos (gset Z)) (has : Z -> ChunkPos -> Prop) : Prop :=
  (forall c, m !! c <> Some ∅) /\ forall id c, id ∈ (default ∅ (m !! c) : gset Z) <-> has id c.

Lemma chunks_delete_ok m live id e : chunks_ok m (member in_chunk live) -> live !! id = Some e ->
  chunks_ok (remove_chunk_entry id (en_chunk e) m) (member in_chunk (delete id live)).
Proof.
  intros [Hne Hm] He. set (c := en_chunk e). assert (member in_chunk live id c) as Hid by (exists e; done). apply Hm in Hid.
  unfold remove_chunk_entry. destruct (m !! c) as [ids|] eqn:E; [|by apply elem_of_empty in Hid]. simpl in Hid.
  assert (forall x k, member in_chunk (delete id live) x k <-> if decide (k = c) then x ∈ ids ∖ {[id]} else x ∈ (default ∅ (m !! k) : gset Z)) as Hx.
  { intros x k. rewrite member_delete, <- Hm. case_decide as Hk; [subst k; rewrite E; simpl; set_solver|]. split; [naive_solver|]. intros Hx. split; [|done].
    intros ->. apply Hm in Hx as (e' & He' & Hc). unfold in_chunk in Hc. assert (e' = e) as -> by congruence. done. }
  case_decide as Hem.
  - split.
    + intros k. destruct (decide (k = c)) as [->|]; [by rewrite lookup_delete_eq|by rewrite lookup_delete_ne].
    + intros x k. rewrite Hx. case_decide as Hk; [subst k; rewrite lookup_delete_eq, Hem; done|by rewrite lookup_delete_ne].
  - split.
    + intros k. destruct (decide (k = c)) as [->|]; [rewrite lookup_insert_eq; congruence|by rewrite lookup_insert_ne].
    + intros x k. rewrite Hx. case_decide as Hk; [subst k; by rewrite lookup_insert_eq|by rewrite lookup_insert_ne].
Qed.

Lemma chunks_insert_ok m live id e : chunks_ok m (member in_chunk (delete id live)) ->
  chunks_ok (entry_or_default ∅ (union {[id]}) (en_chunk e) m) (member in_chunk (<[id := e]> live)).
Proof.
  intros [Hne Hm]. unfold entry_or_default. split.
  - intros k. destruct (decide (k = en_chunk e)) as [->|]; [rewrite lookup_insert_eq|by rewrite lookup_insert_ne]. intros [= E]. set_solver.
  - intros x k. rewrite member_insert. pose proof (Hm x k) as Hx. rewrite member_delete in Hx. unfold in_chunk at 1.
    destruct (decide (k = en_chunk e)) as [->|]; [rewrite lookup_insert_eq|rewrite lookup_insert_ne by done]; simpl.
    + rewrite elem_of_union, elem_of_singleton, Hx. naive_solver.
    + rewrite Hx. naive_solver.
Qed.
