(* ===== verification/EntityInvariant.v ===== *)
(** * The invariant of the entity manager

    What holds of the live entries, the indexes, the lists of accessible and ticking
    entities and the entries that are kept aside, and the operations on one live entry that
    keep it. *)

From S2P Require Import Prelude Positions Float64 ChunkHolder EntityManager EntityIndexes.

#[local] Open Scope steel_scope.
Implicit Types s : ManagerState.
Implicit Types v : entities.
Implicit Types e : EntityEntry.

(** ** Live entries and their indexes *)

(** What an entry of the entity [id] looks like while it is live. *)
Record entry_ok (bound id : Z) e : Prop := {
  eo_id : en_entity e = id;
  eo_chunk : en_chunk e = section_chunk (en_section e);
  eo_section : section_ok (en_section e);
  eo_cells : en_spatial_cells e = cells_of (en_bounding_box e);
  eo_box : box_ok (en_bounding_box e);
  eo_order : 0 <= en_section_order e < bound;
}.

(** Every index is what a recount of the live entries gives. *)
Record indexes_ok s : Prop := {
  io_live : forall id e, live_by_id s !! id = Some e -> entry_ok (next_order s) id e;
  io_orders : forall i j e e', live_by_id s !! i = Some e -> live_by_id s !! j = Some e' -> en_section_order e = en_section_order e' -> i = j;
  io_uuids : forall u id, live_by_uuid s !! u = Some id <-> exists e, live_by_id s !! id = Some e /\ en_uuid e = u;
  io_sections : index_ok (by_section s) (member in_section (live_by_id s));
  io_cells : cells_ok (live_by_id s) (by_spatial_cell s) (member in_cell (live_by_id s));
  io_chunks : chunks_ok (by_chunk s) (member in_chunk (live_by_id s));
  io_bound : 0 <= next_order s;
}.

(** The lists of accessible and of ticking entities are those of the given entries. *)
Record seen_ok (acc tick : EntityEntry -> Prop) s : Prop := {
  so_accessible_NoDup : NoDup (accessible_order s);
  so_accessible : forall id, id ∈ accessible_order s <-> exists e, live_by_id s !! id = Some e /\ acc e;
  so_order_NoDup : NoDup (tl_order (tick_list s));
  so_order : forall id, id ∈ tl_order (tick_list s) <-> id ∈ tl_active (tick_list s);
  so_ticks : forall id, id ∈ tl_active (tick_list s) <-> exists e, live_by_id s !! id = Some e /\ tick e;
}.

(** What the operations on live entries leave alone. *)
Record same_storage s s' : Prop := {
  ss_visibility : chunk_visibility s' = chunk_visibility s;
  ss_unloading : unloading_by_chunk s' = unloading_by_chunk s;
  ss_pending : save_pending_by_chunk s' = save_pending_by_chunk s;
}.

#[global] Instance same_storage_preorder : PreOrder same_storage.
Proof. split; [done|]. intros a b c [A1 A2 A3] [B1 B2 B3]. split; congruence. Qed.

Lemma seen_ok_ext acc tick acc' tick' s :
  (forall id e, live_by_id s !! id = Some e -> (acc e <-> acc' e) /\ (tick e <-> tick' e)) -> seen_ok acc tick s -> seen_ok acc' tick' s.
Proof.
  intros E [H1 H2 H3 H4 H5]. split; [done| |done|done|].
  - intros id. rewrite H2. split; intros (e & He & Ha); exists e; (split; [done|]; by apply (E id e He)).
  - intros id. rewrite H5. split; intros (e & He & Ha); exists e; (split; [done|]; by apply (E id e He)).
Qed.

(** *** Replacing the entry of an entity *)

Lemma live_insert_ok s (live : gmap Z EntityEntry) id e : indexes_ok s -> (forall x, x <> id -> live !! x = live_by_id s !! x) -> forall bound, next_order s <= bound ->
  entry_ok bound id e -> forall x e', <[id := e]> live !! x = Some e' -> entry_ok bound x e'.
Proof.
  intros Hs Hl bound Hb He x e'. rewrite lookup_insert_Some. intros [[<- <-]|[Hne Hx]]; [done|]. rewrite Hl in Hx by done.
  destruct (io_live s Hs x e' Hx) as [E1 E2 E3 E4 E5 E6]. split; try done. lia.
Qed.

(** A section order that no other entity has. *)
Lemma orders_insert_ok s (live : gmap Z EntityEntry) id e : indexes_ok s -> (forall x, x <> id -> live !! x = live_by_id s !! x) ->
  (forall x e', x <> id -> live_by_id s !! x = Some e' -> en_section_order e' <> en_section_order e) ->
  forall i j a b, <[id := e]> live !! i = Some a -> <[id := e]> live !! j = Some b -> en_section_order a = en_section_order b -> i = j.
Proof.
  intros Hs Hl Hnew i j a b. rewrite !lookup_insert_Some. intros [[<- <-]|[Hi Ha]] [[<- <-]|[Hj Hb]] E; [done|..].
  - rewrite Hl in Hb by done. by destruct (Hnew j b).
  - rewrite Hl in Ha by done. by destruct (Hnew i a).
  - rewrite Hl in Ha, Hb by done. by eapply io_orders.
Qed.

Lemma new_order_fresh s : indexes_ok s -> forall x e, live_by_id s !! x = Some e -> en_section_order e <> next_order s.
Proof. intros Hs x e He. destruct (io_live s Hs x e He) as [_ _ _ _ _ Ho]. lia. Qed.

Lemma NoDup_cells box : NoDup (cells_of box).
Proof. apply NoDup_bounds_cells. Qed.

(** ** Inserting a live entry *)

Definition entry_inserted v s entry : EntityEntry :=
  let box := e_bounding_box (v (en_entity entry)) in
  mkEntry (en_entity entry) (en_uuid entry) (en_section entry) (en_chunk entry) box (cells_of box) (next_order s) (en_ownership entry).

(** The state before the entity is listed as accessible. *)
Definition state_inserted s e cells : ManagerState :=
  mkManager (chunk_visibility s) (<[en_entity e := e]> (live_by_id s)) (<[en_uuid e := en_entity e]> (live_by_uuid s)) (accessible_order s)
    (entry_or_default [] (fun ids => (ordered_insert (en_entity e) ids).1) (PackedSectionPos_from (en_section e)) (by_section s)) cells
    (entry_or_default ∅ (union {[en_entity e]}) (en_chunk e) (by_chunk s)) (unloading_by_chunk s) (save_pending_by_chunk s) (tick_list s)
    (next_order s + 1).

Lemma insert_live_entry_eq v s entry : live_by_id s !! en_entity entry = None -> live_by_uuid s !! en_uuid entry = None ->
  next_order s < 2 ^ 64 - 1 ->
  insert_live_entry v s entry =
    cells ← insert_into_spatial_cells (live_by_id s) (en_spatial_cells (entry_inserted v s entry)) (en_entity entry)
              (query_order (entry_inserted v s entry)) (by_spatial_cell s);
    Some (if is_accessible_at s (en_ownership entry) (en_chunk entry)
          then set_accessible (state_inserted s (entry_inserted v s entry) cells) (ordered_insert (en_entity entry) (accessible_order s)).1
          else state_inserted s (entry_inserted v s entry) cells).
Proof.
  intros Hid Hu Hn. unfold insert_live_entry. rewrite decide_False by (rewrite Hid; by intros [? ?]). rewrite decide_False by (rewrite Hu; by intros [? ?]).
  unfold next_section_order. cbn [next_order set_uuids]. replace (next_order s <? 2 ^ 64 - 1) with true by lia. reflexivity.
Qed.

Lemma state_inserted_ok s e cells : indexes_ok s -> live_by_id s !! en_entity e = None -> live_by_uuid s !! en_uuid e = None ->
  entry_ok (next_order s + 1) (en_entity e) e -> en_section_order e = next_order s ->
  cells_ok (<[en_entity e := e]> (live_by_id s)) cells (member in_cell (<[en_entity e := e]> (live_by_id s))) -> indexes_ok (state_inserted s e cells).
Proof.
  intros Hs Hid Hu He Ho Hcells.
  assert (delete (en_entity e) (live_by_id s) = live_by_id s) as Hdel by (by apply delete_id).
  split; cbn -[cells_of ordered_insert].
  - apply (live_insert_ok s); [done|done|lia|done].
  - apply (orders_insert_ok s); [done|done|]. intros x e' _. rewrite Ho. apply new_order_fresh, Hs.
  - intros u x. rewrite lookup_insert_Some. rewrite (io_uuids s Hs). split.
    + intros [[<- <-]|[Hne (e' & He' & Eu)]]; [exists e; by rewrite lookup_insert_eq|]. exists e'. rewrite lookup_insert_ne; [done|]. intros E. assert (live_by_id s !! x = None) by (by rewrite <- E). congruence.
    + intros (e' & He' & Eu). apply lookup_insert_Some in He' as [[<- <-]|[Hne He']]; [by left|]. right. split; [|eauto]. intros <-.
      assert (live_by_uuid s !! en_uuid e = Some x) as Hx by (apply (io_uuids s Hs); eauto). congruence.
  - apply index_insert_ok; [rewrite Hdel; apply Hs|]. done.
  - done.
  - apply chunks_insert_ok. rewrite Hdel. apply Hs.
  - pose proof (io_bound s Hs). lia.
Qed.

Lemma indexes_ok_seen s accessible ticks : indexes_ok s -> indexes_ok (set_tick_list (set_accessible s accessible) ticks).
Proof. intros [A1 A2 A3 A4 A5 A6 A7]. by split. Qed.

Lemma insert_live_entry_ok v s entry : indexes_ok s -> live_by_id s !! en_entity entry = None -> live_by_uuid s !! en_uuid entry = None ->
  section_ok (en_section entry) -> en_chunk entry = section_chunk (en_section entry) -> box_ok (e_bounding_box (v (en_entity entry))) ->
  next_order s < 2 ^ 64 - 1 ->
  exists s', insert_live_entry v s entry = Some s' /\ indexes_ok s' /\ same_storage s s' /\ next_order s' = next_order s + 1 /\
    live_by_id s' = <[en_entity entry := entry_inserted v s entry]> (live_by_id s) /\ tick_list s' = tick_list s /\
    accessible_order s' = if is_accessible_at s (en_ownership entry) (en_chunk entry) then (ordered_insert (en_entity entry) (accessible_order s)).1
                          else accessible_order s.
Proof.
  intros Hs Hid Hu Hsec Hch Hbox Hn. set (id := en_entity entry) in *. set (e := entry_inserted v s entry).
  destruct (cells_insert_ok (live_by_id s) (live_by_id s) (by_spatial_cell s) id e) as (cells & Ecells & Hcells).
  { rewrite delete_id by done. apply Hs. } { apply NoDup_cells. } { done. }
  assert (indexes_ok (state_inserted s e cells)) as Hok.
  { apply state_inserted_ok; try done. split; try done. cbn. pose proof (io_bound s Hs). lia. }
  rewrite insert_live_entry_eq by done. fold id e. rewrite Ecells. cbn [mbind option_bind]. eexists. split; [done|].
  split; [|destruct (is_accessible_at s _ _); done]. destruct (is_accessible_at s _ _); [|done].
  exact (indexes_ok_seen _ (ordered_insert id (accessible_order s)).1 (tick_list s) Hok).
Qed.

(** ** Removing a live entry *)

Lemma remove_live_entry_ok s id e : indexes_ok s -> live_by_id s !! id = Some e ->
  exists s', remove_live_entry s id = Some (e, s') /\ indexes_ok s' /\ same_storage s s' /\ next_order s' = next_order s /\
    live_by_id s' = delete id (live_by_id s) /\ live_by_uuid s' = delete (en_uuid e) (live_by_uuid s) /\
    tick_list s' = (tick_list_remove id (tick_list s)).1 /\ accessible_order s' = remove_first id (accessible_order s).
Proof.
  intros Hs He. unfold remove_live_entry. rewrite He. cbn [mbind option_bind]. eexists. split; [done|]. split; [|done].
  split; cbn -[remove_from_spatial_cells].
  - intros x e'. rewrite lookup_delete_Some. intros [_ Hx]. by apply Hs.
  - intros i j a b. rewrite !lookup_delete_Some. intros [_ Ha] [_ Hb]. by eapply io_orders.
  - intros u x. rewrite lookup_delete_Some, (io_uuids s Hs). split.
    + intros (Hne & e' & He' & Eu). exists e'. rewrite lookup_delete_ne; [done|]. intros <-. congruence.
    + intros (e' & [Hne He']%lookup_delete_Some & Eu). split; [|eauto]. intros <-. apply Hne.
      assert (live_by_uuid s !! en_uuid e = Some id) as H1 by (apply (io_uuids s Hs); eauto).
      assert (live_by_uuid s !! en_uuid e = Some x) as H2 by (apply (io_uuids s Hs); eauto). congruence.
  - eapply index_delete_ok; [apply Hs|done|done].
  - apply cells_delete_ok; [apply Hs|done].
  - apply chunks_delete_ok; [apply Hs|done].
  - apply Hs.
Qed.

(** ** The lists of accessible and ticking entities *)

Definition tick_list_ok (t : EntityTickList) (has : Z -> Prop) : Prop :=
  NoDup (tl_order t) /\ (forall id, id ∈ tl_order t <-> id ∈ tl_active t) /\ forall id, id ∈ tl_active t <-> has id.

Lemma tick_list_add_ok t has id : tick_list_ok t has -> tick_list_ok (tick_list_add id t).1 (fun x => x = id \/ has x).
Proof.
  intros (H1 & H2 & H3). unfold tick_list_add. case_decide as Hid; cbn [fst].
  - split; [done|]. split; [done|]. intros x. rewrite H3. apply H3 in Hid. naive_solver.
  - split_and!; simpl.
    + apply NoDup_app. split; [done|]. split; [|apply NoDup_singleton]. intros x Hx ->%list_elem_of_singleton. by apply H2 in Hx.
    + intros x. rewrite elem_of_app, H2, list_elem_of_singleton, elem_of_union, elem_of_singleton. tauto.
    + intros x. by rewrite elem_of_union, elem_of_singleton, H3.
Qed.

Lemma tick_list_remove_ok t has id : tick_list_ok t has -> tick_list_ok (tick_list_remove id t).1 (fun x => x <> id /\ has x).
Proof.
  intros (H1 & H2 & H3). unfold tick_list_remove. case_decide as Hid; cbn [fst].
  - split_and!; simpl.
    + by apply NoDup_filter.
    + intros x. rewrite list_elem_of_filter, H2, elem_of_difference, elem_of_singleton. tauto.
    + intros x. rewrite elem_of_difference, elem_of_singleton, H3. tauto.
  - split; [done|]. split; [done|]. intros x. rewrite H3. rewrite H3 in Hid. naive_solver.
Qed.

Definition accessible_ok (ids : list Z) (has : Z -> Prop) : Prop := NoDup ids /\ forall id, id ∈ ids <-> has id.

Lemma accessible_add_ok ids has id : accessible_ok ids has -> accessible_ok (ordered_insert id ids).1 (fun x => x = id \/ has x).
Proof. intros [H1 H2]. destruct (ordered_insert_ids id ids H1) as [Hn Hin]. split; [done|]. intros x. rewrite Hin, H2. tauto. Qed.

Lemma accessible_remove_ok ids has id : accessible_ok ids has -> accessible_ok (remove_first id ids) (fun x => x <> id /\ has x).
Proof. intros [H1 H2]. split; [by apply NoDup_remove_first|]. intros x. rewrite elem_of_remove_first by done. rewrite H2. tauto. Qed.

Lemma seen_ok_split acc tick s : seen_ok acc tick s <->
  accessible_ok (accessible_order s) (fun id => exists e, live_by_id s !! id = Some e /\ acc e) /\
  tick_list_ok (tick_list s) (fun id => exists e, live_by_id s !! id = Some e /\ tick e).
Proof. split; [intros [H1 H2 H3 H4 H5]; exact (conj (conj H1 H2) (conj H3 (conj H4 H5)))|intros [[H1 H2] (H3 & H4 & H5)]; by split]. Qed.

Lemma accessible_ok_ext ids has has' : (forall x, has x <-> has' x) -> accessible_ok ids has -> accessible_ok ids has'.
Proof. intros E [H1 H2]. split; [done|]. intros x. by rewrite H2. Qed.
Lemma tick_list_ok_ext t has has' : (forall x, has x <-> has' x) -> tick_list_ok t has -> tick_list_ok t has'.
Proof. intros E (H1 & H2 & H3). split; [done|]. split; [done|]. intros x. by rewrite H3. Qed.

Lemma seen_remove_ok acc tick s s' id : seen_ok acc tick s -> live_by_id s' = delete id (live_by_id s) ->
  tick_list s' = (tick_list_remove id (tick_list s)).1 -> accessible_order s' = remove_first id (accessible_order s) -> seen_ok acc tick s'.
Proof.
  rewrite !seen_ok_split. intros [Ha Ht] El Et Eo. rewrite El, Et, Eo.
  assert (forall (P : EntityEntry -> Prop) x, (x <> id /\ (exists e, live_by_id s !! x = Some e /\ P e)) <->
    exists e, delete id (live_by_id s) !! x = Some e /\ P e) as Hd.
  { intros P x. split; [intros (Hne & e & He & HP); exists e; by rewrite lookup_delete_ne|]. intros (e & [? ?]%lookup_delete_Some & HP). eauto. }
  split.
  - eapply accessible_ok_ext; [apply Hd|]. by apply accessible_remove_ok.
  - eapply tick_list_ok_ext; [apply Hd|]. by apply tick_list_remove_ok.
Qed.

(** A new entity is listed where it is accessible; it does not tick yet. *)
Lemma seen_insert_ok acc tick s s' e : seen_ok acc tick s -> live_by_id s !! en_entity e = None ->
  live_by_id s' = <[en_entity e := e]> (live_by_id s) -> tick_list s' = tick_list s ->
  (forall b : bool, (b = true <-> acc e) ->
     accessible_order s' = (if b then (ordered_insert (en_entity e) (accessible_order s)).1 else accessible_order s) -> ~ tick e -> seen_ok acc tick s').
Proof.
  intros [Ha Ht]%seen_ok_split Hid El Et b Hb Eo Hnt. apply seen_ok_split. rewrite El, Et, Eo.
  assert (forall (P : EntityEntry -> Prop) x, (exists e', <[en_entity e := e]> (live_by_id s) !! x = Some e' /\ P e') <->
    (x = en_entity e /\ P e) \/ exists e', live_by_id s !! x = Some e' /\ P e') as Hi.
  { intros P x. destruct (decide (x = en_entity e)) as [->|Hne]; [rewrite lookup_insert_eq, Hid|rewrite lookup_insert_ne by done]; naive_solver. }
  split.
  - destruct b.
    + eapply accessible_ok_ext; [|by apply accessible_add_ok]. intros x. rewrite Hi. tauto.
    + eapply accessible_ok_ext; [|exact Ha]. intros x. rewrite Hi. split; [tauto|]. intros [[_ HP]|H]; [|done]. by apply Hb in HP.
  - eapply tick_list_ok_ext; [|exact Ht]. intros x. rewrite Hi. naive_solver.
Qed.

(** ** Entries that are kept aside *)

Definition entry_kept v e : Prop :=
  en_ownership e = ManagerOwned /\ section_ok (en_section e) /\ en_chunk e = section_chunk (en_section e) /\ e_always_ticking (v (en_entity e)) = false.

(** Neither the id nor the UUID is that of a live entity. *)
Definition not_live (live : gmap Z EntityEntry) e : Prop :=
  live !! en_entity e = None /\ forall x e', live !! x = Some e' -> en_uuid e' <> en_uuid e.

(** The entries no longer live are distinct from each other and from the live ones. *)
Record kept_ok v (live : gmap Z EntityEntry) (l : list EntityEntry) : Prop := {
  ko_ids : NoDup (en_entity <$> l);
  ko_uuids : NoDup (en_uuid <$> l);
  ko_entries : forall e, e ∈ l -> not_live live e /\ entry_kept v e;
}.

#[global] Instance kept_ok_proper v live : Proper ((≡ₚ) ==> iff) (kept_ok v live).
Proof.
  assert (forall l l', l ≡ₚ l' -> kept_ok v live l -> kept_ok v live l') as H.
  { intros l l' E [H1 H2 H3]. split; [by rewrite <- E|by rewrite <- E|]. intros e He. apply H3. by rewrite E. }
  intros l l' E. split; by apply H.
Qed.

Lemma kept_ok_app v live l l' : kept_ok v live (l ++ l') -> kept_ok v live l'.
Proof.
  intros [H1 H2 H3]. rewrite fmap_app in H1, H2. apply NoDup_app in H1 as (_ & _ & H1). apply NoDup_app in H2 as (_ & _ & H2).
  split; [done|done|]. intros e He. apply H3, elem_of_app. by right.
Qed.

Lemma kept_ok_delete v live l id : kept_ok v live l -> kept_ok v (delete id live) l.
Proof.
  intros [H1 H2 H3]. split; [done|done|]. intros e He. destruct (H3 e He) as [[Hid Hu] Hk]. split; [|done]. split.
  - rewrite lookup_delete_None. by right.
  - intros x e' [_ Hx]%lookup_delete_Some. by eapply Hu.
Qed.

(** Differs from the ids and the UUIDs that are kept. *)
Definition fresh_for (l : list EntityEntry) e : Prop := (en_entity e ∉ (en_entity <$> l)) /\ (en_uuid e ∉ (en_uuid <$> l)).

Lemma kept_ok_insert v live l e : kept_ok v live l -> fresh_for l e -> kept_ok v (<[en_entity e := e]> live) l.
Proof.
  intros [H1 H2 H3] [Hid Hu]. split; [done|done|]. intros e' He'. destruct (H3 e' He') as [[Hid' Hu'] Hk]. split; [|done]. split.
  - rewrite lookup_insert_ne; [done|]. intros E. apply Hid. rewrite E. by apply list_elem_of_fmap_2.
  - intros x e2 [[<- <-]|[_ Hx]]%lookup_insert_Some; [|by eapply Hu']. intros E. apply Hu. rewrite E. by apply list_elem_of_fmap_2.
Qed.

Lemma kept_ok_cons v live l e : kept_ok v live l -> fresh_for l e -> not_live live e -> entry_kept v e -> kept_ok v live (e :: l).
Proof.
  intros [H1 H2 H3] [Hid Hu] Hl Hk. split; rewrite ?fmap_cons; [by constructor|by constructor|]. intros e' [->|He']%elem_of_cons; [done|by apply H3].
Qed.

Lemma kept_ok_uncons v live l e : kept_ok v live (e :: l) -> fresh_for l e /\ not_live live e /\ entry_kept v e /\ kept_ok v live l.
Proof.
  intros Hk. pose proof (kept_ok_app v live [e] l Hk) as Hl. destruct Hk as [H1 H2 H3]. rewrite fmap_cons in H1, H2.
  apply NoDup_cons in H1 as [H1 _]. apply NoDup_cons in H2 as [H2 _]. split; [done|]. destruct (H3 e) as [Hn Hk]; [by left|]. done.
Qed.

Lemma kept_ok_ext v live live' l : kept_ok v live l -> (forall x e, live' !! x = Some e -> exists e0, live !! x = Some e0 /\ en_uuid e0 = en_uuid e) ->
  kept_ok v live' l.
Proof.
  intros [H1 H2 H3] Hext. split; [done|done|]. intros e He. destruct (H3 e He) as [[Hid Hu] Hk]. split; [|done]. split.
  - destruct (live' !! en_entity e) as [e'|] eqn:E; [|done]. destruct (Hext _ _ E) as (e0 & E0 & _). congruence.
  - intros x e' Hx. destruct (Hext _ _ Hx) as (e0 & E0 & <-). by eapply Hu.
Qed.

(** *** The entries of a map by chunk *)

Lemma stored_entries_insert m k l : stored_entries (<[k := l]> m) ≡ₚ l ++ stored_entries (delete k m).
Proof.
  unfold stored_entries. rewrite <- insert_delete_eq, map_to_list_insert by apply lookup_delete_eq. done.
Qed.

Lemma stored_entries_delete m k : stored_entries m ≡ₚ default [] (m !! k) ++ stored_entries (delete k m).
Proof.
  destruct (m !! k) as [l|] eqn:E; simpl.
  - rewrite <- stored_entries_insert. by rewrite insert_id.
  - by rewrite delete_id.
Qed.

Lemma stored_entries_extend m k l : stored_entries (entry_or_default [] (fun x => x ++ l) k m) ≡ₚ l ++ stored_entries m.
Proof.
  unfold entry_or_default. rewrite stored_entries_insert, (stored_entries_delete m k), !app_assoc. by rewrite (Permutation_app_comm l).
Qed.

Lemma elem_of_stored_entries m k l e : m !! k = Some l -> e ∈ l -> e ∈ stored_entries m.
Proof. intros Hk He. rewrite (stored_entries_delete m k), Hk. apply elem_of_app. by left. Qed.

(** ** The whole state *)

Definition accessible_entry s e : Prop := is_accessible s e = true.
Definition ticking_entry v s e : Prop := visibility_ticking (effective_visibility v e (chunk_visibility_of s (en_chunk e))) = true.

Definition kept held s : list EntityEntry := held ++ stored_entries (unloading_by_chunk s) ++ stored_entries (save_pending_by_chunk s).

(** The invariant, while the entries [held] are in no map and the entities [waiting] are
    not yet in the tick list. *)
Record manager_ok (waiting : gset Z) v held s : Prop := {
  mo_indexes : indexes_ok s;
  mo_seen : seen_ok (accessible_entry s) (fun e => ticking_entry v s e /\ (en_entity e ∉ waiting)) s;
  mo_kept : kept_ok v (live_by_id s) (kept held s);
  mo_external : forall id e, live_by_id s !! id = Some e -> e_always_ticking (v id) = true -> en_ownership e = External;
}.

(** The sizes of the world: boxes are ordered and sections within the packed form. *)
Definition world_ok v : Prop := forall id, box_ok (e_bounding_box (v id)) /\ section_ok (section_of_pos (e_position (v id))).

Lemma uuid_not_live s e : indexes_ok s -> not_live (live_by_id s) e -> live_by_uuid s !! en_uuid e = None.
Proof.
  intros Hs [_ Hu]. destruct (live_by_uuid s !! en_uuid e) as [x|] eqn:E; [|done]. apply (io_uuids s Hs) in E as (e' & He' & Eu). by destruct (Hu x e').
Qed.

Lemma visibility_same s s' : same_storage s s' -> (forall e, accessible_entry s' e <-> accessible_entry s e) /\
  forall v e, ticking_entry v s' e <-> ticking_entry v s e.
Proof.
  intros [Ev _ _]. unfold accessible_entry, ticking_entry, is_accessible, is_accessible_at, chunk_visibility_of. by rewrite Ev.
Qed.

Lemma kept_same s s' held : same_storage s s' -> kept held s' = kept held s.
Proof. intros [_ Eu Ep]. unfold kept. by rewrite Eu, Ep. Qed.

(** A new entity that does not tick yet. *)
Lemma insert_waiting_ok W v held s entry : manager_ok W v held s -> world_ok v -> not_live (live_by_id s) entry -> fresh_for (kept held s) entry ->
  section_ok (en_section entry) -> en_chunk entry = section_chunk (en_section entry) ->
  (e_always_ticking (v (en_entity entry)) = true -> en_ownership entry = External) -> next_order s < 2 ^ 64 - 1 ->
  exists s', insert_live_entry v s entry = Some s' /\ manager_ok ({[en_entity entry]} ∪ W) v held s' /\ same_storage s s' /\
    next_order s' = next_order s + 1 /\ live_by_id s' = <[en_entity entry := entry_inserted v s entry]> (live_by_id s).
Proof.
  intros [M1 M2 M3 M4] Hw Hnl Hf Hsec Hch Hal Hn. pose proof Hnl as [Hid _].
  destruct (insert_live_entry_ok v s entry) as (s' & E & Hi & Hst & Hno & Hl & Ht & Ha); try done.
  { by apply uuid_not_live. } { apply Hw. }
  exists s'. split; [done|]. split; [|done]. destruct (visibility_same s s' Hst) as [Hva Hvt]. split.
  - done.
  - apply (seen_ok_ext (accessible_entry s) (fun e => ticking_entry v s e /\ (en_entity e ∉ {[en_entity entry]} ∪ W))).
    { intros id e _. rewrite Hva, Hvt. done. }
    apply (seen_insert_ok _ _ s s' (entry_inserted v s entry)) with (b := is_accessible_at s (en_ownership entry) (en_chunk entry)); try done.
    + revert M2. apply seen_ok_ext. intros id e He. split; [done|].
      assert (en_entity e <> en_entity entry) by (rewrite (eo_id _ _ _ (io_live s M1 id e He)); congruence). set_solver.
    + cbn. set_solver.
  - rewrite Hl, (kept_same _ _ _ Hst). by apply (kept_ok_insert _ _ _ (entry_inserted v s entry)).
  - intros id e. rewrite Hl, lookup_insert_Some. intros [[<- <-]|[_ He]]; [exact Hal|by apply M4].
Qed.
