(* ===== verification/EntityLifecycle.v ===== *)
(** * The operations of the entity manager keep its invariant

    Adding, removing, moving and the loading and unloading of chunks: each returns and keeps
    the invariant. *)

From S2P Require Import Prelude Positions Float64 ChunkHolder EntityManager EntityIndexes EntityInvariant.

#[local] Open Scope steel_scope.
Implicit Types s : ManagerState.
Implicit Types v : entities.
Implicit Types e : EntityEntry.

(** ** One entity *)

Lemma manager_seen W v held s acc ticks : manager_ok W v held s -> forall W',
  seen_ok (accessible_entry s) (fun e => ticking_entry v s e /\ (en_entity e ∉ W')) (set_tick_list (set_accessible s acc) ticks) ->
  manager_ok W' v held (set_tick_list (set_accessible s acc) ticks).
Proof. intros [M1 M2 M3 M4] W' Hs. split; [by apply indexes_ok_seen|done|done|done]. Qed.

Lemma effective_accessible v s e : (e_always_ticking (v (en_entity e)) = true -> en_ownership e = External) ->
  visibility_accessible (effective_visibility v e (chunk_visibility_of s (en_chunk e))) = is_accessible s e.
Proof.
  intros Hal. unfold effective_visibility, is_accessible, is_accessible_at. destruct (e_always_ticking _).
  - rewrite (Hal eq_refl). by rewrite bool_decide_true.
  - destruct (en_ownership e); [by rewrite bool_decide_false|by rewrite bool_decide_true].
Qed.

(** The entity is put into the tick list if it ticks. *)
Lemma after_insert_ok W v held s id e : manager_ok W v held s -> live_by_id s !! id = Some e ->
  manager_ok (W ∖ {[id]}) v held (apply_entity_lifecycle_after_insert v s id).1 /\
  same_storage s (apply_entity_lifecycle_after_insert v s id).1 /\
  live_by_id (apply_entity_lifecycle_after_insert v s id).1 = live_by_id s /\
  next_order (apply_entity_lifecycle_after_insert v s id).1 = next_order s.
Proof.
  intros Hm He. unfold apply_entity_lifecycle_after_insert. rewrite He. pose proof (mo_seen _ _ _ _ Hm) as Hs. apply seen_ok_split in Hs as [Ha Ht].
  assert (forall x e', live_by_id s !! x = Some e' -> en_entity e' = x) as Hids by (intros x e' Hx; apply (io_live s (mo_indexes _ _ _ _ Hm) x e' Hx)).
  destruct (visibility_ticking _) eqn:Etick.
  - destruct (tick_list_add id (tick_list s)) as [ticks added] eqn:Eadd. cbn [fst]. split; [|done].
    apply (manager_seen W v held s (accessible_order s) ticks Hm). apply seen_ok_split. split; [done|]. cbn [tick_list set_tick_list set_accessible live_by_id].
    replace ticks with (tick_list_add id (tick_list s)).1 by (by rewrite Eadd). eapply tick_list_ok_ext; [|by apply tick_list_add_ok].
    intros x. split.
    + intros [->|(e' & Hx & Hti & Hw)]; [exists e; split; [done|]; split; [done|]; rewrite (Hids _ _ He); set_solver|].
      exists e'. split; [done|]. split; [done|]. set_solver.
    + intros (e' & Hx & Hti & Hw). rewrite (Hids _ _ Hx) in Hw. destruct (decide (x = id)) as [->|Hne]; [by left|]. right. exists e'.
      split; [done|]. split; [done|]. rewrite (Hids _ _ Hx). set_solver.
  - cbn [fst]. split; [|done]. destruct Hm as [M1 M2 M3 M4]. split; [done| |done|done]. revert M2. apply seen_ok_ext. intros x e' Hx. split; [done|].
    rewrite (Hids _ _ Hx). split; [set_solver|]. intros [Hti Hw]. split; [done|]. intros Hin. apply Hw.
    assert (x <> id); [|set_solver]. intros ->. unfold ticking_entry in Hti. congruence.
Qed.

(** The entry that is taken out can be kept aside. *)
Lemma remove_keep_ok W v held s id e : manager_ok W v held s -> live_by_id s !! id = Some e ->
  exists s', remove_live_entry s id = Some (e, s') /\ manager_ok W v held s' /\ (en_ownership e = ManagerOwned -> manager_ok W v (e :: held) s') /\
    same_storage s s' /\ next_order s' = next_order s /\ live_by_id s' = delete id (live_by_id s) /\
    not_live (live_by_id s') e /\ fresh_for (kept held s') e.
Proof.
  intros [M1 M2 M3 M4] He. destruct (remove_live_entry_ok s id e M1 He) as (s' & E & Hi & Hst & Hno & Hl & _ & Ht & Ha). exists s'. split; [done|].
  destruct (io_live s M1 id e He) as [Eid Ech Esec _ _ _]. destruct (visibility_same s s' Hst) as [Hva Hvt].
  assert (not_live (live_by_id s') e) as Hnl.
  { split; rewrite Hl; [by rewrite Eid, lookup_delete_eq|]. intros x e' [Hne Hx]%lookup_delete_Some Eu. apply Hne.
    assert (live_by_uuid s !! en_uuid e = Some id) as H1 by (apply (io_uuids s M1); eauto).
    assert (live_by_uuid s !! en_uuid e = Some x) as H2 by (apply (io_uuids s M1); eauto). congruence. }
  assert (fresh_for (kept held s') e) as Hf.
  { rewrite (kept_same _ _ _ Hst). split; intros (e' & E' & Hin)%list_elem_of_fmap; destruct (ko_entries _ _ _ M3 e' Hin) as [[Hid Hu] _].
    - rewrite <- E', Eid in Hid. congruence.
    - by destruct (Hu id e). }
  assert (manager_ok W v held s') as Hm.
  { split; [done| | |].
    - apply (seen_ok_ext (accessible_entry s) (fun e => ticking_entry v s e /\ (en_entity e ∉ W))); [intros x e' _; by rewrite Hva, Hvt|].
      by eapply seen_remove_ok.
    - rewrite (kept_same _ _ _ Hst), Hl. by apply kept_ok_delete.
    - intros x e'. rewrite Hl, lookup_delete_Some. intros [_ Hx]. by apply M4. }
  split; [done|]. split; [|done]. intros Hman. destruct Hm as [N1 N2 N3 N4]. split; [done|done| |done].
  apply kept_ok_cons; [done|done|done|]. split; [done|]. split; [done|]. split; [done|].
  destruct (e_always_ticking (v (en_entity e))) eqn:Eal; [|done]. rewrite Eid in Eal. specialize (M4 id e He Eal). congruence.
Qed.

(** ** Adding *)

Lemma existsb_false {A} (f : A -> bool) l : existsb f l = false <-> forall x, x ∈ l -> f x = false.
Proof.
  induction l as [|y l IH]; simpl; [split; [by intros _ x ?%elem_of_nil|done]|]. rewrite orb_false_iff, IH. split.
  - intros [Hy Hl] x [->|Hx]%elem_of_cons; auto.
  - intros H. split; [apply H; by left|intros x Hx; apply H; by right].
Qed.

Lemma existsb_key (f : EntityEntry -> Z) k l : existsb (fun e => f e =? k) l = false <-> (k ∉ (f <$> l)).
Proof.
  rewrite existsb_false, list_elem_of_fmap. split.
  - intros H (e & -> & He). specialize (H e He). lia.
  - intros H e He. destruct (Z.eqb_spec (f e) k) as [<-|]; [|done]. destruct H. eauto.
Qed.

Lemma contains_id_false s id : contains_id s id = false <-> live_by_id s !! id = None /\ (id ∉ (en_entity <$> kept [] s)).
Proof.
  unfold contains_id, kept. rewrite !orb_false_iff, bool_decide_eq_false, eq_None_not_Some, !existsb_key. rewrite app_nil_l, fmap_app, not_elem_of_app. tauto.
Qed.

Lemma contains_uuid_false s u : contains_uuid s u = false <-> live_by_uuid s !! u = None /\ (u ∉ (en_uuid <$> kept [] s)).
Proof.
  unfold contains_uuid, kept. rewrite !orb_false_iff, bool_decide_eq_false, eq_None_not_Some, !existsb_key. rewrite app_nil_l, fmap_app, not_elem_of_app. tauto.
Qed.

(** Neither live nor kept aside. *)
Definition entry_new s e : Prop := not_live (live_by_id s) e /\ fresh_for (kept [] s) e.

Lemma contains_new s e : indexes_ok s -> contains_id s (en_entity e) = false -> contains_uuid s (en_uuid e) = false -> entry_new s e.
Proof.
  intros Hs [Hid Hk]%contains_id_false [Hu Hku]%contains_uuid_false. split; [|done]. split; [done|]. intros x e' Hx Eu.
  assert (live_by_uuid s !! en_uuid e = Some x) by (apply (io_uuids s Hs); eauto). congruence.
Qed.

Lemma validate_live_entries_ok s entries o r : indexes_ok s -> (forall e, e ∈ entries -> contains_id s (en_entity e) = false) ->
  exists res, validate_live_entries s entries o r = Some res /\ (res = Ok tt -> forall e, e ∈ entries -> entry_new s e).
Proof.
  intros Hs. induction entries as [|e entries IH]; intros Hid; simpl.
  - eexists. split; [done|]. by intros _ e ?%elem_of_nil.
  - rewrite Hid by (by left). destruct (contains_uuid s (en_uuid e)) eqn:Eu; [by eexists|]. destruct (_ && _ && _); [by eexists|].
    destruct IH as (res & -> & Hres); [intros e' He'; apply Hid; by right|]. eexists. split; [done|]. intros -> e' [->|He']%elem_of_cons; [|by apply Hres].
    apply contains_new; [done| |done]. apply Hid. by left.
Qed.

Lemma checked_live_entries_ok v ids o entries : checked_live_entries v ids o = Ok entries -> entries = (fun id => EntityEntry_new v id o) <$> ids.
Proof.
  revert entries. induction ids as [|id ids IH]; intros entries; simpl; [by intros [= <-]|]. unfold checked_live_entry.
  destruct (entity_removed (v id)); [done|]. destruct (checked_live_entries v ids o) as [rest|] eqn:E; simpl; [|done]. intros [= <-].
  by rewrite (IH rest eq_refl).
Qed.

Lemma fresh_pair e e' : en_entity e <> en_entity e' -> en_uuid e <> en_uuid e' -> forall v s, not_live (live_by_id s) e ->
  not_live (<[en_entity e' := entry_inserted v s e']> (live_by_id s)) e.
Proof.
  intros Hid Hu v s [H1 H2]. split; [by rewrite lookup_insert_ne|]. intros x e2 [[<- <-]|[_ Hx]]%lookup_insert_Some; [done|by eapply H2].
Qed.

(** Distinct new entries can be inserted one after the other. *)
Lemma insert_all_ok W v s entries : manager_ok W v [] s -> world_ok v ->
  NoDup (en_entity <$> entries) -> NoDup (en_uuid <$> entries) ->
  (forall e, e ∈ entries -> entry_new s e /\ section_ok (en_section e) /\ en_chunk e = section_chunk (en_section e) /\
     (e_always_ticking (v (en_entity e)) = true -> en_ownership e = External)) ->
  next_order s + Z.of_nat (length entries) <= 2 ^ 64 - 1 ->
  exists s', for_each entries (fun entry s => insert_live_entry v s entry) s = Some s' /\ same_storage s s' /\
    manager_ok (list_to_set (en_entity <$> entries) ∪ W) v [] s' /\ forall x, is_Some (live_by_id s !! x) \/ x ∈ (en_entity <$> entries) -> is_Some (live_by_id s' !! x).
Proof.
  intros Hm Hw. revert W s Hm. induction entries as [|e entries IH]; intros W s Hm Hn Hnu Hall Hno; simpl.
  - exists s. split; [done|]. split; [done|]. split; [by rewrite (left_id_L ∅ _)|]. by intros x [?|?%elem_of_nil].
  - rewrite fmap_cons in Hn, Hnu. apply NoDup_cons in Hn as [Hn1 Hn]. apply NoDup_cons in Hnu as [Hnu1 Hnu].
    destruct (Hall e) as ([Hnl Hf] & Hsec & Hch & Hal); [by left|]. simpl in Hno.
    destruct (insert_waiting_ok W v [] s e) as (s1 & E1 & Hm1 & Hst1 & Hno1 & Hl1); try done; [lia|]. rewrite E1. cbn [mbind option_bind].
    destruct (IH ({[en_entity e]} ∪ W) s1) as (s2 & E2 & Hst2 & Hm2 & Hin2); [done|done|done| |lia|].
    + intros e' He'. destruct (Hall e') as ([Hnl' Hf'] & Hrest); [by right|]. split; [|done]. split; [|by rewrite (kept_same _ _ _ Hst1)].
      rewrite Hl1. apply fresh_pair; [| |done]; intros E; [apply Hn1|apply Hnu1]; rewrite <- E; by apply list_elem_of_fmap_2.
    + exists s2. split; [done|]. split; [by etrans|]. split.
      * revert Hm2. rewrite (assoc_L (∪)), (comm_L (∪) (list_to_set (en_entity <$> entries))). done.
      * intros x Hx. apply Hin2. rewrite Hl1. destruct (decide (x = en_entity e)) as [->|Hne]; [left; by rewrite lookup_insert_eq|].
        rewrite lookup_insert_ne by done. destruct Hx as [Hx|[->|Hx]%elem_of_cons]; [by left|done|by right].
Qed.

Lemma after_inserts_ok v ids W s changes : manager_ok W v [] s -> (forall x, x ∈ ids -> is_Some (live_by_id s !! x)) ->
  exists s' changes', foldl (fun acc id =>
    let '(s, changes) := acc in
    let '(s, more) := apply_entity_lifecycle_after_insert v s id in
    (s, changes_extend changes more)) (s, changes) ids = (s', changes') /\ manager_ok (W ∖ list_to_set ids) v [] s' /\ same_storage s s'.
Proof.
  revert W s changes. induction ids as [|id ids IH]; intros W s changes Hm Hl; simpl.
  - eexists _, _. split; [done|]. split; [by rewrite difference_empty_L|done].
  - destruct (Hl id) as [e He]; [by left|]. destruct (after_insert_ok W v [] s id e Hm He) as (Hm1 & Hst1 & Hl1 & _).
    destruct (apply_entity_lifecycle_after_insert v s id) as [s1 more]. cbn [fst] in *.
    destruct (IH (W ∖ {[id]}) s1 (changes_extend changes more) Hm1) as (s2 & changes2 & E2 & Hm2 & Hst2).
    + intros x Hx. rewrite Hl1. apply Hl. by right.
    + exists s2, changes2. split; [done|]. split; [|by etrans]. by rewrite difference_difference_l_L in Hm2.
Qed.

Lemma new_entries_ok v s (ids : list Z) o : world_ok v -> (forall id, id ∈ ids -> e_always_ticking (v id) = true -> o = External) ->
  (forall e, e ∈ (fun id => EntityEntry_new v id o) <$> ids -> entry_new s e) ->
  forall e, e ∈ (fun id => EntityEntry_new v id o) <$> ids -> entry_new s e /\ section_ok (en_section e) /\ en_chunk e = section_chunk (en_section e) /\
     (e_always_ticking (v (en_entity e)) = true -> en_ownership e = External).
Proof.
  intros Hw Hal Hnew e He. split; [by apply Hnew|]. apply list_elem_of_fmap in He as (id & -> & Hid). split; [apply Hw|]. split; [done|]. by apply Hal.
Qed.

(** An id is not registered a second time and players are the only ones to tick always. *)
Definition may_add v s (ids : list Z) (o : EntityOwnership) : Prop :=
  NoDup ids /\ (forall id, id ∈ ids -> contains_id s id = false /\ (e_always_ticking (v id) = true -> o = External)) /\
  next_order s + Z.of_nat (length ids) <= 2 ^ 64 - 1.

Lemma add_live_entity_ok v s id o : manager_ok ∅ v [] s -> world_ok v -> may_add v s [id] o ->
  exists s' r, add_live_entity v s id o = Some (s', r) /\ manager_ok ∅ v [] s'.
Proof.
  intros Hm Hw (_ & Hid & Hno). unfold add_live_entity, checked_live_entry. destruct (entity_removed (v id)); [by eexists _, _|].
  destruct (Hid id) as [Hc Hal]; [by left|].
  destruct (validate_live_entries_ok s [EntityEntry_new v id o] o true (mo_indexes _ _ _ _ Hm)) as (res & -> & Hres).
  { by intros e ->%list_elem_of_singleton. }
  cbn [mbind option_bind]. destruct res as [[]|err]; [|by eexists _, _]. simpl in Hno. set (e := EntityEntry_new v id o).
  destruct (Hres eq_refl e) as [Hnl Hf]; [by left|].
  destruct (insert_waiting_ok ∅ v [] s e) as (s1 & -> & Hm1 & Hst1 & Hno1 & Hl1); try done; [apply Hw|lia|]. cbn [mbind option_bind].
  destruct (after_insert_ok _ v [] s1 id (entry_inserted v s e) Hm1) as (Hm2 & _); [by rewrite Hl1, lookup_insert_eq|].
  destruct (apply_entity_lifecycle_after_insert v s1 id) as [s2 changes]. eexists _, _. split; [done|]. cbn [fst] in Hm2.
  replace (({[en_entity e]} ∪ ∅) ∖ {[id]} : gset Z) with (∅ : gset Z) in Hm2 by (unfold e; simpl; set_solver). done.
Qed.

Lemma check_distinct_ok entries ids uuids : NoDup (en_entity <$> entries) -> (forall e, e ∈ entries -> (en_entity e ∉ ids)) ->
  exists res, check_distinct entries ids uuids = Some res /\
    (res = Ok tt -> NoDup (en_uuid <$> entries) /\ forall e, e ∈ entries -> (en_uuid e ∉ uuids)).
Proof.
  revert ids uuids. induction entries as [|e entries IH]; intros ids uuids Hn Hid; simpl.
  - eexists. split; [done|]. intros _. split; [constructor|]. by intros e ?%elem_of_nil.
  - rewrite fmap_cons in Hn. apply NoDup_cons in Hn as [Hn1 Hn]. rewrite decide_False by (apply Hid; by left). case_decide as Hu; [by eexists|].
    destruct (IH ({[en_entity e]} ∪ ids) ({[en_uuid e]} ∪ uuids) Hn) as (res & -> & Hres).
    + intros e' He' [Hx%elem_of_singleton|Hx]%elem_of_union; [|apply (Hid e'); [by right|done]]. apply Hn1. rewrite <- Hx. by apply list_elem_of_fmap_2.
    + eexists. split; [done|]. intros ->. destruct (Hres eq_refl) as [Hnu Hus]. split.
      * constructor; [|done]. intros (e' & E & He')%list_elem_of_fmap. apply (Hus e' He'). rewrite E. set_solver.
      * intros e' [->|He']%elem_of_cons; [done|]. intros Hx. apply (Hus e' He'). set_solver.
Qed.

Lemma add_live_entity_tree_ok v s ids o : manager_ok ∅ v [] s -> world_ok v -> may_add v s ids o ->
  exists s' r, add_live_entity_tree v s ids o = Some (s', r) /\ manager_ok ∅ v [] s'.
Proof.
  intros Hm Hw (Hnd & Hid & Hno). unfold add_live_entity_tree. destruct (checked_live_entries v ids o) as [entries|err] eqn:Ec; [|by eexists _, _].
  apply checked_live_entries_ok in Ec. assert (en_entity <$> entries = ids) as Eids by (subst entries; rewrite <- list_fmap_compose; apply list_fmap_id).
  destruct (check_distinct_ok entries ∅ ∅) as (res & -> & Hres); [by rewrite Eids|set_solver|]. cbn [mbind option_bind].
  destruct res as [[]|err]; [|by eexists _, _]. destruct (Hres eq_refl) as [Hnu _].
  destruct (validate_live_entries_ok s entries o false (mo_indexes _ _ _ _ Hm)) as (res & -> & Hval).
  { intros e He. apply Hid. rewrite <- Eids. by apply list_elem_of_fmap_2. }
  cbn [mbind option_bind]. destruct res as [[]|err]; [|by eexists _, _]. specialize (Hval eq_refl).
  destruct (insert_all_ok ∅ v s entries Hm Hw) as (s1 & -> & Hst1 & Hm1 & Hin1); [by rewrite Eids|done| | |].
  { rewrite Ec in Hval |- *. apply new_entries_ok; [done| |done]. intros id Hi. by apply Hid. }
  { rewrite Ec, length_fmap. done. }
  cbn [mbind option_bind]. destruct (after_inserts_ok v (en_entity <$> entries) _ s1 no_changes Hm1) as (s2 & changes & -> & Hm2 & _).
  { intros x Hx. apply Hin1. by right. }
  eexists _, _. split; [done|]. by replace ((list_to_set (en_entity <$> entries) ∪ ∅) ∖ list_to_set (en_entity <$> entries) : gset Z) with (∅ : gset Z) in Hm2 by set_solver.
Qed.

(** ** Removing and saving *)

Lemma replace_pending_ok W v held held' s pending : manager_ok W v held s ->
  kept held' (set_pending s pending) ≡ₚ kept held s -> manager_ok W v held' (set_pending s pending).
Proof. intros [[A1 A2 A3 A4 A5 A6 A7] M2 M3 M4] E. split; [by split|by destruct M2|by rewrite E|done]. Qed.

Lemma kept_sub W v held held' s s' : manager_ok W v held s -> live_by_id s' = live_by_id s -> forall l, kept held s ≡ₚ l ++ kept held' s' ->
  kept_ok v (live_by_id s') (kept held' s').
Proof. intros [_ _ M3 _] El l E. rewrite El. rewrite E in M3. by eapply kept_ok_app. Qed.

Lemma set_storage_ok W v held held' s unloading pending l : manager_ok W v held s ->
  kept held s ≡ₚ l ++ kept held' (set_unloading (set_pending s pending) unloading) ->
  manager_ok W v held' (set_unloading (set_pending s pending) unloading).
Proof.
  intros Hm E. pose proof (kept_sub W v held held' s (set_unloading (set_pending s pending) unloading) Hm eq_refl l E) as Hk.
  destruct Hm as [[A1 A2 A3 A4 A5 A6 A7] M2 M3 M4]. split; [by split|by destruct M2|done|done].
Qed.

(** An entry that is held becomes one that waits for a save. *)
Lemma push_pending_ok W v e held s k : manager_ok W v (e :: held) s ->
  manager_ok W v held (set_pending s (entry_or_default [] (fun l => l ++ [e]) k (save_pending_by_chunk s))).
Proof.
  intros Hm. apply (replace_pending_ok W v (e :: held) held s _ Hm). unfold kept. cbn [unloading_by_chunk save_pending_by_chunk set_pending].
  rewrite stored_entries_extend. cbn [app]. rewrite (Permutation_app_comm _ (e :: _)). cbn [app]. rewrite (Permutation_app_comm (stored_entries (save_pending_by_chunk s))).
  by rewrite <- Permutation_middle.
Qed.

(** A held entry that is forgotten. *)
Lemma drop_held_ok W v e held s : manager_ok W v (e :: held) s -> manager_ok W v held s.
Proof. intros [M1 M2 M3 M4]. split; [done|done| |done]. by apply (kept_ok_app _ _ [e]). Qed.

Lemma remove_live_entity_ok v s id reason : manager_ok ∅ v [] s -> manager_ok ∅ v [] (remove_live_entity v s id reason).1.
Proof.
  intros Hm. unfold remove_live_entity. destruct (live_by_id s !! id) as [e|] eqn:He; [|unfold remove_live_entry; by rewrite He].
  destruct (remove_keep_ok ∅ v [] s id e Hm He) as (s' & -> & Hm' & Hman & _). cbn [fst]. destruct (reason_should_save reason && entry_should_save v e) eqn:E; [|done].
  apply push_pending_ok, Hman. apply andb_true_iff in E as [_ E]. unfold entry_should_save in E. rewrite !andb_true_iff, bool_decide_eq_true in E. tauto.
Qed.

Lemma filter_partition {A} (P : A -> Prop) `{forall x, Decision (P x)} (l : list A) : l ≡ₚ filter (fun x => ~ P x) l ++ filter P l.
Proof.
  induction l as [|x l IH]; [done|]. rewrite !filter_cons. destruct (decide (P x)) as [HP|HP].
  - rewrite decide_False by tauto. rewrite <- Permutation_middle. by rewrite <- IH.
  - rewrite decide_True by done. cbn [app]. by rewrite <- IH.
Qed.

Lemma on_chunk_saved_ok W v s chunk saved : manager_ok W v [] s -> manager_ok W v [] (on_chunk_saved s chunk saved).
Proof.
  intros Hm. unfold on_chunk_saved. case_decide; [done|]. destruct (save_pending_by_chunk s !! chunk) as [entries|] eqn:E; [|done].
  set (pending := if decide (filter (fun entry => (en_entity entry ∉ saved)) entries = []) then _ else _).
  apply (set_storage_ok W v [] [] s (unloading_by_chunk s) pending (filter (fun entry => ~ (en_entity entry ∉ saved)) entries) Hm).
  unfold kept. cbn [unloading_by_chunk save_pending_by_chunk set_pending set_unloading app].
  assert (stored_entries pending ≡ₚ filter (fun entry => (en_entity entry ∉ saved)) entries ++ stored_entries (delete chunk (save_pending_by_chunk s))) as Hp.
  { unfold pending. case_decide as Hempty; [by rewrite Hempty|apply stored_entries_insert]. }
  rewrite Hp, (stored_entries_delete (save_pending_by_chunk s) chunk), E. cbn [default].
  rewrite (filter_partition (fun entry => (en_entity entry ∉ saved)) entries) at 1.
  unfold id. solve_Permutation.
Qed.

Lemma finalize_chunk_unload_ok W v s pos : manager_ok W v [] s -> manager_ok W v [] (finalize_chunk_unload s pos).1.
Proof.
  intros Hm. unfold finalize_chunk_unload. cbn [fst].
  apply (set_storage_ok W v [] [] s (delete pos (unloading_by_chunk s)) (save_pending_by_chunk s) (default [] (unloading_by_chunk s !! pos)) Hm).
  unfold kept. cbn [unloading_by_chunk save_pending_by_chunk set_pending set_unloading app].
  by rewrite (stored_entries_delete (unloading_by_chunk s) pos), <- app_assoc.
Qed.

(** ** A chunk is loaded again *)

(** The same entity at the same place. *)
Definition same_place e e0 : Prop :=
  en_uuid e = en_uuid e0 /\ en_section e = en_section e0 /\ en_chunk e = en_chunk e0 /\ en_ownership e = en_ownership e0.

Lemma same_place_refl e : same_place e e.
Proof. done. Qed.
Lemma same_place_trans e1 e2 e3 : same_place e1 e2 -> same_place e2 e3 -> same_place e1 e3.
Proof. unfold same_place. intuition congruence. Qed.

(** Where the entries were or where they are restored. *)
Definition restored v s s' (held : list EntityEntry) : Prop :=
  (forall x e, live_by_id s !! x = Some e -> live_by_id s' !! x = Some e) /\
  forall e, e ∈ held -> entity_removed (v (en_entity e)) = false -> exists e', live_by_id s' !! en_entity e = Some e' /\ same_place e' e.

Lemma restored_trans v s1 s2 s3 l l' : restored v s1 s2 l -> restored v s2 s3 l' -> restored v s1 s3 (l ++ l').
Proof.
  intros [A1 A2] [B1 B2]. split; [auto|]. intros e [He|He]%elem_of_app Hr; [|auto]. destruct (A2 e He Hr) as (e' & H1 & H2). eauto.
Qed.

Lemma restore_entry_ok v pos e held s r : manager_ok ∅ v (e :: held) s -> world_ok v -> next_order s < 2 ^ 64 - 1 ->
  exists s' r', restore_entry v pos e (s, r) = Some (s', r') /\ manager_ok ∅ v held s' /\ next_order s' <= next_order s + 1 /\ restored v s s' [e].
Proof.
  intros Hm Hw Hno. unfold restore_entry. destruct (entity_removed (v (en_entity e))) eqn:Er.
  - assert (forall s', live_by_id s' = live_by_id s -> restored v s s' [e]) as Hsame.
    { intros s' El. split; [by rewrite El|]. intros e' ->%list_elem_of_singleton. congruence. }
    destruct (entry_should_save v e).
    + eexists _, _. split; [done|]. split; [by apply push_pending_ok|]. split; [cbn; lia|by apply Hsame].
    + eexists _, _. split; [done|]. split; [by eapply drop_held_ok|]. split; [lia|by apply Hsame].
  - destruct Hm as [M1 M2 M3 M4]. change (kept (e :: held) s) with (e :: kept held s) in M3.
    apply kept_ok_uncons in M3 as (Hf & Hnl & (Hown & Hsec & Hch & Hal) & M3).
    destruct (insert_waiting_ok ∅ v held s e) as (s1 & -> & Hm1 & Hst1 & Hno1 & Hl1); try done. { rewrite Hal. done. }
    cbn [mbind option_bind].
    destruct (after_insert_ok _ v held s1 (en_entity e) (entry_inserted v s e) Hm1) as (Hm2 & _ & Hl2 & Hno2); [by rewrite Hl1, lookup_insert_eq|].
    destruct (apply_entity_lifecycle_after_insert v s1 (en_entity e)) as [s2 changes]. cbn [fst] in *. eexists _, _. split; [done|].
    split; [|split; [lia|]]; [|split; rewrite Hl2, Hl1].
    2: { intros x a Ha. rewrite lookup_insert_ne; [done|]. destruct Hnl as [Hnl _]. congruence. }
    2: { intros e' ->%list_elem_of_singleton _. rewrite lookup_insert_eq. by eexists. }
    by replace (({[en_entity e]} ∪ ∅) ∖ {[en_entity e]} : gset Z) with (∅ : gset Z) in Hm2 by set_solver.
Qed.

Lemma restore_entries_ok v pos held s r : manager_ok ∅ v held s -> world_ok v -> next_order s + Z.of_nat (length held) <= 2 ^ 64 - 1 ->
  exists s' r', for_each held (restore_entry v pos) (s, r) = Some (s', r') /\ manager_ok ∅ v [] s' /\ restored v s s' held.
Proof.
  intros Hm Hw. revert s r Hm. induction held as [|e held IH]; intros s r Hm Hno; cbn [for_each].
  { eexists _, _. split; [done|]. split; [done|]. split; [done|]. by intros e ?%elem_of_nil. }
  simpl in Hno.
  destruct (restore_entry_ok v pos e held s r Hm Hw) as (s1 & r1 & -> & Hm1 & Hno1 & Hr1); [lia|]. cbn [mbind option_bind].
  destruct (IH s1 r1 Hm1) as (s2 & r2 & -> & Hm2 & Hr2); [lia|]. eexists _, _. split; [done|]. split; [done|]. exact (restored_trans _ _ _ _ [e] held Hr1 Hr2).
Qed.

(** What changes the visibilities without an effect. *)
Lemma set_visibility_ok W v held s vis : manager_ok W v held s -> (forall c, default Hidden (vis !! c) = chunk_visibility_of s c) ->
  manager_ok W v held (set_visibility s vis).
Proof.
  intros [[A1 A2 A3 A4 A5 A6 A7] M2 M3 M4] Hvis. split; [by split| |done|done].
  apply (seen_ok_ext (accessible_entry s) (fun e => ticking_entry v s e /\ (en_entity e ∉ W))); [|by destruct M2].
  intros id e _. unfold accessible_entry, is_accessible, is_accessible_at, ticking_entry. unfold chunk_visibility_of at 2 4.
  cbn [chunk_visibility set_visibility]. by rewrite Hvis.
Qed.

Lemma on_chunk_loaded_ok v s pos : manager_ok ∅ v [] s -> world_ok v ->
  next_order s + Z.of_nat (length (default [] (unloading_by_chunk s !! pos))) <= 2 ^ 64 - 1 ->
  exists s' r, on_chunk_loaded v s pos = Some (s', r) /\ manager_ok ∅ v [] s' /\ restored v s s' (default [] (unloading_by_chunk s !! pos)).
Proof.
  intros Hm Hw Hno. unfold on_chunk_loaded. set (vis := match chunk_visibility s !! pos with Some _ => _ | None => _ end).
  assert (manager_ok ∅ v [] (set_visibility s vis)) as Hm1.
  { apply set_visibility_ok; [done|]. intros c. unfold vis, chunk_visibility_of. destruct (chunk_visibility s !! pos) eqn:E; [done|].
    destruct (decide (c = pos)) as [->|Hne]; [by rewrite lookup_insert_eq, E|by rewrite lookup_insert_ne]. }
  cbn [unloading_by_chunk set_visibility].
  edestruct (restore_entries_ok v pos (default [] (unloading_by_chunk s !! pos))) as (s' & r & E & Hm' & Hr); [|done| |rewrite E; by exists s', r]; [|done].
  apply (set_storage_ok ∅ v [] _ _ (delete pos (unloading_by_chunk s)) (save_pending_by_chunk s) [] Hm1).
  unfold kept. cbn [unloading_by_chunk save_pending_by_chunk set_pending set_unloading set_visibility app].
  by rewrite (stored_entries_delete (unloading_by_chunk s) pos), <- app_assoc.
Qed.

(** ** Visibility *)

Definition accessible_update (old new : bool) (id : Z) (ids : list Z) : list Z :=
  if old && negb new then remove_first id ids else if negb old && new then (ordered_insert id ids).1 else ids.
Definition ticks_update (old new : bool) (id : Z) (t : EntityTickList) : EntityTickList :=
  if old && negb new then (tick_list_remove id t).1 else if negb old && new then (tick_list_add id t).1 else t.

Lemma accessible_update_ok old new id ids has has' : accessible_ok ids has -> (old = true <-> has id) -> (new = true <-> has' id) ->
  (forall x, x <> id -> has x <-> has' x) -> accessible_ok (accessible_update old new id ids) has'.
Proof.
  intros H Ho Hn Hx. unfold accessible_update. destruct old, new; simpl.
  - eapply accessible_ok_ext; [|exact H]. intros x. destruct (decide (x = id)) as [->|]; [tauto|auto].
  - eapply accessible_ok_ext; [|by apply accessible_remove_ok]. intros x. simpl. destruct (decide (x = id)) as [->|Hne]; [naive_solver|].
    rewrite (Hx x Hne). tauto.
  - eapply accessible_ok_ext; [|by apply accessible_add_ok]. intros x. simpl. destruct (decide (x = id)) as [->|Hne]; [naive_solver|].
    rewrite (Hx x Hne). tauto.
  - eapply accessible_ok_ext; [|exact H]. intros x. destruct (decide (x = id)) as [->|]; [naive_solver|auto].
Qed.

Lemma ticks_update_ok old new id t has has' : tick_list_ok t has -> (old = true <-> has id) -> (new = true <-> has' id) ->
  (forall x, x <> id -> has x <-> has' x) -> tick_list_ok (ticks_update old new id t) has'.
Proof.
  intros H Ho Hn Hx. unfold ticks_update. destruct old, new; simpl.
  - eapply tick_list_ok_ext; [|exact H]. intros x. destruct (decide (x = id)) as [->|]; [tauto|auto].
  - eapply tick_list_ok_ext; [|by apply tick_list_remove_ok]. intros x. simpl. destruct (decide (x = id)) as [->|Hne]; [naive_solver|].
    rewrite (Hx x Hne). tauto.
  - eapply tick_list_ok_ext; [|by apply tick_list_add_ok]. intros x. simpl. destruct (decide (x = id)) as [->|Hne]; [naive_solver|].
    rewrite (Hx x Hne). tauto.
  - eapply tick_list_ok_ext; [|exact H]. intros x. destruct (decide (x = id)) as [->|]; [naive_solver|auto].
Qed.

(** The lists after one entity changed. *)
Lemma seen_replace_ok (acc tick acc' tick' : EntityEntry -> bool) s s' id e e' :
  seen_ok (fun e => acc e = true) (fun e => tick e = true) s -> live_by_id s !! id = Some e -> live_by_id s' = <[id := e']> (live_by_id s) ->
  accessible_order s' = accessible_update (acc e) (acc' e') id (accessible_order s) ->
  tick_list s' = ticks_update (tick e) (tick' e') id (tick_list s) ->
  (forall x a, x <> id -> live_by_id s !! x = Some a -> acc' a = acc a /\ tick' a = tick a) ->
  seen_ok (fun e => acc' e = true) (fun e => tick' e = true) s'.
Proof.
  intros [Ha Ht]%seen_ok_split He El Ea Et Hother. apply seen_ok_split. rewrite El, Ea, Et.
  assert (forall (P Q : EntityEntry -> bool), (P e = true <-> exists a, live_by_id s !! id = Some a /\ P a = true) /\
    (Q e' = true <-> exists a, <[id := e']> (live_by_id s) !! id = Some a /\ Q a = true)) as Hid.
  { intros P Q. rewrite He, lookup_insert_eq. naive_solver. }
  assert (forall (P Q : EntityEntry -> bool), (forall x a, x <> id -> live_by_id s !! x = Some a -> Q a = P a) -> forall x, x <> id ->
    (exists a, live_by_id s !! x = Some a /\ P a = true) <-> exists a, <[id := e']> (live_by_id s) !! x = Some a /\ Q a = true) as Hx.
  { intros P Q HPQ x Hne. rewrite lookup_insert_ne by done. split; intros (a & Hl & Hp); exists a; (split; [done|]); specialize (HPQ x a Hne Hl); congruence. }
  split.
  - eapply accessible_update_ok; [exact Ha|apply (Hid acc acc')|apply (Hid acc acc')|]. apply Hx. intros x a Hne Hl. by apply (Hother x a).
  - eapply ticks_update_ok; [exact Ht|apply (Hid tick tick')|apply (Hid tick tick')|]. apply Hx. intros x a Hne Hl. by apply (Hother x a).
Qed.

(** The lists, with the entries seen at the visibility [f]. *)
Definition accessible_as v (f : EntityEntry -> EntityVisibility) e : bool := visibility_accessible (effective_visibility v e (f e)).
Definition ticking_as v (f : EntityEntry -> EntityVisibility) e : bool := visibility_ticking (effective_visibility v e (f e)).
Definition seen_as v f s : Prop := seen_ok (fun e => accessible_as v f e = true) (fun e => ticking_as v f e = true) s.

Lemma seen_as_ext v f g s : (forall id e, live_by_id s !! id = Some e -> effective_visibility v e (f e) = effective_visibility v e (g e)) ->
  seen_as v f s -> seen_as v g s.
Proof. intros E. apply seen_ok_ext. intros id e He. unfold accessible_as, ticking_as. by rewrite (E id e He). Qed.

Lemma set_seen_same s : set_tick_list (set_accessible s (accessible_order s)) (tick_list s) = s.
Proof. by destruct s. Qed.

Lemma change_entity_visibility_ok v f s changes id e previous new : seen_as v f s -> live_by_id s !! id = Some e -> f e = previous ->
  (forall x a, live_by_id s !! x = Some a -> en_entity a = x) ->
  exists accessible ticks, (change_entity_visibility v previous new id (s, changes)).1 = set_tick_list (set_accessible s accessible) ticks /\
    seen_as v (fun a => if decide (en_entity a = id) then new else f a) (set_tick_list (set_accessible s accessible) ticks).
Proof.
  intros Hs He Hf Hids. unfold change_entity_visibility. rewrite He.
  destruct (negb _ || _) eqn:Eskip.
  - exists (accessible_order s), (tick_list s). split; [by rewrite set_seen_same|]. rewrite set_seen_same.
    revert Hs. apply seen_as_ext. intros x a Hx. cbv beta. destruct (decide (en_entity a = id)) as [Ha|]; [|done].
    assert (a = e) as -> by (rewrite (Hids x a Hx) in Ha; congruence). rewrite Hf. apply orb_true_iff in Eskip as [E|E%bool_decide_eq_true]; [|done].
    apply negb_true_iff, bool_decide_eq_false in E. unfold effective_visibility. destruct (e_always_ticking _); [done|].
    by destruct (en_ownership e) eqn:Eo.
  - exists (accessible_update (visibility_accessible (effective_visibility v e previous)) (visibility_accessible (effective_visibility v e new)) id (accessible_order s)),
      (ticks_update (visibility_ticking (effective_visibility v e previous)) (visibility_ticking (effective_visibility v e new)) id (tick_list s)). split.
    + destruct (effective_visibility v e previous), (effective_visibility v e new); cbn -[tick_list_add tick_list_remove ordered_insert];
        repeat match goal with |- context [tick_list_add ?i ?t] => destruct (tick_list_add i t) | |- context [tick_list_remove ?i ?t] => destruct (tick_list_remove i t) end;
        first [done|symmetry; apply set_seen_same].
    + eapply (seen_replace_ok (accessible_as v f) (ticking_as v f) _ _ s _ id e e Hs He).
      * cbn. by rewrite insert_id.
      * unfold accessible_as. rewrite decide_True by (by apply Hids). by rewrite Hf.
      * unfold ticking_as. rewrite decide_True by (by apply Hids). by rewrite Hf.
      * intros x a Hne Hx. unfold accessible_as, ticking_as. rewrite decide_False by (by rewrite (Hids x a Hx)). done.
Qed.

Lemma apply_visibility_ok v f s previous new ids changes : seen_as v f s -> (forall x a, live_by_id s !! x = Some a -> en_entity a = x) -> NoDup ids ->
  (forall x, x ∈ ids -> exists a, live_by_id s !! x = Some a /\ f a = previous) ->
  exists accessible ticks changes', foldl (fun acc id => change_entity_visibility v previous new id acc) (s, changes) ids =
      (set_tick_list (set_accessible s accessible) ticks, changes') /\
    seen_as v (fun a => if decide (en_entity a ∈ ids) then new else f a) (set_tick_list (set_accessible s accessible) ticks).
Proof.
  revert s f changes. induction ids as [|id ids IH]; intros s f changes Hs Hids Hn Hin; cbn [foldl].
  - exists (accessible_order s), (tick_list s), changes. split; [by rewrite set_seen_same|]. rewrite set_seen_same.
    revert Hs. apply seen_as_ext. intros x a _. by rewrite decide_False by apply not_elem_of_nil.
  - apply NoDup_cons in Hn as [Hn1 Hn]. destruct (Hin id) as (e & He & Hf); [by left|].
    destruct (change_entity_visibility_ok v f s changes id e previous new Hs He Hf Hids) as (acc & ticks & E & Hs1).
    destruct (change_entity_visibility v previous new id (s, changes)) as [s1 changes1]. cbn [fst] in E. subst s1.
    destruct (IH _ _ changes1 Hs1 Hids Hn) as (acc2 & ticks2 & changes2 & E2 & Hs2).
    + intros x Hx. destruct (Hin x) as (a & Ha & Hfa); [by right|]. exists a. split; [done|]. rewrite decide_False; [done|].
      rewrite (Hids x a Ha). by intros ->.
    + exists acc2, ticks2, changes2. split; [exact E2|]. revert Hs2. apply seen_as_ext. intros x a Ha.
      destruct (decide (en_entity a ∈ ids)) as [Hi|Hi]; [rewrite decide_True by (by right); done|].
      destruct (decide (en_entity a = id)) as [Hi'|Hi']; [rewrite decide_True by (rewrite Hi'; by left); done|].
      rewrite decide_False; [done|]. rewrite elem_of_cons. tauto.
Qed.

(** *** The entities of a chunk *)

Definition chunk_ok (chunk : ChunkPos) : Prop := in_s 22 (cp_x chunk) /\ in_s 22 (cp_y chunk).

Lemma NoDup_concat_omap {K A} (f : K -> option (list A)) keys : NoDup keys -> (forall k l, f k = Some l -> NoDup l) ->
  (forall k k' l l' x, f k = Some l -> f k' = Some l' -> x ∈ l -> x ∈ l' -> k = k') -> NoDup (concat (omap f keys)).
Proof.
  intros Hn Hl Hd. induction keys as [|k keys IH]; simpl; [constructor|]. apply NoDup_cons in Hn as [Hk Hn]. specialize (IH Hn).
  destruct (f k) as [l|] eqn:E; simpl; [|done]. apply NoDup_app. split; [by eapply Hl|]. split; [|done].
  intros x Hx (l' & Hx' & Hl')%list_elem_of_In%in_concat. apply list_elem_of_In in Hx', Hl'. apply list_elem_of_omap in Hx' as (k' & Hk' & E').
  apply Hk. by rewrite (Hd k k' l l' x E E' Hx Hl').
Qed.

Lemma chunk_order_ids s chunk : indexes_ok s -> chunk_ok chunk ->
  NoDup (entity_ids_in_chunk_order s chunk) /\ forall x, x ∈ entity_ids_in_chunk_order s chunk <-> member in_chunk (live_by_id s) x chunk.
Proof.
  intros Hs [Hx Hz]. unfold entity_ids_in_chunk_order, btree_range. pose proof (io_sections s Hs) as Hi. split.
  - apply NoDup_concat_omap.
    + rewrite merge_sort_Permutation. apply NoDup_elements.
    + intros k l. case_decide; [|done]. intros Hk. by destruct (ix_lists _ _ Hi k l Hk).
    + intros k k' l l' x. case_decide; [|done]. case_decide; [|done]. intros Hk Hk' Hl Hl'.
      assert (member in_section (live_by_id s) x k) as (e & He & <-) by (apply (ix_has _ _ Hi); by rewrite Hk).
      assert (member in_section (live_by_id s) x k') as (e' & He' & <-) by (apply (ix_has _ _ Hi); by rewrite Hk'). congruence.
  - intros x. rewrite list_elem_of_In, in_concat. split.
    + intros (l & Hl & Hin). apply list_elem_of_In in Hl, Hin. apply list_elem_of_omap in Hl as (k & _ & E). case_decide as Hr; [|done].
      assert (member in_section (live_by_id s) x k) as (e & He & Ek) by (apply (ix_has _ _ Hi); by rewrite E). exists e. split; [done|].
      destruct (io_live s Hs x e He) as [_ Ec Esec _ _ _]. unfold in_chunk. rewrite Ec. unfold in_section in Ek. subst k. by apply packed_section_range.
    + intros (e & He & Ec). destruct (io_live s Hs x e He) as [_ Ec' Esec _ _ _].
      assert (member in_section (live_by_id s) x (PackedSectionPos_from (en_section e))) as Hm by (by exists e). apply (ix_has _ _ Hi) in Hm.
      destruct (by_section s !! PackedSectionPos_from (en_section e)) as [l|] eqn:E; [|by apply elem_of_nil in Hm]. exists l.
      split; [|by apply list_elem_of_In]. apply list_elem_of_In, list_elem_of_omap. exists (PackedSectionPos_from (en_section e)). split.
      * rewrite merge_sort_Permutation. apply elem_of_elements. by eapply elem_of_dom_2.
      * rewrite decide_True; [done|]. apply packed_section_range; [done|done|done|]. by rewrite <- Ec'.
Qed.

(** *** Changing the visibility of a chunk *)

Lemma seen_as_manager v s : indexes_ok s ->
  (forall id e, live_by_id s !! id = Some e -> e_always_ticking (v id) = true -> en_ownership e = External) ->
  seen_as v (fun e => chunk_visibility_of s (en_chunk e)) s <-> seen_ok (accessible_entry s) (fun e => ticking_entry v s e /\ (en_entity e ∉ (∅ : gset Z))) s.
Proof.
  intros Hs Hal. assert (forall id e, live_by_id s !! id = Some e ->
    (accessible_as v (fun e => chunk_visibility_of s (en_chunk e)) e = true <-> accessible_entry s e) /\
    (ticking_as v (fun e => chunk_visibility_of s (en_chunk e)) e = true <-> ticking_entry v s e /\ (en_entity e ∉ (∅ : gset Z)))) as E.
  { intros id e He. split.
    - unfold accessible_as. rewrite effective_accessible; [done|]. rewrite (eo_id _ _ _ (io_live s Hs id e He)). by apply Hal.
    - unfold ticking_as, ticking_entry. set_solver. }
  split; apply seen_ok_ext; intros id e He; destruct (E id e He); tauto.
Qed.

Lemma visibility_change_ok v held s vis pos new : manager_ok ∅ v held s -> chunk_ok pos ->
  (forall c, default Hidden (vis !! c) = if decide (c = pos) then new else chunk_visibility_of s c) ->
  exists s' changes, apply_chunk_visibility_change v (set_visibility s vis) pos (chunk_visibility_of s pos) new = (s', changes) /\
    manager_ok ∅ v held s' /\ same_storage (set_visibility s vis) s' /\ live_by_id s' = live_by_id s /\ next_order s' = next_order s.
Proof.
  intros Hm Hc Hvis. pose proof Hm as [M1 M2 M3 M4]. unfold apply_chunk_visibility_change. set (s0 := set_visibility s vis).
  assert (indexes_ok s0) as M1' by (destruct M1 as [A1 A2 A3 A4 A5 A6 A7]; by split).
  assert (forall x a, live_by_id s0 !! x = Some a -> en_entity a = x) as Hids by (intros x a Hx; apply (io_live s M1 x a Hx)).
  destruct (chunk_order_ids s0 pos M1' Hc) as [Hnd Hin]. apply seen_as_manager in M2; [|done|done].
  destruct (apply_visibility_ok v (fun e => chunk_visibility_of s (en_chunk e)) s0 (chunk_visibility_of s pos) new (entity_ids_in_chunk_order s0 pos) no_changes)
    as (acc & ticks & changes & E & Hs); [by destruct M2|done|done| |].
  { intros x (a & Ha & Ec)%Hin. exists a. split; [done|]. unfold in_chunk in Ec. by rewrite Ec. }
  rewrite E. eexists _, changes. split; [done|]. split; [|done]. split; [by apply indexes_ok_seen| |done|done].
  apply (seen_as_manager v (set_tick_list (set_accessible s0 acc) ticks)); [by apply indexes_ok_seen|done|].
  revert Hs. apply seen_as_ext. intros x a Ha. cbv beta. unfold chunk_visibility_of at 2. cbn [chunk_visibility set_tick_list set_accessible set_visibility s0]. rewrite Hvis.
  rewrite (Hids x a Ha). assert (x ∈ entity_ids_in_chunk_order s0 pos <-> en_chunk a = pos) as Hx.
  { rewrite Hin. split; [|by exists a]. intros (a' & Ha' & Ec). unfold in_chunk in Ec. cbn in Ha, Ha'. congruence. }
  by rewrite (decide_ext _ _ _ _ Hx).
Qed.

Lemma update_chunk_visibility_ok v s pos vis : manager_ok ∅ v [] s -> chunk_ok pos -> manager_ok ∅ v [] (update_chunk_visibility v s pos vis).1.
Proof.
  intros Hm Hc. unfold update_chunk_visibility.
  assert (forall c, default Hidden (<[pos := vis]> (chunk_visibility s) !! c) = if decide (c = pos) then vis else chunk_visibility_of s c) as Hvis.
  { intros c. case_decide as E; [subst c; by rewrite lookup_insert_eq|by rewrite lookup_insert_ne]. }
  case_decide as E.
  - cbn [fst]. apply set_visibility_ok; [done|]. intros c. rewrite Hvis. case_decide as Ec; [|done]. subst c. done.
  - destruct (visibility_change_ok v [] s (<[pos := vis]> (chunk_visibility s)) pos vis Hm Hc Hvis) as (s' & changes & E' & Hm' & _).
    unfold chunk_visibility_of in E'. by rewrite E'.
Qed.

(** ** A chunk is unloaded *)

Lemma manager_ok_perm W v held held' s : held ≡ₚ held' -> manager_ok W v held s -> manager_ok W v held' s.
Proof. intros E [M1 M2 M3 M4]. split; [done|done| |done]. unfold kept in *. by rewrite <- E. Qed.

Lemma reinsert_ok v held s id e : manager_ok ∅ v held s -> world_ok v -> live_by_id s !! id = Some e -> en_ownership e = External ->
  next_order s < 2 ^ 64 - 1 ->
  exists s1 s' e', remove_live_entry s id = Some (e, s1) /\ reinsert_external v s1 e = Some s' /\ manager_ok ∅ v held s' /\ same_storage s s' /\
    next_order s' = next_order s + 1 /\ live_by_id s' = <[id := e']> (live_by_id s) /\ same_place e' e.
Proof.
  intros Hm Hw He Hext Hno. destruct (io_live s (mo_indexes _ _ _ _ Hm) id e He) as [Eid Ech Esec _ _ _].
  destruct (remove_keep_ok ∅ v held s id e Hm He) as (s1 & E1 & Hm1 & _ & Hst1 & Hno1 & Hl1 & Hnl & Hf).
  destruct (insert_waiting_ok ∅ v held s1 e) as (s2 & E2 & Hm2 & Hst2 & Hno2 & Hl2); try done; [lia|].
  assert (live_by_id s2 !! en_entity e = Some (entry_inserted v s1 e)) as He2 by (by rewrite Hl2, lookup_insert_eq).
  destruct (after_insert_ok _ v held s2 _ _ Hm2 He2) as (Hm3 & Hst3 & Hl3 & Hno3).
  exists s1, (apply_entity_lifecycle_after_insert v s2 (en_entity e)).1, (entry_inserted v s1 e). split; [done|]. split.
  { unfold reinsert_external. rewrite E2. cbn [mbind option_bind]. rewrite He2. unfold apply_entity_lifecycle_after_insert. rewrite He2.
    destruct (visibility_ticking _); [|done]. cbn [en_entity entry_inserted]. by destruct (tick_list_add (en_entity e) (tick_list s2)). }
  split; [by replace (({[en_entity e]} ∪ ∅) ∖ {[en_entity e]} : gset Z) with (∅ : gset Z) in Hm3 by set_solver|].
  split; [etrans; [exact Hst1|]; by etrans|]. split; [lia|]. split; [|done]. rewrite Hl3, Hl2, Hl1, Eid. by rewrite insert_delete_eq.
Qed.

(** What holds while the trees of a chunk are taken out: the visited entities that are
    still live are owned elsewhere, and what is no longer live is retained. *)
Record unload_ok v (s0 : ManagerState) (fuel : nat) (u : Unloading) : Prop := {
  uo_manager : manager_ok ∅ v (ul_retained u) (ul_state u);
  uo_storage : same_storage s0 (ul_state u);
  uo_fuel : (size (live_by_id (ul_state u)) <= fuel)%nat;
  uo_order : next_order (ul_state u) + Z.of_nat (size (dom (live_by_id (ul_state u)) ∖ ul_visited u)) <= 2 ^ 64 - 1;
  uo_visited : forall x e, x ∈ ul_visited u -> live_by_id (ul_state u) !! x = Some e -> en_ownership e = External;
  uo_shrinks : forall x e, live_by_id (ul_state u) !! x = Some e -> exists e0, live_by_id s0 !! x = Some e0 /\ same_place e e0;
  uo_retained : forall x e0, live_by_id s0 !! x = Some e0 ->
    (exists e, live_by_id (ul_state u) !! x = Some e /\ same_place e e0) \/ exists e, e ∈ ul_retained u /\ en_entity e = x /\ same_place e e0;
}.

Lemma visited_size (A V : gset Z) id : id ∈ A -> (id ∉ V) -> size (A ∖ V) = S (size (A ∖ ({[id]} ∪ V))).
Proof.
  intros Ha Hv. replace (A ∖ V) with ({[id]} ∪ A ∖ ({[id]} ∪ V)) by (apply set_eq; intros x; destruct (decide (x = id)) as [->|]; set_solver).
  rewrite size_union by set_solver. by rewrite size_singleton.
Qed.

Definition visit (id : Z) (u : Unloading) : Unloading :=
  mkUnloading (ul_state u) ({[id]} ∪ ul_visited u) (ul_retained u) (ul_retained_entities u) (ul_stopped_ids u) (ul_tracking_stopped u).

(** The entity is not live. *)
Lemma visit_absent_ok v s0 fuel u id : unload_ok v s0 fuel u -> live_by_id (ul_state u) !! id = None -> unload_ok v s0 fuel (visit id u).
Proof.
  intros [U1 U2 U3 U4 U5 U6 U7] Hid. split; cbn; try done.
  - pose proof (subseteq_size (dom (live_by_id (ul_state u)) ∖ ({[id]} ∪ ul_visited u)) (dom (live_by_id (ul_state u)) ∖ ul_visited u)). set_solver by lia.
  - intros x e Hx He. apply elem_of_union in Hx as [->%elem_of_singleton|Hx]; [congruence|]. by eapply U5.
Qed.

(** The entity is owned elsewhere. *)
Lemma visit_external_ok v s0 fuel u id e s' e' : unload_ok v s0 fuel u -> (id ∉ ul_visited u) -> live_by_id (ul_state u) !! id = Some e ->
  manager_ok ∅ v (ul_retained u) s' -> same_storage (ul_state u) s' -> next_order s' = next_order (ul_state u) + 1 ->
  live_by_id s' = <[id := e']> (live_by_id (ul_state u)) -> en_ownership e = External -> same_place e' e ->
  unload_ok v s0 fuel (mkUnloading s' ({[id]} ∪ ul_visited u) (ul_retained u) (ul_retained_entities u) (ul_stopped_ids u) (ul_tracking_stopped u)).
Proof.
  intros [U1 U2 U3 U4 U5 U6 U7] Hv He Hm Hst Hno Hl Hext Hp. set (live := live_by_id (ul_state u)) in *.
  assert (dom (<[id := e']> live) = dom live) as Hdom.
  { rewrite dom_insert_L. apply elem_of_dom_2 in He. set_solver. }
  split; cbn; try done.
  - by etrans.
  - rewrite Hl, <- size_dom, Hdom, size_dom. done.
  - rewrite Hl, Hdom, Hno. rewrite (visited_size (dom live) (ul_visited u) id) in U4; [lia|by eapply elem_of_dom_2|done].
  - intros x a Hx. rewrite Hl, lookup_insert_Some. intros [[<- <-]|[Hne Ha]]; [destruct Hp as (_ & _ & _ & ->); done|].
    apply elem_of_union in Hx as [->%elem_of_singleton|Hx]; [done|]. by eapply U5.
  - intros x a. rewrite Hl, lookup_insert_Some. intros [[<- <-]|[Hne Ha]]; [|by apply U6]. destruct (U6 id e He) as (e0 & H0 & Hp0).
    exists e0. split; [done|]. by eapply same_place_trans.
  - intros x e0 H0. rewrite Hl. destruct (U7 x e0 H0) as [(a & Ha & Hpa)|Hr]; [left|by right]. destruct (decide (x = id)) as [->|Hne].
    + exists e'. rewrite lookup_insert_eq. split; [done|]. assert (a = e) as -> by congruence. by eapply same_place_trans.
    + exists a. by rewrite lookup_insert_ne.
Qed.

(** The entity is taken out of the world and kept. *)
Lemma visit_owned_ok v s0 fuel u id e s' entities ids stopped : unload_ok v s0 (S fuel) u -> live_by_id (ul_state u) !! id = Some e ->
  manager_ok ∅ v (e :: ul_retained u) s' -> same_storage (ul_state u) s' -> next_order s' = next_order (ul_state u) ->
  live_by_id s' = delete id (live_by_id (ul_state u)) ->
  unload_ok v s0 fuel (mkUnloading s' ({[id]} ∪ ul_visited u) (ul_retained u ++ [e]) entities ids stopped).
Proof.
  intros [U1 U2 U3 U4 U5 U6 U7] He Hm Hst Hno Hl. set (live := live_by_id (ul_state u)) in *. split; cbn.
  - revert Hm. apply manager_ok_perm. by rewrite (Permutation_app_comm _ [e]).
  - by etrans.
  - rewrite Hl, map_size_delete_Some by (by eexists). lia.
  - rewrite Hl, Hno, dom_delete_L. pose proof (subseteq_size ((dom live ∖ {[id]}) ∖ ({[id]} ∪ ul_visited u)) (dom live ∖ ul_visited u)). set_solver by lia.
  - intros x a Hx. rewrite Hl, lookup_delete_Some. intros [Hne Ha]. apply elem_of_union in Hx as [->%elem_of_singleton|Hx]; [done|]. by eapply U5.
  - intros x a. rewrite Hl, lookup_delete_Some. intros [_ Ha]. by apply U6.
  - intros x e0 H0. rewrite Hl. destruct (U7 x e0 H0) as [(a & Ha & Hpa)|(a & Ha & Hr)]; [|right; exists a; split; [apply elem_of_app; by left|done]].
    destruct (decide (x = id)) as [->|Hne]; [right|left; exists a; by rewrite lookup_delete_ne]. exists a. assert (a = e) as -> by congruence.
    split; [apply elem_of_app; right; by left|]. split; [|done]. exact (eo_id _ _ _ (io_live _ (mo_indexes _ _ _ _ U1) id e He)).
Qed.

Lemma unload_fuel v s0 fuel u : unload_ok v s0 fuel u -> unload_ok v s0 (S fuel) u.
Proof. intros [U1 U2 U3 U4 U5 U6 U7]. split; try done. lia. Qed.

Lemma retain_each_ok v s0 fuel ids u :
  (forall id u, unload_ok v s0 fuel u -> exists u', retain_unloading_entity_tree fuel v id u = Some u' /\ unload_ok v s0 fuel u' /\ {[id]} ∪ ul_visited u ⊆ ul_visited u') ->
  unload_ok v s0 fuel u ->
  exists u', for_each ids (retain_unloading_entity_tree fuel v) u = Some u' /\ unload_ok v s0 fuel u' /\ list_to_set ids ∪ ul_visited u ⊆ ul_visited u'.
Proof.
  intros Hone Hu. destruct (for_each_ind (fun done u' => unload_ok v s0 fuel u' /\ list_to_set done ∪ ul_visited u ⊆ ul_visited u') ids
    (retain_unloading_entity_tree fuel v) u) as (u' & E & H).
  - split; [done|set_solver].
  - intros done id todo u1 -> [H1 H2]. destruct (Hone id u1 H1) as (u2 & E2 & H3 & H4). exists u2. split; [done|]. split; [done|].
    rewrite list_to_set_app_L. set_solver.
  - by exists u'.
Qed.

Lemma retain_tree_ok v s0 fuel : world_ok v -> forall id u, unload_ok v s0 fuel u ->
  exists u', retain_unloading_entity_tree fuel v id u = Some u' /\ unload_ok v s0 fuel u' /\ {[id]} ∪ ul_visited u ⊆ ul_visited u'.
Proof.
  intros Hw. induction fuel as [|fuel IH]; intros id u Hu; cbn [retain_unloading_entity_tree];
    (destruct (decide (id ∈ ul_visited u)) as [Hv|Hv]; [exists u; split; [done|]; split; [done|set_solver]|]);
    cbn [ul_state ul_visited ul_retained ul_retained_entities ul_stopped_ids ul_tracking_stopped];
    destruct (live_by_id (ul_state u) !! id) as [e|] eqn:He.
  2, 4: unfold remove_live_entry; rewrite He; cbn [mbind option_bind]; eexists; split; [done|]; split; [by apply (visit_absent_ok _ _ _ u)|done].
  - destruct Hu as [_ _ Hf _ _ _ _]. apply Nat.le_0_r, map_size_empty_iff in Hf. rewrite Hf in He. done.
  - destruct (en_ownership e) eqn:Eo.
    + destruct (remove_keep_ok ∅ v (ul_retained u) (ul_state u) id e (uo_manager _ _ _ _ Hu) He) as (s' & -> & _ & Hman & Hst & Hno & Hl & _). rewrite Eo.
      destruct (push_unique_entity id _ _) as [ids stopped].
      destruct (retain_each_ok v s0 fuel (e_passengers (v id)) (mkUnloading s' ({[id]} ∪ ul_visited u) (ul_retained u ++ [e]) (ul_retained_entities u ++ [id]) ids stopped) IH)
        as (u' & -> & Hu' & Hsub); [eapply visit_owned_ok; eauto|].
      exists u'. split; [done|]. split; [by apply unload_fuel|]. cbn in Hsub. set_solver.
    + assert (next_order (ul_state u) < 2 ^ 64 - 1) as Hno.
      { pose proof (uo_order _ _ _ _ Hu) as H. rewrite (visited_size _ _ id) in H; [lia|by eapply elem_of_dom_2|done]. }
      destruct (reinsert_ok v (ul_retained u) (ul_state u) id e (uo_manager _ _ _ _ Hu) Hw He Eo Hno) as (s1 & s' & e' & -> & E2 & Hm & Hst & Hno' & Hl & Hp).
      rewrite Eo, E2. cbn [mbind option_bind]. eexists. split; [done|]. split; [by eapply visit_external_ok|done].
Qed.

Definition is_root v s (id : Z) : Prop := exists e, live_by_id s !! id = Some e /\ en_ownership e = ManagerOwned /\ entity_passenger (v id) = false.

Lemma collect_roots_spec v s ids seen stopped : forall x, x ∈ (collect_roots v s ids seen stopped).2 <-> x ∈ ids /\ is_root v s x.
Proof.
  assert (forall ids seen stopped roots x, x ∈ (foldl (fun acc id =>
    let '(seen, stopped, roots) := acc in
    match live_by_id s !! id with
    | Some entry =>
        if decide (en_ownership entry = ManagerOwned) then
          let '(seen, stopped) := push_unique_entity id seen stopped in
          (seen, stopped, if entity_passenger (v id) then roots else roots ++ [id])
        else acc
    | None => acc
    end) (seen, stopped, roots) ids).2 <-> x ∈ roots \/ (x ∈ ids /\ is_root v s x)) as H.
  { clear. intros ids. induction ids as [|id ids IH]; intros seen stopped roots x; cbn [foldl]; [rewrite elem_of_nil; simpl; tauto|]. rewrite elem_of_cons.
    assert ((x = id \/ x ∈ ids) /\ is_root v s x <-> (x = id /\ is_root v s id) \/ (x ∈ ids /\ is_root v s x)) as -> by naive_solver.
    destruct (live_by_id s !! id) as [e|] eqn:E; [|rewrite IH; unfold is_root at 2; rewrite E; naive_solver].
    case_decide as Eo; [|rewrite IH; unfold is_root at 2; rewrite E; naive_solver]. destruct (push_unique_entity id seen stopped).
    rewrite IH. unfold is_root at 2. rewrite E. destruct (entity_passenger (v id)); [naive_solver|]. rewrite elem_of_app, list_elem_of_singleton. naive_solver. }
  intros x. unfold collect_roots. rewrite H, elem_of_nil. tauto.
Qed.

(** The retained entries are stored under the chunk. *)
Lemma store_retained_ok v held s pos : manager_ok ∅ v held s ->
  manager_ok ∅ v [] (if decide (held = []) then s
                     else set_unloading s (entry_or_default [] (fun l => l ++ held) pos (unloading_by_chunk s))).
Proof.
  intros Hm. case_decide as E; [by rewrite E in Hm|].
  apply (set_storage_ok ∅ v held [] s (entry_or_default [] (fun l => l ++ held) pos (unloading_by_chunk s)) (save_pending_by_chunk s) [] Hm).
  unfold kept. cbn [unloading_by_chunk save_pending_by_chunk set_pending set_unloading app]. by rewrite stored_entries_extend, <- app_assoc.
Qed.

Lemma begin_chunk_unload_ok v s pos : manager_ok ∅ v [] s -> world_ok v -> chunk_ok pos ->
  next_order s + Z.of_nat (size (live_by_id s)) <= 2 ^ 64 - 1 ->
  exists s' r, begin_chunk_unload v s pos = Some (s', r) /\ manager_ok ∅ v [] s' /\ chunk_visibility s' = delete pos (chunk_visibility s) /\
    (forall id e0, live_by_id s !! id = Some e0 -> (exists e, live_by_id s' !! id = Some e /\ same_place e e0) \/
       exists e, e ∈ default [] (unloading_by_chunk s' !! pos) /\ en_entity e = id /\ same_place e e0) /\
    (forall id e, live_by_id s' !! id = Some e -> en_ownership e = ManagerOwned -> en_chunk e = pos -> entity_passenger (v id) = true).
Proof.
  intros Hm Hw Hc Hno. unfold begin_chunk_unload.
  destruct (visibility_change_ok v [] s (delete pos (chunk_visibility s)) pos Hidden Hm Hc) as (s1 & changes & E1 & Hm1 & Hst1 & Hl1 & Hno1).
  { intros c. case_decide as Ec; [subst c; by rewrite lookup_delete_eq|by rewrite lookup_delete_ne]. }
  unfold chunk_visibility_of in E1. rewrite E1. set (s0 := set_visibility s (delete pos (chunk_visibility s))) in *.
  pose proof (collect_roots_spec v s1 (entity_ids_in_chunk_order s0 pos) (list_to_set (tracking_stopped changes)) (tracking_stopped changes)) as Hroots.
  destruct (collect_roots v s1 _ _ _) as [[seen stopped] roots]. cbn [snd] in Hroots.
  destruct (retain_each_ok v s1 (size (live_by_id s1)) roots (mkUnloading s1 ∅ [] [] seen stopped)) as (u & -> & Hu & Hsub).
  { intros id u. by apply retain_tree_ok. }
  { split; cbn; try done; [|by eauto using same_place_refl|by eauto using same_place_refl]. rewrite difference_empty_L, size_dom, Hl1. lia. }
  cbn [mbind option_bind]. eexists _, _. split; [done|]. pose proof Hu as [U1 U2 _ _ U5 U6 U7]. split; [by apply store_retained_ok|]. split.
  { transitivity (chunk_visibility (ul_state u)); [by case_decide|]. by rewrite (ss_visibility _ _ U2), (ss_visibility _ _ Hst1). }
  split.
  { intros id e0 H0. rewrite <- Hl1 in H0. destruct (U7 id e0 H0) as [H|(e & Hin & H)]; [left; by case_decide|right]. exists e. split; [|done].
    case_decide as En; [rewrite En in Hin; by apply elem_of_nil in Hin|]. cbn. unfold entry_or_default. rewrite lookup_insert_eq. cbn. apply elem_of_app. by right. }
  intros id e He Eo Ec. assert (live_by_id (ul_state u) !! id = Some e) as He' by (by case_decide).
  destruct (entity_passenger (v id)) eqn:Ep; [done|]. exfalso. destruct (U6 id e He') as (e0 & H0 & _ & _ & Hch & Ho).
  assert (id ∈ roots) as Hr.
  { apply Hroots. split; [|exists e0; split; [done|]; split; congruence]. apply (chunk_order_ids s0 pos); [|done|].
    - destruct (mo_indexes _ _ _ _ Hm) as [A1 A2 A3 A4 A5 A6 A7]. by split.
    - exists e0. split; [cbn; by rewrite <- Hl1|]. unfold in_chunk. congruence. }
  assert (en_ownership e = External); [|congruence]. apply (U5 id e); [|done]. cbn in Hsub. set_solver.
Qed.
