(* ===== verification/EntityMoves.v ===== *)
(** * Moves keep the invariant of the entity manager *)

From S2P Require Import Prelude Positions Float64 ChunkHolder EntityManager EntityIndexes EntityInvariant EntityLifecycle.

#[local] Open Scope steel_scope.
Implicit Types s : ManagerState.
Implicit Types v : entities.
Implicit Types e : EntityEntry.

(** ** Replacing the entry of a live entity *)

(** Another place for the same entity. *)
Definition moved_entry e (section : SectionPos) (box : WorldAabb) (order : Z) : EntityEntry :=
  mkEntry (en_entity e) (en_uuid e) section (section_chunk section) box (cells_of box) order (en_ownership e).

Lemma uuids_replace_ok s id e e' : indexes_ok s -> live_by_id s !! id = Some e -> en_uuid e' = en_uuid e ->
  forall u x, live_by_uuid s !! u = Some x <-> exists a, <[id := e']> (live_by_id s) !! x = Some a /\ en_uuid a = u.
Proof.
  intros Hs He Eu u x. rewrite (io_uuids s Hs). destruct (decide (x = id)) as [->|Hne]; [rewrite lookup_insert_eq, He|by rewrite lookup_insert_ne].
  split; [intros (a & [= <-] & <-)|intros (a & [= <-] & <-)]; eauto.
Qed.

(** The cells of the entity are replaced. *)
Lemma cells_move_ok s id e e' : indexes_ok s -> live_by_id s !! id = Some e -> NoDup (en_spatial_cells e') ->
  exists cells, insert_into_spatial_cells (<[id := set_entry_cells e []]> (live_by_id s)) (en_spatial_cells e') id (query_order e')
      (remove_from_spatial_cells (en_spatial_cells e) id (by_spatial_cell s)) = Some cells /\
    cells_ok (<[id := e']> (live_by_id s)) cells (member in_cell (<[id := e']> (live_by_id s))).
Proof.
  intros Hs He Hn. apply cells_insert_ok; [|done|].
  - apply cells_delete_ok; [apply Hs|done].
  - intros x Hx. by rewrite lookup_insert_ne.
Qed.

(** Only the place in the cells changes. *)
Lemma replace_box_ok s id e e' cells : indexes_ok s -> live_by_id s !! id = Some e ->
  en_uuid e' = en_uuid e -> en_section e' = en_section e -> en_chunk e' = en_chunk e -> en_section_order e' = en_section_order e ->
  entry_ok (next_order s) id e' -> cells_ok (<[id := e']> (live_by_id s)) cells (member in_cell (<[id := e']> (live_by_id s))) ->
  indexes_ok (set_live (set_cells s cells) (<[id := e']> (live_by_id s))).
Proof.
  intros Hs He Eu Es Ec Eo He' Hcells. split; cbn.
  - by apply (live_insert_ok s).
  - apply (orders_insert_ok s); [done|done|]. intros x a Hne Ha Eq. apply Hne. eapply (io_orders s Hs); [done|done|congruence].
  - by apply (uuids_replace_ok s id e).
  - eapply index_ok_ext; [|apply Hs]. apply (member_replace _ _ _ e); [done|]. unfold in_section. by rewrite Es.
  - done.
  - destruct (io_chunks s Hs) as [H1 H2]. split; [done|]. intros x c. rewrite H2. apply (member_replace _ _ _ e); [done|]. unfold in_chunk. by rewrite Ec.
  - apply Hs.
Qed.

(** The entity changes sections. *)
Lemma replace_section_ok s id e e' cells : indexes_ok s -> live_by_id s !! id = Some e ->
  en_uuid e' = en_uuid e -> en_section_order e' = next_order s -> entry_ok (next_order s + 1) id e' ->
  cells_ok (<[id := e']> (live_by_id s)) cells (member in_cell (<[id := e']> (live_by_id s))) ->
  indexes_ok (mkManager (chunk_visibility s) (<[id := e']> (live_by_id s)) (live_by_uuid s) (accessible_order s)
    (entry_or_default [] (fun ids => (ordered_insert id ids).1) (PackedSectionPos_from (en_section e'))
       (remove_from id (PackedSectionPos_from (en_section e)) (by_section s))) cells
    (entry_or_default ∅ (union {[id]}) (en_chunk e') (remove_chunk_entry id (en_chunk e) (by_chunk s)))
    (unloading_by_chunk s) (save_pending_by_chunk s) (tick_list s) (next_order s + 1)).
Proof.
  intros Hs He Eu Eo He' Hcells. split; cbn -[ordered_insert].
  - apply (live_insert_ok s); [done|done|lia|done].
  - apply (orders_insert_ok s); [done|done|]. intros x a _ Ha. rewrite Eo. by apply (new_order_fresh s Hs x).
  - by apply (uuids_replace_ok s id e).
  - apply index_insert_ok; [|done]. eapply index_delete_ok; [apply Hs|done|done].
  - done.
  - apply chunks_insert_ok. apply chunks_delete_ok; [apply Hs|done].
  - pose proof (io_bound s Hs). lia.
Qed.

Lemma move_indexes_ok v s id e section box : indexes_ok s -> live_by_id s !! id = Some e -> section_ok section -> box_ok box ->
  next_order s < 2 ^ 64 - 1 ->
  exists s' order, move_indexes v s e section box = Some s' /\ indexes_ok s' /\ same_storage s s' /\
    live_by_id s' = <[id := moved_entry e section box order]> (live_by_id s) /\
    accessible_order s' = accessible_order s /\ tick_list s' = tick_list s /\ next_order s' <= next_order s + 1.
Proof.
  intros Hs He Hsec Hbox Hno. pose proof (io_live s Hs id e He) as [Eid Ech _ _ _ Eo]. unfold move_indexes. rewrite Eid.
  destruct (decide (en_section e = section)) as [Es|Es].
  - rewrite bool_decide_true by done. cbn [negb mbind option_bind]. set (e' := moved_entry e section box (en_section_order e)).
    destruct (cells_move_ok s id e e' Hs He) as (cells & E & Hcells); [apply NoDup_cells|].
    change (cells_of box) with (en_spatial_cells e'). change (PackedSectionPos_from section, en_section_order e) with (query_order e'). rewrite E.
    cbn [mbind option_bind]. exists (set_live (set_cells s cells) (<[id := e']> (live_by_id s))), (en_section_order e). split.
    { unfold e', moved_entry. rewrite Eid, insert_insert_eq. done. }
    split; [|cbn; split; [done|]; split; [done|]; split; [done|]; split; [done|lia]].
    apply (replace_box_ok s id e e'); try done. cbn. by rewrite Ech, Es.
  - rewrite bool_decide_false by done. cbn [negb]. unfold next_section_order. cbn [next_order set_chunks set_sections].
    replace (next_order s <? 2 ^ 64 - 1) with true by lia. cbn [mbind option_bind]. set (e' := moved_entry e section box (next_order s)).
    destruct (cells_move_ok s id e e' Hs He) as (cells & E & Hcells); [apply NoDup_cells|].
    cbn [live_by_id by_spatial_cell set_next_order set_chunks set_sections by_section by_chunk].
    change (cells_of box) with (en_spatial_cells e'). change (PackedSectionPos_from section, next_order s) with (query_order e'). rewrite E.
    cbn [mbind option_bind]. eexists _, (next_order s). fold e'. split; [done|]. split.
    + cbn -[entry_or_default ordered_insert]. rewrite insert_insert_eq.
      replace (mkEntry id (en_uuid e) section (section_chunk section) box (cells_of box) (next_order s) (en_ownership e)) with e'
        by (unfold e', moved_entry; by rewrite Eid).
      refine (replace_section_ok s id e e' cells Hs He _ _ _ Hcells); [done|done|]. split; try done. cbn. pose proof (io_bound s Hs). lia.
    + cbn -[entry_or_default ordered_insert]. split; [done|]. split; [|split; [done|]; split; [done|lia]].
      rewrite insert_insert_eq. unfold e', moved_entry. by rewrite Eid.
Qed.

(** ** Commits *)

Lemma manager_replace_ok v s s' id e e' : manager_ok ∅ v [] s -> live_by_id s !! id = Some e -> indexes_ok s' -> same_storage s s' ->
  live_by_id s' = <[id := e']> (live_by_id s) -> en_uuid e' = en_uuid e -> en_ownership e' = en_ownership e ->
  accessible_order s' = accessible_update (is_accessible s e) (is_accessible s e') id (accessible_order s) ->
  tick_list s' = ticks_update (ticking_as v (fun e => chunk_visibility_of s (en_chunk e)) e) (ticking_as v (fun e => chunk_visibility_of s (en_chunk e)) e')
                   id (tick_list s) ->
  manager_ok ∅ v [] s'.
Proof.
  intros [M1 M2 M3 M4] He Hi Hst Hl Eu Eo Ea Et.
  assert (forall x a, live_by_id s' !! x = Some a -> e_always_ticking (v x) = true -> en_ownership a = External) as M4'.
  { intros x a. rewrite Hl, lookup_insert_Some. intros [[<- <-]|[_ Ha]]; [rewrite Eo|]; by apply M4. }
  split; [done| | |done].
  - apply seen_as_manager; [done|done|]. apply seen_as_manager in M2; [|done|done].
    assert (forall a, chunk_visibility_of s' (en_chunk a) = chunk_visibility_of s (en_chunk a)) as Hv by (intros a; unfold chunk_visibility_of; by rewrite (ss_visibility _ _ Hst)).
    apply (seen_as_ext v (fun e => chunk_visibility_of s (en_chunk e))); [intros x a _; by rewrite Hv|].
    assert (forall x a, en_entity a = x -> (e_always_ticking (v x) = true -> en_ownership a = External) ->
      accessible_as v (fun e => chunk_visibility_of s (en_chunk e)) a = is_accessible s a) as Hacc.
    { intros x a <- Hal. unfold accessible_as. by rewrite effective_accessible. }
    eapply (seen_replace_ok _ _ _ _ s s' id e e' M2 He Hl); [|exact Et|done].
    rewrite (Hacc id e), (Hacc id e'); [done| |by apply M4'; rewrite Hl, lookup_insert_eq|apply (io_live s M1 id e He)|by apply M4].
    apply (io_live s' Hi id e'). by rewrite Hl, lookup_insert_eq.
  - rewrite (kept_same _ _ _ Hst). eapply kept_ok_ext; [exact M3|]. intros x a. rewrite Hl, lookup_insert_Some. intros [[<- <-]|[_ Ha]]; eauto.
Qed.

Lemma update_same id ids t b c : accessible_update b b id ids = ids /\ ticks_update c c id t = t.
Proof. by destruct b, c. Qed.

(** The box changes and the cells stay as they are. *)
Lemma set_box_ok v s id e box : manager_ok ∅ v [] s -> live_by_id s !! id = Some e -> box_ok box -> en_spatial_cells e = cells_of box ->
  manager_ok ∅ v [] (set_live s (<[id := set_entry_box e box (en_spatial_cells e)]> (live_by_id s))).
Proof.
  intros Hm He Hbox Hcells. pose proof (mo_indexes _ _ _ _ Hm) as Hs. set (e' := set_entry_box e box (en_spatial_cells e)).
  destruct (io_live s Hs id e He) as [E1 E2 E3 E4 E5 E6].
  assert (forall x, order_of (<[id := e']> (live_by_id s)) x = order_of (live_by_id s) x) as Hord.
  { intros x. unfold order_of. destruct (decide (x = id)) as [->|]; [by rewrite lookup_insert_eq, He|by rewrite lookup_insert_ne]. }
  assert (indexes_ok (set_live s (<[id := e']> (live_by_id s)))) as Hi.
  { refine (replace_box_ok s id e e' (by_spatial_cell s) Hs He _ _ _ _ _ _); try done.
    destruct (io_cells s Hs) as [C1 C2]. split.
    - eapply index_ok_ext; [|exact C1]. by apply (member_replace _ _ _ e).
    - intros c ids Hc. eapply sorted_ids_ext; [|by eapply C2]. intros x _. by rewrite Hord. }
  apply (manager_replace_ok v s _ id e e' Hm He Hi); try done.
  - cbn. change (is_accessible s e') with (is_accessible s e). by rewrite (proj1 (update_same _ _ (tick_list s) _ true)).
  - cbn. change (ticking_as v (fun e => chunk_visibility_of s (en_chunk e)) e') with (ticking_as v (fun e => chunk_visibility_of s (en_chunk e)) e).
    by rewrite (proj2 (update_same _ (accessible_order s) _ true _)).
Qed.

Lemma commit_bounding_box_change_ok v s id : manager_ok ∅ v [] s -> world_ok v ->
  exists s', commit_bounding_box_change v s id = Some s' /\ manager_ok ∅ v [] s'.
Proof.
  intros Hm Hw. unfold commit_bounding_box_change. destruct (live_by_id s !! id) as [e|] eqn:He; [|by eexists].
  destruct (Hw id) as [Hbox _]. case_decide as Ecells; [eexists; split; [done|]; by apply set_box_ok|].
  pose proof (mo_indexes _ _ _ _ Hm) as Hs. destruct (io_live s Hs id e He) as [E1 E2 E3 E4 E5 E6].
  set (e' := set_entry_box e (e_bounding_box (v id)) (cells_of (e_bounding_box (v id)))).
  destruct (cells_move_ok s id e e' Hs He) as (cells & E & Hcells); [apply NoDup_cells|].
  change (cells_of (e_bounding_box (v id))) with (en_spatial_cells e') at 1. change (query_order e) with (query_order e'). rewrite E.
  cbn [mbind option_bind]. eexists. split; [done|]. fold e'. rewrite insert_insert_eq.
  assert (indexes_ok (set_live (set_cells s cells) (<[id := e']> (live_by_id s)))) as Hi by (by apply (replace_box_ok s id e e')).
  apply (manager_replace_ok v s _ id e e' Hm He Hi); try done.
  - cbn. change (is_accessible s e') with (is_accessible s e). by rewrite (proj1 (update_same _ _ (tick_list s) _ true)).
  - cbn. change (ticking_as v (fun e => chunk_visibility_of s (en_chunk e)) e') with (ticking_as v (fun e => chunk_visibility_of s (en_chunk e)) e).
    by rewrite (proj2 (update_same _ (accessible_order s) _ true _)).
Qed.

(** ** Vehicles *)

(** Nobody rides, directly or not, on what rides on it. *)
Definition vehicles_acyclic v : Prop := exists rank : Z -> nat, forall id vehicle, e_vehicle (v id) = Some vehicle -> (rank vehicle < rank id)%nat.

Lemma live_loaded_root_total v s rank : (forall id vehicle, e_vehicle (v id) = Some vehicle -> (rank vehicle < rank id)%nat) ->
  forall fuel visited passenger vehicle, (forall x, x ∈ visited -> (rank vehicle < rank x)%nat) -> (size (dom (live_by_id s) ∖ visited) <= fuel)%nat ->
  is_Some (live_loaded_root fuel v s visited passenger vehicle).
Proof.
  intros Hrank fuel. induction fuel as [|fuel IH]; intros visited passenger vehicle Hv Hf; cbn [live_loaded_root];
    (rewrite decide_False by (intros Hin; apply Hv in Hin; lia)); (destruct (_ || _); [by eexists|]);
    (destruct (live_by_id s !! vehicle) as [e|] eqn:He; [|by eexists]);
    assert (size (dom (live_by_id s) ∖ visited) = S (size (dom (live_by_id s) ∖ ({[vehicle]} ∪ visited)))) as Hsize
      by (apply visited_size; [by eapply elem_of_dom_2|intros Hin; apply Hv in Hin; lia]).
  - lia.
  - destruct (e_vehicle (v vehicle)) as [next|] eqn:En; [|by eexists]. apply IH; [|lia]. apply Hrank in En.
    intros x [->%elem_of_singleton|Hx]%elem_of_union; [done|]. apply Hv in Hx. lia.
Qed.

Lemma check_destination_total v s e chunk : vehicles_acyclic v -> is_Some (check_destination v s e chunk).
Proof.
  intros [rank Hrank]. unfold check_destination. destruct (en_ownership e); [|by eexists]. unfold can_move_manager_owned_to_chunk.
  case_decide; [by eexists|]. destruct (entity_passenger _); [|by eexists]. unfold has_live_loaded_root_vehicle.
  destruct (e_vehicle (v (en_entity e))) as [vehicle|] eqn:E; [|by eexists].
  destruct (live_loaded_root_total v s rank Hrank (size (live_by_id s)) {[en_entity e]} (en_entity e) vehicle) as [b ->]; [| |by eexists].
  - intros x ->%elem_of_singleton. by apply Hrank.
  - rewrite <- size_dom. apply subseteq_size. set_solver.
Qed.

Lemma validate_move_total v s id pos : vehicles_acyclic v -> is_Some (validate_move v s id pos).
Proof. intros Ha. unfold validate_move. destruct (live_by_id s !! id); [by apply check_destination_total|by eexists]. Qed.

(** ** Moving *)

Lemma commit_move_ok v s id pos : manager_ok ∅ v [] s -> world_ok v -> section_ok (section_of_pos pos) -> vehicles_acyclic v ->
  next_order s < 2 ^ 64 - 1 -> exists s' r, commit_move v s id pos = Some (s', r) /\ manager_ok ∅ v [] s'.
Proof.
  intros Hm Hw Hsec Hacy Hno. unfold commit_move. destruct (live_by_id s !! id) as [e|] eqn:He; [|by eexists _, _].
  destruct (check_destination_total v s e (section_chunk (section_of_pos pos)) Hacy) as [[|err] ->]; [|by eexists _, _]. cbn [mbind option_bind].
  destruct (Hw id) as [Hbox _]. destruct (bool_decide _ && bool_decide _) eqn:E.
  - apply andb_true_iff in E as [_ E%bool_decide_eq_true]. eexists _, _. split; [done|]. by apply set_box_ok.
  - pose proof (mo_indexes _ _ _ _ Hm) as Hs.
    destruct (move_indexes_ok v s id e (section_of_pos pos) (e_bounding_box (v id)) Hs He Hsec Hbox Hno) as (s' & order & -> & Hi & Hst & Hl & Ha & Ht & _).
    cbn [mbind option_bind]. eexists _, _. split; [done|]. set (e' := moved_entry e _ _ order) in *.
    change (is_accessible_at s (en_ownership e) _) with (is_accessible s e'). change (visibility_ticking (effective_visibility v e (chunk_visibility_of s (en_chunk e))))
      with (ticking_as v (fun e => chunk_visibility_of s (en_chunk e)) e).
    change (visibility_ticking (effective_visibility v e (chunk_visibility_of s (section_chunk (section_of_pos pos)))))
      with (ticking_as v (fun e => chunk_visibility_of s (en_chunk e)) e').
    match goal with |- manager_ok _ _ _ ?st => assert (st = set_tick_list (set_accessible s' (accessible_update (is_accessible s e) (is_accessible s e') id (accessible_order s)))
      (ticks_update (ticking_as v (fun e => chunk_visibility_of s (en_chunk e)) e) (ticking_as v (fun e => chunk_visibility_of s (en_chunk e)) e') id (tick_list s))) as -> end.
    { rewrite <- Ha, <- Ht. unfold accessible_update, ticks_update.
      destruct (is_accessible s e), (is_accessible s e'), (ticking_as v _ e), (ticking_as v _ e'); cbn [andb negb]; try done; symmetry; apply set_seen_same. }
    apply (manager_replace_ok v s _ id e e' Hm He); [by apply indexes_ok_seen|by destruct Hst|done..].
Qed.
