(* ===== verification/EntityQueries.v ===== *)
(** * Queries of the entity manager

    Over a state that satisfies the invariant, the queries through the spatial cells give
    what a search of all live entities gives, and saving does not meet a UUID twice. *)

From S2P Require Import Prelude Positions Float64 ChunkHolder EntityManager EntityIndexes EntityInvariant EntityLifecycle EntityMoves.

#[local] Open Scope steel_scope.
Implicit Types s : ManagerState.
Implicit Types v : entities.
Implicit Types e : EntityEntry.

(** ** Entities in a box *)

#[global] Instance entry_le_trans : Transitive entry_le.
Proof. intros a b c. apply order_le_trans. Qed.
#[global] Instance entry_le_total : Total entry_le.
Proof. intros a b. apply order_le_total. Qed.

(** All live entities that match, in query order. *)
Definition entities_in_box s (box : WorldAabb) : list Z :=
  en_entity <$> filter (fun e => is_accessible s e && intersects (en_bounding_box e) box = true)
    (merge_sort entry_le (map_to_list (live_by_id s)).*2).

Definition live_entry s e : Prop := live_by_id s !! en_entity e = Some e.

Lemma live_entry_iff s : indexes_ok s -> forall e, live_entry s e <-> exists id, live_by_id s !! id = Some e.
Proof. intros Hs e. split; [by eexists|]. intros [id He]. unfold live_entry. by rewrite (eo_id _ _ _ (io_live s Hs id e He)). Qed.

Lemma entry_le_antisymm s e e' : indexes_ok s -> live_entry s e -> live_entry s e' -> entry_le e e' -> entry_le e' e -> e = e'.
Proof.
  intros Hs He He' H1 H2. assert (en_section_order e = en_section_order e') as Eo by (unfold entry_le, order_le, query_order in *; simpl in *; lia).
  pose proof (io_orders s Hs _ _ _ _ He He' Eo) as Eid. unfold live_entry in *. rewrite Eid in He. congruence.
Qed.

Lemma StronglySorted_filter {A} (R : A -> A -> Prop) (P : A -> Prop) `{forall x, Decision (P x)} l : StronglySorted R l -> StronglySorted R (filter P l).
Proof.
  induction 1 as [|x l Hs IH Hx]; [constructor|]. rewrite filter_cons. case_decide; [|done]. constructor; [done|].
  rewrite Forall_forall in Hx |- *. intros y [_ Hy]%list_elem_of_filter. by apply Hx.
Qed.

(** The live entries of distinct ids. *)
Lemma lookups_NoDup s ids : indexes_ok s -> NoDup ids -> NoDup (omap (fun id => live_by_id s !! id) ids).
Proof.
  intros Hs Hn. induction ids as [|id ids IH]; simpl; [constructor|]. apply NoDup_cons in Hn as [Hid Hn].
  destruct (live_by_id s !! id) as [e|] eqn:He; [|auto]. constructor; [|auto]. intros (x & Hx & He')%list_elem_of_omap.
  apply Hid. rewrite <- (eo_id _ _ _ (io_live s Hs id e He)), (eo_id _ _ _ (io_live s Hs x e He')). done.
Qed.

Lemma lookups_sorted s ids : sorted_ids (order_of (live_by_id s)) ids -> StronglySorted entry_le (omap (fun id => live_by_id s !! id) ids).
Proof.
  unfold sorted_ids. induction 1 as [|id ids Hs IH Hx]; simpl; [constructor|]. destruct (live_by_id s !! id) as [e|] eqn:He; [|done].
  constructor; [done|]. rewrite Forall_forall in Hx. apply Forall_forall. intros e' (x & Hin & He')%list_elem_of_omap. specialize (Hx x Hin).
  unfold order_of in Hx. by rewrite He, He' in Hx.
Qed.

Lemma elem_of_lookups s (ids : list Z) e : indexes_ok s -> e ∈ omap (fun id => live_by_id s !! id) ids <-> live_entry s e /\ en_entity e ∈ ids.
Proof.
  intros Hs. rewrite list_elem_of_omap. split; [|intros [He Hin]; by exists (en_entity e)]. intros (x & Hx & He).
  pose proof (eo_id _ _ _ (io_live s Hs x e He)) as <-. done.
Qed.

(** *** The cells a query visits *)

Lemma elem_of_populated s bounds ids : ids ∈ populated_cells s bounds <-> exists c, c ∈ bounds_cells bounds /\ by_spatial_cell s !! c = Some ids.
Proof.
  unfold populated_cells. destruct (_ <=? _); [apply list_elem_of_omap|]. rewrite list_elem_of_fmap. split.
  - intros ([c ids'] & -> & [Hb Hin]%list_elem_of_filter). exists c. simpl in *. split; [by apply elem_of_bounds_cells|by apply elem_of_map_to_list].
  - intros (c & Hc & E). exists (c, ids). split; [done|]. apply list_elem_of_filter. split; [by apply elem_of_bounds_cells|by apply elem_of_map_to_list].
Qed.

Lemma query_entries_spec s box : indexes_ok s ->
  NoDup (entity_query_entries s box) /\ StronglySorted entry_le (entity_query_entries s box) /\
  forall e, e ∈ entity_query_entries s box <-> live_entry s e /\ exists c, c ∈ cells_of box /\ c ∈ en_spatial_cells e.
Proof.
  intros Hs. destruct (io_cells s Hs) as [Hi Hsort]. unfold entity_query_entries. set (cells := populated_cells s (from_aabb box)).
  assert (forall e, live_entry s e -> (exists ids, ids ∈ cells /\ en_entity e ∈ ids) <->
    exists c, c ∈ cells_of box /\ c ∈ en_spatial_cells e) as Hcells.
  { intros e He. split.
    - intros (ids & (c & Hc & E)%elem_of_populated & Hin). exists c. split; [done|].
      assert (member in_cell (live_by_id s) (en_entity e) c) as (e' & He' & Hin') by (apply (ix_has _ _ Hi); by rewrite E).
      unfold live_entry in He. by assert (e' = e) as -> by congruence.
    - intros (c & Hc & Hin). assert (en_entity e ∈ default [] (by_spatial_cell s !! c)) as Hx by (apply (ix_has _ _ Hi); by exists e).
      destruct (by_spatial_cell s !! c) as [ids|] eqn:E; [|by apply elem_of_nil in Hx]. exists ids. split; [|done]. apply elem_of_populated. eauto. }
  assert (forall l, l = merge_sort entry_le (omap (fun id => live_by_id s !! id) (elements (list_to_set (concat cells) : gset Z))) ->
    NoDup l /\ StronglySorted entry_le l /\ forall e, e ∈ l <-> live_entry s e /\ exists c, c ∈ cells_of box /\ c ∈ en_spatial_cells e) as Hmany.
  { intros l ->. split_and!.
    - rewrite merge_sort_Permutation. apply lookups_NoDup; [done|]. apply NoDup_elements.
    - apply StronglySorted_merge_sort; apply _.
    - intros e. rewrite merge_sort_Permutation, elem_of_lookups, elem_of_elements, elem_of_list_to_set by done. rewrite list_elem_of_In, in_concat.
      split; intros [He H]; (split; [done|]); [apply Hcells; [done|]|apply Hcells in H; [|done]].
      + destruct H as (ids & H1 & H2). exists ids. by rewrite !list_elem_of_In.
      + destruct H as (ids & H1 & H2). exists ids. by rewrite <- !list_elem_of_In. }
  destruct cells as [|ids [|ids' rest]] eqn:Ep; [by apply Hmany| |by apply Hmany].
  assert (ids ∈ cells) as (c & Hc & E)%elem_of_populated by (rewrite Ep; by left). split_and!.
  - apply lookups_NoDup; [done|]. by destruct (ix_lists _ _ Hi c ids E).
  - apply lookups_sorted. by eapply Hsort.
  - intros e. rewrite elem_of_lookups by done. split; intros [He H]; (split; [done|]); [apply Hcells|apply Hcells in H]; try done.
    + exists ids. split; [by left|done].
    + by destruct H as (ids0 & ->%list_elem_of_singleton & H2).
Qed.

Lemma entities_in_box_spec s box : indexes_ok s -> box_ok box -> get_entities_in_aabb s box = entities_in_box s box.
Proof.
  intros Hs Hbox. destruct (query_entries_spec s box Hs) as (Hn & Hsort & Hin). unfold get_entities_in_aabb, entities_in_box. f_equal.
  assert (forall e, e ∈ merge_sort entry_le (map_to_list (live_by_id s)).*2 <-> live_entry s e) as Hlive.
  { intros e. rewrite merge_sort_Permutation, list_elem_of_fmap, live_entry_iff by done. split.
    - intros ([id e'] & -> & H%elem_of_map_to_list). by exists id.
    - intros [id H]. exists (id, e). split; [done|]. by apply elem_of_map_to_list. }
  apply (Sorted_unique_strong entry_le).
  - intros e e' [_ He]%list_elem_of_filter [_ He']%list_elem_of_filter. apply Hin in He as [He _]. apply Hlive in He'. by apply (entry_le_antisymm s).
  - by apply StronglySorted_Sorted, StronglySorted_filter.
  - apply StronglySorted_Sorted, StronglySorted_filter, StronglySorted_merge_sort; apply _.
  - apply NoDup_Permutation; [by apply NoDup_filter| |].
    + apply NoDup_filter. rewrite merge_sort_Permutation. apply NoDup_fmap_2_strong; [|apply NoDup_map_to_list].
      intros [i a] [j b] Ha%elem_of_map_to_list Hb%elem_of_map_to_list E. simpl in E. subst b.
      by rewrite <- (eo_id _ _ _ (io_live s Hs i a Ha)), <- (eo_id _ _ _ (io_live s Hs j a Hb)).
    + intros e. rewrite !list_elem_of_filter, Hin, Hlive. split; [tauto|]. intros [Hp He]. split; [done|]. split; [done|].
      apply andb_true_iff in Hp as [_ Hp]. destruct (io_live s Hs _ e He) as [_ _ _ Ec Eb _]. rewrite Ec.
      destruct (intersects_cell _ _ Eb Hbox Hp) as (c & H1 & H2). by exists c.
Qed.

(** ** Entities to save *)

(** The entries of a chunk: live, unloading and waiting for a save. *)
Definition chunk_entries s (chunk : ChunkPos) : list EntityEntry :=
  omap (fun id => live_by_id s !! id) (entity_ids_in_chunk_order s chunk) ++ default [] (unloading_by_chunk s !! chunk) ++
  default [] (save_pending_by_chunk s !! chunk).

Definition entries_to_save v (l : list EntityEntry) : list Z := en_entity <$> filter (fun e => entry_should_save v e = true) l.

Lemma push_saveable_ok v pre e rest : NoDup (en_entity <$> pre ++ e :: rest) -> NoDup (en_uuid <$> pre ++ e :: rest) -> forall ids uuids : gset Z,
  (forall x, x ∈ ids -> x ∈ (en_entity <$> pre)) -> (forall x, x ∈ uuids -> x ∈ (en_uuid <$> pre)) ->
  exists ids' uuids', push_saveable_entity v e (entries_to_save v pre, ids, uuids) = Some (entries_to_save v (pre ++ [e]), ids', uuids') /\
    (forall x, x ∈ ids' -> x ∈ (en_entity <$> pre ++ [e])) /\ (forall x, x ∈ uuids' -> x ∈ (en_uuid <$> pre ++ [e])).
Proof.
  intros Hn Hu ids uuids Hids Huuids. rewrite fmap_app, fmap_cons in Hn, Hu. apply NoDup_app in Hn as (_ & Hn & _). apply NoDup_app in Hu as (_ & Hu & _).
  assert (en_entity e ∉ ids) as Hid by (intros Hin; apply Hids in Hin; apply (Hn _ Hin); by left).
  assert (en_uuid e ∉ uuids) as Huid by (intros Hin; apply Huuids in Hin; apply (Hu _ Hin); by left).
  unfold push_saveable_entity, entries_to_save. rewrite filter_app, filter_cons, !fmap_app. destruct (entry_should_save v e) eqn:Es; cbn [negb].
  - rewrite decide_False by done. rewrite decide_False by done. rewrite decide_True by done. eexists _, _. split; [done|].
    split; intros x [->%elem_of_singleton|Hx]%elem_of_union; apply elem_of_app; [right; by left|left; auto|right; by left|left; auto].
  - rewrite decide_False by done. rewrite app_nil_r. eexists _, _. split; [done|]. split; intros x Hx; apply elem_of_app; left; auto.
Qed.

Lemma push_saveables_ok v l : NoDup (en_entity <$> l) -> NoDup (en_uuid <$> l) ->
  exists ids uuids, for_each l (push_saveable_entity v) ([], ∅, ∅) = Some (entries_to_save v l, ids, uuids).
Proof.
  intros Hn Hu. destruct (for_each_ind (fun pre acc => exists ids uuids : gset Z, acc = (entries_to_save v pre, ids, uuids) /\
    (forall x, x ∈ ids -> x ∈ (en_entity <$> pre)) /\ (forall x, x ∈ uuids -> x ∈ (en_uuid <$> pre))) l (push_saveable_entity v) ([], ∅, ∅))
    as (acc & E & ids & uuids & -> & _).
  - exists ∅, ∅. split; [done|]. split; by intros x ?%elem_of_empty.
  - intros pre e todo acc -> (ids & uuids & -> & H1 & H2). destruct (push_saveable_ok v pre e todo Hn Hu ids uuids H1 H2) as (ids' & uuids' & E & H3 & H4).
    eexists. split; [exact E|]. by exists ids', uuids'.
  - by exists ids, uuids.
Qed.

Lemma for_each_app {A B} (l l' : list A) (f : A -> B -> option B) (b : B) : for_each (l ++ l') f b = b' ← for_each l f b; for_each l' f b'.
Proof. revert b. induction l as [|x l IH]; intros b; simpl; [done|]. destruct (f x b); simpl; [apply IH|done]. Qed.

Lemma saveable_eq v s chunk : get_saveable_entities_for_chunk v s chunk =
  '(result, _, _) ← for_each (chunk_entries s chunk) (push_saveable_entity v) ([], ∅, ∅); Some result.
Proof.
  unfold get_saveable_entities_for_chunk, chunk_entries. rewrite !for_each_app. destruct (for_each _ _ ([], ∅, ∅)) as [a|]; [|done]. cbn [mbind option_bind].
  rewrite for_each_app. by destruct (for_each _ _ a).
Qed.

(** The entries of a chunk have distinct ids and UUIDs. *)
Lemma chunk_entries_NoDup v s chunk : manager_ok ∅ v [] s -> chunk_ok chunk ->
  NoDup (en_entity <$> chunk_entries s chunk) /\ NoDup (en_uuid <$> chunk_entries s chunk).
Proof.
  intros [M1 _ M3 _] Hc. destruct (chunk_order_ids s chunk M1 Hc) as [Hn _]. unfold chunk_entries. set (live := omap _ _).
  set (others := default [] (unloading_by_chunk s !! chunk) ++ default [] (save_pending_by_chunk s !! chunk)).
  assert (kept_ok v (live_by_id s) others) as [K1 K2 K3].
  { apply (kept_ok_app _ _ (stored_entries (delete chunk (unloading_by_chunk s)) ++ stored_entries (delete chunk (save_pending_by_chunk s)))).
    revert M3. unfold kept, others. rewrite (stored_entries_delete (unloading_by_chunk s) chunk), (stored_entries_delete (save_pending_by_chunk s) chunk).
    match goal with |- kept_ok _ _ ?a -> kept_ok _ _ ?b => assert (a ≡ₚ b) as -> by solve_Permutation end. done. }
  assert (forall e, e ∈ live -> live_entry s e) as Hlive by (intros e He; by apply elem_of_lookups in He as [He _]).
  assert (NoDup live) as Hnd by (by apply lookups_NoDup).
  rewrite !fmap_app. split; apply NoDup_app; (split; [|split; [|done]]).
  - apply NoDup_fmap_2_strong; [|done]. intros a b Ha%Hlive Hb%Hlive E. unfold live_entry in *. congruence.
  - intros x (a & -> & Ha%Hlive)%list_elem_of_fmap (b & E & Hb)%list_elem_of_fmap. destruct (K3 b Hb) as [[Hno _] _]. unfold live_entry in Ha. congruence.
  - apply NoDup_fmap_2_strong; [|done]. intros a b Ha%Hlive Hb%Hlive E. unfold live_entry in *.
    assert (live_by_uuid s !! en_uuid a = Some (en_entity a)) as H1 by (apply (io_uuids s M1); eauto).
    assert (live_by_uuid s !! en_uuid a = Some (en_entity b)) as H2 by (apply (io_uuids s M1); eauto). congruence.
  - intros x (a & -> & Ha%Hlive)%list_elem_of_fmap (b & E & Hb)%list_elem_of_fmap. destruct (K3 b Hb) as [[_ Hno] _]. by apply (Hno _ a Ha).
Qed.

Lemma saveable_entities_ok v s chunk : manager_ok ∅ v [] s -> chunk_ok chunk ->
  get_saveable_entities_for_chunk v s chunk = Some (entries_to_save v (chunk_entries s chunk)).
Proof.
  intros Hm Hc. destruct (chunk_entries_NoDup v s chunk Hm Hc) as [Hn Hu]. rewrite saveable_eq.
  by destruct (push_saveables_ok v _ Hn Hu) as (ids & uuids & ->).
Qed.
