(* ===== verification/EntitySystem.v ===== *)
(** * The entity manager as a system

    The operations in any order, with entities that change in between: the indexes stay
    consistent, nothing panics, and the queries and the saving give what the live entities
    say. *)

From S2P Require Import Prelude Positions Float64 ChunkHolder EntityManager EntityIndexes EntityInvariant EntityLifecycle EntityMoves EntityQueries.

#[local] Open Scope steel_scope.
Implicit Types s : ManagerState.
Implicit Types v : entities.
Implicit Types e : EntityEntry.

(** ** Operations and reachable states *)

Inductive ManagerOp :=
| OpAdd (id : Z) (ownership : EntityOwnership)
| OpAddTree (ids : list Z) (ownership : EntityOwnership)
| OpRemove (id : Z) (reason : RemovalReason)
| OpSaved (chunk : ChunkPos) (ids : list Z)
| OpChunkLoaded (chunk : ChunkPos)
| OpVisibility (chunk : ChunkPos) (visibility : EntityVisibility)
| OpBeginUnload (chunk : ChunkPos)
| OpFinalizeUnload (chunk : ChunkPos)
| OpMove (id : Z) (pos : Vec3)
| OpBoxChange (id : Z).

(** The state after an operation; a panic is [None]. *)
Definition run_op v (op : ManagerOp) s : option ManagerState :=
  match op with
  | OpAdd id ownership => fst <$> add_live_entity v s id ownership
  | OpAddTree ids ownership => fst <$> add_live_entity_tree v s ids ownership
  | OpRemove id reason => Some (remove_live_entity v s id reason).1
  | OpSaved chunk ids => Some (on_chunk_saved s chunk ids)
  | OpChunkLoaded chunk => fst <$> on_chunk_loaded v s chunk
  | OpVisibility chunk visibility => Some (update_chunk_visibility v s chunk visibility).1
  | OpBeginUnload chunk => fst <$> begin_chunk_unload v s chunk
  | OpFinalizeUnload chunk => Some (finalize_chunk_unload s chunk).1
  | OpMove id pos => fst <$> commit_move v s id pos
  | OpBoxChange id => commit_bounding_box_change v s id
  end.

(** When an operation may be called: ids are not registered twice, chunks and destinations
    are inside the world, nobody rides on itself, and the section order has numbers left. *)
Definition op_allowed v s (op : ManagerOp) : Prop :=
  match op with
  | OpAdd id ownership => may_add v s [id] ownership
  | OpAddTree ids ownership => may_add v s ids ownership
  | OpRemove _ _ | OpSaved _ _ | OpFinalizeUnload _ | OpBoxChange _ => True
  | OpChunkLoaded chunk => next_order s + Z.of_nat (length (default [] (unloading_by_chunk s !! chunk))) <= 2 ^ 64 - 1
  | OpVisibility chunk _ => chunk_ok chunk
  | OpBeginUnload chunk => chunk_ok chunk /\ next_order s + Z.of_nat (size (live_by_id s)) <= 2 ^ 64 - 1
  | OpMove _ pos => section_ok (section_of_pos pos) /\ vehicles_acyclic v /\ next_order s < 2 ^ 64 - 1
  end.

(** Between the operations entities move, die and ride as they like; which of them tick
    always is fixed. *)
Inductive manager_reachable : entities -> ManagerState -> Prop :=
| reach_empty v : world_ok v -> manager_reachable v manager_empty
| reach_world v v' s : manager_reachable v s -> world_ok v' -> (forall id, e_always_ticking (v' id) = e_always_ticking (v id)) ->
    manager_reachable v' s
| reach_op v s op s' : manager_reachable v s -> op_allowed v s op -> run_op v op s = Some s' -> manager_reachable v s'.

(** ** The invariant of every reachable state *)

Lemma manager_empty_ok v : manager_ok ∅ v [] manager_empty.
Proof.
  split.
  - split; cbn; try done.
    + intros u id. split; [done|by intros (e & ? & _)].
    + split; [done|]. intros k id. cbn. split; [by intros ?%elem_of_nil|by intros (e & ? & _)].
    + split; [|done]. split; [done|]. intros k id. cbn. split; [by intros ?%elem_of_nil|by intros (e & ? & _)].
    + split; [done|]. intros id c. cbn. split; [by intros ?%elem_of_empty|by intros (e & ? & _)].
  - split; cbn; try constructor; try (by intros ?%elem_of_nil); try (by intros ?%elem_of_empty); by intros (e & ? & _).
  - split; cbn; [constructor|constructor|]. by intros e ?%elem_of_nil.
  - done.
Qed.

Lemma manager_world_ok v v' s : manager_ok ∅ v [] s -> (forall id, e_always_ticking (v' id) = e_always_ticking (v id)) -> manager_ok ∅ v' [] s.
Proof.
  intros [M1 M2 M3 M4] Hal. split; [done| | |].
  - revert M2. apply seen_ok_ext. intros id e He. split; [done|]. unfold ticking_entry, effective_visibility. by rewrite Hal.
  - destruct M3 as [K1 K2 K3]. split; [done|done|]. intros e He. destruct (K3 e He) as [Hn (A & B & C & D)]. split; [done|].
    split; [done|]. split; [done|]. split; [done|]. by rewrite Hal.
  - intros id e He Ha. rewrite Hal in Ha. by eapply M4.
Qed.

Lemma run_op_ok v s op : manager_ok ∅ v [] s -> world_ok v -> op_allowed v s op -> exists s', run_op v op s = Some s' /\ manager_ok ∅ v [] s'.
Proof.
  intros Hm Hw Hop. destruct op; cbn [run_op op_allowed] in *.
  - destruct (add_live_entity_ok v s id ownership Hm Hw Hop) as (s' & r & -> & H). by exists s'.
  - destruct (add_live_entity_tree_ok v s ids ownership Hm Hw Hop) as (s' & r & -> & H). by exists s'.
  - eexists. split; [done|]. by apply remove_live_entity_ok.
  - eexists. split; [done|]. by apply on_chunk_saved_ok.
  - destruct (on_chunk_loaded_ok v s chunk Hm Hw Hop) as (s' & r & -> & H & _). by exists s'.
  - eexists. split; [done|]. by apply update_chunk_visibility_ok.
  - destruct Hop as [Hc Hno]. destruct (begin_chunk_unload_ok v s chunk Hm Hw Hc Hno) as (s' & r & -> & H & _). by exists s'.
  - eexists. split; [done|]. by apply finalize_chunk_unload_ok.
  - destruct Hop as (Hs & Ha & Hno). destruct (commit_move_ok v s id pos Hm Hw Hs Ha Hno) as (s' & r & -> & H). by exists s'.
  - by apply commit_bounding_box_change_ok.
Qed.

Lemma reachable_ok v s : manager_reachable v s -> world_ok v /\ manager_ok ∅ v [] s.
Proof.
  induction 1 as [v Hw|v v' s _ [_ IH] Hw Hal|v s op s' _ [Hw IH] Hop E].
  - split; [done|]. apply manager_empty_ok.
  - split; [done|]. by eapply manager_world_ok.
  - split; [done|]. destruct (run_op_ok v s op IH Hw Hop) as (s1 & E1 & H1). congruence.
Qed.

(** C6. In every reachable state each index of the manager is what a recount of the live
    entities gives: the UUIDs, the sections, the spatial cells in query order, the chunks,
    the list of accessible entities and the tick list; the entities that are unloading or
    wait for a save differ from the live ones and from each other. *)
Theorem entity_indexes_consistent v s : manager_reachable v s -> manager_ok ∅ v [] s.
Proof. intros H. by apply reachable_ok. Qed.

(** C31. No operation of the manager that is allowed panics in a reachable state.  Allowed means:
    entities that are added have fresh and distinct ids and UUIDs, sections and chunks are
    within the coordinates, a move finds no cycle of vehicles, and the section order has room
    for the entities concerned.  The places in the cells, the entries behind every index and
    the walks to the roots of vehicles are then always found. *)
Theorem entity_operations_return v s op : manager_reachable v s -> op_allowed v s op -> is_Some (run_op v op s).
Proof. intros [Hw Hm]%reachable_ok Hop. destruct (run_op_ok v s op Hm Hw Hop) as (s' & -> & _). by eexists. Qed.

(** C7. The query through the spatial cells returns what a search of all live entities
    returns: those that are accessible and whose box intersects, each once, in the order of
    sections and of insertion, whether few or many cells are probed. *)
Theorem entity_query_exact v s box : manager_reachable v s -> box_ok box -> get_entities_in_aabb s box = entities_in_box s box.
Proof. intros [_ Hm]%reachable_ok Hbox. by apply entities_in_box_spec, Hbox; apply Hm. Qed.

(** The entities saved with a chunk are those of its live, its unloading and its pending
    entries that can be saved, in this order and each once; the assertion that no UUID comes
    twice holds. *)
Theorem saveable_entities_exact v s chunk : manager_reachable v s -> chunk_ok chunk ->
  get_saveable_entities_for_chunk v s chunk = Some (entries_to_save v (chunk_entries s chunk)).
Proof. intros [_ Hm]%reachable_ok Hc. by apply saveable_entities_ok. Qed.

(** C32. A chunk that starts to unload gives up its entities: the manager-owned ones that stay
    live ride on something; when the chunk is loaded again before the unload is final, every
    entity that was live and is not removed is live again, with the same UUID, section, chunk
    and owner. *)
Theorem unload_then_load_restores v s pos : manager_reachable v s -> chunk_ok pos ->
  next_order s + Z.of_nat (size (live_by_id s)) <= 2 ^ 64 - 1 ->
  exists s1 r1, begin_chunk_unload v s pos = Some (s1, r1) /\
    (forall id e, live_by_id s1 !! id = Some e -> en_ownership e = ManagerOwned -> en_chunk e = pos -> entity_passenger (v id) = true) /\
    (next_order s1 + Z.of_nat (length (default [] (unloading_by_chunk s1 !! pos))) <= 2 ^ 64 - 1 ->
     exists s2 r2, on_chunk_loaded v s1 pos = Some (s2, r2) /\
       forall id e, live_by_id s !! id = Some e -> entity_removed (v id) = false -> exists e', live_by_id s2 !! id = Some e' /\ same_place e' e).
Proof.
  intros [Hw Hm]%reachable_ok Hc Hno. destruct (begin_chunk_unload_ok v s pos Hm Hw Hc Hno) as (s1 & r1 & E1 & Hm1 & _ & Hkept & Hroots).
  exists s1, r1. split; [done|]. split; [done|]. intros Hno1. destruct (on_chunk_loaded_ok v s1 pos Hm1 Hw Hno1) as (s2 & r2 & E2 & _ & Hl & Hr).
  exists s2, r2. split; [done|]. intros id e He Halive. destruct (Hkept id e He) as [(e1 & H1 & Hp)|(e1 & Hin & <- & Hp)]; [by eauto|].
  destruct (Hr e1 Hin Halive) as (e2 & H2 & Hp2). exists e2. split; [done|]. by eapply same_place_trans.
Qed.

(** ** A small world *)

Definition block_box (x y z : Z) : WorldAabb := mkAabb (mkVec3 (f64_of_Z x) (f64_of_Z y) (f64_of_Z z)) (mkVec3 (f64_of_Z (x + 1)) (f64_of_Z (y + 2)) (f64_of_Z (z + 1))).
Definition example_entity (uuid x : Z) (vehicle : option Z) (passengers : list Z) (player : bool) : Entity :=
  mkEntity uuid (mkVec3 (f64_of_Z x) (f64_of_Z 64) (f64_of_Z 3)) (block_box x 64 3) None vehicle passengers 0 player true player false.

(** A boat (1) with a cow (2) and a player (9) in the next chunk. *)
Definition example_entities : entities := fun id =>
  if id =? 1 then example_entity 101 5 None [2] false
  else if id =? 2 then example_entity 102 5 (Some 1) [] false
  else if id =? 9 then example_entity 109 20 None [] true
  else example_entity 100 0 None [] false.

Lemma example_world_ok : world_ok example_entities.
Proof.
  intros id. unfold example_entities. repeat case_match; (split; [unfold box_ok; repeat split; by vm_compute|split; by vm_compute]).
Qed.

Lemma example_acyclic : vehicles_acyclic example_entities.
Proof.
  exists (fun id => if id =? 2 then 1%nat else 0%nat). intros id vehicle. unfold example_entities.
  destruct (id =? 1) eqn:E1; [done|]. destruct (id =? 2) eqn:E2; [intros [= <-]; simpl; lia|]. by destruct (id =? 9).
Qed.

Definition op_loaded : ManagerOp := OpChunkLoaded (mkChunkPos 0 0).
Definition op_ticking : ManagerOp := OpVisibility (mkChunkPos 0 0) Ticking.
Definition op_tree : ManagerOp := OpAddTree [1; 2] ManagerOwned.
Definition op_player : ManagerOp := OpAdd 9 External.

(** The states after each of these operations. *)
Definition state_1 : ManagerState := Eval vm_compute in default manager_empty (run_op example_entities op_loaded manager_empty).
Definition state_2 : ManagerState := Eval vm_compute in default manager_empty (run_op example_entities op_ticking state_1).
Definition state_3 : ManagerState := Eval vm_compute in default manager_empty (run_op example_entities op_tree state_2).
Definition state_4 : ManagerState := Eval vm_compute in default manager_empty (run_op example_entities op_player state_3).

Lemma may_add_check v s ids o :
  bool_decide (NoDup ids) && forallb (fun id => negb (contains_id s id) && implb (e_always_ticking (v id)) (bool_decide (o = External))) ids &&
  (next_order s + Z.of_nat (length ids) <=? 2 ^ 64 - 1) = true -> may_add v s ids o.
Proof.
  rewrite !andb_true_iff, bool_decide_eq_true, forallb_forall, Z.leb_le. intros [[Hn Hall] Hno]. split; [done|]. split; [|done].
  intros id Hid%list_elem_of_In. apply Hall, andb_true_iff in Hid as [Hc%negb_true_iff Ho]. split; [done|]. intros Ha. rewrite Ha in Ho. by apply bool_decide_eq_true in Ho.
Qed.

Lemma example_reachable : manager_reachable example_entities state_4.
Proof.
  apply (reach_op _ state_3 op_player); [|by apply may_add_check; vm_compute|by vm_compute].
  apply (reach_op _ state_2 op_tree); [|by apply may_add_check; vm_compute|by vm_compute].
  apply (reach_op _ state_1 op_ticking); [|split; by vm_compute|by vm_compute].
  apply (reach_op _ manager_empty op_loaded); [|by vm_compute|by vm_compute].
  apply reach_empty, example_world_ok.
Qed.

Lemma entity_indexes_consistent_witness : manager_ok ∅ example_entities [] state_4 /\ tick_list_snapshot (tick_list state_4) = [1; 2; 9].
Proof. split; [apply (entity_indexes_consistent example_entities state_4 example_reachable)|by vm_compute]. Defined.

Lemma entity_operations_return_witness :
  let op := OpMove 1 (mkVec3 (f64_of_Z 9) (f64_of_Z 64) (f64_of_Z 12)) in
  is_Some (run_op example_entities op state_4).
Proof.
  apply (entity_operations_return example_entities state_4); [exact example_reachable|].
  split; [split; by vm_compute|]. split; [exact example_acyclic|by vm_compute].
Defined.

Lemma entity_query_exact_witness : get_entities_in_aabb state_4 (block_box 5 65 3) = entities_in_box state_4 (block_box 5 65 3) /\
  entities_in_box state_4 (block_box 5 65 3) = [1; 2].
Proof.
  split; [|by vm_compute]. apply (entity_query_exact example_entities state_4); [exact example_reachable|]. unfold box_ok. repeat split; by vm_compute.
Defined.

Lemma saveable_entities_exact_witness :
  get_saveable_entities_for_chunk example_entities state_4 (mkChunkPos 0 0) =
    Some (entries_to_save example_entities (chunk_entries state_4 (mkChunkPos 0 0))) /\
  entries_to_save example_entities (chunk_entries state_4 (mkChunkPos 0 0)) = [1].
Proof. split; [|by vm_compute]. apply saveable_entities_exact; [exact example_reachable|split; by vm_compute]. Defined.

Definition example_reload : option (list Z * list Z) :=
  '(s1, r1) ← begin_chunk_unload example_entities state_4 (mkChunkPos 0 0);
  '(s2, r2) ← on_chunk_loaded example_entities s1 (mkChunkPos 0 0);
  if next_order s1 + Z.of_nat (length (default [] (unloading_by_chunk s1 !! mkChunkPos 0 0))) <=? 2 ^ 64 - 1
  then Some (us_retained r1, lr_restored r2) else None.

Lemma unload_then_load_restores_witness : exists s1 r1 s2 r2, begin_chunk_unload example_entities state_4 (mkChunkPos 0 0) = Some (s1, r1) /\
  on_chunk_loaded example_entities s1 (mkChunkPos 0 0) = Some (s2, r2) /\ us_retained r1 = [1; 2] /\ lr_restored r2 = [1; 2].
Proof.
  destruct (unload_then_load_restores example_entities state_4 (mkChunkPos 0 0)) as (s1 & r1 & E & _ & H);
    [exact example_reachable|split; by vm_compute|by vm_compute|].
  assert (example_reload = Some ([1; 2], [1; 2])) as Hr by (by vm_compute). unfold example_reload in Hr. rewrite E in Hr. cbn [mbind option_bind] in Hr.
  destruct H as (s2 & r2 & E2 & _).
  - destruct (on_chunk_loaded _ _ _) as [[s2 r2]|] in Hr; [|done]. cbn [mbind option_bind] in Hr. destruct (_ <=? _) eqn:Hle in Hr; [by apply Z.leb_le in Hle|done].
  - rewrite E2 in Hr. cbn [mbind option_bind] in Hr. destruct (_ <=? _) in Hr; [|done]. injection Hr as Hr1 Hr2. exists s1, r1, s2, r2. exact (conj E (conj E2 (conj Hr1 Hr2))).
Defined.
