(* ===== verification/EntityTicking.v ===== *)
(** * Ticking entities

    Models [WorldEntityManager::tick_entities] and its helpers in
    [steel-core/src/entity/manager/mod.rs] and the passenger pass of
    [steel-core/src/entity/ticking.rs].  What an entity does when it ticks, despawns or stops
    riding is behind the trait [Entity]: it is an argument of the pass and may change every
    entity and the manager.  Each entity ticks at most once in a pass, a passenger after its
    vehicle. *)

From S2P Require Import Prelude Positions Float64 ChunkHolder EntityManager EntityIndexes EntitySystem.

#[local] Open Scope steel_scope.
Implicit Types s : ManagerState.
Implicit Types v : entities.

(** ** Vehicle chains *)

(** The loops over [vehicle()]; a vehicle met twice is a panic. *)
Fixpoint pending_in_chain (fuel : nat) v (visited : gset Z) (vehicle : option Z) : option bool :=
  match vehicle with
  | None => Some false
  | Some current =>
      if decide (current ∈ visited) then None
      else if e_world_change_pending (v current) then Some true
      else match fuel with O => None | S fuel => pending_in_chain fuel v ({[current]} ∪ visited) (e_vehicle (v current)) end
  end.

Definition has_pending_world_change_in_vehicle_chain (fuel : nat) v (id : Z) : option bool :=
  if e_world_change_pending (v id) then Some true else pending_in_chain fuel v {[id]} (e_vehicle (v id)).

Fixpoint acyclic_chain (fuel : nat) v (visited : gset Z) (vehicle : option Z) : option unit :=
  match vehicle with
  | None => Some tt
  | Some current =>
      if decide (current ∈ visited) then None
      else match fuel with O => None | S fuel => acyclic_chain fuel v ({[current]} ∪ visited) (e_vehicle (v current)) end
  end.

Definition assert_acyclic_vehicle_chain (fuel : nat) v (id : Z) : option unit := acyclic_chain fuel v {[id]} (e_vehicle (v id)).

Definition can_tick_entity_now (fuel : nat) v s (id : Z) : option bool :=
  match live_by_id s !! id with
  | None => Some false
  | Some entry =>
      pending ← has_pending_world_change_in_vehicle_chain fuel v id;
      Some (if pending : bool then false
            else match en_ownership entry with
                 | External => e_is_player (v id) || bool_decide (id ∈ tl_active (tick_list s))
                 | ManagerOwned => bool_decide (id ∈ tl_active (tick_list s))
                 end)
  end.

Definition is_entity_frozen_by_tick_rate v (id : Z) (runs_normally : bool) : bool :=
  negb runs_normally && negb (e_is_player (v id)) && (e_player_passengers (v id) =? 0).

(** ** The pass *)

Record World := mkWorld { w_entities : entities; w_manager : ManagerState }.

(** The calls on an entity. *)
Inductive EntityAction := CheckDespawn | StopRiding | SnapshotOldPosAndRot | AdvanceTickCount | Tick | RideTick.

(** What ticked, in order. *)
Inductive TickEvent := RootTick (id : Z) | PassengerTick (id vehicle : Z).
Definition event_id (e : TickEvent) : Z := match e with RootTick id | PassengerTick id _ => id end.

Record TickPass := mkPass {
  tp_world : World;
  tp_ticked : gset Z;
  tp_dirty : gset ChunkPos;
  tp_log : list TickEvent;
}.

Section Pass.
Context (act : EntityAction -> Z -> World -> World) (fuel : nat).

Definition entity_of (p : TickPass) (id : Z) : Entity := w_entities (tp_world p) id.

Definition perform (a : EntityAction) (id : Z) (p : TickPass) : TickPass :=
  mkPass (act a id (tp_world p)) (tp_ticked p) (tp_dirty p) (tp_log p).

Definition mark_ticked (e : TickEvent) (p : TickPass) : TickPass :=
  mkPass (tp_world p) ({[event_id e]} ∪ tp_ticked p) (tp_dirty p) (tp_log p ++ [e]).

Definition add_dirty (chunk : option ChunkPos) (p : TickPass) : TickPass :=
  mkPass (tp_world p) (tp_ticked p) (match chunk with Some c => {[c]} ∪ tp_dirty p | None => tp_dirty p end) (tp_log p).

Definition mark_dirty_after_tick (id : Z) (p : TickPass) : TickPass :=
  add_dirty (match live_manager_owned_entity_chunk (w_manager (tp_world p)) id with
             | Some _ => Some (section_chunk (section_of_pos (e_position (entity_of p id))))
             | None => None
             end) p.

(** [visited] is restored on every way out. *)
Fixpoint tick_passenger (depth : nat) (visited : gset Z) (vehicle id : Z) (p : TickPass) : option TickPass :=
  if decide (id ∈ visited) then None
  else if entity_removed (entity_of p id) || negb (bool_decide (e_vehicle (entity_of p id) = Some vehicle)) then Some (perform StopRiding id p)
  else
    can ← can_tick_entity_now fuel (w_entities (tp_world p)) (w_manager (tp_world p)) id;
    if (can : bool) && negb (bool_decide (id ∈ tp_ticked p)) then
      let p := mark_ticked (PassengerTick id vehicle) p in
      let p := perform RideTick id (perform AdvanceTickCount id (perform SnapshotOldPosAndRot id p)) in
      let p := mark_dirty_after_tick id p in
      match depth with
      | O => None
      | S depth => for_each (e_passengers (entity_of p id)) (tick_passenger depth ({[id]} ∪ visited) id) p
      end
    else Some p.

Definition tick_vehicle_passengers_with_ticked (vehicle : Z) (p : TickPass) : option TickPass :=
  for_each (e_passengers (entity_of p vehicle)) (tick_passenger fuel {[vehicle]} vehicle) p.

Definition tick_non_passenger (id : Z) (p : TickPass) : option TickPass :=
  let p := perform Tick id (perform AdvanceTickCount id (perform SnapshotOldPosAndRot id p)) in
  tick_vehicle_passengers_with_ticked id (mark_dirty_after_tick id p).

Definition is_valid_passenger_or_stop_riding (id : Z) (p : TickPass) : option (bool * TickPass) :=
  match e_vehicle (entity_of p id) with
  | None => Some (false, p)
  | Some vehicle =>
      if negb (entity_removed (entity_of p vehicle)) && bool_decide (id ∈ e_passengers (entity_of p vehicle)) then
        _ ← assert_acyclic_vehicle_chain fuel (w_entities (tp_world p)) id; Some (true, p)
      else Some (false, perform StopRiding id p)
  end.

Definition tick_candidate (runs_normally : bool) (id : Z) (p : TickPass) : option TickPass :=
  can ← can_tick_entity_now fuel (w_entities (tp_world p)) (w_manager (tp_world p)) id;
  if negb can then Some p
  else if entity_removed (entity_of p id) then Some p
  else if is_entity_frozen_by_tick_rate (w_entities (tp_world p)) id runs_normally then Some p
  else
    let entity_chunk := live_manager_owned_entity_chunk (w_manager (tp_world p)) id in
    let p := perform CheckDespawn id p in
    if entity_removed (entity_of p id) then Some (add_dirty entity_chunk p)
    else
      '(riding, p) ← is_valid_passenger_or_stop_riding id p;
      if (riding : bool) then Some p
      else if decide (id ∈ tp_ticked p) then Some p
      else tick_non_passenger id (mark_ticked (RootTick id) p).

Definition tick_entities (w : World) (runs_normally : bool) : option TickPass :=
  for_each (tick_list_snapshot (tick_list (w_manager w))) (tick_candidate runs_normally) (mkPass w ∅ ∅ []).
End Pass.

(** ** What a pass does *)

(** Vehicles rank above their passengers. *)
Definition links_ok (rank : Z -> nat) (bound : nat) v : Prop :=
  (forall id, (rank id <= bound)%nat) /\ (forall id vehicle, e_vehicle (v id) = Some vehicle -> (rank id < rank vehicle)%nat) /\
  (forall id passenger, passenger ∈ e_passengers (v id) -> (rank passenger < rank id)%nat).

(** An entity that may tick. *)
Definition may_tick (fuel : nat) (w : World) (id : Z) : Prop :=
  can_tick_entity_now fuel (w_entities w) (w_manager w) id = Some true /\ entity_removed (w_entities w id) = false.

Definition rides (w : World) (id vehicle : Z) : Prop := e_vehicle (w_entities w id) = Some vehicle /\ id ∈ e_passengers (w_entities w vehicle).

(** Roots come from the tick list and passengers after their vehicle. *)
Definition log_ordered (roots : list Z) (log : list TickEvent) : Prop :=
  forall pre e post, log = pre ++ e :: post ->
    match e with RootTick id => id ∈ roots | PassengerTick _ vehicle => vehicle ∈ (event_id <$> pre) end.

Record log_ok (roots : list Z) (p : TickPass) : Prop := {
  lg_ticked : forall id, id ∈ tp_ticked p <-> id ∈ (event_id <$> tp_log p);
  lg_NoDup : NoDup (event_id <$> tp_log p);
  lg_ordered : log_ordered roots (tp_log p);
}.

Section Pass_spec.
Context (act : EntityAction -> Z -> World -> World) (rank : Z -> nat) (bound : nat) (I : World -> Prop) (roots : list Z).
Hypothesis I_links : forall w, I w -> links_ok rank bound (w_entities w).
Hypothesis I_act : forall a id w, I w -> I (act a id w).
Let fuel := S bound.

Lemma chain_fuel v visited current n : links_ok rank bound v -> (forall x, x ∈ visited -> (rank x < rank current)%nat) -> (bound - rank current < S n)%nat ->
  (current ∉ visited) /\ forall next, e_vehicle (v current) = Some next ->
    (forall x, x ∈ ({[current]} ∪ visited : gset Z) -> (rank x < rank next)%nat) /\ (bound - rank next < n)%nat.
Proof.
  intros (Hb & Hv & _) Hvis Hn. split; [intros Hin; apply Hvis in Hin; lia|]. intros next Hnext. pose proof (Hv _ _ Hnext). pose proof (Hb next). split; [|lia].
  intros x [->%elem_of_singleton|Hx]%elem_of_union; [done|]. apply Hvis in Hx. lia.
Qed.

Lemma pending_in_chain_total v : links_ok rank bound v -> forall n visited vehicle,
  (forall c, vehicle = Some c -> (forall x, x ∈ visited -> (rank x < rank c)%nat) /\ (bound - rank c < n)%nat) -> is_Some (pending_in_chain n v visited vehicle).
Proof.
  intros Hl n. induction n as [|n IH]; intros visited [c|] Hc; cbn [pending_in_chain]; try (by eexists); destruct (Hc c eq_refl) as [Hv Hn]; [lia|].
  destruct (chain_fuel v visited c n Hl Hv Hn) as [Hno Hnext]. rewrite decide_False by done. destruct (e_world_change_pending _); [by eexists|]. by apply IH.
Qed.

Lemma acyclic_chain_total v : links_ok rank bound v -> forall n visited vehicle,
  (forall c, vehicle = Some c -> (forall x, x ∈ visited -> (rank x < rank c)%nat) /\ (bound - rank c < n)%nat) -> is_Some (acyclic_chain n v visited vehicle).
Proof.
  intros Hl n. induction n as [|n IH]; intros visited [c|] Hc; cbn [acyclic_chain]; try (by eexists); destruct (Hc c eq_refl) as [Hv Hn]; [lia|].
  destruct (chain_fuel v visited c n Hl Hv Hn) as [Hno Hnext]. rewrite decide_False by done. by apply IH.
Qed.

Lemma first_link v id : links_ok rank bound v -> forall c, e_vehicle (v id) = Some c ->
  (forall x, x ∈ ({[id]} : gset Z) -> (rank x < rank c)%nat) /\ (bound - rank c < fuel)%nat.
Proof. intros (Hb & Hv & _) c Hc. split; [|unfold fuel; lia]. intros x ->%elem_of_singleton. by apply Hv. Qed.

Lemma can_tick_total v s id : links_ok rank bound v -> is_Some (can_tick_entity_now fuel v s id).
Proof.
  intros Hl. unfold can_tick_entity_now. destruct (live_by_id s !! id) as [e|]; [|by eexists]. unfold has_pending_world_change_in_vehicle_chain.
  destruct (e_world_change_pending _); [by eexists|]. destruct (pending_in_chain_total v Hl fuel {[id]} (e_vehicle (v id)) (first_link v id Hl)) as [b ->]. by eexists.
Qed.

(** The state between two entities: the passengers of those that ticked had their turn,
    except for the vehicles in progress. *)
Definition steady (id vehicle : Z) : Prop := forall w, I w -> rides w id vehicle /\ may_tick fuel w id.

Record pass_ok (busy : gset Z) (p : TickPass) : Prop := {
  po_world : I (tp_world p);
  po_log : log_ok roots p;
  po_closed : forall id vehicle, vehicle ∈ tp_ticked p -> (vehicle ∉ busy) -> steady id vehicle -> id ∈ tp_ticked p;
}.

Lemma perform_ok busy a id p : pass_ok busy p -> pass_ok busy (perform act a id p).
Proof. intros [P1 [L1 L2 L3] P3]. split; [by apply I_act|by split|done]. Qed.

Lemma add_dirty_ok busy chunk p : pass_ok busy p -> pass_ok busy (add_dirty chunk p).
Proof. intros [P1 [L1 L2 L3] P3]. split; [done|by split|done]. Qed.

Lemma mark_ticked_ok busy e p : pass_ok busy p -> (event_id e ∉ tp_ticked p) ->
  (match e with RootTick id => id ∈ roots | PassengerTick _ vehicle => vehicle ∈ tp_ticked p end) ->
  pass_ok ({[event_id e]} ∪ busy) (mark_ticked e p).
Proof.
  intros [P1 [L1 L2 L3] P3] Hnew Hev. split; [done|split|]; cbn.
  - intros id. rewrite fmap_app, list_fmap_singleton, elem_of_app, elem_of_union, elem_of_singleton, L1, list_elem_of_singleton. tauto.
  - rewrite fmap_app, list_fmap_singleton. apply NoDup_app. split; [done|]. split; [|apply NoDup_singleton]. intros x Hx ->%list_elem_of_singleton. by apply L1 in Hx.
  - intros pre e' post E. destruct post as [|y post _] using rev_ind.
    + apply app_inj_tail in E as [<- <-]. destruct e; [done|]. by apply L1.
    + rewrite app_comm_cons, app_assoc in E. apply app_inj_tail in E as [E _]. by apply (L3 pre e' post).
  - intros id vehicle Hv Hb Hst. apply elem_of_union. right. apply (P3 id vehicle); [set_solver|set_solver|done].
Qed.

Lemma close_vehicle_ok busy vehicle p : pass_ok ({[vehicle]} ∪ busy) p -> (forall id, steady id vehicle -> id ∈ tp_ticked p) -> pass_ok busy p.
Proof.
  intros [P1 P2 P3] Hc. split; [done|done|]. intros id veh Hv Hb Hst. destruct (decide (veh = vehicle)) as [->|Hne]; [by apply Hc|].
  apply (P3 id veh); [done| |done]. set_solver.
Qed.

(** The entity's own part of a tick. *)
Definition own_tick (a : EntityAction) (id : Z) (p : TickPass) : TickPass :=
  mark_dirty_after_tick id (perform act a id (perform act AdvanceTickCount id (perform act SnapshotOldPosAndRot id p))).

Lemma own_tick_ok busy a id p : pass_ok busy p -> pass_ok busy (own_tick a id p) /\ tp_ticked (own_tick a id p) = tp_ticked p.
Proof. intros Hp. split; [|done]. by apply add_dirty_ok, perform_ok, perform_ok, perform_ok. Qed.

Definition passenger_spec (depth : nat) : Prop := forall visited vehicle id p, pass_ok visited p -> vehicle ∈ tp_ticked p ->
  (forall x, x ∈ visited -> (rank id < rank x)%nat) -> (rank id < depth)%nat ->
  exists p', tick_passenger act fuel depth visited vehicle id p = Some p' /\ pass_ok visited p' /\ tp_ticked p ⊆ tp_ticked p' /\
    (steady id vehicle -> id ∈ tp_ticked p').

Lemma passengers_ok depth visited vehicle l p : passenger_spec depth -> pass_ok visited p -> vehicle ∈ tp_ticked p ->
  (forall x, x ∈ l -> (rank x < depth)%nat /\ forall y, y ∈ visited -> (rank x < rank y)%nat) ->
  exists p', for_each l (tick_passenger act fuel depth visited vehicle) p = Some p' /\ pass_ok visited p' /\ tp_ticked p ⊆ tp_ticked p' /\
    forall x, x ∈ l -> steady x vehicle -> x ∈ tp_ticked p'.
Proof.
  intros Hspec Hp Hv Hl. destruct (for_each_ind (fun pre p' => pass_ok visited p' /\ tp_ticked p ⊆ tp_ticked p' /\
    forall x, x ∈ pre -> steady x vehicle -> x ∈ tp_ticked p') l (tick_passenger act fuel depth visited vehicle) p) as (p' & E & H).
  - split; [done|]. split; [done|]. by intros x ?%elem_of_nil.
  - intros pre x todo p1 -> (H1 & H2 & H3). destruct (Hl x) as [Hd Hr]; [apply elem_of_app; right; by left|].
    destruct (Hspec visited vehicle x p1 H1) as (p2 & E2 & H4 & H5 & H6); [set_solver|done|done|]. exists p2. split; [done|]. split; [done|].
    split; [by etrans|]. intros y [Hy| ->%list_elem_of_singleton]%elem_of_app Hst; [|auto]. apply H5. auto.
  - by exists p'.
Qed.

(** A vehicle that was just marked ticks and its passengers follow. *)
Lemma vehicle_done_ok depth busy id p : passenger_spec depth -> pass_ok ({[id]} ∪ busy) p -> id ∈ tp_ticked p -> (rank id <= depth)%nat ->
  (forall x, x ∈ busy -> (rank id < rank x)%nat) ->
  exists p', for_each (e_passengers (entity_of p id)) (tick_passenger act fuel depth ({[id]} ∪ busy) id) p = Some p' /\ pass_ok busy p' /\ tp_ticked p ⊆ tp_ticked p'.
Proof.
  intros Hspec Hp Hid Hd Hb. destruct (I_links _ (po_world _ _ Hp)) as (_ & _ & Hpas).
  destruct (passengers_ok depth ({[id]} ∪ busy) id (e_passengers (entity_of p id)) p Hspec Hp Hid) as (p' & E & Hp' & Hsub & Hall).
  - intros x Hx. apply Hpas in Hx. split; [lia|]. intros y [->%elem_of_singleton|Hy]%elem_of_union; [done|]. apply Hb in Hy. lia.
  - exists p'. split; [done|]. split; [|done]. apply (close_vehicle_ok _ id); [done|]. intros c Hst. apply Hall; [|done].
    by destruct (Hst (tp_world p) (po_world _ _ Hp)) as [[_ Hin] _].
Qed.

Lemma tick_passenger_ok depth : passenger_spec depth.
Proof.
  induction depth as [|depth IH]; intros visited vehicle id p Hp Hv Hr Hd; [lia|]. cbn [tick_passenger].
  rewrite decide_False by (intros Hin; apply Hr in Hin; lia).
  destruct (entity_removed (entity_of p id) || _) eqn:Eskip.
  { exists (perform act StopRiding id p). split; [done|]. split; [by apply perform_ok|]. split; [done|]. intros Hst.
    destruct (Hst _ (po_world _ _ Hp)) as [[Hveh _] [_ Hrem]]. unfold entity_of in Eskip. rewrite Hrem, Hveh, bool_decide_true in Eskip; done. }
  destruct (can_tick_total (w_entities (tp_world p)) (w_manager (tp_world p)) id (I_links _ (po_world _ _ Hp))) as [can Ecan]. rewrite Ecan. cbn [mbind option_bind].
  destruct (can && _) eqn:Etick.
  - apply andb_true_iff in Etick as [_ Hnew%negb_true_iff%bool_decide_eq_false].
    destruct (own_tick_ok ({[id]} ∪ visited) RideTick id (mark_ticked (PassengerTick id vehicle) p)) as [Hm Et];
      [by apply (mark_ticked_ok visited (PassengerTick id vehicle) p)|].
    destruct (vehicle_done_ok depth visited id (own_tick RideTick id (mark_ticked (PassengerTick id vehicle) p)) IH Hm) as (p' & E & Hp' & Hsub).
    { rewrite Et. cbn. set_solver. } { lia. } { done. }
    rewrite Et in Hsub.
    exists p'. split; [done|]. split; [done|]. cbn in Hsub. split; [set_solver|]. intros _. set_solver.
  - exists p. split; [done|]. split; [done|]. split; [done|]. intros Hst. destruct (Hst _ (po_world _ _ Hp)) as [_ [Hcan _]].
    rewrite Ecan in Hcan. injection Hcan as ->. cbn in Etick. apply negb_false_iff, bool_decide_eq_true in Etick. done.
Qed.

(** An entity that may tick, on its own, whatever happens meanwhile. *)
Definition steady_root (runs_normally : bool) (id : Z) : Prop := forall w, I w ->
  may_tick fuel w id /\ e_vehicle (w_entities w id) = None /\ is_entity_frozen_by_tick_rate (w_entities w) id runs_normally = false.

Lemma riding_ok id p : pass_ok ∅ p -> exists riding p', is_valid_passenger_or_stop_riding act fuel id p = Some (riding, p') /\ pass_ok ∅ p' /\
  tp_ticked p' = tp_ticked p /\ (e_vehicle (entity_of p id) = None -> riding = false).
Proof.
  intros Hp. unfold is_valid_passenger_or_stop_riding. destruct (e_vehicle (entity_of p id)) as [veh|] eqn:Ev; [|by exists false, p].
  destruct (_ && _).
  - pose proof (I_links _ (po_world _ _ Hp)) as Hl.
    destruct (acyclic_chain_total (w_entities (tp_world p)) Hl fuel {[id]} (e_vehicle (w_entities (tp_world p) id)) (first_link _ id Hl)) as [[] E].
    unfold assert_acyclic_vehicle_chain. rewrite E. by exists true, p.
  - exists false, (perform act StopRiding id p). split; [done|]. split; [by apply perform_ok|done].
Qed.

Lemma tick_candidate_ok runs id p : pass_ok ∅ p -> id ∈ roots ->
  exists p', tick_candidate act fuel runs id p = Some p' /\ pass_ok ∅ p' /\ tp_ticked p ⊆ tp_ticked p' /\ (steady_root runs id -> id ∈ tp_ticked p').
Proof.
  intros Hp Hroot. unfold tick_candidate. pose proof (po_world _ _ Hp) as Hw.
  destruct (can_tick_total (w_entities (tp_world p)) (w_manager (tp_world p)) id (I_links _ Hw)) as [can Ecan]. rewrite Ecan. cbn [mbind option_bind].
  destruct can; cbn [negb]; [|exists p; split; [done|]; split; [done|]; split; [done|]; intros Hst; destruct (Hst _ Hw) as ([Hc _] & _); congruence].
  destruct (entity_removed (entity_of p id)) eqn:Er.
  { exists p. split; [done|]. split; [done|]. split; [done|]. intros Hst. destruct (Hst _ Hw) as ([_ Hc] & _). unfold entity_of in Er. congruence. }
  destruct (is_entity_frozen_by_tick_rate _ _ _) eqn:Ef.
  { exists p. split; [done|]. split; [done|]. split; [done|]. intros Hst. destruct (Hst _ Hw) as (_ & _ & Hc). congruence. }
  pose proof (perform_ok ∅ CheckDespawn id p Hp) as Hp1. set (p1 := perform act CheckDespawn id p) in *. destruct (entity_removed (entity_of p1 id)) eqn:Er1.
  { eexists. split; [done|]. split; [by apply add_dirty_ok|]. split; [done|]. intros Hst. destruct (Hst _ (po_world _ _ Hp1)) as ([_ Hc] & _).
    unfold entity_of in Er1. congruence. }
  destruct (riding_ok id p1 Hp1) as (riding & p2 & -> & Hp2 & Et & Hride). cbn [mbind option_bind].
  assert (tp_ticked p2 = tp_ticked p) as Et2 by done. destruct riding.
  { exists p2. split; [done|]. split; [done|]. split; [by rewrite Et2|]. intros Hst. destruct (Hst _ (po_world _ _ Hp1)) as (_ & Hc & _). by apply Hride in Hc. }
  case_decide as Hin; [exists p2; split; [done|]; split; [done|]; split; [by rewrite Et2|done]|].
  destruct (own_tick_ok ({[id]} ∪ ∅) Tick id (mark_ticked (RootTick id) p2)) as [Hm Et3]; [by apply (mark_ticked_ok ∅ (RootTick id) p2)|].
  destruct (vehicle_done_ok fuel ∅ id _ (tick_passenger_ok fuel) Hm) as (p' & E & Hp' & Hsub); [rewrite Et3; cbn; set_solver|..].
  - destruct (I_links _ Hw) as (Hb & _). pose proof (Hb id). unfold fuel. lia.
  - by intros x ?%elem_of_empty.
  - exists p'. split; [rewrite <- E, (right_id_L ∅ _); done|]. split; [done|]. rewrite Et3 in Hsub. cbn in Hsub. rewrite <- Et2. split; [set_solver|]. intros _. set_solver.
Qed.
End Pass_spec.

(** C14. A pass over the tick list returns, whatever the entities do, as long as vehicles stand
    above their passengers in one fixed order throughout.  Each entity ticks at most once; a
    root is in the tick list at the start, a passenger ticks after the vehicle it rides.  An
    entity of the tick list that throughout may tick and does not ride ticks, and so does a
    passenger that throughout may tick and rides a vehicle that ticks.  A passenger of a
    vehicle that does not tick waits. *)
Theorem entities_tick_once act rank bound (I : World -> Prop) w runs :
  (forall w, I w -> links_ok rank bound (w_entities w)) -> (forall a id w, I w -> I (act a id w)) -> I w ->
  let roots := tick_list_snapshot (tick_list (w_manager w)) in
  exists p, tick_entities act (S bound) w runs = Some p /\
    NoDup (event_id <$> tp_log p) /\ log_ordered roots (tp_log p) /\
    (forall id, id ∈ roots -> steady_root bound I runs id -> id ∈ (event_id <$> tp_log p)) /\
    (forall id vehicle, vehicle ∈ (event_id <$> tp_log p) -> steady bound I id vehicle -> id ∈ (event_id <$> tp_log p)).
Proof.
  intros Hl Ha Hw roots. unfold tick_entities. fold roots.
  destruct (for_each_ind (fun pre p => pass_ok bound I roots ∅ p /\ forall id, id ∈ pre -> steady_root bound I runs id -> id ∈ tp_ticked p)
    roots (tick_candidate act (S bound) runs) (mkPass w ∅ ∅ [])) as (p & E & [P1 [L1 L2 L3] P3] & Hall).
  - split; [|by intros id ?%elem_of_nil]. split; [done| |by intros id veh ?%elem_of_empty]. split; cbn; [set_solver|constructor|].
    intros pre e post H. by destruct pre.
  - intros pre id todo p Hpre [Hp Hin]. assert (id ∈ roots) as Hid by (rewrite Hpre; apply elem_of_app; right; by left).
    destruct (tick_candidate_ok act rank bound I roots Hl Ha runs id p Hp Hid) as (p' & E & Hp' & Hsub & Hst). exists p'. split; [done|]. split; [done|].
    intros x [Hx| ->%list_elem_of_singleton]%elem_of_app Hs; [|auto]. apply Hsub. auto.
  - exists p. split; [done|]. split; [done|]. split; [done|]. split.
    + intros id Hid Hs. apply L1. auto.
    + intros id veh Hv Hs. apply L1 in Hv. apply L1. apply (P3 id veh); [done|set_solver|done].
Qed.

(** The small world, in which every tick moves the entity up by a block. *)
Definition move_up (e : Entity) : Entity :=
  mkEntity (e_uuid e) (mkVec3 (v_x (e_position e)) (v_y (e_position e) + F64_UNIT) (v_z (e_position e))) (e_bounding_box e) (e_removal_reason e) (e_vehicle e)
    (e_passengers e) (e_player_passengers e) (e_always_ticking e) (e_can_serialize e) (e_is_player e) (e_world_change_pending e).
Definition example_act (a : EntityAction) (id : Z) (w : World) : World :=
  match a with
  | Tick | RideTick => mkWorld (fun x => if x =? id then move_up (w_entities w x) else w_entities w x) (w_manager w)
  | _ => w
  end.
Definition example_world_inv (w : World) : Prop :=
  w_manager w = state_4 /\ forall id, e_vehicle (w_entities w id) = e_vehicle (example_entities id) /\ e_passengers (w_entities w id) = e_passengers (example_entities id).
Definition example_rank (id : Z) : nat := if id =? 1 then 1%nat else 0%nat.

Lemma example_act_inv a id w : example_world_inv w -> example_world_inv (example_act a id w).
Proof. intros [Hm Hl]. destruct a; (split; [done|]); intros x; cbn; destruct (x =? id); apply Hl. Qed.

Lemma example_links w : example_world_inv w -> links_ok example_rank 1 (w_entities w).
Proof.
  intros [_ Hl]. unfold links_ok, example_rank. split; [intros id; by destruct (id =? 1); simpl; lia|]. split; intros id x.
  - rewrite (proj1 (Hl id)). unfold example_entities. destruct (Z.eqb_spec id 1); [done|]. destruct (Z.eqb_spec id 2); [|by destruct (id =? 9)].
    intros [= <-]. simpl. lia.
  - rewrite (proj2 (Hl id)). unfold example_entities. destruct (Z.eqb_spec id 1) as [->|]; [intros ->%list_elem_of_singleton; simpl; lia|].
    destruct (id =? 2); [by intros ?%elem_of_nil|]. by destruct (id =? 9); intros ?%elem_of_nil.
Qed.

Lemma entities_tick_once_witness : exists p, tick_entities example_act 2 (mkWorld example_entities state_4) true = Some p /\
  NoDup (event_id <$> tp_log p) /\ log_ordered [1; 2; 9] (tp_log p).
Proof.
  destruct (entities_tick_once example_act example_rank 1 example_world_inv (mkWorld example_entities state_4) true) as (p & E & H1 & H2 & _).
  - exact example_links.
  - exact example_act_inv.
  - split; [done|]. intros id. done.
  - exists p. split; [exact E|]. split; [done|]. exact H2.
Defined.

Lemma example_tick_log : tp_log <$> tick_entities example_act 2 (mkWorld example_entities state_4) true = Some [RootTick 1; PassengerTick 2 1; RootTick 9].
Proof. by vm_compute. Qed.
