(* ===== verification/Texts.v ===== *)
(** * Text

    Strings of the source as lists of Unicode scalar values, with the operations of [str]
    that the permission code uses.  [str]'s order is that of the UTF-8 bytes, which is the
    order of the scalar values. *)

From Stdlib Require Import Ascii String.
From S2P Require Import Prelude.

#[local] Open Scope list_scope.

Definition text : Type := list Z.
Implicit Types s t : text.

(** A literal of the source. *)
Definition lit (x : string) : text := (fun a => Z.of_N (N_of_ascii a)) <$> list_ascii_of_string x.

Definition DOT : Z := 46.
Definition STAR : Z := 42.
Definition COLON : Z := 58.
Definition SLASH : Z := 47.
Definition COMMA : Z := 44.
Definition EQUALS : Z := 61.
Definition OPEN_BRACE : Z := 123.
Definition CLOSE_BRACE : Z := 125.

Definition is_ascii_lowercase (c : Z) : bool := (97 <=? c) && (c <=? 122).
Definition is_ascii_digit (c : Z) : bool := (48 <=? c) && (c <=? 57).

(** The characters with the Unicode property [White_Space]. *)
Definition is_whitespace (c : Z) : bool :=
  ((9 <=? c) && (c <=? 13)) || (c =? 32) || (c =? 133) || (c =? 160) || (c =? 5760) || ((8192 <=? c) && (c <=? 8202)) ||
  (c =? 8232) || (c =? 8233) || (c =? 8239) || (c =? 8287) || (c =? 12288).

Definition contains_char (c : Z) s : bool := bool_decide (c ∈ s).

(** [s.split(p)]: there is always at least one piece. *)
Fixpoint split_by (p : Z -> bool) s : list text :=
  match s with
  | [] => [[]]
  | c :: s => if p c then [] :: split_by p s
              else match split_by p s with [] => [[c]] | piece :: pieces => (c :: piece) :: pieces end
  end.
Definition split_on (c : Z) s : list text := split_by (Z.eqb c) s.

(** [s.split_once(c)]. *)
Fixpoint split_once (c : Z) s : option (text * text) :=
  match s with
  | [] => None
  | x :: s => if c =? x then Some ([], s) else '(a, b) ← split_once c s; Some (x :: a, b)
  end.

Fixpoint strip_prefix (prefix s : text) : option text :=
  match prefix, s with
  | [], _ => Some s
  | x :: prefix, y :: s => if x =? y then strip_prefix prefix s else None
  | _ :: _, [] => None
  end.

Definition strip_suffix (suffix s : text) : option text :=
  reverse <$> strip_prefix (reverse suffix) (reverse s).

Definition starts_with_char (c : Z) s : bool := match s with x :: _ => c =? x | [] => false end.

(** [pieces.join(c)]. *)
Fixpoint join (c : Z) (pieces : list text) : text :=
  match pieces with
  | [] => []
  | [piece] => piece
  | piece :: pieces => piece ++ c :: join c pieces
  end.

(** The order of [str]. *)
Fixpoint text_compare s t : comparison :=
  match s, t with
  | [], [] => Eq
  | [], _ => Lt
  | _, [] => Gt
  | x :: s, y :: t => match x ?= y with Eq => text_compare s t | c => c end
  end.

(** ** Lemmas *)

Lemma split_by_cons p s : exists piece pieces, split_by p s = piece :: pieces.
Proof. destruct s as [|c s]; simpl; [eauto|]. destruct (p c); [eauto|]. destruct (split_by p s); eauto. Qed.

Lemma split_by_plain p s : Forall (fun c => p c = false) s -> split_by p s = [s].
Proof. induction 1 as [|c s Hc _ IH]; simpl; [done|]. by rewrite Hc, IH. Qed.

Lemma split_by_app p s c t : Forall (fun c => p c = false) s -> p c = true -> split_by p (s ++ c :: t) = s :: split_by p t.
Proof. induction 1 as [|x s Hx _ IH]; simpl; intros Hc; [by rewrite Hc|]. by rewrite Hx, IH. Qed.

(** Pieces without the separator, joined and split again. *)
Lemma split_join c pieces : pieces <> [] -> Forall (fun s => c ∉ s) pieces -> split_on c (join c pieces) = pieces.
Proof.
  intros Hne H. induction H as [|piece pieces Hc H IH]; [done|]. assert (Forall (fun x => (c =? x) = false) piece) as Hp.
  { apply Forall_forall. intros x Hx. apply Z.eqb_neq. by intros ->. }
  destruct pieces as [|piece' pieces]; simpl; [by apply split_by_plain|]. unfold split_on in *. rewrite split_by_app; [|done|apply Z.eqb_refl].
  f_equal. by apply IH.
Qed.

Lemma join_split c s : join c (split_on c s) = s.
Proof.
  unfold split_on. induction s as [|x s IH]; [done|]. simpl. destruct (split_by_cons (Z.eqb c) s) as (piece & pieces & E). rewrite E in *.
  destruct (Z.eqb_spec c x) as [->|Hne]; simpl in *; [by rewrite IH|]. destruct pieces; simpl in *; by rewrite IH.
Qed.

Lemma split_pieces c s : Forall (fun t => c ∉ t) (split_on c s).
Proof.
  unfold split_on. induction s as [|x s IH]; simpl; [repeat constructor; by apply not_elem_of_nil|].
  destruct (split_by_cons (Z.eqb c) s) as (piece & pieces & E). rewrite E in *. destruct (Z.eqb_spec c x) as [->|Hne].
  - constructor; [by apply not_elem_of_nil|done].
  - inversion IH; subst. constructor; [|done]. by rewrite not_elem_of_cons.
Qed.

Lemma split_ne c s : split_on c s <> [].
Proof. destruct (split_by_cons (Z.eqb c) s) as (piece & pieces & E). unfold split_on. by rewrite E. Qed.

(** The characters of the pieces are those of the text. *)
Lemma elem_of_split c s t x : t ∈ split_on c s -> x ∈ t -> x ∈ s.
Proof.
  unfold split_on. revert t. induction s as [|y s IH]; intros t; simpl; [intros ->%list_elem_of_singleton; done|].
  destruct (split_by_cons (Z.eqb c) s) as (piece & pieces & E). rewrite E in *. destruct (c =? y).
  - intros [->|Ht]%elem_of_cons Hx; [by apply elem_of_nil in Hx|]. right. by eapply IH.
  - intros [->|Ht]%elem_of_cons Hx; [apply elem_of_cons in Hx as [->|Hx]; [by left|]; right; apply (IH piece); [by left|done]|].
    right. apply (IH t); [by right|done].
Qed.

Lemma split_once_spec c s a b : split_once c s = Some (a, b) <-> s = a ++ c :: b /\ (c ∉ a).
Proof.
  revert a. induction s as [|x s IH]; intros a; simpl.
  - split; [done|]. intros [H _]. by destruct a.
  - destruct (Z.eqb_spec c x) as [->|Hne].
    + split; [intros [= <- <-]; split; [done|apply not_elem_of_nil]|]. intros [E Hc]. destruct a as [|y a]; simplify_eq/=; [done|].
      exfalso. apply Hc. by left.
    + destruct (split_once c s) as [[a' b']|] eqn:E; simpl.
      * split; [intros [= <- <-]|].
        -- destruct (IH a') as [H _]. destruct (H eq_refl) as [-> Hc]. split; [done|]. rewrite not_elem_of_cons. done.
        -- intros [E' Hc]. destruct a as [|y a]; simplify_eq/=. apply not_elem_of_cons in Hc as [_ Hc].
           destruct (IH a) as [_ H]. specialize (H (conj eq_refl Hc)). by simplify_eq.
      * split; [done|]. intros [E' Hc]. destruct a as [|y a]; simplify_eq/=. apply not_elem_of_cons in Hc as [_ Hc].
        destruct (IH a) as [_ H]. by specialize (H (conj eq_refl Hc)).
Qed.

Lemma split_once_None c s : split_once c s = None <-> (c ∉ s).
Proof.
  induction s as [|x s IH]; simpl; [split; [intros _; apply not_elem_of_nil|done]|]. rewrite not_elem_of_cons.
  destruct (Z.eqb_spec c x) as [->|Hne]; [split; [done|tauto]|]. destruct (split_once c s) as [[a b]|]; simpl; rewrite <- ?IH; naive_solver.
Qed.

Lemma strip_prefix_spec prefix s t : strip_prefix prefix s = Some t <-> s = prefix ++ t.
Proof.
  revert s. induction prefix as [|x prefix IH]; intros s; simpl; [split; [by intros [= ->]|by intros ->]|]. destruct s as [|y s]; [done|].
  destruct (Z.eqb_spec x y) as [->|Hne]; [|split; [done|by intros [= -> ->]]]. rewrite IH. split; [by intros ->|by intros [= ->]].
Qed.

Lemma strip_suffix_spec suffix s t : strip_suffix suffix s = Some t <-> s = t ++ suffix.
Proof.
  unfold strip_suffix. destruct (strip_prefix (reverse suffix) (reverse s)) as [r|] eqn:E; simpl.
  - apply strip_prefix_spec in E. apply (f_equal reverse) in E. rewrite reverse_involutive, reverse_app, reverse_involutive in E. subst s.
    split; [by intros [= <-]|]. intros H. apply app_inv_tail in H. by rewrite H.
  - split; [done|]. intros ->. exfalso. rewrite reverse_app in E.
    assert (strip_prefix (reverse suffix) (reverse suffix ++ reverse t) = Some (reverse t)) as E' by (by apply strip_prefix_spec). congruence.
Qed.

(** ** The order *)

Lemma text_compare_eq s t : text_compare s t = Eq <-> s = t.
Proof.
  revert t. induction s as [|x s IH]; intros [|y t]; simpl; try done. destruct (Z.compare_spec x y) as [->|Hlt|Hgt].
  - rewrite IH. split; [by intros ->|by intros [= ->]].
  - split; [done|]. intros [= -> _]. lia.
  - split; [done|]. intros [= -> _]. lia.
Qed.

Lemma text_compare_antisym s t : text_compare t s = CompOpp (text_compare s t).
Proof.
  revert t. induction s as [|x s IH]; intros [|y t]; simpl; try done. rewrite Z.compare_antisym. destruct (x ?= y); simpl; [apply IH|done|done].
Qed.

Lemma text_compare_trans s t u : text_compare s t = Lt -> text_compare t u = Lt -> text_compare s u = Lt.
Proof.
  revert t u. induction s as [|x s IH]; intros [|y t] [|z u]; simpl; try done.
  destruct (Z.compare_spec x y), (Z.compare_spec y z), (Z.compare_spec x z); try lia; try done. apply IH.
Qed.

Definition text_le s t : Prop := text_compare s t <> Gt.
#[global] Instance text_le_dec s t : Decision (text_le s t).
Proof. unfold text_le. apply _. Defined.
#[global] Instance text_le_refl : Reflexive text_le.
Proof. intros s. unfold text_le. by rewrite (proj2 (text_compare_eq s s)). Qed.
#[global] Instance text_le_trans : Transitive text_le.
Proof.
  intros s t u. unfold text_le. destruct (text_compare s t) eqn:E1; [apply text_compare_eq in E1 as ->; done| |done].
  intros _. destruct (text_compare t u) eqn:E2; [apply text_compare_eq in E2 as ->; congruence| |done]. intros _. by rewrite (text_compare_trans _ _ _ E1 E2).
Qed.
#[global] Instance text_le_total : Total text_le.
Proof. intros s t. unfold text_le. rewrite (text_compare_antisym s t). destruct (text_compare s t); simpl; auto. Qed.
Lemma text_le_antisym s t : text_le s t -> text_le t s -> s = t.
Proof. unfold text_le. rewrite (text_compare_antisym s t). intros H1 H2. apply text_compare_eq. by destruct (text_compare s t). Qed.

(** The entries of a [BTreeMap] in the order of their keys. *)
Definition btree_entries {K A} `{Countable K} (le : relation K) `{forall x y, Decision (le x y)} (m : gmap K A) : list (K * A) :=
  merge_sort (fun a b => le a.1 b.1) (map_to_list m).

Lemma btree_entries_perm {K A} `{Countable K} (le : relation K) `{forall x y, Decision (le x y)} (m : gmap K A) : btree_entries le m ≡ₚ map_to_list m.
Proof. apply merge_sort_Permutation. Qed.

Lemma elem_of_btree {K A} `{Countable K} (le : relation K) `{forall x y, Decision (le x y)} (m : gmap K A) k a : (k, a) ∈ btree_entries le m <-> m !! k = Some a.
Proof. by rewrite btree_entries_perm, elem_of_map_to_list. Qed.

Lemma btree_keys_NoDup {K A} `{Countable K} (le : relation K) `{forall x y, Decision (le x y)} (m : gmap K A) : NoDup (btree_entries le m).*1.
Proof. rewrite btree_entries_perm. apply NoDup_fst_map_to_list. Qed.
