(* ===== verification/Permissions.v ===== *)
(** * Permission rules

    Models [steel-core/src/permission]: keys ([key.rs]), the contexts of rules and of a
    request ([context.rs]), sets of rules with their resolution ([set.rs]) and expressions
    ([expression.rs]). *)

From Stdlib Require Import String.
From S2P Require Import Prelude Texts.

#[local] Open Scope list_scope.
#[local] Open Scope steel_scope.

(** ** Keys *)

Inductive PermissionKeyError := KeyEmpty | EmptySegment | WildcardNotFinal | InvalidWildcardSegment | InvalidSegment.

Definition PermissionKey : Type := text.
Definition PermissionSegment : Type := text.

Definition segment_char (c : Z) : bool := is_ascii_lowercase c || is_ascii_digit c || (c =? 95) || (c =? 45).

Definition validate_permission_segment (segment : text) : result unit PermissionKeyError :=
  if forallb segment_char segment then Ok tt else Err InvalidSegment.

(** The loop over the segments; [rest] tells whether more follow. *)
Fixpoint validate_segments (segments : list text) : result unit PermissionKeyError :=
  match segments with
  | [] => Ok tt
  | segment :: rest =>
      if decide (segment = []) then Err EmptySegment
      else if decide (segment = [STAR]) then if decide (rest = []) then Ok tt else Err WildcardNotFinal
      else if contains_char STAR segment then Err InvalidWildcardSegment
      else let? _ := validate_permission_segment segment in validate_segments rest
  end.

Definition PermissionKey_parse (value : text) : result PermissionKey PermissionKeyError :=
  if decide (value = []) then Err KeyEmpty else let? _ := validate_segments (split_on DOT value) in Ok value.

Definition PermissionSegment_parse (value : text) : result PermissionSegment PermissionKeyError :=
  if decide (value = []) then Err EmptySegment
  else if contains_char STAR value then Err InvalidWildcardSegment
  else let? _ := validate_permission_segment value in Ok value.

Definition from_segments (segments : list PermissionSegment) : result PermissionKey PermissionKeyError :=
  let value := foldl (fun value segment => (if decide (value = []) then value else value ++ [DOT]) ++ segment) [] segments in
  if decide (value = []) then Err KeyEmpty else Ok value.

Definition key_child (key : PermissionKey) (segment : PermissionSegment) : result PermissionKey PermissionKeyError :=
  PermissionKey_parse (key ++ DOT :: segment).

Definition key_matches (pattern key : PermissionKey) : bool :=
  if decide (pattern = [STAR]) then true
  else match strip_suffix [DOT; STAR] pattern with
       | None => bool_decide (pattern = key)
       | Some prefix => match strip_prefix prefix key with Some remaining => starts_with_char DOT remaining | None => false end
       end.

Definition key_specificity (key : PermissionKey) : nat :=
  if decide (key = [STAR]) then 0%nat
  else length (split_on DOT (match strip_suffix [DOT; STAR] key with Some prefix => prefix | None => key end)).

Definition key_scopes (parent key : PermissionKey) : bool :=
  bool_decide (parent = key) || match strip_prefix parent key with Some remaining => starts_with_char DOT remaining | None => false end.

(** ** Identifiers *)

Record Identifier := mkIdentifier { id_namespace : text; id_path : text }.
#[global] Instance Identifier_eq_dec : EqDecision Identifier.
Proof. solve_decision. Defined.

Definition valid_namespace_char (c : Z) : bool := (c =? 95) || (c =? 45) || is_ascii_lowercase c || is_ascii_digit c || (c =? DOT).
Definition valid_char (c : Z) : bool := valid_namespace_char c || (c =? SLASH).
Definition validate_namespace (namespace : text) : bool := negb (bool_decide (namespace = [DOT; DOT])) && forallb valid_namespace_char namespace.
Definition validate_path (path : text) : bool := forallb valid_char path.
Definition identifier_text (i : Identifier) : text := id_namespace i ++ COLON :: id_path i.

(** ** Contexts of rules *)

Definition PermissionDomain : Type := text.
Definition PermissionContextKey : Type := text.
Definition PermissionContextValue : Type := text.

#[warnings="-register-all"]
Inductive PermissionRuleContext :=
| Global
| Domain (domain : PermissionDomain)
| World (world : Identifier)
| Custom (key : PermissionContextKey) (value : PermissionContextValue)
| AllContexts (contexts : list PermissionRuleContext).

#[global] Instance PermissionRuleContext_eq_dec : EqDecision PermissionRuleContext.
Proof.
  unfold EqDecision. fix go 1. intros a b. destruct a as [|d|w|k x|l], b as [|d'|w'|k' x'|l']; try (right; discriminate); [by left|..].
  - destruct (decide (d = d')) as [->|]; [by left|right; congruence].
  - destruct (decide (w = w')) as [->|]; [by left|right; congruence].
  - destruct (decide (k = k')) as [->|]; [|right; congruence]. destruct (decide (x = x')) as [->|]; [by left|right; congruence].
  - destruct (@list_eq_dec _ go l l') as [->|]; [by left|right; congruence].
Defined.

Inductive PermissionContextKeyError :=
| KeyInvalidFormat | EmptyNamespace | EmptyPath | InvalidNamespace | InvalidPath | InvalidUnqualified (source : PermissionKeyError).

Inductive PermissionRuleContextError :=
| InvalidDomain (domain : text)
| InvalidValue (value : text)
| DuplicateDomain
| DuplicateWorld
| DuplicateCustomKey (key : PermissionContextKey)
| WorldDomainMismatch (domain world_domain : text).

Definition PermissionDomain_parse (value : text) : result PermissionDomain PermissionRuleContextError :=
  if bool_decide (value = []) || negb (validate_namespace value) then Err (InvalidDomain value) else Ok value.

(** A character that a context value must not have. *)
Definition value_forbidden (c : Z) : bool :=
  is_whitespace c || (c =? OPEN_BRACE) || (c =? CLOSE_BRACE) || (c =? COMMA) || (c =? EQUALS).

Definition PermissionContextValue_parse (value : text) : result PermissionContextValue PermissionRuleContextError :=
  if bool_decide (value = []) || existsb value_forbidden value then Err (InvalidValue value) else Ok value.

Definition validate_namespaced_context_key (value : text) : result unit PermissionContextKeyError :=
  match split_once COLON value with
  | None => Err KeyInvalidFormat
  | Some (namespace, path) =>
      if decide (namespace = []) then Err EmptyNamespace
      else if decide (path = []) then Err EmptyPath
      else if contains_char COLON path then Err KeyInvalidFormat
      else if existsb (fun piece => bool_decide (piece = [])) (split_on DOT namespace) then Err InvalidNamespace
      else if existsb (fun piece => bool_decide (piece = [])) (split_by (fun c => (c =? DOT) || (c =? SLASH)) path) then Err InvalidPath
      else if negb (validate_namespace namespace) then Err InvalidNamespace
      else if negb (validate_path path) then Err InvalidPath
      else Ok tt
  end.

Definition PermissionContextKey_parse (value : text) : result PermissionContextKey PermissionContextKeyError :=
  if contains_char COLON value then let? _ := validate_namespaced_context_key value in Ok value
  else match PermissionSegment_parse value with Ok _ => Ok value | Err source => Err (InvalidUnqualified source) end.

Definition context_domain (domain : text) : result PermissionRuleContext PermissionRuleContextError :=
  let? domain := PermissionDomain_parse domain in Ok (Domain domain).
Definition context_custom (key : PermissionContextKey) (value : text) : result PermissionRuleContext PermissionRuleContextError :=
  let? value := PermissionContextValue_parse value in Ok (Custom key value).

(** The comparison with one context that is already there: settled, or no conflict. *)
Definition push_conflict (context existing : PermissionRuleContext) : option (result unit PermissionRuleContextError) :=
  match context, existing with
  | Domain value, Domain current => Some (if decide (value = current) then Ok tt else Err DuplicateDomain)
  | World value, World current => Some (if decide (value = current) then Ok tt else Err DuplicateWorld)
  | Custom key value, Custom current_key current_value =>
      if decide (key = current_key) then Some (if decide (value = current_value) then Ok tt else Err (DuplicateCustomKey key)) else None
  | _, _ => None
  end.

Definition push_unique_context (contexts : list PermissionRuleContext) (context : PermissionRuleContext)
  : result (list PermissionRuleContext) PermissionRuleContextError :=
  match omap (push_conflict context) contexts with
  | Ok _ :: _ => Ok contexts
  | Err e :: _ => Err e
  | [] => Ok (if decide (context ∈ contexts) then contexts else contexts ++ [context])
  end.

Definition find_domain (contexts : list PermissionRuleContext) : option text :=
  head (omap (fun c => match c with Domain d => Some d | _ => None end) contexts).
Definition find_world_domain (contexts : list PermissionRuleContext) : option text :=
  head (omap (fun c => match c with World w => Some (id_namespace w) | _ => None end) contexts).

Definition is_domain (c : PermissionRuleContext) : bool := match c with Domain _ => true | _ => false end.

Definition normalize_world_domain (contexts : list PermissionRuleContext) : result (list PermissionRuleContext) PermissionRuleContextError :=
  match find_domain contexts, find_world_domain contexts with
  | Some domain, Some world_domain =>
      if decide (domain = world_domain) then Ok (filter (fun c => is_domain c = false) contexts)
      else Err (WorldDomainMismatch domain world_domain)
  | _, _ => Ok contexts
  end.

Definition rule_context_rank (c : PermissionRuleContext) : Z :=
  match c with Domain _ => 0 | World _ => 1 | Custom _ _ => 2 | Global => 3 | AllContexts _ => 4 end.

Definition then_compare (a b : comparison) : comparison := match a with Eq => b | _ => a end.

Definition compare_rule_contexts (a b : PermissionRuleContext) : comparison :=
  then_compare (rule_context_rank a ?= rule_context_rank b)
    (match a, b with
     | Domain x, Domain y => text_compare x y
     | World x, World y => then_compare (text_compare (id_namespace x) (id_namespace y)) (text_compare (id_path x) (id_path y))
     | Custom x_key x_value, Custom y_key y_value => then_compare (text_compare x_key y_key) (text_compare x_value y_value)
     | _, _ => Eq
     end).

Definition context_le (a b : PermissionRuleContext) : Prop := compare_rule_contexts a b <> Gt.
#[global] Instance context_le_dec a b : Decision (context_le a b).
Proof. unfold context_le. apply _. Defined.

(** The pushes of [all] for one context. *)
Definition push_flattened (flattened : list PermissionRuleContext) (context : PermissionRuleContext)
  : result (list PermissionRuleContext) PermissionRuleContextError :=
  match context with
  | Global => Ok flattened
  | AllContexts contexts => foldl (fun acc c => let? acc := acc in push_unique_context acc c) (Ok flattened) contexts
  | context => push_unique_context flattened context
  end.

Definition context_all (contexts : list PermissionRuleContext) : result PermissionRuleContext PermissionRuleContextError :=
  let? flattened := foldl (fun acc c => let? acc := acc in push_flattened acc c) (Ok []) contexts in
  let? flattened := normalize_world_domain flattened in
  Ok (match merge_sort context_le flattened with [] => Global | [context] => context | flattened => AllContexts flattened end).

(** ** The context of a request *)

Record PermissionContext := mkContext {
  pc_domain : option PermissionDomain;
  pc_world : option Identifier;
  pc_custom : list PermissionRuleContext;
}.
Definition context_global : PermissionContext := mkContext None None [].
Definition for_world (world : Identifier) : PermissionContext := mkContext (Some (id_namespace world)) (Some world) [].

Fixpoint context_matches (rule : PermissionRuleContext) (context : PermissionContext) : bool :=
  match rule with
  | Global => true
  | Domain domain => bool_decide (pc_domain context = Some domain)
  | World world => bool_decide (pc_world context = Some world)
  | Custom _ _ => bool_decide (rule ∈ pc_custom context)
  | AllContexts contexts => forallb (fun c => context_matches c context) contexts
  end.

Fixpoint context_specificity (rule : PermissionRuleContext) : nat :=
  match rule with
  | Global => 0
  | Domain _ | Custom _ _ => 1
  | World _ => 2
  | AllContexts contexts => list_sum (context_specificity <$> contexts)
  end%nat.

(** The values bound to a custom key. *)
Definition custom_value (key : PermissionContextKey) (c : PermissionRuleContext) : option text :=
  match c with Custom k v => if decide (k = key) then Some v else None | _ => None end.

Definition add_custom_context (context : PermissionContext) (key : PermissionContextKey) (value : text)
  : result PermissionContext PermissionRuleContextError :=
  let? rule := context_custom key value in
  match omap (custom_value key) (pc_custom context) with
  | v :: _ => if decide (v = value) then Ok context else Err (DuplicateCustomKey key)
  | [] => Ok (mkContext (pc_domain context) (pc_world context) (pc_custom context ++ [rule]))
  end.

Fixpoint append_rule_context (rule : PermissionRuleContext) (context : PermissionContext) : result PermissionContext PermissionRuleContextError :=
  match rule with
  | Global => Ok context
  | Domain domain => Ok (mkContext (Some domain) (pc_world context) (pc_custom context))
  | World world => Ok (mkContext (Some (id_namespace world)) (Some world) (pc_custom context))
  | Custom key value => add_custom_context context key value
  | AllContexts contexts =>
      (fix go contexts acc := match contexts with
                              | [] => Ok acc
                              | c :: contexts => let? acc := append_rule_context c acc in go contexts acc
                              end) contexts context
  end.

Definition from_rule_context (rule : PermissionRuleContext) : result PermissionContext PermissionRuleContextError :=
  append_rule_context rule context_global.

(** ** Rules and sets *)

Inductive PermissionState := Allow | Deny.
#[global] Instance PermissionState_eq_dec : EqDecision PermissionState.
Proof. solve_decision. Defined.

Record PermissionEntry := mkPermission { pe_key : PermissionKey; pe_context : PermissionRuleContext; pe_state : PermissionState }.

Inductive PermissionResolutionSource := Group (name : text) (priority : Z) | Subject.

Definition source_rank (source : PermissionResolutionSource) : nat := match source with Group _ _ => 0%nat | Subject => 1%nat end.
Definition tie_priority (source : PermissionResolutionSource) : Z := match source with Group _ priority => priority | Subject => 0 end.

(** The two vectors [entries] and [sources] have the same length: they are one list. *)
Definition PermissionSet : Type := list (PermissionEntry * PermissionResolutionSource).

Definition set_from_entries (entries : list PermissionEntry) : PermissionSet := (fun e => (e, Subject)) <$> entries.
Definition set_entries (set : PermissionSet) : list PermissionEntry := set.*1.
Definition set_push (set : PermissionSet) (entry : PermissionEntry) : PermissionSet := set ++ [(entry, Subject)].
Definition set_push_group (set : PermissionSet) (entry : PermissionEntry) (group : text) (priority : Z) : PermissionSet :=
  set ++ [(entry, Group group priority)].

Definition keeps (key : PermissionKey) (context : PermissionRuleContext) (entry : PermissionEntry) : bool :=
  negb (bool_decide (pe_key entry = key)) || negb (bool_decide (pe_context entry = context)).
Definition retain_entries (keep : PermissionEntry -> bool) (set : PermissionSet) : PermissionSet := filter (fun p => keep p.1 = true) set.

Definition set_in (set : PermissionSet) (key : PermissionKey) (context : PermissionRuleContext) (state : PermissionState) : PermissionSet :=
  set_push (retain_entries (keeps key context) set) (mkPermission key context state).
Definition unset_in (set : PermissionSet) (key : PermissionKey) (context : PermissionRuleContext) : PermissionSet * bool :=
  let set' := retain_entries (keeps key context) set in (set', negb (bool_decide (length set' = length set))).

(** ** Resolution *)

Record PermissionCandidate := mkCandidate {
  ca_index : nat;
  ca_key_specificity : nat;
  ca_context_specificity : nat;
  ca_source : PermissionResolutionSource;
  ca_state : PermissionState;
}.

(** The order of candidates as a list of numbers, compared lexicographically. *)
Definition candidate_order (c : PermissionCandidate) : list Z :=
  [Z.of_nat (ca_key_specificity c); Z.of_nat (ca_context_specificity c); Z.of_nat (source_rank (ca_source c)); tie_priority (ca_source c)].

Definition push_candidate (best : option PermissionCandidate) (candidate : PermissionCandidate) : option PermissionCandidate :=
  match best with
  | None => Some candidate
  | Some current =>
      match text_compare (candidate_order candidate) (candidate_order current) with
      | Gt => Some candidate
      | Eq => match ca_state current, ca_state candidate with Allow, Deny => Some candidate | _, _ => best end
      | Lt => best
      end
  end.

Definition key_candidate (key : PermissionKey) (context : PermissionContext) (index : nat) (rule : PermissionEntry * PermissionResolutionSource)
  : option PermissionCandidate :=
  let '(entry, source) := rule in
  if negb (context_matches (pe_context entry) context) || negb (key_matches (pe_key entry) key) then None
  else Some (mkCandidate index (key_specificity (pe_key entry)) (context_specificity (pe_context entry)) source (pe_state entry)).

Definition scoped_candidate (parent key : PermissionKey) (context : PermissionContext) (index : nat)
  (rule : PermissionEntry * PermissionResolutionSource) : option PermissionCandidate :=
  let '(entry, source) := rule in
  if negb (context_matches (pe_context entry) context) then None
  else
    let matches_parent := key_scopes parent key && key_matches (pe_key entry) parent in
    let matches_key := key_matches (pe_key entry) key in
    if negb matches_parent && negb matches_key then None
    else
      let specificity := key_specificity (pe_key entry) in
      Some (mkCandidate index (if matches_key && negb matches_parent then S specificity else specificity)
              (context_specificity (pe_context entry)) source (pe_state entry)).

Definition best_candidate (candidate : nat -> PermissionEntry * PermissionResolutionSource -> option PermissionCandidate) (set : PermissionSet)
  : option PermissionCandidate :=
  foldl push_candidate None (omap id (imap candidate set)).

Definition resolve_key_in (set : PermissionSet) (key : PermissionKey) (context : PermissionContext) : option PermissionState :=
  ca_state <$> best_candidate (key_candidate key context) set.
Definition resolve_scoped_key_in (set : PermissionSet) (parent key : PermissionKey) (context : PermissionContext) : option PermissionState :=
  ca_state <$> best_candidate (scoped_candidate parent key context) set.

Record PermissionResolution := mkResolution {
  rs_entry : PermissionEntry;
  rs_source : PermissionResolutionSource;
  rs_key_specificity : nat;
  rs_context_specificity : nat;
}.
(** An index out of range is a panic. *)
Definition permission_resolution (set : PermissionSet) (c : PermissionCandidate) : option PermissionResolution :=
  p ← set !! ca_index c; Some (mkResolution p.1 (ca_source c) (ca_key_specificity c) (ca_context_specificity c)).

Definition detailed (set : PermissionSet) (best : option PermissionCandidate) : option (option PermissionResolution) :=
  match best with None => Some None | Some candidate => Some <$> permission_resolution set candidate end.
Definition resolve_key_in_detailed (set : PermissionSet) (key : PermissionKey) (context : PermissionContext) : option (option PermissionResolution) :=
  detailed set (best_candidate (key_candidate key context) set).
Definition resolve_scoped_key_in_detailed (set : PermissionSet) (parent key : PermissionKey) (context : PermissionContext)
  : option (option PermissionResolution) :=
  detailed set (best_candidate (scoped_candidate parent key context) set).

(** ** Expressions *)

#[warnings="-register-all"]
Inductive PermissionExpr :=
| Key (key : PermissionKey)
| ScopedKey (parent key : PermissionKey)
| All (children : list PermissionExpr)
| Any (children : list PermissionExpr).

Definition expr_and (a b : PermissionExpr) : PermissionExpr :=
  match a, b with
  | All x, All y => All (x ++ y)
  | All x, y => All (x ++ [y])
  | x, All y => All (x :: y)
  | x, y => All [x; y]
  end.
Definition expr_or (a b : PermissionExpr) : PermissionExpr :=
  match a, b with
  | Any x, Any y => Any (x ++ y)
  | Any x, y => Any (x ++ [y])
  | x, Any y => Any (x :: y)
  | x, y => Any [x; y]
  end.

(** The loops of [resolve_all] and [resolve_any] over the children, given how a child resolves. *)
Section Children.
  Context (resolve : PermissionExpr -> option PermissionState).

Fixpoint resolve_all (children : list PermissionExpr) (saw_unset : bool) : option PermissionState :=
  match children with
  | [] => if saw_unset then None else Some Allow
  | child :: children =>
      match resolve child with
      | Some Allow => resolve_all children saw_unset
      | Some Deny => Some Deny
      | None => resolve_all children true
      end
  end.

Fixpoint resolve_any (children : list PermissionExpr) (saw_unset : bool) : option PermissionState :=
  match children with
  | [] => if saw_unset then None else Some Deny
  | child :: children =>
      match resolve child with
      | Some Allow => Some Allow
      | Some Deny => resolve_any children saw_unset
      | None => resolve_any children true
      end
  end.
End Children.

Fixpoint resolve_in (set : PermissionSet) (context : PermissionContext) (permission : PermissionExpr) : option PermissionState :=
  match permission with
  | Key key => resolve_key_in set key context
  | ScopedKey parent key => resolve_scoped_key_in set parent key context
  | All children => resolve_all (resolve_in set context) children false
  | Any children => resolve_any (resolve_in set context) children false
  end.

Definition allows_in (set : PermissionSet) (permission : PermissionExpr) (context : PermissionContext) : bool :=
  bool_decide (resolve_in set context permission = Some Allow).
