(* ===== verification/PermissionRules.v ===== *)
(** * What permission rules decide

    Keys match segment by segment, a request is decided by the strongest matching rules
    whatever their order, and expressions follow three-valued logic. *)

From Stdlib Require Import String.
From S2P Require Import Prelude Texts Permissions.

#[local] Open Scope list_scope.
#[local] Open Scope steel_scope.

(** ** Keys by segments *)

Definition segments (key : PermissionKey) : list text := split_on DOT key.

(** A final star stands for one or more segments. *)
Fixpoint segments_match (pattern key : list text) : bool :=
  match pattern, key with
  | [p], k :: rest => bool_decide (p = [STAR]) || (bool_decide (p = k) && bool_decide (rest = []))
  | p :: pattern, k :: key => bool_decide (p = k) && segments_match pattern key
  | _, _ => false
  end.

(** The segments of a parsed key: a star only at the end. *)
Fixpoint segments_ok (l : list text) : Prop :=
  match l with
  | [] => True
  | [p] => p = [STAR] \/ (p <> [] /\ (STAR ∉ p) /\ (DOT ∉ p))
  | p :: l => (p <> [] /\ (STAR ∉ p) /\ (DOT ∉ p)) /\ segments_ok l
  end.

Lemma segment_char_plain p : forallb segment_char p = true -> (STAR ∉ p) /\ (DOT ∉ p).
Proof. rewrite forallb_forall. intros H. split; intros Hin%list_elem_of_In; by apply H in Hin. Qed.

Lemma validate_segments_ok l : validate_segments l = Ok tt -> segments_ok l.
Proof.
  induction l as [|p l IH]; [done|]. cbn [validate_segments]. case_decide as Hp; [done|]. case_decide as Hs.
  - case_decide as Hl; [|done]. intros _. subst. simpl. by left.
  - destruct (contains_char STAR p) eqn:Ec; [done|]. unfold validate_permission_segment. destruct (forallb segment_char p) eqn:Ef; [|done].
    cbn. intros H. apply segment_char_plain in Ef as [H1 H2]. specialize (IH H). destruct l as [|q l]; simpl; [by right|]. by split.
Qed.

Lemma parsed_key key value : PermissionKey_parse value = Ok key -> key = value /\ segments_ok (segments key) /\ key <> [].
Proof.
  unfold PermissionKey_parse. case_decide as He; [done|]. destruct (validate_segments _) as [[]|] eqn:E; [|done]. cbn. intros [= <-].
  split; [done|]. split; [by apply validate_segments_ok|done].
Qed.

Lemma segments_join key : join DOT (segments key) = key.
Proof. apply join_split. Qed.

Lemma segments_plain key : Forall (fun p => DOT ∉ p) (segments key).
Proof. apply split_pieces. Qed.

Lemma segments_inj a b : segments a = segments b -> a = b.
Proof. intros E. by rewrite <- (segments_join a), <- (segments_join b), E. Qed.

Lemma join_app c l l' : l <> [] -> l' <> [] -> join c (l ++ l') = join c l ++ c :: join c l'.
Proof.
  intros Hl Hl'. induction l as [|p l IH]; [done|]. destruct l as [|q l]; simpl in *; [by destruct l'|].
  rewrite IH by done. by rewrite <- app_assoc.
Qed.

Lemma segments_match_cons p pattern k key : pattern <> [] -> segments_match (p :: pattern) (k :: key) = bool_decide (p = k) && segments_match pattern key.
Proof. by destruct pattern. Qed.

Lemma segments_prefix pre l : segments_match (pre ++ [[STAR]]) l = true <-> exists rest, l = pre ++ rest /\ rest <> [].
Proof.
  revert l. induction pre as [|p pre IH]; intros l.
  - destruct l as [|k l]; simpl; [split; [done|intros (rest & E & Hr); by destruct rest]|]. split; [by exists (k :: l)|done].
  - destruct l as [|k l]; cbn [app].
    + split; [by destruct pre|]. by intros (rest & E & _).
    + rewrite segments_match_cons by (by destruct pre). rewrite andb_true_iff, bool_decide_eq_true, IH. split.
      * intros [-> (rest & -> & Hr)]. by exists rest.
      * intros (rest & [= -> ->] & Hr). eauto.
Qed.

Lemma segments_exact pattern l : Forall (fun p => p <> [STAR]) pattern -> pattern <> [] -> segments_match pattern l = bool_decide (pattern = l).
Proof.
  intros H. revert l. induction H as [|p pattern Hp H IH]; intros l Hne; [done|]. destruct pattern as [|q pattern].
  - destruct l as [|k rest]; simpl; [done|]. rewrite (bool_decide_false (p = [STAR])) by done. simpl. apply eq_true_iff_eq.
    rewrite andb_true_iff, !bool_decide_eq_true. naive_solver.
  - destruct l as [|k l]; [done|]. rewrite segments_match_cons, IH by done. apply eq_true_iff_eq. rewrite andb_true_iff, !bool_decide_eq_true. naive_solver.
Qed.

(** The two shapes of a parsed key. *)
Lemma segments_ok_cases l : segments_ok l -> (exists pre, l = pre ++ [[STAR]] /\ Forall (fun p => STAR ∉ p) pre) \/ Forall (fun p => STAR ∉ p) l.
Proof.
  induction l as [|p l IH]; intros H; [by right|]. destruct l as [|q l].
  - destruct H as [->|(_ & H & _)]; [left; by exists []|right; by constructor].
  - destruct H as [(_ & Hp & _) H]. destruct (IH H) as [(pre & -> & Hpre)|Hl]; [left|right; by constructor].
    exists (p :: pre). split; [done|]. by constructor.
Qed.

Lemma star_suffix key pre : segments key = pre ++ [[STAR]] -> pre <> [] -> key = join DOT pre ++ [DOT; STAR].
Proof. intros E Hne. rewrite <- (segments_join key), E, join_app by done. done. Qed.

Lemma segments_of_join pre : pre <> [] -> Forall (fun p => DOT ∉ p) pre -> segments (join DOT pre) = pre.
Proof. intros Hne H. by apply split_join. Qed.

Lemma segments_app_dot a b : segments (a ++ DOT :: b) = segments a ++ segments b.
Proof.
  unfold segments, split_on. induction a as [|x a IH]; [by simpl|]. cbn [app split_by]. destruct (DOT =? x); [by rewrite IH|].
  destruct (split_by_cons (Z.eqb DOT) a) as (piece & pieces & E). rewrite E in *. by rewrite IH.
Qed.

Lemma segments_split_prefix pre key rest : segments key = pre ++ rest -> pre <> [] -> rest <> [] -> key = join DOT pre ++ DOT :: join DOT rest.
Proof. intros E Hp Hr. rewrite <- (segments_join key), E. by apply join_app. Qed.

Lemma no_star_no_suffix key : Forall (fun p => STAR ∉ p) (segments key) -> strip_suffix [DOT; STAR] key = None /\ key <> [STAR].
Proof.
  intros H. assert (forall t, key = t ++ [STAR] -> False) as Hno.
  { intros t E. assert (STAR ∈ concat (segments key)) as Hin.
    { rewrite E. destruct (split_by_cons (Z.eqb DOT) t) as (piece & pieces & _). clear H E. unfold segments, split_on.
      induction t as [|x t IH]; [by left|]. cbn [app split_by]. destruct (DOT =? x); [cbn; done|].
      destruct (split_by_cons (Z.eqb DOT) (t ++ [STAR])) as (a & b & Eab). rewrite Eab in *. cbn in *. by right. }
    apply list_elem_of_In, in_concat in Hin as (p & Hp%list_elem_of_In & Hs%list_elem_of_In). rewrite Forall_forall in H. by apply (H p). }
  split; [|intros E; by apply (Hno [])]. destruct (strip_suffix [DOT; STAR] key) as [t|] eqn:E; [|done]. exfalso.
  apply strip_suffix_spec in E. apply (Hno (t ++ [DOT])). by rewrite <- app_assoc.
Qed.

Lemma key_matches_segments_ok pattern key : segments_ok (segments pattern) -> pattern <> [] -> key_matches pattern key = segments_match (segments pattern) (segments key).
Proof.
  intros Hok Hne. unfold key_matches. destruct (segments_ok_cases _ Hok) as [(pre & E & Hpre)|Hplain].
  - destruct (decide (pre = [])) as [->|Hp].
    + assert (pattern = [STAR]) as -> by (by rewrite <- (segments_join pattern), E). rewrite decide_True by done.
      destruct (split_by_cons (Z.eqb DOT) key) as (a & b & Eab). unfold segments, split_on in *. rewrite E, Eab. done.
    + pose proof (star_suffix pattern pre E Hp) as Epat. rewrite decide_False.
      2: { rewrite Epat. intros H. apply (f_equal (@length Z)) in H. rewrite length_app in H. simpl in H. lia. }
      assert (strip_suffix [DOT; STAR] pattern = Some (join DOT pre)) as -> by (by apply strip_suffix_spec).
      rewrite E. apply eq_true_iff_eq. rewrite segments_prefix.
      assert (Forall (fun p => DOT ∉ p) pre) as Hdot by (pose proof (segments_plain pattern) as H; rewrite E in H; by apply Forall_app in H as [H _]).
      split.
      * destruct (strip_prefix (join DOT pre) key) as [rem|] eqn:Er; [|done]. apply strip_prefix_spec in Er. destruct rem as [|c rem]; [done|].
        intros Hc%Z.eqb_eq. subst c. rewrite Er, segments_app_dot, segments_of_join by done. eexists. split; [done|]. apply split_ne.
      * intros (rest & Er & Hr). rewrite (segments_split_prefix pre key rest Er Hp Hr).
        assert (strip_prefix (join DOT pre) (join DOT pre ++ DOT :: join DOT rest) = Some (DOT :: join DOT rest)) as -> by (by apply strip_prefix_spec). done.
  - destruct (no_star_no_suffix pattern Hplain) as [-> Hns]. rewrite decide_False by done. rewrite segments_exact.
    + apply bool_decide_ext. split; [by intros ->|apply segments_inj].
    + eapply Forall_impl; [exact Hplain|]. intros p Hp ->. apply Hp. by left.
    + apply split_ne.
Qed.

(** The segments of a key other than a star. *)
Definition named_segments (key : PermissionKey) : nat := length (filter (fun p : text => p <> [STAR]) (segments key)).

Lemma filter_no_star (l : list text) : Forall (fun p => STAR ∉ p) l -> filter (fun p : text => p <> [STAR]) l = l.
Proof.
  induction 1 as [|p l Hp _ IH]; [done|]. rewrite filter_cons, decide_True, IH; [done|]. intros ->. apply Hp. by left.
Qed.

Lemma key_specificity_ok key : segments_ok (segments key) -> key <> [] -> key_specificity key = named_segments key.
Proof.
  intros Hok Hne. unfold key_specificity, named_segments. destruct (segments_ok_cases _ Hok) as [(pre & E & Hpre)|Hplain].
  - rewrite E, filter_app, (filter_no_star pre) by done. change (filter (fun p : text => p <> [STAR]) [[STAR]]) with (@nil text). rewrite app_nil_r.
    destruct (decide (pre = [])) as [->|Hp].
    + assert (key = [STAR]) as -> by (by rewrite <- (segments_join key), E). by rewrite decide_True.
    + pose proof (star_suffix key pre E Hp) as Epat. rewrite decide_False.
      2: { rewrite Epat. intros H. apply (f_equal (@length Z)) in H. rewrite length_app in H. simpl in H. lia. }
      assert (strip_suffix [DOT; STAR] key = Some (join DOT pre)) as -> by (by apply strip_suffix_spec).
      f_equal. apply segments_of_join; [done|]. pose proof (segments_plain key) as H. rewrite E in H. by apply Forall_app in H as [H _].
  - destruct (no_star_no_suffix key Hplain) as [-> Hns]. rewrite decide_False by done. by rewrite filter_no_star.
Qed.

(** A parsed key matches another key exactly when their segments match one by one, with a
    final star standing for one or more segments, and its specificity is the number of its
    segments other than the star. *)
Theorem permission_key_segments value pattern key :
  PermissionKey_parse value = Ok pattern ->
  key_matches pattern key = segments_match (segments pattern) (segments key) /\ key_specificity pattern = named_segments pattern.
Proof.
  intros (-> & Hok & Hne)%parsed_key. split; [by apply key_matches_segments_ok|by apply key_specificity_ok].
Qed.

Lemma permission_key_segments_witness :
  key_matches (lit "command.*") (lit "command.give.self") = true /\ key_matches (lit "command.*") (lit "commands.give") = false /\
  key_specificity (lit "command.*") = 1%nat.
Proof.
  pose proof (permission_key_segments (lit "command.*") (lit "command.*") (lit "command.give.self") eq_refl) as [H1 H2].
  pose proof (permission_key_segments (lit "command.*") (lit "command.*") (lit "commands.give") eq_refl) as [H3 _].
  rewrite H1, H2, H3. by vm_compute.
Defined.

(** ** The strongest rules *)

(** What a rule weighs for a request: key, context, source and priority, then its state. *)
Definition strength : Type := list Z * PermissionState.

Definition rule_strength (specificity : nat) (rule : PermissionEntry * PermissionResolutionSource) : strength :=
  ([Z.of_nat specificity; Z.of_nat (context_specificity (pe_context rule.1)); Z.of_nat (source_rank rule.2); tie_priority rule.2], pe_state rule.1).

Definition key_strength (context : PermissionContext) (key : PermissionKey) (rule : PermissionEntry * PermissionResolutionSource) : option strength :=
  if context_matches (pe_context rule.1) context && key_matches (pe_key rule.1) key then Some (rule_strength (key_specificity (pe_key rule.1)) rule)
  else None.

(** A rule that covers the parent counts for the child; a rule for the child alone weighs more. *)
Definition scoped_strength (context : PermissionContext) (parent key : PermissionKey) (rule : PermissionEntry * PermissionResolutionSource)
  : option strength :=
  if negb (context_matches (pe_context rule.1) context) then None
  else if key_scopes parent key && key_matches (pe_key rule.1) parent then Some (rule_strength (key_specificity (pe_key rule.1)) rule)
  else if key_matches (pe_key rule.1) key then Some (rule_strength (S (key_specificity (pe_key rule.1))) rule)
  else None.

(** The strengths that no other exceeds. *)
Definition maximal (l : list strength) : list strength := filter (fun s => Forall (fun s' => text_le s'.1 s.1) l) l.

Definition verdict (l : list strength) : option PermissionState :=
  if decide (l = []) then None else if decide (Deny ∈ (maximal l).*2) then Some Deny else Some Allow.

(** Three-valued conjunction and disjunction. *)
Definition conjunction (values : list (option PermissionState)) : option PermissionState :=
  if decide (Some Deny ∈ values) then Some Deny else if decide (None ∈ values) then None else Some Allow.
Definition disjunction (values : list (option PermissionState)) : option PermissionState :=
  if decide (Some Allow ∈ values) then Some Allow else if decide (None ∈ values) then None else Some Deny.

Fixpoint evaluate (set : PermissionSet) (context : PermissionContext) (permission : PermissionExpr) : option PermissionState :=
  match permission with
  | Key key => verdict (omap (key_strength context key) set)
  | ScopedKey parent key => verdict (omap (scoped_strength context parent key) set)
  | All children => conjunction (evaluate set context <$> children)
  | Any children => disjunction (evaluate set context <$> children)
  end.

Definition candidate_strength (c : PermissionCandidate) : strength := (candidate_order c, ca_state c).

Lemma key_candidate_strength context key index rule :
  candidate_strength <$> key_candidate key context index rule = key_strength context key rule.
Proof.
  destruct rule as [entry source]. unfold key_candidate, key_strength. simpl.
  by destruct (context_matches (pe_context entry) context), (key_matches (pe_key entry) key).
Qed.

Lemma scoped_candidate_strength context parent key index rule :
  candidate_strength <$> scoped_candidate parent key context index rule = scoped_strength context parent key rule.
Proof.
  destruct rule as [entry source]. unfold scoped_candidate, scoped_strength. simpl. destruct (context_matches (pe_context entry) context); [|done].
  by destruct (key_scopes parent key && key_matches (pe_key entry) parent), (key_matches (pe_key entry) key).
Qed.

Lemma strengths_of_candidates candidate f (set : PermissionSet) :
  (forall index rule, candidate_strength <$> candidate index rule = f rule) -> candidate_strength <$> omap id (imap candidate set) = omap f set.
Proof.
  intros H. revert candidate H. induction set as [|rule set IH]; intros candidate H; [done|]. simpl. rewrite <- (H 0%nat rule).
  specialize (IH (candidate ∘ S) ltac:(intros; apply H)). destruct (candidate 0%nat rule) as [c|]; simpl; [f_equal|]; exact IH.
Qed.

(** The candidate that the fold over [cs] has to keep. *)
Definition dominates (best : PermissionCandidate) (cs : list PermissionCandidate) : Prop :=
  best ∈ cs /\ Forall (fun c => text_le (candidate_order c) (candidate_order best)) cs /\
  (ca_state best = Allow -> Forall (fun c => candidate_order c = candidate_order best -> ca_state c = Allow) cs).

Lemma dominates_keep best cs c :
  dominates best cs -> text_le (candidate_order c) (candidate_order best) ->
  (candidate_order c = candidate_order best -> ca_state best = Allow -> ca_state c = Allow) -> dominates best (cs ++ [c]).
Proof. intros (Hin & Hle & Heq) Hc Hs. split; [set_solver|]. rewrite !Forall_app, !Forall_singleton. auto. Qed.

Lemma dominates_replace best cs c :
  dominates best cs -> text_le (candidate_order best) (candidate_order c) ->
  (candidate_order c = candidate_order best -> ca_state c = Deny) -> dominates c (cs ++ [c]).
Proof.
  intros (Hin & Hle & Heq) Hc Hs. split; [set_solver|]. rewrite !Forall_app, !Forall_singleton. split; [split; [|done]|].
  - eapply Forall_impl; [exact Hle|]. cbn. intros c' Hc'. by transitivity (candidate_order best).
  - intros Ha. split; [|done]. eapply Forall_impl; [exact Hle|]. cbn. intros c' Hc' E. rewrite E in Hc'.
    rewrite (text_le_antisym _ _ Hc' Hc) in Hs. by rewrite Hs in Ha.
Qed.

Lemma push_candidates_spec cs : match foldl push_candidate None cs with None => cs = [] | Some best => dominates best cs end.
Proof.
  induction cs as [|c cs IH] using rev_ind; [done|]. rewrite foldl_app. simpl. destruct (foldl push_candidate None cs) as [best|]; cbn [push_candidate].
  2: { subst cs. cbn [app]. split; [by left|]. by rewrite !Forall_singleton. }
  destruct (text_compare (candidate_order c) (candidate_order best)) eqn:E.
  - apply text_compare_eq in E. destruct (ca_state best) eqn:Es, (ca_state c) eqn:Ec;
      first [apply dominates_replace with best; by rewrite ?E|apply dominates_keep; rewrite ?E, ?Es, ?Ec; done].
  - apply dominates_keep; [done|unfold text_le; congruence|]. intros E'. by rewrite (proj2 (text_compare_eq _ _) E') in E.
  - apply dominates_replace with best; [done|unfold text_le; rewrite text_compare_antisym, E; done|].
    intros E'. by rewrite (proj2 (text_compare_eq _ _) E') in E.
Qed.

Lemma elem_of_maximal (l : list strength) s : s ∈ maximal l <-> s ∈ l /\ Forall (fun s' => text_le s'.1 s.1) l.
Proof. unfold maximal. rewrite list_elem_of_filter. tauto. Qed.

(** The fold decides by the maximal strengths. *)
Lemma push_candidates_verdict cs : ca_state <$> foldl push_candidate None cs = verdict (candidate_strength <$> cs).
Proof.
  pose proof (push_candidates_spec cs) as H. destruct (foldl push_candidate None cs) as [best|]; [|by rewrite H].
  destruct H as (Hin & Hle & Heq). unfold verdict. rewrite decide_False by (intros E%fmap_nil_inv; subst; by apply elem_of_nil in Hin).
  assert (candidate_strength best ∈ maximal (candidate_strength <$> cs)) as Hmax.
  { apply elem_of_maximal. split; [by apply list_elem_of_fmap_2|]. by apply Forall_fmap. }
  cbn [fmap option_fmap option_map]. destruct (ca_state best) eqn:Es; case_decide as Hd; try done; exfalso.
  - apply list_elem_of_fmap in Hd as (s & Es' & Hs). apply elem_of_maximal in Hs as [Hs Hall]. apply list_elem_of_fmap in Hs as (c & -> & Hc).
    rewrite Forall_forall in Hle. rewrite Forall_forall in Hall. specialize (Heq eq_refl). rewrite Forall_forall in Heq.
    assert (text_le (candidate_order best) (candidate_order c)) as Hb by (apply (Hall (candidate_strength best)); by apply list_elem_of_fmap_2).
    specialize (Heq c Hc (text_le_antisym _ _ (Hle c Hc) Hb)). simpl in Es'. congruence.
  - apply Hd. rewrite <- Es. by apply (list_elem_of_fmap_2 snd _ _ Hmax).
Qed.

Lemma resolve_key_verdict (set : PermissionSet) context key : resolve_key_in set key context = verdict (omap (key_strength context key) set).
Proof.
  unfold resolve_key_in, best_candidate. rewrite push_candidates_verdict. f_equal. apply strengths_of_candidates. intros. apply key_candidate_strength.
Qed.

Lemma resolve_scoped_verdict (set : PermissionSet) context parent key :
  resolve_scoped_key_in set parent key context = verdict (omap (scoped_strength context parent key) set).
Proof.
  unfold resolve_scoped_key_in, best_candidate. rewrite push_candidates_verdict. f_equal. apply strengths_of_candidates. intros. apply scoped_candidate_strength.
Qed.

(** ** Expressions *)

(** Induction with the hypothesis for every child. *)
Definition PermissionExpr_children_ind (P : PermissionExpr -> Prop) (Hkey : forall key, P (Key key)) (Hscoped : forall parent key, P (ScopedKey parent key))
  (Hall : forall children, Forall P children -> P (All children)) (Hany : forall children, Forall P children -> P (Any children)) : forall e, P e :=
  fix go e := match e with
              | Key key => Hkey key
              | ScopedKey parent key => Hscoped parent key
              | All children => Hall children (list_ind (Forall P) (Forall_nil_2 P) (fun x l H => Forall_cons_2 P x l (go x) H) children)
              | Any children => Hany children (list_ind (Forall P) (Forall_nil_2 P) (fun x l H => Forall_cons_2 P x l (go x) H) children)
              end.

Lemma resolve_all_spec resolve children saw_unset :
  resolve_all resolve children saw_unset =
    if decide (Some Deny ∈ resolve <$> children) then Some Deny
    else if saw_unset || bool_decide (None ∈ resolve <$> children) then None else Some Allow.
Proof.
  revert saw_unset. induction children as [|child children IH]; intros saw_unset; [by destruct saw_unset|]. cbn [resolve_all fmap list_fmap].
  destruct (resolve child) as [[]|] eqn:E; rewrite ?IH; repeat case_decide; repeat case_bool_decide; rewrite ?orb_true_r, ?orb_false_r; set_solver.
Qed.

Lemma resolve_any_spec resolve children saw_unset :
  resolve_any resolve children saw_unset =
    if decide (Some Allow ∈ resolve <$> children) then Some Allow
    else if saw_unset || bool_decide (None ∈ resolve <$> children) then None else Some Deny.
Proof.
  revert saw_unset. induction children as [|child children IH]; intros saw_unset; [by destruct saw_unset|]. cbn [resolve_any fmap list_fmap].
  destruct (resolve child) as [[]|] eqn:E; rewrite ?IH; repeat case_decide; repeat case_bool_decide; rewrite ?orb_true_r, ?orb_false_r; set_solver.
Qed.

Lemma resolve_in_evaluate set context permission : resolve_in set context permission = evaluate set context permission.
Proof.
  induction permission as [key|parent key|children IH|children IH] using PermissionExpr_children_ind; cbn [resolve_in evaluate].
  - apply resolve_key_verdict.
  - apply resolve_scoped_verdict.
  - rewrite resolve_all_spec, (Forall_fmap_ext_1 _ _ _ IH). unfold conjunction. case_decide; [done|]. simpl. by case_bool_decide; case_decide.
  - rewrite resolve_any_spec, (Forall_fmap_ext_1 _ _ _ IH). unfold disjunction. case_decide; [done|]. simpl. by case_bool_decide; case_decide.
Qed.

Lemma verdict_perm (l l' : list strength) : l ≡ₚ l' -> verdict l = verdict l'.
Proof.
  intros H. unfold verdict. assert (l = [] <-> l' = []) as He by (split; intros ->; [by apply Permutation_nil_l in H|by apply Permutation_nil_r in H]).
  assert (maximal l ≡ₚ maximal l') as Hm.
  { unfold maximal. rewrite H. erewrite list_filter_iff; [done|]. intros s. by rewrite H. }
  apply (fmap_Permutation snd) in Hm. repeat case_decide; try done; try tauto; exfalso; (rewrite Hm in *); done.
Qed.

Lemma evaluate_perm (set set' : PermissionSet) context permission : set ≡ₚ set' -> evaluate set context permission = evaluate set' context permission.
Proof.
  intros H. induction permission as [key|parent key|children IH|children IH] using PermissionExpr_children_ind; cbn [evaluate];
    [apply verdict_perm; by rewrite H..|by rewrite (Forall_fmap_ext_1 _ _ _ IH)|by rewrite (Forall_fmap_ext_1 _ _ _ IH)].
Qed.

(** The winning rule is at its index and has the decided state. *)
Lemma detailed_ok candidate (set : PermissionSet) :
  (forall index rule c, candidate index rule = Some c -> ca_index c = index /\ ca_state c = pe_state rule.1) ->
  exists best, detailed set (best_candidate candidate set) = Some best /\ (fun r => pe_state (rs_entry r)) <$> best = ca_state <$> best_candidate candidate set.
Proof.
  intros Hc. unfold best_candidate. pose proof (push_candidates_spec (omap id (imap candidate set))) as H.
  destruct (foldl push_candidate None _) as [best|]; [|by exists None]. destruct H as [Hin _].
  apply list_elem_of_omap in Hin as (o & Hin & Ho). unfold id in Ho. subst o. apply elem_of_lookup_imap in Hin as (i & rule & E & Hi). symmetry in E. apply Hc in E as [<- Es].
  unfold detailed, permission_resolution, PermissionSet in *. rewrite Hi. cbn. eexists. split; [done|]. cbn. by rewrite Es.
Qed.

Lemma key_candidate_rule key context index rule c : key_candidate key context index rule = Some c -> ca_index c = index /\ ca_state c = pe_state rule.1.
Proof. destruct rule as [entry source]. unfold key_candidate. destruct (_ || _); [done|]. by intros [= <-]. Qed.

(** Joining expressions joins what they decide, however the joined lists are flattened. *)
Lemma conjunction_app (x y : list (option PermissionState)) : conjunction (x ++ y) = conjunction [conjunction x; conjunction y].
Proof. unfold conjunction. repeat case_decide; set_solver. Qed.
Lemma disjunction_app (x y : list (option PermissionState)) : disjunction (x ++ y) = disjunction [disjunction x; disjunction y].
Proof. unfold disjunction. repeat case_decide; set_solver. Qed.
Lemma conjunction_one v : conjunction [v] = v.
Proof. by destruct v as [[]|]. Qed.
Lemma disjunction_one v : disjunction [v] = v.
Proof. by destruct v as [[]|]. Qed.

Lemma evaluate_and set context a b : evaluate set context (expr_and a b) = conjunction [evaluate set context a; evaluate set context b].
Proof.
  assert (forall x y, evaluate set context (All (x ++ y)) = conjunction [evaluate set context (All x); evaluate set context (All y)]) as Happ
    by (intros x y; cbn [evaluate]; rewrite fmap_app; apply conjunction_app).
  assert (forall e, evaluate set context (All [e]) = evaluate set context e) as Hone by (intros e; apply conjunction_one).
  assert (forall e l, evaluate set context (All (e :: l)) = conjunction [evaluate set context e; evaluate set context (All l)]) as Hcons
    by (intros e l; rewrite <- (Hone e); apply (Happ [e] l)).
  destruct a, b; cbn [expr_and]; first [apply Happ|apply Hcons|rewrite Happ, Hone; done|done].
Qed.

Lemma evaluate_or set context a b : evaluate set context (expr_or a b) = disjunction [evaluate set context a; evaluate set context b].
Proof.
  assert (forall x y, evaluate set context (Any (x ++ y)) = disjunction [evaluate set context (Any x); evaluate set context (Any y)]) as Happ
    by (intros x y; cbn [evaluate]; rewrite fmap_app; apply disjunction_app).
  assert (forall e, evaluate set context (Any [e]) = evaluate set context e) as Hone by (intros e; apply disjunction_one).
  assert (forall e l, evaluate set context (Any (e :: l)) = disjunction [evaluate set context e; evaluate set context (Any l)]) as Hcons
    by (intros e l; rewrite <- (Hone e); apply (Happ [e] l)).
  destruct a, b; cbn [expr_or]; first [apply Happ|apply Hcons|rewrite Happ, Hone; done|done].
Qed.

(** C22. A request is decided by the strongest of the rules that match it, whatever their order
    in the set: a rule weighs by its key, then its context, then its source, then the
    priority of its group, a deny wins among equals, no matching rule leaves the request
    undecided, and expressions combine the decisions by three-valued logic, also where
    joining two of them merges their lists of children.  The detailed
    resolution names a rule with the decided state and never indexes out of range. *)
Theorem permission_decided_by_strongest (set set' : PermissionSet) context permission key :
  set ≡ₚ set' ->
  resolve_in set context permission = evaluate set context permission /\
  resolve_in set' context permission = resolve_in set context permission /\
  (forall a b, resolve_in set context (expr_and a b) = conjunction [resolve_in set context a; resolve_in set context b] /\
               resolve_in set context (expr_or a b) = disjunction [resolve_in set context a; resolve_in set context b]) /\
  exists best, resolve_key_in_detailed set key context = Some best /\ (fun r => pe_state (rs_entry r)) <$> best = resolve_key_in set key context.
Proof.
  intros H. rewrite !resolve_in_evaluate. split; [done|]. split; [symmetry; by apply evaluate_perm|].
  split; [intros a b; rewrite !resolve_in_evaluate; split; [apply evaluate_and|apply evaluate_or]|]. apply detailed_ok. apply key_candidate_rule.
Qed.

Definition example_rules : PermissionSet :=
  [(mkPermission (lit "command.*") Global Allow, Group (lit "staff") 5); (mkPermission (lit "command.stop") Global Deny, Group (lit "default") 0);
   (mkPermission (lit "command.stop") Global Allow, Group (lit "staff") 0); (mkPermission (lit "command.ban") (Domain (lit "lobby")) Deny, Subject)].

Lemma permission_decided_by_strongest_witness :
  resolve_in (reverse example_rules) context_global (Any [Key (lit "command.stop"); Key (lit "chat.color")]) = None /\
  resolve_in example_rules context_global (All [Key (lit "command.ban"); Key (lit "command.stop")]) = Some Deny.
Proof.
  split.
  - destruct (permission_decided_by_strongest example_rules (reverse example_rules) context_global (Any [Key (lit "command.stop"); Key (lit "chat.color")])
      (lit "command.stop") ltac:(symmetry; apply reverse_Permutation)) as (E & E' & _). rewrite E', E. by vm_compute.
  - destruct (permission_decided_by_strongest example_rules example_rules context_global (All [Key (lit "command.ban"); Key (lit "command.stop")])
      (lit "command.stop") ltac:(reflexivity)) as (E & _). rewrite E. by vm_compute.
Defined.
