(* ===== verification/PermissionExpressions.v ===== *)
(** * The text of permission rules

    Models [steel-core/src/permission/rule_expression.rs] and the expressions of
    [metadata.rs]: the parsers and printers of [key{context=value,...}].  What a parser
    accepts is canonical, and the printed text of a canonical expression parses back to it. *)

From Stdlib Require Import String.
From S2P Require Import Prelude Texts Permissions PermissionRules.

#[local] Open Scope list_scope.
#[local] Open Scope steel_scope.

(** ** Contexts *)

Inductive PermissionExpressionContextError :=
| EmptyContext
| InvalidContextEntry (entry : text)
| InvalidContextValue (key value : text)
| DuplicateContextKey (key : text)
| InvalidDomainContext (domain : text)
| InvalidWorld (world : text)
| InvalidContextKey (key : text) (source : PermissionContextKeyError)
| InvalidRuleContext (error : PermissionRuleContextError).

(** [map_err]. *)
Definition map_err {A E F} (f : E -> F) (r : result A E) : result A F := match r with Ok a => Ok a | Err e => Err (f e) end.

Definition parse_domain_context (value : text) : result PermissionRuleContext PermissionExpressionContextError :=
  if bool_decide (value = []) || negb (validate_namespace value) then Err (InvalidDomainContext value)
  else map_err InvalidRuleContext (context_domain value).

Definition parse_world_context (value : text) : result PermissionRuleContext PermissionExpressionContextError :=
  match split_once COLON value with
  | None => Err (InvalidWorld value)
  | Some (domain, name) =>
      if bool_decide (domain = []) || bool_decide (name = []) || contains_char COLON name || contains_char SLASH name
         || negb (validate_namespace domain) || negb (validate_path name)
      then Err (InvalidWorld value)
      else Ok (World (mkIdentifier domain name))
  end.

Definition parse_custom_context (key value : text) : result PermissionRuleContext PermissionExpressionContextError :=
  let? key := map_err (InvalidContextKey key) (PermissionContextKey_parse key) in
  map_err InvalidRuleContext (context_custom key value).

(** One turn of the loop of [parse_context]: the key that it saw and the context. *)
Definition parse_context_entry (seen_keys : list text) (entry : text) : result (text * PermissionRuleContext) PermissionExpressionContextError :=
  match split_once EQUALS entry with
  | None => Err (InvalidContextEntry entry)
  | Some (key, context_value) =>
      if bool_decide (key = []) || bool_decide (context_value = []) then Err (InvalidContextEntry entry)
      else if existsb value_forbidden context_value then Err (InvalidContextValue key context_value)
      else if decide (key ∈ seen_keys) then Err (DuplicateContextKey key)
      else
        let? context := if decide (key = lit "domain") then parse_domain_context context_value
                        else if decide (key = lit "world") then parse_world_context context_value
                        else parse_custom_context key context_value in
        Ok (key, context)
  end.

Fixpoint parse_context_entries (entries : list text) (seen_keys : list text) (contexts : list PermissionRuleContext)
  : result (list PermissionRuleContext) PermissionExpressionContextError :=
  match entries with
  | [] => Ok contexts
  | entry :: entries =>
      let? found := parse_context_entry seen_keys entry in
      parse_context_entries entries (found.1 :: seen_keys) (contexts ++ [found.2])
  end.

Definition parse_context (value : text) : result PermissionRuleContext PermissionExpressionContextError :=
  if decide (value = []) then Err EmptyContext
  else
    let? contexts := parse_context_entries (split_on COMMA value) [] [] in
    map_err InvalidRuleContext (context_all contexts).

(** The formatter is the text that it has written so far; [first] is the flag of the entries. *)
Definition write_context_entry (out : text) (first : bool) (key value : text) : text * bool :=
  ((if first then out else out ++ [COMMA]) ++ key ++ EQUALS :: value, false).

Fixpoint write_context_entries (context : PermissionRuleContext) (out : text) (first : bool) : text * bool :=
  match context with
  | Global => (out, first)
  | Domain domain => write_context_entry out first (lit "domain") domain
  | World world => write_context_entry out first (lit "world") (identifier_text world)
  | Custom key value => write_context_entry out first key value
  | AllContexts contexts =>
      (fix go contexts out first := match contexts with
         | [] => (out, first)
         | context :: contexts => let '(out, first) := write_context_entries context out first in go contexts out first
         end) contexts out first
  end.

Definition write_context (out : text) (context : PermissionRuleContext) : text :=
  match context with
  | Global => out
  | context => (write_context_entries context (out ++ [OPEN_BRACE]) true).1 ++ [CLOSE_BRACE]
  end.

(** ** Expressions *)

(** The parser of both kinds of expressions, for a parser of the key.  The text ends with a
    closing brace exactly when the text after the opening brace does.  The constructors that
    repeat a context error are one, [ContextError]. *)
Inductive ExpressionError (KE : Type) := InvalidKey (value : text) (source : KE) | UnclosedContext | ContextError (error : PermissionExpressionContextError).
Arguments InvalidKey {KE}.
Arguments UnclosedContext {KE}.
Arguments ContextError {KE}.

Definition parse_expression {K KE} (parse_key : text -> result K KE) (value : text) : result (K * PermissionRuleContext) (ExpressionError KE) :=
  match split_once OPEN_BRACE value with
  | None => let? key := map_err (InvalidKey value) (parse_key value) in Ok (key, Global)
  | Some (key_value, rest) =>
      match strip_suffix [CLOSE_BRACE] rest with
      | None => Err UnclosedContext
      | Some context_value =>
          let? key := map_err (InvalidKey key_value) (parse_key key_value) in
          let? context := map_err ContextError (parse_context context_value) in
          Ok (key, context)
      end
  end.

Definition PermissionRuleExpression : Type := PermissionKey * PermissionRuleContext.
Definition PermissionRuleExpression_parse (value : text) : result PermissionRuleExpression (ExpressionError PermissionKeyError) :=
  parse_expression PermissionKey_parse value.
Definition rule_expression_text (e : PermissionRuleExpression) : text := write_context e.1 e.2.

Inductive PermissionMetadataKeyError :=
| MetadataInvalidFormat | MetadataEmptyNamespace | MetadataEmptyPath | MetadataInvalidNamespace | MetadataInvalidPath.

Definition parse_permission_metadata_key (value : text) : result Identifier PermissionMetadataKeyError :=
  match split_once COLON value with
  | None => Err MetadataInvalidFormat
  | Some (namespace, path) =>
      if decide (namespace = []) then Err MetadataEmptyNamespace
      else if decide (path = []) then Err MetadataEmptyPath
      else if contains_char COLON path then Err MetadataInvalidFormat
      else if existsb (fun piece => bool_decide (piece = [])) (split_on DOT namespace) then Err MetadataInvalidNamespace
      else if existsb (fun piece => bool_decide (piece = [])) (split_by (fun c => (c =? DOT) || (c =? SLASH)) path) then Err MetadataInvalidPath
      else if negb (validate_namespace namespace) then Err MetadataInvalidNamespace
      else if negb (validate_path path) then Err MetadataInvalidPath
      else Ok (mkIdentifier namespace path)
  end.

Definition PermissionMetadataExpression : Type := Identifier * PermissionRuleContext.
Definition PermissionMetadataExpression_parse (value : text) : result PermissionMetadataExpression (ExpressionError PermissionMetadataKeyError) :=
  parse_expression parse_permission_metadata_key value.
Definition metadata_expression_text (e : PermissionMetadataExpression) : text := write_context (identifier_text e.1) e.2.

Example parse_print : rule_expression_text <$> match PermissionRuleExpression_parse (lit "command.give{group=a,domain=lobby,world=lobby:spawn}") with Ok e => Some e | Err _ => None end
  = Some (lit "command.give{world=lobby:spawn,group=a}").
Proof. by vm_compute. Qed.

(** ** The order of contexts *)

Definition good_compare {A} (f : A -> A -> comparison) : Prop :=
  (forall a b, f b a = CompOpp (f a b)) /\ (forall a b c, f a b <> Gt -> f b c <> Gt -> f a c <> Gt).

Lemma good_Z {A} (f : A -> Z) : good_compare (fun a b => f a ?= f b).
Proof. split; intros; [apply Z.compare_antisym|]. rewrite Z.compare_le_iff in *. lia. Qed.

Lemma good_text {A} (f : A -> text) : good_compare (fun a b => text_compare (f a) (f b)).
Proof. split; intros; [apply text_compare_antisym|]. by apply (text_le_trans (f a) (f b) (f c)). Qed.

Lemma good_then {A} (f g : A -> A -> comparison) : good_compare f -> good_compare g -> good_compare (fun a b => then_compare (f a b) (g a b)).
Proof.
  intros [Hf Hf'] [Hg Hg']. split; intros a b; [rewrite Hf, Hg; by destruct (f a b)|]. intros c. pose proof (Hf' a b c) as H1.
  pose proof (Hf' c a b) as H2. pose proof (Hf' b c a) as H3. pose proof (Hg' a b c) as H4. rewrite (Hf a c), (Hf b c) in H2.
  rewrite (Hf a c), (Hf a b) in H3. unfold then_compare. destruct (f a b), (f b c), (f a c); simpl in *; naive_solver.
Qed.

(** The texts of a context in the order of their comparison. *)
Definition first_text (c : PermissionRuleContext) : text :=
  match c with Domain d => d | World w => id_namespace w | Custom k _ => k | _ => [] end.
Definition second_text (c : PermissionRuleContext) : text :=
  match c with World w => id_path w | Custom _ v => v | _ => [] end.

Lemma compare_texts a b :
  compare_rule_contexts a b =
    then_compare (rule_context_rank a ?= rule_context_rank b)
      (then_compare (text_compare (first_text a) (first_text b)) (text_compare (second_text a) (second_text b))).
Proof. unfold compare_rule_contexts. destruct a, b; try done; simpl; by destruct (text_compare _ _). Qed.

Lemma compare_good : good_compare compare_rule_contexts.
Proof.
  pose proof (good_then _ _ (good_Z rule_context_rank) (good_then _ _ (good_text first_text) (good_text second_text))) as [H1 H2].
  split; [intros a b; rewrite !compare_texts; apply H1|]. intros a b c. rewrite !compare_texts. apply H2.
Qed.

#[global] Instance context_le_trans : Transitive context_le.
Proof. intros a b c. apply compare_good. Qed.
#[global] Instance context_le_total : Total context_le.
Proof. intros a b. unfold context_le. rewrite (proj1 compare_good a b). destruct (compare_rule_contexts a b); simpl; auto. Qed.

(** A context that an entry of the text stands for. *)
Definition is_entry (c : PermissionRuleContext) : bool := match c with Domain _ | World _ | Custom _ _ => true | _ => false end.

Lemma context_le_antisym a b : is_entry a = true -> context_le a b -> context_le b a -> a = b.
Proof.
  unfold context_le. rewrite (proj1 compare_good a b). intros Ha H1 H2. assert (compare_rule_contexts a b = Eq) as E by (by destruct (compare_rule_contexts a b)).
  rewrite compare_texts in E. unfold then_compare in E. destruct (rule_context_rank a ?= rule_context_rank b) eqn:Er; try done.
  destruct (text_compare (first_text a) (first_text b)) eqn:E1; try done. apply text_compare_eq in E, E1. apply Z.compare_eq in Er.
  destruct a as [|d|w|k v|], b as [|d'|w'|k' v'|]; try done; simpl in *; [by subst| |by subst]. destruct w, w'; simpl in *. by subst.
Qed.

(** ** Canonical contexts *)

Definition entry_key (c : PermissionRuleContext) : text :=
  match c with Domain _ => lit "domain" | World _ => lit "world" | Custom k _ => k | _ => [] end.
Definition entry_value (c : PermissionRuleContext) : text :=
  match c with Domain d => d | World w => identifier_text w | Custom _ v => v | _ => [] end.
Definition entry_text (c : PermissionRuleContext) : text := entry_key c ++ EQUALS :: entry_value c.

Definition entry_ok (c : PermissionRuleContext) : Prop :=
  match c with
  | Domain d => d <> [] /\ validate_namespace d = true
  | World w => id_namespace w <> [] /\ id_path w <> [] /\ contains_char COLON (id_path w) = false /\ contains_char SLASH (id_path w) = false /\
               validate_namespace (id_namespace w) = true /\ validate_path (id_path w) = true
  | Custom k v => PermissionContextKey_parse k = Ok k /\ k <> lit "domain" /\ k <> lit "world" /\ v <> [] /\ existsb value_forbidden v = false
  | _ => False
  end.

Definition flat_entries (c : PermissionRuleContext) : list PermissionRuleContext :=
  match c with Global => [] | AllContexts l => l | c => [c] end.

(** No explicit domain beside a world. *)
Definition world_names_domain (l : list PermissionRuleContext) : Prop := find_domain l = None \/ find_world_domain l = None.

Definition entries_ok (l : list PermissionRuleContext) : Prop := Forall entry_ok l /\ NoDup (entry_key <$> l).

Definition context_ok (c : PermissionRuleContext) : Prop :=
  entries_ok (flat_entries c) /\ StronglySorted context_le (flat_entries c) /\ world_names_domain (flat_entries c) /\
  match c with AllContexts l => (2 <= length l)%nat | _ => True end.

(** ** Characters *)

Ltac char_solve :=
  unfold value_forbidden, valid_char, valid_namespace_char, segment_char, is_ascii_lowercase, is_ascii_digit, is_whitespace,
    DOT, STAR, COLON, SLASH, COMMA, EQUALS, OPEN_BRACE, CLOSE_BRACE in *; lia.

Lemma forallb_impl {A} (p q : A -> bool) l : (forall x, p x = true -> q x = true) -> forallb p l = true -> forallb q l = true.
Proof. rewrite !forallb_forall. auto. Qed.

Lemma forallb_not_in (p : Z -> bool) c (s : text) : forallb p s = true -> p c = false -> c ∉ s.
Proof. rewrite forallb_forall. intros H Hc Hin%list_elem_of_In. apply H in Hin. congruence. Qed.

Lemma existsb_forallb {A} (p : A -> bool) l : forallb (fun x => negb (p x)) l = true <-> existsb p l = false.
Proof. induction l as [|x l IH]; simpl; [done|]. rewrite andb_true_iff, orb_false_iff, negb_true_iff, IH. done. Qed.

Definition plain_char (c : Z) : bool := negb (value_forbidden c).

Lemma valid_plain s : forallb valid_char s = true -> forallb plain_char s = true.
Proof. apply forallb_impl. unfold plain_char. intros c Hc. apply negb_true_iff. char_solve. Qed.

Lemma namespace_valid s : validate_namespace s = true -> forallb valid_char s = true /\ (COLON ∉ s).
Proof.
  unfold validate_namespace. intros [_ H]%andb_true_iff. split; [|by eapply forallb_not_in].
  revert H. apply forallb_impl. intros c Hc. unfold valid_char. by rewrite Hc.
Qed.

Lemma path_valid s : validate_path s = true -> forallb valid_char s = true.
Proof. done. Qed.

Lemma namespaced_plain a b : forallb valid_char a = true -> forallb valid_char b = true -> forallb plain_char (a ++ COLON :: b) = true.
Proof. intros Ha Hb. rewrite forallb_app. cbn [forallb]. by rewrite !valid_plain. Qed.

Lemma context_key_plain k k' : PermissionContextKey_parse k = Ok k' -> k' = k /\ k <> [] /\ forallb plain_char k = true.
Proof.
  unfold PermissionContextKey_parse. destruct (contains_char COLON k) eqn:Ec.
  - unfold validate_namespaced_context_key. destruct (split_once COLON k) as [[ns path]|] eqn:E; [|done]. apply split_once_spec in E as [-> _].
    do 2 (case_decide; [done|]). destruct (contains_char COLON path); [done|]. do 2 (destruct (existsb _ _); [done|]).
    destruct (validate_namespace ns) eqn:En; [|done]. destruct (validate_path path) eqn:Ep; [|done]. intros [= <-]. split; [done|].
    split; [by destruct ns|]. apply namespaced_plain; [by apply namespace_valid|done].
  - unfold PermissionSegment_parse. case_decide as Hk; [done|]. destruct (contains_char STAR k); [done|]. unfold validate_permission_segment.
    destruct (forallb segment_char k) eqn:Ef; [|done]. intros [= <-]. split; [done|]. split; [done|].
    revert Ef. apply forallb_impl. intros c Hc. apply negb_true_iff. char_solve.
Qed.

Lemma entry_key_plain c : entry_ok c -> entry_key c <> [] /\ forallb plain_char (entry_key c) = true.
Proof. destruct c as [|d|w|k v|l]; simpl; try done. intros (Hk & _). by apply context_key_plain in Hk as (_ & Hne & Hp). Qed.

Lemma entry_value_plain c : entry_ok c -> entry_value c <> [] /\ forallb plain_char (entry_value c) = true.
Proof.
  destruct c as [|d|w|k v|l]; simpl; try done.
  - intros [Hd Hn]. split; [done|]. apply valid_plain. by apply namespace_valid.
  - intros (Hns & Hp & _ & _ & Hv & Hv'). split; [unfold identifier_text; by destruct (id_namespace w)|]. apply namespaced_plain; [by apply namespace_valid|done].
  - intros (_ & _ & _ & Hv & Hf). split; [done|]. by apply existsb_forallb.
Qed.

Lemma entry_text_plain c x : entry_ok c -> plain_char x = false -> x <> EQUALS -> x ∉ entry_text c.
Proof.
  intros Hc Hx Hne. unfold entry_text. rewrite elem_of_app, elem_of_cons. apply entry_key_plain in Hc as Hk. apply entry_value_plain in Hc as Hv.
  intros [H|[H|H]]; [|done|]; revert H; by eapply forallb_not_in; [apply Hk || apply Hv|].
Qed.

(** ** One entry *)

Lemma parse_entry_text c (seen : list text) : entry_ok c -> (entry_key c ∉ seen) -> parse_context_entry seen (entry_text c) = Ok (entry_key c, c).
Proof.
  intros Hc Hs. destruct (entry_key_plain c Hc) as [Hkne Hk]. destruct (entry_value_plain c Hc) as [Hvne Hv]. unfold parse_context_entry.
  assert (split_once EQUALS (entry_text c) = Some (entry_key c, entry_value c)) as ->.
  { apply split_once_spec. split; [done|]. by eapply forallb_not_in. }
  rewrite !bool_decide_false by done. cbn [orb]. rewrite (proj1 (existsb_forallb _ _) Hv). rewrite decide_False by done.
  destruct c as [|d|w|k v|l]; try done; cbn [entry_key entry_value] in *.
  - destruct Hc as [Hd Hn]. rewrite decide_True by done. unfold parse_domain_context, context_domain, PermissionDomain_parse.
    rewrite bool_decide_false by done. by rewrite Hn.
  - destruct Hc as (H1 & H2 & H3 & H4 & H5 & H6). rewrite decide_False, decide_True by done. unfold parse_world_context.
    assert (split_once COLON (identifier_text w) = Some (id_namespace w, id_path w)) as ->
      by (apply split_once_spec; split; [done|]; by apply namespace_valid).
    rewrite !bool_decide_false by done. rewrite H3, H4, H5, H6. by destruct w.
  - destruct Hc as (H1 & H2 & H3 & H4 & H5). rewrite !decide_False by done. unfold parse_custom_context. rewrite H1. cbn [map_err result_bind].
    unfold context_custom, PermissionContextValue_parse. rewrite bool_decide_false by done. by rewrite H5.
Qed.

Lemma parse_entry_ok (seen : list text) entry k c :
  parse_context_entry seen entry = Ok (k, c) -> entry_ok c /\ k = entry_key c /\ (entry_key c ∉ seen).
Proof.
  unfold parse_context_entry. destruct (split_once EQUALS entry) as [[key value]|]; [|done]. case_bool_decide as Hk; [done|]. case_bool_decide as Hv; [done|].
  cbn [orb]. destruct (existsb value_forbidden value) eqn:Ef; [done|]. case_decide as Hs; [done|]. case_decide as Hd.
  - unfold parse_domain_context, context_domain, PermissionDomain_parse. destruct (validate_namespace value) eqn:En; [|by rewrite orb_true_r].
    rewrite bool_decide_false by done. intros [= <- <-]. by subst.
  - case_decide as Hw.
    + unfold parse_world_context. destruct (split_once COLON value) as [[domain name]|] eqn:E; [|done]. destruct (_ || _) eqn:Eb; [done|].
      rewrite !orb_false_iff, !bool_decide_eq_false, !negb_false_iff in Eb. intros [= <- <-]. subst key. naive_solver.
    + unfold parse_custom_context. destruct (PermissionContextKey_parse key) as [key'|] eqn:Ek; [|done]. apply context_key_plain in Ek as E'. destruct E' as (-> & _).
      unfold context_custom, PermissionContextValue_parse. rewrite Ef, bool_decide_false by done. intros [= <- <-]. done.
Qed.

(** ** The entries of a context *)

Lemma parse_entries_text (l contexts : list PermissionRuleContext) (seen : list text) :
  Forall entry_ok l -> NoDup (entry_key <$> l) -> Forall (fun c => entry_key c ∉ seen) l ->
  parse_context_entries (entry_text <$> l) seen contexts = Ok (contexts ++ l).
Proof.
  revert contexts seen. induction l as [|c l IH]; intros contexts seen Hok Hnd Hs; [by rewrite app_nil_r|]. inversion Hok; inversion Hs; subst. rewrite fmap_cons in Hnd. apply NoDup_cons in Hnd as [Hin Hnd].
  cbn [fmap list_fmap parse_context_entries]. rewrite parse_entry_text by done. cbn [result_bind fst snd]. fold (@fmap list _ _ _ entry_text l). rewrite IH; [by rewrite <- app_assoc|done|done|].
  apply Forall_forall. intros c' Hc'. rewrite not_elem_of_cons. split; [|rewrite Forall_forall in *; auto].
  intros E. apply Hin. rewrite <- E. by apply list_elem_of_fmap_2.
Qed.

Lemma parse_context_entries_ok entries (seen : list text) (contexts l : list PermissionRuleContext) :
  entries_ok contexts -> (forall k, k ∈ seen <-> k ∈ entry_key <$> contexts) ->
  parse_context_entries entries seen contexts = Ok l -> entries_ok l /\ length l = (length contexts + length entries)%nat.
Proof.
  revert seen contexts. induction entries as [|entry entries IH]; intros seen contexts [Hok Hnd] Hs; cbn [parse_context_entries]; [intros [= <-]; simpl; split; [done|lia]|].
  destruct (parse_context_entry seen entry) as [[k c]|] eqn:E; [|done]. apply parse_entry_ok in E as (Hc & -> & Hk). cbn [result_bind fst snd].
  intros H. apply IH in H as [H1 H2].
  - split; [done|]. rewrite H2, length_app. simpl. lia.
  - split; [apply Forall_app; by rewrite Forall_singleton|]. rewrite fmap_app. apply NoDup_app. split; [done|]. split; [|apply NoDup_singleton].
    intros k Hk' ->%list_elem_of_singleton. apply Hk. by apply Hs.
  - intros k. rewrite fmap_app. change (entry_key <$> [c]) with [entry_key c]. rewrite elem_of_cons, elem_of_app, Hs, list_elem_of_singleton. tauto.
Qed.

(** ** Combining the entries *)

Lemma conflict_same_key a b r : entry_ok a -> entry_ok b -> push_conflict a b = Some r -> entry_key a = entry_key b.
Proof. destruct a, b; try done. simpl. intros _ _. by case_decide as E. Qed.

Lemma push_entry c (l : list PermissionRuleContext) : entry_ok c -> Forall entry_ok l -> (entry_key c ∉ entry_key <$> l) -> push_flattened l c = Ok (l ++ [c]).
Proof.
  intros Hc Hl Hk. assert (push_flattened l c = push_unique_context l c) as -> by (by destruct c). unfold push_unique_context.
  assert (omap (push_conflict c) l = []) as ->.
  { apply elem_of_nil_inv. intros r (b & Hb & E)%list_elem_of_omap. apply Hk. rewrite Forall_forall in Hl. rewrite (conflict_same_key c b r) by auto. by apply list_elem_of_fmap_2. }
  rewrite decide_False; [done|]. intros Hin. apply Hk. by apply list_elem_of_fmap_2.
Qed.

Lemma push_entries (l acc : list PermissionRuleContext) :
  Forall entry_ok (acc ++ l) -> NoDup (entry_key <$> acc ++ l) -> foldl (fun acc c => let? acc := acc in push_flattened acc c) (Ok acc) l = Ok (acc ++ l).
Proof.
  revert acc. induction l as [|c l IH]; intros acc Hok Hnd; [by rewrite app_nil_r|]. cbn [foldl result_bind]. rewrite push_entry.
  - rewrite IH; rewrite <- app_assoc; done.
  - apply Forall_app in Hok as [_ Hok]. by inversion Hok.
  - by apply Forall_app in Hok as [Hok _].
  - rewrite fmap_app, fmap_cons in Hnd. apply NoDup_app in Hnd as (_ & H & _). intros Hin. apply (H _ Hin). by left.
Qed.

Lemma find_domain_None l : find_domain l = None <-> Forall (fun c => is_domain c = false) l.
Proof. unfold find_domain. induction l as [|c l IH]; [done|]. destruct c; simpl; rewrite Forall_cons; simpl; rewrite <- ?IH; naive_solver. Qed.

Lemma normalize_ok (l l' : list PermissionRuleContext) :
  normalize_world_domain l = Ok l' -> world_names_domain l' /\ (exists p : PermissionRuleContext -> bool, l' = filter (fun c => p c = true) l) /\ (l <> [] -> l' <> []).
Proof.
  assert (l = filter (fun _ => true = true) l) as El by (induction l as [|c l IH]; [done|]; by rewrite filter_cons, decide_True, <- IH).
  unfold normalize_world_domain, world_names_domain. destruct (find_domain l) as [d|] eqn:Ed.
  2: { intros E; injection E as <-. split; [by left|]. split; [|done]. by exists (fun _ => true). }
  destruct (find_world_domain l) as [w|] eqn:Ew.
  2: { intros E; injection E as <-. split; [by right|]. split; [|done]. by exists (fun _ => true). }
  destruct (decide (d = w)); [|done]. intros E; injection E as <-. split; [|split].
  - left. apply find_domain_None, Forall_forall. intros c Hc. by apply list_elem_of_filter in Hc as [Hc _].
  - exists (fun c => negb (is_domain c)). apply list_filter_iff. intros c. by destruct (is_domain c).
  - intros _ E. unfold find_world_domain in Ew. apply head_Some_elem_of, list_elem_of_omap in Ew as (c & Hc & Ec). destruct c as [| |world| |]; try done.
    assert (World world ∈ @nil PermissionRuleContext) as Hn by (rewrite <- E; by apply list_elem_of_filter). by apply elem_of_nil in Hn.
Qed.

Lemma normalize_id (l : list PermissionRuleContext) : world_names_domain l -> normalize_world_domain l = Ok l.
Proof. unfold world_names_domain, normalize_world_domain. intros [-> | ->]; [done|]. by destruct (find_domain l). Qed.

Lemma entries_ok_filter (p : PermissionRuleContext -> bool) (l : list PermissionRuleContext) : entries_ok l -> entries_ok (filter (fun c => p c = true) l).
Proof.
  intros [H1 H2]. split; [apply Forall_forall; intros c [_ Hc]%list_elem_of_filter; rewrite Forall_forall in H1; by apply H1|].
  eapply sublist_NoDup; [exact H2|]. apply fmap_sublist, sublist_filter.
Qed.

Lemma entries_ok_perm (l l' : list PermissionRuleContext) : l ≡ₚ l' -> entries_ok l -> entries_ok l'.
Proof. intros H [H1 H2]. split; by rewrite <- H. Qed.

Lemma find_perm_None (l l' : list PermissionRuleContext) : l ≡ₚ l' -> world_names_domain l -> world_names_domain l'.
Proof.
  unfold world_names_domain, find_domain, find_world_domain. intros H. rewrite !head_None.
  intros [E|E]; [left|right]; (eapply Permutation_nil_r; rewrite <- E; by rewrite H).
Qed.

Lemma entry_flat c : entry_ok c -> flat_entries c = [c].
Proof. by destruct c. Qed.

(** The combination of the entries of a text is canonical, *)
Lemma context_all_ok (l : list PermissionRuleContext) c : entries_ok l -> l <> [] -> context_all l = Ok c -> context_ok c /\ c <> Global.
Proof.
  intros [Hok Hnd] Hne. unfold context_all. rewrite push_entries by done. cbn [app result_bind].
  destruct (normalize_world_domain l) as [l'|] eqn:E; [|done]. apply normalize_ok in E as (Hw & [p ->] & Hne'). cbn [result_bind]. specialize (Hne' Hne).
  set (m := filter _ l) in *. assert (merge_sort context_le m ≡ₚ m) as Hp by apply merge_sort_Permutation.
  assert (entries_ok (merge_sort context_le m)) as Hm by (eapply entries_ok_perm; [symmetry; exact Hp|by apply entries_ok_filter]).
  assert (world_names_domain (merge_sort context_le m)) as Hw' by (by eapply find_perm_None; [symmetry; exact Hp|]).
  pose proof (StronglySorted_merge_sort context_le m) as Hs. destruct (merge_sort context_le m) as [|a [|b rest]].
  - by apply Permutation_nil_l in Hp.
  - intros [= <-]. destruct Hm as [Hm1 Hm2]. inversion Hm1; subst. unfold context_ok. rewrite entry_flat by done. split; [|by intros ->]. split; [done|].
    split; [done|]. split; [done|]. by destruct a.
  - intros [= <-]. split; [|done]. split; [done|]. split; [done|]. split; [done|]. simpl. lia.
Qed.

(** and a canonical context is the combination of its own entries. *)
Lemma context_all_id c : context_ok c -> c <> Global -> context_all (flat_entries c) = Ok c.
Proof.
  intros ([Hok Hnd] & Hs & Hw & Hl) Hne. unfold context_all. rewrite push_entries by done. cbn [app result_bind]. rewrite normalize_id by done. cbn [result_bind].
  assert (merge_sort context_le (flat_entries c) = flat_entries c) as ->.
  { eapply (Sorted_unique_strong context_le); [|apply StronglySorted_Sorted, StronglySorted_merge_sort; apply _|by apply StronglySorted_Sorted|apply merge_sort_Permutation].
    intros a b Ha _ H1 H2. apply context_le_antisym; [|done|done]. rewrite Forall_forall in Hok. specialize (Hok a). rewrite merge_sort_Permutation in Ha.
    specialize (Hok Ha). by destruct a. }
  destruct c as [|d|w|k v|[|a [|b l]]]; try done; simpl in Hl; lia.
Qed.

(** ** The printed text *)

Lemma write_entry c out first : entry_ok c -> write_context_entries c out first = ((if first then out else out ++ [COMMA]) ++ entry_text c, false).
Proof. by destruct c. Qed.

Lemma write_all_cons c l out first :
  write_context_entries (AllContexts (c :: l)) out first =
    (let '(out, first) := write_context_entries c out first in write_context_entries (AllContexts l) out first).
Proof. simpl. by destruct (write_context_entries c out first). Qed.

Lemma write_more l out : Forall entry_ok l -> write_context_entries (AllContexts l) out false = (out ++ concat (cons COMMA ∘ entry_text <$> l), false).
Proof.
  intros H. revert out. induction H as [|c l Hc _ IH]; intros out; [by rewrite app_nil_r|]. rewrite write_all_cons, write_entry by done. rewrite IH. simpl.
  by rewrite <- !app_assoc.
Qed.

Lemma join_cons c piece pieces : join c (piece :: pieces) = piece ++ concat (cons c <$> pieces).
Proof.
  revert piece. induction pieces as [|piece' pieces IH]; intros piece; [simpl; by rewrite app_nil_r|]. cbn [join]. cbn [join] in IH. rewrite IH. done.
Qed.

Lemma write_context_text c out : context_ok c -> c <> Global -> write_context out c = out ++ OPEN_BRACE :: join COMMA (entry_text <$> flat_entries c) ++ [CLOSE_BRACE].
Proof.
  intros ([Hok _] & _ & _ & Hl) Hne. assert (write_context out c = (write_context_entries (AllContexts (flat_entries c)) (out ++ [OPEN_BRACE]) true).1 ++ [CLOSE_BRACE]) as ->.
  { destruct c; done. }
  destruct (flat_entries c) as [|e l] eqn:E; [destruct c; simpl in E; try done; subst; simpl in Hl; lia|]. inversion Hok; subst.
  rewrite write_all_cons, write_entry by done. rewrite write_more by done. cbn [fst]. rewrite fmap_cons, join_cons, <- list_fmap_compose.
  by rewrite <- !app_assoc.
Qed.

Lemma parse_context_ok value c : parse_context value = Ok c -> context_ok c /\ c <> Global.
Proof.
  unfold parse_context. case_decide; [done|]. destruct (parse_context_entries (split_on COMMA value) [] []) as [l|] eqn:E; [|done]. cbn [result_bind].
  apply parse_context_entries_ok in E as [Hok Hl]; [|split; [done|apply NoDup_nil_2]|done]. destruct (context_all l) as [c'|] eqn:Ec; [|done].
  intros [= <-]. apply context_all_ok in Ec; [done|done|]. intros ->. destruct (split_ne COMMA value). apply nil_length_inv. simpl in Hl. lia.
Qed.

Lemma parse_context_text c : context_ok c -> c <> Global -> parse_context (join COMMA (entry_text <$> flat_entries c)) = Ok c.
Proof.
  intros Hc Hne. pose proof Hc as ([Hok Hnd] & _ & _ & Hl). assert (flat_entries c <> []) as Hfne.
  { intros E. destruct c; simpl in E; try done. subst. simpl in Hl. lia. }
  unfold parse_context. rewrite decide_False.
  2: { destruct (flat_entries c) as [|e l]; [done|]. rewrite fmap_cons, join_cons. unfold entry_text. by destruct (entry_key e). }
  rewrite split_join.
  - rewrite parse_entries_text; [|done|done|apply Forall_forall; intros e _; apply not_elem_of_nil]. cbn [result_bind app]. by rewrite context_all_id.
  - by destruct (flat_entries c).
  - apply Forall_fmap. eapply Forall_impl; [exact Hok|]. intros e He. by apply entry_text_plain.
Qed.

Section Expression.
  Context {K KE : Type} (parse_key : text -> result K KE) (key_text : K -> text) (key_ok : K -> Prop).
  Context (key_parsed : forall value key, parse_key value = Ok key -> key_ok key).
  Context (key_printed : forall key, key_ok key -> parse_key (key_text key) = Ok key /\ (OPEN_BRACE ∉ key_text key)).

Definition expression_ok (e : K * PermissionRuleContext) : Prop := key_ok e.1 /\ context_ok e.2.

Lemma context_ok_global : context_ok Global.
Proof. split; [split; [done|apply NoDup_nil_2]|]. split; [constructor|]. split; [by left|done]. Qed.

Lemma parsed_expression_ok value e : parse_expression parse_key value = Ok e -> expression_ok e.
Proof.
  unfold parse_expression. destruct (split_once OPEN_BRACE value) as [[key_value rest]|].
  - destruct (strip_suffix [CLOSE_BRACE] rest) as [context_value|]; [|done]. destruct (parse_key key_value) as [key|] eqn:Ek; [|done]. cbn [map_err result_bind].
    destruct (parse_context context_value) as [c|] eqn:Ec; [|done]. intros [= <-]. split; [by eapply key_parsed|]. by apply parse_context_ok in Ec as [Ec _].
  - destruct (parse_key value) as [key|] eqn:Ek; [|done]. intros [= <-]. split; [by eapply key_parsed|apply context_ok_global].
Qed.

Lemma printed_expression_parses e : expression_ok e -> parse_expression parse_key (write_context (key_text e.1) e.2) = Ok e.
Proof.
  destruct e as [key c]. intros [Hk Hc]. cbn [fst snd] in *. apply key_printed in Hk as [Hk Hb]. unfold parse_expression. destruct (decide (c = Global)) as [->|Hne].
  - cbn [write_context]. rewrite (proj2 (split_once_None _ _)) by done. by rewrite Hk.
  - rewrite write_context_text by done. rewrite (proj2 (split_once_spec OPEN_BRACE _ (key_text key) (join COMMA (entry_text <$> flat_entries c) ++ [CLOSE_BRACE]))) by done.
    rewrite (proj2 (strip_suffix_spec _ _ _)) by done. rewrite Hk. cbn [map_err result_bind]. by rewrite parse_context_text.
Qed.
End Expression.

(** ** Rules and metadata *)

Lemma split_elem c x (s : text) : x ∈ s -> x <> c -> exists t : text, t ∈ split_on c s /\ x ∈ t.
Proof.
  unfold split_on. induction s as [|y s IH]; [by intros Hn%elem_of_nil|]. intros Hx Hne. cbn [split_by].
  destruct (split_by_cons (Z.eqb c) s) as (piece & pieces & E). rewrite E in *. destruct (Z.eqb_spec c y) as [->|Hy].
  - apply elem_of_cons in Hx as [->|Hx]; [done|]. destruct (IH Hx Hne) as (t & Ht & Hxt). exists t. split; [by right|done].
  - apply elem_of_cons in Hx as [->|Hx]; [exists (y :: piece); split; by left|]. destruct (IH Hx Hne) as (t & [->|Ht]%elem_of_cons & Hxt).
    + exists (y :: piece). split; [by left|by right].
    + exists t. split; [by right|done].
Qed.

Lemma validated_chars l t x : validate_segments l = Ok tt -> t ∈ l -> x ∈ t -> segment_char x = true \/ x = STAR.
Proof.
  induction l as [|p l IH]; [by intros _ Hn%elem_of_nil|]. cbn [validate_segments]. case_decide; [done|]. case_decide as Hs.
  - case_decide as Hl; [|done]. subst. intros _ ->%list_elem_of_singleton Hx. right. by apply list_elem_of_singleton in Hx.
  - destruct (contains_char STAR p); [done|]. unfold validate_permission_segment. destruct (forallb segment_char p) eqn:Ef; [|done]. cbn [result_bind].
    intros Hv [->|Ht]%elem_of_cons Hx; [|by apply IH]. left. rewrite forallb_forall in Ef. by apply Ef, list_elem_of_In.
Qed.

Lemma key_printed key : PermissionKey_parse key = Ok key -> PermissionKey_parse key = Ok key /\ (OPEN_BRACE ∉ key).
Proof.
  intros H. split; [done|]. unfold PermissionKey_parse in H. case_decide; [done|]. destruct (validate_segments _) as [[]|] eqn:E; [|done].
  intros Hx. apply (split_elem DOT) in Hx as (t & Ht & Hx); [|done]. by destruct (validated_chars _ _ _ E Ht Hx) as [Hc|Hc].
Qed.

Lemma metadata_key_parsed value key : parse_permission_metadata_key value = Ok key -> value = identifier_text key.
Proof.
  unfold parse_permission_metadata_key. destruct (split_once COLON value) as [[ns path]|] eqn:E; [|done]. apply split_once_spec in E as [-> _].
  do 2 (case_decide; [done|]). destruct (contains_char COLON path); [done|]. do 2 (destruct (existsb _ _); [done|]).
  destruct (validate_namespace ns) eqn:En; [|done]. destruct (validate_path path) eqn:Ep; [|done]. by intros [= <-].
Qed.

Lemma metadata_key_printed key : parse_permission_metadata_key (identifier_text key) = Ok key ->
  parse_permission_metadata_key (identifier_text key) = Ok key /\ (OPEN_BRACE ∉ identifier_text key).
Proof.
  intros H. split; [done|]. unfold parse_permission_metadata_key in H. destruct (split_once COLON _) as [[ns path]|] eqn:E; [|done].
  apply split_once_spec in E as [E _]. rewrite E. revert H. do 2 (case_decide; [done|]). destruct (contains_char COLON path); [done|].
  do 2 (destruct (existsb _ _); [done|]). destruct (validate_namespace ns) eqn:En; [|done]. destruct (validate_path path) eqn:Ep; [|done].
  intros _. eapply forallb_not_in; [apply namespaced_plain; [by apply namespace_valid|done]|done].
Qed.

Definition rule_expression_ok : PermissionRuleExpression -> Prop := expression_ok (fun key => PermissionKey_parse key = Ok key).
Definition metadata_expression_ok : PermissionMetadataExpression -> Prop :=
  expression_ok (fun key => parse_permission_metadata_key (identifier_text key) = Ok key).

Lemma rule_expression_parsed value e : PermissionRuleExpression_parse value = Ok e -> rule_expression_ok e.
Proof. apply parsed_expression_ok. intros v key H. by apply parsed_key in H as E; destruct E as [-> _]. Qed.

Lemma rule_expression_printed e : rule_expression_ok e -> PermissionRuleExpression_parse (rule_expression_text e) = Ok e.
Proof. apply (printed_expression_parses PermissionKey_parse id). apply key_printed. Qed.

Lemma metadata_expression_parsed value e : PermissionMetadataExpression_parse value = Ok e -> metadata_expression_ok e.
Proof. apply parsed_expression_ok. intros v key H. by rewrite <- (metadata_key_parsed v key H). Qed.

Lemma metadata_expression_printed e : metadata_expression_ok e -> PermissionMetadataExpression_parse (metadata_expression_text e) = Ok e.
Proof. apply (printed_expression_parses parse_permission_metadata_key identifier_text). apply metadata_key_printed. Qed.
