(* ===== verification/PermissionSubjects.v ===== *)
(** * Permission subjects and their file

    Models the metadata sets of [steel-core/src/permission/metadata.rs], the subject states of
    [subject.rs] and their conversion to and from the persisted form
    ([steel-core/src/player/player_data_storage/permissions.rs]).  A saved subject reloads
    with the same groups and metadata, and every request is decided as before. *)

From Stdlib Require Import String.
From S2P Require Import Prelude Texts Permissions PermissionRules PermissionExpressions.

#[local] Open Scope list_scope.
#[local] Open Scope steel_scope.

(** ** Metadata *)

Inductive PermissionMetadataValue := MetadataBool (value : bool) | MetadataInteger (value : Z) | MetadataString (value : text).

Record PermissionMetadataEntry := mkMetadata { me_key : Identifier; me_context : PermissionRuleContext; me_value : PermissionMetadataValue }.

Definition PermissionMetadataSet : Type := list (PermissionMetadataEntry * PermissionResolutionSource).

Definition metadata_from_entries (entries : list PermissionMetadataEntry) : PermissionMetadataSet := (fun e => (e, Subject)) <$> entries.
Definition metadata_entries (set : PermissionMetadataSet) : list PermissionMetadataEntry := set.*1.
Definition metadata_push (set : PermissionMetadataSet) (entry : PermissionMetadataEntry) : PermissionMetadataSet := set ++ [(entry, Subject)].
Definition metadata_push_group (set : PermissionMetadataSet) (entry : PermissionMetadataEntry) (group : text) (priority : Z) : PermissionMetadataSet :=
  set ++ [(entry, Group group priority)].

Definition metadata_keeps (key : Identifier) (context : PermissionRuleContext) (entry : PermissionMetadataEntry) : bool :=
  negb (bool_decide (me_key entry = key)) || negb (bool_decide (me_context entry = context)).
Definition metadata_retain (keep : PermissionMetadataEntry -> bool) (set : PermissionMetadataSet) : PermissionMetadataSet :=
  filter (fun p => keep p.1 = true) set.

Definition metadata_set_in (set : PermissionMetadataSet) (key : Identifier) (context : PermissionRuleContext) (value : PermissionMetadataValue)
  : PermissionMetadataSet :=
  metadata_push (metadata_retain (metadata_keeps key context) set) (mkMetadata key context value).
Definition metadata_unset_in (set : PermissionMetadataSet) (key : Identifier) (context : PermissionRuleContext) : PermissionMetadataSet * bool :=
  let set' := metadata_retain (metadata_keeps key context) set in (set', negb (bool_decide (length set' = length set))).

Record PermissionMetadataCandidate := mkMetadataCandidate { mc_index : nat; mc_context_specificity : nat; mc_source : PermissionResolutionSource }.

(** The order of candidates as a list of numbers, compared lexicographically. *)
Definition metadata_order (c : PermissionMetadataCandidate) : list Z :=
  [Z.of_nat (mc_context_specificity c); Z.of_nat (source_rank (mc_source c)); tie_priority (mc_source c); Z.of_nat (mc_index c)].

Definition metadata_candidate (key : Identifier) (context : PermissionContext) (index : nat) (rule : PermissionMetadataEntry * PermissionResolutionSource)
  : option PermissionMetadataCandidate :=
  let '(entry, source) := rule in
  if negb (bool_decide (me_key entry = key)) || negb (context_matches (me_context entry) context) then None
  else Some (mkMetadataCandidate index (context_specificity (me_context entry)) source).

Definition push_metadata_candidate (best : option PermissionMetadataCandidate) (candidate : PermissionMetadataCandidate) : option PermissionMetadataCandidate :=
  match best with
  | None => Some candidate
  | Some current => match text_compare (metadata_order candidate) (metadata_order current) with Gt => Some candidate | _ => best end
  end.

Definition metadata_best_candidate (set : PermissionMetadataSet) (key : Identifier) (context : PermissionContext) : option PermissionMetadataCandidate :=
  foldl push_metadata_candidate None (omap id (imap (metadata_candidate key context) set)).

(** An index out of range is a panic, the outer [None]. *)
Definition metadata_resolve_in (set : PermissionMetadataSet) (key : Identifier) (context : PermissionContext) : option (option PermissionMetadataValue) :=
  match metadata_best_candidate set key context with
  | None => Some None
  | Some candidate => p ← set !! mc_index candidate; Some (Some (me_value p.1))
  end.

(** ** Subjects *)

Record PermissionSubjectState := mkSubject { su_groups : list text; su_overrides : PermissionSet; su_metadata : PermissionMetadataSet }.

Definition subject_is_empty (state : PermissionSubjectState) : bool :=
  bool_decide (su_groups state = []) && bool_decide (length (su_overrides state) = 0%nat) && bool_decide (length (su_metadata state) = 0%nat).

(** ** The persisted form *)

Record PlayerPermissionEntryFile := mkEntryFile {
  ef_groups : list text;
  ef_allow : list text;
  ef_deny : list text;
  ef_metadata : list (text * PermissionMetadataValue);
}.

(** The [InvalidData] errors by what they report. *)
Inductive SubjectFileError :=
| InvalidPermissionGroup (group : text) (error : PermissionKeyError)
| InvalidOverride (state : PermissionState) (error : ExpressionError PermissionKeyError)
| InvalidMetadata (error : ExpressionError PermissionMetadataKeyError).

(** One turn of the loop over the overrides. *)
Definition push_expression (lists : list text * list text) (entry : PermissionEntry) : list text * list text :=
  let '(allow, deny) := lists in
  let expression := rule_expression_text (pe_key entry, pe_context entry) in
  match pe_state entry with Allow => (allow ++ [expression], deny) | Deny => (allow, deny ++ [expression]) end.

Definition from_subject_state (state : PermissionSubjectState) : PlayerPermissionEntryFile :=
  let '(allow, deny) := foldl push_expression ([], []) (set_entries (su_overrides state)) in
  mkEntryFile (su_groups state) allow deny
    ((fun e => (metadata_expression_text (me_key e, me_context e), me_value e)) <$> metadata_entries (su_metadata state)).

Fixpoint validate_groups (groups : list text) : result unit SubjectFileError :=
  match groups with
  | [] => Ok tt
  | group :: groups => let? _ := map_err (InvalidPermissionGroup group) (PermissionSegment_parse group) in validate_groups groups
  end.

(** The loops over [allow] and [deny]. *)
Fixpoint push_overrides (state : PermissionState) (expressions : list text) (overrides : PermissionSet) : result PermissionSet SubjectFileError :=
  match expressions with
  | [] => Ok overrides
  | expression :: expressions =>
      let? e := map_err (InvalidOverride state) (PermissionRuleExpression_parse expression) in
      push_overrides state expressions (set_push overrides (mkPermission e.1 e.2 state))
  end.

Fixpoint push_metadata_rules (rules : list (text * PermissionMetadataValue)) (metadata : PermissionMetadataSet)
  : result PermissionMetadataSet SubjectFileError :=
  match rules with
  | [] => Ok metadata
  | (expression, value) :: rules =>
      let? e := map_err InvalidMetadata (PermissionMetadataExpression_parse expression) in
      push_metadata_rules rules (metadata_push metadata (mkMetadata e.1 e.2 value))
  end.

Definition into_subject_state (entry : PlayerPermissionEntryFile) : result PermissionSubjectState SubjectFileError :=
  let? _ := validate_groups (ef_groups entry) in
  let? overrides := push_overrides Allow (ef_allow entry) [] in
  let? overrides := push_overrides Deny (ef_deny entry) overrides in
  let? metadata := push_metadata_rules (ef_metadata entry) [] in
  Ok (mkSubject (ef_groups entry) overrides metadata).

Abbreviation PermissionSubjectIndex := (gmap Z PermissionSubjectState).
Abbreviation PlayerPermissionsFile := (gmap text PlayerPermissionEntryFile).

(** UUIDs are numbers; their text is that of the [uuid] library. *)
Section Index.
  Context (uuid_text : Z -> text) (parse_uuid : text -> option Z).

Definition set_permission_subject (file : PlayerPermissionsFile) (uuid : Z) (state : PermissionSubjectState) : PlayerPermissionsFile :=
  if subject_is_empty state then delete (uuid_text uuid) file else <[uuid_text uuid := from_subject_state state]> file.

Definition from_subject_index (subjects : PermissionSubjectIndex) : PlayerPermissionsFile :=
  foldl (fun file p => set_permission_subject file p.1 p.2) ∅ (btree_entries Z.le subjects).

Inductive PermissionsFileError := InvalidUuid (uuid : text) | DuplicateUuid (uuid : text) | InvalidSubject (uuid : Z) (error : SubjectFileError).

Fixpoint push_subjects (players : list (text * PlayerPermissionEntryFile)) (subjects : PermissionSubjectIndex)
  : result PermissionSubjectIndex PermissionsFileError :=
  match players with
  | [] => Ok subjects
  | (uuid_text, entry) :: players =>
      match parse_uuid uuid_text with
      | None => Err (InvalidUuid uuid_text)
      | Some uuid =>
          match subjects !! uuid with
          | Some _ => Err (DuplicateUuid uuid_text)
          | None =>
              let? state := map_err (InvalidSubject uuid) (into_subject_state entry) in
              push_subjects players (<[uuid := state]> subjects)
          end
      end
  end.

Definition into_subject_index (file : PlayerPermissionsFile) : result PermissionSubjectIndex PermissionsFileError :=
  push_subjects (btree_entries text_le file) ∅.
End Index.

(** ** What reaches a subject state *)

(** Groups are segments and rules are parsed expressions with the source [Subject]. *)
Definition subject_ok (state : PermissionSubjectState) : Prop :=
  validate_groups (su_groups state) = Ok tt /\
  Forall (fun p => rule_expression_ok (pe_key p.1, pe_context p.1) /\ p.2 = Subject) (su_overrides state) /\
  Forall (fun p => metadata_expression_ok (me_key p.1, me_context p.1) /\ p.2 = Subject) (su_metadata state).

(** The states that are read from the file, and their edits with parsed expressions. *)
Inductive edited : PermissionSubjectState -> Prop :=
| edited_file entry state : into_subject_state entry = Ok state -> edited state
| edited_groups state groups : edited state -> validate_groups groups = Ok tt -> edited (mkSubject groups (su_overrides state) (su_metadata state))
| edited_set state text e value : edited state -> PermissionRuleExpression_parse text = Ok e ->
    edited (mkSubject (su_groups state) (set_in (su_overrides state) e.1 e.2 value) (su_metadata state))
| edited_unset state key context : edited state ->
    edited (mkSubject (su_groups state) (unset_in (su_overrides state) key context).1 (su_metadata state))
| edited_set_metadata state text e value : edited state -> PermissionMetadataExpression_parse text = Ok e ->
    edited (mkSubject (su_groups state) (su_overrides state) (metadata_set_in (su_metadata state) e.1 e.2 value))
| edited_unset_metadata state key context : edited state ->
    edited (mkSubject (su_groups state) (su_overrides state) (metadata_unset_in (su_metadata state) key context).1).

Lemma push_overrides_ok value expressions (overrides overrides' : PermissionSet) :
  push_overrides value expressions overrides = Ok overrides' ->
  Forall (fun p => rule_expression_ok (pe_key p.1, pe_context p.1) /\ p.2 = Subject) overrides ->
  Forall (fun p => rule_expression_ok (pe_key p.1, pe_context p.1) /\ p.2 = Subject) overrides'.
Proof.
  revert overrides. induction expressions as [|expression expressions IH]; intros overrides; cbn [push_overrides]; [by intros [= <-]|].
  destruct (PermissionRuleExpression_parse expression) as [e|] eqn:E; [|done]. cbn [map_err result_bind]. intros H Hok. apply (IH _ H).
  unfold set_push. rewrite Forall_app, Forall_singleton. split; [done|]. split; [|done]. apply rule_expression_parsed in E. by destruct e.
Qed.

Lemma push_metadata_ok rules (metadata metadata' : PermissionMetadataSet) :
  push_metadata_rules rules metadata = Ok metadata' ->
  Forall (fun p => metadata_expression_ok (me_key p.1, me_context p.1) /\ p.2 = Subject) metadata ->
  Forall (fun p => metadata_expression_ok (me_key p.1, me_context p.1) /\ p.2 = Subject) metadata'.
Proof.
  revert metadata. induction rules as [|[expression value] rules IH]; intros metadata; cbn [push_metadata_rules]; [by intros [= <-]|].
  destruct (PermissionMetadataExpression_parse expression) as [e|] eqn:E; [|done]. cbn [map_err result_bind]. intros H Hok. apply (IH _ H).
  unfold metadata_push. rewrite Forall_app, Forall_singleton. split; [done|]. split; [|done]. apply metadata_expression_parsed in E. by destruct e.
Qed.

Lemma read_subject_ok entry state : into_subject_state entry = Ok state -> subject_ok state.
Proof.
  unfold into_subject_state. destruct (validate_groups (ef_groups entry)) as [[]|] eqn:Eg; [|done]. cbn [result_bind].
  destruct (push_overrides Allow (ef_allow entry) []) as [o1|] eqn:E1; [|done]. cbn [result_bind].
  destruct (push_overrides Deny (ef_deny entry) o1) as [o2|] eqn:E2; [|done]. cbn [result_bind].
  destruct (push_metadata_rules (ef_metadata entry) []) as [m|] eqn:Em; [|done]. intros [= <-].
  split; [done|]. split; [|by eapply push_metadata_ok]. eapply push_overrides_ok; [exact E2|]. by eapply push_overrides_ok.
Qed.

Lemma Forall_list_filter {A} (P : A -> Prop) (Q : A -> Prop) `{forall x, Decision (Q x)} (l : list A) : Forall P l -> Forall P (filter Q l).
Proof. rewrite !Forall_forall. intros H1 x [_ Hx]%list_elem_of_filter. auto. Qed.

Lemma edited_ok state : edited state -> subject_ok state.
Proof.
  induction 1 as [entry state H|state groups _ (Hg & Ho & Hm) H|state text e value _ (Hg & Ho & Hm) H|state key context _ (Hg & Ho & Hm)
    |state text e value _ (Hg & Ho & Hm) H|state key context _ (Hg & Ho & Hm)]; [by eapply read_subject_ok|done|..]; (split; [done|]); (split; [|try done]); try done; cbn [su_overrides su_metadata].
  - unfold set_in, set_push. rewrite Forall_app, Forall_singleton. split; [by apply Forall_list_filter|]. split; [|done]. apply rule_expression_parsed in H. by destruct e.
  - by apply Forall_list_filter.
  - unfold metadata_set_in, metadata_push. rewrite Forall_app, Forall_singleton. split; [by apply Forall_list_filter|]. split; [|done].
    apply metadata_expression_parsed in H. by destruct e.
  - by apply Forall_list_filter.
Qed.

(** ** Saving and reading again *)

Definition with_state (value : PermissionState) (set : list (PermissionEntry * PermissionResolutionSource)) : PermissionSet := filter (fun p => pe_state p.1 = value) set.

(** The subject that is read back: the allowing overrides come first. *)
Definition reloaded (state : PermissionSubjectState) : PermissionSubjectState :=
  mkSubject (su_groups state) (with_state Allow (su_overrides state) ++ with_state Deny (su_overrides state)) (su_metadata state).

Definition override_texts (set : PermissionSet) : list text := (fun p => rule_expression_text (pe_key p.1, pe_context p.1)) <$> set.

Lemma push_expressions_spec (set : PermissionSet) allow deny :
  foldl push_expression (allow, deny) (set_entries set) = (allow ++ override_texts (with_state Allow set), deny ++ override_texts (with_state Deny set)).
Proof.
  revert allow deny. unfold set_entries, with_state, override_texts. induction set as [|[entry source] set IH]; intros allow deny; [by rewrite !app_nil_r|].
  rewrite !filter_cons. cbn [fmap list_fmap foldl fst push_expression]. destruct (pe_state entry) eqn:E.
  - rewrite decide_True, decide_False by done. etrans; [apply IH|]. by rewrite <- app_assoc.
  - rewrite decide_False, decide_True by done. etrans; [apply IH|]. by rewrite <- app_assoc.
Qed.

Lemma push_overrides_text value (set overrides : PermissionSet) :
  Forall (fun p => rule_expression_ok (pe_key p.1, pe_context p.1) /\ p.2 = Subject) set -> Forall (fun p => pe_state p.1 = value) set ->
  push_overrides value (override_texts set) overrides = Ok (overrides ++ set).
Proof.
  revert overrides. induction set as [|[entry source] set IH]; intros overrides Hok Hv; [by rewrite app_nil_r|]. inversion Hok as [|? ? [He Hs]]; inversion Hv; subst. cbn [fst snd] in *.
  unfold override_texts. cbn [fmap list_fmap push_overrides fst]. rewrite rule_expression_printed by done. cbn [map_err result_bind fst snd].
  etrans; [apply IH; done|]. unfold set_push. rewrite <- app_assoc. subst. by destruct entry.
Qed.

Lemma push_metadata_text (set metadata : PermissionMetadataSet) :
  Forall (fun p => metadata_expression_ok (me_key p.1, me_context p.1) /\ p.2 = Subject) set ->
  push_metadata_rules ((fun e => (metadata_expression_text (me_key e, me_context e), me_value e)) <$> metadata_entries set) metadata = Ok (metadata ++ set).
Proof.
  revert metadata. induction set as [|[entry source] set IH]; intros metadata Hok; [by rewrite app_nil_r|]. inversion Hok as [|? ? [He Hs]]; subst. cbn [fst snd] in *.
  unfold metadata_entries. cbn [fmap list_fmap push_metadata_rules fst]. rewrite metadata_expression_printed by done. cbn [map_err result_bind fst snd].
  etrans; [apply IH; done|]. unfold metadata_push. rewrite <- app_assoc. subst. by destruct entry.
Qed.

Lemma reload_subject state : subject_ok state -> into_subject_state (from_subject_state state) = Ok (reloaded state).
Proof.
  intros (Hg & Ho & Hm). unfold from_subject_state. rewrite push_expressions_spec. unfold into_subject_state. cbn [ef_groups ef_allow ef_deny ef_metadata app]. rewrite Hg. cbn [result_bind].
  assert (forall value, Forall (fun p => pe_state p.1 = value) (with_state value (su_overrides state))) as Hs
    by (intros value; apply Forall_forall; by intros p [Hp _]%list_elem_of_filter).
  rewrite push_overrides_text; [|by apply Forall_list_filter|done]. cbn [result_bind]. rewrite push_overrides_text; [|by apply Forall_list_filter|done].
  cbn [result_bind]. by rewrite push_metadata_text.
Qed.

Lemma with_state_perm (set : PermissionSet) : with_state Allow set ++ with_state Deny set ≡ₚ set.
Proof.
  unfold with_state. induction set as [|[entry source] set IH]; [done|]. rewrite !filter_cons. cbn [fst]. destruct (pe_state entry) eqn:E.
  - rewrite decide_True, decide_False by done. cbn [app]. by rewrite IH.
  - rewrite decide_False, decide_True by done. by rewrite <- Permutation_middle, IH.
Qed.

Section Reload.
  Context (uuid_text : Z -> text) (parse_uuid : text -> option Z) (uuid_printed : forall uuid, parse_uuid (uuid_text uuid) = Some uuid).

Lemma uuid_text_inj a b : uuid_text a = uuid_text b -> a = b.
Proof using uuid_printed. intros E. pose proof (uuid_printed a) as H. rewrite E, uuid_printed in H. by injection H. Qed.

Lemma saved_subjects_spec (l : list (Z * PermissionSubjectState)) t entry :
  NoDup l.*1 -> foldl (fun file p => set_permission_subject uuid_text file p.1 p.2) ∅ l !! t = Some entry <->
  exists u state, (u, state) ∈ l /\ subject_is_empty state = false /\ t = uuid_text u /\ entry = from_subject_state state.
Proof using parse_uuid uuid_printed.
  revert t entry. induction l as [|[u state] l IH] using rev_ind; intros t entry Hnd.
  - cbn [foldl]. rewrite lookup_empty. split; [done|]. by intros (u & state & H%elem_of_nil & _).
  - rewrite fmap_app in Hnd. apply NoDup_app in Hnd as (Hnd & Hu & _). rewrite foldl_app. cbn [foldl fst snd].
    assert (forall v st, (v, st) ∈ l -> v <> u) as Hne by (intros v st Hin ->; apply (Hu u); [by apply (list_elem_of_fmap_2 fst) in Hin|by left]).
    unfold set_permission_subject. setoid_rewrite elem_of_app. setoid_rewrite list_elem_of_singleton. destruct (subject_is_empty state) eqn:Ee.
    + rewrite lookup_delete_Some, IH by done. split; [intros (_ & v & st & H); exists v, st; tauto|].
      intros (v & st & [Hin|[= -> ->]] & He & -> & ->); [|congruence]. split; [intros E%uuid_text_inj; by eapply Hne|]. eauto 6.
    + rewrite lookup_insert_Some, IH by done. split.
      * intros [[<- <-]|[_ (v & st & H)]]; [exists u, state; tauto|exists v, st; tauto].
      * intros (v & st & [Hin|[= -> ->]] & He & -> & ->); [right|by left]. split; [intros E%uuid_text_inj; by eapply Hne|]. eauto 6.
Qed.

Lemma push_subjects_spec (players : list (text * PlayerPermissionEntryFile)) subjects :
  NoDup players.*1 ->
  (forall t entry, (t, entry) ∈ players -> exists u state, t = uuid_text u /\ into_subject_state entry = Ok state /\ subjects !! u = None) ->
  exists subjects', push_subjects parse_uuid players subjects = Ok subjects' /\
    forall u state, subjects' !! u = Some state <-> subjects !! u = Some state \/ exists entry, (uuid_text u, entry) ∈ players /\ into_subject_state entry = Ok state.
Proof using uuid_printed.
  revert subjects. induction players as [|[t entry] players IH]; intros subjects Hnd Hp.
  - exists subjects. split; [done|]. intros u state. split; [by left|]. intros [H|(e & H%elem_of_nil & _)]; done.
  - cbn [fmap list_fmap] in Hnd. apply NoDup_cons in Hnd as [Hin Hnd]. destruct (Hp t entry) as (u & state & -> & Hs & Hu); [by left|].
    cbn [push_subjects]. rewrite uuid_printed, Hu, Hs. cbn [map_err result_bind]. destruct (IH (<[u := state]> subjects) Hnd) as (subjects' & E & H).
    + intros t' entry' Hin'. destruct (Hp t' entry') as (u' & state' & -> & Hs' & Hu'); [by right|]. exists u', state'. split; [done|]. split; [done|].
      rewrite lookup_insert_ne; [done|]. intros ->. apply Hin. by apply (list_elem_of_fmap_2 fst) in Hin'.
    + exists subjects'. split; [done|]. intros v state'. rewrite H, lookup_insert_Some. setoid_rewrite elem_of_cons. split.
      * intros [[[<- <-]|[_ Hv]]|(e & He & Hs')]; [right; exists entry; split; [by left|done]|by left|right; exists e; split; [by right|done]].
      * intros [Hv|(e & [[= Ev ->]|He] & Hs')]; [|apply uuid_text_inj in Ev as ->|right; eauto].
        -- left. right. split; [intros ->; congruence|done].
        -- left. left. split; [done|]. congruence.
Qed.

Lemma reload_index (subjects : PermissionSubjectIndex) :
  (forall u state, subjects !! u = Some state -> subject_ok state) ->
  exists subjects', into_subject_index parse_uuid (from_subject_index uuid_text subjects) = Ok subjects' /\
    forall u state, subjects' !! u = Some state <-> exists state', subjects !! u = Some state' /\ subject_is_empty state' = false /\ state = reloaded state'.
Proof using uuid_printed.
  intros Hok. unfold into_subject_index. assert (forall t entry, (t, entry) ∈ btree_entries text_le (from_subject_index uuid_text subjects) <->
    exists u state, subjects !! u = Some state /\ subject_is_empty state = false /\ t = uuid_text u /\ entry = from_subject_state state) as Hfile.
  { intros t entry. rewrite elem_of_btree. unfold from_subject_index. rewrite saved_subjects_spec by apply btree_keys_NoDup. by setoid_rewrite elem_of_btree. }
  destruct (push_subjects_spec (btree_entries text_le (from_subject_index uuid_text subjects)) ∅ ltac:(apply btree_keys_NoDup)) as (subjects' & E & H); [|exists subjects'; split; [exact E|]].
  - intros t entry (u & state & Hu & He & -> & ->)%Hfile. exists u, (reloaded state). split; [done|]. split; [|apply lookup_empty]. by eapply reload_subject, Hok.
  - intros u state. rewrite H, lookup_empty. split.
    + intros [?|(entry & (v & st & Hv & He & Ev & ->)%Hfile & Hs)]; [done|]. apply uuid_text_inj in Ev as <-. exists st. rewrite reload_subject in Hs by eauto. naive_solver.
    + intros (st & Hu & He & ->). right. exists (from_subject_state st). split; [apply Hfile; eauto 6|]. by eapply reload_subject, Hok.
Qed.
End Reload.

(** C23. Subjects that are saved to the permissions file and read again are the subjects that
    were not empty, each with the same groups and metadata and with its overrides regrouped
    so that every request is decided as before; this holds for subjects that were read from
    a file and edited with parsed rules, in any way. *)
Theorem saved_subjects_reload uuid_text parse_uuid (subjects : PermissionSubjectIndex) :
  (forall uuid, parse_uuid (uuid_text uuid) = Some uuid) -> (forall u state, subjects !! u = Some state -> edited state) ->
  exists subjects', into_subject_index parse_uuid (from_subject_index uuid_text subjects) = Ok subjects' /\
    forall u, match subjects !! u with
              | Some state =>
                  if subject_is_empty state then subjects' !! u = None
                  else exists state', subjects' !! u = Some state' /\ su_groups state' = su_groups state /\ su_metadata state' = su_metadata state /\
                         su_overrides state' ≡ₚ su_overrides state /\
                         forall context permission, resolve_in (su_overrides state') context permission = resolve_in (su_overrides state) context permission
              | None => subjects' !! u = None
              end.
Proof.
  intros Huuid Hedit. destruct (reload_index uuid_text parse_uuid Huuid subjects) as (subjects' & E & H); [intros u state Hu; by eapply edited_ok, Hedit|].
  exists subjects'. split; [done|]. intros u. destruct (subjects !! u) as [state|] eqn:Eu.
  - destruct (subject_is_empty state) eqn:Ee.
    + apply eq_None_not_Some. intros [st (st' & Hst & He & _)%H]. congruence.
    + exists (reloaded state). split; [apply H; eauto|]. split; [done|]. split; [done|]. pose proof (with_state_perm (su_overrides state)) as Hp.
      split; [exact Hp|]. intros context permission. rewrite !resolve_in_evaluate. by apply evaluate_perm.
  - apply eq_None_not_Some. intros [st (st' & Hst & _)%H]. congruence.
Qed.

Definition example_file : PlayerPermissionEntryFile :=
  mkEntryFile [lit "staff"] [lit "command.*"] [lit "command.stop{world=lobby:spawn}"] [(lit "chat:prefix{domain=lobby}", MetadataString (lit "hi"))].

Lemma saved_subjects_reload_witness :
  exists subjects : PermissionSubjectIndex, (exists state, subjects !! 7 = Some state /\ length (su_overrides state) = 2%nat) /\
    exists subjects', into_subject_index head (from_subject_index (fun u => [u]) subjects) = Ok subjects' /\ is_Some (subjects' !! 7) /\ subjects' !! 8 = None.
Proof.
  destruct (into_subject_state example_file) as [state|] eqn:E; [|exfalso; revert E; vm_compute; discriminate].
  assert (length (su_overrides state) = 2%nat /\ subject_is_empty state = false) as [Hl He] by (revert E; vm_compute; intros [= <-]; done).
  exists {[7 := state]}. split; [exists state; split; [apply lookup_singleton_eq|done]|].
  destruct (saved_subjects_reload (fun u => [u]) head {[7 := state]}) as (subjects' & E' & H); [done| |].
  - intros u st [<- <-]%lookup_singleton_Some. by apply edited_file with example_file.
  - exists subjects'. split; [done|]. split.
    + specialize (H 7). rewrite lookup_singleton_eq, He in H. destruct H as (st & Hst & _). by exists st.
    + specialize (H 8). by rewrite lookup_singleton_ne in H.
Defined.

(** ** Resolving metadata *)

Lemma push_metadata_candidates_spec cs :
  match foldl push_metadata_candidate None cs with
  | None => cs = []
  | Some best => best ∈ cs /\ Forall (fun c => text_le (metadata_order c) (metadata_order best)) cs
  end.
Proof.
  induction cs as [|c cs IH] using rev_ind; [done|]. rewrite foldl_app. cbn [foldl]. destruct (foldl push_metadata_candidate None cs) as [best|]; cbn [push_metadata_candidate].
  2: { subst cs. cbn [app]. split; [by left|]. by rewrite Forall_singleton. }
  destruct IH as [Hin Hle]. destruct (text_compare (metadata_order c) (metadata_order best)) eqn:Ec.
  3: { split; [set_solver|]. rewrite Forall_app, Forall_singleton. split; [|done]. eapply Forall_impl; [exact Hle|]. cbn. intros x Hx.
       transitivity (metadata_order best); [done|]. unfold text_le. by rewrite text_compare_antisym, Ec. }
  all: split; [set_solver|]; rewrite Forall_app, Forall_singleton; split; [done|]; unfold text_le; by rewrite Ec.
Qed.

(** Metadata resolves without a panic to the matching rule with the greatest context, source,
    priority and place; there is a value exactly when some rule matches. *)
Theorem metadata_resolution_exact (set : PermissionMetadataSet) key context :
  exists value, metadata_resolve_in set key context = Some value /\
    match value with
    | None => forall i rule, set !! i = Some rule -> metadata_candidate key context i rule = None
    | Some v => exists i rule c, set !! i = Some rule /\ me_value rule.1 = v /\ metadata_candidate key context i rule = Some c /\
                  forall j other c', set !! j = Some other -> metadata_candidate key context j other = Some c' -> text_le (metadata_order c') (metadata_order c)
    end.
Proof.
  unfold metadata_resolve_in, metadata_best_candidate, PermissionMetadataSet in *. pose proof (push_metadata_candidates_spec (omap id (imap (metadata_candidate key context) set))) as H.
  assert (forall j other c', set !! j = Some other -> metadata_candidate key context j other = Some c' -> c' ∈ omap id (imap (metadata_candidate key context) set)) as Hcs.
  { intros j other c' Hj Hc. apply list_elem_of_omap. exists (Some c'). split; [|done]. rewrite <- Hc. by apply elem_of_lookup_imap_2. }
  destruct (foldl push_metadata_candidate None _) as [best|].
  - destruct H as [Hin Hle]. apply list_elem_of_omap in Hin as (o & Hin & Ho). unfold id in Ho. subst o. apply elem_of_lookup_imap in Hin as (i & rule & Ei & Hi). symmetry in Ei.
    assert (mc_index best = i) as -> by (destruct rule; unfold metadata_candidate in Ei; destruct (_ || _); [done|]; by injection Ei as <-).
    rewrite Hi. cbn. eexists. split; [done|]. exists i, rule, best. split; [done|]. split; [done|]. split; [done|]. intros j other c' Hj Hc.
    rewrite Forall_forall in Hle. by eapply Hle, Hcs.
  - exists None. split; [done|]. intros i rule Hi. destruct (metadata_candidate key context i rule) as [c|] eqn:Ec; [|done]. specialize (Hcs i rule c Hi Ec).
    rewrite H in Hcs. by apply elem_of_nil in Hcs.
Qed.
