(* ===== verification/PermissionGroups.v ===== *)
(** * Permission groups

    Models [steel-core/src/permission/groups.rs] and [manager.rs]: the configuration of groups
    with its validation, the effective rules of a subject, and the manager that replaces the
    configuration.  Validation accepts exactly the configurations without dangling or cyclic
    inheritance, and the effective rules hold every inherited group once, after the groups it
    inherits. *)

From Stdlib Require Import String.
From S2P Require Import Prelude Texts Permissions PermissionRules PermissionExpressions PermissionSubjects.

#[local] Open Scope list_scope.
#[local] Open Scope steel_scope.

(** ** Configuration *)

Record PermissionGroupConfig := mkGroupConfig {
  gc_priority : Z;
  gc_inherits : list text;
  gc_allow : list text;
  gc_deny : list text;
  gc_metadata : list (text * PermissionMetadataValue);
}.
Record PermissionGroupsConfig := mkGroupsConfig { cf_default_groups : list text; cf_groups : gmap text PermissionGroupConfig }.

#[global] Instance PermissionMetadataValue_eq_dec : EqDecision PermissionMetadataValue.
Proof. solve_decision. Defined.
#[global] Instance PermissionGroupConfig_eq_dec : EqDecision PermissionGroupConfig.
Proof. solve_decision. Defined.
#[global] Instance PermissionGroupsConfig_eq_dec : EqDecision PermissionGroupsConfig.
Proof. solve_decision. Defined.

Definition OP_GROUP : text := lit "op".

Definition default_config : PermissionGroupsConfig :=
  mkGroupsConfig [lit "default"] (<[OP_GROUP := mkGroupConfig 0 [] [[STAR]] [] []]> (<[lit "default" := mkGroupConfig 0 [] [] [] []]> ∅)).

Record PermissionGroup := mkGroup {
  gr_priority : Z;
  gr_inherits : list text;
  gr_permissions : PermissionSet;
  gr_metadata : PermissionMetadataSet;
}.
Record PermissionGroups := mkGroups { gs_default_groups : list text; gs_groups : gmap text PermissionGroup }.

Inductive PermissionConfigError :=
| MissingDefaultGroup (group : text)
| MissingRequiredGroup (group : text)
| MissingInheritedGroup (group inherited : text)
| InheritedGroupCycle (cycle : list text)
| InvalidPermissionExpression (group : text) (source : ExpressionError PermissionKeyError)
| InvalidMetadataExpression (group : text) (source : ExpressionError PermissionMetadataKeyError)
| InvalidGroupName (group : text) (source : PermissionKeyError).

Definition validate_group_name (group : text) : result unit PermissionConfigError :=
  match PermissionSegment_parse group with Ok _ => Ok tt | Err source => Err (InvalidGroupName group source) end.

(** The loops of [parse_group_permissions]. *)
Fixpoint parse_group_rules (group : text) (state : PermissionState) (rules : list text) (permissions : PermissionSet)
  : result PermissionSet PermissionConfigError :=
  match rules with
  | [] => Ok permissions
  | rule :: rules =>
      let? e := map_err (InvalidPermissionExpression group) (PermissionRuleExpression_parse rule) in
      parse_group_rules group state rules (set_push permissions (mkPermission e.1 e.2 state))
  end.
Definition parse_group_permissions (group : text) (allow deny : list text) : result PermissionSet PermissionConfigError :=
  let? permissions := parse_group_rules group Allow allow [] in parse_group_rules group Deny deny permissions.

Fixpoint parse_group_metadata (group : text) (rules : list (text * PermissionMetadataValue)) (metadata : PermissionMetadataSet)
  : result PermissionMetadataSet PermissionConfigError :=
  match rules with
  | [] => Ok metadata
  | (key, value) :: rules =>
      let? e := map_err (InvalidMetadataExpression group) (PermissionMetadataExpression_parse key) in
      parse_group_metadata group rules (metadata_push metadata (mkMetadata e.1 e.2 value))
  end.

(** ** Inheritance *)

(** The first pass over the groups: names and edges. *)
Fixpoint validate_parents (config : PermissionGroupsConfig) (group : text) (parents : list text) : result unit PermissionConfigError :=
  match parents with
  | [] => Ok tt
  | parent :: parents =>
      let? _ := validate_group_name parent in
      match cf_groups config !! parent with
      | None => Err (MissingInheritedGroup group parent)
      | Some _ => validate_parents config group parents
      end
  end.
Fixpoint validate_edges (config : PermissionGroupsConfig) (groups : list (text * PermissionGroupConfig)) : result unit PermissionConfigError :=
  match groups with
  | [] => Ok tt
  | (group, group_config) :: groups => let? _ := validate_parents config group (gc_inherits group_config) in validate_edges config groups
  end.

(** [stack.iter().position(...)]. *)
Fixpoint position (group : text) (stack : list text) : option nat :=
  match stack with [] => None | x :: stack => if decide (x = group) then Some 0%nat else S <$> position group stack end.

Definition walk_state : Type := gset text * list text.

(** The loop over the parents, for a walk from one parent.  [None] is a walk that does not end. *)
Fixpoint walk_parents (config : PermissionGroupsConfig) (node : text -> PermissionGroupConfig -> walk_state -> option (result walk_state PermissionConfigError))
  (group : text) (parents : list text) (w : walk_state) : option (result walk_state PermissionConfigError) :=
  match parents with
  | [] => Some (Ok w)
  | parent :: parents =>
      match cf_groups config !! parent with
      | None => Some (Err (MissingInheritedGroup group parent))
      | Some parent_config =>
          match node parent parent_config w with
          | Some (Ok w) => walk_parents config node group parents w
          | other => other
          end
      end
  end.

(** [fuel] bounds the depth of the recursion. *)
Fixpoint validate_group_inheritance_node (fuel : nat) (config : PermissionGroupsConfig) (group : text) (group_config : PermissionGroupConfig) (w : walk_state)
  : option (result walk_state PermissionConfigError) :=
  match fuel with
  | O => None
  | S fuel =>
      let '(visited, stack) := w in
      if decide (group ∈ visited) then Some (Ok w)
      else
        match position group stack with
        | Some cycle_start => Some (Err (InheritedGroupCycle (drop cycle_start stack ++ [group])))
        | None =>
            match walk_parents config (validate_group_inheritance_node fuel config) group (gc_inherits group_config) (visited, stack ++ [group]) with
            | Some (Ok (visited, stack)) => Some (Ok ({[group]} ∪ visited, take (length stack - 1) stack))
            | other => other
            end
        end
  end.

Fixpoint validate_nodes (fuel : nat) (config : PermissionGroupsConfig) (groups : list (text * PermissionGroupConfig)) (w : walk_state)
  : option (result unit PermissionConfigError) :=
  match groups with
  | [] => Some (Ok tt)
  | (group, group_config) :: groups =>
      match validate_group_inheritance_node fuel config group group_config w with
      | Some (Ok w) => validate_nodes fuel config groups w
      | Some (Err e) => Some (Err e)
      | None => None
      end
  end.

(** No walk is deeper than the number of groups. *)
Definition validate_group_inheritance (config : PermissionGroupsConfig) : option (result unit PermissionConfigError) :=
  let groups := btree_entries text_le (cf_groups config) in
  match validate_edges config groups with
  | Err e => Some (Err e)
  | Ok _ => validate_nodes (S (size (cf_groups config))) config groups (∅, [])
  end.

(** ** Building the groups *)

Fixpoint validate_default_groups (config : PermissionGroupsConfig) (groups : list text) : result unit PermissionConfigError :=
  match groups with
  | [] => Ok tt
  | group :: groups =>
      let? _ := validate_group_name group in
      match cf_groups config !! group with None => Err (MissingDefaultGroup group) | Some _ => validate_default_groups config groups end
  end.

Fixpoint build_groups (entries : list (text * PermissionGroupConfig)) (groups : gmap text PermissionGroup) : result (gmap text PermissionGroup) PermissionConfigError :=
  match entries with
  | [] => Ok groups
  | (name, group) :: entries =>
      let? _ := validate_group_name name in
      let? permissions := parse_group_permissions name (gc_allow group) (gc_deny group) in
      let? metadata := parse_group_metadata name (gc_metadata group) [] in
      build_groups entries (<[name := mkGroup (gc_priority group) (gc_inherits group) permissions metadata]> groups)
  end.

Definition from_config (config : PermissionGroupsConfig) : option (result PermissionGroups PermissionConfigError) :=
  match validate_default_groups config (cf_default_groups config) with
  | Err e => Some (Err e)
  | Ok _ =>
      match cf_groups config !! OP_GROUP with
      | None => Some (Err (MissingRequiredGroup OP_GROUP))
      | Some _ =>
          match validate_group_inheritance config with
          | None => None
          | Some (Err e) => Some (Err e)
          | Some (Ok _) => Some (let? groups := build_groups (btree_entries text_le (cf_groups config)) ∅ in Ok (mkGroups (cf_default_groups config) groups))
          end
      end
  end.

(** ** Effective rules *)

(** [append_group] and [append_group_metadata] differ in what a group contributes.  [fuel]
    bounds the depth of the recursion, [None] is a recursion that does not end. *)
Section Append.
  Context {E : Type} (groups : gmap text PermissionGroup) (contribution : text -> PermissionGroup -> list E).

Fixpoint append_parents (append : text -> list E * gset text -> option (list E * gset text)) (parents : list text) (s : list E * gset text)
  : option (list E * gset text) :=
  match parents with [] => Some s | parent :: parents => s ← append parent s; append_parents append parents s end.

Fixpoint append_group_with (fuel : nat) (group_name : text) (s : list E * gset text) : option (list E * gset text) :=
  match fuel with
  | O => None
  | S fuel =>
      let '(effective, appended_groups) := s in
      if decide (group_name ∈ appended_groups) then Some s
      else
        let appended_groups := {[group_name]} ∪ appended_groups in
        match groups !! group_name with
        | None => Some (effective, appended_groups)
        | Some group =>
            '(effective, appended_groups) ← append_parents (append_group_with fuel) (gr_inherits group) (effective, appended_groups);
            Some (effective ++ contribution group_name group, appended_groups)
        end
  end.
End Append.

Definition group_rules (name : text) (group : PermissionGroup) : PermissionSet :=
  (fun entry => (entry, Group name (gr_priority group))) <$> set_entries (gr_permissions group).
Definition group_metadata_rules (name : text) (group : PermissionGroup) : PermissionMetadataSet :=
  (fun entry => (entry, Group name (gr_priority group))) <$> metadata_entries (gr_metadata group).

Definition append_fuel (groups : PermissionGroups) : nat := S (size (gs_groups groups)).

Definition append_group (groups : PermissionGroups) : text -> PermissionSet * gset text -> option (PermissionSet * gset text) :=
  append_group_with (gs_groups groups) group_rules (append_fuel groups).
Definition append_group_metadata (groups : PermissionGroups) : text -> PermissionMetadataSet * gset text -> option (PermissionMetadataSet * gset text) :=
  append_group_with (gs_groups groups) group_metadata_rules (append_fuel groups).

Definition effective_permissions (groups : PermissionGroups) (assigned_groups : list text) (subject_permissions : PermissionSet) : option PermissionSet :=
  s ← append_parents (append_group groups) (gs_default_groups groups) ([], ∅);
  '(effective, _) ← append_parents (append_group groups) assigned_groups s;
  Some (foldl set_push effective (set_entries subject_permissions)).
Definition effective_metadata (groups : PermissionGroups) (assigned_groups : list text) (subject_metadata : PermissionMetadataSet) : option PermissionMetadataSet :=
  s ← append_parents (append_group_metadata groups) (gs_default_groups groups) ([], ∅);
  '(effective, _) ← append_parents (append_group_metadata groups) assigned_groups s;
  Some (foldl metadata_push effective (metadata_entries subject_metadata)).

(** ** The manager *)

(** The store is external: [stored] is the configuration it holds, when there is a store, and
    an update comes with the outcome of its save. *)
Record PermissionGroupManager := mkManager { pm_config : PermissionGroupsConfig; pm_groups : PermissionGroups; pm_stored : option PermissionGroupsConfig }.

Inductive PermissionGroupManagerError := ConfigError (error : PermissionConfigError) | StoreError (message : text).
Inductive PermissionGroupUpdateError (E : Type) := EditError (error : E) | ManagerError (error : PermissionGroupManagerError).
Arguments EditError {E}.
Arguments ManagerError {E}.

Definition manager_new (config : PermissionGroupsConfig) (stored : option PermissionGroupsConfig) : option (result PermissionGroupManager PermissionConfigError) :=
  r ← from_config config; Some (let? groups := r in Ok (mkManager config groups stored)).

Definition replace_config_locked (m : PermissionGroupManager) (config : PermissionGroupsConfig) (saved : result unit text)
  : option (PermissionGroupManager * result unit PermissionGroupManagerError) :=
  r ← from_config config;
  Some (match r with
        | Err e => (m, Err (ConfigError e))
        | Ok groups =>
            match pm_stored m, saved with
            | Some _, Err e => (m, Err (StoreError e))
            | Some _, Ok _ => (mkManager config groups (Some config), Ok tt)
            | None, _ => (mkManager config groups None, Ok tt)
            end
        end).

Definition update_config (m : PermissionGroupManager) (update : PermissionGroupsConfig -> PermissionGroupsConfig) (saved : result unit text)
  : option (PermissionGroupManager * result unit PermissionGroupManagerError) :=
  replace_config_locked m (update (pm_config m)) saved.

(** The closure returns the edited configuration beside its result. *)
Definition try_update_config {T E} (m : PermissionGroupManager) (update : PermissionGroupsConfig -> PermissionGroupsConfig * result T E) (saved : result unit text)
  : option (PermissionGroupManager * result T (PermissionGroupUpdateError E)) :=
  let current := pm_config m in
  match update current with
  | (_, Err e) => Some (m, Err (EditError e))
  | (config, Ok value) =>
      if decide (config = current) then Some (m, Ok value)
      else '(m, r) ← replace_config_locked m config saved; Some (m, let? _ := map_err ManagerError r in Ok value)
  end.
