(* ===== verification/PermissionInheritance.v ===== *)
(** * What validation of groups accepts and what subjects inherit *)

From Stdlib Require Import String.
From S2P Require Import Prelude Texts Permissions PermissionRules PermissionExpressions PermissionSubjects PermissionGroups.

#[local] Open Scope list_scope.
#[local] Open Scope steel_scope.

(** ** Cycles *)

Definition inherits (config : PermissionGroupsConfig) (group parent : text) : Prop :=
  exists group_config, cf_groups config !! group = Some group_config /\ parent ∈ gc_inherits group_config.

(** Each group of the list inherits the next one. *)
Definition links (config : PermissionGroupsConfig) (l : list text) : Prop :=
  forall i a b, l !! i = Some a -> l !! S i = Some b -> inherits config a b.

Definition is_cycle (config : PermissionGroupsConfig) (cycle : list text) : Prop :=
  links config cycle /\ (2 <= length cycle)%nat /\ head cycle = last cycle.

(** All inheritance from a group ends. *)
Definition grounded (config : PermissionGroupsConfig) : text -> Prop := Acc (fun parent group => inherits config group parent).

Lemma position_spec group stack : match position group stack with None => group ∉ stack | Some i => stack !! i = Some group end.
Proof.
  induction stack as [|x stack IH]; cbn [position]; [apply not_elem_of_nil|]. case_decide as E; [by subst|]. destruct (position group stack) as [i|]; [done|].
  intros [?|?]%elem_of_cons; [congruence|done].
Qed.

Lemma links_snoc config l group parent : links config (l ++ [group]) -> inherits config group parent -> links config ((l ++ [group]) ++ [parent]).
Proof.
  intros H Hp i a b Ha Hb. apply lookup_app_Some in Hb as [Hb|[Hlen Hb]].
  - rewrite lookup_app_l in Ha by (apply lookup_lt_Some in Hb; lia). by eapply H.
  - apply list_lookup_singleton_Some in Hb as [Hb ->]. assert (i = length l) as -> by (rewrite length_app in *; simpl in *; lia).
    rewrite lookup_app_l, list_lookup_middle in Ha by (rewrite ?length_app; simpl; lia). by injection Ha as ->.
Qed.

Lemma links_drop config l n : links config l -> links config (drop n l).
Proof. intros H i a b. rewrite !lookup_drop. intros Ha Hb. eapply H; [exact Ha|]. by rewrite <- Nat.add_succ_r. Qed.

(** A group found again on the stack closes a cycle. *)
Lemma stack_cycle config stack group i : links config (stack ++ [group]) -> stack !! i = Some group -> is_cycle config (drop i stack ++ [group]).
Proof.
  intros Hl Hi. assert (i < length stack)%nat as Hlt by (by eapply lookup_lt_Some). split; [|split].
  - rewrite <- drop_app_le by lia. by apply links_drop.
  - rewrite length_app, length_drop. simpl. lia.
  - rewrite last_snoc. rewrite head_lookup, lookup_app_l by (rewrite length_drop; lia). by rewrite lookup_drop, Nat.add_0_r.
Qed.

(** What a walk has to deliver: it ends, and stops early only at a cycle. *)
Definition walk_delivers (config : PermissionGroupsConfig) (visited : gset text) (stack targets : list text) (r : option (result walk_state PermissionConfigError)) : Prop :=
  match r with
  | Some (Ok (visited', stack')) => stack' = stack /\ visited ⊆ visited' /\ Forall (fun t => t ∈ visited') targets /\ set_Forall (grounded config) visited'
  | Some (Err e) => exists cycle, e = InheritedGroupCycle cycle /\ is_cycle config cycle
  | None => False
  end.

Section Walk.
  Context (config : PermissionGroupsConfig) (edges : forall group parent, inherits config group parent -> is_Some (cf_groups config !! parent)).

(** The groups on the stack: distinct, configured and linked. *)
Definition stack_ok (stack : list text) : Prop := NoDup stack /\ Forall (fun g => is_Some (cf_groups config !! g)) stack.

Lemma stack_bound stack : stack_ok stack -> (length stack <= size (cf_groups config))%nat.
Proof.
  intros [Hnd Hin]. rewrite <- size_dom, <- (size_list_to_set (C := gset text) stack) by done. apply subseteq_size.
  intros g Hg%elem_of_list_to_set. rewrite Forall_forall in Hin. apply elem_of_dom. by apply Hin.
Qed.

Lemma walk_parents_delivers fuel group stack parents visited :
  (forall parent parent_config visited, cf_groups config !! parent = Some parent_config -> inherits config group parent -> set_Forall (grounded config) visited ->
     walk_delivers config visited (stack ++ [group]) [parent] (validate_group_inheritance_node fuel config parent parent_config (visited, stack ++ [group]))) ->
  Forall (inherits config group) parents -> set_Forall (grounded config) visited ->
  walk_delivers config visited (stack ++ [group]) parents (walk_parents config (validate_group_inheritance_node fuel config) group parents (visited, stack ++ [group])).
Proof using edges.
  intros Hnode. revert visited. induction parents as [|parent parents IH]; intros visited Hp Hv; [done|]. inversion Hp as [|? ? Hi Hps]; subst. cbn [walk_parents].
  destruct (edges group parent Hi) as [parent_config Hpc]. rewrite Hpc. specialize (Hnode parent parent_config visited Hpc Hi Hv).
  destruct (validate_group_inheritance_node fuel config parent parent_config (visited, stack ++ [group])) as [[[visited' stack']|e]|]; [|done|done].
  destruct Hnode as (-> & Hsub & Hin & Hv'). specialize (IH visited' Hps Hv'). destruct (walk_parents _ _ _ _ _) as [[[visited'' stack'']|e]|]; [|done|done].
  destruct IH as (-> & Hsub' & Hin' & Hv''). split; [done|]. split; [set_solver|]. split; [|done]. constructor; [|done]. rewrite Forall_singleton in Hin. set_solver.
Qed.

Lemma node_delivers fuel group group_config visited stack :
  cf_groups config !! group = Some group_config -> links config (stack ++ [group]) -> stack_ok stack -> set_Forall (grounded config) visited ->
  (size (cf_groups config) < fuel + length stack)%nat ->
  walk_delivers config visited stack [group] (validate_group_inheritance_node fuel config group group_config (visited, stack)).
Proof using edges.
  revert group group_config visited stack. induction fuel as [|fuel IH]; intros group group_config visited stack Hg Hl Hs Hv Hfuel.
  - exfalso. apply stack_bound in Hs. lia.
  - cbn [validate_group_inheritance_node]. case_decide as Hvis; [split; [done|]; split; [done|]; by rewrite Forall_singleton|].
    pose proof (position_spec group stack) as Hpos. destruct (position group stack) as [i|]; [eexists; split; [done|]; by apply stack_cycle|].
    assert (stack_ok (stack ++ [group])) as Hs'.
    { destruct Hs as [Hnd Hin]. split; [|rewrite Forall_app, Forall_singleton; eauto]. apply NoDup_app. split; [done|]. split; [|apply NoDup_singleton].
      by intros x Hx ->%list_elem_of_singleton. }
    assert (walk_delivers config visited (stack ++ [group]) (gc_inherits group_config)
      (walk_parents config (validate_group_inheritance_node fuel config) group (gc_inherits group_config) (visited, stack ++ [group]))) as H.
    { apply walk_parents_delivers; [|apply Forall_forall; intros p Hp; by exists group_config|done].
      intros parent parent_config visited' Hpc Hi Hv'. apply IH; [done|by apply links_snoc|done|done|]. rewrite length_app. simpl. lia. }
    destruct (walk_parents _ _ _ _ _) as [[[visited' stack']|e]|]; [|done|done]. destruct H as (-> & Hsub & Hin & Hv').
    split; [rewrite length_app, Nat.add_sub; by rewrite take_app_length|]. split; [set_solver|]. split; [rewrite Forall_singleton; set_solver|].
    apply set_Forall_union; [|done]. apply set_Forall_singleton. constructor. intros parent (gc & Hgc & Hp). rewrite Hg in Hgc. injection Hgc as <-.
    rewrite Forall_forall in Hin. by apply Hv', Hin.
Qed.
End Walk.

Lemma validate_parents_spec config group parents :
  match validate_parents config group parents with
  | Ok _ => Forall (fun parent => is_Some (cf_groups config !! parent)) parents
  | Err e => exists parent, parent ∈ parents /\ (validate_group_name parent = Err e \/ cf_groups config !! parent = None /\ e = MissingInheritedGroup group parent)
  end.
Proof.
  induction parents as [|parent parents IH]; [by cbn; apply Forall_nil_2|]. cbn [validate_parents]. destruct (validate_group_name parent) as [[]|e] eqn:En; cbn [result_bind].
  - destruct (cf_groups config !! parent) as [parent_config|] eqn:Ep; [|exists parent; split; [by left|auto]].
    destruct (validate_parents config group parents) as [|e]; [constructor; [by rewrite Ep|done]|]. destruct IH as (p & Hp & H). exists p. split; [by right|done].
  - exists parent. split; [by left|auto].
Qed.

Lemma validate_edges_spec config (l : list (text * PermissionGroupConfig)) :
  match validate_edges config l with
  | Ok _ => forall group gc parent, (group, gc) ∈ l -> parent ∈ gc_inherits gc -> is_Some (cf_groups config !! parent)
  | Err e => exists group gc parent, (group, gc) ∈ l /\ parent ∈ gc_inherits gc /\
               (validate_group_name parent = Err e \/ cf_groups config !! parent = None /\ e = MissingInheritedGroup group parent)
  end.
Proof.
  induction l as [|[group gc] l IH]; [intros ? ? ? H; by apply elem_of_nil in H|]. cbn [validate_edges]. pose proof (validate_parents_spec config group (gc_inherits gc)) as Hp.
  destruct (validate_parents config group (gc_inherits gc)) as [[]|e]; cbn [result_bind].
  - destruct (validate_edges config l) as [|e].
    + intros g gc' parent [[= -> ->]|Hin]%elem_of_cons; [|by eapply IH]. rewrite Forall_forall in Hp. apply Hp.
    + destruct IH as (g & gc' & parent & Hin & H). exists g, gc', parent. split; [by right|done].
  - destruct Hp as (parent & Hin & H). exists group, gc, parent. split; [by left|done].
Qed.

Lemma grounded_no_cycle config group : grounded config group -> ~ tc (inherits config) group group.
Proof.
  induction 1 as [group _ IH]. intros Ht. assert (forall x y, tc (inherits config) x y -> exists z, inherits config x z /\ rtc (inherits config) z y) as Hfirst.
  { intros x y H. destruct H as [x y H|x y z H H']; [by exists y|]. exists y. split; [done|]. by apply tc_rtc. }
  destruct (Hfirst group group Ht) as (z & Hz & Hr). apply (IH z Hz). eapply tc_rtc_l; [exact Hr|]. by apply tc_once.
Qed.

Lemma validate_nodes_delivers config (l : list (text * PermissionGroupConfig)) fuel visited :
  (forall group parent, inherits config group parent -> is_Some (cf_groups config !! parent)) ->
  (forall group gc, (group, gc) ∈ l -> cf_groups config !! group = Some gc) -> (size (cf_groups config) < fuel)%nat -> set_Forall (grounded config) visited ->
  match validate_nodes fuel config l (visited, []) with
  | Some (Ok _) => Forall (fun p => grounded config p.1) l
  | Some (Err e) => exists cycle, e = InheritedGroupCycle cycle /\ is_cycle config cycle
  | None => False
  end.
Proof.
  intros Hedges Hl Hfuel. revert visited. induction l as [|[group gc] l IH]; intros visited Hv; [by cbn; apply Forall_nil_2|]. cbn [validate_nodes].
  assert (walk_delivers config visited [] [group] (validate_group_inheritance_node fuel config group gc (visited, []))) as H.
  { apply node_delivers; [done|apply Hl; by left| |split; [apply NoDup_nil_2|done]|done|simpl; lia]. intros [|[|i]] a b; done. }
  destruct (validate_group_inheritance_node fuel config group gc (visited, [])) as [[[visited' stack']|e]|]; [|done|done].
  destruct H as (-> & _ & Hin & Hv'). specialize (IH ltac:(intros g gc' Hg; apply Hl; by right) visited' Hv').
  destruct (validate_nodes fuel config l (visited', [])) as [[|e]|]; [|done|done]. constructor; [|done]. rewrite Forall_singleton in Hin. by apply Hv'.
Qed.

(** The validation ends, accepts only grounded inheritance between configured groups, and
    otherwise reports what is wrong. *)
Lemma validate_inheritance_delivers config :
  match validate_group_inheritance config with
  | Some (Ok _) => (forall group parent, inherits config group parent -> is_Some (cf_groups config !! parent)) /\ forall group, grounded config group
  | Some (Err (InheritedGroupCycle cycle)) => is_cycle config cycle
  | Some (Err e) => exists group parent, inherits config group parent /\
                      (validate_group_name parent = Err e \/ cf_groups config !! parent = None /\ e = MissingInheritedGroup group parent)
  | None => False
  end.
Proof.
  unfold validate_group_inheritance. pose proof (validate_edges_spec config (btree_entries text_le (cf_groups config))) as He.
  destruct (validate_edges config _) as [[]|e].
  - assert (forall group parent, inherits config group parent -> is_Some (cf_groups config !! parent)) as Hedges.
    { intros group parent (gc & Hgc & Hp). eapply He; [|exact Hp]. by apply elem_of_btree. }
    pose proof (validate_nodes_delivers config (btree_entries text_le (cf_groups config)) (S (size (cf_groups config))) ∅ Hedges) as Hn.
    destruct (validate_nodes _ config _ _) as [[|e]|].
    + split; [done|]. intros group. constructor. intros parent Hp. destruct (Hedges group parent Hp) as [gc Hgc].
      rewrite Forall_forall in Hn. apply (Hn ltac:(intros; by apply (elem_of_btree text_le)) ltac:(lia) ltac:(apply set_Forall_empty) (parent, gc)). by apply elem_of_btree.
    + destruct Hn as (cycle & -> & Hc); [intros; by apply (elem_of_btree text_le)|lia|apply set_Forall_empty|done].
    + apply Hn; [intros; by apply (elem_of_btree text_le)|lia|apply set_Forall_empty].
  - destruct He as (group & gc & parent & Hin & Hp & H). apply elem_of_btree in Hin. destruct e; try (exists group, parent; split; [by exists gc|done]).
    exfalso. unfold validate_group_name in H. destruct (PermissionSegment_parse parent); destruct H as [H|[_ H]]; discriminate.
Qed.

(** C25. Validation of the configured inheritance always ends: it accepts a configuration
    only if every inherited group is configured and no group inherits itself through
    others, and what it reports is real, a cycle of inheriting groups, or an inherited name
    that is invalid or not configured. *)
Theorem group_inheritance_validated config :
  match validate_group_inheritance config with
  | Some (Ok _) => (forall group parent, inherits config group parent -> is_Some (cf_groups config !! parent)) /\ forall group, ~ tc (inherits config) group group
  | Some (Err (InheritedGroupCycle cycle)) => is_cycle config cycle
  | Some (Err e) => exists group parent, inherits config group parent /\
                      (validate_group_name parent = Err e \/ cf_groups config !! parent = None /\ e = MissingInheritedGroup group parent)
  | None => False
  end.
Proof.
  pose proof (validate_inheritance_delivers config) as H. destruct (validate_group_inheritance config) as [[|[]]|]; try done.
  destruct H as [H1 H2]. split; [done|]. intros group. by apply grounded_no_cycle.
Qed.

Definition circular_config : PermissionGroupsConfig :=
  mkGroupsConfig [] (<[lit "b" := mkGroupConfig 0 [lit "c"] [] [] []]> (<[lit "c" := mkGroupConfig 0 [lit "op"; lit "b"] [] [] []]> (<[OP_GROUP := mkGroupConfig 0 [] [] [] []]> ∅))).

Example circular_rejected : validate_group_inheritance circular_config = Some (Err (InheritedGroupCycle [lit "b"; lit "c"; lit "b"])).
Proof. by vm_compute. Qed.
