(* ===== verification/PermissionEffective.v ===== *)
(** * The effective rules of a subject

    With a configuration that validation accepts, every group that a subject reaches
    contributes its rules once, after the groups it inherits; the manager changes its groups
    only together with the store. *)

From Stdlib Require Import String.
From S2P Require Import Prelude Texts Permissions PermissionRules PermissionExpressions PermissionSubjects PermissionGroups PermissionInheritance.

#[local] Open Scope list_scope.
#[local] Open Scope steel_scope.

(** ** Appending groups *)

Definition group_inherits (groups : gmap text PermissionGroup) (group parent : text) : Prop :=
  exists g, groups !! group = Some g /\ parent ∈ gr_inherits g.

(** In an order of groups each comes after the configured groups it inherits. *)
Definition parents_first (groups : gmap text PermissionGroup) (order : list text) : Prop :=
  forall pre name post parent, order = pre ++ name :: post -> group_inherits groups name parent -> is_Some (groups !! parent) -> parent ∈ pre.

Section Append.
  Context {E : Type} (groups : gmap text PermissionGroup) (contribution : text -> PermissionGroup -> list E).

Definition contributed (name : text) : list E := match groups !! name with Some group => contribution name group | None => [] end.

(** [order] lists the groups that have contributed, [stack] those that are still appending
    the groups they inherit. *)
Definition appended_ok (order stack : list text) (s : list E * gset text) : Prop :=
  s.1 = concat (contributed <$> order) /\ NoDup order /\ Forall (fun name => is_Some (groups !! name)) order /\
  (forall name, is_Some (groups !! name) -> name ∈ s.2 <-> name ∈ order \/ name ∈ stack) /\ parents_first groups order.

(** What appending the groups [names] has to deliver. *)
Definition append_delivers (order stack names : list text) (s : list E * gset text) (r : option (list E * gset text)) : Prop :=
  exists order' s', r = Some s' /\ appended_ok order' stack s' /\ order ⊆ order' /\ s.2 ⊆ s'.2 /\
    Forall (fun name => is_Some (groups !! name) -> name ∈ order') names /\
    Forall (fun x => x ∈ order \/ exists name, name ∈ names /\ rtc (group_inherits groups) name x) order'.

Definition left_to_append (s : list E * gset text) : nat := size (dom groups ∖ s.2).

Lemma left_mono (s s' : list E * gset text) : s.2 ⊆ s'.2 -> (left_to_append s' <= left_to_append s)%nat.
Proof. intros H. unfold left_to_append. apply subseteq_size. set_solver. Qed.

Lemma append_parents_delivers fuel order stack names s :
  (forall order name s, appended_ok order stack s -> name ∈ names -> (left_to_append s < fuel)%nat ->
     append_delivers order stack [name] s (append_group_with groups contribution fuel name s)) ->
  appended_ok order stack s -> (left_to_append s < fuel)%nat ->
  append_delivers order stack names s (append_parents (append_group_with groups contribution fuel) names s).
Proof.
  intros Hnode. revert order s. induction names as [|name names IH]; intros order s Hs Hfuel.
  - exists order, s. split; [done|]. split; [done|]. split; [done|]. split; [done|]. split; [apply Forall_nil_2|]. apply Forall_forall. by left.
  - cbn [append_parents]. destruct (Hnode order name s Hs ltac:(by left) Hfuel) as (o1 & s1 & -> & Hs1 & Ho1 & Ha1 & Hn1 & Hr1). cbn [mbind option_bind].
    destruct (IH ltac:(intros o n t Ht Hn; apply Hnode; [done|by right]) o1 s1 Hs1) as (o2 & s2 & -> & Hs2 & Ho2 & Ha2 & Hn2 & Hr2);
      [pose proof (left_mono s s1 Ha1); lia|].
    exists o2, s2. split; [done|]. split; [done|]. split; [set_solver|]. split; [set_solver|]. rewrite Forall_singleton in Hn1. split; [constructor; [|done]; set_solver|].
    apply Forall_forall. intros x Hx. rewrite Forall_forall in Hr1. rewrite Forall_forall in Hr2. destruct (Hr2 x Hx) as [Hx1|(n & Hn & Hr)].
    + destruct (Hr1 x Hx1) as [?|(n & ->%list_elem_of_singleton & Hr)]; [by left|right]. exists name. split; [by left|done].
    + right. exists n. split; [by right|done].
Qed.

Lemma appended_start order stack eff appended name :
  appended_ok order stack (eff, appended) -> appended_ok order (name :: stack) (eff, {[name]} ∪ appended).
Proof. intros (He & Hnd & Hd & Ha & Hp). split; [done|]. split; [done|]. split; [done|]. split; [|done]. intros n Hn. specialize (Ha n Hn). set_solver. Qed.

Lemma parents_first_snoc order name :
  parents_first groups order -> (forall parent, group_inherits groups name parent -> is_Some (groups !! parent) -> parent ∈ order) -> parents_first groups (order ++ [name]).
Proof.
  intros Hp Hn pre x post parent Hsplit Hi Hd. destruct (decide (post = [])) as [->|Hpost].
  - apply app_inj_tail in Hsplit as [-> ->]. by apply Hn.
  - destruct (exists_last Hpost) as (post' & y & ->). change (order ++ [name] = pre ++ (x :: post') ++ [y]) in Hsplit. rewrite app_assoc in Hsplit.
    apply app_inj_tail in Hsplit as [-> _]. by eapply Hp.
Qed.

Lemma appended_finish order stack eff appended name group :
  groups !! name = Some group -> (name ∉ order) -> (forall parent, parent ∈ gr_inherits group -> is_Some (groups !! parent) -> parent ∈ order) ->
  appended_ok order (name :: stack) (eff, appended) -> appended_ok (order ++ [name]) stack (eff ++ contribution name group, appended).
Proof.
  intros Hg Hno Hpar (He & Hnd & Hd & Ha & Hp). cbn [fst snd] in *. split; [|split; [|split; [|split]]].
  - cbn [fst]. rewrite He, fmap_app, concat_app. f_equal. cbn. unfold contributed. by rewrite Hg, app_nil_r.
  - apply NoDup_app. split; [done|]. split; [|apply NoDup_singleton]. by intros x Hx ->%list_elem_of_singleton.
  - rewrite Forall_app, Forall_singleton. eauto.
  - intros n Hn. cbn [snd]. specialize (Ha n Hn). set_solver.
  - apply parents_first_snoc; [done|]. intros parent (g & Hg' & Hin) Hd'. rewrite Hg in Hg'. injection Hg' as <-. by apply Hpar.
Qed.

Context (acyclic : forall group, ~ tc (group_inherits groups) group group).

Lemma append_group_delivers fuel order stack name s :
  appended_ok order stack s -> (forall x, x ∈ stack -> tc (group_inherits groups) x name) -> (left_to_append s < fuel)%nat ->
  append_delivers order stack [name] s (append_group_with groups contribution fuel name s).
Proof using acyclic.
  revert order stack name s. induction fuel as [|fuel IH]; intros order stack name s Hs Hstack Hfuel; [lia|]. destruct s as [eff appended]. cbn [append_group_with].
  assert (forall (P : text -> Prop) l, (forall x, x ∈ order -> P x) -> l = order -> Forall P l) as Hall by (intros P l HP ->; by apply Forall_forall).
  case_decide as Hin.
  { exists order, (eff, appended). split; [done|]. split; [done|]. split; [done|]. split; [done|]. split; [|by apply Hall; [left|]].
    rewrite Forall_singleton. intros Hd. destruct Hs as (_ & _ & _ & Ha & _). apply (Ha name Hd) in Hin as [?|Hst]; [done|]. by destruct (acyclic name); apply Hstack. }
  destruct (groups !! name) as [group|] eqn:Eg.
  2: { exists order, (eff, {[name]} ∪ appended). split; [done|]. split; [|split; [done|split; [set_solver|split; [|by apply Hall; [left|]]]]].
       - destruct Hs as (He & Hnd & Hd & Ha & Hp). split; [done|]. split; [done|]. split; [done|]. split; [|done]. intros n Hn. cbn [snd] in *. rewrite <- (Ha n Hn).
         rewrite elem_of_union, elem_of_singleton. split; [|tauto]. intros [->|?]; [|done]. rewrite Eg in Hn. by destruct Hn.
       - rewrite Forall_singleton, Eg. by intros [? ?]. }
  assert (name ∉ order) as Hno. { destruct Hs as (_ & _ & _ & Ha & _). intros Ho. apply Hin. apply Ha; [by rewrite Eg|by left]. }
  destruct (append_parents_delivers fuel order (name :: stack) (gr_inherits group) (eff, {[name]} ∪ appended)) as (o & [eff' app'] & -> & Hs' & Ho & Hsub & Hpar & Hr).
  - intros o p s' Ho Hp Hf. apply IH; [done| |done]. intros x [->|Hx]%elem_of_cons; [apply tc_once; by exists group|].
    eapply tc_r; [by apply Hstack|by exists group].
  - by apply appended_start.
  - assert (left_to_append (eff, {[name]} ∪ appended) < left_to_append (eff, appended))%nat as Hlt; [|lia]. unfold left_to_append. apply subset_size. cbn [snd].
    assert (name ∈ dom groups) as Hd by (apply elem_of_dom; by rewrite Eg). set_solver.
  - cbn [mbind option_bind]. exists (o ++ [name]), (eff' ++ contribution name group, app'). rewrite Forall_forall in Hpar. rewrite Forall_forall in Hr.
    assert (name ∉ o) as Hno'.
    { intros Hn. destruct (Hr name Hn) as [?|(p & Hp & Hrt)]; [done|]. apply (acyclic name). eapply tc_rtc_r; [apply tc_once; by exists group|done]. }
    split; [done|]. split; [by apply appended_finish|]. split; [set_solver|]. split; [cbn [snd] in *; set_solver|]. split; [rewrite Forall_singleton; set_solver|].
    apply Forall_forall. intros x [Hx|Hx]%elem_of_app.
    + destruct (Hr x Hx) as [?|(p & Hp & Hrt)]; [by left|right]. exists name. split; [by left|]. eapply rtc_l; [by exists group|done].
    + apply list_elem_of_singleton in Hx as ->. right. exists name. split; [by left|done].
Qed.
End Append.

(** Appending the default and then the assigned groups. *)
Lemma append_roots {E : Type} (groups : gmap text PermissionGroup) (contribution : text -> PermissionGroup -> list E) (defaults assigned : list text) :
  (forall group, ~ tc (group_inherits groups) group group) -> (forall group parent, group_inherits groups group parent -> is_Some (groups !! parent)) ->
  exists order s1 appended,
    append_parents (append_group_with groups contribution (S (size groups))) defaults ([], ∅) = Some s1 /\
    append_parents (append_group_with groups contribution (S (size groups))) assigned s1 = Some (concat (contributed groups contribution <$> order), appended) /\
    NoDup order /\ parents_first groups order /\
    forall name, name ∈ order <-> is_Some (groups !! name) /\ exists root, root ∈ defaults ++ assigned /\ rtc (group_inherits groups) root name.
Proof.
  intros Hac Hedge. assert (forall s, (left_to_append (E := E) groups s < S (size groups))%nat) as Hfuel.
  { intros s. unfold left_to_append. rewrite <- (size_dom (D := gset text) groups). apply Nat.lt_succ_r. apply subseteq_size. set_solver. }
  assert (forall names order s, appended_ok groups contribution order [] s -> append_delivers groups contribution order [] names s
    (append_parents (append_group_with groups contribution (S (size groups))) names s)) as Hrun.
  { intros names order s Hs. apply append_parents_delivers; [|done|apply Hfuel]. intros o n t Ht _ Hf. apply append_group_delivers; [exact Hac|exact Ht|intros x Hx; by apply elem_of_nil in Hx|done]. }
  destruct (Hrun defaults [] ([], ∅)) as (o1 & s1 & E1 & Hs1 & _ & _ & Hn1 & Hr1).
  { split; [done|]. split; [apply NoDup_nil_2|]. split; [apply Forall_nil_2|]. split; [set_solver|]. intros pre n post p H. destruct pre; discriminate. }
  destruct (Hrun assigned o1 s1 Hs1) as (o2 & [eff2 app2] & E2 & (He & Hnd & Hd & _ & Hp) & Hsub & _ & Hn2 & Hr2). cbn [fst] in He. subst eff2.
  exists o2, s1, app2. split; [done|]. split; [done|]. split; [done|]. split; [done|]. rewrite Forall_forall in Hn1, Hr1. rewrite Forall_forall in Hn2. rewrite Forall_forall in Hr2. rewrite Forall_forall in Hd.
  intros name. split.
  - intros Hin. split; [by apply Hd|]. destruct (Hr2 name Hin) as [Hin1|(root & Hroot & Hr)]; [|exists root; set_solver].
    destruct (Hr1 name Hin1) as [Hn%elem_of_nil|(root & Hroot & Hr)]; [done|]. exists root. set_solver.
  - intros (Hsome & root & Hroot & Hr). assert (is_Some (groups !! root) -> root ∈ o2) as Hro by (intros ?; apply elem_of_app in Hroot as [?|?]; [apply Hsub|]; auto).
    clear Hroot. revert Hro. induction Hr as [x|x y z Hxy _ IH]; [auto|]. intros Hx. apply IH; [done|]. intros Hy.
    assert (x ∈ o2) as Hxo by (apply Hx; destruct Hxy as (g & Hg & _); by rewrite Hg). apply list_elem_of_split in Hxo as (pre & post & Eo).
    rewrite Eo. apply elem_of_app. left. eapply Hp; [exact Eo|exact Hxy|done].
Qed.

(** ** Groups from a configuration *)

Lemma build_groups_spec (entries : list (text * PermissionGroupConfig)) groups0 groups :
  build_groups entries groups0 = Ok groups -> NoDup entries.*1 ->
  forall name, match groups !! name with
               | Some g => groups0 !! name = Some g \/ exists gc, (name, gc) ∈ entries /\ gr_inherits g = gc_inherits gc /\ gr_priority g = gc_priority gc /\
                             parse_group_permissions name (gc_allow gc) (gc_deny gc) = Ok (gr_permissions g) /\ parse_group_metadata name (gc_metadata gc) [] = Ok (gr_metadata g)
               | None => groups0 !! name = None /\ name ∉ entries.*1
               end.
Proof.
  revert groups0. induction entries as [|[n gc] entries IH]; intros groups0; cbn [build_groups].
  - intros [= <-] _ name. destruct (groups0 !! name); [by left|]. split; [done|apply not_elem_of_nil].
  - destruct (validate_group_name n) as [[]|]; [|done]. cbn [result_bind]. destruct (parse_group_permissions n (gc_allow gc) (gc_deny gc)) as [permissions|] eqn:Ep; [|done]. cbn [result_bind].
    destruct (parse_group_metadata n (gc_metadata gc) []) as [metadata|] eqn:Em; [|done]. cbn [result_bind]. intros Hb [Hin Hnd]%NoDup_cons name. specialize (IH _ Hb Hnd name).
    destruct (groups !! name) as [g|].
    + destruct IH as [H|(gc' & Hgc & H)]; [|right; exists gc'; split; [by right|done]]. apply lookup_insert_Some in H as [[<- <-]|[Hne H]]; [right|by left].
      exists gc. split; [by left|done].
    + destruct IH as [H Hn]. apply lookup_insert_None in H as [H Hne]. split; [done|]. cbn. intros [->|?]%elem_of_cons; done.
Qed.

Lemma from_config_ok config groups :
  from_config config = Some (Ok groups) ->
  gs_default_groups groups = cf_default_groups config /\
  (forall name, is_Some (gs_groups groups !! name) <-> is_Some (cf_groups config !! name)) /\
  (forall group parent, group_inherits (gs_groups groups) group parent <-> inherits config group parent) /\
  (forall group parent, inherits config group parent -> is_Some (cf_groups config !! parent)) /\ forall group, ~ tc (inherits config) group group.
Proof.
  unfold from_config. destruct (validate_default_groups config (cf_default_groups config)); [|done]. destruct (cf_groups config !! OP_GROUP); [|done].
  pose proof (validate_inheritance_delivers config) as Hv. destruct (validate_group_inheritance config) as [[[]|]|]; [|done|done]. destruct Hv as [Hedge Hground].
  destruct (build_groups _ ∅) as [gs|] eqn:Eb; [|done]. cbn [result_bind]. intros [= <-]. cbn [gs_groups gs_default_groups].
  pose proof (build_groups_spec _ _ _ Eb ltac:(apply btree_keys_NoDup)) as H.
  assert (forall name g, gs !! name = Some g -> exists gc, cf_groups config !! name = Some gc /\ gr_inherits g = gc_inherits gc) as H1.
  { intros name g Hg. specialize (H name). rewrite Hg in H. destruct H as [H|(gc & Hin & Hi & _)]; [by rewrite lookup_empty in H|]. exists gc. split; [|done]. by apply (elem_of_btree text_le). }
  assert (forall name gc, cf_groups config !! name = Some gc -> exists g, gs !! name = Some g /\ gr_inherits g = gc_inherits gc) as H2.
  { intros name gc Hgc. destruct (gs !! name) as [g|] eqn:Eg.
    - exists g. split; [done|]. destruct (H1 name g Eg) as (gc' & Hgc' & ->). congruence.
    - specialize (H name). rewrite Eg in H. destruct H as [_ H]. destruct H. apply (elem_of_btree text_le) in Hgc. by apply (list_elem_of_fmap_2 fst) in Hgc. }
  split; [done|]. split; [|split; [|split; [done|intros g; by apply grounded_no_cycle]]].
  - intros name. split; intros [x Hx]; [apply H1 in Hx as (gc & Hgc & _); by eexists|apply H2 in Hx as (g & Hg & _); by eexists].
  - intros group parent. split; intros (x & Hx & Hin); [apply H1 in Hx as (y & Hy & E)|apply H2 in Hx as (y & Hy & E)]; exists y; split; congruence.
Qed.

Lemma rtc_same {A} (R S : relation A) : (forall x y, R x y -> S x y) -> forall x y, rtc R x y -> rtc S x y.
Proof. intros H x y. induction 1; [done|]. eapply rtc_l; eauto. Qed.

Lemma tc_same {A} (R S : relation A) : (forall x y, R x y -> S x y) -> forall x y, tc R x y -> tc S x y.
Proof. intros H x y. induction 1; [apply tc_once; eauto|]. eapply tc_l; eauto. Qed.

Lemma push_subject_rules (set : PermissionSet) (entries : list PermissionEntry) : foldl set_push set entries = set ++ set_from_entries entries.
Proof.
  revert set. induction entries as [|entry entries IH]; intros set; [by rewrite app_nil_r|]. cbn [foldl]. rewrite IH. unfold set_push. by rewrite <- app_assoc.
Qed.

Lemma push_subject_metadata (set : PermissionMetadataSet) (entries : list PermissionMetadataEntry) : foldl metadata_push set entries = set ++ metadata_from_entries entries.
Proof.
  revert set. induction entries as [|entry entries IH]; intros set; [by rewrite app_nil_r|]. cbn [foldl]. rewrite IH. unfold metadata_push. by rewrite <- app_assoc.
Qed.

(** The order of the groups that a subject reaches: each once, after those it inherits. *)
Definition reached_order (config : PermissionGroupsConfig) (assigned order : list text) : Prop :=
  NoDup order /\
  (forall name, name ∈ order <->
     is_Some (cf_groups config !! name) /\ exists root, root ∈ cf_default_groups config ++ assigned /\ rtc (inherits config) root name) /\
  (forall pre name post parent, order = pre ++ name :: post -> inherits config name parent -> parent ∈ pre).

Lemma append_reached {E : Type} config groups (contribution : text -> PermissionGroup -> list E) (assigned : list text) :
  from_config config = Some (Ok groups) ->
  exists order s1 appended,
    append_parents (append_group_with (gs_groups groups) contribution (append_fuel groups)) (gs_default_groups groups) ([], ∅) = Some s1 /\
    append_parents (append_group_with (gs_groups groups) contribution (append_fuel groups)) assigned s1
      = Some (concat (contributed (gs_groups groups) contribution <$> order), appended) /\ reached_order config assigned order.
Proof.
  intros (Hdef & Hdom & Hinh & Hedge & Hac)%from_config_ok.
  destruct (append_roots (gs_groups groups) contribution (gs_default_groups groups) assigned) as (order & s1 & appended & E1 & E2 & Hnd & Hp & Hin).
  - intros g H. apply (Hac g). revert H. apply tc_same. intros x y. by rewrite Hinh.
  - intros g p H. apply Hdom. apply (Hedge g p). by apply Hinh.
  - exists order, s1, appended. split; [done|]. split; [done|]. split; [done|]. split.
    + intros name. rewrite Hin, Hdom, Hdef. split; (intros [Hs (root & Hroot & Hr)]; split; [done|]; exists root; split; [done|]; revert Hr; apply rtc_same; intros x y; by rewrite Hinh).
    + intros pre name post parent Eo Hi. eapply Hp; [exact Eo|by apply Hinh|]. apply Hdom. by eapply Hedge.
Qed.

(** C24. With a configuration that is accepted, the effective rules of a subject exist and are
    the rules of the groups it reaches from the default and the assigned groups, each group
    once and after the groups it inherits, with its name and priority, and then the
    subject's own rules; unknown groups contribute nothing.  The same holds of metadata. *)
Theorem effective_rules_exact config groups assigned (subject : PermissionSet) (metadata : PermissionMetadataSet) :
  from_config config = Some (Ok groups) ->
  (exists order, reached_order config assigned order /\
     effective_permissions groups assigned subject
       = Some (concat (contributed (gs_groups groups) group_rules <$> order) ++ set_from_entries (set_entries subject))) /\
  (exists order, reached_order config assigned order /\
     effective_metadata groups assigned metadata
       = Some (concat (contributed (gs_groups groups) group_metadata_rules <$> order) ++ metadata_from_entries (metadata_entries metadata))).
Proof.
  intros H. split.
  - destruct (append_reached config groups group_rules assigned H) as (order & s1 & appended & E1 & E2 & Ho). exists order. split; [done|].
    unfold effective_permissions, append_group. unfold PermissionSet in *. rewrite E1. cbn [mbind option_bind]. rewrite E2. cbn. f_equal. apply push_subject_rules.
  - destruct (append_reached config groups group_metadata_rules assigned H) as (order & s1 & appended & E1 & E2 & Ho). exists order. split; [done|].
    unfold effective_metadata, append_group_metadata. unfold PermissionMetadataSet in *. rewrite E1. cbn [mbind option_bind]. rewrite E2. cbn. f_equal. apply push_subject_metadata.
Qed.

Definition staff_config : PermissionGroupsConfig :=
  mkGroupsConfig [lit "default"]
    (<[lit "staff" := mkGroupConfig 5 [lit "default"; lit "op"] [lit "command.*"] [lit "command.stop{domain=lobby}"] []]> (cf_groups default_config)).

Lemma effective_rules_exact_witness :
  exists groups, from_config staff_config = Some (Ok groups) /\
    exists order effective, reached_order staff_config [lit "staff"; lit "unknown"] order /\
      effective_permissions groups [lit "staff"; lit "unknown"] [] = Some effective /\ lit "op" ∈ order.
Proof.
  destruct (from_config staff_config) as [[groups|]|] eqn:E; [|exfalso; revert E; vm_compute; discriminate..]. exists groups. split; [done|].
  destruct (effective_rules_exact staff_config groups [lit "staff"; lit "unknown"] [] [] E) as [(order & Ho & Eff) _]. exists order, (concat (contributed (gs_groups groups) group_rules <$> order) ++ []).
  split; [done|]. split; [exact Eff|]. apply Ho. split; [vm_compute; by eexists|]. exists (lit "staff"). split; [right; by left|].
  apply rtc_once. eexists. split; [by vm_compute|]. right. by left.
Defined.

(** ** The manager *)

(** The groups are those of the configuration, and the configuration is what the store holds. *)
Definition manager_consistent (m : PermissionGroupManager) : Prop :=
  from_config (pm_config m) = Some (Ok (pm_groups m)) /\ (forall stored, pm_stored m = Some stored -> stored = pm_config m).

Lemma from_config_total config : is_Some (from_config config).
Proof.
  unfold from_config. destruct (validate_default_groups config (cf_default_groups config)); [|done]. destruct (cf_groups config !! OP_GROUP); [|done].
  pose proof (validate_inheritance_delivers config) as H. by destruct (validate_group_inheritance config) as [[|]|].
Qed.

(** A replacement takes place in full, in memory and in the store, or reports an error and
    changes nothing. *)
Lemma replace_config_ok m config saved :
  manager_consistent m ->
  exists m' r, replace_config_locked m config saved = Some (m', r) /\ manager_consistent m' /\
    match r with Ok _ => pm_config m' = config | Err _ => m' = m end.
Proof.
  intros Hm. unfold replace_config_locked. destruct (from_config_total config) as [r Er]. rewrite Er. cbn [mbind option_bind].
  destruct r as [groups|e]; [|by eexists _, _]. destruct (pm_stored m) as [stored|] eqn:Es; [|by eexists _, _].
  destruct saved as [[]|e]; [|by eexists _, _]. eexists _, _. split; [done|]. split; [|done]. split; [done|]. by intros ? [= <-].
Qed.

Lemma try_update_ok {T E} m (update : PermissionGroupsConfig -> PermissionGroupsConfig * result T E) saved :
  manager_consistent m ->
  exists m' r, try_update_config m update saved = Some (m', r) /\ manager_consistent m' /\
    match r with Ok _ => pm_config m' = (update (pm_config m)).1 | Err _ => m' = m end.
Proof.
  intros Hm. unfold try_update_config. destruct (update (pm_config m)) as [config [value|e]] eqn:Eu; [|by eexists _, _].
  case_decide as Ec; [eexists _, _; split; [done|]; by split|]. destruct (replace_config_ok m config saved Hm) as (m' & r & -> & Hm' & Hr). cbn [mbind option_bind].
  eexists _, _. split; [done|]. split; [done|]. by destruct r.
Qed.

(** The managers that a server can have: its store, if any, holds the initial configuration. *)
Inductive managed : PermissionGroupManager -> Prop :=
| managed_new config stored m : manager_new config stored = Some (Ok m) -> stored = None \/ stored = Some config -> managed m
| managed_replace m config saved m' r : managed m -> replace_config_locked m config saved = Some (m', r) -> managed m'
| managed_update m update saved m' r : managed m -> update_config m update saved = Some (m', r) -> managed m'
| managed_try m (update : PermissionGroupsConfig -> PermissionGroupsConfig * result unit text) saved m' r :
    managed m -> try_update_config m update saved = Some (m', r) -> managed m'.

Lemma managed_consistent m : managed m -> manager_consistent m.
Proof.
  induction 1 as [config stored m H Hs|m config saved m' r _ IH H|m update saved m' r _ IH H|m update saved m' r _ IH H].
  - unfold manager_new in H. destruct (from_config config) as [[groups|]|] eqn:E; [|done|done]. cbn in H. injection H as <-. split; [done|]. cbn. intros st ->.
    destruct Hs as [?|[= ->]]; done.
  - destruct (replace_config_ok m config saved IH) as (m1 & r1 & E & Hm & _). rewrite E in H. by injection H as <- _.
  - destruct (replace_config_ok m (update (pm_config m)) saved IH) as (m1 & r1 & E & Hm & _). unfold update_config in H. rewrite E in H. by injection H as <- _.
  - destruct (try_update_ok m update saved IH) as (m1 & r1 & E & Hm & _). rewrite E in H. by injection H as <- _.
Qed.

(** C38. Whatever updates a manager has seen and whichever saves failed, its groups are those
    of its configuration and the store, if there is one, holds that configuration; an update
    always ends, and either takes effect in full or reports an error and changes nothing. *)
Theorem group_updates_persist_first m (update : PermissionGroupsConfig -> PermissionGroupsConfig * result unit text) saved :
  managed m ->
  manager_consistent m /\
  exists m' r, try_update_config m update saved = Some (m', r) /\ manager_consistent m' /\
    match r with Ok _ => pm_config m' = (update (pm_config m)).1 | Err _ => m' = m end.
Proof. intros Hm%managed_consistent. split; [done|]. by apply try_update_ok. Qed.

Lemma group_updates_persist_first_witness :
  exists m, manager_new default_config (Some default_config) = Some (Ok m) /\
    exists r, try_update_config m (fun _ => (circular_config, @Ok unit text tt)) (Ok tt) = Some (m, Err r).
Proof.
  destruct (manager_new default_config (Some default_config)) as [[m|]|] eqn:E; [|exfalso; revert E; vm_compute; discriminate..]. exists m. split; [done|].
  assert (managed m) as Hm by (eapply managed_new; [exact E|by right]).
  destruct (group_updates_persist_first m (fun _ => (circular_config, @Ok unit text tt)) (Ok tt) Hm) as (_ & m' & r & Eu & _ & Hr).
  destruct r as [|e]; [|exists e; by rewrite Eu, Hr]. exfalso. revert Eu. clear -E. unfold manager_new in E.
  destruct (from_config default_config) as [[groups|]|] eqn:Eg; [|discriminate..]. cbn in E. injection E as <-. vm_compute. discriminate.
Defined.
