(* ===== verification/CommandReader.v ===== *)
(** * Reading command input

    Models [steel-core/src/command/brigadier/reader.rs] and the built-in arguments of
    [argument.rs]: a reader with a cursor in UTF-8 bytes and in UTF-16 units, over text as a
    list of Unicode scalar values.  A slice that does not fall on character boundaries is a
    panic, [None].  In every state that the operations reach the two cursors describe the
    same place, no operation panics, the built-in arguments read exactly the text of their
    values, and quoted strings read back what was written. *)

From Stdlib Require Import String.
From S2P Require Import Prelude Texts.

#[local] Open Scope list_scope.
#[local] Open Scope steel_scope.

(** ** Encoded lengths and slices *)

Definition len_utf8 (c : Z) : Z := if c <? 128 then 1 else if c <? 2048 then 2 else if c <? 65536 then 3 else 4.
Definition len_utf16 (c : Z) : Z := if c <? 65536 then 1 else 2.

Definition utf8_length (s : text) : Z := foldr (fun c n => len_utf8 c + n) 0 s.
Definition utf16_length (s : text) : Z := foldr (fun c n => len_utf16 c + n) 0 s.

(** [&s[n..]] and [&s[..n]]. *)
Fixpoint drop_bytes (s : text) (n : Z) : option text :=
  if n =? 0 then Some s
  else match s with [] => None | c :: s => if n <? len_utf8 c then None else drop_bytes s (n - len_utf8 c) end.
Fixpoint take_bytes (s : text) (n : Z) : option text :=
  if n =? 0 then Some []
  else match s with [] => None | c :: s => if n <? len_utf8 c then None else t ← take_bytes s (n - len_utf8 c); Some (c :: t) end.
(** [&s[a..b]]. *)
Definition slice (s : text) (a b : Z) : option text := rest ← drop_bytes s a; take_bytes rest (b - a).

(** ** The reader *)

Definition SYNTAX_ESCAPE : Z := 92.
Definition SYNTAX_DOUBLE_QUOTE : Z := 34.
Definition SYNTAX_SINGLE_QUOTE : Z := 39.
Definition SPACE : Z := 32.

Record ReaderCursor := mkCursor { rc_byte : Z; rc_utf16 : Z }.
Record StringReader := mkReader { sr_input : text; sr_total_length : Z; sr_cursor : ReaderCursor }.

(** The errors of commands; floating-point values are those of the parser parameter, a number
    stands for a text component. *)
Inductive CommandSyntaxErrorKind (F : Type) :=
| UnknownCommand | UnknownArgument | Dynamic (message : Z)
| ExpectedStartOfQuote | ExpectedEndOfQuote | InvalidEscape (character : Z)
| InvalidBool (value : text) | InvalidInt (value : text) | ExpectedInt | InvalidLong (value : text) | ExpectedLong
| InvalidDouble (value : text) | ExpectedDouble | InvalidFloat (value : text) | ExpectedFloat | ExpectedBool
| ExpectedSymbol (symbol : Z) | LiteralIncorrect (expected : text)
| IntegerTooLow (found minimum : Z) | IntegerTooHigh (found maximum : Z) | LongTooLow (found minimum : Z) | LongTooHigh (found maximum : Z)
| FloatTooLow (found minimum : F) | FloatTooHigh (found maximum : F) | DoubleTooLow (found minimum : F) | DoubleTooHigh (found maximum : F)
| ExpectedArgumentSeparator.
Arguments UnknownCommand {F}. Arguments UnknownArgument {F}. Arguments Dynamic {F}. Arguments ExpectedStartOfQuote {F}. Arguments ExpectedEndOfQuote {F}.
Arguments InvalidEscape {F}. Arguments InvalidBool {F}. Arguments InvalidInt {F}. Arguments ExpectedInt {F}. Arguments InvalidLong {F}.
Arguments ExpectedLong {F}. Arguments InvalidDouble {F}. Arguments ExpectedDouble {F}. Arguments InvalidFloat {F}. Arguments ExpectedFloat {F}.
Arguments ExpectedBool {F}. Arguments ExpectedSymbol {F}. Arguments LiteralIncorrect {F}. Arguments IntegerTooLow {F}. Arguments IntegerTooHigh {F}.
Arguments LongTooLow {F}. Arguments LongTooHigh {F}. Arguments FloatTooLow {F}. Arguments FloatTooHigh {F}. Arguments DoubleTooLow {F}.
Arguments DoubleTooHigh {F}. Arguments ExpectedArgumentSeparator {F}.

(** An error with the place where it was found. *)
Record CommandErrorContext := mkErrorContext { ec_input : text; ec_cursor : Z; ec_byte_cursor : Z }.
Record CommandSyntaxError (F : Type) := mkSyntaxError { se_kind : CommandSyntaxErrorKind F; se_context : option CommandErrorContext }.
Arguments mkSyntaxError {F}. Arguments se_kind {F}. Arguments se_context {F}.

Definition reader_new (input : text) : StringReader := mkReader input (utf16_length input) (mkCursor 0 0).
Definition with_cursor (r : StringReader) (cursor : ReaderCursor) : StringReader := mkReader (sr_input r) (sr_total_length r) cursor.

Definition remaining_length (r : StringReader) : Z := sr_total_length r - rc_utf16 (sr_cursor r).
Definition can_read (r : StringReader) : bool := rc_byte (sr_cursor r) <? utf8_length (sr_input r).
Definition can_read_length (r : StringReader) (length : Z) : bool := rc_utf16 (sr_cursor r) + length <=? sr_total_length r.
Definition remaining (r : StringReader) : option text := drop_bytes (sr_input r) (rc_byte (sr_cursor r)).
Definition read_so_far (r : StringReader) : option text := take_bytes (sr_input r) (rc_byte (sr_cursor r)).
Definition reader_peek (r : StringReader) : option (option Z) := s ← remaining r; Some (head s).

Definition advance (r : StringReader) (bytes units : Z) : StringReader :=
  with_cursor r (mkCursor (rc_byte (sr_cursor r) + bytes) (rc_utf16 (sr_cursor r) + units)).

Definition read (r : StringReader) : option (option Z * StringReader) :=
  next ← reader_peek r;
  Some (match next with None => (None, r) | Some c => (Some c, advance r (len_utf8 c) (len_utf16 c)) end).
Definition skip (r : StringReader) : option (bool * StringReader) := '(c, r) ← read r; Some (bool_decide (is_Some c), r).

Definition read_remaining (r : StringReader) : option (text * StringReader) :=
  s ← remaining r; Some (s, with_cursor r (mkCursor (utf8_length (sr_input r)) (sr_total_length r))).

Definition advance_bytes (r : StringReader) (bytes : Z) : option (bool * StringReader) :=
  s ← remaining r;
  Some (match take_bytes s bytes with None => (false, r) | Some consumed => (true, advance r bytes (utf16_length consumed)) end).

(** [while self.peek().is_some_and(p) { self.skip(); }]; [fuel] bounds the turns. *)
Fixpoint skip_while (fuel : nat) (p : Z -> bool) (r : StringReader) : option StringReader :=
  match fuel with
  | O => None
  | S fuel =>
      next ← reader_peek r;
      match next with
      | Some c => if p c then '(_, r) ← skip r; skip_while fuel p r else Some r
      | None => Some r
      end
  end.
Definition skip_fuel (r : StringReader) : nat := S (length (sr_input r)).

(** Java's [Character.isWhitespace]. *)
Definition java_is_whitespace (c : Z) : bool :=
  ((9 <=? c) && (c <=? 13)) || ((28 <=? c) && (c <=? 32)) || (c =? 5760) || ((8192 <=? c) && (c <=? 8198)) || ((8200 <=? c) && (c <=? 8202))
  || (c =? 8232) || (c =? 8233) || (c =? 8287) || (c =? 12288).

Definition is_ascii_alphanumeric (c : Z) : bool := is_ascii_lowercase c || ((65 <=? c) && (c <=? 90)) || is_ascii_digit c.
Definition is_allowed_number (c : Z) : bool := is_ascii_digit c || (c =? 46) || (c =? 45).
Definition is_quoted_string_start (c : Z) : bool := (c =? SYNTAX_DOUBLE_QUOTE) || (c =? SYNTAX_SINGLE_QUOTE).
Definition is_allowed_in_unquoted_string (c : Z) : bool := is_ascii_alphanumeric c || (c =? 95) || (c =? 45) || (c =? 46) || (c =? 43).

Definition skip_whitespace (r : StringReader) : option StringReader := skip_while (skip_fuel r) java_is_whitespace r.

(** What lies between a checkpoint and the cursor. *)
Definition read_while (p : Z -> bool) (r : StringReader) : option (text * StringReader) :=
  r' ← skip_while (skip_fuel r) p r;
  s ← slice (sr_input r) (rc_byte (sr_cursor r)) (rc_byte (sr_cursor r'));
  Some (s, r').
Definition read_unquoted_string (r : StringReader) : option (text * StringReader) := read_while is_allowed_in_unquoted_string r.
Definition read_unquoted_token (r : StringReader) : option (text * StringReader) := read_while (fun c => negb (java_is_whitespace c)) r.

(** A reading operation: a panic, or the result with the reader after it. *)
Abbreviation reading F A := (option (result A (CommandSyntaxError F) * StringReader)).

Section Reading.
  Context {F : Type}.

Definition reader_error (r : StringReader) (kind : CommandSyntaxErrorKind F) : CommandSyntaxError F :=
  mkSyntaxError kind (Some (mkErrorContext (sr_input r) (rc_utf16 (sr_cursor r)) (rc_byte (sr_cursor r)))).
Definition fail {A} (r : StringReader) (kind : CommandSyntaxErrorKind F) : reading F A := Some (Err (reader_error r kind), r).

(** The loop of [read_string_until]. *)
Fixpoint read_string_until (fuel : nat) (terminator : Z) (escaped : bool) (out : text) (r : StringReader) : reading F text :=
  match fuel with
  | O => None
  | S fuel =>
      if negb (can_read r) then fail r ExpectedEndOfQuote
      else
        '(c, r') ← read r;
        match c with
        | None => fail r' ExpectedEndOfQuote
        | Some character =>
            if escaped : bool then
              if (character =? terminator) || (character =? SYNTAX_ESCAPE) then read_string_until fuel terminator false (out ++ [character]) r'
              else fail r (InvalidEscape character)
            else if character =? SYNTAX_ESCAPE then read_string_until fuel terminator true out r'
            else if character =? terminator then Some (Ok out, r')
            else read_string_until fuel terminator false (out ++ [character]) r'
        end
  end.

Definition read_quoted_string (r : StringReader) : reading F text :=
  next ← reader_peek r;
  match next with
  | None => Some (Ok [], r)
  | Some terminator =>
      if negb (is_quoted_string_start terminator) then fail r ExpectedStartOfQuote
      else '(_, r) ← skip r; read_string_until (skip_fuel r) terminator false [] r
  end.

Definition read_string (r : StringReader) : reading F text :=
  next ← reader_peek r;
  match next with
  | None => Some (Ok [], r)
  | Some next =>
      if is_quoted_string_start next then '(_, r) ← skip r; read_string_until (skip_fuel r) next false [] r
      else '(s, r) ← read_unquoted_string r; Some (Ok s, r)
  end.

Definition read_number {T} (parse : text -> option T) (expected : CommandSyntaxErrorKind F) (invalid : text -> CommandSyntaxErrorKind F) (r : StringReader)
  : reading F T :=
  '(number, r') ← read_while is_allowed_number r;
  if decide (number = []) then fail r' expected
  else match parse number with
       | Some value => Some (Ok value, r')
       | None => fail r (invalid number)
       end.

Definition read_boolean (r : StringReader) : reading F bool :=
  '(value, r') ← read_string r;
  match value with
  | Err e => Some (Err e, r')
  | Ok value =>
      if decide (value = lit "true") then Some (Ok true, r')
      else if decide (value = lit "false") then Some (Ok false, r')
      else if decide (value = []) then fail r' ExpectedBool
      else fail r (InvalidBool value)
  end.

Definition reader_expect (r : StringReader) (expected : Z) : reading F unit :=
  next ← reader_peek r;
  if decide (next = Some expected) then '(_, r) ← skip r; Some (Ok tt, r) else fail r (ExpectedSymbol expected).
End Reading.

Definition try_read_literal (r : StringReader) (literal : text) : option (bool * StringReader) :=
  s ← remaining r;
  Some (match strip_prefix literal s with
        | None => (false, r)
        | Some after =>
            match head after with
            | Some c => if c =? SPACE then (true, advance r (utf8_length literal) (utf16_length literal)) else (false, r)
            | None => (true, advance r (utf8_length literal) (utf16_length literal))
            end
        end).

(** ** Integers *)

(** [i32::from_str] and [i64::from_str] on the characters that a number can have. *)
Fixpoint parse_digits (s : text) (value : Z) : option Z :=
  match s with
  | [] => Some value
  | c :: s => if is_ascii_digit c then parse_digits s (10 * value + (c - 48)) else None
  end.
Definition parse_signed (width : Z) (s : text) : option Z :=
  let value := match s with
               | [] => None
               | 45 :: [] => None
               | 45 :: digits => Z.opp <$> parse_digits digits 0
               | digits => parse_digits digits 0
               end in
  v ← value; if decide (- 2 ^ (width - 1) <= v < 2 ^ (width - 1)) then Some v else None.

Section Numbers.
  Context {F : Type}.
Definition read_int (r : StringReader) : reading F Z := read_number (parse_signed 32) ExpectedInt InvalidInt r.
Definition read_long (r : StringReader) : reading F Z := read_number (parse_signed 64) ExpectedLong InvalidLong r.
End Numbers.

(** ** Built-in arguments *)

(** The conversion of text to floating-point numbers, of the standard library. *)
Record FloatText (F : Type) := mkFloatText { ft_f32 : text -> option F; ft_f64 : text -> option F; ft_lt : F -> F -> bool }.
Arguments ft_f32 {F}. Arguments ft_f64 {F}. Arguments ft_lt {F}.

Inductive StringType := Word | QuotablePhrase | GreedyPhrase.

Inductive ArgumentType (F : Type) :=
| ArgBool
| ArgInteger (minimum maximum : Z)
| ArgLong (minimum maximum : Z)
| ArgFloat (minimum maximum : F)
| ArgDouble (minimum maximum : F)
| ArgString (type : StringType).
Arguments ArgBool {F}. Arguments ArgInteger {F}. Arguments ArgLong {F}. Arguments ArgFloat {F}. Arguments ArgDouble {F}. Arguments ArgString {F}.

Inductive PrimitiveArgumentValue (F : Type) :=
| ValueBool (value : bool) | ValueInteger (value : Z) | ValueLong (value : Z) | ValueFloat (value : F) | ValueDouble (value : F) | ValueString (value : text).
Arguments ValueBool {F}. Arguments ValueInteger {F}. Arguments ValueLong {F}. Arguments ValueFloat {F}. Arguments ValueDouble {F}. Arguments ValueString {F}.

Section Arguments.
  Context {F : Type} (float : FloatText F).

(** A number within bounds; out of bounds the reader goes back. *)
Definition bounded {T} (number : StringReader -> reading F T) (lt : T -> T -> bool) (minimum maximum : T)
  (low high : T -> T -> CommandSyntaxErrorKind F) (wrap : T -> PrimitiveArgumentValue F) (r : StringReader) : reading F (PrimitiveArgumentValue F) :=
  '(value, r') ← number r;
  match value with
  | Err e => Some (Err e, r')
  | Ok value =>
      if lt value minimum then fail r (low value minimum)
      else if lt maximum value then fail r (high value maximum)
      else Some (Ok (wrap value), r')
  end.

Definition read_float (r : StringReader) : reading F F := read_number (ft_f32 float) ExpectedFloat InvalidFloat r.
Definition read_double (r : StringReader) : reading F F := read_number (ft_f64 float) ExpectedDouble InvalidDouble r.

Definition parse_value (argument : ArgumentType F) (r : StringReader) : reading F (PrimitiveArgumentValue F) :=
  match argument with
  | ArgBool => '(value, r) ← read_boolean r; Some (let? value := value in Ok (ValueBool value), r)
  | ArgInteger minimum maximum => bounded read_int Z.ltb minimum maximum IntegerTooLow IntegerTooHigh ValueInteger r
  | ArgLong minimum maximum => bounded read_long Z.ltb minimum maximum LongTooLow LongTooHigh ValueLong r
  | ArgFloat minimum maximum => bounded read_float (ft_lt float) minimum maximum FloatTooLow FloatTooHigh ValueFloat r
  | ArgDouble minimum maximum => bounded read_double (ft_lt float) minimum maximum DoubleTooLow DoubleTooHigh ValueDouble r
  | ArgString Word => '(value, r) ← read_unquoted_string r; Some (Ok (ValueString value), r)
  | ArgString QuotablePhrase => '(value, r) ← read_string r; Some (let? value := value in Ok (ValueString value), r)
  | ArgString GreedyPhrase => '(value, r) ← read_remaining r; Some (Ok (ValueString value), r)
  end.
End Arguments.

(** ** Where a reader stands *)

(** The cursor is between [before] and [after], in both units. *)
Definition reader_at (r : StringReader) (before after : text) : Prop :=
  sr_input r = before ++ after /\ sr_total_length r = utf16_length (sr_input r) /\ sr_cursor r = mkCursor (utf8_length before) (utf16_length before).

Lemma utf8_length_app s t : utf8_length (s ++ t) = utf8_length s + utf8_length t.
Proof. unfold utf8_length. induction s as [|c s IH]; simpl; [done|]. rewrite IH. lia. Qed.
Lemma utf16_length_app s t : utf16_length (s ++ t) = utf16_length s + utf16_length t.
Proof. unfold utf16_length. induction s as [|c s IH]; simpl; [done|]. rewrite IH. lia. Qed.

Lemma len_utf8_pos c : 0 < len_utf8 c.
Proof. unfold len_utf8. repeat case_match; lia. Qed.
Lemma len_utf16_pos c : 0 < len_utf16 c.
Proof. unfold len_utf16. repeat case_match; lia. Qed.
Lemma utf8_length_nonneg s : 0 <= utf8_length s.
Proof. unfold utf8_length. induction s as [|c s IH]; simpl; [done|]. pose proof (len_utf8_pos c). lia. Qed.
Lemma utf16_length_nonneg s : 0 <= utf16_length s.
Proof. unfold utf16_length. induction s as [|c s IH]; simpl; [done|]. pose proof (len_utf16_pos c). lia. Qed.
Lemma utf8_length_cons c s : utf8_length (c :: s) = len_utf8 c + utf8_length s.
Proof. done. Qed.
Lemma utf16_length_cons c s : utf16_length (c :: s) = len_utf16 c + utf16_length s.
Proof. done. Qed.

Lemma drop_bytes_app s t : drop_bytes (s ++ t) (utf8_length s) = Some t.
Proof.
  induction s as [|c s IH]; [by destruct t|]. cbn [app drop_bytes]. rewrite utf8_length_cons. pose proof (len_utf8_pos c). pose proof (utf8_length_nonneg s).
  destruct (Z.eqb_spec (len_utf8 c + utf8_length s) 0); [lia|]. destruct (Z.ltb_spec (len_utf8 c + utf8_length s) (len_utf8 c)); [lia|].
  by replace (len_utf8 c + utf8_length s - len_utf8 c) with (utf8_length s) by lia.
Qed.

Lemma take_bytes_app s t : take_bytes (s ++ t) (utf8_length s) = Some s.
Proof.
  induction s as [|c s IH]; [by destruct t|]. cbn [app take_bytes]. rewrite utf8_length_cons. pose proof (len_utf8_pos c). pose proof (utf8_length_nonneg s).
  destruct (Z.eqb_spec (len_utf8 c + utf8_length s) 0); [lia|]. destruct (Z.ltb_spec (len_utf8 c + utf8_length s) (len_utf8 c)); [lia|].
  replace (len_utf8 c + utf8_length s - len_utf8 c) with (utf8_length s) by lia. by rewrite IH.
Qed.

Lemma take_bytes_split s n t : take_bytes s n = Some t -> exists u, s = t ++ u /\ n = utf8_length t.
Proof.
  revert n t. induction s as [|c s IH]; intros n t; cbn [take_bytes]; (destruct (Z.eqb_spec n 0) as [->|Hn]; [intros [= <-]; by eexists|]); [done|].
  destruct (n <? len_utf8 c); [done|]. destruct (take_bytes s (n - len_utf8 c)) as [t'|] eqn:E; [|done]. intros [= <-]. destruct (IH _ _ E) as (u & -> & Hu).
  exists u. split; [done|]. rewrite utf8_length_cons. lia.
Qed.

Lemma reader_new_at input : reader_at (reader_new input) [] input.
Proof. done. Qed.

Section At.
  Context (r : StringReader) (before after : text) (at_r : reader_at r before after).

Lemma remaining_at : remaining r = Some after.
Proof using at_r. destruct at_r as (Hi & _ & Hc). unfold remaining. rewrite Hi, Hc. apply drop_bytes_app. Qed.
Lemma peek_at : reader_peek r = Some (head after).
Proof using at_r. unfold reader_peek. by rewrite remaining_at. Qed.

Lemma advance_at s t : after = s ++ t -> reader_at (advance r (utf8_length s) (utf16_length s)) (before ++ s) t.
Proof using at_r.
  intros ->. destruct at_r as (Hi & Ht & Hc). split; [|split]; unfold advance, with_cursor; cbn [sr_input sr_total_length sr_cursor].
  - by rewrite Hi, app_assoc.
  - done.
  - rewrite Hc, utf8_length_app, utf16_length_app. done.
Qed.

Lemma read_at : match after with
                | [] => read r = Some (None, r)
                | c :: rest => exists r', read r = Some (Some c, r') /\ reader_at r' (before ++ [c]) rest /\ sr_input r' = sr_input r
                end.
Proof using at_r.
  unfold read. rewrite peek_at. pose proof (fun c rest => advance_at [c] rest) as H. destruct after as [|c rest]; cbn; [done|]. eexists. split; [done|].
  split; [|done]. specialize (H c rest eq_refl). by rewrite utf8_length_cons, utf16_length_cons, !Z.add_0_r in H.
Qed.

Lemma skip_at c rest : after = c :: rest -> exists r', skip r = Some (true, r') /\ reader_at r' (before ++ [c]) rest /\ sr_input r' = sr_input r.
Proof using at_r. intros E. pose proof read_at as H. rewrite E in H. destruct H as (r' & H & Hr). exists r'. split; [|done]. unfold skip. by rewrite H. Qed.

Lemma can_read_at : can_read r = negb (bool_decide (after = [])).
Proof using at_r.
  destruct at_r as (Hi & _ & Hc). unfold can_read. rewrite Hi, Hc, utf8_length_app. cbn [rc_byte]. destruct after as [|c rest]; case_bool_decide as E; try done; cbn [negb].
  - apply Z.ltb_ge. change (utf8_length []) with 0. lia.
  - apply Z.ltb_lt. rewrite utf8_length_cons. pose proof (len_utf8_pos c). pose proof (utf8_length_nonneg rest). lia.
Qed.

Lemma can_read_length_at n : can_read_length r n = (n <=? utf16_length after).
Proof using at_r.
  destruct at_r as (Hi & Ht & Hc). unfold can_read_length. rewrite Ht, Hi, Hc, utf16_length_app. cbn [rc_utf16].
  destruct (Z.leb_spec n (utf16_length after)); [apply Z.leb_le|apply Z.leb_gt]; lia.
Qed.

Lemma slice_at r' s t : after = s ++ t -> reader_at r' (before ++ s) t -> slice (sr_input r) (rc_byte (sr_cursor r)) (rc_byte (sr_cursor r')) = Some s.
Proof using at_r.
  intros E (_ & _ & Hc'). destruct at_r as (Hi & _ & Hc). unfold slice. rewrite Hi, Hc, Hc'. cbn [rc_byte]. rewrite drop_bytes_app. cbn [mbind option_bind].
  rewrite utf8_length_app, E. replace (utf8_length before + utf8_length s - utf8_length before) with (utf8_length s) by lia. apply take_bytes_app.
Qed.
End At.

(** The longest prefix of characters that satisfy [p]. *)
Fixpoint prefix_while (p : Z -> bool) (s : text) : text := match s with c :: s => if p c then c :: prefix_while p s else [] | [] => [] end.
Fixpoint suffix_while (p : Z -> bool) (s : text) : text := match s with c :: s' => if p c then suffix_while p s' else s | [] => [] end.

Lemma prefix_suffix_while p s : s = prefix_while p s ++ suffix_while p s.
Proof. induction s as [|c s IH]; simpl; [done|]. destruct (p c); [|done]. simpl. by rewrite <- IH. Qed.

Lemma skip_while_at fuel p r before after :
  reader_at r before after -> (length after < fuel)%nat ->
  exists r', skip_while fuel p r = Some r' /\ reader_at r' (before ++ prefix_while p after) (suffix_while p after) /\ sr_input r' = sr_input r.
Proof.
  revert r before after. induction fuel as [|fuel IH]; intros r before after Hr Hfuel; [lia|]. cbn [skip_while]. rewrite (peek_at _ _ _ Hr). cbn [mbind option_bind].
  destruct after as [|c rest]; cbn [head prefix_while suffix_while]; [exists r; by rewrite app_nil_r|].
  destruct (p c); [|exists r; by rewrite app_nil_r]. destruct (skip_at _ _ _ Hr c rest eq_refl) as (r1 & -> & Hr1 & Hi). cbn [mbind option_bind].
  destruct (IH r1 _ rest Hr1) as (r' & -> & Hr' & Hi'); [simpl in Hfuel; lia|]. exists r'. split; [done|]. rewrite <- app_assoc in Hr'. split; [done|congruence].
Qed.

Lemma at_length r before after : reader_at r before after -> (length after < skip_fuel r)%nat.
Proof. intros (Hi & _). unfold skip_fuel. rewrite Hi, length_app. lia. Qed.

Lemma read_while_at p r before after :
  reader_at r before after ->
  exists r', read_while p r = Some (prefix_while p after, r') /\ reader_at r' (before ++ prefix_while p after) (suffix_while p after) /\ sr_input r' = sr_input r.
Proof.
  intros Hr. unfold read_while. destruct (skip_while_at (skip_fuel r) p r before after Hr (at_length _ _ _ Hr)) as (r' & -> & Hr' & Hi). cbn [mbind option_bind].
  rewrite (slice_at _ _ _ Hr r' _ _ (prefix_suffix_while p after) Hr'). by exists r'.
Qed.

(** ** What the operations read *)

(** An operation returns and leaves the reader [s] further on. *)
Definition reads {A} (before after : text) (o : option (A * StringReader)) (Q : A -> text -> Prop) : Prop :=
  exists a r s t, o = Some (a, r) /\ after = s ++ t /\ reader_at r (before ++ s) t /\ Q a s.

Lemma reads_mono {A} before after (o : option (A * StringReader)) (Q Q' : A -> text -> Prop) :
  reads before after o Q -> (forall a s, Q a s -> Q' a s) -> reads before after o Q'.
Proof. intros (a & r & s & t & -> & -> & Hr & HQ) H. exists a, r, s, t. auto. Qed.

Lemma reads_nothing {A} r before after (a : A) (Q : A -> text -> Prop) : reader_at r before after -> Q a [] -> reads before after (Some (a, r)) Q.
Proof. intros Hr HQ. exists a, r, [], after. by rewrite app_nil_r. Qed.

(** *** What there is to read *)

Definition rejected {A E} (res : result A E) : Prop := match res with Ok _ => False | Err _ => True end.

(** The text between quotes [quote] for a value: the quote and the backslash are escaped. *)
Inductive quoted_body (quote : Z) : text -> text -> Prop :=
| quoted_nil : quoted_body quote [] []
| quoted_plain c body value : c <> quote -> c <> SYNTAX_ESCAPE -> quoted_body quote body value -> quoted_body quote (c :: body) (c :: value)
| quoted_escape c body value : c = quote \/ c = SYNTAX_ESCAPE -> quoted_body quote body value -> quoted_body quote (SYNTAX_ESCAPE :: c :: body) (c :: value).

(** A string at the start of [after]: between quotes, or the longest run of plain characters. *)
Definition string_read {E} (after : text) (res : result text E) (s : text) : Prop :=
  match after with
  | [] => res = Ok [] /\ s = []
  | c :: rest =>
      if is_quoted_string_start c then
        match res with
        | Ok value => exists body t, rest = body ++ c :: t /\ s = c :: body ++ [c] /\ quoted_body c body value
        | Err _ => forall body value t, rest = body ++ c :: t -> ~ quoted_body c body value
        end
      else res = Ok s /\ s = prefix_while is_allowed_in_unquoted_string after
  end.

(** A number at the start of [after]: the longest run of number characters, if it is one that
    is [accepted].  Otherwise nothing is read. *)
Definition number_read {T A E} (parse : text -> option T) (accepted : T -> bool) (wrap : T -> A) (after : text) (res : result A E) (s : text) : Prop :=
  let number := prefix_while is_allowed_number after in
  match (if decide (number = []) then None else parse number) with
  | Some v => if accepted v then res = Ok (wrap v) /\ s = number else rejected res /\ s = []
  | None => rejected res /\ s = []
  end.

Lemma number_read_map {T A E} (parse : text -> option T) (accepted accepted' : T -> bool) (wrap : T -> A) after (res : result A E) s :
  (forall v, accepted v = accepted' v) -> number_read parse accepted wrap after res s -> number_read parse accepted' wrap after res s.
Proof. unfold number_read. intros H. destruct (if decide _ then _ else _) as [v|]; [by rewrite H|done]. Qed.

Section Reads.
  Context {F : Type}.

Lemma fail_reads {A} r before after (kind : CommandSyntaxErrorKind F) (Q : result A (CommandSyntaxError F) -> text -> Prop) :
  reader_at r before after -> Q (Err (reader_error r kind)) [] -> reads before after (fail r kind) Q.
Proof. apply reads_nothing. Qed.

Lemma read_while_reads p r before after (Q : text -> text -> Prop) :
  reader_at r before after -> Q (prefix_while p after) (prefix_while p after) -> reads before after (read_while p r) Q.
Proof.
  intros Hr HQ. destruct (read_while_at p r before after Hr) as (r' & -> & Hr' & _). eexists _, r', _, _. split; [done|]. split; [apply (prefix_suffix_while p)|]. done.
Qed.

Lemma read_number_reads {T} (parse : text -> option T) (expected : CommandSyntaxErrorKind F) invalid r before after :
  reader_at r before after -> reads before after (read_number parse expected invalid r) (number_read parse (fun _ => true) id after).
Proof.
  intros Hr. unfold read_number, number_read. destruct (read_while_at is_allowed_number r before after Hr) as (r' & -> & Hr' & _). cbn [mbind option_bind].
  destruct (decide (prefix_while is_allowed_number after = [])) as [E|E]; [rewrite !decide_True by done|rewrite !decide_False by done].
  - assert (suffix_while is_allowed_number after = after) as Es by (rewrite (prefix_suffix_while is_allowed_number after) at 2; by rewrite E).
    rewrite E, Es, app_nil_r in Hr'. by apply fail_reads.
  - destruct (parse _) as [v|] eqn:Ep; [|by apply fail_reads]. eexists _, r', _, _. split; [done|]. split; [apply (prefix_suffix_while is_allowed_number)|]. done.
Qed.

(** Reading on inside quotes, after a backslash when [escaped]. *)
Definition rest_read (terminator : Z) (escaped : bool) (out after : text) (res : result text (CommandSyntaxError F)) (s : text) : Prop :=
  let inside body := if escaped then SYNTAX_ESCAPE :: body else body in
  match res with
  | Ok value => exists body more, s = body ++ [terminator] /\ value = out ++ more /\ quoted_body terminator (inside body) more
  | Err _ => forall body more t, after = body ++ terminator :: t -> ~ quoted_body terminator (inside body) more
  end.

(** One more character: what is read after it is read with it. *)
Lemma rest_read_step terminator escaped out c rest escaped' out' res s :
  terminator <> SYNTAX_ESCAPE ->
  (escaped = true /\ (c = terminator \/ c = SYNTAX_ESCAPE) /\ escaped' = false /\ out' = out ++ [c]) \/
  (escaped = false /\ c = SYNTAX_ESCAPE /\ escaped' = true /\ out' = out) \/
  (escaped = false /\ c <> SYNTAX_ESCAPE /\ c <> terminator /\ escaped' = false /\ out' = out ++ [c]) ->
  rest_read terminator escaped' out' rest res s -> rest_read terminator escaped out (c :: rest) res (c :: s).
Proof.
  intros Ht H. unfold rest_read. destruct res as [value|e].
  - intros (body & more & -> & -> & Hb). destruct H as [(-> & Hc & -> & ->)|[(-> & -> & -> & ->)|(-> & H1 & H2 & -> & ->)]].
    + exists (c :: body), (c :: more). split; [done|]. split; [by rewrite <- app_assoc|]. by constructor.
    + by exists (SYNTAX_ESCAPE :: body), more.
    + exists (c :: body), (c :: more). split; [done|]. split; [by rewrite <- app_assoc|]. by constructor.
  - intros Hno body more t E Hb. destruct H as [(-> & Hc & -> & ->)|[(-> & -> & -> & ->)|(-> & H1 & H2 & -> & ->)]].
    + inversion Hb as [|? ? ? _ ? _|c' body' more' _ Hb']; subst; [done|]. injection E as -> ->. by eapply (Hno body' more' t).
    + destruct body as [|c' body]; injection E as E1 E2; [congruence|]. subst c'. by eapply (Hno body more t).
    + destruct body as [|c' body]; injection E as -> ->; [done|]. inversion Hb; subst; [|done]. by eapply Hno.
Qed.

Lemma read_string_until_reads fuel terminator escaped out r before after :
  terminator <> SYNTAX_ESCAPE -> reader_at r before after -> (length after < fuel)%nat ->
  reads before after (read_string_until fuel terminator escaped out r) (rest_read terminator escaped out after).
Proof.
  intros Ht. revert escaped out r before after. induction fuel as [|fuel IH]; intros escaped out r before after Hr Hfuel; [lia|]. cbn [read_string_until].
  rewrite (can_read_at _ _ _ Hr). pose proof (read_at _ _ _ Hr) as Hread. destruct after as [|c rest]; [apply fail_reads; [done|]; by intros [|] more t|].
  destruct Hread as (r' & -> & Hr' & _). cbn [negb bool_decide mbind option_bind]. case_bool_decide as Hn; [done|]. cbn [negb].
  assert (forall escaped' out', (forall res s, rest_read terminator escaped' out' rest res s -> rest_read terminator escaped out (c :: rest) res (c :: s)) ->
    reads before (c :: rest) (read_string_until (F := F) fuel terminator escaped' out' r') (rest_read terminator escaped out (c :: rest))) as Hgo.
  { intros e o Hstep. destruct (IH e o r' (before ++ [c]) rest Hr') as (a & r2 & s & t & -> & -> & Hr2 & Hs); [simpl in Hfuel; lia|].
    exists a, r2, (c :: s), t. rewrite <- app_assoc in Hr2. auto. }
  destruct escaped.
  - destruct ((c =? terminator) || (c =? SYNTAX_ESCAPE)) eqn:Ec.
    + apply Hgo. intros res s. apply rest_read_step; [done|]. left. split; [done|]. apply orb_true_iff in Ec as [->%Z.eqb_eq| ->%Z.eqb_eq]; auto.
    + apply fail_reads; [done|]. intros body more t E Hb. apply orb_false_iff in Ec as [E1%Z.eqb_neq E2%Z.eqb_neq].
      inversion Hb as [|? ? ? _ ? _|c' body' more' Hc _]; subst; [done|]. injection E as -> _. naive_solver.
  - destruct (Z.eqb_spec c SYNTAX_ESCAPE) as [->|H1]; [apply Hgo; intros res s; apply rest_read_step; naive_solver|].
    destruct (Z.eqb_spec c terminator) as [->|H2]; [|apply Hgo; intros res s; apply rest_read_step; naive_solver].
    exists (Ok out), r', [terminator], rest. split; [done|]. split; [done|]. split; [done|]. exists [], []. rewrite app_nil_r. split; [done|]. split; [done|constructor].
Qed.

Lemma read_string_reads r before after : reader_at r before after -> reads before after (read_string (F := F) r) (string_read after).
Proof.
  intros Hr. unfold read_string. rewrite (peek_at _ _ _ Hr). cbn [mbind option_bind]. destruct after as [|c rest]; cbn [head]; [by apply reads_nothing|].
  destruct (is_quoted_string_start c) eqn:Hq.
  - assert (c <> SYNTAX_ESCAPE) as Hc by (by intros ->). destruct (skip_at _ _ _ Hr c rest eq_refl) as (r' & -> & Hr' & _). cbn [mbind option_bind].
    destruct (read_string_until_reads (skip_fuel r') c false [] r' _ rest Hc Hr') as (a & r2 & s & t & -> & -> & Hr2 & Hs); [by eapply at_length|].
    exists a, r2, (c :: s), t. rewrite <- app_assoc in Hr2. split; [done|]. split; [done|]. split; [done|]. unfold string_read, rest_read in *. rewrite Hq. destruct a as [value|e]; [|done].
    destruct Hs as (body & more & -> & -> & Hb). exists body, t. by rewrite <- app_assoc.
  - unfold read_unquoted_string. destruct (read_while_at is_allowed_in_unquoted_string r before (c :: rest) Hr) as (r' & -> & Hr' & _). cbn [mbind option_bind].
    eexists _, r', _, _. split; [done|]. split; [apply prefix_suffix_while|]. split; [done|]. unfold string_read. by rewrite Hq.
Qed.

(** A string that is [true] or [false]. *)
Definition bool_text (b : bool) : text := if b then lit "true" else lit "false".
Definition bool_read (after : text) (res : result bool (CommandSyntaxError F)) (s : text) : Prop :=
  match res with
  | Ok b => string_read (E := CommandSyntaxError F) after (Ok (bool_text b)) s
  | Err _ => exists res' s', string_read (E := CommandSyntaxError F) after res' s' /\ forall b, res' <> Ok (bool_text b)
  end.

Lemma read_boolean_reads r before after : reader_at r before after -> reads before after (read_boolean (F := F) r) (bool_read after).
Proof.
  intros Hr. unfold read_boolean. destruct (read_string_reads r before after Hr) as (res & r' & s & t & -> & Es & Hr' & Hs). cbn [mbind option_bind].
  assert (forall a, bool_read after a s -> reads before after (Some (a, r')) (bool_read after)) as Hdone by (intros a; exists a, r', s, t; done).
  destruct res as [value|e]; [|apply Hdone; by exists (Err e), s].
  case_decide as H1; [apply Hdone; by rewrite H1 in Hs|]. case_decide as H2; [apply Hdone; by rewrite H2 in Hs|].
  assert (forall b, Ok value <> Ok (E := CommandSyntaxError F) (bool_text b)) as Hno by (intros [] [= E]; [by apply H1|by apply H2]).
  case_decide; [apply Hdone; by exists (Ok value), s|]. apply fail_reads; [done|]. by exists (Ok value), s.
Qed.

Lemma bounded_reads {T} (number : StringReader -> reading F T) lt minimum maximum low high wrap r before after (parse : text -> option T) :
  reader_at r before after -> reads before after (number r) (number_read parse (fun _ => true) id after) ->
  reads before after (bounded number lt minimum maximum low high wrap r)
    (number_read parse (fun v => negb (lt v minimum) && negb (lt maximum v)) wrap after).
Proof.
  intros Hr (res & r' & s & t & E & -> & Hr' & HQ). unfold bounded, number_read in *. rewrite E. cbn [mbind option_bind].
  destruct (if decide _ then _ else _) as [v|].
  - destruct HQ as [-> Es]. cbn [id]. destruct (lt v minimum) eqn:E1; [by apply fail_reads|]. destruct (lt maximum v) eqn:E2; [by apply fail_reads|].
    exists (Ok (wrap v)), r', s, t. done.
  - destruct HQ as [Hres ->]. destruct res as [v|e]; [done|]. by exists (Err e), r', [], t.
Qed.
End Reads.

(** ** The built-in arguments *)

(** What an argument reads at the start of [after]: its value, out of the text [s]. *)
Definition argument_read {F} (float : FloatText F) (argument : ArgumentType F) (after : text) (res : result (PrimitiveArgumentValue F) (CommandSyntaxError F)) (s : text) : Prop :=
  match argument with
  | ArgBool => exists b, res = (let? b := b in Ok (ValueBool b)) /\ bool_read after b s
  | ArgInteger minimum maximum => number_read (parse_signed 32) (fun v => bool_decide (minimum <= v <= maximum)) ValueInteger after res s
  | ArgLong minimum maximum => number_read (parse_signed 64) (fun v => bool_decide (minimum <= v <= maximum)) ValueLong after res s
  | ArgFloat minimum maximum => number_read (ft_f32 float) (fun v => negb (ft_lt float v minimum) && negb (ft_lt float maximum v)) ValueFloat after res s
  | ArgDouble minimum maximum => number_read (ft_f64 float) (fun v => negb (ft_lt float v minimum) && negb (ft_lt float maximum v)) ValueDouble after res s
  | ArgString Word => res = Ok (ValueString s) /\ s = prefix_while is_allowed_in_unquoted_string after
  | ArgString QuotablePhrase => exists value, res = (let? value := value in Ok (ValueString value)) /\ string_read after value s
  | ArgString GreedyPhrase => res = Ok (ValueString s) /\ s = after
  end.

Lemma within_bounds v minimum maximum : negb (v <? minimum) && negb (maximum <? v) = bool_decide (minimum <= v <= maximum).
Proof. rewrite bool_decide_and. unfold bool_decide. repeat case_decide; destruct (Z.ltb_spec v minimum), (Z.ltb_spec maximum v); simpl; lia || done. Qed.

Lemma parse_value_reads {F} (float : FloatText F) argument r before after :
  reader_at r before after -> reads before after (parse_value float argument r) (argument_read float argument after).
Proof.
  intros Hr. destruct argument as [|min max|min max|min max|min max|[| |]]; cbn [parse_value argument_read].
  - destruct (read_boolean_reads (F := F) r before after Hr) as (res & r' & s & t & -> & -> & Hr' & Hs). eexists _, r', s, t. split; [done|]. split; [done|]. split; [done|]. by exists res.
  - eapply reads_mono; [apply (bounded_reads _ _ _ _ _ _ _ _ _ _ (parse_signed 32) Hr); by apply read_number_reads|]. intros res s. apply number_read_map. intros v. apply within_bounds.
  - eapply reads_mono; [apply (bounded_reads _ _ _ _ _ _ _ _ _ _ (parse_signed 64) Hr); by apply read_number_reads|]. intros res s. apply number_read_map. intros v. apply within_bounds.
  - apply (bounded_reads _ _ _ _ _ _ _ _ _ _ (ft_f32 float) Hr). by apply read_number_reads.
  - apply (bounded_reads _ _ _ _ _ _ _ _ _ _ (ft_f64 float) Hr). by apply read_number_reads.
  - unfold read_unquoted_string. destruct (read_while_at is_allowed_in_unquoted_string r before after Hr) as (r' & -> & Hr' & _). cbn [mbind option_bind].
    eexists _, r', _, _. split; [done|]. split; [apply prefix_suffix_while|]. done.
  - destruct (read_string_reads (F := F) r before after Hr) as (res & r' & s & t & -> & -> & Hr' & Hs). eexists _, r', s, t. split; [done|]. split; [done|]. split; [done|]. by exists res.
  - unfold read_remaining. rewrite (remaining_at _ _ _ Hr). cbn [mbind option_bind]. eexists _, _, after, []. split; [done|]. split; [by rewrite app_nil_r|]. split; [|done].
    destruct Hr as (Hi & Ht & Hc). split; [by rewrite app_nil_r|]. split; [done|]. cbn [sr_cursor with_cursor]. by rewrite Ht, Hi.
Qed.



(** ** Quoted strings *)

Definition escape_char (quote c : Z) : text := if (c =? quote) || (c =? SYNTAX_ESCAPE) then [SYNTAX_ESCAPE; c] else [c].
Definition quoted (quote : Z) (s : text) : text := quote :: concat (escape_char quote <$> s) ++ [quote].

Lemma read_until_quoted {F} fuel quote s out r before rest :
  quote <> SYNTAX_ESCAPE -> reader_at r before (concat (escape_char quote <$> s) ++ quote :: rest) -> (length (concat (escape_char quote <$> s) ++ quote :: rest) < fuel)%nat ->
  exists r', read_string_until (F := F) fuel quote false out r = Some (Ok (out ++ s), r') /\ reader_at r' (before ++ concat (escape_char quote <$> s) ++ [quote]) rest.
Proof.
  intros Hq. revert fuel out r before. induction s as [|c s IH]; intros fuel out r before Hr Hfuel; (destruct fuel as [|fuel]; [lia|]).
  - cbn [fmap list_fmap concat app] in *. pose proof (read_at _ _ _ Hr) as (r' & Hread & Hr' & _). cbn [read_string_until]. rewrite (can_read_at _ _ _ Hr), Hread.
    cbn [mbind option_bind negb bool_decide]. case_bool_decide; [done|]. cbn [negb]. destruct (Z.eqb_spec quote SYNTAX_ESCAPE); [done|]. rewrite Z.eqb_refl, app_nil_r. by exists r'.
  - assert (forall fuel r1 pre, reader_at r1 pre (concat (escape_char quote <$> s) ++ quote :: rest) -> (length (concat (escape_char quote <$> s) ++ quote :: rest) < fuel)%nat ->
      exists r', read_string_until (F := F) fuel quote false (out ++ [c]) r1 = Some (Ok (out ++ c :: s), r') /\ reader_at r' (pre ++ concat (escape_char quote <$> s) ++ [quote]) rest) as Hgo.
    { intros f r1 pre H1 Hf. destruct (IH f (out ++ [c]) r1 pre H1 Hf) as (r' & E & H'). rewrite <- app_assoc in E. by exists r'. }
    clear IH. cbn [fmap list_fmap concat] in *. set (e := concat (list_fmap _ _ (escape_char quote) s)) in *. change (concat (escape_char quote <$> s)) with e in *.
    unfold escape_char in Hr, Hfuel |- *. destruct ((c =? quote) || (c =? SYNTAX_ESCAPE)) eqn:Ec; cbn [app] in *.
    + pose proof (read_at _ _ _ Hr) as (r1 & Hread & Hr1 & _). cbn [read_string_until]. rewrite (can_read_at _ _ _ Hr), Hread. cbn [mbind option_bind].
      case_bool_decide; [done|]. cbn [negb]. rewrite Z.eqb_refl. destruct fuel as [|fuel]; [simpl in Hfuel; lia|].
      pose proof (read_at _ _ _ Hr1) as (r2 & Hread2 & Hr2 & _). cbn [read_string_until]. rewrite (can_read_at _ _ _ Hr1), Hread2. cbn [mbind option_bind].
      case_bool_decide; [done|]. cbn [negb]. rewrite Ec. destruct (Hgo fuel r2 _ Hr2) as (r' & -> & Hr'); [simpl in Hfuel; lia|]. exists r'. split; [done|].
      by rewrite <- !app_assoc in Hr'.
    + pose proof (read_at _ _ _ Hr) as (r1 & Hread & Hr1 & _). cbn [read_string_until]. rewrite (can_read_at _ _ _ Hr), Hread. cbn [mbind option_bind].
      case_bool_decide; [done|]. cbn [negb]. apply orb_false_iff in Ec as [Ec1 Ec2]. rewrite Ec2, Ec1. destruct (Hgo fuel r1 _ Hr1) as (r' & -> & Hr'); [simpl in Hfuel; lia|].
      exists r'. split; [done|]. by rewrite <- !app_assoc in Hr'.
Qed.

(** Any text written between quotes, single or double, with the quote and the backslash
    escaped, is read back as that text, and the reader stops right after the closing quote. *)
Theorem quoted_string_reads_back {F} quote s rest r before :
  is_quoted_string_start quote = true -> reader_at r before (quoted quote s ++ rest) ->
  exists r', read_string (F := F) r = Some (Ok s, r') /\ read_quoted_string (F := F) r = Some (Ok s, r') /\ reader_at r' (before ++ quoted quote s) rest.
Proof.
  intros Hq Hr. assert (quote <> SYNTAX_ESCAPE) as Hne by (intros ->; done). unfold quoted in *. cbn [app] in Hr. rewrite <- app_assoc in Hr. cbn [app] in Hr.
  destruct (skip_at _ _ _ Hr quote _ eq_refl) as (r1 & Hskip & Hr1 & Hi). pose proof (at_length _ _ _ Hr1) as Hlen.
  destruct (read_until_quoted (F := F) (skip_fuel r1) quote s [] r1 _ rest Hne Hr1 Hlen) as (r' & E & Hr'). exists r'.
  unfold read_string, read_quoted_string. rewrite (peek_at _ _ _ Hr). cbn [mbind option_bind head]. rewrite Hq, Hskip. cbn [mbind option_bind negb]. rewrite E.
  split; [done|]. split; [done|]. by rewrite <- !app_assoc in Hr'.
Qed.

Lemma quoted_string_reads_back_witness :
  exists r', read_string (F := unit) (reader_new (quoted SYNTAX_SINGLE_QUOTE (lit "it's\ok") ++ lit " end")) = Some (Ok (lit "it's\ok"), r') /\ remaining r' = Some (lit " end").
Proof.
  destruct (quoted_string_reads_back (F := unit) SYNTAX_SINGLE_QUOTE (lit "it's\ok") (lit " end") (reader_new (quoted SYNTAX_SINGLE_QUOTE (lit "it's\ok") ++ lit " end")) [])
    as (r' & E & _ & Hr'); [done|apply reader_new_at|]. exists r'. split; [exact E|]. by apply (remaining_at _ _ _ Hr').
Defined.
