(* ===== verification/CommandTree.v ===== *)
(** * The command graph

    Models the nodes and the registration of [steel-core/src/command/brigadier] ([node.rs],
    [builder.rs], [dispatcher.rs]): trees of unregistered nodes that are merged by name, and
    the arena of registered nodes, in which nodes refer to one another by index.  Predicates,
    executors and modifiers are shared objects and are compared by identity, so that a number
    stands for each.  Registration in the arena does what merging does on trees. *)

From Stdlib Require Import String.
From S2P Require Import Prelude Texts.

#[local] Open Scope list_scope.
#[local] Open Scope steel_scope.

(** ** Nodes *)

Record NodeId := mkNodeId { ni_dispatcher : Z; ni_index : nat }.
#[global] Instance NodeId_eq_dec : EqDecision NodeId.
Proof. solve_decision. Defined.

Inductive CommandRedirectTarget := TargetNode (id : NodeId) | CommandRoot.
#[global] Instance CommandRedirectTarget_eq_dec : EqDecision CommandRedirectTarget.
Proof. solve_decision. Defined.

Inductive NodeKind := KindRoot | KindLiteral | KindArgument.
#[global] Instance NodeKind_eq_dec : EqDecision NodeKind.
Proof. solve_decision. Defined.

Inductive CommandRequirementKind := Authorization | Contextual.
#[global] Instance CommandRequirementKind_eq_dec : EqDecision CommandRequirementKind.
Proof. solve_decision. Defined.

Record CommandRequirement := mkRequirement { rq_predicate : option Z; rq_kind : option CommandRequirementKind }.
Definition allow_all : CommandRequirement := mkRequirement None None.
Definition requirement_compatible (a b : CommandRequirement) : bool :=
  bool_decide (rq_kind a = rq_kind b) &&
  match rq_predicate a, rq_predicate b with None, None => true | Some p, Some q => p =? q | _, _ => false end.

Record CommandRedirect := mkRedirect { rd_target : CommandRedirectTarget; rd_modifier : option Z; rd_forks : bool }.
Definition redirect_compatible (a b : CommandRedirect) : bool :=
  bool_decide (rd_target a = rd_target b) && bool_decide (rd_forks a = rd_forks b) &&
  match rd_modifier a, rd_modifier b with None, None => true | Some p, Some q => p =? q | _, _ => false end.
Definition redirects_are_compatible (a b : option CommandRedirect) : bool :=
  match a, b with None, None => true | Some a, Some b => redirect_compatible a b | _, _ => false end.
Definition redirect_resolve (command_root : NodeId) (r : CommandRedirect) : CommandRedirect :=
  if decide (rd_target r = CommandRoot) then mkRedirect (TargetNode command_root) (rd_modifier r) (rd_forks r) else r.

Inductive RegistrationErrorKind :=
| ArgumentRoot
| NodeKindCollision (name : text) (existing incoming : NodeKind)
| ArgumentTypeCollision (name : text)
| RequirementCollision (name : text)
| RedirectCollision (name : text)
| RedirectWithChildren (name : text)
| InvalidRedirectTarget (target : NodeId).

Inductive CommandNodeData (A : Type) := Root | Literal (name : text) | Argument (name : text) (argument_type : A).
Arguments Root {A}. Arguments Literal {A}. Arguments Argument {A}.

(** What a node has besides its children. *)
Record NodeInfo (A : Type) := mkInfo {
  nf_data : CommandNodeData A;
  nf_executor : option Z;
  nf_requirement : CommandRequirement;
  nf_execution_requirement : CommandRequirement;
  nf_redirect : option CommandRedirect;
}.
Arguments mkInfo {A}. Arguments nf_data {A}. Arguments nf_executor {A}. Arguments nf_requirement {A}. Arguments nf_execution_requirement {A}. Arguments nf_redirect {A}.

(** [CommandNodeBuilder] and [UnregisteredCommandNode] have the same fields. *)
#[warnings="-register-all"]
Inductive UnregisteredCommandNode (A : Type) := mkUnregistered (info : NodeInfo A) (children : list (UnregisteredCommandNode A)).
Arguments mkUnregistered {A}.

Record CommandNode (A : Type) := mkNode { cn_info : NodeInfo A; cn_children : list NodeId }.
Arguments mkNode {A}. Arguments cn_info {A}. Arguments cn_children {A}.

Record CommandDispatcher (A : Type) := mkDispatcher { cd_id : Z; cd_nodes : list (CommandNode A) }.
Arguments mkDispatcher {A}. Arguments cd_id {A}. Arguments cd_nodes {A}.

Section Tree.
  Context {A : Type} (argument_eqb : A -> A -> bool).
  Implicit Types u v : UnregisteredCommandNode A.

Definition data_name (d : CommandNodeData A) : text := match d with Root => [] | Literal name | Argument name _ => name end.
Definition data_kind (d : CommandNodeData A) : NodeKind := match d with Root => KindRoot | Literal _ => KindLiteral | Argument _ _ => KindArgument end.

Definition u_info u : NodeInfo A := match u with mkUnregistered info _ => info end.
Definition u_children u : list (UnregisteredCommandNode A) := match u with mkUnregistered _ children => children end.
Definition u_name u : text := data_name (nf_data (u_info u)).
Definition node_name (n : CommandNode A) : text := data_name (nf_data (cn_info n)).

Definition collision_with (existing incoming : CommandNodeData A) : option RegistrationErrorKind :=
  let name := data_name incoming in
  let kinds := Some (NodeKindCollision name (data_kind existing) (data_kind incoming)) in
  match existing, incoming with
  | Literal first, Literal second => if decide (first = second) then None else kinds
  | Argument first_name first_type, Argument second_name second_type =>
      if decide (first_name = second_name) then if argument_eqb first_type second_type then None else Some (ArgumentTypeCollision name) else kinds
  | _, _ => kinds
  end.

Definition validate_compatible (existing incoming : NodeInfo A) : result unit RegistrationErrorKind :=
  let name := data_name (nf_data incoming) in
  match collision_with (nf_data existing) (nf_data incoming) with
  | Some kind => Err kind
  | None =>
      if negb (requirement_compatible (nf_requirement existing) (nf_requirement incoming)) then Err (RequirementCollision name)
      else if negb (requirement_compatible (nf_execution_requirement existing) (nf_execution_requirement incoming)) then Err (RequirementCollision name)
      else if negb (redirects_are_compatible (nf_redirect existing) (nf_redirect incoming)) then Err (RedirectCollision name)
      else Ok tt
  end.

(** The executor of the incoming node replaces the existing one. *)
Definition take_executor (existing incoming : NodeInfo A) : NodeInfo A :=
  mkInfo (nf_data existing) (match nf_executor incoming with Some e => Some e | None => nf_executor existing end)
    (nf_requirement existing) (nf_execution_requirement existing) (nf_redirect existing).

(** ** Trees *)

(** [merge_or_push], for what merging with an existing node gives. *)
Fixpoint merge_or_push_with (merge : UnregisteredCommandNode A -> result (UnregisteredCommandNode A) RegistrationErrorKind)
  (nodes : list (UnregisteredCommandNode A)) (incoming : UnregisteredCommandNode A) : result (list (UnregisteredCommandNode A)) RegistrationErrorKind :=
  match nodes with
  | [] => Ok [incoming]
  | existing :: nodes =>
      if decide (u_name existing = u_name incoming) then let? merged := merge existing in Ok (merged :: nodes)
      else let? nodes := merge_or_push_with merge nodes incoming in Ok (existing :: nodes)
  end.

Fixpoint merge (incoming existing : UnregisteredCommandNode A) : result (UnregisteredCommandNode A) RegistrationErrorKind :=
  match incoming with
  | mkUnregistered info children =>
      let? _ := validate_compatible (u_info existing) info in
      let? merged := (fix go children nodes := match children with
                        | [] => Ok nodes
                        | child :: children => let? nodes := merge_or_push_with (merge child) nodes child in go children nodes
                        end) children (u_children existing) in
      Ok (mkUnregistered (take_executor (u_info existing) info) merged)
  end.
Definition merge_or_push (nodes : list (UnregisteredCommandNode A)) (incoming : UnregisteredCommandNode A) : result (list (UnregisteredCommandNode A)) RegistrationErrorKind :=
  merge_or_push_with (merge incoming) nodes incoming.

Fixpoint normalize (builder : UnregisteredCommandNode A) : result (UnregisteredCommandNode A) RegistrationErrorKind :=
  match builder with
  | mkUnregistered info builders =>
      let? children := (fix go builders children := match builders with
                          | [] => Ok children
                          | child :: builders => let? child := normalize child in let? children := merge_or_push children child in go builders children
                          end) builders [] in
      if bool_decide (is_Some (nf_redirect info)) && negb (bool_decide (length children = 0%nat)) then Err (RedirectWithChildren (data_name (nf_data info)))
      else Ok (mkUnregistered info children)
  end.

Definition info_resolve (command_root : NodeId) (info : NodeInfo A) : NodeInfo A :=
  mkInfo (nf_data info) (nf_executor info) (nf_requirement info) (nf_execution_requirement info) (redirect_resolve command_root <$> nf_redirect info).
Fixpoint resolve_command_root (command_root : NodeId) u : UnregisteredCommandNode A :=
  match u with mkUnregistered info children => mkUnregistered (info_resolve command_root info) (map (resolve_command_root command_root) children) end.

(** ** The arena *)

Definition root_info : NodeInfo A := mkInfo Root None allow_all allow_all None.
Definition dispatcher_new (id : Z) : CommandDispatcher A := mkDispatcher id [mkNode root_info []].
Definition dispatcher_root (d : CommandDispatcher A) : NodeId := mkNodeId (cd_id d) 0.
Definition dispatcher_node (d : CommandDispatcher A) (id : NodeId) : option (CommandNode A) :=
  if decide (ni_dispatcher id = cd_id d) then cd_nodes d !! ni_index id else None.

Fixpoint find_named (nodes : list (CommandNode A)) (name : text) (children : list NodeId) : option NodeId :=
  match children with
  | [] => None
  | child :: children =>
      match nodes !! ni_index child with
      | Some node => if decide (node_name node = name) then Some child else find_named nodes name children
      | None => find_named nodes name children
      end
  end.
Definition find_child (d : CommandDispatcher A) (parent : NodeId) (name : text) : option NodeId :=
  node ← dispatcher_node d parent; find_named (cd_nodes d) name (cn_children node).

(** [None] is an index out of range. *)
Fixpoint validate_merge (d : CommandDispatcher A) (parent : NodeId) u : option (result unit RegistrationErrorKind) :=
  match find_child d parent (u_name u), u with
  | None, _ => Some (Ok tt)
  | Some existing_id, mkUnregistered info children =>
      existing ← cd_nodes d !! ni_index existing_id;
      match validate_compatible (cn_info existing) info with
      | Err e => Some (Err e)
      | Ok _ =>
          (fix go children := match children with
             | [] => Some (Ok tt)
             | child :: children => r ← validate_merge d existing_id child; match r with Ok _ => go children | Err e => Some (Err e) end
             end) children
      end
  end.

Fixpoint validate_redirects (d : CommandDispatcher A) u : result unit RegistrationErrorKind :=
  match u with
  | mkUnregistered info children =>
      let? _ := match nf_redirect info with
                | Some (mkRedirect (TargetNode target) _ _) =>
                    match dispatcher_node d target with None => Err (InvalidRedirectTarget target) | Some _ => Ok tt end
                | _ => Ok tt
                end in
      (fix go children := match children with [] => Ok tt | child :: children => let? _ := validate_redirects d child in go children end) children
  end.

Definition set_node (d : CommandDispatcher A) (index : nat) (node : CommandNode A) : CommandDispatcher A :=
  mkDispatcher (cd_id d) (<[index := node]> (cd_nodes d)).

Fixpoint apply_merge (d : CommandDispatcher A) (parent : NodeId) u : option (CommandDispatcher A * NodeId) :=
  match u with
  | mkUnregistered info children =>
      let go := fix go (d : CommandDispatcher A) (id : NodeId) children := match children with
                  | [] => Some d
                  | child :: children => '(d, _) ← apply_merge d id child; go d id children
                  end in
      match find_child d parent (data_name (nf_data info)) with
      | Some existing_id =>
          existing ← cd_nodes d !! ni_index existing_id;
          let d := set_node d (ni_index existing_id) (mkNode (take_executor (cn_info existing) info) (cn_children existing)) in
          d ← go d existing_id children;
          Some (d, existing_id)
      | None =>
          let node_id := mkNodeId (cd_id d) (length (cd_nodes d)) in
          let d := mkDispatcher (cd_id d) (cd_nodes d ++ [mkNode info []]) in
          node ← cd_nodes d !! ni_index parent;
          let d := set_node d (ni_index parent) (mkNode (cn_info node) (cn_children node ++ [node_id])) in
          d ← go d node_id children;
          Some (d, node_id)
      end
  end.

Definition register (d : CommandDispatcher A) (builder : UnregisteredCommandNode A) : option (CommandDispatcher A * result NodeId RegistrationErrorKind) :=
  match normalize builder with
  | Err e => Some (d, Err e)
  | Ok node =>
      if negb (bool_decide (data_kind (nf_data (u_info node)) = KindLiteral)) then Some (d, Err ArgumentRoot)
      else
        match validate_redirects d node with
        | Err e => Some (d, Err e)
        | Ok _ =>
            let command_root := default (mkNodeId (cd_id d) (length (cd_nodes d))) (find_child d (dispatcher_root d) (u_name node)) in
            let node := resolve_command_root command_root node in
            r ← validate_merge d (dispatcher_root d) node;
            match r with
            | Err e => Some (d, Err e)
            | Ok _ => '(d, id) ← apply_merge d (dispatcher_root d) node; Some (d, Ok id)
            end
        end
  end.
End Tree.
