(* ===== verification/CommandRegistration.v ===== *)
(** * Merging command trees

    What merging does when its checks pass, and that merging and normalizing keep trees
    well-formed. *)

From Stdlib Require Import String.
From S2P Require Import Prelude Texts CommandTree.

#[local] Open Scope list_scope.
#[local] Open Scope steel_scope.

Section Registration.
  Context {A : Type} (argument_eqb : A -> A -> bool).
  Abbreviation U := (UnregisteredCommandNode A).
  Implicit Types u v : U.

(** ** Induction on trees *)

Definition tree_children_ind (P : U -> Prop) (H : forall info children, Forall P children -> P (mkUnregistered info children)) : forall u, P u :=
  fix go u := match u with
              | mkUnregistered info children => H info children (list_ind (Forall P) (Forall_nil_2 P) (fun x l Hl => Forall_cons_2 P x l (go x) Hl) children)
              end.

(** A property of every node of a tree with its children. *)
Fixpoint tree_all (P : NodeInfo A -> list U -> Prop) u : Prop :=
  match u with
  | mkUnregistered info children => P info children /\ (fix all l := match l with [] => True | c :: l => tree_all P c /\ all l end) children
  end.

Lemma tree_all_unfold P info children : tree_all P (mkUnregistered info children) <-> P info children /\ Forall (tree_all P) children.
Proof.
  cbn [tree_all]. assert (forall l, (fix all l := match l with [] => True | c :: l => tree_all P c /\ all l end) l <-> Forall (tree_all P) l) as ->; [|done].
  induction l as [|c l IH]; [by rewrite Forall_nil|]. by rewrite Forall_cons, IH.
Qed.

Lemma tree_all_impl (P Q : NodeInfo A -> list U -> Prop) u : (forall info children, P info children -> Q info children) -> tree_all P u -> tree_all Q u.
Proof.
  intros H. induction u as [info children IH] using tree_children_ind. rewrite !tree_all_unfold. intros [H1 H2]. split; [by apply H|].
  rewrite Forall_forall in *. auto.
Qed.

(** ** Merging without the checks *)

Fixpoint push_with (graft : U -> U) (nodes : list U) (incoming : U) : list U :=
  match nodes with
  | [] => [incoming]
  | existing :: nodes => if decide (u_name existing = u_name incoming) then graft existing :: nodes else existing :: push_with graft nodes incoming
  end.

Fixpoint graft (incoming existing : U) : U :=
  match incoming with
  | mkUnregistered info children =>
      mkUnregistered (take_executor (u_info existing) info)
        ((fix go children nodes := match children with [] => nodes | child :: children => go children (push_with (graft child) nodes child) end) children (u_children existing))
  end.
Definition push_node (nodes : list U) (incoming : U) : list U := push_with (graft incoming) nodes incoming.
Definition push_nodes (nodes children : list U) : list U := foldl push_node nodes children.

Lemma graft_unfold info children existing :
  graft (mkUnregistered info children) existing = mkUnregistered (take_executor (u_info existing) info) (push_nodes (u_children existing) children).
Proof. cbn [graft]. f_equal. generalize (u_children existing). induction children as [|c children IH]; intros nodes; [done|]. apply IH. Qed.

(** The loop of [merge] over the incoming children. *)
Fixpoint merge_nodes (nodes children : list U) : result (list U) RegistrationErrorKind :=
  match children with [] => Ok nodes | child :: children => let? nodes := merge_or_push argument_eqb nodes child in merge_nodes nodes children end.

Lemma merge_unfold info children existing :
  merge argument_eqb (mkUnregistered info children) existing =
    (let? _ := validate_compatible argument_eqb (u_info existing) info in
     let? merged := merge_nodes (u_children existing) children in Ok (mkUnregistered (take_executor (u_info existing) info) merged)).
Proof.
  cbn [merge]. destruct (validate_compatible argument_eqb (u_info existing) info); [|done]. cbn [result_bind]. f_equal.
  generalize (u_children existing). induction children as [|c children IH]; intros nodes; [done|]. cbn [merge_nodes]. unfold merge_or_push.
  destruct (merge_or_push_with _ nodes c); [|done]. cbn [result_bind]. apply IH.
Qed.

Lemma merge_or_push_graft nodes incoming nodes' :
  (forall existing merged, merge argument_eqb incoming existing = Ok merged -> merged = graft incoming existing) ->
  merge_or_push argument_eqb nodes incoming = Ok nodes' -> nodes' = push_node nodes incoming.
Proof.
  intros H. revert nodes'. unfold merge_or_push, push_node. induction nodes as [|existing nodes IH]; intros nodes'; cbn [merge_or_push_with push_with]; [by intros [= <-]|].
  case_decide.
  - destruct (merge argument_eqb incoming existing) as [m|] eqn:E; [|done]. cbn [result_bind]. intros [= <-]. by rewrite (H _ _ E).
  - destruct (merge_or_push_with _ nodes incoming) as [n|]; [|done]. cbn [result_bind]. intros [= <-]. by rewrite (IH n eq_refl).
Qed.

Lemma merge_graft incoming existing merged : merge argument_eqb incoming existing = Ok merged -> merged = graft incoming existing.
Proof.
  revert existing merged. induction incoming as [info children IH] using tree_children_ind. intros existing merged. rewrite merge_unfold, graft_unfold.
  destruct (validate_compatible argument_eqb (u_info existing) info); [|done]. cbn [result_bind].
  assert (forall nodes nodes', merge_nodes nodes children = Ok nodes' -> nodes' = push_nodes nodes children) as Hgo.
  { induction IH as [|c children Hc IH IHl]; intros nodes nodes'; [by intros [= <-]|]. cbn [merge_nodes push_nodes foldl].
    destruct (merge_or_push argument_eqb nodes c) as [n|] eqn:E; [|done]. cbn [result_bind]. intros H. apply merge_or_push_graft in E as ->; [|done]. by apply IHl. }
  destruct (merge_nodes (u_children existing) children) as [m|] eqn:E; [|done]. cbn [result_bind]. intros [= <-]. by rewrite (Hgo _ _ E).
Qed.

Lemma merge_or_push_pushes nodes incoming nodes' : merge_or_push argument_eqb nodes incoming = Ok nodes' -> nodes' = push_node nodes incoming.
Proof. apply merge_or_push_graft. apply merge_graft. Qed.

(** ** Names *)

Lemma graft_name incoming existing : u_name (graft incoming existing) = u_name existing.
Proof. destruct incoming. by rewrite graft_unfold. Qed.

Lemma push_node_names nodes incoming :
  u_name <$> push_node nodes incoming = if decide (u_name incoming ∈ u_name <$> nodes) then u_name <$> nodes else (u_name <$> nodes) ++ [u_name incoming].
Proof.
  unfold push_node. induction nodes as [|existing nodes IH]; [done|]. cbn [push_with]. destruct (decide (u_name existing = u_name incoming)) as [E|E].
  - rewrite !fmap_cons, graft_name. rewrite decide_True; [done|]. rewrite E. by left.
  - rewrite !fmap_cons, IH. repeat case_decide; set_solver.
Qed.

Lemma push_node_NoDup nodes incoming : NoDup (u_name <$> nodes) -> NoDup (u_name <$> push_node nodes incoming).
Proof.
  intros H. rewrite push_node_names. case_decide as E; [done|]. apply NoDup_app. split; [done|]. split; [|apply NoDup_singleton].
  by intros x Hx ->%list_elem_of_singleton.
Qed.

Lemma push_node_new nodes incoming : (u_name incoming ∉ u_name <$> nodes) -> push_node nodes incoming = nodes ++ [incoming].
Proof.
  unfold push_node. induction nodes as [|existing nodes IH]; [done|]. rewrite fmap_cons, not_elem_of_cons. intros [Hne H]. cbn [push_with].
  rewrite decide_False by done. by rewrite IH.
Qed.

Lemma push_nodes_new nodes children : NoDup (u_name <$> nodes ++ children) -> push_nodes nodes children = nodes ++ children.
Proof.
  revert nodes. induction children as [|c children IH]; intros nodes H; [by rewrite app_nil_r|]. cbn [push_nodes foldl]. rewrite push_node_new.
  - etrans; [apply IH; by rewrite <- app_assoc|]. by rewrite <- app_assoc.
  - rewrite fmap_app, fmap_cons in H. apply NoDup_app in H as (_ & H & _). intros Hin. apply (H _ Hin). by left.
Qed.

(** ** Well-formed trees *)

(** Siblings have distinct names, a redirected node has no children, no node is a root. *)
Definition node_ok (Q : CommandRedirect -> Prop) (info : NodeInfo A) (children : list U) : Prop :=
  NoDup (u_name <$> children) /\ (forall r, nf_redirect info = Some r -> children = [] /\ Q r) /\ nf_data info <> Root.

Lemma merge_or_push_ok Q nodes incoming nodes' :
  (forall existing merged, tree_all (node_ok Q) existing -> merge argument_eqb incoming existing = Ok merged -> tree_all (node_ok Q) merged) ->
  tree_all (node_ok Q) incoming -> Forall (tree_all (node_ok Q)) nodes -> merge_or_push argument_eqb nodes incoming = Ok nodes' -> Forall (tree_all (node_ok Q)) nodes'.
Proof.
  intros H Hin Hn. revert nodes'. unfold merge_or_push. induction Hn as [|existing nodes He Hn IH]; intros nodes'; cbn [merge_or_push_with]; [intros [= <-]; by constructor|].
  case_decide.
  - destruct (merge argument_eqb incoming existing) as [m|] eqn:E; [|done]. cbn [result_bind]. intros [= <-]. constructor; [by eapply H|done].
  - destruct (merge_or_push_with _ nodes incoming) as [n|]; [|done]. cbn [result_bind]. intros [= <-]. constructor; [done|by apply IH].
Qed.

Lemma merge_keeps_ok Q incoming existing merged :
  tree_all (node_ok Q) incoming -> tree_all (node_ok Q) existing -> merge argument_eqb incoming existing = Ok merged -> tree_all (node_ok Q) merged.
Proof.
  revert existing merged. induction incoming as [info children IH] using tree_children_ind. intros [einfo echildren] merged. rewrite merge_unfold, !tree_all_unfold.
  intros [(_ & Hr & _) Hc] [(Hnd & Her & Hroot) He]. cbn [u_info u_children].
  destruct (validate_compatible argument_eqb einfo info) as [[]|] eqn:Ev; [|done]. cbn [result_bind].
  assert (forall nodes nodes', Forall (tree_all (node_ok Q)) nodes -> NoDup (u_name <$> nodes) -> merge_nodes nodes children = Ok nodes' ->
    Forall (tree_all (node_ok Q)) nodes' /\ NoDup (u_name <$> nodes') /\ (children = [] -> nodes' = nodes)) as Hgo.
  { clear Hr Her Ev. induction IH as [|c children Hc' IH IHl]; intros nodes nodes' Hn Hnames; [by intros [= <-]|]. cbn [merge_nodes]. inversion Hc; subst.
    destruct (merge_or_push argument_eqb nodes c) as [n|] eqn:E; [|done]. cbn [result_bind]. intros H. destruct (IHl ltac:(done) n nodes') as (H1' & H2' & _).
    - eapply merge_or_push_ok; [|done|exact Hn|exact E]. intros e m He' Hm. by eapply Hc'.
    - apply merge_or_push_pushes in E as ->. by apply push_node_NoDup.
    - done.
    - done. }
  destruct (merge_nodes echildren children) as [m|] eqn:E; [|done]. cbn [result_bind]. intros [= <-]. destruct (Hgo _ _ He Hnd E) as (H1 & H2 & H3).
  rewrite tree_all_unfold. split; [|done]. split; [done|]. split; [|done]. intros r Hred. cbn [take_executor nf_redirect] in Hred. destruct (Her r Hred) as [-> HQ].
  split; [|done]. apply H3. destruct (nf_redirect info) as [r'|] eqn:Ei; [by apply (Hr r')|]. exfalso. unfold validate_compatible in Ev. rewrite Hred, Ei in Ev.
  cbn [redirects_are_compatible negb] in Ev. repeat case_match; done.
Qed.

Lemma merge_or_push_keeps_ok Q nodes incoming nodes' :
  tree_all (node_ok Q) incoming -> Forall (tree_all (node_ok Q)) nodes -> merge_or_push argument_eqb nodes incoming = Ok nodes' -> Forall (tree_all (node_ok Q)) nodes'.
Proof. intros H. apply merge_or_push_ok; [|done]. intros e m. by apply merge_keeps_ok. Qed.

(** The loop of [normalize]. *)
Fixpoint normalize_nodes (builders children : list U) : result (list U) RegistrationErrorKind :=
  match builders with
  | [] => Ok children
  | child :: builders => let? child := normalize argument_eqb child in let? children := merge_or_push argument_eqb children child in normalize_nodes builders children
  end.

Lemma normalize_unfold info builders :
  normalize argument_eqb (mkUnregistered info builders) =
    (let? children := normalize_nodes builders [] in
     if bool_decide (is_Some (nf_redirect info)) && negb (bool_decide (length children = 0%nat)) then Err (RedirectWithChildren (data_name (nf_data info)))
     else Ok (mkUnregistered info children)).
Proof. reflexivity. Qed.

Lemma normalize_tree_ok builder u : tree_all (fun info _ => nf_data info <> Root) builder -> normalize argument_eqb builder = Ok u -> tree_all (node_ok (fun _ => True)) u.
Proof.
  revert u. induction builder as [info builders IH] using tree_children_ind. intros u. rewrite tree_all_unfold, normalize_unfold. intros [Hroot Hb].
  assert (forall children children', Forall (tree_all (node_ok (fun _ => True))) children -> NoDup (u_name <$> children) -> normalize_nodes builders children = Ok children' ->
    Forall (tree_all (node_ok (fun _ => True))) children' /\ NoDup (u_name <$> children')) as Hgo.
  { induction IH as [|b builders Hc' IH IHl]; intros children children' Hn Hnames; [by intros [= <-]|]. cbn [normalize_nodes]. inversion Hb; subst.
    destruct (normalize argument_eqb b) as [c|] eqn:Ec; [|done]. cbn [result_bind]. destruct (merge_or_push argument_eqb children c) as [n|] eqn:E; [|done]. cbn [result_bind].
    apply IHl; [done| |].
    - eapply merge_or_push_keeps_ok; [|exact Hn|exact E]. by apply Hc'.
    - apply merge_or_push_pushes in E as ->. by apply push_node_NoDup. }
  destruct (normalize_nodes builders []) as [children|] eqn:E; [|done]. cbn [result_bind]. destruct (Hgo _ _ (Forall_nil_2 _) (NoDup_nil_2) E) as [H1 H2].
  destruct (_ && _) eqn:Er; [done|]. intros [= <-]. rewrite tree_all_unfold. split; [|done]. split; [done|]. split; [|done]. intros r Hred. split; [|done].
  apply andb_false_iff in Er as [Er|Er].
  - apply bool_decide_eq_false in Er. destruct Er. by rewrite Hred.
  - apply negb_false_iff, bool_decide_eq_true in Er. by apply nil_length_inv.
Qed.
End Registration.
