(* ===== verification/CommandArena.v ===== *)
(** * The arena of command nodes

    The arena holds a tree: every node is reached from the root along exactly one path.
    Registering a command either changes nothing and reports the error that merging the trees
    reports, or the arena afterwards holds the merged tree. *)

From Stdlib Require Import String.
From S2P Require Import Prelude Texts CommandTree CommandRegistration.

#[local] Open Scope list_scope.
#[local] Open Scope steel_scope.

Section Arena.
  Context {A : Type} (argument_eqb : A -> A -> bool).
  Abbreviation U := (UnregisteredCommandNode A).
  Implicit Types u v : U.
  Implicit Types nodes : list (CommandNode A).

(** ** The tree below a node *)

(** [rep id nodes i u fp]: node [i] and the nodes below it, at the indexes [fp], hold [u]. *)
Inductive rep (id : Z) nodes : nat -> U -> list nat -> Prop :=
| rep_node i info ix us fps : nodes !! i = Some (mkNode info (mkNodeId id <$> ix)) -> reps id nodes ix us fps -> rep id nodes i (mkUnregistered info us) (i :: fps)
with reps (id : Z) nodes : list nat -> list U -> list nat -> Prop :=
| reps_nil : reps id nodes [] [] []
| reps_cons i u fp ix us fps : rep id nodes i u fp -> reps id nodes ix us fps -> reps id nodes (i :: ix) (u :: us) (fp ++ fps).

Scheme rep_mut := Minimality for rep Sort Prop
  with reps_mut := Minimality for reps Sort Prop.
Combined Scheme rep_reps_ind from rep_mut, reps_mut.

Lemma rep_frame_both id nodes nodes' :
  (forall i u fp, rep id nodes i u fp -> (forall j, j ∈ fp -> nodes' !! j = nodes !! j) -> rep id nodes' i u fp) /\
  (forall ix us fps, reps id nodes ix us fps -> (forall j, j ∈ fps -> nodes' !! j = nodes !! j) -> reps id nodes' ix us fps).
Proof.
  apply rep_reps_ind.
  - intros i info ix us fps Hi _ IH H. econstructor; [rewrite H by (by left); exact Hi|]. apply IH. intros j Hj. apply H. by right.
  - constructor.
  - intros i u fp ix us fps _ IH1 _ IH2 H. constructor; [apply IH1|apply IH2]; intros j Hj; apply H; set_solver.
Qed.

Lemma rep_frame id nodes nodes' i u fp : rep id nodes i u fp -> (forall j, j ∈ fp -> nodes' !! j = nodes !! j) -> rep id nodes' i u fp.
Proof. apply rep_frame_both. Qed.
Lemma reps_frame id nodes nodes' ix us fps : reps id nodes ix us fps -> (forall j, j ∈ fps -> nodes' !! j = nodes !! j) -> reps id nodes' ix us fps.
Proof. apply rep_frame_both. Qed.

Lemma rep_bound_both id nodes :
  (forall i u fp, rep id nodes i u fp -> forall j, j ∈ fp -> (j < length nodes)%nat) /\ (forall ix us fps, reps id nodes ix us fps -> forall j, j ∈ fps -> (j < length nodes)%nat).
Proof.
  apply rep_reps_ind.
  - intros i info ix us fps Hi _ IH j [->|Hj]%elem_of_cons; [by eapply lookup_lt_Some|by apply IH].
  - by intros j Hj%elem_of_nil.
  - intros i u fp ix us fps _ IH1 _ IH2 j [Hj|Hj]%elem_of_app; auto.
Qed.
Lemma rep_bound id nodes i u fp j : rep id nodes i u fp -> j ∈ fp -> (j < length nodes)%nat.
Proof. intros H Hj. exact (proj1 (rep_bound_both id nodes) _ _ _ H j Hj). Qed.
Lemma reps_bound id nodes ix us fps j : reps id nodes ix us fps -> j ∈ fps -> (j < length nodes)%nat.
Proof. intros H Hj. exact (proj2 (rep_bound_both id nodes) _ _ _ H j Hj). Qed.

Lemma reps_app id nodes ix us fps ix' us' fps' : reps id nodes ix us fps -> reps id nodes ix' us' fps' -> reps id nodes (ix ++ ix') (us ++ us') (fps ++ fps').
Proof. induction 1 as [|i u fp ix us fps Hi Hs IH]; intros H; [done|]. cbn [app]. rewrite <- app_assoc. constructor; [done|]. by apply IH. Qed.

Lemma reps_one id nodes i u fp : rep id nodes i u fp -> reps id nodes [i] [u] fp.
Proof. intros H. rewrite <- (app_nil_r fp). constructor; [done|constructor]. Qed.

(** The first child with a name, in the arena and in the tree. *)
Lemma find_named_reps id nodes ix us fps name :
  reps id nodes ix us fps ->
  match find_named nodes name (mkNodeId id <$> ix) with
  | None => name ∉ u_name <$> us
  | Some e => exists i l r ul v ur fl fi fr, e = mkNodeId id i /\ ix = l ++ i :: r /\ us = ul ++ v :: ur /\ fps = fl ++ fi ++ fr /\
                reps id nodes l ul fl /\ rep id nodes i v fi /\ reps id nodes r ur fr /\ u_name v = name /\ (name ∉ u_name <$> ul)
  end.
Proof.
  induction 1 as [|i u fp ix us fps Hi Hs IH]; [apply not_elem_of_nil|]. rewrite fmap_cons. cbn [find_named]. cbn [ni_index]. destruct Hi as [i info ix' us' fps' Hn Hc].
  rewrite Hn. change (node_name (mkNode info (mkNodeId id <$> ix'))) with (data_name (nf_data info)). case_decide as E.
  - exists i, [], ix, [], (mkUnregistered info us'), us, [], (i :: fps'), fps. split; [done|]. split; [done|]. split; [done|]. split; [done|]. split; [constructor|].
    split; [by econstructor|]. split; [done|]. split; [done|apply not_elem_of_nil].
  - destruct (find_named nodes name (mkNodeId id <$> ix)) as [e|].
    + destruct IH as (j & l & r & ul & v & ur & fl & fi & fr & -> & -> & -> & -> & Hl & Hj & Hr & Hname & Hnin).
      exists j, (i :: l), r, (mkUnregistered info us' :: ul), v, ur, ((i :: fps') ++ fl), fi, fr. split; [done|]. split; [done|]. split; [done|]. split; [by rewrite <- app_assoc|].
      split; [constructor; [by econstructor|done]|]. split; [done|]. split; [done|]. split; [done|]. rewrite fmap_cons, not_elem_of_cons. split; [|done]. intros ->. by apply E.
    + rewrite fmap_cons, not_elem_of_cons. split; [|done]. intros ->. by apply E.
Qed.

(** ** Applying a merge *)

(** From the arena [nodes] to [nodes']: the tree of [parent] changes from [t] to [t'], nodes
    outside its footprint [fp] stay, and the new footprint takes in all new nodes. *)
Definition grows (id : Z) nodes nodes' (parent : nat) (t' : U) (fp fp' : list nat) : Prop :=
  rep id nodes' parent t' fp' /\ NoDup fp' /\ fp ⊆ fp' /\ (length nodes <= length nodes')%nat /\
  (forall j, (j < length nodes)%nat -> (j ∉ fp) -> nodes' !! j = nodes !! j) /\
  (forall j, j ∈ fp' -> j ∈ fp \/ (length nodes <= j)%nat) /\ (forall j, (length nodes <= j < length nodes')%nat -> j ∈ fp').

Lemma grows_root id nodes nodes' parent t fp fp' : grows id nodes nodes' parent t fp fp' -> parent ∈ fp'.
Proof. intros [Hr _]. destruct Hr. by left. Qed.

Lemma grows_refl id nodes parent t fp : rep id nodes parent t fp -> NoDup fp -> grows id nodes nodes parent t fp fp.
Proof. intros Hr Hnd. split; [done|]. split; [done|]. split; [done|]. split; [done|]. split; [done|]. split; [auto|]. intros j Hj. lia. Qed.

Lemma grows_trans id nodes1 nodes2 nodes3 parent t2 t3 fp1 fp2 fp3 :
  grows id nodes1 nodes2 parent t2 fp1 fp2 -> grows id nodes2 nodes3 parent t3 fp2 fp3 -> grows id nodes1 nodes3 parent t3 fp1 fp3.
Proof.
  intros (H1 & H2 & H3 & H4 & H5 & H6 & H7) (G1 & G2 & G3 & G4 & G5 & G6 & G7). split; [done|]. split; [done|]. split; [set_solver|]. split; [lia|]. split; [|split].
  - intros j Hj Hn. rewrite G5; [by apply H5|lia|]. intros Hin. apply H6 in Hin as [?|?]; [done|lia].
  - intros j Hj. apply G6 in Hj as [Hj|Hj]; [apply H6 in Hj as [?|?]; [by left|right; lia]|right; lia].
  - intros j Hj. destruct (decide (j < length nodes2)%nat); [apply G3, H7; lia|apply G7; lia].
Qed.

Lemma NoDup_mid (x : nat) fl fi fr : NoDup (x :: fl ++ fi ++ fr) -> NoDup fi /\ (forall j, j ∈ x :: fl ++ fr -> j ∉ fi).
Proof.
  rewrite NoDup_cons, !NoDup_app. intros (Hx & Hl & Hlr & Hi & Hir & Hr). split; [done|]. intros j Hj Hin. set_solver.
Qed.

(** A change below one child, seen from the parent. *)
Lemma grows_child id nodes nodes' parent info l e r ul v' ur fl fi fr fi' :
  nodes !! parent = Some (mkNode info (mkNodeId id <$> l ++ e :: r)) -> reps id nodes l ul fl -> reps id nodes r ur fr -> NoDup (parent :: fl ++ fi ++ fr) ->
  grows id nodes nodes' e v' fi fi' -> grows id nodes nodes' parent (mkUnregistered info (ul ++ v' :: ur)) (parent :: fl ++ fi ++ fr) (parent :: fl ++ fi' ++ fr).
Proof.
  intros Hp Hl Hr Hnd (H1 & H2 & H3 & H4 & H5 & H6 & H7). destruct (NoDup_mid _ _ _ _ Hnd) as [_ Hout].
  assert (forall j, j ∈ parent :: fl ++ fr -> (j < length nodes)%nat) as Hb.
  { intros j [->|[Hj|Hj]%elem_of_app]%elem_of_cons; [by eapply lookup_lt_Some|exact (reps_bound _ _ _ _ _ _ Hl Hj)|exact (reps_bound _ _ _ _ _ _ Hr Hj)]. }
  assert (forall j, j ∈ parent :: fl ++ fr -> nodes' !! j = nodes !! j) as Hsame by (intros j Hj; apply H5; auto).
  assert (forall j, j ∈ parent :: fl ++ fr -> j ∉ fi') as Hout' by (intros j Hj Hin; apply H6 in Hin as [?|?]; [by eapply Hout|apply Hb in Hj; lia]).
  split; [|split; [|split; [set_solver|split; [done|split; [|split]]]]].
  - econstructor; [rewrite Hsame by (by left); exact Hp|]. apply reps_app; [eapply reps_frame; [exact Hl|]; intros j Hj; apply Hsame; set_solver|].
    constructor; [done|]. eapply reps_frame; [exact Hr|]. intros j Hj. apply Hsame. set_solver.
  - rewrite NoDup_cons, !NoDup_app in *. destruct Hnd as (Hx & Hnl & Hlr & Hni & Hir & Hnr). set_solver.
  - intros j Hj Hn. apply H5; [done|]. set_solver.
  - intros j Hj. set_solver.
  - intros j Hj. specialize (H7 j Hj). set_solver.
Qed.

Lemma grows_info id nodes i info us fp info' :
  rep id nodes i (mkUnregistered info us) fp -> NoDup fp ->
  exists ix, nodes !! i = Some (mkNode info (mkNodeId id <$> ix)) /\
    grows id nodes (<[i := mkNode info' (mkNodeId id <$> ix)]> nodes) i (mkUnregistered info' us) fp fp.
Proof.
  intros H Hnd. inversion H as [? ? ix ? fps Hi Hc]; subst. exists ix. split; [done|]. apply lookup_lt_Some in Hi as Hlt. apply NoDup_cons in Hnd as Hnd'. destruct Hnd' as [Hni _].
  split; [|split; [done|split; [done|split; [by rewrite length_insert|split; [|split; [auto|intros j Hj; rewrite length_insert in Hj; lia]]]]]].
  - econstructor; [by apply list_lookup_insert_eq|]. eapply reps_frame; [exact Hc|]. intros j Hj. apply list_lookup_insert_ne. intros ->. done.
  - intros j _ Hn. apply list_lookup_insert_ne. intros ->. apply Hn. by left.
Qed.

(** A new leaf below [parent]. *)
Definition with_leaf id nodes (parent : nat) (pinfo : NodeInfo A) (ix : list nat) (info : NodeInfo A) : list (CommandNode A) :=
  <[parent := mkNode pinfo ((mkNodeId id <$> ix) ++ [mkNodeId id (length nodes)])]> (nodes ++ [mkNode info []]).

Lemma with_leaf_parts id nodes parent pinfo ix us fps info :
  nodes !! parent = Some (mkNode pinfo (mkNodeId id <$> ix)) -> reps id nodes ix us fps -> (parent ∉ fps) ->
  with_leaf id nodes parent pinfo ix info !! parent = Some (mkNode pinfo (mkNodeId id <$> ix ++ [length nodes])) /\
  reps id (with_leaf id nodes parent pinfo ix info) ix us fps /\ rep id (with_leaf id nodes parent pinfo ix info) (length nodes) (mkUnregistered info []) [length nodes] /\
  (forall j, (j < length nodes)%nat -> j <> parent -> with_leaf id nodes parent pinfo ix info !! j = nodes !! j).
Proof.
  intros Hi Hc Hni. apply lookup_lt_Some in Hi as Hlt. unfold with_leaf.
  assert (forall j, (j < length nodes)%nat -> j <> parent -> <[parent := mkNode pinfo ((mkNodeId id <$> ix) ++ [mkNodeId id (length nodes)])]> (nodes ++ [mkNode info []]) !! j = nodes !! j) as Hsame.
  { intros j Hj Hne. rewrite list_lookup_insert_ne by done. by apply lookup_app_l. }
  split; [rewrite list_lookup_insert_eq by (rewrite length_app; lia); by rewrite fmap_app|]. split; [|split; [|done]].
  - eapply reps_frame; [exact Hc|]. intros j Hj. apply Hsame; [exact (reps_bound _ _ _ _ _ _ Hc Hj)|by intros ->].
  - apply (rep_node _ _ _ _ []); [|constructor]. rewrite list_lookup_insert_ne by lia. by rewrite list_lookup_middle.
Qed.

Lemma grows_leaf id nodes parent pinfo ix us fps info :
  nodes !! parent = Some (mkNode pinfo (mkNodeId id <$> ix)) -> reps id nodes ix us fps -> NoDup (parent :: fps) ->
  grows id nodes (with_leaf id nodes parent pinfo ix info) parent (mkUnregistered pinfo (us ++ [mkUnregistered info []])) (parent :: fps) (parent :: fps ++ [length nodes]).
Proof.
  intros Hi Hc Hnd. apply NoDup_cons in Hnd as Hnd'. destruct Hnd' as [Hni Hnd']. apply lookup_lt_Some in Hi as Hlt.
  destruct (with_leaf_parts id nodes parent pinfo ix us fps info Hi Hc Hni) as (Hp & Hs & Hl & Hsame).
  assert (forall j, j ∈ parent :: fps -> (j < length nodes)%nat) as Hb by (intros j [->|Hj]%elem_of_cons; [done|exact (reps_bound _ _ _ _ _ _ Hc Hj)]).
  assert (length (with_leaf id nodes parent pinfo ix info) = S (length nodes)) as Hlen by (unfold with_leaf; rewrite length_insert, length_app; simpl; lia).
  split; [|split; [|split; [set_solver|split; [lia|split; [|split]]]]].
  - apply (rep_node id _ _ pinfo (ix ++ [length nodes])); [done|]. apply reps_app; [done|]. by apply reps_one.
  - change (NoDup ((parent :: fps) ++ [length nodes])). apply NoDup_app. split; [done|]. split; [|apply NoDup_singleton]. intros j Hj Hl'%list_elem_of_singleton. apply Hb in Hj. lia.
  - intros j Hj Hn. apply Hsame; [done|]. intros ->. apply Hn. by left.
  - intros j Hj. change (j ∈ (parent :: fps) ++ [length nodes]) in Hj. apply elem_of_app in Hj as [Hj|Hj]; [by left|]. apply list_elem_of_singleton in Hj as ->. by right.
  - intros j Hj. assert (j = length nodes) as -> by lia. set_solver.
Qed.

(** The loops of [apply_merge]. *)
Fixpoint apply_children (d : CommandDispatcher A) (e : NodeId) (children : list U) : option (CommandDispatcher A) :=
  match children with [] => Some d | child :: children => '(d, _) ← apply_merge d e child; apply_children d e children end.

Lemma apply_merge_unfold d parent info children :
  apply_merge d parent (mkUnregistered info children) =
    match find_child d parent (data_name (nf_data info)) with
    | Some existing_id =>
        existing ← cd_nodes d !! ni_index existing_id;
        d' ← apply_children (set_node d (ni_index existing_id) (mkNode (take_executor (cn_info existing) info) (cn_children existing))) existing_id children;
        Some (d', existing_id)
    | None =>
        node ← (cd_nodes d ++ [mkNode info []]) !! ni_index parent;
        d' ← apply_children (set_node (mkDispatcher (cd_id d) (cd_nodes d ++ [mkNode info []])) (ni_index parent)
              (mkNode (cn_info node) (cn_children node ++ [mkNodeId (cd_id d) (length (cd_nodes d))]))) (mkNodeId (cd_id d) (length (cd_nodes d))) children;
        Some (d', mkNodeId (cd_id d) (length (cd_nodes d)))
    end.
Proof. reflexivity. Qed.

Definition names_ok u : Prop := tree_all (fun _ children => NoDup (u_name <$> children)) u.

(** What applying [u] below a node has to do. *)
Definition applies u : Prop :=
  forall d parent t fp, rep (cd_id d) (cd_nodes d) parent t fp -> NoDup fp ->
  exists d' e fp', apply_merge d (mkNodeId (cd_id d) parent) u = Some (d', mkNodeId (cd_id d) e) /\ cd_id d' = cd_id d /\ e ∈ fp' /\
    grows (cd_id d) (cd_nodes d) (cd_nodes d') parent (mkUnregistered (u_info t) (push_node (u_children t) u)) fp fp'.

Lemma apply_children_grows children d e t fp :
  Forall applies children -> rep (cd_id d) (cd_nodes d) e t fp -> NoDup fp ->
  exists d' fp', apply_children d (mkNodeId (cd_id d) e) children = Some d' /\ cd_id d' = cd_id d /\
    grows (cd_id d) (cd_nodes d) (cd_nodes d') e (mkUnregistered (u_info t) (push_nodes (u_children t) children)) fp fp'.
Proof.
  intros H. revert d t fp. induction H as [|c children Hc _ IH]; intros d t fp Hr Hnd; cbn [apply_children].
  - exists d, fp. split; [done|]. split; [done|]. destruct t. by apply grows_refl.
  - destruct (Hc d e t fp Hr Hnd) as (d1 & e1 & fp1 & -> & Hid & _ & Hg). cbn [mbind option_bind]. pose proof Hg as (Hr1 & Hnd1 & _).
    rewrite <- Hid in Hr1 |- *. destruct (IH d1 _ fp1 Hr1 Hnd1) as (d2 & fp2 & -> & Hid2 & Hg2). exists d2, fp2. split; [done|]. split; [done|].
    rewrite Hid in Hg2 |- *. by eapply grows_trans.
Qed.

Lemma find_child_rep d parent info us fp name :
  rep (cd_id d) (cd_nodes d) parent (mkUnregistered info us) fp ->
  exists ix fps, cd_nodes d !! parent = Some (mkNode info (mkNodeId (cd_id d) <$> ix)) /\ reps (cd_id d) (cd_nodes d) ix us fps /\ fp = parent :: fps /\
    find_child d (mkNodeId (cd_id d) parent) name = find_named (cd_nodes d) name (mkNodeId (cd_id d) <$> ix).
Proof.
  intros H. inversion H as [? ? ix ? fps Hi Hc]; subst. exists ix, fps. split; [done|]. split; [done|]. split; [done|].
  unfold find_child, dispatcher_node. cbn [ni_dispatcher ni_index]. rewrite decide_True by done. by rewrite Hi.
Qed.

Lemma push_with_split (g : U -> U) (l : list U) v r incoming :
  (u_name incoming ∉ u_name <$> l) -> u_name v = u_name incoming -> push_with g (l ++ v :: r) incoming = l ++ g v :: r.
Proof.
  intros Hl Hv. induction l as [|x l IH]; cbn [app push_with]; [by rewrite decide_True|]. rewrite fmap_cons, not_elem_of_cons in Hl. destruct Hl as [Hx Hl].
  rewrite decide_False by done. by rewrite IH.
Qed.

Lemma apply_merge_applies u : names_ok u -> applies u.
Proof.
  induction u as [info children IH] using tree_children_ind. intros Hnames d parent [pinfo us] fp Hr Hnd. unfold names_ok in Hnames. rewrite tree_all_unfold in Hnames.
  destruct Hnames as [Hdist Hch]. assert (Forall applies children) as Happ.
  { apply Forall_forall. intros c Hc. rewrite Forall_forall in IH. rewrite Forall_forall in Hch. apply IH; [done|by apply Hch]. }
  destruct (find_child_rep d parent pinfo us fp (data_name (nf_data info)) Hr) as (ix & fps & Hp & Hs & -> & Efind). rewrite apply_merge_unfold, Efind.
  pose proof (find_named_reps _ _ _ _ _ (data_name (nf_data info)) Hs) as Hf. destruct (find_named _ _ _) as [e|].
  - destruct Hf as (i & l & r & ul & [vinfo vus] & ur & fl & fi & fr & -> & -> & -> & -> & Hl & Hi & Hrr & Hname & Hnin). cbn [ni_index].
    destruct (NoDup_mid _ _ _ _ Hnd) as [Hndi _].
    destruct (grows_info _ _ _ _ _ _ (take_executor vinfo info) Hi Hndi) as (iy & Hv & Hg1). rewrite Hv. cbn [mbind option_bind cn_info cn_children].
    pose proof Hg1 as (Hr1 & Hnd1 & _).
    destruct (apply_children_grows children (set_node d i (mkNode (take_executor vinfo info) (mkNodeId (cd_id d) <$> iy))) i _ fi Happ Hr1 Hnd1) as (d' & fi' & E & Hid & Hg2).
    change (cd_id (set_node d i (mkNode (take_executor vinfo info) (mkNodeId (cd_id d) <$> iy)))) with (cd_id d) in E, Hid, Hg2. rewrite E. cbn [mbind option_bind].
    exists d', i, (parent :: fl ++ fi' ++ fr). split; [done|]. split; [done|].
    split; [apply grows_root in Hg2; set_solver|]. cbn [u_info u_children]. unfold push_node. rewrite push_with_split by done. rewrite graft_unfold.
    eapply grows_child; [done|done|done|done|]. by eapply grows_trans.
  - cbn [ni_index]. rewrite lookup_app_l by (by eapply lookup_lt_Some). rewrite Hp. cbn [mbind option_bind cn_info cn_children].
    pose proof (grows_leaf _ _ _ _ _ _ _ info Hp Hs Hnd) as Hg1. apply NoDup_cons in Hnd as Hnd'. destruct Hnd' as [Hni _].
    destruct (with_leaf_parts _ _ _ _ _ _ _ info Hp Hs Hni) as (Hp1 & Hs1 & Hl1 & _). pose proof Hg1 as (_ & Hnd1 & _).
    set (d1 := mkDispatcher (cd_id d) (with_leaf (cd_id d) (cd_nodes d) parent pinfo ix info)).
    destruct (apply_children_grows children d1 (length (cd_nodes d)) _ _ Happ Hl1 (NoDup_singleton _)) as (d' & fi' & E & Hid & Hg2).
    change (apply_children d1 (mkNodeId (cd_id d) (length (cd_nodes d))) children = Some d') in E.
    change (set_node (mkDispatcher (cd_id d) (cd_nodes d ++ [mkNode info []])) parent (mkNode pinfo ((mkNodeId (cd_id d) <$> ix) ++ [mkNodeId (cd_id d) (length (cd_nodes d))]))) with d1.
    rewrite E. cbn [mbind option_bind]. exists d', (length (cd_nodes d)), (parent :: fps ++ fi' ++ []). split; [done|]. split; [done|].
    split; [apply grows_root in Hg2; set_solver|]. cbn [u_info u_children] in *.
    rewrite push_node_new by done. rewrite push_nodes_new in Hg2 by done. cbn [app] in Hg2. eapply grows_trans; [exact Hg1|].
    rewrite <- (app_nil_r [length (cd_nodes d)]) in Hnd1 |- *. apply (grows_child (cd_id d) _ _ parent pinfo ix (length (cd_nodes d)) [] us _ []); [done|done|constructor|done|done].
Qed.

(** ** Validating a merge *)

Definition status {X E : Type} (r : result X E) : result unit E := let? _ := r in Ok tt.

Fixpoint find_u (name : text) (nodes : list U) : option U :=
  match nodes with [] => None | u :: nodes => if decide (u_name u = name) then Some u else find_u name nodes end.

Lemma merge_or_push_status (nodes : list U) (c : U) :
  status (merge_or_push argument_eqb nodes c) = match find_u (u_name c) nodes with None => Ok tt | Some e => status (merge argument_eqb c e) end.
Proof.
  unfold merge_or_push, status. induction nodes as [|e nodes IH]; [done|]. cbn [merge_or_push_with find_u]. case_decide as E.
  - by destruct (merge argument_eqb c e).
  - rewrite <- IH. by destruct (merge_or_push_with _ nodes c).
Qed.

Lemma find_u_push name (nodes : list U) (c : U) : name <> u_name c -> find_u name (push_node nodes c) = find_u name nodes.
Proof.
  intros Hne. unfold push_node. induction nodes as [|e nodes IH]; cbn [push_with find_u]; [by rewrite decide_False|].
  destruct (decide (u_name e = u_name c)) as [E|E]; cbn [find_u].
  - rewrite graft_name, !decide_False by congruence. done.
  - by rewrite IH.
Qed.

Lemma find_u_split name (l : list U) v r : (name ∉ u_name <$> l) -> u_name v = name -> find_u name (l ++ v :: r) = Some v.
Proof.
  intros Hl Hv. induction l as [|x l IH]; cbn [app find_u]; [by rewrite decide_True|]. rewrite fmap_cons, not_elem_of_cons in Hl. destruct Hl as [Hx Hl].
  rewrite decide_False by done. by apply IH.
Qed.

Lemma find_u_None name (nodes : list U) : (name ∉ u_name <$> nodes) -> find_u name nodes = None.
Proof. induction nodes as [|x nodes IH]; cbn [find_u]; [done|]. rewrite fmap_cons, not_elem_of_cons. intros [Hx H]. rewrite decide_False by done. auto. Qed.

Fixpoint validate_children (d : CommandDispatcher A) (e : NodeId) (children : list U) : option (result unit RegistrationErrorKind) :=
  match children with
  | [] => Some (Ok tt)
  | child :: children => r ← validate_merge argument_eqb d e child; match r with Ok _ => validate_children d e children | Err x => Some (Err x) end
  end.

Lemma validate_merge_unfold d parent info children :
  validate_merge argument_eqb d parent (mkUnregistered info children) =
    match find_child d parent (data_name (nf_data info)) with
    | None => Some (Ok tt)
    | Some existing_id =>
        existing ← cd_nodes d !! ni_index existing_id;
        match validate_compatible argument_eqb (cn_info existing) info with Err e => Some (Err e) | Ok _ => validate_children d existing_id children end
    end.
Proof.
  cbn [validate_merge]. change (u_name (mkUnregistered info children)) with (data_name (nf_data info)). destruct (find_child d parent _) as [e|]; [|done].
  destruct (cd_nodes d !! ni_index e) as [x|]; [|done]. cbn [mbind option_bind]. destruct (validate_compatible argument_eqb (cn_info x) info); [|done].
  induction children as [|c children IH]; [done|]. cbn [validate_children]. destruct (validate_merge argument_eqb d e c) as [[]|]; [exact IH|done|done].
Qed.

Definition validates u : Prop :=
  forall d parent t fp, rep (cd_id d) (cd_nodes d) parent t fp ->
  validate_merge argument_eqb d (mkNodeId (cd_id d) parent) u = Some (status (merge_or_push argument_eqb (u_children t) u)).

Lemma validate_children_status (children : list U) d e v fp (nodes : list U) :
  Forall validates children -> NoDup (u_name <$> children) -> rep (cd_id d) (cd_nodes d) e v fp ->
  (forall c, c ∈ children -> find_u (u_name c) nodes = find_u (u_name c) (u_children v)) ->
  validate_children d (mkNodeId (cd_id d) e) children = Some (status (merge_nodes argument_eqb nodes children)).
Proof.
  intros Hv. revert nodes. induction Hv as [|c children Hc Hv IH]; intros nodes Hnd Hr Hsame; [done|]. rewrite fmap_cons in Hnd. apply NoDup_cons in Hnd as [Hin Hnd].
  cbn [validate_children merge_nodes]. rewrite (Hc d e v fp Hr). cbn [mbind option_bind].
  assert (status (merge_or_push argument_eqb nodes c) = status (merge_or_push argument_eqb (u_children v) c)) as Hs by (rewrite !merge_or_push_status, Hsame; [done|by left]).
  rewrite <- Hs. destruct (merge_or_push argument_eqb nodes c) as [nodes'|x] eqn:E; [|done]. cbn [status result_bind]. apply IH; [done|done|]. intros c' Hc'.
  apply merge_or_push_pushes in E as ->. rewrite find_u_push; [apply Hsame; by right|]. intros En. apply Hin. rewrite <- En. by apply list_elem_of_fmap_2.
Qed.

Lemma validate_merge_validates u : names_ok u -> validates u.
Proof.
  induction u as [info children IH] using tree_children_ind. intros Hnames d parent [pinfo us] fp Hr. unfold names_ok in Hnames. rewrite tree_all_unfold in Hnames.
  destruct Hnames as [Hdist Hch]. assert (Forall validates children) as Hval.
  { apply Forall_forall. intros c Hc. rewrite Forall_forall in IH. rewrite Forall_forall in Hch. apply IH; [done|by apply Hch]. }
  destruct (find_child_rep d parent pinfo us fp (data_name (nf_data info)) Hr) as (ix & fps & Hp & Hs & -> & Efind).
  rewrite validate_merge_unfold, Efind, merge_or_push_status. change (u_name (mkUnregistered info children)) with (data_name (nf_data info)). cbn [u_children].
  pose proof (find_named_reps _ _ _ _ _ (data_name (nf_data info)) Hs) as Hf. destruct (find_named _ _ _) as [e|]; [|by rewrite find_u_None].
  destruct Hf as (i & l & r & ul & v & ur & fl & fi & fr & -> & -> & -> & -> & Hl & Hi & Hrr & Hname & Hnin). cbn [ni_index].
  rewrite (find_u_split _ ul v ur) by done. rewrite merge_unfold. assert (exists iy, cd_nodes d !! i = Some (mkNode (u_info v) (mkNodeId (cd_id d) <$> iy))) as [iy ->].
  { inversion Hi; subst. by eexists. }
  cbn [mbind option_bind cn_info]. destruct (validate_compatible argument_eqb (u_info v) info) as [[]|x]; [|done]. cbn [result_bind].
  rewrite (validate_children_status children d i v fi (u_children v)) by done. by destruct (merge_nodes argument_eqb (u_children v) children).
Qed.

(** ** Resolving redirects *)

(** The redirect leads to a node of the arena. *)
Definition target_in (d : CommandDispatcher A) (r : CommandRedirect) : Prop := exists i, rd_target r = TargetNode (mkNodeId (cd_id d) i) /\ (i < length (cd_nodes d))%nat.

Lemma resolve_name root u : u_name (resolve_command_root root u) = u_name u.
Proof. by destruct u. Qed.

Lemma resolve_names root (us : list U) : u_name <$> map (resolve_command_root root) us = u_name <$> us.
Proof. induction us as [|u us IH]; [done|]. cbn [map]. rewrite !fmap_cons, resolve_name. by f_equal. Qed.

Fixpoint validate_all (d : CommandDispatcher A) (us : list U) : result unit RegistrationErrorKind :=
  match us with [] => Ok tt | u :: us => let? _ := validate_redirects d u in validate_all d us end.

Lemma validate_all_Forall d us : validate_all d us = Ok tt -> Forall (fun u => validate_redirects d u = Ok tt) us.
Proof.
  induction us as [|u us IH]; [constructor|]. cbn [validate_all]. destruct (validate_redirects d u) as [[]|] eqn:E; [|done]. cbn [result_bind]. constructor; [done|auto].
Qed.

Lemma validate_redirects_unfold d info children :
  validate_redirects d (mkUnregistered info children) =
    (let? _ := match nf_redirect info with
               | Some (mkRedirect (TargetNode target) _ _) => match dispatcher_node d target with None => Err (InvalidRedirectTarget target) | Some _ => Ok tt end
               | _ => Ok tt
               end in validate_all d children).
Proof.
  cbn [validate_redirects]. destruct (match nf_redirect info with None => _ | Some _ => _ end) as [[]|x]; [|done]. cbn [result_bind]. induction children as [|c children IH]; [done|]. cbn [validate_all].
  destruct (validate_redirects d c); [exact IH|done].
Qed.

Lemma validate_redirects_node d info children : validate_redirects d (mkUnregistered info children) = Ok tt ->
  (forall r, nf_redirect info = Some r -> rd_target r = CommandRoot \/ target_in d r) /\ Forall (fun u => validate_redirects d u = Ok tt) children.
Proof.
  rewrite validate_redirects_unfold. intros H.
  destruct (match nf_redirect info with None => _ | Some _ => _ end) as [[]|x] eqn:E; [|done]. cbn [result_bind] in H. split; [|by apply validate_all_Forall].
  intros [[t|] m f] Hr; [right|by left]. rewrite Hr in E. destruct t as [did i]. unfold dispatcher_node in E. cbn [ni_dispatcher ni_index] in E.
  destruct (decide (did = cd_id d)) as [->|]; [|done]. destruct (cd_nodes d !! i) eqn:Ei; [|done]. exists i. split; [done|]. by eapply lookup_lt_Some.
Qed.

Lemma target_in_grows d d' r : cd_id d' = cd_id d -> (length (cd_nodes d) <= length (cd_nodes d'))%nat -> target_in d r -> target_in d' r.
Proof. intros Hid Hl (i & H & Hi). exists i. rewrite Hid. split; [done|lia]. Qed.

Lemma resolve_ok d d' root u :
  cd_id d' = cd_id d -> (length (cd_nodes d) <= length (cd_nodes d'))%nat -> (root < length (cd_nodes d'))%nat ->
  tree_all (node_ok (fun _ => True)) u -> validate_redirects d u = Ok tt -> tree_all (node_ok (target_in d')) (resolve_command_root (mkNodeId (cd_id d) root) u).
Proof.
  intros Hid Hl Hroot. induction u as [info children IH] using tree_children_ind. rewrite tree_all_unfold. intros [(Hnd & Hred & Hnr) Hc] Hv.
  apply validate_redirects_node in Hv as [Hv Hvc]. cbn [resolve_command_root]. rewrite tree_all_unfold. split.
  - split; [by rewrite resolve_names|]. split; [|done]. intros r Hr. cbn [info_resolve nf_redirect] in Hr. apply fmap_Some in Hr as (r0 & Hr0 & ->).
    destruct (Hred r0 Hr0) as [-> _]. split; [done|]. destruct r0 as [t m f]. unfold redirect_resolve. cbn [rd_target].
    destruct (Hv _ Hr0) as [Ht|Ht]; cbn [rd_target] in Ht.
    + rewrite Ht, decide_True by done. exists root. by rewrite Hid.
    + destruct (decide (t = CommandRoot)) as [->|]; [by destruct Ht as (? & ? & _)|]. by eapply target_in_grows.
  - apply Forall_forall. intros c' Hc'. apply list_elem_of_In, in_map_iff in Hc' as (c & <- & Hc'). apply list_elem_of_In in Hc'.
    rewrite Forall_forall in IH. rewrite Forall_forall in Hc. rewrite Forall_forall in Hvc. apply IH; auto.
Qed.

Lemma ok_names Q u : tree_all (node_ok Q) u -> names_ok u.
Proof. apply tree_all_impl. by intros info children [H _]. Qed.
End Arena.
