(* ===== verification/CommandDispatch.v ===== *)
(** * Registering commands

    The dispatcher as its clients see it: a list of command trees.  Registration normalizes the
    builder, resolves its redirects to the command's own root and merges the result into the
    list; it reports the first error and changes nothing, or the arena holds the merged list. *)

From Stdlib Require Import String.
From S2P Require Import Prelude Texts CommandTree CommandRegistration CommandArena.

#[local] Open Scope list_scope.
#[local] Open Scope steel_scope.

Section Dispatch.
  Context {A : Type} (argument_eqb : A -> A -> bool).
  Abbreviation U := (UnregisteredCommandNode A).
  Implicit Types d : CommandDispatcher A.

(** The arena holds exactly the commands [cs]: each of its nodes is the root or lies on one
    place of one command. *)
Definition arena_holds d (cs : list U) : Prop :=
  exists fp, rep (cd_id d) (cd_nodes d) 0 (mkUnregistered root_info cs) fp /\ NoDup fp /\ forall j, (j < length (cd_nodes d))%nat -> j ∈ fp.

(** Distinct names among siblings, redirects that lead to nodes of the arena, no children
    below a redirect. *)
Definition commands_ok d (cs : list U) : Prop := NoDup (u_name <$> cs) /\ Forall (tree_all (node_ok (target_in d))) cs.

(** Builders are literals and arguments. *)
Definition builder_ok (builder : U) : Prop := tree_all (fun info _ => nf_data info <> Root) builder.

(** The node of the command in the arena, or the next free index. *)
Definition command_index d (node : U) : NodeId := default (mkNodeId (cd_id d) (length (cd_nodes d))) (find_child d (dispatcher_root d) (u_name node)).

(** What registering is meant to do on a list of commands. *)
Definition register_spec d (cs : list U) (builder : U) : result (list U * NodeId) RegistrationErrorKind :=
  let? node := normalize argument_eqb builder in
  if decide (data_kind (nf_data (u_info node)) = KindLiteral) then
    let? _ := validate_redirects d node in
    let? cs' := merge_or_push argument_eqb cs (resolve_command_root (command_index d node) node) in
    Ok (cs', command_index d node)
  else Err ArgumentRoot.

Lemma apply_merge_id d u d' e :
  apply_merge d (dispatcher_root d) u = Some (d', e) -> e = command_index d u.
Proof.
  destruct u as [info children]. rewrite apply_merge_unfold. unfold command_index. change (u_name (mkUnregistered info children)) with (data_name (nf_data info)).
  destruct (find_child d (dispatcher_root d) (data_name (nf_data info))) as [x|].
  - destruct (cd_nodes d !! ni_index x); [|done]. cbn [mbind option_bind]. destruct (apply_children _ _ _); [|done]. cbn [mbind option_bind]. by intros [= _ <-].
  - destruct (_ !! _); [|done]. cbn [mbind option_bind]. destruct (apply_children _ _ _); [|done]. cbn [mbind option_bind]. by intros [= _ <-].
Qed.

(** Merging [node] into an arena that holds [cs]. *)
Lemma apply_holds d cs node :
  arena_holds d cs -> names_ok node ->
  exists d', apply_merge d (dispatcher_root d) node = Some (d', command_index d node) /\ cd_id d' = cd_id d /\ (length (cd_nodes d) <= length (cd_nodes d'))%nat /\
    (exists i, command_index d node = mkNodeId (cd_id d) i /\ (i < length (cd_nodes d'))%nat) /\ arena_holds d' (push_node cs node).
Proof.
  intros (fp & Hr & Hnd & Hall) Hn. destruct (apply_merge_applies node Hn d 0%nat _ fp Hr Hnd) as (d' & e & fp' & E & Hid & He & Hg).
  pose proof (apply_merge_id _ _ _ _ E) as Hi. rewrite <- Hi. exists d'. destruct Hg as (H1 & H2 & H3 & H4 & _ & _ & H7). split; [exact E|]. split; [done|]. split; [done|].
  split; [exists e; split; [done|by eapply rep_bound]|]. exists fp'. rewrite Hid. split; [done|]. split; [done|]. intros j Hj.
  destruct (decide (j < length (cd_nodes d))%nat); [by apply H3, Hall|apply H7; lia].
Qed.

Lemma resolve_names_ok root (u : U) : names_ok u -> names_ok (resolve_command_root root u).
Proof.
  unfold names_ok. induction u as [info children IH] using tree_children_ind. cbn [resolve_command_root]. rewrite !tree_all_unfold. intros [H1 H2]. rewrite resolve_names.
  split; [done|]. apply Forall_forall. intros c' Hc'. apply list_elem_of_In, in_map_iff in Hc' as (c & <- & Hc'). apply list_elem_of_In in Hc'.
  rewrite Forall_forall in IH. rewrite Forall_forall in H2. auto.
Qed.

Lemma register_holds d cs builder :
  arena_holds d cs -> builder_ok builder ->
  match register_spec d cs builder with
  | Err e => register argument_eqb d builder = Some (d, Err e)
  | Ok (cs', i) => exists d', register argument_eqb d builder = Some (d', Ok i) /\ cd_id d' = cd_id d /\ arena_holds d' cs' /\ (commands_ok d cs -> commands_ok d' cs')
  end.
Proof.
  intros Hh Hb. unfold register_spec, register. destruct (normalize argument_eqb builder) as [node|x] eqn:En; [|done]. cbn [result_bind].
  pose proof (normalize_tree_ok _ _ _ Hb En) as Hok. pose proof (ok_names _ _ Hok) as Hnames. destruct (decide _) as [Ek|Ek]; [rewrite bool_decide_true by done|by rewrite bool_decide_false].
  cbn [negb]. destruct (validate_redirects d node) as [[]|x] eqn:Ev; [|done]. cbn [result_bind]. fold (command_index d node).
  set (node' := resolve_command_root (command_index d node) node). pose proof (resolve_names_ok (command_index d node) _ Hnames) as Hnames'. fold node' in Hnames'.
  assert (command_index d node' = command_index d node) as Hci by (unfold command_index, node'; by rewrite resolve_name).
  destruct Hh as (fp & Hr & Hnd & Hall). pose proof (validate_merge_validates argument_eqb node' Hnames' d 0%nat _ fp Hr) as Hval. fold (dispatcher_root d) in Hval.
  cbn [u_children] in Hval. rewrite Hval. cbn [mbind option_bind]. destruct (merge_or_push argument_eqb cs node') as [cs'|x] eqn:Em; [|done]. cbn [status result_bind].
  destruct (apply_holds d cs node') as (d' & E & Hid & Hlen & (i & Hi & Hlt) & Hh'); [by exists fp|done|]. rewrite E, Hci. cbn [mbind option_bind].
  exists d'. split; [done|]. split; [done|]. pose proof Em as Em'. apply merge_or_push_pushes in Em as ->. split; [done|]. intros [Hd Hf].
  split; [by apply push_node_NoDup|]. eapply merge_or_push_keeps_ok; [| |exact Em'].
  - unfold node'. rewrite <- Hci, Hi. by eapply resolve_ok.
  - eapply Forall_impl; [exact Hf|]. intros u. apply tree_all_impl. intros info children (G1 & G2 & G3). split; [done|]. split; [|done]. intros r Hred.
    destruct (G2 r Hred). split; [done|]. by eapply target_in_grows.
Qed.

(** The dispatchers a program can build. *)
Inductive registered : CommandDispatcher A -> Prop :=
| registered_new id : registered (dispatcher_new id)
| registered_register d builder d' r : registered d -> builder_ok builder -> register argument_eqb d builder = Some (d', r) -> registered d'.

Lemma new_holds id : arena_holds (dispatcher_new id) [].
Proof.
  exists [0%nat]. split; [apply (rep_node _ _ _ _ []); [done|constructor]|]. split; [apply NoDup_singleton|]. intros j Hj. cbn in Hj. assert (j = 0%nat) as -> by lia. by left.
Qed.

Lemma registered_holds d : registered d -> exists cs, arena_holds d cs /\ commands_ok d cs.
Proof.
  induction 1 as [id|d builder d' r _ (cs & Hh & Hc) Hb E].
  - exists []. split; [apply new_holds|]. split; [apply NoDup_nil_2|constructor].
  - pose proof (register_holds d cs builder Hh Hb) as H. destruct (register_spec d cs builder) as [[cs' i]|x].
    + destruct H as (d2 & E2 & _ & Hh2 & Hc2). rewrite E in E2. injection E2 as -> ->. exists cs'. auto.
    + rewrite E in H. injection H as -> _. by exists cs.
Qed.
End Dispatch.

(** C15. Registering a command in an arena that holds the commands [cs] does what merging trees
    does: the builder is normalized, has to be a literal, its redirects have to lead to nodes,
    and the result is merged by name into [cs], with redirects to the command root leading to
    the node of the command.  An error leaves the dispatcher as it was; otherwise the arena
    holds the merged commands, the identifier is that of the command's node, and siblings
    still have distinct names and redirects still lead to nodes.  No index is out of range. *)
Theorem registration_refines_merging {A} (argument_eqb : A -> A -> bool) d cs builder :
  arena_holds d cs -> commands_ok d cs -> builder_ok builder ->
  match register_spec argument_eqb d cs builder with
  | Err e => register argument_eqb d builder = Some (d, Err e)
  | Ok (cs', i) => exists d', register argument_eqb d builder = Some (d', Ok i) /\ cd_id d' = cd_id d /\ arena_holds d' cs' /\ commands_ok d' cs'
  end.
Proof.
  intros Hh Hc Hb. pose proof (register_holds argument_eqb d cs builder Hh Hb) as H. destruct (register_spec argument_eqb d cs builder) as [[cs' i]|e]; [|done].
  destruct H as (d' & E & Hid & Hh' & Hc'). exists d'. auto.
Qed.

Lemma registration_refines_merging_witness :
  let info := fun name redirect => mkInfo (A := Z) (Literal (lit name)) (Some 1) allow_all allow_all redirect in
  let builder := mkUnregistered (info "run"%string None) [mkUnregistered (info "again"%string (Some (mkRedirect CommandRoot None false))) []] in
  exists d', register Z.eqb (dispatcher_new 1) builder = Some (d', Ok (mkNodeId 1 1)) /\
    arena_holds d' [mkUnregistered (info "run"%string None) [mkUnregistered (info "again"%string (Some (mkRedirect (TargetNode (mkNodeId 1 1)) None false))) []]].
Proof.
  intros info builder. assert (builder_ok builder) as Hb by (repeat split; discriminate).
  assert (commands_ok (A := Z) (dispatcher_new 1) []) as Hc by (split; constructor).
  destruct (registration_refines_merging Z.eqb (dispatcher_new 1) [] builder (new_holds 1) Hc Hb) as (d' & E & _ & H & _). by exists d'.
Defined.
