(* ===== verification/CommandParse.v ===== *)
(** * Parsing commands

    Models the parsing half of [steel-core/src/command/brigadier] ([string_range.rs],
    [context.rs], and [parse_nodes], [parse_node], [relevant_nodes], [is_better_parse] and
    [context_chain] of [dispatcher.rs]).  The argument parsers of a runtime and the predicates
    of requirements are parameters, executors and modifiers are numbers as in the command
    graph.  [None] is a panic: an index out of range, a child that is a root, a redirect
    without a concrete target, a range with its end before its start. *)

From Stdlib Require Import String.
From S2P Require Import Prelude Texts CommandReader CommandTree.

#[local] Open Scope list_scope.
#[local] Open Scope steel_scope.

(** ** Ranges *)

Record StringRange := mkRange { sg_start : Z; sg_end : Z }.
Definition range_at (position : Z) : StringRange := mkRange position position.
Definition range_between (start end_ : Z) : option StringRange := if start <=? end_ then Some (mkRange start end_) else None.
Definition range_encompassing (first second : StringRange) : StringRange :=
  mkRange (if sg_start first <? sg_start second then sg_start first else sg_start second) (if sg_end second <? sg_end first then sg_end first else sg_end second).
Definition range_is_empty (r : StringRange) : bool := sg_start r =? sg_end r.

(** ** Contexts *)

Record ParsedArgument (V : Type) := mkParsedArgument { pa_range : StringRange; pa_value : V }.
Arguments mkParsedArgument {V}. Arguments pa_range {V}. Arguments pa_value {V}.

Fixpoint arguments_insert {V} (values : list (text * ParsedArgument V)) (name : text) (range : StringRange) (value : V) : list (text * ParsedArgument V) :=
  match values with
  | [] => [(name, mkParsedArgument range value)]
  | (existing, argument) :: values =>
      if decide (existing = name) then (existing, mkParsedArgument range value) :: values else (existing, argument) :: arguments_insert values name range value
  end.
(** [None] is the missing-argument error. *)
Fixpoint arguments_get {V} (values : list (text * ParsedArgument V)) (name : text) : option V :=
  match values with
  | [] => None
  | (existing, argument) :: values => if decide (existing = name) then Some (pa_value argument) else arguments_get values name
  end.

Record ParsedCommandNode := mkParsedNode { pn_node : NodeId; pn_range : StringRange }.

#[warnings="-register-all"]
Inductive ParsedCommandContext (S V : Type) := mkContext {
  pc_source : S;
  pc_root : NodeId;
  pc_arguments : list (text * ParsedArgument V);
  pc_executor : option Z;
  pc_nodes : list ParsedCommandNode;
  pc_range : StringRange;
  pc_child : option (ParsedCommandContext S V);
  pc_modifier : option Z;
  pc_forks : bool;
}.
Arguments mkContext {S V}. Arguments pc_source {S V}. Arguments pc_root {S V}. Arguments pc_arguments {S V}. Arguments pc_executor {S V}. Arguments pc_nodes {S V}.
Arguments pc_range {S V}. Arguments pc_child {S V}. Arguments pc_modifier {S V}. Arguments pc_forks {S V}.

Record ParseError (F : Type) := mkParseError { er_node : NodeId; er_error : CommandSyntaxError F }.
Arguments mkParseError {F}. Arguments er_node {F}. Arguments er_error {F}.

Record ParseResults (F S V : Type) := mkParse { ps_context : ParsedCommandContext S V; ps_reader : StringReader; ps_errors : list (ParseError F) }.
Arguments mkParse {F S V}. Arguments ps_context {F S V}. Arguments ps_reader {F S V}. Arguments ps_errors {F S V}.

Section Contexts.
  Context {S V : Type}.
  Implicit Types c : ParsedCommandContext S V.

Definition context_new (source : S) (root : NodeId) (start : Z) : ParsedCommandContext S V :=
  mkContext source root [] None [] (range_at start) None None false.
Definition set_executor c (executor : option Z) : ParsedCommandContext S V :=
  mkContext (pc_source c) (pc_root c) (pc_arguments c) executor (pc_nodes c) (pc_range c) (pc_child c) (pc_modifier c) (pc_forks c).
Definition with_node c (node : NodeId) (range : StringRange) (redirect : option CommandRedirect) : ParsedCommandContext S V :=
  mkContext (pc_source c) (pc_root c) (pc_arguments c) (pc_executor c) (pc_nodes c ++ [mkParsedNode node range]) (range_encompassing (pc_range c) range) (pc_child c)
    (r ← redirect; rd_modifier r) (match redirect with Some r => rd_forks r | None => false end).
Definition with_argument c (name : text) (range : StringRange) (value : V) : ParsedCommandContext S V :=
  mkContext (pc_source c) (pc_root c) (arguments_insert (pc_arguments c) name range value) (pc_executor c) (pc_nodes c) (pc_range c) (pc_child c) (pc_modifier c) (pc_forks c).
Definition set_child c (child : ParsedCommandContext S V) : ParsedCommandContext S V :=
  mkContext (pc_source c) (pc_root c) (pc_arguments c) (pc_executor c) (pc_nodes c) (pc_range c) (Some child) (pc_modifier c) (pc_forks c).
End Contexts.

(** ** Parsing *)

(** [split_once(' ')]. *)
Fixpoint first_token (s : text) : text := match s with [] => [] | c :: s => if c =? SPACE then [] else c :: first_token s end.

Section Parsing.
  Context {F S A V : Type} (predicate : Z -> S -> bool) (parse_argument : A -> StringReader -> S -> reading F V) (d : CommandDispatcher A).
  Abbreviation Ctx := (ParsedCommandContext S V).
  Abbreviation Parse := (ParseResults F S V).

Definition requirement_allows (r : CommandRequirement) (source : S) : bool := match rq_predicate r with None => true | Some p => predicate p source end.

(** [None] is a redirect to the command root that was not resolved. *)
Definition node_redirect (info : NodeInfo A) : option (option NodeId) :=
  match nf_redirect info with
  | None => Some None
  | Some r => match rd_target r with TargetNode target => Some (Some target) | CommandRoot => None end
  end.

Fixpoint relevant_loop (token : text) (children arguments : list NodeId) : option (list NodeId) :=
  match children with
  | [] => Some arguments
  | id :: children =>
      node ← cd_nodes d !! ni_index id;
      match nf_data (cn_info node) with
      | Literal literal => if decide (literal = token) then Some [id] else relevant_loop token children arguments
      | Argument _ _ => relevant_loop token children (arguments ++ [id])
      | Root => relevant_loop token children arguments
      end
  end.
Definition relevant_nodes (parent : NodeId) (r : StringReader) : option (list NodeId) :=
  match dispatcher_node d parent with
  | None => Some []
  | Some node => remaining ← remaining r; relevant_loop (first_token remaining) (cn_children node) []
  end.

Definition parse_node (id : NodeId) (r : StringReader) (c : Ctx) : option (result (StringReader * Ctx) (CommandSyntaxError F)) :=
  node ← cd_nodes d !! ni_index id;
  let start := rc_utf16 (sr_cursor r) in
  match nf_data (cn_info node) with
  | Root => None
  | Literal literal =>
      '(matched, r') ← try_read_literal r literal;
      if negb matched then Some (Err (reader_error r' (LiteralIncorrect literal)))
      else range ← range_between start (rc_utf16 (sr_cursor r')); Some (Ok (r', with_node c id range (nf_redirect (cn_info node))))
  | Argument name argument_type =>
      '(value, r') ← parse_argument argument_type r (pc_source c);
      match value with
      | Err e => Some (Err e)
      | Ok value =>
          range ← range_between start (rc_utf16 (sr_cursor r'));
          Some (Ok (r', with_node (with_argument c name range value) id range (nf_redirect (cn_info node))))
      end
  end.

Definition is_better_parse (candidate current : Parse) : bool :=
  if negb (can_read (ps_reader candidate)) && can_read (ps_reader current) then true
  else if can_read (ps_reader candidate) && negb (can_read (ps_reader current)) then false
  else bool_decide (length (ps_errors candidate) = 0%nat) && negb (bool_decide (length (ps_errors current) = 0%nat)).

(** The executor of a node, for a source that may execute it. *)
Definition allowed_executor (info : NodeInfo A) (source : S) : option Z :=
  e ← nf_executor info; if requirement_allows (nf_execution_requirement info) source then Some e else None.

(** [reader.can_read() && reader.peek() != Some(' ')]. *)
Definition separator_missing (r : StringReader) : option bool :=
  if can_read r then next ← reader_peek r; Some (negb (bool_decide (next = Some SPACE))) else Some false.

(** The loop over the relevant children: a parse that is returned at once, or the errors and
    the potential parses. *)
Fixpoint parse_children (parse_nodes : NodeId -> StringReader -> Ctx -> option Parse) (r0 : StringReader) (c0 : Ctx) (children : list NodeId)
  (errors : list (ParseError F)) (potentials : list Parse) : option (Parse + list (ParseError F) * list Parse) :=
  match children with
  | [] => Some (inr (errors, potentials))
  | id :: children =>
      let continue := parse_children parse_nodes r0 c0 children in
      node ← cd_nodes d !! ni_index id;
      if negb (requirement_allows (nf_requirement (cn_info node)) (pc_source c0)) then continue errors potentials
      else
        parsed ← parse_node id r0 c0;
        match parsed with
        | Err e => continue (errors ++ [mkParseError id e]) potentials
        | Ok (r, c) =>
            missing ← separator_missing r;
            if (missing : bool) then continue (errors ++ [mkParseError id (reader_error r ExpectedArgumentSeparator)]) potentials
            else
              let c := set_executor c (allowed_executor (cn_info node) (pc_source c)) in
              redirect ← node_redirect (cn_info node);
              if can_read_length r (match redirect with Some _ => 1 | None => 2 end) then
                '(_, r) ← skip r;
                match redirect with
                | Some target =>
                    parse ← parse_nodes target r (context_new (pc_source c) target (rc_utf16 (sr_cursor r)));
                    Some (inl (mkParse (set_child c (ps_context parse)) (ps_reader parse) (ps_errors parse)))
                | None => parse ← parse_nodes id r c; continue errors (potentials ++ [parse])
                end
              else continue errors (potentials ++ [mkParse c r []])
        end
  end.

Definition best_parse (best : Parse) (potentials : list Parse) : Parse :=
  foldl (fun best potential => if is_better_parse potential best then potential else best) best potentials.

(** Each level reads a separator, so that the characters left bound the depth. *)
Fixpoint parse_nodes (fuel : nat) (parent : NodeId) (r0 : StringReader) (c0 : Ctx) : option Parse :=
  match fuel with
  | O => None
  | Datatypes.S fuel =>
      children ← relevant_nodes parent r0;
      outcome ← parse_children (parse_nodes fuel) r0 c0 children [] [];
      match outcome with
      | inl parse => Some parse
      | inr (errors, []) => Some (mkParse c0 r0 errors)
      | inr (_, best :: potentials) => Some (best_parse best potentials)
      end
  end.

Definition parse_reader (r : StringReader) (source : S) : option Parse :=
  parse_nodes (skip_fuel r) (dispatcher_root d) r (context_new source (dispatcher_root d) (rc_utf16 (sr_cursor r))).
Definition parse (input : text) (source : S) : option Parse := parse_reader (reader_new input) source.
End Parsing.

(** ** What parsing relies on *)

(** The arena resolves every link: children exist and are not roots, redirects lead to nodes. *)
Class SafeArena {A} (d : CommandDispatcher A) : Prop := {
  safe_root : is_Some (dispatcher_node d (dispatcher_root d));
  safe_children id n c : dispatcher_node d id = Some n -> c ∈ cn_children n -> exists m, dispatcher_node d c = Some m /\ nf_data (cn_info m) <> Root;
  safe_redirects id n r : dispatcher_node d id = Some n -> nf_redirect (cn_info n) = Some r -> exists t, rd_target r = TargetNode t /\ is_Some (dispatcher_node d t);
}.

(** An argument parser returns and never moves the reader back. *)
Class ArgumentParser {F S A V} (parse_argument : A -> StringReader -> S -> reading F V) : Prop :=
  parser_reads a r source before after : reader_at r before after -> reads before after (parse_argument a r source) (fun _ _ => True).

#[global] Instance builtin_arguments {F S} (float : FloatText F) : ArgumentParser (fun a r (_ : S) => parse_value float a r).
Proof. intros a r source before after H. eapply reads_mono; [by apply parse_value_reads|done]. Qed.

(** ** What a parse says *)

Section Sound.
  Context {F S A V : Type} (predicate : Z -> S -> bool) (d : CommandDispatcher A) (input : text) (source : S).
  Abbreviation Ctx := (ParsedCommandContext S V).

(** [range] of the input is a whole token that the node accepts. *)
Definition token_of (info : NodeInfo A) (range : StringRange) : Prop :=
  exists before word after, input = before ++ word ++ after /\ range = mkRange (utf16_length before) (utf16_length (before ++ word)) /\
    (after = [] \/ head after = Some SPACE) /\ (forall literal, nf_data info = Literal literal -> word = literal).

(** The nodes lead from [root] down to [last] along children that the source may use; the
    tokens follow one another from [start], and the next one would begin at [next]. *)
Inductive token_path (root : NodeId) (start : Z) : list ParsedCommandNode -> NodeId -> Z -> Prop :=
| token_path_nil : token_path root start [] root start
| token_path_snoc nodes last next parent id node range :
    token_path root start nodes last next -> dispatcher_node d last = Some parent -> id ∈ cn_children parent -> dispatcher_node d id = Some node ->
    requirement_allows predicate (nf_requirement (cn_info node)) source = true -> token_of (cn_info node) range -> sg_start range = next ->
    token_path root start (nodes ++ [mkParsedNode id range]) id (sg_end range + 1).

(** What the last node of a context gives to it. *)
Definition last_gives (c : Ctx) (last : NodeId) : Prop :=
  (pc_nodes c = [] /\ pc_executor c = None /\ pc_modifier c = None /\ pc_forks c = false) \/
  (exists n, dispatcher_node d last = Some n /\ pc_executor c = allowed_executor predicate (cn_info n) source /\
     pc_modifier c = (r ← nf_redirect (cn_info n); rd_modifier r) /\ pc_forks c = match nf_redirect (cn_info n) with Some r => rd_forks r | None => false end).

(** A context that begins at [start], for a reader that stopped at [stop]. *)
Inductive parsed_ok : Ctx -> Z -> Z -> Prop :=
| context_leaf c start stop last next :
    pc_source c = source -> token_path (pc_root c) start (pc_nodes c) last next -> last_gives c last -> pc_child c = None ->
    stop = next \/ (pc_nodes c <> [] /\ stop + 1 = next) -> pc_range c = mkRange start (if decide (pc_nodes c = []) then start else next - 1) -> parsed_ok c start stop
| context_redirect c start stop last next n child r :
    pc_source c = source -> token_path (pc_root c) start (pc_nodes c) last next -> last_gives c last -> pc_child c = Some child ->
    dispatcher_node d last = Some n -> nf_redirect (cn_info n) = Some r -> rd_target r = TargetNode (pc_root child) -> pc_nodes c <> [] ->
    pc_range c = mkRange start (next - 1) -> parsed_ok child next stop -> parsed_ok c start stop.
End Sound.
