(* ===== verification/CommandParsing.v ===== *)
(** * Parsing returns and says what it read

    The parser finishes on every input, without a panic, and the context it returns is a path
    of nodes that the source may use. *)

From Stdlib Require Import String.
From S2P Require Import Prelude Texts CommandReader CommandTree CommandRegistration CommandArena CommandDispatch CommandParse.

#[local] Open Scope list_scope.
#[local] Open Scope steel_scope.

(** ** The arena of registered commands is safe *)

Section Safe.
  Context {A : Type} (argument_eqb : A -> A -> bool).
  Implicit Types d : CommandDispatcher A.

(** The links of one node of the arena. *)
Definition links_ok d (n : CommandNode A) : Prop :=
  (forall c, c ∈ cn_children n -> exists m, dispatcher_node d c = Some m /\ nf_data (cn_info m) <> Root) /\ (forall r, nf_redirect (cn_info n) = Some r -> target_in d r).

Lemma node_at d i : dispatcher_node d (mkNodeId (cd_id d) i) = cd_nodes d !! i.
Proof. unfold dispatcher_node. by rewrite decide_True. Qed.

Lemma rep_links_both d :
  (forall i u fp, rep (cd_id d) (cd_nodes d) i u fp -> (forall r, nf_redirect (u_info u) = Some r -> target_in d r) -> Forall (tree_all (node_ok (target_in d))) (u_children u) ->
     forall j, j ∈ fp -> exists n, cd_nodes d !! j = Some n /\ links_ok d n) /\
  (forall ix us fps, reps (cd_id d) (cd_nodes d) ix us fps -> Forall (tree_all (node_ok (target_in d))) us ->
     (forall j, j ∈ fps -> exists n, cd_nodes d !! j = Some n /\ links_ok d n) /\ (forall i, i ∈ ix -> exists m, cd_nodes d !! i = Some m /\ nf_data (cn_info m) <> Root)).
Proof.
  apply rep_reps_ind.
  - intros i info ix us fps Hi _ IH Hred Hus j Hj. cbn [u_info u_children] in *. destruct (IH Hus) as [Hf Hc]. apply elem_of_cons in Hj as [->|Hj]; [|by apply Hf].
    eexists. split; [exact Hi|]. split; [|exact Hred]. cbn [cn_children]. intros c Hc'. apply list_elem_of_fmap in Hc' as (k & -> & Hk). rewrite node_at. by apply Hc.
  - intros _. split; [by intros j Hj%elem_of_nil|by intros i Hi%elem_of_nil].
  - intros i u fp ix us fps Hr IH1 _ IH2 Hus. inversion Hus as [|? ? Hu Hus']; subst. destruct (IH2 Hus') as [Hf Hc]. destruct u as [info cs]. rewrite tree_all_unfold in Hu.
    destruct Hu as [(_ & Hred & Hroot) Hcs]. split.
    + intros j [Hj|Hj]%elem_of_app; [|by apply Hf]. apply IH1; [|done|done]. intros r Hr'. by apply Hred.
    + intros k [->|Hk]%elem_of_cons; [|by apply Hc]. inversion Hr; subst. by eexists.
Qed.

Lemma holds_safe d cs : arena_holds d cs -> commands_ok d cs -> SafeArena d.
Proof.
  intros (fp & Hr & _ & Hall) [_ Hok]. assert (forall id n, dispatcher_node d id = Some n -> links_ok d n) as Hl.
  { intros id n H. unfold dispatcher_node in H. destruct (decide _); [|done]. destruct (proj1 (rep_links_both d) _ _ _ Hr) with (ni_index id) as (n' & Hn & Hlk); [done|done| |by simplify_eq].
    apply Hall. by eapply lookup_lt_Some. }
  split.
  - unfold dispatcher_root. rewrite node_at. inversion Hr; subst. by eexists.
  - intros id n c H Hc. destruct (Hl _ _ H) as [Hch _]. by apply Hch.
  - intros id n r H Hred. destruct (Hl _ _ H) as [_ Ht]. destruct (Ht r Hred) as (i & E & Hi). exists (mkNodeId (cd_id d) i). split; [done|]. rewrite node_at. by apply lookup_lt_is_Some_2.
Qed.

Lemma registered_safe d : registered argument_eqb d -> SafeArena d.
Proof. intros (cs & Hh & Hc)%registered_holds. by eapply holds_safe. Qed.
End Safe.

(** ** The parser *)

Section Parser.
  Context {F S A V : Type} (predicate : Z -> S -> bool) (parse_argument : A -> StringReader -> S -> reading F V) (d : CommandDispatcher A).
  Context {safe : SafeArena d} {lawful : ArgumentParser parse_argument}.
  Context (input : text) (source : S).
  Abbreviation Ctx := (ParsedCommandContext S V).

(** The reader is in the input, between [before] and [after]. *)
Definition reading_at (r : StringReader) (before after : text) : Prop := reader_at r before after /\ before ++ after = input.

(** A context that can still grow: below [last], at [next]. *)
Definition open_at (c : Ctx) (start : Z) (last : NodeId) (next : Z) : Prop :=
  pc_source c = source /\ token_path predicate d input source (pc_root c) start (pc_nodes c) last next /\ last_gives predicate d source c last /\ pc_child c = None /\
  start <= next /\ pc_range c = mkRange start (if decide (pc_nodes c = []) then start else next - 1) /\ (pc_nodes c <> [] -> start < next).

Definition parse_sound (p : ParseResults F S V) (start : Z) : Prop :=
  exists before after, reading_at (ps_reader p) before after /\ parsed_ok predicate d input source (ps_context p) start (utf16_length before).

Lemma open_new target start : open_at (context_new source target start) start target start.
Proof using. split; [done|]. split; [constructor|]. split; [by left|]. split; [done|]. split; [lia|]. by split. Qed.

Lemma lookup_node id n : dispatcher_node d id = Some n -> cd_nodes d !! ni_index id = Some n.
Proof using. unfold dispatcher_node. by destruct (decide _). Qed.

Lemma relevant_loop_ok token children arguments parent n :
  dispatcher_node d parent = Some n -> (forall id, id ∈ children -> id ∈ cn_children n) -> (forall id, id ∈ arguments -> id ∈ cn_children n) ->
  exists ids, relevant_loop d token children arguments = Some ids /\ forall id, id ∈ ids -> id ∈ cn_children n.
Proof using safe.
  intros Hn. revert arguments. induction children as [|c children IH]; intros arguments Hc Ha; cbn [relevant_loop]; [by exists arguments|].
  destruct (safe_children parent n c Hn) as (m & Hm & _); [apply Hc; by left|]. rewrite (lookup_node _ _ Hm). cbn [mbind option_bind].
  assert (forall arguments, (forall id, id ∈ arguments -> id ∈ cn_children n) -> exists ids, relevant_loop d token children arguments = Some ids /\ forall id, id ∈ ids -> id ∈ cn_children n) as Hgo.
  { intros args Hargs. apply IH; [|done]. intros id Hid. apply Hc. by right. }
  destruct (nf_data (cn_info m)) as [|l|name a].
  - by apply Hgo.
  - case_decide; [|by apply Hgo]. exists [c]. split; [done|]. intros id ->%list_elem_of_singleton. apply Hc. by left.
  - apply Hgo. intros id [Hid|Hid]%elem_of_app; [by apply Ha|]. apply list_elem_of_singleton in Hid as ->. apply Hc. by left.
Qed.

Lemma relevant_nodes_ok parent r before after :
  reader_at r before after -> exists ids, relevant_nodes d parent r = Some ids /\ forall id, id ∈ ids -> exists n, dispatcher_node d parent = Some n /\ id ∈ cn_children n.
Proof using safe.
  intros Hr. unfold relevant_nodes. destruct (dispatcher_node d parent) as [n|] eqn:En.
  - rewrite (remaining_at _ _ _ Hr). cbn [mbind option_bind]. destruct (relevant_loop_ok (first_token after) (cn_children n) [] parent n En) as (ids & -> & H); [done|by intros id Hid%elem_of_nil|].
    exists ids. split; [done|]. intros id Hid. eauto.
  - exists []. split; [done|]. by intros id Hid%elem_of_nil.
Qed.

Lemma try_read_literal_at r before after literal :
  reader_at r before after ->
  exists b r', try_read_literal r literal = Some (b, r') /\ (b = true -> exists rest, after = literal ++ rest /\ reader_at r' (before ++ literal) rest).
Proof using.
  intros Hr. unfold try_read_literal. rewrite (remaining_at _ _ _ Hr). cbn [mbind option_bind]. destruct (strip_prefix literal after) as [rest|] eqn:E; [|by eexists _, _].
  apply strip_prefix_spec in E. pose proof (advance_at _ _ _ Hr _ _ E) as Ha. destruct (head rest) as [c|]; [destruct (c =? SPACE)|]; eexists _, _; (split; [done|]); try done; intros _; by exists rest.
Qed.

(** What reading one node adds to the context. *)
Definition node_added (c c' : Ctx) (id : NodeId) (info : NodeInfo A) (range : StringRange) : Prop :=
  pc_source c' = pc_source c /\ pc_root c' = pc_root c /\ pc_child c' = pc_child c /\ pc_nodes c' = pc_nodes c ++ [mkParsedNode id range] /\
  pc_range c' = range_encompassing (pc_range c) range /\ pc_modifier c' = (r ← nf_redirect info; rd_modifier r) /\
  pc_forks c' = match nf_redirect info with Some r => rd_forks r | None => false end.

Lemma range_between_app (before word : text) : range_between (utf16_length before) (utf16_length (before ++ word)) = Some (mkRange (utf16_length before) (utf16_length (before ++ word))).
Proof using. unfold range_between. rewrite utf16_length_app. pose proof (utf16_length_nonneg word). destruct (Z.leb_spec (utf16_length before) (utf16_length before + utf16_length word)); [done|lia]. Qed.

Lemma parse_node_ok id n r c before after :
  dispatcher_node d id = Some n -> nf_data (cn_info n) <> Root -> reader_at r before after ->
  exists res, parse_node parse_argument d id r c = Some res /\
    match res with
    | Err _ => True
    | Ok (r', c') => exists word rest, after = word ++ rest /\ reader_at r' (before ++ word) rest /\ (forall l, nf_data (cn_info n) = Literal l -> word = l) /\
        node_added c c' id (cn_info n) (mkRange (utf16_length before) (utf16_length (before ++ word)))
    end.
Proof using lawful.
  intros Hn Hroot Hr. unfold parse_node. rewrite (lookup_node _ _ Hn). cbn [mbind option_bind]. assert (forall r0 b0 a0, reader_at r0 b0 a0 -> rc_utf16 (sr_cursor r0) = utf16_length b0) as Hcur.
  { intros r0 b0 a0 (_ & _ & ->). done. }
  rewrite (Hcur _ _ _ Hr). destruct (nf_data (cn_info n)) as [|l|name a] eqn:Ed; [done| |].
  - destruct (try_read_literal_at r before after l Hr) as (b & r' & -> & H). cbn [mbind option_bind]. destruct b; cbn [negb]; [|by eexists].
    destruct (H eq_refl) as (rest & -> & Hr'). rewrite (Hcur _ _ _ Hr'), range_between_app. cbn [mbind option_bind]. eexists. split; [done|]. exists l, rest.
    split; [done|]. split; [done|]. split; [by intros l' [= ->]|]. done.
  - destruct (parser_reads a r (pc_source c) before after Hr) as (v & r' & word & rest & -> & -> & Hr' & _). cbn [mbind option_bind]. destruct v as [v|e]; [|by eexists].
    rewrite (Hcur _ _ _ Hr'), range_between_app. cbn [mbind option_bind]. eexists. split; [done|]. exists word, rest. by split.
Qed.

Lemma separator_missing_at r before after : reader_at r before after -> exists b, separator_missing r = Some b /\ (b = false -> after = [] \/ head after = Some SPACE).
Proof using.
  intros Hr. unfold separator_missing. rewrite (can_read_at _ _ _ Hr). case_bool_decide as E; cbn [negb]; [exists false; by auto|]. rewrite (peek_at _ _ _ Hr). cbn [mbind option_bind].
  eexists. split; [done|]. intros H. right. apply negb_false_iff in H. by apply bool_decide_eq_true in H.
Qed.

(** The context after a node was read and found to end at a separator. *)
Lemma open_step c c' start last next parent id n before word rest :
  open_at c start last next -> dispatcher_node d last = Some parent -> id ∈ cn_children parent -> dispatcher_node d id = Some n ->
  requirement_allows predicate (nf_requirement (cn_info n)) source = true -> next = utf16_length before -> input = before ++ word ++ rest -> rest = [] \/ head rest = Some SPACE ->
  (forall l, nf_data (cn_info n) = Literal l -> word = l) -> node_added c c' id (cn_info n) (mkRange (utf16_length before) (utf16_length (before ++ word))) ->
  open_at (set_executor c' (allowed_executor predicate (cn_info n) (pc_source c'))) start id (utf16_length (before ++ word) + 1).
Proof using.
  intros (Hs & Hp & Hg & Hch & Hle & Hrg & Hlt) Hl Hin Hn Hal -> Hi Hsep Hlit (G1 & G2 & G3 & G4 & G5 & G6 & G7). assert (utf16_length before <= utf16_length (before ++ word)) as Hw.
  { rewrite utf16_length_app. pose proof (utf16_length_nonneg word). lia. }
  unfold open_at. cbn [set_executor pc_source pc_root pc_nodes pc_child pc_range]. rewrite G1, G2, G3, G4. split; [done|]. split; [|split; [|split; [done|split; [lia|split]]]].
  - apply (token_path_snoc _ _ _ _ _ _ _ _ (utf16_length before) parent id n (mkRange (utf16_length before) (utf16_length (before ++ word))) Hp Hl Hin Hn Hal); [|done].
    exists before, word, rest. done.
  - right. exists n. cbn [set_executor pc_executor pc_modifier pc_forks]. rewrite Hs. done.
  - rewrite G5, Hrg. unfold range_encompassing. cbn [sg_start sg_end]. rewrite (decide_False (P := _ ++ _ = [])) by (by destruct (pc_nodes c)).
    destruct (decide (pc_nodes c = [])) as [E|E]; [f_equal; repeat case_match; lia|]. specialize (Hlt E). f_equal; repeat case_match; lia.
  - intros _. lia.
Qed.

Lemma open_leaf c start last next stop : open_at c start last next -> stop = next \/ (pc_nodes c <> [] /\ stop + 1 = next) -> parsed_ok predicate d input source c start stop.
Proof using. intros (Hs & Hp & Hg & Hch & Hle & Hrg & Hlt) Hstop. by eapply context_leaf. Qed.

Lemma open_child c start last next n r child stop :
  open_at c start last next -> pc_nodes c <> [] -> dispatcher_node d last = Some n -> nf_redirect (cn_info n) = Some r -> rd_target r = TargetNode (pc_root child) ->
  parsed_ok predicate d input source child next stop -> parsed_ok predicate d input source (set_child c child) start stop.
Proof using.
  intros (Hs & Hp & Hg & Hch & Hle & Hrg & Hlt) Hne Hn Hr Ht Hc. rewrite decide_False in Hrg by done. by eapply context_redirect.
Qed.

(** What the recursive calls of one level are known to do. *)
Definition recursion_ok (fuel : nat) (parse_nodes : NodeId -> StringReader -> Ctx -> option (ParseResults F S V)) : Prop :=
  forall parent r before after c start, reading_at r before after -> (length after < fuel)%nat -> open_at c start parent (utf16_length before) ->
  exists p, parse_nodes parent r c = Some p /\ parse_sound p start /\ pc_root (ps_context p) = pc_root c.

Lemma node_redirect_ok id n : dispatcher_node d id = Some n ->
  exists t, node_redirect (cn_info n) = Some t /\ match t with None => nf_redirect (cn_info n) = None | Some target => exists r, nf_redirect (cn_info n) = Some r /\ rd_target r = TargetNode target end.
Proof using safe.
  intros Hn. unfold node_redirect. destruct (nf_redirect (cn_info n)) as [r|] eqn:Er; [|by eexists]. destruct (safe_redirects _ _ _ Hn Er) as (t & Et & _). rewrite Et. eexists. split; [done|]. by exists r.
Qed.

Lemma parse_children_ok fuel parse_nodes parent r0 before after c0 start children errors potentials :
  recursion_ok fuel parse_nodes -> reading_at r0 before after -> (length after <= fuel)%nat -> open_at c0 start parent (utf16_length before) ->
  (forall id, id ∈ children -> exists n, dispatcher_node d parent = Some n /\ id ∈ cn_children n) ->
  Forall (fun p => parse_sound p start /\ pc_root (ps_context p) = pc_root c0) potentials ->
  exists outcome, parse_children predicate parse_argument d parse_nodes r0 c0 children errors potentials = Some outcome /\
    match outcome with
    | inl p => parse_sound p start /\ pc_root (ps_context p) = pc_root c0
    | inr (_, potentials) => Forall (fun p => parse_sound p start /\ pc_root (ps_context p) = pc_root c0) potentials
    end.
Proof using safe lawful.
  intros Hrec [Hr0 Hi0] Hlen Hopen Hch. revert errors potentials. induction children as [|id children IH]; intros errors potentials Hpot; cbn [parse_children]; [by eexists|].
  specialize (IH ltac:(intros x Hx; apply Hch; by right)). destruct (Hch id) as (parent_n & Hparent & Hin); [by left|].
  destruct (safe_children _ _ _ Hparent Hin) as (n & Hn & Hroot). rewrite (lookup_node _ _ Hn). cbn [mbind option_bind]. pose proof Hopen as (Hs & _). rewrite Hs.
  destruct (requirement_allows predicate (nf_requirement (cn_info n)) source) eqn:Hal; cbn [negb]; [|by apply IH].
  destruct (parse_node_ok id n r0 c0 before after Hn Hroot Hr0) as (res & -> & Hres). cbn [mbind option_bind]. destruct res as [[r c]|e]; [|by apply IH].
  destruct Hres as (word & rest & -> & Hr & Hlit & Hadd). destruct (separator_missing_at _ _ _ Hr) as (b & -> & Hsep). cbn [mbind option_bind]. destruct b; [by apply IH|].
  specialize (Hsep eq_refl). pose proof (open_step c0 c start parent _ parent_n id n before word rest Hopen Hparent Hin Hn Hal eq_refl (eq_sym Hi0) Hsep Hlit Hadd) as Hopen'.
  pose proof Hadd as (_ & Hrt & _ & Hnodes & _). set (c' := set_executor c _) in *. assert (pc_nodes c' <> []) as Hne by (cbn; rewrite Hnodes; by destruct (pc_nodes c0)).
  assert (pc_root c' = pc_root c0) as Hrt' by exact Hrt. destruct (node_redirect_ok id n Hn) as (t & -> & Ht). cbn [mbind option_bind]. rewrite (can_read_length_at _ _ _ Hr).
  destruct (Z.leb_spec (match t with Some _ => 1 | None => 2 end) (utf16_length rest)) as [Hle|Hle].
  - destruct Hsep as [->|Hsep]; [destruct t; cbn in Hle; lia|]. destruct rest as [|x rest]; [done|]. injection Hsep as ->.
    destruct (skip_at _ _ _ Hr SPACE rest eq_refl) as (r' & -> & Hr' & _). cbn [mbind option_bind].
    assert (utf16_length ((before ++ word) ++ [SPACE]) = utf16_length (before ++ word) + 1) as Hpos by (by rewrite (utf16_length_app _ [SPACE])).
    assert (reading_at r' ((before ++ word) ++ [SPACE]) rest) as Hat by (split; [done|]; by rewrite <- Hi0, <- !app_assoc).
    assert (length rest < fuel)%nat as Hfuel by (rewrite length_app in Hlen; simpl in Hlen; lia).
    destruct t as [target|].
    + destruct Ht as (rd & Hrd & Htarget). assert (rc_utf16 (sr_cursor r') = utf16_length ((before ++ word) ++ [SPACE])) as -> by (by destruct Hr' as (_ & _ & ->)).
      assert (pc_source c' = source) as -> by (by destruct Hopen' as (? & _)).
      destruct (Hrec target r' _ rest _ _ Hat Hfuel (open_new target _)) as (p & -> & (b' & a' & Hread & Hctx) & Hproot). cbn [mbind option_bind]. eexists. split; [done|].
      cbn [ps_context]. split; [|done]. exists b', a'. split; [done|]. cbn [ps_context]. eapply (open_child c' _ id _ n rd); [exact Hopen'|done|done|done|by rewrite Hproot|]. by rewrite <- Hpos.
    + rewrite <- Hpos in Hopen'. destruct (Hrec id r' _ rest c' start Hat Hfuel Hopen') as (p & -> & Hp & Hproot). cbn [mbind option_bind]. apply IH. apply Forall_app_2; [done|].
      constructor; [|constructor]. split; [done|congruence].
  - apply IH. apply Forall_app_2; [done|]. constructor; [|constructor]. split; [|done]. exists (before ++ word), rest. split; [split; [done|]; by rewrite <- app_assoc|].
    cbn [ps_context]. eapply open_leaf; [exact Hopen'|]. by right.
Qed.

Lemma best_parse_in (best : ParseResults F S V) potentials : best_parse best potentials ∈ best :: potentials.
Proof using.
  unfold best_parse. revert best. induction potentials as [|p potentials IH]; intros best; [by left|]. cbn [foldl]. destruct (is_better_parse p best).
  - right. apply IH.
  - specialize (IH best). apply elem_of_cons in IH as [->|H]; [by left|]. right. by right.
Qed.

Lemma parse_nodes_ok fuel : recursion_ok fuel (parse_nodes predicate parse_argument d fuel).
Proof using safe lawful.
  induction fuel as [|fuel IH]; intros parent r before after c start Hr Hlen Hopen; [lia|]. cbn [parse_nodes].
  destruct (relevant_nodes_ok parent r before after (proj1 Hr)) as (ids & -> & Hids). cbn [mbind option_bind].
  destruct (parse_children_ok fuel _ parent r before after c start ids [] [] IH Hr ltac:(lia) Hopen Hids (Forall_nil_2 _)) as (outcome & -> & H). cbn [mbind option_bind].
  destruct outcome as [p|[errors [|best potentials]]].
  - by exists p.
  - eexists. split; [done|]. split; [|done]. exists before, after. split; [done|]. eapply open_leaf; [exact Hopen|by left].
  - eexists. split; [done|]. rewrite Forall_forall in H. apply H. apply best_parse_in.
Qed.
End Parser.

(** Parsing the commands of a dispatcher that was built by registration. *)
Lemma parse_returns {F S A V} argument_eqb (predicate : Z -> S -> bool) (parse_argument : A -> StringReader -> S -> reading F V) d input source :
  registered argument_eqb d -> ArgumentParser parse_argument ->
  exists p, parse predicate parse_argument d input source = Some p /\ parse_sound predicate d input source p 0.
Proof.
  intros Hd Hp. pose proof (registered_safe argument_eqb d Hd) as Hsafe.
  destruct (parse_nodes_ok predicate parse_argument d input source (skip_fuel (reader_new input)) (dispatcher_root d) (reader_new input) [] input
    (context_new source (dispatcher_root d) 0) 0) as (p & E & Hs & _); [done|unfold skip_fuel; simpl; lia|apply open_new|]. by exists p.
Qed.

(** ** An example *)

Definition argument_type_eqb (a b : ArgumentType unit) : bool :=
  match a, b with
  | ArgBool, ArgBool => true
  | ArgInteger x y, ArgInteger x' y' | ArgLong x y, ArgLong x' y' => (x =? x') && (y =? y')
  | ArgFloat _ _, ArgFloat _ _ | ArgDouble _ _, ArgDouble _ _ => true
  | ArgString Word, ArgString Word | ArgString QuotablePhrase, ArgString QuotablePhrase | ArgString GreedyPhrase, ArgString GreedyPhrase => true
  | _, _ => false
  end.
Definition no_floats : FloatText unit := mkFloatText unit (fun _ => None) (fun _ => None) (fun _ _ => false).

(** [say <n>], for sources of level 2. *)
Definition example_builder : UnregisteredCommandNode (ArgumentType unit) :=
  mkUnregistered (mkInfo (Literal (lit "say")) None (mkRequirement (Some 2) (Some Authorization)) allow_all None)
    [mkUnregistered (mkInfo (Argument (lit "n") (ArgInteger 0 100)) (Some 9) allow_all allow_all None) []].
Definition example_dispatcher : CommandDispatcher (ArgumentType unit) :=
  match register argument_type_eqb (dispatcher_new 1) example_builder with Some (d, _) => d | None => dispatcher_new 1 end.

Lemma example_registered : registered argument_type_eqb example_dispatcher.
Proof.
  apply (registered_register _ (dispatcher_new 1) example_builder _ (Ok (mkNodeId 1 1))); [apply registered_new| |reflexivity]. unfold builder_ok. cbn [tree_all example_builder].
  repeat split; discriminate.
Qed.

(** C17. For a dispatcher built by registering commands, an argument parser that returns and
    never moves back, and any input: parsing returns without a panic; the reader stops at a
    character boundary of the input; and the contexts are paths of tokens, from the root or
    the target of the redirect before, along children that the source may use, literals word
    for word, up to where the reader stopped. *)
Theorem command_parse_sound {F S A V} argument_eqb (predicate : Z -> S -> bool) (parse_argument : A -> StringReader -> S -> reading F V) d input source :
  registered argument_eqb d -> ArgumentParser parse_argument ->
  exists p, parse predicate parse_argument d input source = Some p /\ parse_sound predicate d input source p 0.
Proof. apply parse_returns. Qed.

Lemma command_parse_sound_witness :
  exists p, parse (fun p level => p <=? level) (fun a r (_ : Z) => parse_value no_floats a r) example_dispatcher (lit "say 12") 4 = Some p /\
    parsed_ok (fun p level => p <=? level) example_dispatcher (lit "say 12") 4 (ps_context p) 0 6.
Proof.
  destruct (command_parse_sound argument_type_eqb (fun p level => p <=? level) (fun a r (_ : Z) => parse_value no_floats a r) example_dispatcher (lit "say 12") 4
    example_registered (builtin_arguments no_floats)) as (p & E & before & after & [Hr Hi] & Hc). exists p. split; [exact E|].
  assert (match parse (fun p level => p <=? level) (fun a r (_ : Z) => parse_value no_floats a r) example_dispatcher (lit "say 12") 4 with
          | Some p => rc_utf16 (sr_cursor (ps_reader p)) | None => 0 end = 6) as Ho by (vm_compute; reflexivity). rewrite E in Ho. destruct Hr as (_ & _ & Hcur). rewrite Hcur in Ho.
  cbn [rc_utf16] in Ho. by rewrite Ho in Hc.
Defined.
