(* ===== verification/CommandChain.v ===== *)
(** * Running commands

    Models [steel-core/src/command/brigadier/context_chain.rs], [CommandContext] of
    [context.rs] and [context_chain] of [dispatcher.rs]: the contexts of a parse become stages,
    of which all but the last modify the sources and the last executes the command.  What
    executors, modifiers and the consumer do to the world is a parameter, run in the order of
    the calls; [None] is a panic. *)

From Stdlib Require Import String.
From S2P Require Import Prelude Texts CommandReader CommandTree CommandRegistration CommandArena CommandDispatch CommandParse CommandParsing.

#[local] Open Scope list_scope.
#[local] Open Scope steel_scope.

(** ** Contexts of commands *)

#[warnings="-register-all"]
Inductive CommandContext (S V : Type) := mkCommandContext {
  cc_source : S;
  cc_input : text;
  cc_root : NodeId;
  cc_arguments : list (text * ParsedArgument V);
  cc_executor : option Z;
  cc_nodes : list ParsedCommandNode;
  cc_range : StringRange;
  cc_child : option (CommandContext S V);
  cc_modifier : option Z;
  cc_forks : bool;
}.
Arguments mkCommandContext {S V}. Arguments cc_source {S V}. Arguments cc_input {S V}. Arguments cc_root {S V}. Arguments cc_arguments {S V}. Arguments cc_executor {S V}.
Arguments cc_nodes {S V}. Arguments cc_range {S V}. Arguments cc_child {S V}. Arguments cc_modifier {S V}. Arguments cc_forks {S V}.

Record ContextChain (S V : Type) := mkChain { ch_contexts : list (CommandContext S V); ch_position : nat }.
Arguments mkChain {S V}. Arguments ch_contexts {S V}. Arguments ch_position {S V}.

Inductive ContextChainStage := StageModify | StageExecute.
#[global] Instance ContextChainStage_eq_dec : EqDecision ContextChainStage.
Proof. solve_decision. Defined.

Section Chains.
  Context {S V : Type}.

Fixpoint build_context (c : ParsedCommandContext S V) (input : text) : CommandContext S V :=
  match c with
  | mkContext source root arguments executor nodes range child modifier forks =>
      mkCommandContext source input root arguments executor nodes range (match child with Some child => Some (build_context child input) | None => None end) modifier forks
  end.

Definition copy_for (c : CommandContext S V) (source : S) : CommandContext S V :=
  mkCommandContext source (cc_input c) (cc_root c) (cc_arguments c) (cc_executor c) (cc_nodes c) (cc_range c) (cc_child c) (cc_modifier c) (cc_forks c).

(** The loop of [try_flatten]. *)
Fixpoint flatten (c : CommandContext S V) : list (CommandContext S V) :=
  c :: match c with
       | mkCommandContext _ _ _ _ _ _ _ (Some child) _ _ => flatten child
       | _ => []
       end.
Definition try_flatten (root : CommandContext S V) : option (ContextChain S V) :=
  let contexts := flatten root in
  match last contexts with
  | Some context => match cc_executor context with Some _ => Some (mkChain contexts 0) | None => None end
  | None => None
  end.

Definition chain_stage (chain : ContextChain S V) : ContextChainStage :=
  if decide (ch_position chain + 1 = length (ch_contexts chain))%nat then StageExecute else StageModify.
Definition top_context (chain : ContextChain S V) : option (CommandContext S V) := ch_contexts chain !! ch_position chain.
Definition next_stage (chain : ContextChain S V) : option (ContextChain S V) :=
  let position := (ch_position chain + 1)%nat in
  if decide (position < length (ch_contexts chain))%nat then Some (mkChain (ch_contexts chain) position) else None.
End Chains.

Definition context_chain {F S A V} (d : CommandDispatcher A) (p : ParseResults F S V) : result (ContextChain S V) (CommandSyntaxError F) :=
  let context := ps_context p in
  let reader := ps_reader p in
  if can_read reader then
    match ps_errors p with
    | [error] => Err (er_error error)
    | _ => Err (reader_error reader (if range_is_empty (pc_range context) then UnknownCommand else UnknownArgument))
    end
  else if decide (ni_dispatcher (pc_root context) = cd_id d) then
    match try_flatten (build_context context (sr_input reader)) with Some chain => Ok chain | None => Err (reader_error reader UnknownCommand) end
  else Err (reader_error reader UnknownCommand).

(** ** Execution *)

Section Execution.
  Context {S V E W : Type}.
  Abbreviation Cmd := (CommandContext S V).
  Context (modify : Z -> Cmd -> W -> result (list S) E * W) (execute : Z -> Cmd -> W -> result Z E * W) (consumer : Cmd -> bool -> Z -> W -> W).

Definition run_modifier (chain : ContextChain S V) (source : S) (forked : bool) (w : W) : option (result (list S) E * W) :=
  template ← top_context chain;
  match cc_modifier template with
  | None => Some (Ok [source], w)
  | Some modifier =>
      let context := copy_for template source in
      match modify modifier context w with
      | (Ok sources, w) => Some (Ok sources, w)
      | (Err error, w) => Some (if forked then Ok [] else Err error, consumer context false 0 w)
      end
  end.

Definition run_executable (chain : ContextChain S V) (source : S) (forked : bool) (w : W) : option (result Z E * W) :=
  template ← top_context chain;
  let context := copy_for template source in
  executor ← cc_executor context;
  Some (match execute executor context w with
        | (Ok value, w) => (Ok (if forked then 1 else value), consumer context true value w)
        | (Err error, w) => (if forked then Ok 0 else Err error, consumer context false 0 w)
        end).

(** The inner loop over the sources. *)
Fixpoint modify_sources (chain : ContextChain S V) (forked : bool) (sources next_sources : list S) (w : W) : option (result (list S) E * W) :=
  match sources with
  | [] => Some (Ok next_sources, w)
  | source :: sources =>
      '(r, w) ← run_modifier chain source forked w;
      match r with Err e => Some (Err e, w) | Ok more => modify_sources chain forked sources (next_sources ++ more) w end
  end.

(** The last loop. *)
Fixpoint execute_sources (chain : ContextChain S V) (forked : bool) (sources : list S) (total : Z) (w : W) : option (result Z E * W) :=
  match sources with
  | [] => Some (Ok total, w)
  | source :: sources =>
      '(r, w) ← run_executable chain source forked w;
      match r with Err e => Some (Err e, w) | Ok n => execute_sources chain forked sources (wraps 32 (total + n)) w end
  end.

(** [while stage.stage() == Modify]; the stages bound its turns. *)
Fixpoint execute_loop (fuel : nat) (stage : ContextChain S V) (forked : bool) (sources : list S) (w : W) : option (result Z E * W) :=
  match fuel with
  | O => None
  | Datatypes.S fuel =>
      if decide (chain_stage stage = StageModify) then
        context ← top_context stage;
        let forked := forked || cc_forks context in
        '(r, w) ← modify_sources stage forked sources [] w;
        match r with
        | Err e => Some (Err e, w)
        | Ok [] => Some (Ok 0, w)
        | Ok next_sources => stage ← next_stage stage; execute_loop fuel stage forked next_sources w
        end
      else execute_sources stage forked sources 0 w
  end.
Definition execute_all (chain : ContextChain S V) (source : S) (w : W) : option (result Z E * W) :=
  execute_loop (length (ch_contexts chain)) chain false [source] w.

(** ** The stages, one after the other *)

(** Runs [f] on each source in order, up to the first error. *)
Fixpoint each {B} (f : S -> W -> result B E * W) (sources : list S) (w : W) : result (list B) E * W :=
  match sources with
  | [] => (Ok [], w)
  | source :: sources =>
      match f source w with
      | (Err e, w) => (Err e, w)
      | (Ok b, w) => match each f sources w with (Err e, w) => (Err e, w) | (Ok bs, w) => (Ok (b :: bs), w) end
      end
  end.

(** The sources that one source becomes; an error drops the source once the command forked. *)
Definition modified (c : Cmd) (forked : bool) (source : S) (w : W) : result (list S) E * W :=
  match cc_modifier c with
  | None => (Ok [source], w)
  | Some m =>
      match modify m (copy_for c source) w with
      | (Ok sources, w) => (Ok sources, w)
      | (Err e, w) => (if forked then Ok [] else Err e, consumer (copy_for c source) false 0 w)
      end
  end.
(** The result of one source; once the command forked, 1 for a success and 0 for an error. *)
Definition executed (c : Cmd) (executor : Z) (forked : bool) (source : S) (w : W) : result Z E * W :=
  match execute executor (copy_for c source) w with
  | (Ok value, w) => (Ok (if forked then 1 else value), consumer (copy_for c source) true value w)
  | (Err e, w) => (if forked then Ok 0 else Err e, consumer (copy_for c source) false 0 w)
  end.

(** All stages but the last replace the sources, the last one adds up its results. *)
Fixpoint run_stages (contexts : list Cmd) (forked : bool) (sources : list S) (w : W) : result Z E * W :=
  match contexts with
  | [] => (Ok 0, w)
  | c :: rest =>
      match rest, cc_executor c with
      | [], Some executor => let '(r, w) := each (executed c executor forked) sources w in (let? results := r in Ok (wraps 32 (foldr Z.add 0 results)), w)
      | [], None => (Ok 0, w)
      | _ :: _, _ =>
          match each (modified c (forked || cc_forks c)) sources w with
          | (Err e, w) => (Err e, w)
          | (Ok lists, w) => if decide (concat lists = []) then (Ok 0, w) else run_stages rest (forked || cc_forks c) (concat lists) w
          end
      end
  end.

Lemma modify_sources_each chain c forked sources acc w : top_context chain = Some c ->
  modify_sources chain forked sources acc w =
    Some (match each (modified c forked) sources w with (Err e, w) => (Err e, w) | (Ok lists, w) => (Ok (acc ++ concat lists), w) end).
Proof using.
  intros Hc. revert acc w. induction sources as [|s sources IH]; intros acc w; cbn [modify_sources each concat]; [by rewrite app_nil_r|].
  assert (run_modifier chain s forked w = Some (modified c forked s w)) as ->.
  { unfold run_modifier, modified. rewrite Hc. cbn [mbind option_bind]. by repeat case_match. }
  cbn [mbind option_bind]. destruct (modified c forked s w) as [[more|e] w1]; [|done]. rewrite IH. destruct (each (modified c forked) sources w1) as [[lists|e] w2]; [|done].
  cbn [concat]. by rewrite app_assoc.
Qed.

Lemma wraps_add a b : wraps 32 (wraps 32 a + b) = wraps 32 (a + b).
Proof using. unfold wraps. f_equal. replace ((a + 2 ^ (32 - 1)) mod 2 ^ 32 - 2 ^ (32 - 1) + b + 2 ^ (32 - 1)) with ((a + 2 ^ (32 - 1)) mod 2 ^ 32 + b) by lia. rewrite Z.add_mod_idemp_l by lia. f_equal. lia. Qed.

Lemma execute_sources_each chain c executor forked sources total w : top_context chain = Some c -> cc_executor c = Some executor -> wraps 32 total = total ->
  execute_sources chain forked sources total w =
    Some (let '(r, w) := each (executed c executor forked) sources w in (let? results := r in Ok (wraps 32 (total + foldr Z.add 0 results)), w)).
Proof using.
  intros Hc He. revert total w. induction sources as [|s sources IH]; intros total w Ht; cbn [execute_sources each foldr result_bind]; [by rewrite Z.add_0_r, Ht|].
  assert (run_executable chain s forked w = Some (executed c executor forked s w)) as ->.
  { unfold run_executable, executed. rewrite Hc. cbn [mbind option_bind copy_for cc_executor]. rewrite He. cbn [mbind option_bind]. by repeat case_match. }
  cbn [mbind option_bind]. destruct (executed c executor forked s w) as [[n|e] w1]; [|done]. rewrite IH by (apply wraps_small; [lia|by apply wraps_range]).
  destruct (each (executed c executor forked) sources w1) as [[results|e] w2]; [|done]. cbn [result_bind foldr]. by rewrite wraps_add, Z.add_assoc.
Qed.

Lemma execute_loop_run rest fuel pre c forked sources w e :
  (length rest < fuel)%nat -> last (c :: rest) = Some e -> is_Some (cc_executor e) ->
  execute_loop fuel (mkChain (pre ++ c :: rest) (length pre)) forked sources w = Some (run_stages (c :: rest) forked sources w).
Proof using.
  revert fuel pre c forked sources w. induction rest as [|c' rest IH]; intros fuel pre c forked sources w Hfuel Hlast He; (destruct fuel as [|fuel]; [lia|]); cbn [execute_loop].
  - injection Hlast as ->. destruct He as [x Hx]. assert (top_context (mkChain (pre ++ [e]) (length pre)) = Some e) as Htop by (by apply list_lookup_middle).
    rewrite decide_False; [|unfold chain_stage; cbn [ch_position ch_contexts]; rewrite decide_True by (rewrite length_app; simpl; lia); done].
    rewrite (execute_sources_each _ e x) by done. cbn [run_stages]. by rewrite Hx.
  - assert (top_context (mkChain (pre ++ c :: c' :: rest) (length pre)) = Some c) as Htop by (by apply list_lookup_middle).
    rewrite decide_True; [|unfold chain_stage; cbn [ch_position ch_contexts]; rewrite decide_False by (rewrite length_app; simpl; lia); done].
    rewrite Htop. cbn [mbind option_bind]. rewrite (modify_sources_each _ c) by done. cbn [mbind option_bind]. cbn [run_stages].
    destruct (each (modified c (forked || cc_forks c)) sources w) as [[lists|x] w1]; [|done]. cbn [app]. destruct (concat lists) as [|s l] eqn:El; [by rewrite decide_True|].
    rewrite decide_False by done. unfold next_stage. cbn [ch_position ch_contexts]. rewrite decide_True by (rewrite length_app; simpl; lia). cbn [mbind option_bind].
    replace (pre ++ c :: c' :: rest) with ((pre ++ [c]) ++ c' :: rest) by (by rewrite <- app_assoc). replace (length pre + 1)%nat with (length (pre ++ [c])) by (rewrite length_app; simpl; lia).
    apply IH; [simpl in Hfuel; lia|done|done].
Qed.

Lemma each_ok {B} (f : S -> W -> result B E * W) : (forall s w, exists b w', f s w = (Ok b, w')) -> forall sources w, exists bs w', each f sources w = (Ok bs, w').
Proof using.
  intros H. induction sources as [|s sources IH]; intros w; cbn [each]; [by eexists _, _|]. destruct (H s w) as (b & w1 & ->). destruct (IH w1) as (bs & w2 & ->). by eexists _, _.
Qed.

(** Once the command forked no error is left. *)
Lemma run_stages_forked contexts sources w : exists n w', run_stages contexts true sources w = (Ok n, w').
Proof using.
  revert sources w. induction contexts as [|c rest IH]; intros sources w; cbn [run_stages]; [by eexists _, _|]. destruct rest as [|c' rest].
  - destruct (cc_executor c) as [x|]; [|by eexists _, _]. destruct (each_ok (executed c x true)) with sources w as (bs & w' & ->); [|by eexists _, _].
    intros s w0. unfold executed. destruct (execute x (copy_for c s) w0) as [[v|e] w1]; by eexists _, _.
  - destruct (each_ok (modified c (true || cc_forks c))) with sources w as (bs & w' & ->).
    + intros s w0. unfold modified. destruct (cc_modifier c); [|by eexists _, _]. destruct (modify _ _ w0) as [[v|e] w1]; by eexists _, _.
    + case_decide; [by eexists _, _|]. apply IH.
Qed.

Lemma flatten_unfold (c : Cmd) : flatten c = c :: match cc_child c with Some child => flatten child | None => [] end.
Proof using. by destruct c as [? ? ? ? ? ? ? [child|] ? ?]. Qed.
End Execution.

Section Claims.
  Context {S V E W : Type}.
  Abbreviation Cmd := (CommandContext S V).

(** C18. A chain that was made from a context runs to its end without a panic and does what
    its stages do one after the other: each stage but the last replaces every source by
    those its modifier gives, in order; the last executes for every source and adds up the
    results as 32-bit numbers; the first error stops it, unless a stage forks.  A chain whose
    first stage forks never fails. *)
Theorem command_execution_semantics (modify : Z -> Cmd -> W -> result (list S) E * W) execute consumer (root : Cmd) chain source w :
  try_flatten root = Some chain ->
  execute_all modify execute consumer chain source w = Some (run_stages modify execute consumer (flatten root) false [source] w) /\
  (cc_forks root = true -> is_Some (cc_child root) -> exists n w', execute_all modify execute consumer chain source w = Some (Ok n, w')).
Proof.
  intros H. unfold try_flatten in H. destruct (last (flatten root)) as [e|] eqn:El; [|done]. destruct (cc_executor e) as [x|] eqn:Ee; [|done]. injection H as <-.
  assert (execute_all modify execute consumer (mkChain (flatten root) 0) source w = Some (run_stages modify execute consumer (flatten root) false [source] w)) as Heq.
  { unfold execute_all. cbn [ch_contexts]. rewrite flatten_unfold in El |- *. apply (execute_loop_run modify execute consumer _ _ [] root false [source] w e); [simpl; lia|done|by eexists]. }
  split; [exact Heq|]. rewrite Heq. intros Hf [child Hc]. rewrite flatten_unfold, Hc. rewrite (flatten_unfold child). cbn [run_stages]. rewrite Hf. cbn [orb each].
  destruct (modified modify consumer root true source w) as [[lists|x'] w1] eqn:Em.
  - case_decide; [by eexists _, _|]. destruct (run_stages_forked modify execute consumer (child :: match cc_child child with Some child => flatten child | None => [] end) (concat [lists]) w1)
      as (n & w' & Hr). exists n, w'. by f_equal.
  - exfalso. unfold modified in Em. destruct (cc_modifier root); [|done]. by destruct (modify _ _ w) as [[]].
Qed.
End Claims.

(** A command that forks to two sources, of which one fails to execute. *)
Definition example_context (child : option (CommandContext Z unit)) (executor modifier : option Z) (forks : bool) : CommandContext Z unit :=
  mkCommandContext 0 (lit "as run") (mkNodeId 1 0) [] executor [] (range_at 0) child modifier forks.

Lemma command_execution_semantics_witness :
  let root := example_context (Some (example_context None (Some 7) None false)) None (Some 3) true in
  let execute := fun (executor : Z) (c : CommandContext Z unit) (log : list Z) => (if cc_source c =? 5 then Err tt else Ok 40, log ++ [cc_source c]) in
  let consumer := fun (_ : CommandContext Z unit) (success : bool) value log => log ++ [if success then value else -1] in
  execute_all (fun _ _ log => (Ok [4; 5], log)) execute consumer (mkChain (flatten root) 0) 0 [] = Some (Ok 1, [4; 40; 5; -1]).
Proof.
  intros root execute consumer. destruct (command_execution_semantics (fun (_ : Z) (_ : CommandContext Z unit) (log : list Z) => (Ok [4; 5], log)) execute consumer root (mkChain (flatten root) 0) 0 [] eq_refl)
    as [H _]. rewrite H. reflexivity.
Defined.

(** ** Only allowed commands run *)

Section Allowed.
  Context {F S A V : Type} (predicate : Z -> S -> bool) (d : CommandDispatcher A) (input : text) (source : S).
  Abbreviation Cmd := (CommandContext S V).

(** The stages read the input from [start] to its end.  Each walks down from its root along
    nodes that the source may use; a stage that modifies ends at a node that redirects to the
    root of the next stage, and the last one at a node that the source may execute. *)
Inductive stages_allowed : list Cmd -> Z -> Prop :=
| allowed_execute c start last next n executor :
    cc_source c = source -> cc_input c = input -> token_path predicate d input source (cc_root c) start (cc_nodes c) last next -> dispatcher_node d last = Some n ->
    cc_executor c = Some executor -> nf_executor (cn_info n) = Some executor -> requirement_allows predicate (nf_execution_requirement (cn_info n)) source = true ->
    utf16_length input = next \/ utf16_length input + 1 = next -> stages_allowed [c] start
| allowed_modify c c' rest start last next n r :
    cc_source c = source -> cc_input c = input -> token_path predicate d input source (cc_root c) start (cc_nodes c) last next -> dispatcher_node d last = Some n ->
    nf_redirect (cn_info n) = Some r -> rd_target r = TargetNode (cc_root c') -> cc_modifier c = rd_modifier r -> cc_forks c = rd_forks r ->
    stages_allowed (c' :: rest) next -> stages_allowed (c :: c' :: rest) start.

Lemma build_cons (c : ParsedCommandContext S V) i :
  flatten (build_context c i) = build_context c i :: match pc_child c with Some child => flatten (build_context child i) | None => [] end.
Proof. rewrite flatten_unfold. by destruct c as [? ? ? ? ? ? [child|] ? ?]. Qed.

Lemma build_parts (c : ParsedCommandContext S V) i :
  cc_source (build_context c i) = pc_source c /\ cc_input (build_context c i) = i /\ cc_root (build_context c i) = pc_root c /\ cc_executor (build_context c i) = pc_executor c /\
  cc_nodes (build_context c i) = pc_nodes c /\ cc_modifier (build_context c i) = pc_modifier c /\ cc_forks (build_context c i) = pc_forks c.
Proof. by destruct c. Qed.

Lemma context_ok_allowed c start e :
  parsed_ok predicate d input source c start (utf16_length input) -> last (flatten (build_context c input)) = Some e -> is_Some (cc_executor e) -> stages_allowed (flatten (build_context c input)) start.
Proof.
  intros H. remember (utf16_length input) as stop eqn:Estop. revert Estop. induction H as [c start stop last next Hs Hp Hg Hc Hstop Hrg|c start stop last next n child r Hs Hp Hg Hc Hn Hr Ht Hne Hrg _ IH];
    intros -> Hlast He; rewrite build_cons, Hc in Hlast |- *; destruct (build_parts c input) as (B1 & B2 & B3 & B4 & B5 & B6 & B7).
  - injection Hlast as <-. rewrite B4 in He. destruct He as [x Hx]. destruct Hg as [(_ & Hnone & _)|(n & Hn & Hexec & _)]; [by rewrite Hnone in Hx|].
    pose proof Hexec as Hal. rewrite Hx in Hal. unfold allowed_executor in Hal. destruct (nf_executor (cn_info n)) as [y|] eqn:Ey; [|done]. cbn [mbind option_bind] in Hal.
    destruct (requirement_allows _ _ source) eqn:Er; [|done]. injection Hal as ->. eapply (allowed_execute _ _ last next n y); try done; try congruence.
    destruct Hstop as [?|[_ ?]]; [by left|by right].
  - rewrite build_cons in Hlast |- *. eapply (allowed_modify _ _ _ _ last next n r); try done; try congruence.
    + destruct (build_parts child input) as (_ & _ & -> & _). done.
    + rewrite B6. destruct Hg as [(Hnil & _)|(n' & Hn' & _ & Hm & _)]; [done|]. rewrite Hn in Hn'. injection Hn' as <-. by rewrite Hm, Hr.
    + rewrite B7. destruct Hg as [(Hnil & _)|(n' & Hn' & _ & _ & Hf)]; [done|]. rewrite Hn in Hn'. injection Hn' as <-. by rewrite Hf, Hr.
    + rewrite <- build_cons. apply IH; [done| |done]. by rewrite build_cons.
Qed.

Lemma parse_sound_allowed (p : ParseResults F S V) chain :
  parse_sound predicate d input source p 0 -> context_chain d p = Ok chain -> stages_allowed (ch_contexts chain) 0 /\ ch_position chain = 0%nat.
Proof.
  intros (before & after & [Hr Hi] & Hctx) H. unfold context_chain in H. rewrite (can_read_at _ _ _ Hr) in H. case_bool_decide as E; cbn [negb] in H; [|by destruct (ps_errors p) as [|? []]].
  destruct (decide _); [|done]. subst after. rewrite app_nil_r in Hi. subst before. assert (sr_input (ps_reader p) = input) as Hin by (destruct Hr as (-> & _); by rewrite app_nil_r).
  rewrite Hin in H. unfold try_flatten in H. destruct (last (flatten (build_context (ps_context p) input))) as [c|] eqn:El; [|done]. destruct (cc_executor c) eqn:Ec; [|done]. injection H as <-.
  split; [|done]. eapply context_ok_allowed; [done|done|]. by rewrite Ec.
Qed.
End Allowed.

(** C16. For a dispatcher built by registering commands and any input, parsing returns, without
    a panic, and a chain made from its result reads the whole input; each of its stages walks
    down from its root along nodes whose requirements allow the source, a stage that modifies
    ends at a redirect to the root of the next, and the executor that runs is that of the
    last node, whose execution requirement allows the source too. *)
Theorem executed_commands_are_allowed {F S A V} argument_eqb (predicate : Z -> S -> bool) (parse_argument : A -> StringReader -> S -> reading F V) d input source :
  registered argument_eqb d -> ArgumentParser parse_argument ->
  exists p, parse predicate parse_argument d input source = Some p /\
    forall chain, context_chain d p = Ok chain -> stages_allowed predicate d input source (ch_contexts chain) 0 /\ ch_position chain = 0%nat.
Proof.
  intros Hd Hp. destruct (parse_returns argument_eqb predicate parse_argument d input source Hd Hp) as (p & E & Hs). exists p. split; [exact E|]. intros chain. by apply parse_sound_allowed.
Qed.

Lemma executed_commands_are_allowed_witness :
  exists p chain, parse (fun p level => p <=? level) (fun a r (_ : Z) => parse_value no_floats a r) example_dispatcher (lit "say 12") 4 = Some p /\ context_chain example_dispatcher p = Ok chain /\
    stages_allowed (fun p level => p <=? level) example_dispatcher (lit "say 12") 4 (ch_contexts chain) 0.
Proof.
  destruct (executed_commands_are_allowed argument_type_eqb (fun p level => p <=? level) (fun a r (_ : Z) => parse_value no_floats a r) example_dispatcher (lit "say 12") 4
    example_registered (builtin_arguments no_floats)) as (p & E & H). assert (match parse (fun p level => p <=? level) (fun a r (_ : Z) => parse_value no_floats a r) example_dispatcher (lit "say 12") 4 with
      | Some p => match context_chain example_dispatcher p with Ok _ => true | Err _ => false end | None => false end = true) as Ho by (vm_compute; reflexivity).
  rewrite E in Ho. destruct (context_chain example_dispatcher p) as [chain|] eqn:Ec; [|done]. exists p, chain. split; [exact E|]. split; [exact Ec|]. by apply H.
Defined.
