(* ===== verification/CommandSuggestions.v ===== *)
(** * Completion suggestions

    Models [steel-core/src/command/brigadier/suggestion.rs], the positions of
    [string_range.rs], [find_suggestion_context] of [context.rs] and [completion_suggestions]
    of [dispatcher.rs].  Replacement ranges count UTF-16 units and are turned into UTF-8
    positions; [None] is a panic, or a sort by a comparison that is not an order, for which
    the standard library leaves the result open and allows a panic.  Lower case and the suggestions of custom arguments are
    parameters. *)

From Stdlib Require Import String.
From S2P Require Import Prelude Texts CommandReader CommandTree CommandParse.

#[local] Open Scope list_scope.
#[local] Open Scope steel_scope.

#[global] Instance StringRange_eq_dec : EqDecision StringRange.
Proof. solve_decision. Defined.

(** ** Positions *)

Fixpoint byte_index_loop (length : Z) (s : text) (byte utf16 position : Z) : option Z :=
  match s with
  | [] => if utf16 =? position then Some length else None
  | c :: s =>
      if utf16 =? position then Some byte
      else let utf16 := utf16 + len_utf16 c in if position <? utf16 then None else byte_index_loop length s (byte + len_utf8 c) utf16 position
  end.
Definition byte_index (input : text) (position : Z) : option Z := byte_index_loop (utf8_length input) input 0 0 position.
Definition byte_range (r : StringRange) (input : text) : option (Z * Z) := s ← byte_index input (sg_start r); e ← byte_index input (sg_end r); Some (s, e).

(** ** Suggestions *)

Inductive SuggestionError := InvalidRange (range : StringRange) (input_length : Z) | NonEncompassingRange (outer inner : StringRange).

(** A number stands for a tooltip. *)
Record Suggestion := mkSuggestion { su_range : StringRange; su_text : text; su_tooltip : option Z; su_integer : option Z }.
#[global] Instance Suggestion_eq_dec : EqDecision Suggestion.
Proof. solve_decision. Defined.

Record Suggestions := mkSuggestions { ss_range : StringRange; ss_suggestions : list Suggestion }.
Definition suggestions_empty : Suggestions := mkSuggestions (range_at 0) [].

(** The decimal text of an [i32]. *)
Fixpoint print_digits (fuel : nat) (n : Z) (acc : text) : text :=
  match fuel with O => acc | S fuel => let acc := 48 + n mod 10 :: acc in if n <? 10 then acc else print_digits fuel (n / 10) acc end.
Definition print_i32 (v : Z) : text := if v <? 0 then 45 :: print_digits 10 (- v) [] else print_digits 10 v [].

Definition suggestion_new (range : StringRange) (t : text) : Suggestion := mkSuggestion range t None None.
Definition suggestion_with_tooltip (range : StringRange) (t : text) (tooltip : Z) : Suggestion := mkSuggestion range t (Some tooltip) None.
Definition suggestion_integer (range : StringRange) (v : Z) : Suggestion := mkSuggestion range (print_i32 v) None (Some v).

Definition checked_byte_range (input : text) (range : StringRange) : result (Z * Z) SuggestionError :=
  match byte_range range input with Some r => Ok r | None => Err (InvalidRange range (utf16_length input)) end.

Definition suggestion_apply (s : Suggestion) (input : text) : option (result text SuggestionError) :=
  match checked_byte_range input (su_range s) with
  | Err e => Some (Err e)
  | Ok (start, end_) => before ← take_bytes input start; after ← drop_bytes input end_; Some (Ok (before ++ su_text s ++ after))
  end.

Definition suggestion_expand (s : Suggestion) (input : text) (range : StringRange) : option (result Suggestion SuggestionError) :=
  if (sg_start (su_range s) <? sg_start range) || (sg_end range <? sg_end (su_range s)) then Some (Err (NonEncompassingRange range (su_range s)))
  else if decide (range = su_range s) then Some (Ok s)
  else
    prefix_range ← range_between (sg_start range) (sg_start (su_range s));
    match checked_byte_range input prefix_range with
    | Err e => Some (Err e)
    | Ok (prefix_start, prefix_end) =>
        suffix_range ← range_between (sg_end (su_range s)) (sg_end range);
        match checked_byte_range input suffix_range with
        | Err e => Some (Err e)
        | Ok (suffix_start, suffix_end) =>
            prefix ← slice input prefix_start prefix_end;
            suffix ← slice input suffix_start suffix_end;
            Some (Ok (mkSuggestion range (prefix ++ su_text s ++ suffix) (su_tooltip s) None))
        end
    end.

Section Lists.
  Context (to_lowercase : text -> text).

Definition compare_ignore_case (a b : Suggestion) : comparison :=
  match su_integer a, su_integer b with
  | Some x, Some y => x ?= y
  | _, _ => text_compare (to_lowercase (su_text a)) (to_lowercase (su_text b))
  end.

Definition suggestion_le (a b : Suggestion) : Prop := compare_ignore_case a b <> Gt.
#[global] Instance suggestion_le_dec a b : Decision (suggestion_le a b).
Proof. unfold suggestion_le. apply _. Defined.

(** The comparison is an order on a list.  It need not be one when an integer meets another
    text. *)
Definition comparable (l : list Suggestion) : Prop :=
  Forall (fun a => Forall (fun b => compare_ignore_case b a = CompOpp (compare_ignore_case a b) /\
    Forall (fun c => suggestion_le a b -> suggestion_le b c -> suggestion_le a c) l) l) l.
#[global] Instance comparable_dec l : Decision (comparable l).
Proof. unfold comparable. apply _. Defined.

(** [sort_by]: a stable sort, which may panic when the comparison is not an order. *)
Fixpoint insert_suggestion (s : Suggestion) (l : list Suggestion) : list Suggestion :=
  match l with [] => [s] | x :: l => match compare_ignore_case s x with Lt => s :: x :: l | _ => x :: insert_suggestion s l end end.
Definition sort_suggestions (l : list Suggestion) : option (list Suggestion) :=
  if decide (comparable l) then Some (foldl (fun sorted s => insert_suggestion s sorted) [] l) else None.

(** The loop that expands and drops repetitions. *)
Fixpoint expand_all (input : text) (range : StringRange) (suggestions expanded : list Suggestion) : option (result (list Suggestion) SuggestionError) :=
  match suggestions with
  | [] => Some (Ok expanded)
  | s :: suggestions =>
      r ← suggestion_expand s input range;
      match r with
      | Err e => Some (Err e)
      | Ok s => expand_all input range suggestions (if decide (s ∈ expanded) then expanded else expanded ++ [s])
      end
  end.

Definition USIZE_MAX : Z := 2 ^ 64 - 1.
Definition suggestions_create (input : text) (suggestions : list Suggestion) : option (result Suggestions SuggestionError) :=
  if decide (suggestions = []) then Some (Ok suggestions_empty)
  else
    let start := foldl (fun start s => Z.min start (sg_start (su_range s))) USIZE_MAX suggestions in
    let end_ := foldl (fun end_ s => Z.max end_ (sg_end (su_range s))) 0 suggestions in
    range ← range_between start end_;
    r ← expand_all input range suggestions [];
    match r with
    | Err e => Some (Err e)
    | Ok expanded => sorted ← sort_suggestions expanded; Some (Ok (mkSuggestions range sorted))
    end.

Definition suggestions_merge (input : text) (sets : list Suggestions) : option (result Suggestions SuggestionError) :=
  match sets with
  | [] => Some (Ok suggestions_empty)
  | [first] => Some (Ok first)
  | first :: second :: rest => suggestions_create input (foldl (fun merged set => merged ++ ss_suggestions set) (ss_suggestions first ++ ss_suggestions second) rest)
  end.

(** ** The builder *)

Record SuggestionsBuilder := mkBuilder { sb_input : text; sb_start : Z; sb_byte_start : Z; sb_remaining_lowercase : text; sb_suggestions : list Suggestion }.

Definition suggestions_builder_new (input : text) (start : Z) : option (result SuggestionsBuilder SuggestionError) :=
  match byte_range (range_at start) input with
  | None => Some (Err (InvalidRange (range_at start) (utf16_length input)))
  | Some (byte_start, _) => rest ← drop_bytes input byte_start; Some (Ok (mkBuilder input start byte_start (to_lowercase rest) []))
  end.
Definition builder_push (b : SuggestionsBuilder) (s : Suggestion) : SuggestionsBuilder :=
  mkBuilder (sb_input b) (sb_start b) (sb_byte_start b) (sb_remaining_lowercase b) (sb_suggestions b ++ [s]).
Definition builder_range (b : SuggestionsBuilder) : option StringRange := range_between (sb_start b) (utf16_length (sb_input b)).
Definition builder_remaining (b : SuggestionsBuilder) : option text := drop_bytes (sb_input b) (sb_byte_start b).

Definition suggest (b : SuggestionsBuilder) (t : text) : option SuggestionsBuilder :=
  rest ← builder_remaining b;
  if decide (t = rest) then Some b else range ← builder_range b; Some (builder_push b (suggestion_new range t)).
Definition suggest_with_tooltip (b : SuggestionsBuilder) (t : text) (tooltip : Z) : option SuggestionsBuilder :=
  rest ← builder_remaining b;
  if decide (t = rest) then Some b else range ← builder_range b; Some (builder_push b (suggestion_with_tooltip range t tooltip)).
Definition suggest_integer (b : SuggestionsBuilder) (v : Z) : option SuggestionsBuilder := range ← builder_range b; Some (builder_push b (suggestion_integer range v)).
Definition builder_build (b : SuggestionsBuilder) : option (result Suggestions SuggestionError) := suggestions_create (sb_input b) (sb_suggestions b).
Definition builder_restart (b : SuggestionsBuilder) : option (result SuggestionsBuilder SuggestionError) := suggestions_builder_new (sb_input b) (sb_start b).

(** [ArgumentType::suggest]. *)
Definition argument_suggest {F} (a : ArgumentType F) (b : SuggestionsBuilder) : option SuggestionsBuilder :=
  match a with
  | ArgBool =>
      let suggest_true := bool_decide (is_Some (strip_prefix (sb_remaining_lowercase b) (lit "true"))) in
      let suggest_false := bool_decide (is_Some (strip_prefix (sb_remaining_lowercase b) (lit "false"))) in
      b ← (if suggest_true then suggest b (lit "true") else Some b);
      if suggest_false then suggest b (lit "false") else Some b
  | _ => Some b
  end.
End Lists.

(** ** Completions of the dispatcher *)

Section Completions.
  Context {S V : Type}.

Record SuggestionContext := mkSuggestionContext { sc_parent : NodeId; sc_start : Z; sc_context : ParsedCommandContext S V }.

(** The first node that the cursor touches, with the node before it. *)
Fixpoint touched_node (cursor : Z) (previous : NodeId) (nodes : list ParsedCommandNode) : NodeId * option Z :=
  match nodes with
  | [] => (previous, None)
  | n :: nodes =>
      if (sg_start (pn_range n) <=? cursor) && (cursor <=? sg_end (pn_range n)) then (previous, Some (sg_start (pn_range n)))
      else touched_node cursor (pn_node n) nodes
  end.

Definition last_context (c : ParsedCommandContext S V) : SuggestionContext :=
  match last (pc_nodes c) with
  | None => mkSuggestionContext (pc_root c) (sg_start (pc_range c)) c
  | Some n => mkSuggestionContext (pn_node n) (sg_end (pn_range n) + 1) c
  end.

Fixpoint find_suggestion_context (c : ParsedCommandContext S V) (cursor : Z) : option SuggestionContext :=
  if cursor <? sg_start (pc_range c) then None
  else if sg_end (pc_range c) <? cursor then
    match c with
    | mkContext _ _ _ _ _ _ (Some child) _ _ => find_suggestion_context child cursor
    | _ => Some (last_context c)
    end
  else
    let '(parent, start) := touched_node cursor (pc_root c) (pc_nodes c) in
    Some (mkSuggestionContext parent (default (sg_start (pc_range c)) start) c).
End Completions.
Arguments SuggestionContext : clear implicits.

Section Dispatcher.
  Context {F S A V : Type} (to_lowercase : text -> text) (predicate : Z -> S -> bool).
  Context (list_suggestions : A -> S -> list (text * ParsedArgument V) -> SuggestionsBuilder -> option SuggestionsBuilder) (d : CommandDispatcher A).

(** What one child suggests. *)
Definition child_suggestions (info : NodeInfo A) (context : ParsedCommandContext S V) (b : SuggestionsBuilder) : option SuggestionsBuilder :=
  match nf_data info with
  | Root => None
  | Literal literal => if bool_decide (is_Some (strip_prefix (sb_remaining_lowercase b) (to_lowercase literal))) then suggest b literal else Some b
  | Argument _ argument_type => list_suggestions argument_type (pc_source context) (pc_arguments context) b
  end.

Fixpoint complete_children (input : text) (source : S) (start : Z) (context : ParsedCommandContext S V) (children : list NodeId) (sets : list Suggestions)
  : option (result (list Suggestions) SuggestionError) :=
  match children with
  | [] => Some (Ok sets)
  | id :: children =>
      child ← cd_nodes d !! ni_index id;
      if negb (requirement_allows predicate (nf_requirement (cn_info child)) source) then complete_children input source start context children sets
      else
        builder ← suggestions_builder_new to_lowercase input start;
        match builder with
        | Err e => Some (Err e)
        | Ok builder =>
            builder ← child_suggestions (cn_info child) context builder;
            built ← builder_build to_lowercase builder;
            match built with Err e => Some (Err e) | Ok set => complete_children input source start context children (sets ++ [set]) end
        end
  end.

Definition completion_suggestions (p : ParseResults F S V) : option (result Suggestions SuggestionError) :=
  let input := sr_input (ps_reader p) in
  let cursor := sr_total_length (ps_reader p) in
  match find_suggestion_context (ps_context p) cursor with
  | None => Some (Ok suggestions_empty)
  | Some context =>
      match dispatcher_node d (sc_parent context) with
      | None => Some (Ok suggestions_empty)
      | Some parent =>
          sets ← complete_children input (pc_source (ps_context p)) (Z.min (sc_start context) cursor) (sc_context context) (cn_children parent) [];
          match sets with Err e => Some (Err e) | Ok sets => suggestions_merge to_lowercase input sets end
      end
  end.
End Dispatcher.
