(* ===== verification/CommandCompletion.v ===== *)
(** * Suggestions keep what they replace

    Ranges at character boundaries are turned into the same places of the UTF-8 text;
    expanding suggestions to a common range does not change what accepting them gives, and
    the dispatcher completes with what allowed children suggest.  Texts among themselves and
    integers among themselves are in order, so that sorting them returns. *)

From Stdlib Require Import String.
From S2P Require Import Prelude Texts CommandReader CommandTree CommandDispatch CommandParse CommandParsing CommandSuggestions.

#[local] Open Scope list_scope.
#[local] Open Scope steel_scope.

(** ** Positions *)

Lemma byte_index_loop_at total before after byte utf16 :
  total = byte + utf8_length (before ++ after) ->
  byte_index_loop total (before ++ after) byte utf16 (utf16 + utf16_length before) = Some (byte + utf8_length before).
Proof.
  revert byte utf16. induction before as [|c before IH]; intros byte utf16 Htotal.
  - change (utf16_length []) with 0. change (utf8_length []) with 0. rewrite !Z.add_0_r. cbn [app]. destruct after; cbn [byte_index_loop]; rewrite Z.eqb_refl; [f_equal; cbn in Htotal; lia|done].
  - cbn [app byte_index_loop]. rewrite utf16_length_cons, utf8_length_cons. cbn [app] in Htotal. rewrite utf8_length_cons in Htotal. pose proof (len_utf16_pos c). pose proof (utf16_length_nonneg before).
    destruct (Z.eqb_spec utf16 (utf16 + (len_utf16 c + utf16_length before))); [lia|]. destruct (Z.ltb_spec (utf16 + (len_utf16 c + utf16_length before)) (utf16 + len_utf16 c)); [lia|].
    rewrite !Z.add_assoc. apply IH. lia.
Qed.

Lemma byte_index_at before after : byte_index (before ++ after) (utf16_length before) = Some (utf8_length before).
Proof. apply (byte_index_loop_at _ before after 0 0). done. Qed.

(** The range of [mid] between [pre] and [post]. *)
Definition range_of (pre mid : text) : StringRange := mkRange (utf16_length pre) (utf16_length (pre ++ mid)).

Lemma byte_range_of input (pre mid post : text) : input = pre ++ mid ++ post -> byte_range (range_of pre mid) input = Some (utf8_length pre, utf8_length (pre ++ mid)).
Proof. intros ->. unfold byte_range, range_of. cbn [sg_start sg_end]. rewrite byte_index_at. cbn [mbind option_bind]. by rewrite app_assoc, byte_index_at. Qed.

(** Of two prefixes of the input the shorter one, in UTF-16 units, begins the longer one. *)
Lemma prefix_of (a b c e : text) : a ++ b = c ++ e -> utf16_length a <= utf16_length c -> exists x, c = a ++ x /\ b = x ++ e.
Proof.
  intros H Hle. destruct (app_eq_inv _ _ _ _ H) as [(k & -> & ->)|(k & -> & ->)]; [|by exists k]. rewrite utf16_length_app in Hle. destruct k as [|y k].
  - exists []. by rewrite !app_nil_r.
  - rewrite utf16_length_cons in Hle. pose proof (len_utf16_pos y). pose proof (utf16_length_nonneg k). lia.
Qed.

(** ** One suggestion *)

(** The suggestion replaces a part of the input. *)
Definition suggestion_valid (input : text) (s : Suggestion) : Prop := exists pre mid post, input = pre ++ mid ++ post /\ su_range s = range_of pre mid.

Lemma apply_at input (pre mid post : text) s : input = pre ++ mid ++ post -> su_range s = range_of pre mid -> suggestion_apply s input = Some (Ok (pre ++ su_text s ++ post)).
Proof.
  intros Hi E. unfold suggestion_apply, checked_byte_range. rewrite E, (byte_range_of _ _ _ _ Hi), Hi, take_bytes_app. cbn [mbind option_bind]. by rewrite app_assoc, drop_bytes_app.
Qed.

Lemma slice_mid input (pre mid post : text) : input = pre ++ mid ++ post -> slice input (utf8_length pre) (utf8_length (pre ++ mid)) = Some mid.
Proof.
  intros ->. unfold slice. rewrite drop_bytes_app. cbn [mbind option_bind]. rewrite utf8_length_app.
  replace (utf8_length pre + utf8_length mid - utf8_length pre) with (utf8_length mid) by lia. apply take_bytes_app.
Qed.

Lemma range_between_of (pre mid : text) : range_between (utf16_length pre) (utf16_length (pre ++ mid)) = Some (range_of pre mid).
Proof. unfold range_between. rewrite utf16_length_app. pose proof (utf16_length_nonneg mid). destruct (Z.leb_spec (utf16_length pre) (utf16_length pre + utf16_length mid)); [|lia]. unfold range_of. by rewrite utf16_length_app. Qed.

Lemma expand_at input (pre mid post : text) range s :
  input = pre ++ mid ++ post -> range = range_of pre mid -> suggestion_valid input s -> sg_start range <= sg_start (su_range s) -> sg_end (su_range s) <= sg_end range ->
  exists s', suggestion_expand s input range = Some (Ok s') /\ su_range s' = range /\ suggestion_apply s' input = suggestion_apply s input.
Proof.
  intros Hi -> (pre1 & mid1 & post1 & E & Hr) Hs He. unfold suggestion_expand. rewrite Hr in *. cbn [range_of sg_start sg_end] in *.
  destruct (Z.ltb_spec (utf16_length pre1) (utf16_length pre)); [lia|]. destruct (Z.ltb_spec (utf16_length (pre ++ mid)) (utf16_length (pre1 ++ mid1))); [lia|]. cbn [orb].
  destruct (decide (range_of pre mid = range_of pre1 mid1)) as [Heq|_]; [exists s; by rewrite Hr|].
  destruct (prefix_of pre (mid ++ post) pre1 (mid1 ++ post1)) as (x & -> & _); [congruence|done|].
  destruct (prefix_of ((pre ++ x) ++ mid1) post1 (pre ++ mid) post) as (y & E2 & ->); [rewrite <- !app_assoc in *; congruence|done|]. clear Hs He.
  rewrite range_between_of, E2, range_between_of. cbn [mbind option_bind]. unfold checked_byte_range.
  assert (input = pre ++ x ++ (mid1 ++ y ++ post)) as H1 by (rewrite E, <- !app_assoc; done). assert (input = ((pre ++ x) ++ mid1) ++ y ++ post) as H2 by (rewrite E, <- !app_assoc; done).
  rewrite (byte_range_of _ _ _ _ H1), (byte_range_of _ _ _ _ H2), (slice_mid _ _ _ _ H1), (slice_mid _ _ _ _ H2). cbn [mbind option_bind]. eexists. split; [done|]. split; [done|].
  rewrite (apply_at input pre mid post) by done. rewrite (apply_at input (pre ++ x) mid1 (y ++ post)) by done. cbn [su_text]. by rewrite <- !app_assoc.
Qed.

(** ** Lists of suggestions *)

Section Lists.
  Context (to_lowercase : text -> text).

Lemma insert_suggestion_perm s l : insert_suggestion to_lowercase s l ≡ₚ s :: l.
Proof. induction l as [|x l IH]; cbn [insert_suggestion]; [done|]. destruct (compare_ignore_case to_lowercase s x); [|done|]; rewrite IH; apply Permutation_swap. Qed.

Lemma insert_all_perm l acc : foldl (fun sorted s => insert_suggestion to_lowercase s sorted) acc l ≡ₚ acc ++ l.
Proof.
  revert acc. induction l as [|x l IH]; intros acc; cbn [foldl]; [by rewrite app_nil_r|]. rewrite IH, insert_suggestion_perm. cbn [app]. apply Permutation_middle.
Qed.

Lemma comparable_flip l a b : comparable to_lowercase l -> a ∈ l -> b ∈ l -> compare_ignore_case to_lowercase b a = CompOpp (compare_ignore_case to_lowercase a b).
Proof. unfold comparable. rewrite Forall_forall. intros H Ha Hb. specialize (H a Ha). rewrite Forall_forall in H. by apply H. Qed.

Abbreviation sorted := (Sorted (suggestion_le to_lowercase)).

Lemma insert_suggestion_sorted l s sofar : comparable to_lowercase l -> s ∈ l -> (forall x, x ∈ sofar -> x ∈ l) -> sorted sofar -> sorted (insert_suggestion to_lowercase s sofar).
Proof.
  intros Hl Hs Hin. induction 1 as [|x sofar Hsorted IH Hhd]; cbn [insert_suggestion]; [by repeat constructor|].
  specialize (IH ltac:(intros y Hy; apply Hin; by right)).
  assert (compare_ignore_case to_lowercase s x <> Lt -> suggestion_le to_lowercase x s) as Hge.
  { unfold suggestion_le. rewrite (comparable_flip l s x Hl Hs); [|apply Hin; by left]. by destruct (compare_ignore_case to_lowercase s x). }
  assert (compare_ignore_case to_lowercase s x <> Lt -> HdRel (suggestion_le to_lowercase) x (insert_suggestion to_lowercase s sofar)) as Hcons.
  { intros Hx. destruct Hhd as [|y sofar Hy]; cbn [insert_suggestion]; [constructor; auto|]. destruct (compare_ignore_case to_lowercase s y); constructor; auto. }
  destruct (compare_ignore_case to_lowercase s x) eqn:E; try (constructor; [exact IH|by apply Hcons]).
  constructor; [by constructor|]. constructor. unfold suggestion_le. congruence.
Qed.

Lemma sort_suggestions_ok l out : sort_suggestions to_lowercase l = Some out -> out ≡ₚ l /\ sorted out.
Proof.
  unfold sort_suggestions. destruct (decide (comparable to_lowercase l)) as [Hl|]; [|done]. intros [= <-]. split; [apply (insert_all_perm l [])|].
  assert (forall rest acc, (forall x, x ∈ rest -> x ∈ l) -> (forall x, x ∈ acc -> x ∈ l) -> sorted acc -> sorted (foldl (fun sorted s => insert_suggestion to_lowercase s sorted) acc rest)) as H.
  { induction rest as [|x rest IH]; intros acc Hr Ha Hs; cbn [foldl]; [done|]. apply IH; [intros y Hy; apply Hr; by right| |].
    - intros y. rewrite insert_suggestion_perm. intros [->|Hy]%elem_of_cons; [apply Hr; by left|by apply Ha].
    - apply (insert_suggestion_sorted l); try done. apply Hr. by left. }
  apply H; [done|by intros x Hx%elem_of_nil|constructor].
Qed.

(** Texts among themselves and integers among themselves are in order. *)
Definition is_text (s : Suggestion) : Prop := su_integer s = None.
Definition orderly (l : list Suggestion) : Prop := Forall is_text l \/ exists range, Forall (fun s => su_range s = range /\ is_Some (su_integer s)) l.

Lemma comparable_by {K} (key : Suggestion -> K) (cmp : K -> K -> comparison) l :
  (forall a b, a ∈ l -> b ∈ l -> compare_ignore_case to_lowercase a b = cmp (key a) (key b)) ->
  (forall x y, cmp y x = CompOpp (cmp x y)) -> (forall x y z, cmp x y <> Gt -> cmp y z <> Gt -> cmp x z <> Gt) -> comparable to_lowercase l.
Proof.
  intros Hc Ho Ht. unfold comparable, suggestion_le. rewrite Forall_forall. intros a Ha. rewrite Forall_forall. intros b Hb. rewrite !Hc by done. split; [apply Ho|].
  rewrite Forall_forall. intros c Hcl. rewrite !Hc by done. apply Ht.
Qed.

Lemma texts_comparable l : Forall is_text l -> comparable to_lowercase l.
Proof.
  rewrite Forall_forall. intros Hl. apply (comparable_by (fun s => to_lowercase (su_text s)) text_compare).
  - intros a b Ha Hb. unfold compare_ignore_case. by rewrite (Hl a Ha).
  - intros x y. apply text_compare_antisym.
  - intros x y z. apply (text_le_trans x y z).
Qed.

Lemma integers_comparable l : Forall (fun s => is_Some (su_integer s)) l -> comparable to_lowercase l.
Proof.
  rewrite Forall_forall. intros Hl. apply (comparable_by (fun s => default 0 (su_integer s)) Z.compare).
  - intros a b Ha Hb. unfold compare_ignore_case. destruct (Hl a Ha) as [x ->], (Hl b Hb) as [y ->]. done.
  - intros x y. apply Z.compare_antisym.
  - intros x y z.  destruct (Z.compare_spec x y), (Z.compare_spec y z), (Z.compare_spec x z); try done; lia.
Qed.

Lemma comparable_sorts l : comparable to_lowercase l -> is_Some (sort_suggestions to_lowercase l).
Proof. intros H. unfold sort_suggestions. rewrite decide_True by done. eauto. Qed.

(** The suggestions of [out] are what those of [l] are, as replacements. *)
Definition same_replacements (input : text) (range : StringRange) (l out : list Suggestion) : Prop :=
  (forall s', s' ∈ out -> su_range s' = range /\ exists s, s ∈ l /\ suggestion_apply s' input = suggestion_apply s input) /\
  (forall s, s ∈ l -> exists s', s' ∈ out /\ suggestion_apply s' input = suggestion_apply s input).

Lemma expand_all_ok input (pre mid post : text) range l acc :
  input = pre ++ mid ++ post -> range = range_of pre mid ->
  Forall (fun s => suggestion_valid input s /\ sg_start range <= sg_start (su_range s) /\ sg_end (su_range s) <= sg_end range) l -> NoDup acc ->
  exists out, expand_all input range l acc = Some (Ok out) /\ NoDup out /\
    (forall x, x ∈ out <-> x ∈ acc \/ exists s, s ∈ l /\ suggestion_expand s input range = Some (Ok x)).
Proof.
  intros Hi Hr Hl. revert acc. induction Hl as [|s l (Hv & Hs & He) Hl IH]; intros acc Hnd; cbn [expand_all]; [exists acc; set_solver|].
  destruct (expand_at input pre mid post range s Hi Hr Hv Hs He) as (s' & E & _). rewrite E. cbn [mbind option_bind].
  destruct (IH (if decide (s' ∈ acc) then acc else acc ++ [s'])) as (out & -> & Hout & Hx).
  - destruct (decide (s' ∈ acc)) as [|Hn]; [done|]. apply NoDup_app. split; [done|]. split; [|apply NoDup_singleton]. by intros x Hx ->%list_elem_of_singleton.
  - exists out. split; [done|]. split; [done|]. intros x. rewrite Hx. destruct (decide (s' ∈ acc)) as [Hin|Hin]; split.
    + intros [?|(y & ? & ?)]; [by left|right; exists y; set_solver].
    + intros [?|(y & [->|?]%elem_of_cons & Ey)]; [by left|rewrite E in Ey; injection Ey as <-; by left|right; by exists y].
    + intros [[?|?]%elem_of_app|(y & ? & ?)]; [by left|right; exists s; set_solver|right; exists y; set_solver].
    + intros [?|(y & [->|?]%elem_of_cons & Ey)]; [set_solver|rewrite E in Ey; injection Ey as <-; set_solver|right; by exists y].
Qed.

(** The smallest range that has all of [l]. *)
Lemma fold_start l start : Forall (fun s => sg_start (su_range s) <= start) l -> l <> [] ->
  let m := foldl (fun start s => Z.min start (sg_start (su_range s))) start l in
  (exists s, s ∈ l /\ m = sg_start (su_range s)) /\ (forall s, s ∈ l -> m <= sg_start (su_range s)).
Proof.
  induction l as [|x l IH] using rev_ind; intros Hl Hne m; [done|]. apply Forall_app in Hl as [Hl Hx]. rewrite Forall_singleton in Hx. cbv beta in Hx. unfold m. rewrite foldl_app. cbn [foldl].
  destruct l as [|y l]; [cbn [foldl app]; rewrite Z.min_r by lia; split; [exists x; split; [by left|done]|intros s ->%list_elem_of_singleton; lia]|].
  destruct (IH Hl ltac:(done)) as [(z & Hz & Ez) Hmin]. set (n := foldl _ start (y :: l)) in *. split.
  - destruct (Z.min_spec n (sg_start (su_range x))) as [[_ ->]|[_ ->]]; [exists z; split; [set_solver|done]|exists x; split; [set_solver|done]].
  - intros s [Hs|Hs]%elem_of_app; [specialize (Hmin s Hs); lia|]. apply list_elem_of_singleton in Hs as ->. lia.
Qed.

Lemma fold_end l end_ : Forall (fun s => end_ <= sg_end (su_range s)) l -> l <> [] ->
  let m := foldl (fun end_ s => Z.max end_ (sg_end (su_range s))) end_ l in
  (exists s, s ∈ l /\ m = sg_end (su_range s)) /\ (forall s, s ∈ l -> sg_end (su_range s) <= m).
Proof.
  induction l as [|x l IH] using rev_ind; intros Hl Hne m; [done|]. apply Forall_app in Hl as [Hl Hx]. rewrite Forall_singleton in Hx. cbv beta in Hx. unfold m. rewrite foldl_app. cbn [foldl].
  destruct l as [|y l]; [cbn [foldl app]; rewrite Z.max_r by lia; split; [exists x; split; [by left|done]|intros s ->%list_elem_of_singleton; lia]|].
  destruct (IH Hl ltac:(done)) as [(z & Hz & Ez) Hmax]. set (n := foldl _ end_ (y :: l)) in *. split.
  - destruct (Z.max_spec n (sg_end (su_range x))) as [[_ ->]|[_ ->]]; [exists x; split; [set_solver|done]|exists z; split; [set_solver|done]].
  - intros s [Hs|Hs]%elem_of_app; [specialize (Hmax s Hs); lia|]. apply list_elem_of_singleton in Hs as ->. lia.
Qed.

Lemma valid_bounds input s : suggestion_valid input s -> 0 <= sg_start (su_range s) /\ sg_start (su_range s) <= sg_end (su_range s) <= utf16_length input.
Proof.
  intros (pre & mid & post & -> & ->). cbn [range_of sg_start sg_end]. rewrite !utf16_length_app. pose proof (utf16_length_nonneg pre). pose proof (utf16_length_nonneg mid).
  pose proof (utf16_length_nonneg post). lia.
Qed.

(** A range from where one part begins to where another ends. *)
Lemma range_spans input s1 s2 : suggestion_valid input s1 -> suggestion_valid input s2 -> sg_start (su_range s1) <= sg_end (su_range s2) ->
  exists pre mid post, input = pre ++ mid ++ post /\ mkRange (sg_start (su_range s1)) (sg_end (su_range s2)) = range_of pre mid /\
    range_between (sg_start (su_range s1)) (sg_end (su_range s2)) = Some (range_of pre mid).
Proof.
  intros (pre1 & mid1 & post1 & E1 & ->) (pre2 & mid2 & post2 & E2 & ->) Hle. cbn [range_of sg_start sg_end] in *. rewrite app_assoc in E2.
  destruct (prefix_of pre1 (mid1 ++ post1) (pre2 ++ mid2) post2) as (x & Ex & Ep); [congruence|done|]. exists pre1, x, post2. rewrite E1, Ep, Ex. split; [done|]. split; [done|]. apply range_between_of.
Qed.

(** A computation that panics only if not [calm], reports no error, and otherwise gives a
    result with [Q]. *)
Definition delivers {R} (calm : Prop) (Q : R -> Prop) (r : option (result R SuggestionError)) : Prop :=
  match r with Some (Ok out) => Q out | Some (Err _) => False | None => ~ calm end.

Lemma expand_kind s input range x : suggestion_expand s input range = Some (Ok x) -> x = s \/ is_text x.
Proof.
  unfold suggestion_expand. destruct (_ || _); [done|]. case_decide; [intros [= <-]; by left|]. intros (prefix & _ & H1)%bind_Some.
  destruct (checked_byte_range _ _) as [[p1 p2]|]; [|done]. apply bind_Some in H1 as (suffix & _ & H1). destruct (checked_byte_range _ _) as [[s1 s2]|]; [|done].
  apply bind_Some in H1 as (t1 & _ & H1). apply bind_Some in H1 as (t2 & _ & [= <-]). by right.
Qed.

Lemma expand_same s input : suggestion_expand s input (su_range s) = Some (Ok s).
Proof. unfold suggestion_expand. rewrite !Z.ltb_irrefl. cbn [orb]. by rewrite decide_True. Qed.

Definition created (input : text) (l : list Suggestion) (out : Suggestions) : Prop :=
  NoDup (ss_suggestions out) /\ sorted (ss_suggestions out) /\ same_replacements input (ss_range out) l (ss_suggestions out) /\
  Forall (suggestion_valid input) (ss_suggestions out) /\ (Forall is_text l -> Forall is_text (ss_suggestions out)).

Lemma expanded_comparable input range l out : orderly l -> l <> [] -> (forall r, (forall s, s ∈ l -> su_range s = r) -> range = r) ->
  (forall x, x ∈ out -> exists s, s ∈ l /\ suggestion_expand s input range = Some (Ok x)) -> comparable to_lowercase out.
Proof.
  intros [Hl|[r Hl]] Hne Hr Hx; rewrite Forall_forall in Hl.
  - apply texts_comparable, Forall_forall. intros x (s & Hs & [->|?]%expand_kind)%Hx; [by apply Hl|done].
  - apply integers_comparable, Forall_forall. intros x (s & Hs & E)%Hx. destruct (Hl s Hs) as [Er Hi].
    rewrite (Hr r) in E by (intros y Hy; by apply Hl). rewrite <- Er, expand_same in E. by injection E as <-.
Qed.

Lemma create_ok input l : utf16_length input <= USIZE_MAX -> Forall (suggestion_valid input) l ->
  delivers (orderly l) (created input l) (suggestions_create to_lowercase input l).
Proof.
  intros Hlen Hl. unfold suggestions_create. destruct (decide (l = [])) as [->|Hne].
  { split; [apply NoDup_nil_2|]. split; [constructor|]. split; [|by split; [constructor|]]. split; by intros s Hs%elem_of_nil. }
  destruct (fold_start l USIZE_MAX) as [(s1 & Hs1 & E1) Hmin]; [|done|].
  { eapply Forall_impl; [exact Hl|]. intros s Hs%valid_bounds. lia. }
  destruct (fold_end l 0) as [(s2 & Hs2 & E2) Hmax]; [|done|].
  { eapply Forall_impl; [exact Hl|]. intros s Hs%valid_bounds. lia. }
  cbv zeta in *. rewrite E1, E2 in *. rewrite Forall_forall in Hl. pose proof (valid_bounds _ _ (Hl _ Hs2)) as Hb.
  destruct (range_spans input s1 s2 (Hl _ Hs1) (Hl _ Hs2)) as (pre & mid & post & Hi & Hr & ->); [specialize (Hmin s2 Hs2); lia|]. cbn [mbind option_bind].
  assert (forall s, s ∈ l -> suggestion_valid input s /\ sg_start (range_of pre mid) <= sg_start (su_range s) /\ sg_end (su_range s) <= sg_end (range_of pre mid)) as Hin.
  { intros s Hs. rewrite <- Hr. cbn [sg_start sg_end]. auto. }
  destruct (expand_all_ok input pre mid post (range_of pre mid) l [] Hi eq_refl) as (out & -> & Hnd & Hx); [by apply Forall_forall|apply NoDup_nil_2|]. cbn [mbind option_bind].
  assert (forall s, s ∈ l -> exists s', suggestion_expand s input (range_of pre mid) = Some (Ok s') /\ su_range s' = range_of pre mid /\ suggestion_apply s' input = suggestion_apply s input) as Hexp.
  { intros s Hs. destruct (Hin s Hs) as (Hv & Ha & He). by eapply expand_at. }
  assert (forall x, x ∈ out <-> exists s, s ∈ l /\ suggestion_expand s input (range_of pre mid) = Some (Ok x)) as Hout by (intros x; rewrite Hx; set_solver).
  clear Hx. destruct (sort_suggestions to_lowercase out) as [final|] eqn:Es; cbn [mbind option_bind delivers].
  2:{ intros Ho. apply eq_None_not_Some in Es. apply Es, comparable_sorts. apply (expanded_comparable input (range_of pre mid) l); try done; [|intros x; by apply Hout].
      intros r Hsame. rewrite <- Hr, (Hsame s1 Hs1), (Hsame s2 Hs2). by destruct r. }
  destruct (sort_suggestions_ok _ _ Es) as [Hperm Hsort]. setoid_rewrite <- Hperm in Hout. clear Es. unfold created. cbn [ss_suggestions ss_range].
  split; [by rewrite Hperm|]. split; [done|]. split; [split|split].
  - intros s' (s & Hs & E)%Hout. destruct (Hexp s Hs) as (s0 & E0 & Hr0 & Ha). rewrite E in E0. injection E0 as <-. split; [done|]. by exists s.
  - intros s Hs. destruct (Hexp s Hs) as (s0 & E0 & _ & Ha). exists s0. split; [|done]. apply Hout. by exists s.
  - apply Forall_forall. intros s' (s & Hs & E)%Hout. destruct (Hexp s Hs) as (s0 & E0 & Hr0 & _). rewrite E in E0. injection E0 as <-. by exists pre, mid, post.
  - rewrite !Forall_forall. intros Ht s' (s & Hs & [->|?]%expand_kind)%Hout; [by apply Ht|done].
Qed.
End Lists.

(** ** The builder *)

Definition boundary (input : text) (position : Z) : Prop := exists pre post, input = pre ++ post /\ position = utf16_length pre.

(** The suggestions replace parts of the input, and the builder starts between characters. *)
Definition builder_valid (input : text) (b : SuggestionsBuilder) : Prop :=
  sb_input b = input /\ Forall (suggestion_valid input) (sb_suggestions b) /\ exists pre post, input = pre ++ post /\ sb_start b = utf16_length pre /\ sb_byte_start b = utf8_length pre.

(** An argument adds suggestions to the builder it is given. *)
Class SuggestionSource {A S V} (list_suggestions : A -> S -> list (text * ParsedArgument V) -> SuggestionsBuilder -> option SuggestionsBuilder) : Prop :=
  source_lists input a source arguments b : builder_valid input b -> exists b', list_suggestions a source arguments b = Some b' /\ builder_valid input b'.

(** Arguments that suggest texts and no integers. *)
Definition suggests_texts {A S V} (list_suggestions : A -> S -> list (text * ParsedArgument V) -> SuggestionsBuilder -> option SuggestionsBuilder) : Prop :=
  forall a source arguments b b', Forall is_text (sb_suggestions b) -> list_suggestions a source arguments b = Some b' -> Forall is_text (sb_suggestions b').

Lemma builder_new_ok to_lowercase input start : boundary input start -> exists b, suggestions_builder_new to_lowercase input start = Some (Ok b) /\ builder_valid input b /\ sb_suggestions b = [].
Proof.
  intros (pre & post & -> & ->). unfold suggestions_builder_new, byte_range, range_at. cbn [sg_start sg_end]. rewrite byte_index_at. cbn [mbind option_bind].
  rewrite drop_bytes_app. cbn [mbind option_bind]. eexists. split; [done|]. split; [|done]. split; [done|]. split; [constructor|]. by exists pre, post.
Qed.

Lemma suggest_ok input b t : builder_valid input b -> exists b', suggest b t = Some b' /\ builder_valid input b'.
Proof.
  intros (Hi & Hs & pre & post & E & H1 & H2). unfold suggest, builder_remaining, builder_range. rewrite Hi, H1, H2. pose proof (range_between_of pre post) as Hb. rewrite <- E in Hb.
  rewrite Hb, E, drop_bytes_app. cbn [mbind option_bind]. case_decide; eexists; (split; [done|]); [split; [congruence|]; split; [by rewrite <- E|]; by exists pre, post|].
  split; [unfold builder_push; cbn; congruence|]. split; [|by exists pre, post]. apply Forall_app_2; [by rewrite <- E|]. constructor; [|constructor]. exists pre, post, []. by rewrite app_nil_r.
Qed.

Lemma suggest_texts b t b' : Forall is_text (sb_suggestions b) -> suggest b t = Some b' -> Forall is_text (sb_suggestions b').
Proof.
  unfold suggest. intros Hb (rest & _ & H)%bind_Some. case_decide; [by injection H as <-|]. apply bind_Some in H as (range & _ & [= <-]).
  cbn [builder_push sb_suggestions]. apply Forall_app_2; [done|]. by repeat constructor.
Qed.

Lemma builtin_texts {F S V} : suggests_texts (fun (a : ArgumentType F) (_ : S) (_ : list (text * ParsedArgument V)) b => argument_suggest a b).
Proof.
  assert (forall (c : bool) b t b', Forall is_text (sb_suggestions b) -> (if c then suggest b t else Some b) = Some b' -> Forall is_text (sb_suggestions b')) as H.
  { intros [] b t b' Hb; [by apply suggest_texts|by intros [= <-]]. }
  intros a source arguments b b' Hb. unfold argument_suggest. destruct a; try (by intros [= <-]). intros (b1 & H1 & H2)%bind_Some.
  eapply H, H2. by eapply H, H1.
Qed.

#[global] Instance builtin_suggestions {F S V} : SuggestionSource (fun (a : ArgumentType F) (_ : S) (_ : list (text * ParsedArgument V)) b => argument_suggest a b).
Proof.
  intros input a source arguments b Hb. unfold argument_suggest. destruct a; try (by exists b).
  assert (exists b1, (if bool_decide (is_Some (strip_prefix (sb_remaining_lowercase b) (lit "true"))) then suggest b (lit "true") else Some b) = Some b1 /\ builder_valid input b1) as (b1 & -> & Hb1).
  { case_bool_decide; [by apply suggest_ok|by exists b]. }
  cbn [mbind option_bind]. case_bool_decide; [by apply suggest_ok|by exists b1].
Qed.

(** ** Completions *)

Section Completions.
  Context {F S A V : Type} (to_lowercase : text -> text) (predicate : Z -> S -> bool).
  Context (list_suggestions : A -> S -> list (text * ParsedArgument V) -> SuggestionsBuilder -> option SuggestionsBuilder) (d : CommandDispatcher A).
  Context {safe : SafeArena d} {lawful : SuggestionSource list_suggestions}.
  Context (input : text) (source : S).
  Abbreviation Ctx := (ParsedCommandContext S V).

Lemma token_bounds (info : NodeInfo A) range : token_of input info range -> boundary input (sg_start range) /\ (sg_end range < utf16_length input -> boundary input (sg_end range + 1)).
Proof using.
  intros (before & word & after & E & -> & Hafter & _). cbn [sg_start sg_end]. split; [by exists before, (word ++ after)|]. intros Hlt. destruct Hafter as [->|Hh].
  - rewrite E, app_nil_r in Hlt. lia.
  - destruct after as [|c after]; [done|]. injection Hh as ->. exists (before ++ word ++ [SPACE]), after. split; [by rewrite E, <- !app_assoc|]. rewrite app_assoc, (utf16_length_app _ [SPACE]). done.
Qed.

Lemma token_path_last root start nodes last_id next :
  token_path predicate d input source root start nodes last_id next ->
  (forall n, n ∈ nodes -> exists info : NodeInfo A, token_of input info (pn_range n)) /\
  match last nodes with None => last_id = root /\ next = start | Some n => last_id = pn_node n /\ next = sg_end (pn_range n) + 1 end.
Proof using.
  induction 1 as [|nodes l next parent id node range _ [IH _] _ _ _ _ Ht _]; [split; [by intros n Hn%elem_of_nil|done]|]. rewrite last_snoc. split; [|done].
  intros n [Hn|Hn]%elem_of_app; [by apply IH|]. apply list_elem_of_singleton in Hn as ->. by exists (cn_info node).
Qed.

Lemma touched_node_in cursor previous nodes x : snd (touched_node cursor previous nodes) = Some x -> exists n, n ∈ nodes /\ x = sg_start (pn_range n).
Proof using.
  revert previous. induction nodes as [|n nodes IH]; intros previous; cbn [touched_node]; [done|]. destruct (_ && _); cbn [snd]; [intros [= <-]; exists n; split; [by left|done]|].
  intros (m & Hm & ->)%IH. exists m. split; [by right|done].
Qed.

(** One context, whose range begins at a boundary. *)
Lemma context_here (c : Ctx) start last_id next :
  token_path predicate d input source (pc_root c) start (pc_nodes c) last_id next -> boundary input start -> sg_start (pc_range c) = start ->
  (sg_end (pc_range c) < utf16_length input -> pc_nodes c <> [] -> sg_end (pc_range c) = next - 1) ->
  (sg_end (pc_range c) < utf16_length input -> boundary input (sc_start (last_context c))) /\
  (forall cursor, boundary input (default (sg_start (pc_range c)) (snd (touched_node cursor (pc_root c) (pc_nodes c))))).
Proof using.
  intros Hp Hb Hs He. destruct (token_path_last _ _ _ _ _ Hp) as [Hin Hl]. split.
  - intros Hlt. specialize (He Hlt). unfold last_context. destruct (last (pc_nodes c)) as [n|] eqn:El; cbn [sc_start]; [|by rewrite Hs]. destruct Hl as [_ ->].
    destruct (Hin n) as [info Ht]; [by apply last_Some_elem_of|]. destruct (token_bounds _ _ Ht) as [_ H]. apply H. rewrite He in Hlt by (by intros Hn; rewrite Hn in El). lia.
  - intros cursor. destruct (snd (touched_node cursor (pc_root c) (pc_nodes c))) as [x|] eqn:E; [|by rewrite Hs]. cbn [default]. apply touched_node_in in E as (n & Hn & ->).
    destruct (Hin n Hn) as [info Ht]. by destruct (token_bounds _ _ Ht).
Qed.

Lemma find_unfold (c : Ctx) cursor :
  find_suggestion_context c cursor =
    (if cursor <? sg_start (pc_range c) then None
     else if sg_end (pc_range c) <? cursor then match pc_child c with Some child => find_suggestion_context child cursor | None => Some (last_context c) end
     else Some (mkSuggestionContext (fst (touched_node cursor (pc_root c) (pc_nodes c))) (default (sg_start (pc_range c)) (snd (touched_node cursor (pc_root c) (pc_nodes c)))) c)).
Proof using. destruct c as [? ? ? ? nodes ? [child|] ? ?]; cbn; by destruct (touched_node _ _ nodes). Qed.

Lemma find_context_ok (c : Ctx) start stop sc :
  parsed_ok predicate d input source c start stop -> boundary input start -> find_suggestion_context c (utf16_length input) = Some sc -> boundary input (sc_start sc).
Proof using.
  induction 1 as [c start stop l next Hs Hp Hg Hc Hstop Hrg|c start stop l next n child r Hs Hp Hg Hc Hn Hr Ht Hne Hrg _ IH]; intros Hb; rewrite find_unfold, Hc, Hrg; cbn [sg_start sg_end];
    (destruct (context_here c start l next Hp Hb) as [H1 H2]; [by rewrite Hrg|by rewrite Hrg; cbn [sg_end]; intros _ Hne'; rewrite ?decide_False by done|]); rewrite Hrg in H1, H2; cbn [sg_start sg_end] in H1, H2.
  - destruct (_ <? start); [done|]. destruct (Z.ltb_spec (if decide (pc_nodes c = []) then start else next - 1) (utf16_length input)) as [Hlt|_]; intros [= <-]; [by apply H1|apply H2].
  - destruct (_ <? start); [done|]. destruct (Z.ltb_spec (next - 1) (utf16_length input)) as [Hlt|_]; [|intros [= <-]; apply H2]. apply IH. specialize (H1 Hlt).
    destruct (token_path_last _ _ _ _ _ Hp) as [_ Hl]. unfold last_context in H1. destruct (last (pc_nodes c)) eqn:El; [|by apply last_None in El]. destruct Hl as [_ ->]. exact H1.
Qed.

(** A child of [parent] that the source may use suggests [s] at [start]. *)
Definition offered (parent : CommandNode A) (start : Z) (context : Ctx) (s : Suggestion) : Prop :=
  exists id child b b', id ∈ cn_children parent /\ dispatcher_node d id = Some child /\ requirement_allows predicate (nf_requirement (cn_info child)) source = true /\
    suggestions_builder_new to_lowercase input start = Some (Ok b) /\ child_suggestions to_lowercase list_suggestions (cn_info child) context b = Some b' /\ s ∈ sb_suggestions b'.

(** The suggestion replaces what one that was offered replaces. *)
Definition replaces_offered (parent : CommandNode A) (start : Z) (context : Ctx) (s' : Suggestion) : Prop :=
  suggestion_valid input s' /\ exists s, offered parent start context s /\ suggestion_apply s' input = suggestion_apply s input.
Definition set_offered (parent : CommandNode A) (start : Z) (context : Ctx) (set : Suggestions) : Prop :=
  (forall s', s' ∈ ss_suggestions set -> replaces_offered parent start context s') /\ (suggests_texts list_suggestions -> Forall is_text (ss_suggestions set)).

Lemma child_suggestions_ok info context b : nf_data info <> Root -> builder_valid input b ->
  exists b', child_suggestions to_lowercase list_suggestions info context b = Some b' /\ builder_valid input b' /\
    (suggests_texts list_suggestions -> Forall is_text (sb_suggestions b) -> Forall is_text (sb_suggestions b')).
Proof using lawful.
  intros Hr Hb. unfold child_suggestions. destruct (nf_data info) as [|literal|name a]; [done| |].
  - case_bool_decide; [|by exists b]. destruct (suggest_ok input b literal Hb) as (b' & E & Hb'). exists b'. split; [done|]. split; [done|].
    intros _ Ht. by eapply suggest_texts.
  - destruct (source_lists input a (pc_source context) (pc_arguments context) b Hb) as (b' & E & Hb'). exists b'. split; [done|]. split; [done|].
    intros H Ht. by apply (H _ _ _ _ _ Ht E).
Qed.

Lemma collect_ok pid parent start context children sets :
  utf16_length input <= USIZE_MAX -> dispatcher_node d pid = Some parent -> boundary input start -> (forall id, id ∈ children -> id ∈ cn_children parent) ->
  Forall (set_offered parent start context) sets ->
  delivers (suggests_texts list_suggestions) (Forall (set_offered parent start context))
    (complete_children to_lowercase predicate list_suggestions d input source start context children sets).
Proof using safe lawful.
  intros Hlen Hp Hb. revert sets. induction children as [|id children IH]; intros sets Hin Hsets; cbn [complete_children]; [done|].
  specialize (fun sets => IH sets ltac:(intros x Hx; apply Hin; by right)). destruct (safe_children pid parent id Hp) as (child & Hc & Hroot); [apply Hin; by left|].
  rewrite (lookup_node _ _ _ Hc). cbn [mbind option_bind]. destruct (requirement_allows _ _ source) eqn:Hal; cbn [negb]; [|by apply IH].
  destruct (builder_new_ok to_lowercase input start Hb) as (b & Eb & Hbv & Hnil). rewrite Eb. cbn [mbind option_bind].
  destruct (child_suggestions_ok (cn_info child) context b Hroot Hbv) as (b' & Eb' & (Hi & Hs & _) & Ht). rewrite Eb'. cbn [mbind option_bind]. unfold builder_build. rewrite Hi.
  rewrite Hnil in Ht. specialize (fun H => Ht H ltac:(constructor)).
  pose proof (create_ok to_lowercase input (sb_suggestions b') Hlen Hs) as Hcr. destruct (suggestions_create _ _ _) as [[set|]|]; cbn [delivers mbind option_bind] in *; [|done|].
  2:{ intros H. apply Hcr. left. by apply Ht. }
  destruct Hcr as (_ & _ & [Hsame _] & Hvalid & Htexts). apply IH. apply Forall_app_2; [done|].
  constructor; [|constructor]. split; [|auto]. intros s' Hs'. rewrite Forall_forall in Hvalid. split; [by apply Hvalid|]. destruct (Hsame s' Hs') as (_ & s & Hin' & Ha). exists s. split; [|done].
  exists id, child, b, b'. split; [apply Hin; by left|]. done.
Qed.

Lemma merged_sets (P : Suggestion -> Prop) rest acc : Forall P acc -> Forall (fun set => Forall P (ss_suggestions set)) rest ->
  Forall P (foldl (fun merged set => merged ++ ss_suggestions set) acc rest).
Proof using. intros Hacc Hl. revert acc Hacc. induction Hl as [|x l Hx Hl IH]; intros acc Hacc; [done|]. cbn [foldl]. apply IH. by apply Forall_app_2. Qed.

Lemma merge_ok parent start context sets : utf16_length input <= USIZE_MAX -> Forall (set_offered parent start context) sets ->
  delivers (suggests_texts list_suggestions) (set_offered parent start context) (suggestions_merge to_lowercase input sets).
Proof using.
  intros Hlen Hs. unfold suggestions_merge. destruct sets as [|first [|second rest]].
  - split; [by intros s' Hs'%elem_of_nil|constructor].
  - by inversion Hs.
  - inversion Hs as [|? ? [H1 T1] Hs']; subst. inversion Hs' as [|? ? [H2 T2] Hs'']; subst. set (l := foldl _ _ rest).
    assert (Forall (replaces_offered parent start context) l) as Hl.
    { apply merged_sets; [apply Forall_app_2; by apply Forall_forall|]. eapply Forall_impl; [exact Hs''|]. intros set [H _]. by apply Forall_forall. }
    assert (suggests_texts list_suggestions -> Forall is_text l) as Ht.
    { intros H. apply merged_sets; [apply Forall_app_2; auto|]. eapply Forall_impl; [exact Hs''|]. intros set [_ H']. auto. }
    pose proof (create_ok to_lowercase input l Hlen) as Hcr. specialize (Hcr ltac:(eapply Forall_impl; [exact Hl|]; by intros s [? _])).
    destruct (suggestions_create _ _ _) as [[out|]|]; cbn [delivers] in *; [|done|by intros H; apply Hcr; left; apply Ht].
    destruct Hcr as (_ & _ & [Hsame _] & Hvalid & Htexts). split; [|auto]. rewrite Forall_forall in Hvalid, Hl. intros s' Hin. split; [by apply Hvalid|].
    destruct (Hsame s' Hin) as (_ & s & Hsl & Ha). destruct (Hl s Hsl) as (_ & s0 & Ho & E0). exists s0. by rewrite Ha.
Qed.

(** Every suggestion replaces what a child that the source may use suggests. *)
Definition completed (p : ParseResults F S V) (out : Suggestions) : Prop :=
  forall s', s' ∈ ss_suggestions out -> exists sc parent s, find_suggestion_context (ps_context p) (utf16_length input) = Some sc /\ dispatcher_node d (sc_parent sc) = Some parent /\
      offered parent (sc_start sc) (sc_context sc) s /\ suggestion_apply s' input = suggestion_apply s input.

Lemma completions_ok (p : ParseResults F S V) :
  utf16_length input <= USIZE_MAX -> parse_sound predicate d input source p 0 ->
  delivers (suggests_texts list_suggestions) (completed p) (completion_suggestions to_lowercase predicate list_suggestions d p).
Proof using safe lawful.
  intros Hlen (before & after & [(Hin & Htot & _) Hi] & Hctx). unfold completion_suggestions. rewrite Htot. assert (sr_input (ps_reader p) = input) as Hinput by congruence. rewrite Hinput.
  destruct (find_suggestion_context (ps_context p) (utf16_length input)) as [sc|] eqn:Ef; [|by intros s' Hs'%elem_of_nil].
  destruct (dispatcher_node d (sc_parent sc)) as [parent|] eqn:Ep; [|by intros s' Hs'%elem_of_nil].
  pose proof (find_context_ok _ _ _ sc Hctx) as Hb. specialize (Hb ltac:(by exists [], input) Ef).
  assert (Z.min (sc_start sc) (utf16_length input) = sc_start sc) as ->.
  { destruct Hb as (pre & post & -> & ->). rewrite utf16_length_app. pose proof (utf16_length_nonneg post). lia. }
  assert (pc_source (ps_context p) = source) as -> by (by inversion Hctx).
  pose proof (collect_ok (sc_parent sc) parent (sc_start sc) (sc_context sc) (cn_children parent) [] Hlen Ep Hb) as Hc. specialize (Hc ltac:(done) ltac:(constructor)).
  destruct (complete_children _ _ _ _ _ _ _ _ _ _) as [[sets|]|]; cbn [delivers mbind option_bind] in *; [|done|done].
  pose proof (merge_ok parent (sc_start sc) (sc_context sc) sets Hlen Hc) as Hm. destruct (suggestions_merge _ _ _) as [[out|]|]; cbn [delivers] in *; [|done|done].
  intros s' Hs'. destruct Hm as [Hm _]. destruct (Hm s' Hs') as (_ & s & Ho & Ha). by exists sc, parent, s.
Qed.
End Completions.

(** C20. Suggestions that replace parts of the input are brought to one range and never to an
    error.  Unless the sort meets a comparison that is no order, there is a result:
    accepting a suggestion of it gives the text that one of the original suggestions gives,
    every original suggestion is still there as such, none is repeated, and each is at most
    the next.  When all suggestions are texts, or all are integers that replace the same
    part, the comparison is an order and there is a result. *)
Theorem suggestions_keep_replacements to_lowercase input l :
  utf16_length input <= USIZE_MAX -> Forall (suggestion_valid input) l ->
  (orderly l -> is_Some (suggestions_create to_lowercase input l)) /\
  forall r, suggestions_create to_lowercase input l = Some r ->
  exists out, r = Ok out /\ NoDup (ss_suggestions out) /\ Sorted (suggestion_le to_lowercase) (ss_suggestions out) /\
    (forall s', s' ∈ ss_suggestions out -> su_range s' = ss_range out /\ exists s, s ∈ l /\ suggestion_apply s' input = suggestion_apply s input) /\
    (forall s, s ∈ l -> exists s', s' ∈ ss_suggestions out /\ suggestion_apply s' input = suggestion_apply s input).
Proof.
  intros Hlen Hl. pose proof (create_ok to_lowercase input l Hlen Hl) as H. destruct (suggestions_create _ _ _) as [[out|]|]; cbn [delivers] in H; [|done|].
  - split; [eauto|]. intros r [= <-]. destruct H as (Hnd & Hs & [H1 H2] & _). by exists out.
  - split; [by intros|done].
Qed.

Lemma suggestions_keep_replacements_witness :
  exists out, suggestions_create (fun t => t) (lit "say hi") [suggestion_new (mkRange 4 6) (lit "hello"); suggestion_new (mkRange 0 3) (lit "tell")] = Some (Ok out) /\
    exists s', s' ∈ ss_suggestions out /\ suggestion_apply s' (lit "say hi") = Some (Ok (lit "tell hi")).
Proof.
  destruct (suggestions_keep_replacements (fun t => t) (lit "say hi") [suggestion_new (mkRange 4 6) (lit "hello"); suggestion_new (mkRange 0 3) (lit "tell")]) as (Hr & H).
  - vm_compute. discriminate.
  - constructor; [by exists (lit "say "), (lit "hi"), []|]. constructor; [by exists [], (lit "say"), (lit " hi")|constructor].
  - destruct Hr as [r Er]; [left; by repeat constructor|]. destruct (H r Er) as (out & -> & _ & _ & _ & Hall). exists out. split; [exact Er|].
    destruct (Hall (suggestion_new (mkRange 0 3) (lit "tell"))) as (s' & Hin & Ha); [set_solver|]. exists s'. split; [exact Hin|]. rewrite Ha. vm_compute. reflexivity.
Defined.

(** Integers are compared as numbers and everything else as text, so that 2 comes before 10,
    10 before the text 1a, and 1a before 2: no sorted order exists. *)
Example suggestion_order_cyclic :
  let range := range_at 0 in
  let two := suggestion_integer range 2 in let ten := suggestion_integer range 10 in let word := suggestion_new range (lit "1a") in
  compare_ignore_case (fun t => t) two ten = Lt /\ compare_ignore_case (fun t => t) ten word = Lt /\ compare_ignore_case (fun t => t) word two = Lt /\
  sort_suggestions (fun t => t) [two; ten; word] = None.
Proof. vm_compute. done. Qed.

(** C19. For a dispatcher built by registering commands and any input, completing a parse of the
    input gives no error, and whenever it returns, each suggestion replaces what a child of
    the node at the end of the input suggests there, a child whose requirement allows the
    source.  It returns when the arguments suggest texts and no integers, as the built-in
    arguments do; with integers among texts the sort of the suggestions may panic. *)
Theorem completions_are_allowed {F S A V} argument_eqb to_lowercase (predicate : Z -> S -> bool) (parse_argument : A -> StringReader -> S -> reading F V)
    (list_suggestions : A -> S -> list (text * ParsedArgument V) -> SuggestionsBuilder -> option SuggestionsBuilder) d input source :
  registered argument_eqb d -> ArgumentParser parse_argument -> SuggestionSource list_suggestions -> utf16_length input <= USIZE_MAX ->
  exists p, parse predicate parse_argument d input source = Some p /\
    (suggests_texts list_suggestions -> is_Some (completion_suggestions to_lowercase predicate list_suggestions d p)) /\
    forall r, completion_suggestions to_lowercase predicate list_suggestions d p = Some r ->
    exists out, r = Ok out /\
    forall s', s' ∈ ss_suggestions out -> exists sc parent s, find_suggestion_context (ps_context p) (utf16_length input) = Some sc /\ dispatcher_node d (sc_parent sc) = Some parent /\
      offered to_lowercase predicate list_suggestions d input source parent (sc_start sc) (sc_context sc) s /\ suggestion_apply s' input = suggestion_apply s input.
Proof.
  intros Hd Hp Hl Hlen. pose proof (registered_safe argument_eqb d Hd) as Hsafe. destruct (parse_returns argument_eqb predicate parse_argument d input source Hd Hp) as (p & E & Hs).
  exists p. split; [done|]. pose proof (completions_ok (safe := Hsafe) to_lowercase predicate list_suggestions d input source p Hlen Hs) as H.
  destruct (completion_suggestions _ _ _ _ _) as [[out|]|]; cbn [delivers] in H; [|done|].
  - split; [eauto|]. intros r [= <-]. by exists out.
  - split; [by intros|done].
Qed.

Lemma completions_are_allowed_witness :
  exists p out, parse (fun p level => p <=? level) (fun a r (_ : Z) => parse_value no_floats a r) example_dispatcher (lit "s") 4 = Some p /\
    completion_suggestions (fun t => t) (fun p level => p <=? level) (fun a (_ : Z) (_ : list (text * ParsedArgument (PrimitiveArgumentValue unit))) b => argument_suggest a b) example_dispatcher p = Some (Ok out) /\
    ss_suggestions out = [suggestion_new (mkRange 0 1) (lit "say")].
Proof.
  destruct (completions_are_allowed argument_type_eqb (fun t => t) (fun p level => p <=? level) (fun a r (_ : Z) => parse_value no_floats a r)
    (fun a (_ : Z) (_ : list (text * ParsedArgument (PrimitiveArgumentValue unit))) b => argument_suggest a b) example_dispatcher (lit "s") 4 example_registered (builtin_arguments no_floats) builtin_suggestions)
    as (p & E & Hr & H); [vm_compute; discriminate|]. destruct (Hr builtin_texts) as [r Er]. destruct (H r Er) as (out & -> & _). rename Er into Ec.
  exists p, out. split; [exact E|]. split; [exact Ec|].
  assert (match parse (fun p level => p <=? level) (fun a r (_ : Z) => parse_value no_floats a r) example_dispatcher (lit "s") 4 with
          | Some p => match completion_suggestions (fun t => t) (fun p level => p <=? level) (fun a (_ : Z) (_ : list (text * ParsedArgument (PrimitiveArgumentValue unit))) b => argument_suggest a b) example_dispatcher p with
                      | Some (Ok out) => ss_suggestions out | _ => [] end
          | None => [] end = [suggestion_new (mkRange 0 1) (lit "say")]) as Ho by (vm_compute; reflexivity).
  rewrite E, Ec in Ho. exact Ho.
Defined.
